(* ===== verification/_CoqProject ===== *)
-Q . S2P
Prelude.v
Ordering.v
Values.v
Text.v
Interference.v
GatewayContract.v
GatewayTelemetry.v
GatewayState.v
GatewayRouting.v
GatewayProtection.v
GatewayMacos.v
GatewayManager.v
GatewayInvariant.v
GatewaySteps.v
GatewayGuarantees.v
GatewayHandlers.v
WatchdogRecord.v
WatchdogContract.v
WatchdogManager.v
WatchdogSafety.v
WatchdogLinux.v
WatchdogCodec.v
WatchdogHistory.v
WatchdogRollup.v
Placement.v
PlacementContract.v
PlacementTopology.v
PlacementAllocator.v
PlacementAllocation.v
PlacementLifecycle.v
PlacementScenario.v
PlacementTrace.v
PlacementIntent.v
PlacementOwnership.v
PlacementStart.v
PlacementProtection.v
ProtectionHandshake.v
PlacementExecutor.v
WatchdogContainment.v
Database.v
DatabaseStorage.v
DatabaseSafety.v
DatabaseMemory.v
DatabaseGuarantees.v
PlacementRows.v
PlacementRoundTrip.v
PlacementDatabase.v
PlacementExclusive.v
AuditContract.v
AuditManager.v
AuditAppend.v
AuditScenario.v
AuditDatabase.v
PrefixFormat.v
PrefixResident.v
PrefixIo.v
PrefixStore.v
PrefixThreads.v
PrefixLifecycle.v
AuthKeys.v
AuthControllers.v
AuthManager.v
AuthLifecycle.v
AuthSafety.v
AuthDatabase.v
AuthScenario.v
AuthControl.v
UpdateContract.v
UpdateVersion.v
UpdateServices.v
UpdateLifecycle.v
UpdateOrder.v
UpdateArtifacts.v
UpdateOutcome.v
UpdateScenario.v
UpdateDatabase.v
UpdateInventory.v
NodeProtection.v
NodeSafety.v
NodeSessions.v
