(* ===== verification/Prelude.v ===== *)
(** * Let's Infer: verification library

    Let's Infer serves language models from a fleet of nodes.  Its Rust core
    ([src/core]) is a set of crates with explicit provider interfaces.  This
    library models the crates that carry the serving and safety logic and proves
    what makes them correct:

    - the _Gateway_ ([core/gateway]) admits requests under key quotas, queues
      them, reserves capacity on a placement group (a running model deployment),
      and offers only routes whose placements are provably protected;
    - _Placement_ ([core/placement]) allocates devices and ports for a group of
      tasks, drives its staging, start, stop, recovery, removal and
      reconciliation, starts an Engine process on a node, publishes a descriptor
      of it in a private slot, and hands out its endpoint once the Watchdog
      acknowledged that the process is protected;
    - the _Database_ ([core/database]) keeps typed records with optimistic
      revisions, idempotent commands and atomic transactions over SQLite; the node
      ([core/node]) keeps placements and one global resource index in it;
    - the _Audit_ ledger ([core/audit]) records every command of a node in a chain
      of hashed events with periodic signed checkpoints;
    - _Authentication_ ([core/authentication]) issues API keys and keeps only salted
      verifiers of their secrets, rotates and revokes them, enrolls the controllers of
      a node by certificate, and decides which request or action is authorized;
    - the _prefix store_ ([cache/letsinfer_prefix_store]) keeps computed key-value
      prefixes of requests in files under a byte capacity, with a resident tier of
      loaded records above it;
    - the _Watchdog_ ([core/watchdog]) samples the node, judges every protected
      process once per tick, latches and contains the ones that exited or were
      OOM-killed, reports the rest as safe, and keeps a durable history;
    - _Update_ ([core/update]) replaces the installed Core by a new release: it stages and
      verifies the candidate, moves the [current] link, restarts the services on it and
      waits until they are stably ready, or goes back, with every phase journalled;
    - the _Interface_ ([core/interface]) holds the validated values and entities
      the crates exchange.

    The parts form one loop: Placement's descriptor is parsed by the Watchdog,
    the Watchdog's acknowledgement is compared by Placement, the receipt of a tick
    seeds the protection leases of the node, and the Gateway accepts a route only with a
    current lease for each of its placements.  The allocator asks the placement
    store for the resources in use; the store answers from the index that every
    committed placement updates in the same transaction.

    ** Files

    - [Prelude]: machine integers, [result], the state-and-error monad [SE] with
      its notations and inversion lemmas, generic list and map lemmas, automation.
      [Ordering]: comparators, stable sorting, minima, and counter maps as
      sums.  [Text]: lines, fields, decimals and UTF-8 as Rust's [str] has them, and
      little-endian integers and texts as byte lists.  [Interference]: triples
      for operations on a table that others change by steps at the same time.
    - [Values]: [interface/li_identity.rs], [li_value.rs].  Every validated type
      with its [parse] or [new].
    - [GatewayContract], [GatewayTelemetry], [GatewayState], [GatewayManager]:
      [gateway/li_gateway_contract.rs], [li_gateway_telemetry.rs],
      [li_gateway_manager.rs].  [GatewayState] is the record under the lock; a
      region the code runs under the lock is a function [<handler>_locked] on it; a
      handler composes provider calls (class [GatewayProviders]) and regions in
      source order.
    - [GatewayProtection], [GatewayMacos]: [li_gateway_protection_lease.rs],
      [li_gateway_macos_placement_safety.rs].  The acceptance step of lease
      snapshots with its high-water marks.
    - [GatewayRouting], [GatewayInvariant], [GatewaySteps], [GatewayGuarantees],
      [GatewayHandlers]: the theorems on these.  [GatewaySteps.gstep] is the
      interleaving semantics of concurrent callers, one step per locked region.
    - [WatchdogRecord], [WatchdogContract], [WatchdogManager], [WatchdogLinux],
      [WatchdogHistory], [WatchdogRollup]: [watchdog/li_watchdog_record.rs],
      [li_watchdog_contract.rs], [li_watchdog_manager.rs] with
      [li_watchdog_protection_cycle.rs], [li_watchdog_linux_protection.rs],
      [li_watchdog_ring.rs], [li_watchdog_rollup.rs].
    - [WatchdogSafety], [WatchdogCodec], [WatchdogHistory], [WatchdogContainment]:
      the theorems on these; [WatchdogContainment.linux_watchdog] makes the Linux
      provider an instance of the manager's interface.
    - [Placement], [PlacementProtection], [PlacementExecutor]:
      [interface/li_placement.rs], [li_placement_group.rs], [li_resource_lease.rs]
      and the runtime identity; [placement/li_linux_protection_provider.rs];
      [placement/li_linux_placement_executor.rs].
    - [ProtectionHandshake]: the theorems across Placement and Watchdog.
    - [PlacementContract], [PlacementAllocator], [PlacementLifecycle]:
      [placement/li_placement_contract.rs], [li_placement_allocator.rs],
      [li_placement_lifecycle.rs].  Store, executor, identity source and the order
      in which the calls of a phase finish are classes over the world.
    - [PlacementTopology], [PlacementAllocation], [PlacementIntent],
      [PlacementOwnership], [PlacementStart]: the theorems on these;
      [PlacementScenario] is the concrete deployment of their witnesses.
    - [NodeProtection], [NodeSessions]: [node/li_node_protection_lease.rs];
      [li_node_protection_session_database.rs] and [li_node_protection_api.rs].  The lease
      store is a state machine of its locked regions; the sessions are records of the
      database.  [NodeSafety]: the theorem from a Watchdog tick to an accepted route;
      [NodeSessions] also has the theorems on sessions.
    - [Database], [DatabaseStorage]: [database/li_database_contract.rs],
      [li_database_transaction.rs]; [li_database_storage.rs] and
      [li_database_manager.rs] over the class [Sqlite] of the statements they use,
      [Json] for the encoding of a record and [Sha256] for the hash.
    - [DatabaseSafety]: the laws of the statements, the abstract write on committed
      tables, the refinement to it, and what the calls of a client mean for the tables.  [DatabaseMemory]: a model of the laws.
      [DatabaseGuarantees]: the theorems.
    - [PlacementRows], [PlacementDatabase]: [node/li_placement_database.rs] with the
      engine records of [li_runtime_database.rs].  [PlacementRoundTrip],
      [PlacementExclusive]: the theorems on these.
    - [AuditContract], [AuditManager]: [audit/li_audit_contract.rs], [li_audit_store.rs],
      [li_audit_cryptography.rs]; [li_audit_manager.rs], [li_audit_export.rs].
      Store, clock, identities and signing key are classes over the world.
      [AuditAppend], [AuditScenario]: the theorems on these, the laws
      of the classes and a world in which they hold.
    - [AuditDatabase]: [node/li_audit_database.rs] with its theorems.
    - [PrefixFormat], [PrefixResident], [PrefixIo], [PrefixStore]:
      [letsinfer_prefix_store/src/format.rs], [ram_tier.rs], [io.rs], [store.rs] with
      their theorems.  A region that the code runs under the index mutex is a function
      on the index.  [PrefixThreads]: the interleaving of these regions by concurrent
      readers and writers.  [PrefixLifecycle]: whole captures, commits, removals and the
      opening of a directory, with the files.
    - [AuthKeys], [AuthControllers], [AuthManager]: [authentication/li_api_key.rs],
      [li_authentication_store.rs], [li_authentication_cryptography.rs],
      [li_authentication_event.rs]; [li_controller.rs], [li_controller_certificate.rs],
      [li_peer_credential.rs]; [li_authentication_manager.rs] and
      [li_controller_lifecycle.rs].  Stores, clock, entropy and certificate authority are
      classes over the world.  [AuthLifecycle]: the abstract life cycle of keys and the
      laws of a store that other managers use too.  [AuthSafety], [AuthControl]:
      the theorems.  [AuthDatabase]: [node/li_authentication_database.rs] and
      the proof that it keeps the laws; [AuthScenario]: a node with keys.
    - [UpdateContract], [UpdateServices], [UpdateLifecycle], [UpdateArtifacts],
      [UpdateDatabase]: [update/li_core_update_contract.rs] with the errors of
      [li_core_update_manager.rs] and the data of [li_core_update_service_provider.rs];
      the service lifecycle and provider; [li_core_update_lifecycle.rs] and the manager;
      [li_core_update_artifact_provider.rs]; [node/li_core_update_database.rs].  Store,
      admission, files, candidate installer, services, clock and pruning are classes over
      the world.  [UpdateVersion], [UpdateOrder], [UpdateOutcome], [UpdateInventory]: the
      theorems, [UpdateOrder] over worlds that keep the trace of the effects of an update;
      [UpdateScenario]: a small world for the witnesses.

    ** Conventions

    An integer of width w is a [Z]; additions that the code checks, saturates or
    lets wrap are written as such.  A Rust [String] is the [string] of its UTF-8
    bytes, a newtype over it the [string] itself.  [HashMap] and [BTreeMap] are
    [gmap]; an iteration whose order is observable sorts by key.  [Result] is
    [result]; a method that mutates or calls a provider is a function of type
    [SE S E A], from a state to a result and a state.  Code outside the
    repository (kernel files, clocks, sockets, databases, containers) is a class
    of operations over an arbitrary world [W] that every call threads, so an
    answer may differ from call to call and no provider is assumed to behave
    unless a theorem says so.  Poisoned locks are not modelled.

    ** What the theorems show

    - Gateway: in every reachable interleaving the counters are exactly the counts
      of outstanding and queued requests, capacity and quota are never exceeded,
      waiters of a model are served in order, and nothing leaks
      ([GatewayGuarantees]); every handler call refines to these steps, the routes it
      selects from were all protected, and a reservation that its owner completes, fails
      or cancels is given back, whatever the call answers ([GatewayHandlers]); selection, quota, cooldown and affinity meet their
      declarative specifications ([GatewayRouting]).
    - Node: whenever the Gateway accepts a route with the snapshot of a node, every
      placement of the group was observed safe by the latest tick of the current Watchdog
      session of its node, less than a minute ago ([NodeSafety]); a session is never handed
      out again after it was retired or replaced ([NodeSessions]); with the runs in which a
      retried cycle is refused and a stray end closes the channel.
    - Leases: an accepted snapshot protects every expected placement, and the
      high-water marks never go back ([GatewayProtection], [GatewayMacos]).
    - Watchdog tick: a process is contained only after its durable latch, exactly
      the processes with evidence are contained, the receipt leases exactly the
      safe ones, warnings are edge triggered, receipts are ordered
      ([WatchdogSafety]).
    - Linux provider: a vanished slot stays observed, and containment is reported
      only for an empty cgroup ([WatchdogContainment]).
    - Handshake: descriptors and acknowledgements round-trip between the two
      crates, with the inputs on which they disagree ([ProtectionHandshake]).
    - Executor: an endpoint is published only after the armed descriptor was
      acknowledged, and a failed start is rolled back ([PlacementExecutor]).
    - Allocation: the resources of a created group are free, distinct and lowest
      first ([PlacementAllocation]); the links of a request are accepted exactly
      when they connect its nodes ([PlacementTopology]).
    - Lifecycle: the executor is called only under a committed intent
      ([PlacementIntent]); a start ends with every placement running or with every
      placement of the record stopped ([PlacementStart]); no transition changes what was allocated, and
      leases are released only after their removal succeeded, with the
      reconciliation that takes released leases back ([PlacementOwnership]).
    - Database: for any answers that meet the laws of SQLite, a transaction is
      atomic, applied once per key, loses no update and keeps rows well formed
      ([DatabaseGuarantees]); the hashed message identifies the command
      ([Database]).
    - Placement store: a row is reconstructed exactly when it is the projection of
      a valid aggregate ([PlacementRoundTrip]); whatever clients interleave and
      whichever statements fail, no resource is leased twice, and the resources
      reported as occupied are the leased ones ([PlacementExclusive]).
    - Audit: verification accepts exactly the well-formed chains, and a verified
      head fixes the events before it unless SHA-256 collides ([AuditScenario]);
      appends extend the chain under interference from other managers, up to the times
      of its checkpoints whatever the clock does and altogether with a clock that does
      not step back ([AuditAppend]); one backward step can lock it ([AuditScenario]).  The
      rows of the database are exactly the log of the appends, a read returns that log,
      and the database store keeps the promises an append relies on ([AuditDatabase]).
    - Prefix store: from any directory that was opened and in every interleaving the
      byte accounting is exact, up to the bytes of files with a duplicate key
      ([PrefixLifecycle]), and a record with readers stays ([PrefixThreads]); a captured
      record is indexed again by a later open and read back, unless the device fails
      ([PrefixLifecycle]); a lookup finds the longest stored prefix, and
      enforcement evicts the oldest records until a new one fits ([PrefixStore]); every
      region of an accepted header lies in its file ([PrefixFormat]); the resident tier
      is a least-recently-used cache with one load per record ([PrefixResident]); the
      checksums of parallel bands are those of the regions ([PrefixIo]).
    - Authentication: every operation takes effect at one point of its call as a step of
      the life cycle, whatever other managers do, so a retired key is dead, only the
      issued token is accepted and it is accepted while the key is alive, and rotations
      form chains ([AuthSafety], over the database by [AuthDatabase]); tokens have one
      form and archiving a name never fails ([AuthKeys]); controllers are
      authorized exactly when active, current and of sufficient role ([AuthControl]).
      The database store does not keep names apart, and a clock that went back keeps a
      key from being revoked ([AuthScenario]).
    - Update: every effect of an update happens under a journal that accounts for it, and
      its answer is what the journal says ([UpdateOrder]); from a journal that agrees with
      the active link, a completed update left the candidate active and a rolled back one
      the previous installation ([UpdateOutcome], also for the file
      provider), with the run in which a lost journal write breaks that agreement
      ([UpdateScenario]); both loops end ([UpdateLifecycle]); versions are exactly the
      semantic versions ([UpdateVersion]); a journal row reads back exactly
      ([UpdateDatabase]); an accepted tree is the manifest's release and nothing else
      ([UpdateInventory]); a snapshot receipt covers the state of the services
      ([UpdateServices]).
    - History: the record codec is a bijection onto the accepted records and
      detects every one-byte change ([WatchdogCodec]); the ring reads back what was
      written, through partial I/O ([WatchdogHistory]); the rollup equals the batch
      means ([WatchdogRollup]).

    ** Bounds and fuel

    Loops of the code that are bounded by a constant keep that bound
    ([CGROUP_EMPTY_ATTEMPTS], the acknowledgement attempts, the 4096 affinity
    entries, the eight attempts of an audit append).  The reachability loop over the links of a request runs once per
    node, which [PlacementTopology] proves to reach the closure.  [be_bytes] writes
    the fixed width of its Rust counterpart.  Loops over a file use the number of bytes or buckets left as fuel,
    and the theorems on them prove that a result is returned.  [evict_loop] takes
    the size of the table, [to_decimal] the number of bits of its argument; both
    are proved sufficient by [record_prefix_affinity_bounded] and the decimal
    round trip of [Text].  [PrefixStore.enforce_loop] takes one more than the number of
    records, the chunk loop of [PrefixIo] the bytes of the chunk; [PrefixStore] and
    [PrefixIo] prove that both return.  The accounting of the prefix store assumes that
    four times the capacity fits [u64], that of [PrefixResident] that the capacity is
    below the maximum: under these bounds the unchecked additions do not wrap.
    The phase loop of an update takes seven rounds ([update_fuel]) and the readiness loop
    one per millisecond of its timeout and one more ([verify_fuel]); [UpdateLifecycle]
    proves that neither is ever cut off.

    ** Not modelled

    Sockets, HTTP, TLS, procfs and NVML sampling, Docker and launchd drivers,
    command-line and installer code are I/O around this core.  Of the database, the
    opening of the file, its schema and modes, and the writer's queue are left out:
    calls of a manager are atomic in the order the writer takes them.  Of the prefix
    store, mappings, aligned allocations and the Python bindings are left out.  Of the
    update, the system calls behind the file interface, the download of a candidate and
    the removal of old installations are left out.  The controller and peer stores
    over the database, the coordinator of [node/li_authentication.rs], the lifecycle
    transitions of [core/interface] and [core/pairing] are not modelled yet. *)

From Stdlib Require Export ZArith Lia.
From stdpp Require Export base gmap list strings option sorting.
Export list.

#[global] Open Scope Z_scope.

(** ** Machine integers

    Unsigned machine integers are kept as [Z]; every operation of the code that
    can leave the range is written with the wrap-around, saturation or check it
    has in Rust.  [in_u64 x] and its companions say that [x] is a value of the
    type. *)

Definition u8_max : Z := 255.
Definition u16_max : Z := 65535.
Definition u32_max : Z := 4294967295.
Definition u64_max : Z := 18446744073709551615.
Definition i64_max : Z := 9223372036854775807.

Definition in_u8 (x : Z) : Prop := 0 ≤ x ≤ u8_max.
Definition in_u16 (x : Z) : Prop := 0 ≤ x ≤ u16_max.
Definition in_u32 (x : Z) : Prop := 0 ≤ x ≤ u32_max.
Definition in_u64 (x : Z) : Prop := 0 ≤ x ≤ u64_max.

Definition saturating_add_u64 (a b : Z) : Z := Z.min (a + b) u64_max.
Definition saturating_add_u8 (a b : Z) : Z := Z.min (a + b) u8_max.
Definition saturating_mul_u64 (a b : Z) : Z := Z.min (a * b) u64_max.
Definition saturating_sub (a b : Z) : Z := Z.max (a - b) 0.
Definition checked_add_u64 (a b : Z) : option Z :=
  if a + b <=? u64_max then Some (a + b) else None.
Definition checked_mul_u64 (a b : Z) : option Z :=
  if a * b <=? u64_max then Some (a * b) else None.
Definition checked_sub (a b : Z) : option Z :=
  if b <=? a then Some (a - b) else None.
Definition wrapping_add_u64 (a b : Z) : Z := (a + b) mod 2 ^ 64.
Definition wrapping_mul_u64 (a b : Z) : Z := (a * b) mod 2 ^ 64.
Definition wrapping_add_u32 (a b : Z) : Z := (a + b) mod 2 ^ 32.

Ltac unfold_ints :=
  unfold in_u8, in_u16, in_u32, in_u64, saturating_add_u64, saturating_add_u8,
    saturating_mul_u64, saturating_sub, checked_add_u64, checked_mul_u64, checked_sub,
    u8_max, u16_max, u32_max, u64_max, i64_max in *.

(** Linear arithmetic over the machine-integer definitions. *)
Ltac ulia := unfold_ints; lia.

Lemma saturating_add_u64_range a b :
  in_u64 a → 0 ≤ b → in_u64 (saturating_add_u64 a b).
Proof. ulia. Qed.

Lemma saturating_add_u64_mono a b :
  in_u64 a → 0 ≤ b → a ≤ saturating_add_u64 a b.
Proof. ulia. Qed.

Lemma checked_add_u64_Some a b c :
  checked_add_u64 a b = Some c ↔ c = a + b ∧ a + b ≤ u64_max.
Proof.
  unfold checked_add_u64. destruct (Z.leb_spec (a + b) u64_max); naive_solver lia.
Qed.

(** ** Results and the state-and-error monad

    [result E A] is Rust's [Result<A, E>].  Handlers that mutate a state return
    the state on both paths, because a Rust method that fails after a mutation
    keeps the mutation. *)

Inductive result (E A : Type) : Type :=
| Ok (a : A)
| Err (e : E).
Arguments Ok {E A} a.
Arguments Err {E A} e.

Definition result_bind {E A B} (c : result E A) (k : A → result E B) : result E B :=
  match c with Ok a => k a | Err e => Err e end.

Definition result_map {E A B} (f : A → B) (c : result E A) : result E B :=
  match c with Ok a => Ok (f a) | Err e => Err e end.

Definition is_ok {E A} (c : result E A) : bool :=
  match c with Ok _ => true | Err _ => false end.

(** [ok_or e o] is [Option::ok_or]. *)
Definition ok_or {E A} (e : E) (o : option A) : result E A :=
  match o with Some a => Ok a | None => Err e end.

(** [Option::is_some_and] and [Option::is_some] as booleans. *)
Definition is_some_and {A} (o : option A) (f : A → bool) : bool :=
  match o with Some a => f a | None => false end.
Definition is_some {A} (o : option A) : bool := match o with Some _ => true | None => false end.

(** A computation over the state [S] that may fail with [E]. *)
Definition SE (S E A : Type) : Type := S → result E A * S.

Definition se_ret {S E A} (a : A) : SE S E A := λ s, (Ok a, s).
Definition se_fail {S E A} (e : E) : SE S E A := λ s, (Err e, s).
Definition se_bind {S E A B} (c : SE S E A) (k : A → SE S E B) : SE S E B :=
  λ s, match c s with
       | (Ok a, s') => k a s'
       | (Err e, s') => (Err e, s')
       end.
Definition se_lift {S E A} (r : result E A) : SE S E A := λ s, (r, s).
(** [?] with a conversion of the error. *)
Definition se_map_err {S E E' A} (f : E → E') (c : SE S E A) : SE S E' A := λ s,
  match c s with (Ok a, s) => (Ok a, s) | (Err e, s) => (Err (f e), s) end.

(** [loop] and [while] bodies: [inl] goes on, [inr] returns.  Within [fuel] rounds. *)
Fixpoint iterate {S E I B} (fuel : nat) (body : I → SE S E (I + B)) (i : I) : SE S E (I + B) :=
  match fuel with
  | O => se_ret (inl i)
  | Datatypes.S fuel => se_bind (body i) (λ r,
      match r with inl i => iterate fuel body i | inr b => se_ret (inr b) end)
  end.

Declare Scope li_scope.
Delimit Scope li_scope with li.
#[global] Open Scope li_scope.

Notation "'let?' x := c 'in' k" := (result_bind c (λ x, k))
  (at level 10, x pattern, c at level 100, k at level 200) : li_scope.
Notation "'do!' x <- c 'in' k" := (se_bind c (λ x, k))
  (at level 10, x pattern, c at level 100, k at level 200) : li_scope.
Notation "'run!' c 'in' k" := (se_bind c (λ _, k))
  (at level 10, c at level 100, k at level 200) : li_scope.

Lemma result_bind_Ok {E A B} (c : result E A) (k : A → result E B) b :
  result_bind c k = Ok b ↔ ∃ a, c = Ok a ∧ k a = Ok b.
Proof. destruct c; naive_solver. Qed.

Lemma ok_or_Ok {E A} (e : E) (o : option A) a : ok_or e o = Ok a ↔ o = Some a.
Proof. destruct o; naive_solver. Qed.

Lemma se_map_err_Ok {S E E' A} (f : E → E') (c : SE S E A) s a s' :
  se_map_err f c s = (Ok a, s') ↔ c s = (Ok a, s').
Proof. unfold se_map_err. destruct (c s) as [[]]; naive_solver. Qed.
Lemma se_bind_Ok {S E A B} (c : SE S E A) (k : A → SE S E B) s b s' :
  se_bind c k s = (Ok b, s') ↔ ∃ a s1, c s = (Ok a, s1) ∧ k a s1 = (Ok b, s').
Proof. unfold se_bind. destruct (c s) as [[a|e] s1]; naive_solver. Qed.

Lemma se_bind_inv {S E A B} (c : SE S E A) (k : A → SE S E B) s r s' :
  se_bind c k s = (r, s') →
  (∃ a s1, c s = (Ok a, s1) ∧ k a s1 = (r, s')) ∨ (∃ e, c s = (Err e, s') ∧ r = Err e).
Proof. unfold se_bind. destruct (c s) as [[a|e] s1]; intros H; [left; eauto|right]. naive_solver. Qed.

Lemma se_lift_Ok {S E A} (r : result E A) (s : S) a s' :
  se_lift r s = (Ok a, s') ↔ r = Ok a ∧ s = s'.
Proof. unfold se_lift. naive_solver. Qed.

Lemma se_ret_Ok {S E A} (a : A) (s : S) b s' :
  se_ret (E := E) a s = (Ok b, s') ↔ a = b ∧ s = s'.
Proof. unfold se_ret. naive_solver. Qed.

(** Invert a successful run: one equation per call, the lifted results and the
    returned value as equations of their own. *)
Ltac inv_se H :=
  lazymatch type of H with
  | se_bind _ _ _ = (Ok _, _) =>
    let a := fresh "a" in let w := fresh "w" in let Hc := fresh "Hr" in
    apply se_bind_Ok in H as (a & w & Hc & H); inv_se Hc; inv_se H
  | se_lift _ _ = (Ok _, _) => apply se_lift_Ok in H as [H <-]
  | se_ret _ _ = (Ok _, _) => apply se_ret_Ok in H as [H <-]
  | se_fail _ _ = (Ok _, _) => discriminate H
  | (let '(_, _) := ?x in _) _ = _ => destruct x as [? ?]; inv_se H
  | _ => idtac
  end.

(** Split the conditionals and matches of a hypothesis, discarding the branches
    that contradict its conclusion. *)
Ltac inv_result H :=
  repeat match type of H with
  | result_bind _ _ = Ok _ => apply result_bind_Ok in H as (? & ? & H)
  | (if ?b then _ else _) = _ => let E := fresh "Hc" in destruct b eqn:E; [try discriminate | try discriminate]
  | (match ?o with _ => _ end) = _ => let E := fresh "Hc" in destruct o eqn:E; try discriminate
  end; simplify_eq.

(** ** Loops

    A body that goes on only with a smaller measure stops within the measure. *)
Section iteration.
Context {S E I B : Type} (body : I → SE S E (I + B)) (μ : I → nat) (P : I → Prop).
Hypothesis decreases : ∀ i s i' s', P i → body i s = (Ok (inl i'), s') → P i' ∧ (μ i' < μ i)%nat.

Lemma iterate_stops fuel i s r s' :
  P i → (μ i < fuel)%nat → iterate fuel body i s = (r, s') → ∀ i', r ≠ Ok (inl i').
Proof.
  revert i s. induction fuel as [|fuel IH]; intros i s Hi Hf; [lia|]. cbn [iterate].
  intros [([i1|b] & s1 & H1 & H2)|(e & H1 & ->)]%se_bind_inv i'; [|by injection H2 as <- _|done].
  destruct (decreases _ _ _ _ Hi H1). eapply IH; [done|lia|done].
Qed.

(** More fuel changes nothing. *)
Lemma iterate_more fuel fuel' i s :
  P i → (μ i < fuel)%nat → (fuel ≤ fuel')%nat → iterate fuel' body i s = iterate fuel body i s.
Proof.
  revert fuel' i s. induction fuel as [|fuel IH]; intros [|fuel'] i s Hi Hf Hle; try lia. cbn [iterate].
  unfold se_bind. destruct (body i s) as [[[i1|b]|e] s1] eqn:Hb; [|done..].
  destruct (decreases _ _ _ _ Hi Hb). apply IH; [done|lia..].
Qed.
End iteration.

(** ** Parsers over lists and options *)

(** [map(parse).collect()] of a list, and [map(parse).transpose()] of an option. *)
Fixpoint parse_all {E A B} (parse : A → result E B) (l : list A) : result E (list B) :=
  match l with
  | [] => Ok []
  | a :: l => let? b := parse a in let? l := parse_all parse l in Ok (b :: l)
  end.
Definition parse_option {E A B} (parse : A → result E B) (o : option A) : result E (option B) :=
  match o with None => Ok None | Some a => let? b := parse a in Ok (Some b) end.

(** A parser that returns its argument. *)
Definition identical {E} (parse : string → result E string) : Prop := ∀ v w, parse v = Ok w → w = v.
Lemma parse_all_Ok {E} (parse : string → result E string) l l' :
  identical parse → parse_all parse l = Ok l' → l' = l ∧ Forall (λ v, parse v = Ok v) l.
Proof.
  intros Hp. revert l'. induction l as [|v l IH]; intros l'; simpl; [by intros [= <-]|].
  intros (w & Hw & (l0 & H0 & [= <-])%result_bind_Ok)%result_bind_Ok.
  apply IH in H0 as [-> Hall]. pose proof (Hp _ _ Hw) as ->. by split; [|constructor].
Qed.
Lemma parse_all_id {E} (parse : string → result E string) l :
  Forall (λ v, parse v = Ok v) l → parse_all parse l = Ok l.
Proof. induction 1 as [|v l Hv _ IH]; [done|]. simpl. by rewrite Hv, IH. Qed.
Lemma parse_option_Ok {E} (parse : string → result E string) o o' :
  identical parse → parse_option parse o = Ok o' → o' = o ∧ ∀ v, o = Some v → parse v = Ok v.
Proof.
  intros Hp. destruct o as [v|]; simpl; [|by intros [= <-]].
  intros (w & Hw & [= <-])%result_bind_Ok. pose proof (Hp _ _ Hw) as ->. split; [done|]. by intros ? [= <-].
Qed.
Lemma parse_option_id {E} (parse : string → result E string) o :
  (∀ v, o = Some v → parse v = Ok v) → parse_option parse o = Ok o.
Proof. intros Hp. destruct o as [v|]; [|done]. simpl. by rewrite Hp. Qed.

(** ** Maps built by repeated insertion *)

(** The value under [i] after [for x in l { m.insert(k x, v x) }] is the last
    inserted one, or the old value when no element has key [i]. *)
Lemma foldl_insert_lookup `{Countable K} {A V} (k : A → K) (v : A → V) (l : list A)
    (m : gmap K V) (i : K) :
  (∃ x, x ∈ l ∧ k x = i ∧ foldl (λ m x, <[k x := v x]> m) m l !! i = Some (v x)) ∨
  ((∀ x, x ∈ l → k x ≠ i) ∧ foldl (λ m x, <[k x := v x]> m) m l !! i = m !! i).
Proof.
  revert m. induction l as [|a l IH]; intros m; simpl; [right; set_solver|].
  destruct (IH (<[k a := v a]> m)) as [(x & Hx & Hk & Hl)|[Hne Hl]].
  - left. exists x. set_solver.
  - destruct (decide (k a = i)) as [<-|Hka].
    + left. exists a. rewrite Hl, lookup_insert_eq. set_solver.
    + right. rewrite Hl, lookup_insert_ne by done. set_solver.
Qed.

Lemma foldl_insert_elem `{Countable K} {A V} (k : A → K) (v : A → V) (l : list A)
    (m : gmap K V) (i : K) y :
  foldl (λ m x, <[k x := v x]> m) m l !! i = Some y →
  (∃ x, x ∈ l ∧ k x = i ∧ v x = y) ∨ m !! i = Some y.
Proof.
  intros Hy. destruct (foldl_insert_lookup k v l m i) as [(x & ? & ? & Hl)|[_ Hl]];
    rewrite Hl in Hy; naive_solver.
Qed.

Lemma existsb_false {A} (f : A → bool) l x : existsb f l = false → x ∈ l → f x = false.
Proof.
  intros Hf Hx. destruct (f x) eqn:E; [|done].
  rewrite <- Hf. symmetry. apply existsb_exists. exists x. split; [by apply list_elem_of_In|done].
Qed.

(** ** Duplicates: comparing a set's size with the length of its source list *)

Lemma size_list_to_set_le `{Countable A} (l : list A) :
  (size (list_to_set l : gset A) ≤ length l)%nat.
Proof.
  induction l as [|x l IH]; [rewrite list_to_set_nil, size_empty; simpl; lia|].
  rewrite list_to_set_cons. cbn [length]. destruct (decide (x ∈ (list_to_set l : gset A))).
  - replace ({[x]} ∪ list_to_set l : gset A) with (list_to_set l : gset A) by set_solver. lia.
  - rewrite size_union by set_solver. rewrite size_singleton. lia.
Qed.

Lemma NoDup_list_to_set_size `{Countable A} (l : list A) :
  size (list_to_set l : gset A) = length l ↔ NoDup l.
Proof.
  split; [|apply size_list_to_set].
  induction l as [|x l IH]; [constructor|]. rewrite list_to_set_cons. cbn [length]. intros Hs.
  pose proof (size_list_to_set_le l) as Hle.
  destruct (decide (x ∈ l)) as [Hx|Hx].
  - replace ({[x]} ∪ list_to_set l : gset A) with (list_to_set l : gset A) in Hs by set_solver. lia.
  - rewrite size_union, size_singleton in Hs by set_solver.
    constructor; [done|]. apply IH. lia.
Qed.
