(* ===== verification/Ordering.v ===== *)
(** * Comparators and stable sorting

    Rust's [Ordering::then_with], [Ord for String], [slice::sort_by] and
    [Iterator::min_by] as the components use them, with the order laws they need.
    A comparator is only required to be a total preorder on the values the code
    sorts, so the laws are relative to a predicate [P]. *)

From S2P Require Import Prelude.

(** [a.then_with(|| b)]. *)
Definition then_with (c d : comparison) : comparison :=
  match c with Eq => d | _ => c end.

(** [bool::cmp]: [false < true]. *)
Definition bool_compare (a b : bool) : comparison :=
  match a, b with
  | false, true => Lt
  | true, false => Gt
  | _, _ => Eq
  end.

(** A comparator that is a total preorder on the values satisfying [P]. *)
Class PreorderCmp {A} (P : A → Prop) (cmp : A → A → comparison) : Prop := {
  cmp_opp x y : P x → P y → cmp y x = CompOpp (cmp x y);
  cmp_le_trans x y z : P x → P y → P z → cmp x y ≠ Gt → cmp y z ≠ Gt → cmp x z ≠ Gt
}.

Lemma cmp_le_total {A} (P : A → Prop) cmp `{!PreorderCmp P cmp} x y :
  P x → P y → cmp x y = Gt → cmp y x ≠ Gt.
Proof. intros Hx Hy HGt. rewrite (cmp_opp x y Hx Hy), HGt. done. Qed.

Lemma cmp_le_refl {A} (P : A → Prop) cmp `{!PreorderCmp P cmp} x : P x → cmp x x ≠ Gt.
Proof. intros Hx HGt. pose proof (cmp_opp x x Hx Hx) as Ho. by rewrite HGt in Ho. Qed.

#[export] Instance PreorderCmp_Z {A} (P : A → Prop) (f : A → Z) :
  PreorderCmp P (λ x y, f x ?= f y).
Proof.
  split.
  - intros x y _ _. apply Z.compare_antisym.
  - intros x y z _ _ _ H1 H2. rewrite Z.compare_gt_iff in *. lia.
Qed.

#[export] Instance PreorderCmp_bool {A} (P : A → Prop) (f : A → bool) :
  PreorderCmp P (λ x y, bool_compare (f x) (f y)).
Proof.
  split.
  - intros x y _ _. destruct (f x), (f y); done.
  - intros x y z _ _ _. destruct (f x), (f y), (f z); done.
Qed.

(** Sorting in decreasing order, [right.cmp(&left)]. *)
#[export] Instance PreorderCmp_flip {A} (P : A → Prop) (cmp : A → A → comparison) :
  PreorderCmp P cmp → PreorderCmp P (λ x y, cmp y x) | 20.
Proof.
  intros Hc. split.
  - intros x y Hx Hy. by apply (cmp_opp (cmp := cmp)).
  - intros x y z Hx Hy Hz H1 H2. by apply (cmp_le_trans (cmp := cmp) z y x).
Qed.

Lemma ascii_compare_trans (a b c : Ascii.ascii) :
  Ascii.compare a b = Lt → Ascii.compare b c = Lt → Ascii.compare a c = Lt.
Proof. unfold Ascii.compare. rewrite !N.compare_lt_iff. lia. Qed.

Lemma string_compare_lt_trans (s t u : string) :
  String.compare s t = Lt → String.compare t u = Lt → String.compare s u = Lt.
Proof.
  revert t u. induction s as [|a s IH]; intros [|b t] [|c u]; simpl; try done.
  destruct (Ascii.compare a b) eqn:Hab; try done;
    destruct (Ascii.compare b c) eqn:Hbc; try done; intros H1 H2.
  - apply Ascii.compare_eq_iff in Hab as ->. rewrite Hbc. eauto.
  - apply Ascii.compare_eq_iff in Hab as ->. by rewrite Hbc.
  - apply Ascii.compare_eq_iff in Hbc as ->. by rewrite Hab.
  - by rewrite (ascii_compare_trans _ _ _ Hab Hbc).
Qed.

#[export] Instance PreorderCmp_string {A} (P : A → Prop) (f : A → string) :
  PreorderCmp P (λ x y, String.compare (f x) (f y)).
Proof.
  split.
  - intros x y _ _. apply String.compare_antisym.
  - intros x y z _ _ _.
    destruct (String.compare (f x) (f y)) eqn:H1; try done;
      destruct (String.compare (f y) (f z)) eqn:H2; try done; intros _ _.
    + apply String.compare_eq_iff in H1 as ->. by rewrite H2.
    + apply String.compare_eq_iff in H1 as ->. by rewrite H2.
    + apply String.compare_eq_iff in H2 as <-. by rewrite H1.
    + by rewrite (string_compare_lt_trans _ _ _ H1 H2).
Qed.

#[export] Instance PreorderCmp_String_compare (P : string → Prop) :
  PreorderCmp P String.compare.
Proof. exact (PreorderCmp_string P id). Qed.

(** Lexicographic combination of two preorders. *)
#[export] Instance PreorderCmp_then_with {A} (P : A → Prop) c d :
  PreorderCmp P c → PreorderCmp P d →
  PreorderCmp P (λ x y : A, then_with (c x y) (d x y)).
Proof.
  intros Hc Hd. split.
  - intros x y Hx Hy. rewrite (cmp_opp (cmp:=c) x y Hx Hy), (cmp_opp (cmp:=d) x y Hx Hy).
    by destruct (c x y).
  - intros x y z Hx Hy Hz H1 H2.
    pose proof (cmp_le_trans (cmp:=c) x y z Hx Hy Hz) as Txyz.
    pose proof (cmp_le_trans (cmp:=c) y z x Hy Hz Hx) as Tyzx.
    pose proof (cmp_le_trans (cmp:=c) z x y Hz Hx Hy) as Tzxy.
    pose proof (cmp_le_trans (cmp:=d) x y z Hx Hy Hz) as Dxyz.
    rewrite (cmp_opp (cmp:=c) x y Hx Hy) in *.
    rewrite (cmp_opp (cmp:=c) y z Hy Hz) in *.
    rewrite (cmp_opp (cmp:=c) x z Hx Hz) in *.
    destruct (c x y), (c y z), (c x z); naive_solver.
Qed.

(** ** Stable sorting *)

Section sort.
Context {A : Type} (cmp : A → A → comparison).

Fixpoint insert_by (x : A) (l : list A) : list A :=
  match l with
  | [] => [x]
  | y :: l' => match cmp x y with
               | Gt => y :: insert_by x l'
               | _ => x :: l
               end
  end.

(** [slice::sort_by]: a stable sort, the elements that compare equal keep
    their order. *)
Fixpoint sort_by (l : list A) : list A :=
  match l with
  | [] => []
  | x :: l' => insert_by x (sort_by l')
  end.

Lemma insert_by_Permutation x l : insert_by x l ≡ₚ x :: l.
Proof.
  induction l as [|y l IH]; simpl; [done|].
  destruct (cmp x y); [done..|]. rewrite IH. constructor.
Qed.

Lemma sort_by_Permutation l : sort_by l ≡ₚ l.
Proof. induction l as [|x l IH]; simpl; [done|]. by rewrite insert_by_Permutation, IH. Qed.

Lemma sort_by_length l : length (sort_by l) = length l.
Proof. by rewrite sort_by_Permutation. Qed.

Lemma elem_of_sort_by x l : x ∈ sort_by l ↔ x ∈ l.
Proof. by rewrite sort_by_Permutation. Qed.

Context (P : A → Prop) `{!PreorderCmp P cmp}.

Definition cmp_le (x y : A) : Prop := cmp x y ≠ Gt.

Lemma insert_by_Sorted x l :
  P x → Forall P l → StronglySorted cmp_le l → StronglySorted cmp_le (insert_by x l).
Proof.
  intros Hx. induction l as [|y l IH]; simpl; intros HP Hs.
  { repeat constructor. }
  inversion HP as [|?? Hy HPl]; inversion Hs as [|?? Hsl Hyl]; subst.
  destruct (cmp x y) eqn:Hxy.
  1,2: constructor; [done|]; constructor; [unfold cmp_le; congruence|];
    rewrite Forall_forall in Hyl |- *; intros z Hz;
    rewrite Forall_forall in HPl;
    eapply (cmp_le_trans x y z); eauto; [congruence | by apply Hyl].
  constructor; [eauto|].
  rewrite insert_by_Permutation. constructor; [|done].
  by eapply cmp_le_total.
Qed.

Lemma sort_by_Sorted l : Forall P l → StronglySorted cmp_le (sort_by l).
Proof.
  induction 1 as [|x l Hx Hl IH]; simpl; [constructor|].
  apply insert_by_Sorted; [done| |done]. by rewrite sort_by_Permutation.
Qed.

(** The first element of a sorted list is minimal. *)
Lemma sort_by_head_min l x l' y :
  Forall P l → sort_by l = x :: l' → y ∈ l → cmp x y ≠ Gt.
Proof.
  intros HP Hs Hy. pose proof (sort_by_Sorted l HP) as Hsorted.
  rewrite Hs in Hsorted. inversion Hsorted as [|?? _ Hall]; subst.
  assert (y ∈ x :: l') as Hin by (by rewrite <- Hs, sort_by_Permutation).
  apply elem_of_cons in Hin as [->|Hin].
  - assert (P x) as Hx.
    { rewrite Forall_forall in HP. apply HP. rewrite <- sort_by_Permutation, Hs. set_solver. }
    by eapply cmp_le_refl.
  - rewrite Forall_forall in Hall. exact (Hall y Hin).
Qed.
End sort.

(** [Iterator::min_by]: the first of the minimal elements. *)
Fixpoint min_by_from {A} (cmp : A → A → comparison) (best : A) (l : list A) : A :=
  match l with
  | [] => best
  | x :: l' => min_by_from cmp (match cmp best x with Gt => x | _ => best end) l'
  end.

Definition min_by {A} (cmp : A → A → comparison) (l : list A) : option A :=
  match l with [] => None | x :: l' => Some (min_by_from cmp x l') end.

Lemma min_by_from_elem {A} cmp (b : A) l : min_by_from cmp b l ∈ b :: l.
Proof.
  revert b. induction l as [|x l IH]; intros b; simpl; [set_solver|].
  specialize (IH (match cmp b x with Gt => x | _ => b end)).
  destruct (cmp b x); set_solver.
Qed.

Lemma min_by_elem {A} cmp (l : list A) x : min_by cmp l = Some x → x ∈ l.
Proof. destruct l; simpl; [done|]. intros [= <-]. apply min_by_from_elem. Qed.

Lemma min_by_is_Some {A} cmp (l : list A) : l ≠ [] → is_Some (min_by cmp l).
Proof. destruct l; simpl; [done|eauto]. Qed.

Lemma min_by_from_le {A} (P : A → Prop) cmp `{!PreorderCmp P cmp} b l y :
  Forall P (b :: l) → y ∈ b :: l → cmp (min_by_from cmp b l) y ≠ Gt.
Proof.
  revert b y. induction l as [|x l IH]; intros b y HP Hy; simpl.
  - apply list_elem_of_singleton in Hy as ->. inversion HP; subst.
    by eapply cmp_le_refl.
  - inversion HP as [|?? Hb HPl]; inversion HPl as [|?? Hx HPl']; subst.
    set (c := match cmp b x with Gt => x | _ => b end).
    assert (P c) as Hc by (unfold c; destruct (cmp b x); done).
    assert (cmp c b ≠ Gt ∧ cmp c x ≠ Gt) as [Hcb Hcx].
    { unfold c. destruct (cmp b x) eqn:Hbx.
      1,2: split; [by eapply cmp_le_refl | congruence].
      split; [by eapply cmp_le_total | by eapply cmp_le_refl]. }
    assert (Forall P (c :: l)) as HPc by (constructor; done).
    assert (cmp (min_by_from cmp c l) c ≠ Gt) as Hmc by (apply IH; [done|set_solver]).
    assert (P (min_by_from cmp c l)) as HPm.
    { rewrite Forall_forall in HPc. apply HPc, min_by_from_elem. }
    apply elem_of_cons in Hy as [->|Hy]; [by eapply (cmp_le_trans _ c)|].
    apply elem_of_cons in Hy as [->|Hy]; [by eapply (cmp_le_trans _ c)|].
    apply IH; [done|set_solver].
Qed.

Lemma min_by_le {A} (P : A → Prop) cmp `{!PreorderCmp P cmp} l x y :
  Forall P l → min_by cmp l = Some x → y ∈ l → cmp x y ≠ Gt.
Proof. destruct l; simpl; [done|]. intros HP [= <-] Hy. by eapply min_by_from_le. Qed.

(** ** Counters as sums over finite maps

    The managers keep counters next to the maps they count.  [sum_by f m] is the
    sum of [f] over the values of [m]; [counted c f] says that the counter map
    [c] holds exactly the non-zero values of [f], the representation the code
    keeps by removing an entry that reaches zero. *)

Section sum_by.
Context `{Countable K} {V : Type}.
Implicit Types (m : gmap K V) (f : V → Z).

Definition sum_by f m : Z := map_fold (λ _ v acc, f v + acc) 0 m.

Lemma sum_by_empty f : sum_by f ∅ = 0.
Proof. apply map_fold_empty. Qed.

Lemma sum_by_insert f m k v : m !! k = None → sum_by f (<[k := v]> m) = f v + sum_by f m.
Proof. intros Hk. unfold sum_by. rewrite map_fold_insert_L; [done| |done]. intros; lia. Qed.

Lemma sum_by_delete f m k v :
  m !! k = Some v → sum_by f m = f v + sum_by f (delete k m).
Proof.
  intros Hk. rewrite <- (insert_delete_id m k v) at 1 by done.
  apply sum_by_insert, lookup_delete_eq.
Qed.

Lemma sum_by_nonneg f m : (∀ v, 0 ≤ f v) → 0 ≤ sum_by f m.
Proof.
  intros Hf. induction m as [|k v m Hk IH] using map_ind; [by rewrite sum_by_empty|].
  rewrite sum_by_insert by done. specialize (Hf v). lia.
Qed.

(** A summand is at most the sum. *)
Lemma sum_by_le f m k v : (∀ v, 0 ≤ f v) → m !! k = Some v → f v ≤ sum_by f m.
Proof.
  intros Hf Hk. rewrite (sum_by_delete f m k v Hk).
  pose proof (sum_by_nonneg f (delete k m) Hf). lia.
Qed.

(** Counting the values that satisfy [P]. *)
Definition count_by (P : V → Prop) `{∀ v, Decision (P v)} m : Z :=
  Z.of_nat (size (filter (λ kv : K * V, P kv.2) m)).

Lemma sum_by_count (P : V → Prop) `{∀ v, Decision (P v)} f m :
  (∀ v, f v = if bool_decide (P v) then 1 else 0) → sum_by f m = count_by P m.
Proof.
  intros Hf. unfold count_by. induction m as [|k v m Hk IH] using map_ind.
  - by rewrite sum_by_empty, map_filter_empty, map_size_empty.
  - rewrite sum_by_insert, map_filter_insert, Hf by done. simpl. rewrite IH.
    case_bool_decide; rewrite ?decide_True, ?decide_False by done.
    + rewrite map_size_insert_None; [lia|]. apply map_lookup_filter_None. by left.
    + rewrite delete_id by done. lia.
Qed.

Lemma sum_by_le_size f m : (∀ v, f v ≤ 1) → sum_by f m ≤ Z.of_nat (size m).
Proof.
  intros Hf. induction m as [|k v m Hk IH] using map_ind.
  - rewrite sum_by_empty, map_size_empty. lia.
  - rewrite sum_by_insert, map_size_insert_None by done. specialize (Hf v). lia.
Qed.
End sum_by.

(** ** Counter maps without zero entries *)

Definition nz (z : Z) : option Z := if z =? 0 then None else Some z.

Definition counted (c : gmap string Z) (f : string → Z) : Prop := ∀ k, c !! k = nz (f k).

Lemma counted_default c f k : counted c f → default 0 (c !! k) = f k.
Proof. intros Hc. rewrite Hc. unfold nz. destruct (Z.eqb_spec (f k) 0); simpl; lia. Qed.

(** [c.insert(k, n)] when the true count of [k] becomes [n]. *)
Lemma counted_set c f f' k n :
  counted c f → n ≠ 0 → f' k = n → (∀ j, j ≠ k → f' j = f j) → counted (<[k := n]> c) f'.
Proof.
  intros Hc Hn Hk Hj j. destruct (decide (k = j)) as [<-|Hne].
  - rewrite lookup_insert_eq, Hk. unfold nz. by rewrite (proj2 (Z.eqb_neq n 0) Hn).
  - rewrite lookup_insert_ne, Hc, Hj by done. done.
Qed.

(** [c.remove(k)] when the true count of [k] becomes zero. *)
Lemma counted_remove c f f' k :
  counted c f → f' k = 0 → (∀ j, j ≠ k → f' j = f j) → counted (delete k c) f'.
Proof.
  intros Hc Hk Hj j. destruct (decide (k = j)) as [<-|Hne].
  - by rewrite lookup_delete_eq, Hk.
  - rewrite lookup_delete_ne, Hc, Hj by done. done.
Qed.

(** [if active <= 1 { c.remove(k) } else { c.insert(k, active - 1) }]. *)
Lemma counted_decrement c f f' k :
  counted c f → 1 ≤ f k → f' k = f k - 1 → (∀ j, j ≠ k → f' j = f j) →
  counted (if f k <=? 1 then delete k c else <[k := f k - 1]> c) f'.
Proof.
  intros Hc H1 Hk Hj. destruct (Z.leb_spec (f k) 1).
  - eapply counted_remove; [done|lia|done].
  - eapply counted_set; [done|lia|done|done].
Qed.

Lemma counted_ext c f f' : counted c f → (∀ k, f' k = f k) → counted c f'.
Proof. intros Hc Hf k. by rewrite Hc, Hf. Qed.

Lemma counted_empty f : (∀ k, f k = 0) → counted ∅ f.
Proof. intros Hf k. by rewrite lookup_empty, Hf. Qed.

Create HintDb counting.
#[export] Hint Resolve sum_by_nonneg : counting.
