(* ===== verification/Values.v ===== *)
(** * Interface values ([core/interface/src/li_identity.rs], [li_value.rs])

    The validated value types every other crate exchanges.  A Rust [str] is a
    Rocq [string] holding its UTF-8 bytes; a newtype over [String] with a
    private constructor is the [string] itself, and its [parse] function is the
    definition [<Type>_parse], which returns the value it was given or an
    [InterfaceError]. *)

From Stdlib Require Ascii.
From S2P Require Import Prelude.
Import (notations) Stdlib.Strings.Ascii.

(** ** Bytes and characters of a [str] *)

Definition byte_val (a : Ascii.ascii) : Z := Z.of_N (Ascii.N_of_ascii a).
Definition bytes (s : string) : list Z := byte_val <$> String.list_ascii_of_string s.
(** [str::len]: the number of UTF-8 bytes. *)
Definition str_len (s : string) : Z := Z.of_nat (String.length s).

Definition in_range (lo hi b : Z) : bool := (lo <=? b) && (b <=? hi).
Definition is_ascii_digit (b : Z) : bool := in_range 48 57 b.
Definition is_ascii_lowercase (b : Z) : bool := in_range 97 122 b.
Definition is_ascii_uppercase (b : Z) : bool := in_range 65 90 b.
Definition is_ascii_alphanumeric (b : Z) : bool :=
  is_ascii_digit b || is_ascii_lowercase b || is_ascii_uppercase b.
Definition is_lower_hex_byte (b : Z) : bool := is_ascii_digit b || in_range 97 102 b.

(** [str::chars]: the code points of well-formed UTF-8 bytes. *)
Fixpoint decode_utf8 (l : list Z) : list Z :=
  match l with
  | [] => []
  | b0 :: r0 =>
    if b0 <? 128 then b0 :: decode_utf8 r0 else
    match r0 with
    | [] => [b0]
    | b1 :: r1 =>
      if b0 <? 224 then ((b0 - 192) * 64 + (b1 - 128)) :: decode_utf8 r1 else
      match r1 with
      | [] => [b0; b1]
      | b2 :: r2 =>
        if b0 <? 240
        then ((b0 - 224) * 4096 + (b1 - 128) * 64 + (b2 - 128)) :: decode_utf8 r2 else
        match r2 with
        | [] => [b0; b1; b2]
        | b3 :: r3 =>
          ((b0 - 240) * 262144 + (b1 - 128) * 4096 + (b2 - 128) * 64 + (b3 - 128))
            :: decode_utf8 r3
        end
      end
    end
  end.
Definition chars (s : string) : list Z := decode_utf8 (bytes s).

(** [char::is_control]: Unicode category Cc. *)
Definition is_control (c : Z) : bool := in_range 0 31 c || in_range 127 159 c.
(** [char::is_whitespace]: the Unicode White_Space property. *)
Definition is_whitespace (c : Z) : bool :=
  in_range 9 13 c || (c =? 32) || (c =? 133) || (c =? 160) || (c =? 5760)
  || in_range 8192 8202 c || (c =? 8232) || (c =? 8233) || (c =? 8239)
  || (c =? 8287) || (c =? 12288).

Fixpoint drop_while {A} (f : A → bool) (l : list A) : list A :=
  match l with
  | [] => []
  | x :: l' => if f x then drop_while f l' else l
  end.
(** [str::trim] on the characters of a string. *)
Definition trim (l : list Z) : list Z :=
  reverse (drop_while is_whitespace (reverse (drop_while is_whitespace l))).

(** ** Splitting *)

(** [str::strip_prefix]. *)
Fixpoint strip_prefix (p s : string) : option string :=
  match p, s with
  | EmptyString, _ => Some s
  | String a p', String b s' => if Ascii.eqb a b then strip_prefix p' s' else None
  | String _ _, EmptyString => None
  end.
Definition starts_with (p s : string) : bool :=
  match strip_prefix p s with Some _ => true | None => false end.

(** [str::split] on one character. *)
Fixpoint split_char (c : Ascii.ascii) (s : string) : list string :=
  match s with
  | EmptyString => [EmptyString]
  | String a s' =>
    if Ascii.eqb a c then EmptyString :: split_char c s'
    else match split_char c s' with
         | [] => [String a EmptyString]
         | w :: ws => String a w :: ws
         end
  end.

(** [str::split_once] on one character: the text around the first occurrence. *)
Fixpoint split_once (c : Ascii.ascii) (s : string) : option (string * string) :=
  match s with
  | EmptyString => None
  | String a s' =>
    if Ascii.eqb a c then Some (EmptyString, s')
    else match split_once c s' with
         | Some (l, r) => Some (String a l, r)
         | None => None
         end
  end.

(** [str::split("--")]: non-overlapping matches from the left. *)
Fixpoint split_dashes (s : string) : list string :=
  match s with
  | EmptyString => [EmptyString]
  | String a s' =>
    match s' with
    | EmptyString => [String a EmptyString]
    | String b s'' =>
      if Ascii.eqb a "-"%char && Ascii.eqb b "-"%char then EmptyString :: split_dashes s''
      else match split_dashes s' with
           | [] => [String a EmptyString]
           | w :: ws => String a w :: ws
           end
    end
  end.

(** [str::rsplit_once]: the text around the last occurrence of [p]. *)
Fixpoint rsplit_once (p s : string) : option (string * string) :=
  match s with
  | EmptyString => None
  | String a s' =>
    match rsplit_once p s' with
    | Some (l, r) => Some (String a l, r)
    | None => match strip_prefix p s with
              | Some r => Some (EmptyString, r)
              | None => None
              end
    end
  end.

(** [str::contains] of a literal pattern. *)
Fixpoint str_contains (p s : string) : bool :=
  starts_with p s ||
  match s with EmptyString => false | String _ s' => str_contains p s' end.

(** ** Interface errors *)

Record InterfaceError := { ie_subject : string; ie_reason : string }.

#[export] Instance InterfaceError_eq_dec : EqDecision InterfaceError.
Proof. solve_decision. Defined.

(** [if invalid then return Err(..)]; [Ok(value)]. *)
Definition validate (ok : bool) (subject reason value : string)
  : result InterfaceError string :=
  if ok then Ok value else Err {| ie_subject := subject; ie_reason := reason |}.

(** ** Private validators *)

Definition MAX_DISPLAY_NAME_BYTES : Z := 128.
Definition MAX_EXTERNAL_VALUE_BYTES : Z := 255.
Definition MAX_FAILURE_MESSAGE_BYTES : Z := 1024.
Definition MAX_TECHNICAL_NAME_BYTES : Z := 64.
Definition IDENTITY_LENGTH : Z := 32.

Definition is_lower_hex (value : string) (length : Z) : bool :=
  (str_len value =? length) && forallb is_lower_hex_byte (bytes value).

Definition is_bounded_text (value : string) (maximum_bytes : Z) (allow_whitespace : bool)
  : bool :=
  negb (str_len value =? 0)
  && (str_len value <=? maximum_bytes)
  && bool_decide (trim (chars value) = chars value)
  && negb (existsb is_control (chars value))
  && (allow_whitespace || negb (existsb is_whitespace (chars value))).

Definition is_name_byte (byte : Z) : bool :=
  is_ascii_lowercase byte || is_ascii_digit byte
  || (byte =? 46) || (byte =? 95) || (byte =? 45).

Definition is_technical_name (value : string) : bool :=
  match bytes value with
  | [] => false
  | byte :: rest =>
    (is_ascii_lowercase byte || is_ascii_digit byte)
    && (str_len value <=? MAX_TECHNICAL_NAME_BYTES)
    && forallb is_name_byte rest
  end.

Definition is_candidate_component (value : string) : bool :=
  match bytes value with
  | [] => false
  | byte :: rest =>
    (is_ascii_lowercase byte || is_ascii_digit byte) && forallb is_name_byte rest
  end.

(** ** Identities *)

Definition IdentityValue_parse (value subject : string) : result InterfaceError string :=
  validate (is_lower_hex value IDENTITY_LENGTH) subject
    "identity must be exactly 32 lowercase hexadecimal characters" value.

Definition NodeId_parse (value : string) := IdentityValue_parse value "node identity".
Definition MachineId_parse (value : string) := IdentityValue_parse value "machine identity".
Definition InstallationId_parse (value : string) : result InterfaceError string :=
  validate (is_lower_hex value 64) "installation identity"
    "identity must be exactly 64 lowercase hexadecimal characters" value.
Definition HardwareObservationId_parse (value : string) :=
  IdentityValue_parse value "hardware observation identity".
Definition RuntimeInstallationId_parse (value : string) :=
  IdentityValue_parse value "runtime installation identity".
Definition ModelServiceId_parse (value : string) :=
  IdentityValue_parse value "model service identity".
Definition PlacementGroupId_parse (value : string) :=
  IdentityValue_parse value "placement group identity".
Definition PlacementId_parse (value : string) := IdentityValue_parse value "placement identity".
Definition ResourceLeaseId_parse (value : string) :=
  IdentityValue_parse value "resource lease identity".
Definition OperationId_parse (value : string) := IdentityValue_parse value "operation identity".
Definition CredentialId_parse (value : string) := IdentityValue_parse value "credential identity".
Definition ControllerId_parse (value : string) := IdentityValue_parse value "controller identity".
Definition ApiKeyId_parse (value : string) := IdentityValue_parse value "API key identity".
Definition PairingInviteId_parse (value : string) :=
  IdentityValue_parse value "pairing invitation identity".

(** ** Names and references *)

Definition TechnicalName_parse (value : string) : result InterfaceError string :=
  validate (is_technical_name value) "technical name"
    "name must use 1 to 64 lowercase letters, numbers, dots, underscores, or hyphens" value.

Definition DisplayName_parse (value : string) : result InterfaceError string :=
  validate (is_bounded_text value MAX_DISPLAY_NAME_BYTES true) "display name"
    "name must be canonical, non-empty, and at most 128 bytes" value.

Definition LogicalModelName_parse (value : string) := TechnicalName_parse value.
Definition TargetId_parse (value : string) := TechnicalName_parse value.
Definition ArtifactName_parse (value : string) := TechnicalName_parse value.

Definition RuntimeCandidateId_parse (value : string) : result InterfaceError string :=
  let parts := split_dashes value in
  if negb (Nat.eqb (length parts) 4) || existsb (λ part, negb (is_candidate_component part)) parts
  then Err {| ie_subject := "runtime candidate identity";
              ie_reason := "identity must contain four canonical lowercase components" |}
  else if 512 <? str_len value
  then Err {| ie_subject := "runtime candidate identity";
              ie_reason := "identity exceeds 512 bytes" |}
  else Ok value.

Definition RuntimeVersion_parse (value : string) : result InterfaceError string :=
  let '(core, suffix) :=
    match split_once "-"%char value with
    | Some (core, suffix) => (core, Some suffix)
    | None => (value, None)
    end in
  let numeric := split_char "."%char core in
  let valid_numeric :=
    Nat.eqb (length numeric) 3
    && forallb (λ part, negb (str_len part =? 0) && forallb is_ascii_digit (bytes part)) numeric in
  let valid_suffix :=
    match suffix with
    | None => true
    | Some part =>
      negb (str_len part =? 0)
      && forallb (λ byte, is_ascii_alphanumeric byte || (byte =? 46) || (byte =? 45)) (bytes part)
    end in
  validate (negb ((128 <? str_len value) || negb valid_numeric || negb valid_suffix))
    "runtime version"
    "version must contain three numeric components and an optional release suffix" value.

Definition RuntimeSource_parse (value : string) : result InterfaceError string :=
  let digest :=
    match strip_prefix "letsinfer-object:sha256:" value with
    | Some digest => Some digest
    | None =>
      match rsplit_once "@sha256:" value with
      | Some (location, digest) =>
        if negb (str_len location =? 0)
           && negb (existsb is_whitespace (chars location))
           && negb (existsb is_control (chars location))
        then Some digest else None
      | None => None
      end
    end in
  validate (negb ((1024 <? str_len value)
                  || match digest with None => true | Some d => negb (is_lower_hex d 64) end))
    "runtime source" "source must be an immutable OCI or local SHA-256 identity" value.

Definition Sha256Digest_parse (value : string) : result InterfaceError string :=
  validate (is_lower_hex value 64) "SHA-256 digest"
    "digest must be exactly 64 lowercase hexadecimal characters" value.

Definition TaskId_parse (value : string) : result InterfaceError string :=
  let is_valid :=
    match strip_prefix "task-" value with
    | None => false
    | Some index =>
      bool_decide (index = "0"%string)
      || (match bytes index with [] => false | b :: _ => in_range 49 57 b end
          && forallb is_ascii_digit (bytes index))
    end in
  validate is_valid "task identity" "identity must use canonical task-N form" value.

Definition DeviceId_parse (value : string) : result InterfaceError string :=
  validate (is_bounded_text value MAX_EXTERNAL_VALUE_BYTES false) "device identity"
    "identity must be canonical, non-empty, and at most 255 bytes" value.

Definition NodeAddress_parse (value : string) : result InterfaceError string :=
  validate (is_bounded_text value MAX_EXTERNAL_VALUE_BYTES false
            && negb (existsb is_whitespace (chars value)))
    "node address"
    "address must be canonical, contain no whitespace, and be at most 255 bytes" value.

Definition NetworkInterfaceName_parse (value : string) : result InterfaceError string :=
  let '(valid_first, valid_rest) :=
    match bytes value with
    | [] => (false, true)
    | byte :: rest =>
      (is_ascii_alphanumeric byte,
       forallb (λ byte, is_ascii_alphanumeric byte || (byte =? 95) || (byte =? 46)
                        || (byte =? 58) || (byte =? 45)) rest)
    end in
  validate (negb ((32 <? str_len value) || negb valid_first || negb valid_rest))
    "network interface" "name must use 1 to 32 native interface characters" value.

Definition BootId_parse (value : string) : result InterfaceError string :=
  validate (is_bounded_text value 128 false && negb (existsb is_whitespace (chars value)))
    "boot identity"
    "identity must be canonical, contain no whitespace, and be at most 128 bytes" value.

Definition ArtifactUri_parse (value : string) : result InterfaceError string :=
  let parts := match strip_prefix "hf://" value with
               | Some v => split_char "/"%char v
               | None => []
               end in
  let valid_parts :=
    Nat.eqb (length parts) 2
    && forallb (λ part,
         negb (str_len part =? 0) && (str_len part <=? 128)
         && forallb (λ byte, is_ascii_alphanumeric byte || (byte =? 46) || (byte =? 95)
                             || (byte =? 45)) (bytes part)) parts in
  validate (negb ((512 <? str_len value) || negb valid_parts))
    "artifact URI" "URI must use canonical hf://owner/repository form" value.

Definition ArtifactRevision_parse (value : string) : result InterfaceError string :=
  validate (is_lower_hex value 40) "artifact revision"
    "revision must be exactly 40 lowercase hexadecimal characters" value.

(** ** Counts, timestamps and ports *)

Definition interface_error (subject reason : string) : InterfaceError :=
  {| ie_subject := subject; ie_reason := reason |}.

(** [ByteCount] and [UnixMilliseconds] wrap a [u64]. *)
Definition ByteCount_new (value : Z) : result InterfaceError Z :=
  if value =? 0 then Err (interface_error "byte count" "value must be greater than zero")
  else Ok value.

Record EntityTimestamps := { created_at : Z; updated_at : Z }.

Definition EntityTimestamps_new (created_at updated_at : Z)
  : result InterfaceError EntityTimestamps :=
  if updated_at <? created_at
  then Err (interface_error "entity timestamps" "updated timestamp cannot precede creation")
  else Ok {| created_at := created_at; updated_at := updated_at |}.

Definition NetworkPort_new (value : Z) : result InterfaceError Z :=
  if value <? 1024
  then Err (interface_error "network port" "port must be between 1024 and 65535")
  else Ok value.

Record PortRange := { port_base : Z; port_count : Z }.

Definition PortRange_new (base count : Z) : result InterfaceError PortRange :=
  let end_ := base + count in
  if (base <? 1024) || (count =? 0) || (32 <? count) || (65536 <? end_)
  then Err (interface_error "port range" "range must contain 1 to 32 ports between 1024 and 65535")
  else Ok {| port_base := base; port_count := count |}.

(** [(self.base as u32 + self.count as u32 - 1) as u16]. *)
Definition PortRange_last (r : PortRange) : Z :=
  ((port_base r + port_count r - 1) mod 2 ^ 32) mod 2 ^ 16.

Inductive EndpointScheme := SchemeHttp | SchemeHttps.

Record EndpointAddress := {
  endpoint_scheme : EndpointScheme;
  endpoint_host : string;
  endpoint_port : Z
}.

Definition EndpointAddress_new (scheme : EndpointScheme) (host : string) (port : Z)
  : result InterfaceError EndpointAddress :=
  if port =? 0
  then Err (interface_error "endpoint address" "port must be between 1 and 65535")
  else Ok {| endpoint_scheme := scheme; endpoint_host := host; endpoint_port := port |}.

Record FailureDescription := { failure_code : string; failure_message : string }.

Definition FailureDescription_new (code message : string)
  : result InterfaceError FailureDescription :=
  if negb (is_bounded_text message MAX_FAILURE_MESSAGE_BYTES true)
  then Err (interface_error "failure description"
              "message must be canonical, non-empty, and at most 1024 bytes")
  else Ok {| failure_code := code; failure_message := message |}.

#[export] Instance EntityTimestamps_eq_dec : EqDecision EntityTimestamps.
Proof. solve_decision. Defined.
#[export] Instance PortRange_eq_dec : EqDecision PortRange.
Proof. solve_decision. Defined.
#[export] Instance EndpointScheme_eq_dec : EqDecision EndpointScheme.
Proof. solve_decision. Defined.
#[export] Instance EndpointAddress_eq_dec : EqDecision EndpointAddress.
Proof. solve_decision. Defined.
#[export] Instance FailureDescription_eq_dec : EqDecision FailureDescription.
Proof. solve_decision. Defined.

(** ** Laws of the validators *)

Lemma validate_Ok ok subject reason value v :
  validate ok subject reason value = Ok v ↔ ok = true ∧ v = value.
Proof. unfold validate. destruct ok; naive_solver. Qed.

(** ASCII bytes are their own characters. *)
Lemma decode_utf8_ascii l : Forall (λ b, b < 128) l → decode_utf8 l = l.
Proof.
  induction 1 as [|b l Hb _ IH]; [done|]. cbn [decode_utf8]. replace (b <? 128) with true by lia. by rewrite IH.
Qed.

Lemma byte_val_range a : 0 ≤ byte_val a < 256.
Proof. unfold byte_val. pose proof (Ascii.N_ascii_bounded a). lia. Qed.

Lemma is_lower_hex_byte_iff b :
  is_lower_hex_byte b = true ↔ 48 ≤ b ≤ 57 ∨ 97 ≤ b ≤ 102.
Proof. unfold is_lower_hex_byte, is_ascii_digit, in_range. lia. Qed.

Lemma is_lower_hex_iff value n :
  is_lower_hex value n = true ↔
  str_len value = n ∧ Forall (λ b, 48 ≤ b ≤ 57 ∨ 97 ≤ b ≤ 102) (bytes value).
Proof.
  unfold is_lower_hex. rewrite andb_true_iff, Z.eqb_eq, forallb_forall, List.Forall_forall.
  by setoid_rewrite is_lower_hex_byte_iff.
Qed.

(** Every identity is its own canonical text: a parser accepts exactly the
    32-digit lowercase hexadecimal strings and returns them unchanged. *)
Lemma IdentityValue_parse_Ok value subject v :
  IdentityValue_parse value subject = Ok v ↔
  v = value ∧ str_len value = 32 ∧
  Forall (λ b, 48 ≤ b ≤ 57 ∨ 97 ≤ b ≤ 102) (bytes value).
Proof.
  unfold IdentityValue_parse, IDENTITY_LENGTH. rewrite validate_Ok, is_lower_hex_iff.
  naive_solver.
Qed.

(** Joining the pieces of [split("--")] restores the text. *)
Fixpoint join_dashes (ws : list string) : string :=
  match ws with
  | [] => ""
  | [w] => w
  | w :: ws' => w +:+ "--" +:+ join_dashes ws'
  end.

Lemma split_dashes_cons2 a b s :
  split_dashes (String a (String b s)) =
  if Ascii.eqb a "-"%char && Ascii.eqb b "-"%char then EmptyString :: split_dashes s
  else match split_dashes (String b s) with
       | [] => [String a EmptyString]
       | w :: ws => String a w :: ws
       end.
Proof. done. Qed.

Lemma split_dashes_ne s : split_dashes s ≠ [].
Proof.
  destruct s as [|a [|b s]]; [done..|]. rewrite split_dashes_cons2.
  destruct (_ && _); [done|]. by destruct (split_dashes (String b s)).
Qed.

Lemma join_dashes_cons_char a w ws :
  join_dashes (String a w :: ws) = String a (join_dashes (w :: ws)).
Proof. by destruct ws. Qed.

Lemma join_split_dashes s : join_dashes (split_dashes s) = s.
Proof.
  induction s as [s IH] using (well_founded_induction
    (Wf_nat.well_founded_ltof _ String.length)). unfold Wf_nat.ltof in IH.
  destruct s as [|a [|b s]]; [done..|].
  rewrite split_dashes_cons2. destruct (Ascii.eqb a "-"%char && Ascii.eqb b "-"%char) eqn:Hd.
  - apply andb_true_iff in Hd as [->%Ascii.eqb_eq ->%Ascii.eqb_eq].
    specialize (IH s ltac:(simpl; lia)).
    pose proof (split_dashes_ne s). destruct (split_dashes s) as [|w ws] eqn:Hs; [done|].
    cbn [join_dashes] in IH |- *. by rewrite IH.
  - specialize (IH (String b s) ltac:(simpl; lia)).
    pose proof (split_dashes_ne (String b s)).
    destruct (split_dashes (String b s)) as [|w ws] eqn:Hs; [done|].
    rewrite join_dashes_cons_char, IH. done.
Qed.

(** An accepted runtime candidate identifier consists of exactly four
    well-formed components (engine, owner, model and target) joined by double
    dashes, is at most 512 bytes long, and splitting it gives those components. *)
Theorem RuntimeCandidateId_components value v :
  RuntimeCandidateId_parse value = Ok v →
  ∃ engine owner model target,
    v = (engine +:+ "--" +:+ owner +:+ "--" +:+ model +:+ "--" +:+ target)%string ∧
    split_dashes v = [engine; owner; model; target] ∧
    forallb is_candidate_component [engine; owner; model; target] = true ∧
    str_len v ≤ 512.
Proof.
  unfold RuntimeCandidateId_parse. intros H. inv_result H.
  apply orb_false_iff in Hc as [Hlen%negb_false_iff%Nat.eqb_eq Hcomp].
  pose proof (join_split_dashes v) as Hj.
  destruct (split_dashes v) as [|e [|o [|m [|t [|]]]]] eqn:Hs; simpl in Hlen; try lia.
  exists e, o, m, t. split; [by rewrite <- Hj|]. split; [done|].
  simpl in Hcomp |- *. rewrite !orb_false_iff, !negb_false_iff in Hcomp.
  destruct Hcomp as (-> & -> & -> & -> & _). split; [done|lia].
Qed.

Lemma RuntimeCandidateId_components_witness :
  ∃ v, RuntimeCandidateId_parse "sglang--qwen--qwen3.8-27b--dgx-spark" = Ok v ∧
  ∃ engine owner model target,
    v = (engine +:+ "--" +:+ owner +:+ "--" +:+ model +:+ "--" +:+ target)%string ∧
    split_dashes v = [engine; owner; model; target] ∧
    forallb is_candidate_component [engine; owner; model; target] = true ∧
    str_len v ≤ 512.
Proof.
  eexists. split; [vm_compute; reflexivity|].
  apply (RuntimeCandidateId_components "sglang--qwen--qwen3.8-27b--dgx-spark").
  vm_compute. reflexivity.
Defined.

(** An accepted port range keeps its base and count, starts at or above
    1024, has between 1 and 32 ports, and its last port is computed without
    wrapping and fits the 16-bit port space. *)
Theorem PortRange_new_exact base count r :
  in_u16 base → in_u16 count → PortRange_new base count = Ok r →
  port_base r = base ∧ port_count r = count ∧
  PortRange_last r = base + count - 1 ∧
  1024 ≤ base ≤ PortRange_last r ∧ PortRange_last r ≤ u16_max ∧ 1 ≤ count ≤ 32.
Proof.
  unfold PortRange_new. intros Hb Hc H. inv_result H. simpl.
  assert (PortRange_last {| port_base := base; port_count := count |} = base + count - 1) as ->.
  { unfold PortRange_last; cbn [port_base port_count].
    change (2 ^ 32) with 4294967296. change (2 ^ 16) with 65536.
    rewrite (Z.mod_small (base + count - 1) 4294967296) by ulia. rewrite Z.mod_small; ulia. }
  ulia.
Qed.

Lemma PortRange_new_exact_witness :
  ∃ r, PortRange_new 65504 32 = Ok r ∧
  port_base r = 65504 ∧ port_count r = 32 ∧
  PortRange_last r = 65504 + 32 - 1 ∧
  1024 ≤ 65504 ≤ PortRange_last r ∧ PortRange_last r ≤ u16_max ∧ 1 ≤ 32 ≤ 32.
Proof.
  eexists. split; [reflexivity|]. refine (PortRange_new_exact 65504 32 _ _ _ eq_refl); ulia.
Defined.
