(* ===== verification/Text.v ===== *)
(** * Text: lines, fields and decimal numbers

    The parts of Rust's [str] that the descriptor and acknowledgement files use:
    [lines], [split_once], [contains], [u64::from_str] and [u64::to_string], with
    the laws the round trips of those files rest on. *)

From Stdlib Require Import String.
From S2P Require Import Prelude Values.

From Stdlib Require Ascii.

Import (notations) Stdlib.Strings.Ascii.

Definition newline : Ascii.ascii := "010"%char.
Definition carriage_return : Ascii.ascii := "013"%char.
Definition nl : string := String newline EmptyString.

(** [str::contains] of one character. *)
Fixpoint has_char (c : Ascii.ascii) (s : string) : bool :=
  match s with
  | EmptyString => false
  | String a s' => Ascii.eqb a c || has_char c s'
  end.

(** The line ending [\r\n] counts as one terminator. *)
Fixpoint strip_cr (s : string) : string :=
  match s with
  | EmptyString => EmptyString
  | String a EmptyString => if Ascii.eqb a carriage_return then EmptyString else s
  | String a s' => String a (strip_cr s')
  end.

(** [str::lines]: the terminated lines, then an unterminated rest if there is one. *)
Fixpoint lines_of (segments : list string) : list string :=
  match segments with
  | [] => []
  | [last] => match last with EmptyString => [] | _ => [last] end
  | w :: ws => strip_cr w :: lines_of ws
  end.
Definition lines (s : string) : list string := lines_of (split_char newline s).

(** [str::ends_with] of one character. *)
Fixpoint ends_with (c : Ascii.ascii) (s : string) : bool :=
  match s with
  | EmptyString => false
  | String a EmptyString => Ascii.eqb a c
  | String _ s' => ends_with c s'
  end.

(** [u64::from_str] and its narrower relatives: an optional plus sign, at least
    one digit, nothing else, and a value within the type. *)
Definition decimal_value (l : list Z) : Z := foldl (λ v b, 10 * v + (b - 48)) 0 l.
Definition parse_digits (maximum : Z) (l : list Z) : option Z :=
  let digits := match l with
                | b :: l' => if b =? 43 then l' else l
                | [] => []
                end in
  if bool_decide (digits = []) || negb (forallb is_ascii_digit digits) then None
  else if decimal_value digits <=? maximum then Some (decimal_value digits) else None.
Definition parse_unsigned (maximum : Z) (s : string) : option Z := parse_digits maximum (bytes s).

(** [u64::to_string]: decimal digits, most significant first.  The fuel is one
    more than the binary length of the number, which bounds its digits. *)
Definition digit_char (d : Z) : Ascii.ascii := Ascii.ascii_of_nat (Z.to_nat (48 + d)).
Fixpoint decimal_digits (fuel : nat) (n : Z) (acc : string) : string :=
  match fuel with
  | O => acc
  | S fuel =>
    let acc := String (digit_char (n mod 10)) acc in
    if n <? 10 then acc else decimal_digits fuel (n / 10) acc
  end.
Definition to_decimal (n : Z) : string := decimal_digits (S (Z.to_nat (Z.log2 n))) n EmptyString.

(** ** Laws *)


Lemma app_String a s t : String a s +:+ t = String a (s +:+ t).
Proof. done. Qed.

Lemma bytes_cons a s : bytes (String a s) = byte_val a :: bytes s.
Proof. done. Qed.

Lemma bytes_app s t : bytes (s +:+ t) = bytes s ++ bytes t.
Proof.
  induction s as [|a s IH]; [done|].
  by rewrite app_String, !bytes_cons, IH.
Qed.

Lemma str_len_app s t : str_len (s +:+ t) = str_len s + str_len t.
Proof. unfold str_len. induction s as [|a s IH]; [done|]. rewrite app_String. simpl. lia. Qed.

Lemma length_bytes s : Z.of_nat (length (bytes s)) = str_len s.
Proof. unfold str_len. induction s as [|a s IH]; [done|]. rewrite bytes_cons. simpl. lia. Qed.

Lemma has_char_app c s t : has_char c (s +:+ t) = has_char c s || has_char c t.
Proof. induction s as [|a s IH]; [done|]. rewrite app_String. simpl. by rewrite IH, orb_assoc. Qed.

Lemma byte_val_inj a b : byte_val a = byte_val b → a = b.
Proof.
  unfold byte_val. intros H%N2Z.inj.
  by rewrite <- (Ascii.ascii_N_embedding a), <- (Ascii.ascii_N_embedding b), H.
Qed.

(** A text whose bytes all satisfy [f] has no character that fails it. *)
Lemma has_char_forallb f c s :
  forallb f (bytes s) = true → f (byte_val c) = false → has_char c s = false.
Proof.
  intros Hf Hc. induction s as [|a s IH]; [done|].
  rewrite bytes_cons in Hf. simpl in Hf. apply andb_true_iff in Hf as [Ha Hs].
  simpl. rewrite (IH Hs), orb_false_r. apply Ascii.eqb_neq. congruence.
Qed.

Lemma split_once_app c name value :
  has_char c name = false →
  split_once c (name +:+ String c value) = Some (name, value).
Proof.
  induction name as [|a s IH]; [simpl; by rewrite Ascii.eqb_refl|].
  rewrite app_String. simpl. intros [Ha Hs]%orb_false_iff. by rewrite Ha, IH.
Qed.

Lemma split_once_Some c s l r : split_once c s = Some (l, r) → s = l +:+ String c r ∧ has_char c l = false.
Proof.
  revert l. induction s as [|a s IH]; intros l; simpl; [done|].
  destruct (Ascii.eqb_spec a c) as [->|Hne]; [by intros [= <- <-]|].
  destruct (split_once c s) as [[l' r']|]; [|done]. intros [= <- <-].
  destruct (IH l' eq_refl) as [-> Hl]. split; [done|]. simpl. rewrite Hl, orb_false_r.
  by apply Ascii.eqb_neq.
Qed.

Lemma split_once_None c s : split_once c s = None ↔ has_char c s = false.
Proof.
  induction s as [|a s IH]; simpl; [done|]. destruct (Ascii.eqb a c); [done|]. simpl.
  rewrite <- IH. by destruct (split_once c s) as [[? ?]|].
Qed.

Lemma split_char_app c w s :
  has_char c w = false → split_char c (w +:+ String c s) = w :: split_char c s.
Proof.
  induction w as [|a w IH]; [simpl; by rewrite Ascii.eqb_refl|].
  rewrite app_String. simpl. intros [Ha Hs]%orb_false_iff. by rewrite Ha, IH.
Qed.

Lemma split_char_ne c s : split_char c s ≠ [].
Proof. destruct s as [|a s]; simpl; [done|]. destruct (Ascii.eqb a c); [done|]. by destruct (split_char c s). Qed.

Lemma strip_cr_id s : has_char carriage_return s = false → strip_cr s = s.
Proof.
  induction s as [|a s IH]; [done|]. simpl. intros [Ha Hs]%orb_false_iff.
  destruct s; [by rewrite Ha|]. by rewrite IH.
Qed.

(** A terminated line without carriage return is the first line. *)
Lemma lines_cons w s :
  has_char newline w = false → has_char carriage_return w = false →
  lines (w +:+ String newline s) = w :: lines s.
Proof.
  intros Hn Hr. unfold lines. rewrite split_char_app by done.
  destruct (split_char newline s) as [|v vs] eqn:E; [by apply split_char_ne in E|].
  cbn [lines_of]. by rewrite strip_cr_id.
Qed.

Lemma lines_nil : lines EmptyString = [].
Proof. done. Qed.

(** ** Decimal numbers *)

Lemma byte_val_digit d : 0 ≤ d < 10 → byte_val (digit_char d) = 48 + d.
Proof.
  intros. unfold byte_val, digit_char, Ascii.ascii_of_nat.
  rewrite Ascii.N_ascii_embedding by lia. lia.
Qed.

Lemma decimal_digits_bytes fuel n acc :
  0 ≤ n → n < 10 ^ Z.of_nat fuel → (0 < fuel)%nat →
  ∃ l, bytes (decimal_digits fuel n acc) = l ++ bytes acc ∧ l ≠ [] ∧
       Forall (λ b, 48 ≤ b ≤ 57) l ∧ decimal_value l = n.
Proof.
  revert n acc. induction fuel as [|fuel IH]; intros n acc Hn Hlt Hf; [lia|]. cbn [decimal_digits].
  pose proof (Z.mod_pos_bound n 10 ltac:(lia)) as Hm.
  destruct (Z.ltb_spec n 10) as [Hs|Hs].
  - exists [48 + n mod 10]. rewrite bytes_cons, byte_val_digit by done.
    split_and!; [done|done|repeat constructor; lia|]. unfold decimal_value; simpl.
    rewrite Z.mod_small; lia.
  - assert (0 < fuel)%nat by (destruct fuel; [change (10 ^ Z.of_nat 1) with 10 in Hlt; lia|lia]).
    destruct (IH (n / 10) (String (digit_char (n mod 10)) acc)) as (l & Hl & Hne & Hd & Hv).
    + apply Z.div_pos; lia.
    + apply Z.div_lt_upper_bound; [lia|].
      replace (10 * 10 ^ Z.of_nat fuel) with (10 ^ Z.of_nat (S fuel)); [done|].
      rewrite Nat2Z.inj_succ, Z.pow_succ_r; lia.
    + done.
    + exists (l ++ [48 + n mod 10]). rewrite Hl, bytes_cons, byte_val_digit, <- app_assoc by done.
      split_and!; [done|by destruct l|apply Forall_app; split; [done|repeat constructor; lia]|].
      unfold decimal_value in *. rewrite foldl_app, Hv. simpl.
      rewrite (Z.div_mod n 10) at 3 by lia. lia.
Qed.

Lemma to_decimal_bytes n :
  0 ≤ n →
  bytes (to_decimal n) ≠ [] ∧ Forall (λ b, 48 ≤ b ≤ 57) (bytes (to_decimal n)) ∧
  decimal_value (bytes (to_decimal n)) = n.
Proof.
  intros Hn. destruct (decimal_digits_bytes (S (Z.to_nat (Z.log2 n))) n EmptyString)
    as (l & Hl & Hne & Hd & Hv); [done| |lia|].
  - destruct (decide (n = 0)) as [->|Hz]; [done|].
    pose proof (Z.log2_spec n ltac:(lia)) as [_ Hlog].
    rewrite Nat2Z.inj_succ, Z2Nat.id by apply Z.log2_nonneg.
    eapply Z.lt_le_trans; [exact Hlog|]. apply Z.pow_le_mono_l. lia.
  - unfold to_decimal. rewrite Hl. simpl. by rewrite app_nil_r.
Qed.

Lemma to_decimal_digits n :
  0 ≤ n → forallb is_ascii_digit (bytes (to_decimal n)) = true.
Proof.
  intros Hn. destruct (to_decimal_bytes n Hn) as (_ & Hd & _).
  apply forallb_forall. intros b Hb%list_elem_of_In. rewrite Forall_forall in Hd.
  specialize (Hd b Hb). unfold is_ascii_digit, in_range. lia.
Qed.

Lemma to_decimal_ne n : 0 ≤ n → to_decimal n ≠ EmptyString.
Proof. intros Hn E. destruct (to_decimal_bytes n Hn) as (H & _). by rewrite E in H. Qed.

(** Parsing a printed number gives it back. *)
Lemma parse_to_decimal maximum n :
  0 ≤ n ≤ maximum → parse_unsigned maximum (to_decimal n) = Some n.
Proof.
  intros [Hn Hm]. pose proof (to_decimal_digits n Hn) as Hd.
  destruct (to_decimal_bytes n Hn) as (Hne & _ & Hv).
  unfold parse_unsigned, parse_digits. destruct (bytes (to_decimal n)) as [|b l] eqn:E; [done|].
  destruct (Z.eqb_spec b 43) as [->|Hb]; [done|].
  rewrite bool_decide_eq_false_2, Hd, Hv by done. simpl. by rewrite (proj2 (Z.leb_le n maximum)).
Qed.

(** A printed number contains no character that is not a digit. *)
Lemma has_char_to_decimal c n :
  0 ≤ n → is_ascii_digit (byte_val c) = false → has_char c (to_decimal n) = false.
Proof. intros Hn. apply has_char_forallb, to_decimal_digits, Hn. Qed.

Lemma decimal_value_nonneg l : forallb is_ascii_digit l = true → 0 ≤ decimal_value l.
Proof.
  unfold decimal_value. assert (0 ≤ 0) as H0 by lia. revert H0. generalize 0 at 2 4.
  induction l as [|b l IH]; intros v Hv; simpl; [done|]. intros [Hb Hl]%andb_true_iff.
  apply IH; [|done]. unfold is_ascii_digit, in_range in Hb. lia.
Qed.

Lemma parse_unsigned_range maximum s n : parse_unsigned maximum s = Some n → 0 ≤ n ≤ maximum.
Proof.
  unfold parse_unsigned, parse_digits. set (digits := match bytes s with [] => _ | _ => _ end).
  destruct (bool_decide (digits = [])); [done|]. simpl.
  destruct (forallb is_ascii_digit digits) eqn:Hd; [|done]. simpl.
  destruct (Z.leb_spec (decimal_value digits) maximum); [|done].
  intros [= <-]. pose proof (decimal_value_nonneg _ Hd). lia.
Qed.

(** ** UTF-8

    [std::str::from_utf8] on the bytes of a file; a [string] of the model is any
    byte sequence, a Rust [str] one that passes this check. *)

Definition is_continuation (b : Z) : bool := in_range 128 191 b.

Fixpoint utf8_bytes (l : list Z) : bool :=
  match l with
  | [] => true
  | b0 :: r0 =>
    if b0 <? 128 then utf8_bytes r0 else
    match r0 with
    | [] => false
    | b1 :: r1 =>
      if in_range 194 223 b0 then is_continuation b1 && utf8_bytes r1 else
      match r1 with
      | [] => false
      | b2 :: r2 =>
        if in_range 224 239 b0 then
          (if b0 =? 224 then in_range 160 191 b1
           else if b0 =? 237 then in_range 128 159 b1 else is_continuation b1)
          && is_continuation b2 && utf8_bytes r2
        else
        match r2 with
        | [] => false
        | b3 :: r3 =>
          in_range 240 244 b0
          && (if b0 =? 240 then in_range 144 191 b1
              else if b0 =? 244 then in_range 128 143 b1 else is_continuation b1)
          && is_continuation b2 && is_continuation b3 && utf8_bytes r3
        end
      end
    end
  end.
Definition is_utf8 (s : string) : bool := utf8_bytes (bytes s).

Lemma utf8_bytes_app l1 l2 : utf8_bytes l1 = true → utf8_bytes (l1 ++ l2) = utf8_bytes l2.
Proof.
  induction l1 as [l1 IH] using (induction_ltof1 _ (@length Z)). unfold ltof in IH.
  destruct l1 as [|b0 r0]; [done|]. cbn [utf8_bytes app].
  destruct (b0 <? 128); [apply IH; simpl; lia|]. destruct r0 as [|b1 r1]; [done|]. cbn [app].
  destruct (in_range 194 223 b0).
  { intros [-> Hr]%andb_true_iff. apply IH; [simpl; lia|done]. }
  destruct r1 as [|b2 r2]; [done|]. cbn [app]. destruct (in_range 224 239 b0).
  { intros [Hb Hr]%andb_true_iff. rewrite Hb. apply IH; [simpl; lia|done]. }
  destruct r2 as [|b3 r3]; [done|]. cbn [app].
  intros [Hb Hr]%andb_true_iff. rewrite Hb. apply IH; [simpl; lia|done].
Qed.

Lemma utf8_bytes_ascii l : forallb (λ b, b <? 128) l = true → utf8_bytes l = true.
Proof. induction l as [|b l IH]; [done|]. simpl. intros [-> Hl]%andb_true_iff. auto. Qed.

Lemma is_utf8_app s t : is_utf8 s = true → is_utf8 (s +:+ t) = is_utf8 t.
Proof. unfold is_utf8. rewrite bytes_app. apply utf8_bytes_app. Qed.

(** A text of bytes that satisfy an ASCII class is UTF-8. *)
Lemma is_utf8_forallb f s :
  (∀ b, f b = true → b < 128) → forallb f (bytes s) = true → is_utf8 s = true.
Proof.
  intros Hf Hs. apply utf8_bytes_ascii, forallb_forall. intros b Hb.
  rewrite forallb_forall in Hs. apply Z.ltb_lt, Hf, Hs, Hb.
Qed.

(** ** Whitespace

    [str::split_whitespace] on the characters of a text: the maximal runs of
    characters that are not whitespace. *)

Fixpoint tokens (l word : list Z) : list (list Z) :=
  let flush := match word with [] => [] | _ => [word] end in
  match l with
  | [] => flush
  | c :: l => if is_whitespace c then flush ++ tokens l [] else tokens l (word ++ [c])
  end.
Definition split_whitespace (s : string) : list (list Z) := tokens (chars s) [].

(** ** Concatenation *)

Lemma string_app_assoc (s t u : string) : (s +:+ t) +:+ u = s +:+ (t +:+ u).
Proof. induction s as [|a s IH]; [done|]. rewrite !app_String. by f_equal. Qed.

Lemma string_app_nil (s : string) : s +:+ EmptyString = s.
Proof. induction s as [|a s IH]; [done|]. rewrite app_String. by f_equal. Qed.

Lemma string_length_app s t : String.length (s +:+ t) = (String.length s + String.length t)%nat.
Proof. induction s as [|c s IH]; simpl; [done|]. by rewrite IH. Qed.

Lemma string_app_inj s1 s2 t1 t2 :
  String.length s1 = String.length s2 → s1 +:+ t1 = s2 +:+ t2 → s1 = s2 ∧ t1 = t2.
Proof.
  revert s2. induction s1 as [|c s1 IH]; intros [|c2 s2] Hl H; simplify_eq/=; [done|].
  destruct (IH s2) as [-> ->]; [lia|done|]. done.
Qed.

Lemma string_app_inj_r s1 s2 t : s1 +:+ t = s2 +:+ t → s1 = s2.
Proof.
  intros H. apply (string_app_inj s1 s2 t t); [|done].
  apply (f_equal String.length) in H. rewrite !string_length_app in H. lia.
Qed.

(** ** Splitting and joining on one character *)

Fixpoint join (c : Ascii.ascii) (ws : list string) : string :=
  match ws with
  | [] => EmptyString
  | [w] => w
  | w :: ws => w +:+ String c (join c ws)
  end.

Lemma join_cons_char c a w ws : join c (String a w :: ws) = String a (join c (w :: ws)).
Proof. by destruct ws. Qed.
Lemma join_cons c w ws : ws ≠ [] → join c (w :: ws) = w +:+ String c (join c ws).
Proof. by destruct ws. Qed.

Lemma join_split_char c s : join c (split_char c s) = s.
Proof.
  induction s as [|a s IH]; [done|]. simpl. pose proof (split_char_ne c s) as Hne.
  destruct (Ascii.eqb_spec a c) as [->|_].
  - by rewrite join_cons, IH.
  - destruct (split_char c s) as [|w ws]; [done|]. by rewrite join_cons_char, IH.
Qed.

Lemma split_char_has_char c s : Forall (λ w, has_char c w = false) (split_char c s).
Proof.
  induction s as [|a s IH]; simpl; [by constructor|].
  destruct (Ascii.eqb a c) eqn:E; [by constructor|].
  destruct (split_char c s) as [|w ws]; [by constructor; [simpl; rewrite E|]|].
  apply Forall_cons in IH as [Hw Hws]. constructor; [simpl; by rewrite E|done].
Qed.

Lemma split_char_single c s : has_char c s = false → split_char c s = [s].
Proof.
  induction s as [|a s IH]; [done|]. simpl. intros [-> Hs]%orb_false_iff. by rewrite IH.
Qed.

Lemma split_char_join c ws :
  ws ≠ [] → Forall (λ w, has_char c w = false) ws → split_char c (join c ws) = ws.
Proof.
  intros Hne Hall. induction Hall as [|w ws Hw Hws IH]; [done|]. destruct ws as [|w' ws].
  - by apply split_char_single.
  - by rewrite join_cons, split_char_app, IH.
Qed.

Lemma has_char_join c d ws :
  c ≠ d → Forall (λ w, has_char c w = false) ws → has_char c (join d ws) = false.
Proof.
  intros Hcd. induction 1 as [|w ws Hw Hws IH]; [done|]. destruct ws as [|w' ws]; [done|].
  rewrite join_cons, has_char_app, Hw by done. cbn [has_char orb].
  rewrite IH, orb_false_r. apply Ascii.eqb_neq. congruence.
Qed.

(** ** Byte lists

    Little-endian integers and texts as lists of bytes, each a [Z] in [0, 255]. *)

From Stdlib Require Ascii.


Definition byte (b : Z) : Prop := 0 ≤ b < 256.

(** [value.to_le_bytes()] of an [n]-byte unsigned integer. *)
Fixpoint le_bytes (n : nat) (v : Z) : list Z :=
  match n with O => [] | S n => v mod 256 :: le_bytes n (v / 256) end.

(** [from_le_bytes]. *)
Fixpoint le_val (l : list Z) : Z :=
  match l with [] => 0 | b :: l => b + 256 * le_val l end.

(** ** Little-endian integers *)

Lemma le_bytes_length n v : length (le_bytes n v) = n.
Proof. revert v. induction n; intros v; simpl; auto. Qed.

Lemma le_bytes_bytes n v : Forall byte (le_bytes n v).
Proof.
  revert v. induction n as [|n IH]; intros v; simpl; constructor; [|done].
  unfold byte. apply Z.mod_pos_bound. lia.
Qed.

Lemma le_val_le_bytes n v : 0 ≤ v < 256 ^ Z.of_nat n → le_val (le_bytes n v) = v.
Proof.
  revert v. induction n as [|n IH]; intros v Hv.
  - change (256 ^ Z.of_nat 0) with 1 in Hv. simpl. lia.
  - cbn [le_bytes le_val]. rewrite Nat2Z.inj_succ, Z.pow_succ_r in Hv by lia.
    rewrite IH.
    + rewrite (Z.div_mod v 256) at 3 by lia. lia.
    + split; [apply Z.div_pos; lia|]. apply Z.div_lt_upper_bound; lia.
Qed.

Lemma le_bytes_le_val l : Forall byte l → le_bytes (length l) (le_val l) = l.
Proof.
  induction 1 as [|b l Hb Hl IH]; [done|]. cbn [length le_val le_bytes]. unfold byte in Hb.
  rewrite (Z.mul_comm 256), Z.mod_add, Z.mod_small, Z.div_add, Z.div_small by lia.
  by rewrite Z.add_0_l, IH.
Qed.

Lemma le_val_range l : Forall byte l → 0 ≤ le_val l < 256 ^ Z.of_nat (length l).
Proof.
  induction 1 as [|b l Hb Hl IH]; [done|]. cbn [length le_val]. unfold byte in Hb.
  rewrite Nat2Z.inj_succ, Z.pow_succ_r by lia. lia.
Qed.

(** ** Texts *)

Definition string_of_bytes (l : list Z) : string :=
  String.string_of_list_ascii (Ascii.ascii_of_N ∘ Z.to_N <$> l).

Lemma ascii_of_byte_val a : Ascii.ascii_of_N (Z.to_N (byte_val a)) = a.
Proof. unfold byte_val. by rewrite N2Z.id, Ascii.ascii_N_embedding. Qed.
Lemma byte_val_ascii b : byte b → byte_val (Ascii.ascii_of_N (Z.to_N b)) = b.
Proof. unfold byte, byte_val. intros Hb. rewrite Ascii.N_ascii_embedding by lia. lia. Qed.
Lemma byte_val_byte a : byte (byte_val a).
Proof. unfold byte, byte_val. pose proof (Ascii.N_ascii_bounded a). lia. Qed.

Lemma bytes_byte s : Forall byte (bytes s).
Proof. unfold bytes. apply Forall_fmap, Forall_true. intros a. apply byte_val_byte. Qed.
Lemma string_of_bytes_bytes s : string_of_bytes (bytes s) = s.
Proof.
  unfold string_of_bytes, bytes. rewrite <- list_fmap_compose.
  rewrite (list_fmap_ext _ id), list_fmap_id by (intros; apply ascii_of_byte_val).
  apply String.string_of_list_ascii_of_string.
Qed.
Lemma bytes_string_of_bytes l : Forall byte l → bytes (string_of_bytes l) = l.
Proof.
  intros Hl. unfold string_of_bytes, bytes. rewrite String.list_ascii_of_string_of_list_ascii.
  rewrite <- list_fmap_compose. induction Hl as [|b l Hb _ IH]; csimpl; [done|]. by rewrite byte_val_ascii, IH.
Qed.
