(* ===== verification/Interference.v ===== *)
(** * Operations under interference

    A shared table changes by steps while an operation runs: other managers make
    steps between and during its calls.  Triples over the current table, for
    assertions that those steps preserve; the guarantee is that the operation itself
    only makes steps. *)

From S2P Require Import Prelude.

Section interference.
Context {T : Type} (step : T → T → Prop).
Abbreviation evolves := (rtc step).

(** [P] relates the tables around one point between [t0] and [t1]. *)
Definition around_point (t0 : T) (P : T → T → Prop) (t1 : T) : Prop :=
  ∃ t t', evolves t0 t ∧ P t t' ∧ evolves t' t1.

(** The call failed and changed nothing, or it did [X] at this point. *)
Definition writes {E A} (X : A → T → T → Prop) (r : result E A) (t t' : T) : Prop :=
  (t' = t ∧ ∃ e, r = Err e) ∨ ∃ a, X a t t' ∧ ∀ v, r = Ok v → v = a.

Definition stable (P : T → Prop) : Prop := ∀ t t', P t → evolves t t' → P t'.

Lemma stable_evolves t0 : stable (evolves t0).
Proof. intros t t' ? ?. by etrans. Qed.

(** ** Triples

    From a table with [P], a run only lets the table evolve, and a successful one
    ends in a table with [Q]. *)
Context {W : Type} (table : W → T) (ready : W → Prop).

Definition triple {E A} (P : T → Prop) (c : SE W E A) (Q : A → T → Prop) : Prop :=
  ∀ w r w', ready w → P (table w) → c w = (r, w') →
    ready w' ∧ evolves (table w) (table w') ∧ ∀ a, r = Ok a → Q a (table w').

Lemma triple_bind {E A B} P (c : SE W E A) R (k : A → SE W E B) Q :
  triple P c R → (∀ a, triple (R a) (k a) Q) → triple P (se_bind c k) Q.
Proof.
  intros Hc Hk w r w' Hw HP Hr. apply se_bind_inv in Hr as [(a & w1 & H1 & H2)|(e & H1 & ->)].
  - destruct (Hc _ _ _ Hw HP H1) as (Hw1 & He1 & HR). destruct (Hk a _ _ _ Hw1 (HR a eq_refl) H2) as (? & ? & ?).
    split_and!; [done|by etrans|done].
  - by destruct (Hc _ _ _ Hw HP H1) as (? & ? & _).
Qed.

Lemma triple_ret {E A} (P : T → Prop) (a : A) (Q : A → T → Prop) :
  (∀ t, P t → Q a t) → triple (E := E) P (se_ret a) Q.
Proof. intros HQ w r w' Hw HP [= <- <-]. split_and!; [done..|]. intros ? [= <-]. auto. Qed.

Lemma triple_fail {E A} (P : T → Prop) (e : E) (Q : A → T → Prop) : triple P (se_fail e) Q.
Proof. intros w r w' Hw HP [= <- <-]. split_and!; [done..|]. by intros ? [=]. Qed.

Lemma triple_lift {E A B} (P : T → Prop) (x : result E A) (k : A → SE W E B) Q :
  (∀ a, x = Ok a → triple P (k a) Q) → triple P (se_bind (se_lift x) k) Q.
Proof. destruct x as [a|e]; [intros Hk; exact (Hk a eq_refl)|intros _; apply triple_fail]. Qed.

Lemma triple_if {E A} (P : T → Prop) (b : bool) (c1 c2 : SE W E A) Q :
  (b = true → triple P c1 Q) → (b = false → triple P c2 Q) → triple P (if b then c1 else c2) Q.
Proof. destruct b; auto. Qed.

Lemma triple_weaken {E A} (P P' : T → Prop) (c : SE W E A) (Q : A → T → Prop) :
  (∀ t, P t → P' t) → triple P' c Q → triple P c Q.
Proof. intros HP Hc w r w' Hw HPw. apply Hc; auto. Qed.

Lemma triple_post {E A} (P : T → Prop) (c : SE W E A) (Q Q' : A → T → Prop) :
  (∀ a t, Q a t → Q' a t) → triple P c Q → triple P c Q'.
Proof. intros HQ Hc w r w' Hw HP Hr. destruct (Hc _ _ _ Hw HP Hr) as (? & ? & ?). split_and!; eauto. Qed.

Lemma triple_assume {E A} (P : T → Prop) (φ : Prop) (c : SE W E A) Q :
  (φ → triple P c Q) → triple (λ t, P t ∧ φ) c Q.
Proof. intros Hc w r w' Hw [HP Hφ]. by apply Hc. Qed.

(** Facts that follow from the assertion. *)
Lemma triple_know {E A} (P : T → Prop) (φ : Prop) (c : SE W E A) Q :
  (∀ t, P t → φ) → (φ → triple P c Q) → triple P c Q.
Proof. intros HP Hc w r w' Hw HPw. exact (Hc (HP _ HPw) w r w' Hw HPw). Qed.

(** A write and what is computed from its answer. *)
Lemma triple_write {E E' A B} (f : E → E') t0 (P : T → Prop) (c : SE W E A)
    (X : A → T → T → Prop) (k : A → SE W E' B) (g : A → result E' B) (F : B → T → T → Prop) :
  stable P → (∀ t, P t → evolves t0 t) →
  (∀ w r w', ready w → c w = (r, w') → ready w' ∧ around_point (table w) (writes X r) (table w')) →
  (∀ a w, k a w = (g a, w)) →
  (∀ t t' a, P t → X a t t' → step t t' ∧ ∀ b, g a = Ok b → F b t t') →
  triple P (se_bind (se_map_err f c) k) (λ b, around_point t0 (F b)).
Proof.
  intros HP H0 Hlaw Hk HX w r w' Hw HPw Hr. unfold se_bind, se_map_err in Hr.
  destruct (c w) as [rr w1] eqn:Hc. destruct (Hlaw _ _ _ Hw Hc) as (Hw1 & t & t' & He & Hwr & He').
  assert (P t) as HPt by eauto.
  assert (evolves t t') as Hs.
  { destruct Hwr as [[-> _]|(a & Ha & _)]; [done|]. by apply rtc_once, (HX _ _ a). }
  assert (w' = w1) as -> by (destruct rr; simpl in Hr; rewrite ?Hk in Hr; by injection Hr).
  split_and!; [done|by do 2 (etrans; [done|])|].
  intros b ->. destruct rr as [v|e]; simpl in Hr; [|done]. rewrite Hk in Hr. injection Hr as Hf.
  destruct Hwr as [[_ [e [=]]]|(a & Ha & Hv)]. rewrite (Hv _ eq_refl) in Hf.
  exists t, t'. split_and!; [eauto|by apply (HX _ _ a)|done].
Qed.
End interference.
