(* ===== verification/GatewayContract.v ===== *)
(** * Gateway contract ([core/gateway/src/li_gateway_contract.rs])

    The values exchanged between GatewayManager, its injected providers and its
    callers: routes, requests, principals, usage records and the linear
    reservation and queue tokens.  Also the limits of an API key
    ([core/authentication/src/li_api_key.rs]) and the error vocabulary of
    [li_gateway_manager.rs].  [NonZeroU32] and [NonZeroU64] are [Z]; the
    constructors' callers establish that they are positive. *)

From S2P Require Import Prelude Ordering Values.

(** ** Errors *)

Inductive GatewayError :=
| InvalidContract (reason : string)
| AuthenticationDenied
| RelayDenied
| PublicUnavailableOnChild
| PrivateRelayUnavailableOnMain
| DuplicateRequest
| RequestRateLimit
| TokenRateLimit
| ConcurrencyLimit
| ContextTooLarge
| NoRoute
| CapacityUnavailable
| QueueFull
| QueueExpired
| RequestNotFound
| Provider (capability reason : string)
| StateUnavailable.

#[export] Instance GatewayError_eq_dec : EqDecision GatewayError.
Proof. solve_decision. Defined.

Definition MAX_PREFIX_KEYS : Z := 4096.
Definition MAX_QUEUE_MILLISECONDS : Z := 5 * 60 * 1000.

(** ** Modes and routes *)

Inductive GatewayMode :=
| Main (local_node_id : string)
| Child (local_node_id main_node_id : string).

Definition local_node_id (mode : GatewayMode) : string :=
  match mode with Main l => l | Child l _ => l end.
Definition main_node_id (mode : GatewayMode) : option string :=
  match mode with Main _ => None | Child _ m => Some m end.

Inductive GatewayRouteTarget :=
| LocalEngine (endpoint : EndpointAddress)
| ChildRelay (address : string).

#[export] Instance GatewayRouteTarget_eq_dec : EqDecision GatewayRouteTarget.
Proof. solve_decision. Defined.

Record GatewayRoute := {
  placement_group_id : string;
  endpoint_node_id : string;
  route_model : string;
  target : GatewayRouteTarget;
  max_active_requests : Z;
  max_context_tokens : Z;
  healthy : bool;
  memory_pressure : bool;
  temperature_millicelsius : option Z;
  prefix_keys : list string
}.

#[export] Instance GatewayRoute_eq_dec : EqDecision GatewayRoute.
Proof. solve_decision. Defined.

(** [values.windows(2).any(|values| values[0] == values[1])]. *)
Fixpoint has_adjacent_duplicate (l : list string) : bool :=
  match l with
  | x :: ((y :: _) as l') => bool_decide (x = y) || has_adjacent_duplicate l'
  | _ => false
  end.

Definition GatewayRoute_new (placement_group_id endpoint_node_id model : string)
    (target : GatewayRouteTarget) (max_active_requests max_context_tokens : Z)
    (healthy memory_pressure : bool) (temperature_millicelsius : option Z)
    (prefix_keys : list string) : result GatewayError GatewayRoute :=
  if (MAX_PREFIX_KEYS <? Z.of_nat (length prefix_keys))
     || match temperature_millicelsius with Some t => 250000 <? t | None => false end
  then Err (InvalidContract "gateway route exceeds the prefix-key or temperature bound")
  else
    let prefix_keys := sort_by String.compare prefix_keys in
    if has_adjacent_duplicate prefix_keys
    then Err (InvalidContract "gateway route contains duplicate prefix keys")
    else Ok {| placement_group_id := placement_group_id;
               endpoint_node_id := endpoint_node_id;
               route_model := model;
               target := target;
               max_active_requests := max_active_requests;
               max_context_tokens := max_context_tokens;
               healthy := healthy;
               memory_pressure := memory_pressure;
               temperature_millicelsius := temperature_millicelsius;
               prefix_keys := prefix_keys |}.

(** ** Requests *)

Record GatewayRequest := {
  request_id : string;
  request_model : string;
  context_tokens : Z;
  maximum_output_tokens : Z;
  prefix_key : option string;
  maximum_queue_milliseconds : Z
}.

#[export] Instance GatewayRequest_eq_dec : EqDecision GatewayRequest.
Proof. solve_decision. Defined.

Definition GatewayRequest_new (request_id model : string)
    (context_tokens maximum_output_tokens : Z) (prefix_key : option string)
    (maximum_queue_milliseconds : Z) : result GatewayError GatewayRequest :=
  if (MAX_QUEUE_MILLISECONDS <? maximum_queue_milliseconds)
     || match checked_add_u64 context_tokens maximum_output_tokens with
        | None => true | Some _ => false end
  then Err (InvalidContract "gateway request queue or token demand exceeds its bound")
  else Ok {| request_id := request_id;
             request_model := model;
             context_tokens := context_tokens;
             maximum_output_tokens := maximum_output_tokens;
             prefix_key := prefix_key;
             maximum_queue_milliseconds := maximum_queue_milliseconds |}.

(** [context_tokens + maximum_output_tokens] in [u64] arithmetic. *)
Definition token_demand (r : GatewayRequest) : Z :=
  wrapping_add_u64 (context_tokens r) (maximum_output_tokens r).

(** ** Principals and usage *)

Record ApiKeyLimits := {
  limit_requests_per_minute : option Z;
  limit_tokens_per_minute : option Z;
  limit_concurrency : option Z;
  limit_context_tokens : option Z
}.

Record GatewayPrincipal := { key_id : string; limits : ApiKeyLimits }.

Record GatewayUsageRecord := {
  usage_request_id : string;
  usage_key_id : string;
  usage_received_at : Z;
  usage_completed_at : Z;
  usage_tokens : Z
}.

Definition GatewayUsageRecord_new (request_id key_id : string)
    (received_at completed_at tokens : Z) : result GatewayError GatewayUsageRecord :=
  if completed_at <? received_at
  then Err (InvalidContract "gateway usage completion precedes receipt")
  else Ok {| usage_request_id := request_id;
             usage_key_id := key_id;
             usage_received_at := received_at;
             usage_completed_at := completed_at;
             usage_tokens := tokens |}.

(** ** Linear tokens

    A [GatewayReservation] is not [Clone] and its fields are crate-private: the
    caller that receives one must hand it back to exactly one terminal call. *)

Record GatewayReservation := {
  res_request : GatewayRequest;
  res_route : GatewayRoute;
  res_principal : option GatewayPrincipal;
  res_received_at : Z;
  res_queued_milliseconds : Z;
  res_reserved_tokens : Z
}.

(** A [GatewayQueueTicket] is the identity of a queued request. *)
Definition GatewayQueueTicket : Type := string.

Inductive GatewayAdmission :=
| AdmissionGranted (reservation : GatewayReservation)
| Queued (ticket : GatewayQueueTicket).

Inductive GatewayQueueStatus :=
| Waiting
| QueueAdmitted (reservation : GatewayReservation).

(** ** Laws *)

Lemma has_adjacent_duplicate_sorted l :
  StronglySorted (cmp_le String.compare) l →
  has_adjacent_duplicate l = false → NoDup l.
Proof.
  induction l as [|x l IH]; intros Hs Hd; [constructor|].
  inversion Hs as [|?? Hsl Hall]; subst.
  destruct l as [|y l]; [repeat constructor; set_solver|].
  cbn [has_adjacent_duplicate] in Hd. apply orb_false_iff in Hd as [Hxy Hd].
  apply bool_decide_eq_false in Hxy.
  constructor; [|by apply IH]. intros Hin.
  inversion Hsl as [|?? _ Hy]; inversion Hall as [|?? Hxy' _]; subst.
  apply elem_of_cons in Hin as [->|Hin]; [done|].
  rewrite Forall_forall in Hy. specialize (Hy x Hin). unfold cmp_le in *.
  rewrite String.compare_antisym in Hy.
  destruct (String.compare x y) eqn:Hc; simpl in *; [|done..].
  by apply String.compare_eq_iff in Hc.
Qed.

(** A constructed route carries the given prefix keys, sorted and without
    duplicates, within the bounds. *)
Lemma GatewayRoute_new_Ok g n m t ma mc h mp temp keys r :
  GatewayRoute_new g n m t ma mc h mp temp keys = Ok r →
  prefix_keys r ≡ₚ keys ∧ NoDup keys ∧ Z.of_nat (length keys) ≤ 4096 ∧
  max_active_requests r = ma ∧ placement_group_id r = g ∧
  (∀ c, temperature_millicelsius r = Some c → c ≤ 250000).
Proof.
  unfold GatewayRoute_new, MAX_PREFIX_KEYS. intros H. inv_result H. simpl.
  apply orb_false_iff in Hc as [Hk Ht].
  pose proof (sort_by_Permutation String.compare keys) as Hp.
  assert (NoDup keys) as Hnd.
  { rewrite <- Hp. apply has_adjacent_duplicate_sorted; [|done].
    apply (sort_by_Sorted _ (λ _, True)). by apply Forall_true. }
  repeat split; [done..|lia|]. intros c ->. lia.
Qed.

(** The constructor's overflow check makes the token demand exact. *)
Lemma GatewayRequest_new_Ok rid m ctx out pk q r :
  in_u64 ctx → in_u64 out → GatewayRequest_new rid m ctx out pk q = Ok r →
  token_demand r = ctx + out ∧ token_demand r ≤ u64_max ∧
  context_tokens r = ctx ∧ maximum_queue_milliseconds r = q ∧ q ≤ 300000.
Proof.
  unfold GatewayRequest_new, MAX_QUEUE_MILLISECONDS. intros Hctx Hout H. inv_result H.
  apply orb_false_iff in Hc as [Hq Hdem].
  destruct (checked_add_u64 ctx out) eqn:Hadd; [|done].
  apply checked_add_u64_Some in Hadd as [-> Hle].
  unfold token_demand, wrapping_add_u64; simpl.
  change (2 ^ 64) with 18446744073709551616.
  rewrite Z.mod_small; ulia.
Qed.
