(* ===== verification/GatewayTelemetry.v ===== *)
(** * Gateway telemetry state ([core/gateway/src/li_gateway_telemetry.rs])

    The secret-free counters GatewayManager keeps under its lock: aggregate
    lifecycle counters, one bounded row per placement group, the bounded window
    of token samples and the publisher's readiness.  Every counter is a [u64]
    that only grows, by saturating additions.  Publication to the filesystem and
    the floating-point rates of a snapshot are not modelled. *)

From S2P Require Import Prelude Values GatewayContract.

Definition MAX_PLACEMENT_GROUP_ACTIVITY : Z := 4096.
Definition MAX_PLACEMENT_GROUP_SAMPLES : Z := 16384.
Definition PLACEMENT_GROUP_RATE_WINDOW_MILLISECONDS : Z := 5000.
Definition TELEMETRY_STALE_MILLISECONDS : Z := 3500.

(** ** State *)

Record GatewayTelemetryCounters := {
  c_requests_received : Z;
  c_requests_admitted : Z;
  c_requests_completed : Z;
  c_requests_failed : Z;
  c_requests_cancelled : Z;
  c_requests_retried : Z;
  c_active_requests : Z;
  c_queued_requests : Z;
  c_input_tokens : Z;
  c_output_tokens : Z;
  c_cached_tokens : Z;
  c_queue_milliseconds : Z;
  c_ttft_milliseconds : Z;
  c_decode_milliseconds : Z;
  c_exact_token_requests : Z;
  c_prefix_cache_hits : Z
}.

Definition GatewayTelemetryCounters_default : GatewayTelemetryCounters :=
  {| c_requests_received := 0; c_requests_admitted := 0; c_requests_completed := 0;
     c_requests_failed := 0; c_requests_cancelled := 0; c_requests_retried := 0;
     c_active_requests := 0; c_queued_requests := 0; c_input_tokens := 0;
     c_output_tokens := 0; c_cached_tokens := 0; c_queue_milliseconds := 0;
     c_ttft_milliseconds := 0; c_decode_milliseconds := 0;
     c_exact_token_requests := 0; c_prefix_cache_hits := 0 |}.

Record GatewayPlacementGroupCounters := {
  g_requests_admitted : Z;
  g_requests_completed : Z;
  g_requests_failed : Z;
  g_requests_cancelled : Z;
  g_requests_retried : Z;
  g_input_tokens : Z;
  g_output_tokens : Z;
  g_cached_tokens : Z
}.

Definition GatewayPlacementGroupCounters_default : GatewayPlacementGroupCounters :=
  {| g_requests_admitted := 0; g_requests_completed := 0; g_requests_failed := 0;
     g_requests_cancelled := 0; g_requests_retried := 0; g_input_tokens := 0;
     g_output_tokens := 0; g_cached_tokens := 0 |}.

Record PlacementGroupTelemetry := {
  pg_model : string;
  pg_endpoint_node_id : string;
  pg_max_active_requests : Z;
  pg_counters : GatewayPlacementGroupCounters
}.

Record PlacementGroupSample := {
  sample_observed_at : Z;
  sample_group_id : string;
  sample_input_tokens : Z;
  sample_output_tokens : Z;
  sample_cached_tokens : Z
}.

Record GatewayTelemetryState := {
  counters : GatewayTelemetryCounters;
  placement_groups : gmap string PlacementGroupTelemetry;
  placement_group_samples : list PlacementGroupSample;
  last_publish_success : option Z;
  last_publish_failure : option Z
}.

Definition GatewayTelemetryState_default : GatewayTelemetryState :=
  {| counters := GatewayTelemetryCounters_default; placement_groups := ∅;
     placement_group_samples := []; last_publish_success := None;
     last_publish_failure := None |}.

Record GatewayTelemetryTiming := {
  t_queue_milliseconds : Z;
  t_ttft_milliseconds : Z;
  t_decode_milliseconds : Z
}.

Definition GatewayTelemetryTiming_default : GatewayTelemetryTiming :=
  {| t_queue_milliseconds := 0; t_ttft_milliseconds := 0; t_decode_milliseconds := 0 |}.

(** [first.zip(second).map_or(0, |(a, b)| b.saturating_sub(a))]. *)
Definition elapsed (a b : option Z) : Z :=
  match a, b with Some a, Some b => saturating_sub b a | _, _ => 0 end.

Definition from_observations (queue_milliseconds : Z)
    (dispatched_at first_byte_at completed_at : option Z) : GatewayTelemetryTiming :=
  {| t_queue_milliseconds := queue_milliseconds;
     t_ttft_milliseconds := elapsed dispatched_at first_byte_at;
     t_decode_milliseconds := elapsed first_byte_at completed_at |}.

Record GatewayTelemetryHealth := {
  th_healthy : bool;
  th_last_success_at : option Z;
  th_last_failure_at : option Z
}.

(** [increment(&mut value, delta)]. *)
Definition increment (value delta : Z) : Z := saturating_add_u64 value delta.

(** ** Counter updates *)

Definition with_counters (f : GatewayTelemetryCounters → GatewayTelemetryCounters)
    (t : GatewayTelemetryState) : GatewayTelemetryState :=
  {| counters := f (counters t); placement_groups := placement_groups t;
     placement_group_samples := placement_group_samples t;
     last_publish_success := last_publish_success t;
     last_publish_failure := last_publish_failure t |}.

(** Field updates: [inc_<field> d c] is [increment(&mut c.<field>, d)]. *)
Definition inc_requests_received (d : Z) (c : GatewayTelemetryCounters) : GatewayTelemetryCounters :=
  let '(Build_GatewayTelemetryCounters x1 x2 x3 x4 x5 x6 x7 x8 x9 x10 x11 x12 x13 x14 x15 x16) := c in
  Build_GatewayTelemetryCounters (increment x1 d) x2 x3 x4 x5 x6 x7 x8 x9 x10 x11 x12 x13 x14 x15 x16.
Definition inc_requests_admitted (d : Z) (c : GatewayTelemetryCounters) : GatewayTelemetryCounters :=
  let '(Build_GatewayTelemetryCounters x1 x2 x3 x4 x5 x6 x7 x8 x9 x10 x11 x12 x13 x14 x15 x16) := c in
  Build_GatewayTelemetryCounters x1 (increment x2 d) x3 x4 x5 x6 x7 x8 x9 x10 x11 x12 x13 x14 x15 x16.
Definition inc_requests_completed (d : Z) (c : GatewayTelemetryCounters) : GatewayTelemetryCounters :=
  let '(Build_GatewayTelemetryCounters x1 x2 x3 x4 x5 x6 x7 x8 x9 x10 x11 x12 x13 x14 x15 x16) := c in
  Build_GatewayTelemetryCounters x1 x2 (increment x3 d) x4 x5 x6 x7 x8 x9 x10 x11 x12 x13 x14 x15 x16.
Definition inc_requests_failed (d : Z) (c : GatewayTelemetryCounters) : GatewayTelemetryCounters :=
  let '(Build_GatewayTelemetryCounters x1 x2 x3 x4 x5 x6 x7 x8 x9 x10 x11 x12 x13 x14 x15 x16) := c in
  Build_GatewayTelemetryCounters x1 x2 x3 (increment x4 d) x5 x6 x7 x8 x9 x10 x11 x12 x13 x14 x15 x16.
Definition inc_requests_cancelled (d : Z) (c : GatewayTelemetryCounters) : GatewayTelemetryCounters :=
  let '(Build_GatewayTelemetryCounters x1 x2 x3 x4 x5 x6 x7 x8 x9 x10 x11 x12 x13 x14 x15 x16) := c in
  Build_GatewayTelemetryCounters x1 x2 x3 x4 (increment x5 d) x6 x7 x8 x9 x10 x11 x12 x13 x14 x15 x16.
Definition inc_requests_retried (d : Z) (c : GatewayTelemetryCounters) : GatewayTelemetryCounters :=
  let '(Build_GatewayTelemetryCounters x1 x2 x3 x4 x5 x6 x7 x8 x9 x10 x11 x12 x13 x14 x15 x16) := c in
  Build_GatewayTelemetryCounters x1 x2 x3 x4 x5 (increment x6 d) x7 x8 x9 x10 x11 x12 x13 x14 x15 x16.
Definition inc_input_tokens (d : Z) (c : GatewayTelemetryCounters) : GatewayTelemetryCounters :=
  let '(Build_GatewayTelemetryCounters x1 x2 x3 x4 x5 x6 x7 x8 x9 x10 x11 x12 x13 x14 x15 x16) := c in
  Build_GatewayTelemetryCounters x1 x2 x3 x4 x5 x6 x7 x8 (increment x9 d) x10 x11 x12 x13 x14 x15 x16.
Definition inc_output_tokens (d : Z) (c : GatewayTelemetryCounters) : GatewayTelemetryCounters :=
  let '(Build_GatewayTelemetryCounters x1 x2 x3 x4 x5 x6 x7 x8 x9 x10 x11 x12 x13 x14 x15 x16) := c in
  Build_GatewayTelemetryCounters x1 x2 x3 x4 x5 x6 x7 x8 x9 (increment x10 d) x11 x12 x13 x14 x15 x16.
Definition inc_cached_tokens (d : Z) (c : GatewayTelemetryCounters) : GatewayTelemetryCounters :=
  let '(Build_GatewayTelemetryCounters x1 x2 x3 x4 x5 x6 x7 x8 x9 x10 x11 x12 x13 x14 x15 x16) := c in
  Build_GatewayTelemetryCounters x1 x2 x3 x4 x5 x6 x7 x8 x9 x10 (increment x11 d) x12 x13 x14 x15 x16.
Definition inc_queue_milliseconds (d : Z) (c : GatewayTelemetryCounters) : GatewayTelemetryCounters :=
  let '(Build_GatewayTelemetryCounters x1 x2 x3 x4 x5 x6 x7 x8 x9 x10 x11 x12 x13 x14 x15 x16) := c in
  Build_GatewayTelemetryCounters x1 x2 x3 x4 x5 x6 x7 x8 x9 x10 x11 (increment x12 d) x13 x14 x15 x16.
Definition inc_ttft_milliseconds (d : Z) (c : GatewayTelemetryCounters) : GatewayTelemetryCounters :=
  let '(Build_GatewayTelemetryCounters x1 x2 x3 x4 x5 x6 x7 x8 x9 x10 x11 x12 x13 x14 x15 x16) := c in
  Build_GatewayTelemetryCounters x1 x2 x3 x4 x5 x6 x7 x8 x9 x10 x11 x12 (increment x13 d) x14 x15 x16.
Definition inc_decode_milliseconds (d : Z) (c : GatewayTelemetryCounters) : GatewayTelemetryCounters :=
  let '(Build_GatewayTelemetryCounters x1 x2 x3 x4 x5 x6 x7 x8 x9 x10 x11 x12 x13 x14 x15 x16) := c in
  Build_GatewayTelemetryCounters x1 x2 x3 x4 x5 x6 x7 x8 x9 x10 x11 x12 x13 (increment x14 d) x15 x16.
Definition inc_exact_token_requests (d : Z) (c : GatewayTelemetryCounters) : GatewayTelemetryCounters :=
  let '(Build_GatewayTelemetryCounters x1 x2 x3 x4 x5 x6 x7 x8 x9 x10 x11 x12 x13 x14 x15 x16) := c in
  Build_GatewayTelemetryCounters x1 x2 x3 x4 x5 x6 x7 x8 x9 x10 x11 x12 x13 x14 (increment x15 d) x16.
Definition inc_prefix_cache_hits (d : Z) (c : GatewayTelemetryCounters) : GatewayTelemetryCounters :=
  let '(Build_GatewayTelemetryCounters x1 x2 x3 x4 x5 x6 x7 x8 x9 x10 x11 x12 x13 x14 x15 x16) := c in
  Build_GatewayTelemetryCounters x1 x2 x3 x4 x5 x6 x7 x8 x9 x10 x11 x12 x13 x14 x15 (increment x16 d).

Definition inc_group_requests_admitted (d : Z) (c : GatewayPlacementGroupCounters) : GatewayPlacementGroupCounters :=
  let '(Build_GatewayPlacementGroupCounters x1 x2 x3 x4 x5 x6 x7 x8) := c in
  Build_GatewayPlacementGroupCounters (increment x1 d) x2 x3 x4 x5 x6 x7 x8.
Definition inc_group_requests_completed (d : Z) (c : GatewayPlacementGroupCounters) : GatewayPlacementGroupCounters :=
  let '(Build_GatewayPlacementGroupCounters x1 x2 x3 x4 x5 x6 x7 x8) := c in
  Build_GatewayPlacementGroupCounters x1 (increment x2 d) x3 x4 x5 x6 x7 x8.
Definition inc_group_requests_failed (d : Z) (c : GatewayPlacementGroupCounters) : GatewayPlacementGroupCounters :=
  let '(Build_GatewayPlacementGroupCounters x1 x2 x3 x4 x5 x6 x7 x8) := c in
  Build_GatewayPlacementGroupCounters x1 x2 (increment x3 d) x4 x5 x6 x7 x8.
Definition inc_group_requests_cancelled (d : Z) (c : GatewayPlacementGroupCounters) : GatewayPlacementGroupCounters :=
  let '(Build_GatewayPlacementGroupCounters x1 x2 x3 x4 x5 x6 x7 x8) := c in
  Build_GatewayPlacementGroupCounters x1 x2 x3 (increment x4 d) x5 x6 x7 x8.
Definition inc_group_requests_retried (d : Z) (c : GatewayPlacementGroupCounters) : GatewayPlacementGroupCounters :=
  let '(Build_GatewayPlacementGroupCounters x1 x2 x3 x4 x5 x6 x7 x8) := c in
  Build_GatewayPlacementGroupCounters x1 x2 x3 x4 (increment x5 d) x6 x7 x8.
Definition inc_group_input_tokens (d : Z) (c : GatewayPlacementGroupCounters) : GatewayPlacementGroupCounters :=
  let '(Build_GatewayPlacementGroupCounters x1 x2 x3 x4 x5 x6 x7 x8) := c in
  Build_GatewayPlacementGroupCounters x1 x2 x3 x4 x5 (increment x6 d) x7 x8.
Definition inc_group_output_tokens (d : Z) (c : GatewayPlacementGroupCounters) : GatewayPlacementGroupCounters :=
  let '(Build_GatewayPlacementGroupCounters x1 x2 x3 x4 x5 x6 x7 x8) := c in
  Build_GatewayPlacementGroupCounters x1 x2 x3 x4 x5 x6 (increment x7 d) x8.
Definition inc_group_cached_tokens (d : Z) (c : GatewayPlacementGroupCounters) : GatewayPlacementGroupCounters :=
  let '(Build_GatewayPlacementGroupCounters x1 x2 x3 x4 x5 x6 x7 x8) := c in
  Build_GatewayPlacementGroupCounters x1 x2 x3 x4 x5 x6 x7 (increment x8 d).

Definition record_timing (timing : GatewayTelemetryTiming) (t : GatewayTelemetryState)
  : GatewayTelemetryState :=
  with_counters (λ c,
    inc_decode_milliseconds (t_decode_milliseconds timing)
      (inc_ttft_milliseconds (t_ttft_milliseconds timing)
         (inc_queue_milliseconds (t_queue_milliseconds timing) c))) t.

(** ** Placement-group rows *)

Definition with_groups (m : gmap string PlacementGroupTelemetry) (t : GatewayTelemetryState)
  : GatewayTelemetryState :=
  {| counters := counters t; placement_groups := m;
     placement_group_samples := placement_group_samples t;
     last_publish_success := last_publish_success t;
     last_publish_failure := last_publish_failure t |}.

Definition with_samples (l : list PlacementGroupSample) (t : GatewayTelemetryState)
  : GatewayTelemetryState :=
  {| counters := counters t; placement_groups := placement_groups t;
     placement_group_samples := l;
     last_publish_success := last_publish_success t;
     last_publish_failure := last_publish_failure t |}.

(** The row [group(route)] leaves in the map: an existing row keeps its counters
    and takes the route's current facts. *)
Definition group_row (route : GatewayRoute) (c : GatewayPlacementGroupCounters)
  : PlacementGroupTelemetry :=
  {| pg_model := route_model route; pg_endpoint_node_id := endpoint_node_id route;
     pg_max_active_requests := max_active_requests route; pg_counters := c |}.

(** [if let Some(group) = self.group(route) { f(group.counters) }]. *)
Definition group (route : GatewayRoute)
    (f : GatewayPlacementGroupCounters → GatewayPlacementGroupCounters)
    (t : GatewayTelemetryState) : GatewayTelemetryState :=
  let id := placement_group_id route in
  match placement_groups t !! id with
  | Some g => with_groups (<[id := group_row route (f (pg_counters g))]> (placement_groups t)) t
  | None =>
    if MAX_PLACEMENT_GROUP_ACTIVITY <=? Z.of_nat (size (placement_groups t)) then t
    else with_groups
           (<[id := group_row route (f GatewayPlacementGroupCounters_default)]>
              (placement_groups t)) t
  end.

(** [while len > MAX { pop_front }]: drop from the front down to the bound. *)
Definition record_sample (id : string) (observed_at input_tokens output_tokens cached_tokens : Z)
    (t : GatewayTelemetryState) : GatewayTelemetryState :=
  match placement_groups t !! id with
  | None => t
  | Some _ =>
    let l := placement_group_samples t ++
      [{| sample_observed_at := observed_at; sample_group_id := id;
          sample_input_tokens := input_tokens; sample_output_tokens := output_tokens;
          sample_cached_tokens := cached_tokens |}] in
    with_samples (drop (Z.to_nat (Z.of_nat (length l) - MAX_PLACEMENT_GROUP_SAMPLES)) l) t
  end.

(** ** Events *)

Definition record_received (t : GatewayTelemetryState) : GatewayTelemetryState :=
  with_counters (inc_requests_received 1) t.

Definition record_unrouted_failure_with_timing (timing : GatewayTelemetryTiming)
    (t : GatewayTelemetryState) : GatewayTelemetryState :=
  record_timing timing (with_counters (inc_requests_failed 1) t).

Definition record_unrouted_failure (t : GatewayTelemetryState) : GatewayTelemetryState :=
  record_unrouted_failure_with_timing GatewayTelemetryTiming_default t.

Definition record_admitted (route : GatewayRoute) (t : GatewayTelemetryState)
  : GatewayTelemetryState :=
  group route (inc_group_requests_admitted 1) (with_counters (inc_requests_admitted 1) t).

Definition record_retried (route : GatewayRoute) (t : GatewayTelemetryState)
  : GatewayTelemetryState :=
  group route (inc_group_requests_retried 1) (with_counters (inc_requests_retried 1) t).

Definition record_completed (route : GatewayRoute) (observed_at : Z)
    (timing : GatewayTelemetryTiming) (input_tokens output_tokens cached_tokens : Z)
    (exact_tokens : bool) (t : GatewayTelemetryState) : GatewayTelemetryState :=
  let t := with_counters (λ c,
             inc_cached_tokens cached_tokens
               (inc_output_tokens output_tokens
                  (inc_input_tokens input_tokens (inc_requests_completed 1 c)))) t in
  let t := record_timing timing t in
  let t := if exact_tokens then with_counters (inc_exact_token_requests 1) t else t in
  let t := if 0 <? cached_tokens then with_counters (inc_prefix_cache_hits 1) t else t in
  let t := group route (λ g,
             inc_group_cached_tokens cached_tokens
               (inc_group_output_tokens output_tokens
                  (inc_group_input_tokens input_tokens (inc_group_requests_completed 1 g)))) t in
  record_sample (placement_group_id route) observed_at input_tokens output_tokens
    cached_tokens t.

Definition record_failed (route : GatewayRoute) (timing : GatewayTelemetryTiming)
    (t : GatewayTelemetryState) : GatewayTelemetryState :=
  group route (inc_group_requests_failed 1)
    (record_timing timing (with_counters (inc_requests_failed 1) t)).

Definition record_cancelled (route : option GatewayRoute) (timing : GatewayTelemetryTiming)
    (t : GatewayTelemetryState) : GatewayTelemetryState :=
  let t := record_timing timing (with_counters (inc_requests_cancelled 1) t) in
  match route with
  | Some route => group route (inc_group_requests_cancelled 1) t
  | None => t
  end.

(** ** Publisher readiness and the sample window *)

Definition publisher_did_succeed (observed_at : Z) (t : GatewayTelemetryState)
  : GatewayTelemetryState :=
  {| counters := counters t; placement_groups := placement_groups t;
     placement_group_samples := placement_group_samples t;
     last_publish_success := Some observed_at; last_publish_failure := None |}.

Definition publisher_did_fail (observed_at : Z) (t : GatewayTelemetryState)
  : GatewayTelemetryState :=
  {| counters := counters t; placement_groups := placement_groups t;
     placement_group_samples := placement_group_samples t;
     last_publish_success := last_publish_success t;
     last_publish_failure := Some observed_at |}.

Definition health (observed_at : Z) (t : GatewayTelemetryState) : GatewayTelemetryHealth :=
  {| th_healthy :=
       match last_publish_success t with
       | None => false
       | Some success =>
         match last_publish_failure t with Some _ => false | None => true end
         && (success <=? observed_at)
         && (saturating_sub observed_at success <=? TELEMETRY_STALE_MILLISECONDS)
       end;
     th_last_success_at := last_publish_success t;
     th_last_failure_at := last_publish_failure t |}.

Fixpoint drop_older (cutoff : Z) (l : list PlacementGroupSample) : list PlacementGroupSample :=
  match l with
  | [] => []
  | s :: l' => if sample_observed_at s <? cutoff then drop_older cutoff l' else l
  end.

Definition prune_samples (observed_at : Z) (t : GatewayTelemetryState) : GatewayTelemetryState :=
  let cutoff := saturating_sub observed_at PLACEMENT_GROUP_RATE_WINDOW_MILLISECONDS in
  with_samples (drop_older cutoff (placement_group_samples t)) t.

(** One step of [recent_sample_totals]: input, output and cached token totals and
    the earliest observation of a group. *)
Definition add_sample_total (totals : gmap string (Z * Z * Z * Z)) (s : PlacementGroupSample)
  : gmap string (Z * Z * Z * Z) :=
  let '(i, o, c, first) :=
    default (0, 0, 0, sample_observed_at s) (totals !! sample_group_id s) in
  <[sample_group_id s :=
      (saturating_add_u64 i (sample_input_tokens s),
       saturating_add_u64 o (sample_output_tokens s),
       saturating_add_u64 c (sample_cached_tokens s),
       Z.min first (sample_observed_at s))]> totals.

Definition recent_sample_totals (t : GatewayTelemetryState) : gmap string (Z * Z * Z * Z) :=
  foldl add_sample_total ∅ (placement_group_samples t).
