(* ===== verification/GatewayState.v ===== *)
(** * Live gateway state ([core/gateway/src/li_gateway_manager.rs], state and helpers)

    [GatewayState] is the record GatewayManager keeps under its lock, and the
    definitions below are the private functions that read and mutate it.  A
    [HashMap] or [BTreeMap] is a [gmap], a [VecDeque] a list with its front
    first.  [u32] and [u64] arithmetic wraps where the code neither checks nor
    saturates (the release profile). *)

From S2P Require Import Prelude Ordering Values GatewayContract GatewayTelemetry.

Definition ROLLING_WINDOW_MILLISECONDS : Z := 60000.
Definition MAX_QUEUED_REQUESTS : Z := 1024.
Definition MAX_BACKEND_FAILURES : Z := 16.
Definition MAX_BACKEND_COOLDOWN_MILLISECONDS : Z := 60000.
Definition PREFIX_AFFINITY_MILLISECONDS : Z := 60 * 60 * 1000.
Definition MAX_PREFIX_AFFINITY_ENTRIES : Z := 4096.

(** ** State *)

Record QueuedRequest := {
  q_request : GatewayRequest;
  q_principal : option GatewayPrincipal;
  q_received_at : Z;
  q_enqueued_at : Z;
  q_queued_milliseconds : Z;
  q_reserved_tokens : Z;
  q_was_admitted : bool
}.

Record GatewayState := {
  loaded_keys : gset string;
  request_windows : gmap string (list Z);
  token_windows : gmap string (list (Z * Z));
  principal_active : gmap string Z;
  principal_reserved_tokens : gmap string Z;
  route_active : gmap string Z;
  failure_counts : gmap string Z;
  unavailable_until : gmap string Z;
  prefix_affinity : gmap (string * string) (string * Z);
  active_requests : gmap string string;
  queue_order : list string;
  queued : gmap string QueuedRequest;
  telemetry : GatewayTelemetryState
}.

Definition GatewayState_default : GatewayState :=
  {| loaded_keys := ∅; request_windows := ∅; token_windows := ∅; principal_active := ∅;
     principal_reserved_tokens := ∅; route_active := ∅; failure_counts := ∅;
     unavailable_until := ∅; prefix_affinity := ∅; active_requests := ∅; queue_order := [];
     queued := ∅; telemetry := GatewayTelemetryState_default |}.

Inductive RouteSelection :=
| Selected (route : GatewayRoute)
| Busy.

(** Field updates. *)
Definition set_loaded_keys x (s : GatewayState) : GatewayState :=
  let '(Build_GatewayState _ b c d e f g h i j k l m) := s in
  Build_GatewayState x b c d e f g h i j k l m.
Definition set_request_windows x (s : GatewayState) : GatewayState :=
  let '(Build_GatewayState a _ c d e f g h i j k l m) := s in
  Build_GatewayState a x c d e f g h i j k l m.
Definition set_token_windows x (s : GatewayState) : GatewayState :=
  let '(Build_GatewayState a b _ d e f g h i j k l m) := s in
  Build_GatewayState a b x d e f g h i j k l m.
Definition set_principal_active x (s : GatewayState) : GatewayState :=
  let '(Build_GatewayState a b c _ e f g h i j k l m) := s in
  Build_GatewayState a b c x e f g h i j k l m.
Definition set_principal_reserved_tokens x (s : GatewayState) : GatewayState :=
  let '(Build_GatewayState a b c d _ f g h i j k l m) := s in
  Build_GatewayState a b c d x f g h i j k l m.
Definition set_route_active x (s : GatewayState) : GatewayState :=
  let '(Build_GatewayState a b c d e _ g h i j k l m) := s in
  Build_GatewayState a b c d e x g h i j k l m.
Definition set_failure_counts x (s : GatewayState) : GatewayState :=
  let '(Build_GatewayState a b c d e f _ h i j k l m) := s in
  Build_GatewayState a b c d e f x h i j k l m.
Definition set_unavailable_until x (s : GatewayState) : GatewayState :=
  let '(Build_GatewayState a b c d e f g _ i j k l m) := s in
  Build_GatewayState a b c d e f g x i j k l m.
Definition set_prefix_affinity x (s : GatewayState) : GatewayState :=
  let '(Build_GatewayState a b c d e f g h _ j k l m) := s in
  Build_GatewayState a b c d e f g h x j k l m.
Definition set_active_requests x (s : GatewayState) : GatewayState :=
  let '(Build_GatewayState a b c d e f g h i _ k l m) := s in
  Build_GatewayState a b c d e f g h i x k l m.
Definition set_queue_order x (s : GatewayState) : GatewayState :=
  let '(Build_GatewayState a b c d e f g h i j _ l m) := s in
  Build_GatewayState a b c d e f g h i j x l m.
Definition set_queued x (s : GatewayState) : GatewayState :=
  let '(Build_GatewayState a b c d e f g h i j k _ m) := s in
  Build_GatewayState a b c d e f g h i j k x m.
Definition with_telemetry (f : GatewayTelemetryState → GatewayTelemetryState)
    (s : GatewayState) : GatewayState :=
  let '(Build_GatewayState a b c d e f' g h i j k l m) := s in
  Build_GatewayState a b c d e f' g h i j k l (f m).

(** ** Admission policy *)

Definition require_new_request (state : GatewayState) (rid : string) : result GatewayError () :=
  if bool_decide (is_Some (active_requests state !! rid))
     || bool_decide (is_Some (queued state !! rid))
  then Err DuplicateRequest else Ok ().

(** The loop of [load_recent_usage] over one key's persisted records. *)
Definition push_usage (key : string) (state : GatewayState) (usage : GatewayUsageRecord)
  : GatewayState :=
  let state := set_request_windows
    (<[key := default [] (request_windows state !! key) ++ [usage_received_at usage]]>
       (request_windows state)) state in
  set_token_windows
    (<[key := default [] (token_windows state !! key)
              ++ [(usage_completed_at usage, usage_tokens usage)]]>
       (token_windows state)) state.

Definition load_recent_usage (key : string) (recent : list GatewayUsageRecord) (since now : Z)
  : SE GatewayState GatewayError () := λ state,
  if existsb (λ usage,
       negb (bool_decide (usage_key_id usage = key))
       || (usage_received_at usage <? since)
       || (now <? usage_completed_at usage)) recent
  then (Err (InvalidContract "gateway usage store returned a foreign or out-of-window record"),
        state)
  else if bool_decide (key ∈ loaded_keys state) then (Ok (), state)
  else
    let state := set_loaded_keys ({[key]} ∪ loaded_keys state) state in
    (Ok (), foldl (push_usage key) state recent).

(** [while front.is_some_and(|value| *value <= cutoff) { pop_front }]. *)
Fixpoint prune_window {A} (time : A → Z) (cutoff : Z) (l : list A) : list A :=
  match l with
  | [] => []
  | x :: l' => if time x <=? cutoff then prune_window time cutoff l' else l
  end.

(** [tokens.iter().map(|(_, value)| *value).sum::<u64>()]. *)
Definition window_total (l : list (Z * Z)) : Z :=
  foldl (λ acc p, wrapping_add_u64 acc p.2) 0 l.

Definition admit_principal (principal : GatewayPrincipal) (request : GatewayRequest) (now : Z)
  : SE GatewayState GatewayError () := λ state,
  let key := key_id principal in
  let cutoff := saturating_sub now ROLLING_WINDOW_MILLISECONDS in
  let requests := prune_window id cutoff (default [] (request_windows state !! key)) in
  let state := set_request_windows (<[key := requests]> (request_windows state)) state in
  let tokens := prune_window fst cutoff (default [] (token_windows state !! key)) in
  let state := set_token_windows (<[key := tokens]> (token_windows state)) state in
  let lim := limits principal in
  if match limit_context_tokens lim with
     | Some limit => limit <? context_tokens request | None => false end
  then (Err ContextTooLarge, state)
  else if match limit_requests_per_minute lim with
          | Some limit => limit <=? Z.of_nat (length requests) | None => false end
  then (Err RequestRateLimit, state)
  else
    let active := default 0 (principal_active state !! key) in
    if match limit_concurrency lim with
       | Some limit => limit <=? active | None => false end
    then (Err ConcurrencyLimit, state)
    else
      let commit (state : GatewayState) :=
        let state := set_request_windows (<[key := requests ++ [now]]> (request_windows state))
                       state in
        (Ok (), set_principal_active
                  (<[key := wrapping_add_u32 active 1]> (principal_active state)) state) in
      match limit_tokens_per_minute lim with
      | None => commit state
      | Some limit =>
        let used := window_total tokens in
        let reserved := default 0 (principal_reserved_tokens state !! key) in
        match checked_add_u64 used reserved ≫= λ value, checked_add_u64 value (token_demand request) with
        | None => (Err TokenRateLimit, state)
        | Some value =>
          if limit <? value then (Err TokenRateLimit, state)
          else commit (set_principal_reserved_tokens
                 (<[key := wrapping_add_u64 reserved (token_demand request)]>
                    (principal_reserved_tokens state)) state)
        end
      end.

(** ** Route selection *)

Definition active_on (state : GatewayState) (route : GatewayRoute) : Z :=
  default 0 (route_active state !! placement_group_id route).

Definition is_cooled_down (state : GatewayState) (now : Z) (route : GatewayRoute) : bool :=
  match unavailable_until state !! placement_group_id route with
  | None => true
  | Some deadline => deadline <=? now
  end.

Definition affinity_of (state : GatewayState) (request : GatewayRequest) (now : Z)
  : option string :=
  match prefix_key request with
  | None => None
  | Some prefix_key =>
    match prefix_affinity state !! (request_model request, prefix_key) with
    | Some (group_id, deadline) => if now <? deadline then Some group_id else None
    | None => None
    end
  end.

Definition holds_prefix (request : GatewayRequest) (affinity : option string)
    (route : GatewayRoute) : bool :=
  match prefix_key request with
  | None => false
  | Some prefix =>
    bool_decide (prefix ∈ prefix_keys route)
    || bool_decide (affinity = Some (placement_group_id route))
  end.

Definition compare_routes (state : GatewayState) (request : GatewayRequest)
    (affinity : option string) (left right : GatewayRoute) : comparison :=
  then_with (bool_compare (negb (holds_prefix request affinity left))
                          (negb (holds_prefix request affinity right)))
  (then_with (active_on state left * max_active_requests right
              ?= active_on state right * max_active_requests left)
  (then_with (default u32_max (temperature_millicelsius left)
              ?= default u32_max (temperature_millicelsius right))
             (String.compare (endpoint_node_id left) (endpoint_node_id right)))).

Definition is_routable (route : GatewayRoute) : bool :=
  healthy route && negb (memory_pressure route).

Definition fits_context (request : GatewayRequest) (route : GatewayRoute) : bool :=
  token_demand request <=? max_context_tokens route.

Definition has_capacity (state : GatewayState) (route : GatewayRoute) : bool :=
  active_on state route <? max_active_requests route.

Definition select_route (state : GatewayState) (request : GatewayRequest)
    (routes : list GatewayRoute) (now : Z) : result GatewayError RouteSelection :=
  match List.filter is_routable routes with
  | [] => Err NoRoute
  | healthy =>
    match List.filter (fits_context request) healthy with
    | [] => Err ContextTooLarge
    | compatible =>
      match List.filter (is_cooled_down state now) compatible with
      | [] => Err NoRoute
      | routable =>
        let available := List.filter (has_capacity state) routable in
        match sort_by (compare_routes state request (affinity_of state request now)) available with
        | [] => Ok Busy
        | route :: _ => Ok (Selected route)
        end
      end
    end
  end.

Definition route_has_admission_capacity (state : GatewayState) (route : GatewayRoute) (now : Z)
  : bool :=
  healthy route && negb (memory_pressure route)
  && is_cooled_down state now route && has_capacity state route.

(** ** Backend failures *)

Definition mark_route_failure (group_id : string) (now : Z) (state : GatewayState)
  : GatewayState :=
  let failures :=
    Z.min (saturating_add_u8 (default 0 (failure_counts state !! group_id)) 1)
          MAX_BACKEND_FAILURES in
  let state := set_failure_counts (<[group_id := failures]> (failure_counts state)) state in
  let exponent := Z.min (saturating_sub failures 1) 16 in
  let cooldown := Z.min (saturating_mul_u64 (Z.shiftl 1 exponent) 1000)
                        MAX_BACKEND_COOLDOWN_MILLISECONDS in
  set_unavailable_until
    (<[group_id := saturating_add_u64 now cooldown]> (unavailable_until state)) state.

Definition mark_route_success (group_id : string) (state : GatewayState) : GatewayState :=
  set_unavailable_until (delete group_id (unavailable_until state))
    (set_failure_counts (delete group_id (failure_counts state)) state).

(** ** Prefix affinity *)

Definition compare_affinity (left right : (string * string) * (string * Z)) : comparison :=
  then_with (left.2.2 ?= right.2.2)
    (then_with (String.compare left.1.1 right.1.1) (String.compare left.1.2 right.1.2)).

(** One iteration of the eviction loop. *)
Definition evict_oldest (m : gmap (string * string) (string * Z))
  : gmap (string * string) (string * Z) :=
  match min_by compare_affinity (map_to_list m) with
  | Some (oldest, _) => delete oldest m
  | None => m
  end.

(** [while len > MAX { evict }], with [fuel] bounding the iterations. *)
Fixpoint evict_loop (fuel : nat) (m : gmap (string * string) (string * Z))
  : gmap (string * string) (string * Z) :=
  match fuel with
  | O => m
  | S fuel => if MAX_PREFIX_AFFINITY_ENTRIES <? Z.of_nat (size m)
              then evict_loop fuel (evict_oldest m) else m
  end.

Definition record_prefix_affinity (key : string * string) (group_id : string) (now : Z)
    (state : GatewayState) : GatewayState :=
  let m := filter (λ kv : (string * string) * (string * Z), now < kv.2.2)
             (prefix_affinity state) in
  let m := <[key := (group_id, saturating_add_u64 now PREFIX_AFFINITY_MILLISECONDS)]> m in
  set_prefix_affinity (evict_loop (size m) m) state.

(** ** Reservations *)

Definition waited (queued : QueuedRequest) (now : Z) : Z :=
  saturating_add_u64 (q_queued_milliseconds queued)
    (saturating_sub now (q_enqueued_at queued)).

Definition reserve_route (queued : QueuedRequest) (route : GatewayRoute) (now : Z)
  : SE GatewayState GatewayError GatewayReservation := λ state,
  let rid := request_id (q_request queued) in
  let group_id := placement_group_id route in
  let prior := active_requests state !! rid in
  let state := set_active_requests (<[rid := group_id]> (active_requests state)) state in
  match prior with
  | Some _ => (Err DuplicateRequest, state)
  | None =>
    let state := set_route_active
      (<[group_id := wrapping_add_u32 (default 0 (route_active state !! group_id)) 1]>
         (route_active state)) state in
    let state := if q_was_admitted queued then state
                 else with_telemetry (record_admitted route) state in
    (Ok {| res_request := q_request queued;
           res_route := route;
           res_principal := q_principal queued;
           res_received_at := q_received_at queued;
           res_queued_milliseconds := waited queued now;
           res_reserved_tokens := q_reserved_tokens queued |}, state)
  end.

Definition remove_queued_request (rid : string) : SE GatewayState GatewayError QueuedRequest :=
  λ state,
  match queued state !! rid with
  | None => (Err RequestNotFound, state)
  | Some q =>
    (Ok q, set_queue_order (List.filter (λ c, negb (bool_decide (c = rid))) (queue_order state))
             (set_queued (delete rid (queued state)) state))
  end.

Definition release_reservation (reservation : GatewayReservation)
  : SE GatewayState GatewayError () := λ state,
  let rid := request_id (res_request reservation) in
  let group_id := placement_group_id (res_route reservation) in
  match active_requests state !! rid with
  | None => (Err RequestNotFound, state)
  | Some observed =>
    let state := set_active_requests (delete rid (active_requests state)) state in
    if negb (bool_decide (observed = group_id)) then (Err StateUnavailable, state)
    else match route_active state !! group_id with
         | None => (Err StateUnavailable, state)
         | Some active =>
           (Ok (), set_route_active
                     (if active <=? 1 then delete group_id (route_active state)
                      else <[group_id := active - 1]> (route_active state)) state)
         end
  end.

Definition release_principal (principal : option GatewayPrincipal) (reserved_tokens : Z)
    (state : GatewayState) : GatewayState :=
  match principal with
  | None => state
  | Some principal =>
    let key := key_id principal in
    let active := default 0 (principal_active state !! key) in
    let state := set_principal_active
      (if active <=? 1 then delete key (principal_active state)
       else <[key := active - 1]> (principal_active state)) state in
    if 0 <? reserved_tokens then
      let reserved := saturating_sub (default 0 (principal_reserved_tokens state !! key))
                        reserved_tokens in
      set_principal_reserved_tokens
        (if reserved =? 0 then delete key (principal_reserved_tokens state)
         else <[key := reserved]> (principal_reserved_tokens state)) state
    else state
  end.
