(* ===== verification/GatewayRouting.v ===== *)
(** * Route selection, cooldown, affinity and rate windows

    The functional behaviour of the helpers of [GatewayState]: which route
    [select_route] picks and which error it reports, the bounded exponential
    cooldown, the bounded affinity table and the rolling windows. *)

From S2P Require Import Prelude Ordering Values GatewayContract GatewayTelemetry GatewayState.

(** ** Comparing routes *)

Definition has_positive_capacity (route : GatewayRoute) : Prop := 0 < max_active_requests route.

(** Load compares the exact fractions active/capacity. *)
#[export] Instance PreorderCmp_load st :
  PreorderCmp has_positive_capacity
    (λ left right, active_on st left * max_active_requests right
                   ?= active_on st right * max_active_requests left).
Proof.
  unfold has_positive_capacity. split.
  - intros x y _ _. apply Z.compare_antisym.
  - intros x y z Hx Hy Hz. rewrite !Z.compare_gt_iff. intros H1 H2.
    apply Z.le_ngt. apply Z.nlt_ge in H1, H2.
    apply (Z.mul_le_mono_pos_r _ _ (max_active_requests y)); [done|].
    nia.
Qed.

#[export] Instance PreorderCmp_compare_routes st request affinity :
  PreorderCmp has_positive_capacity (compare_routes st request affinity).
Proof.
  apply (PreorderCmp_then_with _
    (λ l r, bool_compare (negb (holds_prefix request affinity l))
                         (negb (holds_prefix request affinity r)))
    (λ l r, then_with _ (then_with _ _))); [exact (PreorderCmp_bool _ _)|].
  apply (PreorderCmp_then_with _ _ (λ l r, then_with _ _)); [exact (PreorderCmp_load st)|].
  apply (PreorderCmp_then_with _
    (λ l r, default u32_max (temperature_millicelsius l)
            ?= default u32_max (temperature_millicelsius r))
    (λ l r, String.compare (endpoint_node_id l) (endpoint_node_id r)));
    [exact (PreorderCmp_Z _ _)|exact (PreorderCmp_string _ _)].
Qed.

(** ** Selection *)

(** A route that may take the request at once. *)
Definition eligible (st : GatewayState) (request : GatewayRequest) (now : Z)
    (route : GatewayRoute) : bool :=
  is_routable route && fits_context request route && is_cooled_down st now route
  && has_capacity st route.

Lemma elem_of_filter {A} (f : A → bool) l x : x ∈ List.filter f l ↔ x ∈ l ∧ f x = true.
Proof. rewrite !list_elem_of_In. apply filter_In. Qed.

Lemma filter_nil_false {A} (f : A → bool) l x : List.filter f l = [] → x ∈ l → f x = false.
Proof.
  intros Hf Hx. destruct (f x) eqn:E; [|done].
  assert (x ∈ List.filter f l) as Hin by (by apply elem_of_filter). rewrite Hf in Hin. set_solver.
Qed.

Lemma filter_cons_true {A} (f : A → bool) l x l' :
  List.filter f l = x :: l' → x ∈ l ∧ f x = true.
Proof. intros Hf. apply elem_of_filter. rewrite Hf. apply list_elem_of_here. Qed.

Definition selection_spec (st : GatewayState) (request : GatewayRequest)
    (routes : list GatewayRoute) (now : Z) (r : result GatewayError RouteSelection) : Prop :=
  match r with
  | Ok (Selected route) =>
    route ∈ routes ∧ eligible st request now route = true ∧
    ∀ other, other ∈ routes → eligible st request now other = true →
      compare_routes st request (affinity_of st request now) route other ≠ Gt
  | Ok Busy =>
    (∃ route, route ∈ routes ∧ is_routable route = true ∧ fits_context request route = true ∧
       is_cooled_down st now route = true) ∧
    ∀ route, route ∈ routes → eligible st request now route = false
  | Err ContextTooLarge =>
    (∃ route, route ∈ routes ∧ is_routable route = true) ∧
    ∀ route, route ∈ routes → is_routable route = true → fits_context request route = false
  | Err NoRoute =>
    ∀ route, route ∈ routes → is_routable route = true → fits_context request route = true →
      is_cooled_down st now route = false
  | Err _ => False
  end.

Lemma select_route_meets_spec st request routes now :
  Forall has_positive_capacity routes →
  selection_spec st request routes now (select_route st request routes now).
Proof.
  intros Hpos. unfold select_route.
  destruct (List.filter is_routable routes) as [|h0 hs] eqn:Hh.
  { intros route Hin Hr. by rewrite (filter_nil_false _ _ route Hh Hin) in Hr. }
  pose proof (λ r, elem_of_filter is_routable routes r) as Eh. rewrite Hh in Eh.
  destruct (List.filter (fits_context request) (h0 :: hs)) as [|c0 cs] eqn:Hc.
  { split.
    - exists h0. apply filter_cons_true in Hh. done.
    - intros route Hin Hr. apply (filter_nil_false _ _ route Hc), Eh. done. }
  pose proof (λ r, elem_of_filter (fits_context request) (h0 :: hs) r) as Ec. rewrite Hc in Ec.
  destruct (List.filter (is_cooled_down st now) (c0 :: cs)) as [|d0 ds] eqn:Hd.
  { intros route Hin Hr Hf. apply (filter_nil_false _ _ route Hd), Ec. rewrite Eh. done. }
  pose proof (λ r, elem_of_filter (is_cooled_down st now) (c0 :: cs) r) as Ed. rewrite Hd in Ed.
  pose proof (λ r, elem_of_filter (has_capacity st) (d0 :: ds) r) as Ea.
  set (available := List.filter (has_capacity st) (d0 :: ds)) in *.
  set (cmp := compare_routes st request (affinity_of st request now)).
  assert (∀ r, r ∈ available ↔ r ∈ routes ∧ eligible st request now r = true) as Hav.
  { intros r. rewrite Ea, Ed, Ec, Eh. unfold eligible. rewrite !andb_true_iff. tauto. }
  destruct (sort_by cmp available) as [|route rest] eqn:Hs.
  - split.
    + exists d0. destruct (proj1 (Ed d0) ltac:(set_solver)) as [Hd0 Hcool].
      apply Ec in Hd0 as [Hd0 Hfit]. apply Eh in Hd0 as [Hd0 Hr]. done.
    + intros r Hin. destruct (eligible st request now r) eqn:He; [|done].
      assert (r ∈ sort_by cmp available) as Hr by (apply elem_of_sort_by, Hav; done).
      rewrite Hs in Hr. set_solver.
  - assert (route ∈ available) as [Hin He]%Hav.
    { apply (elem_of_sort_by cmp). rewrite Hs. apply list_elem_of_here. }
    split; [done|]. split; [done|]. intros other Ho Heo.
    eapply (sort_by_head_min cmp has_positive_capacity available); [|done|by apply Hav].
    rewrite Forall_forall in Hpos |- *. intros x [Hx _]%Hav. by apply Hpos.
Qed.

(** a selected route is one of the offered routes that is healthy, not
    under pressure, cooled down, large enough for the request and below its
    capacity, and is minimal among all such routes for prefix locality, load,
    temperature and node identity; [Busy] means that only capacity is missing;
    [ContextTooLarge] that no healthy route is large enough; [NoRoute] that every
    healthy and large enough route is cooling down. *)
Theorem select_route_correct st request routes now :
  Forall has_positive_capacity routes →
  selection_spec st request routes now (select_route st request routes now).
Proof. apply select_route_meets_spec. Qed.

(** What [select_route] guarantees without assumptions on the snapshot. *)
Lemma select_route_Selected st request routes now route :
  select_route st request routes now = Ok (Selected route) →
  route ∈ routes ∧ eligible st request now route = true.
Proof.
  unfold select_route. destruct (List.filter is_routable routes) as [|h0 hs] eqn:Hh; [done|].
  destruct (List.filter (fits_context request) (h0 :: hs)) as [|c0 cs] eqn:Hc; [done|].
  destruct (List.filter (is_cooled_down st now) (c0 :: cs)) as [|d0 ds] eqn:Hd; [done|].
  destruct (sort_by _ _) as [|r rest] eqn:Hs; [done|]. intros [= <-].
  assert (r ∈ List.filter (has_capacity st) (d0 :: ds)) as Hr.
  { rewrite <- elem_of_sort_by, Hs. apply list_elem_of_here. }
  rewrite elem_of_filter, <- Hd, elem_of_filter, <- Hc, elem_of_filter, <- Hh, elem_of_filter
    in Hr.
  unfold eligible. rewrite !andb_true_iff. tauto.
Qed.

(** ** Cooldown *)

(** Failures of one group at the given times, oldest first. *)
Definition fail_run (group_id : string) (times : list Z) (st : GatewayState) : GatewayState :=
  foldl (λ st now, mark_route_failure group_id now st) st times.

(** The cooldown after [n] consecutive failures. *)
Definition cooldown_after (n : Z) : Z := Z.min (1000 * 2 ^ (Z.min n 16 - 1)) 60000.

Lemma mark_route_failure_lookup group_id now st :
  let n := default 0 (failure_counts st !! group_id) in
  0 ≤ n ≤ 16 →
  failure_counts (mark_route_failure group_id now st) !! group_id = Some (Z.min (n + 1) 16) ∧
  unavailable_until (mark_route_failure group_id now st) !! group_id
    = Some (saturating_add_u64 now (cooldown_after (n + 1))).
Proof.
  intros n Hn. destruct st. unfold mark_route_failure. simpl in *.
  fold n. rewrite !lookup_insert_eq. unfold MAX_BACKEND_FAILURES.
  replace (Z.min (saturating_add_u8 n 1) 16) with (Z.min (n + 1) 16) by ulia.
  split; [done|]. f_equal. f_equal. unfold cooldown_after, MAX_BACKEND_COOLDOWN_MILLISECONDS.
  replace (Z.min (saturating_sub (Z.min (n + 1) 16) 1) 16) with (Z.min (n + 1) 16 - 1) by ulia.
  rewrite Z.shiftl_1_l. unfold saturating_mul_u64.
  assert (2 ^ (Z.min (n + 1) 16 - 1) ≤ 2 ^ 15) by (apply Z.pow_le_mono_r; lia).
  assert (0 < 2 ^ (Z.min (n + 1) 16 - 1)) by (apply Z.pow_pos_nonneg; lia).
  change (2 ^ 15) with 32768 in *. ulia.
Qed.

(** after [n] consecutive failures of a group without recorded
    failures, the count is [min n 16] and the group stays closed until the last
    failure plus one second doubled [n - 1] times, at most one minute. *)
Theorem cooldown_doubles_up_to_a_minute group_id times now st :
  failure_counts st !! group_id = None →
  let n := Z.of_nat (length times) + 1 in
  failure_counts (fail_run group_id (times ++ [now]) st) !! group_id = Some (Z.min n 16) ∧
  unavailable_until (fail_run group_id (times ++ [now]) st) !! group_id
    = Some (saturating_add_u64 now (cooldown_after n)) ∧
  1000 ≤ cooldown_after n ≤ 60000.
Proof.
  intros Hnone n. unfold fail_run. rewrite foldl_app. simpl.
  set (st' := foldl _ st times).
  assert (default 0 (failure_counts st' !! group_id) = Z.min (Z.of_nat (length times)) 16) as Hcnt.
  { unfold st'. clear st' n. induction times as [|t times IH] using rev_ind.
    - simpl. by rewrite Hnone.
    - rewrite foldl_app, length_app. simpl.
      destruct (mark_route_failure_lookup group_id t
        (foldl (λ st now, mark_route_failure group_id now st) st times)) as [-> _];
        [rewrite IH; lia|]. simpl. rewrite IH. lia. }
  destruct (mark_route_failure_lookup group_id now st') as [-> ->]; [rewrite Hcnt; lia|].
  rewrite Hcnt. unfold cooldown_after. subst n.
  replace (Z.min (Z.min (Z.of_nat (length times)) 16 + 1) 16)
    with (Z.min (Z.of_nat (length times) + 1) 16) by lia.
  split_and!; [done|done| |lia].
  assert (2 ^ 0 ≤ 2 ^ (Z.min (Z.of_nat (length times) + 1) 16 - 1))
    by (apply Z.pow_le_mono_r; lia). lia.
Qed.

Lemma cooldown_doubles_up_to_a_minute_witness :
  failure_counts (fail_run "g" ([10; 20; 30] ++ [40]) GatewayState_default) !! "g"%string
    = Some (Z.min (Z.of_nat (length [10; 20; 30]) + 1) 16) ∧
  unavailable_until (fail_run "g" ([10; 20; 30] ++ [40]) GatewayState_default) !! "g"%string
    = Some (saturating_add_u64 40 (cooldown_after (Z.of_nat (length [10; 20; 30]) + 1))) ∧
  1000 ≤ cooldown_after (Z.of_nat (length [10; 20; 30]) + 1) ≤ 60000.
Proof. apply cooldown_doubles_up_to_a_minute. reflexivity. Defined.

(** ** Prefix affinity *)

Lemma evict_oldest_size m :
  (0 < size m)%nat → size (evict_oldest m) = (size m - 1)%nat.
Proof.
  intros Hsz. unfold evict_oldest.
  destruct (min_by_is_Some compare_affinity (map_to_list m)) as [[k v] Hmin].
  { intros Hnil. apply (f_equal length) in Hnil. rewrite length_map_to_list in Hnil. simpl in *. lia. }
  rewrite Hmin. apply min_by_elem, elem_of_map_to_list in Hmin.
  rewrite map_size_delete, Hmin. simpl. lia.
Qed.

Lemma evict_loop_bounded fuel m :
  (size m ≤ fuel + 4096)%nat → Z.of_nat (size (evict_loop fuel m)) ≤ 4096.
Proof.
  revert m. induction fuel as [|fuel IH]; intros m Hsz; simpl; unfold MAX_PREFIX_AFFINITY_ENTRIES.
  - lia.
  - destruct (Z.ltb_spec 4096 (Z.of_nat (size m))); [|lia].
    apply IH. rewrite evict_oldest_size by lia. lia.
Qed.

Lemma evict_loop_sub fuel m k v : evict_loop fuel m !! k = Some v → m !! k = Some v.
Proof.
  revert m. induction fuel as [|fuel IH]; intros m; simpl; [done|].
  destruct (_ <? _); [|done]. intros Hk%IH. unfold evict_oldest in Hk.
  destruct (min_by _ _) as [[k' v']|]; [|done]. by apply lookup_delete_Some in Hk as [_ ?].
Qed.

Lemma evict_loop_id fuel m : Z.of_nat (size m) ≤ 4096 → evict_loop fuel m = m.
Proof.
  intros Hsz. destruct fuel; simpl; [done|]. unfold MAX_PREFIX_AFFINITY_ENTRIES.
  destruct (Z.ltb_spec 4096 (Z.of_nat (size m))); [lia|done].
Qed.

(** recording a learned prefix terminates with at most 4096 entries
    whatever the table held before, keeps only unexpired entries of the old
    table besides the new one, and the new entry is present whenever the
    unexpired table has room. *)
Theorem record_prefix_affinity_bounded key group_id now st :
  in_u64 now → now < u64_max →
  let st' := record_prefix_affinity key group_id now st in
  let deadline := saturating_add_u64 now PREFIX_AFFINITY_MILLISECONDS in
  Z.of_nat (size (prefix_affinity st')) ≤ 4096 ∧
  (∀ k g d, prefix_affinity st' !! k = Some (g, d) →
     now < d ∧ (prefix_affinity st !! k = Some (g, d) ∨ (k = key ∧ g = group_id ∧ d = deadline))) ∧
  (Z.of_nat (size (prefix_affinity st)) < 4096 →
     prefix_affinity st' !! key = Some (group_id, deadline)).
Proof.
  intros Hnow Hlt. destruct st. unfold record_prefix_affinity. simpl.
  set (m := filter _ prefix_affinity). set (d0 := saturating_add_u64 now _).
  assert (now < d0) by (unfold d0, PREFIX_AFFINITY_MILLISECONDS; ulia).
  split_and!.
  - apply evict_loop_bounded. lia.
  - intros k g d Hk%evict_loop_sub. apply lookup_insert_Some in Hk as [[<- [= <- <-]]|[_ Hk]].
    + auto.
    + apply map_lookup_filter_Some in Hk as [Hk Hd]. auto.
  - intros Hsz. rewrite evict_loop_id; [by rewrite lookup_insert_eq|].
    pose proof (map_size_filter (λ kv : (string * string) * (string * Z), now < kv.2.2)
      prefix_affinity). fold m in H0.
    rewrite map_size_insert. destruct (m !! key); unfold id; lia.
Qed.

Lemma record_prefix_affinity_bounded_witness :
  in_u64 5 ∧
  (let st' := record_prefix_affinity ("m", "p") "g" 5 GatewayState_default in
   let deadline := saturating_add_u64 5 PREFIX_AFFINITY_MILLISECONDS in
   Z.of_nat (size (prefix_affinity st')) ≤ 4096 ∧
   (∀ k g d, prefix_affinity st' !! k = Some (g, d) →
      5 < d ∧ (prefix_affinity GatewayState_default !! k = Some (g, d) ∨
               (k = ("m", "p")%string ∧ g = "g"%string ∧ d = deadline))) ∧
   (Z.of_nat (size (prefix_affinity GatewayState_default)) < 4096 →
      prefix_affinity st' !! ("m", "p")%string = Some ("g"%string, deadline))).
Proof.
  split; [ulia|].
  apply (record_prefix_affinity_bounded ("m", "p") "g" 5 GatewayState_default); ulia.
Defined.

Module SelectExample.
Definition route (id node : string) (keys : list string) : GatewayRoute :=
  {| placement_group_id := id; endpoint_node_id := node; route_model := "m";
     target := ChildRelay "10.0.0.2"; max_active_requests := 4; max_context_tokens := 100;
     healthy := true; memory_pressure := false; temperature_millicelsius := None;
     prefix_keys := keys |}.
Definition request : GatewayRequest :=
  {| request_id := "r"; request_model := "m"; context_tokens := 10;
     maximum_output_tokens := 20; prefix_key := Some "p"%string;
     maximum_queue_milliseconds := 0 |}.
Definition routes : list GatewayRoute := [route "g1" "n1" []; route "g2" "n2" ["p"%string]].
End SelectExample.

(** The prefix holder is selected although the other route sorts first by node. *)
Lemma select_route_correct_witness :
  select_route GatewayState_default SelectExample.request SelectExample.routes 0
    = Ok (Selected (SelectExample.route "g2" "n2" ["p"%string])) ∧
  selection_spec GatewayState_default SelectExample.request SelectExample.routes 0
    (select_route GatewayState_default SelectExample.request SelectExample.routes 0).
Proof.
  split; [vm_compute; reflexivity|].
  apply (select_route_correct GatewayState_default SelectExample.request SelectExample.routes 0).
  unfold has_positive_capacity. repeat constructor.
Defined.

(** ** Rolling windows *)

Definition recent {A} (time : A → Z) (cutoff : Z) (l : list A) : list A :=
  List.filter (λ x, cutoff <? time x) l.

Lemma recent_id {A} (time : A → Z) cutoff l :
  Forall (λ x, cutoff < time x) l → recent time cutoff l = l.
Proof.
  induction 1 as [|x l Hx _ IH]; [done|]. simpl.
  destruct (Z.ltb_spec cutoff (time x)); [by f_equal|lia].
Qed.

(** On a window in time order, dropping old entries from the front keeps
    exactly the entries younger than the cutoff. *)
Lemma prune_window_recent {A} (time : A → Z) cutoff l :
  StronglySorted (λ x y, time x ≤ time y) l → prune_window time cutoff l = recent time cutoff l.
Proof.
  induction 1 as [|x l Hs IH Hall]; [done|]. simpl.
  destruct (Z.leb_spec (time x) cutoff), (Z.ltb_spec cutoff (time x)); [lia|done| |lia].
  f_equal. symmetry. apply recent_id. eapply Forall_impl; [exact Hall|]. simpl. lia.
Qed.

Definition tokens_in (l : list (Z * Z)) : Z := foldr (λ p acc, p.2 + acc) 0 l.

Lemma tokens_in_nonneg l : Forall (λ p, 0 ≤ p.2) l → 0 ≤ tokens_in l.
Proof. induction 1; simpl; lia. Qed.

Lemma window_total_exact l :
  Forall (λ p, 0 ≤ p.2) l → tokens_in l ≤ u64_max → window_total l = tokens_in l.
Proof.
  unfold window_total. intros Hl Hle.
  enough (∀ acc, 0 ≤ acc → acc + tokens_in l ≤ u64_max →
    foldl (λ acc p, wrapping_add_u64 acc p.2) acc l = acc + tokens_in l) as Hgen
    by (rewrite Hgen; lia).
  clear Hle. induction Hl as [|p l Hp Hl IH]; intros acc Hacc Hle; simpl in *; [lia|].
  pose proof (tokens_in_nonneg l Hl).
  replace (wrapping_add_u64 acc p.2) with (acc + p.2).
  - rewrite IH; lia.
  - unfold wrapping_add_u64. change (2 ^ 64) with 18446744073709551616.
    rewrite Z.mod_small; ulia.
Qed.

(** The quota promised to one key: its context bound, requests and tokens over
    the rolling minute, and live requests. *)
Record within_quota (lim : ApiKeyLimits) (request : GatewayRequest)
    (requests_in_window tokens_in_window active reserved : Z) : Prop := {
  wq_context limit : limit_context_tokens lim = Some limit → context_tokens request ≤ limit;
  wq_requests limit : limit_requests_per_minute lim = Some limit → requests_in_window < limit;
  wq_concurrency limit : limit_concurrency lim = Some limit → active < limit;
  wq_tokens limit : limit_tokens_per_minute lim = Some limit →
    tokens_in_window + reserved + token_demand request ≤ limit
}.

(** The windows and counters of one key. *)
Record quota_state_ok (st : GatewayState) (key : string) : Prop := {
  qs_requests : StronglySorted Z.le (default [] (request_windows st !! key));
  qs_tokens : StronglySorted (λ x y, x.1 ≤ y.1) (default [] (token_windows st !! key));
  qs_counts : Forall (λ p, 0 ≤ p.2) (default [] (token_windows st !! key));
  qs_total : tokens_in (default [] (token_windows st !! key)) ≤ u64_max;
  qs_active : 0 ≤ default 0 (principal_active st !! key) < u32_max;
  qs_reserved : in_u64 (default 0 (principal_reserved_tokens st !! key))
}.

Lemma tokens_in_recent_le cutoff l :
  Forall (λ p, 0 ≤ p.2) l → tokens_in (recent fst cutoff l) ≤ tokens_in l.
Proof.
  induction 1 as [|p l Hp Hl IH]; simpl; [lia|].
  destruct (_ <? _); simpl; lia.
Qed.

Lemma Forall_recent {A} (P : A → Prop) time cutoff l : Forall P l → Forall P (recent time cutoff l).
Proof.
  rewrite !Forall_forall. intros Hl x Hx. apply elem_of_filter in Hx as [Hx _]. auto.
Qed.

(** The four checks of [admit_principal] as one decision on exact integers. *)
Definition quota_verdict (lim : ApiKeyLimits) (request : GatewayRequest)
    (requests_in_window tokens_in_window active reserved : Z) : result GatewayError () :=
  if match limit_context_tokens lim with
     | Some limit => limit <? context_tokens request | None => false end
  then Err ContextTooLarge
  else if match limit_requests_per_minute lim with
          | Some limit => limit <=? requests_in_window | None => false end
  then Err RequestRateLimit
  else if match limit_concurrency lim with Some limit => limit <=? active | None => false end
  then Err ConcurrencyLimit
  else if match limit_tokens_per_minute lim with
          | Some limit => limit <? tokens_in_window + reserved + token_demand request
          | None => false end
  then Err TokenRateLimit
  else Ok ().

Lemma quota_verdict_Ok lim request n t a r :
  quota_verdict lim request n t a r = Ok () ↔ within_quota lim request n t a r.
Proof.
  unfold quota_verdict. split.
  - destruct (match limit_context_tokens lim with Some _ => _ | None => _ end) eqn:H1; [done|].
    destruct (match limit_requests_per_minute lim with Some _ => _ | None => _ end) eqn:H2; [done|].
    destruct (match limit_concurrency lim with Some _ => _ | None => _ end) eqn:H3; [done|].
    destruct (match limit_tokens_per_minute lim with Some _ => _ | None => _ end) eqn:H4; [done|].
    intros _. split; intros limit Hl; rewrite Hl in *; lia.
  - intros [Hc Hr Ha Ht].
    destruct (limit_context_tokens lim) as [l1|]; [destruct (Z.ltb_spec l1 (context_tokens request)); [specialize (Hc _ eq_refl); lia|]|];
    (destruct (limit_requests_per_minute lim) as [l2|]; [destruct (Z.leb_spec l2 n); [specialize (Hr _ eq_refl); lia|]|]);
    (destruct (limit_concurrency lim) as [l3|]; [destruct (Z.leb_spec l3 a); [specialize (Ha _ eq_refl); lia|]|]);
    (destruct (limit_tokens_per_minute lim) as [l4|]; [destruct (Z.ltb_spec l4 (t + r + token_demand request)); [specialize (Ht _ eq_refl); lia|]|]);
    done.
Qed.

Definition window_cutoff (now : Z) : Z := saturating_sub now ROLLING_WINDOW_MILLISECONDS.

(** [admit_principal] decides with the pruned windows and the counters, and on
    success pushes the request and charges the key; the wrap-arounds of its
    arithmetic cannot occur from [quota_state_ok]. *)
Lemma token_check_exact used reserved demand limit :
  0 ≤ used → 0 ≤ reserved → 0 ≤ demand → limit ≤ u64_max →
  match checked_add_u64 used reserved ≫= λ value, checked_add_u64 value demand with
  | None => true | Some value => limit <? value end = (limit <? used + reserved + demand).
Proof.
  intros. unfold checked_add_u64. destruct (Z.leb_spec (used + reserved) u64_max); simpl.
  - destruct (Z.leb_spec (used + reserved + demand) u64_max); simpl; [done|].
    symmetry. apply Z.ltb_lt. lia.
  - symmetry. apply Z.ltb_lt. lia.
Qed.

Definition charged (principal : GatewayPrincipal) (request : GatewayRequest) : Z :=
  match limit_tokens_per_minute (limits principal) with
  | Some _ => token_demand request | None => 0 end.

(** The key's windows and counters after the decision [verdict]. *)
Record quota_effect (principal : GatewayPrincipal) (request : GatewayRequest) (now : Z)
    (st st' : GatewayState) (verdict : result GatewayError ()) : Prop := {
  qe_requests : request_windows st' !! key_id principal = Some
    (recent id (window_cutoff now) (default [] (request_windows st !! key_id principal))
     ++ if is_ok verdict then [now] else []);
  qe_active : default 0 (principal_active st' !! key_id principal)
    = default 0 (principal_active st !! key_id principal) + if is_ok verdict then 1 else 0;
  qe_reserved : default 0 (principal_reserved_tokens st' !! key_id principal)
    = default 0 (principal_reserved_tokens st !! key_id principal)
      + if is_ok verdict then charged principal request else 0;
  qe_other key : key ≠ key_id principal →
    request_windows st' !! key = request_windows st !! key ∧
    principal_active st' !! key = principal_active st !! key ∧
    principal_reserved_tokens st' !! key = principal_reserved_tokens st !! key
}.

Ltac quota_case :=
  split; [done|]; split; cbn -[Z.add]; unfold charged;
  try match goal with H : limit_tokens_per_minute _ = _ |- _ => rewrite H end;
  rewrite ?lookup_insert_eq, ?app_nil_r, ?Z.add_0_r;
  first [done | simpl; congruence | intros k Hk; rewrite ?lookup_insert_ne by done; done].

Lemma admit_principal_verdict principal request now st :
  let key := key_id principal in
  let requests := recent id (window_cutoff now) (default [] (request_windows st !! key)) in
  let tokens := recent fst (window_cutoff now) (default [] (token_windows st !! key)) in
  quota_state_ok st key → 0 ≤ token_demand request →
  (∀ limit, limit_tokens_per_minute (limits principal) = Some limit → limit ≤ u64_max) →
  let verdict := quota_verdict (limits principal) request (Z.of_nat (length requests))
    (tokens_in tokens) (default 0 (principal_active st !! key))
    (default 0 (principal_reserved_tokens st !! key)) in
  (admit_principal principal request now st).1 = verdict ∧
  quota_effect principal request now st (admit_principal principal request now st).2 verdict.
Proof.
  intros key requests tokens [Hr Ht Hc Hsum Ha Hres] Hd Hlim.
  assert (window_total tokens = tokens_in tokens) as Hwt.
  { apply window_total_exact; [by apply Forall_recent|].
    pose proof (tokens_in_recent_le (window_cutoff now) _ Hc). unfold tokens. lia. }
  assert (0 ≤ tokens_in tokens) by (by apply tokens_in_nonneg, Forall_recent).
  destruct st; cbn -[Z.add] in *.
  unfold admit_principal. cbn -[Z.add]. fold key. fold (window_cutoff now).
  rewrite (prune_window_recent id) by done. rewrite (prune_window_recent fst) by done.
  fold requests tokens. unfold quota_verdict.
  set (active := default 0 (principal_active !! key)) in *.
  set (reserved := default 0 (principal_reserved_tokens !! key)) in *.
  assert (wrapping_add_u32 active 1 = active + 1) as Hwa.
  { unfold wrapping_add_u32. change (2 ^ 32) with 4294967296. rewrite Z.mod_small; ulia. }
  destruct (match limit_context_tokens _ with Some _ => _ | None => _ end); [quota_case|].
  destruct (match limit_requests_per_minute _ with Some _ => _ | None => _ end); [quota_case|].
  destruct (match limit_concurrency _ with Some _ => _ | None => _ end); [quota_case|].
  destruct (limit_tokens_per_minute _) as [limit|] eqn:Hl.
  - rewrite Hwt, <- (token_check_exact _ reserved (token_demand request) limit) by (ulia || auto).
    destruct (checked_add_u64 _ reserved ≫= _) as [value|] eqn:Hv; [|quota_case].
    destruct (limit <? value) eqn:Hlv; [quota_case|].
    apply bind_Some in Hv as (v1 & [-> Hv1]%checked_add_u64_Some & [-> Hv2]%checked_add_u64_Some).
    assert (wrapping_add_u64 reserved (token_demand request) = reserved + token_demand request).
    { unfold wrapping_add_u64. change (2 ^ 64) with 18446744073709551616. rewrite Z.mod_small; ulia. }
    quota_case.
  - quota_case.
Qed.

(** with windows in time order, an authenticated request passes the
    key's policy exactly when it respects the context bound, fewer than the
    allowed requests were received in the last minute, fewer than the allowed
    requests are live and the tokens of the last minute plus the reserved tokens
    leave room for its demand; passing charges the key by one request and the
    demand, failing changes no counter. *)
Theorem admit_principal_enforces_quota principal request now st :
  let key := key_id principal in
  quota_state_ok st key → 0 ≤ token_demand request →
  (∀ limit, limit_tokens_per_minute (limits principal) = Some limit → limit ≤ u64_max) →
  let result := admit_principal principal request now st in
  (result.1 = Ok () ↔
     within_quota (limits principal) request
       (Z.of_nat (length (recent id (window_cutoff now) (default [] (request_windows st !! key)))))
       (tokens_in (recent fst (window_cutoff now) (default [] (token_windows st !! key))))
       (default 0 (principal_active st !! key))
       (default 0 (principal_reserved_tokens st !! key))) ∧
  quota_effect principal request now st result.2 result.1.
Proof.
  intros key Hst Hd Hlim result.
  destruct (admit_principal_verdict principal request now st Hst Hd Hlim) as [Hv He].
  unfold result. rewrite Hv. split; [apply quota_verdict_Ok|exact He].
Qed.

Module QuotaExample.
Definition principal : GatewayPrincipal :=
  {| key_id := "k"; limits := {| limit_requests_per_minute := Some 2;
       limit_tokens_per_minute := Some 100; limit_concurrency := Some 1;
       limit_context_tokens := Some 50 |} |}.
Definition st : GatewayState :=
  set_token_windows {["k"%string := [(10, 5); (70000, 60)]]}
    (set_request_windows {["k"%string := [5; 70000]]} GatewayState_default).
End QuotaExample.

Lemma admit_principal_enforces_quota_witness :
  let result := admit_principal QuotaExample.principal SelectExample.request 70001 QuotaExample.st in
  result.1 = Ok () ∧
  quota_effect QuotaExample.principal SelectExample.request 70001 QuotaExample.st
    result.2 result.1.
Proof.
  split; [vm_compute; reflexivity|].
  refine (proj2 (admit_principal_enforces_quota QuotaExample.principal SelectExample.request 70001
    QuotaExample.st _ _ _)).
  - split; vm_compute; repeat constructor; intros [=].
  - by vm_compute.
  - intros limit [= <-]. by vm_compute.
Defined.

(** The unchecked token sum wraps: two recorded usages of 2^63 tokens count as
    zero, so a key over its token limit is admitted. *)
Example token_window_sum_wraps :
  let st := set_token_windows {["k"%string := [(70000, 2 ^ 63); (70000, 2 ^ 63)]]}
              GatewayState_default in
  (admit_principal QuotaExample.principal SelectExample.request 70001 st).1 = Ok ().
Proof. vm_compute. reflexivity. Qed.
