(* ===== verification/GatewayProtection.v ===== *)
(** * Placement protection leases ([core/gateway/src/li_gateway_protection_lease.rs])

    The Linux safety authority of the gateway: a route is admitted only when
    every placement of its group has a current, armed, untripped Watchdog lease
    bound to the node's authenticated session.  [GatewayProtectionLeaseState]
    keeps the high-water marks that reject regressed leases; [accepts] judges a
    complete snapshot and advances the marks only when every lease passes. *)

From Stdlib Require Ascii.
From S2P Require Import Prelude Values GatewayContract.
Import (notations) Stdlib.Strings.Ascii.

Definition MAXIMUM_PROTECTION_LEASE_MILLISECONDS : Z := 60000.
Definition MAXIMUM_PROTECTED_PLACEMENTS : Z := 1024.

(** ** Authorities, leases and snapshots *)

Record GatewayProtectionAuthority := {
  auth_node_id : string;
  auth_core_installation_id : string;
  auth_watchdog_source_identity : string;
  auth_session_id : string;
  auth_session_generation : Z
}.

Record GatewayPlacementProtectionLease := {
  lease_node_id : string;
  lease_group_id : string;
  lease_placement_id : string;
  lease_core_installation_id : string;
  lease_watchdog_source_identity : string;
  lease_session_id : string;
  lease_session_generation : Z;
  lease_protection_generation : string;
  lease_container_name : string;
  lease_container_id : string;
  lease_process_id : Z;
  lease_process_start_ticks : Z;
  lease_boot_id : string;
  lease_cgroup : string;
  lease_sample_sequence : Z;
  lease_observed_at : Z;
  lease_observed_at_monotonic : Z;
  lease_expires_at : Z;
  lease_armed : bool;
  lease_trip_latched : bool
}.

#[export] Instance GatewayPlacementProtectionLease_eq_dec :
  EqDecision GatewayPlacementProtectionLease.
Proof. solve_decision. Defined.

Definition valid_protection_generation (value : string) : bool :=
  (str_len value =? 32) && forallb is_lower_hex_byte (bytes value).

(** [value.ends_with('/')]. *)
Fixpoint ends_with_slash (s : string) : bool :=
  match s with
  | EmptyString => false
  | String a EmptyString => Ascii.eqb a "/"%char
  | String _ s' => ends_with_slash s'
  end.

Definition valid_cgroup (value : string) : bool :=
  negb (str_len value =? 0)
  && (str_len value <=? 4095)
  && starts_with "/sys/fs/cgroup/" value
  && negb (existsb (λ c, is_control c || is_whitespace c || (c =? 61)) (chars value))
  && negb (match strip_prefix "/sys/fs/cgroup/" value with
           | None => false
           | Some suffix =>
             (str_len suffix =? 0) || ends_with_slash suffix
             || existsb (λ component, (str_len component =? 0)
                           || bool_decide (component = "."%string)
                           || bool_decide (component = ".."%string)) (split_char "/"%char suffix)
           end).

Definition protection_contract_error : GatewayError :=
  InvalidContract "gateway placement protection contract is invalid".

(** The constructor check of [GatewayPlacementProtectionLease::new]. *)
Definition lease_new (l : GatewayPlacementProtectionLease)
  : result GatewayError GatewayPlacementProtectionLease :=
  if negb (valid_protection_generation (lease_protection_generation l))
     || (lease_process_id l <=? 1)
     || (lease_process_start_ticks l =? 0)
     || (lease_observed_at_monotonic l =? 0)
     || negb (valid_cgroup (lease_cgroup l))
     || (lease_expires_at l <=? lease_observed_at l)
     || (MAXIMUM_PROTECTION_LEASE_MILLISECONDS
         <? saturating_sub (lease_expires_at l) (lease_observed_at l))
  then Err protection_contract_error else Ok l.

Record GatewayPlacementProtectionSnapshot := {
  snap_group_id : string;
  snap_expected_placements : list (string * string);
  snap_authorities : list GatewayProtectionAuthority;
  snap_leases : list GatewayPlacementProtectionLease
}.

Definition snapshot_new (s : GatewayPlacementProtectionSnapshot)
  : result GatewayError GatewayPlacementProtectionSnapshot :=
  if Nat.eqb (length (snap_expected_placements s)) 0
     || (MAXIMUM_PROTECTED_PLACEMENTS <? Z.of_nat (length (snap_expected_placements s)))
     || Nat.eqb (length (snap_authorities s)) 0
     || (MAXIMUM_PROTECTED_PLACEMENTS <? Z.of_nat (length (snap_authorities s)))
     || (MAXIMUM_PROTECTED_PLACEMENTS <? Z.of_nat (length (snap_leases s)))
  then Err protection_contract_error else Ok s.

(** ** Judging a snapshot *)

(** The key of a lease in the group's map. *)
Definition lease_key (l : GatewayPlacementProtectionLease) : string * string :=
  (lease_placement_id l, lease_node_id l).

(** [collect::<BTreeMap>]: a later authority of the same node replaces an
    earlier one. *)
Definition authority_map (l : list GatewayProtectionAuthority)
  : gmap string GatewayProtectionAuthority :=
  foldl (λ m a, <[auth_node_id a := a]> m) ∅ l.

(** The per-lease conditions of the loop in [valid_snapshot], [key] not being
    present yet. *)
Definition lease_is_bound (snapshot : GatewayPlacementProtectionSnapshot)
    (expected : gset (string * string)) (now : Z) (authority : GatewayProtectionAuthority)
    (lease : GatewayPlacementProtectionLease) : bool :=
  bool_decide (lease_group_id lease = snap_group_id snapshot)
  && bool_decide (lease_key lease ∈ expected)
  && bool_decide (lease_core_installation_id lease = auth_core_installation_id authority)
  && bool_decide (lease_watchdog_source_identity lease = auth_watchdog_source_identity authority)
  && bool_decide (lease_session_id lease = auth_session_id authority)
  && (lease_session_generation lease =? auth_session_generation authority)
  && lease_armed lease
  && negb (lease_trip_latched lease)
  && (lease_observed_at lease <=? now)
  && (now <? lease_expires_at lease).

Fixpoint collect_leases (snapshot : GatewayPlacementProtectionSnapshot)
    (expected : gset (string * string)) (now : Z)
    (authorities : gmap string GatewayProtectionAuthority)
    (acc : gmap (string * string) GatewayPlacementProtectionLease)
    (l : list GatewayPlacementProtectionLease)
  : option (gmap (string * string) GatewayPlacementProtectionLease) :=
  match l with
  | [] => Some acc
  | lease :: l' =>
    match authorities !! lease_node_id lease with
    | None => None
    | Some authority =>
      if lease_is_bound snapshot expected now authority lease
         && bool_decide (acc !! lease_key lease = None)
      then collect_leases snapshot expected now authorities (<[lease_key lease := lease]> acc) l'
      else None
    end
  end.

Definition valid_snapshot (route : GatewayRoute) (snapshot : GatewayPlacementProtectionSnapshot)
    (now : Z) : option (gmap (string * string) GatewayPlacementProtectionLease) :=
  if negb (bool_decide (snap_group_id snapshot = placement_group_id route)) then None else
  let expected : gset (string * string) := list_to_set (snap_expected_placements snapshot) in
  if negb (Nat.eqb (size expected) (length (snap_expected_placements snapshot)))
     || negb (existsb (λ p, bool_decide (p.2 = endpoint_node_id route)) (elements expected))
  then None else
  let authorities := authority_map (snap_authorities snapshot) in
  if negb (Nat.eqb (size authorities) (length (snap_authorities snapshot)))
     || negb (bool_decide (dom authorities = (list_to_set (elements expected).*2 : gset string)))
  then None else
  match collect_leases snapshot expected now authorities ∅ (snap_leases snapshot) with
  | None => None
  | Some leases => if bool_decide (dom leases = expected) then Some leases else None
  end.

(** ** High-water marks *)

Record GatewayProtectionLeaseState := {
  latest : gmap (string * string) GatewayPlacementProtectionLease;
  sessions : gmap string (Z * string)
}.

Definition GatewayProtectionLeaseState_default : GatewayProtectionLeaseState :=
  {| latest := ∅; sessions := ∅ |}.

(** One authority against the session high-water mark of its node. *)
Definition session_regresses (st : GatewayProtectionLeaseState)
    (authority : GatewayProtectionAuthority) : bool :=
  match sessions st !! auth_node_id authority with
  | None => false
  | Some (generation, session_id) =>
    (auth_session_generation authority <? generation)
    || ((auth_session_generation authority =? generation)
        && negb (bool_decide (auth_session_id authority = session_id)))
    || ((generation <? auth_session_generation authority)
        && bool_decide (auth_session_id authority = session_id))
  end.

(** One lease against the latest accepted lease of its placement. *)
Definition lease_regresses (st : GatewayProtectionLeaseState)
    (lease : GatewayPlacementProtectionLease) : bool :=
  match latest st !! (lease_node_id lease, lease_placement_id lease) with
  | None => false
  | Some previous =>
    let same_session :=
      (lease_session_generation previous =? lease_session_generation lease)
      && bool_decide (lease_session_id previous = lease_session_id lease) in
    same_session
    && ((lease_sample_sequence lease <? lease_sample_sequence previous)
        || (lease_observed_at lease <? lease_observed_at previous)
        || (lease_observed_at_monotonic lease <? lease_observed_at_monotonic previous)
        || ((lease_sample_sequence lease =? lease_sample_sequence previous)
            && negb (bool_decide (lease = previous))))
  end.

Definition accepts (route : GatewayRoute) (snapshot : GatewayPlacementProtectionSnapshot)
    (now : Z) (st : GatewayProtectionLeaseState) : bool * GatewayProtectionLeaseState :=
  match valid_snapshot route snapshot now with
  | None => (false, st)
  | Some leases =>
    if existsb (session_regresses st) (snap_authorities snapshot) then (false, st) else
    if existsb (lease_regresses st) (map_to_list leases).*2 then (false, st) else
    (true,
     {| latest := foldl (λ m l, <[(lease_node_id l, lease_placement_id l) := l]> m)
                    (latest st) (map_to_list leases).*2;
        sessions := foldl (λ m a,
                      <[auth_node_id a := (auth_session_generation a, auth_session_id a)]> m)
                    (sessions st) (snap_authorities snapshot) |})
  end.

(** ** What acceptance means *)

Lemma collect_leases_spec snapshot expected now authorities acc l m :
  collect_leases snapshot expected now authorities acc l = Some m →
  ∀ k lease, m !! k = Some lease →
    acc !! k = Some lease ∨
    (lease ∈ l ∧ k = lease_key lease ∧
     ∃ authority, authorities !! lease_node_id lease = Some authority ∧
       lease_is_bound snapshot expected now authority lease = true).
Proof.
  revert acc. induction l as [|lease l IH]; intros acc; simpl.
  { intros [= <-]; auto. }
  destruct (authorities !! lease_node_id lease) as [authority|] eqn:Ha; [|done].
  destruct (_ && _) eqn:Hc; [|done]. apply andb_true_iff in Hc as [Hb _].
  intros Hrec k lease' Hk. destruct (IH _ Hrec k lease' Hk) as [Hacc|(Hin & -> & Hrest)].
  - apply lookup_insert_Some in Hacc as [[<- <-]|[_ ?]]; [|by left].
    right. set_solver.
  - right. set_solver.
Qed.

Lemma authority_map_lookup l n a :
  authority_map l !! n = Some a → a ∈ l ∧ auth_node_id a = n.
Proof.
  intros Ha. apply (foldl_insert_elem auth_node_id id) in Ha as [(x & ? & ? & <-)|Ha];
    [done|by rewrite lookup_empty in Ha].
Qed.

(** The proof obligations a lease discharges for its route. *)
Definition lease_proves (route : GatewayRoute) (snapshot : GatewayPlacementProtectionSnapshot)
    (now : Z) (lease : GatewayPlacementProtectionLease) : Prop :=
  lease_group_id lease = placement_group_id route ∧
  lease_armed lease = true ∧ lease_trip_latched lease = false ∧
  lease_observed_at lease ≤ now < lease_expires_at lease ∧
  ∃ authority, authority ∈ snap_authorities snapshot ∧
    auth_node_id authority = lease_node_id lease ∧
    lease_session_id lease = auth_session_id authority ∧
    lease_session_generation lease = auth_session_generation authority ∧
    lease_core_installation_id lease = auth_core_installation_id authority ∧
    lease_watchdog_source_identity lease = auth_watchdog_source_identity authority.

Lemma lease_is_bound_proves route snapshot expected now authority lease :
  snap_group_id snapshot = placement_group_id route →
  authority_map (snap_authorities snapshot) !! lease_node_id lease = Some authority →
  lease_is_bound snapshot expected now authority lease = true →
  lease_proves route snapshot now lease.
Proof.
  intros Hg [Hin Hn]%authority_map_lookup Hb. unfold lease_is_bound in Hb.
  repeat (apply andb_true_iff in Hb as [Hb ?]).
  repeat match goal with H : bool_decide _ = true |- _ => apply bool_decide_eq_true in H end.
  apply negb_true_iff in H1. unfold lease_proves.
  split_and!; [congruence|done|done|lia|lia|].
  exists authority. split_and!; [done|done|done|lia|done|done].
Qed.

Lemma valid_snapshot_spec route snapshot now leases :
  valid_snapshot route snapshot now = Some leases →
  snap_group_id snapshot = placement_group_id route ∧
  dom leases = (list_to_set (snap_expected_placements snapshot) : gset (string * string)) ∧
  (∃ p, (p, endpoint_node_id route) ∈ snap_expected_placements snapshot) ∧
  NoDup (snap_expected_placements snapshot) ∧
  ∀ k lease, leases !! k = Some lease →
    k = lease_key lease ∧ lease ∈ snap_leases snapshot ∧ lease_proves route snapshot now lease.
Proof.
  unfold valid_snapshot. intros H.
  destruct (bool_decide (snap_group_id snapshot = _)) eqn:Hg; [|done].
  apply bool_decide_eq_true in Hg. cbn [negb] in H.
  destruct (negb (Nat.eqb (size _) (length (snap_expected_placements snapshot))) || _) eqn:He;
    [done|].
  apply orb_false_iff in He as [Hsz%negb_false_iff%Nat.eqb_eq Hend%negb_false_iff].
  destruct (_ || _); [done|].
  destruct (collect_leases _ _ _ _ _ _) as [m|] eqn:Hcol; [|done].
  destruct (bool_decide (dom m = _)) eqn:Hdom; [|done]. injection H as <-.
  apply bool_decide_eq_true in Hdom.
  split_and!; [done|done| | |].
  - apply existsb_exists in Hend as ([p n] & Hin & Hn%bool_decide_eq_true).
    apply list_elem_of_In, elem_of_elements, elem_of_list_to_set in Hin. simpl in Hn. subst n. eauto.
  - by apply NoDup_list_to_set_size.
  - intros k lease Hk. destruct (collect_leases_spec _ _ _ _ _ _ _ Hcol k lease Hk)
      as [Habs|(Hin & -> & authority & Ha & Hb)]; [by rewrite lookup_empty in Habs|].
    split_and!; [done|done|by eapply lease_is_bound_proves].
Qed.

Lemma accepts_true route snapshot now st st' :
  accepts route snapshot now st = (true, st') →
  ∃ leases, valid_snapshot route snapshot now = Some leases ∧
    existsb (session_regresses st) (snap_authorities snapshot) = false ∧
    existsb (lease_regresses st) (map_to_list leases).*2 = false ∧
    latest st' = foldl (λ m l, <[(lease_node_id l, lease_placement_id l) := l]> m)
                   (latest st) (map_to_list leases).*2 ∧
    sessions st' = foldl (λ m a,
                     <[auth_node_id a := (auth_session_generation a, auth_session_id a)]> m)
                     (sessions st) (snap_authorities snapshot).
Proof.
  unfold accepts. destruct (valid_snapshot route snapshot now) as [leases|]; [|done].
  destruct (existsb (session_regresses st) _) eqn:Hs; [done|].
  destruct (existsb (lease_regresses st) _) eqn:Hl; [done|].
  intros [= <-]. exists leases. done.
Qed.

(** a route whose protection snapshot is accepted has, for every
    placement its group expects, a lease in that snapshot which is armed, has no
    latched trip, is observed and not expired at [now], belongs to the route's
    group and matches the session, installation and Watchdog source of an
    authority of the placement's node; the endpoint node is among the expected
    placements. *)
Theorem accepts_protects_every_placement route snapshot now st st' :
  accepts route snapshot now st = (true, st') →
  (∃ p, (p, endpoint_node_id route) ∈ snap_expected_placements snapshot) ∧
  ∀ p n, (p, n) ∈ snap_expected_placements snapshot →
    ∃ lease, lease ∈ snap_leases snapshot ∧ lease_key lease = (p, n) ∧
      lease_proves route snapshot now lease.
Proof.
  intros (leases & Hv & _)%accepts_true.
  apply valid_snapshot_spec in Hv as (_ & Hdom & Hend & _ & Hall).
  split; [done|]. intros p n Hpn.
  assert ((p, n) ∈ dom leases) as [lease Hl]%elem_of_dom by (rewrite Hdom; set_solver).
  destruct (Hall _ _ Hl) as (Hk & Hin & Hp). eauto.
Qed.

Lemma accepts_false_unchanged route snapshot now st st' :
  accepts route snapshot now st = (false, st') → st' = st.
Proof.
  unfold accepts. destruct (valid_snapshot route snapshot now); [|naive_solver].
  destruct (existsb _ _); [naive_solver|]. destruct (existsb _ _); naive_solver.
Qed.

(** ** High-water marks never go back *)

(** The latest lease of a placement never belongs to a session newer than the
    node's recorded session. *)
Definition marks_wf (st : GatewayProtectionLeaseState) : Prop :=
  ∀ n p lease, latest st !! (n, p) = Some lease →
    lease_node_id lease = n ∧ ∃ g sid, sessions st !! n = Some (g, sid) ∧
      (lease_session_generation lease < g ∨
       (lease_session_generation lease = g ∧ lease_session_id lease = sid)).

(** [mark_le a b]: [b] is from a newer session, or from the same session and not
    older than [a]. *)
Definition mark_le (a b : GatewayPlacementProtectionLease) : Prop :=
  lease_session_generation a < lease_session_generation b ∨
  (lease_session_generation a = lease_session_generation b ∧
   lease_session_id a = lease_session_id b ∧
   lease_sample_sequence a ≤ lease_sample_sequence b ∧
   lease_observed_at a ≤ lease_observed_at b ∧
   lease_observed_at_monotonic a ≤ lease_observed_at_monotonic b).

#[export] Instance mark_le_preorder : PreOrder mark_le.
Proof.
  split; unfold mark_le; [intros a; lia || (right; split_and!; lia || done)|].
  intros a b c [?|(?&?&?&?&?)] [?|(?&?&?&?&?)]; [left; lia..|].
  right. split_and!; [lia|congruence|lia..].
Qed.

Lemma session_step st a g sid :
  session_regresses st a = false → sessions st !! auth_node_id a = Some (g, sid) →
  g < auth_session_generation a ∨
  (g = auth_session_generation a ∧ sid = auth_session_id a).
Proof.
  unfold session_regresses. intros Hr Hs. rewrite Hs in Hr.
  apply orb_false_iff in Hr as [[Hlt Heq]%orb_false_iff _].
  destruct (Z.eqb_spec (auth_session_generation a) g) as [<-|]; [|left; lia].
  right. split; [done|]. simpl in Heq. apply negb_false_iff, bool_decide_eq_true in Heq. done.
Qed.

Lemma accepts_sessions_mono route snapshot now st st' n g sid :
  accepts route snapshot now st = (true, st') → sessions st !! n = Some (g, sid) →
  ∃ g' sid', sessions st' !! n = Some (g', sid') ∧ (g < g' ∨ (g = g' ∧ sid = sid')).
Proof.
  intros (leases & _ & Hs & _ & _ & ->)%accepts_true Hn.
  destruct (foldl_insert_lookup auth_node_id
    (λ a, (auth_session_generation a, auth_session_id a)) (snap_authorities snapshot)
    (sessions st) n) as [(a & Ha & <- & ->)|[_ ->]].
  - eexists _, _. split; [done|].
    eapply session_step; [|done]. by eapply existsb_false.
  - exists g, sid. auto.
Qed.

Lemma accepts_latest route snapshot now st st' n p lease :
  accepts route snapshot now st = (true, st') → latest st' !! (n, p) = Some lease →
  latest st !! (n, p) = Some lease ∨
  (lease_node_id lease = n ∧ lease_regresses st lease = false ∧
   lease_placement_id lease = p ∧ lease_proves route snapshot now lease).
Proof.
  intros (leases & Hv & _ & Hr & -> & _)%accepts_true Hl.
  apply (foldl_insert_elem (λ l, (lease_node_id l, lease_placement_id l)) id) in Hl
    as [(x & Hx & Hk & <-)|?]; [|by left].
  right. injection Hk as <- <-. apply list_elem_of_fmap in Hx as ([k x'] & -> & Hx).
  simpl. pose proof (existsb_false _ _ x' Hr) as Hreg.
  split_and!; [done| |done|].
  - apply Hreg. apply list_elem_of_fmap. by exists (k, x').
  - apply elem_of_map_to_list in Hx. apply valid_snapshot_spec in Hv as (_&_&_&_&Hall).
    by destruct (Hall _ _ Hx) as (_ & _ & ?).
Qed.

(** After acceptance the recorded session of a node with an authority is one of
    the snapshot's authorities; distinct authorities have distinct nodes. *)
Lemma valid_snapshot_authorities route snapshot now leases :
  valid_snapshot route snapshot now = Some leases →
  NoDup (auth_node_id <$> snap_authorities snapshot).
Proof.
  unfold valid_snapshot. destruct (negb _); [done|]. destruct (_ || _); [done|].
  destruct (negb (Nat.eqb (size (authority_map _)) _) || _) eqn:Ha; [done|]. intros _.
  apply orb_false_iff in Ha as [Hsz%negb_false_iff%Nat.eqb_eq _].
  apply NoDup_list_to_set_size. rewrite length_fmap, <- Hsz, <- size_dom. f_equal.
  clear. unfold authority_map. assert (∀ (m : gmap string GatewayProtectionAuthority) l,
    dom (foldl (λ m a, <[auth_node_id a := a]> m) m l)
    = list_to_set (auth_node_id <$> l) ∪ dom m) as Hdom.
  { intros m l. revert m. induction l as [|a l IH]; intros m; simpl; [set_solver|].
    rewrite IH, dom_insert_L. set_solver. }
  rewrite Hdom. set_solver.
Qed.

Lemma accepts_session_of_lease route snapshot now st st' lease :
  accepts route snapshot now st = (true, st') → lease_proves route snapshot now lease →
  sessions st' !! lease_node_id lease =
    Some (lease_session_generation lease, lease_session_id lease).
Proof.
  intros (leases & Hv & _ & _ & _ & ->)%accepts_true (_&_&_&_& a & Ha & Hn & -> & -> & _).
  apply valid_snapshot_authorities in Hv. rewrite <- Hn.
  destruct (foldl_insert_lookup auth_node_id
    (λ a, (auth_session_generation a, auth_session_id a)) (snap_authorities snapshot)
    (sessions st) (auth_node_id a)) as [(b & Hb & Hnb & ->)|[Hne _]]; [|by destruct (Hne a)].
  assert (b = a) as ->; [|done].
  apply list_elem_of_lookup in Ha as [i Hi], Hb as [j Hj].
  assert (i = j) as ->; [|congruence].
  eapply NoDup_lookup; [exact Hv|..]; rewrite list_lookup_fmap.
  - by rewrite Hi.
  - rewrite Hj. simpl. by rewrite Hnb.
Qed.

Lemma accepts_wf route snapshot now st b st' :
  accepts route snapshot now st = (b, st') → marks_wf st → marks_wf st'.
Proof.
  destruct b; [|by intros ->%accepts_false_unchanged].
  intros Hacc Hwf n p lease Hl.
  destruct (accepts_latest _ _ _ _ _ _ _ _ Hacc Hl) as [Hold|(<- & _ & _ & Hp)].
  - destruct (Hwf _ _ _ Hold) as (Hn & g & sid & Hs & Hrel). split; [done|].
    destruct (accepts_sessions_mono _ _ _ _ _ _ _ _ Hacc Hs) as (g' & sid' & Hs' & Hg).
    exists g', sid'. split; [done|]. destruct Hg as [?|[-> ->]]; [left; lia|done].
  - split; [done|]. eexists _, _.
    split; [by eapply accepts_session_of_lease|by right].
Qed.

Lemma lease_step st n p lease lease' :
  marks_wf st → latest st !! (n, p) = Some lease →
  lease_node_id lease' = n → lease_placement_id lease' = p →
  (∀ g sid, sessions st !! n = Some (g, sid) →
     g < lease_session_generation lease' ∨
     (g = lease_session_generation lease' ∧ sid = lease_session_id lease')) →
  lease_regresses st lease' = false → mark_le lease lease'.
Proof.
  intros Hwf Hl Hn Hp Hses Hreg.
  destruct (Hwf _ _ _ Hl) as (_ & g & sid & Hs & Hrel).
  unfold lease_regresses in Hreg. rewrite Hn, Hp, Hl in Hreg.
  destruct (Hses _ _ Hs) as [Hlt|[-> ->]], Hrel as [Hlt'|[Hg Hsid]]; [left; lia..|].
  rewrite Hg, Hsid, Z.eqb_refl, bool_decide_true in Hreg by done. simpl in Hreg.
  right. split_and!; [done|done|lia..].
Qed.

(** Snapshots presented one after the other. *)
Definition accepts_all (l : list (GatewayRoute * GatewayPlacementProtectionSnapshot * Z))
    (st : GatewayProtectionLeaseState) : GatewayProtectionLeaseState :=
  foldl (λ st '(route, snapshot, now), (accepts route snapshot now st).2) st l.

Lemma accepts_latest_mono route snapshot now st b st' n p lease :
  marks_wf st → accepts route snapshot now st = (b, st') → latest st !! (n, p) = Some lease →
  ∃ lease', latest st' !! (n, p) = Some lease' ∧ mark_le lease lease'.
Proof.
  destruct b; intros Hwf Hacc Hl;
    [|apply accepts_false_unchanged in Hacc as ->; exists lease; done].
  pose proof Hacc as (leases & _ & Hs & _ & Hlat & _)%accepts_true.
  pose proof (foldl_insert_lookup (λ l, (lease_node_id l, lease_placement_id l)) (λ l, l)
    (map_to_list leases).*2 (latest st) (n, p)) as Hcase. cbv beta in Hcase.
  rewrite <- Hlat in Hcase.
  destruct Hcase as [(x & Hx & Hk & Hx')|[_ Heq]]; [|exists lease; by rewrite Heq].
  exists x. split; [done|]. injection Hk as Hxn Hxp.
  destruct (accepts_latest _ _ _ _ _ _ _ _ Hacc Hx') as [Hold|(Hn & Hreg & Hp & Hprv)].
  { rewrite Hl in Hold. by injection Hold as ->. }
  eapply lease_step; [done..| |done].
  intros g sid Hgs. destruct Hprv as (_&_&_&_& a & Ha & Han & Hsid & Hgen & _).
  rewrite Hsid, Hgen. eapply session_step; [by eapply existsb_false|].
  by rewrite Han, Hn.
Qed.

(** whatever snapshots are presented afterwards, in any order, the
    latest accepted lease of a placement is never replaced by an older one: it
    keeps its session and its sample sequence, wall-clock and monotonic times do
    not decrease, or it moves to a session with a greater generation. *)
Theorem high_water_marks_never_regress l st n p lease :
  marks_wf st → latest st !! (n, p) = Some lease →
  ∃ lease', latest (accepts_all l st) !! (n, p) = Some lease' ∧ mark_le lease lease'.
Proof.
  revert st lease. induction l as [|[[route snapshot] now] l IH]; intros st lease Hwf Hl; simpl.
  { exists lease. done. }
  destruct (accepts route snapshot now st) as [b st'] eqn:Hacc. simpl.
  destruct (accepts_latest_mono _ _ _ _ _ _ _ _ _ Hwf Hacc Hl) as (lease1 & Hl1 & Hle1).
  destruct (IH st' lease1) as (lease2 & Hl2 & Hle2); [by eapply accepts_wf|done|].
  exists lease2. split; [done|]. by etrans.
Qed.

(** once a node's session generation [g] is recorded, every snapshot that
    carries an authority of that node with a smaller generation is rejected, at
    once and after any further snapshots. *)
Theorem superseded_session_is_rejected l st n g sid route snapshot now a :
  sessions st !! n = Some (g, sid) →
  a ∈ snap_authorities snapshot → auth_node_id a = n → auth_session_generation a < g →
  (accepts route snapshot now (accepts_all l st)).1 = false.
Proof.
  intros Hs Ha Hn Hlt. assert (∃ g' sid', sessions (accepts_all l st) !! n = Some (g', sid') ∧ g ≤ g')
    as (g' & sid' & Hs' & Hge).
  { clear Ha. revert st g sid Hs Hlt. induction l as [|[[r s] t] l IH]; intros st g sid Hs Hlt;
      [exists g, sid; split; [done|lia]|].
    simpl. destruct (accepts r s t st) as [[|] st'] eqn:Hacc; simpl.
    - destruct (accepts_sessions_mono _ _ _ _ _ _ _ _ Hacc Hs) as (g1 & sid1 & Hs1 & Hg1).
      destruct (IH st' g1 sid1) as (g2 & sid2 & ? & ?); [done|lia|].
      exists g2, sid2. split; [done|lia].
    - apply accepts_false_unchanged in Hacc as ->. eauto. }
  destruct (accepts route snapshot now (accepts_all l st)) as [[|] st'] eqn:Hacc; [|done].
  apply accepts_true in Hacc as (leases & _ & Hreg & _).
  pose proof (existsb_false _ _ a Hreg Ha) as Hr. unfold session_regresses in Hr.
  rewrite Hn, Hs' in Hr. lia.
Qed.

(** ** A concrete placement group *)

Module ProtectionExample.
Definition route : GatewayRoute :=
  {| placement_group_id := "g1"; endpoint_node_id := "n1"; route_model := "m";
     target := ChildRelay "relay"; max_active_requests := 2; max_context_tokens := 1024;
     healthy := true; memory_pressure := false; temperature_millicelsius := None;
     prefix_keys := [] |}.

Definition authority (gen : Z) (sid : string) : GatewayProtectionAuthority :=
  {| auth_node_id := "n1"; auth_core_installation_id := "core";
     auth_watchdog_source_identity := "src"; auth_session_id := sid;
     auth_session_generation := gen |}.

Definition lease (gen : Z) (sid : string) (seq at_ : Z) : GatewayPlacementProtectionLease :=
  {| lease_node_id := "n1"; lease_group_id := "g1"; lease_placement_id := "p1";
     lease_core_installation_id := "core"; lease_watchdog_source_identity := "src";
     lease_session_id := sid; lease_session_generation := gen;
     lease_protection_generation := "0123456789abcdef0123456789abcdef";
     lease_container_name := "c"; lease_container_id := "cid"; lease_process_id := 42;
     lease_process_start_ticks := 7; lease_boot_id := "boot";
     lease_cgroup := "/sys/fs/cgroup/letsinfer"; lease_sample_sequence := seq;
     lease_observed_at := at_; lease_observed_at_monotonic := at_;
     lease_expires_at := at_ + 1000; lease_armed := true; lease_trip_latched := false |}.

Definition snapshot (gen : Z) (sid : string) (seq at_ : Z)
  : GatewayPlacementProtectionSnapshot :=
  {| snap_group_id := "g1"; snap_expected_placements := [("p1", "n1")];
     snap_authorities := [authority gen sid]; snap_leases := [lease gen sid seq at_] |}.

Definition st1 : GatewayProtectionLeaseState :=
  (accepts route (snapshot 1 "s1" 5 1000) 1000 GatewayProtectionLeaseState_default).2.

Lemma lease_is_constructible : lease_new (lease 1 "s1" 5 1000) = Ok (lease 1 "s1" 5 1000).
Proof. vm_compute. reflexivity. Qed.

Lemma st1_wf : marks_wf st1.
Proof.
  apply (accepts_wf route (snapshot 1 "s1" 5 1000) 1000 GatewayProtectionLeaseState_default
    true st1); [vm_compute; reflexivity|]. intros n p l Hl. done.
Qed.
End ProtectionExample.

Lemma accepts_protects_every_placement_witness :
  ∃ st', accepts ProtectionExample.route (ProtectionExample.snapshot 1 "s1" 5 1000) 1500
           GatewayProtectionLeaseState_default = (true, st') ∧
  ((∃ p, (p, endpoint_node_id ProtectionExample.route) ∈
     snap_expected_placements (ProtectionExample.snapshot 1 "s1" 5 1000)) ∧
   ∀ p n, (p, n) ∈ snap_expected_placements (ProtectionExample.snapshot 1 "s1" 5 1000) →
    ∃ lease, lease ∈ snap_leases (ProtectionExample.snapshot 1 "s1" 5 1000) ∧
      lease_key lease = (p, n) ∧
      lease_proves ProtectionExample.route (ProtectionExample.snapshot 1 "s1" 5 1000) 1500 lease).
Proof.
  eexists. split; [vm_compute; reflexivity|].
  eapply (accepts_protects_every_placement _ _ _ GatewayProtectionLeaseState_default).
  vm_compute. reflexivity.
Defined.

Lemma high_water_marks_never_regress_witness :
  ∃ lease', latest (accepts_all
      [(ProtectionExample.route, ProtectionExample.snapshot 1 "s1" 4 1100, 1100);
       (ProtectionExample.route, ProtectionExample.snapshot 2 "s2" 1 1200, 1200)]
      ProtectionExample.st1) !! ("n1"%string, "p1"%string) = Some lease' ∧
    mark_le (ProtectionExample.lease 1 "s1" 5 1000) lease'.
Proof.
  apply high_water_marks_never_regress; [exact ProtectionExample.st1_wf|].
  vm_compute. reflexivity.
Defined.

Lemma superseded_session_is_rejected_witness :
  (accepts ProtectionExample.route (ProtectionExample.snapshot 0 "s0" 9 1300) 1300
     (accepts_all [(ProtectionExample.route, ProtectionExample.snapshot 2 "s2" 1 1200, 1200)]
        ProtectionExample.st1)).1 = false.
Proof.
  apply (superseded_session_is_rejected _ _ "n1" 1 "s1" _ _ _ (ProtectionExample.authority 0 "s0"));
    [vm_compute; reflexivity | apply list_elem_of_here | reflexivity | simpl; lia].
Defined.
