(* ===== verification/GatewayMacos.v ===== *)
(** * macOS placement safety ([core/gateway/src/li_gateway_macos_placement_safety.rs])

    The macOS counterpart of the protection leases: a route is admitted only
    when every placement of its group has a current launchd observation that
    keeps the placement's immutable bindings.  The marks of the placements are
    advanced only when every lease of the snapshot passes. *)

From S2P Require Import Prelude Values GatewayContract.

Definition MAXIMUM_MACOS_SAFETY_LEASE_MILLISECONDS : Z := 60000.

Record GatewayMacOsPlacementSafetyLease := {
  ml_node_id : string;
  ml_group_id : string;
  ml_placement_id : string;
  ml_core_installation_id : string;
  ml_executable_identity : string;
  ml_launchd_label : string;
  ml_launch_generation : string;
  ml_process_id : Z;
  ml_process_start_time : Z;
  ml_observed_at : Z;
  ml_expires_at : Z
}.

#[export] Instance GatewayMacOsPlacementSafetyLease_eq_dec :
  EqDecision GatewayMacOsPlacementSafetyLease.
Proof. solve_decision. Defined.

Definition valid_launchd_label (value : string) : bool :=
  negb (str_len value =? 0)
  && (str_len value <=? 255)
  && str_contains "." value
  && negb (existsb (λ c, is_control c || is_whitespace c) (chars value)).

Definition macos_safety_error : GatewayError :=
  InvalidContract "macOS placement safety contract is invalid".

(** The constructor check of [GatewayMacOsPlacementSafetyLease::new]. *)
Definition macos_lease_new (l : GatewayMacOsPlacementSafetyLease)
  : result GatewayError GatewayMacOsPlacementSafetyLease :=
  if negb (valid_launchd_label (ml_launchd_label l))
     || (ml_process_id l <=? 1)
     || (ml_observed_at l <? ml_process_start_time l)
     || (ml_expires_at l <=? ml_observed_at l)
     || (MAXIMUM_MACOS_SAFETY_LEASE_MILLISECONDS
         <? saturating_sub (ml_expires_at l) (ml_observed_at l))
  then Err macos_safety_error else Ok l.

Record GatewayMacOsPlacementSafetySnapshot := {
  ms_group_id : string;
  ms_expected_placements : list (string * string);
  ms_leases : list GatewayMacOsPlacementSafetyLease
}.

Definition macos_snapshot_new (s : GatewayMacOsPlacementSafetySnapshot)
  : result GatewayError GatewayMacOsPlacementSafetySnapshot :=
  if Nat.eqb (length (ms_expected_placements s)) 0
     || (1024 <? Z.of_nat (length (ms_expected_placements s)))
     || negb (Nat.eqb (size (list_to_set (ms_expected_placements s) : gset (string * string)))
                      (length (ms_expected_placements s)))
     || Nat.eqb (length (ms_leases s)) 0
     || (1024 <? Z.of_nat (length (ms_leases s)))
     || existsb (λ l, negb (bool_decide (ml_group_id l = ms_group_id s))) (ms_leases s)
  then Err macos_safety_error else Ok s.

(** ** Judging a snapshot *)

(** [GatewayMacOsPlacementSafetyState]: the latest accepted lease of a node and
    placement. *)
Definition macos_key (l : GatewayMacOsPlacementSafetyLease) : string * string :=
  (ml_placement_id l, ml_node_id l).

Definition same_process (lease previous : GatewayMacOsPlacementSafetyLease) : bool :=
  (ml_process_id lease =? ml_process_id previous)
  && (ml_process_start_time lease =? ml_process_start_time previous).

Definition binding_changed (lease previous : GatewayMacOsPlacementSafetyLease) : bool :=
  negb (bool_decide (ml_core_installation_id lease = ml_core_installation_id previous))
  || negb (bool_decide (ml_executable_identity lease = ml_executable_identity previous))
  || negb (bool_decide (ml_launchd_label lease = ml_launchd_label previous))
  || negb (bool_decide (ml_launch_generation lease = ml_launch_generation previous)).

Definition contradicts (lease previous : GatewayMacOsPlacementSafetyLease) : bool :=
  binding_changed lease previous
  || (ml_process_start_time lease <? ml_process_start_time previous)
  || (ml_observed_at lease <? ml_observed_at previous)
  || (same_process lease previous && negb (bool_decide (lease = previous))).

Definition contradicts_latest
    (latest : gmap (string * string) GatewayMacOsPlacementSafetyLease)
    (lease : GatewayMacOsPlacementSafetyLease) : bool :=
  match latest !! (ml_node_id lease, ml_placement_id lease) with
  | Some previous => contradicts lease previous
  | None => false
  end.

(** The loop over the snapshot's leases. *)
Fixpoint collect_macos_leases (expected : gset (string * string)) (now : Z)
    (latest : gmap (string * string) GatewayMacOsPlacementSafetyLease)
    (acc : gmap (string * string) GatewayMacOsPlacementSafetyLease)
    (l : list GatewayMacOsPlacementSafetyLease)
  : option (gmap (string * string) GatewayMacOsPlacementSafetyLease) :=
  match l with
  | [] => Some acc
  | lease :: l' =>
    if negb (bool_decide (macos_key lease ∈ expected))
       || negb (bool_decide (acc !! macos_key lease = None))
       || (now <? ml_observed_at lease)
       || (ml_expires_at lease <=? now)
    then None
    else if contradicts_latest latest lease then None
    else collect_macos_leases expected now latest (<[macos_key lease := lease]> acc) l'
  end.

Definition macos_accepts (route : GatewayRoute) (snapshot : GatewayMacOsPlacementSafetySnapshot)
    (now : Z) (latest : gmap (string * string) GatewayMacOsPlacementSafetyLease)
  : bool * gmap (string * string) GatewayMacOsPlacementSafetyLease :=
  let expected : gset (string * string) := list_to_set (ms_expected_placements snapshot) in
  if negb (bool_decide (ms_group_id snapshot = placement_group_id route))
     || negb (Nat.eqb (size expected) (length (ms_expected_placements snapshot)))
     || negb (existsb (λ p, bool_decide (p.2 = endpoint_node_id route)) (elements expected))
  then (false, latest)
  else match collect_macos_leases expected now latest ∅ (ms_leases snapshot) with
       | None => (false, latest)
       | Some leases =>
         if bool_decide (dom leases = expected)
         then (true, foldl (λ m l, <[(ml_node_id l, ml_placement_id l) := l]> m) latest
                       (map_to_list leases).*2)
         else (false, latest)
       end.

(** ** What acceptance means *)

Lemma collect_macos_spec expected now latest acc l m :
  collect_macos_leases expected now latest acc l = Some m →
  (∀ k lease, acc !! k = Some lease → m !! k = Some lease) ∧
  (∀ lease, lease ∈ l →
     m !! macos_key lease = Some lease ∧
     macos_key lease ∈ expected ∧ ml_observed_at lease ≤ now < ml_expires_at lease ∧
     ∀ previous, latest !! (ml_node_id lease, ml_placement_id lease) = Some previous →
       contradicts lease previous = false) ∧
  (∀ k lease, m !! k = Some lease → acc !! k = Some lease ∨ lease ∈ l ∧ k = macos_key lease).
Proof.
  revert acc. induction l as [|x l IH]; intros acc; simpl.
  { intros [= <-]. set_solver. }
  destruct (_ || _ || _ || _) eqn:Hc; [done|].
  destruct (contradicts_latest latest x) eqn:Hp; [done|]. intros Hrec.
  destruct (IH _ Hrec) as (Hkeep & Hall & Hinv).
  apply orb_false_iff in Hc as [[[He Hn]%orb_false_iff Ho]%orb_false_iff Hx].
  apply negb_false_iff, bool_decide_eq_true in He, Hn. split_and!.
  - intros k lease Hk. apply Hkeep. rewrite lookup_insert_ne; [done|]. congruence.
  - intros lease [->|Hin]%elem_of_cons; [|by apply Hall].
    split_and!; [apply Hkeep; by rewrite lookup_insert_eq|done|lia|lia|].
    intros previous Hprev. unfold contradicts_latest in Hp. by rewrite Hprev in Hp.
  - intros k lease Hk. destruct (Hinv k lease Hk) as [Hi|[? ?]]; [|right; set_solver].
    apply lookup_insert_Some in Hi as [[<- <-]|[_ ?]]; [right; set_solver|by left].
Qed.

Lemma macos_accepts_true route snapshot now latest latest' :
  macos_accepts route snapshot now latest = (true, latest') →
  ∃ leases, collect_macos_leases (list_to_set (ms_expected_placements snapshot)) now latest ∅
              (ms_leases snapshot) = Some leases ∧
    ms_group_id snapshot = placement_group_id route ∧
    dom leases = list_to_set (ms_expected_placements snapshot) ∧
    latest' = foldl (λ m l, <[(ml_node_id l, ml_placement_id l) := l]> m) latest
                (map_to_list leases).*2.
Proof.
  unfold macos_accepts. destruct (_ || _ || _) eqn:Hc; [done|].
  destruct (collect_macos_leases _ _ _ _ _) as [leases|] eqn:Hcol; [|done].
  destruct (bool_decide (dom leases = _)) eqn:Hd; [|done]. intros [= <-].
  apply bool_decide_eq_true in Hd. exists leases. split_and!; [done| |done|done].
  apply orb_false_iff in Hc as [[Hg _]%orb_false_iff _].
  by apply negb_false_iff, bool_decide_eq_true in Hg.
Qed.

Lemma macos_accepts_false route snapshot now latest latest' :
  macos_accepts route snapshot now latest = (false, latest') → latest' = latest.
Proof.
  unfold macos_accepts. destruct (_ || _ || _); [naive_solver|].
  destruct (collect_macos_leases _ _ _ _ _); [|naive_solver].
  destruct (bool_decide _); naive_solver.
Qed.

(** an accepted macOS snapshot has, for every expected placement, a
    current launchd lease among its leases, and a rejected one changes no mark. *)
Theorem macos_accepts_current_leases route snapshot now latest b latest' :
  macos_accepts route snapshot now latest = (b, latest') →
  if b then
    ∀ p n, (p, n) ∈ ms_expected_placements snapshot →
      ∃ lease, lease ∈ ms_leases snapshot ∧ macos_key lease = (p, n) ∧
        ml_observed_at lease ≤ now < ml_expires_at lease ∧
        latest' !! (n, p) = Some lease
  else latest' = latest.
Proof.
  destruct b; [|apply macos_accepts_false].
  intros (leases & Hcol & _ & Hdom & ->)%macos_accepts_true p n Hpn.
  apply collect_macos_spec in Hcol as (_ & Hall & Hinv).
  assert ((p, n) ∈ dom leases) as [lease Hl]%elem_of_dom by (rewrite Hdom; set_solver).
  destruct (Hinv _ _ Hl) as [Habs|[Hin Hk]]; [by rewrite lookup_empty in Habs|].
  exists lease. destruct (Hall _ Hin) as (_ & _ & Hcur & _).
  split_and!; [done|done|lia|lia|]. injection Hk as -> ->.
  pose proof (foldl_insert_lookup (λ l, (ml_node_id l, ml_placement_id l)) (λ l, l)
    (map_to_list leases).*2 latest (ml_node_id lease, ml_placement_id lease)) as Hcase.
  cbv beta in Hcase. destruct Hcase as [(x & Hx & Hk & ->)|[Hne _]].
  - apply list_elem_of_fmap in Hx as ([k x'] & -> & Hx%elem_of_map_to_list). simpl in *.
    destruct (Hinv _ _ Hx) as [Habs|[Hxin ->]]; [by rewrite lookup_empty in Habs|].
    destruct (Hall _ Hxin) as (Hx' & _). unfold macos_key in Hx'.
    injection Hk as Hkn Hkp. rewrite Hkn, Hkp in Hx'. congruence.
  - exfalso. apply (Hne lease); [|done]. apply list_elem_of_fmap.
    exists (ml_placement_id lease, ml_node_id lease, lease). split; [done|].
    by apply elem_of_map_to_list.
Qed.

(** Snapshots presented one after the other. *)
Definition macos_accepts_all (l : list (GatewayRoute * GatewayMacOsPlacementSafetySnapshot * Z))
    (latest : gmap (string * string) GatewayMacOsPlacementSafetyLease) :=
  foldl (λ st '(route, snapshot, now), (macos_accepts route snapshot now st).2) latest l.

(** The bindings a placement keeps for the life of the gateway process. *)
Definition bindings (l : GatewayMacOsPlacementSafetyLease) : string * string * string * string :=
  (ml_core_installation_id l, ml_executable_identity l, ml_launchd_label l,
   ml_launch_generation l).

Lemma macos_accepts_bindings route snapshot now latest b latest' k previous :
  macos_accepts route snapshot now latest = (b, latest') → latest !! k = Some previous →
  ∃ lease, latest' !! k = Some lease ∧ bindings lease = bindings previous ∧
    ml_process_start_time previous ≤ ml_process_start_time lease ∧
    ml_observed_at previous ≤ ml_observed_at lease.
Proof.
  destruct b; intros Hacc Hprev;
    [|apply macos_accepts_false in Hacc as ->; exists previous; split_and!; done].
  apply macos_accepts_true in Hacc as (leases & Hcol & _ & _ & ->).
  apply collect_macos_spec in Hcol as (_ & Hall & Hinv).
  pose proof (foldl_insert_lookup (λ l, (ml_node_id l, ml_placement_id l)) (λ l, l)
    (map_to_list leases).*2 latest k) as Hcase. cbv beta in Hcase.
  destruct Hcase as [(x & Hx & Hk & ->)|[_ ->]]; [|exists previous; split_and!; done].
  apply list_elem_of_fmap in Hx as ([k' x'] & -> & Hx%elem_of_map_to_list). simpl in *.
  destruct (Hinv _ _ Hx) as [Habs|[Hxin ->]]; [by rewrite lookup_empty in Habs|].
  destruct (Hall _ Hxin) as (_ & _ & _ & Hcon). rewrite Hk in Hcon.
  specialize (Hcon _ Hprev). unfold contradicts, binding_changed in Hcon.
  exists x'. split; [done|].
  repeat (apply orb_false_iff in Hcon as [Hcon ?]).
  repeat match goal with H : negb (bool_decide _) = false |- _ =>
    apply negb_false_iff, bool_decide_eq_true in H end.
  unfold bindings. split_and!; [congruence|lia|lia].
Qed.

(** whatever snapshots are presented, an accepted placement keeps
    its installation, executable, launchd label and launch generation, and its
    process start and observation times never go back. *)
Theorem macos_bindings_are_immutable l latest k previous :
  latest !! k = Some previous →
  ∃ lease, macos_accepts_all l latest !! k = Some lease ∧ bindings lease = bindings previous ∧
    ml_process_start_time previous ≤ ml_process_start_time lease ∧
    ml_observed_at previous ≤ ml_observed_at lease.
Proof.
  revert latest previous. induction l as [|[[r s] t] l IH]; intros latest previous Hp; simpl.
  { exists previous. done. }
  destruct (macos_accepts r s t latest) as [b latest'] eqn:Hacc. simpl.
  destruct (macos_accepts_bindings _ _ _ _ _ _ _ _ Hacc Hp) as (x & Hx & Hb & ? & ?).
  destruct (IH _ _ Hx) as (y & Hy & Hby & ? & ?).
  exists y. split_and!; [done|congruence|lia|lia].
Qed.

(** a lease of the process that was already accepted is rejected
    as soon as its observation time or deadline differs, and from the accepted
    lease's deadline on no lease of that process is ever accepted: the safety
    proof of a running process cannot be renewed. *)
Theorem macos_running_process_lease_cannot_be_renewed route snapshot now latest lease previous :
  latest !! (ml_node_id lease, ml_placement_id lease) = Some previous →
  lease ∈ ms_leases snapshot →
  same_process lease previous = true →
  lease ≠ previous ∨ ml_expires_at previous ≤ now →
  macos_accepts route snapshot now latest = (false, latest).
Proof.
  intros Hprev Hin Hsame Hdiff.
  destruct (macos_accepts route snapshot now latest) as [[|] latest'] eqn:Hacc;
    [|by apply macos_accepts_false in Hacc as ->].
  exfalso. apply macos_accepts_true in Hacc as (leases & Hcol & _).
  apply collect_macos_spec in Hcol as (_ & Hall & _).
  destruct (Hall _ Hin) as (_ & _ & Hcur & Hcon). specialize (Hcon _ Hprev).
  unfold contradicts in Hcon. apply orb_false_iff in Hcon as [_ Hcon].
  rewrite Hsame in Hcon. simpl in Hcon. apply negb_false_iff, bool_decide_eq_true in Hcon as ->.
  destruct Hdiff; [done|lia].
Qed.

(** ** A concrete launchd placement *)

Module MacosExample.
Definition route : GatewayRoute :=
  {| placement_group_id := "g1"; endpoint_node_id := "n1"; route_model := "m";
     target := ChildRelay "relay"; max_active_requests := 1; max_context_tokens := 1024;
     healthy := true; memory_pressure := false; temperature_millicelsius := None;
     prefix_keys := [] |}.

(** The fixture of the crate's own test: process, start and observation vary. *)
Definition lease (pid started observed : Z) : GatewayMacOsPlacementSafetyLease :=
  {| ml_node_id := "n1"; ml_group_id := "g1"; ml_placement_id := "p1";
     ml_core_installation_id := "core"; ml_executable_identity := "exe";
     ml_launchd_label := "ai.letsinfer.engine.fixture"; ml_launch_generation := "gen";
     ml_process_id := pid; ml_process_start_time := started; ml_observed_at := observed;
     ml_expires_at := observed + 1000 |}.

Definition snapshot (l : GatewayMacOsPlacementSafetyLease)
  : GatewayMacOsPlacementSafetySnapshot :=
  {| ms_group_id := "g1"; ms_expected_placements := [("p1", "n1")]; ms_leases := [l] |}.

Definition latest1 : gmap (string * string) GatewayMacOsPlacementSafetyLease :=
  {[ ("n1"%string, "p1"%string) := lease 42 900 1000 ]}.

Lemma first_lease_is_accepted :
  macos_accepts route (snapshot (lease 42 900 1000)) 1000 ∅ = (true, latest1).
Proof. vm_compute. reflexivity. Qed.

Lemma restart_is_accepted :
  (macos_accepts route (snapshot (lease 43 1100 1200)) 1200 latest1).1 = true.
Proof. vm_compute. reflexivity. Qed.
End MacosExample.

Lemma macos_accepts_current_leases_witness :
  macos_accepts MacosExample.route (MacosExample.snapshot (MacosExample.lease 42 900 1000)) 1000 ∅
    = (true, MacosExample.latest1) ∧
  ∀ p n, (p, n) ∈ ms_expected_placements
      (MacosExample.snapshot (MacosExample.lease 42 900 1000)) →
    ∃ lease, lease ∈ ms_leases (MacosExample.snapshot (MacosExample.lease 42 900 1000)) ∧
      macos_key lease = (p, n) ∧ ml_observed_at lease ≤ 1000 < ml_expires_at lease ∧
      MacosExample.latest1 !! (n, p) = Some lease.
Proof.
  assert (macos_accepts MacosExample.route
    (MacosExample.snapshot (MacosExample.lease 42 900 1000)) 1000 ∅ = (true, MacosExample.latest1))
    as Hok by (vm_compute; reflexivity).
  split; [exact Hok|exact (macos_accepts_current_leases _ _ _ _ _ _ Hok)].
Defined.

Lemma macos_bindings_are_immutable_witness :
  ∃ lease, macos_accepts_all
      [(MacosExample.route, MacosExample.snapshot (MacosExample.lease 43 1100 1200), 1200)]
      MacosExample.latest1 !! ("n1"%string, "p1"%string) = Some lease ∧
    bindings lease = bindings (MacosExample.lease 42 900 1000) ∧
    ml_process_start_time (MacosExample.lease 42 900 1000) ≤ ml_process_start_time lease ∧
    ml_observed_at (MacosExample.lease 42 900 1000) ≤ ml_observed_at lease.
Proof. apply macos_bindings_are_immutable. vm_compute. reflexivity. Defined.

(** The process of the first lease, observed again 200 ms later. *)
Lemma macos_running_process_lease_cannot_be_renewed_witness :
  macos_accepts MacosExample.route (MacosExample.snapshot (MacosExample.lease 42 900 1200)) 1200
    MacosExample.latest1 = (false, MacosExample.latest1).
Proof.
  apply (macos_running_process_lease_cannot_be_renewed _ _ _ _
    (MacosExample.lease 42 900 1200) (MacosExample.lease 42 900 1000));
    [vm_compute; reflexivity | apply list_elem_of_here | reflexivity | left; discriminate].
Defined.
