(* ===== verification/GatewayManager.v ===== *)
(** * GatewayManager ([core/gateway/src/li_gateway_manager.rs], handlers)

    The public operations of GatewayManager.  Its injected providers (clock,
    authentication, relay authorization, topology, platform safety, usage store)
    are the operations of the class [GatewayProviders] over a world [W]; every
    call threads the world, so a provider may answer differently each time.

    Each region the code runs under its state lock is one definition over
    [GatewayState] named [<handler>_locked]; a handler composes provider calls
    and locked regions in source order.  Lock poisoning is not modelled. *)

From S2P Require Import Prelude Ordering Values GatewayContract GatewayTelemetry GatewayState.
From S2P Require Import GatewayProtection GatewayMacos.

(** ** Injected providers *)

Class GatewayProviders (W : Type) := {
  clock_now : W → result GatewayError Z * W;
  authenticate : string → string → W → result GatewayError GatewayPrincipal * W;
  authorize_relay : string → W → result GatewayError string * W;
  provider_routes : string → W → result GatewayError (list GatewayRoute) * W;
  linux_snapshot : GatewayRoute → W →
    result GatewayError (option GatewayPlacementProtectionSnapshot) * W;
  macos_snapshot : GatewayRoute → W →
    result GatewayError (option GatewayMacOsPlacementSafetySnapshot) * W;
  usage_recent : string → Z → W → result GatewayError (list GatewayUsageRecord) * W;
  usage_record : GatewayUsageRecord → W → result GatewayError () * W
}.

(** [GatewayPlacementSafetyProvider]: the platform fixed at construction. *)
Inductive GatewayPlacementSafetyProvider := Linux | Macos.

Record GatewayManager (W : Type) := {
  mode : GatewayMode;
  placement_safety : GatewayPlacementSafetyProvider;
  world : W;
  state : GatewayState;
  protection_state : GatewayProtectionLeaseState;
  macos_safety_state : gmap (string * string) GatewayMacOsPlacementSafetyLease
}.
Arguments mode {W} _.
Arguments placement_safety {W} _.
Arguments world {W} _.
Arguments state {W} _.
Arguments protection_state {W} _.
Arguments macos_safety_state {W} _.
Arguments Build_GatewayManager {W} _ _ _ _ _ _.

Definition new_configured {W} (mode : GatewayMode) (safety : GatewayPlacementSafetyProvider)
    (world : W) : result GatewayError (GatewayManager W) :=
  if match main_node_id mode with
     | Some main => bool_decide (main = local_node_id mode)
     | None => false
     end
  then Err (InvalidContract "child gateway local and main identities must differ")
  else Ok {| mode := mode; placement_safety := safety; world := world;
             state := GatewayState_default;
             protection_state := GatewayProtectionLeaseState_default;
             macos_safety_state := ∅ |}.

(** ** Locked regions *)

Definition reserved_for (principal : option GatewayPrincipal) (request : GatewayRequest) : Z :=
  match principal ≫= λ p, limit_tokens_per_minute (limits p) with
  | Some _ => token_demand request
  | None => 0
  end.

(** [state.queue_order.push_back(id); state.queued.insert(id, queued)]. *)
Definition enqueue (queued_request : QueuedRequest) (st : GatewayState) : GatewayState :=
  let rid := request_id (q_request queued_request) in
  set_queued (<[rid := queued_request]> (queued st))
    (set_queue_order (queue_order st ++ [rid]) st).

(** The part of [admit_request] after policy: select a route, queue, or fail. *)
Definition route_or_queue (request : GatewayRequest) (queued_request : QueuedRequest)
    (routes : list GatewayRoute) (now : Z) : SE GatewayState GatewayError GatewayAdmission :=
  λ st,
  let release := release_principal (q_principal queued_request)
                   (q_reserved_tokens queued_request) in
  match select_route st request routes now with
  | Ok (Selected route) =>
    (do! reservation <- reserve_route queued_request route now in
     se_ret (AdmissionGranted reservation)) st
  | Ok Busy =>
    if 0 <? maximum_queue_milliseconds request then
      if MAX_QUEUED_REQUESTS <=? Z.of_nat (size (queued st)) then (Err QueueFull, release st)
      else (Ok (Queued (request_id request)), enqueue queued_request st)
    else (Err CapacityUnavailable, release st)
  | Err error => (Err error, release st)
  end.

(** [if let Some(principal) = principal.as_ref() { load..; admit_principal.. }]. *)
Definition apply_policy (request : GatewayRequest) (principal : option GatewayPrincipal)
    (recent : list GatewayUsageRecord) (since now : Z) : SE GatewayState GatewayError () :=
  match principal with
  | None => se_ret ()
  | Some principal =>
    run! load_recent_usage (key_id principal) recent since now in
    admit_principal principal request now
  end.

Definition admit_locked (request : GatewayRequest) (principal : option GatewayPrincipal)
    (recent : list GatewayUsageRecord) (since now : Z) (routes : list GatewayRoute)
  : SE GatewayState GatewayError GatewayAdmission := λ st,
  match require_new_request st (request_id request) with
  | Err error => (Err error, st)
  | Ok _ =>
    (run! apply_policy request principal recent since now in
     route_or_queue request
       {| q_request := request; q_principal := principal; q_received_at := now;
          q_enqueued_at := now; q_queued_milliseconds := 0;
          q_reserved_tokens := reserved_for principal request; q_was_admitted := false |}
       routes now) st
  end.

(** The terminal timing of a request that only waited. *)
Definition queue_timing (milliseconds : Z) : GatewayTelemetryTiming :=
  from_observations milliseconds None None None.

(** Whether another queued request of the same model is ahead of [rid]. *)
Definition is_behind (st : GatewayState) (rid model : string) : bool :=
  let same_model id := match queued st !! id with
                       | Some candidate => bool_decide (request_model (q_request candidate) = model)
                       | None => false
                       end in
  existsb (λ id, negb (bool_decide (id = rid)) && same_model id) (queue_order st)
  && negb (bool_decide (List.find same_model (queue_order st) = Some rid)).

Definition poll_queue_locked (ticket : GatewayQueueTicket) (request : GatewayRequest)
    (routes : list GatewayRoute) (now : Z) : SE GatewayState GatewayError GatewayQueueStatus :=
  λ st,
  match queued st !! ticket with
  | None => (Err RequestNotFound, st)
  | Some queued_request =>
    if maximum_queue_milliseconds request <? waited queued_request now then
      match remove_queued_request ticket st with
      | (Err error, st) => (Err error, st)
      | (Ok queued_request, st) =>
        let st := release_principal (q_principal queued_request)
                    (q_reserved_tokens queued_request) st in
        (Err QueueExpired,
         with_telemetry (record_unrouted_failure_with_timing
           (queue_timing (waited queued_request now))) st)
      end
    else if is_behind st ticket (request_model request) then (Ok Waiting, st)
    else match select_route st request routes now with
         | Err error => (Err error, st)
         | Ok Busy => (Ok Waiting, st)
         | Ok (Selected route) =>
           (do! queued_request <- remove_queued_request ticket in
            do! reservation <- reserve_route queued_request route now in
            se_ret (QueueAdmitted reservation)) st
         end
  end.

(** [cancel_queue] and [fail_queue] differ in the terminal event they record. *)
Definition drop_queue_locked (event : GatewayTelemetryTiming → GatewayTelemetryState →
      GatewayTelemetryState) (ticket : GatewayQueueTicket) (now : Z)
  : SE GatewayState GatewayError () := λ st,
  match remove_queued_request ticket st with
  | (Err error, st) => (Err error, st)
  | (Ok queued_request, st) =>
    let st := release_principal (q_principal queued_request)
                (q_reserved_tokens queued_request) st in
    (Ok (), with_telemetry (event (queue_timing (waited queued_request now))) st)
  end.

Definition cancel_queue_locked := drop_queue_locked (record_cancelled None).
Definition fail_queue_locked := drop_queue_locked record_unrouted_failure_with_timing.

(** [GatewayUsageRecord::new] for the reservation's principal, when it has one. *)
Definition completion_usage (reservation : GatewayReservation) (completed_at total_tokens : Z)
  : result GatewayError (option GatewayUsageRecord) :=
  match res_principal reservation with
  | None => Ok None
  | Some principal =>
    result_map Some
      (GatewayUsageRecord_new (request_id (res_request reservation)) (key_id principal)
         (res_received_at reservation) completed_at total_tokens)
  end.

Definition push_token_window (key : string) (at_ tokens : Z) (st : GatewayState)
  : GatewayState :=
  set_token_windows
    (<[key := default [] (token_windows st !! key) ++ [(at_, tokens)]]> (token_windows st)) st.

Definition complete_locked (reservation : GatewayReservation)
    (completed_at total_tokens : result GatewayError Z)
    (usage : result GatewayError (option GatewayUsageRecord))
    (input_tokens output_tokens cached_tokens : Z) (exact_tokens : bool)
    (timing : GatewayTelemetryTiming) : SE GatewayState GatewayError () := λ st,
  match release_reservation reservation st with
  | (Err error, st) => (Err error, st)
  | (Ok _, st) =>
    let group_id := placement_group_id (res_route reservation) in
    let st := match completed_at with
              | Err _ => st
              | Ok completed_at =>
                let st := mark_route_success group_id st in
                match prefix_key (res_request reservation) with
                | None => st
                | Some prefix_key =>
                  record_prefix_affinity (request_model (res_request reservation), prefix_key)
                    group_id completed_at st
                end
              end in
    let st := match res_principal reservation with
              | None => st
              | Some principal =>
                let st := release_principal (Some principal) (res_reserved_tokens reservation) st in
                match completed_at, total_tokens with
                | Ok completed_at, Ok total_tokens =>
                  push_token_window (key_id principal) completed_at total_tokens st
                | _, _ => st
                end
              end in
    (Ok (), match completed_at, total_tokens, usage with
            | Ok completed_at, Ok _, Ok _ =>
              with_telemetry (record_completed (res_route reservation) completed_at timing
                input_tokens output_tokens cached_tokens exact_tokens) st
            | _, _, _ => with_telemetry (record_failed (res_route reservation) timing) st
            end)
  end.

Definition cancel_locked (reservation : GatewayReservation) (timing : GatewayTelemetryTiming)
  : SE GatewayState GatewayError () := λ st,
  match release_reservation reservation st with
  | (Err error, st) => (Err error, st)
  | (Ok _, st) =>
    let st := release_principal (res_principal reservation) (res_reserved_tokens reservation) st in
    (Ok (), with_telemetry (record_cancelled (Some (res_route reservation)) timing) st)
  end.

Definition fail_locked (reservation : GatewayReservation) (timing : GatewayTelemetryTiming)
    (now : result GatewayError Z) : SE GatewayState GatewayError () := λ st,
  match release_reservation reservation st with
  | (Err error, st) => (Err error, st)
  | (Ok _, st) =>
    let st := release_principal (res_principal reservation) (res_reserved_tokens reservation) st in
    match now with
    | Err error => (Err error, with_telemetry (record_failed (res_route reservation) timing) st)
    | Ok now =>
      let st := mark_route_failure (placement_group_id (res_route reservation)) now st in
      (Ok (), with_telemetry (record_failed (res_route reservation) timing) st)
    end
  end.

(** A failed retry: release the quota and record one terminal failure. *)
Definition abandon_retry (reservation : GatewayReservation) (st : GatewayState) : GatewayState :=
  with_telemetry
    (record_failed (res_route reservation) (queue_timing (res_queued_milliseconds reservation)))
    (release_principal (res_principal reservation) (res_reserved_tokens reservation) st).

Definition retry_queued (reservation : GatewayReservation) (now : Z) : QueuedRequest :=
  {| q_request := res_request reservation; q_principal := res_principal reservation;
     q_received_at := res_received_at reservation; q_enqueued_at := now;
     q_queued_milliseconds := res_queued_milliseconds reservation;
     q_reserved_tokens := res_reserved_tokens reservation; q_was_admitted := true |}.

Definition retry_locked (reservation : GatewayReservation) (now : result GatewayError Z)
    (routes : result GatewayError (list GatewayRoute))
  : SE GatewayState GatewayError GatewayAdmission := λ st,
  match release_reservation reservation st with
  | (Err error, st) => (Err error, st)
  | (Ok _, st) =>
    match now with
    | Err error => (Err error, abandon_retry reservation st)
    | Ok now =>
      let st := mark_route_failure (placement_group_id (res_route reservation)) now st in
      match routes with
      | Err error => (Err error, abandon_retry reservation st)
      | Ok routes =>
        let request := res_request reservation in
        let queued_request := retry_queued reservation now in
        let retried st := with_telemetry (record_retried (res_route reservation)) st in
        match select_route st request routes now with
        | Ok (Selected route) =>
          match reserve_route queued_request route now st with
          | (Ok reservation, st) => (Ok (AdmissionGranted reservation), retried st)
          | (Err error, st) => (Err error, st)
          end
        | Ok Busy =>
          if (0 <? maximum_queue_milliseconds request)
             && (waited queued_request now <=? maximum_queue_milliseconds request)
          then
            if MAX_QUEUED_REQUESTS <=? Z.of_nat (size (queued st))
            then (Err QueueFull, abandon_retry reservation st)
            else (Ok (Queued (request_id request)), retried (enqueue queued_request st))
          else (Err CapacityUnavailable, abandon_retry reservation st)
        | Err error => (Err error, abandon_retry reservation st)
        end
      end
    end
  end.

(** ** Handlers *)

Section handlers.
Context {W : Type} `{!GatewayProviders W}.

Definition set_world (w : W) (gm : GatewayManager W) : GatewayManager W :=
  let '(Build_GatewayManager a b _ d e f) := gm in Build_GatewayManager a b w d e f.
Definition set_state (s : GatewayState) (gm : GatewayManager W) : GatewayManager W :=
  let '(Build_GatewayManager a b c _ e f) := gm in Build_GatewayManager a b c s e f.
Definition set_protection_state s (gm : GatewayManager W) : GatewayManager W :=
  let '(Build_GatewayManager a b c d _ f) := gm in Build_GatewayManager a b c d s f.
Definition set_macos_safety_state s (gm : GatewayManager W) : GatewayManager W :=
  let '(Build_GatewayManager a b c d e _) := gm in Build_GatewayManager a b c d e s.

(** One provider call. *)
Definition call {A} (f : W → result GatewayError A * W)
  : SE (GatewayManager W) GatewayError A := λ gm,
  let '(r, w) := f (world gm) in (r, set_world w gm).

(** One region under the state lock. *)
Definition locked {A} (f : SE GatewayState GatewayError A)
  : SE (GatewayManager W) GatewayError A := λ gm,
  let '(r, s) := f (state gm) in (r, set_state s gm).

Definition telemetry_event (f : GatewayTelemetryState → GatewayTelemetryState)
  : SE (GatewayManager W) GatewayError () :=
  locked (λ s, (Ok (), with_telemetry f s)).

Definition get_mode : SE (GatewayManager W) GatewayError GatewayMode :=
  λ gm, (Ok (mode gm), gm).

(** The value of [self.clock.now()] kept as a [Result]. *)
Definition try_call {A} (c : SE (GatewayManager W) GatewayError A)
  : SE (GatewayManager W) GatewayError (result GatewayError A) := λ gm,
  let '(r, gm) := c gm in (Ok r, gm).

(** *** Route snapshots *)

Definition route_is_allowed (m : GatewayMode) (route : GatewayRoute) : bool :=
  match m, target route with
  | Child local _, LocalEngine _ => bool_decide (endpoint_node_id route = local)
  | Child _ _, ChildRelay _ => false
  | Main _, _ => true
  end.

Definition is_relayed (m : GatewayMode) (route : GatewayRoute) : bool :=
  match m, target route with Main _, ChildRelay _ => true | _, _ => false end.

(** The platform judgment of one route: absent, or accepted or not. *)
Definition judge (route : GatewayRoute) : SE (GatewayManager W) GatewayError bool := λ gm,
  match placement_safety gm with
  | Linux =>
    (do! snapshot <- call (linux_snapshot route) in
     match snapshot with
     | None => se_ret false
     | Some snapshot =>
       do! now <- call clock_now in
       λ gm, let '(b, s) := accepts route snapshot now (protection_state gm) in
             (Ok b, set_protection_state s gm)
     end) gm
  | Macos =>
    (do! snapshot <- call (macos_snapshot route) in
     match snapshot with
     | None => se_ret false
     | Some snapshot =>
       do! now <- call clock_now in
       λ gm, let '(b, s) := macos_accepts route snapshot now (macos_safety_state gm) in
             (Ok b, set_macos_safety_state s gm)
     end) gm
  end.

Fixpoint protect_routes (m : GatewayMode) (model : string) (identities : gset string)
    (protected : list GatewayRoute) (routes : list GatewayRoute)
  : SE (GatewayManager W) GatewayError (list GatewayRoute) :=
  match routes with
  | [] => se_ret protected
  | route :: routes =>
    if negb (bool_decide (route_model route = model))
       || bool_decide (placement_group_id route ∈ identities)
    then se_fail (InvalidContract
           "gateway route snapshot has a foreign model or duplicate group")
    else
      let identities := {[placement_group_id route]} ∪ identities in
      if negb (route_is_allowed m route)
      then se_fail (InvalidContract "child gateway may route only its local Engine endpoint")
      else if is_relayed m route
      then protect_routes m model identities (protected ++ [route]) routes
      else
        do! accepted <- judge route in
        protect_routes m model identities
          (if accepted then protected ++ [route] else protected) routes
  end.

Definition current_routes (model : string)
  : SE (GatewayManager W) GatewayError (list GatewayRoute) :=
  do! routes <- call (provider_routes model) in
  do! m <- get_mode in
  protect_routes m model ∅ [] routes.

(** *** Admission *)

Definition is_loaded (key : string) : SE (GatewayManager W) GatewayError bool :=
  locked (λ s, (Ok (bool_decide (key ∈ loaded_keys s)), s)).

(** The persisted window of a key that this process has not loaded yet. *)
Definition recent_usage (principal : option GatewayPrincipal) (since : Z)
  : SE (GatewayManager W) GatewayError (list GatewayUsageRecord) :=
  match principal with
  | None => se_ret []
  | Some principal =>
    do! loaded <- is_loaded (key_id principal) in
    if loaded then se_ret [] else call (usage_recent (key_id principal) since)
  end.

Definition admit_request (request : GatewayRequest) (principal : option GatewayPrincipal)
  : SE (GatewayManager W) GatewayError GatewayAdmission :=
  do! now <- call clock_now in
  do! routes <- current_routes (request_model request) in
  let since := saturating_sub now ROLLING_WINDOW_MILLISECONDS in
  do! recent <- recent_usage principal since in
  locked (admit_locked request principal recent since now routes).

Definition record_initial_failure {A} (c : SE (GatewayManager W) GatewayError A)
  : SE (GatewayManager W) GatewayError A := λ gm,
  match c gm with
  | (Ok a, gm) => (Ok a, gm)
  | (Err error, gm) => (run! telemetry_event record_unrouted_failure in se_fail error) gm
  end.

Definition admit_public (bearer_token : string) (request : GatewayRequest)
  : SE (GatewayManager W) GatewayError GatewayAdmission :=
  run! telemetry_event record_received in
  record_initial_failure
    (do! m <- get_mode in
     match m with
     | Child _ _ => se_fail PublicUnavailableOnChild
     | Main _ =>
       do! principal <- call (authenticate bearer_token (request_model request)) in
       admit_request request (Some principal)
     end).

Definition admit_relay (relay_credential : string) (request : GatewayRequest)
  : SE (GatewayManager W) GatewayError GatewayAdmission :=
  run! telemetry_event record_received in
  record_initial_failure
    (do! m <- get_mode in
     match main_node_id m with
     | None => se_fail PrivateRelayUnavailableOnMain
     | Some expected_main =>
       do! authorized_main <- call (authorize_relay relay_credential) in
       if bool_decide (authorized_main = expected_main) then admit_request request None
       else se_fail RelayDenied
     end).

(** *** Queue *)

Definition poll_queue (ticket : GatewayQueueTicket)
  : SE (GatewayManager W) GatewayError GatewayQueueStatus :=
  do! now <- call clock_now in
  do! request <- locked (λ s,
    (ok_or RequestNotFound (q_request <$> queued s !! ticket), s)) in
  do! routes <- current_routes (request_model request) in
  locked (poll_queue_locked ticket request routes now).

Definition cancel_queue (ticket : GatewayQueueTicket)
  : SE (GatewayManager W) GatewayError () :=
  do! now <- call clock_now in locked (cancel_queue_locked ticket now).

Definition fail_queue (ticket : GatewayQueueTicket)
  : SE (GatewayManager W) GatewayError () :=
  do! now <- call clock_now in locked (fail_queue_locked ticket now).

(** *** Terminal operations of a reservation *)

Definition complete_request (reservation : GatewayReservation)
    (input_tokens output_tokens cached_tokens : Z) (exact_tokens : bool)
    (timing : GatewayTelemetryTiming)
  : SE (GatewayManager W) GatewayError (option GatewayUsageRecord) :=
  do! completed_at <- try_call (call clock_now) in
  let total_tokens : result GatewayError Z :=
    ok_or (InvalidContract "completed gateway usage overflows its token bound")
      (checked_add_u64 input_tokens output_tokens) in
  let usage :=
    match completed_at, total_tokens with
    | Ok completed_at, Ok total_tokens => completion_usage reservation completed_at total_tokens
    | Err error, _ => Err error
    | _, Err error => Err error
    end in
  run! locked (complete_locked reservation completed_at total_tokens usage
                 input_tokens output_tokens cached_tokens exact_tokens timing) in
  match usage with
  | Err error => se_fail error
  | Ok None => se_ret None
  | Ok (Some usage) => run! call (usage_record usage) in se_ret (Some usage)
  end.

Definition complete (reservation : GatewayReservation) (input_tokens output_tokens : Z)
  : SE (GatewayManager W) GatewayError (option GatewayUsageRecord) :=
  complete_request reservation input_tokens output_tokens 0 true
    (queue_timing (res_queued_milliseconds reservation)).

Definition cancel (reservation : GatewayReservation)
  : SE (GatewayManager W) GatewayError () :=
  locked (cancel_locked reservation (queue_timing (res_queued_milliseconds reservation))).

Definition retry_before_output (reservation : GatewayReservation)
  : SE (GatewayManager W) GatewayError GatewayAdmission :=
  do! now <- try_call (call clock_now) in
  do! routes <- try_call (current_routes (request_model (res_request reservation))) in
  locked (retry_locked reservation now routes).

Definition fail_reservation (reservation : GatewayReservation) (timing : GatewayTelemetryTiming)
  : SE (GatewayManager W) GatewayError () :=
  do! now <- try_call (call clock_now) in
  locked (fail_locked reservation timing now).

Definition fail_after_output (reservation : GatewayReservation)
  : SE (GatewayManager W) GatewayError () :=
  fail_reservation reservation (queue_timing (res_queued_milliseconds reservation)).

(** *** Reads *)

Definition counts : SE (GatewayManager W) GatewayError (nat * nat) :=
  locked (λ s, (Ok (size (active_requests s), size (queued s)), s)).

Definition telemetry_health : SE (GatewayManager W) GatewayError GatewayTelemetryHealth :=
  do! observed_at <- call clock_now in
  locked (λ s, (Ok (health observed_at (telemetry s)), s)).

Definition public_model_is_available (model : string)
  : SE (GatewayManager W) GatewayError bool :=
  do! m <- get_mode in
  match m with
  | Child _ _ => se_ret false
  | Main _ =>
    do! now <- call clock_now in
    do! routes <- current_routes model in
    locked (λ s, (Ok (existsb (λ route, route_has_admission_capacity s route now) routes), s))
  end.

Definition authorize_public_token_count (bearer_token model : string)
  : SE (GatewayManager W) GatewayError () :=
  do! m <- get_mode in
  match m with
  | Child _ _ => se_fail PublicUnavailableOnChild
  | Main _ => run! call (authenticate bearer_token model) in se_ret ()
  end.

Definition authorize_relay_token_count (relay_credential : string)
  : SE (GatewayManager W) GatewayError () :=
  do! m <- get_mode in
  match main_node_id m with
  | None => se_fail PrivateRelayUnavailableOnMain
  | Some expected_main =>
    do! authorized_main <- call (authorize_relay relay_credential) in
    if bool_decide (authorized_main = expected_main) then se_ret () else se_fail RelayDenied
  end.

Definition compare_token_count_routes (left right : GatewayRoute) : comparison :=
  then_with (max_context_tokens right ?= max_context_tokens left)
    (then_with (String.compare (endpoint_node_id left) (endpoint_node_id right))
               (String.compare (placement_group_id left) (placement_group_id right))).

Definition token_count_routes (model : string)
  : SE (GatewayManager W) GatewayError (list GatewayRoute) :=
  do! now <- call clock_now in
  do! routes <- current_routes model in
  locked (λ s,
    (Ok (sort_by compare_token_count_routes
           (List.filter (λ route, healthy route && negb (memory_pressure route)
                                  && is_cooled_down s now route) routes)), s)).
End handlers.
