(* ===== verification/GatewayInvariant.v ===== *)
(** * The accounting invariant of the live gateway

    GatewayManager hands out linear reservations and keeps, next to them, live
    counters per placement group and per key, reserved tokens, a FIFO queue and
    telemetry totals.  This file states that the counters are exactly the
    counts of what is outstanding, and proves one lemma per mutation of the
    state.  [out] is the ghost set of reservations callers hold; [pend] counts
    received requests that are neither queued, outstanding nor terminal; [hold]
    is the quota held by the operation in flight. *)

From S2P Require Import Prelude Ordering Values GatewayContract GatewayTelemetry.
From S2P Require Import GatewayState GatewayRouting GatewayManager.

Definition group_of (r : GatewayReservation) : string := placement_group_id (res_route r).
Definition on_group (g : string) (r : GatewayReservation) : Z :=
  if bool_decide (group_of r = g) then 1 else 0.

(** What a principal with [t] reserved tokens contributes to the key [k]. *)
Definition lives (k : string) (p : option GatewayPrincipal) : Z :=
  match p with Some p => if bool_decide (key_id p = k) then 1 else 0 | None => 0 end.
Definition holds (k : string) (p : option GatewayPrincipal) (t : Z) : Z :=
  match p with Some p => if bool_decide (key_id p = k) then t else 0 | None => 0 end.

Definition res_lives k (r : GatewayReservation) : Z := lives k (res_principal r).
Definition res_holds k (r : GatewayReservation) : Z :=
  holds k (res_principal r) (res_reserved_tokens r).
Definition q_lives k (q : QueuedRequest) : Z := lives k (q_principal q).
Definition q_holds k (q : QueuedRequest) : Z := holds k (q_principal q) (q_reserved_tokens q).

Definition Quota : Type := option GatewayPrincipal * Z.
Definition no_quota : Quota := (None, 0).

(** Live requests and reserved tokens of a key. *)
Definition key_live (out : gmap string GatewayReservation) (q : gmap string QueuedRequest)
    (hold : Quota) (k : string) : Z :=
  sum_by (res_lives k) out + sum_by (q_lives k) q + lives k hold.1.
Definition key_reserved (out : gmap string GatewayReservation) (q : gmap string QueuedRequest)
    (hold : Quota) (k : string) : Z :=
  sum_by (res_holds k) out + sum_by (q_holds k) q + holds k hold.1 hold.2.

(** Every received request is in exactly one place. *)
Record counters_ok (places : Z) (c : GatewayTelemetryCounters) : Prop := {
  ck_total : c_requests_received c
    = places + c_requests_completed c + c_requests_failed c + c_requests_cancelled c;
  ck_completed : 0 ≤ c_requests_completed c;
  ck_failed : 0 ≤ c_requests_failed c;
  ck_cancelled : 0 ≤ c_requests_cancelled c;
  ck_received : c_requests_received c ≤ u64_max
}.

Record inv (out : gmap string GatewayReservation) (pend : Z) (hold : Quota)
    (st : GatewayState) : Prop := {
  inv_active : active_requests st = group_of <$> out;
  inv_out_id id r : out !! id = Some r → request_id (res_request r) = id;
  inv_out_tokens id r : out !! id = Some r → 0 ≤ res_reserved_tokens r;
  inv_queued_id id q : queued st !! id = Some q → request_id (q_request q) = id;
  inv_queued_tokens id q : queued st !! id = Some q → 0 ≤ q_reserved_tokens q;
  inv_order_nodup : NoDup (queue_order st);
  inv_order id : id ∈ queue_order st ↔ is_Some (queued st !! id);
  inv_disjoint id : is_Some (out !! id) → queued st !! id = None;
  inv_bound : Z.of_nat (size (queued st)) ≤ MAX_QUEUED_REQUESTS;
  inv_route : counted (route_active st) (λ g, sum_by (on_group g) out);
  inv_live : counted (principal_active st) (key_live out (queued st) hold);
  inv_hold : 0 ≤ hold.2;
  inv_reserved k :
    default 0 (principal_reserved_tokens st !! k) = key_reserved out (queued st) hold k;
  inv_reserved_max k : key_reserved out (queued st) hold k ≤ u64_max;
  inv_pend : 0 ≤ pend;
  inv_counters : counters_ok (pend + Z.of_nat (size out) + Z.of_nat (size (queued st)))
                   (counters (telemetry st))
}.

(** ** Elementary facts *)

Lemma on_group_range g r : 0 ≤ on_group g r ≤ 1.
Proof. unfold on_group. case_bool_decide; lia. Qed.
Lemma lives_range k p : 0 ≤ lives k p ≤ 1.
Proof. unfold lives. destruct p; [|lia]. case_bool_decide; lia. Qed.
Lemma holds_nonneg k p t : 0 ≤ t → 0 ≤ holds k p t.
Proof. unfold holds. destruct p; [|lia]. case_bool_decide; lia. Qed.

Lemma sum_by_nonneg_on `{Countable K} {V} (f : V → Z) (m : gmap K V) :
  (∀ k v, m !! k = Some v → 0 ≤ f v) → 0 ≤ sum_by f m.
Proof.
  induction m as [|k v m Hk IH] using map_ind; intros Hf; [by rewrite sum_by_empty|].
  rewrite sum_by_insert by done. specialize (Hf k v (lookup_insert_eq _ _ _)) as Hv.
  enough (0 ≤ sum_by f m) by lia. apply IH. intros k' v' Hk'. apply (Hf k').
  rewrite lookup_insert_ne; [done|]. congruence.
Qed.

Lemma key_live_range out q hold k :
  0 ≤ key_live out q hold k ≤ Z.of_nat (size out) + Z.of_nat (size q) + 1.
Proof.
  unfold key_live. pose proof (lives_range k hold.1).
  pose proof (sum_by_nonneg (res_lives k) out ltac:(intros; apply lives_range)).
  pose proof (sum_by_nonneg (q_lives k) q ltac:(intros; apply lives_range)).
  pose proof (sum_by_le_size (res_lives k) out ltac:(intros; apply lives_range)).
  pose proof (sum_by_le_size (q_lives k) q ltac:(intros; apply lives_range)). lia.
Qed.

Lemma key_reserved_parts out pend hold st k :
  inv out pend hold st →
  0 ≤ sum_by (res_holds k) out ∧ 0 ≤ sum_by (q_holds k) (queued st) ∧ 0 ≤ holds k hold.1 hold.2.
Proof.
  intros Hinv. split_and!.
  - apply sum_by_nonneg_on. intros. by eapply holds_nonneg, inv_out_tokens.
  - apply sum_by_nonneg_on. intros. by eapply holds_nonneg, inv_queued_tokens.
  - by eapply holds_nonneg, inv_hold.
Qed.

(** The invariant reads only these fields. *)
Lemma inv_ext out pend hold st st' :
  inv out pend hold st →
  active_requests st' = active_requests st → queue_order st' = queue_order st →
  queued st' = queued st → route_active st' = route_active st →
  principal_active st' = principal_active st →
  principal_reserved_tokens st' = principal_reserved_tokens st →
  counters (telemetry st') = counters (telemetry st) → inv out pend hold st'.
Proof.
  intros [] Ha Ho Hq Hr Hp Ht Hc.
  split; rewrite ?Ha, ?Ho, ?Hq, ?Hr, ?Hp, ?Ht, ?Hc; auto.
Qed.

Lemma inv_init : inv ∅ 0 no_quota GatewayState_default.
Proof.
  split; simpl; try done; try (intros; set_solver).
  - constructor.
  - intros id. split; [set_solver|]. intros [? Hq]. by rewrite lookup_empty in Hq.
Qed.

(** ** Telemetry events *)

Section events.
Context (out : gmap string GatewayReservation) (hold : Quota).
Implicit Types st : GatewayState.

Lemma inv_with_telemetry f pend pend' st :
  inv out pend hold st → 0 ≤ pend' →
  (∀ live, counters_ok (pend + live) (counters (telemetry st)) → 0 ≤ live →
           counters_ok (pend' + live) (counters (f (telemetry st)))) →
  inv out pend' hold (with_telemetry f st).
Proof.
  intros [] Hp Hf. destruct st; split; simpl in *; auto.
  rewrite <- Z.add_assoc. apply Hf; [by rewrite Z.add_assoc|lia].
Qed.

Lemma group_counters route f t : counters (group route f t) = counters t.
Proof. unfold group. destruct (_ !! _); [done|]. by destruct (_ <=? _). Qed.

Lemma record_sample_counters id at_ i o c t : counters (record_sample id at_ i o c t) = counters t.
Proof. unfold record_sample. by destruct (_ !! _). Qed.

Lemma record_received_ok places c :
  counters_ok places c → c_requests_received c < u64_max →
  counters_ok (places + 1) (inc_requests_received 1 c).
Proof. intros [] ?. destruct c; split; simpl in *; unfold increment; ulia. Qed.

(** A terminal event moves one request out of the live places. *)
Lemma inc_failed_ok places c :
  0 ≤ places → counters_ok (1 + places) c → counters_ok places (inc_requests_failed 1 c).
Proof. intros ? []. destruct c; split; simpl in *; unfold increment; ulia. Qed.
Lemma inc_cancelled_ok places c :
  0 ≤ places → counters_ok (1 + places) c → counters_ok places (inc_requests_cancelled 1 c).
Proof. intros ? []. destruct c; split; simpl in *; unfold increment; ulia. Qed.
Lemma inc_completed_ok places c :
  0 ≤ places → counters_ok (1 + places) c → counters_ok places (inc_requests_completed 1 c).
Proof. intros ? []. destruct c; split; simpl in *; unfold increment; ulia. Qed.

(** Counters that do not classify a request leave the classification alone. *)
Definition same_classes (c c' : GatewayTelemetryCounters) : Prop :=
  c_requests_received c' = c_requests_received c ∧
  c_requests_completed c' = c_requests_completed c ∧
  c_requests_failed c' = c_requests_failed c ∧
  c_requests_cancelled c' = c_requests_cancelled c.

Lemma counters_ok_same places c c' :
  same_classes c c' → counters_ok places c → counters_ok places c'.
Proof. intros (H1 & H2 & H3 & H4) []. split; rewrite ?H1, ?H2, ?H3, ?H4; auto. Qed.

Lemma record_timing_same timing t :
  same_classes (counters t) (counters (record_timing timing t)).
Proof. unfold record_timing, with_counters. simpl. by destruct (counters t). Qed.

Definition neutral_event (f : GatewayTelemetryState → GatewayTelemetryState) : Prop :=
  ∀ t, same_classes (counters t) (counters (f t)).
Definition terminal_event (f : GatewayTelemetryState → GatewayTelemetryState) : Prop :=
  ∀ t places, 0 ≤ places → counters_ok (1 + places) (counters t) →
              counters_ok places (counters (f t)).

Lemma record_admitted_neutral route : neutral_event (record_admitted route).
Proof. intros t. unfold record_admitted. rewrite group_counters. by destruct t as [[]]. Qed.
Lemma record_retried_neutral route : neutral_event (record_retried route).
Proof. intros t. unfold record_retried. rewrite group_counters. by destruct t as [[]]. Qed.

Lemma record_unrouted_failure_with_timing_terminal timing :
  terminal_event (record_unrouted_failure_with_timing timing).
Proof. intros t places ??. eapply counters_ok_same; [apply record_timing_same|by apply inc_failed_ok]. Qed.
Lemma record_unrouted_failure_terminal : terminal_event record_unrouted_failure.
Proof. apply record_unrouted_failure_with_timing_terminal. Qed.
Lemma record_failed_terminal route timing : terminal_event (record_failed route timing).
Proof.
  intros t places ??. unfold record_failed. rewrite group_counters.
  eapply counters_ok_same; [apply record_timing_same|by apply inc_failed_ok].
Qed.
Lemma record_cancelled_terminal route timing : terminal_event (record_cancelled route timing).
Proof.
  intros t places ??. unfold record_cancelled.
  destruct route; rewrite ?group_counters;
    (eapply counters_ok_same; [apply record_timing_same|by apply inc_cancelled_ok]).
Qed.
Lemma record_completed_terminal route at_ timing i o c exact_ :
  terminal_event (record_completed route at_ timing i o c exact_).
Proof.
  intros t places ? Hc. unfold record_completed.
  rewrite record_sample_counters, group_counters.
  eapply counters_ok_same; [|by apply inc_completed_ok].
  destruct t as [[] ? ? ? ?], exact_, (0 <? c); done.
Qed.

Lemma inv_terminal f pend st :
  terminal_event f → 0 ≤ pend → inv out (1 + pend) hold st →
  inv out pend hold (with_telemetry f st).
Proof.
  intros Hf Hp Hinv. eapply inv_with_telemetry; [done..|].
  intros live Hc Hl. apply Hf; [lia|]. by rewrite Z.add_assoc.
Qed.

Lemma inv_neutral f pend st :
  neutral_event f → inv out pend hold st → inv out pend hold (with_telemetry f st).
Proof.
  intros Hf Hinv. eapply inv_with_telemetry; [done|by eapply inv_pend|].
  intros live Hc _. by eapply counters_ok_same.
Qed.

Lemma inv_received pend st :
  inv out pend hold st → c_requests_received (counters (telemetry st)) < u64_max →
  inv out (1 + pend) hold (with_telemetry record_received st).
Proof.
  intros Hinv Hlt. pose proof (inv_pend _ _ _ _ Hinv).
  eapply inv_with_telemetry; [done|lia|]. intros live Hc _.
  replace (1 + pend + live) with (pend + live + 1) by lia. by apply record_received_ok.
Qed.
End events.

#[export] Hint Resolve record_admitted_neutral record_retried_neutral
  record_unrouted_failure_with_timing_terminal record_unrouted_failure_terminal
  record_failed_terminal record_cancelled_terminal record_completed_terminal : counting.

(** ** Mutations that do not touch the accounting *)

Section neutral.
Context (out : gmap string GatewayReservation) (pend : Z) (hold : Quota).

Lemma inv_mark_route_failure g now st :
  inv out pend hold st → inv out pend hold (mark_route_failure g now st).
Proof. intros Hinv. eapply inv_ext; [done|by destruct st..]. Qed.
Lemma inv_mark_route_success g st :
  inv out pend hold st → inv out pend hold (mark_route_success g st).
Proof. intros Hinv. eapply inv_ext; [done|by destruct st..]. Qed.
Lemma inv_record_prefix_affinity k g now st :
  inv out pend hold st → inv out pend hold (record_prefix_affinity k g now st).
Proof. intros Hinv. eapply inv_ext; [done|by destruct st..]. Qed.
Lemma inv_push_token_window k at_ t st :
  inv out pend hold st → inv out pend hold (push_token_window k at_ t st).
Proof. intros Hinv. eapply inv_ext; [done|by destruct st..]. Qed.

Lemma inv_push_usage k st usage : inv out pend hold st → inv out pend hold (push_usage k st usage).
Proof. intros Hinv. eapply inv_ext; [done|by destruct st..]. Qed.

Lemma inv_load_recent_usage k recent since now st :
  inv out pend hold st → inv out pend hold (load_recent_usage k recent since now st).2.
Proof.
  intros Hinv. unfold load_recent_usage.
  destruct (existsb _ _); [done|]. case_bool_decide; [done|]. simpl.
  assert (inv out pend hold (set_loaded_keys ({[k]} ∪ loaded_keys st) st)) as Hinv'.
  { eapply inv_ext; [done|by destruct st..]. }
  revert Hinv'. generalize (set_loaded_keys ({[k]} ∪ loaded_keys st) st).
  induction recent as [|u recent IH]; intros s Hs; simpl; [done|].
  by apply IH, inv_push_usage.
Qed.
End neutral.

#[export] Hint Resolve inv_mark_route_failure inv_mark_route_success inv_record_prefix_affinity
  inv_push_token_window inv_load_recent_usage inv_terminal inv_neutral : counting.

(** ** Quotas *)

Lemma key_live_hold out q p t k : key_live out q (p, t) k = key_live out q no_quota k + lives k p.
Proof. unfold key_live. simpl. lia. Qed.
Lemma key_reserved_hold out q p t k :
  key_reserved out q (p, t) k = key_reserved out q no_quota k + holds k p t.
Proof. unfold key_reserved. simpl. lia. Qed.

(** Replacing the held quota, given the new counters. *)
Lemma inv_set_quota out pend hold hold' st st' :
  inv out pend hold st →
  active_requests st' = active_requests st ∧ queue_order st' = queue_order st ∧
  queued st' = queued st ∧ route_active st' = route_active st ∧ telemetry st' = telemetry st →
  0 ≤ hold'.2 →
  counted (principal_active st') (key_live out (queued st) hold') →
  (∀ k, default 0 (principal_reserved_tokens st' !! k) = key_reserved out (queued st) hold' k ∧
        key_reserved out (queued st) hold' k ≤ u64_max) →
  inv out pend hold' st'.
Proof.
  intros [] (Ha & Ho & Hq & Hr & Ht) ? Hpa Hpr.
  split; rewrite ?Ha, ?Ho, ?Hq, ?Hr, ?Ht; try done; intros k; apply Hpr.
Qed.

Lemma wrapping_add_u64_range a b : in_u64 (wrapping_add_u64 a b).
Proof.
  unfold wrapping_add_u64, in_u64, u64_max. change (2 ^ 64) with 18446744073709551616.
  pose proof (Z.mod_pos_bound (a + b) 18446744073709551616). lia.
Qed.

Lemma wrapping_add_u64_small a b : 0 ≤ a + b ≤ u64_max → wrapping_add_u64 a b = a + b.
Proof.
  intros. unfold wrapping_add_u64. change (2 ^ 64) with 18446744073709551616.
  apply Z.mod_small. ulia.
Qed.

Lemma wrapping_add_u32_small a b : 0 ≤ a + b ≤ u32_max → wrapping_add_u32 a b = a + b.
Proof.
  intros. unfold wrapping_add_u32. change (2 ^ 32) with 4294967296. apply Z.mod_small. ulia.
Qed.

Lemma window_total_nonneg l : 0 ≤ window_total l.
Proof.
  unfold window_total. induction l as [|x l _] using rev_ind; [done|].
  rewrite foldl_app. simpl. apply wrapping_add_u64_range.
Qed.

Lemma reserved_for_range p request : in_u64 (reserved_for p request).
Proof.
  unfold reserved_for. destruct (_ ≫= _); [apply wrapping_add_u64_range|ulia].
Qed.

(** The shape of a successful [admit_principal]. *)
Lemma admit_principal_cases p request now st :
  let key := key_id p in
  let active := default 0 (principal_active st !! key) in
  let reserved := default 0 (principal_reserved_tokens st !! key) in
  match admit_principal p request now st with
  | (Err _, st') =>
    principal_active st' = principal_active st ∧
    principal_reserved_tokens st' = principal_reserved_tokens st
  | (Ok _, st') =>
    principal_active st' = <[key := wrapping_add_u32 active 1]> (principal_active st) ∧
    (∀ limit, limit_concurrency (limits p) = Some limit → active < limit) ∧
    match limit_tokens_per_minute (limits p) with
    | None => principal_reserved_tokens st' = principal_reserved_tokens st
    | Some limit =>
      principal_reserved_tokens st'
        = <[key := wrapping_add_u64 reserved (token_demand request)]> (principal_reserved_tokens st)
      ∧ reserved + token_demand request ≤ u64_max ∧ reserved + token_demand request ≤ limit
    end
  end.
Proof.
  intros key active reserved. destruct st. unfold admit_principal. cbn -[window_total].
  destruct (match limit_context_tokens _ with Some _ => _ | None => _ end); [done|].
  destruct (match limit_requests_per_minute _ with Some _ => _ | None => _ end); [done|].
  destruct (match limit_concurrency _ with Some _ => _ | None => _ end) eqn:Hcon; [done|].
  assert (∀ limit, limit_concurrency (limits p) = Some limit → active < limit) as Hlim.
  { intros limit Hl. rewrite Hl in Hcon. unfold active, key. simpl. lia. }
  destruct (limit_tokens_per_minute _) as [limit|]; [|done].
  destruct (checked_add_u64 _ _ ≫= _) as [value|] eqn:Hv; [|done].
  apply bind_Some in Hv as (v & [-> ?]%checked_add_u64_Some & [-> Hv]%checked_add_u64_Some).
  set (used := window_total _) in *. assert (0 ≤ used) by apply window_total_nonneg.
  destruct (Z.ltb_spec limit (used + default 0 (principal_reserved_tokens !! key_id p) + token_demand request));
    [done|]. split_and!; [done|done|done| |]; unfold reserved, key; simpl; lia.
Qed.

Lemma admit_principal_frame p request now st :
  let st' := (admit_principal p request now st).2 in
  active_requests st' = active_requests st ∧ queue_order st' = queue_order st ∧
  queued st' = queued st ∧ route_active st' = route_active st ∧ telemetry st' = telemetry st.
Proof.
  destruct st. unfold admit_principal. cbn -[window_total].
  destruct (match limit_context_tokens _ with Some _ => _ | None => _ end); [done|].
  destruct (match limit_requests_per_minute _ with Some _ => _ | None => _ end); [done|].
  destruct (match limit_concurrency _ with Some _ => _ | None => _ end); [done|].
  destruct (limit_tokens_per_minute _) as [limit|]; [|done].
  destruct (checked_add_u64 _ _ ≫= _) as [value|]; [|done].
  by destruct (limit <? value).
Qed.

Lemma inv_admit_principal out pend p request now st :
  inv out pend no_quota st →
  Z.of_nat (size out) + Z.of_nat (size (queued st)) + 1 < u32_max →
  match admit_principal p request now st with
  | (Ok _, st') => inv out pend (Some p, reserved_for (Some p) request) st'
  | (Err _, st') => inv out pend no_quota st'
  end.
Proof.
  intros Hinv Hsz.
  pose proof (admit_principal_frame p request now st) as Hframe.
  pose proof (admit_principal_cases p request now st) as Hcases.
  pose proof (inv_live _ _ _ _ Hinv) as Hlive. pose proof (inv_reserved _ _ _ _ Hinv) as Hres.
  pose proof (inv_reserved_max _ _ _ _ Hinv) as Hmax.
  destruct (admit_principal p request now st) as [[[]|e] st']; simpl in Hframe.
  - destruct Hcases as (Hpa & _ & Hpr).
    rewrite (counted_default _ _ (key_id p) Hlive) in Hpa.
    rewrite (Hres (key_id p)) in Hpr.
    eapply inv_set_quota; [done|done|apply reserved_for_range|..].
    + rewrite Hpa. pose proof (key_live_range out (queued st) no_quota (key_id p)).
      rewrite wrapping_add_u32_small by ulia.
      eapply counted_set; [done|lia|..].
      * rewrite key_live_hold. simpl. by rewrite bool_decide_true.
      * intros j Hj. rewrite key_live_hold. simpl. rewrite bool_decide_false by done. lia.
    + intros k. rewrite key_reserved_hold. unfold reserved_for, holds. cbn.
      destruct (key_reserved_parts out pend no_quota st (key_id p) Hinv) as (? & ? & _).
      destruct (limit_tokens_per_minute (limits p)) as [limit|].
      * destruct Hpr as (Hpr & Hd & _). rewrite Hpr.
        pose proof (wrapping_add_u64_range (context_tokens request) (maximum_output_tokens request)).
        fold (token_demand request) in *.
        case_bool_decide as Hk; [subst k; rewrite lookup_insert_eq|rewrite lookup_insert_ne by done].
        -- simpl. rewrite wrapping_add_u64_small; [done|]. unfold key_reserved in *. simpl in *. ulia.
        -- rewrite Hres, Z.add_0_r. done.
      * rewrite Hpr, Hres. case_bool_decide; rewrite Z.add_0_r; done.
  - destruct Hcases as [Hpa Hpr].
    eapply inv_set_quota; [done|done|done|by rewrite Hpa|]. intros k. by rewrite Hpr.
Qed.

Lemma release_principal_fields p t st :
  let key := key_id p in
  let st' := release_principal (Some p) t st in
  let active := default 0 (principal_active st !! key) in
  principal_active st' = (if active <=? 1 then delete key (principal_active st)
                          else <[key := active - 1]> (principal_active st)) ∧
  (∀ k, 0 ≤ t → 0 ≤ default 0 (principal_reserved_tokens st !! k) →
     default 0 (principal_reserved_tokens st' !! k)
     = saturating_sub (default 0 (principal_reserved_tokens st !! k))
         (if bool_decide (key = k) then t else 0)).
Proof.
  destruct st. simpl. set (key := key_id p). split; [by destruct (0 <? t)|].
  intros k Ht Hk. destruct (Z.ltb_spec 0 t); simpl.
  - case_bool_decide as Hkk.
    + subst k. destruct (Z.eqb_spec (saturating_sub (default 0 (principal_reserved_tokens !! key)) t) 0) as [E|E].
      * by rewrite lookup_delete_eq, E.
      * by rewrite lookup_insert_eq.
    + destruct (_ =? 0); [rewrite lookup_delete_ne by done|rewrite lookup_insert_ne by done]; ulia.
  - case_bool_decide; ulia.
Qed.

Lemma release_principal_frame p t st :
  let st' := release_principal p t st in
  active_requests st' = active_requests st ∧ queue_order st' = queue_order st ∧
  queued st' = queued st ∧ route_active st' = route_active st ∧ telemetry st' = telemetry st.
Proof. destruct p, st; simpl; [|done]. by destruct (0 <? t). Qed.

(** [release_principal] returns the held quota. *)
Lemma inv_release_principal out pend p t st :
  inv out pend (p, t) st → inv out pend no_quota (release_principal p t st).
Proof.
  intros Hinv. pose proof (inv_live _ _ _ _ Hinv) as Hlive.
  pose proof (inv_hold _ _ _ _ Hinv) as Ht; simpl in Ht.
  assert (∀ k, default 0 (principal_reserved_tokens st !! k)
               = key_reserved out (queued st) no_quota k + holds k p t ∧
               0 ≤ key_reserved out (queued st) no_quota k ∧ 0 ≤ holds k p t ∧
               key_reserved out (queued st) no_quota k ≤ u64_max) as Hres.
  { intros k. pose proof (inv_reserved_max _ _ _ _ Hinv k). rewrite (inv_reserved _ _ _ _ Hinv k).
    rewrite key_reserved_hold in *. destruct (key_reserved_parts _ _ _ _ k Hinv) as (? & ? & ?).
    unfold key_reserved in *. simpl in *. lia. }
  eapply inv_set_quota; [done|apply release_principal_frame|done|..].
  - destruct p as [p|]; [|eapply counted_ext; [done|]; intros k; rewrite key_live_hold; simpl; lia].
    destruct (release_principal_fields p t st) as [-> _].
    rewrite (counted_default _ _ _ Hlive). pose proof (key_live_range out (queued st) no_quota (key_id p)).
    eapply counted_decrement; [done|..]; rewrite ?key_live_hold; simpl; rewrite ?bool_decide_true by done; [lia..|].
    intros j Hj. rewrite key_live_hold. simpl. rewrite bool_decide_false by done. lia.
  - intros k. destruct (Hres k) as (Hd & ? & ? & ?). split; [|done].
    destruct p as [p|]; [|simpl in *; lia].
    destruct (release_principal_fields p t st) as [_ ->]; [|done|lia].
    rewrite Hd. simpl. ulia.
Qed.

(** ** Reservations *)

(** The reservation [reserve_route] returns. *)
Definition reservation_of (q : QueuedRequest) (route : GatewayRoute) (now : Z)
  : GatewayReservation :=
  {| res_request := q_request q; res_route := route; res_principal := q_principal q;
     res_received_at := q_received_at q; res_queued_milliseconds := waited q now;
     res_reserved_tokens := q_reserved_tokens q |}.

Lemma active_requests_None out pend hold st rid :
  inv out pend hold st → active_requests st !! rid = None ↔ out !! rid = None.
Proof. intros Hinv. rewrite (inv_active _ _ _ _ Hinv), lookup_fmap, fmap_None. done. Qed.

Lemma key_live_insert_out out q r rid k hold :
  out !! rid = None →
  key_live (<[rid := r]> out) q hold k = key_live out q hold k + lives k (res_principal r).
Proof. intros. unfold key_live. rewrite sum_by_insert by done. unfold res_lives at 1. lia. Qed.
Lemma key_reserved_insert_out out q r rid k hold :
  out !! rid = None →
  key_reserved (<[rid := r]> out) q hold k
  = key_reserved out q hold k + holds k (res_principal r) (res_reserved_tokens r).
Proof. intros. unfold key_reserved. rewrite sum_by_insert by done. unfold res_holds at 1. lia. Qed.
Lemma key_live_insert_q out qs q rid k hold :
  qs !! rid = None →
  key_live out (<[rid := q]> qs) hold k = key_live out qs hold k + lives k (q_principal q).
Proof. intros. unfold key_live. rewrite sum_by_insert by done. unfold q_lives at 1. lia. Qed.
Lemma key_reserved_insert_q out qs q rid k hold :
  qs !! rid = None →
  key_reserved out (<[rid := q]> qs) hold k
  = key_reserved out qs hold k + holds k (q_principal q) (q_reserved_tokens q).
Proof. intros. unfold key_reserved. rewrite sum_by_insert by done. unfold q_holds at 1. lia. Qed.

(** The state of [reserve_route] before its telemetry event. *)
Lemma inv_reserve_state out pend rid (res : GatewayReservation) st :
  inv out (1 + pend) (res_principal res, res_reserved_tokens res) st → 0 ≤ pend →
  request_id (res_request res) = rid → out !! rid = None → queued st !! rid = None →
  has_capacity st (res_route res) = true → max_active_requests (res_route res) ≤ u32_max →
  inv (<[rid := res]> out) pend no_quota
    (set_route_active (<[group_of res := wrapping_add_u32 (default 0 (route_active st !! group_of res)) 1]>
                         (route_active st))
       (set_active_requests (<[rid := group_of res]> (active_requests st)) st)).
Proof.
  intros Hinv Hp Hrid Hout Hq Hcap Hmax.
  unfold has_capacity, active_on in Hcap. fold (group_of res) in Hcap.
  rewrite (counted_default _ _ _ (inv_route _ _ _ _ Hinv)) in Hcap |- *.
  pose proof (sum_by_nonneg (on_group (group_of res)) out ltac:(intros; apply on_group_range)).
  rewrite wrapping_add_u32_small by ulia.
  destruct Hinv. destruct st; split; simpl in *; try done.
  - by rewrite inv_active0, fmap_insert.
  - intros id r [[<- <-]|[_ ?]]%lookup_insert_Some; eauto.
  - intros id r [[<- <-]|[_ ?]]%lookup_insert_Some; eauto.
  - intros id [r [[<- <-]|[_ ?]]%lookup_insert_Some]; eauto.
  - eapply counted_set; [done|lia|..].
    + rewrite sum_by_insert by done. unfold on_group at 1. rewrite bool_decide_true by done. lia.
    + intros j Hj. rewrite sum_by_insert by done. unfold on_group at 1.
      rewrite bool_decide_false by done. lia.
  - eapply counted_ext; [done|]. intros k. by rewrite key_live_insert_out, key_live_hold by done.
  - intros k. by rewrite inv_reserved0, key_reserved_insert_out, key_reserved_hold by done.
  - intros k. specialize (inv_reserved_max0 k).
    by rewrite key_reserved_insert_out, <- (key_reserved_hold _ _ _ (res_reserved_tokens res)) by done.
  - rewrite map_size_insert_None by done.
    replace (pend + Z.of_nat (S (size out)) + Z.of_nat (size queued))
      with (1 + pend + Z.of_nat (size out) + Z.of_nat (size queued)) by lia. done.
Qed.

Lemma inv_reserve out pend q route now st :
  let rid := request_id (q_request q) in
  inv out (1 + pend) (q_principal q, q_reserved_tokens q) st → 0 ≤ pend →
  out !! rid = None → queued st !! rid = None →
  has_capacity st route = true → max_active_requests route ≤ u32_max →
  ∃ st', reserve_route q route now st = (Ok (reservation_of q route now), st') ∧
         inv (<[rid := reservation_of q route now]> out) pend no_quota st'.
Proof.
  intros rid Hinv Hp Hout Hq Hcap Hmax.
  pose proof (inv_reserve_state out pend rid (reservation_of q route now) st
    Hinv Hp eq_refl Hout Hq Hcap Hmax) as Hinv'.
  pose proof (proj2 (active_requests_None _ _ _ _ rid Hinv) Hout) as Hnone.
  unfold reserve_route. fold rid. rewrite Hnone.
  replace (route_active (set_active_requests _ st)) with (route_active st) by (by destruct st).
  destruct (q_was_admitted q); eexists; (split; [reflexivity|]); [exact Hinv'|].
  apply inv_neutral; [auto with counting|exact Hinv'].
Qed.

Lemma inv_release_reservation out pend res st :
  let rid := request_id (res_request res) in
  inv out pend no_quota st → out !! rid = Some res →
  ∃ st', release_reservation res st = (Ok (), st') ∧ queued st' = queued st ∧
         inv (delete rid out) (1 + pend) (res_principal res, res_reserved_tokens res) st'.
Proof.
  intros rid Hinv Hout. unfold release_reservation. fold rid (group_of res).
  assert (active_requests st !! rid = Some (group_of res)) as ->
    by (by rewrite (inv_active _ _ _ _ Hinv), lookup_fmap, Hout).
  rewrite bool_decide_true by done. simpl.
  replace (route_active (set_active_requests _ st)) with (route_active st) by (by destruct st).
  pose proof (sum_by_delete (on_group (group_of res)) out rid res Hout) as Hsum.
  assert (on_group (group_of res) res = 1) as H1 by (unfold on_group; by rewrite bool_decide_true).
  pose proof (sum_by_nonneg (on_group (group_of res)) (delete rid out) ltac:(intros; apply on_group_range)).
  rewrite (inv_route _ _ _ _ Hinv (group_of res)). unfold nz.
  destruct (Z.eqb_spec (sum_by (on_group (group_of res)) out) 0); [lia|].
  eexists. split; [reflexivity|]. split; [by destruct st|].
  assert (out = <[rid := res]> (delete rid out)) as Hins by (by rewrite insert_delete_id).
  assert (delete rid out !! rid = None) as Hnone by apply lookup_delete_eq.
  pose proof (inv_pend _ _ _ _ Hinv). destruct Hinv. destruct st; split; simpl in *; try done.
  - by rewrite inv_active0, fmap_delete.
  - intros id r [_ ?]%lookup_delete_Some. eauto.
  - intros id r [_ ?]%lookup_delete_Some. eauto.
  - intros id [r [_ ?]%lookup_delete_Some]. eauto.
  - apply (counted_decrement _ (λ g, sum_by (on_group g) out)); [done|lia|simpl; lia|].
    intros j Hj. simpl. rewrite (sum_by_delete (on_group j) out rid res Hout).
    unfold on_group at 2. rewrite bool_decide_false by done. lia.
  - eapply counted_ext; [done|]. intros k. rewrite key_live_hold.
    by rewrite Hins at 2; rewrite key_live_insert_out.
  - eauto.
  - intros k. rewrite inv_reserved0, key_reserved_hold.
    by rewrite Hins at 1; rewrite key_reserved_insert_out.
  - intros k. specialize (inv_reserved_max0 k). rewrite key_reserved_hold.
    rewrite Hins in inv_reserved_max0. by rewrite key_reserved_insert_out in inv_reserved_max0.
  - lia.
  - rewrite Hins, map_size_insert_None in inv_counters0 by done.
    replace (1 + pend + Z.of_nat (size (delete rid out)) + Z.of_nat (size queued))
      with (pend + Z.of_nat (S (size (delete rid out))) + Z.of_nat (size queued)) by lia. done.
Qed.

(** ** Queue *)

Lemma inv_enqueue out pend q st :
  let rid := request_id (q_request q) in
  inv out (1 + pend) (q_principal q, q_reserved_tokens q) st → 0 ≤ pend →
  out !! rid = None → queued st !! rid = None →
  Z.of_nat (size (queued st)) < MAX_QUEUED_REQUESTS →
  inv out pend no_quota (enqueue q st).
Proof.
  intros rid Hinv Hp Hout Hq Hlt. destruct Hinv. unfold enqueue. fold rid.
  assert (rid ∉ queue_order st) as Hnew by (rewrite inv_order0, Hq; by intros [? ?]).
  destruct st; split; simpl in *; try done.
  - intros id r [[<- <-]|[_ ?]]%lookup_insert_Some; eauto.
  - intros id r [[<- <-]|[_ ?]]%lookup_insert_Some; eauto.
  - apply NoDup_app. split_and!; [done|set_solver|apply NoDup_singleton].
  - intros id. rewrite elem_of_app, list_elem_of_singleton, inv_order0.
    destruct (decide (rid = id)) as [<-|Hne].
    + rewrite lookup_insert_eq. naive_solver.
    + rewrite lookup_insert_ne by done. naive_solver.
  - intros id Hid. rewrite lookup_insert_ne; [by apply inv_disjoint0|].
    intros <-. rewrite Hout in Hid. by destruct Hid.
  - rewrite map_size_insert_None by done. lia.
  - eapply counted_ext; [done|]. intros k. by rewrite key_live_insert_q, key_live_hold by done.
  - intros k. by rewrite inv_reserved0, key_reserved_insert_q, key_reserved_hold by done.
  - intros k. specialize (inv_reserved_max0 k).
    by rewrite key_reserved_insert_q, <- (key_reserved_hold _ _ _ (q_reserved_tokens q)) by done.
  - rewrite map_size_insert_None by done.
    replace (pend + Z.of_nat (size out) + Z.of_nat (S (size queued)))
      with (1 + pend + Z.of_nat (size out) + Z.of_nat (size queued)) by lia. done.
Qed.

Lemma NoDup_bool_filter {A} (f : A → bool) l : NoDup l → NoDup (List.filter f l).
Proof. rewrite !NoDup_ListNoDup. apply List.NoDup_filter. Qed.

Lemma inv_remove_queued out pend rid q st :
  inv out pend no_quota st → queued st !! rid = Some q →
  ∃ st', remove_queued_request rid st = (Ok q, st') ∧ request_id (q_request q) = rid ∧
         out !! rid = None ∧ queued st' !! rid = None ∧ route_active st' = route_active st ∧
         inv out (1 + pend) (q_principal q, q_reserved_tokens q) st'.
Proof.
  intros Hinv Hq. unfold remove_queued_request. rewrite Hq. eexists. split; [reflexivity|].
  pose proof (inv_pend _ _ _ _ Hinv).
  assert (queued st = <[rid := q]> (delete rid (queued st))) as Hins by (by rewrite insert_delete_id).
  assert (delete rid (queued st) !! rid = None) as Hnone by apply lookup_delete_eq.
  destruct Hinv.
  split; [eauto|]. split.
  { destruct (out !! rid) eqn:E; [|done]. rewrite inv_disjoint0 in Hq; [done|eauto]. }
  split; [by destruct st|]. split; [by destruct st|].
  destruct st; split; simpl in *; try done.
  - intros id r [_ ?]%lookup_delete_Some; eauto.
  - intros id r [_ ?]%lookup_delete_Some; eauto.
  - by apply NoDup_bool_filter.
  - intros id. rewrite elem_of_filter, inv_order0, negb_true_iff, bool_decide_eq_false.
    destruct (decide (id = rid)) as [->|Hne].
    + rewrite lookup_delete_eq. split; [naive_solver|by intros [? ?]].
    + rewrite lookup_delete_ne by done. naive_solver.
  - intros id Hid. rewrite lookup_delete_None. auto.
  - rewrite map_size_delete_Some by eauto. lia.
  - eapply counted_ext; [done|]. intros k. rewrite key_live_hold.
    by rewrite Hins at 2; rewrite key_live_insert_q.
  - eauto.
  - intros k. rewrite inv_reserved0, key_reserved_hold.
    by rewrite Hins at 1; rewrite key_reserved_insert_q.
  - intros k. specialize (inv_reserved_max0 k). rewrite key_reserved_hold.
    rewrite Hins in inv_reserved_max0. by rewrite key_reserved_insert_q in inv_reserved_max0.
  - lia.
  - rewrite Hins, map_size_insert_None in inv_counters0 by done.
    replace (1 + pend + Z.of_nat (size out) + Z.of_nat (size (delete rid queued)))
      with (pend + Z.of_nat (size out) + Z.of_nat (S (size (delete rid queued)))) by lia. done.
Qed.
