(* ===== verification/GatewaySteps.v ===== *)
(** * The gateway as a concurrent state machine

    Every handler of GatewayManager mutates its state in regions run under one
    lock, so an execution of concurrent callers is an interleaving of those
    regions.  [gstep] is one region; callers own the reservations they were
    given ([sys_out]) and hand each back to one terminal region.  [reachable]
    states satisfy the accounting invariant, whatever the interleaving. *)

From S2P Require Import Prelude Ordering Values GatewayContract GatewayTelemetry.
From S2P Require Import GatewayState GatewayRouting GatewayManager GatewayInvariant.

Record System := {
  sys_out : gmap string GatewayReservation;
  sys_pend : Z;
  sys_state : GatewayState
}.

Definition system_init : System :=
  {| sys_out := ∅; sys_pend := 0; sys_state := GatewayState_default |}.

(** [NonZeroU32] capacities. *)
Definition typed_route (route : GatewayRoute) : Prop := 0 < max_active_requests route ≤ u32_max.

(** Live requests stay below the [u32] range of the per-key counter: a bound on
    the memory of the host, which holds one entry per live request. *)
Definition host_bound (s : System) : Prop :=
  Z.of_nat (size (sys_out s)) + Z.of_nat (size (queued (sys_state s))) + 1 < u32_max.

(** What the caller owns after an admission result. *)
Definition own (out : gmap string GatewayReservation) (r : GatewayReservation)
  : gmap string GatewayReservation := <[request_id (res_request r) := r]> out.

Definition after_admission (s : System) (st' : GatewayState)
    (r : result GatewayError GatewayAdmission) : System :=
  match r with
  | Ok (AdmissionGranted res) =>
    {| sys_out := own (sys_out s) res; sys_pend := sys_pend s - 1; sys_state := st' |}
  | Ok (Queued _) =>
    {| sys_out := sys_out s; sys_pend := sys_pend s - 1; sys_state := st' |}
  | Err _ => {| sys_out := sys_out s; sys_pend := sys_pend s; sys_state := st' |}
  end.

Definition after_poll (s : System) (st' : GatewayState)
    (r : result GatewayError GatewayQueueStatus) : System :=
  {| sys_out := match r with Ok (QueueAdmitted res) => own (sys_out s) res | _ => sys_out s end;
     sys_pend := sys_pend s; sys_state := st' |}.

Definition after_retry (s : System) (rid : string) (st' : GatewayState)
    (r : result GatewayError GatewayAdmission) : System :=
  {| sys_out := match r with
                | Ok (AdmissionGranted res) => own (delete rid (sys_out s)) res
                | _ => delete rid (sys_out s)
                end;
     sys_pend := sys_pend s; sys_state := st' |}.

Definition with_state (s : System) (st' : GatewayState) : System :=
  {| sys_out := sys_out s; sys_pend := sys_pend s; sys_state := st' |}.
Definition give_back (s : System) (res : GatewayReservation) (st' : GatewayState) : System :=
  {| sys_out := delete (request_id (res_request res)) (sys_out s); sys_pend := sys_pend s;
     sys_state := st' |}.
Definition owns (s : System) (res : GatewayReservation) : Prop :=
  sys_out s !! request_id (res_request res) = Some res.

Inductive gstep (s : System) : System → Prop :=
| step_received :
    c_requests_received (counters (telemetry (sys_state s))) < u64_max →
    gstep s {| sys_out := sys_out s; sys_pend := 1 + sys_pend s;
               sys_state := with_telemetry record_received (sys_state s) |}
| step_rejected :
    0 < sys_pend s →
    gstep s {| sys_out := sys_out s; sys_pend := sys_pend s - 1;
               sys_state := with_telemetry record_unrouted_failure (sys_state s) |}
| step_admit request principal recent since now routes r st' :
    0 < sys_pend s → host_bound s → Forall typed_route routes →
    admit_locked request principal recent since now routes (sys_state s) = (r, st') →
    gstep s (after_admission s st' r)
| step_poll ticket request routes now r st' :
    Forall typed_route routes →
    poll_queue_locked ticket request routes now (sys_state s) = (r, st') →
    gstep s (after_poll s st' r)
| step_cancel_queue ticket now r st' :
    cancel_queue_locked ticket now (sys_state s) = (r, st') → gstep s (with_state s st')
| step_fail_queue ticket now r st' :
    fail_queue_locked ticket now (sys_state s) = (r, st') → gstep s (with_state s st')
| step_complete res completed_at total usage i o c exact_ timing r st' :
    owns s res →
    complete_locked res completed_at total usage i o c exact_ timing (sys_state s) = (r, st') →
    gstep s (give_back s res st')
| step_cancel res timing r st' :
    owns s res → cancel_locked res timing (sys_state s) = (r, st') → gstep s (give_back s res st')
| step_fail res timing now r st' :
    owns s res → fail_locked res timing now (sys_state s) = (r, st') →
    gstep s (give_back s res st')
| step_retry res now routes r st' :
    owns s res → (∀ l, routes = Ok l → Forall typed_route l) →
    retry_locked res now routes (sys_state s) = (r, st') →
    gstep s (after_retry s (request_id (res_request res)) st' r).

Definition reachable (s : System) : Prop := rtc gstep system_init s.

Definition sys_inv (s : System) : Prop := inv (sys_out s) (sys_pend s) no_quota (sys_state s).

(** ** Every region preserves the invariant *)

Lemma selected_capacity st request routes now route :
  Forall typed_route routes → select_route st request routes now = Ok (Selected route) →
  has_capacity st route = true ∧ max_active_requests route ≤ u32_max.
Proof.
  intros Hty Hsel. apply select_route_Selected in Hsel as [Hin Hel].
  rewrite Forall_forall in Hty. unfold eligible in Hel. rewrite !andb_true_iff in Hel.
  split; [tauto|apply Hty, Hin].
Qed.

Lemma inv_route_or_queue out pend request q routes now st :
  request_id request = request_id (q_request q) →
  out !! request_id request = None → queued st !! request_id request = None →
  Forall typed_route routes → 0 ≤ pend →
  inv out (1 + pend) (q_principal q, q_reserved_tokens q) st →
  match route_or_queue request q routes now st with
  | (Ok (AdmissionGranted res), st') =>
    request_id (res_request res) = request_id request ∧
    inv (<[request_id request := res]> out) pend no_quota st'
  | (Ok (Queued _), st') => inv out pend no_quota st'
  | (Err _, st') => inv out (1 + pend) no_quota st'
  end.
Proof.
  intros Hrid Hout Hq Hty Hp Hinv. unfold route_or_queue.
  pose proof (inv_release_principal _ _ _ _ _ Hinv) as Hrel.
  destruct (select_route st request routes now) as [[route|]|e] eqn:Hsel; [| |done].
  - destruct (selected_capacity _ _ _ _ _ Hty Hsel) as [Hcap Hmax]. rewrite Hrid in *.
    destruct (inv_reserve out pend q route now st) as (st' & Hres & Hinv'); [done..|].
    unfold se_bind. rewrite Hres. done.
  - destruct (0 <? maximum_queue_milliseconds request); [|done].
    destruct (Z.leb_spec MAX_QUEUED_REQUESTS (Z.of_nat (size (queued st)))); [done|].
    rewrite Hrid in *. by apply inv_enqueue.
Qed.

Lemma load_recent_usage_queued k recent since now st :
  queued (load_recent_usage k recent since now st).2 = queued st.
Proof.
  unfold load_recent_usage. destruct (existsb _ _); [done|]. case_bool_decide; [done|]. simpl.
  transitivity (queued (set_loaded_keys ({[k]} ∪ loaded_keys st) st)); [|by destruct st].
  generalize (set_loaded_keys ({[k]} ∪ loaded_keys st) st).
  induction recent as [|u recent IH]; intros s; simpl; [done|]. rewrite IH. by destruct s.
Qed.

Lemma inv_apply_policy out pend request principal recent since now st :
  inv out pend no_quota st →
  Z.of_nat (size out) + Z.of_nat (size (queued st)) + 1 < u32_max →
  match apply_policy request principal recent since now st with
  | (Ok _, st') =>
    inv out pend (principal, reserved_for principal request) st' ∧ queued st' = queued st
  | (Err _, st') => inv out pend no_quota st'
  end.
Proof.
  intros Hinv Hb. destruct principal as [p|]; simpl; [|done].
  unfold se_bind.
  pose proof (inv_load_recent_usage _ _ _ (key_id p) recent since now _ Hinv) as Hl.
  pose proof (load_recent_usage_queued (key_id p) recent since now st) as Hq.
  destruct (load_recent_usage _ _ _ _ _) as [[[]|e] st1]; simpl in *; [|done].
  pose proof (inv_admit_principal out pend p request now st1 Hl) as Ha.
  pose proof (admit_principal_frame p request now st1) as (_ & _ & Hq' & _).
  destruct (admit_principal p request now st1) as [[[]|e] st2]; simpl in *.
  - split; [apply Ha; by rewrite Hq|congruence].
  - apply Ha. by rewrite Hq.
Qed.

Lemma require_new_request_Ok out pend hold st rid :
  inv out pend hold st → require_new_request st rid = Ok () →
  out !! rid = None ∧ queued st !! rid = None.
Proof.
  unfold require_new_request. intros Hinv Hr. rewrite <- (active_requests_None _ _ _ _ _ Hinv).
  destruct (bool_decide _) eqn:H1; [done|]. destruct (bool_decide (is_Some (queued st !! rid))) eqn:H2; [done|].
  apply bool_decide_eq_false in H1, H2. by rewrite <- !eq_None_not_Some in *.
Qed.

Lemma inv_admit_locked s request principal recent since now routes :
  sys_inv s → 0 < sys_pend s → host_bound s → Forall typed_route routes →
  let '(r, st') := admit_locked request principal recent since now routes (sys_state s) in
  sys_inv (after_admission s st' r).
Proof.
  destruct s as [out pend st]. unfold sys_inv, host_bound. simpl. intros Hinv Hp Hb Hty.
  unfold admit_locked. destruct (require_new_request st (request_id request)) as [[]|e] eqn:Hnew; [|done].
  destruct (require_new_request_Ok _ _ _ _ _ Hinv Hnew) as [Hout Hq].
  pose proof (inv_apply_policy out pend request principal recent since now st Hinv Hb) as Hpol.
  unfold se_bind. destruct (apply_policy _ _ _ _ _ _) as [[[]|e] st1]; [|done].
  destruct Hpol as [Hpol Hqs].
  match goal with |- context [route_or_queue request ?q routes now st1] => set (qr := q) end.
  pose proof (inv_route_or_queue out (pend - 1) request qr routes now st1) as H.
  rewrite Hqs in H. replace (1 + (pend - 1)) with pend in H by lia.
  specialize (H eq_refl Hout Hq Hty ltac:(lia) Hpol).
  destruct (route_or_queue _ _ _ _ _) as [[[res|id]|e] st2]; simpl; [|done|done].
  destruct H as [Hid H]. unfold own. by rewrite Hid.
Qed.

(** A request taken from the queue that ends with a terminal event. *)
Lemma inv_drop_queued out pend q f st :
  terminal_event f → 0 ≤ pend →
  inv out (1 + pend) (q_principal q, q_reserved_tokens q) st →
  inv out pend no_quota
    (with_telemetry f (release_principal (q_principal q) (q_reserved_tokens q) st)).
Proof. intros Hf Hp Hinv. apply inv_terminal; [done..|]. by apply inv_release_principal. Qed.

Lemma inv_drop_queue_locked s event (ticket : string) now :
  (∀ t, terminal_event (event t)) → sys_inv s →
  sys_inv (with_state s (drop_queue_locked event ticket now (sys_state s)).2).
Proof.
  intros He Hinv. destruct s as [out pend st]. unfold sys_inv in *. simpl in *.
  unfold drop_queue_locked. destruct (queued st !! ticket) as [q|] eqn:Hq.
  - destruct (inv_remove_queued _ _ _ _ _ Hinv Hq) as (st' & -> & _ & _ & _ & _ & Hinv').
    simpl. apply inv_drop_queued; [done|by eapply inv_pend|done].
  - unfold remove_queued_request. by rewrite Hq.
Qed.

Lemma has_capacity_ext st st' route :
  route_active st' = route_active st → has_capacity st' route = has_capacity st route.
Proof. unfold has_capacity, active_on. by intros ->. Qed.

Lemma inv_poll_queue_locked s (ticket : string) request routes now :
  sys_inv s → Forall typed_route routes →
  let '(r, st') := poll_queue_locked ticket request routes now (sys_state s) in
  sys_inv (after_poll s st' r).
Proof.
  destruct s as [out pend st]. unfold sys_inv, after_poll. simpl. intros Hinv Hty.
  unfold poll_queue_locked, GatewayQueueTicket. destruct (queued st !! ticket) as [q|] eqn:Hq; [|done].
  destruct (inv_remove_queued _ _ _ _ _ Hinv Hq) as (st' & Hrem & Hid & Hout & Hq' & Hra & Hinv').
  pose proof (inv_pend _ _ _ _ Hinv). destruct (_ <? waited q now).
  { rewrite Hrem. simpl. apply inv_drop_queued; auto with counting. }
  destruct (is_behind _ _ _); [done|].
  destruct (select_route st request routes now) as [[route|]|e] eqn:Hsel; [|done..].
  destruct (selected_capacity _ _ _ _ _ Hty Hsel) as [Hcap Hmax].
  unfold se_bind. rewrite Hrem. rewrite <- Hid in Hout, Hq'.
  destruct (inv_reserve out pend q route now st') as (st2 & -> & Hinv2); [done..| |done|done].
  by rewrite (has_capacity_ext st st').
Qed.

(** A reservation handed back that ends with a terminal event. *)
Lemma inv_finish out pend res f st :
  terminal_event f → 0 ≤ pend →
  inv out (1 + pend) (res_principal res, res_reserved_tokens res) st →
  inv out pend no_quota
    (with_telemetry f (release_principal (res_principal res) (res_reserved_tokens res) st)).
Proof. intros Hf Hp Hinv. apply inv_terminal; [done..|]. by apply inv_release_principal. Qed.

Lemma inv_cancel_locked s res timing :
  sys_inv s → owns s res →
  (cancel_locked res timing (sys_state s)).1 = Ok () ∧
  sys_inv (give_back s res (cancel_locked res timing (sys_state s)).2).
Proof.
  destruct s as [out pend st]. unfold sys_inv, owns. simpl. intros Hinv Hown.
  destruct (inv_release_reservation _ _ _ _ Hinv Hown) as (st' & Hrel & _ & Hinv').
  unfold cancel_locked. rewrite Hrel. split; [done|].
  simpl. apply inv_finish; [auto with counting|by eapply inv_pend|done].
Qed.

Lemma inv_fail_locked s res timing now :
  sys_inv s → owns s res →
  (fail_locked res timing now (sys_state s)).1 = result_map (λ _, ()) now ∧
  sys_inv (give_back s res (fail_locked res timing now (sys_state s)).2).
Proof.
  destruct s as [out pend st]. unfold sys_inv, owns. simpl. intros Hinv Hown.
  destruct (inv_release_reservation _ _ _ _ Hinv Hown) as (st' & Hrel & _ & Hinv').
  pose proof (inv_pend _ _ _ _ Hinv).
  unfold fail_locked. rewrite Hrel. destruct now as [now|e]; (split; [done|]); simpl.
  - apply inv_terminal; [auto with counting|done|].
    by apply inv_mark_route_failure, inv_release_principal.
  - by apply inv_finish; auto with counting.
Qed.

Lemma inv_complete_locked s res completed_at total usage i o c exact_ timing :
  sys_inv s → owns s res →
  (complete_locked res completed_at total usage i o c exact_ timing (sys_state s)).1 = Ok () ∧
  sys_inv (give_back s res
    (complete_locked res completed_at total usage i o c exact_ timing (sys_state s)).2).
Proof.
  destruct s as [out pend st]. unfold sys_inv, owns. simpl. intros Hinv Hown.
  destruct (inv_release_reservation _ _ _ _ Hinv Hown) as (st1 & Hrel & _ & Hinv1).
  pose proof (inv_pend _ _ _ _ Hinv). unfold complete_locked. rewrite Hrel. split; [done|]. simpl.
  match goal with |- context [match res_principal res with None => ?s | _ => _ end] => set (st2 := s) end.
  assert (inv (delete (request_id (res_request res)) out) (1 + pend)
            (res_principal res, res_reserved_tokens res) st2) as Hinv2.
  { unfold st2. destruct completed_at; [|done].
    destruct (prefix_key _); [apply inv_record_prefix_affinity|]; by apply inv_mark_route_success. }
  match goal with |- context [match res_principal res with None => st2 | Some p => @?f p end] =>
    set (st3 := match res_principal res with None => st2 | Some p => f p end) end.
  assert (inv (delete (request_id (res_request res)) out) (1 + pend) no_quota st3) as Hinv3.
  { unfold st3. pose proof (inv_release_principal _ _ _ _ _ Hinv2) as Hr.
    destruct (res_principal res); [|done].
    destruct completed_at; [|done]. destruct total; [|done]. by apply inv_push_token_window. }
  destruct completed_at as [at_|], total, usage; apply inv_terminal; auto with counting.
Qed.

Lemma inv_abandon_retry out pend res st :
  0 ≤ pend → inv out (1 + pend) (res_principal res, res_reserved_tokens res) st →
  inv out pend no_quota (abandon_retry res st).
Proof. intros. apply inv_finish; auto with counting. Qed.

Lemma inv_retry_locked s res now routes :
  sys_inv s → owns s res → (∀ l, routes = Ok l → Forall typed_route l) →
  let '(r, st') := retry_locked res now routes (sys_state s) in
  sys_inv (after_retry s (request_id (res_request res)) st' r).
Proof.
  destruct s as [out pend st]. unfold sys_inv, owns, after_retry. simpl. intros Hinv Hown Hty.
  destruct (inv_release_reservation _ _ _ _ Hinv Hown) as (st1 & Hrel & Hqs & Hinv1).
  pose proof (inv_pend _ _ _ _ Hinv) as Hp. unfold retry_locked. rewrite Hrel.
  set (rid := request_id (res_request res)) in *.
  destruct now as [now|e]; [|by apply inv_abandon_retry].
  pose proof (inv_mark_route_failure _ _ _ (placement_group_id (res_route res)) now _ Hinv1) as Hinv2.
  assert (queued st1 !! rid = None) as Hq.
  { rewrite Hqs. apply (inv_disjoint _ _ _ _ Hinv). eauto. }
  destruct routes as [routes|e]; [|by apply inv_abandon_retry].
  specialize (Hty routes eq_refl).
  set (st2 := mark_route_failure (placement_group_id (res_route res)) now st1) in *.
  assert (queued st2 !! rid = None) as Hq2 by (by destruct st1).
  assert (delete rid out !! rid = None) as Hout by apply lookup_delete_eq.
  destruct (select_route st2 (res_request res) routes now) as [[route|]|e] eqn:Hsel;
    [| |by apply inv_abandon_retry].
  - destruct (selected_capacity _ _ _ _ _ Hty Hsel) as [Hcap Hmax].
    destruct (inv_reserve (delete rid out) pend (retry_queued res now) route now st2)
      as (st3 & -> & Hinv3); [done..|]. simpl.
    apply inv_neutral; [auto with counting|done].
  - destruct ((0 <? _) && _); [|by apply inv_abandon_retry].
    destruct (Z.leb_spec MAX_QUEUED_REQUESTS (Z.of_nat (size (queued st2)))); [by apply inv_abandon_retry|].
    apply inv_neutral; [auto with counting|]. by apply inv_enqueue.
Qed.

Lemma gstep_inv s s' : gstep s s' → sys_inv s → sys_inv s'.
Proof.
  intros Hstep Hinv. destruct Hstep as [Hlt|Hp|request principal recent since now routes r st' Hp Hb Hty E
    |ticket request routes now r st' Hty E|ticket now r st' E|ticket now r st' E
    |res ca total usage i o c ex timing r st' Hown E|res timing r st' Hown E
    |res timing now r st' Hown E|res now routes r st' Hown Hty E].
  - by apply inv_received.
  - apply inv_terminal; [auto with counting|simpl; lia|simpl].
    replace (1 + (sys_pend s - 1)) with (sys_pend s) by lia. exact Hinv.
  - pose proof (inv_admit_locked s request principal recent since now routes Hinv Hp Hb Hty) as H.
    by rewrite E in H.
  - pose proof (inv_poll_queue_locked s ticket request routes now Hinv Hty) as H. by rewrite E in H.
  - pose proof (inv_drop_queue_locked s (record_cancelled None) ticket now
      ltac:(auto with counting) Hinv) as H. unfold cancel_queue_locked in E. by rewrite E in H.
  - pose proof (inv_drop_queue_locked s record_unrouted_failure_with_timing ticket now
      ltac:(auto with counting) Hinv) as H. unfold fail_queue_locked in E. by rewrite E in H.
  - pose proof (inv_complete_locked s res ca total usage i o c ex timing Hinv Hown) as [_ H].
    by rewrite E in H.
  - pose proof (inv_cancel_locked s res timing Hinv Hown) as [_ H]. by rewrite E in H.
  - pose proof (inv_fail_locked s res timing now Hinv Hown) as [_ H]. by rewrite E in H.
  - pose proof (inv_retry_locked s res now routes Hinv Hown Hty) as H. by rewrite E in H.
Qed.

Lemma reachable_inv s : reachable s → sys_inv s.
Proof.
  unfold reachable. intros Hr. assert (sys_inv system_init) as Hinit by exact inv_init.
  revert Hinit. induction Hr as [|x y z Hxy _ IH]; [done|]. intros Hx. by apply IH, (gstep_inv x).
Qed.
