(* ===== verification/GatewayGuarantees.v ===== *)
(** * What the live gateway guarantees

    Consequences of the accounting invariant for every reachable state and
    every interleaving of concurrent callers: exact counters, capacity and
    quota bounds, FIFO order and no leaks. *)

From S2P Require Import Prelude Ordering Values GatewayContract GatewayTelemetry.
From S2P Require Import GatewayState GatewayRouting GatewayManager GatewayInvariant.
From S2P Require Import GatewaySteps.

Definition has_key (k : string) (p : option GatewayPrincipal) : Prop :=
  match p with Some p => key_id p = k | None => False end.
#[export] Instance has_key_dec k p : Decision (has_key k p).
Proof. unfold has_key. destruct p; apply _. Defined.

(** Outstanding reservations on a group, and live requests of a key. *)
Definition group_outstanding (s : System) (g : string) : Z :=
  count_by (λ r, group_of r = g) (sys_out s).
Definition key_outstanding (s : System) (k : string) : Z :=
  count_by (λ r, has_key k (res_principal r)) (sys_out s)
  + count_by (λ q, has_key k (q_principal q)) (queued (sys_state s)).

Lemma group_outstanding_active s g :
  sys_inv s → default 0 (route_active (sys_state s) !! g) = group_outstanding s g.
Proof.
  intros Hinv. rewrite (counted_default _ _ _ (inv_route _ _ _ _ Hinv)).
  by apply sum_by_count.
Qed.

Lemma lives_has_key k p : lives k p = if bool_decide (has_key k p) then 1 else 0.
Proof. destruct p; simpl; [|done]. by repeat case_bool_decide. Qed.

Lemma key_outstanding_live s k :
  key_outstanding s k = key_live (sys_out s) (queued (sys_state s)) no_quota k.
Proof.
  unfold key_live, key_outstanding. simpl. rewrite Z.add_0_r.
  f_equal; symmetry; apply sum_by_count; intros; apply lives_has_key.
Qed.

Lemma key_outstanding_active s k :
  sys_inv s → default 0 (principal_active (sys_state s) !! k) = key_outstanding s k.
Proof.
  intros Hinv. rewrite (counted_default _ _ _ (inv_live _ _ _ _ Hinv)).
  symmetry. apply key_outstanding_live.
Qed.

(** ** A small execution used by the witnesses *)

Module RunExample.
Definition route : GatewayRoute := SelectExample.route "g1" "n1" [].
Definition request : GatewayRequest := SelectExample.request.
Definition principal : GatewayPrincipal := QuotaExample.principal.
Definition s1 : System :=
  {| sys_out := ∅; sys_pend := 1;
     sys_state := with_telemetry record_received GatewayState_default |}.
Definition admitted := admit_locked request (Some principal) [] 0 5 [route] (sys_state s1).
Definition s2 : System := after_admission s1 admitted.2 admitted.1.
Definition res : GatewayReservation :=
  {| res_request := request; res_route := route; res_principal := Some principal;
     res_received_at := 5; res_queued_milliseconds := 0; res_reserved_tokens := 30 |}.

Lemma typed_routes : Forall typed_route [route].
Proof. repeat constructor; by vm_compute. Defined.
Lemma reachable_s1 : reachable s1.
Proof. apply rtc_once. apply (step_received system_init). by vm_compute. Defined.
Lemma step_s2 : gstep s1 s2.
Proof.
  apply (step_admit s1 request (Some principal) [] 0 5 [route]);
    [by vm_compute|by vm_compute|exact typed_routes|apply surjective_pairing].
Defined.
Lemma reachable_s2 : reachable s2.
Proof. eapply rtc_r; [exact reachable_s1|exact step_s2]. Defined.
Lemma owns_s2 : owns s2 res.
Proof. vm_compute. reflexivity. Defined.
End RunExample.

(** ** Exact accounting *)

(** C1: in every state reachable by concurrent callers, the live counter
    of each placement group is the number of outstanding reservations on it, the
    live counter of each key is the number of its outstanding and queued
    requests, the queue is a duplicate-free order of at most 1024 waiting
    requests none of which holds a reservation, and every received request is
    pending, queued, outstanding, completed, failed or cancelled. *)
Theorem gateway_accounting_is_exact s :
  reachable s →
  let st := sys_state s in
  let c := counters (telemetry st) in
  (∀ g, default 0 (route_active st !! g) = group_outstanding s g) ∧
  (∀ k, default 0 (principal_active st !! k) = key_outstanding s k) ∧
  NoDup (queue_order st) ∧ (∀ id, id ∈ queue_order st ↔ is_Some (queued st !! id)) ∧
  Z.of_nat (size (queued st)) ≤ 1024 ∧
  (∀ id, is_Some (sys_out s !! id) → queued st !! id = None) ∧
  c_requests_received c = sys_pend s + Z.of_nat (size (queued st)) + Z.of_nat (size (sys_out s))
    + c_requests_completed c + c_requests_failed c + c_requests_cancelled c.
Proof.
  intros Hr%reachable_inv. pose proof (inv_counters _ _ _ _ Hr) as [Hc _ _ _ _].
  split_and!; try (by destruct Hr); [| |lia].
  - intros g. by apply group_outstanding_active.
  - intros k. by apply key_outstanding_active.
Qed.

Lemma gateway_accounting_is_exact_witness :
  let st := sys_state RunExample.s2 in
  let c := counters (telemetry st) in
  (∀ g, default 0 (route_active st !! g) = group_outstanding RunExample.s2 g) ∧
  (∀ k, default 0 (principal_active st !! k) = key_outstanding RunExample.s2 k) ∧
  NoDup (queue_order st) ∧ (∀ id, id ∈ queue_order st ↔ is_Some (queued st !! id)) ∧
  Z.of_nat (size (queued st)) ≤ 1024 ∧
  (∀ id, is_Some (sys_out RunExample.s2 !! id) → queued st !! id = None) ∧
  c_requests_received c = sys_pend RunExample.s2 + Z.of_nat (size (queued st))
    + Z.of_nat (size (sys_out RunExample.s2))
    + c_requests_completed c + c_requests_failed c + c_requests_cancelled c.
Proof. exact (gateway_accounting_is_exact RunExample.s2 RunExample.reachable_s2). Defined.

(** ** Capacity *)

Lemma active_on_nonneg out pend hold st route : inv out pend hold st → 0 ≤ active_on st route.
Proof.
  intros Hinv. unfold active_on. rewrite (counted_default _ _ _ (inv_route _ _ _ _ Hinv)).
  apply sum_by_nonneg. intros. apply on_group_range.
Qed.

(** A granted reservation leaves its group within capacity. *)
Lemma grant_bound out pend hold q request routes route now st st1 res st' :
  inv out pend hold st → Forall typed_route routes →
  select_route st request routes now = Ok (Selected route) → route_active st1 = route_active st →
  reserve_route q route now st1 = (Ok res, st') →
  active_on st' (res_route res) ≤ max_active_requests (res_route res).
Proof.
  intros Hinv Hty Hsel Hra. destruct (selected_capacity _ _ _ _ _ Hty Hsel) as [Hcap Hmax].
  pose proof (active_on_nonneg _ _ _ _ route Hinv) as Hnn. unfold has_capacity, active_on in *.
  rewrite <- Hra in *. destruct st1. unfold reserve_route. simpl in *.
  destruct (active_requests !! _); [done|]. intros [= <- <-]. simpl.
  destruct (q_was_admitted q); simpl; rewrite lookup_insert_eq; simpl;
    rewrite wrapping_add_u32_small by ulia; lia.
Qed.

Lemma admit_locked_grants s request principal recent since now routes res st' :
  sys_inv s → host_bound s → Forall typed_route routes →
  admit_locked request principal recent since now routes (sys_state s) = (Ok (AdmissionGranted res), st') →
  active_on st' (res_route res) ≤ max_active_requests (res_route res).
Proof.
  intros Hinv Hb Hty. unfold admit_locked.
  destruct (require_new_request _ _) as [[]|]; [|done].
  pose proof (inv_apply_policy _ _ request principal recent since now _ Hinv Hb) as Hpol.
  unfold se_bind. destruct (apply_policy _ _ _ _ _ _) as [[[]|e] st1]; [|done].
  destruct Hpol as [Hpol _]. unfold route_or_queue.
  destruct (select_route st1 request routes now) as [[route|]|e] eqn:Hsel; [| |done].
  - unfold se_bind. destruct (reserve_route _ route now st1) as [[res'|e] st2] eqn:Hres; [|done].
    intros [= <- <-]. by eapply (grant_bound _ _ _ _ _ _ _ _ st1).
  - destruct (0 <? _); [|done]. by destruct (_ <=? _).
Qed.

Lemma poll_queue_locked_grants s (ticket : string) request routes now res st' :
  sys_inv s → Forall typed_route routes →
  poll_queue_locked ticket request routes now (sys_state s) = (Ok (QueueAdmitted res), st') →
  active_on st' (res_route res) ≤ max_active_requests (res_route res).
Proof.
  intros Hinv Hty. unfold poll_queue_locked, GatewayQueueTicket.
  destruct (queued (sys_state s) !! ticket) as [q|] eqn:Hq; [|done].
  destruct (inv_remove_queued _ _ _ _ _ Hinv Hq) as (st1 & Hrem & _ & _ & _ & Hra & _).
  rewrite Hrem. destruct (_ <? _); [done|]. destruct (is_behind _ _ _); [done|].
  destruct (select_route _ _ _ _) as [[route|]|e] eqn:Hsel; [|done..].
  unfold se_bind. rewrite Hrem.
  destruct (reserve_route _ route now st1) as [[res'|e] st2] eqn:Hres; [|done].
  intros [= <- <-]. by eapply (grant_bound _ _ _ _ _ _ _ _ (sys_state s) st1).
Qed.

Lemma retry_locked_grants s old now routes res st' :
  sys_inv s → owns s old → (∀ l, routes = Ok l → Forall typed_route l) →
  retry_locked old now routes (sys_state s) = (Ok (AdmissionGranted res), st') →
  active_on st' (res_route res) ≤ max_active_requests (res_route res).
Proof.
  intros Hinv Hown Hty. unfold retry_locked.
  destruct (inv_release_reservation _ _ _ _ Hinv Hown) as (st1 & -> & _ & Hinv1).
  destruct now as [now|]; [|done]. destruct routes as [routes|]; [|done].
  pose proof (inv_mark_route_failure _ _ _ (placement_group_id (res_route old)) now _ Hinv1) as Hinv2.
  set (st2 := mark_route_failure _ _ _) in *.
  destruct (select_route _ _ _ _) as [[route|]|e] eqn:Hsel; [| |done].
  - destruct (reserve_route _ route now st2) as [[res'|e] st3] eqn:Hres; [|done].
    intros [= <- <-]. unfold active_on. simpl.
    replace (route_active (with_telemetry _ st3)) with (route_active st3) by (by destruct st3).
    by eapply (grant_bound _ _ _ _ _ _ _ _ st2 st2 res' st3); [done|apply Hty| | |].
  - destruct ((0 <? _) && _); [|done]. by destruct (_ <=? _).
Qed.

Lemma owns_own out (r res : GatewayReservation) :
  own out r !! request_id (res_request res) = Some res →
  r = res ∨ out !! request_id (res_request res) = Some res.
Proof. unfold own. intros [[_ ->]|[_ ?]]%lookup_insert_Some; auto. Qed.

(** C2: whichever region grants a reservation (admission, queue or retry)
    under any interleaving, its placement group then has at most as many
    outstanding reservations as the selected route allows. *)
Theorem granted_reservation_is_within_capacity s s' res :
  reachable s → gstep s s' → owns s' res → ¬ owns s res →
  group_outstanding s' (group_of res) ≤ max_active_requests (res_route res).
Proof.
  intros Hr%reachable_inv Hstep Hown Hnew.
  rewrite <- (group_outstanding_active s') by (by eapply gstep_inv).
  change (active_on (sys_state s') (res_route res) ≤ max_active_requests (res_route res)).
  unfold owns in *.
  destruct Hstep as [Hlt|Hp|request principal recent since now routes r st' Hp Hb Hty E
    |ticket request routes now r st' Hty E|ticket now r st' E|ticket now r st' E
    |res0 ca total usage i o c ex timing r st' Hown0 E|res0 timing r st' Hown0 E
    |res0 timing now r st' Hown0 E|res0 now routes r st' Hown0 Hty E]; simpl in *;
    try done; try (apply lookup_delete_Some in Hown as [_ Hown]; done).
  - destruct r as [[res'|?]|?]; simpl in *; [|done..].
    destruct (owns_own _ _ _ Hown) as [->|?]; [|done]. by eapply admit_locked_grants.
  - destruct r as [[|res']|?]; [done| |done].
    destruct (owns_own _ _ _ Hown) as [->|?]; [|done]. by eapply poll_queue_locked_grants.
  - destruct r as [[res'|?]|?];
      [|by apply lookup_delete_Some in Hown as [_ ?]|by apply lookup_delete_Some in Hown as [_ ?]].
    destruct (owns_own _ _ _ Hown) as [->|?%lookup_delete_Some]; [|by destruct H].
    by eapply retry_locked_grants.
Qed.

Lemma granted_reservation_is_within_capacity_witness :
  owns RunExample.s2 RunExample.res ∧
  group_outstanding RunExample.s2 (group_of RunExample.res)
    ≤ max_active_requests (res_route RunExample.res).
Proof.
  split; [exact RunExample.owns_s2|].
  apply (granted_reservation_is_within_capacity RunExample.s1 RunExample.s2 RunExample.res).
  - exact RunExample.reachable_s1.
  - exact RunExample.step_s2.
  - exact RunExample.owns_s2.
  - vm_compute. intros [=].
Defined.

(** ** Terminal calls and leaks *)

(** Taking one reservation away. *)
Lemma group_outstanding_spent s res st' g :
  owns s res →
  group_outstanding (give_back s res st') g
    = group_outstanding s g - if bool_decide (group_of res = g) then 1 else 0.
Proof.
  intros Hown. unfold group_outstanding. simpl. rewrite <- !(sum_by_count _ (on_group g)) by done.
  rewrite (sum_by_delete _ (sys_out s) _ _ Hown). unfold on_group at 2. lia.
Qed.
Lemma key_outstanding_spent s res st' k :
  owns s res → queued st' = queued (sys_state s) →
  key_outstanding (give_back s res st') k
    = key_outstanding s k - if bool_decide (has_key k (res_principal res)) then 1 else 0.
Proof.
  intros Hown Hq. unfold key_outstanding. simpl. rewrite Hq.
  rewrite <- !(sum_by_count (λ r, has_key k (res_principal r)) (λ r, lives k (res_principal r)))
    by (intros; apply lives_has_key).
  rewrite (sum_by_delete _ (sys_out s) _ _ Hown), lives_has_key. lia.
Qed.

Lemma counted_zero_empty c f : counted c f → (∀ k, f k = 0) → c = ∅.
Proof. intros Hc Hf. apply map_eq. intros k. by rewrite Hc, Hf, lookup_empty. Qed.

(** No caller holds a reservation and nothing waits. *)
Definition drained (s : System) : Prop := sys_out s = ∅ ∧ queued (sys_state s) = ∅.

(** once no caller holds a reservation and nothing is queued, every
    live counter and every token reservation is gone: nothing leaks, whichever
    mix of completions, failures, cancellations, retries and expiries led there. *)
Theorem drained_gateway_leaks_nothing s :
  reachable s → drained s →
  active_requests (sys_state s) = ∅ ∧ route_active (sys_state s) = ∅ ∧
  principal_active (sys_state s) = ∅ ∧ queue_order (sys_state s) = [] ∧
  ∀ k, default 0 (principal_reserved_tokens (sys_state s) !! k) = 0.
Proof.
  intros Hr%reachable_inv [Hout Hq]. unfold sys_inv in Hr. rewrite Hout in Hr. split_and!.
  - by rewrite (inv_active _ _ _ _ Hr), fmap_empty.
  - eapply counted_zero_empty; [exact (inv_route _ _ _ _ Hr)|]. intros. apply sum_by_empty.
  - eapply counted_zero_empty; [exact (inv_live _ _ _ _ Hr)|]. intros. unfold key_live.
    by rewrite Hq, !sum_by_empty.
  - destruct (queue_order (sys_state s)) as [|id l] eqn:Ho; [done|].
    destruct (proj1 (inv_order _ _ _ _ Hr id)) as [? Hid]; [rewrite Ho; set_solver|].
    by rewrite Hq, lookup_empty in Hid.
  - intros k. rewrite (inv_reserved _ _ _ _ Hr). unfold key_reserved. by rewrite Hq, !sum_by_empty.
Qed.

Module DrainExample.
Definition cancelled := cancel_locked RunExample.res GatewayTelemetryTiming_default
  (sys_state RunExample.s2).
Definition s3 : System := give_back RunExample.s2 RunExample.res cancelled.2.
Lemma reachable_s3 : reachable s3.
Proof.
  eapply rtc_r; [exact RunExample.reachable_s2|].
  eapply (step_cancel RunExample.s2 RunExample.res GatewayTelemetryTiming_default _ cancelled.2);
    [exact RunExample.owns_s2|apply surjective_pairing].
Defined.
End DrainExample.

Lemma drained_gateway_leaks_nothing_witness :
  active_requests (sys_state DrainExample.s3) = ∅ ∧ route_active (sys_state DrainExample.s3) = ∅ ∧
  principal_active (sys_state DrainExample.s3) = ∅ ∧ queue_order (sys_state DrainExample.s3) = [] ∧
  ∀ k, default 0 (principal_reserved_tokens (sys_state DrainExample.s3) !! k) = 0.
Proof.
  apply (drained_gateway_leaks_nothing DrainExample.s3);
    [exact DrainExample.reachable_s3|split; vm_compute; reflexivity].
Defined.

(** ** Quotas under concurrency *)

Lemma apply_policy_quota out pend p request recent since now st st' :
  inv out pend no_quota st →
  Z.of_nat (size out) + Z.of_nat (size (queued st)) + 1 < u32_max →
  apply_policy request (Some p) recent since now st = (Ok (), st') →
  (∀ limit, limit_concurrency (limits p) = Some limit →
     key_live out (queued st) no_quota (key_id p) < limit) ∧
  (∀ limit, limit_tokens_per_minute (limits p) = Some limit →
     key_reserved out (queued st) no_quota (key_id p) + token_demand request ≤ limit).
Proof.
  intros Hinv Hb. simpl. unfold se_bind.
  pose proof (inv_load_recent_usage _ _ _ (key_id p) recent since now _ Hinv) as Hl.
  pose proof (load_recent_usage_queued (key_id p) recent since now st) as Hq.
  destruct (load_recent_usage _ _ _ _ _) as [[[]|e] st1]; simpl in *; [|done].
  pose proof (admit_principal_cases p request now st1) as Hc. cbv zeta in Hc.
  rewrite (counted_default _ _ _ (inv_live _ _ _ _ Hl)), (inv_reserved _ _ _ _ Hl), Hq in Hc.
  destruct (admit_principal p request now st1) as [[[]|e] st2]; [|done]. intros _.
  destruct Hc as (_ & Hcon & Htok). split; [exact Hcon|].
  intros limit Hlim. rewrite Hlim in Htok. apply Htok.
Qed.

(** What a successful [route_or_queue] adds. *)
Lemma route_or_queue_adds request q routes now st :
  match route_or_queue request q routes now st with
  | (Ok (AdmissionGranted res), st') =>
    res_request res = q_request q ∧ res_principal res = q_principal q ∧
    res_reserved_tokens res = q_reserved_tokens q ∧ queued st' = queued st
  | (Ok (Queued _), st') => queued st' = <[request_id (q_request q) := q]> (queued st)
  | (Err _, _) => True
  end.
Proof.
  unfold route_or_queue. destruct (select_route _ _ _ _) as [[route|]|e]; [| |done].
  - unfold se_bind, reserve_route. destruct (active_requests st !! _); [done|].
    destruct st, (q_was_admitted q); done.
  - destruct (0 <? _); [|done]. destruct (_ <=? _); [done|]. by destruct st.
Qed.

Lemma admit_locked_delta s p request recent since now routes a st' :
  sys_inv s → host_bound s →
  admit_locked request (Some p) recent since now routes (sys_state s) = (Ok a, st') →
  let s' := after_admission s st' (Ok a) in
  (∀ limit, limit_concurrency (limits p) = Some limit →
     key_live (sys_out s') (queued (sys_state s')) no_quota (key_id p) ≤ limit) ∧
  (∀ limit, limit_tokens_per_minute (limits p) = Some limit →
     key_reserved (sys_out s') (queued st') no_quota (key_id p) ≤ limit).
Proof.
  intros Hr Hb Hadm. unfold admit_locked in Hadm.
  destruct (require_new_request _ _) as [[]|] eqn:Hnew; [|done].
  destruct (require_new_request_Ok _ _ _ _ _ Hr Hnew) as [Hout Hq].
  pose proof (inv_apply_policy _ _ request (Some p) recent since now _ Hr Hb) as Hpol.
  pose proof (apply_policy_quota _ _ p request recent since now _ (apply_policy request (Some p) recent since now (sys_state s)).2 Hr Hb) as Hquota.
  unfold se_bind in Hadm.
  destruct (apply_policy request (Some p) recent since now (sys_state s)) as [[[]|e] st1]; [|done].
  destruct (Hquota eq_refl) as [Hcon Htok]. destruct Hpol as [_ Hqs].
  match type of Hadm with route_or_queue request ?q routes now st1 = _ => set (qr := q) in Hadm end.
  pose proof (route_or_queue_adds request qr routes now st1) as Hadds. rewrite Hadm, Hqs in Hadds.
  destruct a as [res|id]; simpl.
  - destruct Hadds as (Hreq & Hp & Ht & ->). unfold own. rewrite Hreq.
    rewrite key_live_insert_out, key_reserved_insert_out, Hp, Ht by done. simpl.
    rewrite !bool_decide_true by done. unfold reserved_for. simpl.
    split; intros limit Hlim; [specialize (Hcon limit Hlim); lia|].
    rewrite Hlim. by apply Htok.
  - rewrite Hadds, key_live_insert_q, key_reserved_insert_q by done. simpl.
    rewrite !bool_decide_true by done. unfold reserved_for. simpl.
    split; intros limit Hlim; [specialize (Hcon limit Hlim); lia|].
    rewrite Hlim. by apply Htok.
Qed.

(** an admission that grants or queues a request of a key leaves
    that key with at most its configured number of live requests, counted over
    the actual outstanding and queued requests, and with at most its configured
    tokens reserved by them. *)
Theorem admitted_key_is_within_quota s p request recent since now routes a st' :
  reachable s → 0 < sys_pend s → host_bound s → Forall typed_route routes →
  admit_locked request (Some p) recent since now routes (sys_state s) = (Ok a, st') →
  let s' := after_admission s st' (Ok a) in
  (∀ limit, limit_concurrency (limits p) = Some limit → key_outstanding s' (key_id p) ≤ limit) ∧
  (∀ limit, limit_tokens_per_minute (limits p) = Some limit →
     default 0 (principal_reserved_tokens st' !! key_id p) ≤ limit).
Proof.
  intros Hr%reachable_inv Hp Hb Hty Hadm s'.
  pose proof (inv_admit_locked s request (Some p) recent since now routes Hr Hp Hb Hty) as Hinv'.
  rewrite Hadm in Hinv'. fold s' in Hinv'.
  destruct (admit_locked_delta s p request recent since now routes a st' Hr Hb Hadm)
    as [Hlive Hres]. fold s' in Hlive.
  split; intros limit Hlim.
  - specialize (Hlive limit Hlim). by rewrite key_outstanding_live.
  - pose proof (inv_reserved _ _ _ _ Hinv' (key_id p)) as Hd. unfold s' in Hd.
    replace (sys_state (after_admission s st' (Ok a))) with st' in Hd by (by destruct a).
    rewrite Hd. by apply Hres.
Qed.

Lemma admitted_key_is_within_quota_witness :
  host_bound RunExample.s1 ∧
  (∀ limit, limit_concurrency (limits RunExample.principal) = Some limit →
     key_outstanding RunExample.s2 "k" ≤ limit) ∧
  (∀ limit, limit_tokens_per_minute (limits RunExample.principal) = Some limit →
     default 0 (principal_reserved_tokens (sys_state RunExample.s2) !! "k"%string) ≤ limit).
Proof.
  split; [by vm_compute|].
  apply (admitted_key_is_within_quota RunExample.s1 RunExample.principal RunExample.request [] 0 5
    [RunExample.route] (AdmissionGranted RunExample.res) RunExample.admitted.2).
  - exact RunExample.reachable_s1.
  - by vm_compute.
  - by vm_compute.
  - exact RunExample.typed_routes.
  - vm_compute. reflexivity.
Defined.

(** ** Queue order *)

Definition waits_for_model (st : GatewayState) (model id : string) : Prop :=
  ∃ q, queued st !! id = Some q ∧ request_model (q_request q) = model.

Lemma find_app_first {A} (f : A → bool) l1 x l2 :
  x ∉ l1 → f x = true → List.find f (l1 ++ x :: l2) = Some x ↔ ∀ y, y ∈ l1 → f y = false.
Proof.
  intros Hx Hf. induction l1 as [|z l1 IH]; simpl.
  - rewrite Hf. split; [set_solver|done].
  - destruct (f z) eqn:Hz.
    + split; [intros [= ->]; set_solver|]. intros H. rewrite H in Hz; [done|set_solver].
    + rewrite IH by set_solver. split.
      * intros H y [->|?]%elem_of_cons; auto.
      * intros H y ?. apply H. set_solver.
Qed.

(** [is_behind] is exactly the presence of an earlier waiter of the same model. *)
Lemma is_behind_false st ticket model l1 l2 :
  NoDup (queue_order st) → queue_order st = l1 ++ ticket :: l2 → waits_for_model st model ticket →
  is_behind st ticket model = false ↔ ∀ id, id ∈ l1 → ¬ waits_for_model st model id.
Proof.
  intros Hnd Ho (q & Hq & Hm). unfold is_behind.
  set (same := λ id, match queued st !! id with
                     | Some c => bool_decide (request_model (q_request c) = model)
                     | None => false end).
  assert (∀ id, same id = true ↔ waits_for_model st model id) as Hsame.
  { intros id. unfold same, waits_for_model. destruct (queued st !! id); [|naive_solver].
    rewrite bool_decide_eq_true. naive_solver. }
  assert (∀ id, same id = false ↔ ¬ waits_for_model st model id) as Hsame'.
  { intros id. rewrite <- Hsame. destruct (same id); naive_solver. }
  rewrite Ho in *. apply NoDup_app in Hnd as (_ & Hl1 & _).
  assert (ticket ∉ l1) by (intros H; specialize (Hl1 _ H); set_solver).
  assert (same ticket = true) as Ht by (apply Hsame; by exists q).
  rewrite andb_false_iff, negb_false_iff, bool_decide_eq_true, find_app_first by done. split.
  - intros [He|Hf] id Hid; apply Hsame'; [|by apply Hf].
    apply (existsb_false _ _ id) in He; [|set_solver].
    apply andb_false_iff in He as [He|He]; [|done].
    apply negb_false_iff, bool_decide_eq_true in He. by subst.
  - intros Hf. right. intros y Hy. by apply Hsame', Hf.
Qed.

Lemma select_route_Selected_iff st request routes now :
  Forall has_positive_capacity routes →
  (∃ route, select_route st request routes now = Ok (Selected route)) ↔
  ∃ route, route ∈ routes ∧ eligible st request now route = true.
Proof.
  intros Hpos. split.
  - intros [route [??]%select_route_Selected]. by exists route.
  - intros (route & Hin & He). pose proof (select_route_meets_spec st request routes now Hpos) as Hs.
    unfold eligible in He. rewrite !andb_true_iff in He. destruct He as [[[Hr Hf] Hc] Hcap].
    destruct (select_route st request routes now) as [[r|]|e]; [by exists r| |].
    + destruct Hs as [_ Hs]. specialize (Hs route Hin). unfold eligible in Hs.
      by rewrite Hr, Hf, Hc, Hcap in Hs.
    + destruct e; try done.
      * destruct Hs as [_ Hs]. by rewrite (Hs route Hin Hr) in Hf.
      * by rewrite (Hs route Hin Hr Hf) in Hc.
Qed.

(** polling a waiting request that has not outstayed its bound grants it
    a reservation exactly when no request of the same model was queued before it
    and some offered route is eligible; a request that outstayed its bound
    expires and leaves the queue. *)
Theorem poll_grants_first_waiter_of_model s (ticket : string) q l1 l2 routes now :
  reachable s → queued (sys_state s) !! ticket = Some q →
  queue_order (sys_state s) = l1 ++ ticket :: l2 → Forall typed_route routes →
  let st := sys_state s in
  let request := q_request q in
  let poll := poll_queue_locked ticket request routes now st in
  (waited q now ≤ maximum_queue_milliseconds request →
     (∃ res, poll.1 = Ok (QueueAdmitted res)) ↔
     (∀ id, id ∈ l1 → ¬ waits_for_model st (request_model request) id) ∧
     (∃ route, route ∈ routes ∧ eligible st request now route = true)) ∧
  (maximum_queue_milliseconds request < waited q now →
     poll.1 = Err QueueExpired ∧ queued poll.2 = delete ticket (queued st)).
Proof.
  intros Hr%reachable_inv Hq Ho Hty st request poll.
  assert (Forall has_positive_capacity routes) as Hpos.
  { eapply Forall_impl; [exact Hty|]. unfold typed_route, has_positive_capacity. lia. }
  destruct (inv_remove_queued _ _ _ _ _ Hr Hq) as (st1 & Hrem & Hid & Hout & Hq1 & Hra & Hinv1).
  unfold poll, poll_queue_locked, GatewayQueueTicket. fold st in Hq, Hrem. rewrite Hq.
  split; intros Hw.
  - destruct (Z.ltb_spec (maximum_queue_milliseconds request) (waited q now)); [lia|].
    pose proof (is_behind_false st ticket (request_model request) l1 l2
      (inv_order_nodup _ _ _ _ Hr) Ho (ex_intro _ q (conj Hq eq_refl))) as Hb.
    pose proof (select_route_Selected_iff st request routes now Hpos) as Hsel.
    rewrite <- Hb, <- Hsel. destruct (is_behind st ticket _).
    { split; [intros [? [=]]|intros [? _]; done]. }
    destruct (select_route st request routes now) as [[route|]|e] eqn:Hs.
    + unfold se_bind. rewrite Hrem. destruct (selected_capacity _ _ _ _ _ Hty Hs) as [Hcap Hmax].
      rewrite <- Hid in Hout, Hq1.
      destruct (inv_reserve _ _ q route now st1 Hinv1 (inv_pend _ _ _ _ Hr) Hout Hq1)
        as (st2 & -> & _); [by rewrite (has_capacity_ext st st1)|done|].
      split; [by intros _; split; [|exists route]|by eexists].
    + split; [by intros [? [=]]|by intros [_ [? [=]]]].
    + split; [by intros [? [=]]|by intros [_ [? [=]]]].
  - destruct (Z.ltb_spec (maximum_queue_milliseconds request) (waited q now)); [|lia].
    rewrite Hrem. split; [done|]. simpl.
    pose proof (release_principal_frame (q_principal q) (q_reserved_tokens q) st1) as (_ & _ & Hf & _).
    transitivity (queued st1); [rewrite <- Hf; by destruct (release_principal _ _ st1)|].
    unfold remove_queued_request in Hrem. rewrite Hq in Hrem. injection Hrem as <-. by destruct st.
Qed.

(** A queued request behind a full route of capacity one. *)
Module QueueExample.
Definition route : GatewayRoute :=
  {| placement_group_id := "g1"; endpoint_node_id := "n1"; route_model := "m";
     target := ChildRelay "10.0.0.2"; max_active_requests := 1; max_context_tokens := 100;
     healthy := true; memory_pressure := false; temperature_millicelsius := None;
     prefix_keys := [] |}.
Definition request (id : string) : GatewayRequest :=
  {| request_id := id; request_model := "m"; context_tokens := 10; maximum_output_tokens := 20;
     prefix_key := None; maximum_queue_milliseconds := 1000 |}.
Definition receive (s : System) : System :=
  {| sys_out := sys_out s; sys_pend := 1 + sys_pend s;
     sys_state := with_telemetry record_received (sys_state s) |}.
Definition admit_step (id : string) (now : Z) (s : System) : System :=
  let r := admit_locked (request id) None [] 0 now [route] (sys_state (receive s)) in
  after_admission (receive s) r.2 r.1.
Definition a : System := admit_step "a" 1 system_init.
Definition ab : System := admit_step "b" 2 a.
Definition abc : System := admit_step "c" 3 ab.

Lemma reachable_admit_step id now s :
  reachable s → c_requests_received (counters (telemetry (sys_state s))) < u64_max →
  0 < sys_pend (receive s) → host_bound (receive s) → reachable (admit_step id now s).
Proof.
  intros Hr Hc Hp Hb. eapply rtc_r; [eapply rtc_r; [exact Hr|by apply step_received]|].
  unfold admit_step. eapply step_admit; [exact Hp|exact Hb| |apply surjective_pairing].
  repeat constructor; by vm_compute.
Defined.
Lemma reachable_abc : reachable abc.
Proof.
  repeat (apply reachable_admit_step; [|by vm_compute..]). apply rtc_refl.
Defined.

(** [b] waits first, [c] behind it, and [a] holds the only slot. *)
Example queue_abc : queue_order (sys_state abc) = ["b"; "c"]%string.
Proof. vm_compute. reflexivity. Qed.
End QueueExample.

Lemma poll_grants_first_waiter_of_model_witness :
  ∃ q, queued (sys_state QueueExample.abc) !! "c"%string = Some q ∧
  let st := sys_state QueueExample.abc in
  let poll := poll_queue_locked "c"%string (q_request q) [QueueExample.route] 10 st in
  (waited q 10 ≤ maximum_queue_milliseconds (q_request q) →
     (∃ res, poll.1 = Ok (QueueAdmitted res)) ↔
     (∀ id, id ∈ ["b"%string] → ¬ waits_for_model st (request_model (q_request q)) id) ∧
     (∃ route, route ∈ [QueueExample.route] ∧ eligible st (q_request q) 10 route = true)) ∧
  (maximum_queue_milliseconds (q_request q) < waited q 10 →
     poll.1 = Err QueueExpired ∧ queued poll.2 = delete "c"%string (queued st)).
Proof.
  eexists. split; [vm_compute; reflexivity|].
  refine (poll_grants_first_waiter_of_model QueueExample.abc "c" _ ["b"%string] []
    [QueueExample.route] 10 QueueExample.reachable_abc _ _ _).
  - vm_compute. reflexivity.
  - vm_compute. reflexivity.
  - repeat constructor; by vm_compute.
Defined.
