(* ===== verification/GatewayHandlers.v ===== *)
(** * Handlers: route protection and refinement to atomic steps

    The public handlers compose provider calls, which may change the world and
    the platform lease states but never the live state, with locked regions.
    Every handler call is therefore a finite sequence of [gstep]s, the routes it hands
    to selection were all checked, and the calls that end a reservation give it back. *)

From S2P Require Import Prelude Ordering Values GatewayContract GatewayTelemetry.
From S2P Require Import GatewayState GatewayRouting GatewayProtection GatewayMacos.
From S2P Require Import GatewayManager GatewayInvariant GatewaySteps GatewayGuarantees.

Create Rewrite HintDb queue.

Section handlers.
Context {W : Type} `{!GatewayProviders W}.
Implicit Types gm : GatewayManager W.

(** ** Provider calls do not touch the live state *)

Definition preserves {A} (c : SE (GatewayManager W) GatewayError A) : Prop :=
  ∀ gm, state (c gm).2 = state gm ∧ mode (c gm).2 = mode gm.

Lemma preserves_ret {A} (a : A) : preserves (se_ret a).
Proof. done. Qed.
Lemma preserves_fail {A} e : preserves (se_fail (A := A) e).
Proof. done. Qed.
Lemma preserves_bind {A B} (c : SE (GatewayManager W) GatewayError A) (k : A → SE _ _ B) :
  preserves c → (∀ a, preserves (k a)) → preserves (se_bind c k).
Proof.
  intros Hc Hk gm. unfold se_bind. specialize (Hc gm). destruct (c gm) as [[a|e] gm']; [|done].
  destruct (Hk a gm'), Hc. simpl in *. split; congruence.
Qed.
Lemma preserves_call {A} (f : W → result GatewayError A * W) : preserves (call f).
Proof. intros gm. unfold call. destruct gm, (f _). done. Qed.
Lemma preserves_get_mode : preserves get_mode.
Proof. done. Qed.

Lemma preserves_judge route : preserves (judge route).
Proof.
  intros gm. unfold judge. destruct (placement_safety gm).
  - apply preserves_bind; [apply preserves_call|]. intros [snapshot|]; [|apply preserves_ret].
    apply preserves_bind; [apply preserves_call|]. intros now gm'.
    destruct gm'. by destruct (accepts _ _ _ _).
  - apply preserves_bind; [apply preserves_call|]. intros [snapshot|]; [|apply preserves_ret].
    apply preserves_bind; [apply preserves_call|]. intros now gm'.
    destruct gm'. by destruct (macos_accepts _ _ _ _).
Qed.

Lemma preserves_protect_routes m model ids acc routes :
  preserves (protect_routes m model ids acc routes).
Proof.
  revert ids acc. induction routes as [|r routes IH]; intros ids acc; simpl; [apply preserves_ret|].
  destruct (_ || _); [apply preserves_fail|]. destruct (negb _); [apply preserves_fail|].
  destruct (is_relayed m r); [apply IH|].
  apply preserves_bind; [apply preserves_judge|intros; apply IH].
Qed.

Lemma preserves_current_routes model : preserves (current_routes model).
Proof.
  apply preserves_bind; [apply preserves_call|]. intros routes.
  apply preserves_bind; [apply preserves_get_mode|]. intros. apply preserves_protect_routes.
Qed.

Lemma preserves_is_loaded key : preserves (is_loaded key).
Proof. intros gm. by destruct gm. Qed.

Lemma preserves_recent_usage p since : preserves (recent_usage p since).
Proof.
  destruct p as [p|]; simpl; [|apply preserves_ret].
  apply preserves_bind; [apply preserves_is_loaded|]. intros [|]; [apply preserves_ret|apply preserves_call].
Qed.

(** ** Only checked routes reach selection *)

Definition judged (route : GatewayRoute) : Prop :=
  ∃ gm gm', judge route gm = (Ok true, gm').

Definition route_checked (m : GatewayMode) (model : string) (route : GatewayRoute) : Prop :=
  route_model route = model ∧ route_is_allowed m route = true ∧
  (is_relayed m route = true ∨ judged route).

Lemma protect_routes_checked m model ids acc routes gm out gm' :
  protect_routes m model ids acc routes gm = (Ok out, gm') →
  Forall (route_checked m model) acc → NoDup (placement_group_id <$> acc) →
  (∀ g, g ∈ placement_group_id <$> acc → g ∈ ids) →
  Forall (route_checked m model) out ∧ NoDup (placement_group_id <$> out) ∧
  (∀ r, r ∈ out → r ∈ acc ∨ r ∈ routes).
Proof.
  revert ids acc gm. induction routes as [|r routes IH]; intros ids acc gm; simpl.
  { intros [= <- <-]. auto. }
  destruct (negb (bool_decide (route_model r = model)) || bool_decide (placement_group_id r ∈ ids))
    eqn:Hdup; [done|].
  apply orb_false_iff in Hdup as [Hm Hid]. apply negb_false_iff, bool_decide_eq_true in Hm.
  apply bool_decide_eq_false in Hid.
  destruct (negb (route_is_allowed m r)) eqn:Hal; [done|]. apply negb_false_iff in Hal.
  assert (∀ ids' gm1 acc', ids' = {[placement_group_id r]} ∪ ids →
    (acc' = acc ∨ acc' = acc ++ [r] ∧ route_checked m model r) →
    protect_routes m model ids' acc' routes gm1 = (Ok out, gm') →
    Forall (route_checked m model) acc → NoDup (placement_group_id <$> acc) →
    (∀ g, g ∈ placement_group_id <$> acc → g ∈ ids) →
    Forall (route_checked m model) out ∧ NoDup (placement_group_id <$> out) ∧
    (∀ r', r' ∈ out → r' ∈ acc ∨ r' ∈ r :: routes)) as Hstep.
  { intros ids' gm1 acc' -> [->|[-> Hchk]] Hrun Hacc Hnd Hids.
    - destruct (IH _ _ _ Hrun Hacc Hnd) as (? & ? & Hsub); [set_solver|].
      split_and!; [done|done|set_solver].
    - destruct (IH _ _ _ Hrun) as (? & ? & Hsub).
      + apply Forall_app. auto.
      + rewrite fmap_app. apply NoDup_app. split_and!; [done|set_solver|apply NoDup_singleton].
      + rewrite fmap_app. set_solver.
      + split_and!; [done|done|set_solver]. }
  destruct (is_relayed m r) eqn:Hrel.
  - intros Hrun. eapply Hstep; [done| |exact Hrun]. right. split; [done|]. repeat split; auto.
  - unfold se_bind. destruct (judge r gm) as [[b|e] gm1] eqn:Hj; [|done].
    intros Hrun. eapply Hstep; [done| |exact Hrun].
    destruct b; [right|by left]. split; [done|]. repeat split; auto. right. by exists gm, gm1.
Qed.

(** the routes a handler selects from are of the requested model,
    one per placement group, allowed for the gateway's role (a child routes
    only to an Engine endpoint of its own node) and, except for relays to
    child gateways, each accepted by the platform safety check. *)
Theorem current_routes_are_protected model gm routes gm' :
  current_routes model gm = (Ok routes, gm') →
  Forall (route_checked (mode gm) model) routes ∧ NoDup (placement_group_id <$> routes) ∧
  (∀ local main r, mode gm = Child local main → r ∈ routes →
     endpoint_node_id r = local ∧ (∃ e, target r = LocalEngine e) ∧ judged r).
Proof.
  unfold current_routes, se_bind. destruct (call (provider_routes model) gm) as [[l|e] gm1] eqn:Hc; [|done].
  assert (mode gm1 = mode gm) as Hmode.
  { pose proof (preserves_call (provider_routes model) gm) as [_ H]. by rewrite Hc in H. }
  simpl. rewrite Hmode. intros Hrun.
  destruct (protect_routes_checked _ _ _ _ _ _ _ _ Hrun) as (Hchk & Hnd & _);
    [constructor|constructor|set_solver|].
  split; [done|]. split; [done|]. intros local main r Hm Hr.
  rewrite Forall_forall in Hchk. destruct (Hchk r Hr) as (_ & Hal & Hj).
  rewrite Hm in Hal, Hj. unfold route_is_allowed, is_relayed in *.
  destruct (target r) as [e|]; [|done]. apply bool_decide_eq_true in Hal.
  destruct Hj; [done|]. eauto.
Qed.

(** ** Handlers as sequences of atomic steps *)

(** Topology providers return [GatewayRoute] values, whose capacity is a
    [NonZeroU32]. *)
Definition typed_providers : Prop :=
  ∀ model w routes w', provider_routes model w = (Ok routes, w') → Forall typed_route routes.

Lemma current_routes_typed model gm routes gm' :
  typed_providers → current_routes model gm = (Ok routes, gm') → Forall typed_route routes.
Proof.
  intros Hty. unfold current_routes, se_bind.
  destruct (call (provider_routes model) gm) as [[l|e] gm1] eqn:Hc; [|done].
  unfold call in Hc. destruct (provider_routes model (world gm)) as [r w] eqn:Hp.
  injection Hc as -> <-. apply Hty in Hp. simpl. intros Hrun.
  destruct (protect_routes_checked _ _ _ _ _ _ _ _ Hrun) as (_ & _ & Hsub);
    [constructor|constructor|set_solver|].
  rewrite Forall_forall in Hp |- *. intros r Hr. apply Hp.
  destruct (Hsub r Hr) as [?|?]; [set_solver|done].
Qed.

Inductive Call :=
| CAdmitPublic (bearer_token : string) (request : GatewayRequest)
| CAdmitRelay (relay_credential : string) (request : GatewayRequest)
| CPollQueue (ticket : string)
| CCancelQueue (ticket : string)
| CFailQueue (ticket : string)
| CComplete (res : GatewayReservation) (i o c : Z) (exact_ : bool) (timing : GatewayTelemetryTiming)
| CCancel (res : GatewayReservation)
| CRetry (res : GatewayReservation)
| CFail (res : GatewayReservation) (timing : GatewayTelemetryTiming).

(** The reservations the caller owns after a call, from its result. *)
Definition gained (out : gmap string GatewayReservation)
    (r : result GatewayError GatewayAdmission) : gmap string GatewayReservation :=
  match r with Ok (AdmissionGranted res) => own out res | _ => out end.
Definition gained_poll (out : gmap string GatewayReservation)
    (r : result GatewayError GatewayQueueStatus) : gmap string GatewayReservation :=
  match r with Ok (QueueAdmitted res) => own out res | _ => out end.
Definition spent (out : gmap string GatewayReservation) (res : GatewayReservation)
  : gmap string GatewayReservation := delete (request_id (res_request res)) out.

(** Run a call; returns what the caller owns and the manager afterwards. *)
Definition run_call (call_ : Call) (out : gmap string GatewayReservation) gm
  : gmap string GatewayReservation * GatewayManager W :=
  match call_ with
  | CAdmitPublic token request =>
    let r := admit_public token request gm in (gained out r.1, r.2)
  | CAdmitRelay credential request =>
    let r := admit_relay credential request gm in (gained out r.1, r.2)
  | CPollQueue ticket => let r := poll_queue ticket gm in (gained_poll out r.1, r.2)
  | CCancelQueue ticket => (out, (cancel_queue ticket gm).2)
  | CFailQueue ticket => (out, (fail_queue ticket gm).2)
  | CComplete res i o c exact_ timing =>
    (spent out res, (complete_request res i o c exact_ timing gm).2)
  | CCancel res => (spent out res, (cancel res gm).2)
  | CRetry res => let r := retry_before_output res gm in (gained (spent out res) r.1, r.2)
  | CFail res timing => (spent out res, (fail_reservation res timing gm).2)
  end.

Definition sys_of (out : gmap string GatewayReservation) (pend : Z) gm : System :=
  {| sys_out := out; sys_pend := pend; sys_state := state gm |}.

(** What the callers and the host guarantee before a call. *)
Definition call_ok (call_ : Call) (s : System) : Prop :=
  match call_ with
  | CAdmitPublic _ _ | CAdmitRelay _ _ =>
    host_bound s ∧ 0 ≤ sys_pend s ∧ c_requests_received (counters (telemetry (sys_state s))) < u64_max
  | CComplete res _ _ _ _ _ | CCancel res | CRetry res | CFail res _ => owns s res
  | _ => True
  end.

Lemma state_set_state st gm : state (set_state st gm) = st.
Proof. by destruct gm. Qed.

(** The outcome of a computation that only consults providers. *)
Lemma preserves_state {A} (c : SE (GatewayManager W) GatewayError A) gm r gm' :
  preserves c → c gm = (r, gm') → state gm' = state gm.
Proof. intros Hc E. destruct (Hc gm) as [H _]. by rewrite E in H. Qed.

Lemma admit_steps out pend gm request principal :
  typed_providers → 0 < pend → host_bound (sys_of out pend gm) →
  let r := admit_request request principal gm in
  match r.1 with
  | Err _ => rtc gstep (sys_of out pend gm) (sys_of out pend r.2)
  | Ok _ => rtc gstep (sys_of out pend gm) (sys_of (gained out r.1) (pend - 1) r.2)
  end.
Proof.
  intros Hty Hp Hb. unfold admit_request, se_bind.
  destruct (call clock_now gm) as [[now|e] gm1] eqn:H1; simpl;
    (apply (preserves_state _ _ _ _ (preserves_call clock_now)) in H1).
  2: { unfold sys_of. by rewrite H1. }
  destruct (current_routes (request_model request) gm1) as [[routes|e] gm2] eqn:H2; simpl.
  2: { apply (preserves_state _ _ _ _ (preserves_current_routes _)) in H2. unfold sys_of. by rewrite H2, H1. }
  pose proof (current_routes_typed _ _ _ _ Hty H2) as Hr.
  apply (preserves_state _ _ _ _ (preserves_current_routes _)) in H2.
  set (since := saturating_sub now _).
  destruct (recent_usage principal since gm2) as [[recent|e] gm3] eqn:H3; simpl;
    (apply (preserves_state _ _ _ _ (preserves_recent_usage _ _)) in H3).
  2: { unfold sys_of. by rewrite H3, H2, H1. }
  unfold locked. rewrite H3, H2, H1.
  destruct (admit_locked request principal recent since now routes (state gm)) as [r st'] eqn:H4.
  pose proof (step_admit (sys_of out pend gm) request principal recent since now routes r st'
    Hp Hb Hr H4) as Hstep.
  destruct r as [[res|id]|e]; simpl in *; apply rtc_once; unfold sys_of at 2;
    rewrite state_set_state; exact Hstep.
Qed.

(** An admission attempt counts one pending request down on success only. *)
Definition admission_steps (c : SE (GatewayManager W) GatewayError GatewayAdmission) : Prop :=
  ∀ out pend gm, 0 < pend → host_bound (sys_of out pend gm) →
  match (c gm).1 with
  | Err _ => rtc gstep (sys_of out pend gm) (sys_of out pend (c gm).2)
  | Ok _ => rtc gstep (sys_of out pend gm) (sys_of (gained out (c gm).1) (pend - 1) (c gm).2)
  end.

Lemma admission_steps_fail e : admission_steps (se_fail e).
Proof. intros out pend gm _ _. apply rtc_refl. Qed.

Lemma admission_steps_bind {A} (c : SE (GatewayManager W) GatewayError A) k :
  preserves c → (∀ a, admission_steps (k a)) → admission_steps (se_bind c k).
Proof.
  intros Hc Hk out pend gm Hp Hb. unfold se_bind.
  destruct (c gm) as [[a|e] gm1] eqn:E; apply (preserves_state _ _ _ _ Hc) in E; simpl.
  - specialize (Hk a out pend gm1 Hp). unfold sys_of in *. rewrite E in Hk. by apply Hk.
  - unfold sys_of. rewrite E. apply rtc_refl.
Qed.

(** [record_received], the attempt, and [record_unrouted_failure] on failure. *)
Lemma received_admission_steps c out pend gm :
  admission_steps c → 0 ≤ pend → host_bound (sys_of out pend gm) →
  c_requests_received (counters (telemetry (state gm))) < u64_max →
  let r := (run! telemetry_event record_received in record_initial_failure c) gm in
  rtc gstep (sys_of out pend gm) (sys_of (gained out r.1) pend r.2).
Proof.
  intros Hc Hp Hb Hrec. unfold telemetry_event, locked, record_initial_failure, se_bind.
  set (gm1 := set_state (with_telemetry record_received (state gm)) gm).
  assert (state gm1 = with_telemetry record_received (state gm)) as Hst by apply state_set_state.
  assert (gstep (sys_of out pend gm) (sys_of out (1 + pend) gm1)) as Hstep.
  { unfold sys_of. rewrite Hst. by apply (step_received (sys_of out pend gm)). }
  assert (host_bound (sys_of out (1 + pend) gm1)) as Hb1.
  { unfold host_bound, sys_of in *. simpl in *. rewrite Hst. by destruct (state gm). }
  specialize (Hc out (1 + pend) gm1 ltac:(lia) Hb1).
  destruct (c gm1) as [[a|e] gm2]; simpl in *.
  - eapply rtc_l; [exact Hstep|]. by replace (1 + pend - 1) with pend in Hc by lia.
  - eapply rtc_l; [exact Hstep|]. eapply rtc_r; [exact Hc|].
    pose proof (step_rejected (sys_of out (1 + pend) gm2) ltac:(simpl; lia)) as Hrej.
    simpl in Hrej. replace (1 + pend - 1) with pend in Hrej by lia.
    unfold sys_of at 2. by rewrite state_set_state.
Qed.

Lemma admit_admission_steps request principal :
  typed_providers → admission_steps (admit_request request principal).
Proof. intros Hty out pend gm. by apply admit_steps. Qed.

Lemma admit_public_steps token request out pend gm :
  typed_providers → 0 ≤ pend → host_bound (sys_of out pend gm) →
  c_requests_received (counters (telemetry (state gm))) < u64_max →
  let r := admit_public token request gm in
  rtc gstep (sys_of out pend gm) (sys_of (gained out r.1) pend r.2).
Proof.
  intros Hty. apply received_admission_steps.
  apply admission_steps_bind; [apply preserves_get_mode|]. intros [local|local main].
  - apply admission_steps_bind; [apply preserves_call|]. intros. by apply admit_admission_steps.
  - apply admission_steps_fail.
Qed.

Lemma admit_relay_steps credential request out pend gm :
  typed_providers → 0 ≤ pend → host_bound (sys_of out pend gm) →
  c_requests_received (counters (telemetry (state gm))) < u64_max →
  let r := admit_relay credential request gm in
  rtc gstep (sys_of out pend gm) (sys_of (gained out r.1) pend r.2).
Proof.
  intros Hty. apply received_admission_steps.
  apply admission_steps_bind; [apply preserves_get_mode|]. intros m.
  destruct (main_node_id m); [|apply admission_steps_fail].
  apply admission_steps_bind; [apply preserves_call|]. intros.
  case_bool_decide; [by apply admit_admission_steps|apply admission_steps_fail].
Qed.

Lemma poll_queue_steps (ticket : string) out pend gm :
  typed_providers →
  let r := poll_queue ticket gm in
  rtc gstep (sys_of out pend gm) (sys_of (gained_poll out r.1) pend r.2).
Proof.
  intros Hty. unfold poll_queue, se_bind.
  destruct (call clock_now gm) as [[now|e] gm1] eqn:H1; simpl;
    (apply (preserves_state _ _ _ _ (preserves_call clock_now)) in H1).
  2: { unfold sys_of. rewrite H1. apply rtc_refl. }
  unfold locked at 1 2. set (gm2 := set_state (state gm1) gm1).
  assert (state gm2 = state gm) as H2 by (unfold gm2; by rewrite state_set_state).
  destruct (ok_or RequestNotFound _) as [request|e]; simpl;
    [|unfold sys_of; rewrite H2; apply rtc_refl].
  destruct (current_routes (request_model request) gm2) as [[routes|e] gm3] eqn:H3; simpl.
  2: { apply (preserves_state _ _ _ _ (preserves_current_routes _)) in H3.
       unfold sys_of. rewrite H3, H2. apply rtc_refl. }
  pose proof (current_routes_typed _ _ _ _ Hty H3) as Hr.
  apply (preserves_state _ _ _ _ (preserves_current_routes _)) in H3.
  unfold locked. rewrite H3, H2.
  destruct (poll_queue_locked ticket request routes now (state gm)) as [r st'] eqn:H4.
  apply rtc_once. simpl. unfold sys_of at 2. rewrite state_set_state.
  exact (step_poll (sys_of out pend gm) ticket request routes now r st' Hr H4).
Qed.

(** A handler that reads the clock and then runs one region. *)
Lemma clock_then_step {A} (f : Z → SE GatewayState GatewayError A) out pend gm :
  (∀ now s, sys_state s = state gm → gstep s (with_state s (f now (sys_state s)).2)) →
  rtc gstep (sys_of out pend gm)
    (sys_of out pend ((do! now <- call clock_now in locked (f now)) gm).2).
Proof.
  intros Hf. unfold se_bind. destruct (call clock_now gm) as [[now|e] gm1] eqn:H1;
    (apply (preserves_state _ _ _ _ (preserves_call clock_now)) in H1); simpl.
  2: { unfold sys_of. rewrite H1. apply rtc_refl. }
  apply rtc_once. unfold locked. rewrite H1. specialize (Hf now (sys_of out pend gm) eq_refl).
  simpl in Hf. destruct (f now (state gm)) as [r st'].
  cbn [snd]. unfold sys_of at 2. rewrite state_set_state. exact Hf.
Qed.

Lemma locked_state {A} (f : SE GatewayState GatewayError A) gm :
  state (locked f gm).2 = (f (state gm)).2 ∧ (locked f gm).1 = (f (state gm)).1.
Proof. unfold locked. destruct (f (state gm)). split; [apply state_set_state|done]. Qed.

Lemma try_call_state {A} (c : SE (GatewayManager W) GatewayError A) gm :
  preserves c → ∃ r gm', try_call c gm = (Ok r, gm') ∧ state gm' = state gm ∧ c gm = (r, gm').
Proof.
  intros Hc. unfold try_call. destruct (c gm) as [r gm'] eqn:E.
  exists r, gm'. split_and!; [done| |done]. by apply (preserves_state c gm r).
Qed.

Lemma cancel_steps res out pend gm :
  owns (sys_of out pend gm) res →
  gstep (sys_of out pend gm) (sys_of (spent out res) pend (cancel res gm).2).
Proof.
  intros Hown. unfold cancel, sys_of at 2.
  match goal with |- context [locked ?f gm] => destruct (locked_state f gm) as [-> _] end.
  by eapply (step_cancel (sys_of out pend gm)); [|apply surjective_pairing].
Qed.

Lemma fail_reservation_steps res timing out pend gm :
  owns (sys_of out pend gm) res →
  gstep (sys_of out pend gm) (sys_of (spent out res) pend (fail_reservation res timing gm).2).
Proof.
  intros Hown. unfold fail_reservation, se_bind.
  destruct (try_call_state (call clock_now) gm (preserves_call _)) as (now & gm1 & -> & H1 & _).
  unfold sys_of at 2.
  match goal with |- context [locked ?f gm1] => destruct (locked_state f gm1) as [-> _] end.
  rewrite H1. by eapply (step_fail (sys_of out pend gm)); [|apply surjective_pairing].
Qed.

Lemma complete_request_steps res i o c exact_ timing out pend gm :
  owns (sys_of out pend gm) res →
  gstep (sys_of out pend gm)
    (sys_of (spent out res) pend (complete_request res i o c exact_ timing gm).2).
Proof.
  intros Hown. unfold complete_request, se_bind.
  destruct (try_call_state (call clock_now) gm (preserves_call _)) as (at_ & gm1 & -> & H1 & _).
  set (total := ok_or _ _). set (usage := match at_ with Ok _ => _ | Err _ => _ end).
  match goal with |- context [locked ?f gm1] =>
    destruct (locked_state f gm1) as [H2 _]; destruct (locked f gm1) as [r gm2] end.
  simpl in H2. rewrite H1 in H2.
  assert (gstep (sys_of out pend gm) (sys_of (spent out res) pend gm2)) as Hstep.
  { unfold sys_of at 2. rewrite H2.
    by eapply (step_complete (sys_of out pend gm)); [|apply surjective_pairing]. }
  destruct r as [[]|e]; [|exact Hstep].
  destruct usage as [[u|]|e]; [|exact Hstep..].
  destruct (call (usage_record u) gm2) as [r3 gm3] eqn:H3.
  apply (preserves_state _ _ _ _ (preserves_call _)) in H3.
  replace (sys_of (spent out res) pend gm2) with (sys_of (spent out res) pend gm3) in Hstep
    by (unfold sys_of; by rewrite H3).
  by destruct r3.
Qed.

Lemma retry_steps res out pend gm :
  typed_providers → owns (sys_of out pend gm) res →
  let r := retry_before_output res gm in
  gstep (sys_of out pend gm) (sys_of (gained (spent out res) r.1) pend r.2).
Proof.
  intros Hty Hown. unfold retry_before_output, se_bind.
  destruct (try_call_state (call clock_now) gm (preserves_call _)) as (now & gm1 & -> & H1 & _).
  destruct (try_call_state (current_routes (request_model (res_request res))) gm1
    (preserves_current_routes _)) as (routes & gm2 & -> & H2 & Hr).
  unfold sys_of at 2.
  match goal with |- context [locked ?f gm2] => destruct (locked_state f gm2) as [-> ->] end.
  rewrite H2, H1.
  eapply (step_retry (sys_of out pend gm)); [done| |apply surjective_pairing].
  intros l ->. by eapply current_routes_typed.
Qed.

(** C3: every public handler call, with whatever answers the providers
    give, is a finite sequence of the atomic steps: the caller's reservations
    and the live state afterwards are reachable from those before.  So the
    guarantees of reachable states hold for all sequences of handler calls. *)
Theorem handler_calls_refine_steps call_ out pend gm :
  typed_providers → call_ok call_ (sys_of out pend gm) →
  rtc gstep (sys_of out pend gm)
    (sys_of (run_call call_ out gm).1 pend (run_call call_ out gm).2).
Proof.
  intros Hty Hok. destruct call_ as [token request|credential request|ticket|ticket|ticket
    |res i o c exact_ timing|res|res|res timing]; simpl in *.
  - by apply admit_public_steps; destruct Hok as (? & ? & ?).
  - by apply admit_relay_steps; destruct Hok as (? & ? & ?).
  - by apply poll_queue_steps.
  - apply clock_then_step. intros now s _. eapply step_cancel_queue, surjective_pairing.
  - apply clock_then_step. intros now s _. eapply step_fail_queue, surjective_pairing.
  - by apply rtc_once, complete_request_steps.
  - by apply rtc_once, cancel_steps.
  - by apply rtc_once, retry_steps.
  - by apply rtc_once, fail_reservation_steps.
Qed.
(** ** Terminal calls *)

(** The calls that hand a reservation back. *)
Definition terminal (call_ : Call) (res : GatewayReservation) : Prop :=
  match call_ with
  | CComplete owned _ _ _ _ _ | CCancel owned | CFail owned _ => owned = res
  | _ => False
  end.

(** Their answers: a cancellation succeeds, a failure reports only an error of the
    clock, and a completion only one of the clock, of the sum or the bounds of its
    usage, or of the usage store. *)
Definition terminal_answer (call_ : Call) gm : Prop :=
  match call_ with
  | CComplete res i o c exact_ timing => ∀ e, (complete_request res i o c exact_ timing gm).1 = Err e →
      (clock_now (world gm)).1 = Err e ∨
      checked_add_u64 i o = None ∧ e = InvalidContract "completed gateway usage overflows its token bound" ∨
      (∃ completed_at total, completion_usage res completed_at total = Err e) ∨
      (∃ usage w, (usage_record usage w).1 = Err e)
  | CCancel res => (cancel res gm).1 = Ok ()
  | CFail res timing => (fail_reservation res timing gm).1 = result_map (λ _, ()) (clock_now (world gm)).1
  | _ => True
  end.

Lemma call_clock gm : (call clock_now gm).1 = (clock_now (world gm)).1.
Proof. unfold call. by destruct (clock_now _). Qed.

(** The region of a terminal call keeps the queue. *)
Lemma release_reservation_queued res st : queued (release_reservation res st).2 = queued st.
Proof. unfold release_reservation. destruct st. by repeat case_match. Qed.
Lemma release_principal_queued p n st : queued (release_principal p n st) = queued st.
Proof. unfold release_principal. destruct st. by repeat case_match. Qed.
Lemma with_telemetry_queued f st : queued (with_telemetry f st) = queued st.
Proof. by destruct st. Qed.
Lemma mark_route_failure_queued g now st : queued (mark_route_failure g now st) = queued st.
Proof. by destruct st. Qed.
Lemma mark_route_success_queued g st : queued (mark_route_success g st) = queued st.
Proof. by destruct st. Qed.
Lemma record_prefix_affinity_queued k g now st : queued (record_prefix_affinity k g now st) = queued st.
Proof. by destruct st. Qed.
Lemma push_token_window_queued k at_ n st : queued (push_token_window k at_ n st) = queued st.
Proof. by destruct st. Qed.
Hint Rewrite release_principal_queued with_telemetry_queued mark_route_failure_queued mark_route_success_queued
  record_prefix_affinity_queued push_token_window_queued : queue.

Lemma cancel_locked_queued res timing st : queued (cancel_locked res timing st).2 = queued st.
Proof.
  unfold cancel_locked. pose proof (release_reservation_queued res st) as Hq.
  destruct (release_reservation res st) as [[[]|] st1]; [|done]. cbn [fst snd] in *. by autorewrite with queue.
Qed.
Lemma fail_locked_queued res timing now st : queued (fail_locked res timing now st).2 = queued st.
Proof.
  unfold fail_locked. pose proof (release_reservation_queued res st) as Hq.
  destruct (release_reservation res st) as [[[]|] st1]; [|done].
  destruct now; cbn [fst snd] in *; by autorewrite with queue.
Qed.
Lemma complete_locked_queued res at_ total usage i o c exact_ timing st :
  queued (complete_locked res at_ total usage i o c exact_ timing st).2 = queued st.
Proof.
  unfold complete_locked. pose proof (release_reservation_queued res st) as Hq.
  destruct (release_reservation res st) as [[[]|] st1]; [|done]. cbn [fst snd] in *.
  destruct (res_principal res), at_, total, usage, (prefix_key (res_request res)); by autorewrite with queue.
Qed.

Lemma terminal_step call_ res out pend gm :
  owns (sys_of out pend gm) res → terminal call_ res →
  ∃ st', gstep (sys_of out pend gm) (give_back (sys_of out pend gm) res st') ∧
    state (run_call call_ out gm).2 = st' ∧ queued st' = queued (state gm).
Proof.
  intros Hown Ht. destruct call_ as [| | | | |owned i o c exact_ timing|owned| |owned timing]; try done;
    simpl in Ht; subst owned; simpl.
  - pose proof (complete_request_steps res i o c exact_ timing out pend gm Hown) as Hs.
    eexists. split; [exact Hs|]. split; [done|]. unfold complete_request, se_bind.
    destruct (try_call_state (call clock_now) gm (preserves_call _)) as (at_ & gm1 & -> & H1 & _).
    set (total := ok_or _ _). set (usage := match at_ with Ok _ => _ | Err _ => _ end).
    match goal with |- context [locked ?f gm1] =>
      destruct (locked_state f gm1) as [H2 _]; destruct (locked f gm1) as [r gm2] end.
    simpl in H2. rewrite H1 in H2.
    assert (queued (state gm2) = queued (state gm)) as Hq by (rewrite H2; apply complete_locked_queued).
    destruct r as [[]|e]; [|done]. destruct usage as [[u|]|e]; [|done..].
    destruct (call (usage_record u) gm2) as [r3 gm3] eqn:H3.
    apply (preserves_state _ _ _ _ (preserves_call _)) in H3. destruct r3; simpl; by rewrite H3.
  - eexists. split; [exact (cancel_steps res out pend gm Hown)|]. split; [done|]. unfold cancel.
    match goal with |- context [locked ?f gm] => destruct (locked_state f gm) as [-> _] end.
    apply cancel_locked_queued.
  - eexists. split; [exact (fail_reservation_steps res timing out pend gm Hown)|]. split; [done|].
    unfold fail_reservation, se_bind.
    destruct (try_call_state (call clock_now) gm (preserves_call _)) as (now & gm1 & -> & H1 & _).
    match goal with |- context [locked ?f gm1] => destruct (locked_state f gm1) as [-> _] end.
    rewrite H1. apply fail_locked_queued.
Qed.

Lemma terminal_answers call_ res out pend gm :
  sys_inv (sys_of out pend gm) → owns (sys_of out pend gm) res → terminal call_ res → terminal_answer call_ gm.
Proof.
  intros Hinv Hown Ht. destruct call_ as [| | | | |owned i o c exact_ timing|owned| |owned timing]; try done;
    simpl in Ht; subst owned; simpl.
  - intros e. unfold complete_request, se_bind.
    destruct (try_call_state (call clock_now) gm (preserves_call _)) as (at_ & gm1 & -> & H1 & Hat).
    pose proof (call_clock gm) as Hclock. rewrite Hat in Hclock. simpl in Hclock.
    destruct at_ as [at_|e'].
    2:{ match goal with |- context [locked ?f gm1] =>
          destruct (locked_state f gm1) as [_ H2]; destruct (locked f gm1) as [[[]|] gm2] end;
          [intros [= <-]; left; congruence|].
        simpl in H2. rewrite H1 in H2. by rewrite (proj1 (inv_complete_locked _ _ _ _ _ _ _ _ _ _ Hinv Hown)) in H2. }
    destruct (checked_add_u64 i o) as [total|] eqn:Hsum; cbn [ok_or].
    2:{ match goal with |- context [locked ?f gm1] =>
          destruct (locked_state f gm1) as [_ H2]; destruct (locked f gm1) as [[[]|] gm2] end;
          [intros [= <-]; auto|].
        simpl in H2. rewrite H1 in H2. by rewrite (proj1 (inv_complete_locked _ _ _ _ _ _ _ _ _ _ Hinv Hown)) in H2. }
    match goal with |- context [locked ?f gm1] =>
      destruct (locked_state f gm1) as [_ H2]; destruct (locked f gm1) as [[[]|] gm2] end.
    2:{ simpl in H2. rewrite H1 in H2. by rewrite (proj1 (inv_complete_locked _ _ _ _ _ _ _ _ _ _ Hinv Hown)) in H2. }
    destruct (completion_usage res at_ total) as [[u|]|e'] eqn:Hu; [|done|intros [= <-]; eauto 6].
    unfold call. destruct (usage_record u (world gm2)) as [[]] eqn:Hrec; [done|]. intros [= <-].
    right; right; right. exists u, (world gm2). by rewrite Hrec.
  - unfold cancel. match goal with |- context [locked ?f gm] => destruct (locked_state f gm) as [_ ->] end.
    exact (proj1 (inv_cancel_locked (sys_of out pend gm) res _ Hinv Hown)).
  - unfold fail_reservation, se_bind.
    destruct (try_call_state (call clock_now) gm (preserves_call _)) as (now & gm1 & -> & H1 & Hnow).
    pose proof (call_clock gm) as Hclock. rewrite Hnow in Hclock. simpl in Hclock. subst now.
    match goal with |- context [locked ?f gm1] => destruct (locked_state f gm1) as [_ ->] end. rewrite H1.
    exact (proj1 (inv_fail_locked (sys_of out pend gm) res timing _ Hinv Hown)).
Qed.

(** C40: an owned reservation is always released.  Whatever the providers answer, and
    also when the call ends in an error, completing, cancelling or failing a
    reservation that its caller owns takes exactly one off the live count of its
    group, one off the live count of its key, and nothing off any other count, and the
    request is no longer active.  Cancelling it always succeeds; failing it reports
    only an error of the clock; completing it reports only an error of the clock, of
    the sum or the bounds of its token usage, or of the usage store. *)
Theorem owned_reservation_is_always_released call_ res out pend gm :
  reachable (sys_of out pend gm) → owns (sys_of out pend gm) res → terminal call_ res →
  let st := state (run_call call_ out gm).2 in
  (∀ g, default 0 (route_active st !! g)
     = group_outstanding (sys_of out pend gm) g - if bool_decide (group_of res = g) then 1 else 0) ∧
  (∀ k, default 0 (principal_active st !! k)
     = key_outstanding (sys_of out pend gm) k - if bool_decide (has_key k (res_principal res)) then 1 else 0) ∧
  active_requests st !! request_id (res_request res) = None ∧
  terminal_answer call_ gm.
Proof.
  intros Hr Hown Ht. destruct (terminal_step call_ res out pend gm Hown Ht) as (st' & Hstep & -> & Hq).
  assert (sys_inv (give_back (sys_of out pend gm) res st')) as Hinv by (apply reachable_inv; by eapply rtc_r).
  split_and!.
  - intros g. rewrite <- (group_outstanding_spent _ _ st' g Hown). by apply (group_outstanding_active _ g Hinv).
  - intros k. rewrite <- (key_outstanding_spent _ _ st' k Hown Hq). by apply (key_outstanding_active _ k Hinv).
  - pose proof (inv_active _ _ _ _ Hinv) as Ha. simpl in Ha. by rewrite Ha, lookup_fmap, lookup_delete_eq.
  - by eapply terminal_answers; [apply reachable_inv|..].
Qed.
End handlers.

(** ** A concrete environment *)

Module HandlerExample.
Definition route : GatewayRoute :=
  {| placement_group_id := "g1"; endpoint_node_id := "n1"; route_model := "m";
     target := LocalEngine {| endpoint_scheme := SchemeHttp; endpoint_host := "127.0.0.1"; endpoint_port := 9000 |};
     max_active_requests := 2; max_context_tokens := 1024; healthy := true;
     memory_pressure := false; temperature_millicelsius := None; prefix_keys := [] |}.

(** The world is the clock; [-1] is a clock that fails. *)
#[global] Instance providers : GatewayProviders Z :=
  {| clock_now := λ w, (if w <? 0 then Err StateUnavailable else Ok w, w);
     authenticate := λ _ _ w, (Ok QuotaExample.principal, w);
     authorize_relay := λ _ w, (Ok "n0"%string, w);
     provider_routes := λ _ w, (Ok [route], w);
     linux_snapshot := λ _ w, (Ok (Some (ProtectionExample.snapshot 1 "s1" 5 1000)), w);
     macos_snapshot := λ _ w, (Ok None, w);
     usage_recent := λ _ _ w, (Ok [], w);
     usage_record := λ _ w, (Ok (), w) |}.

Lemma providers_typed : typed_providers (W := Z).
Proof. intros model w routes w' [= <- <-]. repeat constructor; by vm_compute. Defined.

Definition gm : GatewayManager Z :=
  {| mode := Child "n1" "n0"; placement_safety := Linux; world := 1500;
     state := GatewayState_default;
     protection_state := GatewayProtectionLeaseState_default; macos_safety_state := ∅ |}.
Definition request : GatewayRequest := SelectExample.request.
End HandlerExample.

Lemma current_routes_are_protected_witness :
  ∃ gm', current_routes "m" HandlerExample.gm = (Ok [HandlerExample.route], gm') ∧
  Forall (route_checked (W := Z) (mode HandlerExample.gm) "m") [HandlerExample.route] ∧
  NoDup (placement_group_id <$> [HandlerExample.route]) ∧
  (∀ local main r, mode HandlerExample.gm = Child local main → r ∈ [HandlerExample.route] →
     endpoint_node_id r = local ∧ (∃ e, target r = LocalEngine e) ∧ judged (W := Z) r).
Proof.
  eexists. split; [vm_compute; reflexivity|].
  eapply (current_routes_are_protected "m" HandlerExample.gm). vm_compute. reflexivity.
Defined.

Lemma handler_calls_refine_steps_witness :
  let call_ := CAdmitRelay "credential" HandlerExample.request in
  size (run_call call_ ∅ HandlerExample.gm).1 = 1%nat ∧
  rtc gstep (sys_of ∅ 0 HandlerExample.gm)
    (sys_of (run_call call_ ∅ HandlerExample.gm).1 0 (run_call call_ ∅ HandlerExample.gm).2).
Proof.
  split; [vm_compute; reflexivity|].
  apply (handler_calls_refine_steps (CAdmitRelay "credential" HandlerExample.request) ∅ 0
    HandlerExample.gm).
  - exact HandlerExample.providers_typed.
  - by vm_compute.
Defined.

(** A completion whose clock fails. *)
Lemma owned_reservation_is_always_released_witness :
  let gm := set_world (-1) (set_state (sys_state RunExample.s2) HandlerExample.gm) in
  let call_ := CComplete RunExample.res 10 2 0 true GatewayTelemetryTiming_default in
  let st := state (run_call call_ (sys_out RunExample.s2) gm).2 in
  (complete_request RunExample.res 10 2 0 true GatewayTelemetryTiming_default gm).1 = Err StateUnavailable ∧
  group_outstanding RunExample.s2 "g1" = 1 ∧ default 0 (route_active st !! "g1"%string) = 1 - 1.
Proof.
  split; [vm_compute; reflexivity|]. split; [vm_compute; reflexivity|].
  exact (proj1 (owned_reservation_is_always_released
    (CComplete RunExample.res 10 2 0 true GatewayTelemetryTiming_default) RunExample.res (sys_out RunExample.s2)
    (sys_pend RunExample.s2) (set_world (-1) (set_state (sys_state RunExample.s2) HandlerExample.gm))
    RunExample.reachable_s2 RunExample.owns_s2 eq_refl) "g1"%string).
Defined.

(** ** Two behaviours of the queue worth knowing *)

(** A queued request is not visible to fresh admissions: when capacity frees up,
    a request that arrives before the next poll takes the slot ahead of the
    queue. *)
Example fresh_admission_overtakes_queue :
  let freed := (cancel_locked (reservation_of
      {| q_request := QueueExample.request "a"; q_principal := None; q_received_at := 1;
         q_enqueued_at := 1; q_queued_milliseconds := 0; q_reserved_tokens := 0;
         q_was_admitted := false |} QueueExample.route 1)
      GatewayTelemetryTiming_default (sys_state QueueExample.ab)).2 in
  queue_order freed = ["b"%string] ∧
  ∃ res, (admit_locked (QueueExample.request "late") None [] 0 5 [QueueExample.route] freed).1
         = Ok (AdmissionGranted res).
Proof. split; [vm_compute; reflexivity|]. eexists. vm_compute. reflexivity. Qed.

(** when the clock fails, dropping a queued request reports the clock's
    error and leaves the request queued, although the ticket is consumed: its
    quota stays charged and it stays ahead of every later request of its model. *)
Theorem fail_queue_keeps_entry_when_clock_fails {W} `{!GatewayProviders W}
    (gm : GatewayManager W) (ticket : string) e w :
  clock_now (world gm) = (Err e, w) →
  (fail_queue ticket gm).1 = Err e ∧ (cancel_queue ticket gm).1 = Err e ∧
  state (fail_queue ticket gm).2 = state gm ∧ state (cancel_queue ticket gm).2 = state gm.
Proof.
  intros Hc. unfold fail_queue, cancel_queue, se_bind, call. rewrite Hc. by destruct gm.
Qed.

Lemma fail_queue_keeps_entry_when_clock_fails_witness :
  let gm := set_world (-1) (set_state (sys_state QueueExample.abc) HandlerExample.gm) in
  (fail_queue "b"%string gm).1 = Err StateUnavailable ∧
  (cancel_queue "b"%string gm).1 = Err StateUnavailable ∧
  state (fail_queue "b"%string gm).2 = state gm ∧ state (cancel_queue "b"%string gm).2 = state gm.
Proof.
  eapply (fail_queue_keeps_entry_when_clock_fails
    (set_world (-1) (set_state (sys_state QueueExample.abc) HandlerExample.gm)) "b").
  reflexivity.
Defined.
