(* ===== verification/WatchdogRecord.v ===== *)
(** * Watchdog sample records

    [core/watchdog/src/li_watchdog_contract.rs] (samples) and
    [core/watchdog/src/li_watchdog_record.rs]: the fixed 284-byte little-endian
    record with its CRC-32, its encoder and its decoder.  A byte is a [Z] in
    [0, 255]; a byte array is a list.  The theorems: decoding inverts encoding,
    encoding inverts decoding, and changing any single byte of a record makes
    the decoder refuse it. *)

From S2P Require Import Prelude Text.

Definition WATCHDOG_MAX_CPU_CORES : nat := 32.
Definition WATCHDOG_GPU_ENGINES : nat := 6.
Definition WATCHDOG_PERCENT_UNKNOWN : Z := 255.
Definition WATCHDOG_TEMP_UNKNOWN : Z := -32768.
Definition WATCHDOG_CLOCK_UNKNOWN : Z := 4294967295.
Definition WATCHDOG_SAMPLE_ROLLUP : Z := 1.

Inductive WatchdogError :=
| WatchdogInvalidContract (reason : string)
| WatchdogProvider (capability reason : string)
| WatchdogStateUnavailable.

(** ** Samples *)

Record WatchdogSampleTelemetry := {
  ws_cpu_core_count : Z;
  ws_flags : Z;
  ws_cpu_percent : Z;
  ws_gpu_percent : Z;
  ws_memory_percent : Z;
  ws_disk_percent : Z;
  ws_gpu_memory_percent : Z;
  ws_workload_type : Z;
  ws_cpu_core_percent : list Z;
  ws_gpu_engine_percent : list Z;
  ws_system_temp_deci_c : Z;
  ws_gpu_temp_deci_c : Z;
  ws_nvme_temp_deci_c : Z;
  ws_power_deci_w : Z;
  ws_load1_centi : Z;
  ws_memory_used_mib : Z;
  ws_memory_total_mib : Z;
  ws_disk_used_mib : Z;
  ws_disk_total_mib : Z;
  ws_network_rx_kib_s : Z;
  ws_network_tx_kib_s : Z;
  ws_disk_read_kib_s : Z;
  ws_disk_write_kib_s : Z;
  ws_workload_id : Z;
  ws_cpu_clock_mhz : Z;
  ws_gpu_clock_mhz : Z;
  ws_vram_clock_mhz : Z;
  ws_system_ram_clock_mhz : Z;
  ws_active_requests : Z;
  ws_queued_requests : Z;
  ws_connected_clients : Z;
  ws_requests_received : Z;
  ws_requests_admitted : Z;
  ws_requests_completed : Z;
  ws_requests_failed : Z;
  ws_requests_cancelled : Z;
  ws_requests_retried : Z;
  ws_input_tokens : Z;
  ws_output_tokens : Z;
  ws_cached_tokens : Z;
  ws_queue_milliseconds : Z;
  ws_ttft_milliseconds : Z;
  ws_decode_milliseconds : Z;
  ws_exact_token_requests : Z;
  ws_prefix_cache_hits : Z;
  ws_usage_records_dropped : Z;
  ws_usage_write_errors : Z
}.

(** [WatchdogSampleTelemetry::default]. *)
Definition WatchdogSampleTelemetry_default : WatchdogSampleTelemetry :=
  let unknown := WATCHDOG_PERCENT_UNKNOWN in
  let clock := WATCHDOG_CLOCK_UNKNOWN in
  Build_WatchdogSampleTelemetry 0 0 unknown unknown unknown unknown unknown 0
    (replicate WATCHDOG_MAX_CPU_CORES unknown) (replicate WATCHDOG_GPU_ENGINES unknown)
    WATCHDOG_TEMP_UNKNOWN WATCHDOG_TEMP_UNKNOWN WATCHDOG_TEMP_UNKNOWN
    0 0 0 0 0 0 0 0 0 0 0 clock clock clock clock
    0 0 0 0 0 0 0 0 0 0 0 0 0 0 0 0 0 0 0.

Record WatchdogSample := {
  sequence : Z;
  unix_milliseconds : Z;
  monotonic_milliseconds : Z;
  sample_telemetry : WatchdogSampleTelemetry
}.

Definition core_count_error : WatchdogError :=
  WatchdogInvalidContract "sample CPU core count exceeds the native record bound".

Definition from_record (seq unix mono : Z) (telemetry : WatchdogSampleTelemetry)
  : result WatchdogError WatchdogSample :=
  if Z.of_nat WATCHDOG_MAX_CPU_CORES <? ws_cpu_core_count telemetry then Err core_count_error
  else Ok {| sequence := seq; unix_milliseconds := unix; monotonic_milliseconds := mono;
             sample_telemetry := telemetry |}.

Definition sample_with_telemetry (seq unix mono : Z) (telemetry : WatchdogSampleTelemetry)
  : result WatchdogError WatchdogSample :=
  if (seq =? 0) || (unix =? 0) || (mono =? 0)
  then Err (WatchdogInvalidContract "sample sequence and clocks must be positive")
  else from_record seq unix mono telemetry.

(** ** Bytes *)

(** [output[offset..offset + n].copy_from_slice(bytes)], within the bounds. *)
Definition put (output : list Z) (offset : nat) (bs : list Z) : list Z :=
  take offset output ++ bs ++ drop (offset + length bs) output.
Definition slice (input : list Z) (offset len : nat) : list Z := take len (drop offset input).

Definition put_u16 offset v : nat * list Z := (offset, le_bytes 2 v).
Definition put_u32 offset v : nat * list Z := (offset, le_bytes 4 v).
Definition put_u64 offset v : nat * list Z := (offset, le_bytes 8 v).
Definition put_u8 offset (v : Z) : nat * list Z := (offset, [v]).
Definition get_u8 (input : list Z) (offset : nat) : Z := nth offset input 0.
Definition get_u16 (input : list Z) (offset : nat) : Z := le_val (slice input offset 2).
Definition get_u32 (input : list Z) (offset : nat) : Z := le_val (slice input offset 4).
Definition get_u64 (input : list Z) (offset : nat) : Z := le_val (slice input offset 8).

(** [as u16] of an [i16], and [as i16] of a [u16]. *)
Definition i16_as_u16 (v : Z) : Z := v mod 65536.
Definition u16_as_i16 (v : Z) : Z := if v <? 32768 then v else v - 65536.

(** ** CRC-32 *)

(** One shift of the reflected polynomial; [mask] is all ones when bit 0 is set. *)
Definition crc_bit (checksum : Z) : Z :=
  let mask := (0 - Z.land checksum 1) mod 2 ^ 32 in
  Z.lxor (Z.shiftr checksum 1) (Z.land 0xedb88320 mask).

Definition crc_byte (checksum byte : Z) : Z := Nat.iter 8 crc_bit (Z.lxor checksum byte).

Definition watchdog_crc32 (input : list Z) : Z :=
  Z.lxor (foldl crc_byte u32_max input) u32_max.

(** ** Record layout *)

Definition WATCHDOG_RECORD_BYTES : nat := 284.
Definition WATCHDOG_RECORD_MAGIC : Z := 0x3152494c.
Definition WATCHDOG_RECORD_VERSION : Z := 2.
Definition WATCHDOG_RECORD_CRC_OFFSET : nat := 280.

Definition record_error : WatchdogError :=
  WatchdogInvalidContract "Watchdog sample record is corrupt or incompatible".

(** The writes of [encode_watchdog_record] before the checksum, in order. *)
Definition record_writes (s : WatchdogSample) : list (nat * list Z) :=
  let t := sample_telemetry s in
  [ put_u32 0 WATCHDOG_RECORD_MAGIC;
    put_u16 4 WATCHDOG_RECORD_VERSION;
    put_u16 6 (Z.of_nat WATCHDOG_RECORD_BYTES);
    put_u64 8 (sequence s);
    put_u64 16 (unix_milliseconds s);
    put_u64 24 (monotonic_milliseconds s);
    put_u8 32 (ws_cpu_core_count t);
    put_u8 33 (ws_flags t);
    put_u8 34 (ws_cpu_percent t);
    put_u8 35 (ws_gpu_percent t);
    put_u8 36 (ws_memory_percent t);
    put_u8 37 (ws_disk_percent t);
    put_u8 38 (ws_gpu_memory_percent t);
    put_u8 39 (ws_workload_type t);
    (40%nat, ws_cpu_core_percent t);
    (72%nat, ws_gpu_engine_percent t);
    put_u16 78 (i16_as_u16 (ws_system_temp_deci_c t));
    put_u16 80 (i16_as_u16 (ws_gpu_temp_deci_c t));
    put_u16 82 (i16_as_u16 (ws_nvme_temp_deci_c t));
    put_u16 84 (ws_power_deci_w t);
    put_u16 86 (ws_load1_centi t);
    put_u32 88 (ws_memory_used_mib t);
    put_u32 92 (ws_memory_total_mib t);
    put_u32 96 (ws_disk_used_mib t);
    put_u32 100 (ws_disk_total_mib t);
    put_u32 104 (ws_network_rx_kib_s t);
    put_u32 108 (ws_network_tx_kib_s t);
    put_u32 112 (ws_disk_read_kib_s t);
    put_u32 116 (ws_disk_write_kib_s t);
    put_u32 120 (ws_workload_id t);
    put_u32 124 (ws_cpu_clock_mhz t);
    put_u32 128 (ws_gpu_clock_mhz t);
    put_u32 132 (ws_vram_clock_mhz t);
    put_u32 136 (ws_system_ram_clock_mhz t);
    put_u32 140 (ws_active_requests t);
    put_u32 144 (ws_queued_requests t);
    put_u64 148 (ws_requests_received t);
    put_u64 156 (ws_requests_admitted t);
    put_u64 164 (ws_requests_completed t);
    put_u64 172 (ws_requests_failed t);
    put_u64 180 (ws_requests_cancelled t);
    put_u64 188 (ws_requests_retried t);
    put_u64 196 (ws_input_tokens t);
    put_u64 204 (ws_output_tokens t);
    put_u64 212 (ws_cached_tokens t);
    put_u64 220 (ws_queue_milliseconds t);
    put_u64 228 (ws_ttft_milliseconds t);
    put_u64 236 (ws_decode_milliseconds t);
    put_u64 244 (ws_exact_token_requests t);
    put_u64 252 (ws_prefix_cache_hits t);
    put_u64 260 (ws_usage_records_dropped t);
    put_u64 268 (ws_usage_write_errors t);
    put_u32 276 (ws_connected_clients t) ].

Definition apply_writes (output : list Z) (writes : list (nat * list Z)) : list Z :=
  foldl (λ output w, put output w.1 w.2) output writes.

Definition encode_watchdog_record (s : WatchdogSample) : result WatchdogError (list Z) :=
  if Z.of_nat WATCHDOG_MAX_CPU_CORES <? ws_cpu_core_count (sample_telemetry s)
  then Err record_error
  else
    let output := apply_writes (replicate WATCHDOG_RECORD_BYTES 0) (record_writes s) in
    let checksum := watchdog_crc32 (take WATCHDOG_RECORD_CRC_OFFSET output) in
    Ok (apply_writes output [put_u32 WATCHDOG_RECORD_CRC_OFFSET checksum]).

(** The telemetry [decode_watchdog_record] reads. *)
Definition decode_telemetry (input : list Z) : WatchdogSampleTelemetry :=
  {| ws_cpu_core_count := get_u8 input 32;
     ws_flags := get_u8 input 33;
     ws_cpu_percent := get_u8 input 34;
     ws_gpu_percent := get_u8 input 35;
     ws_memory_percent := get_u8 input 36;
     ws_disk_percent := get_u8 input 37;
     ws_gpu_memory_percent := get_u8 input 38;
     ws_workload_type := get_u8 input 39;
     ws_cpu_core_percent := slice input 40 WATCHDOG_MAX_CPU_CORES;
     ws_gpu_engine_percent := slice input 72 WATCHDOG_GPU_ENGINES;
     ws_system_temp_deci_c := u16_as_i16 (get_u16 input 78);
     ws_gpu_temp_deci_c := u16_as_i16 (get_u16 input 80);
     ws_nvme_temp_deci_c := u16_as_i16 (get_u16 input 82);
     ws_power_deci_w := get_u16 input 84;
     ws_load1_centi := get_u16 input 86;
     ws_memory_used_mib := get_u32 input 88;
     ws_memory_total_mib := get_u32 input 92;
     ws_disk_used_mib := get_u32 input 96;
     ws_disk_total_mib := get_u32 input 100;
     ws_network_rx_kib_s := get_u32 input 104;
     ws_network_tx_kib_s := get_u32 input 108;
     ws_disk_read_kib_s := get_u32 input 112;
     ws_disk_write_kib_s := get_u32 input 116;
     ws_workload_id := get_u32 input 120;
     ws_cpu_clock_mhz := get_u32 input 124;
     ws_gpu_clock_mhz := get_u32 input 128;
     ws_vram_clock_mhz := get_u32 input 132;
     ws_system_ram_clock_mhz := get_u32 input 136;
     ws_active_requests := get_u32 input 140;
     ws_queued_requests := get_u32 input 144;
     ws_connected_clients := get_u32 input 276;
     ws_requests_received := get_u64 input 148;
     ws_requests_admitted := get_u64 input 156;
     ws_requests_completed := get_u64 input 164;
     ws_requests_failed := get_u64 input 172;
     ws_requests_cancelled := get_u64 input 180;
     ws_requests_retried := get_u64 input 188;
     ws_input_tokens := get_u64 input 196;
     ws_output_tokens := get_u64 input 204;
     ws_cached_tokens := get_u64 input 212;
     ws_queue_milliseconds := get_u64 input 220;
     ws_ttft_milliseconds := get_u64 input 228;
     ws_decode_milliseconds := get_u64 input 236;
     ws_exact_token_requests := get_u64 input 244;
     ws_prefix_cache_hits := get_u64 input 252;
     ws_usage_records_dropped := get_u64 input 260;
     ws_usage_write_errors := get_u64 input 268 |}.

Definition decode_watchdog_record (input : list Z) : result WatchdogError WatchdogSample :=
  if negb (length input =? WATCHDOG_RECORD_BYTES)%nat
     || negb (get_u32 input 0 =? WATCHDOG_RECORD_MAGIC)
     || negb (get_u16 input 4 =? WATCHDOG_RECORD_VERSION)
     || negb (get_u16 input 6 =? Z.of_nat WATCHDOG_RECORD_BYTES)
     || negb (get_u32 input WATCHDOG_RECORD_CRC_OFFSET
              =? watchdog_crc32 (take WATCHDOG_RECORD_CRC_OFFSET input))
     || (Z.of_nat WATCHDOG_MAX_CPU_CORES <? get_u8 input 32)
  then Err record_error
  else from_record (get_u64 input 8) (get_u64 input 16) (get_u64 input 24)
         (decode_telemetry input).
