(* ===== verification/WatchdogContract.v ===== *)
(** * Watchdog contract: protected engines, observations and safety events

    [core/watchdog/src/li_watchdog_contract.rs]: the ordered thresholds, the
    version-one descriptor of a protected engine with its parser, one observation
    of it, and the safety events.  (Samples are in [WatchdogRecord].) *)

From Stdlib Require Ascii.
From S2P Require Import Prelude Values Text WatchdogRecord.
Import (notations) Stdlib.Strings.Ascii.

Definition MAX_DESCRIPTOR_BYTES : Z := 2048.
Definition MAX_GENERATION_BYTES : Z := 32.
Definition MAX_CONTAINER_NAME_BYTES : Z := 128.
Definition CONTAINER_ID_BYTES : Z := 64.
Definition BOOT_ID_BYTES : Z := 36.
Definition MAX_CGROUP_BYTES : Z := 4095.
Definition MAX_TARGETS : Z := 64.
Definition i32_max : Z := 2147483647.

(** ** Thresholds *)

Record WatchdogSafetyThresholds := {
  warning_available_bytes : Z;
  graceful_available_bytes : Z;
  emergency_available_bytes : Z;
  swap_stop_bytes : Z;
  psi_some_microseconds : Z;
  psi_full_microseconds : Z;
  state_failures : Z;
  containment_grace_milliseconds : Z;
}.

Definition thresholds_new (warning graceful emergency swap psi_some psi_full failures grace : Z)
  : result WatchdogError WatchdogSafetyThresholds :=
  if (warning <=? graceful) || (graceful <=? emergency) || (emergency =? 0) || (swap =? 0)
     || (psi_some =? 0) || (psi_full =? 0) || (failures <? 2)
     || negb (in_range 1 30000 grace)
  then Err (WatchdogInvalidContract
              "protection thresholds are incomplete or incorrectly ordered")
  else Ok {| warning_available_bytes := warning; graceful_available_bytes := graceful;
             emergency_available_bytes := emergency; swap_stop_bytes := swap;
             psi_some_microseconds := psi_some; psi_full_microseconds := psi_full;
             state_failures := failures; containment_grace_milliseconds := grace |}.

(** ** Protected engines *)

Inductive WatchdogProtectionPhase := Pending | Starting | Armed | Disarmed.

#[export] Instance WatchdogProtectionPhase_eq_dec : EqDecision WatchdogProtectionPhase.
Proof. solve_decision. Defined.

Record WatchdogProtectedEngine := {
  generation : string;
  phase : WatchdogProtectionPhase;
  container_name : string;
  container_id : option string;
  process_id : option Z;
  process_start_ticks : option Z;
  boot_id : option string;
  cgroup : option string;
}.

#[export] Instance WatchdogProtectedEngine_eq_dec : EqDecision WatchdogProtectedEngine.
Proof. solve_decision. Defined.

(** [matches!(phase, Starting | Armed)]: the phases that name a process. *)
Definition process_bound (p : WatchdogProtectionPhase) : bool :=
  match p with Starting | Armed => true | Pending | Disarmed => false end.

Definition invalid_descriptor : WatchdogError :=
  WatchdogInvalidContract "protected placement descriptor is invalid".

Definition required_lower_hex (value : string) (length : Z) : result WatchdogError string :=
  if negb (is_lower_hex value length) then Err invalid_descriptor else Ok value.

Definition optional_lower_hex (value : string) (length : Z)
  : result WatchdogError (option string) :=
  if bool_decide (value = "-"%string) then Ok None
  else result_map Some (required_lower_hex value length).

Definition optional_positive (value : string) (maximum : Z) : result WatchdogError (option Z) :=
  if bool_decide (value = "-"%string) then Ok None
  else if bool_decide (value = ""%string) || negb (forallb is_ascii_digit (bytes value))
  then Err invalid_descriptor
  else let? number := ok_or invalid_descriptor (parse_unsigned u64_max value) in
       if (number =? 0) || (maximum <? number) then Err invalid_descriptor else Ok (Some number).

Definition is_safe_byte (b : Z) : bool :=
  is_ascii_alphanumeric b || (b =? 46) || (b =? 95) || (b =? 45).

Definition safe_token (value : string) (maximum : Z) : bool :=
  negb (bool_decide (value = ""%string)) && (str_len value <=? maximum)
  && forallb is_safe_byte (bytes value).

Definition optional_safe_token (value : string) (maximum : Z) (exact_ : bool)
  : result WatchdogError (option string) :=
  if bool_decide (value = "-"%string) then Ok None
  else if negb (safe_token value maximum) || (exact_ && negb (str_len value =? maximum))
  then Err invalid_descriptor else Ok (Some value).

Definition cgroup_prefix : string := "/sys/fs/cgroup/".

Definition is_cgroup_byte (b : Z) : bool :=
  is_ascii_alphanumeric b || (b =? 47) || (b =? 95) || (b =? 46) || (b =? 58) || (b =? 45).

(** A suffix that is empty, ends in a slash or has an empty, [.] or [..]
    component. *)
Definition bad_cgroup_suffix (suffix : string) : bool :=
  bool_decide (suffix = ""%string) || ends_with "/"%char suffix
  || existsb (λ c, bool_decide (c = ""%string) || bool_decide (c = "."%string)
                   || bool_decide (c = ".."%string)) (split_char "/"%char suffix).

Definition optional_cgroup (value : string) : result WatchdogError (option string) :=
  if bool_decide (value = "-"%string) then Ok None
  else if (MAX_CGROUP_BYTES <? str_len value)
          || match strip_prefix cgroup_prefix value with
             | None => true
             | Some suffix => bad_cgroup_suffix suffix
             end
          || negb (forallb is_cgroup_byte (bytes value))
  then Err invalid_descriptor else Ok (Some value).

(** [for line in value.lines() { .. fields.insert(name, field) .. }]. *)
Fixpoint descriptor_fields (ls : list string) (fields : gmap string string)
  : result WatchdogError (gmap string string) :=
  match ls with
  | [] => Ok fields
  | line :: ls =>
    let? (name, field) := ok_or invalid_descriptor (split_once "="%char line) in
    if bool_decide (name = ""%string) || has_char "="%char field
       || bool_decide (is_Some (fields !! name))
    then Err invalid_descriptor
    else descriptor_fields ls (<[name := field]> fields)
  end.

Definition descriptor_keys : list string :=
  ["boot_id"; "cgroup"; "container_id"; "container_name"; "generation"; "phase"; "pid";
   "start_ticks"; "version"]%string.

(** [fields["name"]] after the key set was checked. *)
Definition field (fields : gmap string string) (name : string) : string :=
  default ""%string (fields !! name).

Definition parse_phase (value : string) : option WatchdogProtectionPhase :=
  if bool_decide (value = "pending"%string) then Some Pending
  else if bool_decide (value = "starting"%string) then Some Starting
  else if bool_decide (value = "armed"%string) then Some Armed
  else if bool_decide (value = "disarmed"%string) then Some Disarmed
  else None.

Definition is_present {A} (o : option A) : bool := match o with Some _ => true | None => false end.

(** The second half of [parse]: the engine of a complete field map. *)
Definition engine_of_fields (fields : gmap string string)
  : result WatchdogError WatchdogProtectedEngine :=
  let? gen := required_lower_hex (field fields "generation") MAX_GENERATION_BYTES in
  let? ph := ok_or invalid_descriptor (parse_phase (field fields "phase")) in
  let name := field fields "container_name" in
  if negb (safe_token name MAX_CONTAINER_NAME_BYTES) then Err invalid_descriptor
  else
    let? cid := optional_lower_hex (field fields "container_id") CONTAINER_ID_BYTES in
    let? pid := optional_positive (field fields "pid") i32_max in
    if match pid with Some p => p <=? 1 | None => false end then Err invalid_descriptor
    else
      let? ticks := optional_positive (field fields "start_ticks") u64_max in
      let? boot := optional_safe_token (field fields "boot_id") BOOT_ID_BYTES true in
      let? cg := optional_cgroup (field fields "cgroup") in
      if existsb (λ present, negb (eqb present (process_bound ph)))
           [is_present cid; is_present pid; is_present ticks; is_present boot; is_present cg]
      then Err invalid_descriptor
      else Ok {| generation := gen; phase := ph; container_name := name;
                 container_id := cid; process_id := pid; process_start_ticks := ticks;
                 boot_id := boot; cgroup := cg |}.

Definition WatchdogProtectedEngine_parse (value : string)
  : result WatchdogError WatchdogProtectedEngine :=
  if bool_decide (value = ""%string) || (MAX_DESCRIPTOR_BYTES <? str_len value)
     || has_char carriage_return value || has_char "000"%char value
  then Err invalid_descriptor
  else
    let? fields := descriptor_fields (lines value) ∅ in
    if negb (bool_decide (dom fields = list_to_set descriptor_keys))
       || negb (bool_decide (fields !! "version"%string = Some "1"%string))
    then Err invalid_descriptor
    else engine_of_fields fields.

(** ** Observations and events *)

Record WatchdogSafetyInput := {
  available_bytes : Z;
  swap_used_bytes : Z;
  psi_some_delta_microseconds : Z;
  psi_full_delta_microseconds : Z;
  cgroup_oom_delta : Z;
  cgroup_oom_kill_delta : Z;
  cgroup_oom_group_kill_delta : Z;
  cgroup_max_delta : Z;
}.

Definition WatchdogSafetyInput_default : WatchdogSafetyInput :=
  {| available_bytes := 0; swap_used_bytes := 0; psi_some_delta_microseconds := 0;
     psi_full_delta_microseconds := 0; cgroup_oom_delta := 0; cgroup_oom_kill_delta := 0;
     cgroup_oom_group_kill_delta := 0; cgroup_max_delta := 0 |}.

Inductive WatchdogProcessState := Running | Exited.

#[export] Instance WatchdogProcessState_eq_dec : EqDecision WatchdogProcessState.
Proof. solve_decision. Defined.

Record WatchdogProtectionObservation := {
  obs_target : WatchdogProtectedEngine;
  obs_process_state : WatchdogProcessState;
  obs_safety : WatchdogSafetyInput;
  obs_trip_latched : bool;
}.

Inductive WatchdogSafetyAction := Stop | Kill.

#[export] Instance WatchdogSafetyAction_eq_dec : EqDecision WatchdogSafetyAction.
Proof. solve_decision. Defined.

Record WatchdogSafetyEvent := {
  event_kind : string;
  event_reason : string;
  event_severity : Z;
  event_generation : string;
  event_sequence : Z;
  event_action : option WatchdogSafetyAction;
  event_containment_complete : option bool;
}.

Definition maximum_watchdog_targets : Z := MAX_TARGETS.

(** ** Laws of the parser *)

(** What a parsed descriptor promises: a canonical generation, and the five
    process fields exactly in the phases that name a process. *)
Record engine_wf (e : WatchdogProtectedEngine) : Prop := {
  wf_generation : is_lower_hex (generation e) MAX_GENERATION_BYTES = true;
  wf_name : safe_token (container_name e) MAX_CONTAINER_NAME_BYTES = true;
  wf_container_id : is_Some (container_id e) ↔ process_bound (phase e) = true;
  wf_process_id : is_Some (process_id e) ↔ process_bound (phase e) = true;
  wf_start_ticks : is_Some (process_start_ticks e) ↔ process_bound (phase e) = true;
  wf_boot_id : is_Some (boot_id e) ↔ process_bound (phase e) = true;
  wf_cgroup : is_Some (cgroup e) ↔ process_bound (phase e) = true;
  wf_container_hex : ∀ c, container_id e = Some c → is_lower_hex c CONTAINER_ID_BYTES = true;
  wf_pid_range : ∀ p, process_id e = Some p → 1 < p ≤ i32_max;
  wf_ticks_range : ∀ t, process_start_ticks e = Some t → 0 < t ≤ u64_max;
  wf_cgroup_path : ∀ c, cgroup e = Some c →
    ∃ suffix, strip_prefix cgroup_prefix c = Some suffix ∧ bad_cgroup_suffix suffix = false;
}.

Lemma optional_positive_range value maximum n :
  optional_positive value maximum = Ok (Some n) → 0 < n ≤ maximum.
Proof.
  unfold optional_positive. intros H. inv_result H.
  match goal with Hp : ok_or _ _ = Ok _ |- _ =>
    apply ok_or_Ok, parse_unsigned_range in Hp end. lia.
Qed.

Lemma optional_lower_hex_Ok value n c :
  optional_lower_hex value n = Ok (Some c) → is_lower_hex c n = true.
Proof.
  unfold optional_lower_hex, required_lower_hex. destruct (bool_decide _); [done|].
  destruct (is_lower_hex value n) eqn:E; [|done]. by intros [= <-].
Qed.

Lemma optional_cgroup_suffix value c :
  optional_cgroup value = Ok (Some c) →
  ∃ suffix, strip_prefix cgroup_prefix c = Some suffix ∧ bad_cgroup_suffix suffix = false.
Proof.
  unfold optional_cgroup. intros H. inv_result H.
  destruct (strip_prefix cgroup_prefix c) as [suffix|]; [|by rewrite orb_true_r in *].
  exists suffix. split; [done|]. by destruct (bad_cgroup_suffix suffix); [rewrite orb_true_r in *|].
Qed.

Lemma is_present_iff {A} (o : option A) b : is_present o = b → (is_Some o ↔ b = true).
Proof. intros <-. destruct o; simpl; split; intros Hx; [done|eauto|by destruct Hx|done]. Qed.

(** Every accepted descriptor is well formed. *)
Lemma WatchdogProtectedEngine_parse_wf value e :
  WatchdogProtectedEngine_parse value = Ok e → engine_wf e.
Proof.
  unfold WatchdogProtectedEngine_parse, engine_of_fields. intros H. inv_result H.
  match goal with He : existsb _ _ = false |- _ => rename He into Hpresent end.
  simpl in Hpresent. rewrite !orb_false_iff, !negb_false_iff, !eqb_true_iff in Hpresent.
  destruct Hpresent as (Hcid & Hpid & Ht & Hb & Hcg & _).
  constructor; simpl; [| |by apply is_present_iff..| | | |].
  - match goal with Hg : required_lower_hex _ _ = Ok _ |- _ => unfold required_lower_hex in Hg end.
    destruct (is_lower_hex (field _ "generation") _) eqn:Hgen; [|done]. simpl in *. congruence.
  - match goal with Hn : negb (safe_token _ _) = false |- _ => by apply negb_false_iff in Hn end.
  - intros c ->. by eapply optional_lower_hex_Ok.
  - intros p ->. simpl in *.
    match goal with Hp : optional_positive _ i32_max = _ |- _ =>
      apply optional_positive_range in Hp end. lia.
  - intros t ->. by eapply optional_positive_range.
  - intros c ->. by eapply optional_cgroup_suffix.
Qed.
