(* ===== verification/WatchdogManager.v ===== *)
(** * Watchdog manager: one resident tick

    [core/watchdog/src/li_watchdog_manager.rs] and
    [core/watchdog/src/li_watchdog_protection_cycle.rs]: sampling, safety
    decisions, the order of durable latches, containment and events, and the
    receipt that seeds the protection leases.  The sample, protection and storage
    providers are one class over a world [W]; a call threads the world. *)

From Stdlib Require Ascii.
From S2P Require Import Prelude Ordering Values Text GatewayContract WatchdogRecord.
From S2P Require Import WatchdogContract.
Import (notations) Stdlib.Strings.Ascii.

(** [WatchdogSampleProvider], [WatchdogProtectionProvider] and
    [WatchdogStorageProvider]. *)
Class WatchdogProviders (W : Type) := {
  provide_sample : Z → W → result WatchdogError WatchdogSample * W;
  provide_observations :
    WatchdogSample → W → result WatchdogError (list WatchdogProtectionObservation) * W;
  acknowledge_disarmed : WatchdogProtectedEngine → W → result WatchdogError () * W;
  latch_trip : WatchdogProtectedEngine → WatchdogSafetyAction → string → WatchdogSafetyInput →
    W → result WatchdogError () * W;
  contain : WatchdogProtectedEngine → WatchdogSafetyAction → Z →
    W → result WatchdogError bool * W;
  storage_next_sequence : W → result WatchdogError Z * W;
  record_sample : WatchdogSample → W → result WatchdogError () * W;
  record_event : WatchdogSafetyEvent → W → result WatchdogError () * W;
  storage_flush : W → result WatchdogError () * W;
}.

Record WatchdogState := {
  next_sequence : Z;
  last_unix_milliseconds : Z;
  last_monotonic_milliseconds : Z;
  warnings : gmap string bool;
}.

Record WatchdogManager (W : Type) := {
  wm_thresholds : WatchdogSafetyThresholds;
  wm_world : W;
  wm_state : WatchdogState;
}.
Arguments Build_WatchdogManager {W} _ _ _.
Arguments wm_thresholds {W} _.
Arguments wm_world {W} _.
Arguments wm_state {W} _.

(** ** The receipt of a completed cycle *)

Definition MAXIMUM_PROTECTION_CYCLE_TARGETS : nat := 64.

Record WatchdogProtectionCycle := {
  cycle_sample_sequence : Z;
  cycle_observed_at_unix_milliseconds : Z;
  cycle_observed_at_monotonic_milliseconds : Z;
  cycle_targets : list WatchdogProtectedEngine;
}.

Definition seeds_lease (events : list WatchdogSafetyEvent) (o : WatchdogProtectionObservation)
  : bool :=
  bool_decide (phase (obs_target o) = Armed)
  && bool_decide (obs_process_state o = Running)
  && negb (obs_trip_latched o)
  && negb (existsb (λ e, bool_decide (event_generation e = generation (obs_target o))
                         && is_present (event_action e)) events).

Definition cycle_completed (sample : WatchdogSample)
    (observations : list WatchdogProtectionObservation) (events : list WatchdogSafetyEvent)
  : WatchdogProtectionCycle :=
  {| cycle_sample_sequence := sequence sample;
     cycle_observed_at_unix_milliseconds := unix_milliseconds sample;
     cycle_observed_at_monotonic_milliseconds := monotonic_milliseconds sample;
     cycle_targets := obs_target <$> List.filter (seeds_lease events) observations |}.

(** The identity text joins the fields with NUL; absent ones are empty or zero. *)
Definition nul : string := String "000"%char EmptyString.
Definition protected_engine_identity (t : WatchdogProtectedEngine) : string :=
  generation t +:+ nul +:+ container_name t +:+ nul +:+ default "" (container_id t) +:+ nul
  +:+ to_decimal (default 0 (process_id t)) +:+ nul
  +:+ to_decimal (default 0 (process_start_ticks t)) +:+ nul
  +:+ default "" (boot_id t) +:+ nul +:+ default "" (cgroup t).

Definition from_authenticated_report (sample_sequence unix monotonic : Z)
    (targets : list WatchdogProtectedEngine) : result WatchdogError WatchdogProtectionCycle :=
  if (sample_sequence =? 0) || (unix =? 0) || (monotonic =? 0)
     || (MAXIMUM_PROTECTION_CYCLE_TARGETS <? length targets)%nat
     || existsb (λ t, negb (bool_decide (phase t = Armed))) targets
  then Err (WatchdogInvalidContract "authenticated protection cycle is incomplete or unbounded")
  else if has_adjacent_duplicate (sort_by String.compare (protected_engine_identity <$> targets))
  then Err (WatchdogInvalidContract "authenticated protection cycle contains duplicate targets")
  else Ok {| cycle_sample_sequence := sample_sequence;
             cycle_observed_at_unix_milliseconds := unix;
             cycle_observed_at_monotonic_milliseconds := monotonic;
             cycle_targets := targets |}.

Record WatchdogTick := {
  tick_sample : WatchdogSample;
  tick_events : list WatchdogSafetyEvent;
  tick_active_targets : nat;
  tick_protection_cycle : WatchdogProtectionCycle;
}.

(** ** Decisions *)

Definition protected_process_exited : string := "protected_process_exited".
Definition cgroup_oom_kill : string := "cgroup_oom_kill".

Definition safety_decision (o : WatchdogProtectionObservation)
  : option (WatchdogSafetyAction * string) :=
  if bool_decide (obs_process_state o = Exited) then Some (Stop, protected_process_exited)
  else if negb (cgroup_oom_kill_delta (obs_safety o) =? 0)
          || negb (cgroup_oom_group_kill_delta (obs_safety o) =? 0)
  then Some (Kill, cgroup_oom_kill)
  else None.

Definition validate_sample_order (st : WatchdogState) (sample : WatchdogSample)
  : result WatchdogError () :=
  if negb (sequence sample =? next_sequence st)
     || (unix_milliseconds sample <? last_unix_milliseconds st)
     || (monotonic_milliseconds sample <=? last_monotonic_milliseconds st)
  then Err (WatchdogInvalidContract "Watchdog sample is stale or out of order")
  else Ok ().

Definition obs_generation (o : WatchdogProtectionObservation) : string :=
  generation (obs_target o).

Definition validate_observations (os : list WatchdogProtectionObservation)
  : result WatchdogError () :=
  let generations : gset string := list_to_set (obs_generation <$> os) in
  if (maximum_watchdog_targets <? Z.of_nat (length os))
     || negb (size generations =? length os)%nat
  then Err (WatchdogInvalidContract
         "protected placement observations are duplicated or exceed their bound")
  else Ok ().

Definition warning_event (target : WatchdogProtectedEngine) (sample : WatchdogSample)
  : WatchdogSafetyEvent :=
  {| event_kind := "protection.warning"; event_reason := "host_memory_warning";
     event_severity := 1; event_generation := generation target;
     event_sequence := sequence sample; event_action := None;
     event_containment_complete := None |}.

Definition trip_event (target : WatchdogProtectedEngine) (action : WatchdogSafetyAction)
    (reason : string) (sample : WatchdogSample) (complete : bool) : WatchdogSafetyEvent :=
  {| event_kind := if bool_decide (reason = protected_process_exited) then "engine.exit"
                   else "protection.trip";
     event_reason := reason;
     event_severity := if bool_decide (action = Kill) then 3 else 2;
     event_generation := generation target; event_sequence := sequence sample;
     event_action := Some action; event_containment_complete := Some complete |}.

Definition Trip : Type := WatchdogProtectionObservation * WatchdogSafetyAction * string.

(** ** The tick *)

Section manager.
Context {W : Type} `{!WatchdogProviders W}.

Definition wd_call {A} (f : W → result WatchdogError A * W)
  : SE (WatchdogManager W) WatchdogError A := λ m,
  let '(r, w) := f (wm_world m) in
  (r, {| wm_thresholds := wm_thresholds m; wm_world := w; wm_state := wm_state m |}).

Definition set_wd_state (st : WatchdogState) (m : WatchdogManager W) : WatchdogManager W :=
  {| wm_thresholds := wm_thresholds m; wm_world := wm_world m; wm_state := st |}.

Definition set_warnings (ws : gmap string bool) (st : WatchdogState) : WatchdogState :=
  {| next_sequence := next_sequence st; last_unix_milliseconds := last_unix_milliseconds st;
     last_monotonic_milliseconds := last_monotonic_milliseconds st; warnings := ws |}.

Definition update_warnings (f : gmap string bool → gmap string bool)
  : SE (WatchdogManager W) WatchdogError () := λ m,
  (Ok (), set_wd_state (set_warnings (f (warnings (wm_state m))) (wm_state m)) m).

(** [contain(..).unwrap_or(false)]. *)
Definition or_false (c : SE (WatchdogManager W) WatchdogError bool)
  : SE (WatchdogManager W) WatchdogError bool := λ m,
  match c m with
  | (Ok b, m) => (Ok b, m)
  | (Err _, m) => (Ok false, m)
  end.

Definition get_state : SE (WatchdogManager W) WatchdogError WatchdogState :=
  λ m, (Ok (wm_state m), m).
Definition get_thresholds : SE (WatchdogManager W) WatchdogError WatchdogSafetyThresholds :=
  λ m, (Ok (wm_thresholds m), m).

(** The arm of a bound process: skip a latched one, collect a trip, or keep the
    memory warning up to date. *)
Definition judge_active (sample : WatchdogSample) (o : WatchdogProtectionObservation)
    (events : list WatchdogSafetyEvent) (trips : list Trip)
  : SE (WatchdogManager W) WatchdogError (list WatchdogSafetyEvent * list Trip) :=
  let target := obs_target o in
  if obs_trip_latched o then se_ret (events, trips)
  else match safety_decision o with
  | Some (action, reason) => se_ret (events, trips ++ [(o, action, reason)])
  | None =>
    do! thresholds <- get_thresholds in
    do! st <- get_state in
    let warning := available_bytes (obs_safety o) <=? warning_available_bytes thresholds in
    let was_warning := default false (warnings st !! generation target) in
    do! events <-
      (if warning && negb was_warning then
         let event := warning_event target sample in
         run! wd_call (record_event event) in se_ret (events ++ [event])
       else se_ret events) in
    run! update_warnings <[generation target := warning]> in
    se_ret (events, trips)
  end.

(** The body of the loop over the sorted observations. *)
Definition judge_one (sample : WatchdogSample) (o : WatchdogProtectionObservation)
    (acc : list WatchdogSafetyEvent * list Trip)
  : SE (WatchdogManager W) WatchdogError (list WatchdogSafetyEvent * list Trip) :=
  let '(events, trips) := acc in
  let target := obs_target o in
  match phase target with
  | Disarmed =>
    run! wd_call (acknowledge_disarmed target) in
    run! update_warnings (delete (generation target)) in
    se_ret (events, trips)
  | Pending =>
    run! update_warnings (delete (generation target)) in
    se_ret (events, trips)
  | Starting | Armed => judge_active sample o events trips
  end.

Fixpoint judge_observations (sample : WatchdogSample)
    (os : list WatchdogProtectionObservation)
    (acc : list WatchdogSafetyEvent * list Trip)
  : SE (WatchdogManager W) WatchdogError (list WatchdogSafetyEvent * list Trip) :=
  match os with
  | [] => se_ret acc
  | o :: os => do! acc <- judge_one sample o acc in judge_observations sample os acc
  end.

(** The loop over the trips: latch, contain, record. *)
Fixpoint execute_trips (sample : WatchdogSample) (trips : list Trip)
    (events : list WatchdogSafetyEvent)
  : SE (WatchdogManager W) WatchdogError (list WatchdogSafetyEvent) :=
  match trips with
  | [] => se_ret events
  | (o, action, reason) :: trips =>
    let target := obs_target o in
    run! wd_call (latch_trip target action reason (obs_safety o)) in
    do! thresholds <- get_thresholds in
    do! complete <-
      or_false (wd_call (contain target action (containment_grace_milliseconds thresholds))) in
    let event := trip_event target action reason sample complete in
    run! wd_call (record_event event) in
    run! update_warnings (delete (generation target)) in
    execute_trips sample trips (events ++ [event])
  end.

Definition flush_if (b : bool) : SE (WatchdogManager W) WatchdogError () :=
  if b then wd_call storage_flush else se_ret ().

Definition is_nil {A} (l : list A) : bool := match l with [] => true | _ => false end.

(** The tail of the tick: advance the sequence and the clocks. *)
Definition commit_sample (sample : WatchdogSample)
  : SE (WatchdogManager W) WatchdogError () := λ m,
  let st := wm_state m in
  match checked_add_u64 (next_sequence st) 1 with
  | None => (Err (WatchdogInvalidContract "Watchdog sequence overflowed"), m)
  | Some next =>
    (Ok (), set_wd_state {| next_sequence := next;
                            last_unix_milliseconds := unix_milliseconds sample;
                            last_monotonic_milliseconds := monotonic_milliseconds sample;
                            warnings := warnings st |} m)
  end.

Definition tick : SE (WatchdogManager W) WatchdogError WatchdogTick :=
  do! st <- get_state in
  do! sample <- wd_call (provide_sample (next_sequence st)) in
  run! se_lift (validate_sample_order st sample) in
  do! observations <- wd_call (provide_observations sample) in
  let observations := sort_by (λ l r, String.compare (obs_generation l) (obs_generation r))
                        observations in
  run! se_lift (validate_observations observations) in
  run! wd_call (record_sample sample) in
  do! (events, trips) <- judge_observations sample observations ([], []) in
  run! flush_if (negb (is_nil trips)) in
  do! events <- execute_trips sample trips events in
  run! flush_if (existsb (λ e, is_present (event_action e)) events) in
  run! commit_sample sample in
  se_ret {| tick_sample := sample; tick_events := events;
            tick_active_targets := length observations;
            tick_protection_cycle := cycle_completed sample observations events |}.

Definition manager_flush : SE (WatchdogManager W) WatchdogError () := wd_call storage_flush.

(** [WatchdogManager::new]. *)
Definition manager_new (thresholds : WatchdogSafetyThresholds) (w : W)
  : result WatchdogError (WatchdogManager W) :=
  let '(r, w) := storage_next_sequence w in
  let? next := r in
  if next =? 0 then Err (WatchdogInvalidContract "Watchdog storage returned a zero sequence")
  else Ok {| wm_thresholds := thresholds; wm_world := w;
             wm_state := {| next_sequence := next; last_unix_milliseconds := 0;
                            last_monotonic_milliseconds := 0; warnings := ∅ |} |}.
End manager.
