(* ===== verification/WatchdogSafety.v ===== *)
(** * Watchdog safety: what a tick does, in which order

    The theorems about [WatchdogManager.tick] quantify over every provider.  To
    speak of the order of provider calls, [logged] wraps an arbitrary provider so
    that each call is appended to a log; the tick runs unchanged over it. *)

From S2P Require Import Prelude Ordering Values WatchdogRecord WatchdogContract WatchdogManager.

(** ** Provider calls *)

Inductive Effect :=
| ESample (r : result WatchdogError WatchdogSample)
| EObserve (r : result WatchdogError (list WatchdogProtectionObservation))
| EAcknowledge (target : WatchdogProtectedEngine) (ok : bool)
| ELatch (target : WatchdogProtectedEngine) (action : WatchdogSafetyAction) (ok : bool)
| EContain (target : WatchdogProtectedEngine) (action : WatchdogSafetyAction) (grace : Z)
| ERecordSample (sample : WatchdogSample) (ok : bool)
| ERecordEvent (event : WatchdogSafetyEvent) (ok : bool)
| EFlush (ok : bool).

Definition log_call {W A} (f : W → result WatchdogError A * W)
    (e : result WatchdogError A → Effect) (w : W * list Effect)
  : result WatchdogError A * (W * list Effect) :=
  let '(r, w') := f w.1 in (r, (w', w.2 ++ [e r])).

#[export] Instance logged {W} `{!WatchdogProviders W} : WatchdogProviders (W * list Effect) := {|
  provide_sample n := log_call (provide_sample n) ESample;
  provide_observations s := log_call (provide_observations s) EObserve;
  acknowledge_disarmed t := log_call (acknowledge_disarmed t) (λ r, EAcknowledge t (is_ok r));
  latch_trip t a reason i := log_call (latch_trip t a reason i) (λ r, ELatch t a (is_ok r));
  contain t a g := log_call (contain t a g) (λ _, EContain t a g);
  storage_next_sequence := λ w, let '(r, w') := storage_next_sequence w.1 in (r, (w', w.2));
  record_sample s := log_call (record_sample s) (λ r, ERecordSample s (is_ok r));
  record_event e := log_call (record_event e) (λ r, ERecordEvent e (is_ok r));
  storage_flush := log_call storage_flush (λ r, EFlush (is_ok r));
|}.

Definition effects {W} (m : WatchdogManager (W * list Effect)) : list Effect := (wm_world m).2.

(** ** Reference decisions *)

(** The evidence of one observation: a process that is gone is stopped for
    good, one whose cgroup reports a new OOM kill, of a process or of the whole
    group, is killed, and memory pressure alone is no evidence. *)
Definition evidence (o : WatchdogProtectionObservation) : option (WatchdogSafetyAction * string) :=
  match obs_process_state o with
  | Exited => Some (Stop, "protected_process_exited"%string)
  | Running =>
    match cgroup_oom_kill_delta (obs_safety o), cgroup_oom_group_kill_delta (obs_safety o) with
    | 0, 0 => None
    | _, _ => Some (Kill, "cgroup_oom_kill"%string)
    end
  end.

Lemma safety_decision_evidence o : safety_decision o = evidence o.
Proof.
  unfold safety_decision, evidence.
  destruct (obs_process_state o); [|done]. rewrite bool_decide_eq_false_2 by done.
  by destruct (cgroup_oom_kill_delta _), (cgroup_oom_group_kill_delta _).
Qed.

(** The trip of one observation: only a bound process without a latch can trip. *)
Definition must_trip (o : WatchdogProtectionObservation) : option Trip :=
  if process_bound (phase (obs_target o)) && negb (obs_trip_latched o)
  then (λ ar, (o, ar.1, ar.2)) <$> evidence o else None.

Lemma must_trip_decision o :
  must_trip o = if process_bound (phase (obs_target o)) && negb (obs_trip_latched o)
                then (λ ar, (o, ar.1, ar.2)) <$> safety_decision o else None.
Proof. unfold must_trip. by rewrite safety_decision_evidence. Qed.

Definition is_warned (limit : Z) (o : WatchdogProtectionObservation) : bool :=
  available_bytes (obs_safety o) <=? limit.

(** A warning event is due: an active target crossed the limit since the state [ws]. *)
Definition newly_warned (limit : Z) (ws : gmap string bool) (o : WatchdogProtectionObservation)
  : bool :=
  process_bound (phase (obs_target o)) && negb (obs_trip_latched o)
  && negb (is_present (safety_decision o))
  && is_warned limit o && negb (default false (ws !! obs_generation o)).

Definition sorted_observations (os : list WatchdogProtectionObservation) :=
  sort_by (λ l r, String.compare (obs_generation l) (obs_generation r)) os.

Definition contained (l : list Effect) : list (WatchdogProtectedEngine * WatchdogSafetyAction) :=
  omap (λ e, match e with EContain t a _ => Some (t, a) | _ => None end) l.

Definition trip_key (t : Trip) : WatchdogProtectedEngine * WatchdogSafetyAction :=
  (obs_target t.1.1, t.1.2).

(** ** Structure of the log *)

Definition quiet (e : Effect) : Prop :=
  match e with EContain _ _ _ | ELatch _ _ _ => False | _ => True end.

(** The log of the trip loop: each containment directly after its own latch. *)
Inductive trip_log : list Effect → Prop :=
| trip_log_nil : trip_log []
| trip_log_latch_failed t a : trip_log [ELatch t a false]
| trip_log_event_failed t a g e : trip_log [ELatch t a true; EContain t a g; ERecordEvent e false]
| trip_log_step t a g e l :
    trip_log l → trip_log (ELatch t a true :: EContain t a g :: ERecordEvent e true :: l).

Section proofs.
Context {W : Type} `{!WatchdogProviders W}.
Abbreviation M := (WatchdogManager (W * list Effect)).

(** A computation keeps the thresholds and extends the log. *)
Definition extends (m m' : M) (l : list Effect) : Prop :=
  wm_thresholds m' = wm_thresholds m ∧ effects m' = effects m ++ l.

Lemma extends_refl m : extends m m [].
Proof. split; [done|]. by rewrite app_nil_r. Qed.

Lemma extends_trans m1 m2 m3 l1 l2 :
  extends m1 m2 l1 → extends m2 m3 l2 → extends m1 m3 (l1 ++ l2).
Proof. intros [? E1] [? E2]. split; [congruence|]. by rewrite E2, E1, app_assoc. Qed.

Lemma log_call_spec {A} (f : W → result WatchdogError A * W) e (m : M) r m' :
  wd_call (log_call f e) m = (r, m') → extends m m' [e r] ∧ wm_state m' = wm_state m.
Proof.
  unfold wd_call, log_call. destruct (f (wm_world m).1) as [r0 w]. intros [= <- <-].
  by split.
Qed.

(** The clocks and the sequence are untouched until the end of the tick. *)
Definition same_clock (m m' : M) : Prop :=
  next_sequence (wm_state m') = next_sequence (wm_state m) ∧
  last_unix_milliseconds (wm_state m') = last_unix_milliseconds (wm_state m) ∧
  last_monotonic_milliseconds (wm_state m') = last_monotonic_milliseconds (wm_state m).

Lemma same_clock_refl m : same_clock m m.
Proof. done. Qed.
Lemma same_clock_state m m' : wm_state m' = wm_state m → same_clock m m'.
Proof. unfold same_clock. by intros ->. Qed.
Lemma same_clock_trans m1 m2 m3 : same_clock m1 m2 → same_clock m2 m3 → same_clock m1 m3.
Proof. unfold same_clock. naive_solver congruence. Qed.

Lemma update_warnings_spec f (m : M) r m' :
  update_warnings f m = (r, m') →
  r = Ok () ∧ extends m m' [] ∧ same_clock m m' ∧
  warnings (wm_state m') = f (warnings (wm_state m)).
Proof.
  unfold update_warnings. intros [= <- <-]. split_and!; try done.
  split; [done|]. by rewrite app_nil_r.
Qed.

(** What the loop leaves in the warning table: the current state of the active
    targets that do not trip, and nothing new about any other generation. *)
Definition warns_after (limit : Z) (os : list WatchdogProtectionObservation)
    (ws ws' : gmap string bool) : Prop :=
  (∀ g, g ∉ (obs_generation <$> os) → ws' !! g = ws !! g) ∧
  (∀ o, o ∈ os → process_bound (phase (obs_target o)) = true → obs_trip_latched o = false →
     safety_decision o = None → ws' !! obs_generation o = Some (is_warned limit o)).

Lemma warns_after_cons limit o os ws ws1 ws' :
  obs_generation o ∉ (obs_generation <$> os) →
  (∀ g, g ≠ obs_generation o → ws1 !! g = ws !! g) →
  (process_bound (phase (obs_target o)) = true → obs_trip_latched o = false →
     safety_decision o = None → ws1 !! obs_generation o = Some (is_warned limit o)) →
  warns_after limit os ws1 ws' → warns_after limit (o :: os) ws ws'.
Proof.
  intros Hn Hne Ho [Hout Hin]. split.
  - intros g Hg. rewrite fmap_cons, not_elem_of_cons in Hg. destruct Hg. rewrite Hout; auto.
  - intros o' [->|Ho']%elem_of_cons; [|by apply Hin]. intros. rewrite Hout by done. auto.
Qed.

(** Warning events only look at the entries of their own generations. *)
Lemma filter_newly_warned_ext limit ws ws1 os :
  (∀ o, o ∈ os → ws1 !! obs_generation o = ws !! obs_generation o) →
  List.filter (newly_warned limit ws1) os = List.filter (newly_warned limit ws) os.
Proof.
  induction os as [|o os IH]; intros H; [done|]. simpl.
  assert (newly_warned limit ws1 o = newly_warned limit ws o) as ->
    by (unfold newly_warned; rewrite H by set_solver; done).
  rewrite IH by set_solver. done.
Qed.

Definition judged (limit : Z) (sample : WatchdogSample)
    (os : list WatchdogProtectionObservation) (events : list WatchdogSafetyEvent)
    (trips : list Trip) (ws ws' : gmap string bool)
    (r : result WatchdogError (list WatchdogSafetyEvent * list Trip)) : Prop :=
  match r with
  | Err _ => True
  | Ok (events', trips') =>
    trips' = trips ++ omap must_trip os ∧
    (NoDup (obs_generation <$> os) →
     events' = events ++ ((λ o, warning_event (obs_target o) sample) <$>
                          List.filter (newly_warned limit ws) os) ∧
     warns_after limit os ws ws')
  end.

(** One more observation in front of a judged list. *)
Lemma judged_cons limit sample o os events trips events1 trips1 ws ws1 ws' r :
  trips1 = trips ++ omap must_trip [o] →
  events1 = events ++ ((λ o, warning_event (obs_target o) sample) <$>
                       List.filter (newly_warned limit ws) [o]) →
  (∀ g, g ≠ obs_generation o → ws1 !! g = ws !! g) →
  (process_bound (phase (obs_target o)) = true → obs_trip_latched o = false →
     safety_decision o = None → ws1 !! obs_generation o = Some (is_warned limit o)) →
  judged limit sample os events1 trips1 ws1 ws' r →
  judged limit sample (o :: os) events trips ws ws' r.
Proof.
  intros -> -> Hne Ho. unfold judged. destruct r as [[events' trips']|]; [|done].
  change (o :: os) with ([o] ++ os). rewrite omap_app, (app_assoc trips).
  intros [-> H]. split; [done|]. rewrite fmap_app. simpl. intros [Hn Hd]%NoDup_cons.
  destruct (H Hd) as [-> Hw]. split; [|by eapply warns_after_cons].
  rewrite (filter_newly_warned_ext limit ws ws1 os), <- app_assoc, <- fmap_app.
  - do 2 f_equal. simpl. by destruct (newly_warned limit ws o).
  - intros o' Ho'. apply Hne. intros E. apply Hn. rewrite <- E. by apply list_elem_of_fmap_2.
Qed.

(** The body of the loop. *)
Definition judged_one (limit : Z) (sample : WatchdogSample) (o : WatchdogProtectionObservation)
    (events : list WatchdogSafetyEvent) (trips : list Trip) (ws ws1 : gmap string bool)
    (r : result WatchdogError (list WatchdogSafetyEvent * list Trip)) : Prop :=
  match r with
  | Err _ => True
  | Ok (events1, trips1) =>
    trips1 = trips ++ omap must_trip [o] ∧
    events1 = events ++ ((λ o, warning_event (obs_target o) sample) <$>
                         List.filter (newly_warned limit ws) [o]) ∧
    (∀ g, g ≠ obs_generation o → ws1 !! g = ws !! g) ∧
    (process_bound (phase (obs_target o)) = true → obs_trip_latched o = false →
       safety_decision o = None → ws1 !! obs_generation o = Some (is_warned limit o))
  end.

Definition quietly (m m' : M) : Prop :=
  ∃ l, extends m m' l ∧ Forall quiet l ∧ same_clock m m'.

Lemma quietly_refl m : quietly m m.
Proof. exists []. split_and!; [apply extends_refl|constructor|done]. Qed.

Lemma quietly_trans m1 m2 m3 : quietly m1 m2 → quietly m2 m3 → quietly m1 m3.
Proof.
  intros (l1 & ? & ? & ?) (l2 & ? & ? & ?). exists (l1 ++ l2).
  split_and!; [by eapply extends_trans|by apply Forall_app|by eapply same_clock_trans].
Qed.

Lemma quietly_call {A} (f : W → result WatchdogError A * W) e (m : M) r m' :
  quiet (e r) → wd_call (log_call f e) m = (r, m') →
  quietly m m' ∧ wm_state m' = wm_state m.
Proof.
  intros Hq [He Hs]%log_call_spec. split; [|done]. exists [e r].
  split_and!; [done|by repeat constructor|by apply same_clock_state].
Qed.

Lemma quietly_update f (m : M) r m' :
  update_warnings f m = (r, m') →
  quietly m m' ∧ warnings (wm_state m') = f (warnings (wm_state m)).
Proof.
  intros (_ & ? & ? & ?)%update_warnings_spec. split; [|done]. exists [].
  split_and!; [done|constructor|done].
Qed.

(** An observation that neither trips nor warns. *)
Lemma judged_one_none limit sample o events trips ws ws1 :
  must_trip o = None → newly_warned limit ws o = false →
  (∀ g, g ≠ obs_generation o → ws1 !! g = ws !! g) →
  (process_bound (phase (obs_target o)) = true → obs_trip_latched o = false →
     safety_decision o = None → ws1 !! obs_generation o = Some (is_warned limit o)) →
  judged_one limit sample o events trips ws ws1 (Ok (events, trips)).
Proof. intros Ht Hw ? ?. simpl. rewrite Ht, Hw. simpl. by rewrite !app_nil_r. Qed.

Lemma warn_spec (b : bool) event events (m : M) r m1 :
  (if b then run! wd_call (record_event event) in se_ret (events ++ [event])
   else se_ret events) m = (r, m1) →
  quietly m m1 ∧ wm_state m1 = wm_state m ∧
  (∀ events1, r = Ok events1 → events1 = events ++ (if b then [event] else [])).
Proof.
  destruct b.
  - intros [([] & m2 & Hc & H)|(e & Hc & ->)]%se_bind_inv; apply quietly_call in Hc as [? ?];
      try done. unfold se_ret in H. simplify_eq. naive_solver.
  - unfold se_ret. intros [= <- <-]. split_and!; [apply quietly_refl|done|].
    intros ? [= <-]. by rewrite app_nil_r.
Qed.

Lemma judge_active_spec sample o events trips (m : M) r m' :
  process_bound (phase (obs_target o)) = true →
  judge_active sample o events trips m = (r, m') →
  quietly m m' ∧
  judged_one (warning_available_bytes (wm_thresholds m)) sample o events trips
    (warnings (wm_state m)) (warnings (wm_state m')) r.
Proof.
  intros Hb. unfold judge_active. destruct (obs_trip_latched o) eqn:Hl.
  { intros [= <- <-]. split; [apply quietly_refl|].
    apply judged_one_none; [rewrite must_trip_decision; by rewrite Hb, Hl|
      unfold newly_warned; by rewrite Hb, Hl|done|congruence]. }
  destruct (safety_decision o) as [[action reason]|] eqn:Hd.
  { intros [= <- <-]. split; [apply quietly_refl|]. unfold judged_one. split_and!; [| |done|congruence].
    - simpl. rewrite must_trip_decision. by rewrite Hb, Hl, Hd.
    - simpl. unfold newly_warned. rewrite Hb, Hl, Hd. simpl. by rewrite app_nil_r. }
  change (available_bytes (obs_safety o) <=? ?x) with (is_warned x o).
  unfold get_thresholds, get_state. cbn [se_bind].
  intros [(events1 & m1 & Hev & H)|(e & Hev & ->)]%se_bind_inv.
  - apply warn_spec in Hev as (Hq & Hst & He1). rewrite (He1 _ eq_refl) in H.
    apply se_bind_inv in H as [([] & m2 & Hu & H)|(e & Hu & ->)];
      apply quietly_update in Hu as [Hq2 Hw]; unfold se_ret in *; simplify_eq;
      (split; [by eapply quietly_trans|]); [|done]. rewrite Hst in Hw. rewrite Hw. unfold judged_one. split_and!.
    + simpl. rewrite must_trip_decision. rewrite Hb, Hl, Hd. simpl. by rewrite app_nil_r.
    + simpl. unfold newly_warned. rewrite Hb, Hl, Hd. simpl. unfold obs_generation.
      by destruct (is_warned _ o && _).
    + intros g Hg. by rewrite lookup_insert_ne by done.
    + intros _ _ _. by rewrite lookup_insert_eq.
  - apply warn_spec in Hev as (Hq & _ & _). done.
Qed.

Lemma judge_one_spec sample o events trips (m : M) r m' :
  judge_one sample o (events, trips) m = (r, m') →
  quietly m m' ∧
  judged_one (warning_available_bytes (wm_thresholds m)) sample o events trips
    (warnings (wm_state m)) (warnings (wm_state m')) r.
Proof.
  unfold judge_one.
  assert (∀ m1, process_bound (phase (obs_target o)) = false → quietly m m1 →
    wm_state m1 = wm_state m →
    (run! update_warnings (delete (generation (obs_target o))) in se_ret (events, trips)) m1
      = (r, m') →
    quietly m m' ∧ judged_one (warning_available_bytes (wm_thresholds m)) sample o events trips
      (warnings (wm_state m)) (warnings (wm_state m')) r) as Hidle.
  { intros m1 Hb Hq Hst [([] & m2 & Hu & H)|(e & Hu & ->)]%se_bind_inv;
      apply quietly_update in Hu as [Hq2 Hw]; unfold se_ret in *; simplify_eq;
      (split; [by eapply quietly_trans|]); [|done]. rewrite Hw, Hst.
    apply judged_one_none; [rewrite must_trip_decision; by rewrite Hb|unfold newly_warned; by rewrite Hb| |congruence].
    intros g Hg. by rewrite lookup_delete_ne by done. }
  destruct (phase (obs_target o)) eqn:Hphase.
  - apply (Hidle m); [done|apply quietly_refl|done].
  - apply judge_active_spec. by rewrite Hphase.
  - apply judge_active_spec. by rewrite Hphase.
  - intros [([] & m1 & Hc & H)|(e & Hc & ->)]%se_bind_inv;
      apply quietly_call in Hc as [Hq Hst]; try done. by apply (Hidle m1).
Qed.

Lemma quietly_thresholds m m' : quietly m m' → wm_thresholds m' = wm_thresholds m.
Proof. by intros (l & [? _] & _). Qed.

Lemma judge_spec sample os events trips (m : M) r m' :
  judge_observations sample os (events, trips) m = (r, m') →
  quietly m m' ∧
  judged (warning_available_bytes (wm_thresholds m)) sample os events trips
    (warnings (wm_state m)) (warnings (wm_state m')) r.
Proof.
  revert events trips m. induction os as [|o os IH]; intros events trips m; simpl.
  { intros [= <- <-]. split; [apply quietly_refl|]. simpl. rewrite !app_nil_r.
    split; [done|]. intros _. split; [done|]. split; [done|].
    intros o Ho. by apply not_elem_of_nil in Ho. }
  intros [([events1 trips1] & m1 & H1 & H)|(e & H1 & ->)]%se_bind_inv;
    apply judge_one_spec in H1 as [Hq1 H1]; [|done].
  apply IH in H as [Hq Hj]. split; [by eapply quietly_trans|].
  rewrite (quietly_thresholds _ _ Hq1) in Hj. destruct H1 as (Ht & He & Hne & Ho).
  by eapply judged_cons.
Qed.

(** ** The loop over the trips *)

Definition trip_generation (t : Trip) : string := obs_generation t.1.1.
Definition event_of (sample : WatchdogSample) (t : Trip) (complete : bool) : WatchdogSafetyEvent :=
  trip_event (obs_target t.1.1) t.1.2 t.2 sample complete.

Definition executed (sample : WatchdogSample) (trips : list Trip)
    (events : list WatchdogSafetyEvent) (l : list Effect)
    (r : result WatchdogError (list WatchdogSafetyEvent)) : Prop :=
  match r with
  | Err _ => True
  | Ok events' =>
    contained l = trip_key <$> trips ∧
    ∃ completes, length completes = length trips ∧
      events' = events ++ zip_with (event_of sample) trips completes
  end.

Lemma contain_spec target action (m : M) r m' :
  or_false (wd_call (contain target action (containment_grace_milliseconds (wm_thresholds m)))) m
    = (r, m') →
  (∃ b, r = Ok b) ∧ wm_state m' = wm_state m ∧
  extends m m' [EContain target action (containment_grace_milliseconds (wm_thresholds m))].
Proof.
  unfold or_false. destruct (wd_call _ m) as [[b|e] m1] eqn:H;
    apply log_call_spec in H as [He Hs]; intros [= <- <-]; naive_solver.
Qed.

Lemma execute_spec sample trips events (m : M) r m' :
  execute_trips sample trips events m = (r, m') →
  ∃ l, extends m m' l ∧ trip_log l ∧ (trips = [] → l = []) ∧ same_clock m m' ∧
    (∀ g, g ∉ (trip_generation <$> trips) →
       warnings (wm_state m') !! g = warnings (wm_state m) !! g) ∧
    executed sample trips events l r.
Proof.
  revert events m. induction trips as [|[[o action] reason] trips IH]; intros events m; simpl.
  { intros [= <- <-]. exists []. split_and!; [apply extends_refl|constructor|done|done|done|].
    simpl. split; [done|]. exists []. by rewrite app_nil_r. }
  intros [([] & m1 & H1 & H)|(e & H1 & ->)]%se_bind_inv; apply log_call_spec in H1 as [He1 Hs1].
  2:{ exists [ELatch (obs_target o) action false].
      split_and!; [done|constructor|done|by apply same_clock_state| |done]. by rewrite Hs1. }
  unfold get_thresholds in H. cbn [se_bind] in H.
  apply se_bind_inv in H as [(complete & m2 & H2 & H)|(e & H2 & ->)];
    apply contain_spec in H2 as ([b Hb] & Hs2 & He2); [|done].
  apply se_bind_inv in H as [([] & m3 & H3 & H)|(e & H3 & ->)];
    apply log_call_spec in H3 as [He3 Hs3].
  2:{ eexists. split; [exact (extends_trans _ _ _ _ _ He1 (extends_trans _ _ _ _ _ He2 He3))|].
      split_and!; [constructor|done|apply same_clock_state; congruence| |done].
      intros g _. by rewrite Hs3, Hs2, Hs1. }
  apply se_bind_inv in H as [([] & m4 & H4 & H)|(e & H4 & ->)];
    apply update_warnings_spec in H4 as (Hr4 & He4 & Hs4 & Hw4); [|done].
  apply IH in H as (l & He & Hl & _ & Hs & Hw & Hx). eexists.
  split; [exact (extends_trans _ _ _ _ _ He1 (extends_trans _ _ _ _ _ He2
    (extends_trans _ _ _ _ _ He3 (extends_trans _ _ _ _ _ He4 He))))|]. split_and!.
  - simpl. by constructor.
  - done.
  - eapply same_clock_trans; [|exact Hs]. eapply same_clock_trans; [|exact Hs4].
    apply same_clock_state. congruence.
  - intros g Hg. rewrite not_elem_of_cons in Hg. destruct Hg as [Hne Hg].
    rewrite Hw, Hw4, lookup_delete_ne, Hs3, Hs2, Hs1 by done. done.
  - destruct r as [events'|]; [|done]. destruct Hx as (Hc & completes & Hlen & ->).
    split; [simpl; by rewrite Hc|]. exists (complete :: completes). split; [simpl; by rewrite Hlen|].
    simpl. by rewrite <- app_assoc.
Qed.

(** ** The tick *)

Lemma flush_if_spec b (m : M) r m' :
  flush_if b m = (r, m') →
  wm_state m' = wm_state m ∧
  extends m m' (if b then [EFlush (is_ok r)] else []).
Proof.
  unfold flush_if. destruct b.
  - intros [? ?]%log_call_spec. done.
  - intros [= <- <-]. split; [done|apply extends_refl].
Qed.

Lemma commit_sample_spec sample (m : M) r m' :
  commit_sample sample m = (r, m') →
  extends m m' [] ∧
  if is_ok r
  then wm_state m' = {| next_sequence := next_sequence (wm_state m) + 1;
                        last_unix_milliseconds := unix_milliseconds sample;
                        last_monotonic_milliseconds := monotonic_milliseconds sample;
                        warnings := warnings (wm_state m) |}
  else same_clock m m'.
Proof.
  unfold commit_sample. destruct (checked_add_u64 _ _) as [n|] eqn:Hn; intros [= <- <-].
  - apply checked_add_u64_Some in Hn as [-> _]. split; [|done]. split; [done|]. by rewrite app_nil_r.
  - split; [apply extends_refl|done].
Qed.

Lemma validate_sample_order_Ok st sample :
  validate_sample_order st sample = Ok () →
  sequence sample = next_sequence st ∧ last_unix_milliseconds st ≤ unix_milliseconds sample ∧
  last_monotonic_milliseconds st < monotonic_milliseconds sample.
Proof. unfold validate_sample_order. intros H. inv_result H. lia. Qed.

Lemma validate_observations_Ok os :
  validate_observations os = Ok () → NoDup (obs_generation <$> os).
Proof.
  unfold validate_observations. intros H. inv_result H.
  apply orb_false_iff in Hc as [_ Hc%negb_false_iff%Nat.eqb_eq].
  apply NoDup_list_to_set_size. by rewrite Hc, length_fmap.
Qed.

(** A completed tick. *)
Record ticked (m m' : M) (t : WatchdogTick) (os : list WatchdogProtectionObservation)
    (lt : list Effect) : Prop := {
  ticked_unique : NoDup (obs_generation <$> sorted_observations os);
  ticked_sequence : sequence (tick_sample t) = next_sequence (wm_state m);
  ticked_unix : last_unix_milliseconds (wm_state m) ≤ unix_milliseconds (tick_sample t);
  ticked_monotonic :
    last_monotonic_milliseconds (wm_state m) < monotonic_milliseconds (tick_sample t);
  ticked_next : next_sequence (wm_state m') = next_sequence (wm_state m) + 1;
  ticked_last_unix : last_unix_milliseconds (wm_state m') = unix_milliseconds (tick_sample t);
  ticked_last_monotonic :
    last_monotonic_milliseconds (wm_state m') = monotonic_milliseconds (tick_sample t);
  ticked_contained : contained lt = trip_key <$> omap must_trip (sorted_observations os);
  ticked_events : ∃ completes,
    length completes = length (omap must_trip (sorted_observations os)) ∧
    tick_events t =
      ((λ o, warning_event (obs_target o) (tick_sample t)) <$>
         List.filter (newly_warned (warning_available_bytes (wm_thresholds m))
                        (warnings (wm_state m))) (sorted_observations os))
      ++ zip_with (event_of (tick_sample t)) (omap must_trip (sorted_observations os)) completes;
  ticked_cycle : tick_protection_cycle t
    = cycle_completed (tick_sample t) (sorted_observations os) (tick_events t);
  ticked_flushed : omap must_trip (sorted_observations os) ≠ [] → last lt = Some (EFlush true);
  ticked_warnings : ∀ o, o ∈ os → process_bound (phase (obs_target o)) = true →
    obs_trip_latched o = false → safety_decision o = None →
    warnings (wm_state m') !! obs_generation o
      = Some (is_warned (warning_available_bytes (wm_thresholds m)) o);
}.

Definition well_ordered (l : list Effect) : Prop :=
  ∃ l0 lt l2, l = l0 ++ lt ++ l2 ∧ Forall quiet l0 ∧ trip_log lt ∧ Forall quiet l2 ∧
    (lt = [] ∨ (EFlush true ∈ l0 ∧ ∃ s, ERecordSample s true ∈ l0)).

Lemma well_ordered_quiet l : Forall quiet l → well_ordered l.
Proof.
  intros Hq. exists l, [], []. rewrite app_nil_r.
  split_and!; [done|done|constructor|constructor|by left].
Qed.

Lemma contained_app l1 l2 : contained (l1 ++ l2) = contained l1 ++ contained l2.
Proof. apply omap_app. Qed.

Lemma contained_quiet l : Forall quiet l → contained l = [].
Proof. induction 1 as [|e l He Hl IH]; [done|]. unfold contained in *. simpl. by destruct e. Qed.

(** The first half of the tick: sample, observe, validate, store the sample. *)
Definition begin_tick : SE M WatchdogError
    (WatchdogSample * list WatchdogProtectionObservation) :=
  do! st <- get_state in
  do! sample <- wd_call (provide_sample (next_sequence st)) in
  run! se_lift (validate_sample_order st sample) in
  do! observations <- wd_call (provide_observations sample) in
  let observations := sorted_observations observations in
  run! se_lift (validate_observations observations) in
  run! wd_call (record_sample sample) in
  se_ret (sample, observations).

Definition end_tick (x : WatchdogSample * list WatchdogProtectionObservation)
  : SE M WatchdogError WatchdogTick :=
  let '(sample, observations) := x in
  do! (events, trips) <- judge_observations sample observations ([], []) in
  run! flush_if (negb (is_nil trips)) in
  do! events <- execute_trips sample trips events in
  run! flush_if (existsb (λ e, is_present (event_action e)) events) in
  run! commit_sample sample in
  se_ret {| tick_sample := sample; tick_events := events;
            tick_active_targets := length observations;
            tick_protection_cycle := cycle_completed sample observations events |}.

Lemma tick_halves m : tick m = se_bind begin_tick end_tick m.
Proof.
  unfold tick, begin_tick, end_tick, se_bind, se_lift, se_ret, get_state, sorted_observations.
  repeat (match goal with |- context [match ?x with _ => _ end] => destruct x end; try done).
Qed.

Definition begun (m : M) (l : list Effect)
    (r : result WatchdogError (WatchdogSample * list WatchdogProtectionObservation)) : Prop :=
  match r with
  | Err _ => True
  | Ok (sample, sos) => ∃ os, sos = sorted_observations os ∧
      EObserve (Ok os) ∈ l ∧ ERecordSample sample true ∈ l ∧
      validate_sample_order (wm_state m) sample = Ok () ∧ validate_observations sos = Ok ()
  end.

Lemma begin_tick_spec m r m' :
  begin_tick m = (r, m') →
  ∃ l, extends m m' l ∧ Forall quiet l ∧ wm_state m' = wm_state m ∧ begun m l r.
Proof.
  unfold begin_tick, get_state. cbn [se_bind].
  intros [(sample & m1 & H1 & H)|(e & H1 & ->)]%se_bind_inv; apply log_call_spec in H1 as [He1 Hs1].
  2:{ eexists. split_and!; [exact He1|by repeat constructor|done|done]. }
  apply se_bind_inv in H as [([] & m2 & H2 & H)|(e & H2 & ->)]; injection H2 as H2 <-.
  2:{ eexists. split_and!; [exact He1|by repeat constructor|done|done]. }
  apply se_bind_inv in H as [(os & m3 & H3 & H)|(e & H3 & ->)]; apply log_call_spec in H3 as [He3 Hs3].
  2:{ eexists. split_and!; [exact (extends_trans _ _ _ _ _ He1 He3)|by repeat constructor|
        congruence|done]. }
  apply se_bind_inv in H as [([] & m4 & H4 & H)|(e & H4 & ->)]; injection H4 as H4 <-.
  2:{ eexists. split_and!; [exact (extends_trans _ _ _ _ _ He1 He3)|by repeat constructor|
        congruence|done]. }
  pose proof (extends_trans _ _ _ _ _ He1 He3) as He13.
  apply se_bind_inv in H as [([] & m5 & H5 & H)|(e & H5 & ->)]; apply log_call_spec in H5 as [He5 Hs5].
  2:{ eexists. split_and!; [exact (extends_trans _ _ _ _ _ He13 He5)|by repeat constructor|
        congruence|done]. }
  injection H as <- <-.
  eexists. split_and!; [exact (extends_trans _ _ _ _ _ He13 He5)|by repeat constructor|congruence|].
  exists os. split_and!; [done|set_solver|set_solver|done|done].
Qed.

(** The warning events carry no action, the trip events do. *)
Lemma events_have_action sample os trips completes :
  length completes = length trips →
  existsb (λ e, is_present (event_action e))
    (((λ o, warning_event (obs_target o) sample) <$> os)
     ++ zip_with (event_of sample) trips completes) = negb (is_nil trips).
Proof.
  intros Hlen. induction os as [|o os IH]; [|by simpl].
  by destruct trips, completes.
Qed.

Lemma trips_generations (os : list WatchdogProtectionObservation) g :
  g ∈ (trip_generation <$> omap must_trip os) →
  ∃ o, o ∈ os ∧ obs_generation o = g ∧ is_Some (safety_decision o).
Proof.
  intros ([[o a] reason] & -> & (o' & Ho & Ht)%list_elem_of_omap)%list_elem_of_fmap.
  rewrite must_trip_decision in Ht. destruct (_ && _); [|done].
  destruct (safety_decision o') as [[]|] eqn:Hd; simplify_eq/=. eauto.
Qed.

(** What the second half of a completed tick leaves. *)
Record ended (m m' : M) (sample : WatchdogSample) (sos : list WatchdogProtectionObservation)
    (t : WatchdogTick) (l : list Effect) : Prop := {
  ended_sample : tick_sample t = sample;
  ended_next : next_sequence (wm_state m') = next_sequence (wm_state m) + 1;
  ended_unix : last_unix_milliseconds (wm_state m') = unix_milliseconds sample;
  ended_monotonic : last_monotonic_milliseconds (wm_state m') = monotonic_milliseconds sample;
  ended_contained : contained l = trip_key <$> omap must_trip sos;
  ended_events : ∃ completes, length completes = length (omap must_trip sos) ∧
    tick_events t =
      ((λ o, warning_event (obs_target o) sample) <$>
         List.filter (newly_warned (warning_available_bytes (wm_thresholds m))
                        (warnings (wm_state m))) sos)
      ++ zip_with (event_of sample) (omap must_trip sos) completes;
  ended_cycle : tick_protection_cycle t = cycle_completed sample sos (tick_events t);
  ended_flushed : omap must_trip sos ≠ [] → last l = Some (EFlush true);
  ended_warnings : ∀ o, o ∈ sos → process_bound (phase (obs_target o)) = true →
    obs_trip_latched o = false → safety_decision o = None →
    warnings (wm_state m') !! obs_generation o
      = Some (is_warned (warning_available_bytes (wm_thresholds m)) o);
}.

Lemma NoDup_generation os o o' :
  NoDup (obs_generation <$> os) → o ∈ os → o' ∈ os → obs_generation o = obs_generation o' → o = o'.
Proof.
  induction os as [|x os IH]; intros Hd Ho Ho' E; [by apply not_elem_of_nil in Ho|].
  rewrite fmap_cons in Hd. apply NoDup_cons in Hd as [Hx Hd].
  apply elem_of_cons in Ho as [->|Ho], Ho' as [->|Ho']; [done| | |eauto].
  - destruct Hx. rewrite E. by apply list_elem_of_fmap_2.
  - destruct Hx. rewrite <- E. by apply list_elem_of_fmap_2.
Qed.

Lemma untripped_generation os o :
  NoDup (obs_generation <$> os) → o ∈ os → safety_decision o = None →
  obs_generation o ∉ (trip_generation <$> omap must_trip os).
Proof.
  intros Hd Ho Hn (o' & Ho' & E & [? Hs])%trips_generations.
  rewrite (NoDup_generation os o' o) in Hs by done. congruence.
Qed.

Lemma end_tick_spec m sample sos r m' :
  validate_observations sos = Ok () →
  end_tick (sample, sos) m = (r, m') →
  ∃ l0 lt l2, extends m m' (l0 ++ lt ++ l2) ∧ Forall quiet l0 ∧ trip_log lt ∧ Forall quiet l2 ∧
    (lt = [] ∨ EFlush true ∈ l0) ∧
    match r with
    | Err _ => same_clock m m'
    | Ok t => ended m m' sample sos t (l0 ++ lt ++ l2)
    end.
Proof.
  intros Hv%validate_observations_Ok. unfold end_tick.
  intros [([events trips] & m1 & H1 & H)|(e & H1 & ->)]%se_bind_inv;
    apply judge_spec in H1 as [(l0 & He1 & Hq1 & Hs1) H1].
  2:{ exists l0, [], []. rewrite app_nil_r.
      split_and!; [done|done|constructor|constructor|by left|done]. }
  destruct H1 as [-> H1]. destruct (H1 Hv) as [-> [Hout1 Hw1]]. clear H1. simpl in H.
  assert (∀ (b : bool) r, Forall quiet (if b then [EFlush r] else [])) as Hqf
    by (intros [] ?; by repeat constructor).
  apply se_bind_inv in H as [([] & m2 & H2 & H)|(e & H2 & ->)];
    apply flush_if_spec in H2 as [Hs2 He2];
    pose proof (extends_trans _ _ _ _ _ He1 He2) as He12;
    pose proof (same_clock_trans _ _ _ Hs1 (same_clock_state _ _ Hs2)) as Hs12.
  2:{ eexists _, [], []. rewrite app_nil_r.
      split_and!; [exact He12|by apply Forall_app|constructor|constructor|by left|done]. }
  apply se_bind_inv in H as [(events & m3 & H3 & H)|(e & H3 & ->)];
    apply execute_spec in H3 as (lt & He3 & Hl & Hnil & Hs3 & Hw3 & Hx);
    pose proof (extends_trans _ _ _ _ _ He12 He3) as He123;
    pose proof (same_clock_trans _ _ _ Hs12 Hs3) as Hs123;
    (assert (lt = [] ∨ EFlush true ∈ l0 ++ (if negb (is_nil (omap must_trip sos))
                                            then [EFlush true] else [])) as Hlt
      by (destruct (omap must_trip sos); [left; by apply Hnil|right; set_solver])).
  2:{ eexists _, lt, []. rewrite app_nil_r.
      split_and!; [exact He123|by apply Forall_app|done|constructor|exact Hlt|done]. }
  destruct Hx as (Hcont & completes & Hlen & ->). rewrite events_have_action in H by done.
  apply se_bind_inv in H as [([] & m4 & H4 & H)|(e & H4 & ->)];
    apply flush_if_spec in H4 as [Hs4 He4]; pose proof (extends_trans _ _ _ _ _ He123 He4) as He1234;
    rewrite <- app_assoc in He1234;
    pose proof (same_clock_trans _ _ _ Hs123 (same_clock_state _ _ Hs4)) as Hs1234.
  2:{ eexists _, lt, _.
      split_and!; [exact He1234|by apply Forall_app|done|apply Hqf|exact Hlt|done]. }
  apply se_bind_inv in H as [([] & m5 & H5 & H)|(e & H5 & ->)];
    apply commit_sample_spec in H5 as [He5 Hs5];
    pose proof (extends_trans _ _ _ _ _ He1234 He5) as He; rewrite app_nil_r in He.
  2:{ eexists _, lt, _. split_and!; [exact He|by apply Forall_app|done|apply Hqf|exact Hlt|].
      by eapply same_clock_trans. }
  unfold se_ret in H. simplify_eq. eexists _, lt, _.
  split_and!; [exact He|by apply Forall_app|done|apply Hqf|exact Hlt|].
  simpl in Hs5. split; rewrite ?Hs5; try done.
  - by destruct Hs1234 as (<- & _).
  - rewrite !contained_app, Hcont, (contained_quiet l0) by done.
    rewrite contained_quiet by apply Hqf. simpl. by rewrite app_nil_r.
  - by exists completes.
  - intros Ht. destruct (omap must_trip sos); [done|]. simpl. by rewrite app_assoc, last_snoc.
  - intros o Ho Hb Hl' Hd. simpl. rewrite Hs4, Hw3, Hs2 by (by apply untripped_generation).
    by apply Hw1.
Qed.

Lemma tick_spec m r m' :
  tick m = (r, m') →
  ∃ l, extends m m' l ∧ well_ordered l ∧
    match r with
    | Err _ => same_clock m m'
    | Ok t => ∃ os, EObserve (Ok os) ∈ l ∧ ticked m m' t os l
    end.
Proof.
  rewrite tick_halves.
  intros [([sample sos] & m1 & H1 & H)|(e & H1 & ->)]%se_bind_inv;
    apply begin_tick_spec in H1 as (l1 & He1 & Hq1 & Hs1 & Hb).
  2:{ exists l1. split_and!; [done|by apply well_ordered_quiet|by apply same_clock_state]. }
  destruct Hb as (os & -> & Hobs & Hrec & Horder%validate_sample_order_Ok & Hv).
  pose proof (validate_observations_Ok _ Hv) as Hd.
  apply end_tick_spec in H as (l0 & lt & l2 & He2 & Hq0 & Hl & Hq2 & Hlt & Hr); [|done].
  exists (l1 ++ l0 ++ lt ++ l2). split; [by eapply extends_trans|]. split.
  { exists (l1 ++ l0), lt, l2. rewrite <- app_assoc.
    split_and!; [done|by apply Forall_app|done|done|]. destruct Hlt as [Hlt|Hlt]; [by left|right].
    split; [set_solver|]. exists sample. set_solver. }
  destruct r as [t|e]; [|by eapply same_clock_trans; [apply same_clock_state|]].
  exists os. split; [set_solver|].
  destruct Hr as [<- Hn Hu Hmo Hc Hev Hcy Hf Hw], He1 as [Hth _], Horder as (? & ? & ?).
  rewrite Hs1 in *. rewrite Hth in *. split; try done.
  - by rewrite contained_app, contained_quiet.
  - intros Ht. by rewrite last_app, Hf.
  - intros o Ho. apply Hw. by apply elem_of_sort_by.
Qed.

(** ** Consequences *)

Lemma trip_log_order l l1 t a g l2 :
  trip_log l → l = l1 ++ EContain t a g :: l2 → ∃ l0, l1 = l0 ++ [ELatch t a true].
Proof.
  intros Hl. revert l1. induction Hl as [|t' a'|t' a' g' e|t' a' g' e l Hl IH]; intros l1.
  - by destruct l1.
  - by destruct l1 as [|? [|? ?]].
  - destruct l1 as [|? [|? [|? [|? l1]]]]; intros; simplify_eq/=; by exists [].
  - destruct l1 as [|x [|y [|z l1]]]; intros; simplify_eq/=; [by exists []|].
    destruct (IH l1 eq_refl) as [l0 ->].
    by exists (ELatch t' a' true :: EContain t' a' g' :: ERecordEvent e true :: l0).
Qed.

Lemma app_cons_split {A} (l0 l' l1 l2 : list A) (x : A) :
  l0 ++ l' = l1 ++ x :: l2 → x ∉ l0 → ∃ l1', l1 = l0 ++ l1' ∧ l' = l1' ++ x :: l2.
Proof.
  revert l1. induction l0 as [|y l0 IH]; intros l1 E Hx; [by exists l1|].
  destruct l1 as [|z l1]; simplify_eq/=; [set_solver|].
  edestruct (IH l1) as (l1' & -> & ->); [done|set_solver|]. by exists l1'.
Qed.

Lemma app_cons_split_r {A} (l' l3 l1 l2 : list A) (x : A) :
  l' ++ l3 = l1 ++ x :: l2 → x ∉ l3 → ∃ l2', l' = l1 ++ x :: l2'.
Proof.
  revert l'. induction l1 as [|y l1 IH]; intros l' E Hx; destruct l' as [|z l']; simplify_eq/=.
  - set_solver.
  - eauto.
  - set_solver.
  - match goal with E' : _ ++ _ = _ ++ _ |- _ => destruct (IH _ E' Hx) as [l2' ->] end. eauto.
Qed.

(** C4: whatever the providers answer and however the tick ends, a process is
    contained only directly after its own durable trip latch was written, and
    after the sample was stored and the storage flushed. *)
Theorem tick_latches_before_containment m r m' l1 t a g l2 :
  tick m = (r, m') → effects m = [] → effects m' = l1 ++ EContain t a g :: l2 →
  ∃ l0, l1 = l0 ++ [ELatch t a true] ∧ EFlush true ∈ l0 ∧ ∃ s, ERecordSample s true ∈ l0.
Proof.
  intros (l & [_ He] & (l0 & lt & lq & -> & Hq0 & Hl & Hq & Hlt) & _)%tick_spec Hm E.
  rewrite Hm, E in He. simpl in He. symmetry in He.
  assert (∀ l, Forall quiet l → EContain t a g ∉ l) as Hquiet
    by (intros l Hl' Hin; rewrite Forall_forall in Hl'; exact (Hl' _ Hin)).
  apply app_cons_split in He as (l1' & -> & He); [|by apply Hquiet].
  apply app_cons_split_r in He as [l2' ->]; [|by apply Hquiet].
  destruct (trip_log_order _ l1' t a g l2' Hl eq_refl) as [l3 ->].
  destruct Hlt as [Hlt|[Hf [s Hs]]]; [by destruct l3|].
  exists (l0 ++ l3). rewrite app_assoc. split_and!; [done|set_solver|]. exists s. set_solver.
Qed.

(** C5: a completed tick contains exactly the bound processes without a
    latch that exited or suffered an OOM kill, each once, in the order of their
    generations and with the action the evidence calls for; each has an event of
    the receipt, and the storage was flushed last. *)
Theorem tick_contains_exactly_the_trips m t m' :
  tick m = (Ok t, m') → effects m = [] →
  ∃ os, EObserve (Ok os) ∈ effects m' ∧
    let trips := omap must_trip (sorted_observations os) in
    contained (effects m') = trip_key <$> trips ∧
    (trips ≠ [] → last (effects m') = Some (EFlush true)) ∧
    (∀ trip, trip ∈ trips → ∃ complete, event_of (tick_sample t) trip complete ∈ tick_events t) ∧
    (∀ e, e ∈ tick_events t → is_Some (event_action e) →
       ∃ trip complete, trip ∈ trips ∧ e = event_of (tick_sample t) trip complete).
Proof.
  intros (l & [_ He] & _ & os & Hobs & Ht)%tick_spec Hm. rewrite Hm in He. simpl in He.
  rewrite He. exists os. split; [done|]. destruct (ticked_events _ _ _ _ _ Ht) as (cs & Hlen & Hev).
  split_and!; [apply Ht|apply Ht| |]; rewrite Hev.
  - intros trip [i Hi]%list_elem_of_lookup.
    destruct (lookup_lt_is_Some_2 cs i) as [c Hc];
      [rewrite Hlen; by eapply lookup_lt_Some|].
    exists c. apply elem_of_app. right. apply list_elem_of_lookup. exists i.
    by rewrite lookup_zip_with, Hi, Hc.
  - intros e [(o & -> & _)%list_elem_of_fmap|Hz]%elem_of_app [x Hx]; [done|].
    apply list_elem_of_lookup in Hz as [i Hi]. rewrite lookup_zip_with in Hi.
    destruct (omap must_trip _ !! i) as [trip|] eqn:Htrip; [|done].
    destruct (cs !! i) as [c|]; [|done]. simplify_eq/=. exists trip, c.
    split; [by eapply list_elem_of_lookup_2|done].
Qed.

(** Armed, running, without latch and without a new OOM kill. *)
Definition provably_safe (o : WatchdogProtectionObservation) : bool :=
  bool_decide (phase (obs_target o) = Armed) && bool_decide (obs_process_state o = Running)
  && negb (obs_trip_latched o)
  && (cgroup_oom_kill_delta (obs_safety o) =? 0)
  && (cgroup_oom_group_kill_delta (obs_safety o) =? 0).

Lemma must_trip_target o trip : must_trip o = Some trip → trip.1.1 = o.
Proof.
  rewrite must_trip_decision. destruct (_ && _); [|done].
  destruct (safety_decision o) as [[]|]; intros ?; by simplify_eq/=.
Qed.

(** The actions among the events of a tick are those of the trips. *)
Lemma events_action_iff sample sos ws completes o :
  NoDup (obs_generation <$> sos) → o ∈ sos →
  length completes = length (omap must_trip sos) →
  existsb (λ e, bool_decide (event_generation e = generation (obs_target o))
                && is_present (event_action e))
    (((λ o, warning_event (obs_target o) sample) <$> ws)
     ++ zip_with (event_of sample) (omap must_trip sos) completes)
  = is_present (must_trip o).
Proof.
  intros Hd Ho Hlen. apply eq_true_iff_eq. rewrite existsb_exists. split.
  - intros (e & [(o' & -> & _)%list_elem_of_fmap|Hz]%list_elem_of_In%elem_of_app
      & [Hg Ha]%andb_true_iff); [done|]. apply bool_decide_eq_true in Hg.
    apply list_elem_of_lookup in Hz as [i Hi]. rewrite lookup_zip_with in Hi.
    destruct (omap must_trip sos !! i) as [trip|] eqn:Ht; [|done].
    destruct (completes !! i); [|done]. simplify_eq/=.
    apply list_elem_of_lookup_2, list_elem_of_omap in Ht as (o' & Ho' & Ht).
    pose proof (must_trip_target _ _ Ht) as E. rewrite E in Hg.
    rewrite (NoDup_generation sos o o') by done. by rewrite Ht.
  - destruct (must_trip o) as [trip|] eqn:Ht; [intros _|done].
    assert (trip ∈ omap must_trip sos) as [i Hi]%list_elem_of_lookup
      by (apply list_elem_of_omap; eauto).
    destruct (lookup_lt_is_Some_2 completes i) as [c Hc];
      [rewrite Hlen; by eapply lookup_lt_Some|].
    exists (event_of sample trip c). split.
    + apply list_elem_of_In, elem_of_app. right. apply list_elem_of_lookup. exists i.
      by rewrite lookup_zip_with, Hi, Hc.
    + unfold event_of. simpl. rewrite (must_trip_target _ _ Ht). by rewrite bool_decide_eq_true_2.
Qed.

Lemma seeds_lease_safe o events :
  existsb (λ e, bool_decide (event_generation e = generation (obs_target o))
                && is_present (event_action e)) events = is_present (must_trip o) →
  seeds_lease events o = provably_safe o.
Proof.
  intros E. unfold seeds_lease. rewrite E. rewrite must_trip_decision. unfold provably_safe, safety_decision.
  destruct (phase (obs_target o)), (obs_process_state o), (obs_trip_latched o); try done.
  destruct (cgroup_oom_kill_delta _ =? 0), (cgroup_oom_group_kill_delta _ =? 0); done.
Qed.

(** the receipt of a completed tick seeds leases for exactly the targets
    that were observed armed, running, without trip latch and without a new OOM
    kill, and carries the sample's sequence and clocks. *)
Theorem cycle_targets_are_the_safe_processes m t m' :
  tick m = (Ok t, m') → effects m = [] →
  let c := tick_protection_cycle t in
  ∃ os, EObserve (Ok os) ∈ effects m' ∧
    cycle_targets c = obs_target <$> List.filter provably_safe (sorted_observations os) ∧
    cycle_sample_sequence c = next_sequence (wm_state m) ∧
    cycle_observed_at_unix_milliseconds c = unix_milliseconds (tick_sample t) ∧
    cycle_observed_at_monotonic_milliseconds c = monotonic_milliseconds (tick_sample t).
Proof.
  intros (l & [_ He] & _ & os & Hobs & Ht)%tick_spec Hm. rewrite Hm in He. simpl in He.
  simpl. rewrite He. exists os. split; [done|].
  destruct (ticked_events _ _ _ _ _ Ht) as (cs & Hlen & Hev).
  rewrite (ticked_cycle _ _ _ _ _ Ht), <- (ticked_sequence _ _ _ _ _ Ht). simpl.
  split_and!; [|done..]. f_equal. apply filter_ext_in. intros o Ho%list_elem_of_In.
  apply seeds_lease_safe. rewrite Hev. by apply events_action_iff; [apply Ht|..].
Qed.

Lemma filter_without_action sample os trips completes :
  List.filter (λ e, negb (is_present (event_action e)))
    (((λ o, warning_event (obs_target o) sample) <$> os)
     ++ zip_with (event_of sample) trips completes)
  = (λ o, warning_event (obs_target o) sample) <$> os.
Proof.
  induction os as [|o os IH]; simpl; [|by f_equal].
  revert completes. induction trips as [|t trips IH]; intros [|c completes]; [done..|]. simpl. auto.
Qed.

(** a memory warning is reported when an active target that does not trip
    is at or below the warning limit and was not so at its previous judgment, and
    the table then holds the current judgment, so a lasting shortage is reported
    once. *)
Theorem warnings_are_edge_triggered m t m' :
  tick m = (Ok t, m') → effects m = [] →
  let limit := warning_available_bytes (wm_thresholds m) in
  ∃ os, EObserve (Ok os) ∈ effects m' ∧
    List.filter (λ e, negb (is_present (event_action e))) (tick_events t)
      = (λ o, warning_event (obs_target o) (tick_sample t)) <$>
          List.filter (newly_warned limit (warnings (wm_state m))) (sorted_observations os) ∧
    ∀ o, o ∈ os → process_bound (phase (obs_target o)) = true → obs_trip_latched o = false →
      safety_decision o = None →
      warnings (wm_state m') !! obs_generation o = Some (is_warned limit o).
Proof.
  intros (l & [_ He] & _ & os & Hobs & Ht)%tick_spec Hm. rewrite Hm in He. simpl in He.
  simpl. rewrite He. exists os. split; [done|]. split; [|apply Ht].
  destruct (ticked_events _ _ _ _ _ Ht) as (cs & Hlen & ->). apply filter_without_action.
Qed.

(** [n] ticks in a row; a failed tick leaves no receipt. *)
Fixpoint run_ticks (n : nat) (m : M) : list WatchdogTick * M :=
  match n with
  | O => ([], m)
  | S n =>
    let '(r, m) := tick m in
    let '(ts, m) := run_ticks n m in
    (match r with Ok t => t :: ts | Err _ => ts end, m)
  end.

Definition precedes (a b : WatchdogTick) : Prop :=
  monotonic_milliseconds (tick_sample a) < monotonic_milliseconds (tick_sample b) ∧
  unix_milliseconds (tick_sample a) ≤ unix_milliseconds (tick_sample b).

Lemma run_ticks_spec n m ts m' :
  run_ticks n m = (ts, m') →
  (λ t, sequence (tick_sample t)) <$> ts = seqZ (next_sequence (wm_state m)) (Z.of_nat (length ts)) ∧
  StronglySorted precedes ts ∧
  Forall (λ t, last_monotonic_milliseconds (wm_state m) < monotonic_milliseconds (tick_sample t) ∧
               last_unix_milliseconds (wm_state m) ≤ unix_milliseconds (tick_sample t)) ts.
Proof.
  revert m ts. induction n as [|n IH]; intros m ts; simpl.
  { intros [= <- <-]. repeat constructor. }
  destruct (tick m) as [r m1] eqn:Ht, (run_ticks n m1) as [ts1 m2] eqn:Hr. intros [= <- <-].
  apply IH in Hr as (Hs & Hsorted & Hall). apply tick_spec in Ht as (l & _ & _ & Ht).
  destruct r as [t|e].
  - destruct Ht as (os & _ & [_ Hseq Hu Hmo Hn Hlu Hlm _ _ _ _ _]). rewrite Hlu, Hlm in Hall.
    split_and!.
    + rewrite fmap_cons, Hs, Hseq, Hn. simpl.
      rewrite (seqZ_cons _ (Z.of_nat (S (length ts1)))) by lia. f_equal. f_equal; lia.
    + constructor; [done|]. exact Hall.
    + constructor; [done|]. eapply Forall_impl; [exact Hall|]. simpl. intros t'. lia.
  - destruct Ht as (Hn & Hu & Hm). by rewrite <- Hn, <- Hu, <- Hm.
Qed.

(** over any run of ticks, whichever of them fail, the receipts carry
    consecutive sequences from the durable head, strictly increasing monotonic
    times and wall times that never go back. *)
Theorem receipts_are_ordered n m :
  let '(ts, m') := run_ticks n m in
  (λ t, sequence (tick_sample t)) <$> ts = seqZ (next_sequence (wm_state m)) (Z.of_nat (length ts)) ∧
  StronglySorted precedes ts.
Proof.
  destruct (run_ticks n m) as [ts m'] eqn:E. apply run_ticks_spec in E. tauto.
Qed.
End proofs.

(** ** A concrete run *)

Module SafetyExample.
Definition engine (g : string) (p : WatchdogProtectionPhase) : WatchdogProtectedEngine :=
  {| generation := g; phase := p; container_name := "c"; container_id := Some "id"%string;
     process_id := Some 7; process_start_ticks := Some 9; boot_id := Some "b"%string;
     cgroup := Some "/sys/fs/cgroup/a"%string |}.
Definition input (available oom : Z) : WatchdogSafetyInput :=
  {| available_bytes := available; swap_used_bytes := 0; psi_some_delta_microseconds := 0;
     psi_full_delta_microseconds := 0; cgroup_oom_delta := 0; cgroup_oom_kill_delta := oom;
     cgroup_oom_group_kill_delta := 0; cgroup_max_delta := 0 |}.
Definition observe (g : string) (p : WatchdogProtectionPhase) (available oom : Z) :=
  {| obs_target := engine g p; obs_process_state := Running; obs_safety := input available oom;
     obs_trip_latched := false |}.
(** Three targets: one low on memory, one with an OOM kill, one disarmed. *)
Definition observations_ := [observe "b" Armed 900 1; observe "c" Disarmed 0 0; observe "a" Armed 50 0].

#[global] Instance providers : WatchdogProviders Z := {|
  provide_sample n w :=
    (sample_with_telemetry n (1000 * n) (10 * n) WatchdogSampleTelemetry_default, w);
  provide_observations _ w := (Ok observations_, w);
  acknowledge_disarmed _ w := (Ok (), w);
  latch_trip _ _ _ _ w := (Ok (), w + 1);
  contain _ _ _ w := (Ok true, w);
  storage_next_sequence w := (Ok 1, w);
  record_sample _ w := (Ok (), w);
  record_event _ w := (Ok (), w);
  storage_flush w := (Ok (), w);
|}.

Definition thresholds : WatchdogSafetyThresholds :=
  {| warning_available_bytes := 100; graceful_available_bytes := 50;
     emergency_available_bytes := 10; swap_stop_bytes := 1; psi_some_microseconds := 1;
     psi_full_microseconds := 1; state_failures := 2; containment_grace_milliseconds := 5000 |}.
Definition m0 : WatchdogManager (Z * list Effect) :=
  {| wm_thresholds := thresholds; wm_world := (0, []);
     wm_state := {| next_sequence := 5; last_unix_milliseconds := 0;
                    last_monotonic_milliseconds := 0; warnings := ∅ |} |}.
Definition run := tick m0.
Definition receipt : WatchdogTick :=
  match run.1 with
  | Ok t => t
  | Err _ => {| tick_sample := {| sequence := 0; unix_milliseconds := 0;
                  monotonic_milliseconds := 0; sample_telemetry := WatchdogSampleTelemetry_default |};
                tick_events := []; tick_active_targets := 0;
                tick_protection_cycle := {| cycle_sample_sequence := 0;
                  cycle_observed_at_unix_milliseconds := 0;
                  cycle_observed_at_monotonic_milliseconds := 0; cycle_targets := [] |} |}
  end.
Lemma completed : tick m0 = (Ok receipt, run.2).
Proof. vm_compute. reflexivity. Qed.
(** Only the healthy target is in the receipt. *)
Lemma leases_healthy_target :
  cycle_targets (tick_protection_cycle receipt) = [engine "a" Armed].
Proof. vm_compute. reflexivity. Qed.
End SafetyExample.

Lemma tick_latches_before_containment_witness :
  let log := effects SafetyExample.run.2 in
  ∃ l1 l2, log = l1 ++ EContain (SafetyExample.engine "b" Armed) Kill 5000 :: l2 ∧
  ∃ l0, l1 = l0 ++ [ELatch (SafetyExample.engine "b" Armed) Kill true] ∧ EFlush true ∈ l0 ∧
    ∃ s, ERecordSample s true ∈ l0.
Proof.
  exists (take 7 (effects SafetyExample.run.2)), (drop 8 (effects SafetyExample.run.2)).
  split; [vm_compute; reflexivity|].
  apply (tick_latches_before_containment SafetyExample.m0 (Ok SafetyExample.receipt)
    SafetyExample.run.2 _ _ _ 5000 (drop 8 (effects SafetyExample.run.2)));
    [exact SafetyExample.completed|reflexivity|vm_compute; reflexivity].
Defined.

Lemma tick_contains_exactly_the_trips_witness :
  ∃ os, EObserve (Ok os) ∈ effects SafetyExample.run.2 ∧
    let trips := omap must_trip (sorted_observations os) in
    contained (effects SafetyExample.run.2) = trip_key <$> trips ∧
    (trips ≠ [] → last (effects SafetyExample.run.2) = Some (EFlush true)) ∧
    (∀ trip, trip ∈ trips → ∃ complete,
       event_of (tick_sample SafetyExample.receipt) trip complete
         ∈ tick_events SafetyExample.receipt) ∧
    (∀ e, e ∈ tick_events SafetyExample.receipt → is_Some (event_action e) →
       ∃ trip complete, trip ∈ trips ∧
         e = event_of (tick_sample SafetyExample.receipt) trip complete).
Proof.
  exact (tick_contains_exactly_the_trips SafetyExample.m0 _ _ SafetyExample.completed eq_refl).
Defined.

Lemma cycle_targets_are_the_safe_processes_witness :
  let c := tick_protection_cycle SafetyExample.receipt in
  ∃ os, EObserve (Ok os) ∈ effects SafetyExample.run.2 ∧
    cycle_targets c = obs_target <$> List.filter provably_safe (sorted_observations os) ∧
    cycle_sample_sequence c = next_sequence (wm_state SafetyExample.m0) ∧
    cycle_observed_at_unix_milliseconds c
      = unix_milliseconds (tick_sample SafetyExample.receipt) ∧
    cycle_observed_at_monotonic_milliseconds c
      = monotonic_milliseconds (tick_sample SafetyExample.receipt).
Proof.
  exact (cycle_targets_are_the_safe_processes SafetyExample.m0 _ _ SafetyExample.completed eq_refl).
Defined.

Lemma warnings_are_edge_triggered_witness :
  ∃ os, EObserve (Ok os) ∈ effects SafetyExample.run.2 ∧
    List.filter (λ e, negb (is_present (event_action e))) (tick_events SafetyExample.receipt)
      = (λ o, warning_event (obs_target o) (tick_sample SafetyExample.receipt)) <$>
          List.filter (newly_warned 100 ∅) (sorted_observations os) ∧
    ∀ o, o ∈ os → process_bound (phase (obs_target o)) = true → obs_trip_latched o = false →
      safety_decision o = None →
      warnings (wm_state SafetyExample.run.2) !! obs_generation o = Some (is_warned 100 o).
Proof.
  exact (warnings_are_edge_triggered SafetyExample.m0 _ _ SafetyExample.completed eq_refl).
Defined.
