(* ===== verification/WatchdogLinux.v ===== *)
(** * Linux Watchdog protection provider

    [core/watchdog/src/li_watchdog_linux_protection.rs]: descriptor discovery,
    observation with cumulative kernel baselines, acknowledgements, durable trip
    latches and containment.  Private files, kernel files, pidfds and clocks are
    the class [WatchdogLinuxHost] over a world [W] with pidfd handles [D]. *)

From Stdlib Require Ascii.
From S2P Require Import Prelude Ordering Values Text GatewayContract WatchdogRecord.
From S2P Require Import WatchdogContract WatchdogManager.
Import (notations) Stdlib.Strings.Ascii.

Definition CONTAINMENT_ESCALATION_MILLISECONDS : Z := 1000.
Definition CGROUP_EMPTY_ATTEMPTS : nat := 20.
Definition CGROUP_EMPTY_INTERVAL_MILLISECONDS : Z := 100.
Definition MAX_ACKNOWLEDGEMENT_BYTES : Z := 512.

Inductive WatchdogLinuxSignal := SignalTerminate | SignalKill.
Inductive WatchdogLinuxCapability (T : Type) := Available (value : T) | Unsupported.
Arguments Available {T} _.
Arguments Unsupported {T}.

(** The files of one slot and the kernel files; the byte bound of each read is
    fixed per file and enforced by the provider. *)
Inductive SlotName := DescriptorName | AcknowledgementName | TripName.
Inductive KernelFile := MemInfo | MemoryPressure | MemoryEvents (cgroup : string).

Class WatchdogLinuxHost (W D : Type) := {
  list_slots : W → result WatchdogError (list string) * W;
  read_slot_file : string → SlotName → W → result WatchdogError (option string) * W;
  write_slot_file : string → SlotName → string → W → result WatchdogError () * W;
  host_read : KernelFile → W → result WatchdogError (WatchdogLinuxCapability string) * W;
  bind_process : WatchdogProtectedEngine → W → result WatchdogError (option D) * W;
  pidfd_state : D → W → result WatchdogError WatchdogProcessState * W;
  pidfd_signal : D → WatchdogLinuxSignal → W → result WatchdogError () * W;
  pidfd_wait_for_exit : D → Z → W → result WatchdogError bool * W;
  cgroup_is_empty : string → W → result WatchdogError bool * W;
  kill_cgroup_members : string → W → result WatchdogError () * W;
  process_wait : Z → W → W;
  unix_clock : W → result WatchdogError Z * W;
}.

Definition protection_error (reason : string) : WatchdogError :=
  WatchdogProvider "Linux protection" reason.

(** ** Kernel counters *)

Record PressureTotals := { pressure_some : Z; pressure_full : Z }.
Record CgroupEvents := { ev_oom : Z; ev_oom_kill : Z; ev_oom_group_kill : Z; ev_maximum : Z }.

Definition monotonic_delta (current previous : Z) : Z := default 0 (checked_sub current previous).

Definition required_kernel_text (capability : WatchdogLinuxCapability string) (reason : string)
  : result WatchdogError string :=
  match capability with
  | Available value => if is_utf8 value then Ok value
                       else Err (protection_error "kernel counter is not valid UTF-8")
  | Unsupported => Err (protection_error reason)
  end.

Definition named_value `{Countable K} (values : gmap K Z) (name : K) : result WatchdogError Z :=
  ok_or (protection_error "required native counter is missing") (values !! name).

Fixpoint memory_values (ls : list string) (values : gmap string Z)
  : result WatchdogError (gmap string Z) :=
  match ls with
  | [] => Ok values
  | line :: ls =>
    match split_once ":"%char line with
    | None => memory_values ls values
    | Some (name, value) =>
      let malformed := protection_error "memory counter is malformed" in
      let? number :=
        match split_whitespace value with
        | [number] => Ok number
        | [number; unit_] => if bool_decide (unit_ = chars "kB") then Ok number else Err malformed
        | _ => Err malformed
        end in
      let? number := ok_or malformed (parse_digits u64_max number) in
      if bool_decide (is_Some (values !! name))
      then Err (protection_error "memory counter is duplicated")
      else memory_values ls (<[name := number]> values)
    end
  end.

Definition memory_of (available_bytes_ swap_used : Z) : WatchdogSafetyInput :=
  {| available_bytes := available_bytes_; swap_used_bytes := swap_used;
     psi_some_delta_microseconds := 0; psi_full_delta_microseconds := 0; cgroup_oom_delta := 0;
     cgroup_oom_kill_delta := 0; cgroup_oom_group_kill_delta := 0; cgroup_max_delta := 0 |}.

Definition parse_memory_input (source : string) : result WatchdogError WatchdogSafetyInput :=
  let? values := memory_values (lines source) ∅ in
  let? available := named_value values "MemAvailable"%string in
  let? swap_total := named_value values "SwapTotal"%string in
  let? swap_free := named_value values "SwapFree"%string in
  if (available =? 0) || (swap_total <? swap_free)
  then Err (protection_error "memory counters are invalid")
  else
    let? available := ok_or (protection_error "available memory overflowed")
                        (checked_mul_u64 available 1024) in
    let? swap_used := ok_or (protection_error "swap use overflowed")
                        (checked_mul_u64 (saturating_sub swap_total swap_free) 1024) in
    Ok (memory_of available swap_used).

(** [str::strip_prefix] on characters. *)
Fixpoint strip_chars (p l : list Z) : option (list Z) :=
  match p, l with
  | [], _ => Some l
  | a :: p, b :: l => if a =? b then strip_chars p l else None
  | _ :: _, [] => None
  end.

Fixpoint find_total (fields : list (list Z)) : option (list Z) :=
  match fields with
  | [] => None
  | field :: fields =>
    match strip_chars (chars "total=") field with Some v => Some v | None => find_total fields end
  end.

Fixpoint pressure_values (ls : list string) (some full : option Z)
  : result WatchdogError (option Z * option Z) :=
  match ls with
  | [] => Ok (some, full)
  | line :: ls =>
    match split_whitespace line with
    | [] => pressure_values ls some full
    | kind :: fields =>
      let? text := ok_or (protection_error "memory pressure total is missing") (find_total fields) in
      let? total := ok_or (protection_error "memory pressure total is malformed")
                      (parse_digits u64_max text) in
      let duplicated := Err (protection_error "memory pressure total is duplicated") in
      if bool_decide (kind = chars "some") then
        match some with None => pressure_values ls (Some total) full | Some _ => duplicated end
      else if bool_decide (kind = chars "full") then
        match full with None => pressure_values ls some (Some total) | Some _ => duplicated end
      else pressure_values ls some full
    end
  end.

Definition parse_pressure_totals (source : string) : result WatchdogError PressureTotals :=
  let? (some, full) := pressure_values (lines source) None None in
  let? some := ok_or (protection_error "partial pressure total is missing") some in
  let? full := ok_or (protection_error "full pressure total is missing") full in
  Ok {| pressure_some := some; pressure_full := full |}.

Fixpoint cgroup_values (ls : list string) (values : gmap (list Z) Z)
  : result WatchdogError (gmap (list Z) Z) :=
  match ls with
  | [] => Ok values
  | line :: ls =>
    let malformed := protection_error "cgroup memory event is malformed" in
    match split_whitespace line with
    | [name; number] =>
      let? number := ok_or malformed (parse_digits u64_max number) in
      if bool_decide (is_Some (values !! name))
      then Err (protection_error "cgroup memory event is duplicated")
      else cgroup_values ls (<[name := number]> values)
    | _ => Err malformed
    end
  end.

Definition parse_cgroup_events (source : string) : result WatchdogError CgroupEvents :=
  let? values := cgroup_values (lines source) ∅ in
  let? oom := named_value values (chars "oom") in
  let? oom_kill := named_value values (chars "oom_kill") in
  let? maximum := named_value values (chars "max") in
  Ok {| ev_oom := oom; ev_oom_kill := oom_kill;
        ev_oom_group_kill := default 0 (values !! chars "oom_group_kill");
        ev_maximum := maximum |}.

(** ** Slots *)

Record Slot (D : Type) := {
  slot_target : WatchdogProtectedEngine;
  slot_process : option D;
  slot_pressure : option PressureTotals;
  slot_cgroup : option CgroupEvents;
}.
Arguments Build_Slot {D} _ _ _ _.
Arguments slot_target {D} _.
Arguments slot_process {D} _.
Arguments slot_pressure {D} _.
Arguments slot_cgroup {D} _.

Definition is_active {D} (slot : Slot D) : bool := process_bound (phase (slot_target slot)).

(** A [BTreeMap] iterates in key order. *)
Definition in_order {A} (m : gmap string A) : list (string * A) :=
  sort_by (λ l r, String.compare l.1 r.1) (map_to_list m).

Definition valid_slot_name (value : string) : bool :=
  (str_len value =? 32) && forallb is_lower_hex_byte (bytes value).

Definition validate_protection_slots {D} (slots : gmap string (Slot D))
  : result WatchdogError () :=
  let generations : gset string :=
    list_to_set ((λ '(_, slot), generation (slot_target slot)) <$> map_to_list slots) in
  if (maximum_watchdog_targets <? Z.of_nat (size slots))
     || negb (size generations =? size slots)%nat
  then Err (protection_error "protection slots are duplicated or exceed their bound")
  else Ok ().

Definition watchdog_phase_name (p : WatchdogProtectionPhase) : string :=
  match p with
  | Pending => "pending" | Starting => "starting" | Armed => "armed" | Disarmed => "disarmed"
  end.

(** The acknowledgement text of one descriptor. *)
Definition acknowledgement_text (target : WatchdogProtectedEngine) : string :=
  "version=1" +:+ nl +:+ "generation=" +:+ generation target +:+ nl
  +:+ "phase=" +:+ watchdog_phase_name (phase target) +:+ nl
  +:+ "container_id=" +:+ default "-" (container_id target) +:+ nl.

Section provider.
Context {W D : Type} `{!WatchdogLinuxHost W D}.
Abbreviation H := (SE W WatchdogError).
Abbreviation Slots := (gmap string (Slot D)).

Definition write_acknowledgement (slot : string) (target : WatchdogProtectedEngine) : H () :=
  let payload := acknowledgement_text target in
  if MAX_ACKNOWLEDGEMENT_BYTES <? str_len payload
  then se_fail (protection_error "protection acknowledgement exceeds its bound")
  else write_slot_file slot AcknowledgementName payload.

(** The loop of [discovered_slots] over the listed keys. *)
Fixpoint discover (keys : list string) (next : Slots) (seen : gset string)
    (changed : list string) : H (Slots * gset string * list string) :=
  match keys with
  | [] => se_ret (next, seen, changed)
  | key :: keys =>
    if negb (valid_slot_name key) || bool_decide (key ∈ seen)
    then se_fail (protection_error "protection slot identity is invalid or duplicated")
    else
      let seen := {[key]} ∪ seen in
      do! payload <- read_slot_file key DescriptorName in
      match payload with
      | None => discover keys next seen changed
      | Some payload =>
        if negb (is_utf8 payload)
        then se_fail (protection_error "protection descriptor is not valid UTF-8")
        else
          do! target <- se_lift (WatchdogProtectedEngine_parse payload) in
          if match next !! key with
             | Some slot => bool_decide (slot_target slot = target) | None => false end
          then discover keys next seen changed
          else
            let requires_process := process_bound (phase target) in
            do! process <-
              (if requires_process then bind_process target else se_ret None) in
            let may_acknowledge := negb requires_process || is_present process in
            let slot := {| slot_target := target; slot_process := process;
                           slot_pressure := None; slot_cgroup := None |} in
            discover keys (<[key := slot]> next) seen
              (if may_acknowledge then changed ++ [key] else changed)
      end
  end.

Definition discovered_slots (current : Slots) : H (Slots * list string) :=
  do! keys <- list_slots in
  if maximum_watchdog_targets <? Z.of_nat (length keys)
  then se_fail (protection_error "protection target count exceeded its bound")
  else
    do! (next, seen, changed) <- discover keys current ∅ [] in
    se_ret (filter (λ '(key, slot), key ∈ seen ∨ is_active slot = true) next, changed).

Definition memory_input : H WatchdogSafetyInput :=
  do! capability <- host_read MemInfo in
  do! source <- se_lift (required_kernel_text capability "memory counters are unsupported") in
  se_lift (parse_memory_input source).

Definition pressure_totals : H (WatchdogLinuxCapability PressureTotals) :=
  do! capability <- host_read MemoryPressure in
  match capability with
  | Available value =>
    if negb (is_utf8 value) then se_fail (protection_error "memory pressure is not valid UTF-8")
    else do! totals <- se_lift (parse_pressure_totals value) in se_ret (Available totals)
  | Unsupported => se_ret Unsupported
  end.

Definition cgroup_events (cgroup_ : string) : H CgroupEvents :=
  do! capability <- host_read (MemoryEvents cgroup_) in
  do! source <- se_lift (required_kernel_text capability "cgroup memory events are unsupported") in
  se_lift (parse_cgroup_events source).

(** The interval counters of one slot against its baselines. *)
Definition with_pressure (current : WatchdogLinuxCapability PressureTotals) (slot : Slot D)
    (safety : WatchdogSafetyInput) : WatchdogSafetyInput * option PressureTotals :=
  match current with
  | Unsupported => (safety, slot_pressure slot)
  | Available current =>
    (match slot_pressure slot with
     | None => safety
     | Some previous =>
       {| available_bytes := available_bytes safety; swap_used_bytes := swap_used_bytes safety;
          psi_some_delta_microseconds :=
            monotonic_delta (pressure_some current) (pressure_some previous);
          psi_full_delta_microseconds :=
            monotonic_delta (pressure_full current) (pressure_full previous);
          cgroup_oom_delta := cgroup_oom_delta safety;
          cgroup_oom_kill_delta := cgroup_oom_kill_delta safety;
          cgroup_oom_group_kill_delta := cgroup_oom_group_kill_delta safety;
          cgroup_max_delta := cgroup_max_delta safety |}
     end, Some current)
  end.

Definition with_cgroup (current : CgroupEvents) (slot : Slot D) (safety : WatchdogSafetyInput)
  : WatchdogSafetyInput :=
  match slot_cgroup slot with
  | None => safety
  | Some previous =>
    {| available_bytes := available_bytes safety; swap_used_bytes := swap_used_bytes safety;
       psi_some_delta_microseconds := psi_some_delta_microseconds safety;
       psi_full_delta_microseconds := psi_full_delta_microseconds safety;
       cgroup_oom_delta := monotonic_delta (ev_oom current) (ev_oom previous);
       cgroup_oom_kill_delta := monotonic_delta (ev_oom_kill current) (ev_oom_kill previous);
       cgroup_oom_group_kill_delta :=
         monotonic_delta (ev_oom_group_kill current) (ev_oom_group_kill previous);
       cgroup_max_delta := monotonic_delta (ev_maximum current) (ev_maximum previous) |}
  end.

(** The body of the loop of [collect_observations]. *)
Definition observe_slot (memory : WatchdogSafetyInput)
    (pressure : WatchdogLinuxCapability PressureTotals) (key : string) (slot : Slot D)
  : H (WatchdogProtectionObservation * Slot D) :=
  do! trip <- read_slot_file key TripName in
  let trip_latched := is_present trip in
  if negb (is_active slot)
  then se_ret ({| obs_target := slot_target slot; obs_process_state := Exited;
                  obs_safety := WatchdogSafetyInput_default; obs_trip_latched := trip_latched |},
               slot)
  else
    do! process_state <-
      match slot_process slot with
      | Some process => pidfd_state process
      | None => se_ret Exited
      end in
    let '(safety, pressure) := with_pressure pressure slot memory in
    do! cgroup_ <- se_lift (ok_or (protection_error "active descriptor has no cgroup identity")
                              (cgroup (slot_target slot))) in
    do! current <- cgroup_events cgroup_ in
    se_ret ({| obs_target := slot_target slot; obs_process_state := process_state;
               obs_safety := with_cgroup current slot safety;
               obs_trip_latched := trip_latched |},
            {| slot_target := slot_target slot; slot_process := slot_process slot;
               slot_pressure := pressure; slot_cgroup := Some current |}).

Fixpoint observe_slots (memory : WatchdogSafetyInput)
    (pressure : WatchdogLinuxCapability PressureTotals) (entries : list (string * Slot D))
    (slots : Slots) : H (list WatchdogProtectionObservation * Slots) :=
  match entries with
  | [] => se_ret ([], slots)
  | (key, slot) :: entries =>
    do! (observation, slot) <- observe_slot memory pressure key slot in
    do! (observations, slots) <- observe_slots memory pressure entries (<[key := slot]> slots) in
    se_ret (observation :: observations, slots)
  end.

Definition collect_observations (slots : Slots)
  : H (list WatchdogProtectionObservation * Slots) :=
  let entries := in_order slots in
  if existsb (λ '(_, slot), is_active slot) entries
  then
    do! memory <- memory_input in
    do! pressure <- pressure_totals in
    observe_slots memory pressure entries slots
  else observe_slots WatchdogSafetyInput_default Unsupported entries slots.

Fixpoint acknowledge_changed (slots : Slots) (changed : list string) : H () :=
  match changed with
  | [] => se_ret ()
  | key :: changed =>
    do! slot <- se_lift (ok_or (protection_error "changed protection slot disappeared")
                           (slots !! key)) in
    run! write_acknowledgement key (slot_target slot) in
    acknowledge_changed slots changed
  end.

(** [WatchdogProtectionProvider::observations]: the slots are committed only when
    every step succeeded. *)
Definition linux_observations (current : Slots)
  : H (list WatchdogProtectionObservation * Slots) :=
  do! (slots, changed) <- discovered_slots current in
  run! se_lift (validate_protection_slots slots) in
  do! (observations, slots) <- collect_observations slots in
  run! acknowledge_changed slots changed in
  se_ret (observations, slots).

Definition slot_for_target (slots : Slots) (target : WatchdogProtectedEngine)
  : result WatchdogError (string * Slot D) :=
  match List.filter (λ '(_, slot), bool_decide (slot_target slot = target)) (in_order slots) with
  | [found] => Ok found
  | _ => Err (protection_error "protection target is missing or ambiguous")
  end.

Definition linux_acknowledge_disarmed (slots : Slots) (target : WatchdogProtectedEngine) : H () :=
  if negb (bool_decide (phase target = Disarmed))
  then se_fail (protection_error "only a disarmed descriptor may use the disarm acknowledgement")
  else do! (slot, _) <- se_lift (slot_for_target slots target) in
       write_acknowledgement slot target.

Definition quote : string := String "034"%char EmptyString.
Definition json_line (name value : string) (last : bool) : string :=
  "  " +:+ quote +:+ name +:+ quote +:+ ": " +:+ value +:+ (if last then "" else ",") +:+ nl.
Definition json_string (value : string) : string := quote +:+ value +:+ quote.

Definition trip_text (timestamp : Z) (target : WatchdogProtectedEngine) (container action : string)
    (reason : string) (input : WatchdogSafetyInput) : string :=
  "{" +:+ nl +:+ json_line "schema_version" "1" false
  +:+ json_line "timestamp_unix_ms" (to_decimal timestamp) false
  +:+ json_line "generation" (json_string (generation target)) false
  +:+ json_line "container_id" (json_string container) false
  +:+ json_line "action" (json_string action) false
  +:+ json_line "reason" (json_string reason) false
  +:+ json_line "available_bytes" (to_decimal (available_bytes input)) false
  +:+ json_line "swap_used_bytes" (to_decimal (swap_used_bytes input)) true
  +:+ "}" +:+ nl.

Definition linux_latch_trip (slots : Slots) (target : WatchdogProtectedEngine)
    (action : WatchdogSafetyAction) (reason : string) (input : WatchdogSafetyInput) : H () :=
  if negb (bool_decide (reason = protected_process_exited)
           || bool_decide (reason = cgroup_oom_kill))
  then se_fail (protection_error "trip reason is outside the closed vocabulary")
  else
    do! (slot, _) <- se_lift (slot_for_target slots target) in
    do! container <- se_lift (ok_or (protection_error "trip target has no container identity")
                                (container_id target)) in
    do! timestamp <- unix_clock in
    let action := match action with Stop => "stop"%string | Kill => "kill"%string end in
    write_slot_file slot TripName (trip_text timestamp target container action reason input).

(** Errors of a best-effort step are dropped, its effect stays. *)
Definition best_effort {A} (default_ : A) (c : H A) : H A := λ w,
  match c w with
  | (Ok a, w) => (Ok a, w)
  | (Err _, w) => (Ok default_, w)
  end.
Definition succeeded {A} (c : H A) : H bool := λ w,
  let '(r, w) := c w in (Ok (is_ok r), w).

(** [for _ in 0..attempts]: poll, then wait. *)
Fixpoint await_empty_cgroup (attempts : nat) (cgroup_ : string) : H bool :=
  match attempts with
  | O => cgroup_is_empty cgroup_
  | S attempts =>
    do! empty <- cgroup_is_empty cgroup_ in
    if empty then se_ret true
    else λ w, await_empty_cgroup attempts cgroup_
                (process_wait CGROUP_EMPTY_INTERVAL_MILLISECONDS w)
  end.

(** Signal the pidfd, wait, escalate once. *)
Definition signal_process (process : D) (action : WatchdogSafetyAction) (grace : Z) : H () :=
  do! signalled <- succeeded (pidfd_signal process (match action with
                                                    | Stop => SignalTerminate
                                                    | Kill => SignalKill end)) in
  if negb signalled then se_ret ()
  else
    do! exited <- best_effort false (pidfd_wait_for_exit process
                    (match action with Stop => grace
                     | Kill => CONTAINMENT_ESCALATION_MILLISECONDS end)) in
    if exited then se_ret ()
    else
      run! succeeded (pidfd_signal process SignalKill) in
      run! succeeded (pidfd_wait_for_exit process CONTAINMENT_ESCALATION_MILLISECONDS) in
      se_ret ().

Definition linux_contain (slots : Slots) (target : WatchdogProtectedEngine)
    (action : WatchdogSafetyAction) (grace : Z) : H bool :=
  if negb (in_range 1 30000 grace)
  then se_fail (protection_error "containment grace is outside its bound")
  else
    do! (_, slot) <- se_lift (slot_for_target slots target) in
    do! cgroup_ <- se_lift (ok_or (protection_error "containment target has no cgroup identity")
                              (cgroup target)) in
    run! match slot_process slot with
         | Some process => signal_process process action grace
         | None => se_ret ()
         end in
    do! empty <- cgroup_is_empty cgroup_ in
    if empty then se_ret true
    else
      run! kill_cgroup_members cgroup_ in
      await_empty_cgroup CGROUP_EMPTY_ATTEMPTS cgroup_.

End provider.
