(* ===== verification/WatchdogCodec.v ===== *)
(** * Correctness of the Watchdog record codec

    Decoding inverts encoding on every typed sample, encoding inverts decoding
    on every accepted record, and the CRC detects every change of one byte. *)

From S2P Require Import Prelude Text WatchdogRecord.

Definition in_i16 (v : Z) : Prop := -32768 ≤ v < 32768.

(** ** Casts *)

Lemma i16_cast v : in_i16 v → u16_as_i16 (i16_as_u16 v) = v ∧ 0 ≤ i16_as_u16 v < 65536.
Proof.
  unfold in_i16, u16_as_i16, i16_as_u16. intros Hv.
  destruct (Z.ltb_spec v 0).
  - rewrite <- (Z.mod_add v 1 65536), Z.mod_small by lia.
    destruct (Z.ltb_spec (v + 1 * 65536) 32768); lia.
  - rewrite Z.mod_small by lia. destruct (Z.ltb_spec v 32768); lia.
Qed.

Lemma u16_cast v : 0 ≤ v < 65536 → i16_as_u16 (u16_as_i16 v) = v.
Proof.
  unfold u16_as_i16, i16_as_u16. intros Hv. destruct (Z.ltb_spec v 32768).
  - by rewrite Z.mod_small by lia.
  - rewrite <- (Z.mod_add _ 1 65536), Z.mod_small by lia. lia.
Qed.

(** ** Buffers built by consecutive writes *)

(** Writes that start at [o] and leave no gap. *)
Fixpoint contiguous (o : nat) (ws : list (nat * list Z)) : Prop :=
  match ws with
  | [] => True
  | (o', bs) :: ws => o' = o ∧ contiguous (o + length bs) ws
  end.

Definition written (ws : list (nat * list Z)) : list Z := concat (snd <$> ws).

Lemma apply_writes_contiguous ws pre rest :
  contiguous (length pre) ws →
  apply_writes (pre ++ rest) ws = pre ++ written ws ++ drop (length (written ws)) rest.
Proof.
  unfold apply_writes, written. revert pre rest.
  induction ws as [|[o bs] ws IH]; intros pre rest Hc; [done|].
  destruct Hc as [-> Hc]. cbn [foldl fst snd fmap list_fmap concat].
  assert (put (pre ++ rest) (length pre) bs = (pre ++ bs) ++ drop (length bs) rest) as ->.
  { unfold put. rewrite take_app_length, drop_app_ge by lia.
    replace (length pre + length bs - length pre)%nat with (length bs) by lia. by rewrite app_assoc. }
  rewrite IH by (by rewrite length_app). rewrite drop_drop, length_app, <- !app_assoc.
  reflexivity.
Qed.

Lemma slice_app_l l1 l2 o n :
  (o + n ≤ length l1)%nat → slice (l1 ++ l2) o n = slice l1 o n.
Proof. intros. unfold slice. rewrite drop_app_le, take_app_le; [done|rewrite length_drop; lia|lia]. Qed.

(** Reading back the [k]-th write. *)
Lemma slice_write ws k o bs :
  contiguous 0 ws → ws !! k = Some (o, bs) → slice (written ws) o (length bs) = bs.
Proof.
  enough (∀ o0, contiguous o0 ws → ws !! k = Some (o, bs) →
    (o0 ≤ o)%nat ∧ slice (written ws) (o - o0) (length bs) = bs) as H.
  { intros Hc Hk. destruct (H 0%nat Hc Hk) as [_ Hs]. by rewrite Nat.sub_0_r in Hs. }
  revert k. induction ws as [|[o' bs'] ws IH]; intros k o0 Hc Hk; [done|].
  destruct Hc as [-> Hc]. unfold written. cbn [fmap list_fmap concat snd]. fold (written ws).
  destruct k as [|k]; simpl in Hk.
  - injection Hk as -> ->. split; [done|]. rewrite Nat.sub_diag. unfold slice.
    rewrite drop_0. apply take_app_length.
  - destruct (IH k (o0 + length bs')%nat Hc Hk) as [Hle Hs]. split; [lia|].
    unfold slice in *. rewrite drop_app_ge by lia.
    by replace (o - o0 - length bs')%nat with (o - (o0 + length bs'))%nat by lia.
Qed.

Lemma nth_slice l o b : slice l o 1 = [b] → nth o l 0 = b.
Proof.
  unfold slice. revert l. induction o as [|o IH]; intros [|x l]; simpl; try done.
  - by intros [= <-].
  - apply IH.
Qed.

(** ** Typed samples *)

Record telemetry_typed (t : WatchdogSampleTelemetry) : Prop := {
  ty_cores : 0 ≤ ws_cpu_core_count t ≤ 32;
  ty_u8 : Forall byte [ws_flags t; ws_cpu_percent t; ws_gpu_percent t; ws_memory_percent t;
    ws_disk_percent t; ws_gpu_memory_percent t; ws_workload_type t];
  ty_core_percent : length (ws_cpu_core_percent t) = 32%nat ∧ Forall byte (ws_cpu_core_percent t);
  ty_engine_percent :
    length (ws_gpu_engine_percent t) = 6%nat ∧ Forall byte (ws_gpu_engine_percent t);
  ty_i16 : Forall in_i16 [ws_system_temp_deci_c t; ws_gpu_temp_deci_c t; ws_nvme_temp_deci_c t];
  ty_u16 : Forall in_u16 [ws_power_deci_w t; ws_load1_centi t];
  ty_u32 : Forall in_u32 [ws_memory_used_mib t; ws_memory_total_mib t; ws_disk_used_mib t;
    ws_disk_total_mib t; ws_network_rx_kib_s t; ws_network_tx_kib_s t; ws_disk_read_kib_s t;
    ws_disk_write_kib_s t; ws_workload_id t; ws_cpu_clock_mhz t; ws_gpu_clock_mhz t;
    ws_vram_clock_mhz t; ws_system_ram_clock_mhz t; ws_active_requests t; ws_queued_requests t;
    ws_connected_clients t];
  ty_u64 : Forall in_u64 [ws_requests_received t; ws_requests_admitted t; ws_requests_completed t;
    ws_requests_failed t; ws_requests_cancelled t; ws_requests_retried t; ws_input_tokens t;
    ws_output_tokens t; ws_cached_tokens t; ws_queue_milliseconds t; ws_ttft_milliseconds t;
    ws_decode_milliseconds t; ws_exact_token_requests t; ws_prefix_cache_hits t;
    ws_usage_records_dropped t; ws_usage_write_errors t]
}.

(** A [WatchdogSample] value: every field within its machine type. *)
Definition sample_typed (s : WatchdogSample) : Prop :=
  in_u64 (sequence s) ∧ in_u64 (unix_milliseconds s) ∧ in_u64 (monotonic_milliseconds s) ∧
  telemetry_typed (sample_telemetry s).

Lemma record_writes_contiguous s :
  telemetry_typed (sample_telemetry s) →
  contiguous 0 (record_writes s) ∧ length (written (record_writes s)) = 280%nat.
Proof.
  intros Hty. destruct (ty_core_percent _ Hty) as [Hc _], (ty_engine_percent _ Hty) as [He _].
  unfold record_writes, written. cbn -[Nat.add]. rewrite Hc, He.
  split; [repeat split|]. rewrite !length_app, Hc, He. reflexivity.
Qed.

(** The record is the concatenated fields followed by their checksum. *)
Lemma encode_shape s :
  telemetry_typed (sample_telemetry s) →
  encode_watchdog_record s
  = Ok (written (record_writes s) ++ le_bytes 4 (watchdog_crc32 (written (record_writes s)))).
Proof.
  intros Hty. destruct (record_writes_contiguous s Hty) as [Hc Hl]. unfold encode_watchdog_record.
  destruct (Z.ltb_spec (Z.of_nat WATCHDOG_MAX_CPU_CORES) (ws_cpu_core_count (sample_telemetry s))).
  { pose proof (ty_cores _ Hty). unfold WATCHDOG_MAX_CPU_CORES in *. lia. }
  pose proof (apply_writes_contiguous (record_writes s) [] (replicate WATCHDOG_RECORD_BYTES 0) Hc) as Hw.
  cbn [app] in Hw. rewrite Hw, Hl. clear Hw. set (body := written (record_writes s)) in *.
  change (drop 280 (replicate WATCHDOG_RECORD_BYTES 0)) with [0; 0; 0; 0].
  replace (take WATCHDOG_RECORD_CRC_OFFSET (body ++ [0; 0; 0; 0])) with body
    by (symmetry; apply take_app_length'; done).
  rewrite apply_writes_contiguous; [|by rewrite Hl].
  unfold written. cbn [fmap list_fmap concat snd put_u32]. do 2 f_equal.
Qed.

(** Reading a field of an encoded record. *)
Lemma slice_field s crc o bs n :
  telemetry_typed (sample_telemetry s) → (o, bs) ∈ record_writes s →
  length bs = n → (o + n ≤ 280)%nat →
  slice (written (record_writes s) ++ crc) o n = bs.
Proof.
  intros Hty [k Hk]%list_elem_of_lookup <- Hle.
  destruct (record_writes_contiguous s Hty) as [Hc Hl].
  rewrite slice_app_l by (rewrite Hl; lia). by apply (slice_write _ k).
Qed.

Section fields.
Context (s : WatchdogSample) (crc : list Z) (Hty : telemetry_typed (sample_telemetry s)).
Let record := written (record_writes s) ++ crc.

Lemma get_field_u8 o v :
  put_u8 o v ∈ record_writes s → (o + 1 ≤ 280)%nat → get_u8 record o = v.
Proof. intros Hk Ho. apply nth_slice. by apply (slice_field s crc o [v] 1). Qed.

Lemma get_field n o v :
  (o, le_bytes n v) ∈ record_writes s → (o + n ≤ 280)%nat →
  0 ≤ v < 256 ^ Z.of_nat n → le_val (slice record o n) = v.
Proof.
  intros Hk Ho Hv. unfold record.
  rewrite (slice_field s crc o (le_bytes n v) n Hty Hk) by (done || apply le_bytes_length).
  by apply le_val_le_bytes.
Qed.

Lemma get_field_u16 o v :
  put_u16 o v ∈ record_writes s → (o + 2 ≤ 280)%nat → in_u16 v → get_u16 record o = v.
Proof. intros. apply get_field; [done|done|]. change (256 ^ Z.of_nat 2) with 65536. ulia. Qed.
Lemma get_field_u32 o v :
  put_u32 o v ∈ record_writes s → (o + 4 ≤ 280)%nat → in_u32 v → get_u32 record o = v.
Proof. intros. apply get_field; [done|done|]. change (256 ^ Z.of_nat 4) with 4294967296. ulia. Qed.
Lemma get_field_u64 o v :
  put_u64 o v ∈ record_writes s → (o + 8 ≤ 280)%nat → in_u64 v → get_u64 record o = v.
Proof.
  intros. apply get_field; [done|done|].
  change (256 ^ Z.of_nat 8) with 18446744073709551616. ulia.
Qed.
Lemma get_field_i16 o v :
  put_u16 o (i16_as_u16 v) ∈ record_writes s → (o + 2 ≤ 280)%nat → in_i16 v →
  u16_as_i16 (get_u16 record o) = v.
Proof.
  intros Hk Ho Hv. destruct (i16_cast v Hv) as [Hcast Hr].
  rewrite (get_field_u16 o (i16_as_u16 v)); [done|done|done|ulia].
Qed.
End fields.

Create HintDb record.
#[export] Hint Resolve get_field_u8 get_field_u16 get_field_u32 get_field_u64 get_field_i16 : record.

(** A write of the layout, by position, and a field's type. *)
Ltac in_layout :=
  unfold record_writes; repeat first [apply list_elem_of_here | apply list_elem_of_further].
Ltac in_type :=
  match goal with
  | |- (_ ≤ _)%nat => by apply Nat.leb_le
  | H : Forall ?P ?l |- ?P ?x => rewrite Forall_forall in H; apply H; in_list
  end
with in_list := repeat first [apply list_elem_of_here | apply list_elem_of_further].

Lemma decode_telemetry_encoded s crc :
  telemetry_typed (sample_telemetry s) →
  decode_telemetry (written (record_writes s) ++ crc) = sample_telemetry s.
Proof.
  intros Hty. destruct s as [a b c t]. destruct t. pose proof Hty as [Hc H8 [Hcl Hcb] [Hel Heb] Hi Hs Hw Hd].
  unfold decode_telemetry. cbn [sample_telemetry] in *. simpl in Hcl, Hel.
  f_equal;
    first
    [ apply get_field_u8; [exact Hty|in_layout|in_type]
    | apply get_field_u16; [exact Hty|in_layout|in_type|in_type]
    | apply get_field_u32; [exact Hty|in_layout|in_type|in_type]
    | apply get_field_u64; [exact Hty|in_layout|in_type|in_type]
    | apply get_field_i16; [exact Hty|in_layout|in_type|in_type]
    | idtac ].
  - apply slice_field; [exact Hty|in_layout|exact Hcl|by apply Nat.leb_le].
  - apply slice_field; [exact Hty|in_layout|exact Hel|by apply Nat.leb_le].
Qed.

Lemma take_encoded s :
  telemetry_typed (sample_telemetry s) →
  take WATCHDOG_RECORD_CRC_OFFSET
    (written (record_writes s) ++ le_bytes 4 (watchdog_crc32 (written (record_writes s))))
  = written (record_writes s).
Proof.
  intros Hty. destruct (record_writes_contiguous s Hty) as [_ Hl]. by apply take_app_length'.
Qed.

(** ** The checksum is a 32-bit value *)

Lemma lxor_u32 a b : in_u32 a → in_u32 b → in_u32 (Z.lxor a b).
Proof.
  intros Ha Hb. unfold in_u32, u32_max in *. split; [apply Z.lxor_nonneg; lia|].
  enough (Z.lxor a b < 2 ^ 32) by (change (2 ^ 32) with 4294967296 in *; lia).
  destruct (Z.eq_dec (Z.lxor a b) 0) as [->|Hne]; [done|].
  assert (0 ≤ Z.lxor a b) by (apply Z.lxor_nonneg; lia).
  apply Z.log2_lt_pow2; [lia|].
  eapply Z.le_lt_trans; [apply Z.log2_lxor; lia|].
  apply Z.max_lub_lt; destruct (Z.eq_dec a 0), (Z.eq_dec b 0); subst; try (simpl; lia);
    apply Z.log2_lt_pow2; (change (2 ^ 32) with 4294967296; lia).
Qed.

Lemma crc_mask c : 0 ≤ c →
  Z.land 0xedb88320 ((0 - Z.land c 1) mod 2 ^ 32) = if Z.odd c then 0xedb88320 else 0.
Proof.
  intros Hc. change 1 with (Z.ones 1). rewrite Z.land_ones by lia. change (2 ^ 1) with 2.
  rewrite Zmod_odd. by destruct (Z.odd c).
Qed.

Lemma crc_bit_eq c : 0 ≤ c →
  crc_bit c = Z.lxor (Z.shiftr c 1) (if Z.odd c then 0xedb88320 else 0).
Proof. intros. unfold crc_bit. by rewrite crc_mask. Qed.

Lemma crc_bit_u32 c : in_u32 c → in_u32 (crc_bit c).
Proof.
  intros Hc. rewrite crc_bit_eq by (unfold in_u32 in Hc; lia). apply lxor_u32.
  - rewrite Z.shiftr_div_pow2 by lia. change (2 ^ 1) with 2. unfold in_u32, u32_max in *.
    split; [apply Z.div_pos; lia|apply Z.div_le_upper_bound; lia].
  - destruct (Z.odd c); ulia.
Qed.

(** The top bit of the polynomial records the bit shifted out, so a shift loses
    nothing. *)
Lemma crc_bit_inj c d : in_u32 c → in_u32 d → crc_bit c = crc_bit d → c = d.
Proof.
  intros Hc Hd. rewrite !crc_bit_eq by (unfold in_u32 in *; lia). intros H.
  assert (∀ x, in_u32 x → Z.testbit (Z.lxor (Z.shiftr x 1) (if Z.odd x then 0xedb88320 else 0)) 31 = Z.odd x) as Hbit.
  { intros x Hx. rewrite Z.lxor_spec, Z.shiftr_spec by lia.
    replace (Z.testbit x (31 + 1)) with false; [by destruct (Z.odd x)|].
    symmetry. destruct (Z.eq_dec x 0) as [->|]; [apply Z.testbit_0_l|].
    apply Z.bits_above_log2; [unfold in_u32 in Hx; lia|].
    apply Z.log2_lt_pow2; [unfold in_u32 in Hx; lia|]. change (2 ^ (31 + 1)) with 4294967296. ulia. }
  assert (Z.odd c = Z.odd d) as Hodd by (rewrite <- (Hbit c), <- (Hbit d), H by done; done).
  rewrite Hodd in H. apply (f_equal (λ z, Z.lxor z (if Z.odd d then 0xedb88320 else 0))) in H.
  rewrite !Z.lxor_assoc, Z.lxor_nilpotent, !Z.lxor_0_r in H.
  rewrite !Z.shiftr_div_pow2 in H by lia. change (2 ^ 1) with 2 in H.
  rewrite (Z.div_mod c 2), (Z.div_mod d 2), H, !Zmod_odd, Hodd by lia. done.
Qed.

#[local] Opaque crc_bit.

Lemma crc_iter_u32 n c : in_u32 c → in_u32 (Nat.iter n crc_bit c).
Proof. intros Hc. induction n as [|n IH]; [done|]. simpl. by apply crc_bit_u32. Qed.
Lemma crc_iter_inj n c d :
  in_u32 c → in_u32 d → Nat.iter n crc_bit c = Nat.iter n crc_bit d → c = d.
Proof.
  intros Hc Hd. induction n as [|n IH]; [done|]. simpl. intros H.
  apply IH, crc_bit_inj; [by apply crc_iter_u32..|done].
Qed.

Lemma lxor_cancel_l a b c : Z.lxor a b = Z.lxor a c → b = c.
Proof.
  intros H. apply (f_equal (Z.lxor a)) in H.
  by rewrite <- !Z.lxor_assoc, Z.lxor_nilpotent, !Z.lxor_0_l in H.
Qed.

Lemma byte_u32 b : byte b → in_u32 b.
Proof. unfold byte. ulia. Qed.

Lemma crc_byte_u32 c b : in_u32 c → byte b → in_u32 (crc_byte c b).
Proof. intros. by apply crc_iter_u32, lxor_u32, byte_u32. Qed.

Lemma crc_byte_inj c d b b' :
  in_u32 c → in_u32 d → byte b → byte b' → crc_byte c b = crc_byte d b' →
  Z.lxor c b = Z.lxor d b'.
Proof.
  intros Hc Hd Hb Hb'. apply (crc_iter_inj 8); (apply lxor_u32; [done|by apply byte_u32]).
Qed.

Lemma crc_fold_u32 l c : in_u32 c → Forall byte l → in_u32 (foldl crc_byte c l).
Proof.
  intros Hc Hl. revert c Hc. induction Hl; intros c Hc; simpl; [done|].
  by apply IHHl, crc_byte_u32.
Qed.

Lemma crc_fold_inj l c d :
  in_u32 c → in_u32 d → Forall byte l → foldl crc_byte c l = foldl crc_byte d l → c = d.
Proof.
  intros Hc Hd Hl. revert c d Hc Hd. induction Hl as [|b l Hb Hl IH]; intros c d Hc Hd; simpl; [done|].
  intros H. apply IH in H; [|by apply crc_byte_u32..]. apply crc_byte_inj in H; [|done..].
  rewrite (Z.lxor_comm c), (Z.lxor_comm d) in H. by apply lxor_cancel_l in H.
Qed.

Lemma crc32_u32 l : Forall byte l → in_u32 (watchdog_crc32 l).
Proof. intros Hl. unfold watchdog_crc32. apply lxor_u32; [apply crc_fold_u32; [ulia|done]|ulia]. Qed.

(** Two inputs that differ in exactly one byte have different checksums. *)
Lemma crc32_single_byte l1 b b' l2 :
  Forall byte (l1 ++ b :: l2) → byte b' → b ≠ b' →
  watchdog_crc32 (l1 ++ b :: l2) ≠ watchdog_crc32 (l1 ++ b' :: l2).
Proof.
  rewrite Forall_app, Forall_cons. intros (H1 & Hb & H2) Hb' Hne. unfold watchdog_crc32.
  rewrite (Z.lxor_comm _ u32_max), (Z.lxor_comm (foldl crc_byte u32_max (l1 ++ b' :: l2))).
  intros H%lxor_cancel_l. rewrite !foldl_app in H. simpl in H.
  assert (in_u32 (foldl crc_byte u32_max l1)) by (apply crc_fold_u32; [ulia|done]).
  apply crc_fold_inj in H; [|by apply crc_byte_u32..|done].
  apply crc_byte_inj in H; [|done..]. by apply lxor_cancel_l in H.
Qed.

(** ** Round trips *)

Lemma written_bytes s : sample_typed s → Forall byte (written (record_writes s)).
Proof.
  intros (_ & _ & _ & Hty). unfold written. rewrite Forall_concat, Forall_fmap.
  destruct s as [a b c t]. destruct (ty_core_percent _ Hty) as [_ Hc], (ty_engine_percent _ Hty) as [_ He].
  pose proof (ty_cores _ Hty). pose proof (ty_u8 _ Hty) as H8. rewrite !Forall_cons in H8.
  destruct H8 as (?&?&?&?&?&?&?&_). simpl in *.
  repeat (apply Forall_cons; split; [first [apply le_bytes_bytes | done
    | apply Forall_singleton; solve [done | unfold byte; simpl; lia]]|]). constructor.
Qed.

Lemma decode_encoded s :
  sample_typed s →
  decode_watchdog_record
    (written (record_writes s) ++ le_bytes 4 (watchdog_crc32 (written (record_writes s)))) = Ok s.
Proof.
  intros Hs. pose proof Hs as (H1 & H2 & H3 & Hty). unfold decode_watchdog_record.
  pose proof (decode_telemetry_encoded s (le_bytes 4 (watchdog_crc32 (written (record_writes s)))) Hty) as Hd.
  destruct (record_writes_contiguous s Hty) as [_ Hl].
  rewrite take_encoded by done. set (body := written (record_writes s)) in *.
  set (crc := le_bytes 4 (watchdog_crc32 body)) in *.
  assert (length (body ++ crc) = 284)%nat as -> by (rewrite length_app, Hl; unfold crc; by rewrite le_bytes_length).
  assert (get_u32 (body ++ crc) WATCHDOG_RECORD_CRC_OFFSET = watchdog_crc32 body) as ->.
  { unfold get_u32, slice, WATCHDOG_RECORD_CRC_OFFSET. rewrite drop_app_length' by done.
    unfold crc. rewrite firstn_all2 by (by rewrite le_bytes_length).
    apply le_val_le_bytes. pose proof (crc32_u32 body (written_bytes s Hs)).
    change (256 ^ Z.of_nat 4) with 4294967296. ulia. }
  rewrite (Z.eqb_refl (watchdog_crc32 body)). unfold body.
  rewrite (get_field_u32 s crc Hty 0 WATCHDOG_RECORD_MAGIC); [|in_layout|in_type|by vm_compute].
  rewrite (get_field_u16 s crc Hty 4 WATCHDOG_RECORD_VERSION); [|in_layout|in_type|by vm_compute].
  rewrite (get_field_u16 s crc Hty 6 (Z.of_nat WATCHDOG_RECORD_BYTES)); [|in_layout|in_type|by vm_compute].
  rewrite (get_field_u8 s crc Hty 32 (ws_cpu_core_count (sample_telemetry s))); [|in_layout|in_type].
  rewrite (get_field_u64 s crc Hty 8 (sequence s)); [|in_layout|in_type|done].
  rewrite (get_field_u64 s crc Hty 16 (unix_milliseconds s)); [|in_layout|in_type|done].
  rewrite (get_field_u64 s crc Hty 24 (monotonic_milliseconds s)); [|in_layout|in_type|done].
  fold body. rewrite Hd. pose proof (ty_cores _ Hty).
  unfold from_record, WATCHDOG_MAX_CPU_CORES.
  destruct (Z.ltb_spec (Z.of_nat 32) (ws_cpu_core_count (sample_telemetry s))); [lia|].
  by destruct s.
Qed.

(** Reads of a byte array stay within the integer types. *)
Section reads.
Context (input : list Z) (Hb : Forall byte input).

Lemma slice_bytes o n : Forall byte (slice input o n).
Proof. unfold slice. by apply Forall_take, Forall_drop. Qed.
Lemma slice_length o n : (o + n ≤ length input)%nat → length (slice input o n) = n.
Proof. intros. unfold slice. rewrite length_take, length_drop. lia. Qed.
Lemma le_bytes_slice o n :
  (o + n ≤ length input)%nat → le_bytes n (le_val (slice input o n)) = slice input o n.
Proof.
  intros Ho. pose proof (le_bytes_le_val _ (slice_bytes o n)) as H. by rewrite slice_length in H.
Qed.
Lemma le_val_slice o n :
  (o + n ≤ length input)%nat → 0 ≤ le_val (slice input o n) < 256 ^ Z.of_nat n.
Proof.
  intros Ho. pose proof (le_val_range _ (slice_bytes o n)) as H. by rewrite slice_length in H.
Qed.
Lemma get_u8_byte o : byte (get_u8 input o).
Proof.
  unfold get_u8. destruct (nth_in_or_default o input 0) as [H| ->]; [|unfold byte; lia].
  rewrite Forall_forall in Hb. apply Hb. by apply list_elem_of_In.
Qed.
Lemma get_u8_slice o : (o + 1 ≤ length input)%nat → [get_u8 input o] = slice input o 1.
Proof.
  intros Ho. pose proof (slice_length o 1 Ho) as Hl.
  destruct (slice input o 1) as [|b [|? ?]] eqn:E; [done| |done].
  by rewrite (nth_slice input o b E : get_u8 input o = b).
Qed.
Lemma get_u16_in o : (o + 2 ≤ length input)%nat → in_u16 (get_u16 input o).
Proof. intros H. pose proof (le_val_slice o 2 H) as Hv. change (256 ^ Z.of_nat 2) with 65536 in Hv. unfold get_u16. ulia. Qed.
Lemma get_u32_in o : (o + 4 ≤ length input)%nat → in_u32 (get_u32 input o).
Proof. intros H. pose proof (le_val_slice o 4 H) as Hv. change (256 ^ Z.of_nat 4) with 4294967296 in Hv. unfold get_u32. ulia. Qed.
Lemma get_u64_in o : (o + 8 ≤ length input)%nat → in_u64 (get_u64 input o).
Proof. intros H. pose proof (le_val_slice o 8 H) as Hv. change (256 ^ Z.of_nat 8) with 18446744073709551616 in Hv. unfold get_u64. ulia. Qed.
Lemma get_i16_in o : (o + 2 ≤ length input)%nat → in_i16 (u16_as_i16 (get_u16 input o)).
Proof.
  intros H. pose proof (get_u16_in o H). unfold in_i16, u16_as_i16.
  destruct (Z.ltb_spec (get_u16 input o) 32768); ulia.
Qed.

Lemma decode_telemetry_typed :
  length input = 284%nat → get_u8 input 32 ≤ 32 → telemetry_typed (decode_telemetry input).
Proof.
  intros Hl Hc. pose proof (get_u8_byte 32).
  split; cbn -[get_u8 get_u16 get_u32 get_u64 slice].
  - unfold byte in *. lia.
  - repeat constructor; apply get_u8_byte.
  - split; [by apply slice_length; rewrite Hl; apply Nat.leb_le|apply slice_bytes].
  - split; [by apply slice_length; rewrite Hl; apply Nat.leb_le|apply slice_bytes].
  - repeat (apply Forall_cons; split; [by apply get_i16_in; rewrite Hl; apply Nat.leb_le|]). constructor.
  - repeat (apply Forall_cons; split; [by apply get_u16_in; rewrite Hl; apply Nat.leb_le|]). constructor.
  - repeat (apply Forall_cons; split; [by apply get_u32_in; rewrite Hl; apply Nat.leb_le|]). constructor.
  - repeat (apply Forall_cons; split; [by apply get_u64_in; rewrite Hl; apply Nat.leb_le|]). constructor.
Qed.
End reads.

(** Writes that agree with [input] chunk by chunk reproduce it. *)
Lemma written_slices input ws o :
  contiguous o ws → (o + length (written ws) ≤ length input)%nat →
  Forall (λ w, w.2 = slice input w.1 (length w.2)) ws →
  written ws = slice input o (length (written ws)).
Proof.
  revert o. induction ws as [|[o' bs] ws IH]; intros o Hc Hle Hall; [done|].
  destruct Hc as [-> Hc]. apply Forall_cons in Hall as [Hbs Hall]. simpl in Hbs.
  unfold written in *. cbn [fmap list_fmap concat snd] in *. rewrite length_app in *.
  rewrite (IH _ Hc) at 1 by (done || lia).
  rewrite Hbs at 1. unfold slice. rewrite <- drop_drop, <- take_take_drop. done.
Qed.

Lemma decode_inv input s :
  decode_watchdog_record input = Ok s →
  length input = 284%nat ∧ get_u32 input 0 = WATCHDOG_RECORD_MAGIC ∧
  get_u16 input 4 = WATCHDOG_RECORD_VERSION ∧
  get_u16 input 6 = Z.of_nat WATCHDOG_RECORD_BYTES ∧
  get_u32 input WATCHDOG_RECORD_CRC_OFFSET = watchdog_crc32 (take WATCHDOG_RECORD_CRC_OFFSET input) ∧
  get_u8 input 32 ≤ 32 ∧
  s = {| sequence := get_u64 input 8; unix_milliseconds := get_u64 input 16;
         monotonic_milliseconds := get_u64 input 24; sample_telemetry := decode_telemetry input |}.
Proof.
  unfold decode_watchdog_record.
  destruct (_ || _) eqn:Hbad; [done|]. rewrite !orb_false_iff, !negb_false_iff, !Z.eqb_eq, Nat.eqb_eq in Hbad.
  destruct Hbad as [[[[[H1 H2] H3] H4] H5] H6]. apply Z.ltb_ge in H6.
  unfold from_record. destruct (_ <? _); [done|]. intros [= <-]. done.
Qed.

Lemma decoded_writes input s :
  Forall byte input → decode_watchdog_record input = Ok s →
  Forall (λ w, w.2 = slice input w.1 (length w.2)) (record_writes s).
Proof.
  intros Hb (Hl & Hm & Hv & Hn & _ & _ & ->)%decode_inv.
  unfold record_writes. rewrite <- Hm, <- Hv, <- Hn.
  repeat (apply Forall_cons; split; [
    cbn -[le_bytes get_u8 get_u16 get_u32 get_u64 slice];
    rewrite ?le_bytes_length, ?(slice_length input) by (rewrite Hl; by apply Nat.leb_le);
    first [ done
          | symmetry; apply le_bytes_slice; [done|rewrite Hl; by apply Nat.leb_le]
          | apply get_u8_slice; rewrite Hl; by apply Nat.leb_le
          | apply le_bytes_slice; [done|rewrite Hl; by apply Nat.leb_le]
          | rewrite u16_cast; [apply le_bytes_slice; [done|rewrite Hl; by apply Nat.leb_le]|] ]|]).
  all: try constructor.
  all: pose proof (get_u16_in input Hb 78 ltac:(rewrite Hl; by apply Nat.leb_le));
    pose proof (get_u16_in input Hb 80 ltac:(rewrite Hl; by apply Nat.leb_le));
    pose proof (get_u16_in input Hb 82 ltac:(rewrite Hl; by apply Nat.leb_le)); ulia.
Qed.

(** every sample whose fields are within their machine types is
    encoded, into 284 bytes, and decoding those bytes gives the sample back. *)
Theorem record_decode_inverts_encode s :
  sample_typed s →
  ∃ record, encode_watchdog_record s = Ok record ∧ length record = WATCHDOG_RECORD_BYTES ∧
            Forall byte record ∧ decode_watchdog_record record = Ok s.
Proof.
  intros Hs. pose proof Hs as (_ & _ & _ & Hty). rewrite encode_shape by done.
  eexists. split; [done|]. destruct (record_writes_contiguous s Hty) as [_ Hl]. split_and!.
  - rewrite length_app, Hl, le_bytes_length. done.
  - apply Forall_app. split; [by apply written_bytes|apply le_bytes_bytes].
  - by apply decode_encoded.
Qed.

Lemma encode_decoded input s :
  Forall byte input → decode_watchdog_record input = Ok s →
  sample_typed s ∧ encode_watchdog_record s = Ok input.
Proof.
  intros Hb Hd. pose proof (decoded_writes input s Hb Hd) as Hw.
  apply decode_inv in Hd as (Hl & _ & _ & _ & Hcrc & Hcores & Hs).
  assert (sample_typed s) as Hty.
  { subst s. split_and!; [apply get_u64_in; [done|rewrite Hl; by apply Nat.leb_le]..|].
    by apply decode_telemetry_typed. }
  split; [done|]. destruct Hty as (_ & _ & _ & Hty).
  destruct (record_writes_contiguous s Hty) as [Hc Hlen].
  rewrite encode_shape by done. f_equal.
  assert (written (record_writes s) = take WATCHDOG_RECORD_CRC_OFFSET input) as Hbody.
  { rewrite (written_slices input _ 0 Hc); [by rewrite Hlen|rewrite Hlen, Hl; by apply Nat.leb_le|done]. }
  rewrite Hbody, <- Hcrc. unfold get_u32.
  rewrite le_bytes_slice; [|done|rewrite Hl; by apply Nat.leb_le].
  unfold slice. rewrite (firstn_all2 (n := 4)); [apply take_drop|].
  rewrite length_drop, Hl. by apply Nat.leb_le.
Qed.

(** the decoder accepts only canonical records: whatever bytes
    it accepts, encoding the decoded sample reproduces them exactly, so two
    different byte strings never decode to the same sample. *)
Theorem record_encoding_is_canonical input s :
  Forall byte input → decode_watchdog_record input = Ok s →
  sample_typed s ∧ encode_watchdog_record s = Ok input.
Proof. apply encode_decoded. Qed.

Lemma bytes_of_inserted (l : list Z) i b : Forall byte l → byte b → Forall byte (<[i := b]> l).
Proof. intros Hl Hb. by apply Forall_insert. Qed.

(** replacing any one byte of an accepted record by a different byte
    makes the decoder refuse it. *)
Theorem record_detects_single_byte_corruption input s i b b' :
  Forall byte input → decode_watchdog_record input = Ok s →
  input !! i = Some b → byte b' → b' ≠ b →
  is_ok (decode_watchdog_record (<[i := b']> input)) = false.
Proof.
  intros Hb (Hl & _ & _ & _ & Hcrc & _ & _)%decode_inv Hi Hb' Hne.
  destruct (decode_watchdog_record (<[i := b']> input)) as [s'|] eqn:Hd; [|done]. exfalso.
  apply decode_inv in Hd as (_ & _ & _ & _ & Hcrc' & _ & _).
  destruct (decide (i < 280)%nat) as [Hlt|Hge].
  - assert (get_u32 (<[i := b']> input) WATCHDOG_RECORD_CRC_OFFSET
            = get_u32 input WATCHDOG_RECORD_CRC_OFFSET) as Hsame.
    { unfold get_u32, slice, WATCHDOG_RECORD_CRC_OFFSET. by rewrite drop_insert_lt by lia. }
    rewrite Hsame, Hcrc in Hcrc'.
    assert (take WATCHDOG_RECORD_CRC_OFFSET input !! i = Some b) as Hti
      by (by rewrite lookup_take_lt).
    destruct (list_elem_of_split_length _ _ _ Hti) as (l1 & l2 & Heq & Hlen).
    rewrite take_insert_lt, Heq in Hcrc' by done. subst i.
    rewrite insert_app_r_alt, Nat.sub_diag in Hcrc' by done. cbn in Hcrc'.
    assert (Forall byte (l1 ++ b :: l2)) by (rewrite <- Heq; by apply Forall_take).
    by apply crc32_single_byte in Hcrc'.
  - rewrite take_insert_ge, <- Hcrc in Hcrc' by (unfold WATCHDOG_RECORD_CRC_OFFSET; lia).
    unfold get_u32 in Hcrc'. apply (f_equal (le_bytes 4)) in Hcrc'.
    rewrite !le_bytes_slice in Hcrc'; [|done|rewrite Hl; by apply Nat.leb_le|by apply bytes_of_inserted
      |rewrite length_insert, Hl; by apply Nat.leb_le].
    apply (f_equal (λ l, l !! (i - 280)%nat)) in Hcrc'. unfold slice, WATCHDOG_RECORD_CRC_OFFSET in Hcrc'.
    pose proof (lookup_lt_Some _ _ _ Hi). rewrite !lookup_take_lt, !lookup_drop in Hcrc' by lia.
    replace (280 + (i - 280))%nat with i in Hcrc' by lia.
    rewrite list_lookup_insert_eq, Hi in Hcrc' by done. congruence.
Qed.

#[export] Instance byte_dec b : Decision (byte b).
Proof. unfold byte. apply _. Defined.
#[export] Instance in_i16_dec v : Decision (in_i16 v).
Proof. unfold in_i16. apply _. Defined.
#[export] Instance in_u16_dec v : Decision (in_u16 v).
Proof. unfold in_u16. apply _. Defined.
#[export] Instance in_u32_dec v : Decision (in_u32 v).
Proof. unfold in_u32. apply _. Defined.
#[export] Instance in_u64_dec v : Decision (in_u64 v).
Proof. unfold in_u64. apply _. Defined.

(** Settle a closed decidable proposition by computation. *)
Ltac by_computation := apply (bool_decide_unpack _); vm_compute; exact I.

Module RecordExample.
Definition sample : WatchdogSample :=
  {| sequence := 7; unix_milliseconds := 1700000000123; monotonic_milliseconds := 5;
     sample_telemetry := WatchdogSampleTelemetry_default |}.
Definition record : list Z :=
  match encode_watchdog_record sample with Ok r => r | Err _ => [] end.

Lemma sample_is_typed : sample_typed sample.
Proof.
  split_and!; [by_computation..|].
  split; first [by_computation | split; by_computation].
Defined.
Lemma record_bytes : Forall byte record.
Proof. by_computation. Defined.
Lemma record_decodes : decode_watchdog_record record = Ok sample.
Proof. vm_compute. reflexivity. Defined.
End RecordExample.

Lemma record_decode_inverts_encode_witness :
  ∃ record, encode_watchdog_record RecordExample.sample = Ok record ∧
    length record = WATCHDOG_RECORD_BYTES ∧ Forall byte record ∧
    decode_watchdog_record record = Ok RecordExample.sample.
Proof. exact (record_decode_inverts_encode RecordExample.sample RecordExample.sample_is_typed). Defined.

Lemma record_encoding_is_canonical_witness :
  sample_typed RecordExample.sample ∧
  encode_watchdog_record RecordExample.sample = Ok RecordExample.record.
Proof.
  exact (record_encoding_is_canonical RecordExample.record RecordExample.sample
    RecordExample.record_bytes RecordExample.record_decodes).
Defined.

Lemma record_detects_single_byte_corruption_witness :
  is_ok (decode_watchdog_record (<[100%nat := 9]> RecordExample.record)) = false.
Proof.
  apply (record_detects_single_byte_corruption RecordExample.record RecordExample.sample 100 0 9
    RecordExample.record_bytes RecordExample.record_decodes);
    [vm_compute; reflexivity|by_computation|lia].
Defined.
