(* ===== verification/WatchdogHistory.v ===== *)
(** * Correctness of the Watchdog ring

    Over any file whose reads and writes make progress, possibly in parts: a
    written sample reads back from its bucket and disturbs no other slot, a
    bucket never reads a sample of another time, queries partition their range
    into samples and gaps, and scans see exactly the valid slots. *)

From S2P Require Import Prelude Text WatchdogRecord WatchdogCodec.

(** ** The Watchdog ring ([core/watchdog/src/li_watchdog_ring.rs])

    A fixed-capacity file of 284-byte records.  A sample is written to the slot
    of its time bucket modulo the capacity; readers verify the CRC and the
    bucket, so an overwritten, torn or corrupt slot reads as a gap.  The file is
    the injected capability of the class [WatchdogRingFile], whose reads and
    writes may be partial. *)

(** ** File capability *)

Class WatchdogRingFile (F : Type) := {
  file_length : F → result WatchdogError Z * F;
  set_length : Z → F → result WatchdogError () * F;
  (** the bytes a [read_at] into a buffer of [len] bytes filled in *)
  read_at : Z → nat → F → result WatchdogError (list Z) * F;
  write_at : Z → list Z → F → result WatchdogError nat * F;
  file_synchronize : F → result WatchdogError () * F
}.

(** ** Layout *)

Definition WATCHDOG_RING_SCAN_RECORDS : Z := 32.
Definition RECORD_BYTES : Z := Z.of_nat WATCHDOG_RECORD_BYTES.

Record WatchdogRingLayout := { interval_milliseconds : Z; capacity : Z }.

Definition layout_new (interval capacity : Z) : result WatchdogError WatchdogRingLayout :=
  if (interval =? 0) || (capacity =? 0)
     || match checked_mul_u64 capacity RECORD_BYTES with
        | None => true
        | Some bytes => i64_max <? bytes
        end
  then Err (WatchdogInvalidContract "Watchdog ring layout is invalid or too large")
  else Ok {| interval_milliseconds := interval; capacity := capacity |}.

Definition byte_length (l : WatchdogRingLayout) : Z := capacity l * RECORD_BYTES.

Definition storage_io_error (reason : string) : WatchdogError := WatchdogProvider "storage" reason.

Record WatchdogRingHistory := {
  history_samples : list WatchdogSample;
  missing_buckets : list Z
}.

(** The bucket of a sample. *)
Definition bucket_of (l : WatchdogRingLayout) (s : WatchdogSample) : Z :=
  unix_milliseconds s / interval_milliseconds l.

Definition bucket_offset (l : WatchdogRingLayout) (bucket : Z) : result WatchdogError Z :=
  ok_or (WatchdogInvalidContract "Watchdog ring offset overflowed")
    (checked_mul_u64 (bucket mod capacity l) RECORD_BYTES).

(** ** Ring operations over the injected file *)

Section ring.
Context {F : Type} `{!WatchdogRingFile F} (layout : WatchdogRingLayout).

Definition with_file : SE F WatchdogError WatchdogRingLayout :=
  let expected := byte_length layout in
  do! observed <- file_length in
  if expected <? observed
  then se_fail (storage_io_error "ring file exceeds its closed capacity")
  else
    run! (if observed <? expected then set_length expected else se_ret ()) in
    do! final <- file_length in
    if negb (final =? expected)
    then se_fail (storage_io_error "ring file has an incomplete extent")
    else se_ret layout.

(** [while consumed < output.len()]: each iteration consumes at least one byte,
    so [fuel] equal to the number of bytes is enough. *)
Fixpoint read_loop (fuel : nat) (offset : Z) (len : nat) : SE F WatchdogError (list Z) :=
  match len with
  | O => se_ret []
  | S _ =>
    match fuel with
    | O => se_fail WatchdogStateUnavailable
    | S fuel =>
      do! bytes <- read_at offset len in
      if (length bytes =? 0)%nat then se_ret (replicate len 0)
      else
        do! rest <- read_loop fuel (offset + Z.of_nat (length bytes)) (len - length bytes) in
        se_ret (bytes ++ rest)
    end
  end.
Definition read_exact (offset : Z) (len : nat) : SE F WatchdogError (list Z) :=
  read_loop len offset len.

Fixpoint write_loop (fuel : nat) (offset : Z) (input : list Z) : SE F WatchdogError () :=
  match input with
  | [] => se_ret ()
  | _ :: _ =>
    match fuel with
    | O => se_fail WatchdogStateUnavailable
    | S fuel =>
      do! count <- write_at offset input in
      if (count =? 0)%nat then se_fail (storage_io_error "ring write made no progress")
      else write_loop fuel (offset + Z.of_nat count) (drop count input)
    end
  end.
Definition write_exact (offset : Z) (input : list Z) : SE F WatchdogError () :=
  write_loop (length input) offset input.

Definition ring_write (s : WatchdogSample) : SE F WatchdogError () :=
  do! record <- se_lift (encode_watchdog_record s) in
  do! offset <- se_lift (bucket_offset layout (bucket_of layout s)) in
  write_exact offset record.

Definition read_bucket (bucket : Z) : SE F WatchdogError (option WatchdogSample) :=
  do! offset <- se_lift (bucket_offset layout bucket) in
  do! record <- read_exact offset WATCHDOG_RECORD_BYTES in
  match decode_watchdog_record record with
  | Ok s => se_ret (if bucket_of layout s =? bucket then Some s else None)
  | Err _ => se_ret None
  end.

(** The [loop] of [query] from [bucket]; [fuel] counts the remaining buckets. *)
Fixpoint query_loop (fuel : nat) (start_ end_ final_bucket bucket : Z) (maximum : nat)
    (samples : list WatchdogSample) (missing : list Z) : SE F WatchdogError WatchdogRingHistory :=
  match fuel with
  | O => se_fail WatchdogStateUnavailable
  | S fuel =>
    do! found <- read_bucket bucket in
    let next samples missing :=
      if (bucket =? final_bucket) || (bucket =? u64_max)
      then se_ret {| history_samples := samples; missing_buckets := missing |}
      else query_loop fuel start_ end_ final_bucket (bucket + 1) maximum samples missing in
    match found with
    | Some s =>
      if (start_ <=? unix_milliseconds s) && (unix_milliseconds s <=? end_) then
        let samples := samples ++ [s] in
        if (length samples =? maximum)%nat
        then se_ret {| history_samples := samples; missing_buckets := missing |}
        else next samples missing
      else next samples (missing ++ [bucket])
    | None => next samples (missing ++ [bucket])
    end
  end.

Definition query (start_ end_ : Z) (maximum : nat) : SE F WatchdogError WatchdogRingHistory :=
  let range_error := WatchdogInvalidContract "Watchdog ring query range or limit is invalid" in
  if (end_ <? start_) || (maximum =? 0)%nat || (capacity layout <? Z.of_nat maximum)
  then se_fail range_error
  else
    let first := start_ / interval_milliseconds layout in
    let final_bucket := end_ / interval_milliseconds layout in
    match checked_sub final_bucket first ≫= λ d, checked_add_u64 d 1 with
    | None => se_fail range_error
    | Some bucket_count =>
      if capacity layout <? bucket_count
      then se_fail (WatchdogInvalidContract "Watchdog ring query exceeds retained history")
      else query_loop (Z.to_nat bucket_count) start_ end_ final_bucket first maximum [] []
    end.

(** *** Scans *)

(** [chunks_exact(WATCHDOG_RECORD_BYTES)] of a block of [n] records. *)
Fixpoint record_chunks (n : nat) (block : list Z) : list (list Z) :=
  match n with
  | O => []
  | S n => take WATCHDOG_RECORD_BYTES block
           :: record_chunks n (drop WATCHDOG_RECORD_BYTES block)
  end.

(** The valid record in [slot], if its bytes decode and belong there. *)
Definition record_in_slot (slot : Z) (record : list Z) : option WatchdogSample :=
  match decode_watchdog_record record with
  | Ok s => if bucket_of layout s mod capacity layout =? slot then Some s else None
  | Err _ => None
  end.

(** The inner loop; the visitor's result is the new accumulator and whether to
    go on. *)
Fixpoint visit_chunks {A} (visitor : A → WatchdogSample → A * bool) (slot : Z)
    (chunks : list (list Z)) (acc : A) : A * bool :=
  match chunks with
  | [] => (acc, true)
  | record :: chunks =>
    match record_in_slot slot record with
    | None => visit_chunks visitor (slot + 1) chunks acc
    | Some s =>
      let '(acc, continue) := visitor acc s in
      if continue then visit_chunks visitor (slot + 1) chunks acc else (acc, false)
    end
  end.

(** [for first_slot in (0..capacity).step_by(32)]. *)
Fixpoint scan_blocks {A} (fuel : nat) (visitor : A → WatchdogSample → A * bool)
    (first_slot : Z) (acc : A) : SE F WatchdogError A :=
  if capacity layout <=? first_slot then se_ret acc
  else
    match fuel with
    | O => se_fail WatchdogStateUnavailable
    | S fuel =>
      let record_count :=
        Z.to_nat (Z.min (capacity layout - first_slot) WATCHDOG_RING_SCAN_RECORDS) in
      do! block <- read_exact (first_slot * RECORD_BYTES)
                     (record_count * WATCHDOG_RECORD_BYTES) in
      let '(acc, continue) := visit_chunks visitor first_slot (record_chunks record_count block) acc in
      if continue then scan_blocks fuel visitor (first_slot + WATCHDOG_RING_SCAN_RECORDS) acc
      else se_ret acc
    end.

Definition scan_valid_records {A} (visitor : A → WatchdogSample → A * bool) (acc : A)
  : SE F WatchdogError A :=
  scan_blocks (Z.to_nat (capacity layout)) visitor 0 acc.

Definition keep_latest (latest : option WatchdogSample) (candidate : WatchdogSample)
  : option WatchdogSample * bool :=
  (match latest with
   | Some current => if sequence current <? sequence candidate then Some candidate else latest
   | None => Some candidate
   end, true).
Definition latest : SE F WatchdogError (option WatchdogSample) :=
  scan_valid_records keep_latest None.

Definition keep_sequence (seq : Z) (found : option WatchdogSample) (candidate : WatchdogSample)
  : option WatchdogSample * bool :=
  if sequence candidate =? seq then (Some candidate, false) else (found, true).
Definition find_sequence (seq : Z) : SE F WatchdogError (option WatchdogSample) :=
  scan_valid_records (keep_sequence seq) None.

Definition ring_synchronize : SE F WatchdogError () := file_synchronize.
End ring.

(** What the code relies on of the operating system's positional reads and
    writes on an open regular file: they transfer a prefix of the requested
    range, and at least one byte within the file's extent. *)
Class RingFileLaws (F : Type) `{!WatchdogRingFile F} := {
  contents : F → list Z;
  read_at_law off len f :
    0 ≤ off → ∃ n f',
      read_at off len f = (Ok (slice (contents f) (Z.to_nat off) n), f') ∧
      contents f' = contents f ∧ (n ≤ len)%nat ∧
      ((0 < len)%nat → (Z.to_nat off < length (contents f))%nat → (0 < n)%nat);
  write_at_law off input f :
    0 ≤ off → (Z.to_nat off + length input ≤ length (contents f))%nat → input ≠ [] →
    ∃ n f', write_at off input f = (Ok n, f') ∧ (0 < n ≤ length input)%nat ∧
      contents f' = put (contents f) (Z.to_nat off) (take n input)
}.

(** ** Pure view of a ring *)

Definition slot_bytes (c : list Z) (slot : Z) : list Z :=
  slice c (Z.to_nat (slot * RECORD_BYTES)) WATCHDOG_RECORD_BYTES.

(** What a bucket holds according to the bytes of the file. *)
Definition bucket_sample (l : WatchdogRingLayout) (c : list Z) (bucket : Z)
  : option WatchdogSample :=
  match decode_watchdog_record (slot_bytes c (bucket mod capacity l)) with
  | Ok s => if bucket_of l s =? bucket then Some s else None
  | Err _ => None
  end.

(** A layout accepted by [layout_new]. *)
Definition layout_ok (l : WatchdogRingLayout) : Prop :=
  0 < interval_milliseconds l ∧ 0 < capacity l ∧ capacity l * RECORD_BYTES ≤ i64_max.

Lemma layout_new_Ok interval cap l :
  in_u64 interval → in_u64 cap → layout_new interval cap = Ok l → layout_ok l.
Proof.
  unfold layout_new, layout_ok. intros Hi Hc H.
  destruct (interval =? 0) eqn:H1; [done|]. destruct (cap =? 0) eqn:H2; [done|]. simpl in H.
  unfold checked_mul_u64 in H. destruct (cap * RECORD_BYTES <=? u64_max); [|done].
  destruct (i64_max <? cap * RECORD_BYTES) eqn:H3; [done|]. injection H as <-. simpl. ulia.
Qed.

Section history.
Context {F : Type} `{!WatchdogRingFile F, !RingFileLaws F} (l : WatchdogRingLayout).
Context (Hl : layout_ok l).
Implicit Types f : F.

(** The file has the ring's closed extent and holds bytes. *)
Definition ring_file (f : F) : Prop :=
  Z.of_nat (length (contents f)) = byte_length l ∧ Forall byte (contents f).

Lemma slice_app_split (c : list Z) o n m : slice c o n ++ slice c (o + n) m = slice c o (n + m).
Proof. unfold slice. rewrite <- drop_drop. apply take_take_drop. Qed.

Lemma read_loop_ok fuel off len f :
  (len ≤ fuel)%nat → 0 ≤ off → (Z.to_nat off + len ≤ length (contents f))%nat →
  ∃ f', read_loop fuel off len f = (Ok (slice (contents f) (Z.to_nat off) len), f') ∧
        contents f' = contents f.
Proof.
  revert off len f. induction fuel as [|fuel IH]; intros off len f Hfuel Hoff Hle.
  { destruct len; [|lia]. by exists f. }
  destruct len as [|len]; [by exists f|]. cbn [read_loop]. unfold se_bind.
  destruct (read_at_law off (S len) f Hoff) as (n & f1 & -> & Hc & Hn & Hpos).
  specialize (Hpos ltac:(lia) ltac:(lia)).
  assert (length (slice (contents f) (Z.to_nat off) n) = n) as Hlen
    by (unfold slice; rewrite length_take, length_drop; lia).
  rewrite Hlen. destruct (Nat.eqb_spec n 0); [lia|].
  destruct (IH (off + Z.of_nat n) (S len - n)%nat f1) as (f2 & -> & Hc2); [lia|lia|rewrite Hc; lia|].
  exists f2. rewrite Hc2, Hc. split; [|done]. unfold se_ret. do 2 f_equal.
  replace (Z.to_nat (off + Z.of_nat n)) with (Z.to_nat off + n)%nat by lia.
  rewrite slice_app_split. f_equal. lia.
Qed.

Lemma put_put_adjacent (c : list Z) o a b :
  (o + length a + length b ≤ length c)%nat →
  put (put c o a) (o + length a) b = put c o (a ++ b).
Proof.
  intros Hle. unfold put. rewrite length_app.
  rewrite (app_assoc (take o c) a). rewrite take_app_length' by (rewrite length_app, length_take; lia).
  rewrite drop_app_ge by (rewrite length_app, length_take; lia).
  rewrite length_app, length_take, drop_drop, <- !app_assoc.
  do 3 f_equal. f_equal. lia.
Qed.

Lemma put_length (c : list Z) o b : (o + length b ≤ length c)%nat → length (put c o b) = length c.
Proof. intros. unfold put. rewrite !length_app, length_take, length_drop. lia. Qed.

Lemma write_loop_ok fuel off input f :
  (length input ≤ fuel)%nat → 0 ≤ off → (Z.to_nat off + length input ≤ length (contents f))%nat →
  ∃ f', write_loop fuel off input f = (Ok (), f') ∧
        contents f' = put (contents f) (Z.to_nat off) input.
Proof.
  revert off input f. induction fuel as [|fuel IH]; intros off input f Hfuel Hoff Hle.
  { destruct input; simpl in *; [|lia]. exists f. split; [done|]. unfold put. simpl.
    by rewrite Nat.add_0_r, take_drop. }
  destruct input as [|b input]; [exists f; split; [done|]; unfold put; simpl; by rewrite Nat.add_0_r, take_drop|].
  cbn [write_loop]. unfold se_bind. set (bs := b :: input) in *.
  destruct (write_at_law off bs f Hoff Hle) as (n & f1 & -> & Hn & Hc); [done|].
  destruct (Nat.eqb_spec n 0); [lia|].
  assert (length (take n bs) = n) as Ht by (rewrite length_take; lia).
  destruct (IH (off + Z.of_nat n) (drop n bs) f1) as (f2 & -> & Hc2).
  - rewrite length_drop. lia.
  - lia.
  - rewrite Hc, put_length, length_drop by lia. lia.
  - exists f2. split; [done|]. rewrite Hc2, Hc.
    replace (Z.to_nat (off + Z.of_nat n)) with (Z.to_nat off + length (take n bs))%nat by lia.
    rewrite put_put_adjacent by (rewrite length_drop; lia). by rewrite take_drop.
Qed.

Lemma slot_range bucket : 0 ≤ bucket mod capacity l < capacity l.
Proof. apply Z.mod_pos_bound. apply Hl. Qed.

Lemma bucket_offset_ok bucket :
  bucket_offset l bucket = Ok (bucket mod capacity l * RECORD_BYTES).
Proof.
  destruct Hl as (_ & Hc & Hmax). pose proof (slot_range bucket) as Hs.
  unfold bucket_offset, checked_mul_u64. unfold RECORD_BYTES, WATCHDOG_RECORD_BYTES in *.
  destruct (Z.leb_spec (bucket mod capacity l * Z.of_nat 284) u64_max); [done|]. ulia.
Qed.

(** A slot's bytes lie inside the file. *)
Lemma slot_in_file f slot :
  ring_file f → 0 ≤ slot < capacity l →
  0 ≤ slot * RECORD_BYTES ∧
  (Z.to_nat (slot * RECORD_BYTES) + WATCHDOG_RECORD_BYTES ≤ length (contents f))%nat.
Proof.
  intros [Hlen _] Hs. unfold byte_length, RECORD_BYTES, WATCHDOG_RECORD_BYTES in *. nia.
Qed.

Lemma read_bucket_ok f bucket :
  ring_file f →
  ∃ f', read_bucket l bucket f = (Ok (bucket_sample l (contents f) bucket), f') ∧
        contents f' = contents f.
Proof.
  intros Hf. destruct (slot_in_file f _ Hf (slot_range bucket)) as [H0 Hle].
  unfold read_bucket, se_lift, se_bind. rewrite bucket_offset_ok. unfold read_exact.
  destruct (read_loop_ok WATCHDOG_RECORD_BYTES (bucket mod capacity l * RECORD_BYTES)
    WATCHDOG_RECORD_BYTES f) as (f1 & -> & Hc); [done|done|done|].
  exists f1. split; [|done]. unfold bucket_sample. fold (slot_bytes (contents f) (bucket mod capacity l)).
  by destruct (decode_watchdog_record _).
Qed.

(** Slots are disjoint ranges of the file. *)
Lemma slot_bytes_put_same c slot bs :
  0 ≤ slot → length bs = WATCHDOG_RECORD_BYTES →
  (Z.to_nat (slot * RECORD_BYTES) + WATCHDOG_RECORD_BYTES ≤ length c)%nat →
  slot_bytes (put c (Z.to_nat (slot * RECORD_BYTES)) bs) slot = bs.
Proof.
  intros Hs Hbs Hle. unfold slot_bytes, slice, put.
  rewrite drop_app_length' by (rewrite length_take; lia). by apply take_app_length'.
Qed.

Lemma slot_bytes_put_other c slot slot' bs :
  0 ≤ slot → 0 ≤ slot' → slot ≠ slot' → length bs = WATCHDOG_RECORD_BYTES →
  (Z.to_nat (slot * RECORD_BYTES) + WATCHDOG_RECORD_BYTES ≤ length c)%nat →
  slot_bytes (put c (Z.to_nat (slot * RECORD_BYTES)) bs) slot' = slot_bytes c slot'.
Proof.
  intros Hs Hs' Hne Hbs Hle. unfold slot_bytes, slice, put, RECORD_BYTES in *.
  rewrite Hbs. set (n := WATCHDOG_RECORD_BYTES) in *.
  assert (0 < n)%nat by (unfold n, WATCHDOG_RECORD_BYTES; lia).
  set (o := Z.to_nat (slot * Z.of_nat n)) in *. set (o' := Z.to_nat (slot' * Z.of_nat n)).
  destruct (decide (slot' < slot)) as [Hlt|Hgt].
  - assert (o' + n ≤ o)%nat by (unfold o, o'; nia).
    rewrite drop_app_le by (rewrite length_take; lia).
    rewrite take_app_le by (rewrite length_drop, length_take; lia).
    rewrite skipn_firstn_comm, take_take. f_equal. lia.
  - assert (o + n ≤ o')%nat by (unfold o, o'; nia).
    rewrite app_assoc. rewrite drop_app_ge by (rewrite length_app, length_take; lia).
    rewrite length_app, length_take, drop_drop. do 2 f_equal. lia.
Qed.

Lemma ring_write_ok f s :
  ring_file f → sample_typed s →
  ∃ f', ring_write l s f = (Ok (), f') ∧ ring_file f' ∧
    slot_bytes (contents f') (bucket_of l s mod capacity l)
      = written (record_writes s) ++ le_bytes 4 (watchdog_crc32 (written (record_writes s))) ∧
    ∀ slot, 0 ≤ slot → slot ≠ bucket_of l s mod capacity l →
      slot_bytes (contents f') slot = slot_bytes (contents f) slot.
Proof.
  intros Hf Hs. pose proof Hs as (_ & _ & _ & Hty).
  pose proof (slot_range (bucket_of l s)) as Hslot.
  destruct (slot_in_file f _ Hf Hslot) as [H0 Hle].
  unfold ring_write, se_lift, se_bind. rewrite encode_shape by done. rewrite bucket_offset_ok.
  set (record := written (record_writes s) ++ _).
  assert (length record = WATCHDOG_RECORD_BYTES) as Hrec.
  { unfold record. destruct (record_writes_contiguous s Hty) as [_ Hlen].
    by rewrite length_app, le_bytes_length, Hlen. }
  assert (Forall byte record) as Hbytes.
  { apply Forall_app. split; [by apply written_bytes|apply le_bytes_bytes]. }
  unfold write_exact. destruct (write_loop_ok (length record)
    (bucket_of l s mod capacity l * RECORD_BYTES) record f) as (f' & -> & Hc);
    [done|done|by rewrite Hrec|].
  exists f'. split; [done|]. rewrite Hc. destruct Hf as [Hlen Hb]. split_and!.
  - split; [rewrite Hc, put_length by (rewrite Hrec; lia); done|].
    rewrite Hc. unfold put. rewrite !Forall_app. split_and!;
      [by apply Forall_take|done|by apply Forall_drop].
  - apply slot_bytes_put_same; [lia|done|done].
  - intros slot Hs0 Hne. apply slot_bytes_put_other; [lia|lia|done|done|done].
Qed.
End history.

(** writing a sample succeeds whatever the partial progress of the file;
    its bucket then reads the sample back, an older or newer bucket that shares
    its slot reads as a gap, and every bucket of another slot reads as before. *)
Theorem ring_write_then_read {F} `{!WatchdogRingFile F, !RingFileLaws F}
    (l : WatchdogRingLayout) (f : F) (s : WatchdogSample) :
  layout_ok l → ring_file l f → sample_typed s →
  ∃ f', ring_write l s f = (Ok (), f') ∧ ring_file l f' ∧
    ∀ bucket, (read_bucket l bucket f').1 = Ok
      (if bucket =? bucket_of l s then Some s
       else if bucket mod capacity l =? bucket_of l s mod capacity l then None
       else bucket_sample l (contents f) bucket).
Proof.
  intros Hl Hf Hs. destruct (ring_write_ok l Hl f s Hf Hs) as (f' & Hw & Hf' & Hsame & Hother).
  exists f'. split; [done|]. split; [done|]. intros bucket.
  destruct (read_bucket_ok l Hl f' bucket Hf') as (f2 & -> & _). simpl. f_equal.
  unfold bucket_sample. destruct (Z.eqb_spec (bucket mod capacity l) (bucket_of l s mod capacity l)) as [Heq|Hne].
  - rewrite Heq, Hsame, decode_encoded by done.
    rewrite (Z.eqb_sym (bucket_of l s)). by destruct (bucket =? bucket_of l s).
  - rewrite Hother by (done || apply (slot_range l Hl)).
    destruct (Z.eqb_spec bucket (bucket_of l s)); [congruence|done].
Qed.

(** ** Queries *)

(** The sample a query of the range reports for a bucket. *)
Definition visible (l : WatchdogRingLayout) (c : list Z) (start_ end_ bucket : Z)
  : option WatchdogSample :=
  match bucket_sample l c bucket with
  | Some s => if (start_ <=? unix_milliseconds s) && (unix_milliseconds s <=? end_)
              then Some s else None
  | None => None
  end.

(** The buckets from [first] to [last], inclusive. *)
Definition buckets (first last : Z) : list Z := seqZ first (last - first + 1).

Lemma buckets_one b : buckets b b = [b].
Proof. unfold buckets. replace (b - b + 1) with 1 by lia. done. Qed.
Lemma buckets_cons first last :
  first ≤ last → buckets first last = first :: buckets (first + 1) last.
Proof.
  intros. unfold buckets. rewrite seqZ_cons by lia. do 2 f_equal; lia.
Qed.

Definition is_gap (l : WatchdogRingLayout) (c : list Z) (start_ end_ bucket : Z) : bool :=
  match visible l c start_ end_ bucket with Some _ => false | None => true end.

(** The history [h] reports the buckets from [bucket] on, after [samples] and
    [missing], up to [final] or to the bucket that reached [maximum]. *)
Definition scanned (l : WatchdogRingLayout) (c : list Z) (start_ end_ : Z) (maximum : nat)
    (final bucket : Z) (samples : list WatchdogSample) (missing : list Z)
    (h : WatchdogRingHistory) : Prop :=
  ∃ last, bucket ≤ last ≤ final ∧
    history_samples h = samples ++ omap (visible l c start_ end_) (buckets bucket last) ∧
    missing_buckets h = missing ++ List.filter (is_gap l c start_ end_) (buckets bucket last) ∧
    (length (history_samples h) ≤ maximum)%nat ∧
    (last = final ∨ length (history_samples h) = maximum).

Section scanned.
Context (l : WatchdogRingLayout) (c : list Z) (start_ end_ : Z) (maximum : nat) (final : Z).
Let step_samples bucket (samples : list WatchdogSample) :=
  samples ++ omap (visible l c start_ end_) [bucket].
Let step_missing bucket (missing : list Z) :=
  missing ++ List.filter (is_gap l c start_ end_) [bucket].

Lemma scanned_stop bucket samples missing :
  bucket ≤ final → (length (step_samples bucket samples) ≤ maximum)%nat →
  (bucket = final ∨ length (step_samples bucket samples) = maximum) →
  scanned l c start_ end_ maximum final bucket samples missing
    {| history_samples := step_samples bucket samples;
       missing_buckets := step_missing bucket missing |}.
Proof.
  intros Hb Hle Hd. exists bucket. rewrite buckets_one. split_and!; (done || lia).
Qed.

Lemma scanned_step bucket samples missing h :
  bucket < final →
  scanned l c start_ end_ maximum final (bucket + 1) (step_samples bucket samples)
    (step_missing bucket missing) h →
  scanned l c start_ end_ maximum final bucket samples missing h.
Proof.
  intros Hb (last & Hlast & Hs & Hm & Hle & Hd). exists last. split; [lia|].
  rewrite (buckets_cons bucket last) by lia.
  change (bucket :: ?x) with ([bucket] ++ x). rewrite omap_app, List.filter_app.
  split_and!; [by rewrite Hs; unfold step_samples; rewrite <- app_assoc
    |by rewrite Hm; unfold step_missing; rewrite <- app_assoc|done|done].
Qed.
End scanned.

Section query.
Context {F : Type} `{!WatchdogRingFile F, !RingFileLaws F} (l : WatchdogRingLayout).
Context (Hl : layout_ok l) (start_ end_ : Z).

(** One bucket's contribution, in the form the loop pushes it. *)
Lemma bucket_contribution c bucket :
  match visible l c start_ end_ bucket with
  | Some s => omap (visible l c start_ end_) [bucket] = [s] ∧
              List.filter (is_gap l c start_ end_) [bucket] = []
  | None => omap (visible l c start_ end_) [bucket] = [] ∧
            List.filter (is_gap l c start_ end_) [bucket] = [bucket]
  end.
Proof. unfold is_gap. simpl. by destruct (visible l c start_ end_ bucket). Qed.

Lemma query_loop_ok fuel final bucket maximum samples missing f :
  ring_file l f → fuel = Z.to_nat (final - bucket + 1) → bucket ≤ final ≤ u64_max →
  (length samples < maximum)%nat →
  ∃ h f', query_loop l fuel start_ end_ final bucket maximum samples missing f = (Ok h, f') ∧
    contents f' = contents f ∧
    scanned l (contents f) start_ end_ maximum final bucket samples missing h.
Proof.
  revert bucket samples missing f. induction fuel as [|fuel IH];
    intros bucket samples missing f Hf Hfuel Hb Hmax; [lia|].
  cbn [query_loop]. unfold se_bind.
  destruct (read_bucket_ok l Hl f bucket Hf) as (f1 & -> & Hc1).
  assert (ring_file l f1) as Hf1 by (unfold ring_file in *; by rewrite Hc1).
  pose proof (bucket_contribution (contents f) bucket) as Hone.
  set (samples1 := samples ++ omap (visible l (contents f) start_ end_) [bucket]).
  set (missing1 := missing ++ List.filter (is_gap l (contents f) start_ end_) [bucket]).
  assert ((length samples1 < maximum)%nat →
    ∃ h f', (if (bucket =? final) || (bucket =? u64_max)
      then se_ret {| history_samples := samples1; missing_buckets := missing1 |}
      else query_loop l fuel start_ end_ final (bucket + 1) maximum samples1 missing1) f1
      = (Ok h, f') ∧ contents f' = contents f ∧
    scanned l (contents f) start_ end_ maximum final bucket samples missing h) as Hnext.
  { intros Hlt. destruct ((bucket =? final) || (bucket =? u64_max)) eqn:Hend.
    - apply orb_true_iff in Hend. eexists _, f1. split; [reflexivity|]. split; [done|].
      apply scanned_stop; [lia|fold samples1; lia|left; ulia].
    - apply orb_false_iff in Hend as [Hne _].
      destruct (IH (bucket + 1) samples1 missing1 f1) as (h & f2 & Hq & Hc2 & Hs); [done|lia|lia|done|].
      rewrite Hc1 in Hs, Hc2. exists h, f2. split; [done|]. split; [done|].
      by apply scanned_step; [lia|]. }
  unfold visible in Hone at 1.
  destruct (bucket_sample l (contents f) bucket) as [s|];
    [destruct ((start_ <=? _) && _)|]; destruct Hone as [Ho Hg];
    (subst samples1 missing1; rewrite Ho, Hg, ?app_nil_r in Hnext); [|by apply Hnext..].
  cbv zeta. destruct (Nat.eqb_spec (length (samples ++ [s])) maximum) as [Heq|Hneq].
  - eexists _, f1. split; [reflexivity|]. split; [done|].
    pose proof (scanned_stop l (contents f) start_ end_ maximum final bucket samples missing) as Hstop.
    cbv beta zeta in Hstop. rewrite Ho, Hg, app_nil_r in Hstop. apply Hstop; [lia|lia|by right].
  - apply Hnext. rewrite length_app in *. simpl in *. lia.
Qed.
End query.

(** A query the ring can answer from its retained history. *)
Definition query_valid (l : WatchdogRingLayout) (start_ end_ : Z) (maximum : nat) : Prop :=
  start_ ≤ end_ ∧ (0 < maximum)%nat ∧ Z.of_nat maximum ≤ capacity l ∧
  end_ / interval_milliseconds l - start_ / interval_milliseconds l + 1 ≤ capacity l.

(** a valid query terminates and partitions the buckets it visited, in
    time order, into in-range samples and gaps; it stops early only after
    collecting the requested maximum.  Any other query is refused. *)
Theorem ring_query_partitions_range {F} `{!WatchdogRingFile F, !RingFileLaws F}
    (l : WatchdogRingLayout) (f : F) (start_ end_ : Z) (maximum : nat) :
  layout_ok l → ring_file l f → in_u64 start_ → in_u64 end_ →
  (query_valid l start_ end_ maximum →
     ∃ h f', query l start_ end_ maximum f = (Ok h, f') ∧ contents f' = contents f ∧
       scanned l (contents f) start_ end_ maximum (end_ / interval_milliseconds l)
         (start_ / interval_milliseconds l) [] [] h) ∧
  (¬ query_valid l start_ end_ maximum →
     ∃ reason, query l start_ end_ maximum f = (Err (WatchdogInvalidContract reason), f)).
Proof.
  intros Hl Hf Hs He. pose proof Hl as (Hi & Hc & Hmax). unfold query, query_valid.
  assert (capacity l ≤ u64_max) by (unfold RECORD_BYTES, WATCHDOG_RECORD_BYTES in Hmax; ulia).
  set (first := start_ / interval_milliseconds l). set (final := end_ / interval_milliseconds l).
  assert (final ≤ u64_max).
  { apply Z.div_le_upper_bound; [done|]. unfold in_u64, u64_max in *. nia. }
  assert (0 ≤ first) by (apply Z.div_pos; ulia).
  destruct (Z.ltb_spec end_ start_); [split; [lia|by eexists]|].
  destruct (Nat.eqb_spec maximum 0); [split; [lia|by eexists]|].
  destruct (Z.ltb_spec (capacity l) (Z.of_nat maximum)); [split; [lia|by eexists]|]. simpl.
  assert (first ≤ final) by (apply Z.div_le_mono; lia).
  unfold checked_sub, checked_add_u64. destruct (Z.leb_spec first final); [|lia]. simpl.
  destruct (Z.leb_spec (final - first + 1) u64_max); [|split; [lia|by eexists]].
  destruct (Z.ltb_spec (capacity l) (final - first + 1)); [split; [lia|by eexists]|].
  split; [|intros []; split_and!; lia]. intros _.
  apply (query_loop_ok l Hl start_ end_); [done|done|lia|simpl; lia].
Qed.

(** ** Scans *)

(** The valid records of the slots from [slot] on, in slot order. *)
Definition slot_records (l : WatchdogRingLayout) (c : list Z) (slots : list Z)
  : list WatchdogSample :=
  omap (λ slot, record_in_slot l slot (slot_bytes c slot)) slots.

(** Visit a list until the visitor stops. *)
Fixpoint visit_until {A} (visitor : A → WatchdogSample → A * bool) (acc : A)
    (l : list WatchdogSample) : A * bool :=
  match l with
  | [] => (acc, true)
  | s :: l => let '(acc, continue) := visitor acc s in
              if continue then visit_until visitor acc l else (acc, false)
  end.

Lemma visit_until_app {A} (visitor : A → WatchdogSample → A * bool) acc l1 l2 :
  visit_until visitor acc (l1 ++ l2)
  = let '(acc, continue) := visit_until visitor acc l1 in
    if continue then visit_until visitor acc l2 else (acc, false).
Proof.
  revert acc. induction l1 as [|s l1 IH]; intros acc; simpl; [done|].
  destruct (visitor acc s) as [acc' [|]]; [apply IH|done].
Qed.

Section scan.
Context {F : Type} `{!WatchdogRingFile F, !RingFileLaws F} (l : WatchdogRingLayout).
Context (Hl : layout_ok l) {A : Type} (visitor : A → WatchdogSample → A * bool).

Lemma visit_chunks_ok slot chunks acc :
  visit_chunks l visitor slot chunks acc
  = visit_until visitor acc
      (omap (λ p : Z * list Z, record_in_slot l p.1 p.2)
         (zip (seqZ slot (Z.of_nat (length chunks))) chunks)).
Proof.
  revert slot acc. induction chunks as [|r chunks IH]; intros slot acc; [done|].
  cbn [visit_chunks length]. rewrite seqZ_cons by lia.
  replace (Z.pred (Z.of_nat (S (length chunks)))) with (Z.of_nat (length chunks)) by lia.
  replace (Z.succ slot) with (slot + 1) by lia. cbn [zip zip_with omap list_omap fst snd].
  destruct (record_in_slot l slot r) as [s|]; [|apply IH].
  cbn [visit_until]. destruct (visitor acc s) as [acc' [|]]; [apply IH|done].
Qed.

(** The chunks of a block read at [first] are the slots' bytes. *)
Lemma record_chunks_slots c first n :
  0 ≤ first →
  record_chunks n (slice c (Z.to_nat (first * RECORD_BYTES)) (n * WATCHDOG_RECORD_BYTES))
  = slot_bytes c <$> seqZ first (Z.of_nat n).
Proof.
  revert first. induction n as [|n IH]; intros first Hf; [done|].
  rewrite seqZ_cons by lia. replace (Z.pred (Z.of_nat (S n))) with (Z.of_nat n) by lia.
  cbn [record_chunks fmap list_fmap]. f_equal.
  - unfold slot_bytes, slice. rewrite take_take. by replace (WATCHDOG_RECORD_BYTES `min` (S n * WATCHDOG_RECORD_BYTES))%nat with WATCHDOG_RECORD_BYTES by lia.
  - rewrite <- IH by lia. f_equal. unfold slice. rewrite skipn_firstn_comm, drop_drop.
    replace (Z.to_nat (first * RECORD_BYTES) + WATCHDOG_RECORD_BYTES)%nat
      with (Z.to_nat (Z.succ first * RECORD_BYTES))
      by (unfold RECORD_BYTES, WATCHDOG_RECORD_BYTES; lia).
    f_equal. lia.
Qed.

Lemma record_chunks_length n block : length (record_chunks n block) = n.
Proof. revert block. induction n; intros; simpl; auto. Qed.

Lemma omap_zip_slots c slots :
  omap (λ p : Z * list Z, record_in_slot l p.1 p.2) (zip slots (slot_bytes c <$> slots))
  = slot_records l c slots.
Proof.
  unfold slot_records. induction slots as [|x slots IH]; [done|]. simpl.
  destruct (record_in_slot l x (slot_bytes c x)); [f_equal|]; exact IH.
Qed.

Lemma scan_blocks_ok fuel first acc f :
  ring_file l f → 0 ≤ first → (Z.to_nat (capacity l - first) ≤ fuel)%nat →
  ∃ f', scan_blocks l fuel visitor first acc f
        = (Ok (visit_until visitor acc
                 (slot_records l (contents f) (seqZ first (capacity l - first)))).1, f') ∧
        contents f' = contents f.
Proof.
  revert first acc f. induction fuel as [|fuel IH]; intros first acc f Hf H0 Hfuel;
    cbn [scan_blocks]; destruct (Z.leb_spec (capacity l) first) as [Hend|Hgo].
  - exists f. rewrite seqZ_nil by lia. done.
  - lia.
  - exists f. rewrite seqZ_nil by lia. done.
  - set (n := Z.to_nat (Z.min (capacity l - first) WATCHDOG_RING_SCAN_RECORDS)).
    assert (0 < Z.of_nat n ≤ capacity l - first) as Hn by (unfold n, WATCHDOG_RING_SCAN_RECORDS; lia).
    unfold se_bind, read_exact.
    destruct (read_loop_ok (n * WATCHDOG_RECORD_BYTES) (first * RECORD_BYTES)
      (n * WATCHDOG_RECORD_BYTES) f) as (f1 & -> & Hc); [done| |..].
    { unfold RECORD_BYTES. lia. }
    { destruct Hf as [Hlen _]. unfold byte_length, RECORD_BYTES, WATCHDOG_RECORD_BYTES in *. nia. }
    rewrite record_chunks_slots by done. rewrite visit_chunks_ok, length_fmap, length_seqZ, Nat2Z.id, omap_zip_slots.
    assert (seqZ first (capacity l - first)
      = seqZ first (Z.of_nat n) ++ seqZ (first + Z.of_nat n) (capacity l - (first + Z.of_nat n))) as ->.
    { rewrite <- seqZ_app by lia. f_equal. lia. }
    unfold slot_records at 2. rewrite omap_app. fold (slot_records l (contents f) (seqZ first (Z.of_nat n))).
    rewrite visit_until_app.
    destruct (visit_until visitor acc (slot_records l (contents f) (seqZ first (Z.of_nat n)))) as [acc1 [|]];
      [|by exists f1].
    assert (ring_file l f1) as Hf1 by (unfold ring_file in *; by rewrite Hc).
    destruct (decide (Z.of_nat n = WATCHDOG_RING_SCAN_RECORDS)) as [Hfull|Hlast].
    + rewrite Hfull in *.
      destruct (IH (first + WATCHDOG_RING_SCAN_RECORDS) acc1 f1) as (f2 & -> & Hc2);
        [done|unfold WATCHDOG_RING_SCAN_RECORDS in *; lia|lia|].
      exists f2. rewrite Hc2, Hc. done.
    + assert (Z.of_nat n = capacity l - first) as Hrest by (unfold n, WATCHDOG_RING_SCAN_RECORDS in *; lia).
      destruct (IH (first + WATCHDOG_RING_SCAN_RECORDS) acc1 f1) as (f2 & -> & Hc2);
        [done|unfold WATCHDOG_RING_SCAN_RECORDS in *; lia|lia|].
      exists f2. rewrite Hc2, Hc. split; [|done]. do 4 f_equal.
      rewrite !seqZ_nil; [done|lia|unfold WATCHDOG_RING_SCAN_RECORDS in *; lia].
Qed.
End scan.

(** The sample is retained: reading its own bucket returns it. *)
Definition retained (l : WatchdogRingLayout) (c : list Z) (s : WatchdogSample) : Prop :=
  bucket_sample l c (bucket_of l s) = Some s.

Lemma slot_records_retained l c s :
  layout_ok l → s ∈ slot_records l c (seqZ 0 (capacity l)) ↔ retained l c s.
Proof.
  intros Hl. unfold slot_records, retained, bucket_sample, record_in_slot. rewrite list_elem_of_omap. split.
  - intros (slot & Hslot & Hs). destruct (decode_watchdog_record (slot_bytes c slot)) as [s'|] eqn:Hd; [|done].
    destruct (Z.eqb_spec (bucket_of l s' mod capacity l) slot) as [Heq|]; [|done].
    injection Hs as ->. by rewrite Heq, Hd, Z.eqb_refl.
  - intros Hs. exists (bucket_of l s mod capacity l). split.
    + apply elem_of_seqZ. pose proof (slot_range l Hl (bucket_of l s)). lia.
    + destruct (decode_watchdog_record _) as [s'|]; [|done].
      destruct (Z.eqb_spec (bucket_of l s') (bucket_of l s)) as [Heq|]; [|done].
      by rewrite Heq, Z.eqb_refl.
Qed.

Lemma visit_latest acc l :
  match (visit_until keep_latest acc l).1 with
  | None => acc = None ∧ l = []
  | Some s => (s ∈ l ∨ acc = Some s) ∧
              ∀ s', s' ∈ l ∨ acc = Some s' → sequence s' ≤ sequence s
  end.
Proof.
  revert acc. induction l as [|s l IH]; intros acc; simpl.
  { destruct acc; [|done]. split; [auto|]. intros s' [?|[= <-]]; [set_solver|lia]. }
  set (acc' := match acc with Some current => _ | None => _ end). specialize (IH acc').
  assert (∃ s0, acc' = Some s0 ∧ (s0 = s ∨ acc = Some s0) ∧ sequence s ≤ sequence s0 ∧
    ∀ s1, acc = Some s1 → sequence s1 ≤ sequence s0) as (s0 & Hacc & Hfrom & Hs & Hold).
  { unfold acc'. destruct acc as [s1|]; [|exists s; naive_solver lia].
    destruct (Z.ltb_spec (sequence s1) (sequence s)); [exists s|exists s1]; naive_solver lia. }
  destruct (visit_until keep_latest acc' l).1 as [r|]; [|naive_solver].
  destruct IH as [Hr Hmax]. pose proof (Hmax s0 (or_intror Hacc)). split.
  - destruct Hr as [?|Hr]; [set_solver|]. rewrite Hacc in Hr. injection Hr as <-.
    destruct Hfrom as [->|?]; [left; set_solver|by right].
  - intros s' [[->|Hin]%elem_of_cons|Hs']; [lia|apply Hmax; by left|].
    specialize (Hold s' Hs'). lia.
Qed.

(** [latest] terminates and returns a retained sample with the greatest
    sequence, or nothing exactly when no slot holds a valid record; slots that are
    corrupt or out of place never matter. *)
Theorem ring_latest_is_greatest {F} `{!WatchdogRingFile F, !RingFileLaws F}
    (l : WatchdogRingLayout) (f : F) :
  layout_ok l → ring_file l f →
  ∃ r f', WatchdogHistory.latest l f = (Ok r, f') ∧ contents f' = contents f ∧
    match r with
    | None => ∀ s, ¬ retained l (contents f) s
    | Some s => retained l (contents f) s ∧
                ∀ s', retained l (contents f) s' → sequence s' ≤ sequence s
    end.
Proof.
  intros Hl Hf. unfold WatchdogHistory.latest, scan_valid_records.
  destruct (scan_blocks_ok l keep_latest (Z.to_nat (capacity l)) 0 None f Hf)
    as (f' & -> & Hc); [lia|lia|]. rewrite Z.sub_0_r.
  eexists _, f'. split; [reflexivity|]. split; [done|].
  pose proof (visit_latest None (slot_records l (contents f) (seqZ 0 (capacity l)))) as Hv.
  destruct (visit_until _ _ _).1 as [r|].
  - destruct Hv as [[Hr|?] Hmax]; [|done]. split; [by apply slot_records_retained|].
    intros s' Hs'. apply Hmax. left. by apply slot_records_retained.
  - destruct Hv as [_ Hnil]. intros s Hs. apply slot_records_retained in Hs; [|done].
    rewrite Hnil in Hs. set_solver.
Qed.

Lemma visit_sequence seq acc l :
  match (visit_until (keep_sequence seq) acc l).1 with
  | Some s => (s ∈ l ∧ sequence s = seq) ∨ acc = Some s
  | None => acc = None ∧ ∀ s, s ∈ l → sequence s ≠ seq
  end.
Proof.
  revert acc. induction l as [|s l IH]; intros acc; simpl.
  { destruct acc; [by right|]. split; [done|set_solver]. }
  unfold keep_sequence at 1. destruct (Z.eqb_spec (sequence s) seq) as [Heq|Hne]; simpl.
  - left. split; [set_solver|done].
  - specialize (IH acc). destruct (visit_until _ _ _).1; [set_solver|].
    destruct IH as [-> IH]. split; [done|]. intros s' [->|?]%elem_of_cons; auto.
Qed.

(** [find_sequence] terminates and finds a retained sample of that sequence
    whenever there is one. *)
Theorem ring_find_sequence_complete {F} `{!WatchdogRingFile F, !RingFileLaws F}
    (l : WatchdogRingLayout) (f : F) (seq : Z) :
  layout_ok l → ring_file l f →
  ∃ r f', find_sequence l seq f = (Ok r, f') ∧
    match r with
    | Some s => retained l (contents f) s ∧ sequence s = seq
    | None => ∀ s, retained l (contents f) s → sequence s ≠ seq
    end.
Proof.
  intros Hl Hf. unfold find_sequence, scan_valid_records.
  destruct (scan_blocks_ok l (keep_sequence seq) (Z.to_nat (capacity l)) 0 None f Hf)
    as (f' & -> & Hc); [lia|lia|]. rewrite Z.sub_0_r. eexists _, f'. split; [reflexivity|].
  pose proof (visit_sequence seq None (slot_records l (contents f) (seqZ 0 (capacity l)))) as Hv.
  destruct (visit_until _ _ _).1 as [r|].
  - destruct Hv as [[Hr Hseq]|?]; [|done]. split; [by apply slot_records_retained|done].
  - intros s Hs. apply Hv. by apply slot_records_retained.
Qed.

(** ** A file that transfers at most 100 bytes per call *)

Module FileExample.
#[global] Instance short_file : WatchdogRingFile (list Z) :=
  {| file_length := λ f, (Ok (Z.of_nat (length f)), f);
     set_length := λ n f, (Ok (), f ++ replicate (Z.to_nat n - length f) 0);
     read_at := λ off len f, (Ok (slice f (Z.to_nat off) (len `min` 100)), f);
     write_at := λ off input f,
       (Ok (length input `min` 100)%nat,
        put f (Z.to_nat off) (take (length input `min` 100) input));
     file_synchronize := λ f, (Ok (), f) |}.

#[global] Instance short_file_laws : RingFileLaws (list Z).
Proof.
  refine {| contents := id |}.
  - intros off len f Hoff. exists (len `min` 100)%nat, f. cbn. split_and!; [done|done|lia|lia].
  - intros off input f Hoff Hle Hne. exists (length input `min` 100)%nat. eexists.
    split; [reflexivity|]. destruct input; [done|]. cbn [length]. split; [lia|done].
Defined.

Definition layout : WatchdogRingLayout := {| interval_milliseconds := 1000; capacity := 2 |}.
Definition empty : list Z := replicate 568 0.
Definition file : list Z := (ring_write layout RecordExample.sample empty).2.

Lemma layout_ok : layout_ok layout.
Proof. by vm_compute. Defined.
Lemma empty_ok : ring_file layout empty.
Proof. split; [reflexivity|by_computation]. Defined.
Lemma file_ok : ring_file layout file.
Proof. split; [vm_compute; reflexivity|by_computation]. Defined.
End FileExample.

Lemma ring_write_then_read_witness :
  ∃ f', ring_write FileExample.layout RecordExample.sample FileExample.empty = (Ok (), f') ∧
    ring_file FileExample.layout f' ∧
    ∀ bucket, (read_bucket FileExample.layout bucket f').1 = Ok
      (if bucket =? bucket_of FileExample.layout RecordExample.sample then Some RecordExample.sample
       else if bucket mod capacity FileExample.layout
               =? bucket_of FileExample.layout RecordExample.sample mod capacity FileExample.layout
       then None
       else bucket_sample FileExample.layout (contents FileExample.empty) bucket).
Proof.
  exact (ring_write_then_read FileExample.layout FileExample.empty RecordExample.sample
    FileExample.layout_ok FileExample.empty_ok RecordExample.sample_is_typed).
Defined.

Lemma ring_query_partitions_range_witness :
  ∃ h f', query FileExample.layout 1700000000000 1700000001000 1 FileExample.file = (Ok h, f') ∧
    contents f' = contents FileExample.file ∧
    scanned FileExample.layout (contents FileExample.file) 1700000000000 1700000001000 1
      1700000001 1700000000 [] [] h.
Proof.
  apply (ring_query_partitions_range FileExample.layout FileExample.file
    1700000000000 1700000001000 1 FileExample.layout_ok FileExample.file_ok).
  - ulia.
  - ulia.
  - unfold query_valid. simpl. split_and!; [lia|lia|lia|by vm_compute].
Defined.

Lemma ring_latest_is_greatest_witness :
  ∃ r f', WatchdogHistory.latest FileExample.layout FileExample.file = (Ok r, f') ∧
    contents f' = contents FileExample.file ∧
    match r with
    | None => ∀ s, ¬ retained FileExample.layout (contents FileExample.file) s
    | Some s => retained FileExample.layout (contents FileExample.file) s ∧
                ∀ s', retained FileExample.layout (contents FileExample.file) s' →
                      sequence s' ≤ sequence s
    end.
Proof.
  exact (ring_latest_is_greatest FileExample.layout FileExample.file
    FileExample.layout_ok FileExample.file_ok).
Defined.

Lemma ring_find_sequence_complete_witness :
  ∃ r f', find_sequence FileExample.layout 7 FileExample.file = (Ok r, f') ∧
    match r with
    | Some s => retained FileExample.layout (contents FileExample.file) s ∧ sequence s = 7
    | None => ∀ s, retained FileExample.layout (contents FileExample.file) s → sequence s ≠ 7
    end.
Proof.
  exact (ring_find_sequence_complete FileExample.layout FileExample.file 7
    FileExample.layout_ok FileExample.file_ok).
Defined.

(** The written sample is found from a file read in short transfers. *)
Example ring_example_finds :
  (find_sequence FileExample.layout 7 FileExample.file).1 = Ok (Some RecordExample.sample).
Proof. vm_compute. reflexivity. Qed.
