(* ===== verification/WatchdogRollup.v ===== *)
(** * Watchdog rollups ([core/watchdog/src/li_watchdog_rollup.rs])

    The streaming accumulator that averages the samples of one time bucket, and
    its equivalence with a batch reference: every averaged field of a completed
    bucket is the rounded mean of the known observations of the bucket, every
    counter is the latest one. *)

From S2P Require Import Prelude Text WatchdogRecord WatchdogCodec.

(** ** Accumulators *)

Record UnsignedAccumulator := { u_total : Z; u_count : Z }.
Definition UnsignedAccumulator_default : UnsignedAccumulator := {| u_total := 0; u_count := 0 |}.

Definition u_add (a : UnsignedAccumulator) (value : Z) : UnsignedAccumulator :=
  {| u_total := wrapping_add_u64 (u_total a) value; u_count := wrapping_add_u32 (u_count a) 1 |}.

Definition u_average (a : UnsignedAccumulator) : Z :=
  if u_count a =? 0 then 0
  else wrapping_add_u64 (u_total a) (u_count a / 2) / u_count a.

Record SignedAccumulator := { s_total : Z; s_count : Z }.
Definition SignedAccumulator_default : SignedAccumulator := {| s_total := 0; s_count := 0 |}.

(** [i64] wrap-around. *)
Definition wrapping_add_i64 (a b : Z) : Z := (a + b + 2 ^ 63) mod 2 ^ 64 - 2 ^ 63.

Definition add_temperature (a : SignedAccumulator) (value : Z) : SignedAccumulator :=
  if value =? WATCHDOG_TEMP_UNKNOWN then a
  else {| s_total := wrapping_add_i64 (s_total a) value;
          s_count := wrapping_add_u32 (s_count a) 1 |}.

(** Rust's [/] truncates towards zero; [i16::try_from] refuses other values. *)
Definition average_temperature (a : SignedAccumulator) : Z :=
  if s_count a =? 0 then WATCHDOG_TEMP_UNKNOWN
  else
    let average := Z.quot (s_total a) (s_count a) in
    if (-32768 <=? average) && (average <=? 32767) then average else WATCHDOG_TEMP_UNKNOWN.

Definition add_percent (a : UnsignedAccumulator) (value : Z) : UnsignedAccumulator :=
  if value =? WATCHDOG_PERCENT_UNKNOWN then a else u_add a value.
Definition add_clock (a : UnsignedAccumulator) (value : Z) : UnsignedAccumulator :=
  if value =? WATCHDOG_CLOCK_UNKNOWN then a else u_add a value.

Definition average_percent (a : UnsignedAccumulator) : Z :=
  if u_count a =? 0 then WATCHDOG_PERCENT_UNKNOWN else Z.min (u_average a) 100.
Definition saturating_u16 (value : Z) : Z := Z.min value u16_max.
Definition saturating_u32 (value : Z) : Z := Z.min value u32_max.
Definition average_clock (a : UnsignedAccumulator) : Z :=
  if u_count a =? 0 then WATCHDOG_CLOCK_UNKNOWN else saturating_u32 (u_average a).

(** ** Rollup state *)

Record WatchdogRollup := {
  ru_interval_milliseconds : Z;
  ru_bucket : Z;
  ru_sample_count : Z;
  ru_latest : option WatchdogSample;
  ru_cpu : UnsignedAccumulator;
  ru_gpu : UnsignedAccumulator;
  ru_memory : UnsignedAccumulator;
  ru_disk : UnsignedAccumulator;
  ru_gpu_memory : UnsignedAccumulator;
  ru_cores : list UnsignedAccumulator;
  ru_engines : list UnsignedAccumulator;
  ru_system_temp : SignedAccumulator;
  ru_gpu_temp : SignedAccumulator;
  ru_nvme_temp : SignedAccumulator;
  ru_power : UnsignedAccumulator;
  ru_load : UnsignedAccumulator;
  ru_memory_used : UnsignedAccumulator;
  ru_disk_used : UnsignedAccumulator;
  ru_network_rx : UnsignedAccumulator;
  ru_network_tx : UnsignedAccumulator;
  ru_disk_read : UnsignedAccumulator;
  ru_disk_write : UnsignedAccumulator;
  ru_cpu_clock : UnsignedAccumulator;
  ru_gpu_clock : UnsignedAccumulator;
  ru_vram_clock : UnsignedAccumulator;
  ru_system_ram_clock : UnsignedAccumulator;
  ru_active_requests : UnsignedAccumulator;
  ru_connected_clients : UnsignedAccumulator;
  ru_queued_requests : UnsignedAccumulator
}.

Definition rollup_empty (interval : Z) : WatchdogRollup :=
  let u := UnsignedAccumulator_default in
  let s := SignedAccumulator_default in
  Build_WatchdogRollup interval 0 0 None u u u u u (replicate WATCHDOG_MAX_CPU_CORES u)
    (replicate WATCHDOG_GPU_ENGINES u) s s s u u u u u u u u u u u u u u u.

Definition rollup_new (interval : Z) : result WatchdogError WatchdogRollup :=
  if interval =? 0
  then Err (WatchdogInvalidContract "Watchdog rollup interval must be positive")
  else Ok (rollup_empty interval).

(** [for (accumulator, value) in accumulators.iter_mut().zip(values).take(n)]. *)
Fixpoint add_percents (n : nat) (accumulators : list UnsignedAccumulator) (values : list Z)
  : list UnsignedAccumulator :=
  match n, accumulators, values with
  | S n, a :: accumulators, v :: values => add_percent a v :: add_percents n accumulators values
  | _, _, _ => accumulators
  end.

Definition accumulate (r : WatchdogRollup) (s : WatchdogSample) : WatchdogRollup :=
  let t := sample_telemetry s in
  {| ru_interval_milliseconds := ru_interval_milliseconds r;
     ru_bucket := ru_bucket r;
     ru_sample_count := wrapping_add_u32 (ru_sample_count r) 1;
     ru_latest := Some s;
     ru_cpu := add_percent (ru_cpu r) (ws_cpu_percent t);
     ru_gpu := add_percent (ru_gpu r) (ws_gpu_percent t);
     ru_memory := add_percent (ru_memory r) (ws_memory_percent t);
     ru_disk := add_percent (ru_disk r) (ws_disk_percent t);
     ru_gpu_memory := add_percent (ru_gpu_memory r) (ws_gpu_memory_percent t);
     ru_cores := add_percents (Z.to_nat (ws_cpu_core_count t)) (ru_cores r) (ws_cpu_core_percent t);
     ru_engines := add_percents (length (ru_engines r)) (ru_engines r) (ws_gpu_engine_percent t);
     ru_system_temp := add_temperature (ru_system_temp r) (ws_system_temp_deci_c t);
     ru_gpu_temp := add_temperature (ru_gpu_temp r) (ws_gpu_temp_deci_c t);
     ru_nvme_temp := add_temperature (ru_nvme_temp r) (ws_nvme_temp_deci_c t);
     ru_power := u_add (ru_power r) (ws_power_deci_w t);
     ru_load := u_add (ru_load r) (ws_load1_centi t);
     ru_memory_used := u_add (ru_memory_used r) (ws_memory_used_mib t);
     ru_disk_used := u_add (ru_disk_used r) (ws_disk_used_mib t);
     ru_network_rx := u_add (ru_network_rx r) (ws_network_rx_kib_s t);
     ru_network_tx := u_add (ru_network_tx r) (ws_network_tx_kib_s t);
     ru_disk_read := u_add (ru_disk_read r) (ws_disk_read_kib_s t);
     ru_disk_write := u_add (ru_disk_write r) (ws_disk_write_kib_s t);
     ru_cpu_clock := add_clock (ru_cpu_clock r) (ws_cpu_clock_mhz t);
     ru_gpu_clock := add_clock (ru_gpu_clock r) (ws_gpu_clock_mhz t);
     ru_vram_clock := add_clock (ru_vram_clock r) (ws_vram_clock_mhz t);
     ru_system_ram_clock := add_clock (ru_system_ram_clock r) (ws_system_ram_clock_mhz t);
     ru_active_requests := u_add (ru_active_requests r) (ws_active_requests t);
     ru_connected_clients := u_add (ru_connected_clients r) (ws_connected_clients t);
     ru_queued_requests := u_add (ru_queued_requests r) (ws_queued_requests t) |}.

(** [for (output, accumulator) in outputs.iter_mut().zip(accumulators).take(n)]. *)
Fixpoint average_percents (n : nat) (outputs : list Z) (accumulators : list UnsignedAccumulator)
  : list Z :=
  match n, outputs, accumulators with
  | S n, _ :: outputs, a :: accumulators =>
    average_percent a :: average_percents n outputs accumulators
  | _, _, _ => outputs
  end.

Definition completed_telemetry (r : WatchdogRollup) (source : WatchdogSampleTelemetry)
  : WatchdogSampleTelemetry :=
  let d := WatchdogSampleTelemetry_default in
  {| ws_cpu_core_count := ws_cpu_core_count source;
     ws_flags := Z.lor (ws_flags source) WATCHDOG_SAMPLE_ROLLUP;
     ws_cpu_percent := average_percent (ru_cpu r);
     ws_gpu_percent := average_percent (ru_gpu r);
     ws_memory_percent := average_percent (ru_memory r);
     ws_disk_percent := average_percent (ru_disk r);
     ws_gpu_memory_percent := average_percent (ru_gpu_memory r);
     ws_workload_type := ws_workload_type source;
     ws_cpu_core_percent :=
       average_percents (Z.to_nat (ws_cpu_core_count source)) (ws_cpu_core_percent d) (ru_cores r);
     ws_gpu_engine_percent :=
       average_percents (length (ws_gpu_engine_percent d)) (ws_gpu_engine_percent d) (ru_engines r);
     ws_system_temp_deci_c := average_temperature (ru_system_temp r);
     ws_gpu_temp_deci_c := average_temperature (ru_gpu_temp r);
     ws_nvme_temp_deci_c := average_temperature (ru_nvme_temp r);
     ws_power_deci_w := saturating_u16 (u_average (ru_power r));
     ws_load1_centi := saturating_u16 (u_average (ru_load r));
     ws_memory_used_mib := saturating_u32 (u_average (ru_memory_used r));
     ws_memory_total_mib := ws_memory_total_mib source;
     ws_disk_used_mib := saturating_u32 (u_average (ru_disk_used r));
     ws_disk_total_mib := ws_disk_total_mib source;
     ws_network_rx_kib_s := saturating_u32 (u_average (ru_network_rx r));
     ws_network_tx_kib_s := saturating_u32 (u_average (ru_network_tx r));
     ws_disk_read_kib_s := saturating_u32 (u_average (ru_disk_read r));
     ws_disk_write_kib_s := saturating_u32 (u_average (ru_disk_write r));
     ws_workload_id := ws_workload_id source;
     ws_cpu_clock_mhz := average_clock (ru_cpu_clock r);
     ws_gpu_clock_mhz := average_clock (ru_gpu_clock r);
     ws_vram_clock_mhz := average_clock (ru_vram_clock r);
     ws_system_ram_clock_mhz := average_clock (ru_system_ram_clock r);
     ws_active_requests := saturating_u32 (u_average (ru_active_requests r));
     ws_queued_requests := saturating_u32 (u_average (ru_queued_requests r));
     ws_connected_clients := saturating_u32 (u_average (ru_connected_clients r));
     ws_requests_received := ws_requests_received source;
     ws_requests_admitted := ws_requests_admitted source;
     ws_requests_completed := ws_requests_completed source;
     ws_requests_failed := ws_requests_failed source;
     ws_requests_cancelled := ws_requests_cancelled source;
     ws_requests_retried := ws_requests_retried source;
     ws_input_tokens := ws_input_tokens source;
     ws_output_tokens := ws_output_tokens source;
     ws_cached_tokens := ws_cached_tokens source;
     ws_queue_milliseconds := ws_queue_milliseconds source;
     ws_ttft_milliseconds := ws_ttft_milliseconds source;
     ws_decode_milliseconds := ws_decode_milliseconds source;
     ws_exact_token_requests := ws_exact_token_requests source;
     ws_prefix_cache_hits := ws_prefix_cache_hits source;
     ws_usage_records_dropped := ws_usage_records_dropped source;
     ws_usage_write_errors := ws_usage_write_errors source |}.

Definition complete (r : WatchdogRollup) : option WatchdogSample :=
  match ru_latest r with
  | None => None
  | Some latest =>
    match from_record (sequence latest)
            (wrapping_mul_u64 (ru_bucket r) (ru_interval_milliseconds r))
            (monotonic_milliseconds latest) (completed_telemetry r (sample_telemetry latest)) with
    | Ok s => Some s
    | Err _ => None
    end
  end.

Definition set_bucket (bucket : Z) (r : WatchdogRollup) : WatchdogRollup :=
  let '(Build_WatchdogRollup i _ n l x1 x2 x3 x4 x5 x6 x7 x8 x9 x10 x11 x12 x13 x14 x15 x16 x17
          x18 x19 x20 x21 x22 x23 x24 x25) := r in
  Build_WatchdogRollup i bucket n l x1 x2 x3 x4 x5 x6 x7 x8 x9 x10 x11 x12 x13 x14 x15 x16 x17
    x18 x19 x20 x21 x22 x23 x24 x25.

Definition push (s : WatchdogSample) (r : WatchdogRollup)
  : option WatchdogSample * WatchdogRollup :=
  let bucket := unix_milliseconds s / ru_interval_milliseconds r in
  if ru_sample_count r =? 0 then (None, accumulate (set_bucket bucket r) s)
  else if bucket =? ru_bucket r then (None, accumulate r s)
  else
    (complete r, accumulate (set_bucket bucket (rollup_empty (ru_interval_milliseconds r))) s).

Definition complete_partial (r : WatchdogRollup) : option WatchdogSample * WatchdogRollup :=
  (complete r, rollup_empty (ru_interval_milliseconds r)).

(** ** Batch reference *)

Definition sumZ (l : list Z) : Z := foldr Z.add 0 l.

(** Mean rounded to nearest, halves up. *)
Definition rounded_mean (l : list Z) : Z :=
  let n := Z.of_nat (length l) in (sumZ l + n / 2) / n.

Definition known (unknown : Z) (l : list Z) : list Z :=
  List.filter (λ v, negb (v =? unknown)) l.

Definition mean_percent (l : list Z) : Z :=
  match known WATCHDOG_PERCENT_UNKNOWN l with
  | [] => WATCHDOG_PERCENT_UNKNOWN
  | k => Z.min (rounded_mean k) 100
  end.
Definition mean_clock (l : list Z) : Z :=
  match known WATCHDOG_CLOCK_UNKNOWN l with
  | [] => WATCHDOG_CLOCK_UNKNOWN
  | k => Z.min (rounded_mean k) u32_max
  end.
Definition mean_temperature (l : list Z) : Z :=
  match known WATCHDOG_TEMP_UNKNOWN l with
  | [] => WATCHDOG_TEMP_UNKNOWN
  | k => Z.quot (sumZ k) (Z.of_nat (length k))
  end.
Definition mean_u16 (l : list Z) : Z := Z.min (rounded_mean l) u16_max.
Definition mean_u32 (l : list Z) : Z := Z.min (rounded_mean l) u32_max.

(** The observations of core [i] in the samples that have such a core. *)
Definition core_values (i : nat) (samples : list WatchdogSample) : list Z :=
  omap (λ s, let t := sample_telemetry s in
             if (i <? Z.to_nat (ws_cpu_core_count t))%nat then ws_cpu_core_percent t !! i else None)
    samples.
Definition engine_values (i : nat) (samples : list WatchdogSample) : list Z :=
  omap (λ s, ws_gpu_engine_percent (sample_telemetry s) !! i) samples.

(** ** Accumulators represent the observations added to them *)

Definition represents (a : UnsignedAccumulator) (l : list Z) : Prop :=
  u_total a = sumZ l ∧ u_count a = Z.of_nat (length l).

Lemma sumZ_app l1 l2 : sumZ (l1 ++ l2) = sumZ l1 + sumZ l2.
Proof. unfold sumZ. induction l1; simpl; lia. Qed.

Lemma sumZ_bounds lo hi l :
  Forall (λ v, lo ≤ v ≤ hi) l →
  lo * Z.of_nat (length l) ≤ sumZ l ≤ hi * Z.of_nat (length l).
Proof.
  induction 1 as [|v l Hv Hl IH]; [simpl; lia|].
  cbn [length sumZ foldr]. unfold sumZ in IH. rewrite Nat2Z.inj_succ. lia.
Qed.

Lemma represents_add a l v :
  represents a l → Forall in_u32 l → in_u32 v → Z.of_nat (length l) < u32_max →
  represents (u_add a v) (l ++ [v]).
Proof.
  intros [Ht Hc] Hl Hv Hn. pose proof (sumZ_bounds 0 u32_max l Hl) as Hs.
  unfold represents, u_add. cbn [u_total u_count]. rewrite sumZ_app, length_app, Ht, Hc.
  unfold wrapping_add_u64, wrapping_add_u32.
  change (2 ^ 64) with 18446744073709551616. change (2 ^ 32) with 4294967296.
  unfold in_u32, u32_max in *. cbn [sumZ foldr length].
  split; rewrite Z.mod_small by nia; lia.
Qed.

Lemma represents_average a l :
  represents a l → Forall in_u32 l → Z.of_nat (length l) ≤ u32_max → l ≠ [] →
  u_average a = rounded_mean l.
Proof.
  intros [Ht Hc] Hl Hn Hne. pose proof (sumZ_bounds 0 u32_max l Hl) as Hs.
  unfold u_average, rounded_mean. rewrite Ht, Hc.
  assert (0 < Z.of_nat (length l)) by (destruct l; [done|simpl; lia]).
  destruct (Z.eqb_spec (Z.of_nat (length l)) 0); [lia|].
  unfold wrapping_add_u64. change (2 ^ 64) with 18446744073709551616.
  assert (0 ≤ Z.of_nat (length l) / 2 ≤ Z.of_nat (length l))
    by (split; [apply Z.div_pos; lia|apply Z.div_le_upper_bound; lia]).
  unfold u32_max in *. rewrite Z.mod_small by nia. done.
Qed.

Lemma represents_count_0 a l : represents a l → (u_count a =? 0) = match l with [] => true | _ => false end.
Proof. intros [_ ->]. by destruct l. Qed.

(** ** Folding one field *)

Lemma length_omap_le {A B} (f : A → option B) l : (length (omap f l) ≤ length l)%nat.
Proof.
  induction l as [|x l IH]; [done|]. change (x :: l) with ([x] ++ l).
  rewrite omap_app, !length_app. simpl. destruct (f x); simpl; lia.
Qed.

Lemma Forall_omap_in {A B} (P : B → Prop) (f : A → option B) l :
  Forall (λ x, ∀ v, f x = Some v → P v) l → Forall P (omap f l).
Proof.
  rewrite !Forall_forall. intros H v (x & Hx & Hv)%list_elem_of_omap. by apply (H x).
Qed.

Section field.
Context (proj : WatchdogRollup → UnsignedAccumulator) (field : WatchdogSample → option Z).

(** The rollup field [proj] accumulates the samples' [field] when it has one. *)
Definition accumulates (r0 : WatchdogRollup) (samples : list WatchdogSample) : Prop :=
  represents (proj (foldl accumulate r0 samples)) (omap field samples).

Lemma accumulates_fold r0 samples :
  proj r0 = UnsignedAccumulator_default →
  (∀ samples s, proj (accumulate (foldl accumulate r0 samples) s)
     = match field s with
       | Some v => u_add (proj (foldl accumulate r0 samples)) v
       | None => proj (foldl accumulate r0 samples)
       end) →
  Forall (λ s, ∀ v, field s = Some v → in_u32 v) samples →
  Z.of_nat (length samples) < u32_max → accumulates r0 samples.
Proof.
  intros H0 Hstep Hty Hn. unfold accumulates.
  induction samples as [|s samples IH] using rev_ind; simpl.
  - by rewrite H0.
  - apply Forall_app in Hty as [Hty Hs]. apply Forall_cons in Hs as [Hs _].
    rewrite length_app in Hn. simpl in Hn. specialize (IH Hty ltac:(lia)).
    rewrite foldl_app, omap_app. simpl. rewrite Hstep.
    destruct (field s) as [v|] eqn:Hv; [|by rewrite app_nil_r].
    pose proof (length_omap_le field samples).
    apply represents_add; [done|by apply Forall_omap_in|by apply Hs|lia].
Qed.
End field.

Lemma omap_known {A} (f : A → option Z) unknown (l : list A) :
  omap (λ s, match f s with Some v => if v =? unknown then None else Some v | None => None end) l
  = known unknown (omap f l).
Proof.
  induction l as [|x l IH]; [done|]. change (x :: l) with ([x] ++ l).
  rewrite !omap_app. unfold known in *. rewrite List.filter_app, <- IH. simpl.
  destruct (f x) as [v|]; simpl; [|done]. by destruct (v =? unknown).
Qed.

Lemma omap_Some {A B} (f : A → B) (l : list A) : omap (λ s, Some (f s)) l = f <$> l.
Proof. induction l as [|x l IH]; [done|]. simpl. by f_equal. Qed.

Lemma known_in_u32 unknown l : Forall in_u32 l → Forall in_u32 (known unknown l).
Proof.
  rewrite !Forall_forall. intros Hl v Hv. apply Hl. unfold known in Hv.
  rewrite list_elem_of_In in *. by apply filter_In in Hv as [? _].
Qed.

Section fields.
Context (r0 : WatchdogRollup) (samples : list WatchdogSample).
Context (Hn : Z.of_nat (length samples) < u32_max).
Let r := foldl accumulate r0 samples.

(** What an accumulator of known values averages to. *)
Lemma average_known proj unknown (f : WatchdogSample → option Z) :
  proj r0 = UnsignedAccumulator_default →
  (∀ l s, let r := foldl accumulate r0 l in
     proj (accumulate r s) = match f s with
       | Some v => if v =? unknown then proj r else u_add (proj r) v
       | None => proj r
       end) →
  Forall (λ s, ∀ v, f s = Some v → in_u32 v) samples →
  match known unknown (omap f samples) with
  | [] => u_count (proj r) = 0
  | _ => u_count (proj r) ≠ 0 ∧
         u_average (proj r) = rounded_mean (known unknown (omap f samples))
  end.
Proof.
  intros H0 Hstep Hty.
  assert (represents (proj r) (known unknown (omap f samples))) as Hrep.
  { rewrite <- omap_known. apply accumulates_fold; [done| | |done].
    - intros l s. rewrite Hstep. destruct (f s) as [v|]; [|done]. by destruct (v =? unknown).
    - eapply Forall_impl; [exact Hty|]. intros s Hs v. simpl.
      destruct (f s) as [w|] eqn:E; [|done]. destruct (w =? unknown); [done|]. intros [= <-]. by apply Hs. }
  assert (Forall in_u32 (known unknown (omap f samples))) as Hk
    by (by apply known_in_u32, Forall_omap_in).
  assert (length (known unknown (omap f samples)) ≤ length samples)%nat as Hlen
    by (rewrite <- omap_known; apply length_omap_le).
  pose proof (represents_count_0 _ _ Hrep) as Hc.
  destruct (known unknown (omap f samples)) as [|v k] eqn:Ek; [by apply Z.eqb_eq|].
  split; [by apply Z.eqb_neq|].
  by apply represents_average; [|..|lia|].
Qed.

Lemma average_all proj (f : WatchdogSample → Z) :
  samples ≠ [] → proj r0 = UnsignedAccumulator_default →
  (∀ r s, proj (accumulate r s) = u_add (proj r) (f s)) →
  Forall (λ s, in_u32 (f s)) samples →
  u_average (proj r) = rounded_mean (f <$> samples).
Proof.
  intros Hne H0 Hstep Hty.
  assert (represents (proj r) (f <$> samples)) as Hrep.
  { rewrite <- omap_Some. apply accumulates_fold; [done|by intros; rewrite Hstep| |done].
    eapply Forall_impl; [exact Hty|]. by intros s Hs v [= <-]. }
  apply represents_average; [done|by apply Forall_fmap|rewrite length_fmap; lia|].
  by destruct samples.
Qed.

Lemma percents_field proj (f : WatchdogSample → option Z) :
  proj r0 = UnsignedAccumulator_default →
  (∀ l s, let r := foldl accumulate r0 l in
     proj (accumulate r s) = match f s with Some v => add_percent (proj r) v | None => proj r end) →
  Forall (λ s, ∀ v, f s = Some v → in_u32 v) samples →
  average_percent (proj r) = mean_percent (omap f samples).
Proof.
  intros H0 Hstep Hty. unfold average_percent, mean_percent.
  pose proof (average_known proj WATCHDOG_PERCENT_UNKNOWN f H0 Hstep Hty) as Hk.
  destruct (known _ _) eqn:E; [by rewrite Hk|]. destruct Hk as [Hc ->].
  by rewrite (proj2 (Z.eqb_neq _ _) Hc).
Qed.

Lemma percent_field proj (f : WatchdogSample → Z) :
  proj r0 = UnsignedAccumulator_default →
  (∀ r s, proj (accumulate r s) = add_percent (proj r) (f s)) →
  Forall (λ s, in_u32 (f s)) samples →
  average_percent (proj r) = mean_percent (f <$> samples).
Proof.
  intros H0 Hstep Hty. rewrite <- omap_Some. apply percents_field; [done|by intros|].
  eapply Forall_impl; [exact Hty|]. by intros s Hs v [= <-].
Qed.

Lemma clock_field proj (f : WatchdogSample → Z) :
  proj r0 = UnsignedAccumulator_default →
  (∀ r s, proj (accumulate r s) = add_clock (proj r) (f s)) →
  Forall (λ s, in_u32 (f s)) samples →
  average_clock (proj r) = mean_clock (f <$> samples).
Proof.
  intros H0 Hstep Hty. rewrite <- omap_Some. unfold average_clock, mean_clock.
  pose proof (average_known proj WATCHDOG_CLOCK_UNKNOWN (λ s, Some (f s)) H0
    (λ l s, Hstep (foldl accumulate r0 l) s)) as Hk.
  specialize (Hk ltac:(eapply Forall_impl; [exact Hty|]; by intros s Hs v [= <-])).
  destruct (known _ _) eqn:E; [by rewrite Hk|]. destruct Hk as [Hc ->].
  by rewrite (proj2 (Z.eqb_neq _ _) Hc).
Qed.

Lemma u32_field proj (f : WatchdogSample → Z) :
  samples ≠ [] → proj r0 = UnsignedAccumulator_default →
  (∀ r s, proj (accumulate r s) = u_add (proj r) (f s)) →
  Forall (λ s, in_u32 (f s)) samples →
  saturating_u32 (u_average (proj r)) = mean_u32 (f <$> samples).
Proof. intros. unfold saturating_u32, mean_u32. by rewrite (average_all proj f). Qed.

Lemma u16_field proj (f : WatchdogSample → Z) :
  samples ≠ [] → proj r0 = UnsignedAccumulator_default →
  (∀ r s, proj (accumulate r s) = u_add (proj r) (f s)) →
  Forall (λ s, in_u32 (f s)) samples →
  saturating_u16 (u_average (proj r)) = mean_u16 (f <$> samples).
Proof. intros. unfold saturating_u16, mean_u16. by rewrite (average_all proj f). Qed.

(** Temperatures: signed, truncated towards zero. *)
Lemma temperature_field (proj : WatchdogRollup → SignedAccumulator) (f : WatchdogSample → Z) :
  proj r0 = SignedAccumulator_default →
  (∀ r s, proj (accumulate r s) = add_temperature (proj r) (f s)) →
  Forall (λ s, in_i16 (f s)) samples →
  average_temperature (proj r) = mean_temperature (f <$> samples).
Proof.
  intros H0 Hstep Hty. unfold mean_temperature.
  set (k := known WATCHDOG_TEMP_UNKNOWN (f <$> samples)).
  assert (s_total (proj r) = sumZ k ∧ s_count (proj r) = Z.of_nat (length k) ∧
          Forall (λ v, -32768 ≤ v ≤ 32767) k ∧ (length k ≤ length samples)%nat)
    as (Ht & Hc & Hk & Hlen).
  { unfold r, k. clear r k. induction samples as [|s l IH] using rev_ind; simpl.
    { rewrite H0. repeat split; auto. }
    apply Forall_app in Hty as [Hty Hs]. apply Forall_cons in Hs as [Hs _].
    rewrite length_app in *. simpl in *. destruct IH as (Ht & Hc & Hk & Hlen); [lia|done|].
    rewrite foldl_app, fmap_app. unfold known in *. rewrite List.filter_app. simpl.
    rewrite Hstep. unfold add_temperature. unfold in_i16 in Hs.
    destruct (f s =? WATCHDOG_TEMP_UNKNOWN); simpl; [rewrite app_nil_r; repeat split; auto; lia|].
    rewrite sumZ_app, !length_app, Forall_app, Ht, Hc. simpl.
    pose proof (sumZ_bounds _ _ _ Hk). unfold wrapping_add_i64, wrapping_add_u32.
    change (2 ^ 63) with 9223372036854775808. change (2 ^ 64) with 18446744073709551616.
    change (2 ^ 32) with 4294967296. unfold u32_max in *.
    rewrite !Z.mod_small by lia. split_and!; [lia|lia|done|repeat constructor; lia|lia]. }
  pose proof (sumZ_bounds _ _ _ Hk). unfold average_temperature. rewrite Ht, Hc.
  destruct k as [|v k']; [done|]. set (k2 := v :: k') in *.
  assert (0 < Z.of_nat (length k2)) by (unfold k2; simpl; lia).
  destruct (Z.eqb_spec (Z.of_nat (length k2)) 0); [lia|].
  assert (-32768 ≤ Z.quot (sumZ k2) (Z.of_nat (length k2)) ≤ 32767) as Hq.
  { split; [apply Z.quot_le_lower_bound|apply Z.quot_le_upper_bound]; lia. }
  destruct (Z.leb_spec (-32768) (Z.quot (sumZ k2) (Z.of_nat (length k2)))); [|lia].
  destruct (Z.leb_spec (Z.quot (sumZ k2) (Z.of_nat (length k2))) 32767); [done|lia].
Qed.
End fields.

(** ** Per-core and per-engine accumulators *)

Lemma add_percents_length n accs vals : length (add_percents n accs vals) = length accs.
Proof.
  revert n vals. induction accs as [|a accs IH]; intros [|n] [|v vals]; simpl; auto.
Qed.

Lemma add_percents_nth n accs vals i d :
  (i < length accs)%nat →
  nth i (add_percents n accs vals) d
  = match (if (i <? n)%nat then vals !! i else None) with
    | Some v => add_percent (nth i accs d) v
    | None => nth i accs d
    end.
Proof.
  revert n vals i. induction accs as [|a accs IH]; intros [|n] [|v vals] [|i] Hi; simpl in *;
    try done; try lia; try (by destruct (_ <? _)%nat).
  rewrite IH by lia. done.
Qed.

Lemma average_percents_lookup n outs accs i :
  (length outs ≤ length accs)%nat →
  average_percents n outs accs !! i
  = if (i <? n)%nat then (λ _, average_percent (nth i accs UnsignedAccumulator_default)) <$> outs !! i
    else outs !! i.
Proof.
  revert n accs i. induction outs as [|o outs IH]; intros [|n] [|a accs] [|i] Hl; simpl in *;
    try done; try lia; try (by destruct (_ <? _)%nat).
  rewrite IH by lia. done.
Qed.

Lemma nth_replicate_default {A} n i (d : A) : nth i (replicate n d) d = d.
Proof. revert i. induction n; intros [|i]; simpl; auto. Qed.

Lemma rollup_lengths r0 samples :
  length (ru_cores (foldl accumulate r0 samples)) = length (ru_cores r0) ∧
  length (ru_engines (foldl accumulate r0 samples)) = length (ru_engines r0).
Proof.
  induction samples as [|s l IH] using rev_ind; [done|]. rewrite foldl_app. simpl.
  by rewrite !add_percents_length.
Qed.

(** ** The reference telemetry of a bucket *)

Definition over (field : WatchdogSampleTelemetry → Z) (samples : list WatchdogSample) : list Z :=
  (λ s, field (sample_telemetry s)) <$> samples.

Definition rollup_reference (samples : list WatchdogSample) (source : WatchdogSampleTelemetry)
  : WatchdogSampleTelemetry :=
  {| ws_cpu_core_count := ws_cpu_core_count source;
     ws_flags := Z.lor (ws_flags source) WATCHDOG_SAMPLE_ROLLUP;
     ws_cpu_percent := mean_percent (over ws_cpu_percent samples);
     ws_gpu_percent := mean_percent (over ws_gpu_percent samples);
     ws_memory_percent := mean_percent (over ws_memory_percent samples);
     ws_disk_percent := mean_percent (over ws_disk_percent samples);
     ws_gpu_memory_percent := mean_percent (over ws_gpu_memory_percent samples);
     ws_workload_type := ws_workload_type source;
     ws_cpu_core_percent :=
       (λ i, if (i <? Z.to_nat (ws_cpu_core_count source))%nat
             then mean_percent (core_values i samples) else WATCHDOG_PERCENT_UNKNOWN)
       <$> seq 0 WATCHDOG_MAX_CPU_CORES;
     ws_gpu_engine_percent :=
       (λ i, mean_percent (engine_values i samples)) <$> seq 0 WATCHDOG_GPU_ENGINES;
     ws_system_temp_deci_c := mean_temperature (over ws_system_temp_deci_c samples);
     ws_gpu_temp_deci_c := mean_temperature (over ws_gpu_temp_deci_c samples);
     ws_nvme_temp_deci_c := mean_temperature (over ws_nvme_temp_deci_c samples);
     ws_power_deci_w := mean_u16 (over ws_power_deci_w samples);
     ws_load1_centi := mean_u16 (over ws_load1_centi samples);
     ws_memory_used_mib := mean_u32 (over ws_memory_used_mib samples);
     ws_memory_total_mib := ws_memory_total_mib source;
     ws_disk_used_mib := mean_u32 (over ws_disk_used_mib samples);
     ws_disk_total_mib := ws_disk_total_mib source;
     ws_network_rx_kib_s := mean_u32 (over ws_network_rx_kib_s samples);
     ws_network_tx_kib_s := mean_u32 (over ws_network_tx_kib_s samples);
     ws_disk_read_kib_s := mean_u32 (over ws_disk_read_kib_s samples);
     ws_disk_write_kib_s := mean_u32 (over ws_disk_write_kib_s samples);
     ws_workload_id := ws_workload_id source;
     ws_cpu_clock_mhz := mean_clock (over ws_cpu_clock_mhz samples);
     ws_gpu_clock_mhz := mean_clock (over ws_gpu_clock_mhz samples);
     ws_vram_clock_mhz := mean_clock (over ws_vram_clock_mhz samples);
     ws_system_ram_clock_mhz := mean_clock (over ws_system_ram_clock_mhz samples);
     ws_active_requests := mean_u32 (over ws_active_requests samples);
     ws_queued_requests := mean_u32 (over ws_queued_requests samples);
     ws_connected_clients := mean_u32 (over ws_connected_clients samples);
     ws_requests_received := ws_requests_received source;
     ws_requests_admitted := ws_requests_admitted source;
     ws_requests_completed := ws_requests_completed source;
     ws_requests_failed := ws_requests_failed source;
     ws_requests_cancelled := ws_requests_cancelled source;
     ws_requests_retried := ws_requests_retried source;
     ws_input_tokens := ws_input_tokens source;
     ws_output_tokens := ws_output_tokens source;
     ws_cached_tokens := ws_cached_tokens source;
     ws_queue_milliseconds := ws_queue_milliseconds source;
     ws_ttft_milliseconds := ws_ttft_milliseconds source;
     ws_decode_milliseconds := ws_decode_milliseconds source;
     ws_exact_token_requests := ws_exact_token_requests source;
     ws_prefix_cache_hits := ws_prefix_cache_hits source;
     ws_usage_records_dropped := ws_usage_records_dropped source;
     ws_usage_write_errors := ws_usage_write_errors source |}.

Section reference.
Context (interval bucket : Z) (samples : list WatchdogSample).
Context (Hne : samples ≠ []) (Hn : Z.of_nat (length samples) < u32_max).
Context (Hty : Forall (λ s, telemetry_typed (sample_telemetry s)) samples).
Let r0 := set_bucket bucket (rollup_empty interval).
Let r := foldl accumulate r0 samples.

Lemma typed_field (P : Z → Prop) (f : WatchdogSampleTelemetry → Z) :
  (∀ t, telemetry_typed t → P (f t)) → Forall (λ s, P (f (sample_telemetry s))) samples.
Proof. intros Hf. eapply Forall_impl; [exact Hty|]. simpl. auto. Qed.

Lemma cores_reference source :
  ws_cpu_core_percent (completed_telemetry r source)
  = ws_cpu_core_percent (rollup_reference samples source).
Proof.
  cbn [completed_telemetry rollup_reference ws_cpu_core_percent].
  destruct (rollup_lengths r0 samples) as [Hlen _]. change (length (ru_cores r0)) with 32%nat in Hlen.
  apply list_eq. intros i. rewrite average_percents_lookup by (fold r in Hlen; rewrite Hlen; by apply Nat.leb_le).
  rewrite list_lookup_fmap. destruct (decide (i < 32)%nat) as [Hi|Hi].
  - rewrite lookup_seq_lt by done. change (ws_cpu_core_percent WatchdogSampleTelemetry_default)
      with (replicate 32 WATCHDOG_PERCENT_UNKNOWN).
    rewrite lookup_replicate_2 by done. cbn [fmap option_fmap option_map]. rewrite Nat.add_0_l.
    destruct (i <? _)%nat; [|done]. f_equal. unfold core_values.
    apply (percents_field r0 samples Hn (λ r, nth i (ru_cores r) UnsignedAccumulator_default)
      (λ s, if (i <? Z.to_nat (ws_cpu_core_count (sample_telemetry s)))%nat
            then ws_cpu_core_percent (sample_telemetry s) !! i else None)).
    + exact (nth_replicate_default 32 i UnsignedAccumulator_default).
    + intros l s. cbv zeta. cbn [accumulate ru_cores]. apply add_percents_nth.
      destruct (rollup_lengths r0 l) as [-> _]. exact Hi.
    + eapply Forall_impl; [exact Hty|]. intros s Hs v. simpl. destruct (_ <? _)%nat; [|done].
      intros Hv. destruct (ty_core_percent _ Hs) as [_ Hb]. rewrite Forall_lookup in Hb.
      specialize (Hb i v Hv). unfold byte in Hb. ulia.
  - rewrite !lookup_ge_None_2; [by destruct (_ <? _)%nat|rewrite length_seq; unfold WATCHDOG_MAX_CPU_CORES; lia|].
    cbn [ws_cpu_core_percent WatchdogSampleTelemetry_default]. rewrite length_replicate.
    unfold WATCHDOG_MAX_CPU_CORES. lia.
Qed.

Lemma engines_reference source :
  ws_gpu_engine_percent (completed_telemetry r source)
  = ws_gpu_engine_percent (rollup_reference samples source).
Proof.
  cbn [completed_telemetry rollup_reference ws_gpu_engine_percent].
  destruct (rollup_lengths r0 samples) as [_ Hlen]. change (length (ru_engines r0)) with 6%nat in Hlen.
  apply list_eq. intros i. rewrite average_percents_lookup by (fold r in Hlen; rewrite Hlen; by apply Nat.leb_le).
  rewrite list_lookup_fmap. change (length (ws_gpu_engine_percent WatchdogSampleTelemetry_default)) with 6%nat.
  change (ws_gpu_engine_percent WatchdogSampleTelemetry_default)
    with (replicate 6 WATCHDOG_PERCENT_UNKNOWN).
  destruct (Nat.ltb_spec i 6) as [Hi|Hi].
  - rewrite lookup_seq_lt by done. rewrite lookup_replicate_2 by done.
    cbn [fmap option_fmap option_map]. rewrite Nat.add_0_l. f_equal. unfold engine_values.
    apply (percents_field r0 samples Hn (λ r, nth i (ru_engines r) UnsignedAccumulator_default)
      (λ s, ws_gpu_engine_percent (sample_telemetry s) !! i)).
    + exact (nth_replicate_default 6 i UnsignedAccumulator_default).
    + intros l s. cbv zeta. cbn [accumulate ru_engines].
      destruct (rollup_lengths r0 l) as [_ Hl]. change (length (ru_engines r0)) with 6%nat in Hl.
      rewrite add_percents_nth by lia. rewrite Hl. by destruct (Nat.ltb_spec i 6); [|lia].
    + eapply Forall_impl; [exact Hty|]. intros s Hs v Hv. simpl in *.
      destruct (ty_engine_percent _ Hs) as [_ Hb]. rewrite Forall_lookup in Hb.
      specialize (Hb i v Hv). unfold byte in Hb. ulia.
  - rewrite !lookup_ge_None_2; [done|rewrite length_seq; unfold WATCHDOG_GPU_ENGINES; lia|].
    rewrite length_replicate. lia.
Qed.

Ltac in_field H t := destruct H as [Hc H8 _ _ Hi H16 H32 _]; rewrite !Forall_cons in *;
  unfold byte, in_i16, in_u16, in_u32 in *; destruct_and?; unfold u32_max, u16_max in *; simpl in *; lia.

(** Every averaged field of the streamed bucket is the batch mean. *)
Lemma completed_is_reference source :
  completed_telemetry r source = rollup_reference samples source.
Proof.
  pose proof (cores_reference source) as Hcores. pose proof (engines_reference source) as Hengines.
  unfold completed_telemetry, rollup_reference in *.
  cbn [ws_cpu_core_percent ws_gpu_engine_percent] in Hcores, Hengines.
  f_equal; try exact Hcores; try exact Hengines;
  first
  [ apply (percent_field r0 samples Hn); [done|done|]
  | apply (clock_field r0 samples Hn); [done|done|]
  | apply (temperature_field r0 samples Hn); [done|done|]
  | apply (u16_field r0 samples Hn); [done|done|done|]
  | apply (u32_field r0 samples Hn); [done|done|done|]
  | idtac ].
  all: eapply Forall_impl; [exact Hty|]; simpl; intros s Hs; in_field Hs t.
Qed.
End reference.

(** ** Pushing a bucket of samples *)

(** Push a list of samples; the completed buckets come out in order. *)
Fixpoint push_all (samples : list WatchdogSample) (r : WatchdogRollup)
  : list (option WatchdogSample) * WatchdogRollup :=
  match samples with
  | [] => ([], r)
  | s :: samples =>
    let '(out, r) := push s r in
    let '(outs, r) := push_all samples r in (out :: outs, r)
  end.

Lemma accumulate_frame r0 samples :
  ru_interval_milliseconds (foldl accumulate r0 samples) = ru_interval_milliseconds r0 ∧
  ru_bucket (foldl accumulate r0 samples) = ru_bucket r0 ∧
  ru_latest (foldl accumulate r0 samples)
    = match last samples with Some s => Some s | None => ru_latest r0 end.
Proof.
  induction samples as [|s l IH] using rev_ind; [done|]. rewrite foldl_app, last_snoc. simpl.
  destruct IH as (-> & -> & _). done.
Qed.

Lemma accumulate_count r0 samples :
  ru_sample_count r0 = 0 → Z.of_nat (length samples) < u32_max →
  ru_sample_count (foldl accumulate r0 samples) = Z.of_nat (length samples).
Proof.
  intros H0. induction samples as [|s l IH] using rev_ind; intros Hn; [done|].
  rewrite length_app in *. simpl in Hn. rewrite foldl_app. simpl. rewrite IH by lia.
  unfold wrapping_add_u32. change (2 ^ 32) with 4294967296. rewrite Z.mod_small; ulia.
Qed.

(** Samples of the current bucket accumulate without output. *)
Lemma push_all_same_bucket interval bucket pre samples :
  Forall (λ s, unix_milliseconds s / interval = bucket) samples →
  pre ≠ [] → Z.of_nat (length (pre ++ samples)) < u32_max →
  let r0 := set_bucket bucket (rollup_empty interval) in
  push_all samples (foldl accumulate r0 pre)
  = (replicate (length samples) None, foldl accumulate r0 (pre ++ samples)).
Proof.
  intros Hb. revert pre. induction Hb as [|s samples Hs Hb IH]; intros pre Hne Hn r0.
  { by rewrite app_nil_r. }
  cbn [push_all]. unfold push.
  destruct (accumulate_frame r0 pre) as (Hi & Hbk & _).
  assert (Z.of_nat (length pre) < u32_max) by (rewrite length_app in Hn; lia).
  rewrite Hi, Hbk, accumulate_count by done.
  assert (0 < Z.of_nat (length pre)) by (destruct pre; [done|simpl; lia]).
  destruct (Z.eqb_spec (Z.of_nat (length pre)) 0); [lia|].
  change (ru_interval_milliseconds r0) with interval. change (ru_bucket r0) with bucket.
  rewrite Hs, Z.eqb_refl.
  specialize (IH (pre ++ [s]) ltac:(by destruct pre)).
  rewrite <- app_assoc in IH. specialize (IH Hn). cbv zeta in IH. fold r0 in IH.
  rewrite foldl_app in IH. cbn [foldl app] in IH. rewrite IH. done.
Qed.

Lemma push_all_bucket interval bucket samples :
  Forall (λ s, unix_milliseconds s / interval = bucket) samples →
  samples ≠ [] → Z.of_nat (length samples) < u32_max →
  push_all samples (rollup_empty interval)
  = (replicate (length samples) None,
     foldl accumulate (set_bucket bucket (rollup_empty interval)) samples).
Proof.
  intros Hb Hne Hn. destruct samples as [|s samples]; [done|].
  apply Forall_cons in Hb as [Hs Hb]. cbn [push_all].
  change (push s (rollup_empty interval))
    with (@None WatchdogSample,
          accumulate (set_bucket (unix_milliseconds s / interval) (rollup_empty interval)) s).
  rewrite Hs. pose proof (push_all_same_bucket interval bucket [s] samples Hb ltac:(done) Hn) as H.
  cbv zeta in H. cbn [foldl app] in H. rewrite H. done.
Qed.

Lemma complete_bucket interval bucket samples latest :
  0 < interval → Forall (λ s, unix_milliseconds s / interval = bucket) samples →
  Forall sample_typed samples → Z.of_nat (length samples) < u32_max → last samples = Some latest →
  complete (foldl accumulate (set_bucket bucket (rollup_empty interval)) samples)
  = Some {| sequence := sequence latest; unix_milliseconds := bucket * interval;
            monotonic_milliseconds := monotonic_milliseconds latest;
            sample_telemetry := rollup_reference samples (sample_telemetry latest) |}.
Proof.
  intros Hi Hb Hty Hn Hlast. set (r0 := set_bucket bucket (rollup_empty interval)).
  destruct (accumulate_frame r0 samples) as (Hint & Hbk & Hlat). rewrite Hlast in Hlat.
  unfold complete. rewrite Hlat, Hint, Hbk.
  assert (latest ∈ samples) as Hin by (apply last_Some in Hlast as [l ->]; set_solver).
  rewrite Forall_forall in Hb, Hty. specialize (Hb latest Hin). pose proof (Hty latest Hin) as (_ & Hu & _ & Ht).
  assert (wrapping_mul_u64 (ru_bucket r0) (ru_interval_milliseconds r0) = bucket * interval) as ->.
  { change (ru_bucket r0) with bucket. change (ru_interval_milliseconds r0) with interval.
    unfold wrapping_mul_u64. change (2 ^ 64) with 18446744073709551616. apply Z.mod_small.
    pose proof (Z.mul_div_le (unix_milliseconds latest) interval Hi).
    pose proof (Z.div_pos (unix_milliseconds latest) interval). unfold in_u64, u64_max in Hu. nia. }
  unfold r0. rewrite completed_is_reference; [|by intros ->|done|].
  - unfold from_record. cbn [rollup_reference ws_cpu_core_count]. pose proof (ty_cores _ Ht).
    unfold WATCHDOG_MAX_CPU_CORES. destruct (Z.ltb_spec (Z.of_nat 32) (ws_cpu_core_count (sample_telemetry latest))); [lia|done].
  - rewrite Forall_forall. intros s Hs. by apply Hty.
Qed.

(** streaming the samples of one time bucket emits nothing until a sample
    of another bucket arrives; then exactly one record comes out, stamped with the
    start of the bucket, whose averaged fields are the rounded means of the known
    observations and whose counters are those of the latest sample, and the new
    sample starts the next bucket. *)
Theorem rollup_emits_batch_means interval bucket samples latest next :
  0 < interval → Forall (λ s, unix_milliseconds s / interval = bucket) samples →
  Forall sample_typed samples → Z.of_nat (length samples) < u32_max → last samples = Some latest →
  unix_milliseconds next / interval ≠ bucket →
  let '(outs, r) := push_all samples (rollup_empty interval) in
  let mean := {| sequence := sequence latest; unix_milliseconds := bucket * interval;
                 monotonic_milliseconds := monotonic_milliseconds latest;
                 sample_telemetry := rollup_reference samples (sample_telemetry latest) |} in
  Forall (λ out, out = None) outs ∧
  push next r = (Some mean, (push next (rollup_empty interval)).2) ∧
  (complete_partial r).1 = Some mean.
Proof.
  intros Hi Hb Hty Hn Hlast Hnext.
  assert (samples ≠ []) as Hne by (by intros ->).
  rewrite (push_all_bucket interval bucket) by done. cbv zeta.
  set (r0 := set_bucket bucket (rollup_empty interval)).
  pose proof (complete_bucket interval bucket samples latest Hi Hb Hty Hn Hlast) as Hc. fold r0 in Hc.
  destruct (accumulate_frame r0 samples) as (Hint & Hbk & _). split; [|split].
  - apply Forall_replicate. done.
  - unfold push. rewrite Hint, Hbk, accumulate_count by done.
    assert (0 < Z.of_nat (length samples)) by (destruct samples; [done|simpl; lia]).
    destruct (Z.eqb_spec (Z.of_nat (length samples)) 0); [lia|].
    change (ru_interval_milliseconds r0) with interval. change (ru_bucket r0) with bucket.
    destruct (Z.eqb_spec (unix_milliseconds next / interval) bucket); [done|]. by rewrite Hc.
  - unfold complete_partial. by rewrite Hc.
Qed.

Module RollupExample.
Definition at_ (ms : Z) : WatchdogSample :=
  {| sequence := 7; unix_milliseconds := ms; monotonic_milliseconds := 5;
     sample_telemetry := WatchdogSampleTelemetry_default |}.
End RollupExample.

Lemma rollup_emits_batch_means_witness :
  let samples := [RollupExample.at_ 10100; RollupExample.at_ 10900] in
  let '(outs, r) := push_all samples (rollup_empty 1000) in
  let mean := {| sequence := 7; unix_milliseconds := 10 * 1000; monotonic_milliseconds := 5;
                 sample_telemetry := rollup_reference samples WatchdogSampleTelemetry_default |} in
  Forall (λ out, out = None) outs ∧
  push (RollupExample.at_ 11000) r = (Some mean, (push (RollupExample.at_ 11000) (rollup_empty 1000)).2) ∧
  (complete_partial r).1 = Some mean.
Proof.
  apply (rollup_emits_batch_means 1000 10 [RollupExample.at_ 10100; RollupExample.at_ 10900]
    (RollupExample.at_ 10900) (RollupExample.at_ 11000)).
  - lia.
  - repeat constructor.
  - repeat constructor; by_computation.
  - by vm_compute.
  - reflexivity.
  - by vm_compute.
Defined.
