(* ===== verification/Placement.v ===== *)
(** * Placement entities

    [core/interface/src/li_placement.rs] and the endpoints of
    [core/interface/src/li_placement_group.rs]: assignments, placements and
    endpoints with the checks of their constructors, and the error type of
    [core/placement/src/li_placement_contract.rs]; then groups and leases. *)

From S2P Require Import Prelude Values Text.

From Stdlib Require Ascii.

Import (notations) Stdlib.Strings.Ascii.

(** ** Placements *)

Definition MAX_DEVICES_PER_PLACEMENT : nat := 64.

Inductive EndpointOwnership := Owner | Participant.

Record PlacementResources := {
  pr_ports : PortRange;
  pr_device_ids : list string;
  pr_rdma_interface : option string;
}.

(** [HashSet::from(values).len() != values.len()]. *)
Definition has_duplicate (l : list string) : bool :=
  negb (size (list_to_set l : gset string) =? length l)%nat.

Definition PlacementResources_new (ports : PortRange) (device_ids : list string)
    (rdma_interface : option string) : result InterfaceError PlacementResources :=
  if bool_decide (device_ids = []) || (MAX_DEVICES_PER_PLACEMENT <? length device_ids)%nat
     || has_duplicate device_ids
  then Err (interface_error "placement resources"
              "device identities must be non-empty, unique, and bounded")
  else Ok {| pr_ports := ports; pr_device_ids := device_ids; pr_rdma_interface := rdma_interface |}.

Record PlacementAssignment := {
  pa_node_id : string;
  pa_runtime_installation_id : string;
  pa_hardware_observation_id : string;
  pa_hardware_boot_id : string;
  pa_hardware_observed_at : Z;
  pa_task_id : string;
  pa_address : string;
  pa_resources : PlacementResources;
  pa_endpoint_ownership : EndpointOwnership;
}.

Inductive PlacementState :=
| PlacementPending | PlacementStaging | PlacementStaged | PlacementStarting | PlacementRunning
| PlacementStopping | PlacementStopped | PlacementRemoving | PlacementRemoved | PlacementFailed
| PlacementUnreachable.

#[export] Instance PlacementState_eq_dec : EqDecision PlacementState.
Proof. solve_decision. Defined.

Record Placement := {
  pl_placement_id : string;
  pl_placement_group_id : string;
  pl_assignment : PlacementAssignment;
  pl_state : PlacementState;
  pl_active_operation_id : option string;
  pl_last_failure : option FailureDescription;
  pl_timestamps : EntityTimestamps;
}.

Definition Placement_new (placement_id placement_group_id : string)
    (assignment : PlacementAssignment) (state : PlacementState)
    (active_operation_id : option string) (last_failure : option FailureDescription)
    (timestamps : EntityTimestamps) : result InterfaceError Placement :=
  if bool_decide (state = PlacementFailed)
     && match last_failure with None => true | Some _ => false end
  then Err (interface_error "placement" "failed state requires a failure description")
  else Ok {| pl_placement_id := placement_id; pl_placement_group_id := placement_group_id;
             pl_assignment := assignment; pl_state := state;
             pl_active_operation_id := active_operation_id; pl_last_failure := last_failure;
             pl_timestamps := timestamps |}.

(** ** Endpoints *)

Definition MAX_TOKEN_COUNT_PATH_BYTES : Z := 255.
Definition MAX_ENDPOINT_PREFIX_KEYS : nat := 128.

Inductive TokenCountProtocol := LetsInferV1.

Record TokenCountContract := {
  tc_path : string;
  tc_protocol : TokenCountProtocol;
}.

Definition TokenCountContract_new (path : string) (protocol : TokenCountProtocol)
  : result InterfaceError TokenCountContract :=
  if (MAX_TOKEN_COUNT_PATH_BYTES <? str_len path) || negb (starts_with "/" path)
     || str_contains "://" path || existsb is_control (chars path)
     || existsb is_whitespace (chars path)
  then Err (interface_error "token count contract"
              "path must be absolute, local, bounded, and contain no whitespace")
  else Ok {| tc_path := path; tc_protocol := protocol |}.

Record EndpointHealth := {
  eh_healthy : bool;
  eh_memory_pressure : bool;
  eh_temperature_millicelsius : option Z;
  eh_prefix_keys : list string;
}.

Definition EndpointHealth_new (healthy memory_pressure : bool)
    (temperature_millicelsius : option Z) (prefix_keys : list string)
  : result InterfaceError EndpointHealth :=
  if match temperature_millicelsius with
     | Some value => negb (in_range (-1000) 250000 value) | None => false end
  then Err (interface_error "endpoint health"
              "temperature must be between -1 and 250 degrees Celsius")
  else if (MAX_ENDPOINT_PREFIX_KEYS <? length prefix_keys)%nat || has_duplicate prefix_keys
  then Err (interface_error "endpoint health" "prefix identities must be unique and bounded")
  else Ok {| eh_healthy := healthy; eh_memory_pressure := memory_pressure;
             eh_temperature_millicelsius := temperature_millicelsius;
             eh_prefix_keys := prefix_keys |}.

Record PlacementEndpoint := {
  pe_placement_id : string;
  pe_node_id : string;
  pe_address : EndpointAddress;
  pe_credential_id : string;
  pe_ca_credential_id : option string;
  pe_token_count : option TokenCountContract;
  pe_max_active_requests : Z;
  pe_max_context_tokens : Z;
  pe_health : EndpointHealth;
}.

Definition PlacementEndpoint_new (placement_id node_id : string) (address : EndpointAddress)
    (credential_id : string) (ca_credential_id : option string)
    (token_count : option TokenCountContract) (max_active_requests max_context_tokens : Z)
    (health : EndpointHealth) : result InterfaceError PlacementEndpoint :=
  if (max_active_requests =? 0) || (max_context_tokens =? 0)
  then Err (interface_error "placement endpoint" "request and context limits must be positive")
  else Ok {| pe_placement_id := placement_id; pe_node_id := node_id; pe_address := address;
             pe_credential_id := credential_id; pe_ca_credential_id := ca_credential_id;
             pe_token_count := token_count; pe_max_active_requests := max_active_requests;
             pe_max_context_tokens := max_context_tokens; pe_health := health |}.

(** ** Errors *)

Inductive PlacementError :=
| PlacementInvalidRequest (reason : string)
| TopologyUnavailable
| HardwareObservationUnavailable
| ResourceUnavailable
| ResourceConflict
| StoreUnavailable
| StoreConflict
| GroupNotFound
| InvalidTransition
| ExecutionUnavailable
| EndpointUnavailable
| ProtectionUnsafe
| IdentityUnavailable
| PlacementClockUnavailable.

(** ** Decidable equality *)

#[export] Instance EndpointOwnership_eq_dec : EqDecision EndpointOwnership.
Proof. solve_decision. Defined.
#[export] Instance PlacementResources_eq_dec : EqDecision PlacementResources.
Proof. solve_decision. Defined.
#[export] Instance PlacementAssignment_eq_dec : EqDecision PlacementAssignment.
Proof. solve_decision. Defined.
#[export] Instance Placement_eq_dec : EqDecision Placement.
Proof. solve_decision. Defined.
#[export] Instance TokenCountProtocol_eq_dec : EqDecision TokenCountProtocol.
Proof. solve_decision. Defined.
#[export] Instance TokenCountContract_eq_dec : EqDecision TokenCountContract.
Proof. solve_decision. Defined.
#[export] Instance EndpointHealth_eq_dec : EqDecision EndpointHealth.
Proof. solve_decision. Defined.
#[export] Instance PlacementEndpoint_eq_dec : EqDecision PlacementEndpoint.
Proof. solve_decision. Defined.

(** ** Placement groups, runtime identities and resource leases

    [core/interface/src/li_placement_group.rs] (groups and their capacity),
    [li_resource_lease.rs], the identity of [li_runtime_installation.rs] with
    [li_engine_distribution.rs] and the platform of
    [li_hardware_observation.rs], and the intent of [li_model_service.rs]. *)

(** ** Runtime identities *)

Inductive NativeEngineKind := NativeArchive | PythonStandalone | EmbeddedApplication.

Inductive OperatingSystem := Linux | Macos.
Inductive CpuArchitecture := Arm64 | X86_64.

Record PlatformIdentity := {
  operating_system : OperatingSystem;
  architecture : CpuArchitecture;
}.

Inductive EngineDistribution :=
| Oci (reference immutable_id : string) (base payload_id : option string)
| Native (kind : NativeEngineKind) (platform : PlatformIdentity) (payload_id source_revision : string).

Record RuntimeIdentity := {
  ri_candidate_id : string;
  ri_version : string;
  ri_target_id : string;
  ri_source : string;
  ri_engine_distribution : EngineDistribution;
  ri_runtime_digest : string;
  ri_manifest_digest : string;
  ri_execution_contract_digest : string;
}.

Definition RuntimeIdentity_new (candidate_id version target_id source : string)
    (engine_distribution : EngineDistribution)
    (runtime_digest manifest_digest execution_contract_digest : string)
  : result InterfaceError RuntimeIdentity :=
  if match strip_prefix "letsinfer-object:sha256:" source with
     | Some source_digest => negb (bool_decide (source_digest = runtime_digest))
     | None => false end
  then Err (interface_error "runtime identity"
              "local source digest differs from the runtime digest")
  else Ok {| ri_candidate_id := candidate_id; ri_version := version; ri_target_id := target_id;
             ri_source := source; ri_engine_distribution := engine_distribution;
             ri_runtime_digest := runtime_digest; ri_manifest_digest := manifest_digest;
             ri_execution_contract_digest := execution_contract_digest |}.

(** ** Capacity *)

Definition MAX_PLACEMENTS_PER_GROUP : nat := 64.

Inductive InterconnectKind :=
| InterconnectAny | InterconnectConnectx | InterconnectEthernet | InterconnectWifi
| InterconnectOther.

Record InterconnectRequirement := {
  ir_kind : InterconnectKind;
  ir_rdma_required : bool;
  ir_minimum_speed_mbps : Z;
  ir_minimum_mtu : Z;
}.

Record PlacementGroupCapacity := {
  gc_max_connections : Z;
  gc_max_active_requests : Z;
  gc_max_context_tokens : Z;
  gc_interconnect : InterconnectRequirement;
}.

Definition PlacementGroupCapacity_new (max_connections max_active_requests max_context_tokens : Z)
    (interconnect : InterconnectRequirement) : result InterfaceError PlacementGroupCapacity :=
  if (max_connections =? 0) || (max_active_requests =? 0) || (max_context_tokens =? 0)
  then Err (interface_error "placement group capacity"
              "connection, request, and context limits must be positive")
  else Ok {| gc_max_connections := max_connections; gc_max_active_requests := max_active_requests;
             gc_max_context_tokens := max_context_tokens; gc_interconnect := interconnect |}.

(** ** Groups *)

Inductive ModelServiceDesiredState := DesiredRunning | DesiredStopped | DesiredRemoved.

Inductive PlacementGroupState :=
| GroupStaging | GroupStaged | GroupStarting | GroupRunning | GroupDegraded | GroupStopping
| GroupStopped | GroupRecovering | GroupRemoving | GroupRemoved | GroupFailed.

Record PlacementGroup := {
  pg_placement_group_id : string;
  pg_service_id : string;
  pg_runtime : RuntimeIdentity;
  pg_placement_ids : list string;
  pg_endpoint_placement_id : string;
  pg_endpoint : option PlacementEndpoint;
  pg_capacity : PlacementGroupCapacity;
  pg_desired_state : ModelServiceDesiredState;
  pg_state : PlacementGroupState;
  pg_last_failure : option FailureDescription;
  pg_timestamps : EntityTimestamps;
}.

#[export] Instance NativeEngineKind_eq_dec : EqDecision NativeEngineKind.
Proof. solve_decision. Defined.
#[export] Instance OperatingSystem_eq_dec : EqDecision OperatingSystem.
Proof. solve_decision. Defined.
#[export] Instance CpuArchitecture_eq_dec : EqDecision CpuArchitecture.
Proof. solve_decision. Defined.
#[export] Instance PlatformIdentity_eq_dec : EqDecision PlatformIdentity.
Proof. solve_decision. Defined.
#[export] Instance EngineDistribution_eq_dec : EqDecision EngineDistribution.
Proof. solve_decision. Defined.
#[export] Instance RuntimeIdentity_eq_dec : EqDecision RuntimeIdentity.
Proof. solve_decision. Defined.
#[export] Instance InterconnectKind_eq_dec : EqDecision InterconnectKind.
Proof. solve_decision. Defined.
#[export] Instance InterconnectRequirement_eq_dec : EqDecision InterconnectRequirement.
Proof. solve_decision. Defined.
#[export] Instance PlacementGroupCapacity_eq_dec : EqDecision PlacementGroupCapacity.
Proof. solve_decision. Defined.
#[export] Instance ModelServiceDesiredState_eq_dec : EqDecision ModelServiceDesiredState.
Proof. solve_decision. Defined.
#[export] Instance PlacementGroupState_eq_dec : EqDecision PlacementGroupState.
Proof. solve_decision. Defined.
#[export] Instance PlacementGroup_eq_dec : EqDecision PlacementGroup.
Proof. solve_decision. Defined.

Definition group_error (reason : string) : InterfaceError :=
  interface_error "placement group" reason.

Definition PlacementGroup_new (placement_group_id service_id : string) (runtime : RuntimeIdentity)
    (placement_ids : list string) (endpoint_placement_id : string)
    (endpoint : option PlacementEndpoint) (capacity : PlacementGroupCapacity)
    (desired_state : ModelServiceDesiredState) (state : PlacementGroupState)
    (last_failure : option FailureDescription) (timestamps : EntityTimestamps)
  : result InterfaceError PlacementGroup :=
  if bool_decide (placement_ids = []) || (MAX_PLACEMENTS_PER_GROUP <? length placement_ids)%nat
     || has_duplicate placement_ids
  then Err (group_error "placement identities must be non-empty, unique, and bounded")
  else if negb (bool_decide (endpoint_placement_id ∈ placement_ids))
  then Err (group_error "endpoint owner must belong to the placement group")
  else if match endpoint with
          | Some e => negb (bool_decide (pe_placement_id e = endpoint_placement_id))
          | None => false end
  then Err (group_error "endpoint identity differs from the endpoint owner")
  else if bool_decide (state = GroupRunning) && bool_decide (endpoint = None)
  then Err (group_error "running state requires one endpoint")
  else if bool_decide (state = GroupFailed) && bool_decide (last_failure = None)
  then Err (group_error "failed state requires a failure description")
  else if match endpoint with
          | Some e => (gc_max_active_requests capacity <? pe_max_active_requests e)
                      || (gc_max_context_tokens capacity <? pe_max_context_tokens e)
          | None => false end
  then Err (group_error "endpoint limits exceed the group capacity")
  else Ok {| pg_placement_group_id := placement_group_id; pg_service_id := service_id;
             pg_runtime := runtime; pg_placement_ids := placement_ids;
             pg_endpoint_placement_id := endpoint_placement_id; pg_endpoint := endpoint;
             pg_capacity := capacity; pg_desired_state := desired_state; pg_state := state;
             pg_last_failure := last_failure; pg_timestamps := timestamps |}.

(** ** Resource leases *)

Inductive ResourceIdentity :=
| Accelerator (device_id : string)
| Port (port : Z)
| RdmaInterface (interface : string).

Inductive ResourceLeaseState := LeaseReserved | LeaseActive | LeaseDraining | LeaseReleased.

Record ResourceLease := {
  rl_lease_id : string;
  rl_placement_id : string;
  rl_node_id : string;
  rl_resource : ResourceIdentity;
  rl_state : ResourceLeaseState;
  rl_timestamps : EntityTimestamps;
}.

#[export] Instance ResourceIdentity_eq_dec : EqDecision ResourceIdentity.
Proof. solve_decision. Defined.
#[export] Instance ResourceLeaseState_eq_dec : EqDecision ResourceLeaseState.
Proof. solve_decision. Defined.
#[export] Instance ResourceLease_eq_dec : EqDecision ResourceLease.
Proof. solve_decision. Defined.
