(* ===== verification/PlacementContract.v ===== *)
(** * Placement contract: requests, records and providers

    [core/placement/src/li_placement_contract.rs]: the freshness policy, the
    validated placement request with its topology check, the aggregate record
    with its validation, and the provider interfaces of the lifecycle. *)

From S2P Require Import Prelude Values Text Placement.

Definition MAX_PLACEMENTS : nat := 64.
Definition MAX_LINKS : nat := 256.
Definition MAXIMUM_HARDWARE_OBSERVATION_AGE_MILLISECONDS : Z := 86400000.

Definition invalid_request {A} (reason : string) : result PlacementError A :=
  Err (PlacementInvalidRequest reason).

(** [if bad { return Err(error) }]. *)
Definition refuse {E} (bad : bool) (error : E) : result E () :=
  if bad then Err error else Ok ().

(** ** Freshness policy.  A [Duration] is its number of nanoseconds. *)

Definition PlacementAdmissionPolicy_new (maximum_hardware_observation_age : Z)
  : result PlacementError Z :=
  let milliseconds := maximum_hardware_observation_age / 1000000 in
  if (u64_max <? milliseconds) || (milliseconds =? 0)
     || (MAXIMUM_HARDWARE_OBSERVATION_AGE_MILLISECONDS <? milliseconds)
     || negb (milliseconds * 1000000 =? maximum_hardware_observation_age)
  then invalid_request "hardware observation age must be positive and bounded"
  else Ok milliseconds.

(** ** Tasks, nodes and links *)

Record PlacementTask := {
  pt_task_id : string;
  pt_device_count : Z;
  pt_port_count : Z;
}.

Definition PlacementTask_new (task_id : string) (device_count port_count : Z)
  : result PlacementError PlacementTask :=
  if (device_count =? 0) || (64 <? device_count) || (port_count =? 0) || (32 <? port_count)
  then invalid_request "task device and port counts must be positive and bounded"
  else Ok {| pt_task_id := task_id; pt_device_count := device_count;
             pt_port_count := port_count |}.

Record PlacementNodeResources := {
  nr_node_id : string;
  nr_runtime_installation_id : string;
  nr_hardware_observation_id : string;
  nr_boot_id : string;
  nr_observed_at : Z;
  nr_address : string;
  nr_device_ids : list string;
  nr_ports : PortRange;
  nr_rdma_interface : option string;
}.

Definition PlacementNodeResources_new (node_id runtime_installation_id hardware_observation_id
      boot_id : string) (observed_at : Z) (address : string) (device_ids : list string)
    (ports : PortRange) (rdma_interface : option string)
  : result PlacementError PlacementNodeResources :=
  if bool_decide (device_ids = []) || (64 <? length device_ids)%nat || has_duplicate device_ids
  then invalid_request "node accelerator identities must be non-empty, unique, and bounded"
  else Ok {| nr_node_id := node_id; nr_runtime_installation_id := runtime_installation_id;
             nr_hardware_observation_id := hardware_observation_id; nr_boot_id := boot_id;
             nr_observed_at := observed_at; nr_address := address; nr_device_ids := device_ids;
             nr_ports := ports; nr_rdma_interface := rdma_interface |}.

Definition admission_validate (maximum_age : Z) (nodes : list PlacementNodeResources) (now : Z)
  : result PlacementError () :=
  refuse (existsb (λ node, (now <? nr_observed_at node)
                           || (maximum_age <? now - nr_observed_at node)) nodes)
    HardwareObservationUnavailable.

Record PlacementLink := {
  li_left_node_id : string;
  li_right_node_id : string;
  li_kind : InterconnectKind;
  li_rdma : bool;
  li_speed_mbps : Z;
  li_mtu : Z;
}.

Definition PlacementLink_new (left_node_id right_node_id : string) (kind : InterconnectKind)
    (rdma : bool) (speed_mbps mtu : Z) : result PlacementError PlacementLink :=
  if bool_decide (left_node_id = right_node_id) || (speed_mbps =? 0) || (mtu =? 0)
  then invalid_request "placement link endpoints, speed, or MTU are invalid"
  else Ok {| li_left_node_id := left_node_id; li_right_node_id := right_node_id;
             li_kind := kind; li_rdma := rdma; li_speed_mbps := speed_mbps; li_mtu := mtu |}.

(** ** Requests *)

Record PlacementRequest := {
  rq_placement_group_id : string;
  rq_service_id : string;
  rq_runtime : RuntimeIdentity;
  rq_capacity : PlacementGroupCapacity;
  rq_tasks : list PlacementTask;
  rq_nodes : list PlacementNodeResources;
  rq_endpoint_task_id : string;
  rq_endpoint_node_id : string;
  rq_startup_order : list (list string);
  rq_links : list PlacementLink;
}.

(** [format!("task-{index}")] *)
Definition task_name (index : nat) : string := "task-" +:+ to_decimal (Z.of_nat index).

(** The identities differ from task-0, task-1, ... in some position. *)
Definition not_canonical (ids : list string) : bool :=
  negb (bool_decide (ids = task_name <$> seq 0 (length ids))).

Definition validate_task_identities (tasks : list PlacementTask) : result PlacementError () :=
  refuse (not_canonical (pt_task_id <$> tasks))
    (PlacementInvalidRequest "task identities must be contiguous canonical task-N values").

Definition validate_node_identities (nodes : list PlacementNodeResources)
  : result PlacementError () :=
  refuse (has_duplicate (nr_node_id <$> nodes)
          || has_duplicate (nr_hardware_observation_id <$> nodes))
    (PlacementInvalidRequest "placement nodes and hardware observations must be unique").

Definition empty_phase (order : list (list string)) : bool :=
  bool_decide (order = []) || existsb (λ phase, bool_decide (phase = [])) order.

Definition validate_startup_order (tasks : list PlacementTask) (startup_order : list (list string))
  : result PlacementError () :=
  let declared : gset string := list_to_set (pt_task_id <$> tasks) in
  let flattened := mjoin startup_order in
  let unique : gset string := list_to_set flattened in
  let? _ := refuse (empty_phase startup_order)
              (PlacementInvalidRequest "startup order requires non-empty phases") in
  refuse (negb (length flattened =? length tasks)%nat || negb (size unique =? length tasks)%nat
          || negb (bool_decide (unique = declared)))
    (PlacementInvalidRequest "startup order must contain every task exactly once").

Definition link_pair (link : PlacementLink) : string * string :=
  if bool_decide (String.compare (li_left_node_id link) (li_right_node_id link) = Lt)
  then (li_left_node_id link, li_right_node_id link)
  else (li_right_node_id link, li_left_node_id link).

Definition link_matches (requirement : InterconnectRequirement) (link : PlacementLink) : bool :=
  (bool_decide (ir_kind requirement = InterconnectAny)
   || bool_decide (li_kind link = ir_kind requirement))
  && (negb (ir_rdma_required requirement) || li_rdma link)
  && (ir_minimum_speed_mbps requirement <=? li_speed_mbps link)
  && (ir_minimum_mtu requirement <=? li_mtu link).

Definition reach_link (reached : gset string) (link : PlacementLink) : gset string :=
  let reached := if bool_decide (li_left_node_id link ∈ reached)
                 then {[li_right_node_id link]} ∪ reached else reached in
  if bool_decide (li_right_node_id link ∈ reached)
  then {[li_left_node_id link]} ∪ reached else reached.

(** [loop { ...; if reached.len() == previous { break } }] *)
Fixpoint reach_loop (fuel : nat) (matching : list PlacementLink) (reached : gset string)
  : gset string :=
  match fuel with
  | O => reached
  | S fuel =>
    let next := foldl reach_link reached matching in
    if (size next =? size reached)%nat then next else reach_loop fuel matching next
  end.

Definition validate_links (nodes : list PlacementNodeResources) (links : list PlacementLink)
    (capacity : PlacementGroupCapacity) : result PlacementError () :=
  let node_ids : gset string := list_to_set (nr_node_id <$> nodes) in
  let requirement := gc_interconnect capacity in
  let? _ := refuse (existsb (λ link, negb (bool_decide (li_left_node_id link ∈ node_ids))
                                     || negb (bool_decide (li_right_node_id link ∈ node_ids))) links)
              (PlacementInvalidRequest "placement link references a node outside the request") in
  let? _ := refuse (negb (size (list_to_set (link_pair <$> links) : gset (string * string))
                          =? length links)%nat)
              (PlacementInvalidRequest "placement links must identify unique node pairs") in
  let? _ := refuse (ir_rdma_required requirement
                    && existsb (λ node, bool_decide (nr_rdma_interface node = None)) nodes)
              TopologyUnavailable in
  match nodes with
  | [_] => Ok ()
  | [] => Ok () (* [nodes[0]] would panic; [PlacementRequest_new] refuses an empty list first *)
  | first :: _ =>
    let matching := List.filter (link_matches requirement) links in
    let reached := reach_loop (S (length nodes)) matching {[nr_node_id first]} in
    refuse (negb (size reached =? length nodes)%nat) TopologyUnavailable
  end.

Definition PlacementRequest_new (placement_group_id service_id : string)
    (runtime : RuntimeIdentity) (capacity : PlacementGroupCapacity) (tasks : list PlacementTask)
    (nodes : list PlacementNodeResources) (endpoint_task_id endpoint_node_id : string)
    (startup_order : list (list string)) (links : list PlacementLink)
  : result PlacementError PlacementRequest :=
  let? _ := refuse (bool_decide (tasks = []) || (MAX_PLACEMENTS <? length tasks)%nat
                    || negb (length tasks =? length nodes)%nat || (MAX_LINKS <? length links)%nat)
              (PlacementInvalidRequest "task, node, or link counts are invalid") in
  let? _ := validate_task_identities tasks in
  let? _ := validate_node_identities nodes in
  let? _ := validate_startup_order tasks startup_order in
  let? _ := refuse (negb (existsb (λ task, bool_decide (pt_task_id task = endpoint_task_id)) tasks)
                    || negb (existsb (λ node, bool_decide (nr_node_id node = endpoint_node_id)) nodes))
              (PlacementInvalidRequest "endpoint task or node is outside the placement request") in
  let? _ := validate_links nodes links capacity in
  Ok {| rq_placement_group_id := placement_group_id; rq_service_id := service_id;
        rq_runtime := runtime; rq_capacity := capacity; rq_tasks := tasks; rq_nodes := nodes;
        rq_endpoint_task_id := endpoint_task_id; rq_endpoint_node_id := endpoint_node_id;
        rq_startup_order := startup_order; rq_links := links |}.

(** ** Records *)

Record PlacementRecord := {
  rec_group : PlacementGroup;
  rec_placements : list Placement;
  rec_leases : list ResourceLease;
  rec_startup_order : list (list string);
  rec_launch_plan_identities : list (string * string);
}.

#[export] Instance PlacementRecord_eq_dec : EqDecision PlacementRecord.
Proof. solve_decision. Defined.

Definition seqZ_nat (count : Z) : list Z := Z.of_nat <$> seq 0 (Z.to_nat count).

(** [resources_for_placement] of the contract, which is also
    [placement_resource_identities] of the allocator. *)
Definition resources_for_placement (placement : Placement) : list ResourceIdentity :=
  let resources := pa_resources (pl_assignment placement) in
  let ports := pr_ports resources in
  (Accelerator <$> pr_device_ids resources)
  ++ ((λ offset, Port (port_base ports + offset)) <$> seqZ_nat (port_count ports))
  ++ match pr_rdma_interface resources with
     | Some interface => [RdmaInterface interface]
     | None => []
     end.

Definition is_owner (placement : Placement) : bool :=
  bool_decide (pa_endpoint_ownership (pl_assignment placement) = Owner).

Fixpoint overlapping (leases : list ResourceLease) : bool :=
  match leases with
  | [] => false
  | lease :: leases =>
    existsb (λ candidate, bool_decide (rl_node_id lease = rl_node_id candidate)
                          && bool_decide (rl_resource lease = rl_resource candidate)) leases
    || overlapping leases
  end.

(** The group states in which every placement has its launch plan. *)
Definition needs_plans (state : PlacementGroupState) : bool :=
  match state with
  | GroupStaged | GroupStarting | GroupRunning | GroupDegraded | GroupStopping | GroupStopped
  | GroupRecovering => true
  | _ => false
  end.

Definition leases_differ (leases : list ResourceLease) (placement : Placement) : bool :=
  let expected := resources_for_placement placement in
  let owned := List.filter (λ l, bool_decide (rl_placement_id l = pl_placement_id placement))
                 leases in
  negb (length owned =? length expected)%nat
  || existsb (λ l, negb (bool_decide (rl_node_id l = pa_node_id (pl_assignment placement)))) owned
  || existsb (λ r, negb (existsb (λ l, bool_decide (rl_resource l = r)) owned)) expected.

Definition endpoint_differs (endpoint : PlacementEndpoint) (owner : Placement) : bool :=
  let ports := pr_ports (pa_resources (pl_assignment owner)) in
  negb (bool_decide (pe_node_id endpoint = pa_node_id (pl_assignment owner)))
  || negb (bool_decide (endpoint_host (pe_address endpoint) = pa_address (pl_assignment owner)))
  || (endpoint_port (pe_address endpoint) <? port_base ports)
  || (PortRange_last ports <? endpoint_port (pe_address endpoint)).

Definition expected_states (state : PlacementGroupState)
  : option (PlacementState * ResourceLeaseState) :=
  match state with
  | GroupStaged => Some (PlacementStaged, LeaseReserved)
  | GroupRunning => Some (PlacementRunning, LeaseActive)
  | GroupStopped => Some (PlacementStopped, LeaseReserved)
  | GroupRemoved => Some (PlacementRemoved, LeaseReleased)
  | _ => None
  end.

Definition validate_terminal_record_state (group : PlacementGroup) (placements : list Placement)
    (leases : list ResourceLease) : result PlacementError () :=
  let? _ := match expected_states (pg_state group) with
            | Some (placement_state, lease_state) =>
              refuse (existsb (λ p, negb (bool_decide (pl_state p = placement_state))) placements
                      || existsb (λ l, negb (bool_decide (rl_state l = lease_state))) leases)
                (PlacementInvalidRequest
                   "terminal placement-group state differs from placements or leases")
            | None => Ok ()
            end in
  refuse (bool_decide (pg_state group = GroupRunning)
          && negb (bool_decide (pg_desired_state group = DesiredRunning)))
    (PlacementInvalidRequest "running placement group must have running intent").

(** The checks of [validate_record] in source order: the placements are those of
    the group, *)
Definition validate_membership (group : PlacementGroup) (placements : list Placement)
  : result PlacementError () :=
  refuse (negb (bool_decide (pl_placement_id <$> placements = pg_placement_ids group))
          || existsb (λ p, negb (bool_decide (pl_placement_group_id p = pg_placement_group_id group)))
               placements)
    (PlacementInvalidRequest "placement record differs from its group").

(** their nodes, tasks and observations are unique and one of them owns the
    endpoint, *)
Definition validate_owner (group : PlacementGroup) (placements : list Placement)
  : result PlacementError () :=
  let assignments := pl_assignment <$> placements in
  refuse (has_duplicate (pa_node_id <$> assignments) || has_duplicate (pa_task_id <$> assignments)
          || has_duplicate (pa_hardware_observation_id <$> assignments)
          || not_canonical (pa_task_id <$> assignments)
          || negb (bool_decide (pl_placement_id <$> List.filter is_owner placements
                                = [pg_endpoint_placement_id group])))
    (PlacementInvalidRequest
       "placement identities, observations, or endpoint ownership are inconsistent").

(** a published endpoint is the owner's, *)
Definition validate_endpoint (group : PlacementGroup) (placements : list Placement)
  : result PlacementError () :=
  match pg_endpoint group, List.filter is_owner placements with
  | Some endpoint, owner :: _ =>
    refuse (endpoint_differs endpoint owner)
      (PlacementInvalidRequest "placement endpoint differs from its exact owner assignment")
  | _, _ => Ok ()
  end.

(** the phases contain every placement once, *)
Definition validate_phases (placements : list Placement) (startup_order : list (list string))
  : result PlacementError () :=
  refuse (empty_phase startup_order || negb (length (mjoin startup_order) =? length placements)%nat
          || negb (bool_decide ((list_to_set (mjoin startup_order) : gset string)
                                = list_to_set (pl_placement_id <$> placements))))
    (PlacementInvalidRequest "placement phase order differs from its group").

(** the leases are as many as the assigned resources, without overlap, *)
Definition validate_leases (placements : list Placement) (leases : list ResourceLease)
  : result PlacementError () :=
  let? _ := refuse (has_duplicate (rl_lease_id <$> leases))
              (PlacementInvalidRequest "placement lease identities must be unique") in
  refuse (negb (length leases =? length (mjoin (resources_for_placement <$> placements)))%nat
          || overlapping leases)
    (PlacementInvalidRequest "placement resource ownership is duplicated or unrelated").

(** the launch plans are those of placements, in their order, and complete after
    staging, *)
Definition validate_plans (group : PlacementGroup) (placements : list Placement)
    (plans : list (string * string)) : result PlacementError () :=
  let ids := pl_placement_id <$> placements in
  refuse (has_duplicate plans.*1 || existsb (λ id, negb (bool_decide (id ∈ ids))) plans.*1
          || negb (bool_decide (List.filter (λ id, bool_decide (id ∈ plans.*1)) ids = plans.*1))
          || (needs_plans (pg_state group) && negb (length plans =? length placements)%nat))
    (PlacementInvalidRequest
       "launch-plan identities must be unique, owned, and complete after staging").

(** and every placement's leases are its resources. *)
Definition validate_record (group : PlacementGroup) (placements : list Placement)
    (leases : list ResourceLease) (startup_order : list (list string))
    (plans : list (string * string)) : result PlacementError () :=
  let? _ := validate_membership group placements in
  let? _ := validate_owner group placements in
  let? _ := validate_endpoint group placements in
  let? _ := validate_phases placements startup_order in
  let? _ := validate_leases placements leases in
  let? _ := validate_plans group placements plans in
  let? _ := refuse (existsb (leases_differ leases) placements)
              (PlacementInvalidRequest "placement leases differ from assigned resources") in
  validate_terminal_record_state group placements leases.

Definition PlacementRecord_new (group : PlacementGroup) (placements : list Placement)
    (leases : list ResourceLease) (startup_order : list (list string))
    (plans : list (string * string)) : result PlacementError PlacementRecord :=
  let? _ := validate_record group placements leases startup_order plans in
  Ok {| rec_group := group; rec_placements := placements; rec_leases := leases;
        rec_startup_order := startup_order; rec_launch_plan_identities := plans |}.

Definition launch_plan_identity (record : PlacementRecord) (placement_id : string)
  : option string :=
  snd <$> List.find (λ plan, bool_decide (plan.1 = placement_id))
            (rec_launch_plan_identities record).

Definition recording_launch_plan_identity (record : PlacementRecord)
    (placement_id identity : string) : result PlacementError PlacementRecord :=
  match launch_plan_identity record placement_id with
  | Some existing => if bool_decide (existing = identity) then Ok record else Err StoreConflict
  | None =>
    PlacementRecord_new (rec_group record) (rec_placements record) (rec_leases record)
      (rec_startup_order record) (rec_launch_plan_identities record ++ [(placement_id, identity)])
  end.

Record VersionedPlacementRecord := {
  vr_record : PlacementRecord;
  vr_revision : Z;
}.

Definition placement_resources (ports : PortRange) (device_ids : list string)
    (rdma_interface : option string) : result PlacementError PlacementResources :=
  match PlacementResources_new ports device_ids rdma_interface with
  | Ok resources => Ok resources
  | Err _ => invalid_request "allocated placement resources are invalid"
  end.

(** ** Observations, changes and providers *)

Record PlacementObservation := {
  po_state : PlacementState;
  po_endpoint : option PlacementEndpoint;
  po_protection_trip_latched : bool;
}.

Inductive PlacementEvent :=
| EventStaged (placement_group_id : string)
| EventRunning (placement_group_id : string)
| EventStopped (placement_group_id : string)
| EventRecovered (placement_group_id : string)
| EventRemoved (placement_group_id : string)
| EventFailed (placement_group_id : string)
| EventObserved (placement_group_id : string).
#[export] Instance PlacementEvent_eq_dec : EqDecision PlacementEvent.
Proof. solve_decision. Defined.

Record PlacementChange := {
  ch_record : VersionedPlacementRecord;
  ch_event : PlacementEvent;
}.

(** The durable aggregate store. *)
Class PlacementStore (W : Type) := {
  occupied_resources : string → W → result PlacementError (list ResourceIdentity) * W;
  store_create : PlacementRecord → W → result PlacementError VersionedPlacementRecord * W;
  store_read : string → W → result PlacementError (option VersionedPlacementRecord) * W;
  store_replace : PlacementRecord → Z → W → result PlacementError VersionedPlacementRecord * W;
}.

(** The node executor. *)
Class PlacementExecution (W : Type) := {
  execute_stage : Placement → W → result PlacementError string * W;
  execute_start : Placement → bool → W → result PlacementError (option PlacementEndpoint) * W;
  execute_stop : Placement → W → result PlacementError () * W;
  execute_remove : Placement → W → result PlacementError () * W;
  execute_observe : Placement → W → result PlacementError PlacementObservation * W;
}.

(** Identities and time. *)
Class PlacementIdentity (W : Type) := {
  fresh_placement_id : string → W → result PlacementError string * W;
  fresh_lease_id : string → ResourceIdentity → W → result PlacementError string * W;
  clock_now : W → result PlacementError Z * W;
}.

(** ** Laws of the checks *)

Lemma refuse_Ok {E} bad (error : E) u : refuse bad error = Ok u ↔ bad = false.
Proof. destruct u. unfold refuse. destruct bad; naive_solver. Qed.

Lemma refuse_false {E} bad (error : E) : bad = false → refuse bad error = Ok ().
Proof. by intros ->. Qed.

Lemma overlapping_false ls :
  overlapping ls = false → NoDup ((λ l, (rl_node_id l, rl_resource l)) <$> ls).
Proof.
  induction ls as [|l ls IH]; simpl; [constructor|]. intros [Hl Hls]%orb_false_iff.
  constructor; [|by apply IH]. intros (l' & E & Hin)%list_elem_of_fmap.
  injection E as E1 E2. pose proof (existsb_false _ _ l' Hl Hin) as Hf. cbv beta in Hf.
  by rewrite !bool_decide_eq_true_2 in Hf by done.
Qed.

Lemma validate_record_Ok group ps ls order plans u :
  validate_record group ps ls order plans = Ok u →
  validate_membership group ps = Ok () ∧ validate_owner group ps = Ok () ∧
  validate_endpoint group ps = Ok () ∧ validate_phases ps order = Ok () ∧
  validate_leases ps ls = Ok () ∧ validate_plans group ps plans = Ok () ∧
  existsb (leases_differ ls) ps = false ∧ validate_terminal_record_state group ps ls = Ok ().
Proof.
  unfold validate_record. destruct u. intros H.
  apply result_bind_Ok in H as ([] & ? & H). apply result_bind_Ok in H as ([] & ? & H).
  apply result_bind_Ok in H as ([] & ? & H). apply result_bind_Ok in H as ([] & ? & H).
  apply result_bind_Ok in H as ([] & ? & H). apply result_bind_Ok in H as ([] & ? & H).
  apply result_bind_Ok in H as ([] & ?%refuse_Ok & H). done.
Qed.

Lemma validate_owner_unique group ps :
  validate_owner group ps = Ok () → ∃ p, List.filter is_owner ps = [p] ∧
    pl_placement_id p = pg_endpoint_placement_id group.
Proof.
  intros [_ H%negb_false_iff%bool_decide_eq_true]%refuse_Ok%orb_false_iff.
  destruct (List.filter is_owner ps) as [|p [|]]; naive_solver.
Qed.

Lemma validate_leases_NoDup ps ls :
  validate_leases ps ls = Ok () → NoDup ((λ l, (rl_node_id l, rl_resource l)) <$> ls).
Proof.
  intros (? & _ & [_ H]%refuse_Ok%orb_false_iff)%result_bind_Ok. by apply overlapping_false.
Qed.

Lemma PlacementRecord_new_Ok group ps ls order plans record :
  PlacementRecord_new group ps ls order plans = Ok record →
  validate_record group ps ls order plans = Ok () ∧
  record = {| rec_group := group; rec_placements := ps; rec_leases := ls;
              rec_startup_order := order; rec_launch_plan_identities := plans |}.
Proof. intros ([] & H & [= <-])%result_bind_Ok. done. Qed.
