(* ===== verification/PlacementTopology.v ===== *)
(** * Topology: which placement requests are connected

    The loop of [validate_links] against a reference: the nodes of a request are
    connected when every two of them are joined by a path of links that satisfy
    the runtime's interconnect requirement. *)

From S2P Require Import Prelude Values Text Placement PlacementContract.

(** ** Reference *)

Definition joined (requirement : InterconnectRequirement) (links : list PlacementLink)
    (a b : string) : Prop :=
  ∃ link, link ∈ links ∧ link_matches requirement link = true ∧
    ((li_left_node_id link = a ∧ li_right_node_id link = b) ∨
     (li_left_node_id link = b ∧ li_right_node_id link = a)).

Definition connected (requirement : InterconnectRequirement) (links : list PlacementLink)
    (nodes : list PlacementNodeResources) : Prop :=
  ∀ a b, a ∈ nodes → b ∈ nodes →
    rtc (joined requirement links) (nr_node_id a) (nr_node_id b).

(** A link joins the two ends it names. *)
Definition ends (link : PlacementLink) (a b : string) : Prop :=
  (li_left_node_id link = a ∧ li_right_node_id link = b) ∨
  (li_left_node_id link = b ∧ li_right_node_id link = a).

Definition edge (matching : list PlacementLink) (a b : string) : Prop :=
  ∃ link, link ∈ matching ∧ ends link a b.

Lemma edge_joined requirement links a b :
  edge (List.filter (link_matches requirement) links) a b ↔ joined requirement links a b.
Proof.
  unfold edge, joined, ends. split.
  - intros (l & Hl & He). apply list_elem_of_In, filter_In in Hl as [Hl Hm].
    exists l. split; [by apply list_elem_of_In|done].
  - intros (l & Hl & Hm & He). exists l. split; [|done].
    apply list_elem_of_In, filter_In. split; [by apply list_elem_of_In|done].
Qed.

#[export] Instance joined_symmetric requirement links : Symmetric (joined requirement links).
Proof. intros a b (l & ? & ? & ?). exists l. naive_solver. Qed.

(** ** One pass *)

Lemma reach_link_spec R link x :
  x ∈ reach_link R link ↔ x ∈ R ∨ ∃ y, y ∈ R ∧ ends link y x.
Proof.
  unfold reach_link, ends. repeat case_bool_decide; set_solver.
Qed.

Lemma reach_pass_mono R links : R ⊆ foldl reach_link R links.
Proof.
  revert R. induction links as [|l links IH]; intros R; simpl; [done|].
  transitivity (reach_link R l); [|apply IH].
  intros x Hx. apply reach_link_spec. by left.
Qed.

Lemma reach_pass_sound (P : string → Prop) links R :
  (∀ a b, P a → edge links a b → P b) →
  (∀ x, x ∈ R → P x) → ∀ x, x ∈ foldl reach_link R links → P x.
Proof.
  revert R. induction links as [|l links IH]; intros R Hstep HR; simpl; [done|].
  apply IH.
  - intros a b Ha (l' & Hl' & He). eapply Hstep; [done|]. exists l'. set_solver.
  - intros x [Hx|(y & Hy & He)]%reach_link_spec; [auto|].
    eapply Hstep; [by apply HR|]. exists l. set_solver.
Qed.

Lemma reach_pass_fixed R links link :
  foldl reach_link R links = R → link ∈ links → reach_link R link = R.
Proof.
  intros Hf Hl. apply list_elem_of_split in Hl as (l1 & l2 & ->).
  rewrite foldl_app in Hf. cbn [foldl] in Hf.
  assert (foldl reach_link R l1 = R) as E1.
  { apply (anti_symm (⊆)); [|apply reach_pass_mono].
    rewrite <- Hf at 2. etrans; [|apply reach_pass_mono].
    intros x Hx. apply reach_link_spec. by left. }
  rewrite E1 in Hf. apply (anti_symm (⊆)).
  - rewrite <- Hf at 2. apply reach_pass_mono.
  - intros x Hx. apply reach_link_spec. by left.
Qed.

Lemma reach_fixed_closed R links a b :
  foldl reach_link R links = R → a ∈ R → edge links a b → b ∈ R.
Proof.
  intros Hf Ha (l & Hl & He). rewrite <- (reach_pass_fixed R links l) by done.
  apply reach_link_spec. right. eauto.
Qed.

(** ** The loop *)

Lemma reach_loop_sound fuel links R (P : string → Prop) :
  (∀ a b, P a → edge links a b → P b) →
  (∀ x, x ∈ R → P x) → ∀ x, x ∈ reach_loop fuel links R → P x.
Proof.
  intros Hstep. revert R. induction fuel as [|fuel IH]; intros R HR; simpl; [done|].
  pose proof (reach_pass_sound P links R Hstep HR) as Hp.
  destruct (_ =? _)%nat; [done|by apply IH].
Qed.

Lemma reach_loop_mono fuel links R : R ⊆ reach_loop fuel links R.
Proof.
  revert R. induction fuel as [|fuel IH]; intros R; simpl; [done|].
  destruct (_ =? _)%nat; [apply reach_pass_mono|].
  etrans; [apply (reach_pass_mono R links)|apply IH].
Qed.

(** The fuel suffices when it exceeds the number of nodes not yet reached. *)
Lemma reach_loop_fixed fuel links R (nodes : gset string) :
  R ⊆ nodes → (∀ a b, a ∈ nodes → edge links a b → b ∈ nodes) →
  (size nodes < fuel + size R)%nat →
  foldl reach_link (reach_loop fuel links R) links = reach_loop fuel links R.
Proof.
  intros HR Hn. revert R HR. induction fuel as [|fuel IH]; intros R HR Hf.
  { pose proof (subseteq_size _ _ HR). lia. }
  simpl. pose proof (reach_pass_mono R links) as Hm.
  pose proof (subseteq_size _ _ Hm) as Hs.
  destruct (Nat.eqb_spec (size (foldl reach_link R links)) (size R)) as [E|E].
  - assert (foldl reach_link R links = R) as Efix; [|by rewrite !Efix].
    apply leibniz_equiv. symmetry. apply set_subseteq_size_equiv; [done|lia].
  - apply IH; [|lia]. intros x Hx.
    by apply (reach_pass_sound (λ x, x ∈ nodes) links R).
Qed.

Lemma rtc_closed (R : gset string) links a b :
  (∀ a b, a ∈ R → edge links a b → b ∈ R) → rtc (edge links) a b → a ∈ R → b ∈ R.
Proof. intros Hc. induction 1; eauto. Qed.

(** The reached set is exactly what the start is joined to. *)
Lemma reach_loop_spec links (nodes : gset string) start x :
  start ∈ nodes → (∀ a b, a ∈ nodes → edge links a b → b ∈ nodes) →
  x ∈ reach_loop (S (size nodes)) links {[start]} ↔ rtc (edge links) start x.
Proof.
  intros Hs Hn. split.
  - apply (reach_loop_sound _ _ _ (λ x, rtc (edge links) start x)).
    + intros a b Ha He. by eapply rtc_r.
    + intros y ->%elem_of_singleton. done.
  - intros Hr. eapply rtc_closed; [|exact Hr|apply reach_loop_mono; set_solver].
    intros a b. apply reach_fixed_closed.
    apply (reach_loop_fixed _ _ _ nodes); [set_solver|done|]. rewrite size_singleton. lia.
Qed.

(** ** The check *)

Definition node_set (nodes : list PlacementNodeResources) : gset string :=
  list_to_set (nr_node_id <$> nodes).

(** The links stay within the nodes, one per pair, and RDMA is where it must be. *)
Record links_wf (nodes : list PlacementNodeResources) (links : list PlacementLink)
    (capacity : PlacementGroupCapacity) : Prop := {
  wf_ends : ∀ link, link ∈ links →
    li_left_node_id link ∈ node_set nodes ∧ li_right_node_id link ∈ node_set nodes;
  wf_pairs : NoDup (link_pair <$> links);
  wf_rdma : ir_rdma_required (gc_interconnect capacity) = true →
    ∀ node, node ∈ nodes → is_Some (nr_rdma_interface node);
}.

Lemma reached_all nodes links :
  NoDup (nr_node_id <$> nodes) →
  (∀ a b, a ∈ node_set nodes → edge links a b → b ∈ node_set nodes) →
  ∀ first rest, nodes = first :: rest →
  (size (reach_loop (S (length nodes)) links {[nr_node_id first]}) = length nodes ↔
   ∀ b, b ∈ nodes → rtc (edge links) (nr_node_id first) (nr_node_id b)).
Proof.
  intros Hnd Hcl first rest E.
  assert (size (node_set nodes) = length nodes) as Hsize.
  { unfold node_set. rewrite size_list_to_set by done. by rewrite length_fmap. }
  assert (nr_node_id first ∈ node_set nodes) as Hfirst
    by (unfold node_set; rewrite E; set_solver).
  pose proof (λ x, reach_loop_spec links (node_set nodes) (nr_node_id first) x Hfirst Hcl) as Hspec.
  rewrite Hsize in Hspec.
  set (R := reach_loop _ _ _) in *.
  assert (R ⊆ node_set nodes) as Hsub.
  { intros x Hx%Hspec. by eapply rtc_closed. }
  rewrite <- Hsize. split.
  - intros Hs b Hb. apply Hspec.
    assert (R ≡ node_set nodes) as -> by (apply set_subseteq_size_equiv; [done|lia]).
    unfold node_set. apply elem_of_list_to_set, list_elem_of_fmap. eauto.
  - intros Hall. f_equal. apply leibniz_equiv, (anti_symm (⊆)); [done|].
    intros x [b [-> Hb]]%elem_of_list_to_set%list_elem_of_fmap. by apply Hspec, Hall.
Qed.

Lemma connected_from_first requirement links first rest :
  connected requirement links (first :: rest) ↔
  ∀ b, b ∈ first :: rest → rtc (joined requirement links) (nr_node_id first) (nr_node_id b).
Proof.
  split; [intros Hc b Hb; apply Hc; set_solver|].
  intros Hf a b Ha Hb. transitivity (nr_node_id first); [|by apply Hf].
  symmetry. by apply Hf.
Qed.

Lemma rtc_edge_joined requirement links a b :
  rtc (edge (List.filter (link_matches requirement) links)) a b
  ↔ rtc (joined requirement links) a b.
Proof.
  split; induction 1 as [|? ? ? He]; eauto using rtc_refl;
    apply edge_joined in He; eauto using rtc_l.
Qed.

Lemma links_wf_checks nodes links capacity :
  links_wf nodes links capacity →
  validate_links nodes links capacity =
    match nodes with
    | [] | [_] => Ok ()
    | first :: _ =>
      refuse (negb (size (reach_loop (S (length nodes))
                (List.filter (link_matches (gc_interconnect capacity)) links)
                {[nr_node_id first]}) =? length nodes)%nat) TopologyUnavailable
    end.
Proof.
  intros [Hends Hpairs Hrdma]. unfold validate_links.
  rewrite !refuse_false; cbn [result_bind].
  - by destruct nodes as [|? []].
  - destruct (ir_rdma_required _) eqn:Hr; [simpl|done].
    apply not_true_is_false. intros (node & Hn & Hd)%existsb_exists.
    apply bool_decide_eq_true in Hd.
    destruct (Hrdma eq_refl node) as [i Hi]; [by apply list_elem_of_In|]. congruence.
  - apply negb_false_iff, Nat.eqb_eq. rewrite size_list_to_set by done. by rewrite length_fmap.
  - apply not_true_is_false. intros (l & Hl%list_elem_of_In & Hd)%existsb_exists.
    destruct (Hends l Hl) as [? ?]. unfold node_set in *.
    by rewrite !bool_decide_eq_true_2 in Hd.
Qed.

(** with links that stay within the request's nodes, one per pair,
    the topology check accepts exactly the connected requests: those in which a
    path of links of the required kind, speed, MTU and RDMA joins every two nodes.
    Every other request is refused as an unavailable topology. *)
Theorem validate_links_iff_connected nodes links capacity :
  nodes ≠ [] → NoDup (nr_node_id <$> nodes) → links_wf nodes links capacity →
  (connected (gc_interconnect capacity) links nodes → validate_links nodes links capacity = Ok ()) ∧
  (¬ connected (gc_interconnect capacity) links nodes →
   validate_links nodes links capacity = Err TopologyUnavailable).
Proof.
  intros Hne Hnd Hwf. rewrite links_wf_checks by done.
  destruct nodes as [|first rest]; [done|].
  assert (∀ a b, a ∈ node_set (first :: rest) →
    edge (List.filter (link_matches (gc_interconnect capacity)) links) a b →
    b ∈ node_set (first :: rest)) as Hcl.
  { intros a b Ha (l & Hl & He). apply list_elem_of_In, filter_In in Hl as [Hl%list_elem_of_In _].
    destruct (wf_ends _ _ _ Hwf l Hl). unfold ends in He. naive_solver. }
  pose proof (reached_all _ _ Hnd Hcl first rest eq_refl) as Hr.
  rewrite connected_from_first. setoid_rewrite rtc_edge_joined in Hr.
  destruct rest as [|second rest].
  - split; [done|]. intros Hn. exfalso. apply Hn. intros b ->%list_elem_of_singleton. done.
  - split; intros Hc.
    + apply Hr in Hc. rewrite Hc. by rewrite Nat.eqb_refl.
    + unfold refuse. destruct (Nat.eqb_spec (size (reach_loop (S (length (first :: second :: rest)))
        (List.filter (link_matches (gc_interconnect capacity)) links) {[nr_node_id first]}))
        (length (first :: second :: rest))) as [E|E]; [|done].
      exfalso. apply Hc, Hr. exact E.
Qed.

(** ** Example: a chain of three nodes *)

Module TopologyExample.
Definition node (id : string) : PlacementNodeResources :=
  {| nr_node_id := id; nr_runtime_installation_id := "i"; nr_hardware_observation_id := id;
     nr_boot_id := "boot"; nr_observed_at := 0; nr_address := "10.0.0.1";
     nr_device_ids := ["gpu0"%string]; nr_ports := {| port_base := 30000; port_count := 8 |};
     nr_rdma_interface := None |}.
Definition link (a b : string) (speed : Z) : PlacementLink :=
  {| li_left_node_id := a; li_right_node_id := b; li_kind := InterconnectEthernet;
     li_rdma := false; li_speed_mbps := speed; li_mtu := 1500 |}.
Definition capacity : PlacementGroupCapacity :=
  {| gc_max_connections := 8; gc_max_active_requests := 4; gc_max_context_tokens := 8192;
     gc_interconnect := {| ir_kind := InterconnectAny; ir_rdma_required := false;
                           ir_minimum_speed_mbps := 1000; ir_minimum_mtu := 1500 |} |}.
Definition nodes := [node "a"; node "b"; node "c"].
Definition chain := [link "b" "c" 1000; link "b" "a" 10000].
End TopologyExample.

Import TopologyExample.

Lemma chain_links_wf : links_wf nodes chain capacity.
Proof.
  split; [|apply (bool_decide_unpack _); vm_compute; exact I|done].
  intros l [-> | [-> | []%not_elem_of_nil]%elem_of_cons]%elem_of_cons;
    split; apply (bool_decide_unpack _); vm_compute; exact I.
Qed.

Lemma chain_connected : connected (gc_interconnect capacity) chain nodes.
Proof.
  assert (joined (gc_interconnect capacity) chain "a" "b") as Hab.
  { exists (link "b" "a" 10000). split; [set_solver|]. split; [done|by right]. }
  assert (joined (gc_interconnect capacity) chain "b" "c") as Hbc.
  { exists (link "b" "c" 1000). split; [set_solver|]. split; [done|by left]. }
  apply connected_from_first. intros b Hb.
  repeat apply elem_of_cons in Hb as [-> | Hb]; [done| | |by apply not_elem_of_nil in Hb];
    simpl; eauto using rtc_l, rtc_refl.
Qed.

Lemma validate_links_iff_connected_witness :
  validate_links nodes chain capacity = Ok () ∧
  validate_links nodes (take 1 chain) capacity = Err TopologyUnavailable.
Proof.
  split; [|reflexivity].
  apply validate_links_iff_connected; [done| |apply chain_links_wf|apply chain_connected].
  apply (bool_decide_unpack _); vm_compute; exact I.
Defined.
