(* ===== verification/PlacementAllocator.v ===== *)
(** * Placement allocation

    [core/placement/src/li_placement_allocator.rs]: the endpoint task is bound to
    the endpoint node, every task gets the lowest free devices and the lowest
    free contiguous ports of its node, and one record with a lease per resource
    is created in the store. *)

From Stdlib Require Import String.
From S2P Require Import Prelude Values Text Ordering Placement PlacementContract.

Definition is_occupied (resource : ResourceIdentity) (occupied : list ResourceIdentity) : bool :=
  existsb (λ candidate, bool_decide (candidate = resource)) occupied.

(** [Iterator::position] *)
Fixpoint position {A} (f : A → bool) (l : list A) : option nat :=
  match l with
  | [] => None
  | x :: l => if f x then Some O else S <$> position f l
  end.

(** [order.swap(i, j)] on [0..n] *)
Definition swapped (n i j : nat) : list nat :=
  (λ k, if (k =? i)%nat then j else if (k =? j)%nat then i else k) <$> seq 0 n.

Definition bound_node_order (request : PlacementRequest) : result PlacementError (list nat) :=
  let? task_index :=
    ok_or (PlacementInvalidRequest "endpoint task is unavailable")
      (position (λ t, bool_decide (pt_task_id t = rq_endpoint_task_id request)) (rq_tasks request)) in
  let? node_index :=
    ok_or (PlacementInvalidRequest "endpoint node is unavailable")
      (position (λ n, bool_decide (nr_node_id n = rq_endpoint_node_id request)) (rq_nodes request)) in
  Ok (swapped (List.length (rq_nodes request)) task_index node_index).

Definition available_devices (candidates : list string) (count : Z)
    (occupied : list ResourceIdentity) : result PlacementError (list string) :=
  let available := List.filter (λ d, negb (is_occupied (Accelerator d) occupied)) candidates in
  let chosen := take (Z.to_nat count) (sort_by String.compare available) in
  if negb (List.length chosen =? Z.to_nat count)%nat then Err ResourceUnavailable else Ok chosen.

(** The ports [base, base + count) are free. *)
Definition ports_free (base count : Z) (occupied : list ResourceIdentity) : bool :=
  forallb (λ offset, negb (is_occupied (Port (base + offset)) occupied)) (seqZ_nat count).

(** [for base in bases { if free { return PortRange::new(base, count) } }] *)
Fixpoint first_free (bases : list Z) (count : Z) (occupied : list ResourceIdentity)
  : result PlacementError PortRange :=
  match bases with
  | [] => Err ResourceUnavailable
  | base :: bases =>
    if ports_free base count occupied then
      match PortRange_new base count with Ok r => Ok r | Err _ => Err ResourceUnavailable end
    else first_free bases count occupied
  end.

Definition available_ports (candidates : PortRange) (count : Z) (occupied : list ResourceIdentity)
  : result PlacementError PortRange :=
  if port_count candidates <? count then Err ResourceUnavailable
  else
    let final_base := PortRange_last candidates - count + 1 in
    first_free ((λ i, port_base candidates + i)
                  <$> seqZ_nat (final_base - port_base candidates + 1)) count occupied.

(** [map_err(|_| ClockUnavailable)] on new timestamps. *)
Definition stamped (created updated : Z) : result PlacementError EntityTimestamps :=
  match EntityTimestamps_new created updated with
  | Ok timestamps => Ok timestamps
  | Err _ => Err PlacementClockUnavailable
  end.

Section allocator.
Context {W : Type} `{!PlacementStore W, !PlacementIdentity W}.
Abbreviation A := (SE W PlacementError).

(** One lease per resource, in order. *)
Fixpoint lease_all (placement_id node_id : string) (observed_at : Z)
    (resources : list ResourceIdentity) : A (list ResourceLease) :=
  match resources with
  | [] => se_ret []
  | resource :: resources =>
    do! lease_id <- fresh_lease_id placement_id resource in
    do! timestamps <- se_lift (stamped observed_at observed_at) in
    do! leases <- lease_all placement_id node_id observed_at resources in
    se_ret ({| rl_lease_id := lease_id; rl_placement_id := placement_id; rl_node_id := node_id;
               rl_resource := resource; rl_state := LeaseReserved;
               rl_timestamps := timestamps |} :: leases)
  end.

Definition rdma_of (required : bool) (node : PlacementNodeResources)
    (occupied : list ResourceIdentity) : result PlacementError (option string) :=
  if required then
    let? interface := ok_or TopologyUnavailable (nr_rdma_interface node) in
    if is_occupied (RdmaInterface interface) occupied then Err ResourceUnavailable
    else Ok (Some interface)
  else Ok None.

(** The body of the loop over the tasks. *)
Definition allocate_task (request : PlacementRequest) (observed_at : Z) (task : PlacementTask)
    (node : PlacementNodeResources) : A (Placement * list ResourceLease) :=
  do! occupied <- occupied_resources (nr_node_id node) in
  do! device_ids <- se_lift (available_devices (nr_device_ids node) (pt_device_count task) occupied) in
  do! ports <- se_lift (available_ports (nr_ports node) (pt_port_count task) occupied) in
  do! rdma_interface <-
    se_lift (rdma_of (ir_rdma_required (gc_interconnect (rq_capacity request))) node occupied) in
  do! placement_id <- fresh_placement_id (pt_task_id task) in
  do! resources <- se_lift (placement_resources ports device_ids rdma_interface) in
  do! timestamps <- se_lift (stamped observed_at observed_at) in
  do! placement <- se_lift (
    match Placement_new placement_id (rq_placement_group_id request)
            {| pa_node_id := nr_node_id node;
               pa_runtime_installation_id := nr_runtime_installation_id node;
               pa_hardware_observation_id := nr_hardware_observation_id node;
               pa_hardware_boot_id := nr_boot_id node;
               pa_hardware_observed_at := nr_observed_at node;
               pa_task_id := pt_task_id task;
               pa_address := nr_address node;
               pa_resources := resources;
               pa_endpoint_ownership :=
                 if bool_decide (pt_task_id task = rq_endpoint_task_id request) then Owner
                 else Participant |}
            PlacementStaging None None timestamps with
    | Ok placement => Ok placement
    | Err _ => invalid_request "allocated placement is invalid"
    end) in
  do! leases <- lease_all placement_id (nr_node_id node) observed_at
                  (resources_for_placement placement) in
  se_ret (placement, leases).

(** The loop over the tasks with their nodes; [request.nodes()[node_index]] out
    of range would panic, and [bound_node_order] returns indices in range. *)
Fixpoint allocate_tasks (request : PlacementRequest) (observed_at : Z)
    (work : list (PlacementTask * nat)) : A (list Placement * list ResourceLease) :=
  match work with
  | [] => se_ret ([], [])
  | (task, node_index) :: work =>
    match rq_nodes request !! node_index with
    | None => se_fail (PlacementInvalidRequest "node index out of range")
    | Some node =>
      do! (placement, leases) <- allocate_task request observed_at task node in
      do! (placements, more) <- allocate_tasks request observed_at work in
      se_ret (placement :: placements, leases ++ more)
    end
  end.

(** [placement_by_task.get(task_id)]; a later entry would win. *)
Definition placement_of_task (placements : list Placement) (task_id : string) : option string :=
  pl_placement_id <$> List.find (λ p, bool_decide (pa_task_id (pl_assignment p) = task_id))
                        (reverse placements).

Fixpoint mapM_result {E X Y} (f : X → result E Y) (l : list X) : result E (list Y) :=
  match l with
  | [] => Ok []
  | x :: l => let? y := f x in let? ys := mapM_result f l in Ok (y :: ys)
  end.

Definition allocated_record (request : PlacementRequest) (observed_at : Z)
    (placements : list Placement) (leases : list ResourceLease)
  : result PlacementError PlacementRecord :=
  let? endpoint_placement_id :=
    ok_or (PlacementInvalidRequest "endpoint placement is unavailable")
      (placement_of_task placements (rq_endpoint_task_id request)) in
  let? startup_order :=
    mapM_result (mapM_result (λ task_id,
      ok_or (PlacementInvalidRequest "startup task has no placement")
        (placement_of_task placements task_id))) (rq_startup_order request) in
  let? timestamps := stamped observed_at observed_at in
  let? group :=
    match PlacementGroup_new (rq_placement_group_id request) (rq_service_id request)
            (rq_runtime request) (pl_placement_id <$> placements) endpoint_placement_id None
            (rq_capacity request) DesiredRunning GroupStaging None timestamps with
    | Ok group => Ok group
    | Err _ => invalid_request "allocated placement group is invalid"
    end in
  PlacementRecord_new group placements leases startup_order [].

Definition allocate (request : PlacementRequest) (maximum_age : Z) : A VersionedPlacementRecord :=
  do! observed_at <- clock_now in
  run! se_lift (admission_validate maximum_age (rq_nodes request) observed_at) in
  do! node_order <- se_lift (bound_node_order request) in
  do! (placements, leases) <-
    allocate_tasks request observed_at (zip (rq_tasks request) node_order) in
  do! record <- se_lift (allocated_record request observed_at placements leases) in
  store_create record.
End allocator.
