(* ===== verification/PlacementAllocation.v ===== *)
(** * What an allocation guarantees

    The chosen devices and ports are the lowest free ones of the node's envelope,
    and the record created for a request reserves, per task, free resources of
    one node each, with exactly one lease per resource. *)

From Stdlib Require Import String.
From S2P Require Import Prelude Values Text Ordering Placement PlacementContract.
From S2P Require Import PlacementTopology PlacementAllocator.

Lemma is_occupied_true r occupied : is_occupied r occupied = true ↔ r ∈ occupied.
Proof.
  unfold is_occupied. rewrite existsb_exists. split.
  - intros (x & Hx & ->%bool_decide_eq_true). by apply list_elem_of_In.
  - intros Hr. exists r. split; [by apply list_elem_of_In|by apply bool_decide_eq_true].
Qed.

Lemma is_occupied_false r occupied : is_occupied r occupied = false ↔ r ∉ occupied.
Proof. rewrite <- is_occupied_true. by destruct (is_occupied r occupied). Qed.

Lemma elem_of_seqZ_nat n x : x ∈ seqZ_nat n ↔ 0 ≤ x < n.
Proof.
  unfold seqZ_nat. rewrite list_elem_of_fmap. setoid_rewrite elem_of_seq. split.
  - intros (k & -> & ?). lia.
  - intros ?. exists (Z.to_nat x). lia.
Qed.

(** ** Devices *)

Definition free_device (candidates : list string) (occupied : list ResourceIdentity) (d : string)
  : Prop :=
  d ∈ candidates ∧ Accelerator d ∉ occupied.

Lemma free_devices_filter candidates occupied d :
  d ∈ List.filter (λ d, negb (is_occupied (Accelerator d) occupied)) candidates
  ↔ free_device candidates occupied d.
Proof.
  unfold free_device. rewrite list_elem_of_In, filter_In, <- list_elem_of_In, negb_true_iff.
  by rewrite is_occupied_false.
Qed.

Lemma NoDup_filter_bool {A} (f : A → bool) l : NoDup l → NoDup (List.filter f l).
Proof.
  induction 1 as [|x l Hx Hl IH]; simpl; [constructor|]. destruct (f x); [|done].
  constructor; [|done]. intros Hin. apply Hx. apply list_elem_of_In, filter_In in Hin as [Hin _].
  by apply list_elem_of_In.
Qed.

(** In a sorted list a prefix precedes the rest. *)
Lemma StronglySorted_app_le {A} (R : A → A → Prop) l1 l2 x y :
  StronglySorted R (l1 ++ l2) → x ∈ l1 → y ∈ l2 → R x y.
Proof.
  induction l1 as [|z l1 IH]; intros Hs Hx Hy; [by apply not_elem_of_nil in Hx|].
  inversion Hs as [|?? Hs' Hall]; subst. apply elem_of_cons in Hx as [->|Hx]; [|eauto].
  rewrite Forall_forall in Hall. apply Hall. set_solver.
Qed.

Lemma available_devices_Ok candidates count occupied ds :
  available_devices candidates count occupied = Ok ds →
  List.length ds = Z.to_nat count ∧
  (∀ d, d ∈ ds → free_device candidates occupied d) ∧
  (NoDup candidates → NoDup ds) ∧
  (∀ d e, d ∈ ds → free_device candidates occupied e → e ∉ ds → String.compare d e ≠ Gt).
Proof.
  unfold available_devices. set (free := List.filter _ candidates).
  set (sorted := sort_by String.compare free). intros H. inv_result H.
  apply negb_false_iff, Nat.eqb_eq in Hc. split; [done|].
  assert (∀ d, d ∈ sorted ↔ free_device candidates occupied d) as Hsorted.
  { intros d. unfold sorted. rewrite elem_of_sort_by. apply free_devices_filter. }
  split_and!.
  - intros d Hd. apply Hsorted. by eapply elem_of_take in Hd as (? & Hd & _); eapply list_elem_of_lookup_2.
  - intros Hnd. assert (NoDup sorted) as Hs.
    { unfold sorted. rewrite sort_by_Permutation. by apply NoDup_filter_bool. }
    rewrite <- (take_drop (Z.to_nat count) sorted) in Hs. by apply NoDup_app in Hs as [? _].
  - intros d e Hd He%Hsorted Hne.
    assert (StronglySorted (cmp_le String.compare) sorted) as Hs.
    { apply (sort_by_Sorted String.compare (λ _, True)). by apply Forall_true. }
    rewrite <- (take_drop (Z.to_nat count) sorted) in Hs, He.
    apply elem_of_app in He as [He|He]; [done|].
    by eapply (StronglySorted_app_le (cmp_le String.compare)).
Qed.

(** ** Ports *)

Definition range_wf (r : PortRange) : Prop :=
  1024 ≤ port_base r ∧ 1 ≤ port_count r ≤ 32 ∧ port_base r + port_count r ≤ 65536.

Lemma PortRange_last_wf r : range_wf r → PortRange_last r = port_base r + port_count r - 1.
Proof.
  unfold range_wf, PortRange_last. intros ?.
  change (2 ^ 32) with 4294967296. change (2 ^ 16) with 65536.
  rewrite (Z.mod_small _ 4294967296) by lia. rewrite Z.mod_small; lia.
Qed.

(** The ports [base, base + count) lie in the range [c] and are free. *)
Definition fits (c : PortRange) (base count : Z) (occupied : list ResourceIdentity) : Prop :=
  port_base c ≤ base ∧ base + count ≤ port_base c + port_count c ∧
  ∀ port, base ≤ port < base + count → Port port ∉ occupied.

Lemma ports_free_true base count occupied :
  ports_free base count occupied = true ↔
  ∀ port, base ≤ port < base + count → Port port ∉ occupied.
Proof.
  unfold ports_free. rewrite forallb_forall. split.
  - intros Hf port Hp. rewrite <- is_occupied_false, <- negb_true_iff.
    replace port with (base + (port - base)) by lia. apply Hf, list_elem_of_In, elem_of_seqZ_nat. lia.
  - intros Hf x Hx%list_elem_of_In%elem_of_seqZ_nat.
    rewrite negb_true_iff, is_occupied_false. apply Hf. lia.
Qed.

Lemma first_free_spec bases count occupied :
  (∀ b, b ∈ bases → 1024 ≤ b ∧ 1 ≤ count ≤ 32 ∧ b + count ≤ 65536) →
  match first_free bases count occupied with
  | Ok r => ∃ l1 l2, bases = l1 ++ port_base r :: l2 ∧ port_count r = count ∧
      ports_free (port_base r) count occupied = true ∧
      ∀ b, b ∈ l1 → ports_free b count occupied = false
  | Err e => e = ResourceUnavailable ∧ ∀ b, b ∈ bases → ports_free b count occupied = false
  end.
Proof.
  induction bases as [|b bases IH]; intros Hb; simpl; [set_solver|].
  destruct (ports_free b count occupied) eqn:Hf.
  - destruct (Hb b) as (? & ? & ?); [set_solver|]. unfold PortRange_new.
    replace (b <? 1024) with false by (symmetry; apply Z.ltb_ge; lia).
    replace (count =? 0) with false by (symmetry; apply Z.eqb_neq; lia).
    replace (32 <? count) with false by (symmetry; apply Z.ltb_ge; lia).
    replace (65536 <? b + count) with false by (symmetry; apply Z.ltb_ge; lia).
    simpl. exists [], bases. set_solver.
  - specialize (IH ltac:(set_solver)). destruct (first_free bases count occupied) as [r|e].
    + destruct IH as (l1 & l2 & -> & ? & ? & Hl). exists (b :: l1), l2. set_solver.
    + destruct IH as [-> Hall]. set_solver.
Qed.

(** The bases the loop tries, in order. *)
Lemma elem_of_bases c count b :
  b ∈ (λ i, port_base c + i) <$> seqZ_nat (port_base c + port_count c - count - port_base c + 1)
  ↔ port_base c ≤ b ∧ b + count ≤ port_base c + port_count c.
Proof.
  rewrite list_elem_of_fmap. setoid_rewrite elem_of_seqZ_nat. split.
  - intros (i & -> & ?). lia.
  - intros ?. exists (b - port_base c). lia.
Qed.

Lemma bases_ordered base n l1 x l2 b :
  (λ i, base + i) <$> seqZ_nat n = l1 ++ x :: l2 →
  base ≤ b < x → b ∈ l1.
Proof.
  intros E Hb. assert (l1 ++ x :: l2 = (λ i, base + Z.of_nat i) <$> seq 0 (Z.to_nat n)) as E'.
  { rewrite <- E. unfold seqZ_nat. by rewrite <- list_fmap_compose. }
  assert ((l1 ++ x :: l2) !! List.length l1 = Some x) as Hx
    by (by rewrite lookup_app_r, Nat.sub_diag).
  rewrite E', list_lookup_fmap in Hx.
  destruct (seq 0 (Z.to_nat n) !! List.length l1) as [k|] eqn:Hk; simplify_eq/=.
  apply lookup_seq in Hk as [-> Hk].
  apply list_elem_of_lookup. exists (Z.to_nat (b - base)).
  erewrite <- lookup_app_l by lia. rewrite E'.
  rewrite list_lookup_fmap, lookup_seq_lt by lia. simpl. f_equal. lia.
Qed.

(** The ports are those of the lowest base that fits; an error means that none
    fits. *)
Lemma available_ports_spec c count occupied :
  range_wf c → 1 ≤ count →
  match available_ports c count occupied with
  | Ok r => port_count r = count ∧ fits c (port_base r) count occupied ∧
      ∀ b, fits c b count occupied → port_base r ≤ b
  | Err e => e = ResourceUnavailable ∧ ∀ b, ¬ fits c b count occupied
  end.
Proof.
  intros Hwf Hcount. unfold available_ports. rewrite PortRange_last_wf by done.
  destruct (Z.ltb_spec (port_count c) count) as [Hlt|Hge].
  { split; [done|]. intros b (? & ? & _). unfold range_wf in Hwf. lia. }
  replace (port_base c + port_count c - 1 - count + 1 - port_base c + 1)
    with (port_base c + port_count c - count - port_base c + 1) by lia.
  pose proof (first_free_spec ((λ i, port_base c + i) <$>
    seqZ_nat (port_base c + port_count c - count - port_base c + 1)) count occupied) as Hf.
  specialize (Hf ltac:(intros b Hb%elem_of_bases; unfold range_wf in Hwf; lia)).
  destruct (first_free _ count occupied) as [r|e].
  - destruct Hf as (l1 & l2 & E & Hc & Hfree & Hl).
    assert (port_base r ∈ l1 ++ port_base r :: l2) as Hr by set_solver.
    rewrite <- E in Hr. apply elem_of_bases in Hr as [? ?].
    split; [done|]. split; [split_and!; [lia..|by apply ports_free_true]|].
    intros b (? & ? & Hb). destruct (Z.le_gt_cases (port_base r) b) as [|Hgt]; [done|].
    assert (b ∈ l1) as Hin by (eapply bases_ordered; [exact E|lia]).
    apply Hl in Hin. apply ports_free_true in Hb. congruence.
  - destruct Hf as [-> Hall]. split; [done|]. intros b (? & ? & Hb).
    apply ports_free_true in Hb. rewrite Hall in Hb; [done|]. apply elem_of_bases. lia.
Qed.

Lemma available_devices_Err candidates count occupied e :
  available_devices candidates count occupied = Err e →
  e = ResourceUnavailable ∧
  ∀ ds, NoDup ds → (∀ d, d ∈ ds → free_device candidates occupied d) →
    (List.length ds < Z.to_nat count)%nat.
Proof.
  unfold available_devices. set (free := List.filter _ candidates). intros H. inv_result H.
  apply negb_true_iff, Nat.eqb_neq in Hc. split; [done|]. intros ds Hnd Hds.
  assert (List.length ds ≤ List.length free)%nat.
  { apply submseteq_length, NoDup_submseteq; [done|]. intros d Hd. by apply free_devices_filter, Hds. }
  rewrite length_take, sort_by_length in Hc. lia.
Qed.

(** from a node's envelope the allocator takes the lowest free
    resources: the range of the requested size with the lowest base that lies in
    the managed ports and has no occupied port, and the requested number of free
    devices, none of which comes after a free device that was not taken.  It
    reports an unavailable resource exactly when no such range exists or fewer
    devices are free than requested. *)
Theorem allocator_takes_lowest_free c ports candidates devices occupied :
  range_wf c → 1 ≤ ports →
  match available_ports c ports occupied with
  | Ok r => port_count r = ports ∧ fits c (port_base r) ports occupied ∧
      ∀ b, fits c b ports occupied → port_base r ≤ b
  | Err e => e = ResourceUnavailable ∧ ∀ b, ¬ fits c b ports occupied
  end ∧
  match available_devices candidates devices occupied with
  | Ok ds => List.length ds = Z.to_nat devices ∧
      (∀ d, d ∈ ds → free_device candidates occupied d) ∧
      (∀ d e, d ∈ ds → free_device candidates occupied e → e ∉ ds → String.compare d e ≠ Gt)
  | Err e => e = ResourceUnavailable ∧
      ∀ ds, NoDup ds → (∀ d, d ∈ ds → free_device candidates occupied d) →
        (List.length ds < Z.to_nat devices)%nat
  end.
Proof.
  intros Hc Hp. split; [by apply available_ports_spec|].
  destruct (available_devices candidates devices occupied) as [ds|e] eqn:H.
  - by apply available_devices_Ok in H as (? & ? & _ & ?).
  - by apply available_devices_Err in H.
Qed.

Lemma allocator_takes_lowest_free_witness :
  let c := {| port_base := 30000; port_count := 8 |} in
  let occupied := [Port 30001; Port 30006; Accelerator "gpu0"] in
  available_ports c 3 occupied = Ok {| port_base := 30002; port_count := 3 |} ∧
  available_ports c 5 occupied = Err ResourceUnavailable ∧
  (∀ b, fits c b 3 occupied → 30002 ≤ b) ∧
  available_devices ["gpu2"; "gpu0"; "gpu1"]%string 1 occupied = Ok ["gpu1"%string].
Proof.
  intros c occupied. assert (range_wf c) as Hc by (unfold range_wf; simpl; lia).
  pose proof (allocator_takes_lowest_free c 3 ["gpu2"; "gpu0"; "gpu1"]%string 1 occupied Hc
    ltac:(lia)) as [(_ & _ & Hfirst) _].
  split; [reflexivity|]. split; [reflexivity|]. split; [exact Hfirst|reflexivity].
Defined.

(** ** Allocation *)

Definition lease_key (l : ResourceLease) : string * string * ResourceIdentity :=
  (rl_placement_id l, rl_node_id l, rl_resource l).

(** The leases a placement must have. *)
Definition reservations (p : Placement) : list (string * string * ResourceIdentity) :=
  (λ r, (pl_placement_id p, pa_node_id (pl_assignment p), r)) <$> resources_for_placement p.

(** The placement [p] realises [task] on [node], of which [occupied] is in use. *)
Record assigned (request : PlacementRequest) (task : PlacementTask) (node : PlacementNodeResources)
    (occupied : list ResourceIdentity) (p : Placement) : Prop := {
  as_group : pl_placement_group_id p = rq_placement_group_id request;
  as_task : pa_task_id (pl_assignment p) = pt_task_id task;
  as_node : pa_node_id (pl_assignment p) = nr_node_id node;
  as_owner : is_owner p = bool_decide (pt_task_id task = rq_endpoint_task_id request);
  as_devices : let ds := pr_device_ids (pa_resources (pl_assignment p)) in
    List.length ds = Z.to_nat (pt_device_count task) ∧ NoDup ds ∧ ds ⊆ nr_device_ids node;
  as_ports : let r := pr_ports (pa_resources (pl_assignment p)) in
    port_count r = pt_port_count task ∧ port_base (nr_ports node) ≤ port_base r ∧
    port_base r + port_count r ≤ port_base (nr_ports node) + port_count (nr_ports node);
  as_rdma : pr_rdma_interface (pa_resources (pl_assignment p)) =
    if ir_rdma_required (gc_interconnect (rq_capacity request)) then nr_rdma_interface node
    else None;
  as_free : ∀ r, r ∈ resources_for_placement p → r ∉ occupied;
}.

Definition node_wf (node : PlacementNodeResources) : Prop :=
  range_wf (nr_ports node) ∧ NoDup (nr_device_ids node).
Definition task_wf (task : PlacementTask) : Prop :=
  1 ≤ pt_device_count task ∧ 1 ≤ pt_port_count task.

Lemma rdma_of_Ok required node occupied i :
  rdma_of required node occupied = Ok i →
  i = (if required then nr_rdma_interface node else None) ∧
  ∀ name, i = Some name → RdmaInterface name ∉ occupied.
Proof.
  unfold rdma_of. intros H. inv_result H; [|done].
  match goal with E : ok_or _ _ = _ |- _ => apply ok_or_Ok in E as -> end.
  split; [done|]. intros ? [= <-]. by apply is_occupied_false.
Qed.

Lemma elem_of_resources p r :
  r ∈ resources_for_placement p ↔
  (∃ d, r = Accelerator d ∧ d ∈ pr_device_ids (pa_resources (pl_assignment p))) ∨
  (∃ port, r = Port port ∧
    port_base (pr_ports (pa_resources (pl_assignment p))) ≤ port
    < port_base (pr_ports (pa_resources (pl_assignment p)))
      + port_count (pr_ports (pa_resources (pl_assignment p)))) ∨
  (∃ i, r = RdmaInterface i ∧ pr_rdma_interface (pa_resources (pl_assignment p)) = Some i).
Proof.
  unfold resources_for_placement. rewrite !elem_of_app, !list_elem_of_fmap.
  setoid_rewrite elem_of_seqZ_nat. destruct (pr_rdma_interface _) as [i|].
  - rewrite list_elem_of_singleton. split.
    + intros [?|[(o & -> & ?)| ->]]; [naive_solver| |naive_solver].
      right; left. eexists. split; [done|]. lia.
    + intros [?|[(o & -> & ?)|(j & -> & [= <-])]]; [naive_solver| |naive_solver].
      right; left. exists (o - port_base (pr_ports (pa_resources (pl_assignment p)))).
      split; [f_equal; lia|lia].
  - split.
    + intros [?|[(o & -> & ?)|[]%not_elem_of_nil]]; [naive_solver|].
      right; left. eexists. split; [done|]. lia.
    + intros [?|[(o & -> & ?)|(j & -> & [=])]]; [naive_solver|].
      right; left. exists (o - port_base (pr_ports (pa_resources (pl_assignment p)))).
      split; [f_equal; lia|lia].
Qed.

Lemma placement_resources_Ok ports ds i r :
  placement_resources ports ds i = Ok r →
  r = {| pr_ports := ports; pr_device_ids := ds; pr_rdma_interface := i |}.
Proof.
  unfold placement_resources, PlacementResources_new. destruct (_ || _); naive_solver.
Qed.

Lemma position_Some {A} (f : A → bool) l i :
  position f l = Some i → ∃ x, l !! i = Some x ∧ f x = true.
Proof.
  revert i. induction l as [|y l IH]; intros i; simpl; [done|].
  destruct (f y) eqn:Hy; [intros [= <-]; eauto|].
  destruct (position f l) as [k|]; intros [= <-]. by apply IH.
Qed.

Lemma swapped_Permutation n i j :
  (i < n)%nat → (j < n)%nat → swapped n i j ≡ₚ seq 0 n.
Proof.
  intros Hi Hj. unfold swapped. apply NoDup_Permutation.
  - apply NoDup_fmap_2_strong; [|apply NoDup_seq]. intros a b _ _ E. cbv beta in E.
    destruct (Nat.eqb_spec a i), (Nat.eqb_spec b i), (Nat.eqb_spec a j), (Nat.eqb_spec b j); lia.
  - apply NoDup_seq.
  - intros x. rewrite list_elem_of_fmap. setoid_rewrite elem_of_seq. split.
    + intros (k & -> & ?). destruct (Nat.eqb_spec k i), (Nat.eqb_spec k j); lia.
    + intros ?. destruct (decide (x = j)) as [->|]; [exists i|destruct (decide (x = i)) as [->|];
        [exists j|exists x]]; (split; [|lia]).
      * by rewrite Nat.eqb_refl.
      * destruct (Nat.eqb_spec j i); [done|by rewrite Nat.eqb_refl].
      * by rewrite !(proj2 (Nat.eqb_neq _ _)).
Qed.

Lemma swapped_lookup n i j : (i < n)%nat → swapped n i j !! i = Some j.
Proof.
  intros Hi. unfold swapped. rewrite list_lookup_fmap, lookup_seq_lt by done. simpl.
  by rewrite Nat.eqb_refl.
Qed.

(** The request passed [PlacementRequest::new], and its tasks and nodes their own
    constructors. *)
Record accepted (request : PlacementRequest) : Prop := {
  ac_request : PlacementRequest_new (rq_placement_group_id request) (rq_service_id request)
    (rq_runtime request) (rq_capacity request) (rq_tasks request) (rq_nodes request)
    (rq_endpoint_task_id request) (rq_endpoint_node_id request) (rq_startup_order request)
    (rq_links request) = Ok request;
  ac_tasks : Forall task_wf (rq_tasks request);
  ac_nodes : Forall node_wf (rq_nodes request);
}.

Lemma accepted_length request :
  accepted request → List.length (rq_tasks request) = List.length (rq_nodes request).
Proof.
  intros [H _ _]. unfold PlacementRequest_new in H. apply result_bind_Ok in H as ([] & H & _).
  apply refuse_Ok in H. rewrite !orb_false_iff, negb_false_iff, Nat.eqb_eq in H. tauto.
Qed.

Section allocation.
Context {W : Type} `{!PlacementStore W, !PlacementIdentity W}.

Lemma lease_all_Ok placement_id node_id at_ rs (w : W) ls w' :
  lease_all placement_id node_id at_ rs w = (Ok ls, w') →
  lease_key <$> ls = (λ r, (placement_id, node_id, r)) <$> rs ∧
  Forall (λ l, rl_state l = LeaseReserved) ls.
Proof.
  revert w ls. induction rs as [|r rs IH]; intros w ls H; simpl in H; inv_se H; simplify_eq.
  { by split. }
  match goal with E : lease_all _ _ _ _ _ = _ |- _ => destruct (IH _ _ E) as [E1 E2] end.
  split; [rewrite !fmap_cons, E1; done|by constructor].
Qed.

Lemma allocate_task_Ok request at_ task node (w : W) p ls w' :
  node_wf node → task_wf task →
  allocate_task request at_ task node w = (Ok (p, ls), w') →
  ∃ occupied w1, occupied_resources (nr_node_id node) w = (Ok occupied, w1) ∧
    assigned request task node occupied p ∧
    lease_key <$> ls = reservations p ∧ Forall (λ l, rl_state l = LeaseReserved) ls.
Proof.
  intros [Hrange Hnd] [Hd Hp] H. unfold allocate_task in H. inv_se H. simplify_eq.
  rename a into occupied. exists occupied, w0. split; [done|].
  apply available_devices_Ok in Hr0 as (Hlen & Hfree & Hdup & _).
  pose proof (available_ports_spec (nr_ports node) (pt_port_count task) occupied Hrange Hp) as Hports.
  rewrite Hr1 in Hports. destruct Hports as (Hcount & (Hlo & Hhi & Hports) & _).
  apply rdma_of_Ok in Hr2 as [-> Hrdma].
  apply placement_resources_Ok in Hr4 as ->. simplify_eq/=.
  apply lease_all_Ok in Hr7 as [Hkeys Hstates]. split; [|done].
  split; simpl; try done.
  - unfold is_owner. simpl. by case_bool_decide.
  - split; [done|]. split; [by apply Hdup|]. intros d Hin. by apply Hfree.
  - split; [done|]. lia.
  - intros r [(d & -> & Hd2)|[(port & -> & Hpt)|(i & -> & Hi)]]%elem_of_resources; simpl in *.
    + by apply Hfree.
    + apply Hports. lia.
    + by apply Hrdma.
Qed.

(** One task is placed on its node, against what the store reported for it. *)
Definition placed (request : PlacementRequest) (work : PlacementTask * nat) (p : Placement)
  : Prop :=
  ∃ node occupied (w1 w2 : W), rq_nodes request !! work.2 = Some node ∧
    occupied_resources (nr_node_id node) w1 = (Ok occupied, w2) ∧
    assigned request work.1 node occupied p.

Lemma allocate_tasks_Ok request at_ work (w : W) ps ls w' :
  Forall node_wf (rq_nodes request) → Forall (λ x, task_wf x.1) work →
  allocate_tasks request at_ work w = (Ok (ps, ls), w') →
  Forall2 (placed request) work ps ∧ lease_key <$> ls = ps ≫= reservations ∧
  Forall (λ l, rl_state l = LeaseReserved) ls.
Proof.
  intros Hnodes. revert w ps ls. induction work as [|[task index] work IH]; intros w ps ls Hwork H.
  { simpl in H. inv_se H. simplify_eq. by split_and!. }
  simpl in H. destruct (rq_nodes request !! index) as [node|] eqn:Hnode; [|by inv_se H].
  inv_se H. simplify_eq. inversion Hwork as [|?? Ht Hts]; subst.
  match goal with E : allocate_tasks _ _ _ _ = _ |- _ => apply IH in E as (H2 & Hk & Hs); [|done] end.
  match goal with E : allocate_task _ _ _ _ _ = _ |- _ => apply allocate_task_Ok in E; [|by eapply Forall_lookup_1|done] end.
  destruct Hr as (occupied & w3 & Hocc & Has & Hkey & Hst). split_and!.
  - constructor; [|done]. unfold placed. eauto 10.
  - rewrite fmap_app, Hkey, Hk. done.
  - by apply Forall_app.
Qed.

Lemma bound_node_order_Ok request order :
  accepted request → bound_node_order request = Ok order →
  order ≡ₚ seq 0 (List.length (rq_nodes request)) ∧
  ∃ i j task node, rq_tasks request !! i = Some task ∧ order !! i = Some j ∧
    rq_nodes request !! j = Some node ∧ pt_task_id task = rq_endpoint_task_id request ∧
    nr_node_id node = rq_endpoint_node_id request.
Proof.
  intros Hac H. pose proof (accepted_length request Hac) as Hlen.
  unfold bound_node_order in H. inv_result H.
  match goal with E : ok_or _ _ = _ |- _ => apply ok_or_Ok, position_Some in E as (task & Hi & Ht) end.
  match goal with E : ok_or _ _ = _ |- _ => apply ok_or_Ok, position_Some in E as (node & Hj & Hn) end.
  apply bool_decide_eq_true in Ht, Hn.
  pose proof (lookup_lt_Some _ _ _ Hi). pose proof (lookup_lt_Some _ _ _ Hj).
  split; [apply swapped_Permutation; lia|].
  eexists _, _, node, task. rewrite swapped_lookup by lia. done.
Qed.

Lemma allocated_record_Ok request at_ ps ls record :
  allocated_record request at_ ps ls = Ok record →
  rec_placements record = ps ∧ rec_leases record = ls ∧
  NoDup ((λ l, (rl_node_id l, rl_resource l)) <$> ls) ∧
  ∃ p, List.filter is_owner ps = [p].
Proof.
  unfold allocated_record. intros H.
  apply result_bind_Ok in H as (? & _ & H). apply result_bind_Ok in H as (? & _ & H).
  apply result_bind_Ok in H as (? & _ & H). apply result_bind_Ok in H as (? & _ & H).
  apply PlacementRecord_new_Ok in H as [H ->].
  apply validate_record_Ok in H as (_ & Howner & _ & _ & Hleases & _).
  apply validate_owner_unique in Howner as (p & Hp & _). apply validate_leases_NoDup in Hleases.
  simpl. eauto.
Qed.

(** C9: a successful allocation of an accepted request creates one record
    in which every task is placed on a node of its own, with the requested number
    of that node's devices and ports (and its RDMA interface when the runtime
    needs it), none of which the store reported as occupied; the endpoint task,
    and no other, owns the endpoint and runs on the requested endpoint node; there
    is exactly one reserved lease per resource of each placement, and no two
    leases name the same resource of a node. *)
Theorem allocation_is_exclusive request maximum_age (w : W) v w' :
  accepted request → allocate request maximum_age w = (Ok v, w') →
  ∃ record w1 order, store_create record w1 = (Ok v, w') ∧
    order ≡ₚ seq 0 (List.length (rq_nodes request)) ∧
    Forall2 (placed request) (zip (rq_tasks request) order) (rec_placements record) ∧
    (∃ p, List.filter is_owner (rec_placements record) = [p] ∧
       pa_node_id (pl_assignment p) = rq_endpoint_node_id request) ∧
    lease_key <$> rec_leases record = rec_placements record ≫= reservations ∧
    Forall (λ l, rl_state l = LeaseReserved) (rec_leases record) ∧
    NoDup ((λ l, (rl_node_id l, rl_resource l)) <$> rec_leases record).
Proof.
  intros Hac H. unfold allocate in H. inv_se H.
  match goal with E : bound_node_order _ = _ |- _ => apply bound_node_order_Ok in E; [|done] end.
  destruct Hr1 as (Hperm & i & j & task & node & Hi & Hj & Hnode & Htask & Hid).
  apply allocate_tasks_Ok in Hr2; [|by apply ac_nodes|].
  2: { apply Forall_forall. intros [t k] Htk. apply elem_of_zip_l in Htk.
       pose proof (ac_tasks _ Hac) as Ht. rewrite Forall_forall in Ht. by apply Ht. }
  destruct Hr2 as (Hplaced & Hkeys & Hstates).
  apply allocated_record_Ok in Hr3 as (<- & <- & Hnd & p & Hp).
  eexists _, _, _. split; [exact H|]. split; [exact Hperm|]. split; [done|]. split; [|done].
  exists p. split; [done|].
  assert (zip (rq_tasks request) a1 !! i = Some (task, j)) as Hz
    by (apply lookup_zip_with_Some; eauto 10).
  destruct (Forall2_lookup_l _ _ _ _ _ Hplaced Hz) as (q & Hq & node' & occ & v1 & v2 & Hn & _ & Has).
  simpl in Hn, Has. simplify_eq.
  assert (q ∈ [p]) as ->%list_elem_of_singleton.
  { rewrite <- Hp. apply list_elem_of_In, filter_In.
    split; [by eapply list_elem_of_In, list_elem_of_lookup_2|].
    rewrite (as_owner _ _ _ _ _ Has). by apply bool_decide_eq_true. }
  by rewrite (as_node _ _ _ _ _ Has).
Qed.
End allocation.

(** ** Example: two tasks on two nodes *)

Module AllocationExample.
Import TopologyExample.

(** The world counts the identities handed out and keeps the created record. *)
Record World := { ids : Z; created : option PlacementRecord }.

#[global] Instance store : PlacementStore World := {|
  occupied_resources := λ _ w, (Ok [Accelerator "gpu0"; Port 30000], w);
  store_create := λ record w,
    (Ok {| vr_record := record; vr_revision := 1 |}, {| ids := ids w; created := Some record |});
  store_read := λ _ w, (Ok None, w);
  store_replace := λ _ _ w, (Err StoreUnavailable, w);
|}.
#[global] Instance identity : PlacementIdentity World := {|
  fresh_placement_id := λ task w,
    (Ok ("p-" +:+ task), {| ids := ids w; created := created w |});
  fresh_lease_id := λ _ _ w,
    (Ok ("l-" +:+ to_decimal (ids w)), {| ids := ids w + 1; created := created w |});
  clock_now := λ w, (Ok 500, w);
|}.

Definition runtime : RuntimeIdentity :=
  {| ri_candidate_id := "c"; ri_version := "1"; ri_target_id := "t"; ri_source := "s";
     ri_engine_distribution := Oci "r" "i" None None; ri_runtime_digest := "d";
     ri_manifest_digest := "m"; ri_execution_contract_digest := "x" |}.
Definition with_devices (n : PlacementNodeResources) : PlacementNodeResources :=
  {| nr_node_id := nr_node_id n; nr_runtime_installation_id := nr_runtime_installation_id n;
     nr_hardware_observation_id := nr_hardware_observation_id n; nr_boot_id := nr_boot_id n;
     nr_observed_at := nr_observed_at n; nr_address := nr_address n;
     nr_device_ids := ["gpu2"; "gpu0"; "gpu1"]%string; nr_ports := nr_ports n;
     nr_rdma_interface := None |}.
Definition task (id : string) : PlacementTask :=
  {| pt_task_id := id; pt_device_count := 1; pt_port_count := 2 |}.
Definition request : PlacementRequest :=
  {| rq_placement_group_id := "g"; rq_service_id := "s"; rq_runtime := runtime;
     rq_capacity := capacity; rq_tasks := [task "task-0"; task "task-1"];
     rq_nodes := with_devices <$> [node "a"; node "b"]; rq_endpoint_task_id := "task-0";
     rq_endpoint_node_id := "b"; rq_startup_order := [["task-1"%string]; ["task-0"%string]];
     rq_links := [link "a" "b" 1000] |}.
Definition w0 : World := {| ids := 0; created := None |}.
Definition outcome := allocate request 1000 w0.

Lemma request_accepted : accepted request.
Proof.
  split; [vm_compute; reflexivity| |].
  - repeat constructor; simpl; lia.
  - repeat constructor; simpl; try lia; set_solver.
Qed.
End AllocationExample.

Import AllocationExample.

Lemma allocation_is_exclusive_witness :
  ∃ v w' record, outcome = (Ok v, w') ∧ created w' = Some record ∧
    (∃ p, List.filter is_owner (rec_placements record) = [p] ∧
       pa_node_id (pl_assignment p) = "b"%string) ∧
    rl_resource <$> rec_leases record =
      [Accelerator "gpu1"; Port 30001; Port 30002; Accelerator "gpu1"; Port 30001; Port 30002] ∧
    NoDup ((λ l, (rl_node_id l, rl_resource l)) <$> rec_leases record).
Proof.
  destruct outcome as [[v|e] w'] eqn:E; [|vm_compute in E; discriminate].
  destruct (allocation_is_exclusive request 1000 w0 v w' request_accepted E)
    as (record & w1 & order & Hcreate & _ & _ & Howner & _ & _ & Hnd).
  exists v, w', record. split; [done|].
  assert (created w' = Some record) as Hrecord by (injection Hcreate as _ <-; reflexivity).
  split; [exact Hrecord|]. split; [exact Howner|]. split; [|exact Hnd].
  vm_compute in E. injection E as _ <-. injection Hrecord as <-. reflexivity.
Defined.
