(* ===== verification/PlacementLifecycle.v ===== *)
(** * Placement lifecycle

    [core/placement/src/li_placement_lifecycle.rs]: staging, start, stop,
    recovery, removal and reconciliation of a whole placement group against the
    store, the node executor, identities and the clock.

    The executor calls of one phase run concurrently in the code; here each call
    is atomic and a phase makes its calls in an order that the world chooses
    ([PhaseScheduler]).  A panicking task is an [ExecutionUnavailable] answer. *)

From Stdlib Require Import String.
From S2P Require Import Prelude Values Text Ordering Placement PlacementContract.
From S2P Require Import PlacementAllocator.

(** The order in which the tasks of a phase run: any permutation. *)
Class PhaseScheduler (W : Type) := phase_schedule : list nat → W → list nat.

Definition run_order `{!PhaseScheduler W} (indices : list nat) (w : W) : list nat :=
  let order := phase_schedule indices w in
  if bool_decide (order ≡ₚ indices) then order else indices.

Inductive PlacementEventKind :=
| KindStaged | KindRunning | KindStopped | KindRecovered | KindRemoved | KindFailed | KindObserved.

Definition change (record : VersionedPlacementRecord) (kind : PlacementEventKind)
  : PlacementChange :=
  let id := pg_placement_group_id (rec_group (vr_record record)) in
  {| ch_record := record;
     ch_event := match kind with
                 | KindStaged => EventStaged id
                 | KindRunning => EventRunning id
                 | KindStopped => EventStopped id
                 | KindRecovered => EventRecovered id
                 | KindRemoved => EventRemoved id
                 | KindFailed => EventFailed id
                 | KindObserved => EventObserved id
                 end |}.

(** ** Rebuilding records *)

Definition failure (code message : string) : result PlacementError FailureDescription :=
  match TechnicalName_parse code with
  | Err _ => Err InvalidTransition
  | Ok code =>
    match FailureDescription_new code message with
    | Ok failure => Ok failure
    | Err _ => Err InvalidTransition
    end
  end.

Definition placement_with_state (current : Placement) (state : PlacementState)
    (failure : option FailureDescription) (updated_at_ : Z) : result PlacementError Placement :=
  let? timestamps := stamped (created_at (pl_timestamps current)) updated_at_ in
  match Placement_new (pl_placement_id current) (pl_placement_group_id current)
          (pl_assignment current) state (pl_active_operation_id current) failure timestamps with
  | Ok placement => Ok placement
  | Err _ => Err InvalidTransition
  end.

Definition lease_with_state (current : ResourceLease) (state : ResourceLeaseState)
    (updated_at_ : Z) : result PlacementError ResourceLease :=
  let? timestamps := stamped (created_at (rl_timestamps current)) updated_at_ in
  Ok {| rl_lease_id := rl_lease_id current; rl_placement_id := rl_placement_id current;
        rl_node_id := rl_node_id current; rl_resource := rl_resource current;
        rl_state := state; rl_timestamps := timestamps |}.

Definition leases_with_uniform_state (leases : list ResourceLease) (state : ResourceLeaseState)
    (updated_at_ : Z) : result PlacementError (list ResourceLease) :=
  mapM_result (λ lease, lease_with_state lease state updated_at_) leases.

Definition leases_preserving_released (leases : list ResourceLease) (state : ResourceLeaseState)
    (updated_at_ : Z) : result PlacementError (list ResourceLease) :=
  mapM_result (λ lease, if bool_decide (rl_state lease = LeaseReleased) then Ok lease
                        else lease_with_state lease state updated_at_) leases.

Definition leases_with_states (leases : list ResourceLease)
    (states : gmap string ResourceLeaseState) (updated_at_ : Z)
  : result PlacementError (list ResourceLease) :=
  mapM_result (λ lease, lease_with_state lease
                 (default (rl_state lease) (states !! rl_placement_id lease)) updated_at_) leases.

Definition leases_for_action (leases : list ResourceLease) (succeeded : list string)
    (succeeded_state failed_state : ResourceLeaseState) (updated_at_ : Z)
  : result PlacementError (list ResourceLease) :=
  mapM_result (λ lease, lease_with_state lease
                 (if bool_decide (rl_placement_id lease ∈ succeeded) then succeeded_state
                  else failed_state) updated_at_) leases.

(** Both the failed and the unknown placements become failed. *)
Definition action_placements (placements : list Placement) (succeeded failed : list string)
    (success_state : PlacementState) (updated_at_ : Z) (failure : option FailureDescription)
  : result PlacementError (list Placement) :=
  mapM_result (λ placement,
    if bool_decide (pl_placement_id placement ∈ succeeded)
    then placement_with_state placement success_state None updated_at_
    else placement_with_state placement PlacementFailed failure updated_at_) placements.

Definition record_with (current : PlacementRecord) (placements : list Placement)
    (leases : list ResourceLease) (state : PlacementGroupState)
    (desired_state : ModelServiceDesiredState) (endpoint : option PlacementEndpoint)
    (failure : option FailureDescription) (updated_at_ : Z)
  : result PlacementError PlacementRecord :=
  let group := rec_group current in
  let? timestamps := stamped (created_at (pg_timestamps group)) updated_at_ in
  let? group :=
    match PlacementGroup_new (pg_placement_group_id group) (pg_service_id group)
            (pg_runtime group) (pg_placement_ids group) (pg_endpoint_placement_id group) endpoint
            (pg_capacity group) desired_state state failure timestamps with
    | Ok group => Ok group
    | Err _ => Err InvalidTransition
    end in
  PlacementRecord_new group placements leases (rec_startup_order current)
    (rec_launch_plan_identities current).

(** [by_identity.get(placement_id)]: the last placement of that identity. *)
Definition index_of (placements : list Placement) (placement_id : string) : option nat :=
  let is_it := λ p, bool_decide (pl_placement_id p = placement_id) in
  (λ i, (List.length placements - 1 - i)%nat) <$> position is_it (reverse placements).

Definition phase_indices (record : PlacementRecord) (backward : bool)
  : result PlacementError (list (list nat)) :=
  let turned {A} (l : list A) := if backward then reverse l else l in
  mapM_result (λ phase, mapM_result (λ id,
      ok_or (PlacementInvalidRequest "placement phase references an unknown placement")
        (index_of (rec_placements record) id)) (turned phase))
    (turned (rec_startup_order record)).

Definition lifecycle_endpoint (placement : Placement) (endpoint : option PlacementEndpoint)
    (capacity : PlacementGroupCapacity) : result PlacementError (option PlacementEndpoint) :=
  match pa_endpoint_ownership (pl_assignment placement), endpoint with
  | Owner, None => Err EndpointUnavailable
  | Owner, Some endpoint =>
    let ports := pr_ports (pa_resources (pl_assignment placement)) in
    if negb (bool_decide (pe_placement_id endpoint = pl_placement_id placement))
       || negb (bool_decide (pe_node_id endpoint = pa_node_id (pl_assignment placement)))
       || negb (bool_decide (endpoint_host (pe_address endpoint)
                             = pa_address (pl_assignment placement)))
       || (endpoint_port (pe_address endpoint) <? port_base ports)
       || (PortRange_last ports <? endpoint_port (pe_address endpoint))
       || (gc_max_active_requests capacity <? pe_max_active_requests endpoint)
       || (gc_max_context_tokens capacity <? pe_max_context_tokens endpoint)
       || negb (eh_healthy (pe_health endpoint))
    then Err EndpointUnavailable else Ok (Some endpoint)
  | Participant, None => Ok None
  | Participant, Some _ => Err EndpointUnavailable
  end.

Definition in_transition (state : PlacementGroupState) : bool :=
  match state with
  | GroupStaging | GroupStarting | GroupStopping | GroupRecovering | GroupRemoving => true
  | _ => false
  end.

(** One placement is observed as recorded. *)
Definition observation_matches (record : PlacementRecord) (placement : Placement)
    (observation : result PlacementError PlacementObservation) : bool :=
  match observation with
  | Err _ => false
  | Ok observation =>
    negb (po_protection_trip_latched observation)
    && bool_decide (po_state observation = pl_state placement)
    && bool_decide (po_endpoint observation =
         match pg_endpoint (rec_group record) with
         | Some e => if bool_decide (pe_placement_id e = pl_placement_id placement)
                     then Some e else None
         | None => None
         end)
  end.

Definition observations_match (current : PlacementRecord)
    (observations : list (result PlacementError PlacementObservation)) : bool :=
  (List.length observations =? List.length (rec_placements current))%nat
  && negb (in_transition (pg_state (rec_group current)))
  && forallb (λ po, observation_matches current po.1 po.2)
       (zip (rec_placements current) observations).

(** ** Replayed requests *)

Definition node_matches (request : PlacementRequest) (task : PlacementTask)
    (node : PlacementNodeResources) (placement : Placement) : bool :=
  let assignment := pl_assignment placement in
  let resources := pa_resources assignment in
  let ports := pr_ports resources in
  bool_decide (pa_task_id assignment = pt_task_id task)
  && bool_decide (pa_node_id assignment = nr_node_id node)
  && bool_decide (pa_runtime_installation_id assignment = nr_runtime_installation_id node)
  && bool_decide (pa_hardware_observation_id assignment = nr_hardware_observation_id node)
  && bool_decide (pa_hardware_boot_id assignment = nr_boot_id node)
  && (pa_hardware_observed_at assignment =? nr_observed_at node)
  && bool_decide (pa_address assignment = nr_address node)
  && bool_decide (pa_endpoint_ownership assignment =
       if bool_decide (pt_task_id task = rq_endpoint_task_id request) then Owner else Participant)
  && (List.length (pr_device_ids resources) =? Z.to_nat (pt_device_count task))%nat
  && forallb (λ d, bool_decide (d ∈ nr_device_ids node)) (pr_device_ids resources)
  && (port_count ports =? pt_port_count task)
  && negb (port_base ports <? port_base (nr_ports node))
  && negb (PortRange_last (nr_ports node) <? PortRange_last ports)
  && bool_decide (pr_rdma_interface resources =
       if ir_rdma_required (gc_interconnect (rq_capacity request)) then nr_rdma_interface node
       else None).

(** [request.nodes()[node_index]] is in range for an order of [bound_node_order]. *)
Definition placement_matches (request : PlacementRequest)
    (work : PlacementTask * nat * Placement) : bool :=
  match rq_nodes request !! work.1.2 with
  | Some node => node_matches request work.1.1 node work.2
  | None => false
  end.

Definition task_of_placement (record : PlacementRecord) (placement_id : string)
  : result PlacementError string :=
  ok_or StoreConflict
    ((λ p, pa_task_id (pl_assignment p)) <$>
     List.find (λ p, bool_decide (pl_placement_id p = placement_id)) (rec_placements record)).

Definition placement_record_matches_request (record : PlacementRecord)
    (request : PlacementRequest) : result PlacementError bool :=
  let group := rec_group record in
  if negb (bool_decide (pg_placement_group_id group = rq_placement_group_id request))
     || negb (bool_decide (pg_service_id group = rq_service_id request))
     || negb (bool_decide (pg_runtime group = rq_runtime request))
     || negb (bool_decide (pg_capacity group = rq_capacity request))
     || negb (List.length (rec_placements record) =? List.length (rq_tasks request))%nat
  then Ok false
  else
    let? node_order := bound_node_order request in
    if negb (forallb (placement_matches request)
               (zip (zip (rq_tasks request) node_order) (rec_placements record)))
    then Ok false
    else
      let? replayed := mapM_result (mapM_result (task_of_placement record))
                         (rec_startup_order record) in
      Ok (bool_decide (replayed = rq_startup_order request)).

(** ** Phases *)

Section lifecycle.
Context {W : Type} `{!PlacementStore W, !PlacementExecution W, !PlacementIdentity W,
  !PhaseScheduler W}.
Abbreviation L := (SE W PlacementError).

(** One call per index in the given order; an index is in range by
    construction of the phases. *)
Fixpoint run_calls {A} (call : Placement → W → result PlacementError A * W)
    (placements : list Placement) (order : list nat) (w : W)
  : list (nat * result PlacementError A) * W :=
  match order with
  | [] => ([], w)
  | index :: order =>
    let '(outcome, w) := match placements !! index with
                         | Some placement => call placement w
                         | None => (Err ExecutionUnavailable, w)
                         end in
    let '(outcomes, w) := run_calls call placements order w in
    ((index, outcome) :: outcomes, w)
  end.

(** Spawn, join, [sort_by_key(index)]. *)
Definition run_phase {A} (call : Placement → W → result PlacementError A * W)
    (placements : list Placement) (indices : list nat) (w : W)
  : list (nat * result PlacementError A) * W :=
  let '(outcomes, w) := run_calls call placements (run_order indices w) w in
  (sort_by (λ a b, Nat.compare a.1 b.1) outcomes, w).

Definition run_start_phase (placements : list Placement) (indices : list nat) (acknowledge : bool)
  : W → list (nat * result PlacementError (option PlacementEndpoint)) * W :=
  run_phase (λ placement, execute_start placement acknowledge) placements indices.

(** The observations come back in placement order. *)
Definition run_observation_phase (placements : list Placement) (w : W)
  : list (result PlacementError PlacementObservation) * W :=
  let '(outcomes, w) := run_phase execute_observe placements (seq 0 (List.length placements)) w in
  (outcomes.*2, w).

Inductive PlacementAction := ActionStop | ActionRemove.

Definition execute_action (action : PlacementAction) : Placement → W → result PlacementError () * W :=
  match action with ActionStop => execute_stop | ActionRemove => execute_remove end.

Definition already_done (action : PlacementAction) (record : PlacementRecord) (index : nat) : bool :=
  match action, rec_placements record !! index with
  | ActionRemove, Some placement => bool_decide (pl_state placement = PlacementRemoved)
  | _, _ => false
  end.

Definition ids_at (record : PlacementRecord) (indices : list nat) : list string :=
  omap (λ i, pl_placement_id <$> rec_placements record !! i) indices.

(** The phases of one action: the removed placements of a phase succeed at once,
    the others run together. *)
Fixpoint run_void_loop (record : PlacementRecord) (action : PlacementAction)
    (phases : list (list nat)) (succeeded failed : list string) (w : W)
  : list string * list string * W :=
  match phases with
  | [] => (succeeded, failed, w)
  | phase :: phases =>
    let done_ := List.filter (already_done action record) phase in
    let pending := List.filter (λ i, negb (already_done action record i)) phase in
    let '(outcomes, w) := run_phase (execute_action action) (rec_placements record) pending w in
    run_void_loop record action phases
      (succeeded ++ ids_at record done_
       ++ ids_at record (List.filter (λ o, is_ok o.2) outcomes).*1)
      (failed ++ ids_at record (List.filter (λ o, negb (is_ok o.2)) outcomes).*1) w
  end.

Definition run_void_phases (record : PlacementRecord) (action : PlacementAction)
    (backward : bool) (w : W) : list string * list string * W :=
  match phase_indices record backward with
  | Err _ => ([], pg_placement_ids (rec_group record), w)
  | Ok phases => run_void_loop record action phases [] [] w
  end.

(** ** Store steps *)

Definition required_record (placement_group_id : string) : L VersionedPlacementRecord :=
  do! current <- store_read placement_group_id in
  se_lift (ok_or GroupNotFound current).

(** An ambiguous commit is resolved by exact replay or one retry. *)
Definition replace_resolving_uncertainty (record : PlacementRecord) (expected_revision : Z)
  : L VersionedPlacementRecord := λ w,
  match store_replace record expected_revision w with
  | (Ok stored, w) => (Ok stored, w)
  | (Err first_error, w) =>
    match store_read (pg_placement_group_id (rec_group record)) w with
    | (Ok (Some stored), w) =>
      if bool_decide (vr_record stored = record) then (Ok stored, w)
      else if vr_revision stored =? expected_revision then
        match store_replace record expected_revision w with
        | (Ok stored, w) => (Ok stored, w)
        | (Err _, w) => (Err first_error, w)
        end
      else (Err first_error, w)
    | (_, w) => (Err first_error, w)
    end
  end.

(** ** Stop and removal *)

Definition set_states (state : PlacementState) (now : Z) (placements : list Placement)
  : result PlacementError (list Placement) :=
  mapM_result (λ placement, placement_with_state placement state None now) placements.

Definition failure_if (failed : list string) (code message : string)
  : result PlacementError (option FailureDescription) :=
  if bool_decide (failed = []) then Ok None
  else let? f := failure code message in Ok (Some f).

Definition stop_record (current : VersionedPlacementRecord)
    (desired_state : ModelServiceDesiredState) (success_event : PlacementEventKind)
  : L PlacementChange :=
  do! now <- clock_now in
  do! placements <- se_lift (set_states PlacementStopping now (rec_placements (vr_record current))) in
  do! leases <- se_lift (leases_with_uniform_state (rec_leases (vr_record current)) LeaseDraining now) in
  do! record <- se_lift (record_with (vr_record current) placements leases GroupStopping
                           desired_state None None now) in
  do! current <- store_replace record (vr_revision current) in
  λ w,
  let '(stopped, failed, w) := run_void_phases (vr_record current) ActionStop true w in
  (do! now <- clock_now in
   do! lifecycle_failure <-
     se_lift (failure_if failed "placement_stop_failed" "Placement-group stop failed") in
   do! placements <- se_lift (action_placements (rec_placements (vr_record current)) stopped failed
                                PlacementStopped now lifecycle_failure) in
   do! leases <- se_lift (leases_for_action (rec_leases (vr_record current)) stopped LeaseReserved
                            LeaseDraining now) in
   let complete := bool_decide (failed = []) in
   do! record <- se_lift (record_with (vr_record current) placements leases
                            (if complete then GroupStopped else GroupFailed) desired_state None
                            lifecycle_failure now) in
   do! stored <- replace_resolving_uncertainty record (vr_revision current) in
   se_ret (change stored (if complete then success_event else KindFailed))) w.

Definition any_released (record : PlacementRecord) : bool :=
  existsb (λ lease, bool_decide (rl_state lease = LeaseReleased)) (rec_leases record).

Definition lifecycle_stop (placement_group_id : string) : L PlacementChange :=
  do! current <- required_record placement_group_id in
  let state := pg_state (rec_group (vr_record current)) in
  if bool_decide (state = GroupStopped) then se_ret (change current KindStopped)
  else if bool_decide (state = GroupRemoved) then se_fail InvalidTransition
  else if any_released (vr_record current) then se_fail InvalidTransition
  else stop_record current DesiredStopped KindStopped.

Definition must_stop_first (state : PlacementGroupState) : bool :=
  match state with
  | GroupRunning | GroupStarting | GroupRecovering | GroupDegraded => true
  | _ => false
  end.

(** The removal proper, after the stop. *)
Definition remove_record (current : VersionedPlacementRecord) : L PlacementChange :=
  do! now <- clock_now in
  do! placements <- se_lift (mapM_result (λ placement,
      if bool_decide (pl_state placement = PlacementRemoved) then Ok placement
      else placement_with_state placement PlacementRemoving None now)
    (rec_placements (vr_record current))) in
  do! leases <- se_lift (leases_preserving_released (rec_leases (vr_record current)) LeaseDraining now) in
  do! record <- se_lift (record_with (vr_record current) placements leases GroupRemoving
                           DesiredRemoved None None now) in
  do! current <- store_replace record (vr_revision current) in
  λ w,
  let '(succeeded, failed, w) := run_void_phases (vr_record current) ActionRemove true w in
  (do! now <- clock_now in
   do! failure_ <-
     se_lift (failure_if failed "placement_remove_failed" "Placement-group removal failed") in
   do! placements <- se_lift (action_placements (rec_placements (vr_record current)) succeeded
                                failed PlacementRemoved now failure_) in
   do! leases <- se_lift (leases_for_action (rec_leases (vr_record current)) succeeded
                            LeaseReleased LeaseDraining now) in
   let complete := bool_decide (failed = []) in
   do! record <- se_lift (record_with (vr_record current) placements leases
                            (if complete then GroupRemoved else GroupFailed) DesiredRemoved None
                            failure_ now) in
   do! stored <- replace_resolving_uncertainty record (vr_revision current) in
   se_ret (change stored (if complete then KindRemoved else KindFailed))) w.

Definition lifecycle_remove (placement_group_id : string) : L PlacementChange :=
  do! current <- required_record placement_group_id in
  let state := pg_state (rec_group (vr_record current)) in
  if bool_decide (state = GroupRemoved) then se_ret (change current KindRemoved)
  else if must_stop_first state then
    do! stopped <- stop_record current DesiredRemoved KindStopped in
    if negb (bool_decide (pg_state (rec_group (vr_record (ch_record stopped))) = GroupStopped))
    then se_ret stopped
    else remove_record (ch_record stopped)
  else remove_record current.

(** ** Start and recovery *)

Definition start_failed (current : VersionedPlacementRecord) : L PlacementChange := λ w,
  let '(stopped, stop_failed, w) := run_void_phases (vr_record current) ActionStop true w in
  (do! now <- clock_now in
   do! lifecycle_failure <- se_lift (
     if bool_decide (stop_failed = [])
     then failure "placement_start_failed" "Placement-group start failed"
     else failure "placement_start_rollback_failed" "Placement-group start rollback failed") in
   do! placements <- se_lift (action_placements (rec_placements (vr_record current)) stopped
                                stop_failed PlacementStopped now (Some lifecycle_failure)) in
   do! leases <- se_lift (leases_for_action (rec_leases (vr_record current)) stopped LeaseReserved
                            LeaseDraining now) in
   do! record <- se_lift (record_with (vr_record current) placements leases GroupFailed
                            DesiredStopped None (Some lifecycle_failure) now) in
   do! stored <- replace_resolving_uncertainty record (vr_revision current) in
   se_ret (change stored KindFailed)) w.

(** The outcomes of a phase: the endpoint so far and whether a task failed. *)
Fixpoint fold_starts (record : PlacementRecord)
    (outcomes : list (nat * result PlacementError (option PlacementEndpoint)))
    (endpoint : option PlacementEndpoint) (failed : bool)
  : option PlacementEndpoint * bool :=
  match outcomes with
  | [] => (endpoint, failed)
  | (index, outcome) :: outcomes =>
    let validated :=
      let? value := outcome in
      match rec_placements record !! index with
      | Some placement => lifecycle_endpoint placement value (pg_capacity (rec_group record))
      | None => Err ExecutionUnavailable
      end in
    match validated with
    | Ok (Some value) => fold_starts record outcomes (Some value) failed
    | Ok None => fold_starts record outcomes endpoint failed
    | Err _ => fold_starts record outcomes endpoint true
    end
  end.

(** [None]: a phase failed. *)
Fixpoint start_phases (record : PlacementRecord) (acknowledge : bool) (phases : list (list nat))
    (endpoint : option PlacementEndpoint) (w : W) : option (option PlacementEndpoint) * W :=
  match phases with
  | [] => (Some endpoint, w)
  | phase :: phases =>
    let '(outcomes, w) := run_start_phase (rec_placements record) phase acknowledge w in
    let '(endpoint, failed) := fold_starts record outcomes endpoint false in
    if failed then (None, w) else start_phases record acknowledge phases endpoint w
  end.

(** The final commit of a start whose phases all succeeded. *)
Definition publish_running (current : VersionedPlacementRecord) (endpoint : PlacementEndpoint)
    (success_event : PlacementEventKind) : L PlacementChange := λ w,
  match clock_now w with
  | (Err _, w) => start_failed current w
  | (Ok now, w) =>
    (do! placements <- se_lift (set_states PlacementRunning now (rec_placements (vr_record current))) in
     do! leases <- se_lift (leases_with_uniform_state (rec_leases (vr_record current)) LeaseActive now) in
     match record_with (vr_record current) placements leases GroupRunning DesiredRunning
             (Some endpoint) None now with
     | Err _ => start_failed current
     | Ok record => λ w,
       match replace_resolving_uncertainty record (vr_revision current) w with
       | (Ok stored, w) => (Ok (change stored success_event), w)
       | (Err _, w) => start_failed current w
       end
     end) w
  end.

Definition start_record (current : VersionedPlacementRecord) (acknowledge : bool)
    (success_event : PlacementEventKind) : L PlacementChange :=
  do! now <- clock_now in
  do! placements <- se_lift (set_states PlacementStarting now (rec_placements (vr_record current))) in
  let state := match success_event with KindRecovered => GroupRecovering | _ => GroupStarting end in
  do! leases <- se_lift (leases_with_uniform_state (rec_leases (vr_record current)) LeaseReserved now) in
  do! record <- se_lift (record_with (vr_record current) placements leases state DesiredRunning
                           None None now) in
  do! current <- store_replace record (vr_revision current) in
  do! phases <- se_lift (phase_indices (vr_record current) false) in
  λ w,
  match start_phases (vr_record current) acknowledge phases None w with
  | (Some (Some endpoint), w) => publish_running current endpoint success_event w
  | (_, w) => start_failed current w
  end.

Definition lifecycle_start (placement_group_id : string) : L PlacementChange :=
  do! current <- required_record placement_group_id in
  match pg_state (rec_group (vr_record current)) with
  | GroupRunning => se_ret (change current KindRunning)
  | GroupStaged | GroupStopped => start_record current false KindRunning
  | _ => se_fail InvalidTransition
  end.

Definition lifecycle_recover (placement_group_id : string) (acknowledge : bool)
  : L PlacementChange :=
  do! current <- required_record placement_group_id in
  if negb (bool_decide (pg_state (rec_group (vr_record current)) = GroupFailed))
     || any_released (vr_record current)
  then se_fail InvalidTransition
  else
    do! stopped <- stop_record current DesiredRunning KindStopped in
    if negb (bool_decide (pg_state (rec_group (vr_record (ch_record stopped))) = GroupStopped))
    then se_ret stopped
    else start_record (ch_record stopped) acknowledge KindRecovered.

(** ** Staging *)

(** [for index in completed.iter().rev()]: the indices whose removal failed. *)
Fixpoint cleanup (placements : list Placement) (indices : list nat) (w : W) : list nat * W :=
  match indices with
  | [] => ([], w)
  | index :: indices =>
    let '(outcome, w) := match placements !! index with
                         | Some placement => execute_remove placement w
                         | None => (Err ExecutionUnavailable, w)
                         end in
    let '(failed, w) := cleanup placements indices w in
    (if is_ok outcome then failed else index :: failed, w)
  end.

(** The state of one placement after a failed staging. *)
Definition unstaged_placement (completed cleanup_failed : list nat)
    (lifecycle_failure : FailureDescription) (now : Z) (indexed : nat * Placement)
  : result PlacementError Placement :=
  let '(index, placement) := indexed in
  let state := if bool_decide (index ∈ cleanup_failed) then PlacementFailed
               else if bool_decide (index ∈ completed) then PlacementRemoved
               else PlacementFailed in
  placement_with_state placement state
    (if bool_decide (state = PlacementFailed) then Some lifecycle_failure else None) now.

Definition indexed {A} (l : list A) : list (nat * A) := zip (seq 0 (List.length l)) l.

Definition stage_failed (current : VersionedPlacementRecord) (failing_index : nat)
    (completed : list nat) : L PlacementChange := λ w,
  let completed := completed ++ [failing_index] in
  let placements := rec_placements (vr_record current) in
  let '(cleanup_failed, w) := cleanup placements (reverse completed) w in
  (do! now <- clock_now in
   do! lifecycle_failure <- se_lift (
     if bool_decide (cleanup_failed = [])
     then failure "placement_staging_failed" "Placement-group staging failed"
     else failure "placement_stage_rollback_failed" "Placement-group staging rollback failed") in
   do! placements_ <- se_lift (mapM_result
     (unstaged_placement completed cleanup_failed lifecycle_failure now) (indexed placements)) in
   let successful_cleanup :=
     (λ x, pl_placement_id x.2)
       <$> List.filter (λ x, negb (bool_decide (x.1 ∈ cleanup_failed))) (indexed placements) in
   do! leases <- se_lift (leases_for_action (rec_leases (vr_record current)) successful_cleanup
                            LeaseReleased LeaseDraining now) in
   do! record <- se_lift (record_with (vr_record current) placements_ leases GroupFailed
                            DesiredStopped None (Some lifecycle_failure) now) in
   do! current <- store_replace record (vr_revision current) in
   se_ret (change current KindFailed)) w.

(** The durable step after one placement was staged. *)
Definition stage_transition (current : VersionedPlacementRecord) (index : nat)
    (placement : Placement) (plan_identity : string) : L VersionedPlacementRecord :=
  do! now <- clock_now in
  do! staged <- se_lift (placement_with_state placement PlacementStaged None now) in
  do! record <- se_lift (record_with (vr_record current)
                           (<[index := staged]> (rec_placements (vr_record current)))
                           (rec_leases (vr_record current)) GroupStaging DesiredRunning None None now) in
  do! record <- se_lift (recording_launch_plan_identity record (pl_placement_id placement)
                           plan_identity) in
  λ w,
  match store_replace record (vr_revision current) w with
  | (Ok stored, w) => (Ok stored, w)
  | (Err error, w) =>
    (do! replay <- store_read (pg_placement_group_id (rec_group (vr_record current))) in
     match replay with
     | Some replay =>
       if bool_decide (launch_plan_identity (vr_record replay) (pl_placement_id placement)
                       = Some plan_identity)
       then se_ret replay else se_fail error
     | None => se_fail error
     end) w
  end.

Definition stage_finish (current : VersionedPlacementRecord) : L PlacementChange :=
  do! now <- clock_now in
  do! leases <- se_lift (leases_with_uniform_state (rec_leases (vr_record current)) LeaseReserved now) in
  do! record <- se_lift (record_with (vr_record current) (rec_placements (vr_record current)) leases
                           GroupStaged DesiredRunning None None now) in
  do! stored <- replace_resolving_uncertainty record (vr_revision current) in
  se_ret (change stored KindStaged).

(** The loop over the placements; [current.record().placements()[index]] is in
    range while the store returns records of the same group. *)
Fixpoint stage_loop (todo : list nat) (current : VersionedPlacementRecord) (completed : list nat)
  : L PlacementChange :=
  match todo with
  | [] => stage_finish current
  | index :: todo =>
    match rec_placements (vr_record current) !! index with
    | None => se_fail ExecutionUnavailable
    | Some placement => λ w,
      match execute_stage placement w with
      | (Err _, w) => stage_failed current index completed w
      | (Ok plan_identity, w) =>
        match stage_transition current index placement plan_identity w with
        | (Ok stored, w) => stage_loop todo stored (completed ++ [index]) w
        | (Err error, w) => let '(_, w) := execute_remove placement w in (Err error, w)
        end
      end
    end
  end.

Definition lifecycle_stage (maximum_age : Z) (request : PlacementRequest) : L PlacementChange :=
  do! existing <- store_read (rq_placement_group_id request) in
  match existing with
  | Some current =>
    if bool_decide (pg_state (rec_group (vr_record current)) = GroupStaged) then
      do! matches <- se_lift (placement_record_matches_request (vr_record current) request) in
      if matches then se_ret (change current KindStaged) else se_fail StoreConflict
    else se_fail StoreConflict
  | None =>
    do! current <- allocate request maximum_age in
    stage_loop (seq 0 (List.length (rec_placements (vr_record current)))) current []
  end.

(** ** Reconciliation *)

(** One placement and its observation: the rebuilt placement, the endpoint it
    publishes (if it replaces the one so far) and whether it runs. *)
Definition reconcile_one (capacity : PlacementGroupCapacity) (now : Z) (placement : Placement)
    (observation : result PlacementError PlacementObservation)
  : result PlacementError (Placement * option (option PlacementEndpoint) * bool) :=
  match observation with
  | Err _ =>
    let? f := failure "placement_unreachable" "Placement node is unreachable" in
    let? placement := placement_with_state placement PlacementUnreachable (Some f) now in
    Ok (placement, None, false)
  | Ok observation =>
    let tripped := po_protection_trip_latched observation in
    let state := if tripped then PlacementFailed else po_state observation in
    let running := negb tripped && bool_decide (po_state observation = PlacementRunning) in
    let valid := lifecycle_endpoint placement (po_endpoint observation) capacity in
    let published :=
      match valid with
      | Ok value => if is_owner placement && bool_decide (state = PlacementRunning)
                    then Some value else None
      | Err _ => None
      end in
    let? placement_failure :=
      if tripped || bool_decide (state = PlacementFailed)
      then let? f := failure "placement_observation_failed"
                       "Placement observation requires recovery" in Ok (Some f)
      else Ok None in
    let? placement := placement_with_state placement state placement_failure now in
    Ok (placement, published, running && is_ok valid)
  end.

Fixpoint reconcile_all (capacity : PlacementGroupCapacity) (now : Z)
    (work : list (Placement * result PlacementError PlacementObservation))
    (endpoint : option PlacementEndpoint) (all_running : bool)
  : result PlacementError (list Placement * option PlacementEndpoint * bool) :=
  match work with
  | [] => Ok ([], endpoint, all_running)
  | (placement, observation) :: work =>
    let? (placement, published, running) := reconcile_one capacity now placement observation in
    let? (placements, endpoint, all_running) :=
      reconcile_all capacity now work (default endpoint published) (all_running && running) in
    Ok (placement :: placements, endpoint, all_running)
  end.

(** The lease state of each placement; the map keeps the last of an identity. *)
Definition observed_lease_states (placements : list Placement) : gmap string ResourceLeaseState :=
  foldl (λ m p, <[pl_placement_id p :=
    if bool_decide (pl_state p = PlacementRunning) then LeaseActive else LeaseDraining]> m)
    ∅ placements.

Definition reconcile_record (current : VersionedPlacementRecord)
    (observations : list (result PlacementError PlacementObservation)) : L PlacementChange :=
  let record := vr_record current in
  do! now <- clock_now in
  do! (placements, endpoint, all_running) <-
    se_lift (reconcile_all (pg_capacity (rec_group record)) now
               (zip (rec_placements record) observations) None true) in
  let all_running := all_running && match endpoint with Some _ => true | None => false end in
  do! group_failure <- se_lift (
    if all_running then Ok None
    else let? f := failure "placement_group_incomplete"
                     "Placement group is not completely available" in Ok (Some f)) in
  do! leases <- se_lift (leases_with_states (rec_leases record) (observed_lease_states placements) now) in
  do! updated <- se_lift (record_with record placements leases
                            (if all_running then GroupRunning else GroupFailed)
                            (pg_desired_state (rec_group record)) endpoint group_failure now) in
  do! stored <- replace_resolving_uncertainty updated (vr_revision current) in
  se_ret (change stored KindObserved).

Definition lifecycle_reconcile (placement_group_id : string) : L PlacementChange :=
  do! current <- required_record placement_group_id in
  if bool_decide (pg_state (rec_group (vr_record current)) = GroupRemoved)
  then se_ret (change current KindObserved)
  else λ w,
    let '(observations, w) := run_observation_phase (rec_placements (vr_record current)) w in
    if observations_match (vr_record current) observations
    then (Ok (change current KindObserved), w)
    else reconcile_record current observations w.
End lifecycle.
