(* ===== verification/PlacementScenario.v ===== *)
(** * A concrete deployment

    A store that holds one record under its revision, a node executor that fails
    the calls it is told to, a scripted clock and a scheduler that runs each phase
    backwards: the world in which the lifecycle theorems are instantiated. *)

From Stdlib Require Import String.
From S2P Require Import Prelude Values Text Ordering Placement PlacementContract.
From S2P Require Import PlacementTopology PlacementAllocator PlacementAllocation PlacementLifecycle.

Module Scenario.

Record World := {
  stored : option VersionedPlacementRecord;
  ids : Z;
  readings : list Z;      (* the next clock readings, [latest] when there are none *)
  failing : list string;  (* the executor calls that fail *)
  engines : list string;  (* the placements whose engine runs *)
}.
Definition latest : Z := 2000.

Definition with_stored (w : World) (v : VersionedPlacementRecord) : World :=
  {| stored := Some v; ids := ids w; readings := readings w; failing := failing w;
     engines := engines w |}.
Definition with_engines (w : World) (l : list string) : World :=
  {| stored := stored w; ids := ids w; readings := readings w; failing := failing w;
     engines := l |}.

#[global] Instance store : PlacementStore World := {|
  occupied_resources := λ _ w, (Ok [Accelerator "gpu0"; Port 30000], w);
  store_create := λ record w,
    let v := {| vr_record := record; vr_revision := 1 |} in (Ok v, with_stored w v);
  store_read := λ id w,
    (Ok match stored w with
        | Some v => if bool_decide (pg_placement_group_id (rec_group (vr_record v)) = id)
                    then Some v else None
        | None => None
        end, w);
  store_replace := λ record revision w,
    match stored w with
    | Some v =>
      if vr_revision v =? revision then
        let v := {| vr_record := record; vr_revision := revision + 1 |} in (Ok v, with_stored w v)
      else (Err StoreConflict, w)
    | None => (Err StoreConflict, w)
    end;
|}.

#[global] Instance identity : PlacementIdentity World := {|
  fresh_placement_id := λ task w, (Ok ("p-" +:+ task), w);
  fresh_lease_id := λ _ _ w,
    (Ok ("l-" +:+ to_decimal (ids w)),
     {| stored := stored w; ids := ids w + 1; readings := readings w; failing := failing w;
        engines := engines w |});
  clock_now := λ w,
    match readings w with
    | [] => (Ok latest, w)
    | now :: later =>
      (Ok now, {| stored := stored w; ids := ids w; readings := later; failing := failing w;
                  engines := engines w |})
    end;
|}.

Definition endpoint (p : Placement) : PlacementEndpoint :=
  {| pe_placement_id := pl_placement_id p; pe_node_id := pa_node_id (pl_assignment p);
     pe_address := {| endpoint_scheme := SchemeHttp; endpoint_host := pa_address (pl_assignment p);
                      endpoint_port := port_base (pr_ports (pa_resources (pl_assignment p))) |};
     pe_credential_id := "key"; pe_ca_credential_id := None; pe_token_count := None;
     pe_max_active_requests := 4; pe_max_context_tokens := 4096;
     pe_health := {| eh_healthy := true; eh_memory_pressure := false;
                     eh_temperature_millicelsius := None; eh_prefix_keys := [] |} |}.

Definition answer {A} (w w' : World) (call : string) (p : Placement) (a : A)
  : result PlacementError A * World :=
  if bool_decide ((call +:+ " " +:+ pl_placement_id p) ∈ failing w)
  then (Err ExecutionUnavailable, w) else (Ok a, w').
Definition without (w : World) (p : Placement) : World :=
  with_engines w (List.filter (λ id, negb (bool_decide (id = pl_placement_id p))) (engines w)).

#[global] Instance execution : PlacementExecution World := {|
  execute_stage := λ p w, answer w w "stage" p "plan"%string;
  execute_start := λ p _ w,
    answer w (with_engines w (pl_placement_id p :: engines w)) "start" p
      (if is_owner p then Some (endpoint p) else None);
  execute_stop := λ p w, answer w (without w p) "stop" p ();
  execute_remove := λ p w, answer w (without w p) "remove" p ();
  execute_observe := λ p w,
    answer w w "observe" p
      {| po_state := if bool_decide (pl_placement_id p ∈ engines w) then PlacementRunning
                     else PlacementStopped;
         po_endpoint := None; po_protection_trip_latched := false |};
|}.

#[global] Instance schedule : PhaseScheduler World := λ indices _, reverse indices.

Definition empty_world : World :=
  {| stored := None; ids := 0; readings := [500; 510; 520; 530; 540]; failing := []; engines := [] |}.

(** The world after the two-node request of [AllocationExample] was staged. *)
Definition staged_world : World := (lifecycle_stage 1000 AllocationExample.request empty_world).2.
Definition script (clock : list Z) (calls : list string) (w : World) : World :=
  {| stored := stored w; ids := ids w; readings := clock; failing := calls; engines := engines w |}.

Definition state_of (w : World) : option PlacementGroupState :=
  (λ v, pg_state (rec_group (vr_record v))) <$> stored w.

Example staged : state_of staged_world = Some GroupStaged.
Proof. vm_compute. reflexivity. Qed.
Example started_world :
  (lifecycle_start "g" staged_world).2.(engines) = ["p-task-0"; "p-task-1"]%string.
Proof. vm_compute. reflexivity. Qed.
End Scenario.
