(* ===== verification/PlacementTrace.v ===== *)
(** * The order of durable records and executions

    To speak of the calls of a lifecycle operation, an arbitrary world is paired
    with the log of its store and executor calls; the operation runs unchanged
    over the pair.  [runs] is the partial-correctness judgment of a computation
    over the logged world, with one rule per construct; the operations are checked
    against it once. *)

From S2P Require Import Prelude Values Text Ordering Placement PlacementContract.
From S2P Require Import PlacementAllocator PlacementLifecycle.

Create HintDb silence.

(** ** The log *)

Inductive Event :=
| EvRead (id : string) (r : result PlacementError (option VersionedPlacementRecord))
| EvCreate (record : PlacementRecord) (r : result PlacementError VersionedPlacementRecord)
| EvReplace (record : PlacementRecord) (r : result PlacementError VersionedPlacementRecord)
| EvStage (placement : Placement) (r : result PlacementError string)
| EvStart (placement : Placement) (r : result PlacementError (option PlacementEndpoint))
| EvStop (placement : Placement) (r : result PlacementError ())
| EvRemove (placement : Placement) (r : result PlacementError ())
| EvObserve (placement : Placement) (r : result PlacementError PlacementObservation).

Section logging.
Context {W : Type}.
Definition LW : Type := W * list Event.

Definition log_call {A} (f : W → result PlacementError A * W)
    (e : result PlacementError A → Event) : LW → result PlacementError A * LW := λ w,
  let '(r, w0) := f w.1 in (r, (w0, w.2 ++ [e r])).

Definition quiet_call {A} (f : W → result PlacementError A * W)
  : LW → result PlacementError A * LW := λ w,
  let '(r, w0) := f w.1 in (r, (w0, w.2)).
End logging.
Arguments LW : clear implicits.

#[export] Instance logged_store {W} `{!PlacementStore W} : PlacementStore (LW W) := {|
  occupied_resources := λ id, quiet_call (occupied_resources id);
  store_create := λ record, log_call (store_create record) (EvCreate record);
  store_read := λ id, log_call (store_read id) (EvRead id);
  store_replace := λ record rev, log_call (store_replace record rev) (EvReplace record);
|}.
#[export] Instance logged_execution {W} `{!PlacementExecution W} : PlacementExecution (LW W) := {|
  execute_stage := λ p, log_call (execute_stage p) (EvStage p);
  execute_start := λ p ack, log_call (execute_start p ack) (EvStart p);
  execute_stop := λ p, log_call (execute_stop p) (EvStop p);
  execute_remove := λ p, log_call (execute_remove p) (EvRemove p);
  execute_observe := λ p, log_call (execute_observe p) (EvObserve p);
|}.
#[export] Instance logged_identity {W} `{!PlacementIdentity W} : PlacementIdentity (LW W) := {|
  fresh_placement_id := λ task, quiet_call (fresh_placement_id task);
  fresh_lease_id := λ p r, quiet_call (fresh_lease_id p r);
  clock_now := quiet_call clock_now;
|}.
#[export] Instance logged_schedule {W} `{!PhaseScheduler W} : PhaseScheduler (LW W) :=
  λ indices w, phase_schedule indices w.1.

(** ** The judgment

    [runs P c Q]: from a log with [P], the computation [c] ends, with outcome [r],
    in a log with [Q r]. *)

Definition runs {W A} (P : list Event → Prop) (c : SE (LW W) PlacementError A)
    (Q : result PlacementError A → list Event → Prop) : Prop :=
  ∀ (w : LW W) r w', P w.2 → c w = (r, w') → Q r w'.2.

Section rules.
Context {W : Type}.
Implicit Types P : list Event → Prop.

Lemma runs_bind {A B} P (c : SE (LW W) PlacementError A) (k : A → SE (LW W) PlacementError B)
    (M : A → list Event → Prop) Q :
  runs P c (λ r l, match r with Ok a => M a l | Err e => Q (Err e) l end) →
  (∀ a, runs (M a) (k a) Q) → runs P (se_bind c k) Q.
Proof.
  intros Hc Hk w r w' HP [(a & w1 & H1 & H2)|(e & H1 & ->)]%se_bind_inv.
  - eapply Hk; [|exact H2]. exact (Hc _ _ _ HP H1).
  - exact (Hc _ _ _ HP H1).
Qed.

Lemma runs_ret {A} P (a : A) Q : (∀ l, P l → Q (Ok a) l) → runs (W := W) P (se_ret a) Q.
Proof. intros H w r w' HP [= <- <-]. auto. Qed.

Lemma runs_fail {A} P e Q : (∀ l, P l → Q (Err e) l) → runs (W := W) (A := A) P (se_fail e) Q.
Proof. intros H w r w' HP [= <- <-]. auto. Qed.

Lemma runs_lift {A} P (x : result PlacementError A) Q :
  (∀ l, P l → Q x l) → runs (W := W) P (se_lift x) Q.
Proof. intros H w r w' HP [= <- <-]. auto. Qed.

Lemma runs_weaken {A} P P' (c : SE (LW W) PlacementError A) Q Q' :
  runs P c Q → (∀ l, P' l → P l) → (∀ r l, Q r l → Q' r l) → runs P' c Q'.
Proof. unfold runs. eauto. Qed.

Lemma runs_logged {A} P (f : W → result PlacementError A * W) e Q :
  (∀ l r, P l → Q r (l ++ [e r])) → runs P (log_call f e) Q.
Proof.
  intros H w r w' HP. unfold log_call. destruct (f w.1) as [r0 w0]. intros [= <- <-]. simpl. auto.
Qed.

(** A lifted result is known in what follows. *)
Lemma runs_bind_lift {A B} P (x : result PlacementError A) (k : A → SE (LW W) PlacementError B) Q :
  (∀ e l, x = Err e → P l → Q (Err e) l) → (∀ a, x = Ok a → runs P (k a) Q) →
  runs P (se_bind (se_lift x) k) Q.
Proof.
  intros He Hk w r w' HP [(a & w1 & [-> ->]%se_lift_Ok & H2)|(e & H1 & ->)]%se_bind_inv.
  - by eapply (Hk a).
  - injection H1 as -> ->. by apply He.
Qed.

(** An error that is handled. *)
Lemma runs_match {A B} P (c : SE (LW W) PlacementError A) N
    (k : A → SE (LW W) PlacementError B) (h : PlacementError → SE (LW W) PlacementError B) Q :
  runs P c N → (∀ a, runs (N (Ok a)) (k a) Q) → (∀ e, runs (N (Err e)) (h e) Q) →
  runs P (λ w, match c w with (Ok a, w) => k a w | (Err e, w) => h e w end) Q.
Proof.
  intros Hc Hk Hh w r w' HP. pose proof (Hc w) as Hcw.
  destruct (c w) as [[a|e] w1]; intros H; specialize (Hcw _ _ HP eq_refl).
  - by eapply Hk.
  - by eapply Hh.
Qed.

Lemma runs_quiet {A} P (f : W → result PlacementError A * W) Q :
  (∀ l r, P l → Q r l) → runs P (quiet_call f) Q.
Proof.
  intros H w r w' HP. unfold quiet_call. destruct (f w.1) as [r0 w0]. intros [= <- <-]. simpl. auto.
Qed.
End rules.

(** ** Phases keep what their calls keep *)

Section phases.
Context {W : Type} `{!PlacementStore W, !PlacementExecution W, !PlacementIdentity W,
  !PhaseScheduler W}.

Definition keeps {A} (P : list Event → Prop) (f : LW W → A * LW W) : Prop :=
  ∀ w : LW W, P w.2 → P (f w).2.2.

Lemma run_calls_keeps {A} P (call : Placement → LW W → result PlacementError A * LW W) ps order :
  (∀ p, p ∈ ps → keeps P (call p)) → keeps P (run_calls call ps order).
Proof.
  intros Hc. induction order as [|i order IH]; intros w HP; simpl; [done|].
  destruct (match ps !! i with Some p => call p w | None => (Err ExecutionUnavailable, w) end)
    as [r w1] eqn:E.
  assert (P w1.2) as H1.
  { destruct (ps !! i) as [p|] eqn:Hp; [|by injection E as _ <-].
    specialize (Hc p (list_elem_of_lookup_2 _ _ _ Hp) w HP). by rewrite E in Hc. }
  specialize (IH w1 H1). by destruct (run_calls call ps order w1) as [rs w2].
Qed.

Lemma run_phase_keeps {A} P (call : Placement → LW W → result PlacementError A * LW W) ps indices :
  (∀ p, p ∈ ps → keeps P (call p)) → keeps P (run_phase call ps indices).
Proof.
  intros Hc w HP. unfold run_phase.
  pose proof (run_calls_keeps P call ps (run_order indices w) Hc w HP) as H.
  by destruct (run_calls _ _ _ _) as [rs w1].
Qed.

Lemma run_void_loop_keeps P record action phases s f :
  (∀ p, p ∈ rec_placements record → keeps P (execute_action action p)) →
  keeps P (run_void_loop record action phases s f).
Proof.
  intros Hc. revert s f. induction phases as [|phase phases IH]; intros s f w HP; simpl; [done|].
  match goal with |- context [run_phase ?c ?ps ?p w] =>
    pose proof (run_phase_keeps P c ps p Hc w HP) as H; destruct (run_phase c ps p w) as [rs w1] end.
  by apply IH.
Qed.

Lemma run_void_phases_keeps P record action b :
  (∀ p, p ∈ rec_placements record → keeps P (execute_action action p)) →
  keeps P (run_void_phases record action b).
Proof.
  intros Hc w HP. unfold run_void_phases. destruct (phase_indices record b) as [phases|]; [|done].
  by apply run_void_loop_keeps.
Qed.

Lemma start_phases_keeps P record ack phases endpoint :
  (∀ p, p ∈ rec_placements record → keeps P (execute_start p ack)) →
  keeps P (start_phases record ack phases endpoint).
Proof.
  intros Hc. revert endpoint. induction phases as [|phase phases IH]; intros endpoint w HP; simpl; [done|].
  unfold run_start_phase. match goal with |- context [run_phase ?c ?ps ?p w] =>
    pose proof (run_phase_keeps P c ps p Hc w HP) as H; destruct (run_phase c ps p w) as [rs w1] end.
  destruct (fold_starts record rs endpoint false) as [e []]; [done|]. by apply IH.
Qed.

Lemma run_observation_keeps P ps :
  (∀ p, p ∈ ps → keeps P (execute_observe p)) → keeps P (run_observation_phase ps).
Proof.
  intros Hc w HP. unfold run_observation_phase.
  match goal with |- context [run_phase ?c ?ps ?p w] =>
    pose proof (run_phase_keeps P c ps p Hc w HP) as H; destruct (run_phase c ps p w) as [rs w1] end.
  done.
Qed.

Lemma cleanup_keeps P ps indices :
  (∀ p, p ∈ ps → keeps P (execute_remove p)) → keeps P (cleanup ps indices).
Proof.
  intros Hc. induction indices as [|i indices IH]; intros w HP; cbn [cleanup]; [done|].
  destruct (match ps !! i with Some p => execute_remove p w | None => (Err ExecutionUnavailable, w) end)
    as [r w1] eqn:E.
  assert (P w1.2) as H1.
  { destruct (ps !! i) as [p|] eqn:Hp; [|by injection E as _ <-].
    specialize (Hc p (list_elem_of_lookup_2 _ _ _ Hp) w HP). by rewrite E in Hc. }
  specialize (IH w1 H1). by destruct (cleanup ps indices w1) as [rs w2].
Qed.

Lemma keeps_logged {A} P (f : W → result PlacementError A * W) e :
  (∀ l r, P l → P (l ++ [e r])) → keeps P (log_call f e).
Proof. intros H w HP. unfold log_call. destruct (f w.1). simpl. auto. Qed.

(** A continuation after the phases of an action. *)
Lemma runs_void {B} P record action b (k : list string → list string → SE (LW W) PlacementError B)
    Q :
  (∀ p, p ∈ rec_placements record → keeps P (execute_action action p)) →
  (∀ s f, runs P (k s f) Q) →
  runs P (λ w, let '(s, f, w) := run_void_phases record action b w in k s f w) Q.
Proof.
  intros Hc Hk w r w' HP. pose proof (run_void_phases_keeps P record action b Hc w HP) as H.
  destruct (run_void_phases record action b w) as [[s f] w1]. by apply Hk.
Qed.

(** An ambiguous commit, seen as commits. *)
Lemma runs_resolving record rev P (Q : result PlacementError VersionedPlacementRecord → list Event → Prop) :
  (∀ l r w0 w1, P l → store_replace record rev w0 = (r, w1) →
     match r with Ok v => Q (Ok v) (l ++ [EvReplace record r])
     | Err _ => P (l ++ [EvReplace record r]) end) →
  (∀ l id r, P l → P (l ++ [EvRead id r])) →
  (∀ l e, P l → Q (Err e) l) →
  (∀ l v, P l → vr_record v = record → Q (Ok v) l) →
  runs P (replace_resolving_uncertainty (W := LW W) record rev) Q.
Proof.
  intros Hrep Hread Herr Hsame w r w' HP. unfold replace_resolving_uncertainty; simpl; unfold log_call.
  destruct (store_replace record rev w.1) as [[v|e] w1] eqn:E1.
  { intros [= <- <-]. simpl. by eapply (Hrep w.2 (Ok v)). }
  pose proof (Hrep w.2 (Err e) _ _ HP E1) as H1. simpl in H1 |- *.
  match goal with |- context [store_read ?id w1] => destruct (store_read id w1) as [rd w2] end.
  pose proof (Hread _ (pg_placement_group_id (rec_group record)) rd H1) as H2.
  destruct rd as [[stored|]|e2]; [|by intros [= <- <-]; apply Herr..].
  case_bool_decide as Hs; [by intros [= <- <-]; apply Hsame|].
  destruct (_ =? _); [|by intros [= <- <-]; apply Herr].
  simpl. destruct (store_replace record rev w2) as [[v|e3] w3] eqn:E3.
  - intros [= <- <-]. by eapply (Hrep _ (Ok v)).
  - intros [= <- <-]. apply Herr. by eapply (Hrep _ (Err e3)).
Qed.
End phases.

(** ** Silent computations write nothing to the log *)

Section silence.
Context {W : Type}.
Abbreviation M := (SE (LW W) PlacementError).

Definition silent {A} (c : M A) : Prop := ∀ w : LW W, (c w).2.2 = w.2.

Lemma silent_bind {A B} (c : M A) (k : A → M B) :
  silent c → (∀ a, silent (k a)) → silent (se_bind c k).
Proof.
  intros Hc Hk w. unfold se_bind. specialize (Hc w). destruct (c w) as [[a|e] w1]; simpl in *; [|done].
  by rewrite Hk.
Qed.

Lemma silent_ret {A} (a : A) : silent (se_ret a).
Proof. done. Qed.
Lemma silent_fail {A} e : silent (A := A) (se_fail e).
Proof. done. Qed.
Lemma silent_lift {A} (x : result PlacementError A) : silent (se_lift x).
Proof. done. Qed.
Lemma silent_quiet {A} (f : W → result PlacementError A * W) : silent (quiet_call f).
Proof. intros w. unfold quiet_call. by destruct (f w.1). Qed.

Lemma runs_silent {A B} P (c : M A) (k : A → M B) Q :
  silent c → (∀ l e, P l → Q (Err e) l) → (∀ a, runs P (k a) Q) → runs P (se_bind c k) Q.
Proof.
  intros Hc He Hk. apply (runs_bind _ _ _ (λ _, P)); [|done].
  intros w r w' HP E. specialize (Hc w). rewrite E in Hc. simpl in Hc. rewrite Hc.
  destruct r; auto.
Qed.
End silence.

#[export] Hint Resolve silent_bind silent_ret silent_fail silent_lift silent_quiet : silence.

Section silent_allocation.
Context {W : Type} `{!PlacementStore W, !PlacementIdentity W}.

Lemma silent_occupied node_id : silent (W := W) (occupied_resources node_id).
Proof. apply silent_quiet. Qed.
Lemma silent_placement_id task_id : silent (W := W) (fresh_placement_id task_id).
Proof. apply silent_quiet. Qed.
Lemma silent_lease_id placement_id r : silent (W := W) (fresh_lease_id placement_id r).
Proof. apply silent_quiet. Qed.
Lemma silent_clock : silent (W := W) clock_now.
Proof. apply silent_quiet. Qed.
Hint Resolve silent_occupied silent_placement_id silent_lease_id silent_clock : silence.

Lemma lease_all_silent placement_id node_id at_ rs :
  silent (W := W) (lease_all placement_id node_id at_ rs).
Proof. induction rs; cbn [lease_all]; auto 10 with silence. Qed.

Lemma allocate_task_silent request at_ task node :
  silent (W := W) (allocate_task request at_ task node).
Proof.
  unfold allocate_task. repeat (apply silent_bind; [auto using lease_all_silent with silence|intros ?]).
  apply silent_ret.
Qed.

Lemma allocate_tasks_silent request at_ work :
  silent (W := W) (allocate_tasks request at_ work).
Proof.
  induction work as [|[task i] work IH]; cbn [allocate_tasks]; [apply silent_ret|].
  destruct (rq_nodes request !! i) as [node|]; [|apply silent_fail].
  apply silent_bind; [apply allocate_task_silent|intros [p ls]].
  apply silent_bind; [done|intros [ps more]]. apply silent_ret.
Qed.
End silent_allocation.

(** ** The events of a phase *)

Section events.
Context {W : Type} `{!PhaseScheduler W}.
Context {A : Type} (f : Placement → W → result PlacementError A * W)
  (ev : Placement → result PlacementError A → Event).

Definition calls_events (ps : list Placement) (outcomes : list (nat * result PlacementError A))
  : list Event := omap (λ o, (λ p, ev p o.2) <$> ps !! o.1) outcomes.

Lemma run_calls_events ps order (w : LW W) outcomes w' :
  run_calls (λ p, log_call (f p) (ev p)) ps order w = (outcomes, w') →
  outcomes.*1 = order ∧ w'.2 = w.2 ++ calls_events ps outcomes.
Proof.
  revert w outcomes. induction order as [|i order IH]; intros w outcomes H; simpl in H.
  { injection H as <- <-. split; [done|]. by rewrite app_nil_r. }
  destruct (match ps !! i with Some p => log_call (f p) (ev p) w
            | None => (Err ExecutionUnavailable, w) end) as [r w1] eqn:E.
  destruct (run_calls _ ps order w1) as [rs w2] eqn:E2. injection H as <- <-.
  apply IH in E2 as [E2 E3]. split; [csimpl; by rewrite E2|].
  unfold calls_events in *. rewrite E3. simpl. destruct (ps !! i) as [p|]; simpl.
  - unfold log_call in E. destruct (f p w.1). injection E as <- <-. simpl. by rewrite <- app_assoc.
  - by injection E as <- <-.
Qed.

Lemma run_order_Permutation indices (w : LW W) : run_order indices w ≡ₚ indices.
Proof. unfold run_order. by case_bool_decide. Qed.

(** The outcomes in index order are those of the calls in the order they ran. *)
Lemma run_phase_events ps indices (w : LW W) outcomes w' :
  run_phase (λ p, log_call (f p) (ev p)) ps indices w = (outcomes, w') →
  ∃ ran, outcomes ≡ₚ ran ∧ ran.*1 ≡ₚ indices ∧ w'.2 = w.2 ++ calls_events ps ran.
Proof.
  unfold run_phase. destruct (run_calls _ ps _ w) as [ran w1] eqn:E. intros [= <- <-].
  apply run_calls_events in E as [E1 E2]. exists ran. split; [apply sort_by_Permutation|].
  split; [|done]. rewrite E1. apply run_order_Permutation.
Qed.

Lemma elem_of_calls_events ps outcomes e :
  e ∈ calls_events ps outcomes ↔
  ∃ i r p, (i, r) ∈ outcomes ∧ ps !! i = Some p ∧ e = ev p r.
Proof.
  unfold calls_events. rewrite list_elem_of_omap. split.
  - intros ([i r] & Hin & H). simpl in H. destruct (ps !! i) as [p|] eqn:Hp; simplify_eq/=. eauto 10.
  - intros (i & r & p & Hin & Hp & ->). exists (i, r). simpl. by rewrite Hp.
Qed.
End events.
