(* ===== verification/PlacementIntent.v ===== *)
(** * Durable intent precedes execution

    Every lifecycle operation records what it is about to do before the executor
    acts: the last group state the store acknowledged permits each executor
    call. *)

From S2P Require Import Prelude Values Text Ordering Placement PlacementContract.
From S2P Require Import PlacementAllocator PlacementLifecycle PlacementScenario PlacementTrace.

Inductive Operation :=
| OpStage (maximum_age : Z) (request : PlacementRequest)
| OpStart (placement_group_id : string)
| OpStop (placement_group_id : string)
| OpRecover (placement_group_id : string) (acknowledge : bool)
| OpRemove (placement_group_id : string)
| OpReconcile (placement_group_id : string).

Definition perform {W} `{!PlacementStore W, !PlacementExecution W, !PlacementIdentity W,
    !PhaseScheduler W} (op : Operation) : SE W PlacementError PlacementChange :=
  match op with
  | OpStage age request => lifecycle_stage age request
  | OpStart id => lifecycle_start id
  | OpStop id => lifecycle_stop id
  | OpRecover id acknowledge => lifecycle_recover id acknowledge
  | OpRemove id => lifecycle_remove id
  | OpReconcile id => lifecycle_reconcile id
  end.

(** The group state of the last record the store acknowledged. *)
Definition commit (d : option PlacementGroupState) (e : Event) : option PlacementGroupState :=
  match e with
  | EvCreate record (Ok _) | EvReplace record (Ok _) => Some (pg_state (rec_group record))
  | _ => d
  end.
Definition durable (l : list Event) : option PlacementGroupState := foldl commit None l.

(** The intents under which the executor may be called. *)
Definition intended (d : option PlacementGroupState) (e : Event) : Prop :=
  match e with
  | EvStage _ _ => d = Some GroupStaging
  | EvStart _ _ => d = Some GroupStarting ∨ d = Some GroupRecovering
  | EvStop _ _ => d = Some GroupStopping ∨ d = Some GroupStarting ∨ d = Some GroupRecovering
  | EvRemove _ _ => d = Some GroupRemoving ∨ d = Some GroupStaging
  | _ => True
  end.

Definition disciplined (l : list Event) : Prop :=
  ∀ l1 e l2, l = l1 ++ e :: l2 → intended (durable l1) e.

Lemma durable_snoc l e : durable (l ++ [e]) = commit (durable l) e.
Proof. unfold durable. by rewrite foldl_snoc. Qed.

Lemma disciplined_snoc l e : disciplined l → intended (durable l) e → disciplined (l ++ [e]).
Proof.
  intros Hl He l1 e' l2 E. destruct l2 as [|x l2 _] using rev_ind.
  - apply app_inj_tail in E as [-> ->]. done.
  - rewrite app_comm_cons, app_assoc in E. apply app_inj_tail in E as [-> _]. by eapply Hl.
Qed.

(** The log is disciplined and the durable state satisfies [D]. *)
Definition under (D : option PlacementGroupState → Prop) (l : list Event) : Prop :=
  disciplined l ∧ D (durable l).

Lemma under_snoc (D D' : option PlacementGroupState → Prop) l e :
  under D l → (∀ d, D d → intended d e ∧ D' (commit d e)) → under D' (l ++ [e]).
Proof.
  intros [Hl Hd] H. destruct (H _ Hd). split; [by apply disciplined_snoc|].
  by rewrite durable_snoc.
Qed.

Section walk.
Context {W : Type} `{!PlacementStore W, !PlacementExecution W, !PlacementIdentity W,
  !PhaseScheduler W}.
Abbreviation M := (SE (LW W) PlacementError).
Implicit Types D : option PlacementGroupState → Prop.

(** The computation keeps the discipline, from a state with [D]. *)
Definition safe {A} D (c : M A) : Prop := runs (under D) c (λ _, disciplined).

Lemma safe_bind {A B} D D' (c : M A) (k : A → M B) :
  runs (under D) c (λ r l, match r with Ok _ => under D' l | Err _ => disciplined l end) →
  (∀ a, safe D' (k a)) → safe D (se_bind c k).
Proof. intros Hc Hk. by apply (runs_bind _ _ _ (λ _, under D')). Qed.

Lemma safe_lift {A B} D (x : result PlacementError A) (k : A → M B) :
  (∀ a, x = Ok a → safe D (k a)) → safe D (se_bind (se_lift x) k).
Proof.
  intros Hk. apply runs_bind_lift; [|done]. by intros e l _ [? _].
Qed.

Lemma safe_ret {A} D (a : A) : safe D (se_ret a).
Proof. apply runs_ret. by intros l [? _]. Qed.
Lemma safe_fail {A} D e : safe (A := A) D (se_fail e).
Proof. apply runs_fail. by intros l [? _]. Qed.

Lemma safe_clock {B} D (k : Z → M B) : (∀ now, safe D (k now)) → safe D (se_bind clock_now k).
Proof.
  intros Hk. eapply safe_bind; [|exact Hk]. apply runs_quiet. intros l [now|e] Hl; [done|apply Hl].
Qed.

Lemma safe_read {B} D id (k : option VersionedPlacementRecord → M B) :
  (∀ v, safe D (k v)) → safe D (se_bind (store_read id) k).
Proof.
  intros Hk. eapply safe_bind; [|exact Hk]. apply runs_logged. intros l r Hl.
  assert (under D (l ++ [EvRead id r])) as H by (eapply under_snoc; [done|]; simpl; auto).
  destruct r; [done|apply H].
Qed.

Lemma safe_replace {B} D record rev (k : VersionedPlacementRecord → M B) :
  (∀ v, safe (λ d, d = Some (pg_state (rec_group record))) (k v)) →
  safe D (se_bind (store_replace record rev) k).
Proof.
  intros Hk. eapply safe_bind; [|exact Hk]. apply runs_logged. intros l r Hl.
  destruct r as [v|e]; [by eapply under_snoc|].
  assert (under D (l ++ [EvReplace record (Err e)])) as H by (by eapply under_snoc). apply H.
Qed.

(** An ambiguous commit: the outcome tells whether the state was recorded, and a
    failed one leaves the intent as it was. *)
Lemma resolving_keeps D record rev :
  runs (under D) (replace_resolving_uncertainty record rev)
    (λ r l, disciplined l ∧ (∀ e, r = Err e → under D l)).
Proof.
  apply runs_resolving.
  - intros l r w0 w1 Hl _. assert (disciplined (l ++ [EvReplace record r])) as H
      by (apply disciplined_snoc; [apply Hl|done]).
    destruct r as [v|e]; [done|by eapply under_snoc].
  - intros l id r Hl. by eapply under_snoc.
  - intros l e Hl. split; [apply Hl|done].
  - intros l v Hl _. split; [apply Hl|done].
Qed.

Lemma safe_resolving {B} D record rev (k : VersionedPlacementRecord → M B) :
  (∀ v, safe (λ _, True) (k v)) →
  safe D (se_bind (replace_resolving_uncertainty record rev) k).
Proof.
  intros Hk. eapply safe_bind; [|exact Hk].
  eapply runs_weaken; [apply resolving_keeps|done|]. intros [v|e] l [Hl _]; [by split|done].
Qed.

Lemma executes D {A} (f : W → result PlacementError A * W) e :
  (∀ d r, D d → intended d (e r) ∧ commit d (e r) = d) → keeps (under D) (log_call f e).
Proof.
  intros H. apply keeps_logged. intros l r Hl. eapply under_snoc; [done|].
  intros d Hd. destruct (H d r Hd) as [? ->]. done.
Qed.
End walk.

(** Walk through a computation, one rule per construct. *)
Ltac walk :=
  repeat first
  [ progress cbv zeta | apply safe_ret | apply safe_fail
  | apply safe_clock; intros ?
  | apply safe_read; intros ?
  | apply safe_replace; intros ?
  | apply safe_resolving; intros ?
  | apply safe_lift; intros ? ?
  | match goal with |- safe _ (if ?b then _ else _) => destruct b end
  | match goal with |- safe _ (match ?x with _ => _ end) => destruct x end ].

Lemma record_with_state current ps ls state desired endpoint f now record :
  record_with current ps ls state desired endpoint f now = Ok record →
  pg_state (rec_group record) = state ∧ rec_placements record = ps ∧ rec_leases record = ls ∧
  pg_endpoint (rec_group record) = endpoint ∧ rec_startup_order record = rec_startup_order current.
Proof.
  unfold record_with. intros (? & _ & H)%result_bind_Ok.
  apply result_bind_Ok in H as (group & Hg & H).
  unfold PlacementRecord_new in H. apply result_bind_Ok in H as (? & _ & [= <-]). simpl.
  destruct (PlacementGroup_new _ _ _ _ _ _ _ _ _ _ _) eqn:E; simplify_eq.
  unfold PlacementGroup_new in E. by repeat case_match; simplify_eq.
Qed.

Section operations.
Context {W : Type} `{!PlacementStore W, !PlacementExecution W, !PlacementIdentity W,
  !PhaseScheduler W}.
Abbreviation M := (SE (LW W) PlacementError).
Implicit Types D : option PlacementGroupState → Prop.

Lemma safe_weaken {A} D D' (c : M A) : safe D c → (∀ d, D' d → D d) → safe D' c.
Proof. intros Hc Hd. eapply runs_weaken; [exact Hc| |done]. intros l [? ?]. split; auto. Qed.

(** The phases of an action under an intent that permits it. *)
Definition permits (D : option PlacementGroupState → Prop) (action : PlacementAction) : Prop :=
  match action with
  | ActionStop => ∀ d, D d → d = Some GroupStopping ∨ d = Some GroupStarting ∨ d = Some GroupRecovering
  | ActionRemove => ∀ d, D d → d = Some GroupRemoving ∨ d = Some GroupStaging
  end.

Lemma safe_void {B} D record action b (k : list string → list string → M B) :
  permits D action → (∀ s f, safe D (k s f)) →
  safe D (λ w, let '(s, f, w) := run_void_phases record action b w in k s f w).
Proof.
  intros Hp Hk. apply runs_void; [|exact Hk]. intros p _.
  destruct action; apply executes; simpl; eauto.
Qed.

Lemma start_failed_safe D current :
  permits D ActionStop → safe D (start_failed current).
Proof. intros Hp. unfold start_failed. apply safe_void; [done|]. intros s f. walk. Qed.

Lemma stop_record_safe D current desired event : safe D (stop_record current desired event).
Proof.
  unfold stop_record. walk. apply safe_void; [|intros s f; walk].
  match goal with E : record_with _ _ _ _ _ _ _ _ = _ |- _ =>
    apply record_with_state in E as (-> & _) end. simpl. auto.
Qed.

Lemma remove_record_safe D current : safe D (remove_record current).
Proof.
  unfold remove_record. walk. apply safe_void; [|intros s f; walk].
  match goal with E : record_with _ _ _ _ _ _ _ _ = _ |- _ =>
    apply record_with_state in E as (-> & _) end. simpl. auto.
Qed.

(** A computation whose error is handled. *)
Lemma safe_match {A B} D D1 D2 (c : M A) (k : A → M B) (h : PlacementError → M B) :
  runs (under D) c (λ r, match r with Ok _ => under D1 | Err _ => under D2 end) →
  (∀ a, safe D1 (k a)) → (∀ e, safe D2 (h e)) →
  safe D (λ w, match c w with (Ok a, w) => k a w | (Err e, w) => h e w end).
Proof.
  intros Hc Hk Hh. by eapply runs_match.
Qed.

Lemma clock_keeps D : runs (W := W) (under D) clock_now (λ r, match r with Ok _ => under D | Err _ => under D end).
Proof. apply runs_quiet. by intros l []. Qed.

Lemma publish_running_safe D current endpoint event :
  permits D ActionStop → safe D (publish_running current endpoint event).
Proof.
  intros Hp. unfold publish_running. eapply safe_match; [apply clock_keeps| |].
  - intros now. walk; [|by apply start_failed_safe].
    eapply (safe_match _ (λ _, True) D).
    + eapply runs_weaken; [apply resolving_keeps|done|]. intros [v|e] l [Hl Hu]; [by split|eauto].
    + intros v. apply safe_ret.
    + intros _. by apply start_failed_safe.
  - intros _. by apply start_failed_safe.
Qed.

Lemma start_record_safe D current ack event : safe D (start_record current ack event).
Proof.
  unfold start_record. walk.
  match goal with E : record_with _ _ _ _ _ _ _ _ = _ |- _ =>
    apply record_with_state in E as (-> & _) end.
  set (D1 := λ d, d = _). assert (∀ d, D1 d → d = Some GroupStarting ∨ d = Some GroupRecovering) as HD.
  { unfold D1. destruct event; auto. }
  assert (permits D1 ActionStop) as Hstop by (intros d Hd%HD; tauto).
  intros w r w' HP.
  match goal with |- context [start_phases ?rec ?ack ?phases ?e w] =>
    pose proof (start_phases_keeps (under D1) rec ack phases e) as Hph;
    specialize (Hph ltac:(intros p _; apply executes; simpl; auto) w HP);
    destruct (start_phases rec ack phases e w) as [[[endpoint|]|] w1] end.
  - by apply publish_running_safe with (D := D1).
  - by apply start_failed_safe with (D := D1).
  - by apply start_failed_safe with (D := D1).
Qed.

Lemma required_record_safe {B} D id (k : VersionedPlacementRecord → M B) :
  (∀ v, safe D (k v)) → safe D (se_bind (required_record id) k).
Proof.
  intros Hk. eapply safe_bind; [|exact Hk].
  eapply (runs_bind _ _ _ (λ _, under D)).
  - apply runs_logged. intros l r Hl.
    assert (under D (l ++ [EvRead id r])) as H by (eapply under_snoc; [done|]; simpl; auto).
    destruct r; [done|apply H].
  - intros v. apply runs_lift. intros l Hl. destruct v; [done|apply Hl].
Qed.

(** A stop that reports its record, and what follows. *)
Lemma stop_then_safe {B} D current desired event (k : PlacementChange → M B) :
  (∀ c, safe (λ _, True) (k c)) → safe D (se_bind (stop_record current desired event) k).
Proof.
  intros Hk. eapply safe_bind; [|exact Hk].
  eapply runs_weaken; [apply (stop_record_safe D)|done|].
  intros [c|e] l Hl; [by split|done].
Qed.

Lemma reconcile_record_safe D current observations :
  safe D (reconcile_record current observations).
Proof. unfold reconcile_record. apply safe_clock. intros now. apply safe_lift. intros [[ps e] b] _. walk. Qed.

Lemma allocated_record_staging request at_ ps ls record :
  allocated_record request at_ ps ls = Ok record → pg_state (rec_group record) = GroupStaging.
Proof.
  unfold allocated_record. intros H.
  apply result_bind_Ok in H as (? & _ & H). apply result_bind_Ok in H as (? & _ & H).
  apply result_bind_Ok in H as (? & _ & H). apply result_bind_Ok in H as (group & Hg & H).
  apply PlacementRecord_new_Ok in H as [_ ->]. simpl.
  destruct (PlacementGroup_new _ _ _ _ _ _ _ _ _ _ _) eqn:E; simplify_eq.
  unfold PlacementGroup_new in E. by repeat case_match; simplify_eq.
Qed.

Lemma safe_silent {A B} D (c : M A) (k : A → M B) :
  silent c → (∀ a, safe D (k a)) → safe D (se_bind c k).
Proof. intros Hc Hk. apply runs_silent; [done| |done]. by intros l e [? _]. Qed.

Lemma allocate_safe {B} D request age (k : VersionedPlacementRecord → M B) :
  (∀ v, safe (λ d, d = Some GroupStaging) (k v)) → safe D (se_bind (allocate request age) k).
Proof.
  intros Hk. eapply safe_bind; [|exact Hk]. unfold allocate.
  apply runs_silent; [apply silent_quiet|by intros l e [? _]|]. intros at_.
  apply runs_silent; [apply silent_lift|by intros l e [? _]|]. intros _.
  apply runs_silent; [apply silent_lift|by intros l e [? _]|]. intros order.
  apply runs_silent; [apply allocate_tasks_silent|by intros l e [? _]|]. intros [ps ls].
  apply runs_bind_lift; [by intros e l _ [? _]|]. intros record Hrec%allocated_record_staging.
  apply runs_logged. intros l [v|e] Hl.
  - eapply under_snoc; [done|]. intros d _. simpl. by rewrite Hrec.
  - apply disciplined_snoc; [apply Hl|done].
Qed.

Abbreviation Staging := (λ d, d = Some GroupStaging).

Lemma stage_failed_safe current index completed :
  safe Staging (stage_failed current index completed).
Proof.
  intros w r w' HP. unfold stage_failed.
  match goal with |- context [cleanup ?ps ?indices w] =>
    pose proof (cleanup_keeps (under Staging) ps indices) as Hc;
    specialize (Hc ltac:(intros p _; apply executes; simpl; auto) w HP);
    destruct (cleanup ps indices w) as [failed w1] end.
  intros H. revert Hc H. refine ((_ : safe Staging _) w1 r w'). walk.
Qed.

Lemma recording_state record id plan record' :
  recording_launch_plan_identity record id plan = Ok record' →
  rec_group record' = rec_group record.
Proof.
  unfold recording_launch_plan_identity. intros H. repeat case_match; simplify_eq; [done|].
  by apply PlacementRecord_new_Ok in H as [_ ->].
Qed.

Lemma stage_transition_keeps current index placement plan :
  runs (under Staging) (stage_transition (W := LW W) current index placement plan)
    (λ _, under Staging).
Proof.
  unfold stage_transition. apply runs_silent; [apply silent_quiet|done|]. intros now.
  apply runs_bind_lift; [done|]. intros staged _.
  apply runs_bind_lift; [done|]. intros record (Hst & _)%record_with_state.
  apply runs_bind_lift; [done|]. intros record' Hgroup%recording_state.
  eapply (runs_match _ _ (λ _, under Staging)).
  - apply runs_logged. intros l [v|e] Hl; eapply under_snoc; [done| |done|done].
    intros d _. simpl. by rewrite Hgroup, Hst.
  - intros v. by apply runs_ret.
  - intros e. apply (runs_bind _ _ _ (λ _, under Staging)).
    + apply runs_logged. intros l r Hl.
      assert (under Staging (l ++ [EvRead (pg_placement_group_id (rec_group (vr_record current))) r]))
        by (by eapply under_snoc). by destruct r.
    + intros [replay|]; [case_bool_decide|]; first [by apply runs_ret|by apply runs_fail].
Qed.

Lemma stage_loop_safe todo current completed : safe Staging (stage_loop todo current completed).
Proof.
  revert current completed. induction todo as [|index todo IH]; intros current completed;
    cbn [stage_loop]; [unfold stage_finish; walk|].
  destruct (rec_placements (vr_record current) !! index) as [placement|]; [|apply safe_fail].
  eapply (safe_match _ Staging Staging).
  - apply runs_logged. intros l [plan|e] Hl; (eapply under_snoc; [exact Hl|by intros d Hd]).
  - intros plan. eapply (safe_match _ Staging Staging); [|done|].
    + eapply runs_weaken; [apply stage_transition_keeps|done|]. by intros [] l.
    + intros error w r w' HP. simpl. unfold log_call.
      destruct (execute_remove placement w.1) as [r1 w1]. intros [= <- <-]. simpl.
      apply disciplined_snoc; [apply HP|]. right. apply HP.
  - intros _. apply stage_failed_safe.
Qed.

#[local] Opaque stop_record start_record remove_record reconcile_record stage_loop.

Lemma perform_safe op : safe (λ _, True) (perform op).
Proof.
  destruct op; cbn [perform].
  - unfold lifecycle_stage. walk. apply allocate_safe. intros v. apply stage_loop_safe.
  - apply required_record_safe. intros v.
    destruct (pg_state _); first [apply safe_fail|apply safe_ret|apply start_record_safe].
  - apply required_record_safe. intros v. walk. apply stop_record_safe.
  - apply required_record_safe. intros v. walk. apply stop_then_safe. intros c. walk.
    apply start_record_safe.
  - apply required_record_safe. intros v. walk; [|apply remove_record_safe].
    apply stop_then_safe. intros c. walk. apply remove_record_safe.
  - apply required_record_safe. intros v. walk.
    intros w r w' HP.
    pose proof (run_observation_keeps (under (λ _, True)) (rec_placements (vr_record v))
      ltac:(intros p _; by apply executes) w HP) as Ho.
    destruct (run_observation_phase _ w) as [observations w1].
    destruct (observations_match _ _); [intros [= <- <-]; apply Ho|].
    intros H. by eapply reconcile_record_safe.
Qed.

(** C19: whatever the store, the executor, the clock and the scheduler
    answer, every lifecycle operation records its intent before it acts: a
    placement is staged only while the last record the store acknowledged is
    staging, started only while it is starting or recovering, stopped only while
    it is stopping, starting or recovering, and removed only while it is removing
    or staging. *)
Theorem execution_follows_intent op (w : W) r w' l1 e l2 :
  perform op (w, []) = (r, w') → w'.2 = l1 ++ e :: l2 → intended (durable l1) e.
Proof.
  intros H E. assert (disciplined w'.2) as Hd; [|by eapply Hd].
  apply (perform_safe op (w, []) r w'); [|done]. split; [|done].
  intros l l' e' El. by destruct l.
Qed.
End operations.

(** The group of the scenario starts, a node at a time. *)
Lemma execution_follows_intent_witness :
  ∃ l1 p r l2, (perform (OpStart "g"%string) (Scenario.staged_world, [])).2.2 = l1 ++ EvStart p r :: l2 ∧
    (durable l1 = Some GroupStarting ∨ durable l1 = Some GroupRecovering).
Proof.
  destruct (perform (OpStart "g"%string) (Scenario.staged_world, [])) as [r w'] eqn:E.
  assert (∃ p r0, (λ out : _ * LW _, out.2.2 !! 2%nat) (r, w') = Some (EvStart p r0)) as (p & r0 & Hp).
  { rewrite <- E. vm_compute. eauto. }
  exists (take 2 w'.2), p, r0, (drop 3 w'.2).
  assert (w'.2 = take 2 w'.2 ++ EvStart p r0 :: drop 3 w'.2) as Hl by (by rewrite take_drop_middle).
  split; [exact Hl|]. exact (execution_follows_intent _ _ _ _ _ _ _ E Hl).
Defined.
