(* ===== verification/PlacementOwnership.v ===== *)
(** * Ownership: allocations are immutable and releases are earned

    After its creation a placement group is only moved through its states: every
    record an operation writes has the allocation it read, and a lease is written
    as released only for a placement whose removal was confirmed. *)

From S2P Require Import Prelude Values Text Ordering Placement PlacementContract.
From S2P Require Import PlacementAllocator PlacementLifecycle PlacementTrace PlacementIntent PlacementScenario.

(** ** Allocations *)

Definition group_identity (g : PlacementGroup) :=
  (pg_placement_group_id g, pg_service_id g, pg_runtime g, pg_placement_ids g,
   pg_endpoint_placement_id g, pg_capacity g, created_at (pg_timestamps g)).
Definition placement_identity (p : Placement) :=
  (pl_placement_id p, pl_placement_group_id p, pl_assignment p, created_at (pl_timestamps p)).
Definition lease_identity (l : ResourceLease) :=
  (rl_lease_id l, rl_placement_id l, rl_node_id l, rl_resource l, created_at (rl_timestamps l)).

Definition same_allocation (r r' : PlacementRecord) : Prop :=
  group_identity (rec_group r) = group_identity (rec_group r') ∧
  placement_identity <$> rec_placements r = placement_identity <$> rec_placements r' ∧
  lease_identity <$> rec_leases r = lease_identity <$> rec_leases r' ∧
  rec_startup_order r = rec_startup_order r'.

#[export] Instance same_allocation_equiv : Equivalence same_allocation.
Proof.
  split.
  - by intros r.
  - intros r r' (? & ? & ? & ?). by split_and!.
  - intros r1 r2 r3 (? & ? & ? & ?) (? & ? & ? & ?). split_and!; congruence.
Qed.

(** ** Rebuilding keeps identities *)

Lemma mapM_result_Forall2 {E X Y} (f : X → result E Y) l l' :
  mapM_result f l = Ok l' → Forall2 (λ x y, f x = Ok y) l l'.
Proof.
  revert l'. induction l as [|x l IH]; intros l' H; simpl in H; [by injection H as <-|].
  apply result_bind_Ok in H as (y & Hy & H). apply result_bind_Ok in H as (ys & Hys & [= <-]).
  constructor; auto.
Qed.

Lemma mapM_result_fmap {E X Y Z} (f : X → result E Y) (g : X → Z) (h : Y → Z) l l' :
  (∀ x y, f x = Ok y → h y = g x) → mapM_result f l = Ok l' → h <$> l' = g <$> l.
Proof.
  intros Hf H%mapM_result_Forall2. induction H; csimpl; [done|]. f_equal; auto.
Qed.

Lemma mapM_result_elem {E X Y} (f : X → result E Y) l l' y :
  mapM_result f l = Ok l' → y ∈ l' → ∃ x, x ∈ l ∧ f x = Ok y.
Proof.
  intros H%mapM_result_Forall2 Hy. induction H; [by apply not_elem_of_nil in Hy|].
  apply elem_of_cons in Hy as [->|Hy]; [set_solver|].
  destruct IHForall2 as (x' & ? & ?); [done|]. exists x'. set_solver.
Qed.

Lemma mapM_result_elem_of {E X Y} (f : X → result E Y) l l' x :
  mapM_result f l = Ok l' → x ∈ l → ∃ y, y ∈ l' ∧ f x = Ok y.
Proof.
  intros Hm%mapM_result_Forall2 Hx. induction Hm as [|a b l l' Hab Hm IH]; [by apply not_elem_of_nil in Hx|].
  apply elem_of_cons in Hx as [->|Hx]; [set_solver|]. destruct IH as (y & ? & ?); set_solver.
Qed.

Lemma stamped_created c u t : stamped c u = Ok t → created_at t = c.
Proof. unfold stamped, EntityTimestamps_new. by destruct (_ <? _); intros [= <-]. Qed.

Lemma placement_with_state_Ok p state f now q :
  placement_with_state p state f now = Ok q →
  placement_identity q = placement_identity p ∧ pl_state q = state.
Proof.
  unfold placement_with_state, Placement_new. intros (t & Ht%stamped_created & H)%result_bind_Ok.
  destruct (_ && _); simplify_eq. unfold placement_identity. simpl. by rewrite Ht.
Qed.

Lemma lease_with_state_Ok l state now l' :
  lease_with_state l state now = Ok l' → lease_identity l' = lease_identity l ∧ rl_state l' = state.
Proof.
  unfold lease_with_state. intros (t & Ht%stamped_created & [= <-])%result_bind_Ok.
  unfold lease_identity. simpl. by rewrite Ht.
Qed.

Lemma record_with_Ok current ps ls state desired endpoint f now record :
  record_with current ps ls state desired endpoint f now = Ok record →
  placement_identity <$> ps = placement_identity <$> rec_placements current →
  lease_identity <$> ls = lease_identity <$> rec_leases current →
  same_allocation current record ∧ rec_placements record = ps ∧ rec_leases record = ls ∧
  validate_record (rec_group record) ps ls (rec_startup_order record)
    (rec_launch_plan_identities record) = Ok ().
Proof.
  unfold record_with. intros (t & Ht%stamped_created & H)%result_bind_Ok Hp Hl.
  apply result_bind_Ok in H as (group & Hg & [Hv ->]%PlacementRecord_new_Ok).
  unfold same_allocation. simpl. rewrite Hp, Hl. split; [|done]. split; [|done].
  destruct (PlacementGroup_new _ _ _ _ _ _ _ _ _ _ _) eqn:E; simplify_eq.
  unfold PlacementGroup_new in E. unfold group_identity.
  repeat case_match; simplify_eq; simpl; by rewrite Ht.
Qed.

(** The leases and placements of each rebuild. *)
Lemma uniform_Ok ls state now ls' :
  leases_with_uniform_state ls state now = Ok ls' →
  lease_identity <$> ls' = lease_identity <$> ls ∧ ∀ l, l ∈ ls' → rl_state l = state.
Proof.
  intros H. split.
  - eapply mapM_result_fmap; [|exact H]. intros x y E. by apply lease_with_state_Ok in E as [? _].
  - intros l Hl. eapply mapM_result_elem in Hl as (x & _ & E); [|exact H].
    by apply lease_with_state_Ok in E as [_ ?].
Qed.

Lemma action_leases_Ok ls s st1 st2 now ls' :
  leases_for_action ls s st1 st2 now = Ok ls' →
  lease_identity <$> ls' = lease_identity <$> ls ∧
  ∀ l, l ∈ ls' → (rl_state l = st1 ∧ rl_placement_id l ∈ s) ∨ rl_state l = st2.
Proof.
  intros H. split.
  - eapply mapM_result_fmap; [|exact H]. intros x y E. by apply lease_with_state_Ok in E as [? _].
  - intros l Hl. eapply mapM_result_elem in Hl as (x & _ & E); [|exact H].
    apply lease_with_state_Ok in E as [Hid ->]. case_bool_decide; [left|by right].
    split; [done|]. by injection Hid as _ -> _ _ _.
Qed.

Lemma set_states_Ok state now ps ps' :
  set_states state now ps = Ok ps' →
  placement_identity <$> ps' = placement_identity <$> ps ∧ ∀ p, p ∈ ps' → pl_state p = state.
Proof.
  intros H. split.
  - eapply mapM_result_fmap; [|exact H]. intros x y E. by apply placement_with_state_Ok in E as [? _].
  - intros p Hp. eapply mapM_result_elem in Hp as (x & _ & E); [|exact H].
    by apply placement_with_state_Ok in E as [_ ?].
Qed.

Lemma action_placements_Ok ps s f state now failure_ ps' :
  action_placements ps s f state now failure_ = Ok ps' →
  placement_identity <$> ps' = placement_identity <$> ps ∧
  ∀ p, p ∈ ps' → pl_state p = state ∨ pl_state p = PlacementFailed.
Proof.
  intros H. split.
  - eapply mapM_result_fmap; [|exact H]. intros x y E. cbv beta in E.
    case_bool_decide; by apply placement_with_state_Ok in E as [? _].
  - intros p Hp. eapply mapM_result_elem in Hp as (x & _ & E); [|exact H].
    cbv beta in E. case_bool_decide; apply placement_with_state_Ok in E as [_ ?]; auto.
Qed.

(** ** What an operation may write *)

(** The removal of the placement was confirmed: by the executor in this log, or
    by the record the operation started from. *)
Definition removal_confirmed (origin : PlacementRecord) (l : list Event) (id : string) : Prop :=
  ∃ p, pl_placement_id p = id ∧
    (EvRemove p (Ok ()) ∈ l ∨ (p ∈ rec_placements origin ∧ pl_state p = PlacementRemoved)).

(** Every released lease was released already, or its placement is gone. *)
Definition release_earned (origin : PlacementRecord) (l : list Event) (record : PlacementRecord)
  : Prop :=
  ∀ lease, lease ∈ rec_leases record → rl_state lease = LeaseReleased →
    (∃ old, old ∈ rec_leases origin ∧ rl_lease_id old = rl_lease_id lease ∧
       rl_state old = LeaseReleased) ∨
    removal_confirmed origin l (rl_placement_id lease).

(** The writes of a log, judged by what precedes them. *)
Definition writes_owned (origin : PlacementRecord) (l : list Event) : Prop :=
  ∀ l1 record r l2, l = l1 ++ EvReplace record r :: l2 →
    same_allocation origin record ∧ release_earned origin l1 record.

(** A record the operation may go on from: its releases and removals are those
    of the origin. *)
Record good (origin record : PlacementRecord) : Prop := {
  good_same : same_allocation origin record;
  good_released : ∀ lease, lease ∈ rec_leases record → rl_state lease = LeaseReleased →
    ∃ old, old ∈ rec_leases origin ∧ rl_lease_id old = rl_lease_id lease ∧
      rl_state old = LeaseReleased;
  good_removed : ∀ p, p ∈ rec_placements record → pl_state p = PlacementRemoved →
    p ∈ rec_placements origin;
}.

Lemma good_refl origin : good origin origin.
Proof. split; [reflexivity|eauto|done]. Qed.

Lemma good_earned origin l record : good origin record → release_earned origin l record.
Proof. intros Hg lease Hl Hr. left. by eapply good_released. Qed.

Lemma removal_confirmed_mono origin l e id :
  removal_confirmed origin l id → removal_confirmed origin (l ++ [e]) id.
Proof. intros (p & Hp & [H|H]); exists p; set_solver. Qed.

Lemma release_earned_mono origin l e record :
  release_earned origin l record → release_earned origin (l ++ [e]) record.
Proof.
  intros H lease Hl Hr. destruct (H lease Hl Hr) as [?|?]; [by left|right].
  by apply removal_confirmed_mono.
Qed.

Lemma writes_owned_snoc origin l e :
  writes_owned origin l →
  (∀ record r, e = EvReplace record r →
     same_allocation origin record ∧ release_earned origin l record) →
  writes_owned origin (l ++ [e]).
Proof.
  intros Hl He l1 record r l2 E. destruct l2 as [|x l2 _] using rev_ind.
  - apply app_inj_tail in E as [-> ->]. by eapply He.
  - rewrite app_comm_cons, app_assoc in E. apply app_inj_tail in E as [-> _]. by eapply Hl.
Qed.

(** What the lifecycle relies on: a successful replacement returns the record it
    was given. *)
Class PlacementStoreReturns (W : Type) `{!PlacementStore W} : Prop :=
  replace_returns : ∀ record rev (w : W) v w',
    store_replace record rev w = (Ok v, w') → vr_record v = record.

Section ownership.
Context {W : Type} `{!PlacementStore W, !PlacementExecution W, !PlacementIdentity W,
  !PhaseScheduler W, !PlacementStoreReturns W}.
Context (origin : PlacementRecord).
Abbreviation M := (SE (LW W) PlacementError).

(** The writes so far are owned, and [K] holds of the log. *)
Definition with_ (K : list Event → Prop) (l : list Event) : Prop := writes_owned origin l ∧ K l.

(** Properties of a log that later events do not change. *)
Definition stable (K : list Event → Prop) : Prop := ∀ l e, K l → K (l ++ [e]).

(** The computation only writes owned records, and the one it returns has [G]. *)
Definition owns (K : list Event → Prop) (G : PlacementRecord → Prop) (c : M PlacementChange)
  : Prop :=
  runs (with_ K) c (λ r l, writes_owned origin l ∧
    ∀ ch, r = Ok ch → G (vr_record (ch_record ch))).

Lemma owns_lift {A} K G (x : result PlacementError A) k :
  (∀ a, x = Ok a → owns K G (k a)) → owns K G (se_bind (se_lift x) k).
Proof. intros Hk. apply runs_bind_lift; [|done]. by intros e l _ [? _]. Qed.

Lemma owns_silent {A} K G (c : M A) k :
  silent c → (∀ a, owns K G (k a)) → owns K G (se_bind c k).
Proof. intros Hc Hk. apply runs_silent; [done| |done]. by intros l e [? _]. Qed.

Lemma owns_fail K G e : owns K G (se_fail e).
Proof. apply runs_fail. by intros l [? _]. Qed.

Lemma owns_ret K (G : PlacementRecord → Prop) ch :
  G (vr_record (ch_record ch)) → owns K G (se_ret ch).
Proof. intros Hg. apply runs_ret. intros l [Hl HK]. split; [done|]. by intros ? [= <-]. Qed.

Lemma with_snoc K l e :
  stable K → with_ K l →
  (∀ record r, e = EvReplace record r →
     same_allocation origin record ∧ release_earned origin l record) →
  with_ K (l ++ [e]).
Proof. intros HK [Hl Hk] He. split; [by apply writes_owned_snoc|by apply HK]. Qed.

Lemma owns_replace K G record rev k :
  stable K → same_allocation origin record → (∀ l, K l → release_earned origin l record) →
  (∀ v, vr_record v = record → owns K G (k v)) →
  owns K G (se_bind (store_replace record rev) k).
Proof.
  intros HK Hsame Hrel Hk w r w' HP [(v & w1 & H1 & H2)|(e & H1 & ->)]%se_bind_inv;
    simpl in H1; unfold log_call in H1;
    destruct (store_replace record rev w.1) as [r0 w0] eqn:E; injection H1 as -> <-.
  - assert (vr_record v = record) as Hv by (by eapply replace_returns).
    eapply (Hk v Hv); [|exact H2]. apply with_snoc; [done|done|].
    intros record' r' [= <- <-]. split; [done|]. apply Hrel, HP.
  - split; [|done]. apply writes_owned_snoc; [apply HP|].
    intros record' r' [= <- <-]. split; [done|]. apply Hrel, HP.
Qed.

Lemma resolving_owned K record rev :
  stable K → same_allocation origin record → (∀ l, K l → release_earned origin l record) →
  runs (with_ K) (replace_resolving_uncertainty record rev)
    (λ r l, with_ K l ∧ ∀ v, r = Ok v → vr_record v = record).
Proof.
  intros HK Hsame Hrel. apply runs_resolving.
  - intros l r w0 w1 Hl E. assert (with_ K (l ++ [EvReplace record r])) as Hw.
    { apply with_snoc; [done|done|]. intros ? ? [= <- <-]. split; [done|]. apply Hrel, Hl. }
    destruct r as [v|e]; [|done]. split; [done|]. intros ? [= <-]. by eapply replace_returns.
  - intros l id r Hl. by apply with_snoc.
  - done.
  - intros l v Hl Hv. split; [done|]. by intros ? [= <-].
Qed.

Lemma owns_resolving K (G : PlacementRecord → Prop) record rev kind :
  stable K → same_allocation origin record → (∀ l, K l → release_earned origin l record) →
  G record →
  owns K G (se_bind (replace_resolving_uncertainty record rev)
              (λ stored, se_ret (change stored kind))).
Proof.
  intros HK Hsame Hrel Hgood.
  apply (runs_bind _ _ _ (λ v l, with_ K l ∧ vr_record v = record)).
  - eapply runs_weaken; [by apply resolving_owned|done|].
    intros [v|e] l [Hl Hv]; [by eauto|]. split; [apply Hl|done].
  - intros v. apply runs_ret. intros l [[Hl _] Hv]. split; [done|]. intros ch [= <-]. simpl.
    by rewrite Hv.
Qed.

Lemma owns_match {A} K G (c : M A) k h :
  runs (with_ K) c (λ _, with_ K) → (∀ a, owns K G (k a)) → (∀ e, owns K G (h e)) →
  owns K G (λ w, match c w with (Ok a, w) => k a w | (Err e, w) => h e w end).
Proof. intros. by apply (runs_match _ _ (λ _, with_ K)). Qed.

(** The phases of an action: the log grows by executor events. *)
Lemma owns_void K K' G record action b k :
  (∀ w s f w', run_void_phases (W := LW W) record action b w = (s, f, w') → K w.2 → K' s w'.2) →
  (∀ s f, owns (K' s) G (k s f)) →
  owns K G (λ w, let '(s, f, w) := run_void_phases record action b w in k s f w).
Proof.
  intros Hv Hk w r w' [Hl HKl].
  assert (writes_owned origin (run_void_phases record action b w).2.2) as Hw.
  { apply (run_void_phases_keeps (writes_owned origin)); [|done]. intros p _.
    destruct action; apply keeps_logged; intros l r0 Hw; by apply writes_owned_snoc. }
  destruct (run_void_phases record action b w) as [[s f] w1] eqn:E.
  apply Hk. split; [done|]. by eapply Hv.
Qed.
End ownership.

(** A record without releases and removals. *)
Definition plain (record : PlacementRecord) : Prop :=
  (∀ lease, lease ∈ rec_leases record → rl_state lease ≠ LeaseReleased) ∧
  (∀ p, p ∈ rec_placements record → pl_state p ≠ PlacementRemoved).

Lemma plain_good origin record :
  same_allocation origin record → plain record → good origin record.
Proof. intros Hs [Hl Hp]. split; [done| |]; [intros l ? ?; by destruct (Hl l)|intros p ? ?; by destruct (Hp p)]. Qed.

Lemma no_release_earned origin l record :
  (∀ lease, lease ∈ rec_leases record → rl_state lease ≠ LeaseReleased) →
  release_earned origin l record.
Proof. intros H lease Hl Hr. by destruct (H lease). Qed.

Lemma stable_True : stable (λ _, True).
Proof. done. Qed.
#[export] Hint Resolve stable_True : core.

Section owned_operations.
Context {W : Type} `{!PlacementStore W, !PlacementExecution W, !PlacementIdentity W,
  !PhaseScheduler W, !PlacementStoreReturns W}.
Context (origin : PlacementRecord).
Abbreviation always := (λ _ : list Event, True).
Abbreviation Owns := (owns (W := W) origin always).

(** A record rebuilt from a good one. *)
Lemma rebuilt current ps ls state desired endpoint f now record :
  record_with current ps ls state desired endpoint f now = Ok record →
  same_allocation origin current →
  placement_identity <$> ps = placement_identity <$> rec_placements current →
  lease_identity <$> ls = lease_identity <$> rec_leases current →
  same_allocation origin record ∧ rec_placements record = ps ∧ rec_leases record = ls.
Proof.
  intros H Hs Hp Hl. apply record_with_Ok in H as (Hsame & ? & ? & _); [|done..].
  split; [by etrans|done].
Qed.

Lemma stop_record_owns current desired event :
  same_allocation origin (vr_record current) →
  Owns (λ r, same_allocation origin r ∧ plain r) (stop_record current desired event).
Proof.
  intros Hs. unfold stop_record. apply owns_silent; [apply silent_quiet|]. intros now.
  apply owns_lift. intros ps [Hps Hst]%set_states_Ok. apply owns_lift. intros ls [Hls Hdr]%uniform_Ok.
  apply owns_lift. intros record Hr. destruct (rebuilt _ _ _ _ _ _ _ _ _ Hr Hs Hps Hls) as (Hs1 & Hp1 & Hl1).
  apply owns_replace; [done|done|intros l _; apply no_release_earned; rewrite Hl1; intros l' ?%Hdr; congruence|].
  intros v Hv. apply (owns_void _ _ (λ _, always)); [done|]. intros stopped failed.
  apply owns_silent; [apply silent_quiet|]. intros now2. apply owns_lift. intros f _.
  apply owns_lift. intros ps2 [Hps2 Hst2]%action_placements_Ok.
  apply owns_lift. intros ls2 [Hls2 Hst3]%action_leases_Ok. apply owns_lift. intros record2 Hr2.
  rewrite Hv in *. destruct (rebuilt _ _ _ _ _ _ _ _ _ Hr2 Hs1 Hps2 Hls2) as (Hs2 & Hp2 & Hl2).
  assert (plain record2) as Hplain.
  { split; [rewrite Hl2; intros l' Hl'; destruct (Hst3 l' Hl') as [[? _]|?]; congruence|].
    rewrite Hp2. intros p Hp. destruct (Hst2 p Hp); congruence. }
  apply owns_resolving; [done|done| |done]. intros l _. by apply no_release_earned, Hplain.
Qed.

Lemma start_failed_owns current :
  same_allocation origin (vr_record current) → Owns (λ _, True) (start_failed current).
Proof.
  intros Hs. unfold start_failed. apply (owns_void _ _ (λ _, always)); [done|]. intros stopped failed.
  apply owns_silent; [apply silent_quiet|]. intros now2. apply owns_lift. intros f _.
  apply owns_lift. intros ps2 [Hps2 Hst2]%action_placements_Ok.
  apply owns_lift. intros ls2 [Hls2 Hst3]%action_leases_Ok. apply owns_lift. intros record2 Hr2.
  destruct (rebuilt _ _ _ _ _ _ _ _ _ Hr2 Hs Hps2 Hls2) as (Hs2 & Hp2 & Hl2).
  apply owns_resolving; [done|done| |done]. intros l _. apply no_release_earned. rewrite Hl2.
  intros l' Hl'. destruct (Hst3 l' Hl') as [[? _]|?]; congruence.
Qed.

Lemma publish_running_owns current endpoint event :
  same_allocation origin (vr_record current) →
  Owns (λ _, True) (publish_running current endpoint event).
Proof.
  intros Hs. unfold publish_running.
  apply owns_match.
  - apply runs_quiet. done.
  - intros now. apply owns_lift. intros ps [Hps Hst]%set_states_Ok.
    apply owns_lift. intros ls [Hls Hdr]%uniform_Ok.
    destruct (record_with _ _ _ _ _ _ _ _) as [record|] eqn:Hr; [|by apply start_failed_owns].
    destruct (rebuilt _ _ _ _ _ _ _ _ _ Hr Hs Hps Hls) as (Hs1 & Hp1 & Hl1).
    apply owns_match.
    + eapply runs_weaken; [apply (resolving_owned origin always)|done|].
      * done.
      * done.
      * intros l _. apply no_release_earned. rewrite Hl1. intros l' ?%Hdr; congruence.
      * by intros r l [? _].
    + intros v. by apply (owns_ret origin always).
    + intros _. by apply start_failed_owns.
  - intros _. by apply start_failed_owns.
Qed.

Lemma start_record_owns current ack event :
  same_allocation origin (vr_record current) → Owns (λ _, True) (start_record current ack event).
Proof.
  intros Hs. unfold start_record. apply owns_silent; [apply silent_quiet|]. intros now.
  apply owns_lift. intros ps [Hps Hst]%set_states_Ok. apply owns_lift. intros ls [Hls Hdr]%uniform_Ok.
  apply owns_lift. intros record Hr. destruct (rebuilt _ _ _ _ _ _ _ _ _ Hr Hs Hps Hls) as (Hs1 & Hp1 & Hl1).
  apply owns_replace; [done|done|intros l _; apply no_release_earned; rewrite Hl1; intros l' ?%Hdr; congruence|].
  intros v Hv. rewrite <- Hv in Hs1. apply owns_lift. intros phases _. intros w r w' [HP _].
  match goal with |- context [start_phases ?rec ?ack ?phases ?e w] =>
    pose proof (start_phases_keeps (writes_owned origin) rec ack phases e) as Hph;
    specialize (Hph ltac:(intros p _; apply keeps_logged; intros; by apply writes_owned_snoc) w HP);
    destruct (start_phases rec ack phases e w) as [[[endpoint|]|] w1] end.
  - by apply publish_running_owns.
  - by apply start_failed_owns.
  - by apply start_failed_owns.
Qed.

(** The identities a removal reports as succeeded. *)
Definition gone (record : PlacementRecord) (l : list Event) (id : string) : Prop :=
  ∃ p, p ∈ rec_placements record ∧ pl_placement_id p = id ∧
    (pl_state p = PlacementRemoved ∨ EvRemove p (Ok ()) ∈ l).

Lemma elem_of_ids_at record indices id :
  id ∈ ids_at record indices ↔
  ∃ i p, i ∈ indices ∧ rec_placements record !! i = Some p ∧ pl_placement_id p = id.
Proof.
  unfold ids_at. rewrite list_elem_of_omap. split.
  - intros (i & Hi & Hp). destruct (rec_placements record !! i) as [p|] eqn:E; simplify_eq/=. eauto 10.
  - intros (i & p & Hi & Hp & <-). exists i. by rewrite Hp.
Qed.

Lemma run_void_loop_gone record phases s f (w : LW W) s' f' w' :
  run_void_loop record ActionRemove phases s f w = (s', f', w') →
  (∀ id, id ∈ s → gone record w.2 id) → ∀ id, id ∈ s' → gone record w'.2 id.
Proof.
  revert s f w. induction phases as [|phase phases IH]; intros s f w H Hs; simpl in H.
  { by injection H as <- <- <-. }
  match type of H with context [run_phase ?c ?ps ?pending w] =>
    destruct (run_phase c ps pending w) as [outcomes w1] eqn:E end.
  apply (run_phase_events execute_remove EvRemove) in E as (ran & Hperm & _ & Hlog).
  eapply IH; [exact H|]. clear IH H. rewrite Hlog. intros id. rewrite !elem_of_app.
  intros [Hid|[Hid|Hid]].
  - destruct (Hs id Hid) as (p & ? & ? & [?|?]); exists p; set_solver.
  - apply elem_of_ids_at in Hid as (i & p & Hi & Hp & <-). exists p.
    split; [by eapply list_elem_of_lookup_2|]. split; [done|]. left.
    apply list_elem_of_In, filter_In in Hi as [_ Hi]. unfold already_done in Hi. rewrite Hp in Hi.
    by apply bool_decide_eq_true in Hi.
  - apply elem_of_ids_at in Hid as (i & p & Hi & Hp & <-). exists p.
    split; [by eapply list_elem_of_lookup_2|]. split; [done|]. right.
    apply list_elem_of_fmap in Hi as ([j r] & -> & Hi).
    apply list_elem_of_In, filter_In in Hi as [Hi Hok]. simpl in Hok, Hp.
    destruct r as [[]|]; [|done]. apply elem_of_app. right.
    apply elem_of_calls_events. exists j, (Ok ()), p. split; [|done].
    rewrite <- Hperm. by apply list_elem_of_In.
Qed.

Lemma run_void_phases_gone record b (w : LW W) s f w' :
  run_void_phases record ActionRemove b w = (s, f, w') → ∀ id, id ∈ s → gone record w'.2 id.
Proof.
  unfold run_void_phases. destruct (phase_indices record b) as [phases|].
  - intros H. eapply run_void_loop_gone; [exact H|]. by intros id ?%not_elem_of_nil.
  - intros [= <- <- <-]. by intros id ?%not_elem_of_nil.
Qed.

Lemma gone_confirmed record l id :
  (∀ p, p ∈ rec_placements record → pl_state p = PlacementRemoved → p ∈ rec_placements origin) →
  gone record l id → removal_confirmed origin l id.
Proof. intros H (p & ? & ? & [?|?]); exists p; eauto. Qed.

Lemma removing_placements_Ok now ps ps' :
  mapM_result (λ placement,
      if bool_decide (pl_state placement = PlacementRemoved) then Ok placement
      else placement_with_state placement PlacementRemoving None now) ps = Ok ps' →
  placement_identity <$> ps' = placement_identity <$> ps ∧
  ∀ p, p ∈ ps' → pl_state p = PlacementRemoved → p ∈ ps.
Proof.
  intros H. split.
  - eapply mapM_result_fmap; [|exact H]. intros x y E. cbv beta in E.
    case_bool_decide; [by injection E as <-|by apply placement_with_state_Ok in E as [? _]].
  - intros p Hp Hr. eapply mapM_result_elem in Hp as (x & Hx & E); [|exact H]. cbv beta in E.
    case_bool_decide; [by injection E as <-|].
    apply placement_with_state_Ok in E as [_ ?]. congruence.
Qed.

Lemma preserving_leases_Ok ls now ls' :
  leases_preserving_released ls LeaseDraining now = Ok ls' →
  lease_identity <$> ls' = lease_identity <$> ls ∧
  ∀ l, l ∈ ls' → rl_state l = LeaseReleased → l ∈ ls.
Proof.
  intros H. split.
  - eapply mapM_result_fmap; [|exact H]. intros x y E. cbv beta in E.
    case_bool_decide; [by injection E as <-|by apply lease_with_state_Ok in E as [? _]].
  - intros l Hl Hr. eapply mapM_result_elem in Hl as (x & Hx & E); [|exact H]. cbv beta in E.
    case_bool_decide; [by injection E as <-|].
    apply lease_with_state_Ok in E as [_ ?]. congruence.
Qed.

Lemma remove_record_owns current :
  good origin (vr_record current) → Owns (λ _, True) (remove_record current).
Proof.
  intros [Hs Hrel Hrem]. unfold remove_record. apply owns_silent; [apply silent_quiet|]. intros now.
  apply owns_lift. intros ps [Hps Hgone]%removing_placements_Ok.
  apply owns_lift. intros ls [Hls Hkept]%preserving_leases_Ok.
  apply owns_lift. intros record Hr. destruct (rebuilt _ _ _ _ _ _ _ _ _ Hr Hs Hps Hls) as (Hs1 & Hp1 & Hl1).
  assert (good origin record) as Hgood.
  { split; [done|rewrite Hl1; intros l Hl Hlr; by apply Hrel; [apply Hkept|]|].
    rewrite Hp1. intros p Hp Hpr. apply Hrem; [by apply Hgone|done]. }
  apply owns_replace; [done|done|intros l _; by apply good_earned|]. intros v Hv. rewrite <- Hv in *.
  apply (owns_void _ _ (λ s l, ∀ id, id ∈ s → removal_confirmed origin l id)).
  { intros w s f w' H _ id Hid. eapply gone_confirmed; [apply (good_removed _ _ Hgood)|].
    by eapply run_void_phases_gone. }
  intros succeeded failed.
  assert (stable (λ l, ∀ id, id ∈ succeeded → removal_confirmed origin l id)) as Hstable.
  { intros l e Hl id Hid. by apply removal_confirmed_mono, Hl. }
  apply owns_silent; [apply silent_quiet|]. intros now2. apply owns_lift. intros f _.
  apply owns_lift. intros ps2 [Hps2 _]%action_placements_Ok.
  apply owns_lift. intros ls2 [Hls2 Hst3]%action_leases_Ok. apply owns_lift. intros record2 Hr2.
  destruct (rebuilt _ _ _ _ _ _ _ _ _ Hr2 Hs1 Hps2 Hls2) as (Hs2 & Hp2 & Hl2).
  apply owns_resolving; [done|done| |done]. intros l Hl lease Hlease Hr3. right. apply Hl.
  rewrite Hl2 in Hlease. destruct (Hst3 lease Hlease) as [[_ ?]|?]; [done|congruence].
Qed.

Lemma reconcile_one_Ok capacity now p o q published running :
  reconcile_one capacity now p o = Ok (q, published, running) →
  placement_identity q = placement_identity p.
Proof.
  unfold reconcile_one. destruct o as [o|].
  - intros (f & _ & H)%result_bind_Ok. apply result_bind_Ok in H as (q' & Hq & [= <- _ _]).
    by apply placement_with_state_Ok in Hq as [? _].
  - intros (f & _ & H)%result_bind_Ok. apply result_bind_Ok in H as (q' & Hq & [= <- _ _]).
    by apply placement_with_state_Ok in Hq as [? _].
Qed.

Lemma reconcile_all_Ok capacity now work endpoint b ps endpoint' b' :
  reconcile_all capacity now work endpoint b = Ok (ps, endpoint', b') →
  placement_identity <$> ps = placement_identity <$> work.*1.
Proof.
  revert endpoint b ps endpoint' b'.
  induction work as [|[p o] work IH]; intros endpoint b ps endpoint' b' H; simpl in H.
  { by injection H as <- _ _. }
  apply result_bind_Ok in H as ([[q published] running] & Hq%reconcile_one_Ok & H).
  apply result_bind_Ok in H as ([[qs e] b2] & Hqs%IH & [= <- _ _]). csimpl. by rewrite Hq, Hqs.
Qed.

Lemma observed_lease_states_range ps id st :
  observed_lease_states ps !! id = Some st → st ≠ LeaseReleased.
Proof.
  unfold observed_lease_states. intros H.
  apply (foldl_insert_elem pl_placement_id
    (λ p, if bool_decide (pl_state p = PlacementRunning) then LeaseActive else LeaseDraining)) in H.
  destruct H as [(p & _ & _ & <-)|H]; [by case_bool_decide|by rewrite lookup_empty in H].
Qed.

Lemma observed_leases_Ok ls ps now ls' :
  leases_with_states ls (observed_lease_states ps) now = Ok ls' →
  lease_identity <$> ls' = lease_identity <$> ls ∧
  ∀ l, l ∈ ls' → rl_state l = LeaseReleased →
    ∃ old, old ∈ ls ∧ rl_lease_id old = rl_lease_id l ∧ rl_state old = LeaseReleased.
Proof.
  intros H. split.
  - eapply mapM_result_fmap; [|exact H]. intros x y E. by apply lease_with_state_Ok in E as [? _].
  - intros l Hl Hr. eapply mapM_result_elem in Hl as (x & Hx & E); [|exact H].
    apply lease_with_state_Ok in E as [Hid Hst]. exists x. split; [done|].
    split; [by injection Hid as -> _ _ _ _|]. rewrite Hr in Hst.
    destruct (observed_lease_states ps !! rl_placement_id x) as [st|] eqn:E2; [|done].
    apply observed_lease_states_range in E2. simpl in Hst. congruence.
Qed.

Lemma reconcile_record_owns current observations :
  good origin (vr_record current) →
  List.length observations = List.length (rec_placements (vr_record current)) →
  Owns (λ _, True) (reconcile_record current observations).
Proof.
  intros [Hs Hrel Hrem] Hlen. unfold reconcile_record. cbv zeta.
  apply owns_silent; [apply silent_quiet|]. intros now.
  apply owns_lift. intros [[ps endpoint] b] Hps%reconcile_all_Ok. apply owns_lift. intros f _.
  apply owns_lift. intros ls [Hls Hst]%observed_leases_Ok. apply owns_lift. intros record Hr.
  rewrite fst_zip in Hps by lia.
  destruct (rebuilt _ _ _ _ _ _ _ _ _ Hr Hs Hps Hls) as (Hs1 & Hp1 & Hl1).
  apply owns_resolving; [done|done| |done]. intros l _ lease Hlease Hlr. left.
  rewrite Hl1 in Hlease. destruct (Hst lease Hlease Hlr) as (old & Hold & Hid & Hor).
  destruct (Hrel old Hold Hor) as (old0 & ? & ? & ?). exists old0. split_and!; congruence.
Qed.
End owned_operations.

(** ** The theorems *)

(** The group an operation manages; staging creates its group. *)
Definition group_of (op : Operation) : option string :=
  match op with
  | OpStage _ _ => None
  | OpStart id | OpStop id | OpRecover id _ | OpRemove id | OpReconcile id => Some id
  end.

Section theorems.
Context {W : Type} `{!PlacementStore W, !PlacementExecution W, !PlacementIdentity W,
  !PhaseScheduler W, !PlacementStoreReturns W}.

(** The operation after the record [v] was read. *)
Definition continue (op : Operation) (v : VersionedPlacementRecord)
  : SE (LW W) PlacementError PlacementChange :=
  let state := pg_state (rec_group (vr_record v)) in
  match op with
  | OpStage _ _ => se_fail GroupNotFound
  | OpStart _ =>
    match state with
    | GroupRunning => se_ret (change v KindRunning)
    | GroupStaged | GroupStopped => start_record v false KindRunning
    | _ => se_fail InvalidTransition
    end
  | OpStop _ =>
    if bool_decide (state = GroupStopped) then se_ret (change v KindStopped)
    else if bool_decide (state = GroupRemoved) then se_fail InvalidTransition
    else if any_released (vr_record v) then se_fail InvalidTransition
    else stop_record v DesiredStopped KindStopped
  | OpRecover _ acknowledge =>
    if negb (bool_decide (state = GroupFailed)) || any_released (vr_record v)
    then se_fail InvalidTransition
    else
      do! stopped <- stop_record v DesiredRunning KindStopped in
      if negb (bool_decide (pg_state (rec_group (vr_record (ch_record stopped))) = GroupStopped))
      then se_ret stopped
      else start_record (ch_record stopped) acknowledge KindRecovered
  | OpRemove _ =>
    if bool_decide (state = GroupRemoved) then se_ret (change v KindRemoved)
    else if must_stop_first state then
      do! stopped <- stop_record v DesiredRemoved KindStopped in
      if negb (bool_decide (pg_state (rec_group (vr_record (ch_record stopped))) = GroupStopped))
      then se_ret stopped
      else remove_record (ch_record stopped)
    else remove_record v
  | OpReconcile _ =>
    if bool_decide (state = GroupRemoved) then se_ret (change v KindObserved)
    else λ w,
      let '(observations, w) := run_observation_phase (rec_placements (vr_record v)) w in
      if observations_match (vr_record v) observations
      then (Ok (change v KindObserved), w)
      else reconcile_record v observations w
  end.

Lemma perform_continue op id (w : W) v w1 :
  group_of op = Some id → store_read id w = (Ok (Some v), w1) →
  perform op (w, []) = continue op v (w1, [EvRead id (Ok (Some v))]).
Proof.
  intros Hop Hr. destruct op; simplify_eq/=;
    unfold lifecycle_start, lifecycle_stop, lifecycle_recover, lifecycle_remove,
      lifecycle_reconcile, required_record, se_bind; simpl; unfold log_call; simpl; by rewrite Hr.
Qed.

Lemma run_observation_length (ps : list Placement) (w : LW W) :
  List.length (run_observation_phase ps w).1 = List.length ps.
Proof.
  unfold run_observation_phase.
  destruct (run_phase execute_observe ps (seq 0 (List.length ps)) w) as [outcomes w1] eqn:E.
  apply (run_phase_events execute_observe EvObserve) in E as (ran & Hp & Hi & _). simpl.
  rewrite length_fmap, Hp, <- (length_fmap fst), Hi. apply length_seq.
Qed.

Lemma stop_then_owns origin v desired event (k : PlacementChange → SE (LW W) PlacementError PlacementChange) :
  same_allocation origin (vr_record v) →
  (∀ ch, good origin (vr_record (ch_record ch)) → owns origin (λ _, True) (λ _, True) (k ch)) →
  owns origin (λ _, True) (λ _, True) (se_bind (stop_record v desired event) k).
Proof.
  intros Hs Hk. eapply (runs_bind _ _ _ (λ ch l, with_ origin (λ _, True) l ∧
    good origin (vr_record (ch_record ch)))).
  - eapply runs_weaken; [by apply stop_record_owns|done|].
    intros [ch|e] l [Hl Hg]; [|by split]. destruct (Hg ch eq_refl).
    split; [by split|by apply plain_good].
  - intros ch w r w' [HP Hg]. by eapply Hk.
Qed.

Lemma continue_owns op v : owns (vr_record v) (λ _, True) (λ _, True) (continue op v).
Proof.
  assert (same_allocation (vr_record v) (vr_record v)) as Hs by reflexivity.
  pose proof (good_refl (vr_record v)) as Hg.
  destruct op; cbn [continue]; cbv zeta; repeat case_match;
    try by (apply owns_fail || apply owns_ret).
  all: try by (apply start_record_owns || apply remove_record_owns).
  - eapply runs_weaken; [by apply stop_record_owns|done|]. by intros r l [? _].
  - apply stop_then_owns; [done|]. intros ch Hch. case_match; [by apply owns_ret|].
    by apply start_record_owns, good_same.
  - apply stop_then_owns; [done|]. intros ch Hch. case_match; [by apply owns_ret|].
    by apply remove_record_owns.
  - intros w r w' [HP _].
    pose proof (run_observation_keeps (writes_owned (vr_record v)) (rec_placements (vr_record v))
      ltac:(intros p _; apply keeps_logged; intros; by apply writes_owned_snoc) w HP) as Ho.
    pose proof (run_observation_length (rec_placements (vr_record v)) w) as Hlen.
    destruct (run_observation_phase _ w) as [observations w1].
    destruct (observations_match _ _); [intros [= <- <-]; by split|].
    intros H2. by eapply reconcile_record_owns.
Qed.

Lemma perform_owned op id (w : W) v w1 r w' :
  group_of op = Some id → store_read id w = (Ok (Some v), w1) →
  perform op (w, []) = (r, w') → writes_owned (vr_record v) w'.2.
Proof.
  intros Hop Hr. erewrite perform_continue by done. intros H.
  eapply (continue_owns op v) in H as [? _]; [done|]. split; [|done].
  intros l1 record res l2 E. destruct l1 as [|? [|]]; simplify_eq/=.
Qed.

(** over a store that returns the records it is given, start, stop,
    recovery, removal and reconciliation never change an allocation: every record
    they write, on success and on failure, has the group, placements, nodes,
    devices, ports, leases, startup order and creation times of the record they
    read. *)
Theorem lifecycle_keeps_allocation op id (w : W) v w1 r w' l1 record res l2 :
  group_of op = Some id → store_read id w = (Ok (Some v), w1) →
  perform op (w, []) = (r, w') → w'.2 = l1 ++ EvReplace record res :: l2 →
  same_allocation (vr_record v) record.
Proof. intros Hop Hr H E. by destruct (perform_owned _ _ _ _ _ _ _ Hop Hr H _ _ _ _ E). Qed.

(** such an operation writes a lease as released only when the record
    it read had it released, or when its placement is gone: the executor
    confirmed the removal before that write, or the record it read had the
    placement removed.  A failed removal frees no resource. *)
Theorem release_follows_removal op id (w : W) v w1 r w' l1 record res l2 lease :
  group_of op = Some id → store_read id w = (Ok (Some v), w1) →
  perform op (w, []) = (r, w') → w'.2 = l1 ++ EvReplace record res :: l2 →
  lease ∈ rec_leases record → rl_state lease = LeaseReleased →
  (∃ old, old ∈ rec_leases (vr_record v) ∧ rl_lease_id old = rl_lease_id lease ∧
     rl_state old = LeaseReleased) ∨
  ∃ p, pl_placement_id p = rl_placement_id lease ∧
    (EvRemove p (Ok ()) ∈ l1 ∨
     (p ∈ rec_placements (vr_record v) ∧ pl_state p = PlacementRemoved)).
Proof.
  intros Hop Hr H E. destruct (perform_owned _ _ _ _ _ _ _ Hop Hr H _ _ _ _ E) as [_ He]. apply He.
Qed.
End theorems.

(** The started group of the scenario is removed. *)
#[export] Instance scenario_returns : PlacementStoreReturns Scenario.World.
Proof.
  intros record rev w v w'. cbn. destruct (Scenario.stored w) as [v0|]; [|done].
  destruct (_ =? _); [|done]. by intros [= <- <-].
Qed.

Definition running_scenario : Scenario.World := (lifecycle_start "g"%string Scenario.staged_world).2.
Definition removed_scenario := perform (OpRemove "g"%string) (running_scenario, []).

Lemma running_scenario_read :
  ∃ v, store_read "g"%string running_scenario = (Ok (Some v), running_scenario) ∧
    pg_state (rec_group (vr_record v)) = GroupRunning ∧
    any_released (vr_record v) = false ∧
    forallb (λ p, bool_decide (pl_state p = PlacementRunning)) (rec_placements (vr_record v)) = true.
Proof.
  destruct (Scenario.stored running_scenario) as [v|] eqn:Ev; [|vm_compute in Ev; discriminate].
  exists v. cbn. rewrite Ev. rewrite bool_decide_eq_true_2; [|vm_compute in Ev; by injection Ev as <-].
  split; [done|]. vm_compute in Ev. injection Ev as <-. by split_and!.
Qed.

(** The last write of the removal. *)
Lemma removed_scenario_write :
  ∃ l1 record lease ls res, (removed_scenario.2).2 = l1 ++ [EvReplace record res] ∧
    pg_state (rec_group record) = GroupRemoved ∧ rec_leases record = lease :: ls ∧
    rl_state lease = LeaseReleased.
Proof.
  assert (∃ record lease ls res, drop 8 (removed_scenario.2).2 = [EvReplace record res] ∧
    pg_state (rec_group record) = GroupRemoved ∧ rec_leases record = lease :: ls ∧
    rl_state lease = LeaseReleased) as (record & lease & ls & res & Hd & ?).
  { vm_compute. eauto 10. }
  exists (take 8 (removed_scenario.2).2), record, lease, ls, res. split; [|done].
  by rewrite <- Hd, take_drop.
Qed.

Lemma lifecycle_keeps_allocation_witness :
  ∃ v record res l1, (removed_scenario.2).2 = l1 ++ [EvReplace record res] ∧
    pg_state (rec_group (vr_record v)) = GroupRunning ∧
    pg_state (rec_group record) = GroupRemoved ∧ same_allocation (vr_record v) record.
Proof.
  destruct running_scenario_read as (v & Hr & Hv & _).
  destruct removed_scenario_write as (l1 & record & lease & ls & res & Hl & Hs & _).
  exists v, record, res, l1. split; [exact Hl|]. split; [exact Hv|]. split; [exact Hs|].
  exact (lifecycle_keeps_allocation (OpRemove "g"%string) "g"%string running_scenario v running_scenario
    removed_scenario.1 removed_scenario.2 l1 record res [] eq_refl Hr (surjective_pairing _) Hl).
Defined.

Lemma release_follows_removal_witness :
  ∃ l1 record res lease, (removed_scenario.2).2 = l1 ++ [EvReplace record res] ∧
    lease ∈ rec_leases record ∧ rl_state lease = LeaseReleased ∧
    ∃ p, pl_placement_id p = rl_placement_id lease ∧ EvRemove p (Ok ()) ∈ l1.
Proof.
  destruct running_scenario_read as (v & Hr & Hv & Hnr & Hps).
  destruct removed_scenario_write as (l1 & record & lease & ls & res & Hl & Hs & Hls & Hrel).
  exists l1, record, res, lease.
  assert (lease ∈ rec_leases record) as Hin by (rewrite Hls; apply list_elem_of_here).
  split; [exact Hl|]. split; [exact Hin|]. split; [exact Hrel|].
  destruct (release_follows_removal (OpRemove "g"%string) "g"%string running_scenario v running_scenario
    removed_scenario.1 removed_scenario.2 l1 record res [] lease eq_refl Hr (surjective_pairing _)
    Hl Hin Hrel) as [(old & Hold & _ & Ho)|(p & Hp & [Hrm|[Hin2 Hst]])].
  - exfalso. apply not_true_iff_false in Hnr. apply Hnr, existsb_exists. exists old.
    rewrite <- list_elem_of_In, bool_decide_eq_true. exact (conj Hold Ho).
  - exact (ex_intro _ p (conj Hp Hrm)).
  - exfalso. rewrite forallb_forall in Hps. specialize (Hps p). rewrite <- list_elem_of_In in Hps.
    specialize (Hps Hin2). apply bool_decide_eq_true in Hps. rewrite Hst in Hps. discriminate Hps.
Defined.

(** The removal of the running group in which the participant does not answer,
    and the reconciliation that follows. *)
Definition half_removed : Scenario.World :=
  (lifecycle_remove "g"%string (Scenario.script [] ["remove p-task-1"%string] running_scenario)).2.
Definition lease_states (w : Scenario.World) (placement_id : string) : list ResourceLeaseState :=
  match Scenario.stored w with
  | Some v => rl_state <$> List.filter (λ l, bool_decide (rl_placement_id l = placement_id))
                             (rec_leases (vr_record v))
  | None => []
  end.

(** reconciliation takes back what a removal released.  When one of
    two removals fails, the leases of the placement that is gone are released and
    its resources are free; the next reconciliation of the failed group rebuilds
    them as draining, held again by the removed placement. *)
Theorem reconcile_reacquires_released :
  lease_states half_removed "p-task-0" = [LeaseReleased; LeaseReleased; LeaseReleased] ∧
  ∃ ch w', lifecycle_reconcile "g"%string half_removed = (Ok ch, w') ∧
    lease_states w' "p-task-0" = [LeaseDraining; LeaseDraining; LeaseDraining].
Proof.
  split; [vm_compute; reflexivity|].
  destruct (lifecycle_reconcile "g"%string half_removed) as [r w'] eqn:E.
  vm_compute in E. injection E as <- <-. eexists _, _. split; reflexivity.
Qed.
