(* ===== verification/PlacementStart.v ===== *)
(** * A start is all or nothing

    Either every placement was started, phase by phase in the declared order, and
    the owner's endpoint is published, or every placement was stopped again, phase
    by phase in the reverse order, after the last start. *)

From S2P Require Import Prelude Values Text Ordering Placement PlacementContract.
From S2P Require Import PlacementAllocator PlacementAllocation PlacementLifecycle PlacementTrace.
From S2P Require Import PlacementScenario PlacementIntent PlacementOwnership.

(** ** The starts and stops of a log *)

Definition start_id (e : Event) : option string :=
  match e with EvStart p _ => Some (pl_placement_id p) | _ => None end.
Definition stop_id (e : Event) : option string :=
  match e with EvStop p _ => Some (pl_placement_id p) | _ => None end.
Definition start_ids : list Event → list string := omap start_id.
Definition stop_ids : list Event → list string := omap stop_id.

(** The identities [ids] are the phases in order, each in some order. *)
Definition phase_by_phase (phases : list (list string)) (ids : list string) : Prop :=
  ∃ groups, Forall2 (≡ₚ) groups phases ∧ ids = mjoin groups.

Lemma phase_by_phase_nil : phase_by_phase [] [].
Proof. exists []. by split. Qed.

Lemma phase_by_phase_cons phase phases ids1 ids2 :
  ids1 ≡ₚ phase → phase_by_phase phases ids2 → phase_by_phase (phase :: phases) (ids1 ++ ids2).
Proof. intros H1 (groups & H2 & ->). exists (ids1 :: groups). by split; [constructor|]. Qed.

Lemma phase_by_phase_Permutation phases phases' ids :
  Forall2 (≡ₚ) phases phases' → phase_by_phase phases ids → phase_by_phase phases' ids.
Proof.
  intros Hp (groups & Hg & ->). exists groups. split; [|done].
  revert phases' Hp. induction Hg; intros phases' Hp; inversion Hp; subst; constructor; [by etrans|auto].
Qed.

(** ** Phases and their identities *)

Lemma index_of_Some ps id i :
  index_of ps id = Some i → ∃ p, ps !! i = Some p ∧ pl_placement_id p = id.
Proof.
  unfold index_of. destruct (position _ (reverse ps)) as [k|] eqn:E; intros [= <-].
  apply position_Some in E as (p & Hk & Hp%bool_decide_eq_true). exists p. split; [|done].
  pose proof (lookup_lt_Some _ _ _ Hk) as Hlt. rewrite length_reverse in Hlt.
  rewrite reverse_lookup in Hk by done. rewrite <- Hk. f_equal. lia.
Qed.

Lemma index_of_is_Some ps id : id ∈ pl_placement_id <$> ps → is_Some (index_of ps id).
Proof.
  intros (p & -> & Hp)%list_elem_of_fmap. unfold index_of. apply fmap_is_Some.
  assert (p ∈ reverse ps) as Hr by (by rewrite elem_of_reverse). revert Hr.
  induction (reverse ps) as [|q l IH]; [by intros ?%not_elem_of_nil|].
  intros [->|Hl]%elem_of_cons; simpl.
  - rewrite bool_decide_eq_true_2 by done. eauto.
  - case_bool_decide; [eauto|]. apply fmap_is_Some. auto.
Qed.

Lemma mapM_result_total {E X Y} (f : X → result E Y) l :
  (∀ x, x ∈ l → ∃ y, f x = Ok y) → ∃ l', mapM_result f l = Ok l'.
Proof.
  induction l as [|x l IH]; intros H; simpl; [eauto|].
  destruct (H x) as [y ->]; [set_solver|]. destruct IH as [ys ->]; [set_solver|]. simpl. eauto.
Qed.

Definition turned {A} (backward : bool) (l : list A) : list A :=
  if backward then reverse l else l.

Lemma elem_of_turned {A} b (l : list A) x : x ∈ turned b l ↔ x ∈ l.
Proof. unfold turned. destruct b; [apply elem_of_reverse|done]. Qed.

Lemma phase_indices_ids record b phases :
  phase_indices record b = Ok phases →
  ids_at record <$> phases = turned b <$> turned b (rec_startup_order record).
Proof.
  unfold phase_indices. apply (mapM_result_fmap _ (turned b)). intros phase is_.
  intros H%mapM_result_Forall2.
  change ((if b then reverse phase else phase)) with (turned b phase) in H.
  induction H as [|id i ids is_ Hi _ IH]; [done|].
  apply ok_or_Ok, index_of_Some in Hi as (p & Hp & <-). unfold ids_at in *. simpl. rewrite Hp. simpl.
  f_equal. exact IH.
Qed.

Lemma phase_indices_total record b :
  validate_phases (rec_placements record) (rec_startup_order record) = Ok () →
  ∃ phases, phase_indices record b = Ok phases.
Proof.
  intros H%refuse_Ok. apply orb_false_iff in H as [_ H%negb_false_iff%bool_decide_eq_true].
  unfold phase_indices. apply mapM_result_total. intros phase Hphase.
  apply mapM_result_total. intros id Hid.
  assert (id ∈ pl_placement_id <$> rec_placements record) as [i Hi]%index_of_is_Some.
  { assert (id ∈ (list_to_set (mjoin (rec_startup_order record)) : gset string)) as Hin.
    { apply elem_of_list_to_set, list_elem_of_join. exists phase.
      split; [by apply (elem_of_turned b)|by apply (elem_of_turned b)]. }
    rewrite H in Hin. by apply elem_of_list_to_set in Hin. }
  rewrite Hi. simpl. eauto.
Qed.

Lemma ids_at_Permutation record is1 is2 : is1 ≡ₚ is2 → ids_at record is1 ≡ₚ ids_at record is2.
Proof. intros H. unfold ids_at. by rewrite H. Qed.

Lemma calls_events_ids {A} (ev : Placement → result PlacementError A → Event)
    (g : Event → option string) record outcomes :
  (∀ p r, g (ev p r) = Some (pl_placement_id p)) →
  omap g (calls_events ev (rec_placements record) outcomes) = ids_at record outcomes.*1.
Proof.
  intros Hg. unfold ids_at, calls_events. induction outcomes as [|[i r] outcomes IH]; [done|].
  simpl. destruct (rec_placements record !! i) as [p|]; simpl; [|done]. rewrite Hg. f_equal. exact IH.
Qed.

Lemma calls_events_none {A} (ev : Placement → result PlacementError A → Event)
    (g : Event → option string) record outcomes :
  (∀ p r, g (ev p r) = None) → omap g (calls_events ev (rec_placements record) outcomes) = [].
Proof.
  intros Hg. unfold calls_events. induction outcomes as [|[i r] outcomes IH]; [done|].
  simpl. destruct (rec_placements record !! i) as [p|]; simpl; [|done]. by rewrite Hg.
Qed.

(** ** The events of the phases *)

Lemma lifecycle_endpoint_Some p value capacity e :
  lifecycle_endpoint p value capacity = Ok (Some e) → value = Some e ∧ is_owner p = true.
Proof.
  unfold lifecycle_endpoint, is_owner.
  destruct (pa_endpoint_ownership _), value; intros H; repeat case_match; by simplify_eq.
Qed.

(** The outcomes left by a phase that did not fail. *)
Lemma fold_starts_Ok record outcomes endpoint b endpoint' :
  fold_starts record outcomes endpoint b = (endpoint', false) →
  b = false ∧ (∀ i r, (i, r) ∈ outcomes → is_ok r = true) ∧
  (endpoint' = endpoint ∨ ∃ i p e, (i, Ok (Some e)) ∈ outcomes ∧
     rec_placements record !! i = Some p ∧ endpoint' = Some e ∧
     lifecycle_endpoint p (Some e) (pg_capacity (rec_group record)) = Ok (Some e)).
Proof.
  revert endpoint b. induction outcomes as [|[i r] outcomes IH]; intros endpoint b H; simpl in H.
  { injection H as <- <-. split_and!; [done|by intros ?? ?%not_elem_of_nil|by left]. }
  destruct r as [value|e]; simpl in H.
  2: { apply IH in H as (? & _). done. }
  destruct (rec_placements record !! i) as [p|] eqn:Hp.
  2: { apply IH in H as (? & _). done. }
  destruct (lifecycle_endpoint p value _) as [[e|]|e] eqn:He; apply IH in H as (Hb & Hok & Hend);
    [| |done].
  all: split; [done|]; split; [intros j r [?|?]%elem_of_cons; [by simplify_eq|by eapply Hok]|].
  - right. destruct Hend as [->|(j & q & e' & ? & ? & ? & ?)]; [|exists j, q, e'; set_solver].
    destruct (lifecycle_endpoint_Some _ _ _ _ He) as [-> _]. exists i, p, e. set_solver.
  - destruct Hend as [->|(j & q & e' & ? & ? & ? & ?)]; [by left|right]. exists j, q, e'. set_solver.
Qed.

Lemma filter_all {A} (f : A → bool) l : (∀ x, f x = true) → List.filter f l = l.
Proof. intros H. induction l as [|x l IH]; simpl; [done|]. by rewrite H, IH. Qed.

Section phases.
Context {W : Type} `{!PlacementStore W, !PlacementExecution W, !PlacementIdentity W,
  !PhaseScheduler W}.

Lemma run_void_loop_stops record phases s f (w : LW W) s' f' w' :
  run_void_loop record ActionStop phases s f w = (s', f', w') →
  ∃ evs, w'.2 = w.2 ++ evs ∧ start_ids evs = [] ∧
    phase_by_phase (ids_at record <$> phases) (stop_ids evs).
Proof.
  revert s f w. induction phases as [|phase phases IH]; intros s f w H; simpl in H.
  { injection H as <- <- <-. exists []. rewrite app_nil_r. split_and!; [done..|apply phase_by_phase_nil]. }
  rewrite filter_all in H by done.
  match type of H with context [run_phase ?c ?ps ?pending w] =>
    destruct (run_phase c ps pending w) as [outcomes w1] eqn:E end.
  apply (run_phase_events execute_stop EvStop) in E as (ran & _ & Hran & Hlog).
  apply IH in H as (evs & Hevs & Hst & Hsp). exists (calls_events EvStop (rec_placements record) ran ++ evs).
  unfold start_ids, stop_ids in *. rewrite Hevs, Hlog, <- app_assoc, !omap_app, Hst.
  rewrite calls_events_none, (calls_events_ids EvStop stop_id) by done. split_and!; [done..|].
  apply phase_by_phase_cons; [by apply ids_at_Permutation|done].
Qed.

Lemma run_void_phases_stops record (w : LW W) s f w' :
  validate_phases (rec_placements record) (rec_startup_order record) = Ok () →
  run_void_phases record ActionStop true w = (s, f, w') →
  ∃ evs, w'.2 = w.2 ++ evs ∧ start_ids evs = [] ∧
    phase_by_phase (reverse (rec_startup_order record)) (stop_ids evs).
Proof.
  intros Hv. unfold run_void_phases. destruct (phase_indices_total record true Hv) as [phases Hp].
  rewrite Hp. intros (evs & ? & ? & Hids)%run_void_loop_stops. exists evs. split_and!; [done..|].
  rewrite (phase_indices_ids _ _ _ Hp) in Hids. eapply phase_by_phase_Permutation; [|exact Hids].
  apply Forall2_fmap_l, Forall_Forall2_diag, Forall_true. intros phase. apply reverse_Permutation.
Qed.

Lemma start_phases_events record ack phases endpoint (w : LW W) out w' :
  start_phases record ack phases endpoint w = (out, w') →
  ∃ evs, w'.2 = w.2 ++ evs ∧ stop_ids evs = [] ∧
    ∀ endpoint', out = Some endpoint' →
      phase_by_phase (ids_at record <$> phases) (start_ids evs) ∧
      (∀ p r, EvStart p r ∈ evs → is_ok r = true) ∧
      (endpoint' = endpoint ∨ ∃ p e, endpoint' = Some e ∧ EvStart p (Ok (Some e)) ∈ evs ∧
         lifecycle_endpoint p (Some e) (pg_capacity (rec_group record)) = Ok (Some e)).
Proof.
  revert endpoint w. induction phases as [|phase phases IH]; intros endpoint w H; simpl in H.
  { injection H as <- <-. exists []. rewrite app_nil_r. split_and!; [done..|].
    intros ? [= <-]. split_and!; [apply phase_by_phase_nil|by intros ?? ?%not_elem_of_nil|by left]. }
  unfold run_start_phase in H. match type of H with context [run_phase ?c ?ps ?pending w] =>
    destruct (run_phase c ps pending w) as [outcomes w1] eqn:E end.
  apply (run_phase_events (λ p, execute_start p ack) EvStart) in E as (ran & Hperm & Hran & Hlog).
  set (evs1 := calls_events EvStart (rec_placements record) ran) in *.
  assert (stop_ids evs1 = []) as Hstop1 by (by apply calls_events_none).
  destruct (fold_starts record outcomes endpoint false) as [endpoint1 failed] eqn:Hf.
  destruct failed.
  { injection H as <- <-. exists evs1. by split_and!. }
  apply fold_starts_Ok in Hf as (_ & Hok & Hend). apply IH in H as (evs & Hevs & Hst & Hout).
  exists (evs1 ++ evs). rewrite Hevs, Hlog, <- app_assoc. split; [done|].
  split; [unfold stop_ids in *; by rewrite omap_app, Hstop1, Hst|].
  intros endpoint' Ho. destruct (Hout _ Ho) as (Hph & Hok2 & Hend2). split_and!.
  - unfold start_ids. rewrite omap_app. apply phase_by_phase_cons; [|done]. unfold evs1.
    rewrite (calls_events_ids EvStart start_id) by done. by apply ids_at_Permutation.
  - intros p r [(i & r' & p' & Hin & _ & [= -> ->])%elem_of_calls_events|Hin]%elem_of_app; [|by eapply Hok2].
    eapply Hok. by rewrite Hperm.
  - destruct Hend2 as [->|(p & e & -> & Hin & He)]; [|right; exists p, e; set_solver].
    destruct Hend as [->|(i & p & e & Hin & Hp & -> & He)]; [by left|right]. exists p, e.
    split; [done|]. split; [|done]. apply elem_of_app. left. apply elem_of_calls_events.
    exists i, (Ok (Some e)), p. by rewrite <- Hperm.
Qed.
End phases.

(** ** Starting a record *)

(** The log [l0] grew by events with these starts and stops. *)
Definition grew (l0 : list Event) (starts stops : list string) (l : list Event) : Prop :=
  ∃ evs, l = l0 ++ evs ∧ start_ids evs = starts ∧ stop_ids evs = stops.

Lemma grew_refl l : grew l [] [] l.
Proof. exists []. by rewrite app_nil_r. Qed.

Lemma grew_app l0 a b l evs :
  grew l0 a b l → grew l0 (a ++ start_ids evs) (b ++ stop_ids evs) (l ++ evs).
Proof.
  intros (evs0 & -> & <- & <-). exists (evs0 ++ evs). unfold start_ids, stop_ids.
  by rewrite !omap_app, app_assoc.
Qed.

Lemma grew_calm l0 a b l e :
  start_id e = None → stop_id e = None → grew l0 a b l → grew l0 a b (l ++ [e]).
Proof.
  intros H1 H2 Hg. apply (grew_app _ _ _ _ [e]) in Hg. unfold start_ids, stop_ids in Hg. simpl in Hg.
  by rewrite H1, H2, !app_nil_r in Hg.
Qed.

Record started (record : PlacementRecord) (l : list Event) : Prop := {
  st_state : pg_state (rec_group record) = GroupRunning;
  st_placements : ∀ p, p ∈ rec_placements record → pl_state p = PlacementRunning;
  st_order : phase_by_phase (rec_startup_order record) (start_ids l);
  st_ok : ∀ p r, EvStart p r ∈ l → is_ok r = true;
  st_stops : stop_ids l = [];
  st_endpoint : ∃ p e, EvStart p (Ok (Some e)) ∈ l ∧ is_owner p = true ∧
    pg_endpoint (rec_group record) = Some e ∧
    lifecycle_endpoint p (Some e) (pg_capacity (rec_group record)) = Ok (Some e);
}.

Record rolled_back (record : PlacementRecord) (l : list Event) : Prop := {
  rb_state : pg_state (rec_group record) = GroupFailed;
  rb_endpoint : pg_endpoint (rec_group record) = None;
  rb_order : ∃ l1 l2, l = l1 ++ l2 ∧ stop_ids l1 = [] ∧ start_ids l2 = [] ∧
    phase_by_phase (reverse (rec_startup_order record)) (stop_ids l2);
}.

Lemma record_with_phases current ps ls state desired endpoint f now record :
  record_with current ps ls state desired endpoint f now = Ok record →
  pg_capacity (rec_group record) = pg_capacity (rec_group current) ∧
  validate_phases (rec_placements record) (rec_startup_order record) = Ok ().
Proof.
  unfold record_with. intros (t & _ & H)%result_bind_Ok.
  apply result_bind_Ok in H as (group & Hg & [Hv ->]%PlacementRecord_new_Ok). simpl.
  apply validate_record_Ok in Hv as (_ & _ & _ & Hv & _). split; [|done].
  destruct (PlacementGroup_new _ _ _ _ _ _ _ _ _ _ _) eqn:E; simplify_eq.
  unfold PlacementGroup_new in E. repeat case_match; by simplify_eq.
Qed.

Section start.
Context {W : Type} `{!PlacementStore W, !PlacementExecution W, !PlacementIdentity W,
  !PhaseScheduler W, !PlacementStoreReturns W}.
Abbreviation M := (SE (LW W) PlacementError).

Lemma resolving_calm l0 a b record rev :
  runs (W := W) (grew l0 a b) (replace_resolving_uncertainty record rev)
    (λ r l, grew l0 a b l ∧ ∀ v, r = Ok v → vr_record v = record).
Proof.
  apply runs_resolving.
  - intros l r w0 w1 Hl E. assert (grew l0 a b (l ++ [EvReplace record r])) by (by apply grew_calm).
    destruct r as [v|e]; [|done]. split; [done|]. intros ? [= <-]. by eapply replace_returns.
  - intros l id r Hl. by apply grew_calm.
  - done.
  - intros l v Hl Hv. split; [done|]. by intros ? [= <-].
Qed.

(** The outcome of a rollback after the log [l0]. *)
Definition rollback_from (l0 : list Event) (current : PlacementRecord)
    (r : result PlacementError PlacementChange) (l : list Event) : Prop :=
  ∃ stops, grew l0 [] stops l ∧ phase_by_phase (reverse (rec_startup_order current)) stops ∧
    ∀ ch, r = Ok ch →
      let record := vr_record (ch_record ch) in
      ch_event ch = EventFailed (pg_placement_group_id (rec_group record)) ∧
      pg_state (rec_group record) = GroupFailed ∧ pg_endpoint (rec_group record) = None ∧
      rec_startup_order record = rec_startup_order current.

Lemma start_failed_rolls_back l0 current :
  validate_phases (rec_placements (vr_record current)) (rec_startup_order (vr_record current)) = Ok () →
  runs (λ l, l = l0) (start_failed current : M PlacementChange)
    (rollback_from l0 (vr_record current)).
Proof.
  intros Hv w r w' <-. unfold start_failed.
  destruct (run_void_phases (vr_record current) ActionStop true w) as [[s f] w1] eqn:E.
  apply run_void_phases_stops in E as (evs & Hlog & Hst & Hph); [|done].
  assert (grew w.2 [] (stop_ids evs) w1.2) as Hg.
  { rewrite Hlog. pose proof (grew_app _ _ _ _ evs (grew_refl w.2)) as Hg. by rewrite Hst in Hg. }
  set (K := grew w.2 [] (stop_ids evs)) in *.
  assert (∀ l e, K l → rollback_from w.2 (vr_record current) (Err e) l) as Herr.
  { intros l e Hl. exists (stop_ids evs). split_and!; [done..|]. by intros ch [=]. }
  match goal with |- ?c w1 = _ → _ =>
    cut (runs K c (rollback_from w.2 (vr_record current))); [intros Hc H; by eapply Hc|] end.
  apply runs_silent; [apply silent_quiet|done|]. intros now.
  do 3 (apply runs_bind_lift; [intros e l _; apply Herr|intros ? _]).
  apply runs_bind_lift; [intros e l _; apply Herr|]. intros record (Hs & _ & _ & He & Ho)%record_with_state.
  apply (runs_bind _ _ _ (λ v l, K l ∧ vr_record v = record)).
  - eapply runs_weaken; [apply resolving_calm|done|]. intros [v|e] l [Hl Hr]; auto.
  - intros v. apply runs_ret. intros l [Hl <-]. exists (stop_ids evs). split_and!; [done..|].
    intros ch [= <-]. by split_and!.
Qed.

(** The outcome of the final commit after the log [l0]: the running record with
    the endpoint, a rollback, or an error of the rebuilt record. *)
Definition published_from (l0 : list Event) (current : PlacementRecord) (endpoint : PlacementEndpoint)
    (event : PlacementEventKind) (r : result PlacementError PlacementChange) (l : list Event) : Prop :=
  (∃ v, r = Ok (change v event) ∧ grew l0 [] [] l ∧
     pg_state (rec_group (vr_record v)) = GroupRunning ∧
     pg_endpoint (rec_group (vr_record v)) = Some endpoint ∧
     pg_capacity (rec_group (vr_record v)) = pg_capacity (rec_group current) ∧
     rec_startup_order (vr_record v) = rec_startup_order current ∧
     ∀ p, p ∈ rec_placements (vr_record v) → pl_state p = PlacementRunning) ∨
  (∃ l1, grew l0 [] [] l1 ∧ rollback_from l1 current r l) ∨
  (∃ e, r = Err e).

Lemma start_failed_published l0 current endpoint event :
  validate_phases (rec_placements (vr_record current)) (rec_startup_order (vr_record current)) = Ok () →
  runs (grew l0 [] []) (start_failed current : M PlacementChange)
    (published_from l0 (vr_record current) endpoint event).
Proof.
  intros Hv w r w' Hl H. right. left. exists w.2. split; [done|].
  by eapply (start_failed_rolls_back w.2 current Hv).
Qed.

Lemma publish_running_events l0 current endpoint event :
  validate_phases (rec_placements (vr_record current)) (rec_startup_order (vr_record current)) = Ok () →
  runs (grew l0 [] []) (publish_running current endpoint event : M PlacementChange)
    (published_from l0 (vr_record current) endpoint event).
Proof.
  intros Hv. unfold publish_running.
  apply (runs_match _ _ (λ _, grew l0 [] [])); [by apply runs_quiet| |].
  2: { intros _. by apply start_failed_published. }
  intros now. apply runs_bind_lift; [intros e l _ _; right; right; eauto|].
  intros ps [_ Hps]%set_states_Ok. apply runs_bind_lift; [intros e l _ _; right; right; eauto|].
  intros ls _. destruct (record_with _ _ _ _ _ _ _ _) as [record|e] eqn:E.
  2: by apply start_failed_published.
  destruct (record_with_phases _ _ _ _ _ _ _ _ _ E) as [Hc _].
  apply record_with_state in E as (Hs & Hp & _ & He & Ho).
  eapply runs_match; [apply resolving_calm| |].
  - intros v w r w' [Hl Hr] [= <- <-]. left. exists v. rewrite (Hr v eq_refl), Hp. by split_and!.
  - intros e. eapply runs_weaken; [by apply start_failed_published| |done]. by intros l [? _].
Qed.

(** Neither a start nor a stop so far. *)
Definition calm (l : list Event) : Prop := start_ids l = [] ∧ stop_ids l = [].

Lemma calm_snoc l e : start_id e = None → stop_id e = None → calm l → calm (l ++ [e]).
Proof.
  intros H1 H2 [? ?]. unfold calm, start_ids, stop_ids in *. rewrite !omap_app. simpl.
  by rewrite H1, H2, !app_nil_r.
Qed.

Lemma no_start_ids l p r : start_ids l = [] → EvStart p r ∉ l.
Proof.
  intros H Hin. apply (elem_of_nil (A := string) (pl_placement_id p)). unfold start_ids in H.
  rewrite <- H. apply list_elem_of_omap. by exists (EvStart p r).
Qed.

(** The two outcomes of a start. *)
Definition start_outcome (event : PlacementEventKind) (r : result PlacementError PlacementChange)
    (l : list Event) : Prop :=
  ∀ ch, r = Ok ch →
    let record := vr_record (ch_record ch) in
    (ch = change (ch_record ch) event ∧ started record l) ∨
    (ch = change (ch_record ch) KindFailed ∧ rolled_back record l).

Lemma rollback_outcome event current l0 r l :
  stop_ids l0 = [] → rollback_from l0 current r l → start_outcome event r l.
Proof.
  intros Hl0 (stops & (evs & -> & Hst & <-) & Hph & Hr) ch Hch. right.
  destruct (Hr ch Hch) as (Hev & Hs & He & Ho). split.
  - destruct ch as [v ev]. simpl in *. by rewrite Hev.
  - split; [done..|]. exists l0, evs. by rewrite Ho.
Qed.

Lemma published_outcome event record l0 phases evs endpoint p r l :
  calm l0 → stop_ids evs = [] → phases = rec_startup_order record →
  phase_by_phase phases (start_ids evs) → (∀ p r, EvStart p r ∈ evs → is_ok r = true) →
  EvStart p (Ok (Some endpoint)) ∈ evs →
  lifecycle_endpoint p (Some endpoint) (pg_capacity (rec_group record)) = Ok (Some endpoint) →
  published_from (l0 ++ evs) record endpoint event r l → start_outcome event r l.
Proof.
  intros [H0s H0p] Hstop -> Hph Hok Hin Hend.
  intros [(v & -> & (evs2 & -> & Hs2 & Hp2) & Hst & He & Hc & Ho & Hps)|[(l1 & (evs2 & -> & Hs2 & Hp2) & Hrb)|[e ->]]].
  - intros ch [= <-]. left. split; [done|]. simpl. split; [done..| | | |].
    + unfold start_ids in *. rewrite !omap_app, H0s, Hs2, Ho. by rewrite app_nil_r.
    + intros q r [[Hq|Hq]%elem_of_app|Hq]%elem_of_app; [by apply no_start_ids in Hq|eauto|
        by apply no_start_ids in Hq].
    + unfold stop_ids in *. by rewrite !omap_app, H0p, Hstop, Hp2.
    + exists p, endpoint. rewrite Hc. split; [set_solver|].
      by destruct (lifecycle_endpoint_Some _ _ _ _ Hend).
  - eapply rollback_outcome; [|done]. unfold stop_ids in *. by rewrite !omap_app, H0p, Hstop, Hp2.
  - by intros ch [=].
Qed.

(** After the durable record [current] of the start. *)
Lemma start_record_phases current ack event phases :
  phase_indices (vr_record current) false = Ok phases →
  validate_phases (rec_placements (vr_record current)) (rec_startup_order (vr_record current)) = Ok () →
  runs calm (λ w, match start_phases (vr_record current) ack phases None w with
                  | (Some (Some endpoint), w) => publish_running current endpoint event w
                  | (_, w) => start_failed current w
                  end : result PlacementError PlacementChange * LW W) (start_outcome event).
Proof.
  intros Hph Hv w r w' Hcalm.
  destruct (start_phases _ ack phases None w) as [out w1] eqn:E.
  apply start_phases_events in E as (evs & Hlog & Hstop & Hout).
  pose proof (phase_indices_ids _ _ _ Hph) as Hids. unfold turned in Hids. rewrite list_fmap_id in Hids.
  assert (start_failed current w1 = (r, w') → start_outcome event r w'.2) as Hfail.
  { intros H. eapply rollback_outcome; [|by eapply (start_failed_rolls_back w1.2)].
    destruct Hcalm as [_ Hc]. rewrite Hlog. unfold stop_ids in *. by rewrite omap_app, Hstop, Hc. }
  destruct out as [[endpoint|]|]; [|done..]. intros H.
  destruct (Hout _ eq_refl) as (Hphases & Hok & [|(p & e & [= <-] & Hin & He)]); [done|].
  eapply (publish_running_events w1.2) in H; [|done|apply grew_refl]. rewrite Hlog in H.
  eapply published_outcome; [done|exact Hstop|exact Hids|done..].
Qed.

Lemma start_record_outcome current ack event :
  runs calm (start_record current ack event : M PlacementChange) (start_outcome event).
Proof.
  assert (∀ e l, start_outcome event (Err e) l) as Herr by (by intros e l ch [=]).
  unfold start_record. apply runs_silent; [apply silent_quiet|done|]. intros now.
  do 2 (apply runs_bind_lift; [done|intros ? _]). apply runs_bind_lift; [done|].
  intros record [_ Hv]%record_with_phases.
  apply (runs_bind _ _ _ (λ v l, calm l ∧ vr_record v = record)).
  - intros w r w' Hl. simpl. unfold log_call.
    destruct (store_replace record _ w.1) as [r0 w0] eqn:E. intros [= <- <-]. simpl.
    destruct r0 as [v|e]; [|done]. split; [by apply calm_snoc|by eapply replace_returns].
  - intros v w r w' [Hl <-]. revert w r w' Hl. apply runs_bind_lift; [done|].
    intros phases Hph. by apply start_record_phases.
Qed.

(** C20: a start of a staged or stopped group that returns a change is all or
    nothing.  Either it reports [Running]: every placement was started and every
    start succeeded, phase by phase in the startup order, nothing was stopped, and
    the record is running with the checked endpoint the owner published.  Or it
    reports [Failed]: after the last start every placement was stopped, phase by
    phase in the reverse order, and the record is failed with no endpoint. *)
Theorem start_is_all_or_nothing id (w : W) v w1 ch w' :
  store_read id w = (Ok (Some v), w1) →
  pg_state (rec_group (vr_record v)) = GroupStaged ∨
  pg_state (rec_group (vr_record v)) = GroupStopped →
  perform (OpStart id) (w, []) = (Ok ch, w') →
  let record := vr_record (ch_record ch) in
  let group_id := pg_placement_group_id (rec_group record) in
  (ch_event ch = EventRunning group_id ∧ started record w'.2) ∨
  (ch_event ch = EventFailed group_id ∧ rolled_back record w'.2).
Proof.
  intros Hr Hst. erewrite perform_continue by done. cbn [continue]. intros H.
  assert (start_record v false KindRunning (w1, [EvRead id (Ok (Some v))]) = (Ok ch, w')) as Hs
    by (by destruct Hst as [E|E]; rewrite E in H).
  apply start_record_outcome in Hs; [|done].
  destruct (Hs ch eq_refl) as [[-> ?]|[-> ?]]; [by left|by right].
Qed.
End start.

(** The staged group of the scenario, started with every call answered and with
    the start of the owner failing. *)
Definition good_world : Scenario.World := Scenario.staged_world.
Definition bad_world : Scenario.World :=
  Scenario.script [] ["start p-task-0"%string] Scenario.staged_world.
Definition start_in (w : Scenario.World) := perform (OpStart "g"%string) (w, []).

Definition reports (event : PlacementEvent) (out : result PlacementError PlacementChange * LW Scenario.World)
  : bool := match out.1 with Ok ch => bool_decide (ch_event ch = event) | Err _ => false end.

Lemma scenario_read (w : Scenario.World) :
  match Scenario.stored w with
  | Some v => bool_decide (pg_placement_group_id (rec_group (vr_record v)) = "g"%string)
              && bool_decide (pg_state (rec_group (vr_record v)) = GroupStaged)
  | None => false
  end = true →
  ∃ v, store_read "g"%string w = (Ok (Some v), w) ∧ pg_state (rec_group (vr_record v)) = GroupStaged.
Proof.
  cbn. destruct (Scenario.stored w) as [v|]; [|done].
  intros [H1 H2%bool_decide_eq_true]%andb_true_iff. exists v. by rewrite H1.
Qed.

Lemma reports_Ok event w :
  reports event (start_in w) = true →
  ∃ ch w', start_in w = (Ok ch, w') ∧ perform (OpStart "g"%string) (w, []) = (Ok ch, w') ∧
    ch_event ch = event.
Proof.
  unfold reports, start_in. destruct (perform _ _) as [[ch|] w']; [|done]. simpl.
  intros H%bool_decide_eq_true. by exists ch, w'.
Qed.

Lemma good_reports : reports (EventRunning "g"%string) (start_in good_world) = true.
Proof. vm_compute. reflexivity. Qed.
Lemma bad_reports : reports (EventFailed "g"%string) (start_in bad_world) = true.
Proof. vm_compute. reflexivity. Qed.

Lemma start_is_all_or_nothing_witness :
  (∃ ch w', start_in good_world = (Ok ch, w') ∧ started (vr_record (ch_record ch)) w'.2) ∧
  (∃ ch w', start_in bad_world = (Ok ch, w') ∧ rolled_back (vr_record (ch_record ch)) w'.2).
Proof.
  split.
  - destruct (scenario_read good_world ltac:(vm_compute; reflexivity)) as (v & Hr & Hs).
    destruct (reports_Ok _ _ good_reports) as (ch & w' & E & E' & Hev).
    exists ch, w'. split; [exact E|].
    destruct (start_is_all_or_nothing "g"%string good_world v good_world ch w'
      Hr (or_introl Hs) E') as [[_ H]|[H _]]; [exact H|].
    rewrite Hev in H. discriminate H.
  - destruct (scenario_read bad_world ltac:(vm_compute; reflexivity)) as (v & Hr & Hs).
    destruct (reports_Ok _ _ bad_reports) as (ch & w' & E & E' & Hev).
    exists ch, w'. split; [exact E|].
    destruct (start_is_all_or_nothing "g"%string bad_world v bad_world ch w'
      Hr (or_introl Hs) E') as [[H _]|[_ H]]; [|exact H].
    rewrite Hev in H. discriminate H.
Defined.

(** The start of the staged group with a clock that goes back before the creation
    of the placements once the engines run. *)
Definition clock_back : Scenario.World := Scenario.script [600; 100] [] Scenario.staged_world.

(** A start is not rolled back on every error.  When the reading after
    the last phase precedes the creation of a placement, rebuilding the placements
    fails and the start returns that error at once: both engines run, no stop was
    issued and the durable group stays starting. *)
Theorem clock_step_leaves_engines_running :
  ∃ e w', start_in clock_back = (Err e, w') ∧
    Scenario.engines w'.1 = ["p-task-0"; "p-task-1"]%string ∧ stop_ids w'.2 = [] ∧
    Scenario.state_of w'.1 = Some GroupStarting.
Proof.
  destruct (start_in clock_back) as [r w'] eqn:E. vm_compute in E. injection E as <- <-.
  eexists _, _. by split_and!.
Qed.
