(* ===== verification/PlacementProtection.v ===== *)
(** * Placement protection: descriptors, acknowledgements and the slot protocol

    [core/placement/src/li_linux_protection_provider.rs] and the identities of
    [core/placement/src/li_linux_placement_executor.rs]: the placement publishes a
    descriptor of its process in a private slot and waits, a bounded number of
    times, for the Watchdog's acknowledgement.  The private files and the entropy
    source are the class [LinuxProtectionIo] over a world [W]. *)

From Stdlib Require Ascii.
From S2P Require Import Prelude Values Text Placement.
Import (notations) Stdlib.Strings.Ascii.

(** ** Identities *)

Record LinuxProtectedProcessIdentity := {
  lp_container_name : string;
  lp_container_id : string;
  lp_process_id : Z;
  lp_process_start_ticks : Z;
  lp_boot_id : string;
  lp_cgroup : string;
}.

#[export] Instance LinuxProtectedProcessIdentity_eq_dec : EqDecision LinuxProtectedProcessIdentity.
Proof. solve_decision. Defined.

(** A canonical lowercase UUID: dashes at 8, 13, 18 and 23. *)
Definition is_linux_boot_id (value : string) : bool :=
  (str_len value =? 36)
  && forallb (λ '(index, byte),
       if (index =? 8)%nat || (index =? 13)%nat || (index =? 18)%nat || (index =? 23)%nat
       then byte =? 45 else is_lower_hex_byte byte)
     (imap pair (bytes value)).

Definition identity_error : PlacementError :=
  PlacementInvalidRequest "protected process identity is incomplete or unsafe".

Definition LinuxProtectedProcessIdentity_new (container_name container_id : string)
    (process_id process_start_ticks : Z) (boot_id cgroup : string)
  : result PlacementError LinuxProtectedProcessIdentity :=
  if (process_id <=? 1) || (process_start_ticks =? 0) || negb (is_linux_boot_id boot_id)
     || bool_decide (cgroup = ""%string) || (4095 <? str_len cgroup)
     || negb (starts_with "/sys/fs/cgroup/" cgroup)
     || existsb (λ c, is_control c || is_whitespace c || (c =? 61)) (chars cgroup)
     || existsb (λ component, bool_decide (component = ".."%string)) (split_char "/"%char cgroup)
  then Err identity_error
  else Ok {| lp_container_name := container_name; lp_container_id := container_id;
             lp_process_id := process_id; lp_process_start_ticks := process_start_ticks;
             lp_boot_id := boot_id; lp_cgroup := cgroup |}.

Definition PlacementProtectionGeneration_parse (value : string) : result PlacementError string :=
  if negb (str_len value =? 32) || negb (forallb is_lower_hex_byte (bytes value))
  then Err (PlacementInvalidRequest
              "protection generation must be 32 lowercase hexadecimal characters")
  else Ok value.

Inductive PlacementProtectionPhase :=
| Unconfigured | ProtectionPending | ProtectionStarting | ProtectionArmed | ProtectionDisarmed.

#[export] Instance PlacementProtectionPhase_eq_dec : EqDecision PlacementProtectionPhase.
Proof. solve_decision. Defined.

Record PlacementProtectionStatus := {
  ps_phase : PlacementProtectionPhase;
  ps_trip_latched : bool;
}.

Record PlacementProtectedTarget := {
  pt_generation : string;
  pt_phase : PlacementProtectionPhase;
  pt_process : LinuxProtectedProcessIdentity;
}.

Definition needs_process (p : PlacementProtectionPhase) : bool :=
  match p with ProtectionStarting | ProtectionArmed => true | _ => false end.

Definition PlacementProtectedTarget_new (generation : string) (phase : PlacementProtectionPhase)
    (process : LinuxProtectedProcessIdentity) : result PlacementError PlacementProtectedTarget :=
  if negb (needs_process phase) then Err ProtectionUnsafe
  else Ok {| pt_generation := generation; pt_phase := phase; pt_process := process |}.

(** [map_err(|_| ProtectionUnsafe)]. *)
Definition or_unsafe {E A} (r : result E A) : result PlacementError A :=
  match r with Ok a => Ok a | Err _ => Err ProtectionUnsafe end.

Definition linux_placement_container_name (placement : Placement)
  : result PlacementError string :=
  or_unsafe (TechnicalName_parse ("li_placement_" +:+ pl_placement_id placement)).

(** ** Descriptors *)

Definition require_process_name (placement : Placement)
    (process : LinuxProtectedProcessIdentity) : result PlacementError () :=
  let? name := linux_placement_container_name placement in
  if negb (bool_decide (lp_container_name process = name)) then Err ProtectionUnsafe else Ok ().

Definition protection_phase_name (phase : PlacementProtectionPhase)
  : result PlacementError string :=
  match phase with
  | ProtectionPending => Ok "pending"%string
  | ProtectionStarting => Ok "starting"%string
  | ProtectionArmed => Ok "armed"%string
  | ProtectionDisarmed => Ok "disarmed"%string
  | Unconfigured => Err ProtectionUnsafe
  end.

Definition protection_phase (value : string) : result PlacementError PlacementProtectionPhase :=
  if bool_decide (value = "pending"%string) then Ok ProtectionPending
  else if bool_decide (value = "starting"%string) then Ok ProtectionStarting
  else if bool_decide (value = "armed"%string) then Ok ProtectionArmed
  else if bool_decide (value = "disarmed"%string) then Ok ProtectionDisarmed
  else Err ProtectionUnsafe.

(** One [key=value] line with its terminator. *)
Definition field_line (name value : string) : string := name +:+ "=" +:+ value +:+ nl.

(** The descriptor text of a generation, a phase name, a container name and the
    five process fields, a dash each when there is no process. *)
Definition descriptor_text (generation phase name container_id process_id start_ticks boot_id
    cgroup : string) : string :=
  field_line "version" "1" +:+ field_line "generation" generation +:+ field_line "phase" phase
  +:+ field_line "container_name" name +:+ field_line "container_id" container_id
  +:+ field_line "pid" process_id +:+ field_line "start_ticks" start_ticks
  +:+ field_line "boot_id" boot_id +:+ field_line "cgroup" cgroup.

Definition protection_descriptor (placement : Placement) (generation : string)
    (phase : PlacementProtectionPhase) (process : option LinuxProtectedProcessIdentity)
  : result PlacementError string :=
  if negb (eqb (needs_process phase) (match process with Some _ => true | None => false end))
     || bool_decide (phase = Unconfigured)
  then Err ProtectionUnsafe
  else
    let? _ := match process with
              | Some process => require_process_name placement process
              | None => Ok ()
              end in
    let? name := linux_placement_container_name placement in
    let? phase := protection_phase_name phase in
    Ok (match process with
        | Some process =>
          descriptor_text generation phase name (lp_container_id process)
            (to_decimal (lp_process_id process)) (to_decimal (lp_process_start_ticks process))
            (lp_boot_id process) (lp_cgroup process)
        | None => descriptor_text generation phase name "-" "-" "-" "-" "-"
        end).

(** [parse_lines]: an exact number of unique [key=value] lines. *)
Fixpoint collect_lines (ls : list string) (values : list (string * string))
  : result PlacementError (list (string * string)) :=
  match ls with
  | [] => Ok values
  | line :: ls =>
    let? (key, value) := ok_or ProtectionUnsafe (split_once "="%char line) in
    if bool_decide (key = ""%string) || has_char "="%char value
       || existsb (λ '(existing, _), bool_decide (existing = key)) values
    then Err ProtectionUnsafe
    else collect_lines ls (values ++ [(key, value)])
  end.

Definition parse_lines (payload : string) (expected_fields : nat)
  : result PlacementError (list (string * string)) :=
  if negb (is_utf8 payload) then Err ProtectionUnsafe
  else if negb (ends_with newline payload) then Err ProtectionUnsafe
  else let? values := collect_lines (lines payload) [] in
       if negb (length values =? expected_fields)%nat then Err ProtectionUnsafe else Ok values.

Definition value_of (values : list (string * string)) (key : string)
  : result PlacementError string :=
  ok_or ProtectionUnsafe
    (snd <$> List.find (λ '(candidate, _), bool_decide (candidate = key)) values).

Record ProtectionDescriptor := {
  pd_generation : string;
  pd_phase : PlacementProtectionPhase;
  pd_container_name : string;
  pd_process : option LinuxProtectedProcessIdentity;
}.

Definition parse_descriptor (payload : string) : result PlacementError ProtectionDescriptor :=
  let? values := parse_lines payload 9 in
  let? version := value_of values "version" in
  if negb (bool_decide (version = "1"%string)) then Err ProtectionUnsafe
  else
    let? generation_text := value_of values "generation" in
    let? generation := PlacementProtectionGeneration_parse generation_text in
    let? phase_text := value_of values "phase" in
    let? phase := protection_phase phase_text in
    let? name_text := value_of values "container_name" in
    let? container_name := or_unsafe (TechnicalName_parse name_text) in
    let? process :=
      if needs_process phase then
        let? id_text := value_of values "container_id" in
        let? container_id := or_unsafe (Sha256Digest_parse id_text) in
        let? pid_text := value_of values "pid" in
        let? process_id := ok_or ProtectionUnsafe (parse_unsigned u32_max pid_text) in
        let? ticks_text := value_of values "start_ticks" in
        let? start_ticks := ok_or ProtectionUnsafe (parse_unsigned u64_max ticks_text) in
        let? boot_text := value_of values "boot_id" in
        let? boot_id := or_unsafe (BootId_parse boot_text) in
        let? cgroup := value_of values "cgroup" in
        let? process := LinuxProtectedProcessIdentity_new container_name container_id process_id
                          start_ticks boot_id cgroup in
        Ok (Some process)
      else if existsb (λ key, match value_of values key with
                              | Ok value => negb (bool_decide (value = "-"%string))
                              | Err _ => true
                              end)
                ["container_id"; "pid"; "start_ticks"; "boot_id"; "cgroup"]%string
      then Err ProtectionUnsafe
      else Ok None in
    Ok {| pd_generation := generation; pd_phase := phase; pd_container_name := container_name;
          pd_process := process |}.

(** [value(..).ok() == Some(expected)]. *)
Definition value_is (values : list (string * string)) (key expected : string) : bool :=
  match value_of values key with Ok value => bool_decide (value = expected) | Err _ => false end.

Definition acknowledgement_matches (payload generation : string)
    (phase : PlacementProtectionPhase) (container_id : option string) : bool :=
  match parse_lines payload 4 with
  | Err _ => false
  | Ok values =>
    value_is values "version" "1" && value_is values "generation" generation
    && match value_of values "phase", protection_phase_name phase with
       | Ok value, Ok name => bool_decide (value = name)
       | Err _, Err _ => true
       | _, _ => false
       end
    && value_is values "container_id" (default "-"%string container_id)
  end.

(** ** The slot protocol *)

Inductive SlotFile := StateFile | AcknowledgementFile | TripFile.

(** [LinuxProtectionIo] and [PlacementProtectionGenerationProvider]; a path is the
    protection root, a slot or one file of a slot. *)
Class LinuxProtectionIo (W : Type) := {
  ensure_root : W → result PlacementError () * W;
  ensure_slot : string → W → result PlacementError () * W;
  write_atomic_private_file : string → SlotFile → string → W → result PlacementError () * W;
  read_private_file : string → SlotFile → W → result PlacementError (option string) * W;
  remove_private_file : string → SlotFile → W → result PlacementError bool * W;
  remove_private_directory : string → W → result PlacementError bool * W;
  wait_interval : W → W;
  new_generation : W → result PlacementError string * W;
}.

Section provider.
Context {W : Type} `{!LinuxProtectionIo W} (acknowledgement_attempts : nat).

Abbreviation P := (SE W PlacementError).

Definition prepare_slot (placement : Placement) : P () :=
  run! ensure_root in ensure_slot (pl_placement_id placement).

(** [for attempt in 0..attempts]: read, compare, wait unless it was the last. *)
Fixpoint await_acknowledgement (attempts : nat) (slot generation : string)
    (phase : PlacementProtectionPhase) (container_id : option string) : P () :=
  match attempts with
  | O => se_fail ProtectionUnsafe
  | S remaining =>
    do! payload <- read_private_file slot AcknowledgementFile in
    if match payload with
       | Some payload => acknowledgement_matches payload generation phase container_id
       | None => false
       end
    then se_ret ()
    else λ w, await_acknowledgement remaining slot generation phase container_id
                (match remaining with O => w | S _ => wait_interval w end)
  end.

Definition publish (placement : Placement) (generation : string)
    (phase : PlacementProtectionPhase) (process : option LinuxProtectedProcessIdentity) : P () :=
  run! prepare_slot placement in
  do! payload <- se_lift (protection_descriptor placement generation phase process) in
  let slot := pl_placement_id placement in
  run! write_atomic_private_file slot StateFile payload in
  await_acknowledgement acknowledgement_attempts slot generation phase
    (lp_container_id <$> process).

Definition begin_protection (placement : Placement) : P string :=
  run! prepare_slot placement in
  let slot := pl_placement_id placement in
  do! trip <- read_private_file slot TripFile in
  match trip with
  | Some _ => se_fail ProtectionUnsafe
  | None =>
    run! remove_private_file slot AcknowledgementFile in
    do! generation <- new_generation in
    run! publish placement generation ProtectionPending None in
    se_ret generation
  end.

Definition bind_starting (placement : Placement) (generation : string)
    (process : LinuxProtectedProcessIdentity) : P () :=
  run! se_lift (require_process_name placement process) in
  publish placement generation ProtectionStarting (Some process).

Definition arm (placement : Placement) (generation : string)
    (process : LinuxProtectedProcessIdentity) : P () :=
  run! se_lift (require_process_name placement process) in
  publish placement generation ProtectionArmed (Some process).

(** The descriptor must name the placement's own container. *)
Definition own_descriptor (placement : Placement) (payload : string)
  : result PlacementError ProtectionDescriptor :=
  let? descriptor := parse_descriptor payload in
  let? name := linux_placement_container_name placement in
  if negb (bool_decide (pd_container_name descriptor = name)) then Err ProtectionUnsafe
  else Ok descriptor.

Definition status (placement : Placement) (process : option LinuxProtectedProcessIdentity)
  : P PlacementProtectionStatus :=
  let slot := pl_placement_id placement in
  do! trip <- read_private_file slot TripFile in
  let trip_latched := match trip with Some _ => true | None => false end in
  do! state_payload <- read_private_file slot StateFile in
  match state_payload with
  | None => se_ret {| ps_phase := Unconfigured; ps_trip_latched := trip_latched |}
  | Some payload =>
    do! descriptor <- se_lift (own_descriptor placement payload) in
    if match process, pd_process descriptor with
       | Some expected, Some value => negb (bool_decide (value = expected))
       | _, _ => false
       end
    then se_fail ProtectionUnsafe
    else
      do! acknowledgement <- read_private_file slot AcknowledgementFile in
      do! payload <- se_lift (ok_or ProtectionUnsafe acknowledgement) in
      if negb (acknowledgement_matches payload (pd_generation descriptor) (pd_phase descriptor)
                 (lp_container_id <$> pd_process descriptor))
      then se_fail ProtectionUnsafe
      else se_ret {| ps_phase := pd_phase descriptor; ps_trip_latched := trip_latched |}
  end.

Definition disarm (placement : Placement) : P PlacementProtectionStatus :=
  run! prepare_slot placement in
  do! state_payload <- read_private_file (pl_placement_id placement) StateFile in
  do! generation <-
    match state_payload with
    | Some payload =>
      do! descriptor <- se_lift (own_descriptor placement payload) in
      se_ret (pd_generation descriptor)
    | None => new_generation
    end in
  run! publish placement generation ProtectionDisarmed None in
  status placement None.

Definition acknowledge_trip (placement : Placement) : P bool :=
  remove_private_file (pl_placement_id placement) TripFile.

Definition is_idle (p : PlacementProtectionPhase) : bool :=
  match p with Unconfigured | ProtectionDisarmed => true | _ => false end.

Definition retire (placement : Placement) : P () :=
  do! st <- status placement None in
  if ps_trip_latched st || negb (is_idle (ps_phase st)) then se_fail ProtectionUnsafe
  else
    let slot := pl_placement_id placement in
    do! trip <- read_private_file slot TripFile in
    match trip with
    | Some _ => se_fail ProtectionUnsafe
    | None =>
      run! remove_private_file slot StateFile in
      run! remove_private_file slot AcknowledgementFile in
      run! remove_private_directory slot in
      se_ret ()
    end.

Definition active_target (placement : Placement) : P (option PlacementProtectedTarget) :=
  do! state_payload <- read_private_file (pl_placement_id placement) StateFile in
  match state_payload with
  | None => se_ret None
  | Some payload =>
    do! descriptor <- se_lift (own_descriptor placement payload) in
    match pd_process descriptor with
    | None => se_ret None
    | Some process =>
      do! st <- status placement (Some process) in
      if ps_trip_latched st || negb (needs_process (ps_phase st)) then se_ret None
      else do! target <- se_lift (PlacementProtectedTarget_new (pd_generation descriptor)
                                    (pd_phase descriptor) process) in
           se_ret (Some target)
    end
  end.
End provider.
