(* ===== verification/ProtectionHandshake.v ===== *)
(** * The protection handshake between Placement and Watchdog

    Placement publishes a descriptor ([PlacementProtection]) that the Watchdog
    parses ([WatchdogContract]); the Watchdog answers with an acknowledgement
    ([WatchdogLinux]) that Placement compares.  The theorems here are the round
    trips across the two crates and the inputs on which they disagree. *)

From Stdlib Require Ascii.
From S2P Require Import Prelude Values Text WatchdogRecord WatchdogContract WatchdogManager.
From S2P Require Import WatchdogLinux Placement PlacementProtection.
Import (notations) Stdlib.Strings.Ascii.

(** ** Key-value texts *)

Definition fields_text (kvs : list (string * string)) : string :=
  foldr (λ '(k, v) s, field_line k v +:+ s) EmptyString kvs.

Definition clean (s : string) : Prop :=
  has_char newline s = false ∧ has_char carriage_return s = false ∧ has_char "="%char s = false.

Lemma field_line_app k v s :
  field_line k v +:+ s = (k +:+ String "="%char v) +:+ String newline s.
Proof. unfold field_line, nl. by rewrite !string_app_assoc. Qed.

Lemma lines_fields_text kvs :
  Forall (λ '(k, v), clean k ∧ clean v) kvs →
  lines (fields_text kvs) = (λ '(k, v), k +:+ String "="%char v) <$> kvs.
Proof.
  induction 1 as [|[k v] kvs [(Hkn & Hkr & _) (Hvn & Hvr & _)] _ IH]; [done|].
  cbn [fields_text foldr]. fold (fields_text kvs).
  rewrite field_line_app, lines_cons, IH; [done| |]; rewrite has_char_app; simpl;
    by rewrite ?Hkn, ?Hkr, ?Hvn, ?Hvr.
Qed.

Definition field_map (kvs : list (string * string)) (m : gmap string string) : gmap string string :=
  foldl (λ m '(k, v), <[k := v]> m) m kvs.

Lemma descriptor_fields_text kvs m :
  Forall (λ '(k, v), clean k ∧ clean v) kvs → Forall (λ '(k, _), k ≠ EmptyString) kvs →
  NoDup kvs.*1 → Forall (λ '(k, _), m !! k = None) kvs →
  descriptor_fields ((λ '(k, v), k +:+ String "="%char v) <$> kvs) m = Ok (field_map kvs m).
Proof.
  revert m. induction kvs as [|[k v] kvs IH]; intros m Hc Hne Hd Hm; [done|].
  apply Forall_cons in Hc as [[(_ & _ & Hk) (_ & _ & Hv)] Hc'], Hne as [Hk0 Hne'], Hm as [Hmk Hm'].
  rewrite fmap_cons in Hd. apply NoDup_cons in Hd as [Hnk Hd].
  rewrite fmap_cons. cbn [descriptor_fields]. rewrite split_once_app by done. cbn [ok_or result_bind].
  rewrite bool_decide_eq_false_2, Hv, Hmk by done. simpl.
  apply IH; [done..|]. rewrite Forall_forall in Hm' |- *. intros [k' v'] Hin.
  rewrite lookup_insert_ne; [exact (Hm' _ Hin)|]. intros ->. apply Hnk.
  apply list_elem_of_fmap. by exists (k', v').
Qed.

Lemma collect_lines_text kvs values :
  Forall (λ '(k, v), clean k ∧ clean v) kvs → Forall (λ '(k, _), k ≠ EmptyString) kvs →
  NoDup (values.*1 ++ kvs.*1) →
  collect_lines ((λ '(k, v), k +:+ String "="%char v) <$> kvs) values = Ok (values ++ kvs).
Proof.
  revert values. induction kvs as [|[k v] kvs IH]; intros values Hc Hne Hd.
  { simpl. by rewrite app_nil_r. }
  apply Forall_cons in Hc as [[(_ & _ & Hk) (_ & _ & Hv)] Hc'], Hne as [Hk0 Hne'].
  rewrite !fmap_cons in *. cbn [collect_lines]. rewrite split_once_app by done.
  cbn [ok_or result_bind]. rewrite bool_decide_eq_false_2, Hv by done. simpl.
  assert (existsb (λ '(existing, _), bool_decide (existing = k)) values = false) as ->.
  { apply not_true_iff_false. intros ([k' v'] & Hin & ->%bool_decide_eq_true)%existsb_exists.
    apply NoDup_app in Hd as (_ & Hd & _). apply (Hd k); [|set_solver].
    apply list_elem_of_fmap. exists (k, v'). by rewrite list_elem_of_In. }
  rewrite IH; [by rewrite <- app_assoc|done|done|].
  rewrite fmap_app. simpl. by rewrite <- app_assoc.
Qed.

Lemma ends_with_app c s t : t ≠ EmptyString → ends_with c (s +:+ t) = ends_with c t.
Proof.
  intros Ht. induction s as [|a s IH]; [done|]. rewrite app_String. simpl.
  destruct (s +:+ t) eqn:E; [|done]. destruct s; [by destruct t|by rewrite app_String in E].
Qed.

Lemma fields_text_cons k v kvs : fields_text ((k, v) :: kvs) = field_line k v +:+ fields_text kvs.
Proof. done. Qed.

Lemma ends_with_fields_text kv kvs : ends_with newline (fields_text (kv :: kvs)) = true.
Proof.
  revert kv. induction kvs as [|kv' kvs IH]; intros [k v];
    rewrite fields_text_cons, field_line_app, ends_with_app by done; [done|].
  specialize (IH kv'). cbn [ends_with]. by destruct (fields_text (kv' :: kvs)).
Qed.

Lemma is_utf8_fields_text kvs :
  Forall (λ '(k, v), is_utf8 k = true ∧ is_utf8 v = true) kvs → is_utf8 (fields_text kvs) = true.
Proof.
  induction 1 as [|[k v] kvs [Hk Hv] _ IH]; [done|]. cbn [fields_text foldr].
  unfold field_line. by rewrite !string_app_assoc, !is_utf8_app.
Qed.

Lemma has_char_fields_text c kvs :
  Ascii.eqb newline c = false → Ascii.eqb "="%char c = false →
  Forall (λ '(k, v), has_char c k = false ∧ has_char c v = false) kvs →
  has_char c (fields_text kvs) = false.
Proof.
  intros Hn He. induction 1 as [|[k v] kvs [Hk Hv] _ IH]; [done|].
  rewrite fields_text_cons, field_line_app, !has_char_app. cbn [has_char].
  by rewrite Hk, He, Hv, Hn, IH.
Qed.

Lemma clean_forallb f s :
  f 10 = false → f 13 = false → f 61 = false → forallb f (bytes s) = true → clean s.
Proof. intros ? ? ? Hs. split_and!; by apply (has_char_forallb f). Qed.

(** ** Descriptors *)

Definition descriptor_kvs (generation phase name container_id process_id start_ticks boot_id
    cgroup : string) : list (string * string) :=
  [("version", "1"); ("generation", generation); ("phase", phase); ("container_name", name);
   ("container_id", container_id); ("pid", process_id); ("start_ticks", start_ticks);
   ("boot_id", boot_id); ("cgroup", cgroup)]%string.

Lemma descriptor_text_kvs g ph n cid pid t b cg :
  descriptor_text g ph n cid pid t b cg = fields_text (descriptor_kvs g ph n cid pid t b cg).
Proof.
  unfold descriptor_text, descriptor_kvs. rewrite !fields_text_cons.
  change (fields_text []) with EmptyString. by rewrite string_app_nil.
Qed.

(** The keys of a descriptor are clean, non-empty and distinct. *)
Lemma descriptor_kvs_clean g ph n cid pid t b cg :
  Forall clean [g; ph; n; cid; pid; t; b; cg] →
  Forall (λ '(k, v), clean k ∧ clean v) (descriptor_kvs g ph n cid pid t b cg).
Proof.
  rewrite !Forall_cons. intros (? & ? & ? & ? & ? & ? & ? & ? & _).
  repeat (constructor; [split; [by vm_compute|first [assumption|by vm_compute]]|]). constructor.
Qed.

Lemma descriptor_kvs_keys g ph n cid pid t b cg :
  Forall (λ '(k, _), k ≠ EmptyString) (descriptor_kvs g ph n cid pid t b cg) ∧
  NoDup (descriptor_kvs g ph n cid pid t b cg).*1.
Proof.
  split; [repeat (constructor; [done|]); constructor|].
  change (_.*1) with ["version"; "generation"; "phase"; "container_name"; "container_id"; "pid";
    "start_ticks"; "boot_id"; "cgroup"]%string.
  apply (bool_decide_unpack _). by vm_compute.
Qed.

(** Reading a descriptor text gives its nine fields. *)
Lemma descriptor_text_fields g ph n cid pid t b cg :
  Forall clean [g; ph; n; cid; pid; t; b; cg] →
  descriptor_fields (lines (descriptor_text g ph n cid pid t b cg)) ∅
    = Ok (field_map (descriptor_kvs g ph n cid pid t b cg) ∅).
Proof.
  intros Hc%descriptor_kvs_clean. rewrite descriptor_text_kvs, lines_fields_text by done.
  destruct (descriptor_kvs_keys g ph n cid pid t b cg).
  apply descriptor_fields_text; [done..|].
  apply Forall_forall. intros [k v] _. apply lookup_empty.
Qed.

Lemma descriptor_text_parse g ph n cid pid t b cg :
  Forall clean [g; ph; n; cid; pid; t; b; cg] →
  Forall (λ s, has_char "000"%char s = false) [g; ph; n; cid; pid; t; b; cg] →
  str_len (descriptor_text g ph n cid pid t b cg) ≤ WatchdogContract.MAX_DESCRIPTOR_BYTES →
  WatchdogProtectedEngine_parse (descriptor_text g ph n cid pid t b cg)
    = engine_of_fields (field_map (descriptor_kvs g ph n cid pid t b cg) ∅).
Proof.
  intros Hc Hn Hlen. unfold WatchdogProtectedEngine_parse.
  rewrite descriptor_text_fields by done.
  assert (bool_decide (descriptor_text g ph n cid pid t b cg = "") = false) as ->
    by by apply bool_decide_eq_false_2.
  rewrite (proj2 (Z.ltb_ge _ _) Hlen).
  rewrite descriptor_text_kvs, !has_char_fields_text; try done.
  - rewrite !Forall_cons in Hn. destruct_and?.
    repeat (constructor; [split; [by vm_compute|first [assumption|by vm_compute]]|]). constructor.
  - eapply Forall_impl; [by apply descriptor_kvs_clean|].
    intros [k v] [(_ & Hk & _) (_ & Hv & _)]. done.
Qed.

(** The engine that a published descriptor stands for. *)
Definition engine_of (generation_ : string) (phase_ : WatchdogProtectionPhase) (name : string)
    (process : option LinuxProtectedProcessIdentity) : WatchdogProtectedEngine :=
  {| generation := generation_; phase := phase_; container_name := name;
     container_id := lp_container_id <$> process; process_id := lp_process_id <$> process;
     process_start_ticks := lp_process_start_ticks <$> process;
     boot_id := lp_boot_id <$> process; cgroup := lp_cgroup <$> process |}.

Definition watch_phase (p : PlacementProtectionPhase) : option WatchdogProtectionPhase :=
  match p with
  | Unconfigured => None
  | ProtectionPending => Some Pending
  | ProtectionStarting => Some Starting
  | ProtectionArmed => Some Armed
  | ProtectionDisarmed => Some Disarmed
  end.

(** What the types of a process identity guarantee: it was constructed. *)
Definition constructed (p : LinuxProtectedProcessIdentity) : Prop :=
  LinuxProtectedProcessIdentity_new (lp_container_name p) (lp_container_id p) (lp_process_id p)
    (lp_process_start_ticks p) (lp_boot_id p) (lp_cgroup p) = Ok p ∧
  is_lower_hex (lp_container_id p) 64 = true ∧
  in_u32 (lp_process_id p) ∧ in_u64 (lp_process_start_ticks p).

(** What the Watchdog requires beyond it. *)
Definition watchdog_readable (p : LinuxProtectedProcessIdentity) : Prop :=
  lp_process_id p ≤ i32_max ∧ optional_cgroup (lp_cgroup p) = Ok (Some (lp_cgroup p)).

Lemma lower_hex_bytes s n : is_lower_hex s n = true → forallb is_lower_hex_byte (bytes s) = true.
Proof. unfold is_lower_hex. by intros [_ ?]%andb_true_iff. Qed.

Lemma lower_hex_ne_dash s n : is_lower_hex s n = true → 1 < n → s ≠ "-"%string.
Proof.
  unfold is_lower_hex. intros [Hl%Z.eqb_eq _]%andb_true_iff Hn ->. unfold str_len in Hl.
  simpl in Hl. lia.
Qed.

Lemma boot_id_safe s :
  is_linux_boot_id s = true → str_len s = 36 ∧ forallb is_safe_byte (bytes s) = true.
Proof.
  unfold is_linux_boot_id. intros [Hl%Z.eqb_eq Hb]%andb_true_iff. split; [done|].
  apply forallb_forall. intros byte [i Hi]%list_elem_of_In%list_elem_of_lookup.
  rewrite forallb_forall in Hb. specialize (Hb (i, byte)).
  assert (In (i, byte) (imap pair (bytes s))) as Hin.
  { apply list_elem_of_In, list_elem_of_lookup. exists i. by rewrite list_lookup_imap, Hi. }
  apply Hb in Hin. simpl in Hin. unfold is_safe_byte, is_ascii_alphanumeric, is_ascii_lowercase.
  destruct (_ || _ || _ || _).
  - rewrite Hin. by rewrite !orb_true_r.
  - unfold is_lower_hex_byte, is_ascii_digit, in_range in *. lia.
Qed.

Lemma technical_name_safe s :
  is_technical_name s = true → str_len s ≤ 64 ∧ s ≠ EmptyString ∧
  forallb is_safe_byte (bytes s) = true.
Proof.
  unfold is_technical_name. destruct (bytes s) as [|b l] eqn:E; [done|].
  intros [[Hb Hl%Z.leb_le]%andb_true_iff Hr]%andb_true_iff.
  split_and!; [done|intros ->; done|]. simpl. apply andb_true_iff. split.
  - unfold is_safe_byte, is_ascii_alphanumeric, is_ascii_lowercase, is_ascii_digit, in_range in *. lia.
  - apply forallb_forall. intros x Hx. rewrite forallb_forall in Hr. apply Hr in Hx.
    unfold is_name_byte, is_safe_byte, is_ascii_alphanumeric, is_ascii_lowercase, is_ascii_digit,
      in_range in *. lia.
Qed.

Lemma technical_name_token n :
  is_technical_name n = true → safe_token n MAX_CONTAINER_NAME_BYTES = true.
Proof.
  intros (Hl & Hne & Hb)%technical_name_safe. unfold safe_token, MAX_CONTAINER_NAME_BYTES.
  rewrite bool_decide_eq_false_2, Hb by done. simpl. rewrite (proj2 (Z.leb_le _ _)); [done|lia].
Qed.

Lemma field_kvs g ph n cid pid t b cg :
  let m := field_map (descriptor_kvs g ph n cid pid t b cg) ∅ in
  field m "generation" = g ∧ field m "phase" = ph ∧ field m "container_name" = n ∧
  field m "container_id" = cid ∧ field m "pid" = pid ∧ field m "start_ticks" = t ∧
  field m "boot_id" = b ∧ field m "cgroup" = cg.
Proof. by split_and!. Qed.

Lemma optional_positive_decimal n maximum :
  0 < n ≤ maximum → n ≤ u64_max → optional_positive (to_decimal n) maximum = Ok (Some n).
Proof.
  intros Hn Hu. unfold optional_positive.
  pose proof (to_decimal_digits n ltac:(lia)) as Hd. pose proof (to_decimal_ne n ltac:(lia)) as Hne.
  rewrite !bool_decide_eq_false_2, Hd, parse_to_decimal by
    (lia || done || (intros E; rewrite E in Hd; done)). simpl.
  destruct (Z.eqb_spec n 0), (Z.ltb_spec maximum n); [lia..|done].
Qed.

Lemma constructed_parts p :
  constructed p →
  1 < lp_process_id p ∧ 0 < lp_process_start_ticks p ∧ str_len (lp_boot_id p) = 36 ∧
  forallb is_safe_byte (bytes (lp_boot_id p)) = true.
Proof.
  intros (Hnew & _ & Hpid & Hticks). unfold LinuxProtectedProcessIdentity_new in Hnew.
  inv_result Hnew. rewrite !orb_false_iff in *. destruct_and?.
  match goal with Hboot : negb (is_linux_boot_id _) = false |- _ =>
    apply negb_false_iff, boot_id_safe in Hboot as [Hblen Hbb] end.
  split_and!; [lia| |done|done]. unfold in_u64 in *. lia.
Qed.

Lemma optional_lower_hex_Some s n :
  is_lower_hex s n = true → 1 < n → optional_lower_hex s n = Ok (Some s).
Proof.
  intros Hs Hn. unfold optional_lower_hex, required_lower_hex.
  rewrite bool_decide_eq_false_2 by (by eapply lower_hex_ne_dash). by rewrite Hs.
Qed.

Lemma optional_safe_token_exact s n :
  forallb is_safe_byte (bytes s) = true → str_len s = n → 1 < n →
  optional_safe_token s n true = Ok (Some s).
Proof.
  intros Hs Hl Hn. unfold optional_safe_token, safe_token.
  assert (s ≠ ""%string ∧ s ≠ "-"%string) as [? ?]
    by (split; intros ->; unfold str_len in Hl; simpl in Hl; lia).
  rewrite !bool_decide_eq_false_2, Hs, Hl, Z.leb_refl, Z.eqb_refl by done. done.
Qed.

(** The engine of a descriptor with its parts in order. *)
Lemma engine_of_kvs g p phase_name n process :
  is_lower_hex g 32 = true → is_technical_name n = true →
  parse_phase phase_name = Some p → process_bound p = true →
  constructed process → watchdog_readable process →
  engine_of_fields (field_map (descriptor_kvs g phase_name n (lp_container_id process)
      (to_decimal (lp_process_id process)) (to_decimal (lp_process_start_ticks process))
      (lp_boot_id process) (lp_cgroup process)) ∅)
    = Ok (engine_of g p n (Some process)).
Proof.
  intros Hg Hn Hp Hb Hc [Hpid32 Hcg].
  destruct (constructed_parts _ Hc) as (Hpid & Hticks & Hbl & Hbb).
  destruct Hc as (_ & Hcid & _ & Hticks64). unfold engine_of_fields.
  destruct (field_kvs g phase_name n (lp_container_id process)
    (to_decimal (lp_process_id process)) (to_decimal (lp_process_start_ticks process))
    (lp_boot_id process) (lp_cgroup process)) as (-> & -> & -> & -> & -> & -> & -> & ->).
  rewrite (technical_name_token n Hn).
  unfold required_lower_hex, MAX_GENERATION_BYTES. rewrite Hg, Hp.
  rewrite (optional_lower_hex_Some (lp_container_id process)) by done.
  rewrite !optional_positive_decimal by (unfold i32_max in *; ulia).
  rewrite (optional_safe_token_exact (lp_boot_id process)), Hcg by done. simpl.
  rewrite (proj2 (Z.leb_gt _ _)) by lia. by rewrite Hb.
Qed.

Lemma engine_of_kvs_idle g p phase_name n :
  is_lower_hex g 32 = true → is_technical_name n = true →
  parse_phase phase_name = Some p → process_bound p = false →
  engine_of_fields (field_map (descriptor_kvs g phase_name n "-" "-" "-" "-" "-") ∅)
    = Ok (engine_of g p n None).
Proof.
  intros Hg Hn Hp Hb. unfold engine_of_fields.
  destruct (field_kvs g phase_name n "-" "-" "-" "-" "-") as (-> & -> & -> & -> & -> & -> & -> & ->).
  rewrite (technical_name_token n Hn).
  unfold required_lower_hex, MAX_GENERATION_BYTES. rewrite Hg, Hp. simpl. by rewrite Hb.
Qed.

(** Values without separators, from the byte classes of their types. *)
Definition plain (s : string) : Prop := clean s ∧ has_char "000"%char s = false.

Lemma plain_forallb f s :
  f 10 = false → f 13 = false → f 61 = false → f 0 = false →
  forallb f (bytes s) = true → plain s.
Proof. intros. split; [by apply (clean_forallb f)|by apply (has_char_forallb f)]. Qed.

Lemma plain_decimal n : 0 ≤ n → plain (to_decimal n).
Proof. intros Hn. by apply (plain_forallb is_ascii_digit), to_decimal_digits. Qed.

Lemma plain_cgroup c : optional_cgroup c = Ok (Some c) → plain c.
Proof.
  unfold optional_cgroup. intros H. inv_result H.
  apply (plain_forallb is_cgroup_byte); [done..|]. by destruct (forallb _ _); [|rewrite orb_true_r in *].
Qed.

Lemma protection_phase_name_plain p s : protection_phase_name p = Ok s → plain s.
Proof. destruct p; intros [= <-]; by apply (plain_forallb is_safe_byte). Qed.

Lemma protection_phase_name_parse p s :
  protection_phase_name p = Ok s → ∃ wp, watch_phase p = Some wp ∧ parse_phase s = Some wp ∧
    process_bound wp = needs_process p.
Proof. destruct p; intros [= <-]; eauto. Qed.

Lemma container_name_technical placement name :
  linux_placement_container_name placement = Ok name → is_technical_name name = true.
Proof.
  unfold linux_placement_container_name, or_unsafe, TechnicalName_parse.
  destruct (validate _ _ _ _) as [v|] eqn:Hv; [|done]. intros [= <-].
  apply validate_Ok in Hv. naive_solver.
Qed.

Lemma Forall_plain l :
  Forall plain l → Forall clean l ∧ Forall (λ s, has_char "000"%char s = false) l.
Proof. intros H. split; (eapply Forall_impl; [exact H|]); by intros x [? ?]. Qed.

(** The text of a published descriptor. *)
Lemma protection_descriptor_Ok placement g p process text :
  protection_descriptor placement g p process = Ok text →
  ∃ name pname, linux_placement_container_name placement = Ok name ∧
    is_technical_name name = true ∧ protection_phase_name p = Ok pname ∧
    needs_process p = is_present process ∧
    (∀ process', process = Some process' → lp_container_name process' = name) ∧
    text = match process with
           | Some process =>
             descriptor_text g pname name (lp_container_id process)
               (to_decimal (lp_process_id process)) (to_decimal (lp_process_start_ticks process))
               (lp_boot_id process) (lp_cgroup process)
           | None => descriptor_text g pname name "-" "-" "-" "-" "-"
           end.
Proof.
  unfold protection_descriptor. intros H. inv_result H.
  apply orb_false_iff in Hc as [Hneeds%negb_false_iff%eqb_prop _].
  eexists _, _. split_and!; [done|by eapply container_name_technical|done|done| |done].
  intros process' ->. unfold require_process_name in *.
  match goal with Hr : result_bind _ _ = Ok ?u |- _ => inv_result Hr end.
  match goal with Hb : negb (bool_decide _) = false |- _ =>
    apply negb_false_iff, bool_decide_eq_true in Hb end. congruence.
Qed.

Lemma generation_hex g : PlacementProtectionGeneration_parse g = Ok g → is_lower_hex g 32 = true.
Proof.
  unfold PlacementProtectionGeneration_parse, is_lower_hex.
  by destruct (str_len g =? 32), (forallb is_lower_hex_byte (bytes g)).
Qed.

(** C39: a descriptor that Placement publishes, for no process or for one whose
    identifier and cgroup path the Watchdog can represent, is read by the Watchdog as
    the same generation, phase, container and process exactly when its text has at
    most 2048 bytes; a longer one, which Placement publishes all the same for a long
    cgroup path, is refused as invalid. *)
Theorem published_descriptor_is_understood placement g p process text :
  protection_descriptor placement g p process = Ok text →
  PlacementProtectionGeneration_parse g = Ok g →
  (∀ process', process = Some process' → constructed process' ∧ watchdog_readable process') →
  ∃ name wp, linux_placement_container_name placement = Ok name ∧ watch_phase p = Some wp ∧
    WatchdogProtectedEngine_parse text =
      if str_len text <=? WatchdogContract.MAX_DESCRIPTOR_BYTES then Ok (engine_of g wp name process)
      else Err invalid_descriptor.
Proof.
  destruct (Z.leb_spec (str_len text) WatchdogContract.MAX_DESCRIPTOR_BYTES) as [Hlen|Hlen].
  2:{ intros (name & pname & Hname & _ & (wp & Hw & _)%protection_phase_name_parse & _)%protection_descriptor_Ok _ _.
      exists name, wp. split_and!; [done..|]. unfold WatchdogProtectedEngine_parse.
      by rewrite (proj2 (Z.ltb_lt _ _) Hlen), orb_true_r. }
  intros (name & pname & Hname & Htn & Hpname & Hneeds & _ & ->)%protection_descriptor_Ok
    Hhex%generation_hex Hp.
  pose proof (protection_phase_name_plain _ _ Hpname) as Hpn.
  apply protection_phase_name_parse in Hpname as (wp & Hw & Hparse & Hbound).
  exists name, wp. split_and!; [done|done|].
  assert (plain g ∧ plain name) as [? ?].
  { split; [by eapply (plain_forallb is_lower_hex_byte), lower_hex_bytes|].
    by apply (plain_forallb is_safe_byte), technical_name_safe. }
  destruct process as [process|].
  - destruct (Hp process eq_refl) as [Hc Hr]. destruct (constructed_parts _ Hc) as (? & ? & ? & Hbb).
    destruct (Forall_plain [g; pname; name; lp_container_id process;
      to_decimal (lp_process_id process); to_decimal (lp_process_start_ticks process);
      lp_boot_id process; lp_cgroup process]) as [? ?].
    { repeat apply Forall_cons_2; [done|done|done| | | | | |constructor].
      - destruct Hc as (_ & Hcid & _). by eapply (plain_forallb is_lower_hex_byte), lower_hex_bytes.
      - apply plain_decimal. lia.
      - apply plain_decimal. lia.
      - by apply (plain_forallb is_safe_byte).
      - apply plain_cgroup, Hr. }
    rewrite descriptor_text_parse by done. by apply engine_of_kvs; [..|rewrite Hbound, Hneeds| |].
  - destruct (Forall_plain [g; pname; name; "-"; "-"; "-"; "-"; "-"]%string) as [? ?].
    { repeat apply Forall_cons_2; [done..|constructor]. }
    rewrite descriptor_text_parse by done. by apply engine_of_kvs_idle; [..|rewrite Hbound, Hneeds].
Qed.

(** ** Acknowledgements *)

Definition acknowledgement_kvs (t : WatchdogProtectedEngine) : list (string * string) :=
  [("version", "1"); ("generation", generation t); ("phase", watchdog_phase_name (phase t));
   ("container_id", default "-" (container_id t))]%string.

Lemma acknowledgement_text_kvs t : acknowledgement_text t = fields_text (acknowledgement_kvs t).
Proof.
  unfold acknowledgement_text, acknowledgement_kvs. rewrite !fields_text_cons.
  change (fields_text []) with EmptyString. unfold field_line. by rewrite !string_app_assoc.
Qed.

Lemma watchdog_phase_name_eq p wp name :
  protection_phase_name p = Ok name → (name = watchdog_phase_name wp ↔ watch_phase p = Some wp).
Proof. destruct p, wp; intros [= <-]; simpl; split; congruence. Qed.

Lemma clean_phase p : clean (watchdog_phase_name p).
Proof. by destruct p. Qed.

(** A text that survives as a value on the wire. *)
Definition wire (s : string) : Prop := clean s ∧ is_utf8 s = true.

Lemma wire_forallb f s :
  (∀ b, f b = true → b < 128) → f 10 = false → f 13 = false → f 61 = false →
  forallb f (bytes s) = true → wire s.
Proof. intros. split; [by apply (clean_forallb f)|by apply (is_utf8_forallb f)]. Qed.

Lemma wire_hex s n : is_lower_hex s n = true → wire s.
Proof.
  intros H%lower_hex_bytes. apply (wire_forallb is_lower_hex_byte); try done.
  intros b. unfold is_lower_hex_byte, is_ascii_digit, in_range. lia.
Qed.

Lemma parse_lines_text kvs n :
  Forall (λ '(k, v), wire k ∧ wire v) kvs → Forall (λ '(k, _), k ≠ EmptyString) kvs →
  NoDup kvs.*1 → kvs ≠ [] → length kvs = n → parse_lines (fields_text kvs) n = Ok kvs.
Proof.
  intros Hw Hne Hd Hnil <-. unfold parse_lines.
  assert (Forall (λ '(k, v), clean k ∧ clean v) kvs)
    by (eapply Forall_impl; [exact Hw|]; by intros [k v] [[? ?] [? ?]]).
  rewrite is_utf8_fields_text by (eapply Forall_impl; [exact Hw|]; by intros [k v] [[? ?] [? ?]]).
  destruct kvs as [|kv kvs]; [done|]. rewrite ends_with_fields_text. cbn [negb].
  rewrite lines_fields_text, collect_lines_text by done. cbn [result_bind app].
  by rewrite Nat.eqb_refl.
Qed.

Lemma acknowledgement_parse t :
  engine_wf t → parse_lines (acknowledgement_text t) 4 = Ok (acknowledgement_kvs t).
Proof.
  intros Hw. rewrite acknowledgement_text_kvs. apply parse_lines_text; [| | |done|done].
  - repeat apply Forall_cons_2; [split; [by vm_compute|]..|constructor].
    + by vm_compute.
    + eapply wire_hex, Hw.
    + by destruct (phase t).
    + destruct (container_id t) as [c|] eqn:E; [|by vm_compute].
      by eapply wire_hex, wf_container_hex.
  - by repeat apply Forall_cons_2.
  - change (_.*1) with ["version"; "generation"; "phase"; "container_id"]%string.
    apply (bool_decide_unpack _). by vm_compute.
Qed.

(** the acknowledgement that the Watchdog writes for a descriptor it
    accepted satisfies Placement's comparison for that generation, phase and
    container, and for no other. *)
Theorem acknowledgement_matches_its_descriptor text t g p c :
  WatchdogProtectedEngine_parse text = Ok t →
  (∀ id, c = Some id → is_lower_hex id 64 = true) →
  acknowledgement_matches (acknowledgement_text t) g p c = true ↔
  g = generation t ∧ watch_phase p = Some (phase t) ∧ c = container_id t.
Proof.
  intros Hw%WatchdogProtectedEngine_parse_wf Hc. unfold acknowledgement_matches.
  rewrite acknowledgement_parse by done. unfold value_is.
  change (value_of (acknowledgement_kvs t) "version") with (@Ok PlacementError _ "1"%string).
  change (value_of (acknowledgement_kvs t) "generation") with (@Ok PlacementError _ (generation t)).
  change (value_of (acknowledgement_kvs t) "phase")
    with (@Ok PlacementError _ (watchdog_phase_name (phase t))).
  change (value_of (acknowledgement_kvs t) "container_id")
    with (@Ok PlacementError _ (default "-" (container_id t))%string).
  assert (default "-" (container_id t) = default "-" c ↔ c = container_id t)%string as Hcid.
  { pose proof (wf_container_hex _ Hw) as Ht.
    destruct c as [id|], (container_id t) as [id'|]; simpl; split; try congruence; intros E.
    - subst id. exfalso. by eapply lower_hex_ne_dash; [apply Hc|lia|].
    - subst id'. exfalso. by eapply lower_hex_ne_dash; [apply Ht|done|]. }
  rewrite !andb_true_iff, !bool_decide_eq_true, Hcid.
  destruct (protection_phase_name p) as [name|] eqn:Hp.
  - rewrite bool_decide_eq_true, <- (watchdog_phase_name_eq p (phase t) name Hp). naive_solver.
  - destruct p; try done. simpl. naive_solver.
Qed.

(** ** Placement reads its own descriptors *)

(** An ASCII byte of well-formed UTF-8 is a character. *)
Lemma decode_utf8_elem b l : utf8_bytes l = true → b ∈ l → b < 128 → b ∈ decode_utf8 l.
Proof.
  induction l as [l IH] using (induction_ltof1 _ (@length Z)). unfold ltof in IH.
  intros Hu Hin Hb. destruct l as [|b0 r0]; [done|]. cbn [utf8_bytes decode_utf8] in *.
  destruct (Z.ltb_spec b0 128).
  { apply elem_of_cons in Hin as [->|Hin]; [set_solver|].
    apply elem_of_cons. right. apply IH; [simpl; lia|done..]. }
  destruct r0 as [|b1 r1]; [done|].
  destruct (in_range 194 223 b0) eqn:H2.
  { apply andb_true_iff in Hu as [H1 Hu]. unfold is_continuation, in_range in *.
    rewrite (proj2 (Z.ltb_lt b0 224)) by lia. apply elem_of_cons. right.
    rewrite !elem_of_cons in Hin. destruct Hin as [->|[->|Hin]]; [lia..|].
    apply IH; [simpl; lia|done..]. }
  destruct r1 as [|b2 r2]; [done|].
  destruct (in_range 224 239 b0) eqn:H3.
  { apply andb_true_iff in Hu as [[H1 H1']%andb_true_iff Hu]. unfold is_continuation, in_range in *.
    rewrite (proj2 (Z.ltb_ge b0 224)), (proj2 (Z.ltb_lt b0 240)) by lia. apply elem_of_cons. right.
    rewrite !elem_of_cons in Hin. destruct Hin as [->|[->|[->|Hin]]]; [lia| |lia|].
    - repeat case_match; lia.
    - apply IH; [simpl; lia|done..]. }
  destruct r2 as [|b3 r3]; [done|].
  rewrite !andb_true_iff in Hu. destruct Hu as ((((H0 & H1) & H1') & H1'') & Hu).
  unfold is_continuation, in_range in *.
  rewrite (proj2 (Z.ltb_ge b0 224)), (proj2 (Z.ltb_ge b0 240)) by lia. apply elem_of_cons. right.
  rewrite !elem_of_cons in Hin. destruct Hin as [->|[->|[->|[->|Hin]]]]; [lia| |lia|lia|].
  - repeat case_match; lia.
  - apply IH; [simpl; lia|done..].
Qed.

Lemma has_char_In c s : has_char c s = true ↔ byte_val c ∈ bytes s.
Proof.
  induction s as [|a s IH]; [simpl; set_solver|]. rewrite bytes_cons, elem_of_cons, <- IH.
  simpl. rewrite orb_true_iff, Ascii.eqb_eq.
  split; (intros [H|H]; [left|by right]); [by subst|by apply byte_val_inj].
Qed.

(** A text whose characters exclude an ASCII one does not contain its byte. *)
Lemma has_char_chars (f : Z → bool) c s :
  is_utf8 s = true → existsb f (chars s) = false → f (byte_val c) = true → byte_val c < 128 →
  has_char c s = false.
Proof.
  intros Hu Hf Hc Hlt. apply not_true_iff_false. intros Hin%has_char_In.
  assert (byte_val c ∈ chars s) as Hin' by (by apply decode_utf8_elem).
  pose proof (existsb_false f _ _ Hf Hin'). congruence.
Qed.

Lemma wire_identity_cgroup p : constructed p → is_utf8 (lp_cgroup p) = true → wire (lp_cgroup p).
Proof.
  intros (Hnew & _) Hu. unfold LinuxProtectedProcessIdentity_new in Hnew. inv_result Hnew.
  rewrite !orb_false_iff in *. destruct_and?.
  split; [|done]. split_and!; by eapply has_char_chars.
Qed.

Lemma drop_while_none {A} (f : A → bool) l : forallb (λ x, negb (f x)) l = true → drop_while f l = l.
Proof. destruct l as [|x l]; [done|]. simpl. by destruct (f x). Qed.

Lemma BootId_parse_safe s :
  forallb is_safe_byte (bytes s) = true → 0 < str_len s ≤ 128 → BootId_parse s = Ok s.
Proof.
  intros Hs Hl. unfold BootId_parse, is_bounded_text.
  assert (chars s = bytes s) as ->.
  { apply decode_utf8_ascii, List.Forall_forall. intros b Hb. rewrite forallb_forall in Hs.
    apply Hs in Hb. unfold is_safe_byte, is_ascii_alphanumeric, is_ascii_lowercase,
      is_ascii_uppercase, is_ascii_digit, in_range in Hb. lia. }
  assert (∀ b, b ∈ bytes s → is_whitespace b = false ∧ is_control b = false) as Hb.
  { intros b Hb%list_elem_of_In. rewrite forallb_forall in Hs. apply Hs in Hb.
    unfold is_safe_byte, is_ascii_alphanumeric, is_ascii_lowercase, is_ascii_uppercase,
      is_ascii_digit, is_whitespace, is_control, in_range in *. lia. }
  assert (∀ f : Z → bool, (∀ b, b ∈ bytes s → f b = false) → existsb f (bytes s) = false) as He.
  { intros f Hf. apply not_true_iff_false. intros (b & Hin%list_elem_of_In & Hfb)%existsb_exists.
    by rewrite Hf in Hfb. }
  rewrite !He by (intros; by apply Hb). unfold trim.
  assert (∀ l : list Z, (∀ b, b ∈ l → b ∈ bytes s) → drop_while is_whitespace l = l) as Hd.
  { intros l Hsub. apply drop_while_none, forallb_forall. intros b Hin%list_elem_of_In%Hsub%Hb.
    by destruct Hin as [-> _]. }
  rewrite (Hd (bytes s)), (Hd (reverse (bytes s))), reverse_involutive by set_solver.
  rewrite bool_decide_eq_true_2 by done. unfold validate.
  rewrite (proj2 (Z.eqb_neq _ _)), (proj2 (Z.leb_le _ _)) by lia. done.
Qed.

Lemma wire_safe s : forallb is_safe_byte (bytes s) = true → wire s.
Proof.
  apply wire_forallb; try done. intros b. unfold is_safe_byte, is_ascii_alphanumeric,
    is_ascii_lowercase, is_ascii_uppercase, is_ascii_digit, in_range. lia.
Qed.

Lemma wire_decimal n : 0 ≤ n → wire (to_decimal n).
Proof.
  intros Hn. apply (wire_forallb is_ascii_digit); try done; [|by apply to_decimal_digits].
  intros b. unfold is_ascii_digit, in_range. lia.
Qed.

Lemma descriptor_text_lines g ph n cid pid t b cg :
  Forall wire [g; ph; n; cid; pid; t; b; cg] →
  parse_lines (descriptor_text g ph n cid pid t b cg) 9
    = Ok (descriptor_kvs g ph n cid pid t b cg).
Proof.
  rewrite !Forall_cons. intros (? & ? & ? & ? & ? & ? & ? & ? & _). rewrite descriptor_text_kvs.
  destruct (descriptor_kvs_keys g ph n cid pid t b cg).
  apply parse_lines_text; [|done|done|done|done].
  repeat apply Forall_cons_2; [split; [by vm_compute|first [assumption|by vm_compute]]..|constructor].
Qed.

(** The nine values of a descriptor. *)
Lemma value_of_kvs g ph n cid pid t b cg :
  let kvs := descriptor_kvs g ph n cid pid t b cg in
  value_of kvs "version" = Ok "1"%string ∧ value_of kvs "generation" = Ok g ∧
  value_of kvs "phase" = Ok ph ∧ value_of kvs "container_name" = Ok n ∧
  value_of kvs "container_id" = Ok cid ∧ value_of kvs "pid" = Ok pid ∧
  value_of kvs "start_ticks" = Ok t ∧ value_of kvs "boot_id" = Ok b ∧
  value_of kvs "cgroup" = Ok cg.
Proof. by split_and!. Qed.

Lemma protection_phase_inverts p name :
  protection_phase_name p = Ok name → protection_phase name = Ok p.
Proof. by destruct p; intros [= <-]. Qed.

Lemma protection_phase_name_wire p s : protection_phase_name p = Ok s → wire s.
Proof. destruct p; intros [= <-]; by apply wire_safe. Qed.

Lemma Sha256Digest_parse_hex s : is_lower_hex s 64 = true → Sha256Digest_parse s = Ok s.
Proof. unfold Sha256Digest_parse, validate. by intros ->. Qed.

Lemma TechnicalName_parse_ok s : is_technical_name s = true → TechnicalName_parse s = Ok s.
Proof. unfold TechnicalName_parse, validate. by intros ->. Qed.

(** Placement reads back every descriptor it publishes: the same
    generation, phase, container name and process identity. *)
Theorem descriptor_round_trip placement g p process text :
  protection_descriptor placement g p process = Ok text →
  PlacementProtectionGeneration_parse g = Ok g →
  (∀ process', process = Some process' →
     constructed process' ∧ is_utf8 (lp_cgroup process') = true) →
  ∃ name, linux_placement_container_name placement = Ok name ∧
    parse_descriptor text = Ok {| pd_generation := g; pd_phase := p; pd_container_name := name;
                                  pd_process := process |}.
Proof.
  intros (name & pname & Hname & Htn & Hpname & Hneeds & Hown & ->)%protection_descriptor_Ok
    Hg Hp.
  exists name. split; [done|]. pose proof (protection_phase_inverts _ _ Hpname) as Hpn.
  apply protection_phase_name_wire in Hpname.
  assert (wire g ∧ wire name) as [Hgw Hnw]
    by (split; [by eapply wire_hex, generation_hex|by apply wire_safe, technical_name_safe]).
  unfold parse_descriptor. destruct process as [process|].
  - destruct (Hp process eq_refl) as [Hcon Hu].
    destruct (constructed_parts _ Hcon) as (? & ? & ? & ?).
    pose proof Hcon as (Hnew & Hcid & ? & ?).
    rewrite descriptor_text_lines by (repeat apply Forall_cons_2; [done|done|done|by eapply wire_hex
      |apply wire_decimal; lia|apply wire_decimal; lia|by apply wire_safe
      |by apply wire_identity_cgroup|constructor]).
    cbn [result_bind].
    destruct (value_of_kvs g pname name (lp_container_id process) (to_decimal (lp_process_id process))
      (to_decimal (lp_process_start_ticks process)) (lp_boot_id process) (lp_cgroup process))
      as (-> & -> & -> & -> & -> & -> & -> & -> & ->).
    cbn [result_bind]. rewrite Hg, Hpn, (TechnicalName_parse_ok name) by done. simpl. rewrite Hneeds.
    rewrite Sha256Digest_parse_hex, !parse_to_decimal, BootId_parse_safe by
      (done || lia || ulia). simpl. by rewrite <- (Hown process eq_refl), Hnew.
  - rewrite descriptor_text_lines by (repeat apply Forall_cons_2; first [done|constructor]).
    cbn [result_bind].
    destruct (value_of_kvs g pname name "-" "-" "-" "-" "-") as (-> & -> & -> & -> & _).
    cbn [result_bind]. rewrite Hg, Hpn, (TechnicalName_parse_ok name) by done.
    cbn [or_unsafe result_bind bool_decide]. by rewrite Hneeds.
Qed.

(** ** Where the two crates disagree *)

Lemma optional_positive_Err value maximum e :
  optional_positive value maximum = Err e → e = invalid_descriptor.
Proof.
  unfold optional_positive. repeat (case_match; simplify_eq/=; try congruence).
  destruct (parse_unsigned u64_max value); simpl; repeat case_match; congruence.
Qed.

Lemma optional_cgroup_foreign p :
  constructed p → forallb is_cgroup_byte (bytes (lp_cgroup p)) = false →
  optional_cgroup (lp_cgroup p) = Err invalid_descriptor.
Proof.
  intros (Hnew & _) Hbad. unfold optional_cgroup. rewrite Hbad, orb_true_r.
  rewrite bool_decide_eq_false_2; [done|]. intros E. rewrite E in Hbad. done.
Qed.

(** Placement accepts process identities that the Watchdog does not
    read: a cgroup path with a byte outside the Watchdog's vocabulary (for
    example the [@] of a systemd user service) makes it refuse the descriptor
    that Placement publishes, whatever the rest of it says. *)
Theorem foreign_cgroup_byte_is_not_understood placement g p process text :
  protection_descriptor placement g p (Some process) = Ok text →
  PlacementProtectionGeneration_parse g = Ok g →
  constructed process → is_utf8 (lp_cgroup process) = true →
  forallb is_cgroup_byte (bytes (lp_cgroup process)) = false →
  WatchdogProtectedEngine_parse text = Err invalid_descriptor.
Proof.
  intros (name & pname & Hname & Htn & Hpname & Hneeds & Hown & ->)%protection_descriptor_Ok
    Hhex%generation_hex Hc Hu Hbad.
  destruct (constructed_parts _ Hc) as (? & ? & ? & ?). pose proof Hc as (Hnew & Hcid & _ & _).
  pose proof (protection_phase_name_wire _ _ Hpname) as Hpw.
  unfold WatchdogProtectedEngine_parse. destruct (_ || _ || _ || _); [done|].
  rewrite descriptor_text_fields.
  2:{ repeat apply Forall_cons_2; [by eapply wire_hex|apply Hpw|by apply wire_safe, technical_name_safe
      |by eapply wire_hex|apply wire_decimal; lia|apply wire_decimal; lia|by apply wire_safe
      |by apply wire_identity_cgroup|constructor]. }
  cbn [result_bind]. destruct (negb _ || negb _); [done|]. unfold engine_of_fields.
  destruct (field_kvs g pname name (lp_container_id process)
    (to_decimal (lp_process_id process)) (to_decimal (lp_process_start_ticks process))
    (lp_boot_id process) (lp_cgroup process)) as (-> & -> & -> & -> & -> & -> & -> & ->).
  rewrite (optional_cgroup_foreign _ Hc Hbad).
  apply protection_phase_name_parse in Hpname as (wp & _ & -> & _).
  unfold required_lower_hex, MAX_GENERATION_BYTES.
  rewrite Hhex, (technical_name_token name), (optional_lower_hex_Some (lp_container_id process)),
    (optional_safe_token_exact (lp_boot_id process)) by done. simpl.
  destruct (optional_positive _ i32_max) as [o|e] eqn:E1; simpl;
    [destruct (match o with Some _ => _ | None => _ end); [done|]|
     apply optional_positive_Err in E1; congruence].
  destruct (optional_positive _ u64_max) as [o'|e] eqn:E2; simpl; [done|].
  apply optional_positive_Err in E2. congruence.
Qed.

(** ** A concrete handshake *)

Module HandshakeExample.
Definition placement : Placement :=
  {| pl_placement_id := "0123456789abcdef0123456789abcdef"; pl_placement_group_id := "g";
     pl_assignment :=
       {| pa_node_id := "n"; pa_runtime_installation_id := "r"; pa_hardware_observation_id := "h";
          pa_hardware_boot_id := "b"; pa_hardware_observed_at := 1; pa_task_id := "t";
          pa_address := "a";
          pa_resources := {| pr_ports := {| port_base := 2000; port_count := 1 |};
                             pr_device_ids := ["d"%string]; pr_rdma_interface := None |};
          pa_endpoint_ownership := Owner |};
     pl_state := PlacementStarting; pl_active_operation_id := None; pl_last_failure := None;
     pl_timestamps := {| created_at := 1; updated_at := 1 |} |}.
Definition generation_ : string := "00112233445566778899aabbccddeeff".
Definition name : string := "li_placement_0123456789abcdef0123456789abcdef".
Definition process (cgroup_ : string) : LinuxProtectedProcessIdentity :=
  {| lp_container_name := name;
     lp_container_id := "0123456789abcdef0123456789abcdef0123456789abcdef0123456789abcdef";
     lp_process_id := 4242; lp_process_start_ticks := 77;
     lp_boot_id := "01234567-89ab-cdef-0123-456789abcdef"; lp_cgroup := cgroup_ |}.
Definition system_process := process "/sys/fs/cgroup/system.slice/docker-0123.scope".
Definition user_process :=
  process "/sys/fs/cgroup/user.slice/user-1000.slice/user@1000.service/docker-0123.scope".
Definition text (p : LinuxProtectedProcessIdentity) : string :=
  descriptor_text generation_ "armed" name (lp_container_id p) "4242" "77" (lp_boot_id p)
    (lp_cgroup p).
Lemma published p :
  p = system_process ∨ p = user_process →
  protection_descriptor placement generation_ ProtectionArmed (Some p) = Ok (text p).
Proof. intros [-> | ->]; vm_compute; reflexivity. Qed.
Lemma is_constructed p : p = system_process ∨ p = user_process → constructed p.
Proof. intros [-> | ->]; split_and!; vm_compute; (reflexivity || split; discriminate). Qed.
End HandshakeExample.

Lemma published_descriptor_is_understood_witness :
  ∃ name wp, linux_placement_container_name HandshakeExample.placement = Ok name ∧
    watch_phase ProtectionArmed = Some wp ∧
    WatchdogProtectedEngine_parse (HandshakeExample.text HandshakeExample.system_process)
      = Ok (engine_of HandshakeExample.generation_ wp name (Some HandshakeExample.system_process)).
Proof.
  assert (Hg : PlacementProtectionGeneration_parse HandshakeExample.generation_ = Ok HandshakeExample.generation_)
    by (vm_compute; reflexivity).
  destruct (published_descriptor_is_understood _ _ _ _ _
    (HandshakeExample.published HandshakeExample.system_process (or_introl eq_refl)) Hg) as (name & wp & Hn & Hw & Hp).
  - intros ? [= <-]. split; [by apply HandshakeExample.is_constructed; left|].
    split; [vm_compute; discriminate|vm_compute; reflexivity].
  - exists name, wp. split; [exact Hn|]. split; [exact Hw|].
    assert (Hl : (str_len (HandshakeExample.text HandshakeExample.system_process)
      <=? WatchdogContract.MAX_DESCRIPTOR_BYTES) = true) by (vm_compute; reflexivity).
    rewrite Hl in Hp. exact Hp.
Defined.

Lemma acknowledgement_matches_its_descriptor_witness :
  let t := engine_of HandshakeExample.generation_ Armed HandshakeExample.name
             (Some HandshakeExample.system_process) in
  acknowledgement_matches (acknowledgement_text t) HandshakeExample.generation_ ProtectionArmed
    (container_id t) = true ↔
  HandshakeExample.generation_ = generation t ∧ watch_phase ProtectionArmed = Some (phase t) ∧
  container_id t = container_id t.
Proof.
  apply (acknowledgement_matches_its_descriptor
    (HandshakeExample.text HandshakeExample.system_process)).
  - vm_compute. reflexivity.
  - intros id [= <-]. vm_compute. reflexivity.
Defined.

Lemma descriptor_round_trip_witness :
  ∃ name, linux_placement_container_name HandshakeExample.placement = Ok name ∧
    parse_descriptor (HandshakeExample.text HandshakeExample.user_process)
      = Ok {| pd_generation := HandshakeExample.generation_; pd_phase := ProtectionArmed;
              pd_container_name := name; pd_process := Some HandshakeExample.user_process |}.
Proof.
  apply (descriptor_round_trip _ _ _ _ _
    (HandshakeExample.published HandshakeExample.user_process (or_intror eq_refl))).
  - vm_compute. reflexivity.
  - intros ? [= <-]. split; [by apply HandshakeExample.is_constructed; right|].
    vm_compute. reflexivity.
Defined.

Lemma foreign_cgroup_byte_is_not_understood_witness :
  WatchdogProtectedEngine_parse (HandshakeExample.text HandshakeExample.user_process)
    = Err invalid_descriptor.
Proof.
  apply (foreign_cgroup_byte_is_not_understood _ _ _ _ _
    (HandshakeExample.published HandshakeExample.user_process (or_intror eq_refl))).
  - vm_compute. reflexivity.
  - by apply HandshakeExample.is_constructed; right.
  - vm_compute. reflexivity.
  - vm_compute. reflexivity.
Defined.
