(* ===== verification/PlacementExecutor.v ===== *)
(** * Linux placement executor

    [LinuxPlacementExecutor] of [core/placement/src/li_linux_placement_executor.rs]:
    the order of process execution and Watchdog protection.  The executor is
    written against two interfaces, the process provider and the protection
    provider; the slot protocol of [PlacementProtection] is an instance of the
    second. *)

From S2P Require Import Prelude Values Text WatchdogContract WatchdogLinux.
From S2P Require Import Placement PlacementContract PlacementProtection.
From S2P Require Import ProtectionHandshake.

Inductive LinuxPlacementExecutionState :=
| ExecutionAbsent | ExecutionStaged | ExecutionRunning | ExecutionStopped | ExecutionRemoved
| ExecutionFailed.

#[export] Instance LinuxPlacementExecutionState_eq_dec : EqDecision LinuxPlacementExecutionState.
Proof. solve_decision. Defined.

Record LinuxPlacementExecutionObservation := {
  eo_state : LinuxPlacementExecutionState;
  eo_process : option LinuxProtectedProcessIdentity;
  eo_ready : bool;
  eo_endpoint : option PlacementEndpoint;
}.

Definition ExecutionObservation_new (state : LinuxPlacementExecutionState)
    (process : option LinuxProtectedProcessIdentity) (ready : bool)
    (endpoint : option PlacementEndpoint)
  : result PlacementError LinuxPlacementExecutionObservation :=
  let running := bool_decide (state = ExecutionRunning) in
  if (running && match process with None => true | Some _ => false end)
     || (negb running && (ready || match endpoint with Some _ => true | None => false end))
  then Err (PlacementInvalidRequest "Linux placement execution observation is incoherent")
  else Ok {| eo_state := state; eo_process := process; eo_ready := ready;
             eo_endpoint := endpoint |}.

(** The interface of the process provider. *)
Class LinuxPlacementExecutionProvider (W : Type) := {
  execution_stage : Placement → W → result PlacementError string * W;
  execution_start : Placement → W → result PlacementError LinuxProtectedProcessIdentity * W;
  execution_wait_until_ready : Placement → LinuxProtectedProcessIdentity →
    W → result PlacementError bool * W;
  execution_endpoint : Placement → LinuxProtectedProcessIdentity →
    W → result PlacementError (option PlacementEndpoint) * W;
  execution_rollback_start : Placement → option LinuxProtectedProcessIdentity →
    W → result PlacementError () * W;
  execution_stop : Placement → W → result PlacementError () * W;
  execution_remove : Placement → W → result PlacementError () * W;
  execution_observe : Placement → W → result PlacementError LinuxPlacementExecutionObservation * W;
}.

(** The interface of the protection provider. *)
Class LinuxPlacementProtectionProvider (W : Type) := {
  protection_begin : Placement → W → result PlacementError string * W;
  protection_bind_starting : Placement → string → LinuxProtectedProcessIdentity →
    W → result PlacementError () * W;
  protection_arm : Placement → string → LinuxProtectedProcessIdentity →
    W → result PlacementError () * W;
  protection_disarm : Placement → W → result PlacementError PlacementProtectionStatus * W;
  protection_status : Placement → option LinuxProtectedProcessIdentity →
    W → result PlacementError PlacementProtectionStatus * W;
  protection_acknowledge_trip : Placement → W → result PlacementError bool * W;
  protection_retire : Placement → W → result PlacementError () * W;
}.

(** The filesystem slot protocol implements it, with [attempts] polls of the
    acknowledgement. *)
Definition filesystem_protection {W} `{!LinuxProtectionIo W} (attempts : nat)
  : LinuxPlacementProtectionProvider W := {|
  protection_begin := begin_protection attempts;
  protection_bind_starting := bind_starting attempts;
  protection_arm := arm attempts;
  protection_disarm := disarm attempts;
  protection_status := status;
  protection_acknowledge_trip := acknowledge_trip;
  protection_retire := retire;
|}.

Definition validated_endpoint (placement : Placement) (endpoint : option PlacementEndpoint)
  : result PlacementError (option PlacementEndpoint) :=
  match pa_endpoint_ownership (pl_assignment placement), endpoint with
  | Owner, None => Err EndpointUnavailable
  | Owner, Some e =>
    if negb (bool_decide (pe_placement_id e = pl_placement_id placement))
       || negb (bool_decide (pe_node_id e = pa_node_id (pl_assignment placement)))
       || negb (eh_healthy (pe_health e))
    then Err EndpointUnavailable else Ok (Some e)
  | Participant, None => Ok None
  | Participant, Some _ => Err EndpointUnavailable
  end.

Section executor.
Context {W : Type} `{!LinuxPlacementExecutionProvider W, !LinuxPlacementProtectionProvider W}.
Abbreviation X := (SE W PlacementError).

(** [let _ = call]: the outcome is dropped, the effect stays. *)
Definition dropped {A} (c : X A) (w : W) : W := (c w).2.

(** The rollback reports nothing: it only threads the world. *)
Definition rollback_incomplete_start (placement : Placement)
    (process : option LinuxProtectedProcessIdentity) (w : W) : W :=
  let '(st, w) := protection_status placement process w in
  let trip_latched := match st with Ok st => ps_trip_latched st | Err _ => false end in
  let w := if trip_latched then w else dropped (protection_disarm placement) w in
  dropped (execution_rollback_start placement process) w.

(** The trip check before a start: a latched trip must be acknowledged. *)
Definition clear_trip (placement : Placement) (acknowledge : bool)
    (protection : PlacementProtectionStatus) : X () :=
  if ps_trip_latched protection then
    if negb acknowledge then se_fail ProtectionUnsafe
    else
      do! removed <- protection_acknowledge_trip placement in
      if negb removed then se_fail ProtectionUnsafe
      else
        do! protection <- protection_status placement None in
        if ps_trip_latched protection then se_fail ProtectionUnsafe else se_ret ()
  else if acknowledge then run! protection_acknowledge_trip placement in se_ret ()
  else se_ret ().

(** Bind, wait for readiness, arm, read and check the endpoint. *)
Definition protect_and_publish (placement : Placement) (generation : string)
    (process : LinuxProtectedProcessIdentity) : X (option PlacementEndpoint) :=
  run! protection_bind_starting placement generation process in
  do! ready <- execution_wait_until_ready placement process in
  if negb ready then se_fail ExecutionUnavailable
  else
    run! protection_arm placement generation process in
    do! endpoint <- execution_endpoint placement process in
    se_lift (validated_endpoint placement endpoint).

Definition start_protected (placement : Placement) (acknowledge_protection_trip : bool)
  : X (option PlacementEndpoint) :=
  do! protection <- protection_status placement None in
  if negb (is_idle (ps_phase protection)) then se_fail ProtectionUnsafe
  else
    run! clear_trip placement acknowledge_protection_trip protection in
    do! generation <- protection_begin placement in
    λ w,
    match execution_start placement w with
    | (Err error, w) => (Err error, rollback_incomplete_start placement None w)
    | (Ok process, w) =>
      match linux_placement_container_name placement with
      | Err error => (Err error, w)
      | Ok name =>
        if negb (bool_decide (lp_container_name process = name))
        then (Err ProtectionUnsafe, rollback_incomplete_start placement (Some process) w)
        else
          match protect_and_publish placement generation process w with
          | (Ok endpoint, w) => (Ok endpoint, w)
          | (Err error, w) => (Err error, rollback_incomplete_start placement (Some process) w)
          end
      end
    end.

Definition executor_stage (placement : Placement) : X string := execution_stage placement.

Definition executor_start (placement : Placement) (acknowledge_protection_trip : bool)
  : X (option PlacementEndpoint) :=
  start_protected placement acknowledge_protection_trip.

Definition executor_stop (placement : Placement) : X () :=
  do! st <- protection_disarm placement in
  if negb (bool_decide (ps_phase st = ProtectionDisarmed)) then se_fail ProtectionUnsafe
  else execution_stop placement.

Definition executor_remove (placement : Placement) : X () :=
  do! execution <- execution_observe placement in
  if bool_decide (eo_state execution = ExecutionRunning) then se_fail ProtectionUnsafe
  else
    do! protection <- protection_status placement (eo_process execution) in
    if negb (is_idle (ps_phase protection)) then se_fail ProtectionUnsafe
    else
      run! (if ps_trip_latched protection then
              do! removed <- protection_acknowledge_trip placement in
              if negb removed then se_fail ProtectionUnsafe
              else
                do! protection <- protection_status placement (eo_process execution) in
                if negb (bool_decide (ps_phase protection = ProtectionDisarmed))
                   || ps_trip_latched protection
                then se_fail ProtectionUnsafe else se_ret ()
            else se_ret ()) in
      run! protection_retire placement in
      execution_remove placement.

Definition absent_state (s : PlacementState) : PlacementState :=
  match s with
  | PlacementStaged => PlacementStaged
  | PlacementStopped => PlacementStopped
  | PlacementRemoved => PlacementRemoved
  | _ => PlacementFailed
  end.

Definition executor_observe (placement : Placement) : X PlacementObservation :=
  do! execution <- execution_observe placement in
  do! protection <- protection_status placement (eo_process execution) in
  let observed state endpoint trip :=
    {| po_state := state; po_endpoint := endpoint; po_protection_trip_latched := trip |} in
  if ps_trip_latched protection then se_ret (observed PlacementFailed None true)
  else
    match eo_state execution with
    | ExecutionRunning =>
      if eo_ready execution && bool_decide (ps_phase protection = ProtectionArmed)
      then do! endpoint <- se_lift (validated_endpoint placement (eo_endpoint execution)) in
           se_ret (observed PlacementRunning endpoint false)
      else se_ret (observed PlacementFailed None false)
    | ExecutionFailed => se_ret (observed PlacementFailed None false)
    | ExecutionStaged => se_ret (observed PlacementStaged None false)
    | ExecutionStopped => se_ret (observed PlacementStopped None false)
    | ExecutionRemoved => se_ret (observed PlacementRemoved None false)
    | ExecutionAbsent => se_ret (observed (absent_state (pl_state placement)) None false)
    end.
End executor.

(** The Linux executor is one implementation of the lifecycle's interface. *)
#[export] Instance linux_placement_execution {W}
    `{!LinuxPlacementExecutionProvider W, !LinuxPlacementProtectionProvider W}
  : PlacementExecution W := {|
  execute_stage := executor_stage;
  execute_start := executor_start;
  execute_stop := executor_stop;
  execute_remove := executor_remove;
  execute_observe := executor_observe;
|}.

(** ** Laws *)

Section laws.
Context {W : Type} `{!LinuxPlacementExecutionProvider W}.

Lemma protect_and_publish_Ok `{!LinuxPlacementProtectionProvider W} placement g process w ep w' :
  protect_and_publish placement g process w = (Ok ep, w') →
  ∃ w1 w2 w3 raw,
    protection_bind_starting placement g process w = (Ok (), w1) ∧
    execution_wait_until_ready placement process w1 = (Ok true, w2) ∧
    protection_arm placement g process w2 = (Ok (), w3) ∧
    execution_endpoint placement process w3 = (Ok raw, w') ∧
    validated_endpoint placement raw = Ok ep.
Proof.
  unfold protect_and_publish. intros ([] & w1 & H1 & H)%se_bind_Ok.
  apply se_bind_Ok in H as ([] & w2 & H2 & H); [|done].
  apply se_bind_Ok in H as ([] & w3 & H3 & H).
  apply se_bind_Ok in H as (raw & w4 & H4 & H). unfold se_lift in H. simplify_eq.
  by exists w1, w2, w3, raw.
Qed.

(** A start that returns an endpoint: the protection was idle and clear, then one
    generation was begun, the process started, bound, ready and armed, in this
    order, before the endpoint was read. *)
Lemma start_protected_Ok `{!LinuxPlacementProtectionProvider W} placement ack w ep w' :
  start_protected placement ack w = (Ok ep, w') →
  ∃ protection w1 w2 g w3 process w4,
    protection_status placement None w = (Ok protection, w1) ∧
    is_idle (ps_phase protection) = true ∧
    clear_trip placement ack protection w1 = (Ok (), w2) ∧
    protection_begin placement w2 = (Ok g, w3) ∧
    execution_start placement w3 = (Ok process, w4) ∧
    linux_placement_container_name placement = Ok (lp_container_name process) ∧
    protect_and_publish placement g process w4 = (Ok ep, w').
Proof.
  unfold start_protected. intros (protection & w1 & H1 & H)%se_bind_Ok.
  destruct (is_idle (ps_phase protection)) eqn:Hidle; [|done]. simpl in H.
  apply se_bind_Ok in H as ([] & w2 & H2 & H). apply se_bind_Ok in H as (g & w3 & H3 & H).
  destruct (execution_start placement w3) as [[process|] w4] eqn:H4; [|done].
  destruct (linux_placement_container_name placement) as [name|] eqn:Hn; [|done].
  destruct (bool_decide (lp_container_name process = name)) eqn:Hb; [|done].
  apply bool_decide_eq_true in Hb as <-. simpl in H.
  destruct (protect_and_publish placement g process w4) as [[e|] w5] eqn:H5; [|done].
  simplify_eq. by exists protection, w1, w2, g, w3, process, w4.
Qed.

Section filesystem.
Context `{!LinuxProtectionIo W} (attempts : nat).

Lemma await_acknowledgement_Ok n slot g p c w w' :
  await_acknowledgement n slot g p c w = (Ok (), w') →
  ∃ w1 payload, read_private_file slot AcknowledgementFile w1 = (Ok (Some payload), w') ∧
    acknowledgement_matches payload g p c = true.
Proof.
  revert w. induction n as [|n IH]; intros w; [done|]. cbn [await_acknowledgement].
  intros (payload & w1 & H1 & H)%se_bind_Ok. destruct payload as [payload|].
  - destruct (acknowledgement_matches payload g p c) eqn:Hm; [|by eapply IH].
    unfold se_ret in H. simplify_eq. eauto.
  - by eapply IH.
Qed.

Lemma publish_Ok placement g p process w w' :
  publish attempts placement g p process w = (Ok (), w') →
  ∃ w1 w2 text, protection_descriptor placement g p process = Ok text ∧
    write_atomic_private_file (pl_placement_id placement) StateFile text w1 = (Ok (), w2) ∧
    await_acknowledgement attempts (pl_placement_id placement) g p (lp_container_id <$> process) w2
      = (Ok (), w').
Proof.
  unfold publish. intros ([] & w0 & H0 & H)%se_bind_Ok.
  apply se_bind_Ok in H as (text & w1 & H1 & H). unfold se_lift in H1. injection H1 as H1 <-.
  apply se_bind_Ok in H as ([] & w2 & H2 & H). by exists w0, w2, text.
Qed.

(** C6: an endpoint is returned only after the armed descriptor of the very
    process was written and an acknowledgement of that generation, phase and
    container was read back, with nothing but the endpoint query after it; the
    process had reported ready, and the endpoint passed the ownership check. *)
Theorem endpoint_is_published_only_when_armed placement ack w ep w' :
  start_protected (LinuxPlacementProtectionProvider0 := filesystem_protection attempts)
    placement ack w = (Ok ep, w') →
  ∃ g process text payload w0 w1 w2 w3 w4 w5 raw,
    execution_wait_until_ready placement process w0 = (Ok true, w1) ∧
    protection_descriptor placement g ProtectionArmed (Some process) = Ok text ∧
    write_atomic_private_file (pl_placement_id placement) StateFile text w2 = (Ok (), w3) ∧
    read_private_file (pl_placement_id placement) AcknowledgementFile w4
      = (Ok (Some payload), w5) ∧
    acknowledgement_matches payload g ProtectionArmed (Some (lp_container_id process)) = true ∧
    execution_endpoint placement process w5 = (Ok raw, w') ∧
    validated_endpoint placement raw = Ok ep.
Proof.
  intros (protection & v1 & v2 & g & v3 & process & v4 & _ & _ & _ & _ & _ & _ & H)%start_protected_Ok.
  apply protect_and_publish_Ok in H as (w0 & w1 & w5 & raw & _ & Hready & Harm & Hraw & Hv).
  simpl in Harm. unfold arm in Harm. apply se_bind_Ok in Harm as ([] & w2 & _ & Harm).
  apply publish_Ok in Harm as (w2' & w3 & text & Htext & Hwrite & Hawait).
  apply await_acknowledgement_Ok in Hawait as (w4 & payload & Hread & Hm).
  by exists g, process, text, payload, w0, w1, w2', w3, w4, w5, raw.
Qed.
End filesystem.

(** when a start fails after its process was started under the
    placement's own name, the last thing it does is to roll that process back,
    and protection is disarmed first unless a trip is latched. *)
Theorem failed_start_is_rolled_back `{!LinuxPlacementProtectionProvider W}
    placement protection ack w w1 w2 w3 w4 g process e w' :
  protection_status placement None w = (Ok protection, w1) →
  is_idle (ps_phase protection) = true →
  clear_trip placement ack protection w1 = (Ok (), w2) →
  protection_begin placement w2 = (Ok g, w3) →
  execution_start placement w3 = (Ok process, w4) →
  is_ok (linux_placement_container_name placement) = true →
  start_protected placement ack w = (Err e, w') →
  ∃ w5 w6 st, protection_status placement (Some process) w5 = (st, w6) ∧
    w' = (execution_rollback_start placement (Some process)
            (if match st with Ok st => ps_trip_latched st | Err _ => false end then w6
             else (protection_disarm placement w6).2)).2.
Proof.
  intros H1 Hidle H2 H3 H4 Hname. unfold start_protected, se_bind.
  rewrite H1, Hidle. cbn [negb]. rewrite H2, H3, H4.
  destruct (linux_placement_container_name placement) as [name|]; [|done].
  assert (∀ v, (Err e, w') = (@Err PlacementError (option PlacementEndpoint) e,
      rollback_incomplete_start placement (Some process) v) →
    ∃ w5 w6 st, protection_status placement (Some process) w5 = (st, w6) ∧
      w' = (execution_rollback_start placement (Some process)
              (if match st with Ok st => ps_trip_latched st | Err _ => false end then w6
               else (protection_disarm placement w6).2)).2) as Hroll.
  { intros v [= ->]. unfold rollback_incomplete_start, dropped.
    destruct (protection_status placement (Some process) v) as [st w6] eqn:E. by exists v, w6, st. }
  destruct (negb _); [intros [= <- <-]; by eapply Hroll|].
  destruct (protect_and_publish placement g process w4) as [[ep|e'] w5]; [done|].
  intros [= <- <-]. by eapply Hroll.
Qed.
End laws.

(** ** A concrete start

    Private files in memory; the Watchdog reads each descriptor as it is written
    and acknowledges it. *)

Module StartExample.
Import HandshakeExample.
Record Host := {
  h_state : gmap string string;
  h_ack : gmap string string;
  h_trip : gmap string string;
  h_rolled_back : bool;
}.
Definition files (h : Host) (f : SlotFile) : gmap string string :=
  match f with StateFile => h_state h | AcknowledgementFile => h_ack h | TripFile => h_trip h end.
Definition set_files (f : SlotFile) (m : gmap string string) (h : Host) : Host :=
  match f with
  | StateFile => {| h_state := m; h_ack := h_ack h; h_trip := h_trip h;
                    h_rolled_back := h_rolled_back h |}
  | AcknowledgementFile => {| h_state := h_state h; h_ack := m; h_trip := h_trip h;
                              h_rolled_back := h_rolled_back h |}
  | TripFile => {| h_state := h_state h; h_ack := h_ack h; h_trip := m;
                   h_rolled_back := h_rolled_back h |}
  end.
Definition acknowledged (slot payload : string) (h : Host) : Host :=
  match WatchdogProtectedEngine_parse payload with
  | Ok t => set_files AcknowledgementFile (<[slot := acknowledgement_text t]> (h_ack h)) h
  | Err _ => h
  end.
#[global] Instance io : LinuxProtectionIo Host := {|
  ensure_root h := (Ok (), h);
  ensure_slot _ h := (Ok (), h);
  write_atomic_private_file slot f payload h :=
    let h := set_files f (<[slot := payload]> (files h f)) h in
    (Ok (), match f with StateFile => acknowledged slot payload h | _ => h end);
  read_private_file slot f h := (Ok (files h f !! slot), h);
  remove_private_file slot f h :=
    (Ok (bool_decide (is_Some (files h f !! slot))), set_files f (delete slot (files h f)) h);
  remove_private_directory _ h := (Ok true, h);
  wait_interval h := h;
  new_generation h := (Ok generation_, h);
|}.
Definition endpoint_ : PlacementEndpoint :=
  {| pe_placement_id := pl_placement_id placement; pe_node_id := "n";
     pe_address := {| endpoint_scheme := SchemeHttp; endpoint_host := "h"; endpoint_port := 2000 |}; pe_credential_id := "c";
     pe_ca_credential_id := None; pe_token_count := None; pe_max_active_requests := 1;
     pe_max_context_tokens := 1;
     pe_health := {| eh_healthy := true; eh_memory_pressure := false;
                     eh_temperature_millicelsius := None; eh_prefix_keys := [] |} |}.
(** The process becomes ready or not, as the flag says. *)
Definition execution (ready : bool) : LinuxPlacementExecutionProvider Host := {|
  execution_stage _ h := (Ok "digest"%string, h);
  execution_start _ h := (Ok system_process, h);
  execution_wait_until_ready _ _ h := (Ok ready, h);
  execution_endpoint _ _ h := (Ok (Some endpoint_), h);
  execution_rollback_start _ _ h :=
    (Ok (), {| h_state := h_state h; h_ack := h_ack h; h_trip := h_trip h;
               h_rolled_back := true |});
  execution_stop _ h := (Ok (), h);
  execution_remove _ h := (Ok (), h);
  execution_observe _ h := (Err ExecutionUnavailable, h);
|}.
Definition h0 : Host := {| h_state := ∅; h_ack := ∅; h_trip := ∅; h_rolled_back := false |}.
Definition start (ready : bool) :=
  start_protected (LinuxPlacementExecutionProvider0 := execution ready)
    (LinuxPlacementProtectionProvider0 := filesystem_protection 3) placement false h0.
Lemma start_succeeds : start true = (Ok (Some endpoint_), (start true).2).
Proof. vm_compute. reflexivity. Qed.
Lemma start_fails : start false = (Err ExecutionUnavailable, (start false).2).
Proof. vm_compute. reflexivity. Qed.
End StartExample.

Lemma endpoint_is_published_only_when_armed_witness :
  let w' := (StartExample.start true).2 in
  let placement := HandshakeExample.placement in
  ∃ g process text payload w0 w1 w2 w3 w4 w5 raw,
    execution_wait_until_ready (LinuxPlacementExecutionProvider := StartExample.execution true)
      placement process w0 = (Ok true, w1) ∧
    protection_descriptor placement g ProtectionArmed (Some process) = Ok text ∧
    write_atomic_private_file (pl_placement_id placement) StateFile text w2 = (Ok (), w3) ∧
    read_private_file (pl_placement_id placement) AcknowledgementFile w4
      = (Ok (Some payload), w5) ∧
    acknowledgement_matches payload g ProtectionArmed (Some (lp_container_id process)) = true ∧
    execution_endpoint (LinuxPlacementExecutionProvider := StartExample.execution true)
      placement process w5 = (Ok raw, w') ∧
    validated_endpoint placement raw = Ok (Some StartExample.endpoint_).
Proof.
  exact (endpoint_is_published_only_when_armed
    (LinuxPlacementExecutionProvider0 := StartExample.execution true) 3
    HandshakeExample.placement false StartExample.h0 _ _ StartExample.start_succeeds).
Defined.

Lemma failed_start_is_rolled_back_witness :
  let execution := StartExample.execution false in
  let protection := filesystem_protection 3 in
  let process := HandshakeExample.system_process in
  ∃ w5 w6 st, protection_status (LinuxPlacementProtectionProvider := protection)
      HandshakeExample.placement (Some process) w5 = (st, w6) ∧
    (StartExample.start false).2
      = (execution_rollback_start (LinuxPlacementExecutionProvider := execution)
           HandshakeExample.placement (Some process)
           (if match st with Ok st => ps_trip_latched st | Err _ => false end then w6
            else (protection_disarm (LinuxPlacementProtectionProvider := protection)
                    HandshakeExample.placement w6).2)).2.
Proof.
  eapply (failed_start_is_rolled_back
    (LinuxPlacementExecutionProvider0 := StartExample.execution false)
    (LinuxPlacementProtectionProvider0 := filesystem_protection 3)
    HandshakeExample.placement _ false StartExample.h0 _ _ _ _ _ HandshakeExample.system_process);
    [vm_compute; reflexivity..|exact StartExample.start_fails].
Defined.
