(* ===== verification/WatchdogContainment.v ===== *)
(** * The Linux provider under the Watchdog manager

    Composition of [WatchdogLinux] with the manager's interface, and what the
    provider guarantees: observed targets are the committed slots, an active
    target stays observed when its slot disappears, containment reports success
    only for an empty cgroup. *)

From Stdlib Require Ascii.
From S2P Require Import Prelude Ordering Values Text WatchdogRecord WatchdogContract.
From S2P Require Import WatchdogManager WatchdogSafety WatchdogLinux.
From S2P Require Import Placement PlacementProtection ProtectionHandshake.
Import (notations) Stdlib.Strings.Ascii.

(** ** Composition *)

(** The sample and storage providers next to the Linux host. *)
Class WatchdogBackend (W : Type) := {
  backend_sample : Z → W → result WatchdogError WatchdogSample * W;
  backend_next_sequence : W → result WatchdogError Z * W;
  backend_record_sample : WatchdogSample → W → result WatchdogError () * W;
  backend_record_event : WatchdogSafetyEvent → W → result WatchdogError () * W;
  backend_flush : W → result WatchdogError () * W;
}.

Definition on_host {W S A} (f : W → result WatchdogError A * W) (w : W * S)
  : result WatchdogError A * (W * S) :=
  let '(r, w') := f w.1 in (r, (w', w.2)).

(** [LinuxWatchdogProtectionProvider] keeps its slots behind a mutex; they are
    replaced only by a completed observation. *)
#[export] Instance linux_watchdog {W D} `{!WatchdogLinuxHost W D, !WatchdogBackend W}
  : WatchdogProviders (W * gmap string (Slot D)) := {|
  provide_sample n := on_host (backend_sample n);
  provide_observations _ := λ w,
    match linux_observations w.2 w.1 with
    | (Ok (observations, slots), w') => (Ok observations, (w', slots))
    | (Err e, w') => (Err e, (w', w.2))
    end;
  acknowledge_disarmed t := λ w, on_host (linux_acknowledge_disarmed w.2 t) w;
  latch_trip t a reason i := λ w, on_host (linux_latch_trip w.2 t a reason i) w;
  contain t a grace := λ w, on_host (linux_contain w.2 t a grace) w;
  storage_next_sequence := on_host backend_next_sequence;
  record_sample s := on_host (backend_record_sample s);
  record_event e := on_host (backend_record_event e);
  storage_flush := on_host backend_flush;
|}.

Section laws.
Context {W D : Type} `{!WatchdogLinuxHost W D}.
Abbreviation Slots := (gmap string (Slot D)).

(** ** Discovery *)

Lemma discover_other keys next seen changed w next' seen' changed' w' key :
  discover (D := D) keys next seen changed w = (Ok (next', seen', changed'), w') →
  key ∉ keys → next' !! key = next !! key.
Proof.
  revert next seen changed w. induction keys as [|k keys IH]; intros next seen changed w; simpl.
  { intros [= <- <- <- <-]. done. }
  destruct (_ || _); [done|]. intros (payload & w1 & _ & H)%se_bind_Ok Hk.
  apply not_elem_of_cons in Hk as [Hk Hkeys].
  destruct payload as [payload|]; [|by eapply IH].
  destruct (negb (is_utf8 payload)); [done|].
  apply se_bind_Ok in H as (target & w2 & _ & H). destruct (match next !! k with Some _ => _ | None => _ end);
    [by eapply IH|].
  apply se_bind_Ok in H as (process & w3 & _ & H). eapply IH in H; [|done].
  by rewrite lookup_insert_ne in H.
Qed.

Lemma discovered_slots_retain (current next : Slots) changed w w1 w' keys key slot :
  list_slots w = (Ok keys, w1) → key ∉ keys →
  discovered_slots current w = (Ok (next, changed), w') →
  current !! key = Some slot → is_active slot = true → next !! key = Some slot.
Proof.
  unfold discovered_slots. intros Hlist Hkey H Hcur Hact.
  apply se_bind_Ok in H as (keys' & w2 & H1 & H). rewrite Hlist in H1. simplify_eq.
  destruct (_ <? _); [done|]. apply se_bind_Ok in H as ([[next' seen] changed'] & w3 & H1 & H).
  unfold se_ret in H. simplify_eq. eapply discover_other in H1; [|done].
  apply map_lookup_filter_Some. split; [congruence|by right].
Qed.

(** ** Observation *)

Lemma observe_slot_target memory pressure key (slot : Slot D) w o slot' w' :
  observe_slot memory pressure key slot w = (Ok (o, slot'), w') →
  obs_target o = slot_target slot ∧ slot_target slot' = slot_target slot.
Proof.
  unfold observe_slot. intros (trip & w1 & _ & H)%se_bind_Ok.
  destruct (negb (is_active slot)); [unfold se_ret in H; by simplify_eq|].
  apply se_bind_Ok in H as (ps & w2 & _ & H). destruct (with_pressure _ _ _) as [safety p].
  apply se_bind_Ok in H as (cg & w3 & _ & H). apply se_bind_Ok in H as (cur & w4 & _ & H).
  unfold se_ret in H. by simplify_eq.
Qed.

Lemma observe_slots_targets memory pressure (entries : list (string * Slot D)) slots w os slots' w' :
  observe_slots memory pressure entries slots w = (Ok (os, slots'), w') →
  obs_target <$> os = (λ e, slot_target e.2) <$> entries.
Proof.
  revert slots w os. induction entries as [|[key slot] entries IH]; intros slots w os; simpl.
  { intros [= <- <- <-]. done. }
  intros ([o slot'] & w1 & H1 & H)%se_bind_Ok. apply se_bind_Ok in H as ([os' slots1] & w2 & H2 & H).
  unfold se_ret in H. simplify_eq. apply observe_slot_target in H1 as [? _].
  rewrite !fmap_cons. f_equal; [done|by eapply IH].
Qed.

Lemma collect_observations_targets (slots slots' : Slots) w os w' :
  collect_observations slots w = (Ok (os, slots'), w') →
  obs_target <$> os = (λ e, slot_target e.2) <$> in_order slots.
Proof.
  unfold collect_observations. destruct (existsb _ _); [|by apply observe_slots_targets].
  intros (m & w1 & _ & H)%se_bind_Ok. apply se_bind_Ok in H as (p & w2 & _ & H).
  by eapply observe_slots_targets.
Qed.

(** Some observation is about this target. *)
Definition observed (target : WatchdogProtectedEngine)
    (os : list WatchdogProtectionObservation) : Prop :=
  ∃ o, o ∈ os ∧ obs_target o = target.

(** a target that was bound to a process stays observed when its slot
    disappears from the directory: removing the slot does not end its
    protection. *)
Theorem vanished_slot_stays_observed (current slots' : Slots) w w1 w' keys key slot os :
  list_slots w = (Ok keys, w1) → key ∉ keys →
  current !! key = Some slot → is_active slot = true →
  linux_observations current w = (Ok (os, slots'), w') →
  observed (slot_target slot) os.
Proof.
  intros Hlist Hkey Hcur Hact H. unfold linux_observations in H.
  apply se_bind_Ok in H as ([next changed] & w2 & H1 & H).
  eapply discovered_slots_retain in H1; [|done..].
  apply se_bind_Ok in H as ([] & w3 & _ & H). apply se_bind_Ok in H as ([os' slots1] & w4 & H2 & H).
  apply se_bind_Ok in H as ([] & w5 & _ & H). unfold se_ret in H. simplify_eq.
  apply collect_observations_targets in H2.
  assert (slot_target slot ∈ obs_target <$> os) as (o & -> & Ho)%list_elem_of_fmap; [|by exists o].
  rewrite H2. apply list_elem_of_fmap. exists (key, slot). split; [done|].
  apply elem_of_sort_by. by apply elem_of_map_to_list.
Qed.

(** ** Containment *)

Lemma await_empty_cgroup_true n cg w w' :
  await_empty_cgroup (D := D) n cg w = (Ok true, w') → ∃ w0, cgroup_is_empty cg w0 = (Ok true, w').
Proof.
  revert w. induction n as [|n IH]; intros w; simpl; [eauto|].
  intros ([] & w1 & H1 & H)%se_bind_Ok; [|by eapply IH]. unfold se_ret in H. simplify_eq. eauto.
Qed.

(** The world [w'] was reached by finding the cgroup empty. *)
Definition found_empty (cg : string) (w' : W) : Prop :=
  ∃ w0, cgroup_is_empty cg w0 = (Ok true, w').

(** containment reports success only when the last observation of the
    target's own cgroup found it empty. *)
Theorem containment_means_empty_cgroup (slots : Slots) target action grace w w' :
  linux_contain slots target action grace w = (Ok true, w') →
  ∃ cg, cgroup target = Some cg ∧ found_empty cg w'.
Proof.
  unfold linux_contain. destruct (negb _); [done|].
  intros ([key slot] & w1 & _ & H)%se_bind_Ok. apply se_bind_Ok in H as (cg & w2 & H2 & H).
  unfold se_lift in H2. injection H2 as H2 <-. apply ok_or_Ok in H2. exists cg.
  apply se_bind_Ok in H as ([] & w3 & _ & H). apply se_bind_Ok in H as ([] & w4 & H4 & H).
  - unfold se_ret in H. simplify_eq. by split; [|exists w3].
  - apply se_bind_Ok in H as ([] & w5 & _ & H). split; [done|by eapply await_empty_cgroup_true].
Qed.
End laws.

(** ** A concrete host

    One armed slot; the kernel's OOM-kill counter is part of the host, and the
    next write of a sample can be made to fail. *)

Module LinuxExample.
Record Host := {
  k_slots : list string;
  k_oom_kill : Z;
  k_trip : option string;
  k_storage_fails : bool;
}.
Definition slot : string := pl_placement_id HandshakeExample.placement.
Definition line (s : string) : string := s +:+ nl.
Definition meminfo : string :=
  line "MemTotal: 4000 kB" +:+ line "MemAvailable: 3000 kB" +:+ line "SwapTotal: 10 kB"
  +:+ line "SwapFree: 10 kB".
Definition events (oom_kill : Z) : string :=
  line "low 0" +:+ line "max 0" +:+ line "oom 0" +:+ line ("oom_kill " +:+ to_decimal oom_kill).
#[global] Instance host : WatchdogLinuxHost Host () := {|
  list_slots h := (Ok (k_slots h), h);
  read_slot_file _ name h :=
    (Ok (match name with
         | DescriptorName => Some (HandshakeExample.text HandshakeExample.system_process)
         | AcknowledgementName => None
         | TripName => k_trip h
         end), h);
  write_slot_file _ name payload h :=
    (Ok (), match name with
            | TripName => {| k_slots := k_slots h; k_oom_kill := k_oom_kill h;
                             k_trip := Some payload; k_storage_fails := k_storage_fails h |}
            | _ => h
            end);
  host_read f h :=
    (Ok (match f with
         | MemInfo => Available meminfo
         | MemoryPressure => Unsupported
         | MemoryEvents _ => Available (events (k_oom_kill h))
         end), h);
  bind_process _ h := (Ok (Some ()), h);
  pidfd_state _ h := (Ok Running, h);
  pidfd_signal _ _ h := (Ok (), h);
  pidfd_wait_for_exit _ _ h := (Ok true, h);
  cgroup_is_empty _ h := (Ok true, h);
  kill_cgroup_members _ h := (Ok (), h);
  process_wait _ h := h;
  unix_clock h := (Ok 5000, h);
|}.
#[global] Instance backend : WatchdogBackend Host := {|
  backend_sample n h :=
    (sample_with_telemetry n (1000 * n) (10 * n) WatchdogSampleTelemetry_default, h);
  backend_next_sequence h := (Ok 1, h);
  backend_record_sample _ h :=
    if k_storage_fails h
    then (Err (WatchdogProvider "storage" "write failed"),
          {| k_slots := k_slots h; k_oom_kill := k_oom_kill h; k_trip := k_trip h;
             k_storage_fails := false |})
    else (Ok (), h);
  backend_record_event _ h := (Ok (), h);
  backend_flush h := (Ok (), h);
|}.

Definition World : Type := Host * gmap string (Slot ()).
Definition h0 : Host :=
  {| k_slots := [slot]; k_oom_kill := 0; k_trip := None; k_storage_fails := false |}.
Definition m0 : WatchdogManager World :=
  {| wm_thresholds := SafetyExample.thresholds; wm_world := (h0, ∅);
     wm_state := {| next_sequence := 1; last_unix_milliseconds := 0;
                    last_monotonic_milliseconds := 0; warnings := ∅ |} |}.
(** The first tick establishes the baselines. *)
Definition m1 : WatchdogManager World := (tick m0).2.
(** Between two ticks the kernel kills a member of the cgroup. *)
Definition oom_kill (storage_fails : bool) (m : WatchdogManager World) : WatchdogManager World :=
  {| wm_thresholds := wm_thresholds m;
     wm_world := ({| k_slots := k_slots (wm_world m).1;
                     k_oom_kill := k_oom_kill (wm_world m).1 + 1;
                     k_trip := k_trip (wm_world m).1; k_storage_fails := storage_fails |},
                  (wm_world m).2);
     wm_state := wm_state m |}.
(** The resident process ends on a failed tick; a new one starts without slots. *)
Definition restart (m : WatchdogManager World) : WatchdogManager World :=
  {| wm_thresholds := wm_thresholds m; wm_world := ((wm_world m).1, ∅);
     wm_state := {| next_sequence := next_sequence (wm_state m); last_unix_milliseconds := 0;
                    last_monotonic_milliseconds := 0; warnings := ∅ |} |}.
Definition target : WatchdogProtectedEngine :=
  engine_of HandshakeExample.generation_ Armed HandshakeExample.name
    (Some HandshakeExample.system_process).
Definition tripped (m : WatchdogManager World) : bool := is_present (k_trip (wm_world m).1).
Definition leased (r : result WatchdogError WatchdogTick) : option (list WatchdogProtectedEngine) :=
  match r with Ok t => Some (cycle_targets (tick_protection_cycle t)) | Err _ => None end.
End LinuxExample.

(** the observation commits the kernel baselines before the sample is
    stored, and a restart begins without baselines.  When storing the sample
    fails, the tick ends with that error and the OOM kill it saw is forgotten:
    neither a further tick nor the first tick after a restart, with storage
    repaired and the counter unchanged, latches a trip; both lease the target as
    safe.  Without the storage failure the same kill is latched. *)
Theorem storage_failure_forgets_oom_kill :
  let healthy := tick (LinuxExample.oom_kill false LinuxExample.m1) in
  let failed := tick (LinuxExample.oom_kill true LinuxExample.m1) in
  let next := tick failed.2 in
  let restarted := tick (LinuxExample.restart failed.2) in
  LinuxExample.tripped healthy.2 = true ∧ LinuxExample.leased healthy.1 = Some [] ∧
  LinuxExample.leased failed.1 = None ∧
  LinuxExample.k_oom_kill (wm_world failed.2).1 = 1 ∧
  LinuxExample.tripped next.2 = false ∧
  LinuxExample.leased next.1 = Some [LinuxExample.target] ∧
  LinuxExample.tripped restarted.2 = false ∧
  LinuxExample.leased restarted.1 = Some [LinuxExample.target].
Proof. vm_compute. repeat split. Qed.

Lemma vanished_slot_stays_observed_witness :
  let slots := (wm_world LinuxExample.m1).2 in
  let gone := {| LinuxExample.k_slots := []; LinuxExample.k_oom_kill := 0;
                 LinuxExample.k_trip := None; LinuxExample.k_storage_fails := false |} in
  ∃ os slots' w', linux_observations slots gone = (Ok (os, slots'), w') ∧
  observed LinuxExample.target os.
Proof.
  eexists _, _, _. split; [vm_compute; reflexivity|].
  eapply (vanished_slot_stays_observed (wm_world LinuxExample.m1).2 _
    {| LinuxExample.k_slots := []; LinuxExample.k_oom_kill := 0;
       LinuxExample.k_trip := None; LinuxExample.k_storage_fails := false |} _ _ []
    LinuxExample.slot {| slot_target := LinuxExample.target; slot_process := Some ();
                         slot_pressure := None;
                         slot_cgroup := Some {| ev_oom := 0; ev_oom_kill := 0;
                                                ev_oom_group_kill := 0; ev_maximum := 0 |} |});
    [reflexivity|apply not_elem_of_nil|vm_compute; reflexivity|reflexivity|vm_compute; reflexivity].
Defined.

Lemma containment_means_empty_cgroup_witness :
  ∃ cg, cgroup LinuxExample.target = Some cg ∧ found_empty cg LinuxExample.h0.
Proof.
  apply (containment_means_empty_cgroup (wm_world LinuxExample.m1).2 LinuxExample.target Kill 1000
    LinuxExample.h0). vm_compute. reflexivity.
Defined.
