(* ===== verification/Database.v ===== *)
(** * The transactional record store

    [core/database]: typed records behind one serialized writer, with optimistic
    revisions and replayable commits ([li_database_contract.rs],
    [li_database_transaction.rs], [li_database_storage.rs],
    [li_database_manager.rs]).

    SQLite, the JSON encoding and SHA-256 are libraries: [Sqlite] has one
    operation per statement the code executes, [Json] the encoder and decoder of a
    type, [Sha256] the digest.  What the code relies on is stated in
    [DatabaseLaws]. *)

From Stdlib Require Import String.
From S2P Require Import Prelude Values Text.

(** ** Contract *)

Inductive DatabaseCollection :=
| Authentication | AuditCheckpoints | AuditEvents | AuditReplays | AuditState | Benchmarks
| BenchmarkHandoffs | CommandAuditSessions | Configuration | Controllers
| CoreUpdateServiceSnapshots | CoreUpdates | GatewayExposure | GatewayUsage
| HardwareObservations | ModelLifecycles | RuntimeInstallations | Nodes | Operations | Outbox
| Pairings | PairingReplays | PeerCredentials | Placements | Services.
#[export] Instance DatabaseCollection_eq_dec : EqDecision DatabaseCollection.
Proof. solve_decision. Defined.

Definition storage_name (collection : DatabaseCollection) : string :=
  match collection with
  | Authentication => "authentication"
  | AuditCheckpoints => "audit_checkpoints"
  | AuditEvents => "audit_events"
  | AuditReplays => "audit_replays"
  | AuditState => "audit_state"
  | Benchmarks => "benchmarks"
  | BenchmarkHandoffs => "benchmark_handoffs"
  | CommandAuditSessions => "command_audit_sessions"
  | Configuration => "configuration"
  | Controllers => "controllers"
  | CoreUpdateServiceSnapshots => "core_update_service_snapshots"
  | CoreUpdates => "core_updates"
  | GatewayExposure => "gateway_exposure"
  | GatewayUsage => "gateway_usage"
  | HardwareObservations => "hardware_observations"
  | ModelLifecycles => "model_lifecycles"
  | RuntimeInstallations => "runtime_installations"
  | Nodes => "nodes"
  | Operations => "operations"
  | Outbox => "outbox"
  | Pairings => "pairings"
  | PairingReplays => "pairing_replays"
  | PeerCredentials => "peer_credentials"
  | Placements => "placements"
  | Services => "services"
  end.

Inductive DatabaseRevision := RevisionAny | RevisionMissing | RevisionExact (revision : Z).
Inductive DatabaseMutation := MutationCreated | MutationUpdated | MutationDeleted.
#[export] Instance DatabaseRevision_eq_dec : EqDecision DatabaseRevision.
Proof. solve_decision. Defined.
#[export] Instance DatabaseMutation_eq_dec : EqDecision DatabaseMutation.
Proof. solve_decision. Defined.

Record DatabaseCommit := {
  dc_idempotency_key : string;
  dc_collection : DatabaseCollection;
  dc_identifier : string;
  dc_mutation : DatabaseMutation;
  dc_revision : Z;
  dc_committed_at : Z;
}.
Inductive DatabaseCommitDisposition := Applied | Replayed.

Record DatabaseEvent := {
  de_collection : DatabaseCollection;
  de_identifier : string;
  de_mutation : DatabaseMutation;
  de_revision : Z;
  de_committed_at : Z;
}.
Definition from_commit (commit : DatabaseCommit) : DatabaseEvent :=
  {| de_collection := dc_collection commit; de_identifier := dc_identifier commit;
     de_mutation := dc_mutation commit; de_revision := dc_revision commit;
     de_committed_at := dc_committed_at commit |}.

Inductive DatabaseError :=
| DbNotFound (collection : DatabaseCollection) (identifier : string)
| DbConflict (collection : DatabaseCollection) (identifier : string)
    (expected : DatabaseRevision) (observed : option Z)
| DbIdempotencyConflict (idempotency_key : string)
| DbInvalidInput (field reason : string)
| DbCorrupt (reason : string)
| DbUnavailable (reason : string)
| DbClosed.

(** [serde_json::to_vec] and [from_slice] of a type; encoding may fail. *)
Class Json (A : Type) := {
  to_json : A → option string;
  from_json : string → option A;
}.

(** A stored type: its collection, its version (one unless overridden) and the
    identity of a value. *)
Class DatabaseRecord (R : Type) := {
  record_collection : DatabaseCollection;
  record_version_of : Z;
  record_identifier : R → string;
  #[global] record_json :: Json R;
}.
Arguments record_collection R {_}.
Arguments record_version_of R {_}.

Record DatabaseStoredRecord (R : Type) := {
  sr_value : R;
  sr_revision : Z;
  sr_created_at : Z;
  sr_updated_at : Z;
}.
Arguments sr_value {R} _.
Arguments sr_revision {R} _.
Arguments sr_created_at {R} _.
Arguments sr_updated_at {R} _.

Inductive DatabaseCommand (R : Type) :=
| CommandSave (idempotency_key : string) (record : R) (expected_revision : DatabaseRevision)
| CommandDelete (idempotency_key identifier : string) (expected_revision : DatabaseRevision).
Arguments CommandSave {R} _ _ _.
Arguments CommandDelete R _ _ _ : clear implicits.

(** ** Prepared commands *)

Definition MAX_IDENTIFIER_BYTES : Z := 255.
Definition MAX_IDEMPOTENCY_KEY_BYTES : Z := 255.
Definition MAX_RECORD_BYTES : Z := 1048576.
Definition MAX_TRANSACTION_MUTATIONS : nat := 256.

Inductive PreparedCommand :=
| PreparedSave (collection : DatabaseCollection) (record_version : Z) (identifier payload : string)
    (idempotency_key : string) (expected_revision : DatabaseRevision)
| PreparedDelete (collection : DatabaseCollection) (record_version : Z) (identifier : string)
    (idempotency_key : string) (expected_revision : DatabaseRevision).

Definition pc_collection (command : PreparedCommand) : DatabaseCollection :=
  match command with PreparedSave c _ _ _ _ _ | PreparedDelete c _ _ _ _ => c end.
Definition pc_identifier (command : PreparedCommand) : string :=
  match command with PreparedSave _ _ i _ _ _ | PreparedDelete _ _ i _ _ => i end.
Definition pc_idempotency_key (command : PreparedCommand) : string :=
  match command with PreparedSave _ _ _ _ k _ | PreparedDelete _ _ _ k _ => k end.
Definition pc_expected (command : PreparedCommand) : DatabaseRevision :=
  match command with PreparedSave _ _ _ _ _ e | PreparedDelete _ _ _ _ e => e end.

(** Text that is bounded, trimmed and free of control characters. *)
Definition validate_text (field bounds canonical value : string) (maximum : Z)
  : result DatabaseError () :=
  if (str_len value =? 0) || (maximum <? str_len value)
  then Err (DbInvalidInput field bounds)
  else if negb (bool_decide (trim (chars value) = chars value))
          || existsb is_control (chars value)
  then Err (DbInvalidInput field canonical)
  else Ok ().

Definition validate_identifier (identifier : string) : result DatabaseError () :=
  validate_text "identifier" "identifier must contain between 1 and 255 bytes"
    "identifier must be canonical and contain no control characters" identifier
    MAX_IDENTIFIER_BYTES.
Definition validate_idempotency_key (key : string) : result DatabaseError () :=
  validate_text "idempotency key" "key must contain between 1 and 255 bytes"
    "key must be canonical and contain no control characters" key MAX_IDEMPOTENCY_KEY_BYTES.

Definition prepare_command {R} `{!DatabaseRecord R} (command : DatabaseCommand R)
  : result DatabaseError PreparedCommand :=
  if record_version_of R =? 0
  then Err (DbInvalidInput "record version" "version must be greater than zero")
  else match command with
  | CommandSave idempotency_key record expected_revision =>
    let identifier := record_identifier record in
    let? _ := validate_identifier identifier in
    let? _ := validate_idempotency_key idempotency_key in
    let? payload := ok_or (DbInvalidInput "record" "record could not be encoded")
                      (to_json record) in
    if MAX_RECORD_BYTES <? str_len payload
    then Err (DbInvalidInput "record" "encoded record exceeds the size limit")
    else Ok (PreparedSave (record_collection R) (record_version_of R) identifier payload
               idempotency_key expected_revision)
  | CommandDelete _ idempotency_key identifier expected_revision =>
    let? _ := validate_identifier identifier in
    let? _ := validate_idempotency_key idempotency_key in
    Ok (PreparedDelete (record_collection R) (record_version_of R) identifier idempotency_key
          expected_revision)
  end.

(** ** Transactions *)

Record DatabaseTransaction := {
  tx_idempotency_key : string;
  tx_commands : list PreparedCommand;
}.

Definition DatabaseTransaction_new (idempotency_key : string)
  : result DatabaseError DatabaseTransaction :=
  let? _ := validate_idempotency_key idempotency_key in
  Ok {| tx_idempotency_key := idempotency_key; tx_commands := [] |}.

Definition same_target (a b : PreparedCommand) : bool :=
  bool_decide (pc_collection a = pc_collection b)
  && bool_decide (pc_identifier a = pc_identifier b).

Definition add_command (command : PreparedCommand) (tx : DatabaseTransaction)
  : result DatabaseError DatabaseTransaction :=
  if (MAX_TRANSACTION_MUTATIONS <=? List.length (tx_commands tx))%nat
  then Err (DbInvalidInput "transaction" "transaction exceeds the mutation limit")
  else if existsb (λ current, same_target current command) (tx_commands tx)
  then Err (DbInvalidInput "transaction" "transaction contains duplicate record targets")
  else Ok {| tx_idempotency_key := tx_idempotency_key tx;
             tx_commands := tx_commands tx ++ [command] |}.

Definition tx_save {R} `{!DatabaseRecord R} (record : R) (expected_revision : DatabaseRevision)
    (tx : DatabaseTransaction) : result DatabaseError DatabaseTransaction :=
  let? command := prepare_command (CommandSave (tx_idempotency_key tx) record expected_revision) in
  add_command command tx.

Definition tx_delete (R : Type) `{!DatabaseRecord R} (identifier : string)
    (expected_revision : DatabaseRevision) (tx : DatabaseTransaction)
  : result DatabaseError DatabaseTransaction :=
  let? command := prepare_command
    (CommandDelete R (tx_idempotency_key tx) identifier expected_revision) in
  add_command command tx.

(** ** Command digests *)

Definition byte_char (b : Z) : Ascii.ascii := Ascii.ascii_of_N (Z.to_N (b mod 256)).

(** [to_be_bytes] of an unsigned integer of [width] bytes. *)
Fixpoint be_bytes (width : nat) (n : Z) : string :=
  match width with
  | O => EmptyString
  | S width => be_bytes width (n / 256) +:+ String (byte_char n) EmptyString
  end.

Definition digest_field (value : string) : string := be_bytes 8 (str_len value) +:+ value.
Definition digest_fields (fields : list string) : string :=
  fold_right (λ field message, digest_field field +:+ message) EmptyString fields.

Definition revision_bytes (revision : DatabaseRevision) : string :=
  match revision with
  | RevisionAny => "any"
  | RevisionMissing => "missing"
  | RevisionExact value => "exact:" +:+ to_decimal value
  end.

Definition command_fields (command : PreparedCommand) : list string :=
  match command with
  | PreparedSave collection version identifier payload _ expected =>
    ["save"%string; storage_name collection; be_bytes 4 version; identifier;
     revision_bytes expected; payload]
  | PreparedDelete collection version identifier _ expected =>
    ["delete"%string; storage_name collection; be_bytes 4 version; identifier;
     revision_bytes expected]
  end.

(** The lower-case hexadecimal SHA-256 digest of a message. *)
Class Sha256 := sha256_hex : string → string.

Section digests.
Context `{!Sha256}.

Definition command_digest (command : PreparedCommand) : string :=
  sha256_hex (digest_fields (command_fields command)).

Definition transaction_digest (commands : list PreparedCommand) : string :=
  sha256_hex (digest_fields
    ("transaction"%string :: be_bytes 8 (Z.of_nat (List.length commands))
     :: (command_digest <$> commands))).
End digests.

(** Two messages with one hash. *)
Definition sha256_collision `{!Sha256} : Prop := ∃ m m', m ≠ m' ∧ sha256_hex m = sha256_hex m'.

(** ** What a command digest covers

    The digest of [PreparedCommand::digest] is taken of length-delimited fields;
    its message determines the command up to the replay key. *)

Lemma be_bytes_length width n : String.length (be_bytes width n) = width.
Proof. revert n. induction width as [|w IH]; intros n; simpl; [done|]. rewrite string_length_app, IH. simpl. lia. Qed.

Lemma byte_char_inj a b : byte_char a = byte_char b → a mod 256 = b mod 256.
Proof.
  unfold byte_char. intros H. apply (f_equal Ascii.N_of_ascii) in H.
  pose proof (Z.mod_pos_bound a 256). pose proof (Z.mod_pos_bound b 256).
  rewrite !Ascii.N_ascii_embedding in H by lia. lia.
Qed.

Lemma be_bytes_inj width a b :
  0 ≤ a < 256 ^ Z.of_nat width → 0 ≤ b < 256 ^ Z.of_nat width →
  be_bytes width a = be_bytes width b → a = b.
Proof.
  revert a b. induction width as [|w IH]; intros a b Ha Hb H; simpl in H; [simpl in *; lia|].
  apply string_app_inj in H as [Hw Hc]; [|by rewrite !be_bytes_length].
  injection Hc as Hc%byte_char_inj. rewrite Nat2Z.inj_succ, Z.pow_succ_r in * by lia.
  apply IH in Hw; [|split; [apply Z.div_pos|apply Z.div_lt_upper_bound]; lia..].
  rewrite (Z.div_mod a 256), (Z.div_mod b 256) by lia. congruence.
Qed.

(** Fields short enough for their length prefix. *)
Definition addressable (s : string) : Prop := str_len s < 256 ^ 8.

Lemma digest_field_inj f g s t :
  addressable f → addressable g → digest_field f +:+ s = digest_field g +:+ t → f = g ∧ s = t.
Proof.
  unfold addressable, digest_field, str_len. intros Hf Hg H. rewrite !string_app_assoc in H.
  apply string_app_inj in H as [Hl H]; [|by rewrite !be_bytes_length].
  apply be_bytes_inj in Hl; [|lia..]. apply string_app_inj in H as [-> ->]; [done|lia].
Qed.

Lemma digest_fields_inj fs gs :
  Forall addressable fs → Forall addressable gs → digest_fields fs = digest_fields gs → fs = gs.
Proof.
  assert (∀ f fs, digest_fields (f :: fs) ≠ EmptyString) as Hne.
  { intros f l H. apply (f_equal String.length) in H. cbn [digest_fields fold_right] in H.
    unfold digest_field in H. rewrite !string_length_app, be_bytes_length in H. simpl in H. lia. }
  intros Hfs. revert gs. induction Hfs as [|f fs Hf _ IH]; intros gs Hgs H.
  - destruct gs as [|g gs]; [done|]. symmetry in H. by apply Hne in H.
  - destruct Hgs as [|g gs Hg Hgs]; [by apply Hne in H|].
    apply digest_field_inj in H as [-> H]; [|done..]. by rewrite (IH gs).
Qed.

Lemma storage_name_inj a b : storage_name a = storage_name b → a = b.
Proof. destruct a, b; done. Qed.

Lemma to_decimal_inj a b : 0 ≤ a → 0 ≤ b → to_decimal a = to_decimal b → a = b.
Proof.
  intros Ha Hb H. destruct (to_decimal_bytes a Ha) as (_ & _ & <-).
  destruct (to_decimal_bytes b Hb) as (_ & _ & <-). by rewrite H.
Qed.

Definition revision_wf (revision : DatabaseRevision) : Prop :=
  match revision with RevisionExact value => in_u64 value | _ => True end.

Lemma revision_bytes_inj a b :
  revision_wf a → revision_wf b → revision_bytes a = revision_bytes b → a = b.
Proof.
  destruct a as [| |a], b as [| |b]; intros Ha Hb H; try done.
  simpl in H. injection H as H. apply to_decimal_inj in H; [by subst|unfold revision_wf, in_u64 in *; lia..].
Qed.

(** ** Prepared commands *)

(** The bounds that [prepare_command] and the types of its arguments give. *)
Definition prepared (command : PreparedCommand) : Prop :=
  str_len (pc_identifier command) ≤ MAX_IDENTIFIER_BYTES ∧ revision_wf (pc_expected command) ∧
  match command with
  | PreparedSave _ version _ payload _ _ => in_u32 version ∧ str_len payload ≤ MAX_RECORD_BYTES
  | PreparedDelete _ version _ _ _ => in_u32 version
  end.

(** The same mutation, whatever the replay key. *)
Definition same_mutation (a b : PreparedCommand) : Prop :=
  match a, b with
  | PreparedSave c v i p _ e, PreparedSave c' v' i' p' _ e' => (c, v, i, p, e) = (c', v', i', p', e')
  | PreparedDelete c v i _ e, PreparedDelete c' v' i' _ e' => (c, v, i, e) = (c', v', i', e')
  | _, _ => False
  end.

Lemma short_addressable s : str_len s ≤ MAX_RECORD_BYTES → addressable s.
Proof. unfold addressable, MAX_RECORD_BYTES. lia. Qed.

Lemma decimal_digits_length fuel n acc :
  (String.length (decimal_digits fuel n acc) ≤ fuel + String.length acc)%nat.
Proof.
  revert n acc. induction fuel as [|fuel IH]; intros n acc; simpl; [lia|].
  repeat case_match; simpl; try lia. etrans; [apply IH|]. simpl. lia.
Qed.

Lemma to_decimal_length n : 0 ≤ n ≤ u64_max → (String.length (to_decimal n) ≤ 65)%nat.
Proof.
  intros Hn. unfold to_decimal. etrans; [apply decimal_digits_length|]. rewrite Nat.add_0_r.
  assert (Z.log2 n ≤ 64); [|lia]. unfold u64_max in Hn.
  change 64 with (Z.log2 18446744073709551616). apply Z.log2_le_mono. lia.
Qed.

Lemma revision_bytes_addressable r : revision_wf r → addressable (revision_bytes r).
Proof.
  intros Hr. apply short_addressable. unfold MAX_RECORD_BYTES, str_len.
  destruct r as [| |value]; [simpl; lia..|]. cbn [revision_bytes].
  pose proof (to_decimal_length value Hr). rewrite string_length_app. simpl. lia.
Qed.

Lemma command_fields_addressable command :
  prepared command → Forall addressable (command_fields command).
Proof.
  assert (∀ s, (String.length s ≤ 64)%nat → addressable s) as Hs.
  { intros s Hs. apply short_addressable. unfold str_len, MAX_RECORD_BYTES. lia. }
  assert (∀ c, addressable (storage_name c)) as Hc by (intros c; apply Hs; destruct c; simpl; lia).
  assert (∀ v, addressable (be_bytes 4 v)) as Hv by (intros v; apply Hs; rewrite be_bytes_length; lia).
  intros (Hi & He%revision_bytes_addressable & Hw).
  assert (addressable (pc_identifier command)) as Hi'
    by (apply short_addressable; unfold MAX_RECORD_BYTES, MAX_IDENTIFIER_BYTES in *; lia).
  destruct command; simpl in Hw, Hi', He; unfold command_fields.
  - destruct Hw as [_ Hp%short_addressable].
    repeat first [apply Forall_cons; split | apply Forall_nil_2 | assumption | apply Hc | apply Hv
      | apply Hs; simpl; lia].
  - repeat first [apply Forall_cons; split | apply Forall_nil_2 | assumption | apply Hc | apply Hv
      | apply Hs; simpl; lia].
Qed.

(** Equal lists, field by field. *)
Lemma list_eq_5 {A} (a b c d e a' b' c' d' e' : A) :
  [a; b; c; d; e] = [a'; b'; c'; d'; e'] → a = a' ∧ b = b' ∧ c = c' ∧ d = d' ∧ e = e'.
Proof. by intros [= -> -> -> -> ->]. Qed.
Lemma list_eq_6 {A} (a b c d e f a' b' c' d' e' f' : A) :
  [a; b; c; d; e; f] = [a'; b'; c'; d'; e'; f'] →
  a = a' ∧ b = b' ∧ c = c' ∧ d = d' ∧ e = e' ∧ f = f'.
Proof. by intros [= -> -> -> -> -> ->]. Qed.

(** the message a command digest is taken of determines the command.
    Two prepared commands, whether saves or deletions, have the same message
    exactly when they have the same kind, collection, version, identity, expected
    revision and payload; only the replay key is left out. *)
Theorem digest_message_identifies_command a b :
  prepared a → prepared b →
  digest_fields (command_fields a) = digest_fields (command_fields b) ↔ same_mutation a b.
Proof.
  intros Ha Hb. split.
  - intros H%digest_fields_inj; [|by apply command_fields_addressable..].
    destruct Ha as (_ & Hea & Hva), Hb as (_ & Heb & Hvb).
    destruct a as [ca va ia pa ka ea|ca va ia ka ea], b as [cb vb ib pb kb eb|cb vb ib kb eb];
      try done; unfold command_fields in H.
    + apply (list_eq_6 _ _ _ _ _ _ _ _ _ _ _ _) in H as (_ & Hc & Hv & -> & He & ->).
      cbn [pc_expected] in Hea, Heb.
      apply storage_name_inj in Hc as ->. apply revision_bytes_inj in He as ->; [|done..].
      apply be_bytes_inj in Hv as ->; [done|unfold in_u32, u32_max in *; simpl; lia..].
    + apply (list_eq_5 _ _ _ _ _ _ _ _ _ _) in H as (_ & Hc & Hv & -> & He).
      cbn [pc_expected] in Hea, Heb.
      apply storage_name_inj in Hc as ->. apply revision_bytes_inj in He as ->; [|done..].
      apply be_bytes_inj in Hv as ->; [done|unfold in_u32, u32_max in *; simpl; lia..].
  - intros H. destruct a, b; simpl in *; try done; by simplify_eq.
Qed.

Lemma digest_message_identifies_command_witness :
  digest_fields (command_fields (PreparedSave Nodes 1 "a" "x" "k" (RevisionExact 12)))
  ≠ digest_fields (command_fields (PreparedSave Nodes 1 "a" "2x" "k" (RevisionExact 1))).
Proof.
  intros H. apply digest_message_identifies_command in H.
  - discriminate H.
  - repeat split; vm_compute; discriminate.
  - repeat split; vm_compute; discriminate.
Defined.
