(* ===== verification/DatabaseStorage.v ===== *)
(** * Storage operations and the database manager

    The statements of [core/database/src/li_database_storage.rs] over the
    interface of SQLite, the writer loop and the public operations of
    [li_database_manager.rs].  The writer serves one message at a time in arrival
    order, so a write is one step here; a read uses its own connection over the
    committed state. *)

From Stdlib Require Import String.
From S2P Require Import Prelude Values Text Database.

(** ** Rows and statements *)

Record RecordRow := {
  row_version : Z;
  row_revision : Z;
  row_payload : string;
  row_created_at : Z;
  row_updated_at : Z;
}.
Record IdempotencyRow := {
  row_digest : string;
  row_commit_json : string;
  row_committed_at : Z;
}.

Inductive SqliteError :=
| DatabaseBusy | DatabaseLocked | DatabaseCorrupt | NotADatabase | SqliteOther.

Definition database_error (error : SqliteError) : DatabaseError :=
  match error with
  | DatabaseBusy | DatabaseLocked =>
    DbUnavailable "write lock did not become available before the busy timeout"
  | DatabaseCorrupt | NotADatabase => DbCorrupt "SQLite rejected the database structure"
  | SqliteOther => DbUnavailable "SQLite operation failed"
  end.

(** One operation per statement; [C] is the state of the database file and of the
    writer's connection. *)
Class Sqlite (C : Type) := {
  begin_immediate : SE C SqliteError ();
  commit_transaction : SE C SqliteError ();
  rollback_transaction : C → C;
  select_record (collection identifier : string) : SE C SqliteError (option RecordRow);
  insert_record (collection identifier : string) (row : RecordRow) : SE C SqliteError ();
  update_record (revision : Z) (payload : string) (updated_at : Z) (collection identifier : string)
    (previous : Z) : SE C SqliteError Z;
  delete_row (collection identifier : string) (revision : Z) : SE C SqliteError Z;
  select_idempotency (key : string) : SE C SqliteError (option (string * string));
  insert_idempotency (key : string) (row : IdempotencyRow) : SE C SqliteError ();
  reader_record (collection identifier : string) : SE C SqliteError (option RecordRow);
  reader_collection (collection : string) : SE C SqliteError (list (string * RecordRow));
}.
Class DatabaseClock (C : Type) := database_now : SE C DatabaseError Z.

Definition sql {C A} (statement : SE C SqliteError A) : SE C DatabaseError A := λ c,
  match statement c with
  | (Ok a, c) => (Ok a, c)
  | (Err e, c) => (Err (database_error e), c)
  end.

(** ** Values read back *)

Definition revision_to_sql (revision : Z) : result DatabaseError Z :=
  if revision =? 0 then Err (DbInvalidInput "revision" "revision must be greater than zero")
  else if revision <=? i64_max then Ok revision
  else Err (DbInvalidInput "revision" "revision exceeds the SQLite integer range").

Definition revision_from_sql (revision : Z) : result DatabaseError Z :=
  if revision <=? 0 then Err (DbCorrupt "stored record revision is invalid") else Ok revision.

Definition valid_timestamp (timestamp : Z) : result DatabaseError Z :=
  if timestamp <? 0 then Err (DbCorrupt "stored record timestamp is invalid") else Ok timestamp.

Definition stored_version (version : Z) : result DatabaseError Z :=
  if (0 <=? version) && (version <=? u32_max) then Ok version
  else Err (DbCorrupt "stored record version is invalid").

Definition decode_record {R} `{!DatabaseRecord R} (identifier : string) (row : RecordRow)
  : result DatabaseError (DatabaseStoredRecord R) :=
  if negb (row_version row =? record_version_of R)
  then Err (DbCorrupt "stored record version does not match its typed contract")
  else
    let? value := ok_or (DbCorrupt "stored record payload is invalid")
                    (from_json (row_payload row)) in
    if negb (bool_decide (record_identifier value = identifier))
    then Err (DbCorrupt "stored record identity does not match its payload")
    else
      let? revision := revision_from_sql (row_revision row) in
      let? created_at := valid_timestamp (row_created_at row) in
      let? updated_at := valid_timestamp (row_updated_at row) in
      Ok {| sr_value := value; sr_revision := revision; sr_created_at := created_at;
            sr_updated_at := updated_at |}.

Definition require_revision (collection : DatabaseCollection) (identifier : string)
    (expected : DatabaseRevision) (observed : option Z) : result DatabaseError () :=
  if match expected with
     | RevisionAny => true
     | RevisionMissing => bool_decide (observed = None)
     | RevisionExact revision => bool_decide (observed = Some revision)
     end
  then Ok () else Err (DbConflict collection identifier expected observed).

(** ** Mutations inside the transaction *)

Section storage.
Context {C : Type} `{!Sqlite C, !DatabaseClock C, !Sha256, !Json DatabaseCommit,
  !Json (list DatabaseCommit)}.
Abbreviation D := (SE C DatabaseError).

(** Revision, creation, update and version of the record. *)
Definition record_state (collection : DatabaseCollection) (identifier : string)
  : D (option (Z * Z * Z * Z)) :=
  do! row <- sql (select_record (storage_name collection) identifier) in
  match row with
  | None => se_ret None
  | Some row =>
    do! revision <- se_lift (revision_from_sql (row_revision row)) in
    do! created_at <- se_lift (valid_timestamp (row_created_at row)) in
    do! updated_at <- se_lift (valid_timestamp (row_updated_at row)) in
    do! version <- se_lift (stored_version (row_version row)) in
    se_ret (Some (revision, created_at, updated_at, version))
  end.

Definition save_record (collection : DatabaseCollection) (record_version : Z)
    (identifier payload idempotency_key : string) (expected_revision : DatabaseRevision)
    (observed_at : Z) : D DatabaseCommit :=
  do! existing <- record_state collection identifier in
  run! se_lift (require_revision collection identifier expected_revision
                  ((λ x, x.1.1.1) <$> existing)) in
  do! (mutation, revision, created_at, committed_at) <- se_lift (
    match existing with
    | Some (revision, created_at, updated_at, existing_record_version) =>
      if negb (existing_record_version =? record_version)
      then Err (DbCorrupt "stored record version does not match its typed contract")
      else
        let? next_revision := ok_or (DbCorrupt "record revision overflowed")
                                (checked_add_u64 revision 1) in
        Ok (MutationUpdated, next_revision, created_at, Z.max observed_at updated_at)
    | None => Ok (MutationCreated, 1, observed_at, observed_at)
    end) in
  run! (if bool_decide (mutation = MutationCreated) then
    do! sql_revision <- se_lift (revision_to_sql revision) in
    sql (insert_record (storage_name collection) identifier
           {| row_version := record_version; row_revision := sql_revision;
              row_payload := payload; row_created_at := created_at;
              row_updated_at := committed_at |})
  else
    let previous_revision := revision - 1 in
    do! sql_revision <- se_lift (revision_to_sql revision) in
    do! sql_previous <- se_lift (revision_to_sql previous_revision) in
    do! changed <- sql (update_record sql_revision payload committed_at (storage_name collection)
                          identifier sql_previous) in
    if changed =? 1 then se_ret ()
    else
      do! observed <- record_state collection identifier in
      se_fail (DbConflict collection identifier (RevisionExact previous_revision)
                 ((λ x, x.1.1.1) <$> observed))) in
  se_ret {| dc_idempotency_key := idempotency_key; dc_collection := collection;
            dc_identifier := identifier; dc_mutation := mutation; dc_revision := revision;
            dc_committed_at := committed_at |}.

Definition delete_record (collection : DatabaseCollection) (record_version : Z)
    (identifier idempotency_key : string) (expected_revision : DatabaseRevision)
    (observed_at : Z) : D DatabaseCommit :=
  do! existing <- record_state collection identifier in
  match existing with
  | None => se_fail (DbNotFound collection identifier)
  | Some (revision, _, updated_at, existing_record_version) =>
    if negb (existing_record_version =? record_version)
    then se_fail (DbCorrupt "stored record version does not match its typed contract")
    else
      run! se_lift (require_revision collection identifier expected_revision (Some revision)) in
      do! sql_revision <- se_lift (revision_to_sql revision) in
      do! changed <- sql (delete_row (storage_name collection) identifier sql_revision) in
      if negb (changed =? 1) then
        do! observed <- record_state collection identifier in
        se_fail (DbConflict collection identifier (RevisionExact revision)
                   ((λ x, x.1.1.1) <$> observed))
      else
        do! next_revision <- se_lift (ok_or (DbCorrupt "record revision overflowed")
                                        (checked_add_u64 revision 1)) in
        se_ret {| dc_idempotency_key := idempotency_key; dc_collection := collection;
                  dc_identifier := identifier; dc_mutation := MutationDeleted;
                  dc_revision := next_revision;
                  dc_committed_at := Z.max observed_at updated_at |}
  end.

Definition apply_command (observed_at : Z) (command : PreparedCommand) : D DatabaseCommit :=
  match command with
  | PreparedSave collection record_version identifier payload idempotency_key expected_revision =>
    save_record collection record_version identifier payload idempotency_key expected_revision
      observed_at
  | PreparedDelete collection record_version identifier idempotency_key expected_revision =>
    delete_record collection record_version identifier idempotency_key expected_revision
      observed_at
  end.

Fixpoint apply_commands (observed_at : Z) (commands : list PreparedCommand)
  : D (list DatabaseCommit) :=
  match commands with
  | [] => se_ret []
  | command :: commands =>
    do! commit <- apply_command observed_at command in
    do! commits <- apply_commands observed_at commands in
    se_ret (commit :: commits)
  end.

(** ** Replay results *)

Definition store_idempotent_commit (key digest : string) (commit : DatabaseCommit) : D () :=
  do! commit_json <- se_lift (ok_or (DbUnavailable "commit result could not be encoded")
                                (to_json commit)) in
  sql (insert_idempotency key {| row_digest := digest; row_commit_json := commit_json;
                                 row_committed_at := dc_committed_at commit |}).

(** [commits.iter().map(..).max()] *)
Definition latest_commit (commits : list DatabaseCommit) : option Z :=
  match dc_committed_at <$> commits with
  | [] => None
  | first :: others => Some (fold_left Z.max others first)
  end.

Definition store_idempotent_transaction (key digest : string) (commits : list DatabaseCommit)
  : D () :=
  do! commit_json <- se_lift (ok_or (DbUnavailable "transaction result could not be encoded")
                                (to_json commits)) in
  do! committed_at <- se_lift (ok_or (DbCorrupt "transaction result is empty")
                                 (latest_commit commits)) in
  sql (insert_idempotency key {| row_digest := digest; row_commit_json := commit_json;
                                 row_committed_at := committed_at |}).

(** An open [Transaction] rolls back when it is dropped before its commit. *)
Definition in_transaction {A} (body : D A) : D A := λ c,
  match sql begin_immediate c with
  | (Err e, c) => (Err e, c)
  | (Ok _, c) =>
    match body c with
    | (Err e, c) => (Err e, rollback_transaction c)
    | (Ok a, c) =>
      match sql commit_transaction c with
      | (Ok _, c) => (Ok a, c)
      | (Err e, c) => (Err e, rollback_transaction c)
      end
    end
  end.

Definition commit_clock : D Z :=
  do! observed_at <- database_now in
  if observed_at <? 0
  then se_fail (DbUnavailable "commit clock returned a negative timestamp")
  else se_ret observed_at.

Definition execute_command (command : PreparedCommand) : D (DatabaseCommit * bool) :=
  let digest := command_digest command in
  let key := pc_idempotency_key command in
  do! replay <- sql (select_idempotency key) in
  match replay with
  | Some (stored_digest, value) =>
    if bool_decide (stored_digest = digest) then
      do! commit <- se_lift (ok_or (DbCorrupt "stored idempotency result is invalid")
                               (from_json value)) in
      se_ret (commit, false)
    else se_fail (DbIdempotencyConflict key)
  | None =>
    do! observed_at <- commit_clock in
    in_transaction (
      do! commit <- apply_command observed_at command in
      run! store_idempotent_commit key digest commit in
      se_ret (commit, true))
  end.

Definition execute_transaction (idempotency_key : string) (commands : list PreparedCommand)
  : D (list DatabaseCommit * bool) :=
  if bool_decide (commands = [])
  then se_fail (DbInvalidInput "transaction" "transaction must contain at least one mutation")
  else if existsb (λ command, negb (bool_decide (pc_idempotency_key command = idempotency_key)))
            commands
  then se_fail (DbCorrupt "transaction mutation has a different replay identity")
  else
    let digest := transaction_digest commands in
    do! replay <- sql (select_idempotency idempotency_key) in
    match replay with
    | Some (stored_digest, value) =>
      if bool_decide (stored_digest = digest) then
        do! commits <- se_lift (ok_or (DbCorrupt "stored transaction result is invalid")
                                  (from_json value)) in
        se_ret (commits, false)
      else se_fail (DbIdempotencyConflict idempotency_key)
    | None =>
      do! observed_at <- commit_clock in
      in_transaction (
        do! commits <- apply_commands observed_at commands in
        run! store_idempotent_transaction idempotency_key digest commits in
        se_ret (commits, true))
    end.

(** ** Reads *)

Definition read_one_record {R} `{!DatabaseRecord R} (identifier : string)
  : D (DatabaseStoredRecord R) :=
  run! se_lift (validate_identifier identifier) in
  do! stored <- sql (reader_record (storage_name (record_collection R)) identifier) in
  do! row <- se_lift (ok_or (DbNotFound (record_collection R) identifier) stored) in
  se_lift (decode_record identifier row).

Fixpoint decode_records {R} `{!DatabaseRecord R} (rows : list (string * RecordRow))
  : result DatabaseError (list (DatabaseStoredRecord R)) :=
  match rows with
  | [] => Ok []
  | (identifier, row) :: rows =>
    let? record := decode_record identifier row in
    let? records := decode_records rows in
    Ok (record :: records)
  end.

Definition read_all_records {R} `{!DatabaseRecord R} : D (list (DatabaseStoredRecord R)) :=
  do! rows <- sql (reader_collection (storage_name (record_collection R))) in
  se_lift (decode_records rows).

(** ** The manager *)

Record DatabaseManager := {
  dm_connection : C;
  dm_is_closed : bool;
  dm_events : list DatabaseEvent;
}.
Abbreviation DM := (SE DatabaseManager DatabaseError).

Definition on_connection {A} (action : D A) : DM A := λ m,
  let '(r, c) := action (dm_connection m) in
  (r, {| dm_connection := c; dm_is_closed := dm_is_closed m; dm_events := dm_events m |}).

Definition send_events (commits : list DatabaseCommit) : DM () := λ m,
  (Ok (), {| dm_connection := dm_connection m; dm_is_closed := dm_is_closed m;
             dm_events := dm_events m ++ (from_commit <$> commits) |}).

Definition require_open : DM () := λ m,
  if dm_is_closed m then (Err DbClosed, m) else (Ok (), m).

Definition disposition_of (is_new_commit : bool) : DatabaseCommitDisposition :=
  if is_new_commit then Applied else Replayed.

Definition database_read_record {R} `{!DatabaseRecord R} (identifier : string)
  : DM (DatabaseStoredRecord R) :=
  run! require_open in on_connection (read_one_record identifier).

Definition database_read_all {R} `{!DatabaseRecord R} : DM (list (DatabaseStoredRecord R)) :=
  run! require_open in on_connection read_all_records.

Definition database_write {R} `{!DatabaseRecord R} (command : DatabaseCommand R)
  : DM (DatabaseCommit * DatabaseCommitDisposition) :=
  run! require_open in
  do! prepared <- se_lift (prepare_command command) in
  do! (commit, is_new) <- on_connection (execute_command prepared) in
  run! (if is_new : bool then send_events [commit] else se_ret ()) in
  se_ret (commit, disposition_of is_new).

Definition database_write_transaction (tx : DatabaseTransaction)
  : DM (list DatabaseCommit * DatabaseCommitDisposition) :=
  run! require_open in
  if bool_decide (tx_commands tx = [])
  then se_fail (DbInvalidInput "transaction" "transaction must contain at least one mutation")
  else
    do! (commits, is_new) <- on_connection
      (execute_transaction (tx_idempotency_key tx) (tx_commands tx)) in
    run! (if is_new : bool then send_events commits else se_ret ()) in
    se_ret (commits, disposition_of is_new).

Definition database_close : DM () := λ m,
  (Ok (), {| dm_connection := dm_connection m; dm_is_closed := true; dm_events := dm_events m |}).
End storage.
Arguments DatabaseManager : clear implicits.
