(* ===== verification/DatabaseSafety.v ===== *)
(** * Atomic, replayable and optimistic writes

    What SQLite promises, as the laws of the interface the storage operations
    use; the abstract behaviour of a write as one step on the committed tables;
    and the proof that the storage operations refine it. *)

From Stdlib Require Import String.
From S2P Require Import Prelude Values Text Database DatabaseStorage.

(** ** Tables *)

Record Tables := {
  records : gmap (string * string) RecordRow;
  idempotency : gmap string IdempotencyRow;
}.
Definition on_records (f : gmap (string * string) RecordRow → gmap (string * string) RecordRow)
    (t : Tables) : Tables := {| records := f (records t); idempotency := idempotency t |}.
Definition remember (key : string) (row : IdempotencyRow) (t : Tables) : Tables :=
  {| records := records t; idempotency := <[key := row]> (idempotency t) |}.

Definition updated_row (revision : Z) (payload : string) (updated_at : Z) (row : RecordRow)
  : RecordRow :=
  {| row_version := row_version row; row_revision := revision; row_payload := payload;
     row_created_at := row_created_at row; row_updated_at := updated_at |}.

(** The row that a conditional statement finds. *)
Definition matching (t : Tables) (k : string * string) (revision : Z) : option RecordRow :=
  match records t !! k with
  | Some row => if row_revision row =? revision then Some row else None
  | None => None
  end.

(** ** The laws of SQLite

    [working] is what the writer's connection sees, [durable] what is committed.
    A failed commit may have become durable or not; nothing in between. *)
Class DatabaseLaws (C : Type) `{!Sqlite C, !DatabaseClock C} := {
  working : C → Tables;
  durable : C → Tables;
  law_begin c r c' : begin_immediate c = (r, c') → working c = durable c →
    working c' = durable c ∧ durable c' = durable c;
  law_commit c r c' : commit_transaction c = (r, c') →
    match r with
    | Ok _ => working c' = working c ∧ durable c' = working c
    | Err _ => durable c' = durable c ∨ durable c' = working c
    end;
  law_rollback c :
    working (rollback_transaction c) = durable c ∧ durable (rollback_transaction c) = durable c;
  law_select a b c r c' : select_record a b c = (r, c') →
    working c' = working c ∧ durable c' = durable c ∧
    ∀ row, r = Ok row → row = records (working c) !! (a, b);
  law_insert a b row c r c' : insert_record a b row c = (r, c') →
    durable c' = durable c ∧
    match r with
    | Ok _ => records (working c) !! (a, b) = None ∧
              working c' = on_records <[(a, b) := row]> (working c)
    | Err _ => working c' = working c
    end;
  law_update revision payload updated_at a b previous c r c' :
    update_record revision payload updated_at a b previous c = (r, c') →
    durable c' = durable c ∧
    match r with
    | Ok n =>
      match matching (working c) (a, b) previous with
      | Some row => n = 1 ∧ working c' =
          on_records <[(a, b) := updated_row revision payload updated_at row]> (working c)
      | None => n = 0 ∧ working c' = working c
      end
    | Err _ => working c' = working c
    end;
  law_delete a b revision c r c' : delete_row a b revision c = (r, c') →
    durable c' = durable c ∧
    match r with
    | Ok n =>
      match matching (working c) (a, b) revision with
      | Some _ => n = 1 ∧ working c' = on_records (delete (a, b)) (working c)
      | None => n = 0 ∧ working c' = working c
      end
    | Err _ => working c' = working c
    end;
  law_select_idempotency key c r c' : select_idempotency key c = (r, c') →
    working c' = working c ∧ durable c' = durable c ∧
    ∀ found, r = Ok found →
      found = (λ row, (row_digest row, row_commit_json row)) <$> idempotency (working c) !! key;
  law_insert_idempotency key row c r c' : insert_idempotency key row c = (r, c') →
    durable c' = durable c ∧
    match r with
    | Ok _ => idempotency (working c) !! key = None ∧ working c' = remember key row (working c)
    | Err _ => working c' = working c
    end;
  law_reader a b c r c' : reader_record a b c = (r, c') →
    working c' = working c ∧ durable c' = durable c ∧
    ∀ row, r = Ok row → row = records (durable c) !! (a, b);
  law_reader_collection a c r c' : reader_collection a c = (r, c') →
    working c' = working c ∧ durable c' = durable c ∧
    ∀ rows, r = Ok rows → NoDup rows.*1 ∧
      ∀ b row, (b, row) ∈ rows ↔ records (durable c) !! (a, b) = Some row;
  law_clock c r c' : database_now c = (r, c') → working c' = working c ∧ durable c' = durable c;
}.

(** Decoding inverts encoding. *)
Class JsonLaws (A : Type) `{!Json A} : Prop :=
  json_round_trip : ∀ (a : A) s, to_json a = Some s → from_json s = Some a.

(** ** The abstract write *)

Definition target (command : PreparedCommand) : string * string :=
  (storage_name (pc_collection command), pc_identifier command).

Definition permitted (expected : DatabaseRevision) (observed : option Z) : Prop :=
  match expected with
  | RevisionAny => True
  | RevisionMissing => observed = None
  | RevisionExact revision => observed = Some revision
  end.

Definition commit_of (command : PreparedCommand) (mutation : DatabaseMutation) (revision at_ : Z)
  : DatabaseCommit :=
  {| dc_idempotency_key := pc_idempotency_key command; dc_collection := pc_collection command;
     dc_identifier := pc_identifier command; dc_mutation := mutation; dc_revision := revision;
     dc_committed_at := at_ |}.

Definition row_valid (row : RecordRow) : Prop :=
  0 < row_revision row ∧ 0 ≤ row_created_at row ∧ 0 ≤ row_updated_at row.

Inductive mutates (now : Z) (t : Tables) : PreparedCommand → DatabaseCommit → Tables → Prop :=
| mutates_create collection version identifier payload key expected :
  let command := PreparedSave collection version identifier payload key expected in
  records t !! target command = None → permitted expected None →
  mutates now t command (commit_of command MutationCreated 1 now)
    (on_records <[target command := {| row_version := version; row_revision := 1;
       row_payload := payload; row_created_at := now; row_updated_at := now |}]> t)
| mutates_update collection version identifier payload key expected row :
  let command := PreparedSave collection version identifier payload key expected in
  records t !! target command = Some row → permitted expected (Some (row_revision row)) →
  row_version row = version → row_valid row → row_revision row + 1 ≤ i64_max →
  let at_ := Z.max now (row_updated_at row) in
  mutates now t command (commit_of command MutationUpdated (row_revision row + 1) at_)
    (on_records <[target command := updated_row (row_revision row + 1) payload at_ row]> t)
| mutates_delete collection version identifier key expected row :
  let command := PreparedDelete collection version identifier key expected in
  records t !! target command = Some row → permitted expected (Some (row_revision row)) →
  row_version row = version → row_valid row →
  let at_ := Z.max now (row_updated_at row) in
  mutates now t command (commit_of command MutationDeleted (row_revision row + 1) at_)
    (on_records (delete (target command)) t).

Inductive mutates_all (now : Z) : Tables → list PreparedCommand → list DatabaseCommit → Tables → Prop :=
| mutates_nil t : mutates_all now t [] [] t
| mutates_cons t command commit t1 commands commits t2 :
  mutates now t command commit t1 → mutates_all now t1 commands commits t2 →
  mutates_all now t (command :: commands) (commit :: commits) t2.

(** The commands succeed on [t] and their result is remembered under [key]. *)
Definition applies `{!Json A} (encode : list DatabaseCommit → option A) (key digest : string)
    (commands : list PreparedCommand) (t : Tables) (commits : list DatabaseCommit) (t' : Tables)
  : Prop :=
  ∃ now t1 a json at_, 0 ≤ now ∧ idempotency t !! key = None ∧
    mutates_all now t commands commits t1 ∧ encode commits = Some a ∧ to_json a = Some json ∧
    t' = remember key {| row_digest := digest; row_commit_json := json; row_committed_at := at_ |} t1.

(** One write: applied, replayed, refused, or applied without confirmation. *)
Inductive write_step `{!Json A} (encode : list DatabaseCommit → option A) (key digest : string)
    (commands : list PreparedCommand) (t : Tables)
  : result DatabaseError (A * bool) → Tables → Prop :=
| write_applied commits a t' :
  applies encode key digest commands t commits t' → encode commits = Some a →
  write_step encode key digest commands t (Ok (a, true)) t'
| write_replayed row a :
  idempotency t !! key = Some row → row_digest row = digest →
  from_json (row_commit_json row) = Some a →
  write_step encode key digest commands t (Ok (a, false)) t
| write_refused e : write_step encode key digest commands t (Err e) t
| write_unconfirmed commits t' e :
  applies encode key digest commands t commits t' →
  write_step encode key digest commands t (Err e) t'.

(** ** Statements inside a transaction

    [works body Q]: the durable tables stay, and a successful run relates the
    working tables before and after by [Q]. *)

Section refinement.
Context {C : Type} `{!Sqlite C, !DatabaseClock C, !Sha256, !Json DatabaseCommit,
  !Json (list DatabaseCommit), !DatabaseLaws C}.
Abbreviation D := (SE C DatabaseError).

Definition works {A} (body : D A) (Q : A → Tables → Tables → Prop) : Prop :=
  ∀ c r c', body c = (r, c') →
    durable c' = durable c ∧ ∀ a, r = Ok a → Q a (working c) (working c').

Lemma works_ret {A} (a : A) Q : (∀ t, Q a t t) → works (se_ret a) Q.
Proof. intros HQ c r c' [= <- <-]. split; [done|]. intros ? [= <-]. auto. Qed.
Lemma works_fail {A} e Q : works (A := A) (se_fail e) Q.
Proof. intros c r c' [= <- <-]. split; [done|]. by intros ? [=]. Qed.

Lemma works_bind {A B} (m : D A) (k : A → D B) Q1 Q :
  works m Q1 → (∀ a t0, works (k a) (λ b t t', Q1 a t0 t → Q b t0 t')) → works (se_bind m k) Q.
Proof.
  intros Hm Hk c r c' [(a & c1 & H1 & H2)|(e & H1 & ->)]%se_bind_inv.
  - destruct (Hm _ _ _ H1) as [Hd1 Hq1]. destruct (Hk a (working c) _ _ _ H2) as [Hd2 Hq2].
    split; [congruence|]. intros b Hb. apply Hq2; [done|]. by apply Hq1.
  - destruct (Hm _ _ _ H1) as [Hd _]. split; [done|]. by intros ? [=].
Qed.

Lemma works_lift {A B} (x : result DatabaseError A) (k : A → D B) Q :
  (∀ a, x = Ok a → works (k a) Q) → works (se_bind (se_lift x) k) Q.
Proof.
  intros Hk c r c'. unfold se_bind, se_lift. destruct x as [a|e]; [by apply Hk|].
  intros [= <- <-]. split; [done|]. by intros ? [=].
Qed.

Lemma works_weaken {A} (m : D A) (Q Q' : A → Tables → Tables → Prop) :
  works m Q → (∀ a t t', Q a t t' → Q' a t t') → works m Q'.
Proof. intros Hm HQ c r c' E. destruct (Hm _ _ _ E). split; [done|]. eauto. Qed.

Lemma works_sql {A} (m : SE C SqliteError A) (Q : A → Tables → Tables → Prop) :
  (∀ c r c', m c = (r, c') → durable c' = durable c ∧ ∀ a, r = Ok a → Q a (working c) (working c')) →
  works (sql m) Q.
Proof.
  intros Hm c r c'. unfold sql. destruct (m c) as [[a|e] c1] eqn:E; intros [= <- <-];
    destruct (Hm _ _ _ E) as [Hd Hq]; (split; [done|]); [naive_solver|by intros ? [=]].
Qed.

Lemma works_select a b :
  works (sql (select_record a b)) (λ row t t', t' = t ∧ row = records t !! (a, b)).
Proof. apply works_sql. intros c r c' (Hw & Hd & Hr)%law_select. split; [done|]. naive_solver. Qed.

Lemma works_insert a b row :
  works (sql (insert_record a b row))
    (λ _ t t', records t !! (a, b) = None ∧ t' = on_records <[(a, b) := row]> t).
Proof. apply works_sql. intros c r c' [Hd Hr]%law_insert. split; [done|]. by intros [] ->. Qed.

Lemma works_update revision payload at_ a b previous :
  works (sql (update_record revision payload at_ a b previous))
    (λ n t t', if n =? 1 then ∃ row, matching t (a, b) previous = Some row ∧
       t' = on_records <[(a, b) := updated_row revision payload at_ row]> t else t' = t).
Proof.
  apply works_sql. intros c r c' [Hd Hr]%law_update. split; [done|]. intros n ->.
  destruct (matching _ _ _) as [row|]; destruct Hr as [-> ->]; simpl; eauto.
Qed.

Lemma works_delete a b revision :
  works (sql (delete_row a b revision))
    (λ n t t', if n =? 1 then t' = on_records (delete (a, b)) t else t' = t).
Proof.
  apply works_sql. intros c r c' [Hd Hr]%law_delete. split; [done|]. intros n ->.
  destruct (matching _ _ _) as [row|]; destruct Hr as [-> ->]; done.
Qed.

Lemma works_remember key row :
  works (sql (insert_idempotency key row))
    (λ _ t t', idempotency t !! key = None ∧ t' = remember key row t).
Proof.
  apply works_sql. intros c r c' [Hd Hr]%law_insert_idempotency. split; [done|]. by intros [] ->.
Qed.

Lemma record_state_works collection identifier :
  works (record_state collection identifier) (λ state t t', t' = t ∧
    match records t !! (storage_name collection, identifier) with
    | None => state = None
    | Some row => row_valid row ∧
        state = Some (row_revision row, row_created_at row, row_updated_at row, row_version row)
    end).
Proof.
  unfold record_state. eapply works_bind; [apply works_select|]. intros [row|] t0.
  - apply works_lift. intros revision Hrev. apply works_lift. intros created Hc.
    apply works_lift. intros updated Hu. apply works_lift. intros version Hv.
    apply works_ret. intros t [-> <-]. split; [done|].
    unfold revision_from_sql, valid_timestamp, stored_version, row_valid in *.
    repeat case_match; simplify_eq; split_and!; (done || lia).
  - apply works_ret. by intros t [-> <-].
Qed.

Lemma require_revision_Ok collection identifier expected observed u :
  require_revision collection identifier expected observed = Ok u → permitted expected observed.
Proof.
  unfold require_revision. destruct expected; repeat case_bool_decide; intros ?; simplify_eq; done.
Qed.

Lemma revision_to_sql_Ok revision z : revision_to_sql revision = Ok z → z = revision ∧ z ≤ i64_max.
Proof. unfold revision_to_sql. repeat case_match; intros ?; simplify_eq. lia. Qed.

Lemma save_record_works collection version identifier payload key expected now :
  works (save_record collection version identifier payload key expected now)
    (λ commit t t', mutates now t (PreparedSave collection version identifier payload key expected)
       commit t').
Proof.
  set (k := (storage_name collection, identifier)).
  unfold save_record. eapply works_bind; [apply record_state_works|]. intros existing t0.
  apply works_lift. intros _ Hperm%require_revision_Ok. apply works_lift.
  intros [[[mutation revision] created] committed] Hplan.
  destruct existing as [[[[rev0 cr0] up0] ver0]|].
  - destruct (negb _) eqn:Hver; [done|]. apply result_bind_Ok in Hplan as (next & Hnext & [= <- <- <- <-]).
    apply ok_or_Ok, checked_add_u64_Some in Hnext as [-> _]. rewrite bool_decide_eq_false_2 by done.
    cbv zeta. eapply (works_bind _ _ (λ _ t t', ∃ row, rev0 + 1 ≤ i64_max ∧
      matching t k rev0 = Some row ∧
      t' = on_records <[k := updated_row (rev0 + 1) payload (Z.max now up0) row]> t)).
    + apply works_lift. intros z [-> Hz]%revision_to_sql_Ok. apply works_lift.
      intros z2 [-> _]%revision_to_sql_Ok. rewrite Z.add_simpl_r.
      eapply works_bind; [apply works_update|]. intros n t1. destruct (n =? 1) eqn:En.
      * apply works_ret. intros t Hup. rewrite En in Hup. destruct Hup as (row & ? & ->). eauto.
      * eapply works_bind; [apply record_state_works|]. intros. apply works_fail.
    + intros _ t1. apply works_ret. intros t (row & Hmax & Hm & ->) [-> Hrow].
      unfold matching in Hm. fold k in Hrow. destruct (records t0 !! k) as [row0|] eqn:E; [|done].
      destruct Hrow as [Hvalid [= -> -> -> ->]]. rewrite Z.eqb_refl in Hm. injection Hm as ->.
      apply negb_false_iff, Z.eqb_eq in Hver as <-. by apply mutates_update.
  - injection Hplan as <- <- <- <-. rewrite bool_decide_eq_true_2 by done.
    eapply works_bind.
    + apply works_lift. intros z [-> Hz]%revision_to_sql_Ok. apply works_insert.
    + intros [] t1. apply works_ret. intros t [Hnone ->] [-> _]. by apply mutates_create.
Qed.

Lemma delete_record_works collection version identifier key expected now :
  works (delete_record collection version identifier key expected now)
    (λ commit t t', mutates now t (PreparedDelete collection version identifier key expected)
       commit t').
Proof.
  set (k := (storage_name collection, identifier)).
  unfold delete_record. eapply works_bind; [apply record_state_works|]. intros existing t0.
  destruct existing as [[[[rev0 cr0] up0] ver0]|]; [|apply works_fail].
  destruct (negb (ver0 =? version)) eqn:Hver; [apply works_fail|].
  apply works_lift. intros _ Hperm%require_revision_Ok.
  apply works_lift. intros z [-> Hz]%revision_to_sql_Ok.
  eapply works_bind; [apply works_delete|]. intros n t1. destruct (n =? 1) eqn:En; cbn [negb].
  - apply works_lift. intros next [-> _]%ok_or_Ok%checked_add_u64_Some.
    apply works_ret. intros t Hdel [-> Hrow]. rewrite En in Hdel. subst t. destruct (records t0 !! _) as [row|] eqn:E; [|done].
    destruct Hrow as [Hvalid [= -> -> -> ->]].
    apply negb_false_iff, Z.eqb_eq in Hver as <-. by eapply mutates_delete.
  - eapply works_bind; [apply record_state_works|]. intros. apply works_fail.
Qed.

Lemma apply_command_works now command :
  works (apply_command now command) (λ commit t t', mutates now t command commit t').
Proof. destruct command; [apply save_record_works|apply delete_record_works]. Qed.

Lemma apply_commands_works now commands :
  works (apply_commands now commands) (λ commits t t', mutates_all now t commands commits t').
Proof.
  induction commands as [|command commands IH]; cbn [apply_commands].
  { apply works_ret. constructor. }
  eapply works_bind; [apply apply_command_works|]. intros commit t0.
  eapply works_bind; [exact IH|]. intros commits t1. apply works_ret.
  intros t Hall Hone. by econstructor.
Qed.

(** ** Writes as steps *)

Definition settled (c : C) : Prop := working c = durable c.

Lemma in_transaction_step {A} (body : D A) Q c r c' :
  works body Q → settled c → in_transaction body c = (r, c') →
  settled c' ∧
  match r with
  | Ok a => Q a (durable c) (durable c')
  | Err _ => durable c' = durable c ∨ ∃ a, Q a (durable c) (durable c')
  end.
Proof.
  intros Hb Hs. unfold in_transaction, sql. destruct (begin_immediate c) as [[[]|e] c1] eqn:E1.
  2: { intros [= <- <-]. destruct (law_begin _ _ _ E1 Hs) as [Hw Hd]. unfold settled. rewrite Hw, Hd. auto. }
  destruct (law_begin _ _ _ E1 Hs) as [Hw1 Hd1].
  destruct (body c1) as [[a|e] c2] eqn:E2; destruct (Hb _ _ _ E2) as [Hd2 Hq].
  2: { intros [= <- <-]. destruct (law_rollback c2) as [Hw3 Hd3]. unfold settled. rewrite Hw3, Hd3.
       split; [done|]. left. congruence. }
  specialize (Hq a eq_refl). rewrite Hw1 in Hq.
  destruct (commit_transaction c2) as [[[]|e] c3] eqn:E3; pose proof (law_commit _ _ _ E3) as Hc3;
    intros [= <- <-].
  - destruct Hc3 as [Hw Hd]. unfold settled. by rewrite Hw, Hd.
  - destruct (law_rollback c3) as [Hw4 Hd4]. unfold settled. rewrite Hw4, Hd4. split; [done|].
    destruct Hc3 as [->| ->]; [left; congruence|right; by exists a].
Qed.

Lemma commit_clock_Ok c r c' :
  commit_clock c = (r, c') →
  working c' = working c ∧ durable c' = durable c ∧ ∀ now, r = Ok now → 0 ≤ now.
Proof.
  unfold commit_clock. intros [(now & c1 & H1 & H2)|(e & H1 & ->)]%se_bind_inv.
  - destruct (law_clock _ _ _ H1). destruct (now <? 0) eqn:E; injection H2 as <- <-;
      (split_and!; [done..|]); [by intros ? [=]|]. intros ? [= <-]. lia.
  - destruct (law_clock _ _ _ H1). split_and!; [done..|]. by intros ? [=].
Qed.

(** The part of a write that commands and transactions share. *)
Definition replay_or_run {A} `{!Json A} (key digest invalid : string) (run : Z → D (A * bool))
  : D (A * bool) :=
  do! replay <- sql (select_idempotency key) in
  match replay with
  | Some (stored_digest, value) =>
    if bool_decide (stored_digest = digest) then
      do! a <- se_lift (ok_or (DbCorrupt invalid) (from_json value)) in
      se_ret (a, false)
    else se_fail (DbIdempotencyConflict key)
  | None => do! observed_at <- commit_clock in in_transaction (run observed_at)
  end.

Lemma replay_or_run_step {A} `{!Json A} encode key digest invalid run commands c r c' :
  (∀ now, 0 ≤ now → works (run now) (λ out t t', idempotency t !! key = None →
     out.2 = true ∧ ∃ commits t1 json at_, mutates_all now t commands commits t1 ∧
       encode commits = Some out.1 ∧ to_json out.1 = Some json ∧
       t' = remember key {| row_digest := digest; row_commit_json := json;
                            row_committed_at := at_ |} t1)) →
  settled c → replay_or_run key digest invalid run c = (r, c') →
  settled c' ∧ write_step encode key digest commands (durable c) r (durable c').
Proof.
  intros Hrun Hs. unfold replay_or_run.
  intros [(found & c1 & H1 & H2)|(e & H1 & ->)]%se_bind_inv; unfold sql in H1;
    destruct (select_idempotency key c) as [[found'|e'] c1'] eqn:E; simplify_eq;
    destruct (law_select_idempotency _ _ _ _ E) as (Hw & Hd & Hf).
  2: { unfold settled. rewrite Hw, Hd. split; [done|constructor]. }
  assert (settled c1) as Hs1 by (unfold settled in *; congruence).
  specialize (Hf _ eq_refl). rewrite Hs in Hf. rewrite <- Hd.
  destruct found as [[stored value]|].
  - symmetry in Hf. apply fmap_Some in Hf as (row & Hrow & [= -> ->]).
    case_bool_decide as Hdig; [|injection H2 as <- <-; split; [done|constructor]].
    apply se_bind_inv in H2 as [(a & c2 & [Ha <-]%se_lift_Ok & [= <- <-])|(e & H2 & ->)].
    + split; [done|]. apply ok_or_Ok in Ha. eapply write_replayed; [|done..]. by rewrite Hd.
    + injection H2 as _ <-. split; [done|constructor].
  - symmetry in Hf. apply fmap_None in Hf. rewrite <- Hd in Hf.
    apply se_bind_inv in H2 as [(now & c2 & H1' & H2)|(e & H1' & ->)];
      destruct (commit_clock_Ok _ _ _ H1') as (Hw2 & Hd2 & Hnow).
    2: { unfold settled. rewrite Hw2, Hd2. split; [done|constructor]. }
    assert (settled c2) as Hs2 by (unfold settled in *; congruence).
    destruct (in_transaction_step _ _ _ _ _ (Hrun now (Hnow _ eq_refl)) Hs2 H2) as [Hs3 Hr].
    split; [done|]. rewrite Hd2 in Hr. specialize (Hnow _ eq_refl).
    destruct r as [[a b]|e].
    + destruct (Hr Hf) as (Hb & commits & t1 & json & at_ & ? & ? & ? & Ht). simpl in *. subst b.
      eapply write_applied; [|done]. by exists now, t1, a, json, at_.
    + destruct Hr as [->|([a b] & Hr)]; [constructor|].
      destruct (Hr Hf) as (Hb & commits & t1 & json & at_ & ? & ? & ? & Ht). simpl in *.
      eapply write_unconfirmed. by exists now, t1, a, json, at_.
Qed.

Lemma execute_command_step command c r c' :
  settled c → execute_command command c = (r, c') →
  settled c' ∧ write_step (λ commits, head commits) (pc_idempotency_key command)
    (command_digest command) [command] (durable c) r (durable c').
Proof.
  intros Hs Hrun. eapply (replay_or_run_step _ _ _ "stored idempotency result is invalid"
    (λ now, do! commit <- apply_command now command in
            run! store_idempotent_commit (pc_idempotency_key command) (command_digest command) commit in
            se_ret (commit, true))); [|done|exact Hrun].
  intros now Hnow. eapply works_bind; [apply apply_command_works|]. intros commit t0.
  unfold store_idempotent_commit. eapply works_bind.
  - apply works_lift. intros json Hjson. eapply (works_weaken _ _ (λ _ t t', ∃ json at_,
      to_json commit = Some json ∧ t' = remember (pc_idempotency_key command)
        {| row_digest := command_digest command; row_commit_json := json; row_committed_at := at_ |} t));
      [apply works_remember|]. intros _ t t' [_ ->]. apply ok_or_Ok in Hjson. eauto.
  - intros [] t1. apply works_ret. intros t (json & at_ & Hjson & ->) Hm Hnone. split; [done|].
    exists [commit], t1, json, at_. split_and!; [|done..]. econstructor; [exact Hm|constructor].
Qed.

Lemma execute_transaction_step key commands c r c' :
  settled c → execute_transaction key commands c = (r, c') →
  settled c' ∧ write_step (λ commits, Some commits) key (transaction_digest commands) commands
    (durable c) r (durable c').
Proof.
  intros Hs. unfold execute_transaction.
  case_bool_decide; [intros [= <- <-]; split; [done|constructor]|].
  destruct (existsb _ _); [intros [= <- <-]; split; [done|constructor]|]. cbv zeta. intros H'.
  eapply (replay_or_run_step _ _ _ "stored transaction result is invalid"
    (λ now, do! commits <- apply_commands now commands in
            run! store_idempotent_transaction key (transaction_digest commands) commits in
            se_ret (commits, true))); [|done|exact H'].
  intros now Hnow. eapply works_bind; [apply apply_commands_works|]. intros commits t0.
  unfold store_idempotent_transaction. eapply works_bind.
  - apply works_lift. intros json Hjson. apply works_lift. intros at_ Hat.
    eapply (works_weaken _ _ (λ _ t t', ∃ json at_,
      to_json commits = Some json ∧ t' = remember key
        {| row_digest := transaction_digest commands; row_commit_json := json; row_committed_at := at_ |} t));
      [apply works_remember|]. intros _ t t' [_ ->]. apply ok_or_Ok in Hjson. eauto.
  - intros [] t1. apply works_ret. intros t (json & at2 & Hjson & ->) Hm Hnone. split; [done|].
    by exists commits, t1, json, at2.
Qed.
End refinement.

(** ** What a client of the database may rely on

    The reads and writes of [DatabaseManager] in terms of the committed tables, for
    the stores that are built on it. *)

Section clients.
Context {C : Type} `{!Sqlite C, !DatabaseClock C, !Sha256, !Json DatabaseCommit,
  !Json (list DatabaseCommit), !DatabaseLaws C}.

(** ** Reading *)

Lemma read_one_record_Ok {R} `{!DatabaseRecord R} identifier (c : C) stored c' :
  read_one_record (R := R) identifier c = (Ok stored, c') →
  ∃ row, records (durable c) !! (storage_name (record_collection R), identifier) = Some row ∧
    from_json (row_payload row) = Some (sr_value stored) ∧ sr_revision stored = row_revision row.
Proof.
  unfold read_one_record. intros Hr. inv_se Hr. unfold sql in Hr1.
  destruct (reader_record _ _ _) as [[r|] c0] eqn:E; [|done]. injection Hr1 as -> <-.
  apply law_reader in E as (_ & _ & Hrow). specialize (Hrow _ eq_refl).
  destruct a0 as [row|]; [|done]. injection Hr2 as ->. exists a1. split; [done|].
  unfold decode_record in Hr. destruct (negb _); [done|].
  apply result_bind_Ok in Hr as (v & Hv%ok_or_Ok & Hr). destruct (negb _); [done|].
  apply result_bind_Ok in Hr as (rev & Hrev & Hr). apply result_bind_Ok in Hr as (? & _ & Hr).
  apply result_bind_Ok in Hr as (? & _ & [= <-]). simpl. split; [done|].
  unfold revision_from_sql in Hrev. case_match; simplify_eq. done.
Qed.

Lemma read_one_record_NotFound {R} `{!DatabaseRecord R} identifier (c : C) collection id c' :
  read_one_record (R := R) identifier c = (Err (DbNotFound collection id), c') →
  records (durable c) !! (storage_name (record_collection R), identifier) = None.
Proof.
  unfold read_one_record. intros [([] & c1 & [_ <-]%se_lift_Ok & Hr)|(e & Hv & He)]%se_bind_inv.
  2: { injection He as <-. unfold se_lift, validate_identifier, validate_text in Hv. repeat case_match; done. }
  apply se_bind_inv in Hr as [(row & c2 & H1 & Hr)|(e & H1 & He)].
  2: { injection He as <-. unfold sql in H1. destruct (reader_record _ _ c) as [[|e] ?]; [done|].
       injection H1 as H1 _. by destruct e. }
  unfold sql in H1. destruct (reader_record _ _ c) as [[row'|] c2'] eqn:E; [|done]. injection H1 as -> ->.
  apply law_reader in E as (_ & _ & Hrow). specialize (Hrow _ eq_refl).
  destruct row as [row|]; [|done]. exfalso. simpl in Hr. unfold se_lift in Hr. injection Hr as Hr _.
  unfold decode_record in Hr. destruct (negb _); [done|].
  destruct (from_json _) as [v|]; [|done]. simpl in Hr. destruct (negb _); [done|].
  unfold revision_from_sql, valid_timestamp in Hr. repeat case_match; simpl in Hr; simplify_eq.
Qed.

(** ** Writing *)

Lemma mutates_elsewhere now t command commit t' k :
  mutates now t command commit t' → target command ≠ k → records t' !! k = records t !! k.
Proof. intros [] Hne; cbn; [by rewrite lookup_insert_ne..|by rewrite lookup_delete_ne]. Qed.
Lemma mutates_all_elsewhere now t commands commits t' k :
  mutates_all now t commands commits t' → Forall (λ command, target command ≠ k) commands →
  records t' !! k = records t !! k.
Proof.
  induction 1 as [|? ? ? ? ? ? ? Hm _ IH]; [done|]. intros [Hc Hall]%Forall_cons.
  by rewrite IH, (mutates_elsewhere _ _ _ _ _ _ Hm Hc).
Qed.
Lemma mutates_idempotency now t command commit t' :
  mutates now t command commit t' → idempotency t' = idempotency t.
Proof. by intros []. Qed.
Lemma mutates_all_idempotency now t commands commits t' :
  mutates_all now t commands commits t' → idempotency t' = idempotency t.
Proof. induction 1 as [|? ? ? ? ? ? ? Hm _ IH]; [done|]. by rewrite IH, (mutates_idempotency _ _ _ _ _ Hm). Qed.

Lemma mutates_save_effect now t collection version identifier payload key expected commit t' :
  mutates now t (PreparedSave collection version identifier payload key expected) commit t' →
  ∃ row, row_payload row = payload ∧
    records t' = <[(storage_name collection, identifier) := row]> (records t).
Proof.
  inversion 1 as [? ? ? ? ? ? cmd Hn Hp|? ? ? ? ? ? row cmd Hr Hp Hv Hw Hm at_|]; subst;
    (eexists; split; [|reflexivity]; done).
Qed.

Lemma write_transaction_durable tx (m : DatabaseManager C) r m' :
  settled (dm_connection m) → database_write_transaction tx m = (r, m') →
  settled (dm_connection m') ∧
  (durable (dm_connection m') = durable (dm_connection m) ∨
   ∃ commits, applies Some (tx_idempotency_key tx) (transaction_digest (tx_commands tx))
     (tx_commands tx) (durable (dm_connection m)) commits (durable (dm_connection m'))).
Proof.
  intros Hs. unfold database_write_transaction.
  intros [([] & m1 & H1 & H2)|(e & H1 & ->)]%se_bind_inv; unfold require_open in H1.
  2: { destruct (dm_is_closed m); [|done]. injection H1 as _ <-. by auto. }
  destruct (dm_is_closed m); [done|]. injection H1 as <-.
  case_bool_decide; [injection H2 as <- <-; by auto|].
  apply se_bind_inv in H2 as [([commits b] & m1 & H1 & H2)|(e & H1 & ->)];
    unfold on_connection in H1;
    destruct (execute_transaction (tx_idempotency_key tx) (tx_commands tx) (dm_connection m)) as [r0 c] eqn:E;
    injection H1 as -> <-; apply execute_transaction_step in E as [Hs' Hstep]; try done.
  - assert (dm_connection m' = c) as -> by (destruct b; injection H2 as <- <-; done).
    split; [done|]. inversion Hstep as [? ? ? Ha [=]| | |]; subst; eauto.
  - split; [done|]. inversion Hstep as [| | |commits t' e' Ha]; subst; eauto.
Qed.

(** The prepared command of a save. *)
Lemma prepare_save_prepared {R} `{!DatabaseRecord R} key (record : R) expected command :
  in_u32 (record_version_of R) → revision_wf expected →
  prepare_command (CommandSave key record expected) = Ok command → prepared command.
Proof.
  intros Hv He. unfold prepare_command. destruct (_ =? 0); [done|].
  intros (? & Hi & Hc)%result_bind_Ok. apply result_bind_Ok in Hc as (? & _ & Hc).
  apply result_bind_Ok in Hc as (payload & _ & Hc). destruct (_ <? _) eqn:Hlen; [done|].
  injection Hc as <-. unfold validate_identifier, validate_text in Hi. destruct (_ || _) eqn:Hb in Hi; [done|].
  apply orb_false_iff in Hb as [_ Hb]. unfold prepared. simpl. split_and!; [lia|done|done|lia].
Qed.

Lemma prepare_save_Ok {R} `{!DatabaseRecord R} key (record : R) expected command :
  prepare_command (CommandSave key record expected) = Ok command →
  ∃ payload, to_json record = Some payload ∧
    command = PreparedSave (record_collection R) (record_version_of R) (record_identifier record)
                payload key expected.
Proof.
  unfold prepare_command. destruct (_ =? 0); [done|].
  intros (? & _ & Hc)%result_bind_Ok. apply result_bind_Ok in Hc as (? & _ & Hc).
  apply result_bind_Ok in Hc as (payload & Hp%ok_or_Ok & Hc). destruct (_ <? _); [done|].
  injection Hc as <-. eauto.
Qed.


(** ** Calls of the manager *)

Lemma require_open_inv (m : DatabaseManager C) r m' :
  require_open m = (r, m') → m' = m ∧ (r = Ok () ∨ r = Err DbClosed).
Proof. unfold require_open. destruct (dm_is_closed m); intros [= <- <-]; auto. Qed.

Lemma database_read_record_inv {R} `{!DatabaseRecord R} identifier (m : DatabaseManager C) r m' :
  settled (dm_connection m) → database_read_record (R := R) identifier m = (r, m') →
  settled (dm_connection m') ∧ durable (dm_connection m') = durable (dm_connection m) ∧
  (∀ stored, r = Ok stored →
     ∃ row, records (durable (dm_connection m)) !! (storage_name (record_collection R), identifier) = Some row ∧
       from_json (row_payload row) = Some (sr_value stored) ∧ sr_revision stored = row_revision row) ∧
  (∀ collection id, r = Err (DbNotFound collection id) →
     records (durable (dm_connection m)) !! (storage_name (record_collection R), identifier) = None).
Proof.
  intros Hs. unfold database_read_record.
  intros [([] & m1 & [-> _]%require_open_inv & Hr)|(e & [-> He]%require_open_inv & ->)]%se_bind_inv.
  2: { destruct He as [[=]|[= ->]]. by split_and!. }
  unfold on_connection in Hr. destruct (read_one_record identifier (dm_connection m)) as [r0 c] eqn:E.
  injection Hr as <- <-. simpl.
  assert (working c = working (dm_connection m) ∧ durable c = durable (dm_connection m)) as [Hw Hd].
  { unfold read_one_record in E. apply se_bind_inv in E as [([] & c1 & [_ <-]%se_lift_Ok & E)|(e & [= _ <-] & _)]; [|done].
    apply se_bind_inv in E as [(row & c1 & E1 & E)|(e & E1 & _)]; unfold sql in E1;
      destruct (reader_record _ _ _) as [[row'|e'] c2] eqn:Er; try done;
      injection E1 as <- <-; apply law_reader in Er as (? & ? & _); [|done].
    apply se_bind_inv in E as [(x & c3 & [_ <-]%se_lift_Ok & [= _ <-])|(e & [= _ <-] & _)]; done. }
  split_and!; [unfold settled in *; congruence|done|..].
  - intros stored ->. exact (read_one_record_Ok _ _ _ _ E).
  - intros collection id ->. exact (read_one_record_NotFound _ _ _ _ _ E).
Qed.

(** The rows of the collection of [R], decoded. *)
Definition collection_of (R : Type) `{!DatabaseRecord R} (t : Tables) : gmap string (option R * Z) :=
  (λ row, (from_json (row_payload row), row_revision row)) <$>
    default (∅ : gmap string RecordRow)
      (map_curry (M1 := gmap string) (M2 := gmap string) (records t) !! storage_name (record_collection R)).
Definition stored_pair {R} `{!DatabaseRecord R} (stored : DatabaseStoredRecord R) : string * (option R * Z) :=
  (record_identifier (sr_value stored), (Some (sr_value stored), sr_revision stored)).

Lemma lookup_collection_of R `{!DatabaseRecord R} t k :
  collection_of R t !! k = (λ row, (from_json (row_payload row), row_revision row)) <$>
    records t !! (storage_name (record_collection R), k).
Proof.
  unfold collection_of. rewrite lookup_fmap, <- (lookup_map_curry (M1 := gmap string) (M2 := gmap string)).
  by destruct (map_curry (records t) !! _).
Qed.
Lemma collection_of_saved R `{!DatabaseRecord R} t t1 k row :
  records t1 = <[(storage_name (record_collection R), k) := row]> (records t) →
  collection_of R t1 = <[k := (from_json (row_payload row), row_revision row)]> (collection_of R t).
Proof.
  intros Ht. apply map_eq. intros k'. rewrite lookup_collection_of, Ht.
  destruct (decide (k' = k)) as [->|Hne]; [by rewrite !lookup_insert_eq|].
  rewrite !lookup_insert_ne by congruence. by rewrite lookup_collection_of.
Qed.
Lemma collection_of_other R `{!DatabaseRecord R} t t1 a k row :
  a ≠ storage_name (record_collection R) → records t1 = <[(a, k) := row]> (records t) →
  collection_of R t1 = collection_of R t.
Proof.
  intros Ha Ht. apply map_eq. intros k'. rewrite !lookup_collection_of, Ht.
  by rewrite lookup_insert_ne by congruence.
Qed.
(** The row a save leaves. *)
Lemma mutates_save_inv now t collection version id payload key expected commit t1 :
  mutates now t (PreparedSave collection version id payload key expected) commit t1 →
  ∃ row, records t1 = <[(storage_name collection, id) := row]> (records t) ∧ row_payload row = payload ∧
    ((records t !! (storage_name collection, id) = None ∧ permitted expected None ∧ row_revision row = 1) ∨
     ∃ old, records t !! (storage_name collection, id) = Some old ∧ permitted expected (Some (row_revision old)) ∧
       row_revision row = row_revision old + 1 ∧ row_revision row ≤ i64_max).
Proof.
  intros Hm. inversion Hm as [? ? ? ? ? ? cmd Hn Hp|? ? ? ? ? ? row cmd Hr Hp Hver Hw Hmax at_|]; subst;
    eexists; (split; [reflexivity|]); (split; [reflexivity|]); [by left|right; by exists row].
Qed.
Lemma collection_of_records R `{!DatabaseRecord R} t t' :
  records t' = records t → collection_of R t' = collection_of R t.
Proof. intros Hr. unfold collection_of. by rewrite Hr. Qed.

Lemma decode_record_Ok {R} `{!DatabaseRecord R} identifier row (stored : DatabaseStoredRecord R) :
  decode_record identifier row = Ok stored →
  stored_pair stored = (identifier, (from_json (row_payload row), row_revision row)).
Proof.
  unfold decode_record, stored_pair. destruct (negb _); [done|].
  intros (v & Hv%ok_or_Ok & Hr)%result_bind_Ok. destruct (negb _) eqn:Hid; [done|].
  apply negb_false_iff, bool_decide_eq_true in Hid.
  apply result_bind_Ok in Hr as (rev & Hrev & Hr). apply result_bind_Ok in Hr as (? & _ & Hr).
  apply result_bind_Ok in Hr as (? & _ & [= <-]). simpl.
  unfold revision_from_sql in Hrev. case_match; simplify_eq. by rewrite Hv.
Qed.
Lemma decode_records_Ok {R} `{!DatabaseRecord R} rows (stored : list (DatabaseStoredRecord R)) :
  decode_records rows = Ok stored →
  stored_pair <$> stored = (λ x, (x.1, (from_json (row_payload x.2), row_revision x.2))) <$> rows.
Proof.
  revert stored. induction rows as [|[b row] rows IH]; intros stored; [by intros [= <-]|].
  intros (s & Hs%decode_record_Ok & Hr)%result_bind_Ok. apply result_bind_Ok in Hr as (rest & Hrest%IH & [= <-]).
  csimpl. by rewrite Hs, Hrest.
Qed.

(** A whole collection is read without loss. *)
Lemma database_read_all_inv {R} `{!DatabaseRecord R} (m : DatabaseManager C) r m' :
  settled (dm_connection m) → database_read_all (R := R) m = (r, m') →
  settled (dm_connection m') ∧ durable (dm_connection m') = durable (dm_connection m) ∧
  ∀ stored, r = Ok stored → NoDup (stored_pair <$> stored).*1 ∧
    collection_of R (durable (dm_connection m)) = list_to_map (stored_pair <$> stored).
Proof.
  intros Hs. unfold database_read_all.
  intros [([] & m1 & [-> _]%require_open_inv & Hr)|(e & [-> He]%require_open_inv & ->)]%se_bind_inv; [|done].
  unfold on_connection in Hr. destruct (read_all_records (dm_connection m)) as [r0 c] eqn:E.
  injection Hr as <- <-. simpl. unfold read_all_records in E.
  apply se_bind_inv in E as [(rows & c1 & E1 & E)|(e & E1 & ->)]; unfold sql in E1;
    destruct (reader_collection _ _) as [[rows'|e'] c2] eqn:Er; try done;
    apply law_reader_collection in Er as (Hw & Hd & Hrows); injection E1 as <- <-; unfold settled in *;
    [|split_and!; [congruence|done|by intros ? [=]]].
  injection E as <- <-. split_and!; [congruence|done|]. intros stored Hdec%decode_records_Ok.
  destruct (Hrows _ eq_refl) as [Hnd Hiff]. rewrite Hdec.
  assert (((λ x : string * RecordRow, (x.1, (from_json (row_payload x.2) : option R, row_revision x.2))) <$> rows').*1
    = rows'.*1) as Hk by (rewrite <- list_fmap_compose; done).
  split; [by rewrite Hk|]. apply map_eq. intros k. rewrite lookup_collection_of.
  destruct (records _ !! _) as [row|] eqn:Hl; simpl; symmetry.
  - apply elem_of_list_to_map; [by rewrite Hk|]. apply list_elem_of_fmap. exists (k, row). split; [done|]. by apply Hiff.
  - apply not_elem_of_list_to_map. rewrite Hk. intros ((k' & row) & -> & Hin)%list_elem_of_fmap.
    apply Hiff in Hin. simpl in *. congruence.
Qed.

(** One command: nothing changed, or it was applied, which a new commit confirms. *)
Lemma database_write_inv {R} `{!DatabaseRecord R} (command : DatabaseCommand R) (m : DatabaseManager C) r m' :
  settled (dm_connection m) → database_write command m = (r, m') →
  settled (dm_connection m') ∧
  ((durable (dm_connection m') = durable (dm_connection m) ∧ ∀ commit, r ≠ Ok (commit, Applied)) ∨
   ∃ prepared now commit t1, prepare_command command = Ok prepared ∧
     mutates now (durable (dm_connection m)) prepared commit t1 ∧
     records (durable (dm_connection m')) = records t1 ∧
     ∀ commit', r = Ok (commit', Applied) → commit' = commit).
Proof.
  intros Hs. unfold database_write.
  intros [([] & m1 & [-> _]%require_open_inv & Hr)|(e & [-> He]%require_open_inv & ->)]%se_bind_inv;
    [|by split; [done|left]].
  apply se_bind_inv in Hr as [(prepared & m1 & [Hp <-]%se_lift_Ok & Hr)|(e & [= _ <-] & ->)];
    [|by split; [done|left]].
  unfold on_connection at 1 in Hr. unfold se_bind at 1 in Hr.
  destruct (execute_command prepared (dm_connection m)) as [r0 c] eqn:E.
  apply execute_command_step in E as [Hs' Hstep]; [|done].
  assert (dm_connection m' = c ∧ r = match r0 with Ok (commit, b) => Ok (commit, disposition_of b) | Err e => Err e end)
    as [-> ->] by (destruct r0 as [[commit []]|]; injection Hr as <- <-; done).
  split; [done|]. destruct Hstep as [commits a t' Ha Hh|row a| |commits t' e Ha]; [| |by left|]; [|left; done|].
  - destruct Ha as (now & t1 & a' & json & at_ & _ & _ & Hm & Ha' & _ & ->). right.
    inversion Hm as [|? ? commit t2 ? ? ? Hmut Hnil]; subst. inversion Hnil; subst. injection Hh as ->.
    exists prepared, now, a, t1. split_and!; [done..|]. by intros ? [= ->].
  - destruct Ha as (now & t1 & a' & json & at_ & _ & _ & Hm & Ha' & _ & ->). right.
    inversion Hm as [|? ? commit t2 ? ? ? Hmut Hnil]; subst. inversion Hnil; subst.
    exists prepared, now, commit, t1. by split_and!.
Qed.

(** One command as a step on the committed tables. *)
Lemma database_write_step {R} `{!DatabaseRecord R} (command : DatabaseCommand R) (m : DatabaseManager C) r m' :
  settled (dm_connection m) → database_write command m = (r, m') →
  settled (dm_connection m') ∧
  ((durable (dm_connection m') = durable (dm_connection m) ∧ ∃ e, r = Err e) ∨
   ∃ p r0, prepare_command command = Ok p ∧
     write_step (λ commits, head commits) (pc_idempotency_key p) (command_digest p) [p]
       (durable (dm_connection m)) r0 (durable (dm_connection m')) ∧
     r = match r0 with Ok (commit, b) => Ok (commit, disposition_of b) | Err e => Err e end).
Proof.
  intros Hs. unfold database_write.
  intros [([] & m1 & [-> _]%require_open_inv & Hr)|(e & [-> He]%require_open_inv & ->)]%se_bind_inv;
    [|by split; [done|left; eauto]].
  apply se_bind_inv in Hr as [(p & m1 & [Hp <-]%se_lift_Ok & Hr)|(e & [= _ <-] & ->)];
    [|by split; [done|left; eauto]].
  unfold on_connection at 1 in Hr. unfold se_bind at 1 in Hr.
  destruct (execute_command p (dm_connection m)) as [r0 c] eqn:E.
  apply execute_command_step in E as [Hs' Hstep]; [|done].
  assert (dm_connection m' = c ∧ r = match r0 with Ok (commit, b) => Ok (commit, disposition_of b) | Err e => Err e end)
    as [-> ->] by (destruct r0 as [[commit []]|]; injection Hr as <- <-; done).
  split; [done|]. right. by exists p, r0.
Qed.

(** Only a key that was used before is answered as a replay. *)
Lemma database_write_replayed {R} `{!DatabaseRecord R} key (record : R) expected (m : DatabaseManager C) commit m' :
  settled (dm_connection m) → database_write (CommandSave key record expected) m = (Ok (commit, Replayed), m') →
  is_Some (idempotency (durable (dm_connection m)) !! key).
Proof.
  intros Hs. unfold database_write. intros ([] & m1 & [-> _]%require_open_inv & Hr)%se_bind_Ok.
  apply se_bind_Ok in Hr as (prepared & m1 & [(payload & _ & ->)%prepare_save_Ok <-]%se_lift_Ok & Hr).
  unfold on_connection at 1 in Hr. unfold se_bind at 1 in Hr.
  destruct (execute_command _ (dm_connection m)) as [r0 c] eqn:E. apply execute_command_step in E as [_ Hstep]; [|done].
  destruct Hstep; simplify_eq/=. eauto.
Qed.

Lemma database_write_transaction_inv tx (m : DatabaseManager C) r m' :
  settled (dm_connection m) → database_write_transaction tx m = (r, m') →
  settled (dm_connection m') ∧
  ((durable (dm_connection m') = durable (dm_connection m) ∧ ∀ commits, r ≠ Ok (commits, Applied)) ∨
   ∃ now commits t1, mutates_all now (durable (dm_connection m)) (tx_commands tx) commits t1 ∧
     records (durable (dm_connection m')) = records t1 ∧
     ∀ commits', r = Ok (commits', Applied) → commits' = commits).
Proof.
  intros Hs. unfold database_write_transaction.
  intros [([] & m1 & [-> _]%require_open_inv & Hr)|(e & [-> He]%require_open_inv & ->)]%se_bind_inv;
    [|by split; [done|left]].
  case_bool_decide; [injection Hr as <- <-; by split; [done|left]|].
  unfold on_connection at 1 in Hr. unfold se_bind at 1 in Hr.
  destruct (execute_transaction (tx_idempotency_key tx) (tx_commands tx) (dm_connection m)) as [r0 c] eqn:E.
  apply execute_transaction_step in E as [Hs' Hstep]; [|done].
  assert (dm_connection m' = c ∧ r = match r0 with Ok (commit, b) => Ok (commit, disposition_of b) | Err e => Err e end)
    as [-> ->] by (destruct r0 as [[commit []]|]; injection Hr as <- <-; done).
  split; [done|]. destruct Hstep as [commits a t' Ha Hh|row a| |commits t' e Ha]; [| |by left|]; [|left; done|].
  - destruct Ha as (now & t1 & a' & json & at_ & _ & _ & Hm & Ha' & _ & ->). right. injection Hh as <-.
    exists now, commits, t1. split_and!; [done..|]. by intros ? [= ->].
  - destruct Ha as (now & t1 & a' & json & at_ & _ & _ & Hm & Ha' & _ & ->). right.
    exists now, commits, t1. by split_and!.
Qed.
End clients.

(** ** A database and its host

    The world of a manager over the database: the database beside the clock, the
    entropy and the keys of the host. *)

Section world.
Context {C E : Type}.
Abbreviation World := (DatabaseManager C * E)%type.

Definition in_database {Er A} (c : SE (DatabaseManager C) Er A) : SE World Er A := λ w,
  let '(r, m) := c w.1 in (r, (m, w.2)).
Definition in_host {Er A} (c : SE E Er A) : SE World Er A := λ w,
  let '(r, e) := c w.2 in (r, (w.1, e)).

Lemma in_database_inv {Er A} (c : SE (DatabaseManager C) Er A) w r w' :
  in_database c w = (r, w') → c w.1 = (r, w'.1) ∧ w'.2 = w.2.
Proof. unfold in_database. destruct (c w.1). by intros [= <- <-]. Qed.
Lemma in_host_inv {Er A} (c : SE E Er A) w r w' : in_host c w = (r, w') → c w.2 = (r, w'.2) ∧ w'.1 = w.1.
Proof. unfold in_host. destruct (c w.2). by intros [= <- <-]. Qed.
End world.
