(* ===== verification/DatabaseMemory.v ===== *)
(** * A database in memory

    The reference behaviour of the SQLite interface: two copies of the tables and
    a script of faults.  It satisfies the laws, so they are consistent, and it is
    the database of the concrete runs. *)

From Stdlib Require Import String Ascii.
From S2P Require Import Prelude Values Text Database DatabaseStorage DatabaseSafety.

Module Memory.

Record Connection := {
  mem_working : Tables;
  mem_durable : Tables;
  mem_clock : Z;
  mem_faults : list bool;  (* whether each of the next statements fails *)
}.
Definition set_working (c : Connection) (t : Tables) : Connection :=
  {| mem_working := t; mem_durable := mem_durable c; mem_clock := mem_clock c;
     mem_faults := mem_faults c |}.
Definition set_durable (c : Connection) (t : Tables) : Connection :=
  {| mem_working := t; mem_durable := t; mem_clock := mem_clock c; mem_faults := mem_faults c |}.
Definition set_faults (c : Connection) (l : list bool) : Connection :=
  {| mem_working := mem_working c; mem_durable := mem_durable c; mem_clock := mem_clock c;
     mem_faults := l |}.

(** Run a statement unless the script says that it fails. *)
Definition statement {A} (run : Connection → result SqliteError A * Connection)
  : SE Connection SqliteError A := λ c,
  match mem_faults c with
  | [] => run c
  | fails :: later =>
    let c := set_faults c later in if fails : bool then (Err SqliteOther, c) else run c
  end.

Definition conditional (k : string * string) (revision : Z) (change : RecordRow → Tables → Tables)
  : SE Connection SqliteError Z :=
  statement (λ c, match matching (mem_working c) k revision with
                  | Some row => (Ok 1, set_working c (change row (mem_working c)))
                  | None => (Ok 0, c)
                  end).

(** The rows of one collection. *)
Definition collection_rows (a : string) (m : gmap (string * string) RecordRow)
  : list (string * RecordRow) :=
  omap (λ kr, if bool_decide (kr.1.1 = a) then Some (kr.1.2, kr.2) else None) (map_to_list m).

Lemma elem_of_collection_rows a m b row :
  (b, row) ∈ collection_rows a m ↔ m !! (a, b) = Some row.
Proof.
  unfold collection_rows. rewrite list_elem_of_omap. split.
  - intros ([[a' b'] row'] & Hin%elem_of_map_to_list & H). simpl in *.
    case_bool_decide; simplify_eq. done.
  - intros H%elem_of_map_to_list. exists ((a, b), row). simpl. by rewrite bool_decide_eq_true_2.
Qed.

Lemma NoDup_collection_rows a m : NoDup (collection_rows a m).*1.
Proof.
  unfold collection_rows. pose proof (NoDup_fst_map_to_list m) as Hnd.
  induction (map_to_list m) as [|[[a' b] row] l IH]; [constructor|]. csimpl in *. apply NoDup_cons in Hnd as [Hni Hnd].
  case_bool_decide as Ha; [|by apply IH]. csimpl. apply NoDup_cons. split; [|by apply IH]. simpl in Ha. subst a'.
  intros ([b' row'] & -> & Hin)%list_elem_of_fmap. apply Hni. apply list_elem_of_omap in Hin as ([[a' b2] row2] & Hin & Hx).
  simpl in Hx. case_bool_decide; simplify_eq. apply list_elem_of_fmap. by exists ((a, b'), row').
Qed.

#[export] Instance sqlite : Sqlite Connection := {|
  begin_immediate := statement (λ c, (Ok (), c));
  commit_transaction := statement (λ c, (Ok (), set_durable c (mem_working c)));
  rollback_transaction := λ c, set_durable c (mem_durable c);
  select_record := λ a b, statement (λ c, (Ok (records (mem_working c) !! (a, b)), c));
  insert_record := λ a b row, statement (λ c,
    match records (mem_working c) !! (a, b) with
    | Some _ => (Err SqliteOther, c)
    | None => (Ok (), set_working c (on_records <[(a, b) := row]> (mem_working c)))
    end);
  update_record := λ revision payload updated_at a b previous,
    conditional (a, b) previous
      (λ row, on_records <[(a, b) := updated_row revision payload updated_at row]>);
  delete_row := λ a b revision, conditional (a, b) revision (λ _, on_records (delete (a, b)));
  select_idempotency := λ key, statement (λ c,
    (Ok ((λ row, (row_digest row, row_commit_json row)) <$> idempotency (mem_working c) !! key), c));
  insert_idempotency := λ key row, statement (λ c,
    match idempotency (mem_working c) !! key with
    | Some _ => (Err SqliteOther, c)
    | None => (Ok (), set_working c (remember key row (mem_working c)))
    end);
  reader_record := λ a b, statement (λ c, (Ok (records (mem_durable c) !! (a, b)), c));
  reader_collection := λ a, statement (λ c,
    (Ok (collection_rows a (records (mem_durable c))), c));
|}.
#[export] Instance clock : DatabaseClock Connection := λ c, (Ok (mem_clock c), c).

#[local] Ltac mem := unfold begin_immediate, commit_transaction, select_record, insert_record, update_record,
  delete_row, select_idempotency, insert_idempotency, reader_record, reader_collection, database_now, clock; simpl;
  unfold conditional, statement.

#[export] Instance laws : DatabaseLaws Connection.
Proof.
  refine {| working := mem_working; durable := mem_durable |}.
  all: mem; intros; simpl in *; repeat case_match; simplify_eq; simpl in *; split_and?;
    try done; try (by left); try (by intros ? [=]); try naive_solver.
  all: intros rows [= <-]; split; [apply NoDup_collection_rows|]; intros b row; apply elem_of_collection_rows.
Defined.

(** ** A concrete encoding

    A countable type written as the binary digits of its code. *)

Fixpoint digits (p : positive) : string :=
  match p with
  | xH => ""
  | xO p => String "0" (digits p)
  | xI p => String "1" (digits p)
  end.
Fixpoint from_digits (s : string) : positive :=
  match s with
  | EmptyString => xH
  | String c s => if bool_decide (c = "1"%char) then xI (from_digits s) else xO (from_digits s)
  end.
Lemma from_digits_digits p : from_digits (digits p) = p.
Proof. induction p as [p IH|p IH|]; simpl; [by rewrite IH..|done]. Qed.

#[export] Instance countable_json `{Countable A} : Json A := {|
  to_json := λ a, Some (digits (encode a));
  from_json := λ s, decode (from_digits s);
|}.
#[export] Instance countable_json_laws `{Countable A} : JsonLaws A.
Proof. intros a s [= <-]. simpl. by rewrite from_digits_digits, decode_encode. Qed.

(** A codec over the values that occur. *)
Section table.
Context `{EqDecision A} (values : list A).
Definition table_json : Json A := {|
  to_json := λ a, digits ∘ Pos.of_succ_nat ∘ fst <$> list_find (a =.) values;
  from_json := λ s, values !! pred (Pos.to_nat (from_digits s)) |}.
Lemma table_json_laws : @JsonLaws A table_json.
Proof.
  intros a s. simpl. intros ([i b] & (Hb & -> & _)%list_find_Some & ->)%fmap_Some. simpl.
  by rewrite from_digits_digits, SuccNat2Pos.id_succ.
Qed.
End table.

Definition collections : list DatabaseCollection :=
  [Authentication; AuditCheckpoints; AuditEvents; AuditReplays; AuditState; Benchmarks;
   BenchmarkHandoffs; CommandAuditSessions; Configuration; Controllers;
   CoreUpdateServiceSnapshots; CoreUpdates; GatewayExposure; GatewayUsage;
   HardwareObservations; ModelLifecycles; RuntimeInstallations; Nodes; Operations; Outbox;
   Pairings; PairingReplays; PeerCredentials; Placements; Services].
#[export] Instance collection_countable : Countable DatabaseCollection.
Proof.
  refine (inj_countable storage_name
    (λ s, List.find (λ c, bool_decide (storage_name c = s)) collections) _).
  by intros [].
Defined.
#[export] Instance mutation_countable : Countable DatabaseMutation.
Proof.
  refine (inj_countable'
    (λ m, match m with MutationCreated => 0%nat | MutationUpdated => 1%nat | MutationDeleted => 2%nat end)
    (λ n, match n with O => MutationCreated | 1%nat => MutationUpdated | _ => MutationDeleted end) _).
  by intros [].
Defined.
#[export] Instance commit_eq_dec : EqDecision DatabaseCommit.
Proof. solve_decision. Defined.
#[export] Instance commit_countable : Countable DatabaseCommit.
Proof.
  refine (inj_countable'
    (λ c, (dc_idempotency_key c, dc_collection c, dc_identifier c, dc_mutation c, dc_revision c,
           dc_committed_at c))
    (λ x, let '(k, c, i, m, r, t) := x in
          {| dc_idempotency_key := k; dc_collection := c; dc_identifier := i; dc_mutation := m;
             dc_revision := r; dc_committed_at := t |}) _).
  by intros [].
Defined.

(** A short digest. *)
#[export] Instance plain_digest : Sha256 := λ s, to_decimal (str_len s).

(** ** A small record type *)

Record Setting := { setting_name : string; setting_value : Z }.
#[export] Instance setting_eq_dec : EqDecision Setting.
Proof. solve_decision. Defined.
#[export] Instance setting_countable : Countable Setting.
Proof.
  refine (inj_countable' (λ s, (setting_name s, setting_value s))
    (λ x, {| setting_name := x.1; setting_value := x.2 |}) _).
  by intros [].
Defined.
#[export] Instance setting_record : DatabaseRecord Setting := {|
  record_collection := Configuration; record_version_of := 1;
  record_identifier := setting_name; record_json := countable_json |}.

Definition empty_tables : Tables := {| records := ∅; idempotency := ∅ |}.
Definition connection (faults : list bool) (now : Z) (t : Tables) : Connection :=
  {| mem_working := t; mem_durable := t; mem_clock := now; mem_faults := faults |}.
Definition setting (name : string) (value : Z) : Setting :=
  {| setting_name := name; setting_value := value |}.
Definition save (key name : string) (value : Z) (expected : DatabaseRevision) : PreparedCommand :=
  match prepare_command (CommandSave key (setting name value) expected) with
  | Ok command => command
  | Err _ => PreparedDelete Configuration 1 name key expected
  end.
End Memory.
