(* ===== verification/DatabaseGuarantees.v ===== *)
(** * Guarantees of the record store

    What a client of [core/database] may rely on, from the refinement of the
    storage operations: transactions are atomic, applied once, lose no update and
    keep every row well formed; the digest of a command identifies it. *)

From Stdlib Require Import String.
From S2P Require Import Prelude Values Text Database DatabaseStorage DatabaseSafety DatabaseMemory.

(** ** Any number of writes *)

(** Two committed states one write apart, whoever wrote what. *)
Inductive writes (t t' : Tables) : Prop :=
| writes_commands key digest commands commits json at_ now t1 :
  0 ≤ now → idempotency t !! key = None → mutates_all now t commands commits t1 →
  t' = remember key {| row_digest := digest; row_commit_json := json; row_committed_at := at_ |} t1 →
  writes t t'.

Lemma write_step_writes `{!Json A} encode key digest commands t (r : result DatabaseError (A * bool)) t' :
  write_step encode key digest commands t r t' → t' = t ∨ writes t t'.
Proof.
  intros [commits a t'' (now & t1 & a' & json & at_ & ? & ? & ? & ? & ? & ->) _| | |
          commits t'' e (now & t1 & a' & json & at_ & ? & ? & ? & ? & ? & ->)];
    [right|by left|by left|right]; by econstructor.
Qed.

Lemma write_applied_writes `{!Json A} encode key digest commands t (a : A) t' :
  write_step encode key digest commands t (Ok (a, true)) t' → writes t t'.
Proof.
  inversion 1 as [? ? ? (now & t1 & a' & json & at_ & ? & ? & ? & ? & ? & ->)| | |]; subst.
  by econstructor.
Qed.

(** The record under [k], seen from a later state that did not delete it. *)
Definition row_follows (row row' : RecordRow) : Prop :=
  row_version row' = row_version row ∧ row_created_at row' = row_created_at row ∧
  row_updated_at row ≤ row_updated_at row' ∧
  (row' = row ∨ row_revision row < row_revision row').

#[export] Instance row_follows_preorder : PreOrder row_follows.
Proof.
  split; [intros row; unfold row_follows; by auto with lia|].
  intros r1 r2 r3 (? & ? & ? & E12) (? & ? & ? & E23). split_and!; [congruence..|lia|].
  destruct E12 as [->|?], E23 as [->|?]; auto with lia.
Qed.

Definition is_delete (command : PreparedCommand) : bool :=
  match command with PreparedDelete _ _ _ _ _ => true | PreparedSave _ _ _ _ _ _ => false end.

(** The commands do not delete the record under [k]. *)
Definition spares (k : string * string) (commands : list PreparedCommand) : Prop :=
  Forall (λ command, is_delete command = true → target command ≠ k) commands.

Lemma mutates_spares now t command commit t' k row :
  mutates now t command commit t' → (is_delete command = true → target command ≠ k) →
  records t !! k = Some row → ∃ row', records t' !! k = Some row' ∧ row_follows row row'.
Proof.
  intros [c v i p key e cmd Hn Hp|c v i p key e row0 cmd Hr Hp Hv Hw Hm at_|
          c v i key e row0 cmd Hr Hp Hv Hw at_] Hsp Hk; cbn.
  - exists row. split; [|reflexivity]. rewrite lookup_insert_ne; [done|]. intros Heq. congruence.
  - destruct (decide (target cmd = k)) as [Heq|Heq].
    + rewrite Heq in *. simplify_eq. rewrite lookup_insert_eq. eexists. split; [done|].
      unfold row_follows. simpl. split_and!; [done..|lia|right; lia].
    + exists row. rewrite lookup_insert_ne by done. split; [done|reflexivity].
  - exists row. rewrite lookup_delete_ne by (by apply Hsp). split; [done|reflexivity].
Qed.

Lemma mutates_all_spares now t commands commits t' k row :
  mutates_all now t commands commits t' → spares k commands →
  records t !! k = Some row → ∃ row', records t' !! k = Some row' ∧ row_follows row row'.
Proof.
  intros H. revert row. induction H as [|t command commit t1 commands commits t2 Hm _ IH]; intros row Hsp Hk.
  { exists row. split; [done|reflexivity]. }
  inversion Hsp as [|? ? Hc Hrest]; subst.
  destruct (mutates_spares _ _ _ _ _ _ _ Hm Hc Hk) as (row1 & Hk1 & Hf1).
  destruct (IH _ Hrest Hk1) as (row2 & Hk2 & Hf2). exists row2. split; [done|]. by etrans.
Qed.

(** ** The theorems *)

(** A well-formed record table: what the CHECK clauses of the schema and the code
    keep of every row. *)
Definition row_wf (row : RecordRow) : Prop :=
  0 < row_revision row ≤ i64_max ∧ 0 ≤ row_created_at row ≤ row_updated_at row.
Definition tables_wf (t : Tables) : Prop := map_Forall (λ _ row, row_wf row) (records t).

Lemma mutates_wf now t command commit t' :
  0 ≤ now → mutates now t command commit t' → tables_wf t → tables_wf t'.
Proof.
  intros Hnow [c v i p key e cmd Hn Hp|c v i p key e row cmd Hr Hp Hv Hw Hm at_|
               c v i key e row cmd Hr Hp Hv Hw at_] Hwf.
  - apply map_Forall_insert_2; [|done]. unfold row_wf, i64_max. simpl. lia.
  - apply map_Forall_insert_2; [|done]. specialize (Hwf _ _ Hr). unfold row_wf in *. simpl. lia.
  - by apply map_Forall_delete.
Qed.

(** The rows of remembered writes stay. *)
Lemma writes_remember t t' key row :
  rtc writes t t' → idempotency t !! key = Some row → idempotency t' !! key = Some row.
Proof.
  induction 1 as [|t t1 t2 [k d cs ms j a n u Hn Hk Hm ->] _ IH]; [done|]. intros Hrow. apply IH. simpl.
  rewrite (mutates_all_idempotency _ _ _ _ _ Hm), lookup_insert_ne; [done|]. congruence.
Qed.

(** A write that deletes nothing under [k]. *)
Inductive writes_sparing (k : string * string) (t t' : Tables) : Prop :=
| writes_spared key digest commands commits json at_ now t1 :
  0 ≤ now → idempotency t !! key = None → mutates_all now t commands commits t1 →
  t' = remember key {| row_digest := digest; row_commit_json := json; row_committed_at := at_ |} t1 →
  spares k commands → writes_sparing k t t'.

Lemma write_applied_sparing `{!Json A} encode key digest commands t (a : A) t' k :
  write_step encode key digest commands t (Ok (a, true)) t' → spares k commands →
  writes_sparing k t t'.
Proof.
  inversion 1 as [? ? ? (now & t1 & a' & json & at_ & ? & ? & ? & ? & ? & ->)| | |]; subst.
  intros Hsp. by econstructor.
Qed.

Lemma writes_sparing_follows k t t' row :
  rtc (writes_sparing k) t t' → records t !! k = Some row →
  ∃ row', records t' !! k = Some row' ∧ row_follows row row'.
Proof.
  intros Hs. revert row. induction Hs as [|t t1 t2 [key d cs ms j a n u Hn Hk Hm -> Hsp] _ IH]; intros row Hrow.
  { exists row. split; [done|reflexivity]. }
  destruct (mutates_all_spares _ _ _ _ _ _ _ Hm Hsp Hrow) as (row1 & Hrow1 & Hf1).
  destruct (IH row1 Hrow1) as (row2 & Hrow2 & Hf2). exists row2. split; [done|]. by etrans.
Qed.

(** An applied command found the revision it expected. *)
Lemma mutates_found now t command commit t' :
  mutates now t command commit t' → permitted (pc_expected command) (row_revision <$> records t !! target command).
Proof. intros [? ? ? ? ? ? cmd Hn Hp|? ? ? ? ? ? row cmd Hr Hp Hv Hw Hm at_|? ? ? ? ? row cmd Hr Hp Hv Hw at_]; by rewrite ?Hn, ?Hr. Qed.

(** So did every command of a list with distinct targets, wherever it stands. *)
Lemma mutates_all_found now t commands commits t' command :
  mutates_all now t commands commits t' → NoDup (target <$> commands) → command ∈ commands →
  permitted (pc_expected command) (row_revision <$> records t !! target command).
Proof.
  induction 1 as [|t first commit t1 commands commits t2 Hm _ IH]; [by intros _ ?%elem_of_nil|].
  csimpl. intros [Hni Hnd]%NoDup_cons [->|Hin]%elem_of_cons; [by eapply mutates_found|].
  rewrite <- (mutates_elsewhere _ _ _ _ _ _ Hm); [by apply IH|]. intros Heq. apply Hni. rewrite Heq.
  apply list_elem_of_fmap. eauto.
Qed.

(** Transactions as the builder makes them. *)
Inductive composed : DatabaseTransaction → Prop :=
| composed_new key tx : DatabaseTransaction_new key = Ok tx → composed tx
| composed_save R `{!DatabaseRecord R} (record : R) expected tx tx' :
  composed tx → tx_save record expected tx = Ok tx' → composed tx'
| composed_delete R `{!DatabaseRecord R} identifier expected tx tx' :
  composed tx → tx_delete R identifier expected tx = Ok tx' → composed tx'.

Lemma add_command_targets command tx tx' :
  add_command command tx = Ok tx' → NoDup (target <$> tx_commands tx) → NoDup (target <$> tx_commands tx').
Proof.
  unfold add_command. destruct (_ <=? _)%nat; [done|]. destruct (existsb _ _) eqn:E; [done|]. intros [= <-] Hnd. simpl.
  rewrite fmap_app. apply NoDup_app. split_and!; [done| |apply NoDup_singleton].
  intros k (current & -> & Hin)%list_elem_of_fmap Heq%list_elem_of_singleton.
  assert (existsb (λ current, same_target current command) (tx_commands tx) = true) as E'; [|congruence].
  apply existsb_exists. exists current. split; [by apply list_elem_of_In|].
  unfold target in Heq. injection Heq as Hc%storage_name_inj Hi. unfold same_target. by rewrite !bool_decide_true.
Qed.
Lemma composed_targets tx : composed tx → NoDup (target <$> tx_commands tx).
Proof.
  induction 1 as [key tx Hn|R ? record expected tx tx' _ IH Hs|R ? identifier expected tx tx' _ IH Hs].
  - apply result_bind_Ok in Hn as (_ & _ & [= <-]). constructor.
  - apply result_bind_Ok in Hs as (command & _ & Hs). by eapply add_command_targets.
  - apply result_bind_Ok in Hs as (command & _ & Hs). by eapply add_command_targets.
Qed.

Section theorems.
Context {C : Type} `{!Sqlite C, !DatabaseClock C, !Sha256, !Json DatabaseCommit,
  !Json (list DatabaseCommit), !DatabaseLaws C}.

(** A record that was read is a committed row. *)
Lemma database_read_record_row {R} `{!DatabaseRecord R} identifier (m : DatabaseManager C)
    (stored : DatabaseStoredRecord R) m' :
  settled (dm_connection m) → database_read_record identifier m = (Ok stored, m') →
  ∃ row, records (durable (dm_connection m')) !! (storage_name (record_collection R), identifier) = Some row ∧
    decode_record identifier row = Ok stored.
Proof.
  intros Hs Hr. pose proof (database_read_record_inv _ _ _ _ Hs Hr) as (_ & Hd & _). rewrite Hd. clear Hd.
  unfold database_read_record in Hr. apply se_bind_Ok in Hr as ([] & m1 & [-> _]%require_open_inv & Hr).
  unfold on_connection in Hr. destruct (read_one_record identifier (dm_connection m)) as [r0 c] eqn:E.
  injection Hr as -> <-. unfold read_one_record in E. inv_se E. unfold sql in Hr0.
  destruct (reader_record _ _ _) as [[r|] c0] eqn:Er; [|done]. injection Hr0 as -> _.
  apply law_reader in Er as (_ & _ & Hrow). specialize (Hrow _ eq_refl).
  destruct a0 as [row|]; [|done]. injection Hr1 as ->. eauto.
Qed.

(** A transaction took effect as a whole, with the record of its replay key and
    its events; it was replayed; or it failed, and then nothing or all of it is
    committed. *)
Definition atomic_outcome (tx : DatabaseTransaction) (m : DatabaseManager C)
    (r : result DatabaseError (list DatabaseCommit * DatabaseCommitDisposition))
    (m' : DatabaseManager C) : Prop :=
  let t := durable (dm_connection m) in
  let t' := durable (dm_connection m') in
  let digest := transaction_digest (tx_commands tx) in
  match r with
  | Ok (commits, Applied) =>
    applies Some (tx_idempotency_key tx) digest (tx_commands tx) t commits t' ∧
    dm_events m' = dm_events m ++ (from_commit <$> commits)
  | Ok (commits, Replayed) =>
    t' = t ∧ dm_events m' = dm_events m ∧
    ∃ row, idempotency t !! tx_idempotency_key tx = Some row ∧ row_digest row = digest ∧
      from_json (row_commit_json row) = Some commits
  | Err _ =>
    dm_events m' = dm_events m ∧
    (t' = t ∨ ∃ commits, applies Some (tx_idempotency_key tx) digest (tx_commands tx) t commits t')
  end.

(** C11: whatever SQLite answers, a transaction is all or nothing.  Applied,
    its commands took effect together with the record of its replay key and its
    events follow the commit; replayed, nothing changed; after an error no event
    is sent and the committed tables are as before, or the whole transaction is
    there when the commit itself was not confirmed. *)
Theorem transaction_is_atomic tx (m : DatabaseManager C) r m' :
  settled (dm_connection m) → database_write_transaction tx m = (r, m') →
  settled (dm_connection m') ∧ atomic_outcome tx m r m'.
Proof.
  intros Hs. unfold database_write_transaction, atomic_outcome. cbv zeta.
  intros [([] & m1 & H1 & H2)|(e & H1 & ->)]%se_bind_inv; unfold require_open in H1.
  2: { destruct (dm_is_closed m); [|done]. injection H1 as _ <-. auto. }
  destruct (dm_is_closed m); [done|]. injection H1 as <-.
  case_bool_decide; [injection H2 as <- <-; auto|].
  apply se_bind_inv in H2 as [([commits b] & m1 & H1 & H2)|(e & H1 & ->)];
    unfold on_connection in H1;
    destruct (execute_transaction (tx_idempotency_key tx) (tx_commands tx) (dm_connection m)) as [r0 c] eqn:E;
    injection H1 as -> <-; apply execute_transaction_step in E as [Hs' Hstep]; [|done| |done].
  - cbn [dm_connection]. destruct b; injection H2 as <- <-; simpl; (split; [done|]).
    + inversion Hstep as [commits' a t' Ha [= ->]| | |]; subst. done.
    + inversion Hstep as [|row a Hrow Hd Hj| |]; subst. split; [done|]. split; [done|]. by exists row.
  - split; [done|]. split; [done|]. inversion Hstep as [| | |commits t' e' Ha]; subst; eauto.
Qed.

(** C12: optimistic revisions lose no update.  When a client has read a
    record, others have written (without deleting it), and then a transaction of
    the client is applied in which some command, at any place, saves or deletes the
    record and expects the revision it read, the record it replaces still is the one
    it read. *)
Theorem no_lost_update {R} `{!DatabaseRecord R} identifier (m0 m1 m2 m3 : DatabaseManager C)
    (stored : DatabaseStoredRecord R) tx command commits :
  let k := (storage_name (record_collection R), identifier) in
  settled (dm_connection m0) → database_read_record identifier m0 = (Ok stored, m1) →
  settled (dm_connection m2) → rtc (writes_sparing k) (durable (dm_connection m1)) (durable (dm_connection m2)) →
  composed tx → command ∈ tx_commands tx → target command = k →
  pc_expected command = RevisionExact (sr_revision stored) →
  database_write_transaction tx m2 = (Ok (commits, Applied), m3) →
  ∃ row, records (durable (dm_connection m2)) !! k = Some row ∧ decode_record identifier row = Ok stored.
Proof.
  intros k Hs0 Hread Hs2 Hw Htx Hin Hk Hexp Hx.
  destruct (database_read_record_row _ _ _ _ Hs0 Hread) as (row & Hrow & Hdec).
  destruct (writes_sparing_follows _ _ _ _ Hw Hrow) as (row' & Hrow' & Hf). exists row'. split; [done|].
  destruct (database_write_transaction_inv _ _ _ _ Hs2 Hx) as [_ [[_ Hno]|(now & commits' & t1 & Hm & _)]];
    [by destruct (Hno commits)|].
  pose proof (mutates_all_found _ _ _ _ _ _ Hm (composed_targets _ Htx) Hin) as Hp.
  rewrite Hk, Hrow', Hexp in Hp. injection Hp as Hrev.
  destruct Hf as (_ & _ & _ & [->|Hlt]); [done|]. exfalso.
  apply decode_record_Ok in Hdec. injection Hdec as _ _ Hrev'. lia.
Qed.

Lemma applied_remembers key commands (c : C) commits c' :
  settled c → execute_transaction key commands c = (Ok (commits, true), c') →
  ∃ row, idempotency (durable c') !! key = Some row ∧
    row_digest row = transaction_digest commands ∧ to_json commits = Some (row_commit_json row).
Proof.
  intros Hs Hx. apply execute_transaction_step in Hx as [_ Hx]; [|done].
  inversion Hx as [ms a t' (now & t1 & a' & json & at_ & _ & _ & _ & [= <-] & Hj & ->) [= ->] E1 E2| | |].
  simpl. rewrite lookup_insert_eq. eexists. split; [done|]. by split.
Qed.

(** C13: an applied transaction is applied once.  After it was applied and any
    number of other writes, a transaction under the same key changes nothing, and
    if it answers at all it has the digest of the first one and returns the
    commits of the first one, marked as a replay. *)
Theorem transaction_applies_once `{!JsonLaws (list DatabaseCommit)} key commands commits
    (c c1 c2 c3 : C) commands' r :
  settled c → execute_transaction key commands c = (Ok (commits, true), c1) →
  settled c2 → rtc writes (durable c1) (durable c2) →
  execute_transaction key commands' c2 = (r, c3) →
  durable c3 = durable c2 ∧
  ∀ out, r = Ok out → out = (commits, false) ∧ transaction_digest commands' = transaction_digest commands.
Proof.
  intros Hs Hx Hs2 Hw Hx2. destruct (applied_remembers _ _ _ _ _ Hs Hx) as (row & Hrow & Hd & Hj).
  apply (writes_remember _ _ _ _ Hw) in Hrow. apply execute_transaction_step in Hx2 as [_ Hx2]; [|done].
  apply json_round_trip in Hj.
  inversion Hx2 as [ms a t' (now & t1 & a' & json & at_ & _ & Hn & _) _ E1 E2|row' a Hr' Hd' Hj' E1 E2
    |e E1 E2|ms t' e (now & t1 & a' & json & at_ & _ & Hn & _) E1 E2]; try congruence.
  - split; [done|]. intros out [= <-]. simplify_eq. split; congruence.
  - split; [done|]. by intros out [=].
Qed.

Lemma mutates_all_wf now t commands commits t' :
  0 ≤ now → mutates_all now t commands commits t' → tables_wf t → tables_wf t'.
Proof. intros Hn. induction 1 as [|? ? ? ? ? ? ? Hm _ IH]; [done|]. intros Hwf. apply IH. by eapply mutates_wf. Qed.

Lemma write_step_wf `{!Json A} encode key digest commands t (r : result DatabaseError (A * bool)) t' :
  write_step encode key digest commands t r t' → tables_wf t → tables_wf t'.
Proof.
  intros Hw Hwf. apply write_step_writes in Hw as [->|[k d cs ms j a n u Hn Hk Hm ->]]; [done|].
  change (tables_wf u). by eapply mutates_all_wf.
Qed.

(** C15: every record stays well formed: commands and transactions on a connection
    without an open transaction, applied, replayed or failed, keep each revision
    positive and within SQLite's integers and each creation time non-negative and at
    most the update time, whatever the clock returns. *)
Theorem stored_rows_stay_well_formed (c : C) :
  settled c → tables_wf (durable c) →
  (∀ command r c', execute_command command c = (r, c') → tables_wf (durable c')) ∧
  (∀ key commands r c', execute_transaction key commands c = (r, c') → tables_wf (durable c')).
Proof.
  intros Hs Hwf. split.
  - intros command r c' [_ Hw]%execute_command_step; [|done]. exact (write_step_wf _ _ _ _ _ _ _ Hw Hwf).
  - intros key commands r c' [_ Hw]%execute_transaction_step; [|done]. exact (write_step_wf _ _ _ _ _ _ _ Hw Hwf).
Qed.
End theorems.

(** ** Concrete runs *)

Import Memory.

Definition two_settings : DatabaseTransaction :=
  {| tx_idempotency_key := "k1";
     tx_commands := [save "k1" "a" 1 RevisionMissing; save "k1" "b" 2 RevisionMissing] |}.
Definition fresh (faults : list bool) : DatabaseManager Connection :=
  {| dm_connection := connection faults 100 empty_tables; dm_is_closed := false; dm_events := [] |}.

Definition second_insert_fails : list bool := [false; false; false; false; false; true].

Lemma manager_applied (out : result DatabaseError (list DatabaseCommit * DatabaseCommitDisposition)
    * DatabaseManager Connection) :
  match out.1 with Ok (_, Applied) => true | _ => false end = true →
  ∃ commits, out = (Ok (commits, Applied), out.2).
Proof. destruct out as [[[commits []]|] m]; [by exists commits|done..]. Qed.
Lemma manager_failed (out : result DatabaseError (list DatabaseCommit * DatabaseCommitDisposition)
    * DatabaseManager Connection) :
  is_ok out.1 = false → ∃ e, out = (Err e, out.2).
Proof. destruct out as [[|e] m]; [done|by exists e]. Qed.

(** Applied, and with the insertion of the second record failing. *)
Lemma transaction_is_atomic_witness :
  (∃ commits m', database_write_transaction two_settings (fresh []) = (Ok (commits, Applied), m') ∧
     atomic_outcome two_settings (fresh []) (Ok (commits, Applied)) m') ∧
  (∃ e m', database_write_transaction two_settings (fresh second_insert_fails) = (Err e, m') ∧
     size (records (durable (dm_connection m'))) = 0%nat ∧
     atomic_outcome two_settings (fresh second_insert_fails) (Err e) m').
Proof.
  split.
  - destruct (manager_applied (database_write_transaction two_settings (fresh [])))
      as [commits E]; [vm_compute; reflexivity|].
    exists commits. eexists. split; [exact E|].
    exact (proj2 (transaction_is_atomic two_settings (fresh []) _ _ eq_refl E)).
  - destruct (manager_failed (database_write_transaction two_settings (fresh second_insert_fails)))
      as [e E]; [vm_compute; reflexivity|].
    exists e. eexists. split; [exact E|]. split; [vm_compute; reflexivity|].
    exact (proj2 (transaction_is_atomic two_settings (fresh second_insert_fails) _ _ eq_refl E)).
Defined.

(** Two clients in turn: the first creates a setting, the second another one. *)
Definition run_first := execute_transaction "k1" [save "k1" "a" 1 RevisionMissing]
  (connection [] 100 empty_tables).
Definition run_second := execute_transaction "k2" [save "k2" "b" 5 RevisionMissing] run_first.2.

Definition is_applied (out : result DatabaseError (list DatabaseCommit * bool) * Connection) : bool :=
  match out.1 with Ok (_, b) => b | Err _ => false end.
Lemma applied_out out : is_applied out = true → ∃ commits, out = (Ok (commits, true), out.2).
Proof. destruct out as [[[commits []]|] c]; [by exists commits|done..]. Qed.
Lemma run_first_applied : ∃ commits, run_first = (Ok (commits, true), run_first.2).
Proof. apply applied_out. vm_compute. reflexivity. Qed.
Lemma run_second_applied : ∃ commits, run_second = (Ok (commits, true), run_second.2).
Proof. apply applied_out. vm_compute. reflexivity. Qed.
(** A third client creates a setting and replaces the first one in one transaction. *)
Definition managed (c : Connection) : DatabaseManager Connection :=
  {| dm_connection := c; dm_is_closed := false; dm_events := [] |}.
Definition third_transaction : DatabaseTransaction :=
  {| tx_idempotency_key := "k4"; tx_commands := [save "k4" "c" 9 RevisionMissing; save "k4" "a" 7 (RevisionExact 1)] |}.
Definition third_write := database_write_transaction third_transaction (managed run_second.2).

Lemma third_composed : composed third_transaction.
Proof.
  pose (tx n := {| tx_idempotency_key := "k4"; tx_commands := take n (tx_commands third_transaction) |}).
  apply (composed_save Setting (setting "a" 7) (RevisionExact 1) (tx 1%nat)); [|vm_compute; reflexivity].
  apply (composed_save Setting (setting "c" 9) RevisionMissing (tx 0%nat)); [|vm_compute; reflexivity].
  apply (composed_new "k4"). vm_compute. reflexivity.
Qed.

Lemma no_lost_update_witness :
  ∃ commits row, third_write = (Ok (commits, Applied), third_write.2) ∧
    records (durable run_second.2) !! ("configuration"%string, "a"%string) = Some row ∧
    decode_record "a" row = Ok {| sr_value := setting "a" 1; sr_revision := 1;
                                  sr_created_at := 100; sr_updated_at := 100 |}.
Proof.
  destruct (manager_applied third_write) as [commits E3]; [vm_compute; reflexivity|]. exists commits.
  destruct run_second_applied as [commits2 E2].
  destruct (no_lost_update (R := Setting) "a" (managed run_first.2) (managed run_first.2) (managed run_second.2)
    third_write.2 {| sr_value := setting "a" 1; sr_revision := 1; sr_created_at := 100; sr_updated_at := 100 |}
    third_transaction (save "k4" "a" 7 (RevisionExact 1)) commits)
    as (row & Hrow & Hd); [reflexivity|vm_compute; reflexivity|reflexivity| |exact third_composed|right; left|
      reflexivity|reflexivity|exact E3|].
  - apply rtc_once. pose proof (execute_transaction_step _ _ run_first.2 _ _ eq_refl E2) as [_ Hs].
    apply (write_applied_sparing _ _ _ _ _ _ _ _ Hs). by repeat constructor.
  - exists row. split; [exact E3|]. split; [exact Hrow|exact Hd].
Defined.

Lemma transaction_applies_once_witness :
  ∃ commits, run_first = (Ok (commits, true), run_first.2) ∧
    durable (execute_transaction "k1" [save "k1" "a" 1 RevisionMissing] run_second.2).2
      = durable run_second.2 ∧
    (execute_transaction "k1" [save "k1" "a" 1 RevisionMissing] run_second.2).1 = Ok (commits, false).
Proof.
  destruct run_first_applied as [commits E1]. destruct run_second_applied as [commits2 E2].
  exists commits. split; [exact E1|].
  destruct (execute_transaction "k1" [save "k1" "a" 1 RevisionMissing] run_second.2) as [r c] eqn:E.
  assert (rtc writes (durable run_first.2) (durable run_second.2)) as Hw.
  { apply rtc_once. pose proof (execute_transaction_step _ _ run_first.2 _ _ eq_refl E2) as [_ Hs].
    exact (write_applied_writes _ _ _ _ _ _ _ Hs). }
  assert (settled (connection [] 100 empty_tables) ∧ settled run_second.2) as [Hs1 Hs2]
    by (split; reflexivity).
  destruct (transaction_applies_once "k1" [save "k1" "a" 1 RevisionMissing] commits
    (connection [] 100 empty_tables) run_first.2 run_second.2 c _ r Hs1 E1 Hs2 Hw E) as [Hd Hr].
  split; [exact Hd|]. cbn [fst].
  assert (is_ok (fst (r, c)) = true) as Hok by (rewrite <- E; vm_compute; reflexivity).
  destruct r as [out|e]; [|discriminate Hok].
  f_equal. exact (proj1 (Hr out eq_refl)).
Defined.

Lemma stored_rows_stay_well_formed_witness :
  size (records (durable run_first.2)) = 1%nat ∧ tables_wf (durable run_first.2).
Proof.
  split; [vm_compute; reflexivity|].
  exact (proj2 (stored_rows_stay_well_formed (connection [] 100 empty_tables) eq_refl
    (map_Forall_empty _)) "k1"%string [save "k1" "a" 1 RevisionMissing] run_first.1 run_first.2
    (surjective_pairing _)).
Defined.
