(* ===== verification/PlacementRows.v ===== *)
(** * Placement aggregates as database records

    The private record types of [core/node/src/li_placement_database.rs], the
    projection of a placement aggregate to them and its reconstruction, with the
    engine records of [li_runtime_database.rs].  Every failed reconstruction is
    [StoreUnavailable]. *)

From Stdlib Require Import String.
From S2P Require Import Prelude Values Placement PlacementContract PlacementAllocator.

(** ** Record types *)

Record FailureDatabaseRecord := { fr_code : string; fr_message : string }.
Inductive EngineDatabaseRecord :=
| EngineOci (reference immutable_id : string) (base payload_id : option string)
| EngineNative (kind operating_system architecture payload_id source_revision : string).
Record RuntimeIdentityDatabaseRecord := {
  rr_candidate_id : string;
  rr_version : string;
  rr_target_id : string;
  rr_source : string;
  rr_engine : EngineDatabaseRecord;
  rr_runtime_digest : string;
  rr_manifest_digest : string;
  rr_execution_contract_digest : string;
}.
Record InterconnectDatabaseRecord := {
  nr_kind : string;
  nr_rdma_required : bool;
  nr_minimum_speed_mbps : Z;
  nr_minimum_mtu : Z;
}.
Record CapacityDatabaseRecord := {
  cr_max_connections : Z;
  cr_max_active_requests : Z;
  cr_max_context_tokens : Z;
  cr_interconnect : InterconnectDatabaseRecord;
}.
Record TokenCountDatabaseRecord := { tr_path : string; tr_protocol : string }.
Record EndpointHealthDatabaseRecord := {
  hr_healthy : bool;
  hr_memory_pressure : bool;
  hr_temperature_millicelsius : option Z;
  hr_prefix_keys : list string;
}.
Record EndpointDatabaseRecord := {
  er_placement_id : string;
  er_node_id : string;
  er_scheme : string;
  er_host : string;
  er_port : Z;
  er_credential_id : string;
  er_ca_credential_id : option string;
  er_token_count : option TokenCountDatabaseRecord;
  er_max_active_requests : Z;
  er_max_context_tokens : Z;
  er_health : EndpointHealthDatabaseRecord;
}.
Record PlacementGroupDatabaseRecord := {
  gr_service_id : string;
  gr_runtime : RuntimeIdentityDatabaseRecord;
  gr_placement_ids : list string;
  gr_endpoint_placement_id : string;
  gr_endpoint : option EndpointDatabaseRecord;
  gr_capacity : CapacityDatabaseRecord;
  gr_desired_state : string;
  gr_state : string;
  gr_failure : option FailureDatabaseRecord;
  gr_created_at : Z;
  gr_updated_at : Z;
}.
Record PlacementResourcesDatabaseRecord := {
  sr_port_base : Z;
  sr_port_count : Z;
  sr_device_ids : list string;
  sr_rdma_interface : option string;
}.
Record PlacementAssignmentDatabaseRecord := {
  ar_node_id : string;
  ar_runtime_installation_id : string;
  ar_hardware_observation_id : string;
  ar_hardware_boot_id : string;
  ar_hardware_observed_at : Z;
  ar_task_id : string;
  ar_address : string;
  ar_resources : PlacementResourcesDatabaseRecord;
  ar_endpoint_ownership : string;
}.
Record PlacementDatabaseEntry := {
  pd_placement_id : string;
  pd_assignment : PlacementAssignmentDatabaseRecord;
  pd_state : string;
  pd_active_operation_id : option string;
  pd_failure : option FailureDatabaseRecord;
  pd_created_at : Z;
  pd_updated_at : Z;
}.
Inductive ResourceDatabaseRecord :=
| AcceleratorRow (device_id : string) | PortRow (port : Z) | RdmaInterfaceRow (interface : string).
Record ResourceLeaseDatabaseRecord := {
  lr_lease_id : string;
  lr_placement_id : string;
  lr_node_id : string;
  lr_resource : ResourceDatabaseRecord;
  lr_state : string;
  lr_created_at : Z;
  lr_updated_at : Z;
}.
Record LaunchPlanIdentityDatabaseRecord := { lp_placement_id : string; lp_digest : string }.
Record PlacementAggregateDatabaseRecord := {
  ag_placement_group_id : string;
  ag_group : PlacementGroupDatabaseRecord;
  ag_placements : list PlacementDatabaseEntry;
  ag_leases : list ResourceLeaseDatabaseRecord;
  ag_startup_order : list (list string);
  ag_launch_plan_identities : list LaunchPlanIdentityDatabaseRecord;
}.
#[export] Instance ResourceDatabaseRecord_eq_dec : EqDecision ResourceDatabaseRecord.
Proof. solve_decision. Defined.

(** ** Names of closed values *)

(** [match value { "name" => Ok(..), ..., _ => Err(StoreUnavailable) }] *)
Definition named {A} (table : list (string * A)) (value : string) : result PlacementError A :=
  ok_or StoreUnavailable (snd <$> List.find (λ entry, bool_decide (entry.1 = value)) table).

Definition desired_state_name (value : ModelServiceDesiredState) : string :=
  match value with
  | DesiredRunning => "running" | DesiredStopped => "stopped" | DesiredRemoved => "removed"
  end.
Definition desired_state : string → result PlacementError ModelServiceDesiredState :=
  named [("running", DesiredRunning); ("stopped", DesiredStopped); ("removed", DesiredRemoved)]%string.

Definition group_state_name (value : PlacementGroupState) : string :=
  match value with
  | GroupStaging => "staging" | GroupStaged => "staged" | GroupStarting => "starting"
  | GroupRunning => "running" | GroupDegraded => "degraded" | GroupStopping => "stopping"
  | GroupStopped => "stopped" | GroupRecovering => "recovering" | GroupRemoving => "removing"
  | GroupRemoved => "removed" | GroupFailed => "failed"
  end.
Definition group_state : string → result PlacementError PlacementGroupState :=
  named [("staging", GroupStaging); ("staged", GroupStaged); ("starting", GroupStarting);
         ("running", GroupRunning); ("degraded", GroupDegraded); ("stopping", GroupStopping);
         ("stopped", GroupStopped); ("recovering", GroupRecovering); ("removing", GroupRemoving);
         ("removed", GroupRemoved); ("failed", GroupFailed)]%string.

Definition endpoint_ownership_name (value : EndpointOwnership) : string :=
  match value with Owner => "owner" | Participant => "participant" end.
Definition endpoint_ownership : string → result PlacementError EndpointOwnership :=
  named [("owner", Owner); ("participant", Participant)]%string.

Definition placement_state_name (value : PlacementState) : string :=
  match value with
  | PlacementPending => "pending" | PlacementStaging => "staging" | PlacementStaged => "staged"
  | PlacementStarting => "starting" | PlacementRunning => "running"
  | PlacementStopping => "stopping" | PlacementStopped => "stopped"
  | PlacementRemoving => "removing" | PlacementRemoved => "removed"
  | PlacementFailed => "failed" | PlacementUnreachable => "unreachable"
  end.
Definition placement_state : string → result PlacementError PlacementState :=
  named [("pending", PlacementPending); ("staging", PlacementStaging); ("staged", PlacementStaged);
         ("starting", PlacementStarting); ("running", PlacementRunning);
         ("stopping", PlacementStopping); ("stopped", PlacementStopped);
         ("removing", PlacementRemoving); ("removed", PlacementRemoved);
         ("failed", PlacementFailed); ("unreachable", PlacementUnreachable)]%string.

Definition lease_state_name (value : ResourceLeaseState) : string :=
  match value with
  | LeaseReserved => "reserved" | LeaseActive => "active" | LeaseDraining => "draining"
  | LeaseReleased => "released"
  end.
Definition lease_state : string → result PlacementError ResourceLeaseState :=
  named [("reserved", LeaseReserved); ("active", LeaseActive); ("draining", LeaseDraining);
         ("released", LeaseReleased)]%string.

Definition endpoint_scheme_name (value : EndpointScheme) : string :=
  match value with SchemeHttp => "http" | SchemeHttps => "https" end.
Definition parse_endpoint_scheme : string → result PlacementError EndpointScheme :=
  named [("http", SchemeHttp); ("https", SchemeHttps)]%string.

Definition token_count_protocol_name (value : TokenCountProtocol) : string :=
  match value with LetsInferV1 => "letsinfer_v1" end.
Definition token_count_protocol : string → result PlacementError TokenCountProtocol :=
  named [("letsinfer_v1", LetsInferV1)]%string.

Definition interconnect_kind_name (value : InterconnectKind) : string :=
  match value with
  | InterconnectAny => "any" | InterconnectConnectx => "connectx"
  | InterconnectEthernet => "ethernet" | InterconnectWifi => "wifi" | InterconnectOther => "other"
  end.
Definition interconnect_kind : string → result PlacementError InterconnectKind :=
  named [("any", InterconnectAny); ("connectx", InterconnectConnectx);
         ("ethernet", InterconnectEthernet); ("wifi", InterconnectWifi);
         ("other", InterconnectOther)]%string.

Definition native_kind_name (value : NativeEngineKind) : string :=
  match value with
  | NativeArchive => "native_archive" | PythonStandalone => "python_standalone"
  | EmbeddedApplication => "embedded_application"
  end.
Definition native_kind : string → result PlacementError NativeEngineKind :=
  named [("native_archive", NativeArchive); ("python_standalone", PythonStandalone);
         ("embedded_application", EmbeddedApplication)]%string.
Definition operating_system_name (value : OperatingSystem) : string :=
  match value with Linux => "linux" | Macos => "macos" end.
Definition operating_system_value : string → result PlacementError OperatingSystem :=
  named [("linux", Linux); ("macos", Macos)]%string.
Definition architecture_name (value : CpuArchitecture) : string :=
  match value with Arm64 => "arm64" | X86_64 => "x86_64" end.
Definition architecture_value : string → result PlacementError CpuArchitecture :=
  named [("arm64", Arm64); ("x86_64", X86_64)]%string.

(** ** Projection *)

Definition failure_record (f : FailureDescription) : FailureDatabaseRecord :=
  {| fr_code := failure_code f; fr_message := failure_message f |}.

Definition engine_record (engine : EngineDistribution) : EngineDatabaseRecord :=
  match engine with
  | Oci reference immutable_id base payload_id => EngineOci reference immutable_id base payload_id
  | Native kind platform payload_id source_revision =>
    EngineNative (native_kind_name kind) (operating_system_name (operating_system platform))
      (architecture_name (architecture platform)) payload_id source_revision
  end.

Definition runtime_identity_record (runtime : RuntimeIdentity) : RuntimeIdentityDatabaseRecord :=
  {| rr_candidate_id := ri_candidate_id runtime; rr_version := ri_version runtime;
     rr_target_id := ri_target_id runtime; rr_source := ri_source runtime;
     rr_engine := engine_record (ri_engine_distribution runtime);
     rr_runtime_digest := ri_runtime_digest runtime;
     rr_manifest_digest := ri_manifest_digest runtime;
     rr_execution_contract_digest := ri_execution_contract_digest runtime |}.

Definition capacity_record (capacity : PlacementGroupCapacity) : CapacityDatabaseRecord :=
  let interconnect := gc_interconnect capacity in
  {| cr_max_connections := gc_max_connections capacity;
     cr_max_active_requests := gc_max_active_requests capacity;
     cr_max_context_tokens := gc_max_context_tokens capacity;
     cr_interconnect := {| nr_kind := interconnect_kind_name (ir_kind interconnect);
                           nr_rdma_required := ir_rdma_required interconnect;
                           nr_minimum_speed_mbps := ir_minimum_speed_mbps interconnect;
                           nr_minimum_mtu := ir_minimum_mtu interconnect |} |}.

Definition endpoint_record (endpoint : PlacementEndpoint) : EndpointDatabaseRecord :=
  let health := pe_health endpoint in
  {| er_placement_id := pe_placement_id endpoint; er_node_id := pe_node_id endpoint;
     er_scheme := endpoint_scheme_name (endpoint_scheme (pe_address endpoint));
     er_host := endpoint_host (pe_address endpoint);
     er_port := endpoint_port (pe_address endpoint);
     er_credential_id := pe_credential_id endpoint;
     er_ca_credential_id := pe_ca_credential_id endpoint;
     er_token_count := (λ contract, {| tr_path := tc_path contract;
       tr_protocol := token_count_protocol_name (tc_protocol contract) |}) <$> pe_token_count endpoint;
     er_max_active_requests := pe_max_active_requests endpoint;
     er_max_context_tokens := pe_max_context_tokens endpoint;
     er_health := {| hr_healthy := eh_healthy health;
                     hr_memory_pressure := eh_memory_pressure health;
                     hr_temperature_millicelsius := eh_temperature_millicelsius health;
                     hr_prefix_keys := eh_prefix_keys health |} |}.

Definition placement_group_record (group : PlacementGroup) : PlacementGroupDatabaseRecord :=
  {| gr_service_id := pg_service_id group;
     gr_runtime := runtime_identity_record (pg_runtime group);
     gr_placement_ids := pg_placement_ids group;
     gr_endpoint_placement_id := pg_endpoint_placement_id group;
     gr_endpoint := endpoint_record <$> pg_endpoint group;
     gr_capacity := capacity_record (pg_capacity group);
     gr_desired_state := desired_state_name (pg_desired_state group);
     gr_state := group_state_name (pg_state group);
     gr_failure := failure_record <$> pg_last_failure group;
     gr_created_at := created_at (pg_timestamps group);
     gr_updated_at := updated_at (pg_timestamps group) |}.

Definition placement_entry_record (placement : Placement) : PlacementDatabaseEntry :=
  let assignment := pl_assignment placement in
  let resources := pa_resources assignment in
  {| pd_placement_id := pl_placement_id placement;
     pd_assignment :=
       {| ar_node_id := pa_node_id assignment;
          ar_runtime_installation_id := pa_runtime_installation_id assignment;
          ar_hardware_observation_id := pa_hardware_observation_id assignment;
          ar_hardware_boot_id := pa_hardware_boot_id assignment;
          ar_hardware_observed_at := pa_hardware_observed_at assignment;
          ar_task_id := pa_task_id assignment; ar_address := pa_address assignment;
          ar_resources := {| sr_port_base := port_base (pr_ports resources);
                             sr_port_count := port_count (pr_ports resources);
                             sr_device_ids := pr_device_ids resources;
                             sr_rdma_interface := pr_rdma_interface resources |};
          ar_endpoint_ownership := endpoint_ownership_name (pa_endpoint_ownership assignment) |};
     pd_state := placement_state_name (pl_state placement);
     pd_active_operation_id := pl_active_operation_id placement;
     pd_failure := failure_record <$> pl_last_failure placement;
     pd_created_at := created_at (pl_timestamps placement);
     pd_updated_at := updated_at (pl_timestamps placement) |}.

Definition resource_record (resource : ResourceIdentity) : ResourceDatabaseRecord :=
  match resource with
  | Accelerator device_id => AcceleratorRow device_id
  | Port port => PortRow port
  | RdmaInterface interface => RdmaInterfaceRow interface
  end.

Definition resource_lease_record (lease : ResourceLease) : ResourceLeaseDatabaseRecord :=
  {| lr_lease_id := rl_lease_id lease; lr_placement_id := rl_placement_id lease;
     lr_node_id := rl_node_id lease; lr_resource := resource_record (rl_resource lease);
     lr_state := lease_state_name (rl_state lease);
     lr_created_at := created_at (rl_timestamps lease);
     lr_updated_at := updated_at (rl_timestamps lease) |}.

Definition placement_database_record (record : PlacementRecord) : PlacementAggregateDatabaseRecord :=
  {| ag_placement_group_id := pg_placement_group_id (rec_group record);
     ag_group := placement_group_record (rec_group record);
     ag_placements := placement_entry_record <$> rec_placements record;
     ag_leases := resource_lease_record <$> rec_leases record;
     ag_startup_order := rec_startup_order record;
     ag_launch_plan_identities :=
       (λ plan, {| lp_placement_id := plan.1; lp_digest := plan.2 |})
         <$> rec_launch_plan_identities record |}.

(** ** Reconstruction *)

(** [map_err(|_| StoreUnavailable)] *)
Definition stored {A} (r : result InterfaceError A) : result PlacementError A :=
  match r with Ok a => Ok a | Err _ => Err StoreUnavailable end.
(** [option.map(parse).transpose()] *)
Definition transposed {A B} (parse : A → result PlacementError B) (o : option A)
  : result PlacementError (option B) :=
  match o with
  | None => Ok None
  | Some a => let? b := parse a in Ok (Some b)
  end.

Definition row_failure (record : FailureDatabaseRecord) : result PlacementError FailureDescription :=
  let? code := stored (TechnicalName_parse (fr_code record)) in
  stored (FailureDescription_new code (fr_message record)).

Definition row_timestamps (created_at updated_at : Z) : result PlacementError EntityTimestamps :=
  stored (EntityTimestamps_new created_at updated_at).

Definition engine_distribution (record : EngineDatabaseRecord)
  : result PlacementError EngineDistribution :=
  match record with
  | EngineOci reference immutable_id base payload_id =>
    let? reference := stored (RuntimeSource_parse reference) in
    let? immutable_id := stored (Sha256Digest_parse immutable_id) in
    let? base := transposed (λ v, stored (RuntimeSource_parse v)) base in
    let? payload_id := transposed (λ v, stored (Sha256Digest_parse v)) payload_id in
    Ok (Oci reference immutable_id base payload_id)
  | EngineNative kind operating_system architecture payload_id source_revision =>
    let? kind := native_kind kind in
    let? operating_system := operating_system_value operating_system in
    let? architecture := architecture_value architecture in
    let? payload_id := stored (Sha256Digest_parse payload_id) in
    let? source_revision := stored (ArtifactRevision_parse source_revision) in
    Ok (Native kind {| operating_system := operating_system; architecture := architecture |}
          payload_id source_revision)
  end.

Definition runtime_identity (record : RuntimeIdentityDatabaseRecord)
  : result PlacementError RuntimeIdentity :=
  let? candidate_id := stored (RuntimeCandidateId_parse (rr_candidate_id record)) in
  let? version := stored (RuntimeVersion_parse (rr_version record)) in
  let? target_id := stored (TargetId_parse (rr_target_id record)) in
  let? source := stored (RuntimeSource_parse (rr_source record)) in
  let? engine := engine_distribution (rr_engine record) in
  let? runtime_digest := stored (Sha256Digest_parse (rr_runtime_digest record)) in
  let? manifest_digest := stored (Sha256Digest_parse (rr_manifest_digest record)) in
  let? contract_digest := stored (Sha256Digest_parse (rr_execution_contract_digest record)) in
  stored (RuntimeIdentity_new candidate_id version target_id source engine runtime_digest
            manifest_digest contract_digest).

Definition token_count (record : TokenCountDatabaseRecord)
  : result PlacementError TokenCountContract :=
  let? protocol := token_count_protocol (tr_protocol record) in
  stored (TokenCountContract_new (tr_path record) protocol).

Definition row_endpoint (record : EndpointDatabaseRecord) : result PlacementError PlacementEndpoint :=
  let health := er_health record in
  let? placement_id := stored (PlacementId_parse (er_placement_id record)) in
  let? node_id := stored (NodeId_parse (er_node_id record)) in
  let? scheme := parse_endpoint_scheme (er_scheme record) in
  let? host := stored (NodeAddress_parse (er_host record)) in
  let? address := stored (EndpointAddress_new scheme host (er_port record)) in
  let? credential_id := stored (CredentialId_parse (er_credential_id record)) in
  let? ca_credential_id :=
    transposed (λ v, stored (CredentialId_parse v)) (er_ca_credential_id record) in
  let? contract := transposed token_count (er_token_count record) in
  let? prefix_keys := mapM_result (λ v, stored (TechnicalName_parse v)) (hr_prefix_keys health) in
  let? health := stored (EndpointHealth_new (hr_healthy health) (hr_memory_pressure health)
                           (hr_temperature_millicelsius health) prefix_keys) in
  stored (PlacementEndpoint_new placement_id node_id address credential_id ca_credential_id contract
            (er_max_active_requests record) (er_max_context_tokens record) health).

Definition row_capacity (record : CapacityDatabaseRecord)
  : result PlacementError PlacementGroupCapacity :=
  let interconnect := cr_interconnect record in
  let? kind := interconnect_kind (nr_kind interconnect) in
  stored (PlacementGroupCapacity_new (cr_max_connections record) (cr_max_active_requests record)
            (cr_max_context_tokens record)
            {| ir_kind := kind; ir_rdma_required := nr_rdma_required interconnect;
               ir_minimum_speed_mbps := nr_minimum_speed_mbps interconnect;
               ir_minimum_mtu := nr_minimum_mtu interconnect |}).

Definition placement_group (placement_group_id : string) (record : PlacementGroupDatabaseRecord)
  : result PlacementError PlacementGroup :=
  let? service_id := stored (ModelServiceId_parse (gr_service_id record)) in
  let? runtime := runtime_identity (gr_runtime record) in
  let? placement_ids := mapM_result (λ v, stored (PlacementId_parse v)) (gr_placement_ids record) in
  let? endpoint_placement_id := stored (PlacementId_parse (gr_endpoint_placement_id record)) in
  let? endpoint := transposed row_endpoint (gr_endpoint record) in
  let? capacity := row_capacity (gr_capacity record) in
  let? desired := desired_state (gr_desired_state record) in
  let? state := group_state (gr_state record) in
  let? last_failure := transposed row_failure (gr_failure record) in
  let? timestamps := row_timestamps (gr_created_at record) (gr_updated_at record) in
  stored (PlacementGroup_new placement_group_id service_id runtime placement_ids
            endpoint_placement_id endpoint capacity desired state last_failure timestamps).

Definition row_placement (placement_group_id : string) (record : PlacementDatabaseEntry)
  : result PlacementError Placement :=
  let assignment := pd_assignment record in
  let resources := ar_resources assignment in
  let? placement_id := stored (PlacementId_parse (pd_placement_id record)) in
  let? node_id := stored (NodeId_parse (ar_node_id assignment)) in
  let? installation_id :=
    stored (RuntimeInstallationId_parse (ar_runtime_installation_id assignment)) in
  let? observation_id :=
    stored (HardwareObservationId_parse (ar_hardware_observation_id assignment)) in
  let? boot_id := stored (BootId_parse (ar_hardware_boot_id assignment)) in
  let? task_id := stored (TaskId_parse (ar_task_id assignment)) in
  let? address := stored (NodeAddress_parse (ar_address assignment)) in
  let? ports := stored (PortRange_new (sr_port_base resources) (sr_port_count resources)) in
  let? device_ids := mapM_result (λ v, stored (DeviceId_parse v)) (sr_device_ids resources) in
  let? rdma := transposed (λ v, stored (NetworkInterfaceName_parse v)) (sr_rdma_interface resources) in
  let? resources := stored (PlacementResources_new ports device_ids rdma) in
  let? ownership := endpoint_ownership (ar_endpoint_ownership assignment) in
  let? state := placement_state (pd_state record) in
  let? operation_id := transposed (λ v, stored (OperationId_parse v)) (pd_active_operation_id record) in
  let? last_failure := transposed row_failure (pd_failure record) in
  let? timestamps := row_timestamps (pd_created_at record) (pd_updated_at record) in
  stored (Placement_new placement_id placement_group_id
    {| pa_node_id := node_id; pa_runtime_installation_id := installation_id;
       pa_hardware_observation_id := observation_id; pa_hardware_boot_id := boot_id;
       pa_hardware_observed_at := ar_hardware_observed_at assignment; pa_task_id := task_id;
       pa_address := address; pa_resources := resources; pa_endpoint_ownership := ownership |}
    state operation_id last_failure timestamps).

Definition row_resource (record : ResourceDatabaseRecord) : result PlacementError ResourceIdentity :=
  match record with
  | AcceleratorRow device_id => let? d := stored (DeviceId_parse device_id) in Ok (Accelerator d)
  | PortRow port => let? p := stored (NetworkPort_new port) in Ok (Port p)
  | RdmaInterfaceRow interface =>
    let? i := stored (NetworkInterfaceName_parse interface) in Ok (RdmaInterface i)
  end.

Definition resource_lease (record : ResourceLeaseDatabaseRecord) : result PlacementError ResourceLease :=
  let? lease_id := stored (ResourceLeaseId_parse (lr_lease_id record)) in
  let? placement_id := stored (PlacementId_parse (lr_placement_id record)) in
  let? node_id := stored (NodeId_parse (lr_node_id record)) in
  let? resource := row_resource (lr_resource record) in
  let? state := lease_state (lr_state record) in
  let? timestamps := row_timestamps (lr_created_at record) (lr_updated_at record) in
  Ok {| rl_lease_id := lease_id; rl_placement_id := placement_id; rl_node_id := node_id;
        rl_resource := resource; rl_state := state; rl_timestamps := timestamps |}.

Definition row_plan (record : LaunchPlanIdentityDatabaseRecord)
  : result PlacementError (string * string) :=
  let? placement_id := stored (PlacementId_parse (lp_placement_id record)) in
  let? digest := stored (Sha256Digest_parse (lp_digest record)) in
  Ok (placement_id, digest).

Definition placement_record (record : PlacementAggregateDatabaseRecord)
  : result PlacementError PlacementRecord :=
  let? group_id := stored (PlacementGroupId_parse (ag_placement_group_id record)) in
  let? group := placement_group group_id (ag_group record) in
  let? placements := mapM_result (row_placement group_id) (ag_placements record) in
  let? leases := mapM_result resource_lease (ag_leases record) in
  let? startup_order :=
    mapM_result (mapM_result (λ v, stored (PlacementId_parse v))) (ag_startup_order record) in
  let? plans := mapM_result row_plan (ag_launch_plan_identities record) in
  match PlacementRecord_new group placements leases startup_order plans with
  | Ok record => Ok record
  | Err _ => Err StoreUnavailable
  end.
