(* ===== verification/PlacementRoundTrip.v ===== *)
(** * Placement aggregates survive the database

    Reconstruction of a stored aggregate is the inverse of its projection, exactly
    on the aggregates whose values come from their constructors. *)

From Stdlib Require Import String.
From S2P Require Import Prelude Values Placement PlacementContract PlacementAllocator.
From S2P Require Import PlacementOwnership PlacementRows.

(** ** Codecs

    [Codec parse typed project]: parsing accepts exactly the projections of typed
    values and gives the value back. *)

Class Codec {R A} (parse : R → result PlacementError A) (typed : A → Prop) (project : A → R)
  : Prop := codec : ∀ r a, parse r = Ok a ↔ typed a ∧ r = project a.

Lemma codec_project `{!Codec (R := R) (A := A) parse typed project} a :
  typed a → parse (project a) = Ok a.
Proof. intros Ht. by apply codec. Qed.

Lemma stored_Ok {A} (r : result InterfaceError A) a : stored r = Ok a ↔ r = Ok a.
Proof. destruct r; naive_solver. Qed.

(** A parser of text accepts a value as it is. *)
Class Parser (parse : string → result InterfaceError string) : Prop :=
  parser_same : ∀ s t, parse s = Ok t → t = s.
Definition parsed (parse : string → result InterfaceError string) (s : string) : Prop :=
  parse s = Ok s.

#[export] Instance codec_text `{!Parser parse} : Codec (λ s, stored (parse s)) (parsed parse) id.
Proof.
  intros r a. rewrite stored_Ok. unfold parsed, id. split.
  - intros H. pose proof (parser_same _ _ H) as ->. done.
  - by intros [? ->].
Qed.

#[export] Instance codec_option `{!Codec (R := R) (A := A) parse typed project} :
  Codec (transposed parse) (from_option typed True) (fmap project).
Proof.
  intros [r|] [a|]; simpl; (split; [|by intros [? ?]; simplify_eq]) || split.
  - by intros (b & [Ht ->]%codec & [= <-])%result_bind_Ok.
  - intros [Ht [= ->]]. by rewrite (codec_project a Ht).
  - by intros (b & _ & [=])%result_bind_Ok.
  - by intros [=].
  - done.
Qed.

#[export] Instance codec_list `{!Codec (R := R) (A := A) parse typed project} :
  Codec (mapM_result parse) (Forall typed) (fmap project).
Proof.
  intros l. induction l as [|r l IH]; intros l'; simpl.
  { split; [by intros [= <-]|]. intros [_ H]. symmetry in H. by apply fmap_nil_inv in H as ->. }
  split.
  - intros (a & [Ha ->]%codec & H)%result_bind_Ok. apply result_bind_Ok in H as (as_ & [Has ->]%IH & [= <-]).
    split; [by constructor|done].
  - intros [Ht H]. symmetry in H. apply fmap_cons_inv in H as (a & as_ & -> & -> & ->).
    inversion Ht as [|? ? Ha Has]; subst.
    rewrite (codec_project a Ha). simpl. by rewrite (proj2 (IH as_)).
Qed.

(** ** Parsers *)

Lemma validate_same ok subject reason s t : validate ok subject reason s = Ok t → t = s.
Proof. unfold validate. destruct ok; naive_solver. Qed.

#[export] Instance parser_identity subject : Parser (λ s, IdentityValue_parse s subject).
Proof. intros s t. apply validate_same. Qed.
#[export] Instance parser_node : Parser NodeId_parse := parser_identity _.
#[export] Instance parser_group : Parser PlacementGroupId_parse := parser_identity _.
#[export] Instance parser_placement : Parser PlacementId_parse := parser_identity _.
#[export] Instance parser_lease : Parser ResourceLeaseId_parse := parser_identity _.
#[export] Instance parser_service : Parser ModelServiceId_parse := parser_identity _.
#[export] Instance parser_installation : Parser RuntimeInstallationId_parse := parser_identity _.
#[export] Instance parser_observation : Parser HardwareObservationId_parse := parser_identity _.
#[export] Instance parser_operation : Parser OperationId_parse := parser_identity _.
#[export] Instance parser_credential : Parser CredentialId_parse := parser_identity _.
#[export] Instance parser_name : Parser TechnicalName_parse.
Proof. intros s t. apply validate_same. Qed.
#[export] Instance parser_target : Parser TargetId_parse := parser_name.
#[export] Instance parser_digest : Parser Sha256Digest_parse.
Proof. intros s t. apply validate_same. Qed.
#[export] Instance parser_source : Parser RuntimeSource_parse.
Proof. intros s t. apply validate_same. Qed.
#[export] Instance parser_revision : Parser ArtifactRevision_parse.
Proof. intros s t. apply validate_same. Qed.
#[export] Instance parser_task : Parser TaskId_parse.
Proof. intros s t. apply validate_same. Qed.
#[export] Instance parser_device : Parser DeviceId_parse.
Proof. intros s t. apply validate_same. Qed.
#[export] Instance parser_address : Parser NodeAddress_parse.
Proof. intros s t. apply validate_same. Qed.
#[export] Instance parser_boot : Parser BootId_parse.
Proof. intros s t. apply validate_same. Qed.
#[export] Instance parser_version : Parser RuntimeVersion_parse.
Proof. intros s t. unfold RuntimeVersion_parse, validate. intros H. repeat case_match; by simplify_eq. Qed.
#[export] Instance parser_interface : Parser NetworkInterfaceName_parse.
Proof. intros s t. unfold NetworkInterfaceName_parse, validate. intros H. repeat case_match; by simplify_eq. Qed.
#[export] Instance parser_candidate : Parser RuntimeCandidateId_parse.
Proof. intros s t. unfold RuntimeCandidateId_parse. cbv zeta. repeat case_match; naive_solver. Qed.

(** ** Closed values *)

Definition any {A} (_ : A) : Prop := True.

Lemma named_codec {A} (table : list (string * A)) (name : A → string) :
  (∀ a, named table (name a) = Ok a) → Forall (λ entry, name entry.2 = entry.1) table →
  Codec (named table) any name.
Proof.
  intros Hname Htable r a. split; [|intros [_ ->]; apply Hname].
  unfold named. intros H%ok_or_Ok. split; [done|].
  apply fmap_Some in H as ([s b] & Hf & ->). apply List.find_some in Hf as [Hin Hs%bool_decide_eq_true].
  simpl in *. subst s. rewrite Forall_forall in Htable.
  symmetry. apply (Htable (r, b)). by apply list_elem_of_In.
Qed.

#[local] Ltac closed := apply named_codec; [by intros []|by repeat constructor].
#[export] Instance codec_desired : Codec desired_state any desired_state_name.
Proof. closed. Qed.
#[export] Instance codec_group_state : Codec group_state any group_state_name.
Proof. closed. Qed.
#[export] Instance codec_ownership : Codec endpoint_ownership any endpoint_ownership_name.
Proof. closed. Qed.
#[export] Instance codec_state : Codec placement_state any placement_state_name.
Proof. closed. Qed.
#[export] Instance codec_lease_state : Codec lease_state any lease_state_name.
Proof. closed. Qed.
#[export] Instance codec_scheme : Codec parse_endpoint_scheme any endpoint_scheme_name.
Proof. closed. Qed.
#[export] Instance codec_protocol : Codec token_count_protocol any token_count_protocol_name.
Proof. closed. Qed.
#[export] Instance codec_interconnect : Codec interconnect_kind any interconnect_kind_name.
Proof. closed. Qed.
#[export] Instance codec_native : Codec native_kind any native_kind_name.
Proof. closed. Qed.
#[export] Instance codec_system : Codec operating_system_value any operating_system_name.
Proof. closed. Qed.
#[export] Instance codec_architecture : Codec architecture_value any architecture_name.
Proof. closed. Qed.

(** ** Texts, alone, optional and in lists *)

Lemma text_Ok `{!Parser parse} s t : stored (parse s) = Ok t ↔ parsed parse t ∧ s = t.
Proof. apply (codec (Codec := codec_text)). Qed.
Lemma optional_text_Ok `{!Parser parse} o o' :
  transposed (λ s, stored (parse s)) o = Ok o' ↔ from_option (parsed parse) True o' ∧ o = o'.
Proof.
  rewrite (codec (Codec := codec_option (parse := λ s, stored (parse s)))).
  by rewrite option_fmap_id.
Qed.
Lemma texts_Ok `{!Parser parse} l l' :
  mapM_result (λ s, stored (parse s)) l = Ok l' ↔ Forall (parsed parse) l' ∧ l = l'.
Proof. rewrite (codec (Codec := codec_list (parse := λ s, stored (parse s)))). by rewrite list_fmap_id. Qed.
Lemma phases_Ok `{!Parser parse} l l' :
  mapM_result (mapM_result (λ s, stored (parse s))) l = Ok l' ↔ Forall (Forall (parsed parse)) l' ∧ l = l'.
Proof.
  rewrite (codec (Codec := codec_list (parse := mapM_result (λ s, stored (parse s))))).
  by rewrite (list_fmap_ext _ id), list_fmap_id by (intros; apply list_fmap_id).
Qed.

Definition timestamps_typed (t : EntityTimestamps) : Prop :=
  EntityTimestamps_new (created_at t) (updated_at t) = Ok t.
Lemma row_timestamps_Ok c u t :
  row_timestamps c u = Ok t ↔ timestamps_typed t ∧ c = created_at t ∧ u = updated_at t.
Proof.
  unfold row_timestamps, timestamps_typed. rewrite stored_Ok. split.
  - intros H. assert (t = {| created_at := c; updated_at := u |}) as ->
      by (unfold EntityTimestamps_new in H; by case_match; simplify_eq). done.
  - by intros (? & -> & ->).
Qed.

(** Read the steps of a successful reconstruction. *)
#[local] Ltac inv_codec H :=
  repeat match type of H with
  | result_bind _ _ = Ok _ =>
    let x := fresh "x" in let Hx := fresh "Hx" in
    apply result_bind_Ok in H as (x & Hx & H);
    first [ apply text_Ok in Hx as [? Hx] | apply optional_text_Ok in Hx as [? Hx]
          | apply texts_Ok in Hx as [? Hx] | apply phases_Ok in Hx as [? Hx]
          | apply row_timestamps_Ok in Hx as (? & ? & Hx)
          | apply codec in Hx as [? Hx] | apply stored_Ok in Hx ]
  end.

(** Run the steps on typed values. *)
#[local] Ltac run_codec :=
  repeat first
    [ rewrite (proj2 (text_Ok _ _)) by (split; [eassumption|reflexivity]); cbn [result_bind]
    | rewrite (proj2 (optional_text_Ok _ _)) by (split; [eassumption|reflexivity]); cbn [result_bind]
    | rewrite (proj2 (texts_Ok _ _)) by (split; [eassumption|reflexivity]); cbn [result_bind]
    | rewrite (proj2 (phases_Ok _ _)) by (split; [eassumption|reflexivity]); cbn [result_bind]
    | rewrite (proj2 (row_timestamps_Ok _ _ _)) by (split_and!; [eassumption|reflexivity..]);
      cbn [result_bind]
    | rewrite codec_project by (first [eassumption|exact I]); cbn [result_bind]
    | rewrite (proj2 (stored_Ok _ _)) by eassumption; cbn [result_bind] ].

(** ** Components *)

Definition failure_typed (f : FailureDescription) : Prop :=
  parsed TechnicalName_parse (failure_code f) ∧
  FailureDescription_new (failure_code f) (failure_message f) = Ok f.
#[export] Instance codec_failure : Codec row_failure failure_typed failure_record.
Proof.
  intros [code message] f. unfold row_failure, failure_typed, failure_record. simpl. split.
  - intros H. inv_codec H. apply stored_Ok in H. simplify_eq.
    assert (f = {| failure_code := x; failure_message := message |}) as ->
      by (unfold FailureDescription_new in H; by case_match; simplify_eq).
    done.
  - intros [[Hc Hf] [= -> ->]]. by run_codec.
Qed.


Definition engine_typed (engine : EngineDistribution) : Prop :=
  match engine with
  | Oci reference immutable_id base payload_id =>
    parsed RuntimeSource_parse reference ∧ parsed Sha256Digest_parse immutable_id ∧
    from_option (parsed RuntimeSource_parse) True base ∧
    from_option (parsed Sha256Digest_parse) True payload_id
  | Native _ _ payload_id source_revision =>
    parsed Sha256Digest_parse payload_id ∧ parsed ArtifactRevision_parse source_revision
  end.
#[export] Instance codec_engine : Codec engine_distribution engine_typed engine_record.
Proof.
  intros [reference id base payload|kind os arch payload revision] e; unfold engine_distribution; split.
  - intros H. inv_codec H. by simplify_eq.
  - destruct e as [r i b p|]; intros [Ht [=]]; subst. destruct Ht as (? & ? & ? & ?). by run_codec.
  - intros H. inv_codec H. by simplify_eq.
  - destruct e as [|k [o a] p r]; intros [Ht [=]]; subst. destruct Ht as [? ?]. by run_codec.
Qed.

Definition runtime_typed (r : RuntimeIdentity) : Prop :=
  parsed RuntimeCandidateId_parse (ri_candidate_id r) ∧ parsed RuntimeVersion_parse (ri_version r) ∧
  parsed TargetId_parse (ri_target_id r) ∧ parsed RuntimeSource_parse (ri_source r) ∧
  engine_typed (ri_engine_distribution r) ∧ parsed Sha256Digest_parse (ri_runtime_digest r) ∧
  parsed Sha256Digest_parse (ri_manifest_digest r) ∧
  parsed Sha256Digest_parse (ri_execution_contract_digest r) ∧
  RuntimeIdentity_new (ri_candidate_id r) (ri_version r) (ri_target_id r) (ri_source r)
    (ri_engine_distribution r) (ri_runtime_digest r) (ri_manifest_digest r)
    (ri_execution_contract_digest r) = Ok r.
#[export] Instance codec_runtime : Codec runtime_identity runtime_typed runtime_identity_record.
Proof.
  intros d r. unfold runtime_identity, runtime_typed. split.
  - intros H. inv_codec H. apply stored_Ok in H. destruct d. simpl in *. subst.
    assert (Hr := H). unfold RuntimeIdentity_new in Hr.
    repeat case_match; simplify_eq; simpl; split_and!; done.
  - intros [(? & ? & ? & ? & ? & ? & ? & ? & ?) ->]. simpl. by run_codec.
Qed.

Definition token_count_typed (t : TokenCountContract) : Prop :=
  TokenCountContract_new (tc_path t) (tc_protocol t) = Ok t.
Definition token_count_record (t : TokenCountContract) : TokenCountDatabaseRecord :=
  {| tr_path := tc_path t; tr_protocol := token_count_protocol_name (tc_protocol t) |}.
#[export] Instance codec_token_count : Codec token_count token_count_typed token_count_record.
Proof.
  intros [path protocol] t. unfold token_count, token_count_typed, token_count_record. simpl. split.
  - intros H. inv_codec H. apply stored_Ok in H. subst protocol. assert (Hr := H).
    unfold TokenCountContract_new in Hr. case_match; simplify_eq. done.
  - intros [? [= -> ->]]. by run_codec.
Qed.

Definition capacity_typed (c : PlacementGroupCapacity) : Prop :=
  PlacementGroupCapacity_new (gc_max_connections c) (gc_max_active_requests c)
    (gc_max_context_tokens c) (gc_interconnect c) = Ok c.
#[export] Instance codec_capacity : Codec row_capacity capacity_typed capacity_record.
Proof.
  intros [mc ma mt [kind rdma speed mtu]] c. unfold row_capacity, capacity_typed, capacity_record.
  simpl. split.
  - intros H. inv_codec H. apply stored_Ok in H. subst kind. assert (Hr := H).
    unfold PlacementGroupCapacity_new in Hr. case_match; simplify_eq. done.
  - intros [? [=]]. subst. run_codec. destruct c as [? ? ? []]. simpl in *. by run_codec.
Qed.

Definition health_typed (h : EndpointHealth) : Prop :=
  Forall (parsed TechnicalName_parse) (eh_prefix_keys h) ∧
  EndpointHealth_new (eh_healthy h) (eh_memory_pressure h) (eh_temperature_millicelsius h)
    (eh_prefix_keys h) = Ok h.

Lemma EndpointHealth_new_Ok a b t l h :
  EndpointHealth_new a b t l = Ok h →
  h = {| eh_healthy := a; eh_memory_pressure := b; eh_temperature_millicelsius := t; eh_prefix_keys := l |}.
Proof. unfold EndpointHealth_new. intros H. repeat case_match; by simplify_eq. Qed.

Definition endpoint_typed (e : PlacementEndpoint) : Prop :=
  parsed PlacementId_parse (pe_placement_id e) ∧ parsed NodeId_parse (pe_node_id e) ∧
  parsed NodeAddress_parse (endpoint_host (pe_address e)) ∧
  EndpointAddress_new (endpoint_scheme (pe_address e)) (endpoint_host (pe_address e))
    (endpoint_port (pe_address e)) = Ok (pe_address e) ∧
  parsed CredentialId_parse (pe_credential_id e) ∧
  from_option (parsed CredentialId_parse) True (pe_ca_credential_id e) ∧
  from_option token_count_typed True (pe_token_count e) ∧ health_typed (pe_health e) ∧
  PlacementEndpoint_new (pe_placement_id e) (pe_node_id e) (pe_address e) (pe_credential_id e)
    (pe_ca_credential_id e) (pe_token_count e) (pe_max_active_requests e) (pe_max_context_tokens e)
    (pe_health e) = Ok e.
#[export] Instance codec_endpoint : Codec row_endpoint endpoint_typed endpoint_record.
Proof.
  intros d e. unfold row_endpoint, endpoint_typed. cbv zeta. split.
  - intros H. inv_codec H. apply stored_Ok in H. destruct d as [? ? ? ? ? ? ? ? ? ? []]. simpl in *. subst.
    match goal with Ha : EndpointAddress_new _ _ _ = Ok ?a |- _ => assert (Had := Ha);
      unfold EndpointAddress_new in Had; case_match; simplify_eq end.
    match goal with Hh : EndpointHealth_new _ _ _ _ = Ok ?h |- _ =>
      pose proof (EndpointHealth_new_Ok _ _ _ _ _ Hh); subst h end.
    assert (He := H). unfold PlacementEndpoint_new in He. case_match; simplify_eq.
    unfold health_typed. simpl. by split_and!.
  - intros [(? & ? & ? & ? & ? & ? & ? & [? ?] & ?) ->].
    unfold endpoint_record. cbn -[parse_endpoint_scheme].
    change (λ contract, {| tr_path := tc_path contract; tr_protocol := _ |}) with token_count_record.
    by run_codec.
Qed.

Definition group_typed (g : PlacementGroup) : Prop :=
  parsed ModelServiceId_parse (pg_service_id g) ∧ runtime_typed (pg_runtime g) ∧
  Forall (parsed PlacementId_parse) (pg_placement_ids g) ∧
  parsed PlacementId_parse (pg_endpoint_placement_id g) ∧
  from_option endpoint_typed True (pg_endpoint g) ∧ capacity_typed (pg_capacity g) ∧
  from_option failure_typed True (pg_last_failure g) ∧ timestamps_typed (pg_timestamps g) ∧
  PlacementGroup_new (pg_placement_group_id g) (pg_service_id g) (pg_runtime g)
    (pg_placement_ids g) (pg_endpoint_placement_id g) (pg_endpoint g) (pg_capacity g)
    (pg_desired_state g) (pg_state g) (pg_last_failure g) (pg_timestamps g) = Ok g.

Lemma PlacementGroup_new_Ok id service runtime ids owner endpoint capacity desired state f t g :
  PlacementGroup_new id service runtime ids owner endpoint capacity desired state f t = Ok g →
  g = {| pg_placement_group_id := id; pg_service_id := service; pg_runtime := runtime;
         pg_placement_ids := ids; pg_endpoint_placement_id := owner; pg_endpoint := endpoint;
         pg_capacity := capacity; pg_desired_state := desired; pg_state := state;
         pg_last_failure := f; pg_timestamps := t |}.
Proof. unfold PlacementGroup_new. intros H. repeat case_match; by simplify_eq. Qed.

Lemma placement_group_Ok id d g :
  placement_group id d = Ok g ↔
  pg_placement_group_id g = id ∧ group_typed g ∧ d = placement_group_record g.
Proof.
  unfold placement_group, group_typed. split.
  - intros H. inv_codec H. apply stored_Ok in H. destruct d. simpl in *. subst.
    pose proof (PlacementGroup_new_Ok _ _ _ _ _ _ _ _ _ _ _ _ H). subst g. by split_and!.
  - intros (<- & (? & ? & ? & ? & ? & ? & ? & ? & ?) & ->). simpl. by run_codec.
Qed.

Definition resources_typed (r : PlacementResources) : Prop :=
  PortRange_new (port_base (pr_ports r)) (port_count (pr_ports r)) = Ok (pr_ports r) ∧
  Forall (parsed DeviceId_parse) (pr_device_ids r) ∧
  from_option (parsed NetworkInterfaceName_parse) True (pr_rdma_interface r) ∧
  PlacementResources_new (pr_ports r) (pr_device_ids r) (pr_rdma_interface r) = Ok r.
Definition assignment_typed (a : PlacementAssignment) : Prop :=
  parsed NodeId_parse (pa_node_id a) ∧
  parsed RuntimeInstallationId_parse (pa_runtime_installation_id a) ∧
  parsed HardwareObservationId_parse (pa_hardware_observation_id a) ∧
  parsed BootId_parse (pa_hardware_boot_id a) ∧ parsed TaskId_parse (pa_task_id a) ∧
  parsed NodeAddress_parse (pa_address a) ∧ resources_typed (pa_resources a).
Definition placement_typed (p : Placement) : Prop :=
  parsed PlacementId_parse (pl_placement_id p) ∧ assignment_typed (pl_assignment p) ∧
  from_option (parsed OperationId_parse) True (pl_active_operation_id p) ∧
  from_option failure_typed True (pl_last_failure p) ∧ timestamps_typed (pl_timestamps p) ∧
  Placement_new (pl_placement_id p) (pl_placement_group_id p) (pl_assignment p) (pl_state p)
    (pl_active_operation_id p) (pl_last_failure p) (pl_timestamps p) = Ok p.

Lemma row_placement_Ok id d p :
  row_placement id d = Ok p ↔
  (placement_typed p ∧ pl_placement_group_id p = id) ∧ d = placement_entry_record p.
Proof.
  unfold row_placement, placement_typed, assignment_typed, resources_typed. cbv zeta. split.
  - intros H. inv_codec H. apply stored_Ok in H.
    destruct d as [? [? ? ? ? ? ? ? [] ?] ? ? ? ? ?]. simpl in *. subst.
    match goal with Ha : PortRange_new _ _ = Ok ?a |- _ => assert (Had := Ha);
      unfold PortRange_new in Had; case_match; simplify_eq end.
    match goal with Ha : PlacementResources_new _ _ _ = Ok ?a |- _ => assert (Hre := Ha);
      unfold PlacementResources_new in Hre; case_match; simplify_eq end.
    assert (Hp := H). unfold Placement_new in Hp. case_match; simplify_eq. simpl. by split_and!.
  - intros [[(? & (? & ? & ? & ? & ? & ? & (? & ? & ? & ?)) & ? & ? & ? & Hp) <-] ->].
    simpl. run_codec. apply stored_Ok. by destruct p as [? ? [] ? ? ? ?].
Qed.
#[export] Instance codec_placement id :
  Codec (row_placement id) (λ p, placement_typed p ∧ pl_placement_group_id p = id)
    placement_entry_record := row_placement_Ok id.

Definition resource_typed (r : ResourceIdentity) : Prop :=
  match r with
  | Accelerator d => parsed DeviceId_parse d
  | Port p => NetworkPort_new p = Ok p
  | RdmaInterface i => parsed NetworkInterfaceName_parse i
  end.
#[export] Instance codec_resource : Codec row_resource resource_typed resource_record.
Proof.
  intros d r. unfold row_resource. split.
  - intros H. destruct d; inv_codec H; simplify_eq; simpl; try done.
    match goal with Hp : NetworkPort_new _ = Ok ?p |- _ => assert (Had := Hp);
      unfold NetworkPort_new in Had; repeat case_match; simplify_eq; done end.
  - intros [Ht ->]. destruct r; simpl in *; by run_codec.
Qed.

Definition lease_typed (l : ResourceLease) : Prop :=
  parsed ResourceLeaseId_parse (rl_lease_id l) ∧ parsed PlacementId_parse (rl_placement_id l) ∧
  parsed NodeId_parse (rl_node_id l) ∧ resource_typed (rl_resource l) ∧
  timestamps_typed (rl_timestamps l).
#[export] Instance codec_lease : Codec resource_lease lease_typed resource_lease_record.
Proof.
  intros d l. unfold resource_lease, lease_typed. split.
  - intros H. inv_codec H. destruct d. simpl in *. subst. injection H as <-. by split_and!.
  - intros [(? & ? & ? & ? & ?) ->]. simpl. run_codec. by destruct l.
Qed.

Definition plan_typed (plan : string * string) : Prop :=
  parsed PlacementId_parse plan.1 ∧ parsed Sha256Digest_parse plan.2.
Definition plan_record (plan : string * string) : LaunchPlanIdentityDatabaseRecord :=
  {| lp_placement_id := plan.1; lp_digest := plan.2 |}.
#[export] Instance codec_plan : Codec row_plan plan_typed plan_record.
Proof.
  intros d [id digest]. unfold row_plan, plan_typed. simpl. split.
  - intros H. inv_codec H. destruct d. simpl in *. subst. by injection H as <- <-.
  - intros [[? ?] ->]. simpl. by run_codec.
Qed.

(** ** Aggregates *)

(** Every value of the aggregate comes from its constructor. *)
Definition record_typed (r : PlacementRecord) : Prop :=
  parsed PlacementGroupId_parse (pg_placement_group_id (rec_group r)) ∧ group_typed (rec_group r) ∧
  Forall placement_typed (rec_placements r) ∧ Forall lease_typed (rec_leases r) ∧
  Forall (Forall (parsed PlacementId_parse)) (rec_startup_order r) ∧
  Forall plan_typed (rec_launch_plan_identities r) ∧
  PlacementRecord_new (rec_group r) (rec_placements r) (rec_leases r) (rec_startup_order r)
    (rec_launch_plan_identities r) = Ok r.

Lemma record_new_group group ps ls order plans record p :
  PlacementRecord_new group ps ls order plans = Ok record → p ∈ ps →
  pl_placement_group_id p = pg_placement_group_id group.
Proof.
  intros [(Hm & _)%validate_record_Ok _]%PlacementRecord_new_Ok Hp.
  apply refuse_Ok, orb_false_iff in Hm as [_ Hm].
  pose proof (existsb_false _ _ p Hm Hp) as H. by apply negb_false_iff, bool_decide_eq_true in H.
Qed.

Lemma placement_record_codec d r :
  placement_record d = Ok r ↔ record_typed r ∧ d = placement_database_record r.
Proof.
  unfold placement_record, record_typed. split.
  - intros H. apply result_bind_Ok in H as (id & [Hid Hd]%text_Ok & H).
    apply result_bind_Ok in H as (group & (Hg & Hgt & Hgd)%placement_group_Ok & H).
    inv_codec H. destruct (PlacementRecord_new _ _ _ _ _) as [r'|] eqn:E; [|done]. injection H as ->.
    pose proof (PlacementRecord_new_Ok _ _ _ _ _ _ E) as [_ ->]. destruct d. simpl in *. subst.
    split_and!; try done. eapply Forall_impl; [eassumption|]. by intros p [? _].
  - intros [(? & ? & Hps & ? & ? & ? & Hr) ->]. simpl. run_codec.
    rewrite (proj2 (placement_group_Ok _ _ _)) by (split_and!; [reflexivity|eassumption|reflexivity]).
    cbn [result_bind].
    assert (Forall (λ p, placement_typed p ∧ pl_placement_group_id p = pg_placement_group_id (rec_group r))
              (rec_placements r)) as Hps'.
    { apply Forall_forall. intros p Hp. rewrite Forall_forall in Hps. split; [auto|].
      by eapply record_new_group. }
    change (λ plan, {| lp_placement_id := plan.1; lp_digest := plan.2 |}) with plan_record.
    run_codec. by rewrite Hr.
Qed.

(** C14: a stored placement aggregate is read back exactly.  Reconstruction
    accepts precisely the projections of aggregates whose every value comes from
    its constructor, and returns that aggregate; so projecting what was read gives
    the stored record again, and reading what was written gives the aggregate. *)
Theorem aggregate_rows_are_exact d r :
  placement_record d = Ok r ↔ record_typed r ∧ d = placement_database_record r.
Proof. apply placement_record_codec. Qed.
