(* ===== verification/PlacementDatabase.v ===== *)
(** * The placement store over the database

    [DatabasePlacementStore] of [core/node/src/li_placement_database.rs]: one
    record per placement aggregate and one global index of the resources in use,
    written together in one transaction under their two revisions.

    The store reads the index and then writes; between the two calls other
    clients of the database may commit.  [create_with] and [replace_with] are the
    parts after the read, so that a history can interleave them. *)

From Stdlib Require Import String.
From Stdlib Require Ascii.
From S2P Require Import Prelude Values Text Ordering Placement PlacementContract.
From S2P Require Import PlacementAllocator PlacementOwnership PlacementRows Database DatabaseStorage.
Import (notations) Stdlib.Strings.Ascii.

Definition RESOURCE_INDEX_IDENTIFIER : string := "li_placement_resource_index_v1".

Record ResourceIndexEntryDatabaseRecord := {
  ix_node_id : string;
  ix_resource : ResourceDatabaseRecord;
  ix_placement_group_id : string;
  ix_placement_id : string;
  ix_lease_id : string;
}.
Record ResourceIndexDatabaseRecord := {
  ix_identifier : string;
  ix_entries : list ResourceIndexEntryDatabaseRecord;
}.

(** [{port:05}] *)
Definition padded_port (port : Z) : string :=
  let digits := to_decimal port in
  (fix pad n := match n with O => digits | S n => String "0"%char (pad n) end)
    (5 - String.length digits)%nat.

Definition resource_index_key (entry : ResourceIndexEntryDatabaseRecord) : string :=
  let resource := match ix_resource entry with
                  | AcceleratorRow device_id => "accelerator:" +:+ device_id
                  | PortRow port => "port:" +:+ padded_port port
                  | RdmaInterfaceRow interface => "rdma:" +:+ interface
                  end in
  ix_node_id entry +:+ ":" +:+ resource.

(** The loop over the entries with the keys and lease identities seen so far. *)
Fixpoint validate_entries (entries : list ResourceIndexEntryDatabaseRecord)
    (resources leases : gset string) : result PlacementError () :=
  match entries with
  | [] => Ok ()
  | entry :: entries =>
    let? _ := stored (NodeId_parse (ix_node_id entry)) in
    let? _ := stored (PlacementGroupId_parse (ix_placement_group_id entry)) in
    let? _ := stored (PlacementId_parse (ix_placement_id entry)) in
    let? _ := stored (ResourceLeaseId_parse (ix_lease_id entry)) in
    let? _ := row_resource (ix_resource entry) in
    if bool_decide (resource_index_key entry ∈ resources) || bool_decide (ix_lease_id entry ∈ leases)
    then Err StoreUnavailable
    else validate_entries entries ({[resource_index_key entry]} ∪ resources)
           ({[ix_lease_id entry]} ∪ leases)
  end.

(** [windows(2).any(|w| key(w[0]) >= key(w[1]))] *)
Fixpoint out_of_order (entries : list ResourceIndexEntryDatabaseRecord) : bool :=
  match entries with
  | a :: (b :: _) as rest =>
    match String.compare (resource_index_key a) (resource_index_key b) with
    | Lt => false
    | _ => true
    end || out_of_order rest
  | _ => false
  end.

Definition validate_resource_index (index : ResourceIndexDatabaseRecord) : result PlacementError () :=
  if negb (bool_decide (ix_identifier index = RESOURCE_INDEX_IDENTIFIER)) then Err StoreUnavailable
  else
    let? _ := validate_entries (ix_entries index) ∅ ∅ in
    if out_of_order (ix_entries index) then Err StoreUnavailable else Ok ().

Definition index_entry (placement_group_id : string) (lease : ResourceLease)
  : ResourceIndexEntryDatabaseRecord :=
  {| ix_node_id := rl_node_id lease; ix_resource := resource_record (rl_resource lease);
     ix_placement_group_id := placement_group_id; ix_placement_id := rl_placement_id lease;
     ix_lease_id := rl_lease_id lease |}.

Definition same_resource (a b : ResourceIndexEntryDatabaseRecord) : bool :=
  bool_decide (ix_node_id a = ix_node_id b) && bool_decide (ix_resource a = ix_resource b).

Definition is_held (lease : ResourceLease) : bool :=
  negb (bool_decide (rl_state lease = LeaseReleased)).

(** The loop that adds the leases in use. *)
Fixpoint add_entries (placement_group_id : string) (leases : list ResourceLease)
    (entries : list ResourceIndexEntryDatabaseRecord)
  : result PlacementError (list ResourceIndexEntryDatabaseRecord) :=
  match leases with
  | [] => Ok entries
  | lease :: leases =>
    let entry := index_entry placement_group_id lease in
    if existsb (λ existing, same_resource existing entry) entries then Err ResourceConflict
    else add_entries placement_group_id leases (entries ++ [entry])
  end.

Definition resource_index_with_record (index : ResourceIndexDatabaseRecord) (record : PlacementRecord)
  : result PlacementError ResourceIndexDatabaseRecord :=
  let placement_group_id := pg_placement_group_id (rec_group record) in
  let entries := List.filter
    (λ entry, negb (bool_decide (ix_placement_group_id entry = placement_group_id)))
    (ix_entries index) in
  let? entries := add_entries placement_group_id
    (List.filter is_held (rec_leases record)) entries in
  let index :=
    {| ix_identifier := ix_identifier index;
       ix_entries := sort_by (λ a b, String.compare (resource_index_key a) (resource_index_key b))
                       entries |} in
  let? _ := validate_resource_index index in
  Ok index.

Definition placement_store_error (error : DatabaseError) : PlacementError :=
  match error with
  | DbConflict _ _ _ _ | DbIdempotencyConflict _ => StoreConflict
  | DbNotFound _ _ | DbInvalidInput _ _ | DbCorrupt _ | DbUnavailable _ | DbClosed => StoreUnavailable
  end.

Definition from_database {A} (r : result DatabaseError A) : result PlacementError A :=
  match r with Ok a => Ok a | Err e => Err (placement_store_error e) end.

Definition require_applied (disposition : DatabaseCommitDisposition) : result PlacementError () :=
  match disposition with Applied => Ok () | Replayed => Err StoreConflict end.

Definition aggregate_revision (commits : list DatabaseCommit) (placement_group_id : string)
  : result PlacementError Z :=
  match commits with
  | [first; second] =>
    if negb (bool_decide (dc_collection first = Placements))
       || negb (bool_decide (dc_identifier first = placement_group_id))
       || negb (bool_decide (dc_collection second = Configuration))
       || negb (bool_decide (dc_identifier second = RESOURCE_INDEX_IDENTIFIER))
    then Err StoreUnavailable else Ok (dc_revision first)
  | _ => Err StoreUnavailable
  end.

Section store.
Context {C : Type} `{!Sqlite C, !DatabaseClock C, !Sha256, !Json DatabaseCommit,
  !Json (list DatabaseCommit), !Json PlacementAggregateDatabaseRecord,
  !Json ResourceIndexDatabaseRecord}.
Abbreviation PS := (SE (DatabaseManager C) PlacementError).

#[export] Instance aggregate_database_record : DatabaseRecord PlacementAggregateDatabaseRecord := {|
  record_collection := Placements; record_version_of := 1;
  record_identifier := ag_placement_group_id |}.
#[export] Instance index_database_record : DatabaseRecord ResourceIndexDatabaseRecord := {|
  record_collection := Configuration; record_version_of := 1;
  record_identifier := ix_identifier |}.

(** The index and its revision; a missing one is empty. *)
Definition resource_index : PS (ResourceIndexDatabaseRecord * DatabaseRevision) := λ m,
  match database_read_record (R := ResourceIndexDatabaseRecord) RESOURCE_INDEX_IDENTIFIER m with
  | (Ok stored, m) =>
    (let? _ := validate_resource_index (sr_value stored) in
     Ok (sr_value stored, RevisionExact (sr_revision stored)), m)
  | (Err (DbNotFound _ _), m) =>
    (Ok ({| ix_identifier := RESOURCE_INDEX_IDENTIFIER; ix_entries := [] |}, RevisionMissing), m)
  | (Err e, m) => (Err (placement_store_error e), m)
  end.

Definition database_occupied_resources (node_id : string) : PS (list ResourceIdentity) :=
  do! (index, _) <- resource_index in
  se_lift (mapM_result (λ entry, row_resource (ix_resource entry))
             (List.filter (λ entry, bool_decide (ix_node_id entry = node_id)) (ix_entries index))).

(** One transaction for the aggregate and the index. *)
Definition commit_record (key : string) (record : PlacementRecord) (expected : DatabaseRevision)
    (index : ResourceIndexDatabaseRecord) (index_revision : DatabaseRevision)
  : PS VersionedPlacementRecord :=
  let placement_group_id := pg_placement_group_id (rec_group record) in
  do! tx <- se_lift (from_database (
    let? tx := DatabaseTransaction_new key in
    let? tx := tx_save (placement_database_record record) expected tx in
    tx_save index index_revision tx)) in
  do! (commits, disposition) <- (λ m,
    let '(r, m) := database_write_transaction tx m in (from_database r, m)) in
  run! se_lift (require_applied disposition) in
  do! revision <- se_lift (aggregate_revision commits placement_group_id) in
  se_ret {| vr_record := record; vr_revision := revision |}.

Definition create_with (record : PlacementRecord) (index : ResourceIndexDatabaseRecord)
    (index_revision : DatabaseRevision) : PS VersionedPlacementRecord :=
  do! index <- se_lift (resource_index_with_record index record) in
  commit_record ("placement:create:" +:+ pg_placement_group_id (rec_group record)) record
    RevisionMissing index index_revision.

Definition database_create (record : PlacementRecord) : PS VersionedPlacementRecord :=
  do! (index, index_revision) <- resource_index in
  create_with record index index_revision.

Definition replace_with (record : PlacementRecord) (expected_revision : Z)
    (index : ResourceIndexDatabaseRecord) (index_revision : DatabaseRevision)
  : PS VersionedPlacementRecord :=
  let placement_group_id := pg_placement_group_id (rec_group record) in
  if negb (existsb (λ entry, bool_decide (ix_placement_group_id entry = placement_group_id))
             (ix_entries index))
     && existsb is_held (rec_leases record)
  then se_fail StoreUnavailable
  else
    do! index <- se_lift (resource_index_with_record index record) in
    commit_record ("placement:replace:" +:+ placement_group_id +:+ ":" +:+ to_decimal expected_revision)
      record (RevisionExact expected_revision) index index_revision.

Definition database_replace (record : PlacementRecord) (expected_revision : Z)
  : PS VersionedPlacementRecord :=
  do! (index, index_revision) <- resource_index in
  replace_with record expected_revision index index_revision.

Definition database_read (placement_group_id : string) : PS (option VersionedPlacementRecord) := λ m,
  match database_read_record (R := PlacementAggregateDatabaseRecord) placement_group_id m with
  | (Ok stored, m) =>
    (let? record := placement_record (sr_value stored) in
     Ok (Some {| vr_record := record; vr_revision := sr_revision stored |}), m)
  | (Err (DbNotFound _ _), m) => (Ok None, m)
  | (Err e, m) => (Err (placement_store_error e), m)
  end.

Definition database_records : PS (list PlacementRecord) := λ m,
  match database_read_all (R := PlacementAggregateDatabaseRecord) m with
  | (Ok stored, m) => (mapM_result (λ s, placement_record (sr_value s)) stored, m)
  | (Err e, m) => (Err (placement_store_error e), m)
  end.

#[export] Instance database_placement_store : PlacementStore (DatabaseManager C) := {|
  occupied_resources := database_occupied_resources;
  store_create := database_create;
  store_read := database_read;
  store_replace := database_replace;
|}.

Lemma commit_record_returns key record expected index rev (m : DatabaseManager C) v m' :
  commit_record key record expected index rev m = (Ok v, m') → vr_record v = record.
Proof. unfold commit_record. intros Hc. inv_se Hc. by subst. Qed.

(** The store returns the record it was given. *)
#[export] Instance database_store_returns : PlacementStoreReturns (DatabaseManager C).
Proof.
  intros record rev m v m' Hc. simpl in Hc. unfold database_replace in Hc.
  apply se_bind_Ok in Hc as ([index irev] & m1 & _ & Hc). unfold replace_with in Hc.
  destruct (_ && _); [done|]. apply se_bind_Ok in Hc as (index' & m2 & _ & Hc).
  by eapply commit_record_returns.
Qed.
End store.
