(* ===== verification/PlacementExclusive.v ===== *)
(** * No resource is leased twice

    The composition of the placement store with the database: over every history
    of committed states, in which clients of the store write from indexes they
    read earlier and other writers commit in between, the global index holds
    exactly the leases in use and no two of them name the same resource. *)

From Stdlib Require Import String.
From S2P Require Import Prelude Values Text Ordering Placement PlacementContract.
From S2P Require Import PlacementAllocator PlacementOwnership PlacementRows PlacementRoundTrip PlacementDatabase.
From S2P Require Import Database DatabaseStorage DatabaseSafety DatabaseMemory DatabaseGuarantees.

(** ** The index *)

Lemma NoDup_fmap_same {A B} (f : A → B) l x y :
  NoDup (f <$> l) → x ∈ l → y ∈ l → f x = f y → x = y.
Proof.
  intros Hnd [i Hi]%list_elem_of_lookup [j Hj]%list_elem_of_lookup Hf.
  assert (i = j) as ->; [|by simplify_eq].
  apply (NoDup_lookup _ _ _ (f x) Hnd); rewrite list_lookup_fmap; [by rewrite Hi|by rewrite Hj, Hf].
Qed.

Lemma resource_record_inj r r' : resource_record r = resource_record r' → r = r'.
Proof. destruct r, r'; simpl; congruence. Qed.

Lemma validate_entries_NoDup entries resources leases u :
  validate_entries entries resources leases = Ok u →
  NoDup (resource_index_key <$> entries) ∧
  ∀ e, e ∈ entries → resource_index_key e ∉ resources.
Proof.
  revert resources leases. induction entries as [|e entries IH]; intros resources leases H; simpl in H.
  { split; [constructor|]. by intros e ?%not_elem_of_nil. }
  do 5 (apply result_bind_Ok in H as (? & _ & H)).
  destruct (_ || _) eqn:E; [done|]. apply orb_false_iff in E as [E%bool_decide_eq_false _].
  apply IH in H as [Hnd Hout]. csimpl. split.
  - constructor; [|done]. intros (e' & He & Hin)%list_elem_of_fmap. apply (Hout e' Hin). set_solver.
  - intros e' [->|Hin]%elem_of_cons; [done|]. specialize (Hout e' Hin). set_solver.
Qed.

Lemma validate_index_NoDup index u :
  validate_resource_index index = Ok u → NoDup (resource_index_key <$> ix_entries index).
Proof.
  unfold validate_resource_index. destruct (negb _); [done|].
  intros ([] & H & _)%result_bind_Ok. by apply validate_entries_NoDup in H as [? _].
Qed.

Lemma add_entries_Ok g leases entries entries' :
  add_entries g leases entries = Ok entries' → entries' = entries ++ (index_entry g <$> leases).
Proof.
  revert entries. induction leases as [|lease leases IH]; intros entries H; simpl in H.
  { injection H as <-. by rewrite app_nil_r. }
  destruct (existsb _ _); [done|]. apply IH in H as ->. by rewrite <- app_assoc.
Qed.

Lemma is_held_spec lease : is_held lease = true ↔ rl_state lease ≠ LeaseReleased.
Proof. unfold is_held. rewrite negb_true_iff, bool_decide_eq_false. done. Qed.

Lemma index_with_record_Ok index record index' :
  resource_index_with_record index record = Ok index' →
  validate_resource_index index' = Ok () ∧
  ∀ e, e ∈ ix_entries index' ↔
    (e ∈ ix_entries index ∧ ix_placement_group_id e ≠ pg_placement_group_id (rec_group record)) ∨
    ∃ lease, lease ∈ rec_leases record ∧ rl_state lease ≠ LeaseReleased ∧
      e = index_entry (pg_placement_group_id (rec_group record)) lease.
Proof.
  unfold resource_index_with_record. intros (entries & ->%add_entries_Ok & H)%result_bind_Ok.
  apply result_bind_Ok in H as ([] & Hv & [= <-]). split; [done|]. intros e. cbn [ix_entries].
  rewrite sort_by_Permutation, elem_of_app, list_elem_of_fmap, list_elem_of_In, filter_In, <- list_elem_of_In.
  rewrite negb_true_iff, bool_decide_eq_false.
  setoid_rewrite list_elem_of_In. setoid_rewrite filter_In. setoid_rewrite is_held_spec. naive_solver.
Qed.

(** ** Committed placements *)

Definition index_key : string * string := (storage_name Configuration, RESOURCE_INDEX_IDENTIFIER).
Definition aggregate_key (g : string) : string * string := (storage_name Placements, g).

Section exclusive.
Context {C : Type} `{!Sqlite C, !DatabaseClock C, !Sha256, !Json DatabaseCommit,
  !Json (list DatabaseCommit), !Json PlacementAggregateDatabaseRecord,
  !Json ResourceIndexDatabaseRecord, !DatabaseLaws C,
  !JsonLaws PlacementAggregateDatabaseRecord, !JsonLaws ResourceIndexDatabaseRecord}.

Definition index_at (t : Tables) : option ResourceIndexDatabaseRecord :=
  match records t !! index_key with
  | Some row => from_json (row_payload row)
  | None => Some {| ix_identifier := RESOURCE_INDEX_IDENTIFIER; ix_entries := [] |}
  end.

Definition aggregate_at (t : Tables) (g : string) : option PlacementRecord :=
  row ← records t !! aggregate_key g; d ← from_json (row_payload row);
  match placement_record d with Ok r => Some r | Err _ => None end.

(** The committed aggregate [g] holds the lease. *)
Definition holds (t : Tables) (g : string) (lease : ResourceLease) : Prop :=
  ∃ r, aggregate_at t g = Some r ∧ lease ∈ rec_leases r ∧ rl_state lease ≠ LeaseReleased.

(** The committed index is valid and holds exactly the leases in use. *)
Definition consistent (t : Tables) : Prop :=
  ∃ index, index_at t = Some index ∧ validate_resource_index index = Ok () ∧
    ∀ e, e ∈ ix_entries index ↔ ∃ g lease, holds t g lease ∧ e = index_entry g lease.

(** The commands of a writer other than the placement store. *)
Definition foreign (commands : list PreparedCommand) : Prop :=
  Forall (λ command, target command ≠ index_key ∧ pc_collection command ≠ Placements) commands.

(** The committed states so far, the latest first. *)
Inductive history : list Tables → Prop :=
| history_start t :
  records t !! index_key = None → (∀ g, records t !! aggregate_key g = None) → history [t]
| history_create t h (m0 : DatabaseManager C) index rev m0' record m r m' :
  history (t :: h) →
  durable (dm_connection m0) ∈ t :: h → resource_index m0 = (Ok (index, rev), m0') →
  record_typed record → settled (dm_connection m) → durable (dm_connection m) = t →
  create_with record index rev m = (r, m') →
  history (durable (dm_connection m') :: t :: h)
| history_replace t h (m0 : DatabaseManager C) index rev m0' record expected m r m' :
  history (t :: h) →
  durable (dm_connection m0) ∈ t :: h → resource_index m0 = (Ok (index, rev), m0') →
  record_typed record → settled (dm_connection m) → durable (dm_connection m) = t →
  replace_with record expected index rev m = (r, m') →
  history (durable (dm_connection m') :: t :: h)
| history_transaction t h key commands (c : C) r c' :
  history (t :: h) → foreign commands → settled c → durable c = t →
  execute_transaction key commands c = (r, c') → history (durable c' :: t :: h)
| history_command t h command (c : C) r c' :
  history (t :: h) → foreign [command] → settled c → durable c = t →
  execute_command command c = (r, c') → history (durable c' :: t :: h).

(** ** Reading the index *)

(** What the index read from [t] tells about [t]. *)
Definition read_from (t : Tables) (index : ResourceIndexDatabaseRecord) (rev : DatabaseRevision) : Prop :=
  (records t !! index_key = None ∧ rev = RevisionMissing ∧
   index = {| ix_identifier := RESOURCE_INDEX_IDENTIFIER; ix_entries := [] |}) ∨
  ∃ row, records t !! index_key = Some row ∧ rev = RevisionExact (row_revision row) ∧
    from_json (row_payload row) = Some index.

Lemma resource_index_Ok (m : DatabaseManager C) index rev m' :
  resource_index m = (Ok (index, rev), m') → read_from (durable (dm_connection m)) index rev.
Proof.
  unfold resource_index, database_read_record.
  destruct (se_bind require_open _ m) as [r m1] eqn:E. apply se_bind_inv in E as [([] & m2 & H1 & E)|(e & H1 & ->)].
  2: { unfold require_open in H1. destruct (dm_is_closed m); [|done]. injection H1 as <- <-. done. }
  unfold require_open in H1. destruct (dm_is_closed m); [done|]. injection H1 as <-.
  unfold on_connection in E. destruct (read_one_record _ (dm_connection m)) as [r0 c] eqn:Er.
  injection E as -> <-. destruct r as [stored|e].
  - intros [= Hv <-]. apply result_bind_Ok in Hv as ([] & Hv & [= <- <-]).
    apply read_one_record_Ok in Er as (row & Hrow & Hj & Hrev). right. exists row. by rewrite <- Hrev.
  - destruct e; intros [=]; subst. left. split; [|done].
    exact (read_one_record_NotFound (R := ResourceIndexDatabaseRecord) _ _ _ _ _ Er).
Qed.

(** ** Writing *)

(** The index row is never deleted and never rewritten at the same revision. *)
Definition index_follows (t t' : Tables) : Prop :=
  ∀ row, records t !! index_key = Some row →
    ∃ row', records t' !! index_key = Some row' ∧ row_follows row row'.

#[local] Instance index_follows_preorder : PreOrder index_follows.
Proof.
  split; [intros t row Hrow; exists row; by split; [|reflexivity]|].
  intros t1 t2 t3 H12 H23 row (row2 & Hrow2 & Hf2)%H12. apply H23 in Hrow2 as (row3 & ? & ?).
  exists row3. split; [done|]. by etrans.
Qed.

(** A committed aggregate and index, on a state that still has the index
    revision that was read. *)
Definition stores (record : PlacementRecord) (index : ResourceIndexDatabaseRecord)
    (rev : DatabaseRevision) (t t' : Tables) : Prop :=
  index_follows t t' ∧ permitted rev (row_revision <$> records t !! index_key) ∧
  ∃ arow irow payload ipayload,
    to_json (placement_database_record record) = Some payload ∧ to_json index = Some ipayload ∧
    row_payload arow = payload ∧ row_payload irow = ipayload ∧
    records t' = <[index_key := irow]>
      (<[aggregate_key (pg_placement_group_id (rec_group record)) := arow]> (records t)).

Lemma index_with_record_identifier index record index' :
  resource_index_with_record index record = Ok index' → ix_identifier index' = RESOURCE_INDEX_IDENTIFIER.
Proof.
  intros [Hv _]%index_with_record_Ok. unfold validate_resource_index in Hv.
  case_bool_decide; done.
Qed.

Lemma commit_record_step key record expected index rev (m : DatabaseManager C) r m' :
  settled (dm_connection m) → ix_identifier index = RESOURCE_INDEX_IDENTIFIER →
  commit_record key record expected index rev m = (r, m') →
  settled (dm_connection m') ∧
  (durable (dm_connection m') = durable (dm_connection m) ∨
   stores record index rev (durable (dm_connection m)) (durable (dm_connection m'))).
Proof.
  intros Hs Hid. unfold commit_record. cbv zeta.
  intros [(tx & m1 & [Htx <-]%se_lift_Ok & Hr)|(e & H1 & ->)]%se_bind_inv.
  2: { injection H1 as _ <-. by auto. }
  match type of Htx with from_database ?x = _ => destruct x as [tx'|] eqn:Ht; [|done] end.
  injection Htx as ->. apply result_bind_Ok in Ht as (tx0 & H0 & Ht).
  apply result_bind_Ok in H0 as (? & _ & [= <-]). apply result_bind_Ok in Ht as (tx1 & H1 & Ht).
  unfold tx_save in H1, Ht. apply result_bind_Ok in H1 as (c1 & (payload & Hp & ->)%prepare_save_Ok & H1).
  unfold add_command in H1. simpl in H1. injection H1 as <-.
  apply result_bind_Ok in Ht as (c2 & (ipayload & Hip & ->)%prepare_save_Ok & Ht).
  unfold add_command in Ht. destruct (_ <=? _)%nat; [done|]. destruct (existsb _ _); [done|].
  injection Ht as <-. simpl in Hr.
  match type of Hr with context [database_write_transaction ?tx0] => set (tx := tx0) in Hr end.
  destruct (database_write_transaction tx m) as [r0 m1] eqn:Hw.
  assert (m' = m1) as ->.
  { apply se_bind_inv in Hr as [([commits d] & m2 & H2 & Hr)|(e & H2 & ->)]; rewrite Hw in H2; injection H2 as _ <-; [|done].
    apply se_bind_inv in Hr as [([] & m3 & [_ <-]%se_lift_Ok & Hr)|(e & [= _ ->] & _)]; [|done].
    apply se_bind_inv in Hr as [(rev' & m3 & [_ <-]%se_lift_Ok & [= _ <-])|(e & [= _ ->] & _)]; done. }
  apply write_transaction_durable in Hw
    as [Hs' [->|(commits & now & t1 & a & json & at_ & _ & _ & Hm & _ & _ & ->)]]; [by auto| |done].
  split; [done|]. right.
  inversion Hm as [|? ? ? t2 ? ? ? Hm1 Hm2]; subst. inversion Hm2 as [|? ? ? t3 ? ? ? Hm3 Hm4]; subst.
  inversion Hm4; subst. pose proof (mutates_found _ _ _ _ _ Hm3) as Hperm.
  apply mutates_save_effect in Hm1 as (arow & Ha & Hr1). apply mutates_save_effect in Hm3 as (irow & Hi & Hr3).
  simpl in *. rewrite Hid in *. split_and!.
  - intros row Hrow. refine (mutates_all_spares _ _ _ _ _ _ _ Hm _ Hrow). by repeat constructor.
  - rewrite Hr1, lookup_insert_ne in Hperm by done. exact Hperm.
  - exists arow, irow, payload, ipayload. split_and!; [done..|]. cbn. rewrite Hr3, Hr1. done.
Qed.

Lemma create_with_step record index rev (m : DatabaseManager C) r m' :
  settled (dm_connection m) → create_with record index rev m = (r, m') →
  settled (dm_connection m') ∧
  (durable (dm_connection m') = durable (dm_connection m) ∨
   ∃ index', resource_index_with_record index record = Ok index' ∧
     stores record index' rev (durable (dm_connection m)) (durable (dm_connection m'))).
Proof.
  intros Hs. unfold create_with.
  intros [(index' & m1 & [Hi <-]%se_lift_Ok & Hr)|(e & [= _ <-] & ->)]%se_bind_inv; [|by auto].
  apply commit_record_step in Hr as [? [|]]; [by auto|eauto|done|].
  by eapply index_with_record_identifier.
Qed.

Lemma replace_with_step record expected index rev (m : DatabaseManager C) r m' :
  settled (dm_connection m) → replace_with record expected index rev m = (r, m') →
  settled (dm_connection m') ∧
  (durable (dm_connection m') = durable (dm_connection m) ∨
   ∃ index', resource_index_with_record index record = Ok index' ∧
     stores record index' rev (durable (dm_connection m)) (durable (dm_connection m'))).
Proof.
  intros Hs. unfold replace_with. cbv zeta. destruct (_ && _); [intros [= <- <-]; by auto|].
  intros [(index' & m1 & [Hi <-]%se_lift_Ok & Hr)|(e & [= _ <-] & ->)]%se_bind_inv; [|by auto].
  apply commit_record_step in Hr as [? [|]]; [by auto|eauto|done|].
  by eapply index_with_record_identifier.
Qed.

(** ** Consistency *)

Lemma read_is_current t0 t index rev :
  read_from t0 index rev → index_follows t0 t →
  permitted rev (row_revision <$> records t !! index_key) → index_at t = Some index.
Proof.
  unfold index_at. intros [(_ & -> & ->)|(row & Hrow & -> & Hj)] Hf Hp; simpl in Hp.
  - apply fmap_None in Hp. by rewrite Hp.
  - apply Hf in Hrow as (row' & Hrow' & _ & _ & _ & Hrev). rewrite Hrow' in Hp |- *.
    injection Hp as Hp. destruct Hrev as [->|]; [done|lia].
Qed.

Lemma stores_aggregate record index rev t t' g :
  record_typed record → stores record index rev t t' →
  aggregate_at t' g = if decide (g = pg_placement_group_id (rec_group record))
                      then Some record else aggregate_at t g.
Proof.
  intros Hty (_ & _ & arow & irow & payload & ipayload & Hp & _ & <- & _ & Hr).
  unfold aggregate_at. rewrite Hr, lookup_insert_ne by done. case_decide as E.
  - subst g. rewrite lookup_insert_eq. simpl. rewrite (json_round_trip _ _ Hp). simpl.
    by rewrite (proj2 (placement_record_codec _ _) (conj Hty eq_refl)).
  - rewrite lookup_insert_ne; [done|]. intros [= Heq]. by apply E.
Qed.

Lemma stores_consistent record index index' rev t t' :
  record_typed record → index_at t = Some index → resource_index_with_record index record = Ok index' →
  stores record index' rev t t' → consistent t → consistent t'.
Proof.
  intros Hty Hat [Hv Hin]%index_with_record_Ok Hst (index0 & Hat0 & _ & Hc). simplify_eq.
  exists index'. split_and!; [|done|].
  - destruct Hst as (_ & _ & arow & irow & payload & ipayload & _ & Hip & _ & <- & Hr).
    unfold index_at. rewrite Hr, lookup_insert_eq. by apply json_round_trip.
  - intros e. rewrite Hin. setoid_rewrite Hc. unfold holds.
    setoid_rewrite (stores_aggregate _ _ _ _ _ _ Hty Hst). split.
    + intros [[(g & lease & Hh & ->) Hne]|(lease & ? & ? & ->)].
      * exists g, lease. simpl in Hne. by rewrite decide_False.
      * exists (pg_placement_group_id (rec_group record)), lease. rewrite decide_True by done. eauto.
    + intros (g & lease & (r & Hr & ? & ?) & ->). case_decide as E; simplify_eq; [right|left]; simpl; eauto 10.
Qed.

(** The rows of the placement store. *)
Definition placement_row (k : string * string) : Prop := k = index_key ∨ k.1 = storage_name Placements.
Definition agrees (t t' : Tables) : Prop :=
  ∀ k, placement_row k → records t' !! k = records t !! k.

Lemma agrees_follows t t' : agrees t t' → index_follows t t'.
Proof. intros Ha row Hrow. exists row. rewrite Ha by (by left). split; [done|reflexivity]. Qed.

Lemma agrees_consistent t t' : agrees t t' → consistent t → consistent t'.
Proof.
  intros Ha. assert (index_at t' = index_at t) as Hi by (unfold index_at; by rewrite Ha by (by left)).
  assert (∀ g, aggregate_at t' g = aggregate_at t g) as Hg
    by (intros g; unfold aggregate_at; by rewrite Ha by (by right)).
  unfold consistent, holds. by setoid_rewrite Hi; setoid_rewrite Hg.
Qed.

Lemma foreign_target command k :
  target command ≠ index_key → pc_collection command ≠ Placements → placement_row k → target command ≠ k.
Proof.
  intros Hi Hp [->|Hk] Heq; [done|]. subst k. simpl in Hk. by destruct (pc_collection command).
Qed.

Lemma foreign_agrees now t commands commits t' :
  mutates_all now t commands commits t' → foreign commands → agrees t t'.
Proof.
  induction 1 as [|t command commit t1 commands commits t2 Hm _ IH]; [done|].
  intros [[Hi Hp] Hf]%Forall_cons k Hk. rewrite (IH Hf k Hk).
  pose proof (foreign_target command k Hi Hp Hk) as Hne.
  destruct Hm; simpl; [by rewrite lookup_insert_ne..|by rewrite lookup_delete_ne].
Qed.

Lemma foreign_step `{!Json A} encode key digest commands t (r : result DatabaseError (A * bool)) t' :
  foreign commands → write_step encode key digest commands t r t' → agrees t t'.
Proof.
  intros Hf [commits a t'' (now & t1 & a' & json & at_ & ? & ? & Hm & ? & ? & ->) _| | |
          commits t'' e (now & t1 & a' & json & at_ & ? & ? & Hm & ? & ? & ->)]; [|done|done|];
    exact (foreign_agrees _ _ _ _ _ Hm Hf).
Qed.

Lemma history_invariant l :
  history l → match l with [] => False | t :: h => consistent t ∧ ∀ t0, t0 ∈ t :: h → index_follows t0 t end.
Proof.
  assert (Hnext : ∀ t t' h, (∀ t0, t0 ∈ t :: h → index_follows t0 t) → index_follows t t' →
    ∀ t0, t0 ∈ t' :: t :: h → index_follows t0 t').
  { intros t t' h Hall Hf t0 [->|Ht0]%elem_of_cons; [reflexivity|]. etrans; [by apply Hall|done]. }
  assert (Hstore : ∀ t t0 h record index rev index' t',
    consistent t ∧ (∀ t0, t0 ∈ t :: h → index_follows t0 t) → t0 ∈ t :: h → read_from t0 index rev →
    record_typed record → resource_index_with_record index record = Ok index' →
    stores record index' rev t t' → consistent t' ∧ ∀ t0, t0 ∈ t' :: t :: h → index_follows t0 t').
  { intros t t0 h record index rev index' t' [Hc Hall] Hin Hread Hty Hi Hst.
    pose proof Hst as (Hf & Hp & _). split; [|by eapply Hnext].
    refine (stores_consistent _ _ _ _ _ _ Hty (read_is_current _ _ _ _ Hread _ Hp) Hi Hst Hc). by apply Hall. }
  induction 1 as [t Hn Hg
    |t h m0 index rev m0' record m r m' _ IH Hin Hread Hty Hs <- Hc
    |t h m0 index rev m0' record expected m r m' _ IH Hin Hread Hty Hs <- Hc
    |t h key commands c r c' _ IH Hf Hs <- Hx|t h command c r c' _ IH Hf Hs <- Hx].
  - split; [|by intros t0 ->%list_elem_of_singleton].
    exists {| ix_identifier := RESOURCE_INDEX_IDENTIFIER; ix_entries := [] |}.
    unfold index_at. rewrite Hn. split_and!; [done..|]. intros e. split; [by intros ?%not_elem_of_nil|].
    intros (g & lease & (r & Hr & _) & _). unfold aggregate_at in Hr. by rewrite Hg in Hr.
  - apply resource_index_Ok in Hread. apply create_with_step in Hc as [_ [->|(index' & Hi & Hst)]]; [|eauto..].
    destruct IH as [? Hall]. split; [done|]. by apply Hnext.
  - apply resource_index_Ok in Hread. apply replace_with_step in Hc as [_ [->|(index' & Hi & Hst)]]; [|eauto..].
    destruct IH as [? Hall]. split; [done|]. by apply Hnext.
  - apply execute_transaction_step in Hx as [_ Hx]; [|done]. apply foreign_step in Hx; [|done].
    destruct IH as [? Hall]. split; [by eapply agrees_consistent|]. apply Hnext; [done|by apply agrees_follows].
  - apply execute_command_step in Hx as [_ Hx]; [|done]. apply foreign_step in Hx; [|done].
    destruct IH as [? Hall]. split; [by eapply agrees_consistent|]. apply Hnext; [done|by apply agrees_follows].
Qed.

(** C10: no resource is leased twice.  In every committed state of every
    history, in which clients of the placement store write from an index they
    read at any earlier moment, statements fail or are not confirmed, and other
    writers commit in between, two leases in use on the same resource of the same
    node are one lease of one placement group. *)
Theorem no_resource_is_leased_twice t h g1 g2 l1 l2 :
  history (t :: h) → holds t g1 l1 → holds t g2 l2 →
  rl_node_id l1 = rl_node_id l2 → rl_resource l1 = rl_resource l2 →
  g1 = g2 ∧ rl_lease_id l1 = rl_lease_id l2 ∧ rl_placement_id l1 = rl_placement_id l2.
Proof.
  intros [(index & _ & Hv & Hc) _]%history_invariant H1 H2 Hn Hr.
  assert (index_entry g1 l1 = index_entry g2 l2) as E.
  { apply (NoDup_fmap_same resource_index_key (ix_entries index)).
    - by eapply validate_index_NoDup.
    - apply Hc. eauto.
    - apply Hc. eauto.
    - unfold resource_index_key. simpl. by rewrite Hn, Hr. }
  by injection E.
Qed.

(** what the allocator is told is the truth.  In every committed state
    the resources the store reports as occupied on a node are exactly the
    resources of the leases in use on that node. *)
Theorem occupied_resources_are_the_held_ones t h node (m : DatabaseManager C) resources m' :
  history (t :: h) → durable (dm_connection m) = t →
  database_occupied_resources node m = (Ok resources, m') →
  ∀ resource, resource ∈ resources ↔
    ∃ g lease, holds t g lease ∧ rl_node_id lease = node ∧ rl_resource lease = resource.
Proof.
  intros [(index & Hat & Hv & Hc) _]%history_invariant <- Hocc resource.
  unfold database_occupied_resources in Hocc.
  apply se_bind_Ok in Hocc as ([index' rev] & m1 & Hread%resource_index_Ok & [Hm _]%se_lift_Ok).
  assert (index' = index) as ->.
  { apply (inj Some). rewrite <- Hat. symmetry. apply (read_is_current _ _ _ rev Hread); [reflexivity|].
    destruct Hread as [(Hn & -> & _)|(row & Hrow & -> & _)]; simpl; [by rewrite Hn|by rewrite Hrow]. }
  split.
  - intros Hin. destruct (mapM_result_elem _ _ _ _ Hm Hin) as (e & He & Hres).
    apply list_elem_of_In, filter_In in He as [He%list_elem_of_In Hnode%bool_decide_eq_true].
    apply Hc in He as (g & lease & Hh & ->). exists g, lease. split_and!; [done..|].
    by apply codec, proj2, resource_record_inj in Hres.
  - intros (g & lease & Hh & Hnode & <-).
    assert (index_entry g lease ∈ ix_entries index) as He by (apply Hc; eauto).
    assert (index_entry g lease ∈ List.filter (λ entry, bool_decide (ix_node_id entry = node)) (ix_entries index)) as Hf.
    { apply list_elem_of_In, filter_In. split; [by apply list_elem_of_In|]. by apply bool_decide_eq_true. }
    destruct (mapM_result_elem_of _ _ _ _ Hm Hf) as (resource & Hin & Hres). simpl in Hres.
    apply codec, proj2, resource_record_inj in Hres as ->. done.
Qed.
End exclusive.

(** ** A concrete history

    Two clients read the empty index; the first creates its group, the second is
    refused because the index has moved on, reads again and creates its own. *)

Module Deployment.
Import Memory.

#[export] Instance failure_eq_dec : EqDecision FailureDatabaseRecord.
Proof. solve_decision. Defined.
#[export] Instance engine_eq_dec : EqDecision EngineDatabaseRecord.
Proof. solve_decision. Defined.
#[export] Instance runtime_eq_dec : EqDecision RuntimeIdentityDatabaseRecord.
Proof. solve_decision. Defined.
#[export] Instance interconnect_eq_dec : EqDecision InterconnectDatabaseRecord.
Proof. solve_decision. Defined.
#[export] Instance capacity_eq_dec : EqDecision CapacityDatabaseRecord.
Proof. solve_decision. Defined.
#[export] Instance token_eq_dec : EqDecision TokenCountDatabaseRecord.
Proof. solve_decision. Defined.
#[export] Instance health_eq_dec : EqDecision EndpointHealthDatabaseRecord.
Proof. solve_decision. Defined.
#[export] Instance endpoint_eq_dec : EqDecision EndpointDatabaseRecord.
Proof. solve_decision. Defined.
#[export] Instance group_eq_dec : EqDecision PlacementGroupDatabaseRecord.
Proof. solve_decision. Defined.
#[export] Instance resources_eq_dec : EqDecision PlacementResourcesDatabaseRecord.
Proof. solve_decision. Defined.
#[export] Instance assignment_eq_dec : EqDecision PlacementAssignmentDatabaseRecord.
Proof. solve_decision. Defined.
#[export] Instance entry_eq_dec : EqDecision PlacementDatabaseEntry.
Proof. solve_decision. Defined.
#[export] Instance lease_eq_dec : EqDecision ResourceLeaseDatabaseRecord.
Proof. solve_decision. Defined.
#[export] Instance plan_eq_dec : EqDecision LaunchPlanIdentityDatabaseRecord.
Proof. solve_decision. Defined.
#[export] Instance aggregate_eq_dec : EqDecision PlacementAggregateDatabaseRecord.
Proof. solve_decision. Defined.
#[export] Instance index_entry_eq_dec : EqDecision ResourceIndexEntryDatabaseRecord.
Proof. solve_decision. Defined.
#[export] Instance index_eq_dec : EqDecision ResourceIndexDatabaseRecord.
Proof. solve_decision. Defined.

Definition hex (c : string) : string :=
  let two := c +:+ c in let four := two +:+ two in let eight := four +:+ four in
  let sixteen := eight +:+ eight in sixteen +:+ sixteen.
Definition sha (c : string) : string := hex c +:+ hex c.

(** One placement with one device and one port, on the node [hex "1"]. *)
Definition row (group placement lease port_lease : string) (device : string) (port : Z)
  : PlacementAggregateDatabaseRecord :=
  {| ag_placement_group_id := hex group;
     ag_group :=
       {| gr_service_id := hex "5";
          gr_runtime :=
            {| rr_candidate_id := "vllm--qwen--fp8--gb10"; rr_version := "1.0.0"; rr_target_id := "gb10";
               rr_source := "letsinfer-object:sha256:" +:+ sha "c";
               rr_engine := EngineOci ("letsinfer-object:sha256:" +:+ sha "b") (sha "b") None None;
               rr_runtime_digest := sha "c"; rr_manifest_digest := sha "d";
               rr_execution_contract_digest := sha "e" |};
          gr_placement_ids := [hex placement]; gr_endpoint_placement_id := hex placement;
          gr_endpoint := None;
          gr_capacity := {| cr_max_connections := 8; cr_max_active_requests := 4;
            cr_max_context_tokens := 4096;
            cr_interconnect := {| nr_kind := "any"; nr_rdma_required := false;
              nr_minimum_speed_mbps := 0; nr_minimum_mtu := 0 |} |};
          gr_desired_state := "stopped"; gr_state := "staging"; gr_failure := None;
          gr_created_at := 10; gr_updated_at := 10 |};
     ag_placements :=
       [{| pd_placement_id := hex placement;
           pd_assignment :=
             {| ar_node_id := hex "1"; ar_runtime_installation_id := hex "2";
                ar_hardware_observation_id := hex "3"; ar_hardware_boot_id := "boot";
                ar_hardware_observed_at := 5; ar_task_id := "task-0"; ar_address := "10.0.0.1";
                ar_resources := {| sr_port_base := port; sr_port_count := 1;
                  sr_device_ids := [device]; sr_rdma_interface := None |};
                ar_endpoint_ownership := "owner" |};
           pd_state := "pending"; pd_active_operation_id := None; pd_failure := None;
           pd_created_at := 10; pd_updated_at := 10 |}];
     ag_leases :=
       [{| lr_lease_id := hex lease; lr_placement_id := hex placement; lr_node_id := hex "1";
           lr_resource := AcceleratorRow device; lr_state := "reserved";
           lr_created_at := 10; lr_updated_at := 10 |};
        {| lr_lease_id := hex port_lease; lr_placement_id := hex placement; lr_node_id := hex "1";
           lr_resource := PortRow port; lr_state := "reserved";
           lr_created_at := 10; lr_updated_at := 10 |}];
     ag_startup_order := [[hex placement]];
     ag_launch_plan_identities := [] |}.
Definition from_ok {E A} (r : result E A) : is_ok r = true → A :=
  match r with Ok a => λ _, a | Err _ => λ bad, False_rect _ (Bool.diff_false_true bad) end.
Lemma from_ok_eq {E A} (r : result E A) (good : is_ok r = true) : r = Ok (from_ok r good).
Proof. by destruct r. Qed.

Definition first_row := row "7" "8" "9" "f" "gpu0" 30000.
Definition second_row := row "6" "4" "a" "0" "gpu1" 30001.
Lemma first_row_valid : is_ok (placement_record first_row) = true.
Proof. vm_compute. reflexivity. Defined.
Lemma second_row_valid : is_ok (placement_record second_row) = true.
Proof. vm_compute. reflexivity. Defined.
Definition first_record := from_ok (placement_record first_row) first_row_valid.
Definition second_record := from_ok (placement_record second_row) second_row_valid.
Lemma first_record_typed : record_typed first_record.
Proof. exact (proj1 (proj1 (placement_record_codec _ _) (from_ok_eq _ first_row_valid))). Qed.
Lemma second_record_typed : record_typed second_record.
Proof. exact (proj1 (proj1 (placement_record_codec _ _) (from_ok_eq _ second_row_valid))). Qed.

Definition no_index := {| ix_identifier := RESOURCE_INDEX_IDENTIFIER; ix_entries := [] |}.
Lemma first_index_valid : is_ok (resource_index_with_record no_index first_record) = true.
Proof. vm_compute. reflexivity. Defined.
Definition first_index := from_ok _ first_index_valid.
Lemma second_index_valid : is_ok (resource_index_with_record first_index second_record) = true.
Proof. vm_compute. reflexivity. Defined.
Definition second_index := from_ok _ second_index_valid.

Lemma stale_index_valid : is_ok (resource_index_with_record no_index second_record) = true.
Proof. vm_compute. reflexivity. Defined.
Definition stale_index := from_ok _ stale_index_valid.

#[export] Instance aggregate_json : Json PlacementAggregateDatabaseRecord :=
  table_json [first_row; second_row].
#[export] Instance aggregate_json_laws : JsonLaws PlacementAggregateDatabaseRecord := table_json_laws _.
#[export] Instance index_json : Json ResourceIndexDatabaseRecord :=
  table_json [first_index; second_index; stale_index].
#[export] Instance index_json_laws : JsonLaws ResourceIndexDatabaseRecord := table_json_laws _.

Definition start : DatabaseManager Connection :=
  {| dm_connection := connection [] 100 empty_tables; dm_is_closed := false; dm_events := [] |}.
Definition first_run := create_with first_record no_index RevisionMissing start.
Definition refused_run := create_with second_record no_index RevisionMissing first_run.2.
Definition second_run := create_with second_record first_index (RevisionExact 1) refused_run.2.
Definition committed (run : result PlacementError VersionedPlacementRecord * DatabaseManager Connection)
  : Tables := durable (dm_connection run.2).

Lemma second_refused : refused_run.1 = Err StoreConflict.
Proof. vm_compute. reflexivity. Qed.
Definition reads (out : result PlacementError (ResourceIndexDatabaseRecord * DatabaseRevision)
    * DatabaseManager Connection) (index : ResourceIndexDatabaseRecord) (rev : DatabaseRevision) : bool :=
  match out.1 with
  | Ok (index', rev') => bool_decide (index' = index) && bool_decide (rev' = rev)
  | Err _ => false
  end.
Lemma reads_Ok out index rev : reads out index rev = true → out = (Ok (index, rev), out.2).
Proof.
  destruct out as [[[index' rev']|e] m]; [|done]. unfold reads. simpl.
  by intros [->%bool_decide_eq_true ->%bool_decide_eq_true]%andb_prop.
Qed.
Lemma first_read : resource_index start = (Ok (no_index, RevisionMissing), (resource_index start).2).
Proof. apply reads_Ok. vm_compute. reflexivity. Qed.
Lemma second_read :
  resource_index refused_run.2 = (Ok (first_index, RevisionExact 1), (resource_index refused_run.2).2).
Proof. apply reads_Ok. vm_compute. reflexivity. Qed.

Definition states : list Tables :=
  [committed second_run; committed refused_run; committed first_run; empty_tables].
Lemma settled_first : settled (dm_connection first_run.2).
Proof. exact (proj1 (create_with_step _ _ _ start _ _ eq_refl (surjective_pairing _))). Qed.
Lemma settled_refused : settled (dm_connection refused_run.2).
Proof. exact (proj1 (create_with_step _ _ _ first_run.2 _ _ settled_first (surjective_pairing _))). Qed.

Lemma history_first : history (C := Connection) [committed first_run; empty_tables].
Proof.
  refine (history_create empty_tables [] start no_index RevisionMissing _ first_record start
    first_run.1 first_run.2 _ _ first_read first_record_typed eq_refl eq_refl (surjective_pairing _)).
  - by apply history_start.
  - left.
Qed.
Lemma history_refused :
  history (C := Connection) [committed refused_run; committed first_run; empty_tables].
Proof.
  refine (history_create (committed first_run) [empty_tables] start no_index RevisionMissing _
    second_record first_run.2 refused_run.1 refused_run.2 history_first _ first_read
    second_record_typed settled_first eq_refl (surjective_pairing _)).
  right. left.
Qed.
Lemma deployment_history : history (C := Connection) states.
Proof.
  refine (history_create (committed refused_run) [committed first_run; empty_tables] refused_run.2
    first_index (RevisionExact 1) _ second_record refused_run.2 second_run.1 second_run.2
    history_refused _ second_read second_record_typed settled_refused eq_refl (surjective_pairing _)).
  left.
Qed.

Definition held_by (t : Tables) (g : string) (resource : ResourceIdentity) : option ResourceLease :=
  r ← aggregate_at t g;
  List.find (λ lease, is_held lease && bool_decide (rl_resource lease = resource)) (rec_leases r).
Lemma held_by_holds t g resource lease :
  held_by t g resource = Some lease → holds t g lease ∧ rl_resource lease = resource.
Proof.
  unfold held_by. intros (r & Hr & [Hin Hok]%find_some)%bind_Some.
  apply andb_prop in Hok as [Hh%is_held_spec He%bool_decide_eq_true].
  split; [|done]. exists r. by rewrite list_elem_of_In.
Qed.
Lemma option_is_some {A} (o : option A) : bool_decide (is_Some o) = true → is_Some o.
Proof. apply bool_decide_eq_true. Qed.

Definition node : string := hex "1".
Definition occupied := database_occupied_resources node second_run.2.
Lemma occupied_answers : ∃ resources, occupied = (Ok resources, occupied.2) ∧ Accelerator "gpu1" ∈ resources.
Proof.
  assert (∀ out : result PlacementError (list ResourceIdentity) * DatabaseManager Connection,
    match out.1 with Ok l => bool_decide (Accelerator "gpu1" ∈ l) | Err _ => false end = true →
    ∃ l, out = (Ok l, out.2) ∧ Accelerator "gpu1" ∈ l) as Hlist.
  { intros [[l|] m]; [|done]. intros Hl%bool_decide_eq_true. by exists l. }
  apply Hlist. vm_compute. reflexivity.
Qed.
End Deployment.
Import Memory Deployment.

(** Both groups are committed; the device of the first one is leased once. *)
Lemma no_resource_is_leased_twice_witness :
  is_Some (held_by (committed second_run) (hex "6") (Accelerator "gpu1")) ∧
  ∃ l1, holds (committed second_run) (hex "7") l1 ∧
  rl_resource l1 = Accelerator "gpu0" ∧
  ∀ g2 l2, holds (committed second_run) g2 l2 → rl_node_id l1 = rl_node_id l2 →
    Accelerator "gpu0" = rl_resource l2 → hex "7" = g2.
Proof.
  split; [apply option_is_some; vm_compute; reflexivity|].
  assert (is_Some (held_by (committed second_run) (hex "7") (Accelerator "gpu0")))
    as [l1 [Hl1 Hres]%held_by_holds] by (apply option_is_some; vm_compute; reflexivity).
  exists l1. split; [exact Hl1|]. split; [exact Hres|]. intros g2 l2 Hl2 Hn Hr. rewrite <- Hres in Hr.
  exact (proj1 (no_resource_is_leased_twice _ _ _ _ _ _ deployment_history Hl1 Hl2 Hn Hr)).
Defined.

Lemma occupied_resources_are_the_held_ones_witness :
  ∃ g lease, holds (committed second_run) g lease ∧
    rl_node_id lease = node ∧ rl_resource lease = Accelerator "gpu1".
Proof.
  destruct occupied_answers as (resources & Hocc & Hin).
  exact (proj1 (occupied_resources_are_the_held_ones _ _ node second_run.2
    resources _ deployment_history eq_refl Hocc (Accelerator "gpu1")) Hin).
Defined.
