(* ===== verification/AuditContract.v ===== *)
(** * The audit ledger: data and hashing

    [core/audit/src/li_audit_contract.rs], [li_audit_store.rs] and
    [li_audit_cryptography.rs]: the closed vocabulary of an event, ledgers and
    receipts, the store interface, and the canonical bytes a digest covers.

    Newtypes over a text are that text; their [parse] is the only way the code
    makes one.  [serde_json] is the class [Json] on sorted field lists and SHA-256
    the class [Sha256]. *)

From Stdlib Require Import String.
From Stdlib Require Ascii.
From S2P Require Import Prelude Values Text Database.
Import (notations) Stdlib.Strings.Ascii.

(** ** Errors *)

Inductive AuditIntegrityError :=
| IntegritySequence (sequence : Z)
| IntegrityEventIdentity (sequence : Z)
| IntegrityNode (sequence : Z)
| IntegrityPreviousHash (sequence : Z)
| IntegrityEventHash (sequence : Z)
| IntegrityCheckpointMissing (sequence : Z)
| IntegrityCheckpointUnexpected (sequence : Z)
| IntegrityCheckpointHash (sequence : Z)
| IntegrityCheckpointTime (sequence : Z)
| IntegrityCheckpointSignature (sequence : Z).

Inductive AuditStoreError := AuditConflict | AuditReplayConflict | AuditUnavailable | AuditCorrupt.

Inductive AuditError :=
| AuditInvalidInput (field reason : string)
| AuditNotFound
| AuditIdempotencyConflict
| AuditContention
| AuditExportLimitExceeded
| AuditProvider (capability reason : string)
| AuditStoreFailed (error : AuditStoreError)
| AuditIntegrity (error : AuditIntegrityError).

#[export] Instance AuditStoreError_eq_dec : EqDecision AuditStoreError.
Proof. solve_decision. Defined.

(** ** Values *)

Definition AUDIT_GENESIS_HASH : string :=
  "0000000000000000000000000000000000000000000000000000000000000000".
Definition PRODUCTION_CHECKPOINT_INTERVAL : Z := 100.
Definition MAX_ACTOR_ID_BYTES : Z := 128.
Definition MAX_CHECKPOINT_SIGNATURE_BYTES : Z := 4096.
Definition MAX_REPLAY_ID_BYTES : Z := 128.
Definition MAX_TARGET_BYTES : Z := 255.

Definition require_lower_hex (value : string) (length : Z) (field : string) : result AuditError () :=
  if is_lower_hex value length then Ok ()
  else Err (AuditInvalidInput field "identity must be canonical lowercase hexadecimal text").

Definition is_one_of (accepted : list Z) (byte : Z) : bool :=
  is_ascii_alphanumeric byte || existsb (Z.eqb byte) accepted.
Definition is_safe_text (accepted : list Z) (value : string) (maximum_bytes : Z) : bool :=
  negb (str_len value =? 0) && (str_len value <=? maximum_bytes)
  && forallb (is_one_of accepted) (bytes value).
(** [b'.' | b'_' | b'-'], then [b'@'], then [b':' | b'/'] *)
Definition is_safe_identifier := is_safe_text [46; 95; 45].
Definition is_safe_principal := is_safe_text [46; 95; 45; 64].
Definition is_safe_target := is_safe_text [46; 95; 45; 64; 58; 47].

Definition to_ascii_lowercase_char (a : Ascii.ascii) : Ascii.ascii :=
  if is_ascii_uppercase (byte_val a) then Ascii.ascii_of_nat (Z.to_nat (byte_val a + 32)) else a.
Fixpoint to_ascii_lowercase (s : string) : string :=
  match s with
  | EmptyString => EmptyString
  | String a s => String (to_ascii_lowercase_char a) (to_ascii_lowercase s)
  end.

Definition contains_secret_marker (value : string) : bool :=
  let lowercase := to_ascii_lowercase value in
  starts_with "bearer" lowercase || starts_with "sk-" lowercase
  || str_contains "private_key" lowercase || str_contains "private-key" lowercase
  || str_contains "-----begin" lowercase.

Definition AuditEventId_parse (value : string) : result AuditError string :=
  let? _ := require_lower_hex value 32 "event identity" in Ok value.
Definition AuditCorrelationId_parse (value : string) : result AuditError string :=
  let? _ := require_lower_hex value 32 "correlation identity" in Ok value.
Definition AuditReplayId_parse (value : string) : result AuditError string :=
  if negb (is_safe_identifier value MAX_REPLAY_ID_BYTES) || contains_secret_marker value
  then Err (AuditInvalidInput "replay identity" "identity must be bounded printable identifier text")
  else Ok value.
Definition AuditActorId_parse (value : string) : result AuditError string :=
  if negb (is_safe_principal value MAX_ACTOR_ID_BYTES) || contains_secret_marker value
  then Err (AuditInvalidInput "actor identity" "identity must be bounded principal text")
  else Ok value.
Definition AuditTarget_parse (value : string) : result AuditError string :=
  if negb (is_safe_target value MAX_TARGET_BYTES) || contains_secret_marker value
  then Err (AuditInvalidInput "audit target" "target must be bounded stable identity text")
  else Ok value.
Definition AuditAction_parse (value : string) : result AuditError string :=
  match TechnicalName_parse value with
  | Ok name => Ok name
  | Err _ => Err (AuditInvalidInput "audit action" "action name is invalid")
  end.
Definition AuditReason_parse (value : string) : result AuditError string :=
  match TechnicalName_parse value with
  | Ok name => Ok name
  | Err _ => Err (AuditInvalidInput "audit reason" "reason code is invalid")
  end.
Definition AuditUnixNanoseconds_new (value : Z) : result AuditError Z :=
  if (value =? 0) || (i64_max <? value)
  then Err (AuditInvalidInput "audit timestamp" "timestamp must fit the positive signed 64-bit range")
  else Ok value.

Inductive AuditActorType := LocalUser | ControllerActor | NodeCandidate | NodeActor | SystemActor.
Definition actor_type_str (kind : AuditActorType) : string :=
  match kind with
  | LocalUser => "local-user" | ControllerActor => "controller" | NodeCandidate => "node-candidate"
  | NodeActor => "node" | SystemActor => "system"
  end.
Inductive AuditOriginInterface :=
| OriginCli | OriginController | OriginPairing | OriginGateway | OriginNode | OriginSystem.
Definition origin_interface_str (interface : AuditOriginInterface) : string :=
  match interface with
  | OriginCli => "cli" | OriginController => "controller" | OriginPairing => "pairing"
  | OriginGateway => "gateway" | OriginNode => "node" | OriginSystem => "system"
  end.
Inductive AuditOutcome := OutcomeSuccess | OutcomeDenied | OutcomeFailed.
Definition outcome_str (outcome : AuditOutcome) : string :=
  match outcome with
  | OutcomeSuccess => "success" | OutcomeDenied => "denied" | OutcomeFailed => "failed"
  end.

Record AuditActor := { actor_kind : AuditActorType; actor_identifier : string }.
Record AuditOrigin := { origin_node_id : string; origin_interface : AuditOriginInterface }.

#[export] Instance AuditActorType_eq_dec : EqDecision AuditActorType.
Proof. solve_decision. Defined.
#[export] Instance AuditOriginInterface_eq_dec : EqDecision AuditOriginInterface.
Proof. solve_decision. Defined.
#[export] Instance AuditOutcome_eq_dec : EqDecision AuditOutcome.
Proof. solve_decision. Defined.
#[export] Instance AuditActor_eq_dec : EqDecision AuditActor.
Proof. solve_decision. Defined.
#[export] Instance AuditOrigin_eq_dec : EqDecision AuditOrigin.
Proof. solve_decision. Defined.

(** ** Requests, events and checkpoints *)

Record AuditAppendRequest := {
  ar_replay_id : string;
  ar_correlation_id : string;
  ar_actor : AuditActor;
  ar_origin : AuditOrigin;
  ar_action : string;
  ar_target : string;
  ar_before_sha256 : option string;
  ar_after_sha256 : option string;
  ar_outcome : AuditOutcome;
  ar_reason : option string;
}.

Definition AuditAppendRequest_new (replay_id correlation_id : string) (actor : AuditActor)
    (origin : AuditOrigin) (action target : string) (before_sha256 after_sha256 : option string)
    (outcome : AuditOutcome) (reason : option string) : result AuditError AuditAppendRequest :=
  if bool_decide (outcome = OutcomeSuccess) && bool_decide (is_Some reason)
  then Err (AuditInvalidInput "audit reason" "successful actions cannot carry a failure reason")
  else if negb (bool_decide (outcome = OutcomeSuccess)) && bool_decide (reason = None)
  then Err (AuditInvalidInput "audit reason" "denied and failed actions require a reason code")
  else Ok {| ar_replay_id := replay_id; ar_correlation_id := correlation_id; ar_actor := actor;
             ar_origin := origin; ar_action := action; ar_target := target;
             ar_before_sha256 := before_sha256; ar_after_sha256 := after_sha256;
             ar_outcome := outcome; ar_reason := reason |}.

Record AuditEvent := {
  ev_sequence : Z;
  ev_event_id : string;
  ev_correlation_id : string;
  ev_timestamp : Z;
  ev_node_id : string;
  ev_actor : AuditActor;
  ev_origin : AuditOrigin;
  ev_action : string;
  ev_target : string;
  ev_before_sha256 : option string;
  ev_after_sha256 : option string;
  ev_outcome : AuditOutcome;
  ev_reason : option string;
  ev_previous_hash : string;
  ev_event_hash : string;
}.
#[export] Instance AuditEvent_eq_dec : EqDecision AuditEvent.
Proof. solve_decision. Defined.

Definition AuditEvent_from_persisted (event : AuditEvent) : result AuditError AuditEvent :=
  if (ev_sequence event =? 0) || (i64_max <? ev_sequence event)
  then Err (AuditInvalidInput "audit sequence" "sequence must fit the positive signed 64-bit range")
  else if (bool_decide (ev_outcome event = OutcomeSuccess) && bool_decide (is_Some (ev_reason event)))
          || (negb (bool_decide (ev_outcome event = OutcomeSuccess))
              && bool_decide (ev_reason event = None))
  then Err (AuditInvalidInput "audit event" "outcome and reason are inconsistent")
  else Ok event.

Record AuditCheckpoint := {
  cp_sequence : Z;
  cp_event_hash : string;
  cp_signature : string;  (* bytes *)
  cp_created_at : Z;
}.
#[export] Instance AuditCheckpoint_eq_dec : EqDecision AuditCheckpoint.
Proof. solve_decision. Defined.

Definition AuditCheckpoint_from_persisted (sequence : Z) (event_hash signature : string)
    (created_at : Z) : result AuditError AuditCheckpoint :=
  if (sequence =? 0) || (i64_max <? sequence)
  then Err (AuditInvalidInput "checkpoint sequence"
              "sequence must fit the positive signed 64-bit range")
  else if (str_len signature =? 0) || (MAX_CHECKPOINT_SIGNATURE_BYTES <? str_len signature)
  then Err (AuditInvalidInput "checkpoint signature"
              "signature must contain between 1 and 4096 bytes")
  else Ok {| cp_sequence := sequence; cp_event_hash := event_hash; cp_signature := signature;
             cp_created_at := created_at |}.

Record AuditCheckpointPolicy := { policy_interval : Z }.
Definition AuditCheckpointPolicy_new (interval : Z) : result AuditError AuditCheckpointPolicy :=
  if (interval =? 0) || (10000 <? interval)
  then Err (AuditInvalidInput "checkpoint interval" "interval must be between 1 and 10000 events")
  else Ok {| policy_interval := interval |}.
Definition production : AuditCheckpointPolicy :=
  {| policy_interval := PRODUCTION_CHECKPOINT_INTERVAL |}.
Definition requires_checkpoint (policy : AuditCheckpointPolicy) (sequence : Z) : bool :=
  negb (sequence =? 0) && (sequence mod policy_interval policy =? 0).

Record AuditVerification := {
  av_events : Z;
  av_checkpoints : Z;
  av_head_sha256 : string;
}.

(** ** Ledgers and the store *)

Inductive AuditAppendDisposition := AuditApplied | AuditReplayed.

Record AuditLedgerEntry := {
  le_event : AuditEvent;
  le_checkpoint : option AuditCheckpoint;
}.
#[export] Instance AuditLedgerEntry_eq_dec : EqDecision AuditLedgerEntry.
Proof. solve_decision. Defined.

Definition AuditLedgerEntry_new (event : AuditEvent) (checkpoint : option AuditCheckpoint)
  : result AuditStoreError AuditLedgerEntry :=
  if match checkpoint with
     | Some value => negb (cp_sequence value =? ev_sequence event)
                     || negb (bool_decide (cp_event_hash value = ev_event_hash event))
     | None => false
     end
  then Err AuditCorrupt
  else Ok {| le_event := event; le_checkpoint := checkpoint |}.

Record AuditAppendReceipt := {
  rc_request_sha256 : string;
  rc_entry : AuditLedgerEntry;
  rc_disposition : AuditAppendDisposition;
  rc_revision : Z;
}.
Record AuditReplayReceipt := {
  rp_request_sha256 : string;
  rp_entry : AuditLedgerEntry;
  rp_revision : Z;
}.
Record AuditLedger := {
  lg_entries : list AuditLedgerEntry;
  lg_revision : Z;
}.
Definition AuditLedger_from_persisted (entries : list AuditLedgerEntry) (revision : Z)
  : result AuditStoreError AuditLedger :=
  if Z.of_nat (length entries) =? revision
  then Ok {| lg_entries := entries; lg_revision := revision |} else Err AuditCorrupt.
Definition ledger_head (ledger : AuditLedger) : option AuditEvent :=
  le_event <$> last (lg_entries ledger).

Class AuditStore (W : Type) := {
  audit_ledger : SE W AuditStoreError AuditLedger;
  audit_replay : string → SE W AuditStoreError (option AuditReplayReceipt);
  audit_event : string → SE W AuditStoreError (option AuditEvent);
  audit_append : Z → string → string → AuditLedgerEntry → SE W AuditStoreError AuditAppendReceipt;
}.

(** ** Canonical bytes and digests *)

Inductive JsonValue := JsonString (s : string) | JsonNumber (n : Z) | JsonNull.
(** A map with its keys in order. *)
Definition JsonFields : Type := list (string * JsonValue).

Definition optional_value (value : option string) : JsonValue :=
  match value with Some s => JsonString s | None => JsonNull end.

(** [event_fields] and [request_fields] list the insertions of the two maps in
    the order of their keys. *)
Definition event_fields (event : AuditEvent) : JsonFields :=
  [("action", JsonString (ev_action event));
   ("actor_id", JsonString (actor_identifier (ev_actor event)));
   ("actor_type", JsonString (actor_type_str (actor_kind (ev_actor event))));
   ("after_sha256", optional_value (ev_after_sha256 event));
   ("before_sha256", optional_value (ev_before_sha256 event));
   ("correlation_id", JsonString (ev_correlation_id event));
   ("event_id", JsonString (ev_event_id event));
   ("node_id", JsonString (ev_node_id event));
   ("origin_interface", JsonString (origin_interface_str (origin_interface (ev_origin event))));
   ("origin_node_id", JsonString (origin_node_id (ev_origin event)));
   ("outcome", JsonString (outcome_str (ev_outcome event)));
   ("previous_hash", JsonString (ev_previous_hash event));
   ("reason", optional_value (ev_reason event));
   ("target", JsonString (ev_target event));
   ("timestamp_unix_ns", JsonNumber (ev_timestamp event))]%string.

Definition request_fields (node_id : string) (request : AuditAppendRequest) : JsonFields :=
  [("action", JsonString (ar_action request));
   ("actor_id", JsonString (actor_identifier (ar_actor request)));
   ("actor_type", JsonString (actor_type_str (actor_kind (ar_actor request))));
   ("after_sha256", optional_value (ar_after_sha256 request));
   ("before_sha256", optional_value (ar_before_sha256 request));
   ("correlation_id", JsonString (ar_correlation_id request));
   ("node_id", JsonString node_id);
   ("origin_interface", JsonString (origin_interface_str (origin_interface (ar_origin request))));
   ("origin_node_id", JsonString (origin_node_id (ar_origin request)));
   ("outcome", JsonString (outcome_str (ar_outcome request)));
   ("reason", optional_value (ar_reason request));
   ("target", JsonString (ar_target request))]%string.

Definition hex_nibble (value : Z) : result AuditError Z :=
  if in_range 48 57 value then Ok (value - 48)
  else if in_range 97 102 value then Ok (value - 97 + 10)
  else Err (AuditInvalidInput "audit hash" "digest contains invalid hexadecimal text").

(** The loop over the pairs of digits of the text. *)
Fixpoint decode_pairs (source : list Z) : result AuditError (list Z) :=
  match source with
  | high :: low :: source =>
    let? high := hex_nibble high in
    let? low := hex_nibble low in
    let? decoded := decode_pairs source in
    Ok (Z.lor (Z.shiftl high 4) low :: decoded)
  | _ => Ok []
  end.
Definition decode_sha256 (value : string) : result AuditError string :=
  let? decoded := decode_pairs (bytes value) in
  Ok (String.string_of_list_ascii (Ascii.ascii_of_N ∘ Z.to_N <$> decoded)).

Section cryptography.
Context `{!Json JsonFields, !Sha256}.

Definition canonical_map_bytes (fields : JsonFields) : result AuditError string :=
  let? encoded := ok_or (AuditProvider "serialization" "canonical encoding failed") (to_json fields) in
  Ok (encoded +:+ nl).

Definition canonical_event_bytes (event : AuditEvent) : result AuditError string :=
  canonical_map_bytes (event_fields event).

(** [Sha256Digest::parse(&format!("{:x}", ..))] *)
Definition digest_of (message reason : string) : result AuditError string :=
  match Sha256Digest_parse (sha256_hex message) with
  | Ok digest => Ok digest
  | Err _ => Err (AuditInvalidInput "audit hash" reason)
  end.

Definition request_sha256 (node_id : string) (request : AuditAppendRequest) : result AuditError string :=
  let? encoded := canonical_map_bytes (request_fields node_id request) in
  digest_of encoded "digest could not be encoded".

(** The request an event carries. *)
Definition event_request (event : AuditEvent) : AuditAppendRequest :=
  {| ar_replay_id := EmptyString; ar_correlation_id := ev_correlation_id event;
     ar_actor := ev_actor event; ar_origin := ev_origin event; ar_action := ev_action event;
     ar_target := ev_target event; ar_before_sha256 := ev_before_sha256 event;
     ar_after_sha256 := ev_after_sha256 event; ar_outcome := ev_outcome event;
     ar_reason := ev_reason event |}.
Definition event_request_sha256 (event : AuditEvent) : result AuditError string :=
  let? encoded := canonical_map_bytes (request_fields (ev_node_id event) (event_request event)) in
  digest_of encoded "digest could not be encoded".

Definition event_sha256 (event : AuditEvent) : result AuditError string :=
  let? previous := decode_sha256 (ev_previous_hash event) in
  let? canonical := canonical_event_bytes event in
  digest_of (previous +:+ canonical) "event hash could not be encoded".

Definition with_hash (event : AuditEvent) (hash : string) : AuditEvent :=
  {| ev_sequence := ev_sequence event; ev_event_id := ev_event_id event;
     ev_correlation_id := ev_correlation_id event; ev_timestamp := ev_timestamp event;
     ev_node_id := ev_node_id event; ev_actor := ev_actor event; ev_origin := ev_origin event;
     ev_action := ev_action event; ev_target := ev_target event;
     ev_before_sha256 := ev_before_sha256 event; ev_after_sha256 := ev_after_sha256 event;
     ev_outcome := ev_outcome event; ev_reason := ev_reason event;
     ev_previous_hash := ev_previous_hash event; ev_event_hash := hash |}.

Definition genesis_hash : result AuditError string :=
  match Sha256Digest_parse AUDIT_GENESIS_HASH with
  | Ok digest => Ok digest
  | Err _ => Err (AuditInvalidInput "audit hash" "genesis hash is invalid")
  end.

Definition chained_event (sequence : Z) (event_id : string) (timestamp : Z) (node_id : string)
    (request : AuditAppendRequest) (previous_hash : string) : result AuditError AuditEvent :=
  let? placeholder :=
    match Sha256Digest_parse AUDIT_GENESIS_HASH with
    | Ok digest => Ok digest
    | Err _ => Err (AuditInvalidInput "audit hash" "genesis hash identity is invalid")
    end in
  let? unsigned := AuditEvent_from_persisted
    {| ev_sequence := sequence; ev_event_id := event_id;
       ev_correlation_id := ar_correlation_id request; ev_timestamp := timestamp;
       ev_node_id := node_id; ev_actor := ar_actor request; ev_origin := ar_origin request;
       ev_action := ar_action request; ev_target := ar_target request;
       ev_before_sha256 := ar_before_sha256 request; ev_after_sha256 := ar_after_sha256 request;
       ev_outcome := ar_outcome request; ev_reason := ar_reason request;
       ev_previous_hash := previous_hash; ev_event_hash := placeholder |} in
  let? event_hash := event_sha256 unsigned in
  AuditEvent_from_persisted (with_hash unsigned event_hash).
End cryptography.
