(* ===== verification/AuditManager.v ===== *)
(** * The audit manager

    [core/audit/src/li_audit_manager.rs] and [li_audit_export.rs]: one node's
    chain of audit events over an append-only store, with periodic signed
    checkpoints, replayable appends, verification and bounded export. *)

From Stdlib Require Import String.
From Stdlib Require Ascii.
From S2P Require Import Prelude Values Text Database AuditContract.
Import (notations) Stdlib.Strings.Ascii.

Definition MAX_APPEND_ATTEMPTS : nat := 8.
Definition MAX_LIST_EVENTS : Z := 10000.

(** Time, event identities and the node's signing key. *)
Class AuditProviders (W : Type) := {
  audit_now : SE W AuditError Z;
  fresh_event_id : SE W AuditError string;
  audit_sign : string → SE W AuditError string;
  audit_verify : string → string → SE W AuditError bool;
}.

Record AuditManager := {
  am_node_id : string;
  am_checkpoint_policy : AuditCheckpointPolicy;
}.

(** ** Export documents *)

Definition MAX_EXPORT_BYTES : Z := 16 * 1024 * 1024.
Definition MAX_EXPORT_EVENTS : Z := 10000.

Record AuditExportLimit := { xl_events : Z; xl_bytes : Z }.
Definition AuditExportLimit_new (events bytes : Z) : result AuditError AuditExportLimit :=
  if (events =? 0) || (MAX_EXPORT_EVENTS <? events) || (bytes =? 0) || (MAX_EXPORT_BYTES <? bytes)
  then Err (AuditInvalidInput "audit export limit"
              "events must be 1..10000 and bytes must be 1..16777216")
  else Ok {| xl_events := events; xl_bytes := bytes |}.
Definition export_maximum : AuditExportLimit :=
  {| xl_events := MAX_EXPORT_EVENTS; xl_bytes := MAX_EXPORT_BYTES |}.

Record AuditExport := { xp_bytes : string; xp_events : Z }.

Record AuditEventDocument := {
  xd_sequence : Z;
  xd_event_id : string;
  xd_correlation_id : string;
  xd_timestamp_unix_ns : Z;
  xd_node_id : string;
  xd_actor_type : string;
  xd_actor_id : string;
  xd_origin_node_id : string;
  xd_origin_interface : string;
  xd_action : string;
  xd_target : string;
  xd_before_sha256 : option string;
  xd_after_sha256 : option string;
  xd_outcome : string;
  xd_reason : option string;
  xd_previous_hash : string;
  xd_event_hash : string;
}.
Definition event_document (event : AuditEvent) : AuditEventDocument :=
  {| xd_sequence := ev_sequence event; xd_event_id := ev_event_id event;
     xd_correlation_id := ev_correlation_id event; xd_timestamp_unix_ns := ev_timestamp event;
     xd_node_id := ev_node_id event; xd_actor_type := actor_type_str (actor_kind (ev_actor event));
     xd_actor_id := actor_identifier (ev_actor event);
     xd_origin_node_id := origin_node_id (ev_origin event);
     xd_origin_interface := origin_interface_str (origin_interface (ev_origin event));
     xd_action := ev_action event; xd_target := ev_target event;
     xd_before_sha256 := ev_before_sha256 event; xd_after_sha256 := ev_after_sha256 event;
     xd_outcome := outcome_str (ev_outcome event); xd_reason := ev_reason event;
     xd_previous_hash := ev_previous_hash event; xd_event_hash := ev_event_hash event |}.

Definition ALPHABET : string := "ABCDEFGHIJKLMNOPQRSTUVWXYZabcdefghijklmnopqrstuvwxyz0123456789+/".
Definition alphabet_char (index : Z) : Ascii.ascii :=
  match String.get (Z.to_nat index) ALPHABET with Some a => a | None => "="%char end.

(** The loop over [chunks(3)]; [sextets] are the four digits of a chunk. *)
Definition sextets (first second third : Z) : Z * Z * Z * Z :=
  (Z.shiftr first 2,
   Z.lor (Z.shiftl (Z.land first 3) 4) (Z.shiftr second 4),
   Z.lor (Z.shiftl (Z.land second 15) 2) (Z.shiftr third 6),
   Z.land third 63).
Fixpoint base64_bytes (value : list Z) : string :=
  match value with
  | [] => EmptyString
  | [first] =>
    let '(a, b, _, _) := sextets first 0 0 in
    String (alphabet_char a) (String (alphabet_char b) "==")
  | [first; second] =>
    let '(a, b, c, _) := sextets first second 0 in
    String (alphabet_char a) (String (alphabet_char b) (String (alphabet_char c) "="))
  | first :: second :: third :: value =>
    let '(a, b, c, d) := sextets first second third in
    String (alphabet_char a) (String (alphabet_char b)
      (String (alphabet_char c) (String (alphabet_char d) (base64_bytes value))))
  end.
Definition base64 (value : string) : string := base64_bytes (bytes value).

Record AuditCheckpointDocument := {
  xc_sequence : Z;
  xc_event_hash : string;
  xc_signature_base64 : string;
  xc_created_at_unix_ns : Z;
}.
Definition checkpoint_document (checkpoint : AuditCheckpoint) : AuditCheckpointDocument :=
  {| xc_sequence := cp_sequence checkpoint; xc_event_hash := cp_event_hash checkpoint;
     xc_signature_base64 := base64 (cp_signature checkpoint);
     xc_created_at_unix_ns := cp_created_at checkpoint |}.
Record AuditVerificationDocument := {
  xv_valid : bool;
  xv_events : Z;
  xv_checkpoints : Z;
  xv_head_sha256 : string;
}.
Record AuditExportDocument := {
  xe_schema_version : Z;
  xe_node_id : string;
  xe_exported_at_unix_ns : Z;
  xe_events : list AuditEventDocument;
  xe_checkpoints : list AuditCheckpointDocument;
  xe_verification : AuditVerificationDocument;
}.

Definition export_document (node_id : string) (ledger : AuditLedger) (verification : AuditVerification)
    (exported_at : Z) : AuditExportDocument :=
  {| xe_schema_version := 1; xe_node_id := node_id; xe_exported_at_unix_ns := exported_at;
     xe_events := (λ entry, event_document (le_event entry)) <$> lg_entries ledger;
     xe_checkpoints := omap (λ entry, checkpoint_document <$> le_checkpoint entry) (lg_entries ledger);
     xe_verification := {| xv_valid := true; xv_events := av_events verification;
                           xv_checkpoints := av_checkpoints verification;
                           xv_head_sha256 := av_head_sha256 verification |} |}.

Definition encode_export `{!Json AuditExportDocument} (node_id : string) (ledger : AuditLedger)
    (verification : AuditVerification) (exported_at : Z) (limit : AuditExportLimit)
  : result AuditError AuditExport :=
  if xl_events limit <? Z.of_nat (length (lg_entries ledger)) then Err AuditExportLimitExceeded
  else
    let? encoded := ok_or (AuditProvider "serialization" "audit export encoding failed")
                      (to_json (export_document node_id ledger verification exported_at)) in
    let encoded := encoded +:+ nl in
    if xl_bytes limit <? str_len encoded then Err AuditExportLimitExceeded
    else Ok {| xp_bytes := encoded; xp_events := Z.of_nat (length (lg_entries ledger)) |}.

(** ** The manager *)

Section manager.
Context {W : Type} `{!AuditStore W, !AuditProviders W, !Json JsonFields, !Sha256,
  !Json AuditExportDocument}.
Abbreviation A := (SE W AuditError).

(** [?] on a store result *)
Definition audit_store {X} (call : SE W AuditStoreError X) : A X := λ w,
  match call w with
  | (Ok x, w) => (Ok x, w)
  | (Err e, w) => (Err (AuditStoreFailed e), w)
  end.
Definition integrity {X} (error : AuditIntegrityError) : A X := se_fail (AuditIntegrity error).

Definition verify_checkpoint (event : AuditEvent) (checkpoint : AuditCheckpoint) : A () :=
  let sequence := ev_sequence event in
  if negb (cp_sequence checkpoint =? sequence)
     || negb (bool_decide (cp_event_hash checkpoint = ev_event_hash event))
  then integrity (IntegrityCheckpointHash sequence)
  else if cp_created_at checkpoint <? ev_timestamp event
  then integrity (IntegrityCheckpointTime sequence)
  else
    do! valid <- audit_verify (cp_event_hash checkpoint) (cp_signature checkpoint) in
    if valid : bool then se_ret () else integrity (IntegrityCheckpointSignature sequence).

(** The loop over the entries from position [index]. *)
Fixpoint verify_entries (am : AuditManager) (entries : list AuditLedgerEntry) (index : Z)
    (previous_hash : string) (checkpoints : Z) (event_ids : gset string) : A (Z * string) :=
  match entries with
  | [] => se_ret (checkpoints, previous_hash)
  | entry :: entries =>
    let event := le_event entry in
    do! sequence <- se_lift (ok_or (AuditIntegrity (IntegritySequence u64_max))
                               (checked_add_u64 index 1)) in
    if negb (ev_sequence event =? sequence) then integrity (IntegritySequence (ev_sequence event))
    else if bool_decide (ev_event_id event ∈ event_ids)
    then integrity (IntegrityEventIdentity sequence)
    else if negb (bool_decide (ev_node_id event = am_node_id am)) then integrity (IntegrityNode sequence)
    else if negb (bool_decide (ev_previous_hash event = previous_hash))
    then integrity (IntegrityPreviousHash sequence)
    else
      do! hash <- se_lift (event_sha256 event) in
      if negb (bool_decide (hash = ev_event_hash event)) then integrity (IntegrityEventHash sequence)
      else
        do! checkpoints <-
          match requires_checkpoint (am_checkpoint_policy am) sequence, le_checkpoint entry with
          | true, None => integrity (IntegrityCheckpointMissing sequence)
          | false, Some _ => integrity (IntegrityCheckpointUnexpected sequence)
          | true, Some checkpoint =>
            run! verify_checkpoint event checkpoint in se_ret (checkpoints + 1)
          | false, None => se_ret checkpoints
          end in
        verify_entries am entries (index + 1) (ev_event_hash event) checkpoints
          ({[ev_event_id event]} ∪ event_ids)
  end.

Definition verify_ledger (am : AuditManager) (ledger : AuditLedger) : A AuditVerification :=
  do! genesis <- se_lift genesis_hash in
  do! (checkpoints, head_sha256) <- verify_entries am (lg_entries ledger) 0 genesis 0 ∅ in
  se_ret {| av_events := Z.of_nat (length (lg_entries ledger)); av_checkpoints := checkpoints;
            av_head_sha256 := head_sha256 |}.

Definition checkpoint (am : AuditManager) (event : AuditEvent) : A (option AuditCheckpoint) :=
  if negb (requires_checkpoint (am_checkpoint_policy am) (ev_sequence event)) then se_ret None
  else
    do! signature <- audit_sign (ev_event_hash event) in
    do! created_at <- audit_now in
    do! checkpoint <- se_lift (AuditCheckpoint_from_persisted (ev_sequence event)
                                 (ev_event_hash event) signature created_at) in
    se_ret (Some checkpoint).

(** Whether the current chain verifies and holds the entry. *)
Definition require_in_ledger (am : AuditManager) (entry : AuditLedgerEntry) : A () :=
  do! ledger <- audit_store audit_ledger in
  run! verify_ledger am ledger in
  if existsb (λ e, bool_decide (e = entry)) (lg_entries ledger) then se_ret ()
  else se_fail (AuditStoreFailed AuditCorrupt).

(** [receipt.request_sha256() != request || event_request_sha256(..)? != request] *)
Definition require_request (request_sha256 stored_sha256 : string) (event : AuditEvent) : A () :=
  if negb (bool_decide (stored_sha256 = request_sha256)) then se_fail AuditIdempotencyConflict
  else
    do! digest <- se_lift (event_request_sha256 event) in
    if negb (bool_decide (digest = request_sha256)) then se_fail AuditIdempotencyConflict
    else se_ret ().

Definition replay_receipt (am : AuditManager) (request_sha256 : string) (replay : AuditReplayReceipt)
  : A AuditAppendReceipt :=
  run! require_request request_sha256 (rp_request_sha256 replay) (le_event (rp_entry replay)) in
  run! require_in_ledger am (rp_entry replay) in
  se_ret {| rc_request_sha256 := request_sha256; rc_entry := rp_entry replay;
            rc_disposition := AuditReplayed; rc_revision := rp_revision replay |}.

Definition validate_append_receipt (am : AuditManager) (request_sha256 : string)
    (intended : AuditLedgerEntry) (expected_revision : Z) (receipt : AuditAppendReceipt)
  : A AuditAppendReceipt :=
  run! require_request request_sha256 (rc_request_sha256 receipt) (le_event (rc_entry receipt)) in
  match rc_disposition receipt with
  | AuditApplied =>
    if negb (bool_decide (rc_entry receipt = intended))
       || negb (rc_revision receipt =? saturating_add_u64 expected_revision 1)
    then se_fail (AuditStoreFailed AuditCorrupt) else se_ret receipt
  | AuditReplayed => run! require_in_ledger am (rc_entry receipt) in se_ret receipt
  end.

(** One attempt builds the entry that follows the ledger it read. *)
Definition next_entry (am : AuditManager) (request : AuditAppendRequest) (event_id : string)
    (timestamp : Z) (ledger : AuditLedger) : A AuditLedgerEntry :=
  do! sequence <- se_lift (ok_or (AuditInvalidInput "audit sequence" "event count exceeds its range")
                             (checked_add_u64 (Z.of_nat (length (lg_entries ledger))) 1)) in
  do! genesis <- se_lift genesis_hash in
  let previous_hash := match ledger_head ledger with
                       | Some event => ev_event_hash event
                       | None => genesis
                       end in
  do! event <- se_lift (chained_event sequence event_id timestamp (am_node_id am) request
                          previous_hash) in
  do! checkpoint <- checkpoint am event in
  audit_store (se_lift (AuditLedgerEntry_new event checkpoint)).

(** The loop of the attempts that are left. *)
Fixpoint append_attempts (am : AuditManager) (request : AuditAppendRequest)
    (request_digest event_id : string) (timestamp : Z) (attempts : nat) : A AuditAppendReceipt :=
  match attempts with
  | O => se_fail AuditContention
  | S attempts =>
    do! ledger <- audit_store audit_ledger in
    run! verify_ledger am ledger in
    do! entry <- next_entry am request event_id timestamp ledger in
    λ w, match audit_append (lg_revision ledger) (ar_replay_id request) request_digest entry w with
         | (Ok receipt, w) =>
           validate_append_receipt am request_digest entry (lg_revision ledger) receipt w
         | (Err AuditConflict, w) =>
           append_attempts am request request_digest event_id timestamp attempts w
         | (Err AuditReplayConflict, w) => (Err AuditIdempotencyConflict, w)
         | (Err error, w) => (Err (AuditStoreFailed error), w)
         end
  end.

Definition manager_append (am : AuditManager) (request : AuditAppendRequest) : A AuditAppendReceipt :=
  do! request_digest <- se_lift (request_sha256 (am_node_id am) request) in
  do! replay <- audit_store (audit_replay (ar_replay_id request)) in
  match replay with
  | Some replay => replay_receipt am request_digest replay
  | None =>
    do! event_id <- fresh_event_id in
    do! timestamp <- audit_now in
    append_attempts am request request_digest event_id timestamp MAX_APPEND_ATTEMPTS
  end.

Definition manager_list (limit : Z) : A (list AuditEvent) :=
  if (limit =? 0) || (MAX_LIST_EVENTS <? limit)
  then se_fail (AuditInvalidInput "audit list limit" "limit must be between 1 and 10000")
  else
    do! ledger <- audit_store audit_ledger in
    se_ret (le_event <$> take (Z.to_nat limit) (reverse (lg_entries ledger))).

Definition manager_show (event_id : string) : A AuditEvent :=
  do! event <- audit_store (audit_event event_id) in
  se_lift (ok_or AuditNotFound event).

Definition manager_verify (am : AuditManager) : A AuditVerification :=
  do! ledger <- audit_store audit_ledger in
  verify_ledger am ledger.

Definition manager_export (am : AuditManager) (limit : AuditExportLimit) : A AuditExport :=
  do! ledger <- audit_store audit_ledger in
  do! verification <- verify_ledger am ledger in
  do! exported_at <- audit_now in
  se_lift (encode_export (am_node_id am) ledger verification exported_at limit).
End manager.
