(* ===== verification/AuditAppend.v ===== *)
(** * Appending to the audit chain

    The laws of the store, clock, identities and signing key, with other managers
    of the same chain at work between any two calls, and what an append does to
    the chain under them. *)

From Stdlib Require Import String.
From S2P Require Import Prelude Values Text Database DatabaseSafety AuditContract AuditManager.

(** ** The audit chain

    What the audit manager promises: verification accepts exactly the well-formed
    chains, a chain is determined by its length and head hash unless SHA-256
    collides, and appending extends a well-formed chain by well-formed events
    whatever other managers append in between. *)

(** ** Digests *)

Lemma digest_of_Ok `{!Sha256} message reason digest :
  digest_of message reason = Ok digest → digest = sha256_hex message ∧ is_lower_hex digest 64 = true.
Proof.
  unfold digest_of, Sha256Digest_parse, validate. destruct (is_lower_hex _ _) eqn:E; [|done].
  by intros [= <-].
Qed.

Lemma decode_pairs_length n source decoded :
  length source = (n + n)%nat → decode_pairs source = Ok decoded → length decoded = n.
Proof.
  revert source decoded. induction n as [|n IH]; intros source decoded Hl Hd.
  { destruct source; [|done]. by injection Hd as <-. }
  destruct source as [|high [|low source]]; [done|simpl in Hl; lia|]. simpl in Hd.
  inv_result Hd. subst. simpl. f_equal. eapply IH; [|done]. simpl in Hl. lia.
Qed.

Lemma length_string_of_list l : String.length (String.string_of_list_ascii l) = length l.
Proof. induction l; simpl; congruence. Qed.

Lemma decode_sha256_length value decoded :
  is_lower_hex value 64 = true → decode_sha256 value = Ok decoded → String.length decoded = 32%nat.
Proof.
  unfold is_lower_hex, decode_sha256. intros [Hl%Z.eqb_eq _]%andb_prop Hd. inv_result Hd. subst.
  rewrite length_string_of_list, length_fmap. eapply decode_pairs_length; [|done].
  pose proof (length_bytes value). lia.
Qed.

Lemma actor_type_str_inj k k' : actor_type_str k = actor_type_str k' → k = k'.
Proof. by destruct k, k'. Qed.
Lemma origin_interface_str_inj i i' : origin_interface_str i = origin_interface_str i' → i = i'.
Proof. by destruct i, i'. Qed.
Lemma outcome_str_inj o o' : outcome_str o = outcome_str o' → o = o'.
Proof. by destruct o, o'. Qed.
Lemma optional_value_inj v v' : optional_value v = optional_value v' → v = v'.
Proof. destruct v, v'; simpl; congruence. Qed.

(** The hashed fields, the sequence and the hash are the whole event. *)
Lemma event_fields_inj e e' :
  event_fields e = event_fields e' → ev_sequence e = ev_sequence e' →
  ev_event_hash e = ev_event_hash e' → e = e'.
Proof.
  unfold event_fields. intros Hf Hs Hh.
  injection Hf as ? ? Hk%actor_type_str_inj ?%optional_value_inj ?%optional_value_inj ? ? ?
    Hi%origin_interface_str_inj ? ?%outcome_str_inj ? ?%optional_value_inj ? ?.
  destruct e as [? ? ? ? ? [] [] ? ? ? ? ? ? ? ?], e' as [? ? ? ? ? [] [] ? ? ? ? ? ? ? ?].
  simpl in *. by subst.
Qed.

Section hashing.
Context `{!Json JsonFields, !Sha256}.

(** What an event hash is the hash of. *)
Lemma event_sha256_Ok e digest :
  event_sha256 e = Ok digest →
  ∃ previous encoded, decode_sha256 (ev_previous_hash e) = Ok previous ∧
    to_json (event_fields e) = Some encoded ∧
    digest = sha256_hex (previous +:+ (encoded +:+ nl)) ∧ is_lower_hex digest 64 = true.
Proof.
  unfold event_sha256, canonical_event_bytes, canonical_map_bytes.
  intros (previous & Hp & He)%result_bind_Ok. apply result_bind_Ok in He as (m & Hm & He).
  apply result_bind_Ok in Hm as (encoded & Hj%ok_or_Ok & [= <-]).
  apply digest_of_Ok in He as [Hd Hx]. by exists previous, encoded.
Qed.

(** Two events with the same hash have the same fields, or they are a collision. *)
Lemma event_hash_identifies `{!JsonLaws JsonFields} e e' digest :
  is_lower_hex (ev_previous_hash e) 64 = true → is_lower_hex (ev_previous_hash e') 64 = true →
  event_sha256 e = Ok digest → event_sha256 e' = Ok digest →
  event_fields e = event_fields e' ∨ sha256_collision.
Proof.
  intros Hp Hp' (p & m & Hd & Hj%json_round_trip & -> & _)%event_sha256_Ok
    (p' & m' & Hd' & Hj'%json_round_trip & Hs & _)%event_sha256_Ok.
  destruct (decide (p +:+ (m +:+ nl) = p' +:+ (m' +:+ nl))) as [Heq|Hne]; [left|right; by eexists _, _].
  apply decode_sha256_length in Hd, Hd'; [|done..].
  apply string_app_inj in Heq as [_ Heq]; [|congruence].
  apply string_app_inj_r in Heq as ->. congruence.
Qed.
End hashing.

(** ** Well-formed chains *)

Definition head_hash (l : list AuditLedgerEntry) : string :=
  match last l with Some entry => ev_event_hash (le_event entry) | None => AUDIT_GENESIS_HASH end.
Definition event_ids (l : list AuditLedgerEntry) : gset string :=
  list_to_set ((λ entry, ev_event_id (le_event entry)) <$> l).
Definition checkpoint_count (l : list AuditLedgerEntry) : Z := Z.of_nat (length (omap le_checkpoint l)).

Lemma head_hash_snoc l entry : head_hash (l ++ [entry]) = ev_event_hash (le_event entry).
Proof. unfold head_hash. by rewrite last_snoc. Qed.
Lemma event_ids_snoc l entry :
  event_ids (l ++ [entry]) = {[ev_event_id (le_event entry)]} ∪ event_ids l.
Proof. unfold event_ids. rewrite fmap_app, list_to_set_app_L. csimpl. set_solver. Qed.
Lemma checkpoint_count_snoc l entry :
  checkpoint_count (l ++ [entry]) =
  checkpoint_count l + match le_checkpoint entry with Some _ => 1 | None => 0 end.
Proof.
  unfold checkpoint_count. rewrite omap_app, length_app. csimpl.
  destruct (le_checkpoint entry); simpl; lia.
Qed.

(** With [timed], a checkpoint is not older than its event, which verification
    insists on; without it, a checkpoint may carry any time. *)
Section chains.
Context (am : AuditManager) (accepts : string → string → Prop) (timed : Prop)
  `{!Json JsonFields, !Sha256}.

Definition checkpoint_valid (event : AuditEvent) (stored : option AuditCheckpoint) : Prop :=
  match requires_checkpoint (am_checkpoint_policy am) (ev_sequence event), stored with
  | true, Some c =>
    cp_sequence c = ev_sequence event ∧ cp_event_hash c = ev_event_hash event ∧
    (timed → ev_timestamp event ≤ cp_created_at c) ∧ accepts (cp_event_hash c) (cp_signature c)
  | false, None => True
  | _, _ => False
  end.

(** The entry continues the chain [l]. *)
Record follows (l : list AuditLedgerEntry) (entry : AuditLedgerEntry) : Prop := {
  fl_sequence : ev_sequence (le_event entry) = Z.of_nat (length l) + 1;
  fl_range : Z.of_nat (length l) + 1 ≤ u64_max;
  fl_identity : ev_event_id (le_event entry) ∉ event_ids l;
  fl_node : ev_node_id (le_event entry) = am_node_id am;
  fl_previous : ev_previous_hash (le_event entry) = head_hash l;
  fl_hash : event_sha256 (le_event entry) = Ok (ev_event_hash (le_event entry));
  fl_checkpoint : checkpoint_valid (le_event entry) (le_checkpoint entry);
}.

Inductive chain : list AuditLedgerEntry → Prop :=
| chain_nil : chain []
| chain_snoc l entry : chain l → follows l entry → chain (l ++ [entry]).

Lemma chain_app l l' : chain (l ++ l') → chain l.
Proof.
  induction l' as [|entry l' IH] using rev_ind; [by rewrite app_nil_r|]. rewrite app_assoc.
  inversion 1 as [Hnil|l0 e0 Hc Hf Heq]; subst; [by destruct (app_cons_not_nil _ _ _ Hnil)|].
  apply app_inj_tail in Heq as [-> _]. by apply IH.
Qed.
Lemma chain_last l entry : chain (l ++ [entry]) → follows l entry.
Proof.
  inversion 1 as [Hnil|l0 e0 Hc Hf Heq]; subst; [by destruct (app_cons_not_nil _ _ _ Hnil)|].
  by apply app_inj_tail in Heq as [-> ->].
Qed.
Lemma chain_cons l entry l' : chain (l ++ entry :: l') → follows l entry.
Proof. rewrite cons_middle, app_assoc. intros Hc%chain_app. by apply chain_last. Qed.

Lemma chain_head_hex l : chain l → is_lower_hex (head_hash l) 64 = true.
Proof.
  destruct 1 as [|l entry _ Hf]; [done|]. rewrite head_hash_snoc.
  by apply fl_hash, event_sha256_Ok in Hf as (_ & _ & _ & _ & _ & ?).
Qed.

(** Equal length and head determine the events. *)
Lemma chain_determined `{!JsonLaws JsonFields} l l' :
  chain l → chain l' → length l = length l' → head_hash l = head_hash l' →
  le_event <$> l = le_event <$> l' ∨ sha256_collision.
Proof.
  intros Hc. revert l'. induction Hc as [|l entry Hc IH Hf]; intros l' Hc' Hl Hh.
  { left. by destruct l'. }
  destruct Hc' as [|l' entry' Hc' Hf']; [rewrite length_app in Hl; simpl in Hl; lia|].
  rewrite !length_app in Hl. simpl in Hl. rewrite !head_hash_snoc in Hh.
  pose proof (chain_head_hex _ Hc) as Hx. pose proof (chain_head_hex _ Hc') as Hx'.
  destruct Hf as [Hs _ _ _ Hp He _], Hf' as [Hs' _ _ _ Hp' He' _]. rewrite <- Hp in Hx. rewrite <- Hp' in Hx'.
  rewrite <- Hh in He'. destruct (event_hash_identifies _ _ _ Hx Hx' He He') as [Hfields|]; [|by right].
  assert (le_event entry = le_event entry') as Heq by (apply event_fields_inj; [done|lia|done]).
  destruct (IH l' Hc') as [Hrest|]; [lia|congruence|left|by right].
  rewrite !fmap_app, Hrest. csimpl. by rewrite Heq.
Qed.

End chains.

(** ** Verification *)

Section verification.
Context (am : AuditManager) (accepts : string → string → Prop) `{!Json JsonFields, !Sha256}.
Abbreviation checkpoint_valid := (checkpoint_valid am accepts True).
Abbreviation follows := (follows am accepts True).
Abbreviation chain := (chain am accepts True).

Class VerifierLaws {W} `{!AuditProviders W} : Prop :=
  law_verify h s (w : W) r w' : audit_verify h s w = (r, w') →
    match r with
    | Ok valid => valid = true ↔ accepts h s
    | Err e => ∃ capability reason, e = AuditProvider capability reason
    end.

Context {W} `{!AuditStore W, !AuditProviders W, !VerifierLaws}.

(** An error that is not a failed provider says that [P] does not hold. *)
Definition refutes (e : AuditError) (P : Prop) : Prop :=
  match e with AuditProvider _ _ => True | _ => ¬ P end.

Lemma verify_checkpoint_spec event c (w : W) r w' :
  requires_checkpoint (am_checkpoint_policy am) (ev_sequence event) = true →
  verify_checkpoint event c w = (r, w') →
  match r with
  | Ok _ => checkpoint_valid event (Some c)
  | Err e => refutes e (checkpoint_valid event (Some c))
  end.
Proof.
  unfold verify_checkpoint, checkpoint_valid. intros ->. cbv zeta.
  destruct (negb _ || _) eqn:E1.
  { intros [= <- <-]. simpl. intros (Hs & Hh & _). apply orb_true_iff in E1 as [E1|E1];
      apply negb_true_iff in E1; [lia|]. by apply bool_decide_eq_false in E1. }
  apply orb_false_iff in E1 as [Hs%negb_false_iff%Z.eqb_eq Hh%negb_false_iff%bool_decide_eq_true].
  destruct (_ <? _) eqn:E2; [intros [= <- <-]; simpl; lia|].
  intros [(valid & w1 & Hv%law_verify & Hr)|(e & Hv%law_verify & ->)]%se_bind_inv.
  - destruct valid; injection Hr as <- <-; simpl; [|naive_solver]. split_and!; [done..|lia|naive_solver].
  - destruct Hv as (? & ? & ->). done.
Qed.

Lemma checkpoint_step event stored cps (w : W) r w' :
  match requires_checkpoint (am_checkpoint_policy am) (ev_sequence event), stored with
  | true, None => integrity (IntegrityCheckpointMissing (ev_sequence event))
  | false, Some _ => integrity (IntegrityCheckpointUnexpected (ev_sequence event))
  | true, Some c => run! verify_checkpoint event c in se_ret (cps + 1)
  | false, None => se_ret cps
  end w = (r, w') →
  match r with
  | Ok n => checkpoint_valid event stored ∧ n = cps + match stored with Some _ => 1 | None => 0 end
  | Err e => refutes e (checkpoint_valid event stored)
  end.
Proof.
  destruct (requires_checkpoint _ _) eqn:Er, stored as [c|].
  - intros [([] & w1 & Hv & Hr)|(e & Hv & ->)]%se_bind_inv; apply verify_checkpoint_spec in Hv; try done.
    by injection Hr as <- <-.
  - intros [= <- <-]. simpl. unfold checkpoint_valid. rewrite Er. tauto.
  - intros [= <- <-]. simpl. unfold checkpoint_valid. rewrite Er. tauto.
  - intros [= <- <-]. unfold checkpoint_valid. rewrite Er. split; [done|lia].
Qed.

Lemma verify_entries_spec entries l cps (w : W) r w' :
  chain l →
  verify_entries am entries (Z.of_nat (length l)) (head_hash l) cps (event_ids l) w = (r, w') →
  match r with
  | Ok (n, h) => chain (l ++ entries) ∧ h = head_hash (l ++ entries) ∧
      n = cps + checkpoint_count entries
  | Err e => refutes e (chain (l ++ entries))
  end.
Proof.
  revert l cps w. induction entries as [|entry entries IH]; intros l cps w Hc; simpl.
  { intros [= <- <-]. rewrite app_nil_r. unfold checkpoint_count. simpl. split_and!; [done..|lia]. }
  assert (Hno : ∀ e, (follows l entry → False) → refutes e (chain (l ++ entry :: entries))).
  { intros e Hn. unfold refutes. destruct e; try done; intros Hbad; exact (Hn (chain_cons _ _ _ _ _ _ Hbad)). }
  intros [(seq & w1 & [Hs <-]%se_lift_Ok & Hr)|(e & Hs & ->)]%se_bind_inv.
  2: { apply Hno. intros [_ Hrange _ _ _ _ _]. injection Hs as Hs _.
       unfold checked_add_u64 in Hs. case_match; [done|lia]. }
  apply ok_or_Ok, checked_add_u64_Some in Hs as [-> Hrange].
  destruct (negb (ev_sequence _ =? _)) eqn:E1.
  { injection Hr as <- <-. apply Hno. intros [Hs _ _ _ _ _ _]. lia. }
  destruct (bool_decide (_ ∈ _)) eqn:E2.
  { injection Hr as <- <-. apply Hno. intros [_ _ Hid _ _ _ _]. by apply bool_decide_eq_true in E2. }
  destruct (negb (bool_decide (ev_node_id _ = _))) eqn:E3.
  { injection Hr as <- <-. apply Hno. intros [_ _ _ Hn _ _ _]. by apply negb_true_iff, bool_decide_eq_false in E3. }
  destruct (negb (bool_decide (ev_previous_hash _ = _))) eqn:E4.
  { injection Hr as <- <-. apply Hno. intros [_ _ _ _ Hp _ _]. by apply negb_true_iff, bool_decide_eq_false in E4. }
  apply se_bind_inv in Hr as [(hash & w1 & [Hh <-]%se_lift_Ok & Hr)|(e & Hh & ->)].
  2: { apply Hno. intros [_ _ _ _ _ He _]. injection Hh as Hh _. by rewrite He in Hh. }
  destruct (negb (bool_decide (hash = _))) eqn:E5.
  { injection Hr as <- <-. apply Hno. intros [_ _ _ _ _ He _].
    apply negb_true_iff, bool_decide_eq_false in E5. congruence. }
  apply negb_false_iff in E1, E3, E4, E5. apply Z.eqb_eq in E1.
  apply bool_decide_eq_true in E3, E4, E5. apply bool_decide_eq_false in E2.
  rewrite <- E1 in Hr.
  apply se_bind_inv in Hr as [(n & w1 & Hcp & Hr)|(e & Hcp & ->)]; apply checkpoint_step in Hcp.
  2: { destruct e; try done; apply Hno; intros [_ _ _ _ _ _ Hv]; by apply Hcp. }
  destruct Hcp as [Hv ->].
  assert (follows l entry) as Hf by (split; try done; congruence).
  replace (ev_sequence (le_event entry)) with (Z.of_nat (length (l ++ [entry]))) in Hr by (rewrite length_app; simpl; lia).
  rewrite <- (head_hash_snoc l entry), <- event_ids_snoc in Hr.
  apply IH in Hr; [|by constructor]. rewrite cons_middle, app_assoc.
  destruct r as [[n h]|e]; [|done]. destruct Hr as (? & ? & ->). split_and!; [done..|].
  unfold checkpoint_count. csimpl. destruct (le_checkpoint entry); simpl; lia.
Qed.

Lemma genesis_hash_Ok : genesis_hash = Ok AUDIT_GENESIS_HASH.
Proof. reflexivity. Qed.

Definition verification_of (l : list AuditLedgerEntry) : AuditVerification :=
  {| av_events := Z.of_nat (length l); av_checkpoints := checkpoint_count l;
     av_head_sha256 := head_hash l |}.

Lemma verify_ledger_spec ledger (w : W) r w' :
  verify_ledger am ledger w = (r, w') →
  match r with
  | Ok v => chain (lg_entries ledger) ∧ v = verification_of (lg_entries ledger)
  | Err e => refutes e (chain (lg_entries ledger))
  end.
Proof.
  unfold verify_ledger. rewrite genesis_hash_Ok.
  intros [(genesis & w0 & [[= <-] <-]%se_lift_Ok & Hr)|(e & [=] & _)]%se_bind_inv.
  apply se_bind_inv in Hr as [([n h] & w1 & Hv & [= <- <-])|(e & Hv & ->)];
    apply (verify_entries_spec _ []) in Hv; try apply chain_nil; try done.
  destruct Hv as (? & -> & ->). done.
Qed.
End verification.

(** [steady] says that no reading of the clock is earlier than one before it. *)
Section append.
Context (am : AuditManager) (accepts : string → string → Prop) {W : Type}
  `{!AuditStore W, !AuditProviders W, !Json JsonFields, !Sha256, !Json AuditExportDocument}
  (ready : W → Prop) (entries : W → list AuditLedgerEntry) (steady : Prop) (time : W → Z).

Abbreviation chain := (chain am accepts).
Abbreviation follows := (follows am accepts).

(** Later managers only add; they keep a chain a chain up to the times of its
    checkpoints, and with a steady clock altogether. *)
Definition extends (l l' : list AuditLedgerEntry) : Prop :=
  l `prefix_of` l' ∧ (chain False l → chain False l') ∧ (steady → chain True l → chain True l').
#[local] Instance extends_preorder : PreOrder extends.
Proof.
  split; [done|]. intros l1 l2 l3 (? & ? & ?) (? & ? & ?). split_and!; [by etrans|auto..].
Qed.

(** From a world in which the store is [ready]. *)
Definition grows (w w' : W) : Prop :=
  ready w → ready w' ∧ extends (entries w) (entries w') ∧ (steady → time w ≤ time w').
#[local] Instance grows_preorder : PreOrder grows.
Proof.
  split; [intros w ?; split_and!; [done|reflexivity|lia]|].
  intros w1 w2 w3 H12 H23 (H2 & ? & ?)%H12. destruct (H23 H2) as (? & ? & ?).
  split_and!; [done|by etrans|intros; etrans; auto].
Qed.

(** What [AuditLedgerEntry::new] makes. *)
Definition paired (entry : AuditLedgerEntry) : Prop :=
  AuditLedgerEntry_new (le_event entry) (le_checkpoint entry) = Ok entry.

Definition is_applied (r : result AuditStoreError AuditAppendReceipt) : Prop :=
  match r with
  | Ok receipt => rc_disposition receipt = AuditApplied
  | Err _ => False
  end.

(** Reads see a past state of the chain; an append is atomic, conditional on the
    number of entries and on a new event identity, and may be applied without
    being confirmed; a steady clock does not run backwards, any other clock may
    answer anything; the key accepts what it signed. *)
Class AuditLaws : Prop := {
  law_audit_ledger w r w' : audit_ledger w = (r, w') → grows w w' ∧
    ∀ ledger, ready w → r = Ok ledger → lg_entries ledger `prefix_of` entries w' ∧
      lg_revision ledger = Z.of_nat (length (lg_entries ledger));
  law_audit_replay id w r w' : audit_replay id w = (r, w') → grows w w';
  law_audit_append revision id digest entry w r w' : ready w → paired entry →
    audit_append revision id digest entry w = (r, w') → ready w' ∧ (steady → time w ≤ time w') ∧
    ∃ l, extends (entries w) l ∧
      ((extends l (entries w') ∧ ¬ is_applied r) ∨
       (revision = Z.of_nat (length l) ∧ (ev_event_id (le_event entry) ∉ event_ids l) ∧
        extends (l ++ [entry]) (entries w')));
  law_audit_now w r w' : audit_now w = (r, w') → grows w w' ∧
    ∀ now, ready w → r = Ok now → steady → time w ≤ now ≤ time w';
  law_event_id w r w' : fresh_event_id w = (r, w') → grows w w';
  law_sign h w r w' : audit_sign h w = (r, w') → grows w w' ∧ ∀ s, r = Ok s → accepts h s;
  law_verify_grows h s w r w' : audit_verify h s w = (r, w') → grows w w';
}.

Context `{!AuditLaws, !VerifierLaws accepts}.

(** ** Calls that leave the chain to others *)

Definition passive {X} (m : SE W AuditError X) : Prop := ∀ w r w', m w = (r, w') → grows w w'.

Lemma passive_pure {X} (r : result AuditError X) : passive (se_lift r).
Proof. intros w r' w' [= _ <-]. reflexivity. Qed.
Lemma passive_bind {X Y} (m : SE W AuditError X) (k : X → SE W AuditError Y) :
  passive m → (∀ x, passive (k x)) → passive (se_bind m k).
Proof.
  intros Hm Hk w r w' [(x & w1 & H1 & H2)|(e & H1 & ->)]%se_bind_inv; [etrans|]; eauto; by eapply Hk.
Qed.
Lemma passive_store {X} (m : SE W AuditStoreError X) :
  (∀ w r w', m w = (r, w') → grows w w') → passive (audit_store m).
Proof.
  intros Hm w r w'. unfold audit_store. destruct (m w) as [[x|e] w1] eqn:E; intros [= _ <-]; eauto.
Qed.

Lemma verify_checkpoint_passive event c : passive (verify_checkpoint event c).
Proof.
  unfold verify_checkpoint. cbv zeta. destruct (_ || _); [apply (passive_pure (Err _))|].
  destruct (_ <? _); [apply (passive_pure (Err _))|].
  apply passive_bind; [intros w r w'; apply law_verify_grows|].
  intros []; [apply (passive_pure (Ok _))|apply (passive_pure (Err _))].
Qed.
Lemma verify_entries_passive l index previous n ids : passive (verify_entries am l index previous n ids).
Proof.
  revert index previous n ids. induction l as [|entry l IH]; intros; simpl; [apply (passive_pure (Ok _))|].
  apply passive_bind; [apply passive_pure|]. intros sequence.
  repeat (case_match; [apply (passive_pure (Err _))|]).
  apply passive_bind; [apply passive_pure|]. intros hash.
  case_match; [apply (passive_pure (Err _))|]. apply passive_bind; [|done].
  destruct (requires_checkpoint _ _), (le_checkpoint entry);
    [|apply (passive_pure (Err _))..|apply (passive_pure (Ok _))].
  apply passive_bind; [apply verify_checkpoint_passive|]. intros []. apply (passive_pure (Ok _)).
Qed.
Lemma verify_ledger_passive ledger : passive (verify_ledger am ledger).
Proof.
  apply passive_bind; [apply passive_pure|]. intros genesis.
  apply passive_bind; [apply verify_entries_passive|]. intros []. apply (passive_pure (Ok _)).
Qed.
Lemma checkpoint_passive event : passive (checkpoint am event).
Proof.
  unfold checkpoint. destruct (negb _); [apply (passive_pure (Ok _))|].
  apply passive_bind; [by intros w r w' [? _]%law_sign|]. intros signature.
  apply passive_bind; [by intros w r w' [? _]%law_audit_now|]. intros now.
  apply passive_bind; [apply passive_pure|]. intros c. apply (passive_pure (Ok _)).
Qed.
Lemma read_ledger_passive : passive (audit_store audit_ledger).
Proof. apply passive_store. intros w r w' [? _]%law_audit_ledger. done. Qed.
Lemma require_in_ledger_passive entry : passive (require_in_ledger am entry).
Proof.
  apply passive_bind; [apply read_ledger_passive|]. intros ledger.
  apply passive_bind; [apply verify_ledger_passive|]. intros v.
  case_match; [apply (passive_pure (Ok _))|apply (passive_pure (Err _))].
Qed.
Lemma next_entry_passive request id timestamp ledger : passive (next_entry am request id timestamp ledger).
Proof.
  apply passive_bind; [apply passive_pure|]. intros sequence.
  apply passive_bind; [apply passive_pure|]. intros genesis. cbv zeta.
  apply passive_bind; [apply passive_pure|]. intros event.
  apply passive_bind; [apply checkpoint_passive|]. intros c.
  apply passive_store. intros w r w' [= _ <-]. reflexivity.
Qed.

(** ** The entry of an attempt *)

Lemma chained_event_Ok sequence id timestamp node request previous event :
  chained_event sequence id timestamp node request previous = Ok event →
  ev_sequence event = sequence ∧ ev_event_id event = id ∧ ev_timestamp event = timestamp ∧
  ev_node_id event = node ∧ ev_previous_hash event = previous ∧
  event_sha256 event = Ok (ev_event_hash event) ∧
  request_fields (ev_node_id event) (event_request event) = request_fields node request.
Proof.
  unfold chained_event. intros (p & _ & H1)%result_bind_Ok.
  apply result_bind_Ok in H1 as (e & He & H1). apply result_bind_Ok in H1 as (h & Hh & H1).
  unfold AuditEvent_from_persisted in He, H1. repeat case_match; simplify_eq. done.
Qed.

Lemma checkpoint_Ok (timed : Prop) event stored w w' :
  ready w → checkpoint am event w = (Ok stored, w') → (timed → steady ∧ ev_timestamp event ≤ time w) →
  checkpoint_valid am accepts timed event stored.
Proof.
  unfold checkpoint, checkpoint_valid. destruct (requires_checkpoint _ _); simpl; [|by intros _ [= <- _]].
  intros Hw Hc Ht. inv_se Hc. subst.
  match goal with Hs : audit_sign _ _ = _, Hn : audit_now _ = _ |- _ =>
    apply law_sign in Hs as [Hg Hs]; apply law_audit_now in Hn as [_ Hn];
    destruct (Hg Hw) as (Hw' & _ & Hle); specialize (Hs _ eq_refl); pose proof (Hn _ Hw' eq_refl) as Hnow end.
  unfold AuditCheckpoint_from_persisted in *. repeat case_match; simplify_eq. simpl. split_and!; [done..| |done].
  intros [Hsteady ?]%Ht. specialize (Hnow Hsteady). specialize (Hle Hsteady). lia.
Qed.

Lemma next_entry_Ok request id timestamp ledger w entry w' :
  ready w → next_entry am request id timestamp ledger w = (Ok entry, w') → (steady → timestamp ≤ time w) →
  paired entry ∧ ev_event_id (le_event entry) = id ∧
  request_fields (ev_node_id (le_event entry)) (event_request (le_event entry))
    = request_fields (am_node_id am) request ∧
  (id ∉ event_ids (lg_entries ledger) →
   follows False (lg_entries ledger) entry ∧ (steady → follows True (lg_entries ledger) entry)).
Proof.
  unfold next_entry. intros Hw Hn Ht. rewrite genesis_hash_Ok in Hn. inv_se Hn. simplify_eq.
  match goal with He : chained_event _ _ _ _ _ _ = Ok _, Hs : ok_or _ _ = Ok _,
      Hc : checkpoint am _ _ = _ |- _ =>
    apply chained_event_Ok in He as (He1 & He2 & He3 & He4 & He5 & He6 & He7);
    apply ok_or_Ok, checked_add_u64_Some in Hs as [-> Hrange];
    pose proof (checkpoint_Ok False _ _ _ _ Hw Hc ltac:(done)) as Hsealed;
    pose proof (λ Hs : steady, checkpoint_Ok True _ _ _ _ Hw Hc
      (λ _, conj Hs (eq_ind_r (λ t, t ≤ time _) (Ht Hs) He3))) as Htimed end.
  unfold audit_store, se_lift, AuditLedgerEntry_new in Hn.
  match type of Hn with context [if ?b then Err AuditCorrupt else _] => destruct b eqn:Hpair; [done|] end.
  injection Hn as <- <-. simpl. split_and!; [unfold paired, AuditLedgerEntry_new; simpl; by rewrite Hpair|done..|]. intros Hid.
  split; [|intros Hsteady; specialize (Htimed Hsteady)];
    (split; simpl; try done; try congruence; rewrite He5; unfold head_hash, ledger_head; by destruct (last _)).
Qed.

(** ** Attempts *)

Lemma require_request_Ok digest stored event (w : W) u w' :
  require_request digest stored event w = (Ok u, w') → event_request_sha256 event = Ok digest ∧ w' = w.
Proof.
  unfold require_request. destruct (negb _); [done|]. intros Hr. inv_se Hr.
  destruct (negb _) eqn:E; [done|]. injection Hr as _ <-.
  apply negb_false_iff, bool_decide_eq_true in E as ->. done.
Qed.
Lemma require_request_passive digest stored event : passive (require_request digest stored event).
Proof.
  unfold require_request. destruct (negb _); [apply (passive_pure (Err _))|].
  apply passive_bind; [apply passive_pure|]. intros d.
  destruct (negb _); [apply (passive_pure (Err _))|apply (passive_pure (Ok _))].
Qed.

Lemma require_in_ledger_Ok entry (w : W) u w' :
  ready w → require_in_ledger am entry w = (Ok u, w') → entry ∈ entries w'.
Proof.
  unfold require_in_ledger. intros Hw (ledger & w1 & Hl & Hr)%se_bind_Ok.
  apply se_bind_Ok in Hr as (v & w2 & Hv & Hr).
  destruct (existsb _ _) eqn:E; [|done]. injection Hr as _ <-.
  unfold audit_store in Hl. destruct (audit_ledger w) as [[ledger'|] w0] eqn:El; [|done].
  injection Hl as -> ->. apply law_audit_ledger in El as [Hg Hp]. destruct (Hp _ Hw eq_refl) as [Hp1 _].
  apply verify_ledger_passive in Hv. destruct (Hg Hw) as [Hw1 _]. destruct (Hv Hw1) as (_ & [Hp2 _] & _).
  apply existsb_exists in E as (e & Hin%list_elem_of_In & ->%bool_decide_eq_true).
  eapply elem_of_prefix; [|exact Hp2]. by eapply elem_of_prefix.
Qed.

(** The receipt is of an entry of the chain that carries the request. *)
Definition confirms (digest : string) (receipt : AuditAppendReceipt) (w : W) : Prop :=
  rc_entry receipt ∈ entries w ∧ event_request_sha256 (le_event (rc_entry receipt)) = Ok digest.

Lemma validate_receipt_step digest intended revision receipt w r w' :
  ready w → (rc_disposition receipt = AuditApplied → intended ∈ entries w) →
  validate_append_receipt am digest intended revision receipt w = (r, w') →
  grows w w' ∧ ∀ receipt', r = Ok receipt' → confirms digest receipt' w'.
Proof.
  intros Hw Hin. unfold validate_append_receipt.
  intros [([] & w1 & [Hq ->]%require_request_Ok & Hr)|(e & Hq%require_request_passive & ->)]%se_bind_inv;
    [|split; [done|by intros ? [=]]].
  destruct (rc_disposition receipt) eqn:Ed.
  - destruct (_ || _) eqn:E; injection Hr as <- <-; (split; [reflexivity|]); [by intros ? [=]|].
    intros receipt' [= <-]. split; [|done].
    apply orb_false_iff in E as [->%negb_false_iff%bool_decide_eq_true _]. auto.
  - apply se_bind_inv in Hr as [([] & w2 & Hl & Hr)|(e & Hl & ->)].
    + pose proof (require_in_ledger_passive _ _ _ _ Hl). injection Hr as <- <-. split; [done|].
      intros receipt' [= <-]. split; [|done]. by eapply require_in_ledger_Ok.
    + split; [by eapply require_in_ledger_passive|by intros ? [=]].
Qed.

(** What a store append of the next entry does. *)
Lemma store_append_step request id timestamp ledger digest w entry w1 r w' :
  ready w → lg_entries ledger `prefix_of` entries w → lg_revision ledger = Z.of_nat (length (lg_entries ledger)) →
  chain True (lg_entries ledger) → (steady → timestamp ≤ time w) →
  next_entry am request id timestamp ledger w = (Ok entry, w1) →
  audit_append (lg_revision ledger) (ar_replay_id request) digest entry w1 = (r, w') →
  grows w w' ∧ (is_applied r → entry ∈ entries w').
Proof.
  intros Hw Hp Hrev Hc Ht Hn Ha.
  destruct (next_entry_passive _ _ _ _ _ _ _ Hn Hw) as (Hw1 & Hg & Htime).
  destruct (next_entry_Ok _ _ _ _ _ _ _ Hw Hn Ht) as (Hpair & Hid & _ & Hf).
  destruct (law_audit_append _ _ _ _ _ _ _ Hw1 Hpair Ha) as (Hw' & Ht' & l & Hl & [[Hx Hno]|(Hlen & Hnew & Hx)]).
  - split; [intros _; split_and!; [done|by etrans; [|etrans]|intros; etrans; auto]|done].
  - assert (lg_entries ledger = l) as <-.
    { assert (lg_entries ledger `prefix_of` l) as Hpl by (etrans; [exact Hp|]; by etrans; [apply Hg|apply Hl]).
      apply prefix_length_eq; [done|lia]. }
    rewrite Hid in Hnew. destruct (Hf Hnew) as [Hf0 Hf1].
    assert (extends (lg_entries ledger) (lg_entries ledger ++ [entry])) as Hsnoc.
    { split_and!; [by apply prefix_app_r|by constructor|constructor; auto]. }
    split; [intros _; split_and!; [done| |intros; etrans; auto]|].
    + etrans; [exact Hg|]. etrans; [exact Hl|]. by etrans.
    + intros _. eapply elem_of_prefix; [|exact (proj1 Hx)]. set_solver.
Qed.

Lemma append_attempts_step request digest id timestamp attempts w r w' :
  ready w → (steady → timestamp ≤ time w) →
  append_attempts am request digest id timestamp attempts w = (r, w') →
  grows w w' ∧ ∀ receipt, r = Ok receipt → confirms digest receipt w'.
Proof.
  revert w. induction attempts as [|attempts IH]; intros w Hw Ht; simpl.
  { intros [= <- <-]. split; [reflexivity|by intros ? [=]]. }
  intros [(ledger & w1 & Hl & Hr)|(e & Hl%read_ledger_passive & ->)]%se_bind_inv; [|split; [done|by intros ? [=]]].
  pose proof (read_ledger_passive _ _ _ Hl) as Hg1. destruct (Hg1 Hw) as (Hw1 & _ & Ht1).
  unfold audit_store in Hl. destruct (audit_ledger w) as [[ledger'|] w0] eqn:El; [|done].
  injection Hl as -> ->. apply law_audit_ledger in El as [_ Hp]. destruct (Hp _ Hw eq_refl) as [Hp1 Hrev].
  apply se_bind_inv in Hr as [(v & w2 & Hv & Hr)|(e & Hv%verify_ledger_passive & ->)].
  2: { split; [by etrans|by intros ? [=]]. }
  pose proof (verify_ledger_passive _ _ _ _ Hv) as Hg2. destruct (Hg2 Hw1) as (Hw2 & [Hp12 _] & Ht2).
  apply (verify_ledger_spec am accepts) in Hv as [Hc _].
  apply se_bind_inv in Hr as [(entry & w3 & Hn & Hr)|(e & Hn%next_entry_passive & ->)].
  2: { split; [|by intros ? [=]]. etrans; [done|]. by etrans. }
  destruct (audit_append _ _ _ _ w3) as [ra w4] eqn:Ea.
  assert (lg_entries ledger `prefix_of` entries w2) as Hp2 by (by etrans).
  assert (steady → timestamp ≤ time w2) as Ht' by (intros; do 2 (etrans; [|by eauto]); auto).
  destruct (store_append_step _ _ _ _ _ _ _ _ _ _ Hw2 Hp2 Hrev Hc Ht' Hn Ea) as [Hg4 Hin].
  assert (grows w w4) as Hw4 by (etrans; [done|]; by etrans).
  destruct (Hw4 Hw) as (Hr4 & _ & Ht4).
  destruct ra as [receipt|[]]; try (injection Hr as <- <-; split; [done|by intros ? [=]]).
  - apply validate_receipt_step in Hr as [? ?]; [|done..]. split; [by etrans|done].
  - apply IH in Hr as [? ?]; [|done|intros; etrans; auto]. split; [|done]. by etrans.
Qed.

(** C16: appending keeps the chain.  Whatever other managers of the chain append in
    between, whether or not the store confirms its writes, and whatever the clock
    answers, an append leaves every earlier entry in place and keeps a well-formed
    chain well formed (numbering, event identities, node, links, hashes, and a
    signed checkpoint exactly where one is due) in everything but the times of its
    checkpoints.  Those stay well formed too, so that the chain still verifies, on
    the condition that no reading of the clock is earlier than one before it.  And
    when the append returns a receipt, the entry of the receipt is in the chain and
    carries the request. *)
Theorem append_extends_the_chain request w r w' :
  ready w → manager_append am request w = (r, w') →
  entries w `prefix_of` entries w' ∧
  (chain False (entries w) → chain False (entries w')) ∧
  (steady → chain True (entries w) → chain True (entries w')) ∧
  ∀ receipt, r = Ok receipt →
    rc_entry receipt ∈ entries w' ∧
    event_request_sha256 (le_event (rc_entry receipt)) = request_sha256 (am_node_id am) request.
Proof.
  intros Hw Ha. assert (grows w w' ∧ ∀ receipt, r = Ok receipt → ∃ digest,
    request_sha256 (am_node_id am) request = Ok digest ∧ confirms digest receipt w') as [Hg Hr].
  { unfold manager_append in Ha.
    apply se_bind_inv in Ha as [(digest & w0 & [Hd <-]%se_lift_Ok & Ha)|(e & [= _ <-] & ->)];
      [|split; [reflexivity|by intros ? [=]]].
    assert (passive (audit_store (audit_replay (ar_replay_id request)))) as Hrp
      by (apply passive_store; intros *; apply law_audit_replay).
    apply se_bind_inv in Ha as [(replay & w1 & H1%Hrp & Ha)|(e & H1%Hrp & ->)]; [|split; [done|by intros ? [=]]].
    destruct (H1 Hw) as [Hw1 _].
    destruct replay as [replay|].
    - apply se_bind_inv in Ha as [([] & w2 & [Hq ->]%require_request_Ok & Ha)|(e & Hq%require_request_passive & ->)];
        [|split; [by etrans|by intros ? [=]]].
      apply se_bind_inv in Ha as [([] & w2 & Hl & Ha)|(e & Hl%require_in_ledger_passive & ->)];
        [|split; [by etrans|by intros ? [=]]].
      pose proof (require_in_ledger_passive _ _ _ _ Hl). injection Ha as <- <-. split; [by etrans|].
      intros receipt [= <-]. exists digest. split; [done|]. split; [by eapply require_in_ledger_Ok|done].
    - apply se_bind_inv in Ha as [(id & w2 & H2%law_event_id & Ha)|(e & H2%law_event_id & ->)];
        [|split; [by etrans|by intros ? [=]]].
      apply se_bind_inv in Ha as [(now & w3 & H3 & Ha)|(e & H3 & ->)]; apply law_audit_now in H3 as [H3 Hnow];
        [|split; [by etrans; [|etrans]|by intros ? [=]]].
      destruct (H2 Hw1) as [Hw2 _]. destruct (H3 Hw2) as [Hw3 _].
      specialize (Hnow _ Hw2 eq_refl). apply append_attempts_step in Ha as [H4 Hc]; [|done|intros Hsteady; by apply Hnow].
      split; [by etrans; [|etrans; [|etrans]]|]. eauto. }
  destruct (Hg Hw) as (_ & (? & ? & ?) & _).
  split_and!; [done..|]. intros receipt (digest & -> & ? & ->)%Hr. done.
Qed.
End append.
