(* ===== verification/AuditScenario.v ===== *)
(** * Audit chains: verification, tampering, clocks

    The theorems on verified ledgers, and a concrete store and signing key in
    which the laws hold, with a clock that may be made to step back. *)

From Stdlib Require Import String Ascii.
From S2P Require Import Prelude Values Text Database DatabaseSafety DatabaseMemory.
From S2P Require Import AuditContract AuditManager AuditAppend.

(** verification is exact.  It succeeds only on a well-formed chain,
    with the number of its events and checkpoints and its head; and apart from a
    failed provider it fails only on a ledger that is not a well-formed chain. *)
Theorem verification_is_exact am accepts {W} `{!AuditProviders W, !Json JsonFields, !Sha256,
    !VerifierLaws accepts} ledger (w : W) r w' :
  verify_ledger am ledger w = (r, w') →
  (∀ v, r = Ok v → chain am accepts True (lg_entries ledger) ∧ v = verification_of (lg_entries ledger)) ∧
  (∀ e, r = Err e → chain am accepts True (lg_entries ledger) →
     ∃ capability reason, e = AuditProvider capability reason).
Proof.
  intros Hv%(verify_ledger_spec am accepts). split.
  - by intros v ->.
  - intros e -> Hc. destruct e; try (by destruct (Hv Hc)). eauto.
Qed.

(** C18: a verified head fixes the history.  Two ledgers of a node that
    verify with the same number of events and the same head hash hold the same
    events, field by field, unless two different messages have the same SHA-256
    digest. *)
Theorem verified_head_fixes_the_history am accepts {W} `{!AuditProviders W, !Json JsonFields,
    !JsonLaws JsonFields, !Sha256, !VerifierLaws accepts} ledger ledger' (w w1 w' w1' : W) v v' :
  verify_ledger am ledger w = (Ok v, w1) → verify_ledger am ledger' w' = (Ok v', w1') →
  av_events v = av_events v' → av_head_sha256 v = av_head_sha256 v' →
  le_event <$> lg_entries ledger = le_event <$> lg_entries ledger' ∨ sha256_collision.
Proof.
  intros [Hc ->]%(verify_ledger_spec am accepts) [Hc' ->]%(verify_ledger_spec am accepts) Hn Hh.
  simpl in *. apply (chain_determined am accepts True); [done..|lia|done].
Qed.

(** ** A store in memory *)

Module AuditScenario.
Import Memory.

Record World := {
  ledger : list AuditLedgerEntry;
  replays : gmap string (string * AuditLedgerEntry);
  clock : Z;
  issued : Z;
}.

(** Tagged characters with an end mark, for texts, values and fields. *)
Fixpoint put_text (s rest : string) : string :=
  match s with
  | EmptyString => String "e" rest
  | String a s => String "c" (String a (put_text s rest))
  end.
Fixpoint take_text (s : string) : option (string * string) :=
  match s with
  | String t (String a rest as tail) =>
    if bool_decide (t = "e"%char) then Some (EmptyString, tail)
    else (λ x, (String a x.1, x.2)) <$> take_text rest
  | String t EmptyString => if bool_decide (t = "e"%char) then Some (EmptyString, EmptyString) else None
  | EmptyString => None
  end.
Lemma take_put_text s rest : take_text (put_text s rest) = Some (s, rest).
Proof. induction s as [|a s IH]; simpl; [by destruct rest|]. by rewrite IH. Qed.

Definition put_value (v : JsonValue) (rest : string) : string :=
  match v with
  | JsonString s => String "s" (put_text s rest)
  | JsonNumber n => String "n" (put_text (digits (encode n)) rest)
  | JsonNull => String "z" rest
  end.
Definition take_value (s : string) : option (JsonValue * string) :=
  match s with
  | String "s" s => (λ x, (JsonString x.1, x.2)) <$> take_text s
  | String "n" s => '(t, rest) ← take_text s; n ← decode (from_digits t); Some (JsonNumber n, rest)
  | String "z" s => Some (JsonNull, s)
  | _ => None
  end.
Lemma take_put_value v rest : take_value (put_value v rest) = Some (v, rest).
Proof.
  destruct v as [s|n|]; unfold take_value, put_value; [by rewrite take_put_text| |done].
  rewrite take_put_text. cbn [mbind option_bind]. by rewrite from_digits_digits, decode_encode.
Qed.

Fixpoint put_fields (fields : JsonFields) : string :=
  match fields with
  | [] => EmptyString
  | (k, v) :: fields => String "f" (put_text k (put_value v (put_fields fields)))
  end.
Fixpoint take_fields (fuel : nat) (s : string) : option JsonFields :=
  match fuel, s with
  | S fuel, String _ s =>
    '(k, s) ← take_text s; '(v, s) ← take_value s; fields ← take_fields fuel s; Some ((k, v) :: fields)
  | _, _ => Some []
  end.
Lemma take_put_fields fields fuel : (length fields ≤ fuel)%nat → take_fields fuel (put_fields fields) = Some fields.
Proof.
  revert fuel. induction fields as [|[k v] fields IH]; intros [|fuel] Hf; simpl in *; try (done || lia).
  rewrite take_put_text. simpl. rewrite take_put_value. simpl. rewrite IH by lia. done.
Qed.
Lemma put_text_length s rest : (String.length rest < String.length (put_text s rest))%nat.
Proof. induction s; simpl in *; lia. Qed.
Lemma put_fields_length fields : (length fields ≤ String.length (put_fields fields))%nat.
Proof.
  induction fields as [|[k v] fields IH]; simpl; [lia|].
  pose proof (put_text_length k (put_value v (put_fields fields))).
  enough (String.length (put_fields fields) ≤ String.length (put_value v (put_fields fields)))%nat by lia.
  destruct v; simpl; [pose proof (put_text_length s (put_fields fields))
    |pose proof (put_text_length (digits (encode n)) (put_fields fields))|]; lia.
Qed.

#[export] Instance fields_json : Json JsonFields := {|
  to_json := λ fields, Some (put_fields fields);
  from_json := λ s, take_fields (String.length s) s |}.
#[export] Instance fields_json_laws : JsonLaws JsonFields.
Proof. intros fields s [= <-]. apply take_put_fields, put_fields_length. Qed.

(** Sixty-four digits of a checksum. *)
Fixpoint zeros (n : nat) (s : string) : string :=
  match n with O => s | S n => String "0" (zeros n s) end.
Definition padded (width : nat) (n : Z) : string :=
  let digits := to_decimal n in zeros (width - String.length digits) digits.
#[export] Instance checksum : Sha256 := λ m,
  padded 64 (foldl (λ h b, Z.land (h * 31 + b) 1048575) 7 (bytes m)).

Definition hash_id (entry : AuditLedgerEntry) : string := ev_event_id (le_event entry).

#[export] Instance store : AuditStore World := {|
  audit_ledger := λ w,
    (Ok {| lg_entries := ledger w; lg_revision := Z.of_nat (length (ledger w)) |}, w);
  audit_replay := λ id w,
    (Ok ((λ x, {| rp_request_sha256 := x.1; rp_entry := x.2;
                  rp_revision := Z.of_nat (length (ledger w)) |}) <$> replays w !! id), w);
  audit_event := λ id w,
    (Ok (le_event <$> List.find (λ e, bool_decide (hash_id e = id)) (ledger w)), w);
  audit_append := λ revision id digest entry w,
    match replays w !! id with
    | Some (d, e) =>
      if bool_decide (d = digest)
      then (Ok {| rc_request_sha256 := digest; rc_entry := e; rc_disposition := AuditReplayed;
                  rc_revision := Z.of_nat (length (ledger w)) |}, w)
      else (Err AuditReplayConflict, w)
    | None =>
      if negb (revision =? Z.of_nat (length (ledger w)))
         || bool_decide (hash_id entry ∈ event_ids (ledger w))
      then (Err AuditConflict, w)
      else (Ok {| rc_request_sha256 := digest; rc_entry := entry; rc_disposition := AuditApplied;
                  rc_revision := revision + 1 |},
            {| ledger := ledger w ++ [entry]; replays := <[id := (digest, entry)]> (replays w);
               clock := clock w; issued := issued w |})
    end;
|}.

Definition signature (hash : string) : string := "signed " +:+ hash.

(** Each reading moves the clock by [tick]. *)
Definition providers (tick : Z) : AuditProviders World := {|
  audit_now := λ w,
    (Ok (clock w), {| ledger := ledger w; replays := replays w; clock := clock w + tick;
                      issued := issued w |});
  fresh_event_id := λ w,
    (Ok (padded 32 (issued w)), {| ledger := ledger w; replays := replays w; clock := clock w;
                                   issued := issued w + 1 |});
  audit_sign := λ h w, (Ok (signature h), w);
  audit_verify := λ h s w, (Ok (bool_decide (s = signature h)), w);
|}.

Definition genuine (hash s : string) : Prop := s = signature hash.

Lemma verifier_laws tick : @VerifierLaws genuine World (providers tick).
Proof.
  intros h s w r w' Hv. simpl in Hv. injection Hv as <- <-. unfold genuine. apply bool_decide_eq_true.
Qed.

(** The clock is steady unless it is made to step back. *)
Lemma laws am tick :
  @AuditLaws am genuine World store (providers tick) _ _ (λ _, True) ledger (0 ≤ tick) clock.
Proof.
  assert (∀ l, extends am genuine (0 ≤ tick) l l) as Hsame by done.
  assert (∀ w, grows am genuine (λ _, True) ledger (0 ≤ tick) clock w w) as Hrefl by done.
  split; simpl.
  - intros w r w' [= <- <-]. split; [done|]. by intros l _ [= <-].
  - by intros id w r w' [= _ <-].
  - intros revision id digest entry w r w' _ _ Ha. split; [done|]. destruct (replays w !! id) as [[d e]|].
    { case_bool_decide; injection Ha as <- <-; (split; [lia|]); exists (ledger w); split; [done|left|done|left];
        (split; [done|simpl; by intros ?]). }
    destruct (_ || _) eqn:E; injection Ha as <- <-; (split; [simpl; lia|]); exists (ledger w);
      (split; [done|]); [left; split; [done|by intros ?]|right].
    apply orb_false_iff in E as [E1%negb_false_iff%Z.eqb_eq E2%bool_decide_eq_false]. by split_and!.
  - intros w r w' [= <- <-]. split; [|by intros now _ [= <-]; simpl; lia].
    intros _. split_and!; [done..|simpl; lia].
  - intros w r w' [= _ <-] _. split_and!; [done..|simpl; lia].
  - intros h w r w' [= <- <-]. split; [done|]. by intros s [= <-].
  - by intros h s w r w' [= _ <-].
Qed.

(** ** Runs *)

Definition node : string := padded 32 1.
Definition manager : AuditManager :=
  {| am_node_id := node; am_checkpoint_policy := {| policy_interval := 2 |} |}.
Definition request (replay_id target : string) : AuditAppendRequest :=
  {| ar_replay_id := replay_id; ar_correlation_id := padded 32 9;
     ar_actor := {| actor_kind := LocalUser; actor_identifier := "root" |};
     ar_origin := {| origin_node_id := node; origin_interface := OriginCli |};
     ar_action := "node.setup"; ar_target := target; ar_before_sha256 := None;
     ar_after_sha256 := None; ar_outcome := OutcomeSuccess; ar_reason := None |}.
Definition empty_world : World := {| ledger := []; replays := ∅; clock := 1000; issued := 0 |}.

Definition appended (out : result AuditError AuditAppendReceipt * World) : bool :=
  match out.1 with
  | Ok r => match rc_disposition r with AuditApplied => true | AuditReplayed => false end
  | Err _ => false
  end.
Lemma appended_Ok out : appended out = true → ∃ receipt, out = (Ok receipt, out.2).
Proof. destruct out as [[receipt|] w]; [by exists receipt|done]. Qed.

Definition append (tick : Z) := @manager_append World store (providers tick) _ _ manager.
Definition verify (tick : Z) := @manager_verify World store (providers tick) _ _ manager.
Definition first_append (tick : Z) := append tick (request "a" "node-1") empty_world.
Definition second_append (tick : Z) := append tick (request "b" "node-2") (first_append tick).2.
Definition snapshot (w : World) : AuditLedger :=
  {| lg_entries := ledger w; lg_revision := Z.of_nat (length (ledger w)) |}.

Definition verified (out : result AuditError AuditVerification * World) : bool := is_ok out.1.
Lemma verified_Ok out : verified out = true → ∃ v, out = (Ok v, out.2).
Proof. destruct out as [[v|] w]; [by exists v|done]. Qed.
Abbreviation check tick w := (@verify_ledger World (providers tick) _ _ manager (snapshot w) w).

(** The ledger whose second event was stamped before the clock stepped back. *)
Definition locked : list AuditLedgerEntry := ledger (second_append (-1)).2.
Lemma locked_fails tick w :
  @verify_ledger World (providers tick) _ _ manager {| lg_entries := locked; lg_revision := 2 |} w
  = (Err (AuditIntegrity (IntegrityCheckpointTime 2)), w).
Proof. vm_compute. reflexivity. Qed.
Lemma locked_read tick w :
  ledger w = locked →
  @verify_ledger World (providers tick) _ _ manager (snapshot w) w
  = (Err (AuditIntegrity (IntegrityCheckpointTime 2)), w).
Proof. intros Hw. unfold snapshot. rewrite Hw. apply locked_fails. Qed.
Lemma locked_require tick entry w :
  ledger w = locked →
  @require_in_ledger World store (providers tick) _ _ manager entry w
  = (Err (AuditIntegrity (IntegrityCheckpointTime 2)), w).
Proof.
  intros Hw. unfold require_in_ledger, se_bind.
  change (@audit_store World _ audit_ledger w) with (Ok (E := AuditError) (snapshot w), w).
  cbv beta iota. rewrite locked_read by exact Hw. reflexivity.
Qed.
Lemma locked_attempts tick req digest id now n w :
  ledger w = locked →
  @append_attempts World store (providers tick) _ _ manager req digest id now (S n) w
  = (Err (AuditIntegrity (IntegrityCheckpointTime 2)), w).
Proof.
  intros Hw. cbn [append_attempts]. unfold se_bind at 1.
  change (@audit_store World _ audit_ledger w) with (Ok (E := AuditError) (snapshot w), w).
  cbv beta iota. unfold se_bind at 1. rewrite locked_read by exact Hw. reflexivity.
Qed.
End AuditScenario.
Import AuditScenario.

(** a clock that steps back once locks the audit chain for good.  An
    append whose event needs a checkpoint reads the clock twice; when the second
    reading is earlier, the entry is stored all the same, and from then on every
    verification fails and every append is refused without changing the ledger,
    whatever the clock does later. *)
Theorem clock_step_back_locks_the_ledger :
  appended (second_append (-1)) = true ∧
  ∀ tick w, ledger w = ledger (second_append (-1)).2 →
    (verify tick w).1 = Err (AuditIntegrity (IntegrityCheckpointTime 2)) ∧
    ∀ request, ∃ e, (append tick request w).1 = Err e ∧ ledger (append tick request w).2 = ledger w.
Proof.
  split; [vm_compute; reflexivity|]. intros tick w Hw. fold locked in Hw. split.
  { unfold verify, manager_verify, se_bind, audit_store. simpl. fold (snapshot w). rewrite locked_read by exact Hw. reflexivity. }
  intros req. destruct (append tick req w) as [r w'] eqn:E. cbn [fst snd].
  unfold append, manager_append in E.
  apply se_bind_inv in E as [(digest & w1 & [_ <-]%se_lift_Ok & E)|(e & Hd & ->)];
    [|injection Hd as _ <-; eexists; split; reflexivity].
  apply se_bind_inv in E as [(replay & w1 & Hr & E)|(e & Hr & ->)]; injection Hr as Hr <-; [|discriminate Hr].
  destruct replay as [replay|].
  - apply se_bind_inv in E as [([] & w1 & Hq & E)|(e & Hq & ->)].
    + apply require_request_Ok in Hq as [_ ->].
      apply se_bind_inv in E as [([] & w1 & Hl & E)|(e & Hl & ->)];
        rewrite locked_require in Hl by exact Hw; [discriminate Hl|].
      injection Hl as _ <-. eexists. split; reflexivity.
    + unfold require_request in Hq. destruct (negb _); [injection Hq as _ <-; eexists; split; reflexivity|].
      apply se_bind_inv in Hq as [(d & w1 & [_ <-]%se_lift_Ok & Hq)|(e' & Hq & _)];
        [destruct (negb _)|]; injection Hq; intros; subst w'; eexists; split; reflexivity.
  - apply se_bind_inv in E as [(id & w1 & Hid & E)|(e & [=] & _)]; injection Hid as _ <-.
    apply se_bind_inv in E as [(now & w1 & Hnow & E)|(e & [=] & _)]; injection Hnow as _ <-.
    change MAX_APPEND_ATTEMPTS with (S 7) in E. rewrite locked_attempts in E by exact Hw. injection E as <- <-. eexists. split; reflexivity.
Qed.

(** Two appends, the second with a checkpoint, with a clock that goes forward and
    with one that steps back. *)
Lemma append_extends_the_chain_witness :
  (∃ receipt, second_append 1 = (Ok receipt, (second_append 1).2) ∧
     rc_entry receipt ∈ ledger (second_append 1).2 ∧
     chain manager genuine True (ledger (second_append 1).2)) ∧
  chain manager genuine False locked.
Proof.
  assert (∀ tick w r w' req, append tick req w = (r, w') →
    (chain manager genuine False (ledger w) → chain manager genuine False (ledger w')) ∧
    (0 ≤ tick → chain manager genuine True (ledger w) → chain manager genuine True (ledger w')) ∧
    ∀ receipt, r = Ok receipt → rc_entry receipt ∈ ledger w') as Hstep.
  { intros tick w r w' req E.
    destruct (@append_extends_the_chain manager genuine World store (providers tick) _ _ (λ _, True) ledger
      (0 ≤ tick) clock (laws manager tick) (verifier_laws tick) _ _ _ _ I E) as (_ & H0 & H1 & Hr).
    split_and!; [exact H0|exact H1|intros receipt Hok; exact (proj1 (Hr _ Hok))]. }
  split.
  - destruct (appended_Ok (second_append 1)) as [receipt E]; [vm_compute; reflexivity|].
    exists receipt. split; [exact E|]. destruct (Hstep _ _ _ _ _ E) as (_ & Hc & Hr).
    split; [exact (Hr _ eq_refl)|]. apply Hc; [lia|].
    apply (Hstep _ _ _ _ _ (surjective_pairing (first_append 1))); [lia|apply chain_nil].
  - apply (Hstep _ _ _ _ _ (surjective_pairing (second_append (-1)))).
    apply (Hstep _ _ _ _ _ (surjective_pairing (first_append (-1)))), chain_nil.
Defined.

Lemma verification_is_exact_witness :
  ∃ v, (check 1 (second_append 1).2).1 = Ok v ∧ chain manager genuine True (ledger (second_append 1).2) ∧
    v = verification_of (ledger (second_append 1).2).
Proof.
  destruct (verified_Ok (check 1 (second_append 1).2)) as [v E]; [vm_compute; reflexivity|].
  exists v. split; [exact (f_equal fst E)|].
  exact (proj1 (@verification_is_exact manager genuine World (providers 1) _ _
    (verifier_laws 1) (snapshot (second_append 1).2) _ _ _ E) v eq_refl).
Defined.

(** The ledger of two appends, and the same one read again. *)
Lemma verified_head_fixes_the_history_witness :
  is_ok (check 1 (second_append 1).2).1 = true ∧
  (le_event <$> ledger (second_append 1).2 = le_event <$> ledger (second_append 1).2 ∨ sha256_collision).
Proof.
  split; [vm_compute; reflexivity|].
  destruct (verified_Ok (check 1 (second_append 1).2)) as [v E]; [vm_compute; reflexivity|].
  exact (@verified_head_fixes_the_history manager genuine World (providers 1) _ _ _ (verifier_laws 1)
    (snapshot (second_append 1).2) (snapshot (second_append 1).2) _ _ _ _ v v E E eq_refl eq_refl).
Defined.
