(* ===== verification/AuditDatabase.v ===== *)
(** * The audit store over the database

    [DatabaseAuditStore] of [core/node/src/li_audit_database.rs]: the chain as one
    head record and one record per event, checkpoint and replay identity, written by
    one transaction per append and read back collection by collection.  The store
    refines a list of entries and keeps the promises of [AuditAppend.AuditLaws]. *)

From Stdlib Require Import String.
From Stdlib Require Ascii.
From S2P Require Import Prelude Values Text Ordering Database DatabaseStorage DatabaseSafety.
From S2P Require Import AuditContract AuditManager AuditAppend DatabaseMemory AuditScenario.
Import (notations) Stdlib.Strings.Ascii.

(** ** Rows *)

Definition AUDIT_STATE_RECORD_ID : string := "chain".

Record AuditStateDatabaseRecord := {
  sd_record_id : string;
  sd_revision : Z;
  sd_head_sha256 : string;
}.
Record AuditEventDatabaseRecord := {
  ed_event_id : string;
  ed_sequence : Z;
  ed_correlation_id : string;
  ed_timestamp_unix_ns : Z;
  ed_node_id : string;
  ed_actor_type : string;
  ed_actor_id : string;
  ed_origin_node_id : string;
  ed_origin_interface : string;
  ed_action : string;
  ed_target : string;
  ed_before_sha256 : option string;
  ed_after_sha256 : option string;
  ed_outcome : string;
  ed_reason : option string;
  ed_previous_hash : string;
  ed_event_hash : string;
}.
Record AuditCheckpointDatabaseRecord := {
  kd_record_id : string;
  kd_sequence : Z;
  kd_event_hash : string;
  kd_signature : string;  (* bytes *)
  kd_created_at_unix_ns : Z;
}.
Record AuditReplayDatabaseRecord := {
  rd_replay_id : string;
  rd_request_sha256 : string;
  rd_event_id : string;
  rd_sequence : Z;
}.

Definition database_store_error (error : DatabaseError) : AuditStoreError :=
  match error with
  | DbConflict _ _ _ _ => AuditConflict
  | DbIdempotencyConflict _ => AuditReplayConflict
  | DbCorrupt _ | DbInvalidInput _ _ => AuditCorrupt
  | DbNotFound _ _ | DbUnavailable _ | DbClosed => AuditUnavailable
  end.

(** [map_err(database_store_error)] *)
Definition store_result {A} (r : result DatabaseError A) : result AuditStoreError A :=
  match r with Ok a => Ok a | Err e => Err (database_store_error e) end.

(** [map_err(|_| AuditStoreError::Corrupt)] *)
Definition audit_corrupt {E A} (r : result E A) : result AuditStoreError A :=
  match r with Ok a => Ok a | Err _ => Err AuditCorrupt end.

Definition digest (value : string) : result AuditStoreError string :=
  audit_corrupt (Sha256Digest_parse value).
Definition optional_digest (value : option string) : result AuditStoreError (option string) :=
  parse_option digest value.

Definition actor_type (value : string) : result AuditStoreError AuditActorType :=
  if bool_decide (value = "local-user") then Ok LocalUser
  else if bool_decide (value = "controller") then Ok ControllerActor
  else if bool_decide (value = "node-candidate") then Ok NodeCandidate
  else if bool_decide (value = "node") then Ok NodeActor
  else if bool_decide (value = "system") then Ok SystemActor
  else Err AuditCorrupt.
Definition stored_origin_interface (value : string) : result AuditStoreError AuditOriginInterface :=
  if bool_decide (value = "cli") then Ok OriginCli
  else if bool_decide (value = "controller") then Ok OriginController
  else if bool_decide (value = "pairing") then Ok OriginPairing
  else if bool_decide (value = "gateway") then Ok OriginGateway
  else if bool_decide (value = "node") then Ok OriginNode
  else if bool_decide (value = "system") then Ok OriginSystem
  else Err AuditCorrupt.
Definition stored_outcome (value : string) : result AuditStoreError AuditOutcome :=
  if bool_decide (value = "success") then Ok OutcomeSuccess
  else if bool_decide (value = "denied") then Ok OutcomeDenied
  else if bool_decide (value = "failed") then Ok OutcomeFailed
  else Err AuditCorrupt.

(** [format!("{sequence:020}")] *)
Fixpoint zeros (n : nat) (s : string) : string :=
  match n with O => s | S n => String "0"%char (zeros n s) end.
Definition sequence_record_id (sequence : Z) : string :=
  let digits := to_decimal sequence in zeros (20 - String.length digits) digits.

Definition database_replay_id (replay_id : string) : result AuditStoreError string :=
  let value := "audit:" +:+ replay_id in
  if 255 <? str_len value then Err AuditCorrupt else Ok value.

Definition event_record (event : AuditEvent) : AuditEventDatabaseRecord :=
  {| ed_event_id := ev_event_id event; ed_sequence := ev_sequence event;
     ed_correlation_id := ev_correlation_id event; ed_timestamp_unix_ns := ev_timestamp event;
     ed_node_id := ev_node_id event; ed_actor_type := actor_type_str (actor_kind (ev_actor event));
     ed_actor_id := actor_identifier (ev_actor event);
     ed_origin_node_id := origin_node_id (ev_origin event);
     ed_origin_interface := origin_interface_str (origin_interface (ev_origin event));
     ed_action := ev_action event; ed_target := ev_target event;
     ed_before_sha256 := ev_before_sha256 event; ed_after_sha256 := ev_after_sha256 event;
     ed_outcome := outcome_str (ev_outcome event); ed_reason := ev_reason event;
     ed_previous_hash := ev_previous_hash event; ed_event_hash := ev_event_hash event |}.

Definition event_from_record (record : AuditEventDatabaseRecord) : result AuditStoreError AuditEvent :=
  let? event_id := audit_corrupt (AuditEventId_parse (ed_event_id record)) in
  let? correlation_id := audit_corrupt (AuditCorrelationId_parse (ed_correlation_id record)) in
  let? timestamp := audit_corrupt (AuditUnixNanoseconds_new (ed_timestamp_unix_ns record)) in
  let? node_id := audit_corrupt (NodeId_parse (ed_node_id record)) in
  let? kind := actor_type (ed_actor_type record) in
  let? actor_id := audit_corrupt (AuditActorId_parse (ed_actor_id record)) in
  let? origin_node := audit_corrupt (NodeId_parse (ed_origin_node_id record)) in
  let? interface := stored_origin_interface (ed_origin_interface record) in
  let? action := audit_corrupt (AuditAction_parse (ed_action record)) in
  let? target := audit_corrupt (AuditTarget_parse (ed_target record)) in
  let? before := optional_digest (ed_before_sha256 record) in
  let? after := optional_digest (ed_after_sha256 record) in
  let? outcome := stored_outcome (ed_outcome record) in
  let? reason := audit_corrupt (parse_option AuditReason_parse (ed_reason record)) in
  let? previous_hash := digest (ed_previous_hash record) in
  let? event_hash := digest (ed_event_hash record) in
  audit_corrupt (AuditEvent_from_persisted
    {| ev_sequence := ed_sequence record; ev_event_id := event_id;
       ev_correlation_id := correlation_id; ev_timestamp := timestamp; ev_node_id := node_id;
       ev_actor := {| actor_kind := kind; actor_identifier := actor_id |};
       ev_origin := {| origin_node_id := origin_node; origin_interface := interface |};
       ev_action := action; ev_target := target; ev_before_sha256 := before;
       ev_after_sha256 := after; ev_outcome := outcome; ev_reason := reason;
       ev_previous_hash := previous_hash; ev_event_hash := event_hash |}).

Definition checkpoint_record (checkpoint : AuditCheckpoint) : AuditCheckpointDatabaseRecord :=
  {| kd_record_id := sequence_record_id (cp_sequence checkpoint); kd_sequence := cp_sequence checkpoint;
     kd_event_hash := cp_event_hash checkpoint; kd_signature := cp_signature checkpoint;
     kd_created_at_unix_ns := cp_created_at checkpoint |}.

Definition checkpoint_from_record (record : AuditCheckpointDatabaseRecord)
  : result AuditStoreError AuditCheckpoint :=
  let? event_hash := digest (kd_event_hash record) in
  let? created_at := audit_corrupt (AuditUnixNanoseconds_new (kd_created_at_unix_ns record)) in
  audit_corrupt (AuditCheckpoint_from_persisted (kd_sequence record) event_hash
                   (kd_signature record) created_at).

(** ** The store *)

Section store.
Context {C : Type} `{!Sqlite C, !DatabaseClock C, !Sha256, !Json DatabaseCommit,
  !Json (list DatabaseCommit), !Json AuditStateDatabaseRecord, !Json AuditEventDatabaseRecord,
  !Json AuditCheckpointDatabaseRecord, !Json AuditReplayDatabaseRecord}.
Abbreviation AD := (SE (DatabaseManager C) AuditStoreError).

#[export] Instance state_row : DatabaseRecord AuditStateDatabaseRecord := {|
  record_collection := AuditState; record_version_of := 1; record_identifier := sd_record_id |}.
#[export] Instance event_row : DatabaseRecord AuditEventDatabaseRecord := {|
  record_collection := AuditEvents; record_version_of := 1; record_identifier := ed_event_id |}.
#[export] Instance checkpoint_row : DatabaseRecord AuditCheckpointDatabaseRecord := {|
  record_collection := AuditCheckpoints; record_version_of := 1; record_identifier := kd_record_id |}.
#[export] Instance replay_row : DatabaseRecord AuditReplayDatabaseRecord := {|
  record_collection := AuditReplays; record_version_of := 1; record_identifier := rd_replay_id |}.

Definition database_records (R : Type) `{!DatabaseRecord R} : AD (list (DatabaseStoredRecord R)) :=
  se_map_err database_store_error database_read_all.

(** The loop over the checkpoint records; [checkpoint_by_sequence] is the map so far. *)
Fixpoint collect_checkpoints (checkpoints : list (DatabaseStoredRecord AuditCheckpointDatabaseRecord))
    (checkpoint_by_sequence : gmap Z AuditCheckpoint) : result AuditStoreError (gmap Z AuditCheckpoint) :=
  match checkpoints with
  | [] => Ok checkpoint_by_sequence
  | checkpoint :: checkpoints =>
    let value := sr_value checkpoint in
    if negb (sr_revision checkpoint =? 1)
       || negb (bool_decide (kd_record_id value = sequence_record_id (kd_sequence value)))
    then Err AuditCorrupt
    else
      let? parsed := checkpoint_from_record value in
      if bool_decide (is_Some (checkpoint_by_sequence !! kd_sequence value)) then Err AuditCorrupt
      else collect_checkpoints checkpoints (<[kd_sequence value := parsed]> checkpoint_by_sequence)
  end.

Definition stored_event (stored : DatabaseStoredRecord AuditEventDatabaseRecord)
  : result AuditStoreError AuditEvent :=
  if negb (sr_revision stored =? 1)
     || negb (bool_decide (ed_event_id (sr_value stored) = record_identifier (sr_value stored)))
  then Err AuditCorrupt
  else event_from_record (sr_value stored).

(** The loop over the ordered events from position [index]. *)
Fixpoint pair_entries (ordered_events : list AuditEvent) (index : Z)
    (checkpoint_by_sequence : gmap Z AuditCheckpoint)
  : result AuditStoreError (list AuditLedgerEntry * gmap Z AuditCheckpoint) :=
  match ordered_events with
  | [] => Ok ([], checkpoint_by_sequence)
  | event :: ordered_events =>
    let? expected_sequence := ok_or AuditCorrupt (checked_add_u64 index 1) in
    if negb (ev_sequence event =? expected_sequence) then Err AuditCorrupt
    else
      let? entry := AuditLedgerEntry_new event (checkpoint_by_sequence !! ev_sequence event) in
      let? (entries, rest) := pair_entries ordered_events (index + 1)
                                (delete (ev_sequence event) checkpoint_by_sequence) in
      Ok (entry :: entries, rest)
  end.

(** The loop over the replay records, with the identities seen so far. *)
Fixpoint check_replays (events : gmap string AuditEvent)
    (replays : list (DatabaseStoredRecord AuditReplayDatabaseRecord))
    (replay_ids replayed_events : gset string) : result AuditStoreError () :=
  match replays with
  | [] => Ok ()
  | stored :: replays =>
    let record := sr_value stored in
    let? event := ok_or AuditCorrupt (events !! rd_event_id record) in
    if negb (sr_revision stored =? 1)
       || negb (bool_decide (rd_replay_id record = record_identifier record))
       || bool_decide (rd_replay_id record ∈ replay_ids)
       || bool_decide (rd_event_id record ∈ replayed_events)
       || negb (is_ok (digest (rd_request_sha256 record)))
       || negb (ev_sequence event =? rd_sequence record)
    then Err AuditCorrupt
    else check_replays events replays ({[rd_replay_id record]} ∪ replay_ids)
           ({[rd_event_id record]} ∪ replayed_events)
  end.

(** Later entries replace earlier ones in [collect]. *)
Definition validate_replays (replays : list (DatabaseStoredRecord AuditReplayDatabaseRecord))
    (entries : list AuditLedgerEntry) : result AuditStoreError () :=
  if negb (bool_decide (length replays = length entries)) then Err AuditCorrupt
  else
    let events := list_to_map (reverse
      ((λ entry, (ev_event_id (le_event entry), le_event entry)) <$> entries)) in
    check_replays events replays ∅ ∅.

(** The body of [ledger] after its four reads. *)
Definition assemble_ledger (states : list (DatabaseStoredRecord AuditStateDatabaseRecord))
    (events : list (DatabaseStoredRecord AuditEventDatabaseRecord))
    (checkpoints : list (DatabaseStoredRecord AuditCheckpointDatabaseRecord))
    (replays : list (DatabaseStoredRecord AuditReplayDatabaseRecord))
  : result AuditStoreError AuditLedger :=
  match states, events, checkpoints, replays with
  | [], [], [], [] => AuditLedger_from_persisted [] 0
  | [state], _, _, _ =>
    if negb (bool_decide (sd_record_id (sr_value state) = AUDIT_STATE_RECORD_ID))
       || negb (sd_revision (sr_value state) =? sr_revision state)
       || negb (sd_revision (sr_value state) =? Z.of_nat (length events))
    then Err AuditCorrupt
    else
      let? checkpoint_by_sequence := collect_checkpoints checkpoints ∅ in
      let? parsed := parse_all stored_event events in
      let ordered_events := sort_by (λ a b, ev_sequence a ?= ev_sequence b) parsed in
      let? (entries, rest) := pair_entries ordered_events 0 checkpoint_by_sequence in
      if negb (bool_decide (rest = ∅))
         || negb (bool_decide ((λ entry, ev_event_hash (le_event entry)) <$> last entries
                               = Some (sd_head_sha256 (sr_value state))))
      then Err AuditCorrupt
      else
        let? _ := validate_replays replays entries in
        AuditLedger_from_persisted entries (sd_revision (sr_value state))
  | _, _, _, _ => Err AuditCorrupt
  end.

(** Each read sees the state of the database at its own time. *)
Definition ledger_reads : AD (list (DatabaseStoredRecord AuditStateDatabaseRecord)
    * list (DatabaseStoredRecord AuditEventDatabaseRecord)
    * list (DatabaseStoredRecord AuditCheckpointDatabaseRecord)
    * list (DatabaseStoredRecord AuditReplayDatabaseRecord)) :=
  do! states <- database_records AuditStateDatabaseRecord in
  do! events <- database_records AuditEventDatabaseRecord in
  do! checkpoints <- database_records AuditCheckpointDatabaseRecord in
  do! replays <- database_records AuditReplayDatabaseRecord in
  se_ret (states, events, checkpoints, replays).

Definition database_ledger : AD AuditLedger :=
  do! (states, events, checkpoints, replays) <- ledger_reads in
  se_lift (assemble_ledger states events checkpoints replays).

Definition database_entry (event_id : string) : AD (option (AuditLedgerEntry * Z)) :=
  do! ledger <- database_ledger in
  se_ret ((λ entry, (entry, lg_revision ledger)) <$>
    List.find (λ entry, bool_decide (ev_event_id (le_event entry) = event_id)) (lg_entries ledger)).

Definition database_replay (replay_id : string) : AD (option AuditReplayReceipt) := λ m,
  match database_read_record (R := AuditReplayDatabaseRecord) replay_id m with
  | (Err (DbNotFound _ _), m) => (Ok None, m)
  | (Err error, m) => (Err (database_store_error error), m)
  | (Ok stored, m) =>
    let value := sr_value stored in
    (if negb (sr_revision stored =? 1) || negb (bool_decide (rd_replay_id value = replay_id))
     then se_fail AuditCorrupt
     else
       do! request_sha256 <- se_lift (digest (rd_request_sha256 value)) in
       do! event_id <- se_lift (audit_corrupt (AuditEventId_parse (rd_event_id value))) in
       do! found <- database_entry event_id in
       do! (entry, revision) <- se_lift (ok_or AuditCorrupt found) in
       if negb (ev_sequence (le_event entry) =? rd_sequence value) then se_fail AuditCorrupt
       else se_ret (Some {| rp_request_sha256 := request_sha256; rp_entry := entry;
                            rp_revision := revision |})) m
  end.

Definition database_event (event_id : string) : AD (option AuditEvent) :=
  do! found <- database_entry event_id in
  se_ret ((λ x, le_event x.1) <$> found).

Definition append_transaction (expected_revision : Z) (replay_id request_sha256 : string)
    (entry : AuditLedgerEntry) : result AuditStoreError DatabaseTransaction :=
  let event := le_event entry in
  let state_revision := if expected_revision =? 0 then RevisionMissing
                        else RevisionExact expected_revision in
  let? transaction_id := database_replay_id replay_id in
  let? transaction := store_result (DatabaseTransaction_new transaction_id) in
  let? transaction := store_result (tx_save {| sd_record_id := AUDIT_STATE_RECORD_ID;
                                       sd_revision := ev_sequence event;
                                       sd_head_sha256 := ev_event_hash event |} state_revision transaction) in
  let? transaction := store_result (tx_save (event_record event) RevisionMissing transaction) in
  let? transaction := match le_checkpoint entry with
                      | Some checkpoint =>
                        store_result (tx_save (checkpoint_record checkpoint) RevisionMissing transaction)
                      | None => Ok transaction
                      end in
  store_result (tx_save {| rd_replay_id := replay_id; rd_request_sha256 := request_sha256;
                   rd_event_id := ev_event_id event; rd_sequence := ev_sequence event |}
          RevisionMissing transaction).

(** The receipt of a stored replay for the same request. *)
Definition replayed_receipt (request_sha256 : string) (replay : AuditReplayReceipt) : AD AuditAppendReceipt :=
  if negb (bool_decide (rp_request_sha256 replay = request_sha256)) then se_fail AuditReplayConflict
  else se_ret {| rc_request_sha256 := request_sha256; rc_entry := rp_entry replay;
                 rc_disposition := AuditReplayed; rc_revision := rp_revision replay |}.

Definition replay_after_collision (replay_id request_sha256 : string) : AD AuditAppendReceipt :=
  do! replay <- database_replay replay_id in
  do! replay <- se_lift (ok_or AuditReplayConflict replay) in
  replayed_receipt request_sha256 replay.

Definition database_append (expected_revision : Z) (replay_id request_sha256 : string)
    (entry : AuditLedgerEntry) : AD AuditAppendReceipt :=
  do! replay <- database_replay replay_id in
  match replay with
  | Some replay => replayed_receipt request_sha256 replay
  | None =>
    if negb (ev_sequence (le_event entry) =? saturating_add_u64 expected_revision 1)
    then se_fail AuditCorrupt
    else
      do! transaction <- se_lift (append_transaction expected_revision replay_id request_sha256 entry) in
      λ m, match database_write_transaction transaction m with
           | (Ok (_, disposition), m) =>
             (Ok {| rc_request_sha256 := request_sha256; rc_entry := entry;
                    rc_disposition := match disposition with
                                      | Applied => AuditApplied
                                      | Replayed => AuditReplayed
                                      end;
                    rc_revision := expected_revision + 1 |}, m)
           | (Err (DbIdempotencyConflict _), m) => replay_after_collision replay_id request_sha256 m
           | (Err error, m) => (Err (database_store_error error), m)
           end
  end.

#[export] Instance database_audit_store : AuditStore (DatabaseManager C) := {|
  audit_ledger := database_ledger;
  audit_replay := database_replay;
  audit_event := database_event;
  audit_append := database_append;
|}.
End store.

(** ** Rows are the projections of their events *)

Lemma audit_corrupt_Ok {E A} (r : result E A) a : audit_corrupt r = Ok a → r = Ok a.
Proof. destruct r; naive_solver. Qed.
Lemma store_result_Ok {A} (r : result DatabaseError A) a : store_result r = Ok a → r = Ok a.
Proof. destruct r; naive_solver. Qed.

Lemma identical_corrupt {E} (parse : string → result E string) :
  identical parse → identical (λ v, audit_corrupt (parse v)).
Proof. intros Hp v w Hw%audit_corrupt_Ok. by apply Hp. Qed.
Lemma identical_node : identical NodeId_parse.
Proof. by intros v w [_ ?]%validate_Ok. Qed.
Lemma identical_sha256 : identical Sha256Digest_parse.
Proof. by intros v w [_ ?]%validate_Ok. Qed.
Lemma identical_event_id : identical AuditEventId_parse.
Proof. intros v w (? & _ & [= <-])%result_bind_Ok. done. Qed.
Lemma identical_correlation_id : identical AuditCorrelationId_parse.
Proof. intros v w (? & _ & [= <-])%result_bind_Ok. done. Qed.
Lemma identical_actor_id : identical AuditActorId_parse.
Proof. intros v w. unfold AuditActorId_parse. case_match; congruence. Qed.
Lemma identical_target : identical AuditTarget_parse.
Proof. intros v w. unfold AuditTarget_parse. case_match; congruence. Qed.
Lemma identical_technical_name : identical TechnicalName_parse.
Proof. by intros v w [_ ?]%validate_Ok. Qed.
Lemma identical_action : identical AuditAction_parse.
Proof.
  intros v w. unfold AuditAction_parse. destruct (TechnicalName_parse v) eqn:E; [|done].
  intros [= <-]. by apply identical_technical_name.
Qed.
Lemma identical_reason : identical AuditReason_parse.
Proof.
  intros v w. unfold AuditReason_parse. destruct (TechnicalName_parse v) eqn:E; [|done].
  intros [= <-]. by apply identical_technical_name.
Qed.
Lemma timestamp_Ok v w : AuditUnixNanoseconds_new v = Ok w → w = v.
Proof. unfold AuditUnixNanoseconds_new. case_match; congruence. Qed.

Lemma stored_actor_type kind : actor_type (actor_type_str kind) = Ok kind.
Proof. by destruct kind. Qed.
Lemma stored_interface interface : stored_origin_interface (origin_interface_str interface) = Ok interface.
Proof. by destruct interface. Qed.
Lemma stored_outcome_str outcome : stored_outcome (outcome_str outcome) = Ok outcome.
Proof. by destruct outcome. Qed.

(** A row that is read back is the event that was written. *)
Lemma event_row_faithful event event' :
  event_from_record (event_record event) = Ok event' → event' = event.
Proof.
  unfold event_from_record. cbn [event_record ed_event_id ed_correlation_id ed_timestamp_unix_ns ed_node_id
    ed_actor_type ed_actor_id ed_origin_node_id ed_origin_interface ed_action ed_target ed_before_sha256
    ed_after_sha256 ed_outcome ed_reason ed_previous_hash ed_event_hash ed_sequence].
  rewrite stored_actor_type, stored_interface, stored_outcome_str. cbn [result_bind].
  intros (? & H1 & Hr)%result_bind_Ok.
  repeat match type of Hr with
    | result_bind _ _ = _ => let x := fresh "x" in let H := fresh "Hx" in
                             apply result_bind_Ok in Hr as (x & H & Hr)
    end.
  apply (identical_corrupt _ identical_event_id) in H1. unfold optional_digest in *.
  repeat match goal with
    | H : parse_option digest _ = Ok _ |- _ => apply (parse_option_Ok _ _ _ (identical_corrupt _ identical_sha256)) in H as [H _]
    | H : audit_corrupt (parse_option _ _) = Ok _ |- _ => apply audit_corrupt_Ok, (parse_option_Ok _ _ _ identical_reason) in H as [H _]
    | H : digest _ = Ok _ |- _ => apply (identical_corrupt _ identical_sha256) in H
    | H : audit_corrupt (AuditUnixNanoseconds_new _) = Ok _ |- _ => apply audit_corrupt_Ok, timestamp_Ok in H
    | H : audit_corrupt (AuditCorrelationId_parse _) = Ok _ |- _ => apply (identical_corrupt _ identical_correlation_id) in H
    | H : audit_corrupt (NodeId_parse _) = Ok _ |- _ => apply (identical_corrupt _ identical_node) in H
    | H : audit_corrupt (AuditActorId_parse _) = Ok _ |- _ => apply (identical_corrupt _ identical_actor_id) in H
    | H : audit_corrupt (AuditAction_parse _) = Ok _ |- _ => apply (identical_corrupt _ identical_action) in H
    | H : audit_corrupt (AuditTarget_parse _) = Ok _ |- _ => apply (identical_corrupt _ identical_target) in H
    end.
  apply audit_corrupt_Ok in Hr. unfold AuditEvent_from_persisted in Hr. repeat case_match; simplify_eq.
  by destruct event as [? ? ? ? ? [] [] ? ? ? ? ? ? ? ?].
Qed.

Lemma checkpoint_row_faithful checkpoint checkpoint' :
  checkpoint_from_record (checkpoint_record checkpoint) = Ok checkpoint' → checkpoint' = checkpoint.
Proof.
  unfold checkpoint_from_record. intros (h & Hh & (t & Ht & Hr)%result_bind_Ok)%result_bind_Ok.
  apply (identical_corrupt _ identical_sha256) in Hh. apply audit_corrupt_Ok, timestamp_Ok in Ht.
  apply audit_corrupt_Ok in Hr. unfold AuditCheckpoint_from_persisted in Hr. repeat case_match; simplify_eq.
  by destruct checkpoint.
Qed.

Lemma event_row_range event : event_from_record (event_record event) = Ok event → 0 < ev_sequence event ≤ i64_max ∨ ev_sequence event < 0.
Proof.
  unfold event_from_record. intros Hr.
  repeat (apply result_bind_Ok in Hr as (? & _ & Hr)). apply audit_corrupt_Ok in Hr.
  unfold AuditEvent_from_persisted in Hr. destruct (_ || _) eqn:E; [done|].
  apply orb_false_iff in E as [?%Z.eqb_neq ?%Z.ltb_ge]. simpl in *. lia.
Qed.

(** ** The log a database holds *)

(** One committed append. *)
Record LoggedEntry := {
  lo_replay_id : string;
  lo_request_sha256 : string;
  lo_entry : AuditLedgerEntry;
}.
Definition lo_event (x : LoggedEntry) : AuditEvent := le_event (lo_entry x).
Definition lo_checkpoint (x : LoggedEntry) : option AuditCheckpoint := le_checkpoint (lo_entry x).

Definition row_of {R} (id : string) (value : R) (revision : Z) : string * (option R * Z) :=
  (id, (Some value, revision)).
Definition event_pair (event : AuditEvent) := row_of (ev_event_id event) (event_record event) 1.
Definition checkpoint_pair (c : AuditCheckpoint) :=
  row_of (sequence_record_id (cp_sequence c)) (checkpoint_record c) 1.
Definition replay_of (x : LoggedEntry) : AuditReplayDatabaseRecord :=
  {| rd_replay_id := lo_replay_id x; rd_request_sha256 := lo_request_sha256 x;
     rd_event_id := ev_event_id (lo_event x); rd_sequence := ev_sequence (lo_event x) |}.
Definition replay_pair (x : LoggedEntry) := row_of (lo_replay_id x) (replay_of x) 1.
Definition state_of (log : list LoggedEntry) : AuditStateDatabaseRecord :=
  {| sd_record_id := AUDIT_STATE_RECORD_ID; sd_revision := Z.of_nat (length log);
     sd_head_sha256 := head_hash (lo_entry <$> log) |}.
Definition state_pairs (log : list LoggedEntry) :=
  match log with
  | [] => []
  | _ => [row_of AUDIT_STATE_RECORD_ID (state_of log) (Z.of_nat (length log))]
  end.

(** The entries are numbered from [n] on and their checkpoints belong to them. *)
Fixpoint numbered (n : Z) (log : list LoggedEntry) : Prop :=
  match log with
  | [] => True
  | x :: log => ev_sequence (lo_event x) = n + 1 ∧ paired (lo_entry x) ∧ numbered (n + 1) log
  end.
(** The values of the entry pass the parsers of the store. *)
Definition storable (x : LoggedEntry) : Prop :=
  event_from_record (event_record (lo_event x)) = Ok (lo_event x) ∧
  (∀ c, lo_checkpoint x = Some c → checkpoint_from_record (checkpoint_record c) = Ok c) ∧
  digest (lo_request_sha256 x) = Ok (lo_request_sha256 x).

Definition ledger_of (log : list LoggedEntry) : AuditLedger :=
  {| lg_entries := lo_entry <$> log; lg_revision := Z.of_nat (length log) |}.

Lemma paired_checkpoint entry c :
  paired entry → le_checkpoint entry = Some c → cp_sequence c = ev_sequence (le_event entry).
Proof.
  unfold paired, AuditLedgerEntry_new. intros Hp Hc. rewrite Hc in Hp. destruct (_ || _) eqn:E; [done|].
  apply orb_false_iff in E as [?%negb_false_iff%Z.eqb_eq _]. done.
Qed.
Lemma numbered_snoc n log x :
  numbered n log → paired (lo_entry x) → ev_sequence (lo_event x) = n + Z.of_nat (length log) + 1 →
  numbered n (log ++ [x]).
Proof.
  revert n. induction log as [|y log IH]; intros n Hn Hp Hs; simpl in *; [split_and!; [lia|done..]|].
  destruct Hn as (? & ? & ?). split_and!; [done..|]. apply IH; [done..|lia].
Qed.
Lemma numbered_gt n log x : numbered n log → x ∈ log → n < ev_sequence (lo_event x).
Proof.
  revert n. induction log as [|y log IH]; intros n; [by intros _ ?%elem_of_nil|].
  intros (? & _ & Hn) [->|Hx]%elem_of_cons; [lia|]. specialize (IH _ Hn Hx). lia.
Qed.
Lemma numbered_paired n log x : numbered n log → x ∈ log → paired (lo_entry x).
Proof.
  revert n. induction log as [|y log IH]; intros n; [by intros _ ?%elem_of_nil|].
  intros (_ & ? & Hn) [->|Hx]%elem_of_cons; eauto.
Qed.
Lemma numbered_inj n log x y :
  numbered n log → x ∈ log → y ∈ log → ev_sequence (lo_event x) = ev_sequence (lo_event y) → x = y.
Proof.
  revert n. induction log as [|z log IH]; intros n; [by intros _ ?%elem_of_nil|].
  intros (Hz & _ & Hn) [->|Hx]%elem_of_cons [->|Hy]%elem_of_cons Heq; [done|..|by eapply IH].
  - pose proof (numbered_gt _ _ _ Hn Hy). lia.
  - pose proof (numbered_gt _ _ _ Hn Hx). lia.
Qed.


(** *** The pieces of [ledger] *)

Lemma sort_numbered n log events :
  numbered n log → events ≡ₚ lo_event <$> log →
  sort_by (λ a b, ev_sequence a ?= ev_sequence b) events = lo_event <$> log.
Proof.
  intros Hn Hp. set (cmp := λ a b : AuditEvent, _).
  apply (StronglySorted_unique_strong (cmp_le cmp)).
  - intros a b Ha Hb Hab Hba. rewrite elem_of_sort_by, Hp in Ha.
    apply list_elem_of_fmap in Ha as (x & -> & Hx), Hb as (y & -> & Hy). f_equal.
    apply (numbered_inj _ _ _ _ Hn Hx Hy). unfold cmp_le, cmp in *. rewrite Z.compare_gt_iff in *. lia.
  - apply (sort_by_Sorted cmp (λ _, True)). by apply Forall_true.
  - clear Hp. revert n Hn. induction log as [|x log IH]; intros n; [constructor|]. intros (Hx & _ & Hn). csimpl.
    constructor; [by eapply IH|]. apply Forall_fmap, Forall_forall. intros y Hy. pose proof (numbered_gt _ _ _ Hn Hy).
    unfold cmp_le, cmp, compose. rewrite Z.compare_gt_iff. lia.
  - by rewrite sort_by_Permutation.
Qed.

(** The checkpoints of the log by sequence. *)
Definition checkpoint_entry (c : AuditCheckpoint) : Z * AuditCheckpoint := (cp_sequence c, c).
Definition checkpoint_map (log : list LoggedEntry) : gmap Z AuditCheckpoint :=
  list_to_map (checkpoint_entry <$> omap lo_checkpoint log).

Lemma checkpoint_map_cons x log :
  checkpoint_map (x :: log) = match lo_checkpoint x with
    | Some c => <[cp_sequence c := c]> (checkpoint_map log)
    | None => checkpoint_map log
    end.
Proof. unfold checkpoint_map. csimpl. by destruct (lo_checkpoint x). Qed.
Lemma checkpoint_sequence n log c :
  numbered n log → c ∈ omap lo_checkpoint log →
  n < cp_sequence c ∧ ∃ x, x ∈ log ∧ cp_sequence c = ev_sequence (lo_event x) ∧ lo_checkpoint x = Some c.
Proof.
  intros Hn (x & Hx & Hc)%list_elem_of_omap. pose proof (numbered_paired _ _ _ Hn Hx) as Hp.
  pose proof (paired_checkpoint _ _ Hp Hc) as Hs. pose proof (numbered_gt _ _ _ Hn Hx). unfold lo_event in *.
  split; [lia|eauto].
Qed.
Lemma checkpoint_sequences n log : numbered n log → NoDup (cp_sequence <$> omap lo_checkpoint log).
Proof.
  revert n. induction log as [|x log IH]; intros n; [constructor|]. intros (Hx & Hp & Hn). csimpl.
  destruct (lo_checkpoint x) as [c|] eqn:Hc; [|by eapply IH]. csimpl. constructor; [|by eapply IH].
  intros (c' & Heq & Hc')%list_elem_of_fmap. apply (checkpoint_sequence _ _ _ Hn) in Hc' as [? _].
  pose proof (paired_checkpoint _ _ Hp Hc). unfold lo_event in *. lia.
Qed.

Lemma pair_entries_log n log :
  0 ≤ n → n + Z.of_nat (length log) ≤ i64_max → numbered n log →
  pair_entries (lo_event <$> log) n (checkpoint_map log) = Ok (lo_entry <$> log, ∅).
Proof.
  revert n. induction log as [|x log IH]; intros n H0 Hmax; [done|]. intros (Hx & Hp & Hn). simpl length in Hmax.
  assert (checked_add_u64 n 1 = Some (n + 1)) as Hadd
    by (apply checked_add_u64_Some; unfold i64_max, u64_max in *; lia).
  cbn [fmap list_fmap pair_entries]. rewrite Hadd.
  cbn [ok_or result_bind]. rewrite Hx, Z.eqb_refl. cbn [negb].
  assert (checkpoint_map (x :: log) !! (n + 1) = lo_checkpoint x ∧
          delete (n + 1) (checkpoint_map (x :: log)) = checkpoint_map log) as [Hl Hd].
  { assert (checkpoint_map log !! (n + 1) = None) as Hnone.
    { apply not_elem_of_list_to_map. intros ([s c] & Hs & (c' & Hc & Hin)%list_elem_of_fmap)%list_elem_of_fmap.
      injection Hc as -> ->. apply (checkpoint_sequence _ _ _ Hn) in Hin as [? _]. simpl in *. lia. }
    rewrite checkpoint_map_cons. destruct (lo_checkpoint x) as [c|] eqn:Hc.
    - pose proof (paired_checkpoint _ _ Hp Hc) as Hs. unfold lo_event in Hx. rewrite Hs, Hx. rewrite lookup_insert_eq. split; [done|]. by rewrite delete_insert_id.
    - split; [done|]. by rewrite delete_id. }
  rewrite Hl, Hd. unfold lo_event, lo_checkpoint. rewrite Hp. cbn [result_bind].
  rewrite IH; [done|lia|lia|done].
Qed.

Section assembly.
Context `{!Json AuditStateDatabaseRecord, !Json AuditEventDatabaseRecord,
  !Json AuditCheckpointDatabaseRecord, !Json AuditReplayDatabaseRecord}.

Lemma collect_checkpoints_log cps cs m :
  stored_pair <$> cps = checkpoint_pair <$> cs → NoDup (cp_sequence <$> cs) →
  (∀ c, c ∈ cs → m !! cp_sequence c = None) →
  (Forall (λ c, checkpoint_from_record (checkpoint_record c) = Ok c) cs →
   collect_checkpoints cps m = Ok (list_to_map (checkpoint_entry <$> cs) ∪ m)) ∧
  (is_ok (collect_checkpoints cps m) → Forall (λ c, checkpoint_from_record (checkpoint_record c) = Ok c) cs).
Proof.
  revert cps m. induction cs as [|c cs IH]; intros [|s cps] m Hs Hnd Hm; try done.
  { csimpl. rewrite (left_id_L ∅ (∪)). done. }
  csimpl in *. injection Hs as _ Hv Hrev Hrest.
  apply NoDup_cons in Hnd as [Hni Hnd]. rewrite Hv, Hrev. cbn [Z.eqb Pos.eqb negb orb checkpoint_record kd_record_id kd_sequence].
  rewrite bool_decide_true by done. cbn [negb].
  rewrite bool_decide_false by (rewrite (Hm c) by set_solver; by intros [? [=]]).
  destruct (IH cps (<[cp_sequence c := c]> m) Hrest Hnd) as [IH1 IH2].
  { intros c' Hc'. rewrite lookup_insert_ne; [apply Hm; set_solver|]. intros Heq. apply Hni. rewrite Heq. set_solver. }
  split.
  - intros [Hc Hcs]%Forall_cons. rewrite Hc. cbn [result_bind]. rewrite IH1 by done. f_equal.
    unfold checkpoint_entry at 2. rewrite <- insert_union_r; [by rewrite insert_union_l|].
    apply not_elem_of_list_to_map. by rewrite <- list_fmap_compose.
  - destruct (checkpoint_from_record (checkpoint_record c)) as [c'|] eqn:Hc; [|done].
    pose proof (checkpoint_row_faithful _ _ Hc) as ->. cbn [result_bind]. intros ?%IH2. by constructor.
Qed.

Lemma stored_events_log stored events :
  stored_pair <$> stored = event_pair <$> events →
  (Forall (λ e, event_from_record (event_record e) = Ok e) events → parse_all stored_event stored = Ok events) ∧
  (is_ok (parse_all stored_event stored) → Forall (λ e, event_from_record (event_record e) = Ok e) events).
Proof.
  revert stored. induction events as [|e events IH]; intros [|s stored] Hs; try done.
  csimpl in *. injection Hs as _ Hv Hrev Hrest.
  destruct (IH _ Hrest) as [IH1 IH2].
  assert (stored_event s = event_from_record (event_record e)) as ->.
  { unfold stored_event. rewrite Hv, Hrev, bool_decide_true by done. done. }
  split.
  - intros [He Hes]%Forall_cons. rewrite He. cbn [result_bind]. by rewrite IH1.
  - destruct (event_from_record (event_record e)) as [e'|] eqn:He; [|done].
    pose proof (event_row_faithful _ _ He) as ->. cbn [result_bind].
    destruct (parse_all stored_event stored); [|done]. intros _. constructor; [done|]. by apply IH2.
Qed.

Lemma check_replays_log events replays log ids seen :
  stored_pair <$> replays = replay_pair <$> log →
  NoDup (lo_replay_id <$> log) → NoDup (ev_event_id ∘ lo_event <$> log) →
  (∀ x, x ∈ log → (lo_replay_id x ∉ ids) ∧ (ev_event_id (lo_event x) ∉ seen) ∧
    events !! ev_event_id (lo_event x) = Some (lo_event x)) →
  (Forall (λ x, digest (lo_request_sha256 x) = Ok (lo_request_sha256 x)) log →
   check_replays events replays ids seen = Ok ()) ∧
  (is_ok (check_replays events replays ids seen) →
   Forall (λ x, digest (lo_request_sha256 x) = Ok (lo_request_sha256 x)) log).
Proof.
  revert replays ids seen. induction log as [|x log IH]; intros [|s replays] ids seen Hs Hnd Hnd' Hx; try done.
  csimpl in *. injection Hs as _ Hv Hrev Hrest.
  apply NoDup_cons in Hnd as [Hni Hnd], Hnd' as [Hni' Hnd'].
  destruct (Hx x) as (Hi & He & Hev); [set_solver|].
  rewrite Hv, Hrev. cbn [rd_event_id rd_replay_id rd_request_sha256 rd_sequence replay_of]. rewrite Hev. cbn [ok_or result_bind].
  rewrite (bool_decide_true (lo_replay_id x = _)) by done. rewrite !bool_decide_false, (Z.eqb_refl (ev_sequence _)) by done. cbn [negb orb Z.eqb Pos.eqb].
  destruct (IH replays ({[lo_replay_id x]} ∪ ids) ({[ev_event_id (lo_event x)]} ∪ seen) Hrest Hnd Hnd') as [IH1 IH2].
  { intros y Hy. destruct (Hx y) as (? & ? & ?); [set_solver|]. rewrite list_elem_of_fmap in Hni, Hni'.
    split_and!; [apply not_elem_of_union; split; [|done]..|done]; rewrite not_elem_of_singleton; intros Heq;
      [apply Hni|apply Hni']; by exists y. }
  split.
  - intros [Hd Hds]%Forall_cons. rewrite Hd. simpl. by apply IH1.
  - destruct (digest (lo_request_sha256 x)) as [d|] eqn:Hd; [|done]. simpl.
    pose proof (identical_corrupt _ identical_sha256 _ _ Hd) as ->. intros ?%IH2. by constructor.
Qed.

Lemma validate_replays_log replays log ordered :
  stored_pair <$> replays = replay_pair <$> ordered → ordered ≡ₚ log →
  NoDup (lo_replay_id <$> log) → NoDup (ev_event_id ∘ lo_event <$> log) →
  (Forall (λ x, digest (lo_request_sha256 x) = Ok (lo_request_sha256 x)) log →
   validate_replays replays (lo_entry <$> log) = Ok ()) ∧
  (is_ok (validate_replays replays (lo_entry <$> log)) →
   Forall (λ x, digest (lo_request_sha256 x) = Ok (lo_request_sha256 x)) log).
Proof.
  intros Hs Hp Hnd Hnd'. unfold validate_replays. rewrite bool_decide_true; cbn [negb].
  2: { apply (f_equal length) in Hs. rewrite !length_fmap in *. by rewrite Hs, Hp. }
  set (events := list_to_map _ : gmap string AuditEvent).
  destruct (check_replays_log events replays ordered ∅ ∅) as [H1 H2]; [done|by rewrite Hp..| |].
  2: { split; [intros Hd; apply H1; by rewrite Hp|intros Hd; rewrite <- Hp; by apply H2]. }
  intros x Hx. split_and!; [set_solver..|]. rewrite Hp in Hx. apply elem_of_list_to_map.
  - rewrite fmap_reverse, reverse_Permutation. by rewrite <- !list_fmap_compose.
  - rewrite elem_of_reverse, list_elem_of_fmap. exists (lo_entry x). split; [done|]. apply list_elem_of_fmap. by exists x.
Qed.

Lemma numbered_length n log :
  numbered n log → Forall (λ x, ev_sequence (lo_event x) ≤ i64_max) log → n ≤ i64_max →
  n + Z.of_nat (length log) ≤ i64_max.
Proof.
  revert n. induction log as [|x log IH]; intros n Hn Hall Hmax; simpl in *; [lia|].
  destruct Hn as (? & _ & Hn). apply Forall_cons in Hall as [? Hall]. specialize (IH _ Hn Hall). lia.
Qed.

Lemma storable_all log :
  Forall storable log ↔
  Forall (λ e, event_from_record (event_record e) = Ok e) (lo_event <$> log) ∧
  Forall (λ c, checkpoint_from_record (checkpoint_record c) = Ok c) (omap lo_checkpoint log) ∧
  Forall (λ x, digest (lo_request_sha256 x) = Ok (lo_request_sha256 x)) log.
Proof.
  rewrite !Forall_forall. setoid_rewrite list_elem_of_fmap. setoid_rewrite list_elem_of_omap. unfold storable. naive_solver.
Qed.

(** Four reads of one state of the log are assembled to the ledger. *)
Lemma assemble_ledger_log states events checkpoints replays log :
  stored_pair <$> states ≡ₚ state_pairs log →
  stored_pair <$> events ≡ₚ event_pair <$> (lo_event <$> log) →
  stored_pair <$> checkpoints ≡ₚ checkpoint_pair <$> omap lo_checkpoint log →
  stored_pair <$> replays ≡ₚ replay_pair <$> log →
  NoDup (lo_replay_id <$> log) → NoDup (ev_event_id ∘ lo_event <$> log) → numbered 0 log →
  (Forall storable log → assemble_ledger states events checkpoints replays = Ok (ledger_of log)) ∧
  (is_ok (assemble_ledger states events checkpoints replays) → Forall storable log).
Proof.
  intros Hst (evs & Hev & Hpe)%Permutation_map_inv (cs & Hcp & Hpc)%Permutation_map_inv
    (xs & Hrp & Hpr)%Permutation_map_inv Hnd Hnd' Hn.
  destruct log as [|x0 log0] eqn:Hlog; [|rewrite <- Hlog in *].
  { csimpl in *. symmetry in Hst. apply Permutation_nil in Hst, Hpe, Hpc, Hpr. subst. destruct states, events, checkpoints, replays; done. }
  assert (stored_pair <$> states = [row_of AUDIT_STATE_RECORD_ID (state_of log) (Z.of_nat (length log))]) as Hs.
  { apply Permutation_length_1_inv. symmetry. rewrite Hst. by rewrite Hlog. }
  destruct states as [|s [|]]; [done| |done]. csimpl in Hs. injection Hs as _ Hsv Hsr.
  assert (length events = length log) as Hlen.
  { apply (f_equal length) in Hev. rewrite length_map, !length_fmap in *. rewrite Hev, <- Hpe. by rewrite length_fmap. }
  unfold assemble_ledger. rewrite Hsv, Hsr. cbn [state_of sd_record_id sd_revision sd_head_sha256].
  rewrite bool_decide_true, Z.eqb_refl, Hlen, Z.eqb_refl by done. cbn [negb orb].
  rewrite storable_all, Hpe, Hpc.
  destruct (collect_checkpoints_log checkpoints cs ∅ Hcp) as [Hc1 Hc2].
  { rewrite <- Hpc. by eapply checkpoint_sequences. }
  { intros. by rewrite lookup_empty. }
  destruct (stored_events_log events evs Hev) as [He1 He2].
  destruct (validate_replays_log replays log xs) as [Hr1 Hr2]; [done..|].
  destruct (collect_checkpoints checkpoints ∅) as [M|] eqn:HM; cbn [result_bind].
  2: { split; [intros (_ & Hc%Hc1 & _); done|done]. }
  destruct (parse_all stored_event events) as [parsed|] eqn:HP; cbn [result_bind].
  2: { split; [intros (He%He1 & _ & _); done|done]. }
  specialize (Hc2 I). specialize (He2 I).
  assert (parsed = evs ∧ M = checkpoint_map log) as [-> ->].
  { specialize (He1 He2). specialize (Hc1 Hc2). injection He1 as ->. injection Hc1 as ->. split; [done|].
    rewrite (right_id_L ∅ (∪)). unfold checkpoint_map. symmetry. apply list_to_map_proper; [|by rewrite Hpc].
    rewrite <- list_fmap_compose. by eapply checkpoint_sequences. }
  rewrite (sort_numbered _ _ _ Hn) by done.
  rewrite pair_entries_log; [|lia| |done].
  2: { apply (numbered_length 0); [done| |unfold i64_max; lia]. rewrite <- Hpe, Forall_fmap in He2.
       eapply Forall_impl; [exact He2|]. intros y Hy%event_row_range. unfold compose, i64_max in *. lia. }
  cbn [result_bind]. rewrite bool_decide_true by done. rewrite bool_decide_true; cbn [negb orb].
  2: { unfold head_hash. rewrite Hlog. destruct (last (lo_entry <$> x0 :: log0)) eqn:El; [done|].
       by apply last_None in El. }
  destruct (validate_replays replays (lo_entry <$> log)) as [[]|] eqn:HV; cbn [result_bind].
  2: { split; [intros (_ & _ & Hd%Hr1); done|done]. }
  unfold AuditLedger_from_persisted. rewrite length_fmap, Z.eqb_refl. split; [done|]. intros _. split_and!; [done..|]. by apply Hr2.
Qed.
End assembly.

(** ** The store refines the log *)

Section laws.
Context {C : Type} `{!Sqlite C, !DatabaseClock C, !Sha256, !Json DatabaseCommit,
  !Json (list DatabaseCommit), !Json AuditStateDatabaseRecord, !Json AuditEventDatabaseRecord,
  !Json AuditCheckpointDatabaseRecord, !Json AuditReplayDatabaseRecord, !DatabaseLaws C,
  !JsonLaws AuditStateDatabaseRecord, !JsonLaws AuditEventDatabaseRecord,
  !JsonLaws AuditCheckpointDatabaseRecord, !JsonLaws AuditReplayDatabaseRecord}.

(** The rows of the four collections are those of the log, and no others. *)
Record represents (t : Tables) (log : list LoggedEntry) : Prop := {
  rs_state : collection_of AuditStateDatabaseRecord t = list_to_map (state_pairs log);
  rs_events : collection_of AuditEventDatabaseRecord t = list_to_map (event_pair <$> (lo_event <$> log));
  rs_checkpoints :
    collection_of AuditCheckpointDatabaseRecord t = list_to_map (checkpoint_pair <$> omap lo_checkpoint log);
  rs_replays : collection_of AuditReplayDatabaseRecord t = list_to_map (replay_pair <$> log);
  rs_event_ids : NoDup (ev_event_id ∘ lo_event <$> log);
  rs_checkpoint_ids : NoDup (sequence_record_id ∘ cp_sequence <$> omap lo_checkpoint log);
  rs_replay_ids : NoDup (lo_replay_id <$> log);
  rs_numbered : numbered 0 log;
}.

Lemma represents_records t t' log : records t' = records t → represents t log → represents t' log.
Proof. intros Hr [? ? ? ? ? ? ? ?]. split; try done; by rewrite (collection_of_records _ _ _ Hr). Qed.

(** *** Reading *)

Lemma database_records_inv R `{!DatabaseRecord R} (m : DatabaseManager C) r m' pairs :
  settled (dm_connection m) → collection_of R (durable (dm_connection m)) = list_to_map pairs → NoDup pairs.*1 →
  database_records R m = (r, m') →
  settled (dm_connection m') ∧ durable (dm_connection m') = durable (dm_connection m) ∧
  ∀ stored, r = Ok stored → stored_pair <$> stored ≡ₚ pairs.
Proof.
  intros Hs Hc Hnd. unfold database_records, se_map_err. destruct (database_read_all m) as [r0 m0] eqn:E.
  apply database_read_all_inv in E as (Hs' & Hd & Hok); [|done].
  destruct r0 as [stored|e]; intros [= <- <-]; split_and!; try done; intros stored' [= <-].
  destruct (Hok _ eq_refl) as [Hnd' Heq]. rewrite Hc in Heq. symmetry in Heq. by eapply (list_to_map_inj (M := gmap string)).
Qed.

Lemma ledger_reads_inv (m : DatabaseManager C) r m' log :
  settled (dm_connection m) → represents (durable (dm_connection m)) log → ledger_reads m = (r, m') →
  settled (dm_connection m') ∧ durable (dm_connection m') = durable (dm_connection m) ∧
  ∀ states events checkpoints replays, r = Ok (states, events, checkpoints, replays) →
    (Forall storable log → assemble_ledger states events checkpoints replays = Ok (ledger_of log)) ∧
    (is_ok (assemble_ledger states events checkpoints replays) → Forall storable log).
Proof.
  intros Hs [Hst Hev Hcp Hrp Hni Hnc Hnr Hn]. unfold ledger_reads.
  assert (NoDup (state_pairs log).*1) as Hnds by (destruct log; [constructor|apply NoDup_singleton]).
  assert (NoDup (event_pair <$> (lo_event <$> log)).*1) as Hnde by (by rewrite <- !list_fmap_compose).
  assert (NoDup (checkpoint_pair <$> omap lo_checkpoint log).*1) as Hndc by (by rewrite <- !list_fmap_compose).
  assert (NoDup (replay_pair <$> log).*1) as Hndr by (by rewrite <- !list_fmap_compose).
  intros [(states & m1 & H1 & Hr)|(e & H1 & ->)]%se_bind_inv;
    eapply database_records_inv in H1 as (Hs1 & Hd1 & Hok1); try done.
  rewrite <- Hd1 in Hev, Hcp, Hrp.
  apply se_bind_inv in Hr as [(events & m2 & H2 & Hr)|(e & H2 & ->)];
    eapply database_records_inv in H2 as (Hs2 & Hd2 & Hok2); try done; try (split_and!; [done|congruence|by intros]).
  rewrite <- Hd2 in Hcp, Hrp.
  apply se_bind_inv in Hr as [(checkpoints & m3 & H3 & Hr)|(e & H3 & ->)];
    eapply database_records_inv in H3 as (Hs3 & Hd3 & Hok3); try done; try (split_and!; [done|congruence|by intros]).
  rewrite <- Hd3 in Hrp.
  apply se_bind_inv in Hr as [(replays & m4 & H4 & Hr)|(e & H4 & ->)];
    eapply database_records_inv in H4 as (Hs4 & Hd4 & Hok4); try done; try (split_and!; [done|congruence|by intros]).
  injection Hr as <- <-. split_and!; [done|congruence|]. intros ? ? ? ? [= <- <- <- <-].
  apply assemble_ledger_log; auto.
Qed.

(** The ledger that is read is the log, and it is read unless a read fails. *)
Lemma database_ledger_inv (m : DatabaseManager C) r m' log :
  settled (dm_connection m) → represents (durable (dm_connection m)) log → database_ledger m = (r, m') →
  settled (dm_connection m') ∧ durable (dm_connection m') = durable (dm_connection m) ∧
  (∀ ledger, r = Ok ledger → ledger = ledger_of log ∧ Forall storable log) ∧
  (Forall storable log → is_ok (ledger_reads m).1 → r = Ok (ledger_of log)).
Proof.
  intros Hs Hrep. unfold database_ledger.
  intros [([[[states events] checkpoints] replays] & m1 & H1 & Hr)|(e & H1 & ->)]%se_bind_inv;
    rewrite H1; eapply ledger_reads_inv in H1 as (Hs1 & Hd1 & Hok); try done.
  injection Hr as <- <-. destruct (Hok _ _ _ _ eq_refl) as [Hall Hback]. split_and!; [done..| |auto].
  intros ledger Hl. rewrite Hl in Hback. specialize (Hback I). split; [|done]. specialize (Hall Hback). congruence.
Qed.

Lemma find_logged log x :
  NoDup (ev_event_id ∘ lo_event <$> log) → x ∈ log →
  List.find (λ entry, bool_decide (ev_event_id (le_event entry) = ev_event_id (lo_event x))) (lo_entry <$> log)
  = Some (lo_entry x).
Proof.
  induction log as [|y log IH]; [by intros _ ?%elem_of_nil|]. csimpl. intros [Hy Hnd]%NoDup_cons Hx.
  apply elem_of_cons in Hx as [->|Hx]; [by rewrite bool_decide_true|].
  rewrite bool_decide_false; [by apply IH|]. intros Heq. apply Hy, list_elem_of_fmap. by exists x.
Qed.

(** A replay identity answers with the entry it was committed with. *)
Lemma database_replay_inv id (m : DatabaseManager C) r m' log :
  settled (dm_connection m) → represents (durable (dm_connection m)) log → database_replay id m = (r, m') →
  settled (dm_connection m') ∧ durable (dm_connection m') = durable (dm_connection m) ∧
  ∀ found, r = Ok found →
    match found with
    | Some receipt => ∃ x, x ∈ log ∧ lo_replay_id x = id ∧ receipt = {| rp_request_sha256 := lo_request_sha256 x;
        rp_entry := lo_entry x; rp_revision := Z.of_nat (length log) |}
    | None => id ∉ lo_replay_id <$> log
    end.
Proof.
  intros Hs Hrep. pose proof Hrep as [_ _ _ Hrp Hni _ Hnr _].
  assert (NoDup (replay_pair <$> log).*1) as Hnd by (by rewrite <- list_fmap_compose).
  pose proof (lookup_collection_of AuditReplayDatabaseRecord (durable (dm_connection m)) id) as Hl. rewrite Hrp in Hl.
  unfold database_replay. destruct (database_read_record id m) as [r0 m0] eqn:E.
  apply database_read_record_inv in E as (Hs0 & Hd0 & Hok & Hno); [|done].
  destruct r0 as [stored|e].
  2: { destruct e; intros [= <- <-]; split_and!; try done; intros found [= <-].
       rewrite (Hno _ _ eq_refl) in Hl. apply not_elem_of_list_to_map in Hl. by rewrite <- list_fmap_compose in Hl. }
  destruct (Hok _ eq_refl) as (row & Hrow & Hj & Hrev). rewrite Hrow in Hl. cbn [fmap option_fmap option_map] in Hl.
  rewrite Hj in Hl. apply elem_of_list_to_map in Hl; [|done]. apply list_elem_of_fmap in Hl as (x & [= -> Hv _] & Hx).
  destruct (_ || _); [intros [= <- <-]; by split_and!|]. rewrite <- Hd0 in Hrep |- *. rewrite Hv. clear Hok Hno Hrow Hj Hrev.
  intros [(d & m1 & [Hd <-]%se_lift_Ok & Hr)|(e & [= _ <-] & ->)]%se_bind_inv; [|done].
  apply (identical_corrupt _ identical_sha256) in Hd as ->.
  apply se_bind_inv in Hr as [(eid & m1 & [He <-]%se_lift_Ok & Hr)|(e & [= _ <-] & ->)]; [|done].
  apply (identical_corrupt _ identical_event_id) in He as ->. unfold database_entry in Hr. cbn [replay_of rd_event_id rd_request_sha256 rd_sequence] in Hr.
  apply se_bind_inv in Hr as [(found & m1 & Hf & Hr)|(e & Hf & ->)].
  2: { apply se_bind_inv in Hf as [(l & m1 & _ & [=])|(e' & Hl & _)].
       eapply database_ledger_inv in Hl as (? & ? & _); [|done..]. by split_and!. }
  apply se_bind_Ok in Hf as (ledger & m2 & Hl & [= <- <-]).
  eapply database_ledger_inv in Hl as (? & ? & Hledger & _); [|done..].
  destruct (Hledger _ eq_refl) as [-> _]. cbn [ledger_of lg_entries lg_revision] in Hr.
  rewrite (find_logged _ _ Hni Hx) in Hr. unfold se_bind, se_lift, ok_or in Hr. simpl in Hr.
  rewrite Z.eqb_refl in Hr. injection Hr as <- <-. split_and!; [done..|]. intros found [= <-]. by exists x.
Qed.

(** *** Appending *)

(** A new row of the collection of [R]. *)
Lemma save_new {R} `{!DatabaseRecord R, !JsonLaws R} now t collection (value : R) version id payload key commit t1 :
  collection = record_collection R →
  mutates now t (PreparedSave collection version id payload key RevisionMissing) commit t1 →
  to_json value = Some payload →
  collection_of R t !! id = None ∧ collection_of R t1 = <[id := (Some value, 1)]> (collection_of R t) ∧
  ∀ R' `{!DatabaseRecord R'}, storage_name (record_collection R) ≠ storage_name (record_collection R') →
    collection_of R' t1 = collection_of R' t.
Proof.
  intros -> (row & Hrec & <- & Hcase)%mutates_save_inv Hj.
  destruct Hcase as [(Hn & _ & Hrev)|(old & _ & [=] & _)]. split_and!.
  - rewrite lookup_collection_of. by rewrite Hn.
  - rewrite (collection_of_saved _ _ _ _ _ Hrec). by rewrite (json_round_trip _ _ Hj), Hrev.
  - intros R' ? Hne. by eapply collection_of_other.
Qed.

(** The head after it has changed. *)
Lemma save_head now t version payload key expected commit t1 log (value : AuditStateDatabaseRecord) :
  mutates now t (PreparedSave AuditState version AUDIT_STATE_RECORD_ID payload key
    (if expected =? 0 then RevisionMissing else RevisionExact expected)) commit t1 →
  to_json value = Some payload → collection_of AuditStateDatabaseRecord t = list_to_map (state_pairs log) →
  expected = Z.of_nat (length log) ∧ expected + 1 ≤ i64_max ∧
  collection_of AuditStateDatabaseRecord t1 = {[AUDIT_STATE_RECORD_ID := (Some value, expected + 1)]} ∧
  ∀ R' `{!DatabaseRecord R'}, storage_name AuditState ≠ storage_name (record_collection R') →
    collection_of R' t1 = collection_of R' t.
Proof.
  intros Hm Hj Hst.
  assert (∀ k, k ≠ AUDIT_STATE_RECORD_ID → collection_of AuditStateDatabaseRecord t !! k = None) as Hother.
  { intros k Hk. rewrite Hst. destruct log; simpl; [by rewrite lookup_empty|]. by rewrite lookup_insert_ne, lookup_empty. }
  assert (∀ v, <[AUDIT_STATE_RECORD_ID := v]> (collection_of AuditStateDatabaseRecord t) = {[AUDIT_STATE_RECORD_ID := v]}) as Hins.
  { intros v. apply map_eq. intros k. destruct (decide (k = AUDIT_STATE_RECORD_ID)) as [->|Hk].
    - by rewrite lookup_insert_eq, lookup_singleton_eq.
    - by rewrite lookup_insert_ne, lookup_singleton_ne, Hother. }
  apply mutates_save_inv in Hm as (row & Hrec & <- & Hcase).
  pose proof (lookup_collection_of AuditStateDatabaseRecord t AUDIT_STATE_RECORD_ID) as Hl.
  cbn [record_collection state_row] in Hl.
  assert (expected = Z.of_nat (length log) ∧ expected + 1 ≤ i64_max ∧ row_revision row = expected + 1) as (? & ? & Hrev).
  { destruct Hcase as [(Hn & Hp & Hrow)|(old & Hold & Hp & Hrow & Hmax)].
    - destruct (expected =? 0) eqn:E; [|done]. apply Z.eqb_eq in E as ->. rewrite Hn, Hst in Hl.
      destruct log; [unfold i64_max; simpl; lia|]. simpl in Hl. by rewrite lookup_insert_eq in Hl.
    - destruct (expected =? 0) eqn:E; [done|]. injection Hp as Hp. rewrite Hold, Hst in Hl.
      destruct log; simpl in Hl; [by rewrite lookup_empty in Hl|]. rewrite lookup_insert_eq in Hl.
      injection Hl as _ Hlen. simpl. lia. }
  split_and!; [done..| |].
  - rewrite (collection_of_saved AuditStateDatabaseRecord t t1 AUDIT_STATE_RECORD_ID row) by exact Hrec.
    cbn [record_json state_row]. by rewrite (json_round_trip _ _ Hj), Hins, Hrev.
  - intros R' ? Hne. by eapply collection_of_other.
Qed.

Lemma tx_save_Ok {R} `{!DatabaseRecord R} (record : R) expected tx tx' :
  tx_save record expected tx = Ok tx' →
  ∃ payload, to_json record = Some payload ∧ tx_idempotency_key tx' = tx_idempotency_key tx ∧
    tx_commands tx' = tx_commands tx ++ [PreparedSave (record_collection R) (record_version_of R)
      (record_identifier record) payload (tx_idempotency_key tx) expected].
Proof.
  unfold tx_save, add_command. intros (command & (payload & Hj & ->)%prepare_save_Ok & Ha)%result_bind_Ok.
  repeat (case_match; [done|]). injection Ha as <-. eauto.
Qed.

(** The mutations of one append, in their order. *)
Lemma append_transaction_Ok expected id request entry tx :
  append_transaction expected id request entry = Ok tx →
  ∃ key head event checkpoint replay,
    let x := {| lo_replay_id := id; lo_request_sha256 := request; lo_entry := entry |} in
    to_json {| sd_record_id := AUDIT_STATE_RECORD_ID; sd_revision := ev_sequence (le_event entry);
               sd_head_sha256 := ev_event_hash (le_event entry) |} = Some head ∧
    to_json (event_record (le_event entry)) = Some event ∧
    (∀ c, le_checkpoint entry = Some c → to_json (checkpoint_record c) = Some checkpoint) ∧
    to_json (replay_of x) = Some replay ∧
    tx_commands tx =
      PreparedSave AuditState 1 AUDIT_STATE_RECORD_ID head key
        (if expected =? 0 then RevisionMissing else RevisionExact expected) ::
      PreparedSave AuditEvents 1 (ev_event_id (le_event entry)) event key RevisionMissing ::
      match le_checkpoint entry with
      | Some c => [PreparedSave AuditCheckpoints 1 (sequence_record_id (cp_sequence c)) checkpoint key RevisionMissing]
      | None => []
      end ++ [PreparedSave AuditReplays 1 id replay key RevisionMissing].
Proof.
  unfold append_transaction. intros (key & _ & Hr)%result_bind_Ok.
  apply result_bind_Ok in Hr as (tx0 & (? & _ & [= <-])%store_result_Ok%result_bind_Ok & Hr).
  apply result_bind_Ok in Hr as (tx1 & (head & Hj1 & Hk1 & Hc1)%store_result_Ok%tx_save_Ok & Hr).
  apply result_bind_Ok in Hr as (tx2 & (event & Hj2 & Hk2 & Hc2)%store_result_Ok%tx_save_Ok & Hr).
  simpl in Hk1, Hc1. rewrite Hk1 in *. rewrite Hc1 in Hc2.
  destruct (le_checkpoint entry) as [c|].
  - apply result_bind_Ok in Hr as (tx3 & (cp & Hj3 & Hk3 & Hc3)%store_result_Ok%tx_save_Ok & Hr).
    apply store_result_Ok, tx_save_Ok in Hr as (replay & Hj4 & _ & Hc4). rewrite Hk3, Hk2 in *. rewrite Hc2 in Hc3. rewrite Hc3 in Hc4.
    exists key, head, event, cp, replay. split_and!; [done|done|by intros ? [= <-]|done|done].
  - apply result_bind_Ok in Hr as (tx3 & [= <-] & Hr).
    apply store_result_Ok, tx_save_Ok in Hr as (replay & Hj4 & _ & Hc4). rewrite Hk2 in *. rewrite Hc2 in Hc4.
    exists key, head, event, EmptyString, replay. split_and!; [done|done|by intros ? [=]|done|done].
Qed.

Lemma snoc_pairs {A V} (f : A → string * V) l x (t : gmap string V) :
  t = list_to_map (f <$> l) → t !! (f x).1 = None →
  ((f x).1 ∉ (f <$> l).*1) ∧ <[(f x).1 := (f x).2]> t = list_to_map (f <$> l ++ [x]).
Proof.
  intros -> Hn%not_elem_of_list_to_map. split; [done|]. rewrite fmap_app. csimpl.
  destruct (f x) as [k v] eqn:E. simpl in *. by rewrite list_to_map_snoc.
Qed.

(** Committed as a whole, they add the entry to the log. *)
Lemma append_effect now t log expected id request entry tx commits t1 :
  let x := {| lo_replay_id := id; lo_request_sha256 := request; lo_entry := entry |} in
  represents t log → paired entry →
  ev_sequence (le_event entry) = saturating_add_u64 expected 1 →
  append_transaction expected id request entry = Ok tx → mutates_all now t (tx_commands tx) commits t1 →
  represents t1 (log ++ [x]) ∧ expected = Z.of_nat (length log) ∧
  (ev_event_id (le_event entry) ∉ ev_event_id ∘ lo_event <$> log) ∧ (id ∉ lo_replay_id <$> log).
Proof.
  intros x [Hst Hev Hcp Hrp Hni Hnc Hnr Hn] Hp Hseq
    (key & head & event & cp & replay & Hj1 & Hj2 & Hj3 & Hj4 & ->)%append_transaction_Ok Hm.
  inversion Hm as [|? ? k1 t2 ? ? ? Hm1 Hm']; subst; clear Hm.
  inversion Hm' as [|? ? k2 t3 ? ? ? Hm2 Hm]; subst; clear Hm'.
  eapply save_head in Hm1 as (Hlen & Hmax & Hst2 & Ho2); [|done..].
  apply (save_new _ _ AuditEvents (event_record (le_event entry))) in Hm2 as (Hne & Hev3 & Ho3); [|done..].
  assert (∃ t4 k, mutates now t4 (PreparedSave AuditReplays 1 id replay key RevisionMissing) k t1 ∧
    collection_of AuditCheckpointDatabaseRecord t4 = list_to_map (checkpoint_pair <$> omap lo_checkpoint (log ++ [x])) ∧
    NoDup (sequence_record_id ∘ cp_sequence <$> omap lo_checkpoint (log ++ [x])) ∧
    ∀ R' (D : DatabaseRecord R'), storage_name AuditCheckpoints ≠ storage_name (record_collection R') →
      collection_of R' t4 = collection_of R' t3) as (t4 & k4 & Hm4 & Hcp4 & Hnc4 & Ho4).
  { rewrite omap_app. unfold omap at 2 4. cbn [list_omap]. unfold lo_checkpoint at 2 4. cbn [lo_entry x].
    destruct (le_checkpoint entry) as [c|].
    - simpl in Hm. inversion Hm as [|? ? k3 t4 ? ? ? Hm3 Hm']; subst. inversion Hm' as [|? ? k4 t5 ? ? ? Hm4 Hnil]; subst.
      inversion Hnil; subst. exists t4, k4. split; [done|].
      apply (save_new _ _ AuditCheckpoints (checkpoint_record c)) in Hm3 as (Hnone & Hcp4 & Ho4); [|done|by apply Hj3].
      rewrite (Ho3 AuditCheckpointDatabaseRecord), (Ho2 AuditCheckpointDatabaseRecord) in Hnone, Hcp4 by done.
      destruct (snoc_pairs checkpoint_pair _ c _ Hcp Hnone) as [Hnew Hmap]. split_and!; [|..|done].
      + by rewrite Hcp4, <- Hmap.
      + rewrite <- list_fmap_compose in Hnew. rewrite fmap_app. apply NoDup_app. split_and!; [done| |apply NoDup_singleton].
        intros k Hk ->%list_elem_of_singleton. done.
    - simpl in Hm. inversion Hm as [|? ? k4 t4 ? ? ? Hm4 Hnil]; subst. inversion Hnil; subst.
      exists t3, k4. split; [done|]. rewrite app_nil_r. split_and!; [|done..].
      by rewrite (Ho3 AuditCheckpointDatabaseRecord), (Ho2 AuditCheckpointDatabaseRecord). }
  apply (save_new _ _ AuditReplays (replay_of x)) in Hm4 as (Hnr4 & Hrp5 & Ho5); [|done..].
  rewrite (Ho2 AuditEventDatabaseRecord) in Hev3, Hne by done.
  rewrite (Ho4 AuditReplayDatabaseRecord), (Ho3 AuditReplayDatabaseRecord), (Ho2 AuditReplayDatabaseRecord) in Hnr4, Hrp5 by done.
  assert (collection_of AuditEventDatabaseRecord t = list_to_map (event_pair ∘ lo_event <$> log)) as Hev'
    by (by rewrite list_fmap_compose).
  destruct (snoc_pairs (event_pair ∘ lo_event) log x _ Hev' Hne) as [Hnewe Hmape].
  destruct (snoc_pairs replay_pair log x _ Hrp Hnr4) as [Hnewr Hmapr].
  rewrite <- list_fmap_compose in Hnewe. rewrite <- list_fmap_compose in Hnewr.
  split_and!; [|done..]. split.
  - rewrite (Ho5 AuditStateDatabaseRecord), (Ho4 AuditStateDatabaseRecord), (Ho3 AuditStateDatabaseRecord), Hst2 by done.
    assert (ev_sequence (le_event entry) = expected + 1) as Hs by (rewrite Hseq; unfold saturating_add_u64, u64_max, i64_max in *; lia).
    assert (state_pairs (log ++ [x]) = [row_of AUDIT_STATE_RECORD_ID (state_of (log ++ [x])) (Z.of_nat (length (log ++ [x])))]) as ->
      by (by destruct log).
    unfold state_of. rewrite length_app, fmap_app. csimpl. rewrite head_hash_snoc, Nat2Z.inj_add, <- Hlen, Hs. done.
  - rewrite (Ho5 AuditEventDatabaseRecord), (Ho4 AuditEventDatabaseRecord), Hev3 by done.
    rewrite <- list_fmap_compose. by rewrite <- Hmape.
  - by rewrite (Ho5 AuditCheckpointDatabaseRecord) by done.
  - by rewrite Hrp5, <- Hmapr.
  - rewrite fmap_app. apply NoDup_app. split_and!; [done| |apply NoDup_singleton].
    intros k Hk ->%list_elem_of_singleton. done.
  - done.
  - rewrite fmap_app. apply NoDup_app. split_and!; [done| |apply NoDup_singleton].
    intros k Hk ->%list_elem_of_singleton. done.
  - apply numbered_snoc; [done..|]. unfold lo_event. simpl. rewrite Hseq.
    unfold saturating_add_u64, u64_max, i64_max in *. lia.
Qed.

(** An append adds its entry as a whole, or nothing. *)
Definition appends (expected : Z) (x : LoggedEntry) (log log' : list LoggedEntry) : Prop :=
  log' = log ∨
  (log' = log ++ [x] ∧ expected = Z.of_nat (length log) ∧
   (ev_event_id (lo_event x) ∉ ev_event_id ∘ lo_event <$> log) ∧ (lo_replay_id x ∉ lo_replay_id <$> log)).

Lemma replayed_receipt_inv request replay (m : DatabaseManager C) r m' :
  replayed_receipt request replay m = (r, m') →
  m' = m ∧ ∀ receipt, r = Ok receipt → rc_disposition receipt = AuditReplayed.
Proof. unfold replayed_receipt. destruct (negb _); intros [= <- <-]; split; try done; by intros ? [= <-]. Qed.

Lemma database_append_inv expected id request entry (m : DatabaseManager C) r m' log :
  let x := {| lo_replay_id := id; lo_request_sha256 := request; lo_entry := entry |} in
  settled (dm_connection m) → represents (durable (dm_connection m)) log → paired entry →
  database_append expected id request entry m = (r, m') →
  settled (dm_connection m') ∧
  ∃ log', represents (durable (dm_connection m')) log' ∧ appends expected x log log' ∧
    ∀ receipt, r = Ok receipt → rc_disposition receipt = AuditApplied →
      log' = log ++ [x] ∧ rc_entry receipt = entry ∧ rc_request_sha256 receipt = request ∧
      rc_revision receipt = Z.of_nat (length log').
Proof.
  intros x Hs Hrep Hp. unfold database_append.
  intros [(replay & m1 & H1 & Hr)|(e & H1 & ->)]%se_bind_inv;
    eapply database_replay_inv in H1 as (Hs1 & Hd1 & _); try done; rewrite <- Hd1 in Hrep.
  2: { split; [done|]. exists log. split_and!; [done|by left|by intros ? [=]]. }
  destruct replay as [replay|].
  { apply replayed_receipt_inv in Hr as [-> Hrc]. split; [done|]. exists log. split_and!; [done|by left|].
    intros receipt Hr. by rewrite (Hrc _ Hr). }
  destruct (negb _) eqn:Hseq.
  { injection Hr as <- <-. split; [done|]. exists log. split_and!; [done|by left|by intros ? [=]]. }
  apply negb_false_iff, Z.eqb_eq in Hseq.
  apply se_bind_inv in Hr as [(tx & m2 & [Htx <-]%se_lift_Ok & Hr)|(e & [= _ <-] & ->)].
  2: { split; [done|]. exists log. split_and!; [done|by left|by intros ? [=]]. }
  destruct (database_write_transaction tx m1) as [r0 m2] eqn:Hw.
  apply database_write_transaction_inv in Hw as [Hs2 Hw]; [|done].
  assert (∃ log', represents (durable (dm_connection m2)) log' ∧ appends expected x log log' ∧
    ((∃ commits, r0 = Ok (commits, Applied)) → log' = log ++ [x] ∧ expected = Z.of_nat (length log))) as (log' & Hrep' & Happ & Happlied).
  { destruct Hw as [[Hd Hno]|(now & commits & t1 & Hm & Hrec & _)].
    - exists log. rewrite Hd. split_and!; [done|by left|]. intros [commits ->]. by destruct (Hno commits).
    - eapply append_effect in Hm as (Hrep1 & Hlen & Hid & Hrid); [|done..].
      exists (log ++ [x]). split_and!; [by eapply represents_records|by right|done]. }
  destruct r0 as [[commits disposition]|e].
  - injection Hr as <- <-. split; [done|]. exists log'. split_and!; [done..|]. intros receipt [= <-] Hdisp. simpl in *.
    destruct disposition; [|done]. destruct Happlied as [-> ->]; [by eexists|]. rewrite length_app. simpl. split_and!; [done..|lia].
  - destruct e as [| | |key| | |];
      try (injection Hr as <- <-; split; [done|]; exists log'; split_and!; [done..|by intros ? [=]]).
    all: apply se_bind_inv in Hr as [(replay & m3 & H3 & Hr)|(e' & H3 & ->)];
      eapply database_replay_inv in H3 as (Hs3 & Hd3 & _); try done; rewrite <- Hd3 in Hrep';
      [|split; [done|]; exists log'; split_and!; [done..|by intros ? [=]]].
    all: apply se_bind_inv in Hr as [(replay' & m4 & [_ <-]%se_lift_Ok & Hr)|(e' & [= _ <-] & ->)];
      [|split; [done|]; exists log'; split_and!; [done..|by intros ? [=]]].
    all: apply replayed_receipt_inv in Hr as [-> Hrc]; split; [done|]; exists log'; split_and!; [done..|].
    all: intros receipt Hr; by rewrite (Hrc _ Hr).
Qed.

(** ** The promises of the store

    The entries of a database, read off its rows without their validation. *)

Definition event_of_record (record : AuditEventDatabaseRecord) : option AuditEvent :=
  match actor_type (ed_actor_type record), stored_origin_interface (ed_origin_interface record),
        stored_outcome (ed_outcome record) with
  | Ok kind, Ok interface, Ok outcome => Some
    {| ev_sequence := ed_sequence record; ev_event_id := ed_event_id record;
       ev_correlation_id := ed_correlation_id record; ev_timestamp := ed_timestamp_unix_ns record;
       ev_node_id := ed_node_id record;
       ev_actor := {| actor_kind := kind; actor_identifier := ed_actor_id record |};
       ev_origin := {| origin_node_id := ed_origin_node_id record; origin_interface := interface |};
       ev_action := ed_action record; ev_target := ed_target record;
       ev_before_sha256 := ed_before_sha256 record; ev_after_sha256 := ed_after_sha256 record;
       ev_outcome := outcome; ev_reason := ed_reason record;
       ev_previous_hash := ed_previous_hash record; ev_event_hash := ed_event_hash record |}
  | _, _, _ => None
  end.
Definition checkpoint_of_record (record : AuditCheckpointDatabaseRecord) : option AuditCheckpoint :=
  Some {| cp_sequence := kd_sequence record; cp_event_hash := kd_event_hash record;
          cp_signature := kd_signature record; cp_created_at := kd_created_at_unix_ns record |}.
Definition values_of {R A} (decode : R → option A) (rows : gmap string (option R * Z)) : list A :=
  omap (λ row, row.2.1 ≫= decode) (map_to_list rows).
Definition entries_of (t : Tables) : list AuditLedgerEntry :=
  let checkpoints : gmap Z AuditCheckpoint := list_to_map (checkpoint_entry <$>
    values_of checkpoint_of_record (collection_of AuditCheckpointDatabaseRecord t)) in
  (λ event, {| le_event := event; le_checkpoint := checkpoints !! ev_sequence event |}) <$>
    sort_by (λ a b, ev_sequence a ?= ev_sequence b)
      (values_of event_of_record (collection_of AuditEventDatabaseRecord t)).

Lemma event_of_event_record event : event_of_record (event_record event) = Some event.
Proof.
  unfold event_of_record. simpl. rewrite stored_actor_type, stored_interface, stored_outcome_str.
  by destruct event as [? ? ? ? ? [] [] ? ? ? ? ? ? ? ?].
Qed.
Lemma checkpoint_of_checkpoint_record c : checkpoint_of_record (checkpoint_record c) = Some c.
Proof. by destruct c. Qed.

Lemma values_of_pairs {R A} (decode : R → option A) (id : A → string) (encode : A → R) l :
  (∀ a, decode (encode a) = Some a) → NoDup (id <$> l) →
  values_of decode (list_to_map ((λ a, row_of (id a) (encode a) 1) <$> l)) ≡ₚ l.
Proof.
  intros Hd Hnd. unfold values_of. rewrite map_to_list_to_map by (by rewrite <- list_fmap_compose).
  clear Hnd. induction l as [|a l IH]; [done|]. csimpl. rewrite Hd. by rewrite IH.
Qed.

Lemma checkpoint_map_lookup n log x :
  numbered n log → x ∈ log → checkpoint_map log !! ev_sequence (lo_event x) = lo_checkpoint x.
Proof.
  intros Hn Hx. pose proof (checkpoint_sequences _ _ Hn) as Hnd.
  assert (NoDup (checkpoint_entry <$> omap lo_checkpoint log).*1) as Hnd' by (by rewrite <- list_fmap_compose).
  destruct (lo_checkpoint x) as [c|] eqn:Hc.
  - apply elem_of_list_to_map; [done|]. apply list_elem_of_fmap. exists c.
    assert (c ∈ omap lo_checkpoint log) as Hin by (apply list_elem_of_omap; eauto). split; [|done].
    destruct (checkpoint_sequence _ _ _ Hn Hin) as (_ & y & Hy & Hs & Hcy).
    assert (paired (lo_entry x)) as Hp by (by eapply numbered_paired).
    unfold checkpoint_entry. rewrite (paired_checkpoint _ _ Hp Hc). done.
  - apply not_elem_of_list_to_map. intros ([s c] & Hs & (c' & [= -> ->] & Hin)%list_elem_of_fmap)%list_elem_of_fmap.
    destruct (checkpoint_sequence _ _ _ Hn Hin) as (_ & y & Hy & Hs' & Hcy). simpl in Hs.
    assert (x = y) as -> by (eapply numbered_inj; [done..|congruence]). congruence.
Qed.

Lemma entries_of_log t log : represents t log → entries_of t = lo_entry <$> log.
Proof.
  intros [_ Hev Hcp _ Hni Hnc _ Hn]. unfold entries_of.
  rewrite (sort_numbered 0 log); [|done|].
  2: { rewrite Hev. apply (values_of_pairs _ ev_event_id event_record); [apply event_of_event_record|].
       by rewrite <- list_fmap_compose. }
  assert (list_to_map (checkpoint_entry <$> values_of checkpoint_of_record (collection_of AuditCheckpointDatabaseRecord t))
    = checkpoint_map log) as ->.
  { symmetry. apply list_to_map_proper; [rewrite <- list_fmap_compose; by eapply checkpoint_sequences|].
    apply fmap_Permutation. rewrite Hcp. symmetry.
    apply (values_of_pairs _ (sequence_record_id ∘ cp_sequence) checkpoint_record); [apply checkpoint_of_checkpoint_record|done]. }
  rewrite <- list_fmap_compose. apply list_fmap_ext. intros i x Hx%list_elem_of_lookup_2. simpl.
  rewrite (checkpoint_map_lookup _ _ _ Hn Hx). by destruct x as [? ? []].
Qed.

(** C17: the stored audit chain is a log.  From a database that holds a log, reading the
    ledger returns exactly its entries, and does so whenever the reads succeed and the
    values are those of their types; a replay identity answers with the entry it was
    first committed with and is unknown only when it is not in the log; and an append
    leaves a database that holds the same log or the log with its entry at the end, the
    latter only at the expected revision and with new identities, and always when the
    append is reported as applied. *)
Theorem audit_store_refines_the_log (m : DatabaseManager C) log :
  settled (dm_connection m) → represents (durable (dm_connection m)) log →
  (∀ r m', audit_ledger m = (r, m') →
    settled (dm_connection m') ∧ represents (durable (dm_connection m')) log ∧
    (∀ ledger, r = Ok ledger → ledger = ledger_of log) ∧
    (Forall storable log → is_ok (ledger_reads m).1 → r = Ok (ledger_of log))) ∧
  (∀ id r m', audit_replay id m = (r, m') →
    settled (dm_connection m') ∧ represents (durable (dm_connection m')) log ∧
    (∀ receipt, r = Ok (Some receipt) → ∃ x, x ∈ log ∧ lo_replay_id x = id ∧
       rp_entry receipt = lo_entry x ∧ rp_request_sha256 receipt = lo_request_sha256 x) ∧
    (r = Ok None → id ∉ lo_replay_id <$> log)) ∧
  (∀ expected id request entry r m', paired entry → audit_append expected id request entry m = (r, m') →
    let x := {| lo_replay_id := id; lo_request_sha256 := request; lo_entry := entry |} in
    settled (dm_connection m') ∧
    ∃ log', represents (durable (dm_connection m')) log' ∧ appends expected x log log' ∧
      ∀ receipt, r = Ok receipt → rc_disposition receipt = AuditApplied →
        log' = log ++ [x] ∧ rc_entry receipt = entry ∧ rc_revision receipt = Z.of_nat (length log')).
Proof.
  intros Hs Hrep. split_and!.
  - intros r m' Hl. eapply database_ledger_inv in Hl as (? & Hd & Hok & Hall); [|done..].
    rewrite Hd. split_and!; [done..| |done]. by intros ledger [? _]%Hok.
  - intros id r m' Hr. eapply database_replay_inv in Hr as (? & Hd & Hok); [|done..]. rewrite Hd. split_and!; [done..| |].
    + intros receipt (x & ? & ? & ->)%Hok. by exists x.
    + intros ?%Hok. done.
  - intros expected id request entry r m' Hp Ha x. eapply database_append_inv in Ha as (? & log' & ? & ? & Hok); [|done..].
    split; [done|]. exists log'. split_and!; [done..|]. intros receipt Hr Hd. by destruct (Hok _ Hr Hd) as (? & ? & _ & ?).
Qed.

(** A ledger read that an append overtakes between the head and the events is refused
    as corrupt, although the database holds a log before and after. *)
Theorem torn_read_is_refused (m1 m2 : DatabaseManager C) log x states events m1' m2' checkpoints replays :
  settled (dm_connection m1) → represents (durable (dm_connection m1)) log →
  settled (dm_connection m2) → represents (durable (dm_connection m2)) (log ++ [x]) →
  database_records AuditStateDatabaseRecord m1 = (Ok states, m1') →
  database_records AuditEventDatabaseRecord m2 = (Ok events, m2') →
  assemble_ledger states events checkpoints replays = Err AuditCorrupt.
Proof.
  intros Hs1 [Hst _ _ _ _ _ _ _] Hs2 [_ Hev _ _ Hni _ _ _] H1 H2.
  eapply database_records_inv in H1 as (_ & _ & H1); [|done|exact Hst|destruct log; [constructor|apply NoDup_singleton]].
  eapply database_records_inv in H2 as (_ & _ & H2); [|done|exact Hev|by rewrite <- !list_fmap_compose].
  specialize (H1 _ eq_refl). specialize (H2 _ eq_refl). apply Permutation_length in H2.
  rewrite !length_fmap, length_app in H2. simpl in H2.
  destruct log as [|y log]; simpl in H1.
  { symmetry in H1. apply Permutation_nil in H1. destruct states; [|done]. by destruct events. }
  symmetry in H1. apply Permutation_length_1_inv in H1. destruct states as [|state [|]]; [done| |done].
  csimpl in H1. injection H1 as _ Hv Hr. unfold assemble_ledger. rewrite Hv, Hr.
  cbn [state_of sd_record_id sd_revision]. rewrite bool_decide_true, Z.eqb_refl by done. cbn [negb orb].
  destruct (Z.eqb_spec (Z.of_nat (length (y :: log))) (Z.of_nat (length events))); [simpl in *; lia|done].
Qed.

(** *** The manager over the database *)

Context {E : Type} (host_now : SE E AuditError Z) (host_event_id : SE E AuditError string)
  (host_sign : string → SE E AuditError string) (host_verify : string → string → SE E AuditError bool)
  (steady : Prop) (host_time : E → Z) (am : AuditManager) (accepts : string → string → Prop) `{!Json JsonFields}.
Abbreviation AuditWorld := (DatabaseManager C * E)%type.

Definition world_audit_store : AuditStore AuditWorld := {|
  audit_ledger := in_database database_ledger;
  audit_replay id := in_database (database_replay id);
  audit_event id := in_database (database_event id);
  audit_append revision id request entry := in_database (database_append revision id request entry);
|}.
Definition world_audit_providers : AuditProviders AuditWorld := {|
  audit_now := in_host host_now;
  fresh_event_id := in_host host_event_id;
  audit_sign hash := in_host (host_sign hash);
  audit_verify hash signature := in_host (host_verify hash signature);
|}.

(** A steady clock does not run backwards; the key accepts what it signed. *)
Record HostLaws : Prop := {
  host_now_law e r e' : host_now e = (r, e') → steady → host_time e ≤ host_time e' ∧
    ∀ now, r = Ok now → host_time e ≤ now ≤ host_time e';
  host_event_id_law e r e' : host_event_id e = (r, e') → steady → host_time e ≤ host_time e';
  host_sign_law h e r e' : host_sign h e = (r, e') →
    (steady → host_time e ≤ host_time e') ∧ ∀ s, r = Ok s → accepts h s;
  host_verify_law h s e r e' : host_verify h s e = (r, e') → steady → host_time e ≤ host_time e';
}.

Definition audit_ready (w : AuditWorld) : Prop :=
  settled (dm_connection w.1) ∧ ∃ log, represents (durable (dm_connection w.1)) log.
Definition world_entries (w : AuditWorld) : list AuditLedgerEntry := entries_of (durable (dm_connection w.1)).
Definition world_time (w : AuditWorld) : Z := host_time w.2.

Abbreviation world_grows := (grows am accepts audit_ready world_entries steady world_time).

Lemma host_grows {A Er} (c : SE E Er A) w r w' :
  (∀ e r e', c e = (r, e') → steady → host_time e ≤ host_time e') → in_host c w = (r, w') → world_grows w w'.
Proof.
  intros Ht [Hc Hm]%in_host_inv Hw. specialize (Ht _ _ _ Hc). unfold audit_ready, world_entries, world_time. rewrite Hm.
  destruct Hw as [? ?]. by split_and!.
Qed.
(** A call that leaves the tables alone. *)
Lemma read_grows (w w' : AuditWorld) :
  (audit_ready w → settled (dm_connection w'.1) ∧ durable (dm_connection w'.1) = durable (dm_connection w.1)) →
  w'.2 = w.2 → world_grows w w'.
Proof.
  intros Hd He Hw. destruct (Hd Hw) as [Hs Heq]. unfold audit_ready, world_entries, world_time. rewrite Heq, He.
  destruct Hw as [_ Hlog]. split_and!; done || lia.
Qed.

(** The database store keeps the promises that appending to a chain relies on. *)
Lemma database_audit_laws :
  HostLaws →
  @AuditLaws am accepts AuditWorld world_audit_store world_audit_providers _ _ audit_ready world_entries steady world_time.
Proof.
  intros Hh. split.
  - intros w r w' [Hl He]%in_database_inv. split.
    + apply read_grows; [|done]. intros [Hs [log Hlog]]. eapply database_ledger_inv in Hl as (? & ? & _); done.
    + intros ledger [Hs [log Hlog]] ->. eapply database_ledger_inv in Hl as (? & Hd & Hok & _); [|done..].
      destruct (Hok _ eq_refl) as [-> _]. unfold world_entries. rewrite Hd, (entries_of_log _ _ Hlog).
      simpl. by rewrite length_fmap.
  - intros id w r w' [Hl He]%in_database_inv. apply read_grows; [|done]. intros [Hs [log Hlog]].
    eapply database_replay_inv in Hl as (? & ? & _); done.
  - intros revision id request entry w r w' [Hs [log Hlog]] Hp [Ha He]%in_database_inv.
    eapply database_append_inv in Ha as (Hs' & log' & Hlog' & Happ & Hok); [|done..].
    unfold audit_ready, world_entries, world_time.
    rewrite (entries_of_log _ _ Hlog), (entries_of_log _ _ Hlog'), He. split_and!; [done|by eauto|lia|].
    exists (lo_entry <$> log). split; [done|].
    destruct Happ as [->|(-> & -> & Hid & _)].
    + left. split; [done|]. unfold is_applied. destruct r as [receipt|]; [|by intros ?].
      intros Hd. destruct (Hok _ eq_refl Hd) as [Heq _]. apply (f_equal length) in Heq. rewrite length_app in Heq. simpl in Heq. lia.
    + right. rewrite length_fmap, fmap_app. csimpl. split_and!; [done| |done].
      unfold event_ids. rewrite elem_of_list_to_set, <- list_fmap_compose. exact Hid.
  - intros w r w' Hn. split; [eapply host_grows, Hn; intros e r0 e' Hc Hs; exact (proj1 (host_now_law Hh _ _ _ Hc Hs))|].
    intros now _ Hr Hs. apply in_host_inv in Hn as [Hc _]. by apply (host_now_law Hh _ _ _ Hc Hs).
  - intros w r w' Hn. eapply host_grows, Hn. by apply (host_event_id_law Hh).
  - intros h w r w' Hn. split; [eapply host_grows, Hn; intros e r0 e' Hc; by apply (host_sign_law Hh _ _ _ _ Hc)|].
    intros s Hr. apply in_host_inv in Hn as [[_ Hn]%(host_sign_law Hh) _]. by apply Hn.
  - intros h s w r w' Hn. eapply host_grows, Hn. intros *. by apply (host_verify_law Hh).
Qed.
End laws.

(** ** A run *)

Module AuditLab.
Import Memory AuditScenario.

(** The entries of two appends, the second with a checkpoint. *)
Definition two_entries : { p : AuditLedgerEntry * AuditLedgerEntry | ledger (second_append 1).2 = [p.1; p.2] }.
Proof. vm_compute. by eexists (_, _). Defined.
Definition logged (id : string) (entry : AuditLedgerEntry) : LoggedEntry :=
  {| lo_replay_id := id; lo_request_sha256 := padded 64 7; lo_entry := entry |}.
Definition x1 : LoggedEntry := Eval vm_compute in logged "a" (proj1_sig two_entries).1.
Definition x2 : LoggedEntry := Eval vm_compute in logged "b" (proj1_sig two_entries).2.
Definition full_log : list LoggedEntry := [x1; x2].

#[local] Instance state_eq_dec : EqDecision AuditStateDatabaseRecord.
Proof. solve_decision. Defined.
#[local] Instance event_eq_dec : EqDecision AuditEventDatabaseRecord.
Proof. solve_decision. Defined.
#[local] Instance checkpoint_eq_dec : EqDecision AuditCheckpointDatabaseRecord.
Proof. solve_decision. Defined.
#[local] Instance replay_eq_dec : EqDecision AuditReplayDatabaseRecord.
Proof. solve_decision. Defined.
Definition states : list AuditStateDatabaseRecord := [state_of (take 1 full_log); state_of full_log].
Definition events : list AuditEventDatabaseRecord := event_record ∘ lo_event <$> full_log.
Definition checkpoints : list AuditCheckpointDatabaseRecord := checkpoint_record <$> omap lo_checkpoint full_log.
Definition replay_rows : list AuditReplayDatabaseRecord := replay_of <$> full_log.
#[local] Instance state_json : Json AuditStateDatabaseRecord := table_json states.
#[local] Instance event_json : Json AuditEventDatabaseRecord := table_json events.
#[local] Instance checkpoint_json : Json AuditCheckpointDatabaseRecord := table_json checkpoints.
#[local] Instance replay_json : Json AuditReplayDatabaseRecord := table_json replay_rows.
#[local] Instance state_json_laws : JsonLaws AuditStateDatabaseRecord := table_json_laws states.
#[local] Instance event_json_laws : JsonLaws AuditEventDatabaseRecord := table_json_laws events.
#[local] Instance checkpoint_json_laws : JsonLaws AuditCheckpointDatabaseRecord := table_json_laws checkpoints.
#[local] Instance replay_json_laws : JsonLaws AuditReplayDatabaseRecord := table_json_laws replay_rows.

Definition fresh : DatabaseManager Connection :=
  {| dm_connection := connection [] 7 empty_tables; dm_is_closed := false; dm_events := [] |}.
Definition append_of (expected : Z) (x : LoggedEntry) :=
  audit_append (W := DatabaseManager Connection) expected (lo_replay_id x) (lo_request_sha256 x) (lo_entry x).
Definition m1 : DatabaseManager Connection := (append_of 0 x1 fresh).2.
Definition m2 : DatabaseManager Connection := (append_of 1 x2 m1).2.
Definition receipt (revision : Z) (x : LoggedEntry) : AuditAppendReceipt :=
  {| rc_request_sha256 := lo_request_sha256 x; rc_entry := lo_entry x; rc_disposition := AuditApplied;
     rc_revision := revision |}.

Lemma run_answers {A B} (p : A * B) a : p.1 = a → p = (a, p.2).
Proof. intros <-. apply surjective_pairing. Qed.
Lemma first_appended : append_of 0 x1 fresh = (Ok (receipt 1 x1), m1).
Proof. unfold m1. apply run_answers. vm_compute. reflexivity. Qed.
Lemma second_appended : append_of 1 x2 m1 = (Ok (receipt 2 x2), m2).
Proof. unfold m2. apply run_answers. vm_compute. reflexivity. Qed.
Lemma both_paired : paired (lo_entry x1) ∧ paired (lo_entry x2).
Proof. split; vm_compute; reflexivity. Qed.
Lemma fresh_settled : settled (dm_connection fresh).
Proof. reflexivity. Qed.
Lemma fresh_represents : represents (durable (dm_connection fresh)) [].
Proof. split; try (vm_compute; reflexivity); try constructor. Qed.

(** The two appends are read back. *)
Lemma audit_store_refines_the_log_witness :
  (audit_ledger m2).1 = Ok (ledger_of [x1; x2]) ∧ (audit_append 1 "b" (lo_request_sha256 x2) (lo_entry x2) m2).1
    = Ok {| rc_request_sha256 := lo_request_sha256 x2; rc_entry := lo_entry x2; rc_disposition := AuditReplayed; rc_revision := 2 |}.
Proof.
  destruct both_paired as [Hp1 Hp2].
  destruct (audit_store_refines_the_log fresh [] fresh_settled fresh_represents) as (_ & _ & H1).
  destruct (H1 0 "a" (lo_request_sha256 x1) (lo_entry x1) _ _ Hp1 first_appended) as (Hs1 & log1 & Hr1 & _ & Ha1).
  destruct (Ha1 _ eq_refl eq_refl) as [-> _].
  destruct (audit_store_refines_the_log m1 [x1] Hs1 Hr1) as (_ & _ & H2).
  destruct (H2 1 "b" (lo_request_sha256 x2) (lo_entry x2) _ _ Hp2 second_appended) as (Hs2 & log2 & Hr2 & _ & Ha2).
  destruct (Ha2 _ eq_refl eq_refl) as [-> _].
  destruct (audit_store_refines_the_log m2 [x1; x2] Hs2 Hr2) as (H3 & _ & _).
  split; [|vm_compute; reflexivity].
  destruct (audit_ledger m2) as [r m3] eqn:E. destruct (H3 _ _ eq_refl) as (_ & _ & _ & Hread). simpl.
  apply Hread; [|vm_compute; exact I].
  repeat constructor; try (vm_compute; reflexivity); intros c Hc; vm_compute in Hc; try discriminate Hc;
    injection Hc as <-; vm_compute; reflexivity.
Defined.
End AuditLab.
