(* ===== verification/PrefixFormat.v ===== *)
(** * The prefix record format

    [cache/letsinfer_prefix_store/src/format.rs]: the fixed header page of a
    record with its canonical layout, its encoder and its decoder.  Bytes are
    [Z]s, [usize] has 64 bits, an [anyhow] error is its message, and CRC-32 is the
    class [Crc32]. *)

From Stdlib Require Import String.
From S2P Require Import Prelude Values Text.

Definition ALIGNMENT : Z := 4096.
Definition HEADER_BYTES : Z := ALIGNMENT.
Definition MAGIC : list Z := [76; 73; 80; 70; 88; 48; 48; 49].  (* LIPFX001 *)
Definition VERSION : Z := 1.
Definition MAX_REGIONS : nat := 96.
Definition MAX_REGION_NAME_BYTES : nat := 12.
Definition usize_max : Z := u64_max.

Definition message : Type := string.

Record RegionDescription := { rg_name : string; rg_byte_count : Z }.
#[export] Instance RegionDescription_eq_dec : EqDecision RegionDescription.
Proof. solve_decision. Defined.

Record RecordHeader := {
  rh_fingerprint : list Z;
  rh_key_hash : Z;
  rh_token_count : Z;
  rh_regions : list RegionDescription;
  rh_tokens_offset : Z;
  rh_region_offsets : list Z;
  rh_logical_bytes : Z;
  rh_file_bytes : Z;
  rh_tokens_crc32 : Z;
  rh_region_crc32 : list Z;
}.
#[export] Instance RecordHeader_eq_dec : EqDecision RecordHeader.
Proof. solve_decision. Defined.

(** ** Checked geometry *)

Definition checked_add (left right : Z) : result message Z :=
  if left + right <=? usize_max then Ok (left + right)
  else Err "prefix-record size overflow"%string.
Definition checked_mul (left right : Z) : result message Z :=
  if left * right <=? usize_max then Ok (left * right)
  else Err "prefix-record size overflow"%string.
Definition align_up (value : Z) : result message Z :=
  let? with_slack := checked_add value (ALIGNMENT - 1) in
  Ok (with_slack / ALIGNMENT * ALIGNMENT).
Definition as_usize (value : Z) : result message Z :=
  if value <=? usize_max then Ok value else Err "prefix-record value exceeds usize"%string.
Definition is_multiple_of (value divisor : Z) : bool := value mod divisor =? 0.

(** [u8::is_ascii_graphic] *)
Definition is_ascii_graphic (b : Z) : bool := in_range 33 126 b.
Definition validate_region_name (name : string) : result message () :=
  if (str_len name =? 0) || (Z.of_nat MAX_REGION_NAME_BYTES <? str_len name)
     || negb (forallb is_ascii_graphic (bytes name))
  then Err ("invalid prefix-record region name " +:+ name) else Ok ().

Fixpoint validate_regions (regions : list RegionDescription) : result message () :=
  match regions with
  | [] => Ok ()
  | region :: regions =>
    let? _ := validate_region_name (rg_name region) in
    if rg_byte_count region =? 0
    then Err ("prefix-record region '" +:+ rg_name region +:+ "' is empty")
    else validate_regions regions
  end.

(** The loop that places the regions from [cursor] on. *)
Fixpoint place_regions (regions : list RegionDescription) (cursor : Z) : result message (list Z) :=
  match regions with
  | [] => Ok []
  | region :: regions =>
    let? byte_count := as_usize (rg_byte_count region) in
    let? region_end := checked_add cursor byte_count in
    let? next := align_up region_end in
    let? offsets := place_regions regions next in
    Ok (cursor :: offsets)
  end.

Definition layout (fingerprint : list Z) (key_hash token_count : Z)
    (regions : list RegionDescription) : result message RecordHeader :=
  if token_count =? 0 then Err "prefix record needs a non-zero token count"%string
  else if bool_decide (regions = []) || (MAX_REGIONS <? length regions)%nat
  then Err ("invalid prefix-record region count " +:+ to_decimal (Z.of_nat (length regions)))
  else
    let? _ := validate_regions regions in
    let tokens_offset := HEADER_BYTES in
    let? token_bytes := checked_mul token_count 4 in
    let? tokens_end := checked_add tokens_offset token_bytes in
    let? cursor := align_up tokens_end in
    let? region_offsets := place_regions regions cursor in
    let last_offset := default 0 (last region_offsets) in
    let? last_bytes := as_usize (default 0 (rg_byte_count <$> last regions)) in
    let? logical_bytes := checked_add last_offset last_bytes in
    let? file_bytes := align_up logical_bytes in
    Ok {| rh_fingerprint := fingerprint; rh_key_hash := key_hash; rh_token_count := token_count;
          rh_regions := regions; rh_tokens_offset := tokens_offset;
          rh_region_offsets := region_offsets; rh_logical_bytes := logical_bytes;
          rh_file_bytes := file_bytes; rh_tokens_crc32 := 0; rh_region_crc32 := [] |}.

Definition validate_layout (h : RecordHeader) : result message () :=
  if (rh_token_count h =? 0) || negb (rh_tokens_offset h =? HEADER_BYTES)
     || (rh_file_bytes h <? rh_logical_bytes h)
     || negb (is_multiple_of (rh_file_bytes h) ALIGNMENT)
     || negb (length (rh_region_offsets h) =? length (rh_regions h))%nat
     || negb (length (rh_region_crc32 h) =? length (rh_regions h))%nat
  then Err "invalid prefix-record geometry"%string
  else
    let? expected := layout (rh_fingerprint h) (rh_key_hash h) (rh_token_count h) (rh_regions h) in
    if negb (bool_decide (rh_region_offsets h = rh_region_offsets expected))
       || negb (rh_logical_bytes h =? rh_logical_bytes expected)
       || negb (rh_file_bytes h =? rh_file_bytes expected)
    then Err "non-canonical prefix-record layout"%string
    else Ok ().

Definition compatible_with (h expected : RecordHeader) : bool :=
  bool_decide (rh_fingerprint h = rh_fingerprint expected)
  && bool_decide (rh_regions h = rh_regions expected).

(** Ranges [start, end). *)
Definition tokens_range (h : RecordHeader) : Z * Z :=
  (rh_tokens_offset h, rh_tokens_offset h + rh_token_count h * 4).
Definition region_range (h : RecordHeader) (index : nat) : option (Z * Z) :=
  offset ← rh_region_offsets h !! index;
  region ← rh_regions h !! index;
  Some (offset, offset + rg_byte_count region).

(** ** The header page *)

Class Crc32 := crc32 : list Z → Z.
Class Crc32Laws `{!Crc32} := crc32_u32 l : 0 ≤ crc32 l ≤ u32_max.

Section codec.
Context `{!Crc32}.

(** The checksum of the page with its own four bytes zero. *)
Definition header_checksum (source : list Z) (checksum_offset : nat) : Z :=
  crc32 (take checksum_offset source ++ [0; 0; 0; 0]
         ++ drop (checksum_offset + 4) (take (Z.to_nat HEADER_BYTES) source)).

(** [let mut name = [0u8; 12]; name[..len].copy_from_slice(..)] *)
Definition region_name_bytes (name : string) : list Z :=
  bytes name ++ replicate (MAX_REGION_NAME_BYTES - String.length name) 0.

(** One row of the table per index below [MAX_REGIONS]; unused rows are zero. *)
Definition region_row (h : RecordHeader) (index : nat) : list Z :=
  match rh_regions h !! index with
  | Some region =>
    region_name_bytes (rg_name region) ++ le_bytes 8 (rg_byte_count region)
    ++ le_bytes 8 (nth index (rh_region_offsets h) 0) ++ le_bytes 4 (nth index (rh_region_crc32 h) 0)
  | None => replicate 32 0
  end.

(** The fields before the checksum, in the order they are put. *)
Definition header_prefix (h : RecordHeader) : list Z :=
  MAGIC ++ le_bytes 4 VERSION ++ le_bytes 4 HEADER_BYTES ++ rh_fingerprint h
  ++ le_bytes 8 (rh_key_hash h) ++ le_bytes 8 (rh_token_count h)
  ++ le_bytes 4 (Z.of_nat (length (rh_regions h))) ++ le_bytes 4 (rh_tokens_crc32 h)
  ++ le_bytes 8 (rh_tokens_offset h) ++ le_bytes 8 (rh_logical_bytes h)
  ++ le_bytes 8 (rh_file_bytes h).
Definition region_table (h : RecordHeader) : list Z := concat (map (region_row h) (seq 0 MAX_REGIONS)).

Definition encode (h : RecordHeader) (destination : list Z) : result message (list Z) :=
  if Z.of_nat (length destination) <? HEADER_BYTES
  then Err "prefix-record header destination is too small"%string
  else if negb (length (rh_region_crc32 h) =? length (rh_regions h))%nat
  then Err "prefix-record region CRC count mismatch"%string
  else
    let header_crc_offset := length (header_prefix h) in
    let written := header_prefix h ++ [0; 0; 0; 0] ++ region_table h in
    let page := written ++ replicate (Z.to_nat HEADER_BYTES - length written) 0 in
    let checksum := header_checksum page header_crc_offset in
    Ok (take header_crc_offset page ++ le_bytes 4 checksum ++ drop (header_crc_offset + 4) page
        ++ drop (Z.to_nat HEADER_BYTES) destination).

(** A reader of the rest of the source. *)
Definition Reader (A : Type) : Type := SE (list Z) message A.

Definition take_bytes (count : nat) : Reader (list Z) := λ source,
  if (length source <? count)%nat then (Err "short prefix-record header"%string, source)
  else (Ok (take count source), drop count source).
Definition get_u32 : Reader Z := do! b <- take_bytes 4 in se_ret (le_val b).
Definition get_u64 : Reader Z := do! b <- take_bytes 8 in se_ret (le_val b).
Definition get_usize : Reader Z := do! v <- get_u64 in se_lift (as_usize v).

(** [position(|&b| b == 0)], or the whole field. *)
Fixpoint until_zero (l : list Z) : list Z :=
  match l with [] => [] | b :: l => if b =? 0 then [] else b :: until_zero l end.

(** The loop over the rows of the table; [used] of them carry a region. *)
Fixpoint read_rows (rows used : nat) : Reader (list (RegionDescription * Z * Z)) :=
  match rows with
  | O => se_ret []
  | S rows =>
    do! name_bytes <- take_bytes MAX_REGION_NAME_BYTES in
    do! byte_count <- get_u64 in
    do! offset <- get_usize in
    do! crc <- get_u32 in
    match used with
    | O => read_rows rows O
    | S used =>
      let name := until_zero name_bytes in
      if negb (utf8_bytes name) then se_fail "bad prefix-record region name"%string
      else
        do! regions <- read_rows rows used in
        se_ret (({| rg_name := string_of_bytes name; rg_byte_count := byte_count |}, offset, crc)
                  :: regions)
    end
  end.

Definition decode (source : list Z) : result message RecordHeader :=
  if Z.of_nat (length source) <? HEADER_BYTES then Err "short prefix-record header"%string
  else fst ((
    do! magic <- take_bytes 8 in
    if negb (bool_decide (magic = MAGIC)) then se_fail "bad prefix-record magic"%string else
    do! version <- get_u32 in
    if negb (version =? VERSION) then se_fail "unsupported prefix-record format version"%string else
    do! header_bytes <- get_u32 in
    if negb (header_bytes =? HEADER_BYTES) then se_fail "bad prefix-record header size"%string else
    do! fingerprint <- take_bytes 32 in
    do! key_hash <- get_u64 in
    do! token_count <- get_usize in
    do! region_count <- get_u32 in
    do! tokens_crc32 <- get_u32 in
    do! tokens_offset <- get_usize in
    do! logical_bytes <- get_usize in
    do! file_bytes <- get_usize in
    do! expected_header_crc <- get_u32 in
    if negb (expected_header_crc =? header_checksum source 96)
    then se_fail "prefix-record header CRC mismatch"%string
    else if (region_count =? 0) || (Z.of_nat MAX_REGIONS <? region_count)
    then se_fail ("invalid prefix-record region count " +:+ to_decimal region_count)
    else
      do! rows <- read_rows MAX_REGIONS (Z.to_nat region_count) in
      let header := {| rh_fingerprint := fingerprint; rh_key_hash := key_hash;
        rh_token_count := token_count; rh_regions := (λ row, row.1.1) <$> rows;
        rh_tokens_offset := tokens_offset; rh_region_offsets := (λ row, row.1.2) <$> rows;
        rh_logical_bytes := logical_bytes; rh_file_bytes := file_bytes;
        rh_tokens_crc32 := tokens_crc32; rh_region_crc32 := (λ row, row.2) <$> rows |} in
      run! se_lift (validate_layout header) in
      se_ret header) source).
End codec.

(** ** Geometry *)

Definition aligned (v : Z) : Prop := v mod ALIGNMENT = 0.

(** A header as the source's types keep it. *)
Record typed_header (h : RecordHeader) : Prop := {
  th_fingerprint : length (rh_fingerprint h) = 32%nat ∧ Forall byte (rh_fingerprint h);
  th_key_hash : 0 ≤ rh_key_hash h ≤ u64_max;
  th_token_count : 0 ≤ rh_token_count h ≤ usize_max;
  th_regions : Forall (λ r, 0 ≤ rg_byte_count r ≤ u64_max) (rh_regions h);
  th_tokens_crc32 : 0 ≤ rh_tokens_crc32 h ≤ u32_max;
  th_region_crc32 : Forall (λ c, 0 ≤ c ≤ u32_max) (rh_region_crc32 h);
}.

Lemma checked_add_Ok a b r : checked_add a b = Ok r ↔ r = a + b ∧ a + b ≤ usize_max.
Proof.
  unfold checked_add. destruct (Z.leb_spec (a + b) usize_max); naive_solver lia.
Qed.
Lemma checked_mul_Ok a b r : checked_mul a b = Ok r ↔ r = a * b ∧ a * b ≤ usize_max.
Proof.
  unfold checked_mul. destruct (Z.leb_spec (a * b) usize_max); naive_solver lia.
Qed.
Lemma as_usize_Ok a r : as_usize a = Ok r ↔ r = a ∧ a ≤ usize_max.
Proof. unfold as_usize. destruct (Z.leb_spec a usize_max); naive_solver lia. Qed.

Lemma align_up_Ok v r :
  0 ≤ v → align_up v = Ok r → v ≤ r ∧ r < v + ALIGNMENT ∧ aligned r ∧ r ≤ usize_max.
Proof.
  intros Hv. unfold align_up, aligned. rewrite result_bind_Ok.
  intros (w & [-> Hw]%checked_add_Ok & [= <-]). unfold ALIGNMENT in *.
  pose proof (Z.div_mod (v + (4096 - 1)) 4096 ltac:(lia)).
  pose proof (Z.mod_pos_bound (v + (4096 - 1)) 4096 ltac:(lia)).
  rewrite Z.mod_mul by lia. lia.
Qed.

(** What the placement of the regions from a page-aligned cursor promises. *)
Definition placed (cursor : Z) (regions : list RegionDescription) (offsets : list Z) : Prop :=
  length offsets = length regions ∧
  (∀ i o r, offsets !! i = Some o → regions !! i = Some r →
    cursor ≤ o ∧ aligned o ∧ o + rg_byte_count r ≤ usize_max ∧
    ∀ j o', (i < j)%nat → offsets !! j = Some o' → o + rg_byte_count r ≤ o').

Lemma place_regions_Ok regions cursor offsets :
  0 ≤ cursor → aligned cursor → Forall (λ r, 0 ≤ rg_byte_count r) regions →
  place_regions regions cursor = Ok offsets → placed cursor regions offsets.
Proof.
  intros Hc Ha Hr. revert cursor offsets Hc Ha.
  induction Hr as [|r regions Hr _ IH]; intros cursor offsets Hc Ha; cbn [place_regions].
  { intros [= <-]. by split. }
  rewrite result_bind_Ok. intros (n & [-> Hn]%as_usize_Ok & H).
  apply result_bind_Ok in H as (e & [-> He]%checked_add_Ok & H).
  apply result_bind_Ok in H as (next & Hnext & H).
  apply result_bind_Ok in H as (offsets' & Hrest & [= <-]).
  apply align_up_Ok in Hnext as (Hle & _ & Hal & _); [|lia].
  destruct (IH next offsets' ltac:(lia) Hal Hrest) as [Hlen HP]. split; [simpl; lia|].
  intros [|i] o r' Ho Hr'; simpl in *; simplify_eq.
  - split_and!; [lia|done|lia|]. intros [|j] o' Hj Ho'; [lia|]. simpl in Ho'.
    destruct (lookup_lt_is_Some_2 regions j) as [r2 Hr2]; [apply lookup_lt_Some in Ho'; lia|].
    destruct (HP j o' r2 Ho' Hr2) as (? & _). lia.
  - destruct (HP i o r' Ho Hr') as (? & ? & ? & Hn'). split_and!; [lia|done|done|].
    intros [|j] o' Hj Ho'; [lia|]. apply (Hn' j); [lia|done].
Qed.

Lemma validate_regions_Ok regions :
  validate_regions regions = Ok () ↔
  Forall (λ r, validate_region_name (rg_name r) = Ok () ∧ rg_byte_count r ≠ 0) regions.
Proof.
  induction regions as [|r regions IH]; cbn [validate_regions]; [by split|].
  rewrite result_bind_Ok, Forall_cons, <- IH. destruct (Z.eqb_spec (rg_byte_count r) 0); split.
  - by intros (? & _ & ?).
  - naive_solver.
  - intros ([] & ? & ?). done.
  - intros [[? _] ?]. eauto.
Qed.

(** Everything a canonical header's geometry promises. *)
Record canonical (h : RecordHeader) : Prop := {
  cn_tokens : rh_tokens_offset h = HEADER_BYTES;
  cn_token_count : rh_token_count h ≠ 0;
  cn_count : (0 < length (rh_regions h) ≤ MAX_REGIONS)%nat;
  cn_names : Forall (λ r, validate_region_name (rg_name r) = Ok () ∧ rg_byte_count r ≠ 0) (rh_regions h);
  cn_placed : placed (snd (tokens_range h)) (rh_regions h) (rh_region_offsets h);
  cn_logical : ∀ o r, last (rh_region_offsets h) = Some o → last (rh_regions h) = Some r →
    rh_logical_bytes h = o + rg_byte_count r;
  cn_file : rh_logical_bytes h ≤ rh_file_bytes h < rh_logical_bytes h + ALIGNMENT ∧
    aligned (rh_file_bytes h) ∧ rh_file_bytes h ≤ usize_max;
}.

Lemma placed_weaken c c' regions offsets : c' ≤ c → placed c regions offsets → placed c' regions offsets.
Proof.
  intros Hc [Hl HP]. split; [done|]. intros i o r Ho Hr.
  destruct (HP i o r Ho Hr) as (? & ? & ? & ?). split_and!; auto; lia.
Qed.

Lemma placed_last_nonneg c regions offsets o r :
  0 ≤ c → placed c regions offsets → last offsets = Some o → last regions = Some r → 0 ≤ o.
Proof.
  intros Hc [Hl HP] Ho Hr. rewrite last_lookup, Hl in Ho. rewrite last_lookup in Hr.
  destruct (HP _ _ _ Ho Hr) as (? & _). lia.
Qed.

Lemma layout_canonical fp key n regions h crc crcs :
  0 ≤ n → Forall (λ r, 0 ≤ rg_byte_count r ≤ u64_max) regions →
  layout fp key n regions = Ok h →
  canonical {| rh_fingerprint := rh_fingerprint h; rh_key_hash := rh_key_hash h;
    rh_token_count := rh_token_count h; rh_regions := rh_regions h;
    rh_tokens_offset := rh_tokens_offset h; rh_region_offsets := rh_region_offsets h;
    rh_logical_bytes := rh_logical_bytes h; rh_file_bytes := rh_file_bytes h;
    rh_tokens_crc32 := crc; rh_region_crc32 := crcs |}.
Proof.
  intros Hn Hty. unfold layout. destruct (Z.eqb_spec n 0) as [|Hn0]; [done|].
  case_bool_decide as He; [done|]. destruct (Nat.ltb_spec MAX_REGIONS (length regions)) as [|Hmax]; [done|].
  cbn [orb]. rewrite result_bind_Ok. intros ([] & Hval%validate_regions_Ok & H).
  apply result_bind_Ok in H as (tb & [-> Htb]%checked_mul_Ok & H).
  apply result_bind_Ok in H as (te & [-> Hte]%checked_add_Ok & H).
  apply result_bind_Ok in H as (cursor & Hcur & H).
  apply result_bind_Ok in H as (offs & Hpl & H).
  apply result_bind_Ok in H as (lb & [-> Hlb]%as_usize_Ok & H).
  apply result_bind_Ok in H as (lg & [-> Hlg]%checked_add_Ok & H).
  apply result_bind_Ok in H as (fb & Hfb & [= <-]).
  apply align_up_Ok in Hcur as (Hc1 & _ & Hc2 & _); [|unfold HEADER_BYTES, ALIGNMENT; lia].
  assert (0 ≤ cursor) by (unfold HEADER_BYTES, ALIGNMENT in *; lia).
  apply place_regions_Ok in Hpl; [|done..|by eapply Forall_impl; [apply Hty|simpl; lia]].
  destruct (last regions) as [r|] eqn:Hlast; [|by apply last_None in Hlast].
  destruct (last offs) as [o|] eqn:Hlo.
  2:{ apply last_None in Hlo. destruct Hpl as [Hl _]. rewrite Hlo in Hl.
      destruct regions; [done|]. done. }
  pose proof (placed_last_nonneg _ _ _ _ _ ltac:(done) Hpl Hlo Hlast).
  assert (0 ≤ rg_byte_count r).
  { rewrite Forall_forall in Hty. apply Hty. apply last_Some_elem_of in Hlast. done. }
  cbn in Hfb. apply align_up_Ok in Hfb as (? & ? & ? & ?); [|lia].
  constructor; cbn; auto.
  - destruct regions; simpl in *; [done|lia].
  - by eapply placed_weaken.
  - rewrite Hlo, Hlast. by intros ? ? [= <-] [= <-].
Qed.

Lemma validate_layout_canonical h :
  typed_header h → validate_layout h = Ok () →
  canonical h ∧ length (rh_region_crc32 h) = length (rh_regions h).
Proof.
  intros Hty. unfold validate_layout.
  destruct (_ || _) eqn:Hg; [done|]. rewrite result_bind_Ok. intros (e & He & H).
  destruct (_ || _) eqn:Hg2 in H; [done|].
  rewrite !orb_false_iff, !negb_false_iff in Hg. rewrite !orb_false_iff, !negb_false_iff in Hg2.
  destruct Hg as [[[[[? Hto] ?] ?] ?] Hcrc]. destruct Hg2 as [[Ho Hl] Hf].
  apply bool_decide_eq_true in Ho. apply Z.eqb_eq in Hto, Hl, Hf. apply Nat.eqb_eq in Hcrc.
  pose proof (layout_canonical _ _ _ _ _ (rh_tokens_crc32 h) (rh_region_crc32 h)
    (proj1 (th_token_count h Hty)) (th_regions h Hty) He) as Hc.
  split; [|done]. replace h with
    {| rh_fingerprint := rh_fingerprint e; rh_key_hash := rh_key_hash e;
    rh_token_count := rh_token_count e; rh_regions := rh_regions e;
    rh_tokens_offset := rh_tokens_offset e; rh_region_offsets := rh_region_offsets e;
    rh_logical_bytes := rh_logical_bytes e; rh_file_bytes := rh_file_bytes e;
    rh_tokens_crc32 := rh_tokens_crc32 h; rh_region_crc32 := rh_region_crc32 h |}; [done|].
  unfold layout in He. repeat (inv_result He || case_match); try done. simplify_eq. cbn in *.
  destruct h; cbn in *; by subst.
Qed.

(** ** Reading and writing the page *)

Lemma take_bytes_app n a rest : length a = n → take_bytes n (a ++ rest) = (Ok a, rest).
Proof.
  intros <-. unfold take_bytes. rewrite length_app.
  destruct (Nat.ltb_spec (length a + length rest) (length a)); [lia|].
  by rewrite take_app_length, drop_app_length.
Qed.
Lemma get_u32_le v rest : 0 ≤ v ≤ u32_max → get_u32 (le_bytes 4 v ++ rest) = (Ok v, rest).
Proof.
  intros Hv. unfold get_u32, se_bind. rewrite take_bytes_app by apply le_bytes_length.
  rewrite le_val_le_bytes; [done|]. change (256 ^ Z.of_nat 4) with (u32_max + 1). lia.
Qed.
Lemma get_u64_le v rest : 0 ≤ v ≤ u64_max → get_u64 (le_bytes 8 v ++ rest) = (Ok v, rest).
Proof.
  intros Hv. unfold get_u64, se_bind. rewrite take_bytes_app by apply le_bytes_length.
  rewrite le_val_le_bytes; [done|]. change (256 ^ Z.of_nat 8) with (u64_max + 1). lia.
Qed.
Lemma get_usize_le v rest : 0 ≤ v ≤ usize_max → get_usize (le_bytes 8 v ++ rest) = (Ok v, rest).
Proof.
  intros Hv. unfold get_usize, se_bind. rewrite get_u64_le by done. unfold se_lift, as_usize.
  destruct (Z.leb_spec v usize_max); [done|lia].
Qed.

(** One read of a reader, by its equation. *)
Ltac reads L tac := unfold se_bind at 1; rewrite L by tac.

Lemma until_zero_app l k : Forall (λ b, b ≠ 0) l → until_zero (l ++ replicate k 0) = l.
Proof.
  induction 1 as [|b l Hb _ IH]; simpl; [by destruct k|].
  rewrite IH. destruct (Z.eqb_spec b 0); done.
Qed.
Lemma until_zero_bytes l : Forall byte l → Forall byte (until_zero l).
Proof. induction 1; simpl; [done|]. case_match; constructor; auto. Qed.

Lemma region_name_ok name :
  validate_region_name name = Ok () →
  length (region_name_bytes name) = MAX_REGION_NAME_BYTES
  ∧ until_zero (region_name_bytes name) = bytes name ∧ utf8_bytes (bytes name) = true.
Proof.
  unfold validate_region_name. destruct (_ || _) eqn:Hg; [done|]. intros _.
  rewrite !orb_false_iff, negb_false_iff, Z.ltb_ge, forallb_forall in Hg.
  destruct Hg as [[_ Hlen] Hb]. pose proof (length_bytes name) as Hl. unfold str_len in *.
  split_and!.
  - unfold region_name_bytes. rewrite length_app, length_replicate. lia.
  - apply until_zero_app, Forall_forall. intros b Hin%list_elem_of_In%Hb.
    unfold is_ascii_graphic, in_range in Hin. lia.
  - apply utf8_bytes_ascii, forallb_forall. intros b Hin%Hb.
    unfold is_ascii_graphic, in_range in Hin. lia.
Qed.

(** The table as the decoder sees it: the regions with their offsets and sums. *)
Definition header_rows (h : RecordHeader) : list (RegionDescription * Z * Z) :=
  zip (zip (rh_regions h) (rh_region_offsets h)) (rh_region_crc32 h).

Lemma zip_fmap_regions {A B C} (l : list A) (k : list B) (m : list C) :
  length k = length l → length m = length l →
  (λ row, row.1.1) <$> zip (zip l k) m = l ∧ (λ row, row.1.2) <$> zip (zip l k) m = k
  ∧ (λ row, row.2) <$> zip (zip l k) m = m.
Proof.
  revert k m. induction l as [|a l IH]; intros [|b k] [|c m] Hk Hm; try done; csimpl.
  destruct (IH k m) as (-> & -> & ->); [by injection Hk|by injection Hm|done].
Qed.

(** A row that carries a region. *)
Definition full_row (row : RegionDescription * Z * Z) : list Z :=
  region_name_bytes (rg_name row.1.1) ++ le_bytes 8 (rg_byte_count row.1.1)
  ++ le_bytes 8 row.1.2 ++ le_bytes 4 row.2.
Definition good_row (row : RegionDescription * Z * Z) : Prop :=
  validate_region_name (rg_name row.1.1) = Ok () ∧ 0 ≤ rg_byte_count row.1.1 ≤ u64_max
  ∧ 0 ≤ row.1.2 ≤ usize_max ∧ 0 ≤ row.2 ≤ u32_max.

Lemma zero_row : replicate 32 0
  = region_name_bytes "" ++ le_bytes 8 0 ++ le_bytes 8 0 ++ le_bytes 4 0.
Proof. reflexivity. Qed.

Lemma read_rows_zero n rest :
  read_rows n 0 (concat (replicate n (replicate 32 0)) ++ rest) = (Ok [], rest).
Proof.
  induction n as [|n IH]; [done|].
  change (replicate (S n) (replicate 32 0)) with (replicate 32 0 :: replicate n (replicate 32 0)).
  cbn [concat read_rows]. rewrite zero_row at 1. rewrite <- !app_assoc.
  reads take_bytes_app ltac:(reflexivity).
  reads get_u64_le ltac:(ulia).
  reads get_usize_le ltac:((unfold usize_max; ulia)).
  reads get_u32_le ltac:(ulia). apply IH.
Qed.

Lemma read_rows_full rows n rest :
  Forall good_row rows →
  read_rows (length rows + n) (length rows)
    (concat (map full_row rows) ++ concat (replicate n (replicate 32 0)) ++ rest) = (Ok rows, rest).
Proof.
  induction 1 as [|row rows (Hname & Hb & Ho & Hc) _ IH]; [apply read_rows_zero|].
  cbn [length Nat.add map concat read_rows]. unfold full_row at 1. rewrite <- !app_assoc.
  destruct (region_name_ok _ Hname) as (Hl & Hz & Hu).
  reads take_bytes_app ltac:(done).
  reads get_u64_le ltac:(done).
  reads get_usize_le ltac:(done).
  reads get_u32_le ltac:(done).
  rewrite Hz, Hu. cbn [negb]. unfold se_bind. rewrite IH.
  unfold se_ret. rewrite string_of_bytes_bytes. by destruct row as [[[] ?] ?].
Qed.

Lemma region_row_full h i row : header_rows h !! i = Some row → region_row h i = full_row row.
Proof.
  destruct row as [[r o] c]. unfold header_rows, region_row, full_row. intros H.
  apply lookup_zip_Some in H as [H Hc]. apply lookup_zip_Some in H as [Hr Ho].
  rewrite Hr. by rewrite (nth_lookup_Some _ _ _ _ Ho), (nth_lookup_Some _ _ _ _ Hc).
Qed.

Lemma region_table_rows h :
  length (rh_region_offsets h) = length (rh_regions h) →
  length (rh_region_crc32 h) = length (rh_regions h) → (length (rh_regions h) ≤ MAX_REGIONS)%nat →
  region_table h = concat (map full_row (header_rows h))
    ++ concat (replicate (MAX_REGIONS - length (rh_regions h)) (replicate 32 0)).
Proof.
  intros Ho Hc Hm. unfold region_table. rewrite <- concat_app. f_equal.
  assert (Hlr : length (header_rows h) = length (rh_regions h)).
  { unfold header_rows. rewrite !length_zip. lia. }
  apply list_eq. intros i. destruct (decide (i < length (rh_regions h))%nat) as [Hi|Hi].
  - destruct (lookup_lt_is_Some_2 (header_rows h) i) as [row Hrow]; [lia|].
    rewrite lookup_app_l by (rewrite length_map; lia).
    rewrite !list_lookup_fmap, Hrow. rewrite lookup_seq_lt by lia. simpl.
    by rewrite (region_row_full _ _ _ Hrow).
  - rewrite lookup_app_r by (rewrite length_map; lia). rewrite length_map, Hlr, list_lookup_fmap.
    destruct (decide (i < MAX_REGIONS)%nat).
    + rewrite lookup_seq_lt by lia. rewrite lookup_replicate_2 by lia. simpl. f_equal.
      unfold region_row. by rewrite lookup_ge_None_2 by lia.
    + rewrite lookup_seq_ge by lia. symmetry. apply lookup_ge_None_2. rewrite length_replicate. lia.
Qed.

Lemma full_row_length row : good_row row → length (full_row row) = 32%nat.
Proof.
  intros (Hn & _). destruct (region_name_ok _ Hn) as [Hl _].
  unfold full_row. by rewrite !length_app, !le_bytes_length, Hl.
Qed.
Lemma concat_length_const {A B} (f : A → list B) l n :
  Forall (λ a, length (f a) = n) l → length (concat (map f l)) = (length l * n)%nat.
Proof. induction 1 as [|a l Ha _ IH]; [done|]. cbn. rewrite length_app, IH, Ha. lia. Qed.
Lemma concat_replicate_length {B} (l : list B) n : length (concat (replicate n l)) = (n * length l)%nat.
Proof. induction n as [|n IH]; [done|]. cbn. rewrite length_app, IH. lia. Qed.

Lemma header_prefix_length h : length (rh_fingerprint h) = 32%nat → length (header_prefix h) = 96%nat.
Proof. intros Hf. unfold header_prefix. by rewrite !length_app, !le_bytes_length, Hf. Qed.

Lemma header_rows_good h :
  typed_header h → canonical h → Forall good_row (header_rows h).
Proof.
  intros Hty Hc. apply Forall_lookup. intros i [[r o] c] Hi. unfold header_rows in Hi.
  apply lookup_zip_Some in Hi as [Hi Hcrc]. apply lookup_zip_Some in Hi as [Hr Ho].
  destruct (cn_placed h Hc) as [_ HP]. destruct (HP i o r Ho Hr) as (Hlo & _ & Hhi & _).
  pose proof (Forall_lookup_1 _ _ _ _ (th_regions h Hty) Hr) as Hrc.
  pose proof (Forall_lookup_1 _ _ _ _ (cn_names h Hc) Hr) as [Hname _].
  pose proof (Forall_lookup_1 _ _ _ _ (th_region_crc32 h Hty) Hcrc) as Hcc. simpl in *.
  pose proof (cn_tokens h Hc) as Ht. pose proof (th_token_count h Hty).
  unfold tokens_range in Hlo. simpl in Hlo. rewrite Ht in Hlo.
  unfold HEADER_BYTES, ALIGNMENT in Hlo. split_and!; simpl; auto; lia.
Qed.

Lemma canonical_logical_nonneg h : typed_header h → canonical h → 0 ≤ rh_logical_bytes h.
Proof.
  intros Hty Hc. pose proof (cn_count h Hc) as [Hn _]. pose proof (cn_placed h Hc) as Hpl.
  destruct (last (rh_regions h)) as [r|] eqn:Hr.
  2:{ apply last_None in Hr. rewrite Hr in Hn. simpl in Hn. lia. }
  destruct (last (rh_region_offsets h)) as [o|] eqn:Ho.
  2:{ apply last_None in Ho. destruct Hpl as [Hl _]. rewrite Ho in Hl. simpl in Hl. lia. }
  rewrite (cn_logical h Hc o r Ho Hr).
  assert (0 ≤ o).
  { eapply placed_last_nonneg; [|done..]. unfold tokens_range. rewrite (cn_tokens h Hc). simpl.
    pose proof (th_token_count h Hty). unfold HEADER_BYTES, ALIGNMENT. lia. }
  apply last_Some_elem_of in Hr. pose proof (th_regions h Hty) as Hf. rewrite Forall_forall in Hf.
  specialize (Hf r Hr). simpl in Hf. lia.
Qed.

Lemma region_end_logical h i o r :
  Forall (λ r, 0 ≤ rg_byte_count r ≤ u64_max) (rh_regions h) → canonical h → rh_region_offsets h !! i = Some o → rh_regions h !! i = Some r →
  o + rg_byte_count r ≤ rh_logical_bytes h.
Proof.
  intros Hty Hc Ho Hr. destruct (cn_placed h Hc) as [Hl HP].
  destruct (last (rh_regions h)) as [r'|] eqn:Hr'.
  2:{ apply last_None in Hr'. by rewrite Hr' in Hr. }
  destruct (last (rh_region_offsets h)) as [o'|] eqn:Ho'.
  2:{ apply last_None in Ho'. by rewrite Ho' in Ho. }
  rewrite (cn_logical h Hc o' r' Ho' Hr'). rewrite last_lookup, Hl in Ho'. rewrite last_lookup in Hr'.
  destruct (decide (i = pred (length (rh_regions h)))) as [->|Hi]; [simplify_eq; lia|].
  destruct (HP i o r Ho Hr) as (_ & _ & _ & Hn). specialize (Hn (pred (length (rh_regions h))) o').
  pose proof (Forall_lookup_1 _ _ _ _ Hty Hr') as Hrc. simpl in Hrc.
  apply lookup_lt_Some in Hr. specialize (Hn ltac:(lia) Ho'). lia.
Qed.

Lemma region_table_length h :
  typed_header h → canonical h → length (rh_region_crc32 h) = length (rh_regions h) →
  length (region_table h) = (MAX_REGIONS * 32)%nat.
Proof.
  intros Hty Hc Hcrc. destruct (cn_placed h Hc) as [Ho _]. pose proof (cn_count h Hc).
  rewrite region_table_rows by (done || lia).
  rewrite length_app, concat_replicate_length, length_replicate, concat_length_const with (n := 32%nat).
  - unfold header_rows. rewrite !length_zip, Ho, Hcrc. lia.
  - eapply Forall_impl; [by apply header_rows_good|]. apply full_row_length.
Qed.

Section page.
Context `{!Crc32}.

Lemma header_checksum_app p c rest :
  length p = 96%nat → length c = 4%nat → (3996 ≤ length rest)%nat →
  header_checksum (p ++ c ++ rest) 96 = crc32 (p ++ [0; 0; 0; 0] ++ take 3996 rest).
Proof.
  intros Hp Hc Hr. unfold header_checksum. f_equal. rewrite take_app_length' by done. f_equal. f_equal.
  assert (Hn : Z.to_nat HEADER_BYTES = (length p + (length c + 3996))%nat) by (rewrite Hp, Hc; reflexivity).
  rewrite Hn, !take_app_add, (app_assoc p c), drop_app_length'; [done|]. rewrite length_app. lia.
Qed.

(** The page an encoder leaves: the fields, the checksum, the table and zeros. *)
Lemma encode_record_shape h destination :
  typed_header h → validate_layout h = Ok () → HEADER_BYTES ≤ Z.of_nat (length destination) →
  ∃ table, table = region_table h ++ replicate 924 0 ∧ length table = 3996%nat ∧
    encode h destination =
      Ok (header_prefix h ++ le_bytes 4 (crc32 (header_prefix h ++ [0; 0; 0; 0] ++ table)) ++ table
          ++ drop (Z.to_nat HEADER_BYTES) destination).
Proof.
  intros Hty Hv Hd. destruct (validate_layout_canonical h Hty Hv) as [Hc Hcrc].
  pose proof (header_prefix_length h (proj1 (th_fingerprint h Hty))) as Hp.
  pose proof (region_table_length h Hty Hc Hcrc) as Ht. unfold MAX_REGIONS in Ht.
  set (table := region_table h ++ replicate 924 0).
  assert (Htl : length table = 3996%nat) by (unfold table; rewrite length_app, Ht; reflexivity).
  exists table. split_and!; [done..|]. unfold encode. rewrite Hcrc, Nat.eqb_refl.
  destruct (Z.ltb_spec (Z.of_nat (length destination)) HEADER_BYTES) as [|_]; [lia|].
  assert (Hpad : (Z.to_nat HEADER_BYTES - length (header_prefix h ++ [0; 0; 0; 0]%Z ++ region_table h) = 924)%nat)
    by (rewrite !length_app, Hp, Ht; reflexivity).
  cbn [negb]. cbv zeta. rewrite Hpad, Hp, <- !app_assoc. fold table.
  rewrite header_checksum_app by (done || lia). rewrite (take_ge table) by lia.
  rewrite take_app_length' by done. do 2 f_equal. rewrite (app_assoc (header_prefix h)).
  rewrite drop_app_length'; [done|]. by rewrite length_app, Hp.
Qed.

Context `{!Crc32Laws}.

Lemma decode_page h table rest :
  typed_header h → validate_layout h = Ok () → table = region_table h ++ replicate 924 0 →
  length table = 3996%nat →
  decode (header_prefix h ++ le_bytes 4 (crc32 (header_prefix h ++ [0; 0; 0; 0] ++ table)) ++ table
          ++ rest) = Ok h.
Proof.
  intros Hty Hv Htab Hlen. destruct (validate_layout_canonical h Hty Hv) as [Hc Hcrc].
  pose proof (header_prefix_length h (proj1 (th_fingerprint h Hty))) as Hp.
  destruct (cn_placed h Hc) as [Ho _]. pose proof (cn_count h Hc) as Hn.
  destruct (cn_file h Hc) as (Hf1 & _ & Hf2).
  pose proof (canonical_logical_nonneg h Hty Hc) as Hlog.
  set (crc := crc32 _). pose proof (crc32_u32 (header_prefix h ++ [0; 0; 0; 0] ++ table)) as Hcr.
  fold crc in Hcr.
  assert (Hck : header_checksum (header_prefix h ++ le_bytes 4 crc ++ table ++ rest) 96 = crc).
  { rewrite header_checksum_app; [|done|apply le_bytes_length|rewrite length_app; lia].
    by rewrite take_app_length'. }
  unfold decode. rewrite Hck. clearbody crc.
  destruct (Z.ltb_spec (Z.of_nat (length (header_prefix h ++ le_bytes 4 crc ++ table ++ rest))) HEADER_BYTES) as [Hs|_].
  { rewrite !length_app, le_bytes_length, Hp, Hlen in Hs. unfold HEADER_BYTES, ALIGNMENT in Hs. lia. }
  unfold header_prefix. rewrite <- !app_assoc.
  reads take_bytes_app ltac:(reflexivity).
  rewrite bool_decide_true by done. cbn [negb].
  reads get_u32_le ltac:((unfold VERSION; ulia)). cbn [Z.eqb negb VERSION Pos.eqb].
  reads get_u32_le ltac:((unfold HEADER_BYTES, ALIGNMENT; ulia)).
  rewrite Z.eqb_refl. cbn [negb].
  reads take_bytes_app ltac:(apply (th_fingerprint h Hty)).
  reads get_u64_le ltac:(apply (th_key_hash h Hty)).
  reads get_usize_le ltac:(apply (th_token_count h Hty)).
  reads get_u32_le ltac:((unfold MAX_REGIONS in Hn; ulia)).
  reads get_u32_le ltac:(apply (th_tokens_crc32 h Hty)).
  reads get_usize_le ltac:((rewrite (cn_tokens h Hc); unfold HEADER_BYTES, ALIGNMENT, usize_max; ulia)).
  reads get_usize_le ltac:(lia).
  reads get_usize_le ltac:(lia).
  reads get_u32_le ltac:(done).
  rewrite Z.eqb_refl. cbn [negb].
  destruct (Z.eqb_spec (Z.of_nat (length (rh_regions h))) 0) as [|_]; [lia|].
  destruct (Z.ltb_spec (Z.of_nat MAX_REGIONS) (Z.of_nat (length (rh_regions h)))) as [|_]; [lia|].
  cbn [orb].
  rewrite Nat2Z.id, Htab, region_table_rows, <- !app_assoc by (done || lia).
  unfold se_bind at 1.
  assert (Hrl : length (header_rows h) = length (rh_regions h))
    by (unfold header_rows; rewrite !length_zip; lia).
  rewrite <- Hrl. replace MAX_REGIONS with (length (header_rows h) + (MAX_REGIONS - length (header_rows h)))%nat at 1 by lia.
  rewrite read_rows_full by by apply header_rows_good.
  destruct (zip_fmap_regions (rh_regions h) (rh_region_offsets h) (rh_region_crc32 h) Ho Hcrc)
    as (Hz1 & Hz2 & Hz3).
  unfold header_rows. rewrite Hz1, Hz2, Hz3.
  replace (Build_RecordHeader _ _ _ _ _ _ _ _ _ _) with h by by destruct h.
  unfold se_bind, se_lift. by rewrite Hv.
Qed.
End page.

(** ** What a decoded header promises *)

Lemma take_bytes_Ok n s v s' :
  take_bytes n s = (Ok v, s') → Forall byte s → length v = n ∧ Forall byte v ∧ Forall byte s'.
Proof.
  unfold take_bytes. destruct (Nat.ltb_spec (length s) n); [done|]. intros [= <- <-] Hs.
  rewrite length_take. split_and!; [lia|by apply Forall_take|by apply Forall_drop].
Qed.
Lemma get_u32_Ok s v s' : get_u32 s = (Ok v, s') → Forall byte s → 0 ≤ v ≤ u32_max ∧ Forall byte s'.
Proof.
  unfold get_u32. intros H Hs. apply se_bind_Ok in H as (b & s1 & Hb & [<- <-]%se_ret_Ok).
  apply take_bytes_Ok in Hb as (Hl & Hbb & Hs1); [|done]. split; [|done].
  pose proof (le_val_range b Hbb) as Hr. rewrite Hl in Hr.
  change (256 ^ Z.of_nat 4) with (u32_max + 1) in Hr. lia.
Qed.
Lemma get_u64_Ok s v s' : get_u64 s = (Ok v, s') → Forall byte s → 0 ≤ v ≤ u64_max ∧ Forall byte s'.
Proof.
  unfold get_u64. intros H Hs. apply se_bind_Ok in H as (b & s1 & Hb & [<- <-]%se_ret_Ok).
  apply take_bytes_Ok in Hb as (Hl & Hbb & Hs1); [|done]. split; [|done].
  pose proof (le_val_range b Hbb) as Hr. rewrite Hl in Hr.
  change (256 ^ Z.of_nat 8) with (u64_max + 1) in Hr. lia.
Qed.
Lemma get_usize_Ok s v s' : get_usize s = (Ok v, s') → Forall byte s → 0 ≤ v ≤ usize_max ∧ Forall byte s'.
Proof.
  unfold get_usize. intros H Hs. apply se_bind_Ok in H as (w & s1 & Hw & [H <-]%se_lift_Ok).
  apply get_u64_Ok in Hw as [Hw Hs1]; [|done]. apply as_usize_Ok in H as [-> ?]. split; [lia|done].
Qed.

Lemma read_rows_Ok n used s rows s' :
  read_rows n used s = (Ok rows, s') → Forall byte s →
  Forall (λ row, 0 ≤ rg_byte_count row.1.1 ≤ u64_max ∧ 0 ≤ row.2 ≤ u32_max) rows.
Proof.
  revert used s rows s'. induction n as [|n IH]; intros used s rows s'; cbn [read_rows].
  { intros [<- _]%se_ret_Ok. constructor. }
  intros H Hs. apply se_bind_Ok in H as (name & s1 & Hn & H).
  apply take_bytes_Ok in Hn as (_ & _ & Hs1); [|done].
  apply se_bind_Ok in H as (count & s2 & Hc & H). apply get_u64_Ok in Hc as [Hc Hs2]; [|done].
  apply se_bind_Ok in H as (off & s3 & Ho & H). apply get_usize_Ok in Ho as [_ Hs3]; [|done].
  apply se_bind_Ok in H as (crc & s4 & Hcr & H). apply get_u32_Ok in Hcr as [Hcr Hs4]; [|done].
  destruct used as [|used]; [by eapply IH|]. destruct (negb _); [done|].
  apply se_bind_Ok in H as (rest & s5 & Hr & [<- _]%se_ret_Ok). constructor; [done|]. by eapply IH.
Qed.

Section decoded.
Context `{!Crc32}.

Lemma decode_Ok source h :
  Forall byte source → decode source = Ok h → typed_header h ∧ validate_layout h = Ok ().
Proof.
  intros Hs. unfold decode. destruct (_ <? _); [done|].
  destruct (se_bind _ _ source) as [r s'] eqn:Hrun. cbn [fst]. intros ->.
  apply se_bind_Ok in Hrun as (magic & s1 & Hm & Hrun). apply take_bytes_Ok in Hm as (_ & _ & Hs1); [|done].
  destruct (negb _); [done|].
  apply se_bind_Ok in Hrun as (version & s2 & Hv & Hrun). apply get_u32_Ok in Hv as [_ Hs2]; [|done].
  destruct (negb _); [done|].
  apply se_bind_Ok in Hrun as (hb & s3 & Hh & Hrun). apply get_u32_Ok in Hh as [_ Hs3]; [|done].
  destruct (negb _); [done|].
  apply se_bind_Ok in Hrun as (fp & s4 & Hf & Hrun). apply take_bytes_Ok in Hf as (Hfl & Hfb & Hs4); [|done].
  apply se_bind_Ok in Hrun as (key & s5 & Hk & Hrun). apply get_u64_Ok in Hk as [Hk Hs5]; [|done].
  apply se_bind_Ok in Hrun as (tc & s6 & Ht & Hrun). apply get_usize_Ok in Ht as [Ht Hs6]; [|done].
  apply se_bind_Ok in Hrun as (rc & s7 & Hr & Hrun). apply get_u32_Ok in Hr as [_ Hs7]; [|done].
  apply se_bind_Ok in Hrun as (tcrc & s8 & Htc & Hrun). apply get_u32_Ok in Htc as [Htc Hs8]; [|done].
  apply se_bind_Ok in Hrun as (to & s9 & Hto & Hrun). apply get_usize_Ok in Hto as [_ Hs9]; [|done].
  apply se_bind_Ok in Hrun as (lb & s10 & Hl & Hrun). apply get_usize_Ok in Hl as [_ Hs10]; [|done].
  apply se_bind_Ok in Hrun as (fb & s11 & Hfb' & Hrun). apply get_usize_Ok in Hfb' as [_ Hs11]; [|done].
  apply se_bind_Ok in Hrun as (ec & s12 & He & Hrun). apply get_u32_Ok in He as [_ Hs12]; [|done].
  destruct (negb _); [done|]. destruct (_ || _); [done|].
  apply se_bind_Ok in Hrun as (rows & s13 & Hrows & Hrun). apply read_rows_Ok in Hrows; [|done].
  apply se_bind_Ok in Hrun as ([] & s14 & [Hval <-]%se_lift_Ok & [<- _]%se_ret_Ok).
  split; [|done]. constructor; cbn; auto.
  - apply Forall_fmap. eapply Forall_impl; [done|]. by intros ? [? _].
  - apply Forall_fmap. eapply Forall_impl; [done|]. by intros ? [_ ?].
Qed.
End decoded.

Lemma header_prefix_bytes h : typed_header h → Forall byte (header_prefix h).
Proof.
  intros Hty. unfold header_prefix. repeat apply Forall_app_2; try apply le_bytes_bytes.
  - unfold MAGIC. repeat constructor; unfold byte; lia.
  - apply (th_fingerprint h Hty).
Qed.
Lemma region_table_bytes h : Forall byte (region_table h).
Proof.
  unfold region_table. generalize (seq 0 MAX_REGIONS). intros l.
  induction l as [|i l IH]; cbn [map concat]; [constructor|]. apply Forall_app_2; [|done].
  unfold region_row. destruct (rh_regions h !! i) as [r|].
  - unfold region_name_bytes. repeat apply Forall_app_2; try apply le_bytes_bytes; [apply bytes_byte|].
    apply Forall_replicate. unfold byte. lia.
  - apply Forall_replicate. unfold byte. lia.
Qed.
Lemma Ok_inj {E A} (a b : A) : Ok (E := E) a = Ok b → a = b.
Proof. congruence. Qed.
Lemma encode_bytes `{!Crc32, !Crc32Laws} h destination page :
  typed_header h → validate_layout h = Ok () → HEADER_BYTES ≤ Z.of_nat (length destination) →
  Forall byte destination → encode h destination = Ok page → Forall byte page.
Proof.
  intros Hty Hv Hd Hb. destruct (encode_record_shape h destination Hty Hv Hd) as (table & Htab & _ & ->).
  intros Heq%Ok_inj. rewrite <- Heq. assert (Ht : Forall byte table).
  { rewrite Htab. apply Forall_app_2; [apply region_table_bytes|]. apply Forall_replicate. unfold byte. lia. }
  apply Forall_app_2; [by apply header_prefix_bytes|]. apply Forall_app_2; [apply le_bytes_bytes|].
  apply Forall_app_2; [done|by apply Forall_drop].
Qed.

Lemma encode_decodes `{!Crc32, !Crc32Laws} h destination :
  typed_header h → validate_layout h = Ok () → HEADER_BYTES ≤ Z.of_nat (length destination) →
  ∃ page, encode h destination = Ok page ∧ length page = length destination ∧ decode page = Ok h.
Proof.
  intros Hty Hv Hd. destruct (encode_record_shape h destination Hty Hv Hd) as (table & Htab & Hlen & ->).
  eexists. split_and!; [done| |by apply decode_page].
  rewrite !length_app, le_bytes_length, length_drop, Hlen.
  rewrite (header_prefix_length h) by apply (th_fingerprint h Hty).
  unfold HEADER_BYTES, ALIGNMENT in *. lia.
Qed.

(** ** Claims *)

(** Whatever bytes a record file holds, a header the decoder accepts cannot point outside the file: token identifiers and regions are page aligned, in order, disjoint, non-empty, and inside the file size, which is page aligned and a [usize]. *)
Theorem decode_regions_in_bounds `{!Crc32} source h :
  Forall byte source → decode source = Ok h →
  fst (tokens_range h) = HEADER_BYTES ∧ fst (tokens_range h) < snd (tokens_range h) ∧
  aligned (rh_file_bytes h) ∧ rh_file_bytes h ≤ usize_max ∧
  length (rh_region_offsets h) = length (rh_regions h) ∧
  ∀ i start stop, region_range h i = Some (start, stop) →
    aligned start ∧ snd (tokens_range h) ≤ start ∧ start < stop ∧
    stop ≤ rh_logical_bytes h ∧ rh_logical_bytes h ≤ rh_file_bytes h ∧
    ∀ j start' stop', (i < j)%nat → region_range h j = Some (start', stop') → stop ≤ start'.
Proof.
  intros Hs Hd. destruct (decode_Ok source h Hs Hd) as [Hty Hv].
  destruct (validate_layout_canonical h Hty Hv) as [Hc _].
  pose proof (cn_token_count h Hc). pose proof (th_token_count h Hty).
  destruct (cn_file h Hc) as ([Hf1 Hf2] & Hf3 & Hf4). destruct (cn_placed h Hc) as [Hl HP].
  split_and!; [apply cn_tokens; done|unfold tokens_range; simpl; lia|done..|].
  intros i start stop Hi. unfold region_range in Hi.
  apply bind_Some in Hi as (o & Ho & Hi). apply bind_Some in Hi as (r & Hr & [= <- <-]).
  destruct (HP i o r Ho Hr) as (Hlo & Hal & Hhi & Hnext).
  destruct (Forall_lookup_1 _ _ _ _ (cn_names h Hc) Hr) as [_ Hne].
  pose proof (Forall_lookup_1 _ _ _ _ (th_regions h Hty) Hr) as Hrc. simpl in Hrc.
  split_and!; [done|done|lia| |done|].
  - by eapply region_end_logical; [apply th_regions|..].
  - intros j start' stop' Hij Hj. unfold region_range in Hj.
    apply bind_Some in Hj as (o' & Ho' & Hj). apply bind_Some in Hj as (r' & Hr' & [= <- <-]).
    by eapply Hnext.
Qed.

(** Decoding an encoded header gives it back, whatever the destination held and whatever follows the page: the format loses nothing, and the checksum is the one the decoder recomputes. *)
Theorem encode_decode `{!Crc32, !Crc32Laws} h destination :
  typed_header h → validate_layout h = Ok () → HEADER_BYTES ≤ Z.of_nat (length destination) →
  ∃ page, encode h destination = Ok page ∧ length page = length destination ∧ decode page = Ok h.
Proof. apply encode_decodes. Qed.

(** ** A concrete header *)

Module Sample.

Definition checksum : Crc32 := foldl (λ a b, (31 * a + b) mod 2 ^ 32) 0.
Lemma checksum_laws : @Crc32Laws checksum.
Proof.
  intros l. unfold crc32, checksum. destruct l as [|b l _] using rev_ind; [vm_compute; split; congruence|].
  rewrite foldl_app. cbn [foldl]. match goal with |- context [?a mod _] => pose proof (Z.mod_pos_bound a (2 ^ 32)) end.
  ulia.
Qed.

Definition regions : list RegionDescription :=
  [ {| rg_name := "paged_kv"; rg_byte_count := 2 ^ 20 |};
    {| rg_name := "gdn_ssm"; rg_byte_count := 65536 |};
    {| rg_name := "scale_basis"; rg_byte_count := 128 |} ].
Definition header : RecordHeader :=
  {| rh_fingerprint := replicate 32 7; rh_key_hash := 16045690981402826360; rh_token_count := 1000;
     rh_regions := regions; rh_tokens_offset := 4096; rh_region_offsets := [8192; 1056768; 1122304];
     rh_logical_bytes := 1122432; rh_file_bytes := 1126400; rh_tokens_crc32 := 11;
     rh_region_crc32 := [22; 33; 44] |}.
Definition page : list Z := match @encode checksum header (replicate 5000 255) with Ok p => p | Err _ => [] end.

Lemma header_typed : typed_header header.
Proof.
  constructor; [|vm_compute; split; congruence..| |vm_compute; split; congruence|].
  - split; [done|]. apply Forall_replicate. split; done.
  - repeat constructor; vm_compute; congruence.
  - repeat constructor; vm_compute; congruence.
Qed.

Definition is_byte (b : Z) : bool := (0 <=? b) && (b <? 256).
Lemma forallb_byte l : forallb is_byte l = true → Forall byte l.
Proof.
  rewrite forallb_forall. intros Hl. apply Forall_forall. intros b Hb%list_elem_of_In%Hl.
  unfold is_byte, byte in *. lia.
Qed.

Lemma encode_decode_witness :
  ∃ p, @encode checksum header (replicate 5000 255) = Ok p ∧ length p = 5000%nat ∧ @decode checksum p = Ok header.
Proof.
  assert (Hv : validate_layout header = Ok ()) by (vm_compute; reflexivity).
  assert (Hn : HEADER_BYTES ≤ Z.of_nat (length (replicate 5000 255))) by (vm_compute; congruence).
  destruct (@encode_decode checksum checksum_laws header (replicate 5000 255) header_typed Hv Hn)
    as (p & He & Hl & Hd).
  exists p. rewrite He, Hl, Hd. split; [reflexivity|]. split; reflexivity.
Defined.

Lemma decode_regions_in_bounds_witness :
  ∃ h, @decode checksum page = Ok h ∧ region_range h 1 = Some (1056768, 1122304)
  ∧ 1122304 ≤ rh_logical_bytes h ∧ rh_logical_bytes h ≤ rh_file_bytes h.
Proof.
  exists header.
  assert (Hb : Forall byte page) by (apply forallb_byte; vm_compute; reflexivity).
  assert (Hd : @decode checksum page = Ok header) by (vm_compute; reflexivity).
  destruct (@decode_regions_in_bounds checksum page header Hb Hd) as (_ & _ & _ & _ & _ & HR).
  destruct (HR 1%nat 1056768 1122304 eq_refl) as (_ & _ & _ & Hs & Hf & _).
  split; [exact Hd|]. split; [reflexivity|]. split; [exact Hs|exact Hf].
Defined.
End Sample.
