(* ===== verification/PrefixResident.v ===== *)
(** * The resident tier of the prefix store

    [cache/letsinfer_prefix_store/src/ram_tier.rs]: validated records kept in
    host memory under a byte budget, with least-recently-used eviction and one
    reader of the disk per path.  The regions of [load] under the mutex are
    [load_enter] and [load_finish]; the loader runs between them.  A blob is its
    bytes, and the arithmetic on [used_bytes] wraps as a release build's does:
    the invariant shows that it never has to.  [tier_step] interleaves the
    regions of any number of threads. *)

From Stdlib Require Import String.
From S2P Require Import Prelude Text PrefixFormat.

Definition path : Type := string.
Definition RecordBlob : Type := list Z.
Definition blob_len (blob : RecordBlob) : Z := Z.of_nat (length blob).

Inductive LoadSource := Resident | Nvme.

Record TierStats := {
  st_capacity_bytes : Z; st_used_bytes : Z; st_entries : Z; st_loading : Z;
  st_hit_count : Z; st_nvme_load_count : Z;
}.

Record TierState := {
  ts_entries : gmap path RecordBlob;
  ts_lru : list path;
  ts_loading : gset path;
  ts_used_bytes : Z;
  ts_hit_count : Z;
  ts_nvme_load_count : Z;
}.

Definition tier_default : TierState :=
  {| ts_entries := ∅; ts_lru := []; ts_loading := ∅; ts_used_bytes := 0; ts_hit_count := 0;
     ts_nvme_load_count := 0 |}.

Definition wrapping_sub_u64 (a b : Z) : Z := (a - b) mod 2 ^ 64.

(** ** The private helpers *)

Fixpoint remove_from_lru (lru : list path) (key : path) : list path :=
  match lru with
  | [] => []
  | candidate :: lru =>
    if bool_decide (candidate = key) then lru else candidate :: remove_from_lru lru key
  end.
Definition touch (lru : list path) (key : path) : list path := remove_from_lru lru key ++ [key].

Definition validate_size (blob : RecordBlob) (expected_bytes : Z) : result message () :=
  if blob_len blob =? expected_bytes then Ok ()
  else Err ("resident record size mismatch: got " +:+ to_decimal (blob_len blob)
            +:+ ", expected " +:+ to_decimal expected_bytes).

(** The entry, the byte count and the queue position of [key] go together. *)
Definition drop_entry (key : path) (s : TierState) : TierState :=
  match ts_entries s !! key with
  | Some prior =>
    {| ts_entries := delete key (ts_entries s); ts_lru := remove_from_lru (ts_lru s) key;
       ts_loading := ts_loading s; ts_used_bytes := wrapping_sub_u64 (ts_used_bytes s) (blob_len prior);
       ts_hit_count := ts_hit_count s; ts_nvme_load_count := ts_nvme_load_count s |}
  | None => s
  end.

(** The eviction loop of [insert]; each turn pops the queue. *)
Fixpoint evict_loop (capacity incoming : Z) (lru : list path) (entries : gmap path RecordBlob)
    (used : Z) : list path * gmap path RecordBlob * Z :=
  match lru with
  | [] => ([], entries, used)
  | victim :: rest =>
    if capacity <? saturating_add_u64 used incoming
    then match entries !! victim with
         | Some removed =>
           evict_loop capacity incoming rest (delete victim entries)
             (wrapping_sub_u64 used (blob_len removed))
         | None => evict_loop capacity incoming rest entries used
         end
    else (lru, entries, used)
  end.

Definition tier_insert (capacity : Z) (key : path) (blob : RecordBlob) (s : TierState) : TierState :=
  let s := drop_entry key s in
  let '(lru, entries, used) :=
    evict_loop capacity (blob_len blob) (ts_lru s) (ts_entries s) (ts_used_bytes s) in
  {| ts_entries := <[key := blob]> entries; ts_lru := lru ++ [key]; ts_loading := ts_loading s;
     ts_used_bytes := wrapping_add_u64 used (blob_len blob);
     ts_hit_count := ts_hit_count s; ts_nvme_load_count := ts_nvme_load_count s |}.

(** ** The operations *)

Definition with_loading (f : gset path → gset path) (s : TierState) : TierState :=
  {| ts_entries := ts_entries s; ts_lru := ts_lru s; ts_loading := f (ts_loading s);
     ts_used_bytes := ts_used_bytes s; ts_hit_count := ts_hit_count s;
     ts_nvme_load_count := ts_nvme_load_count s |}.
Definition count_nvme_load (s : TierState) : TierState :=
  {| ts_entries := ts_entries s; ts_lru := ts_lru s; ts_loading := ts_loading s;
     ts_used_bytes := ts_used_bytes s; ts_hit_count := ts_hit_count s;
     ts_nvme_load_count := wrapping_add_u64 (ts_nvme_load_count s) 1 |}.

Definition bypasses (capacity bytes : Z) : bool := (capacity =? 0) || (capacity <? bytes).

(** One turn of the waiting loop of [load], under the mutex. *)
Inductive Entered := Hit (blob : RecordBlob) | Elected | Wait.
Definition load_enter (key : path) (s : TierState) : Entered * TierState :=
  match ts_entries s !! key with
  | Some blob =>
    (Hit blob,
     {| ts_entries := ts_entries s; ts_lru := touch (ts_lru s) key; ts_loading := ts_loading s;
        ts_used_bytes := ts_used_bytes s; ts_hit_count := wrapping_add_u64 (ts_hit_count s) 1;
        ts_nvme_load_count := ts_nvme_load_count s |})
  | None =>
    if bool_decide (key ∈ ts_loading s) then (Wait, s)
    else (Elected, with_loading ({[key]} ∪.) s)
  end.

(** [loader().and_then(validate_size)] *)
Definition checked_load (loader : result message RecordBlob) (expected_bytes : Z) :
    result message RecordBlob :=
  let? blob := loader in let? _ := validate_size blob expected_bytes in Ok blob.

(** The elected reader publishes what its loader returned. *)
Definition load_finish (capacity : Z) (key : path) (loaded : result message RecordBlob)
    (s : TierState) : result message (RecordBlob * LoadSource) * TierState :=
  let s := with_loading (.∖ {[key]}) s in
  match loaded with
  | Ok blob => (Ok (blob, Nvme), count_nvme_load (tier_insert capacity key blob s))
  | Err e => (Err e, s)
  end.

(** A record the tier may not keep is loaded for its caller only. *)
Definition load_bypass (loaded : result message RecordBlob) (s : TierState) :
    result message (RecordBlob * LoadSource) * TierState :=
  match loaded with
  | Ok blob => (Ok (blob, Nvme), count_nvme_load s)
  | Err e => (Err e, s)
  end.

(** A call of [load] during which no other thread takes the mutex; [None] when it
    has to wait for the reader of its path. *)
Definition load (capacity : Z) (key : path) (expected_bytes : Z)
    (loader : result message RecordBlob) (s : TierState) :
    option (result message (RecordBlob * LoadSource) * TierState) :=
  if bypasses capacity expected_bytes
  then Some (load_bypass (checked_load loader expected_bytes) s)
  else match load_enter key s with
       | (Hit blob, s') => Some (Ok (blob, Resident), s')
       | (Elected, s') => Some (load_finish capacity key (checked_load loader expected_bytes) s')
       | (Wait, _) => None
       end.

Definition promote (capacity : Z) (key : path) (blob : RecordBlob) (s : TierState) : TierState :=
  if bypasses capacity (blob_len blob) then s else tier_insert capacity key blob s.

Definition invalidate (key : path) (s : TierState) : TierState := drop_entry key s.

Definition tier_stats (capacity : Z) (s : TierState) : TierStats :=
  {| st_capacity_bytes := capacity; st_used_bytes := ts_used_bytes s;
     st_entries := Z.of_nat (size (ts_entries s)); st_loading := Z.of_nat (size (ts_loading s));
     st_hit_count := ts_hit_count s; st_nvme_load_count := ts_nvme_load_count s |}.

(** ** The tier shared by threads

    [readers] is the load each elected thread is running. *)

Record Tier := { tier_state : TierState; tier_readers : gmap nat (path * Z) }.

Inductive tier_step (capacity : Z) : Tier → Tier → Prop :=
  | step_bypass t expected loader :
      bypasses capacity expected = true →
      tier_step capacity t
        {| tier_state := snd (load_bypass (checked_load loader expected) (tier_state t));
           tier_readers := tier_readers t |}
  | step_hit t key expected blob s' :
      bypasses capacity expected = false → load_enter key (tier_state t) = (Hit blob, s') →
      tier_step capacity t {| tier_state := s'; tier_readers := tier_readers t |}
  | step_elected t thread key expected s' :
      bypasses capacity expected = false → tier_readers t !! thread = None →
      load_enter key (tier_state t) = (Elected, s') →
      tier_step capacity t
        {| tier_state := s'; tier_readers := <[thread := (key, expected)]> (tier_readers t) |}
  | step_finish t thread key expected loader :
      tier_readers t !! thread = Some (key, expected) →
      tier_step capacity t
        {| tier_state := snd (load_finish capacity key (checked_load loader expected) (tier_state t));
           tier_readers := delete thread (tier_readers t) |}
  | step_promote t key blob :
      tier_step capacity t
        {| tier_state := promote capacity key blob (tier_state t); tier_readers := tier_readers t |}
  | step_invalidate t key :
      tier_step capacity t
        {| tier_state := invalidate key (tier_state t); tier_readers := tier_readers t |}.

Definition tier_new : Tier := {| tier_state := tier_default; tier_readers := ∅ |}.

(** ** The reference cache

    An association list from the least to the most recently used record. *)

Abbreviation cache := (list (path * RecordBlob)).
Definition cache_bytes (c : cache) : Z := foldr (λ e n, blob_len e.2 + n) 0 c.
Definition cache_get (key : path) (c : cache) : option RecordBlob := (list_to_map c : gmap _ _) !! key.
Definition cache_remove (key : path) (c : cache) : cache := filter (λ e, e.1 ≠ key) c.
Fixpoint cache_fit (room : Z) (c : cache) : cache :=
  match c with
  | [] => []
  | e :: rest => if cache_bytes c <=? room then c else cache_fit room rest
  end.
Definition cache_put (capacity : Z) (key : path) (blob : RecordBlob) (c : cache) : cache :=
  cache_fit (capacity - blob_len blob) (cache_remove key c) ++ [(key, blob)].
Definition cache_touch (key : path) (c : cache) : cache :=
  match cache_get key c with Some blob => cache_remove key c ++ [(key, blob)] | None => c end.

(** A tier state stands for a cache within the budget. *)
Record represents (capacity : Z) (s : TierState) (c : cache) : Prop := {
  rp_lru : ts_lru s = c.*1;
  rp_nodup : NoDup c.*1;
  rp_entries : ts_entries s = list_to_map c;
  rp_used : ts_used_bytes s = cache_bytes c;
  rp_budget : cache_bytes c ≤ capacity;
}.

(** ** Caches *)

Lemma blob_len_nonneg b : 0 ≤ blob_len b.
Proof. unfold blob_len. lia. Qed.
Lemma cache_bytes_nonneg c : 0 ≤ cache_bytes c.
Proof. induction c as [|e c IH]; simpl; [done|]. pose proof (blob_len_nonneg e.2). lia. Qed.
Lemma cache_bytes_app c c' : cache_bytes (c ++ c') = cache_bytes c + cache_bytes c'.
Proof. induction c as [|e c IH]; simpl; lia. Qed.

Lemma wrapping_sub_u64_small a b : 0 ≤ a - b ≤ u64_max → wrapping_sub_u64 a b = a - b.
Proof.
  intros. unfold wrapping_sub_u64. change (2 ^ 64) with 18446744073709551616.
  apply Z.mod_small. ulia.
Qed.
Lemma wrapping_add_u64_exact a b : 0 ≤ a + b ≤ u64_max → wrapping_add_u64 a b = a + b.
Proof.
  intros. unfold wrapping_add_u64. change (2 ^ 64) with 18446744073709551616.
  apply Z.mod_small. ulia.
Qed.

Lemma cache_remove_cons key k b c :
  cache_remove key ((k, b) :: c) =
  if decide (k = key) then cache_remove key c else (k, b) :: cache_remove key c.
Proof.
  unfold cache_remove. destruct (decide (k = key)) as [->|Hk].
  - by rewrite filter_cons_False by (simpl; tauto).
  - by rewrite filter_cons_True.
Qed.
Lemma cache_remove_absent key c : key ∉ c.*1 → cache_remove key c = c.
Proof.
  induction c as [|[k b] c IH]; [done|]. rewrite cache_remove_cons, fmap_cons. intros Hk.
  rewrite decide_False by set_solver. f_equal. apply IH. set_solver.
Qed.
Lemma cache_remove_keys key c : NoDup c.*1 → (cache_remove key c).*1 = remove_from_lru c.*1 key.
Proof.
  induction c as [|[k b] c IH]; [done|]. rewrite cache_remove_cons, fmap_cons.
  intros [Hk Hn]%NoDup_cons. cbn [remove_from_lru fst].
  destruct (decide (k = key)) as [->|Hd].
  - rewrite bool_decide_true by done. by rewrite cache_remove_absent.
  - rewrite bool_decide_false, fmap_cons by done. by rewrite IH.
Qed.
Lemma cache_remove_map key c :
  (list_to_map (cache_remove key c) : gmap path RecordBlob) = delete key (list_to_map c).
Proof.
  induction c as [|[k b] c IH]; [symmetry; apply delete_empty|]. rewrite cache_remove_cons.
  destruct (decide (k = key)) as [->|Hk]; rewrite !list_to_map_cons.
  - by rewrite IH, delete_insert_eq.
  - by rewrite IH, delete_insert_ne.
Qed.
Lemma cache_remove_bytes key c b :
  NoDup c.*1 → (key, b) ∈ c → cache_bytes (cache_remove key c) = cache_bytes c - blob_len b.
Proof.
  induction c as [|[k b'] c IH]; [by intros _ ?%not_elem_of_nil|]. rewrite cache_remove_cons, fmap_cons.
  intros [Hk Hn]%NoDup_cons [[= <- <-]|Hin]%elem_of_cons.
  - rewrite decide_True by done. rewrite cache_remove_absent by done. cbn [cache_bytes foldr snd].
    fold (cache_bytes c). lia.
  - rewrite decide_False by (intros ->; apply Hk, list_elem_of_fmap; by exists (key, b)).
    cbn [cache_bytes foldr snd]. fold (cache_bytes c) (cache_bytes (cache_remove key c)).
    rewrite IH by done. lia.
Qed.
Lemma cache_remove_bytes_le key c : cache_bytes (cache_remove key c) ≤ cache_bytes c.
Proof.
  induction c as [|[k b] c IH]; [done|]. pose proof (blob_len_nonneg b). rewrite cache_remove_cons.
  destruct (decide (k = key)); simpl; lia.
Qed.
Lemma cache_remove_notin key c : key ∉ (cache_remove key c).*1.
Proof.
  unfold cache_remove. rewrite list_elem_of_fmap. intros ([k b] & Hk & [Hn _]%list_elem_of_filter).
  simpl in *. congruence.
Qed.
Lemma cache_remove_nodup key c : NoDup c.*1 → NoDup (cache_remove key c).*1.
Proof.
  induction c as [|[k b] c IH]; [done|]. rewrite cache_remove_cons, fmap_cons.
  intros [Hk Hn]%NoDup_cons. destruct (decide (k = key)); [auto|]. rewrite fmap_cons.
  apply NoDup_cons. split; [|auto]. contradict Hk. apply list_elem_of_fmap in Hk as (e & He & Hin).
  apply list_elem_of_filter in Hin as [_ Hin]. apply list_elem_of_fmap. eauto.
Qed.

(** Dropping the oldest entries until the rest fits. *)
Lemma cache_fit_suffix room c : cache_fit room c `suffix_of` c.
Proof.
  induction c as [|e c IH]; cbn [cache_fit]; [done|]. case_match; [done|]. by apply suffix_cons_r.
Qed.
Lemma cache_fit_bytes room c : 0 ≤ room → cache_bytes (cache_fit room c) ≤ room.
Proof.
  intros Hr. induction c as [|e c IH]; cbn [cache_fit]; [done|].
  destruct (Z.leb_spec (cache_bytes (e :: c)) room); done.
Qed.

(** ** The operations on the cache they stand for *)

Section tier.
Context (capacity : Z) (Hcap : 0 ≤ capacity < u64_max).

Lemma tier_default_represents : represents capacity tier_default [].
Proof. split; simpl; try done; [constructor|lia]. Qed.

Lemma represents_get s c key : represents capacity s c → ts_entries s !! key = cache_get key c.
Proof. intros Hr. unfold cache_get. by rewrite (rp_entries _ _ _ Hr). Qed.

Lemma represents_elem s c key b : represents capacity s c → ts_entries s !! key = Some b ↔ (key, b) ∈ c.
Proof.
  intros Hr. rewrite (rp_entries _ _ _ Hr).
  symmetry. apply elem_of_list_to_map, (rp_nodup _ _ _ Hr).
Qed.

Lemma drop_entry_represents s c key :
  represents capacity s c → represents capacity (drop_entry key s) (cache_remove key c).
Proof.
  intros Hr. unfold drop_entry. destruct (ts_entries s !! key) as [b|] eqn:Hb.
  - apply (represents_elem s c) in Hb; [|done]. destruct Hr as [Hl Hn He Hu Hg].
    pose proof (cache_remove_bytes key c b Hn Hb) as Hbytes.
    pose proof (cache_bytes_nonneg (cache_remove key c)). pose proof (blob_len_nonneg b).
    split; simpl.
    + by rewrite cache_remove_keys, Hl.
    + by apply cache_remove_nodup.
    + by rewrite cache_remove_map, He.
    + rewrite wrapping_sub_u64_small; lia.
    + lia.
  - rewrite cache_remove_absent; [done|]. intros Hin. apply list_elem_of_fmap in Hin as ([k b] & -> & Hin).
    apply (represents_elem s c) in Hin; [|done]. simpl in Hb. congruence.
Qed.

Lemma evict_loop_fit incoming c :
  0 ≤ incoming → NoDup c.*1 → cache_bytes c ≤ capacity →
  evict_loop capacity incoming c.*1 (list_to_map c) (cache_bytes c) =
    ((cache_fit (capacity - incoming) c).*1, list_to_map (cache_fit (capacity - incoming) c),
     cache_bytes (cache_fit (capacity - incoming) c)).
Proof.
  intros Hi. induction c as [|[k b] c IH]; intros Hn Hb; [done|]. rewrite fmap_cons in *.
  apply NoDup_cons in Hn as [Hk Hn]. cbn [evict_loop cache_fit fst].
  pose proof (cache_bytes_nonneg c). pose proof (blob_len_nonneg b).
  assert (Hsum : cache_bytes ((k, b) :: c) = blob_len b + cache_bytes c) by done.
  destruct (Z.ltb_spec capacity (saturating_add_u64 (cache_bytes ((k, b) :: c)) incoming)).
  - destruct (Z.leb_spec (cache_bytes ((k, b) :: c)) (capacity - incoming)); [unfold saturating_add_u64 in *; lia|].
    rewrite list_to_map_cons, lookup_insert_eq, delete_insert_eq.
    rewrite delete_id by by apply not_elem_of_list_to_map_1.
    cbn [snd]. rewrite wrapping_sub_u64_small by lia. replace (cache_bytes ((k, b) :: c) - blob_len b) with (cache_bytes c) by lia.
    apply IH; [done|lia].
  - destruct (Z.leb_spec (cache_bytes ((k, b) :: c)) (capacity - incoming)); [reflexivity|unfold saturating_add_u64 in *; lia].
Qed.

Lemma suffix_fmap_nodup (c c' : cache) : c' `suffix_of` c → NoDup c.*1 → NoDup c'.*1.
Proof. intros [d ->]. rewrite fmap_app. by intros (_ & _ & ?)%NoDup_app. Qed.
Lemma suffix_fmap_notin (c c' : cache) key : c' `suffix_of` c → key ∉ c.*1 → key ∉ c'.*1.
Proof. intros [d ->]. rewrite fmap_app. set_solver. Qed.

Lemma cache_put_nodup key blob c : NoDup c.*1 → NoDup (cache_put capacity key blob c).*1.
Proof.
  intros Hn. unfold cache_put. rewrite fmap_app. apply NoDup_app. split_and!.
  - eapply suffix_fmap_nodup; [apply cache_fit_suffix|]. by apply cache_remove_nodup.
  - intros k Hk Hin. apply list_elem_of_singleton in Hin. simpl in Hin. subst k. revert Hk.
    eapply suffix_fmap_notin; [apply cache_fit_suffix|]. apply cache_remove_notin.
  - apply NoDup_singleton.
Qed.

Lemma list_to_map_snoc_fresh (c : cache) key blob :
  key ∉ c.*1 → (list_to_map (c ++ [(key, blob)]) : gmap path RecordBlob) = <[key := blob]> (list_to_map c).
Proof.
  intros Hk. rewrite list_to_map_app, list_to_map_cons, insert_union_singleton_l.
  rewrite list_to_map_nil, map_union_empty, (insert_union_singleton_l (list_to_map c)).
  apply map_union_comm, map_disjoint_singleton_r. by apply not_elem_of_list_to_map_1.
Qed.

Lemma tier_insert_represents s c key blob :
  represents capacity s c → blob_len blob ≤ capacity →
  represents capacity (tier_insert capacity key blob s) (cache_put capacity key blob c).
Proof.
  intros Hr Hlen. pose proof (drop_entry_represents s c key Hr) as [Hl Hn He Hu Hg].
  unfold tier_insert. rewrite Hl, He, Hu. rewrite evict_loop_fit by (done || apply blob_len_nonneg).
  pose proof (cache_fit_bytes (capacity - blob_len blob) (cache_remove key c) ltac:(lia)) as Hfit.
  pose proof (cache_bytes_nonneg (cache_fit (capacity - blob_len blob) (cache_remove key c))).
  pose proof (blob_len_nonneg blob). split; cbn [ts_lru ts_entries ts_used_bytes].
  - unfold cache_put. by rewrite fmap_app.
  - apply cache_put_nodup, (rp_nodup _ _ _ Hr).
  - unfold cache_put. rewrite list_to_map_snoc_fresh; [done|].
    eapply suffix_fmap_notin; [apply cache_fit_suffix|]. apply cache_remove_notin.
  - unfold cache_put. rewrite cache_bytes_app. simpl. rewrite wrapping_add_u64_exact; lia.
  - unfold cache_put. rewrite cache_bytes_app. simpl. lia.
Qed.

Lemma touch_represents s c key blob (s' : TierState) :
  represents capacity s c → ts_entries s !! key = Some blob →
  ts_entries s' = ts_entries s → ts_lru s' = touch (ts_lru s) key → ts_used_bytes s' = ts_used_bytes s →
  represents capacity s' (cache_touch key c).
Proof.
  intros Hr Hb He Hl Hu. unfold cache_touch. rewrite <- (represents_get s c) by done. rewrite Hb.
  pose proof Hb as Hin. apply (represents_elem s c) in Hin; [|done].
  destruct Hr as [Rl Rn Re Ru Rg]. pose proof (cache_remove_bytes key c blob Rn Hin) as Hbytes.
  assert (Hall : cache_bytes (cache_remove key c ++ [(key, blob)]) = cache_bytes c).
  { rewrite cache_bytes_app. simpl. lia. }
  split.
  - rewrite Hl, Rl, fmap_app, cache_remove_keys by done. done.
  - rewrite fmap_app. apply NoDup_app. split_and!; [by apply cache_remove_nodup| |apply NoDup_singleton].
    intros k Hk Hk2. apply list_elem_of_singleton in Hk2. simpl in Hk2. subst k. by eapply cache_remove_notin.
  - rewrite He, list_to_map_snoc_fresh by apply cache_remove_notin.
    rewrite cache_remove_map, insert_delete_eq, <- Re. by rewrite insert_id.
  - by rewrite Hu, Hall.
  - by rewrite Hall.
Qed.

Lemma represents_ext s s' c :
  ts_entries s' = ts_entries s → ts_lru s' = ts_lru s → ts_used_bytes s' = ts_used_bytes s →
  represents capacity s c → represents capacity s' c.
Proof. intros He Hl Hu [? ? ? ? ?]. by split; rewrite ?He, ?Hl, ?Hu. Qed.

Lemma bypasses_false bytes : bypasses capacity bytes = false → bytes ≤ capacity.
Proof. unfold bypasses. intros [_ ?]%orb_false_iff. lia. Qed.

Lemma checked_load_Ok loader expected blob :
  checked_load loader expected = Ok blob → loader = Ok blob ∧ blob_len blob = expected.
Proof.
  unfold checked_load, validate_size. rewrite result_bind_Ok. intros (b & -> & H).
  apply result_bind_Ok in H as (u & H & [= ->]). destruct (Z.eqb_spec (blob_len blob) expected); done.
Qed.
End tier.

(** ** The reference behaviour of a call *)

Inductive TierOp :=
  | OpLoad (key : path) (expected_bytes : Z) (loader : result message RecordBlob)
  | OpPromote (key : path) (blob : RecordBlob)
  | OpInvalidate (key : path).

Inductive Answer := Loaded (r : result message (RecordBlob * LoadSource)) | Silent.

(** A call on the tier; [None] would be a call that has to wait. *)
Definition tier_call (capacity : Z) (op : TierOp) (s : TierState) : option (Answer * TierState) :=
  match op with
  | OpLoad key expected loader =>
    '(r, s') ← load capacity key expected loader s; Some (Loaded r, s')
  | OpPromote key blob => Some (Silent, promote capacity key blob s)
  | OpInvalidate key => Some (Silent, invalidate key s)
  end.

Definition cache_call (capacity : Z) (op : TierOp) (c : cache) : Answer * cache :=
  match op with
  | OpLoad key expected loader =>
    match (if bypasses capacity expected then None else cache_get key c) with
    | Some blob => (Loaded (Ok (blob, Resident)), cache_touch key c)
    | None =>
      match checked_load loader expected with
      | Ok blob =>
        (Loaded (Ok (blob, Nvme)),
         if bypasses capacity expected then c else cache_put capacity key blob c)
      | Err e => (Loaded (Err e), c)
      end
    end
  | OpPromote key blob =>
    (Silent, if bypasses capacity (blob_len blob) then c else cache_put capacity key blob c)
  | OpInvalidate key => (Silent, cache_remove key c)
  end.

Fixpoint tier_run (capacity : Z) (ops : list TierOp) (s : TierState) : option (list Answer * TierState) :=
  match ops with
  | [] => Some ([], s)
  | op :: ops =>
    '(a, s) ← tier_call capacity op s; '(rest, s) ← tier_run capacity ops s; Some (a :: rest, s)
  end.
Fixpoint cache_run (capacity : Z) (ops : list TierOp) (c : cache) : list Answer * cache :=
  match ops with
  | [] => ([], c)
  | op :: ops =>
    let '(a, c) := cache_call capacity op c in
    let '(rest, c) := cache_run capacity ops c in (a :: rest, c)
  end.

Lemma loading_drop_entry key s : ts_loading (drop_entry key s) = ts_loading s.
Proof. unfold drop_entry. by case_match. Qed.
Lemma loading_tier_insert capacity key blob s : ts_loading (tier_insert capacity key blob s) = ts_loading s.
Proof. unfold tier_insert. do 2 case_match. simpl. apply loading_drop_entry. Qed.
Lemma loading_promote capacity key blob s : ts_loading (promote capacity key blob s) = ts_loading s.
Proof. unfold promote. case_match; [done|]. apply loading_tier_insert. Qed.

Lemma load_finish_represents capacity key loaded s c :
  0 ≤ capacity < u64_max → represents capacity s c → (∀ b, loaded = Ok b → blob_len b ≤ capacity) →
  represents capacity (snd (load_finish capacity key loaded s))
    (match loaded with Ok blob => cache_put capacity key blob c | Err _ => c end).
Proof.
  intros Hcap Hr Hl. unfold load_finish. destruct loaded as [blob|e]; simpl.
  - apply (represents_ext capacity (tier_insert capacity key blob (with_loading (.∖ {[key]}) s))); [done..|].
    apply tier_insert_represents; [done| |by apply Hl]. by apply (represents_ext capacity s).
  - by apply (represents_ext capacity s).
Qed.

Lemma tier_call_represents capacity op s c :
  0 ≤ capacity < u64_max → represents capacity s c → ts_loading s = ∅ →
  ∃ a s', tier_call capacity op s = Some (a, s') ∧ a = fst (cache_call capacity op c) ∧
    represents capacity s' (snd (cache_call capacity op c)) ∧ ts_loading s' = ∅.
Proof.
  intros Hcap Hr Hl. destruct op as [key expected loader|key blob|key]; cbn [tier_call cache_call].
  - unfold load. destruct (bypasses capacity expected) eqn:Hby.
    { unfold load_bypass. destruct (checked_load loader expected) as [blob|e]; simpl;
        eexists _, _; split_and!; try done; by apply (represents_ext capacity s). }
    unfold load_enter. rewrite (represents_get capacity s c) by done.
    destruct (cache_get key c) as [blob|] eqn:Hg; cbn [mbind option_bind].
    + eexists _, _. split_and!; [done..| |done].
      rewrite <- (represents_get capacity s c) in Hg by done. by eapply touch_represents.
    + rewrite bool_decide_false by (rewrite Hl; set_solver). simpl.
      pose proof (load_finish_represents capacity key (checked_load loader expected)
        (with_loading ({[key]} ∪.) s) c Hcap) as Hf.
      destruct (load_finish _ _ _ _) as [r s'] eqn:Hlf. eexists _, _. split; [done|].
      simpl in Hf. specialize (Hf ltac:(by apply (represents_ext capacity s))).
      apply bypasses_false in Hby. unfold load_finish in Hlf.
      destruct (checked_load loader expected) as [blob|e] eqn:Hck; injection Hlf as <- <-; simpl in *.
      * split_and!; [done| |rewrite loading_tier_insert; simpl; set_solver].
        apply Hf. intros b [= <-]. by apply checked_load_Ok in Hck as [_ ->].
      * split_and!; [done| |set_solver]. by apply Hf.
  - eexists _, _. split_and!; [done..| |by rewrite loading_promote]. unfold promote. simpl.
    destruct (bypasses capacity (blob_len blob)) eqn:Hby; [done|].
    apply tier_insert_represents; [done..|]. by apply bypasses_false.
  - eexists _, _. split_and!; [done..| |unfold invalidate; by rewrite loading_drop_entry].
    by apply drop_entry_represents.
Qed.

Lemma tier_run_represents capacity ops s c :
  0 ≤ capacity < u64_max → represents capacity s c → ts_loading s = ∅ →
  ∃ s', tier_run capacity ops s = Some (fst (cache_run capacity ops c), s') ∧
    represents capacity s' (snd (cache_run capacity ops c)) ∧ ts_loading s' = ∅.
Proof.
  intros Hcap. revert s c. induction ops as [|op ops IH]; intros s c Hr Hl; cbn [tier_run cache_run].
  { eauto. }
  destruct (tier_call_represents capacity op s c Hcap Hr Hl) as (a & s1 & -> & Ha & Hr1 & Hl1).
  destruct (cache_call capacity op c) as [a' c1]. simpl in *. subst a'.
  destruct (IH s1 c1 Hr1 Hl1) as (s2 & -> & Hr2 & Hl2). simpl.
  destruct (cache_run capacity ops c1) as [rest c2]. simpl in *. eauto.
Qed.

(** C38: The tier refines a plain least-recently-used cache: on every sequence of calls it answers exactly as the reference association list does, never has to wait, and ends in a state that stands for the reference cache within the byte budget. *)
Theorem tier_refines_lru_cache capacity ops :
  0 ≤ capacity < u64_max →
  ∃ s, tier_run capacity ops tier_default = Some (fst (cache_run capacity ops []), s) ∧
    represents capacity s (snd (cache_run capacity ops [])).
Proof.
  intros Hcap. destruct (tier_run_represents capacity ops tier_default []) as (s & ? & ? & _);
    [done|by apply tier_default_represents|done|]. eauto.
Qed.

Lemma tier_refines_lru_cache_witness :
  let blob := replicate 6 1 in
  ∃ s, tier_run 10 [OpPromote "a" blob; OpLoad "b" 4 (Ok [1; 2; 3; 4]); OpLoad "a" 6 (Err ""%string);
                    OpLoad "c" 4 (Ok [9; 9; 9; 9])] tier_default
  = Some ([Silent; Loaded (Ok ([1; 2; 3; 4], Nvme)); Loaded (Ok (blob, Resident));
           Loaded (Ok ([9; 9; 9; 9], Nvme))], s)
  ∧ represents 10 s [("a"%string, blob); ("c"%string, [9; 9; 9; 9])].
Proof.
  intros blob. destruct (tier_refines_lru_cache 10
    [OpPromote "a" blob; OpLoad "b" 4 (Ok [1; 2; 3; 4]); OpLoad "a" 6 (Err ""%string);
     OpLoad "c" 4 (Ok [9; 9; 9; 9])]) as (s & Hr & Hs); [vm_compute; split; congruence|].
  exists s. split; [rewrite Hr; vm_compute; reflexivity|].
  assert (Hc : snd (cache_run 10 [OpPromote "a" blob; OpLoad "b" 4 (Ok [1; 2; 3; 4]);
    OpLoad "a" 6 (Err ""%string); OpLoad "c" 4 (Ok [9; 9; 9; 9])] [])
    = [("a"%string, blob); ("c"%string, [9; 9; 9; 9])]) by (vm_compute; reflexivity).
  rewrite Hc in Hs. exact Hs.
Defined.

(** ** Threads *)

(** The tier stands for a cache, and the paths marked as loading are exactly the
    paths of the elected readers, one reader each. *)
Record tier_inv (capacity : Z) (t : Tier) : Prop := {
  ti_cache : ∃ c, represents capacity (tier_state t) c;
  ti_loading key : key ∈ ts_loading (tier_state t) ↔ ∃ thread expected, tier_readers t !! thread = Some (key, expected);
  ti_single thread thread' key e e' :
    tier_readers t !! thread = Some (key, e) → tier_readers t !! thread' = Some (key, e') → thread = thread';
  ti_fits thread key e : tier_readers t !! thread = Some (key, e) → e ≤ capacity;
}.

Lemma tier_new_inv capacity : 0 ≤ capacity → tier_inv capacity tier_new.
Proof.
  intros Hc. split; simpl; [exists []| |set_solver..].
  - split; simpl; try done. constructor.
  - set_solver.
Qed.

(** A region that changes neither the marks nor the readers. *)
Lemma tier_inv_quiet capacity t s' :
  tier_inv capacity t → ts_loading s' = ts_loading (tier_state t) → (∃ c, represents capacity s' c) →
  tier_inv capacity {| tier_state := s'; tier_readers := tier_readers t |}.
Proof. intros [Hc Hl Hs Hf] He Hr. split; simpl; try done. by rewrite He. Qed.

Lemma load_enter_elected key s s' :
  load_enter key s = (Elected, s') → s' = with_loading ({[key]} ∪.) s ∧ key ∉ ts_loading s ∧ ts_entries s !! key = None.
Proof.
  unfold load_enter. destruct (ts_entries s !! key); [done|]. case_bool_decide; [done|]. naive_solver.
Qed.

Lemma loading_load_finish capacity key loaded s :
  ts_loading (snd (load_finish capacity key loaded s)) = ts_loading s ∖ {[key]}.
Proof. unfold load_finish. destruct loaded; simpl; [|done]. by rewrite loading_tier_insert. Qed.

Lemma tier_step_inv capacity t t' :
  0 ≤ capacity < u64_max → tier_inv capacity t → tier_step capacity t t' → tier_inv capacity t'.
Proof.
  intros Hcap Hinv Hstep. destruct (ti_cache _ _ Hinv) as [c Hr].
  destruct Hstep as [t expected loader _|t key expected blob s' _ He|t thread key expected s' Hby Hth He
                    |t thread key expected loader Hth|t key blob|t key].
  - apply tier_inv_quiet; [done|unfold load_bypass; by case_match|].
    exists c. unfold load_bypass. case_match; [|done]. by apply (represents_ext capacity (tier_state t)).
  - unfold load_enter in He. destruct (ts_entries (tier_state t) !! key) eqn:Hb; [|by case_match].
    injection He as <- <-. apply tier_inv_quiet; [done..|]. eexists. by eapply touch_represents.
  - apply load_enter_elected in He as (-> & Hnl & _). destruct Hinv as [_ Hl Hs Hf]. split; simpl.
    + exists c. by apply (represents_ext capacity (tier_state t)).
    + intros k. rewrite elem_of_union, elem_of_singleton, Hl. split.
      * intros [->|(th & e & Ht)]; [exists thread, expected; by rewrite lookup_insert_eq|].
        exists th, e. rewrite lookup_insert_ne; [done|]. congruence.
      * intros (th & e & Ht). destruct (decide (th = thread)) as [->|Hne].
        -- rewrite lookup_insert_eq in Ht. left. congruence.
        -- rewrite lookup_insert_ne in Ht by done. right. eauto.
    + intros th th' k e e'. rewrite !lookup_insert_Some.
      intros [[<- [= <- <-]]|[Hne Ht]] [[<- Heq]|[Hne' Ht']]; [done|..].
      * destruct Hnl. apply Hl. eauto.
      * injection Heq as <- <-. destruct Hnl. apply Hl. eauto.
      * eauto.
    + intros th k e. rewrite lookup_insert_Some. intros [[<- [= <- <-]]|[_ Ht]]; [|eauto].
      by apply bypasses_false.
  - split; simpl.
    + eexists. apply load_finish_represents; [done..|]. intros b [_ ->]%checked_load_Ok. by eapply ti_fits.
    + intros k. rewrite loading_load_finish, elem_of_difference, elem_of_singleton, (ti_loading _ _ Hinv). split.
      * intros [(th & e & Ht) Hne]. exists th, e. rewrite lookup_delete_ne; [done|]. congruence.
      * intros (th & e & [Hne Ht]%lookup_delete_Some). split; [eauto|]. intros ->.
        by eapply Hne, ti_single.
    + intros th th' k e e' [_ Ht]%lookup_delete_Some [_ Ht']%lookup_delete_Some. by eapply ti_single.
    + intros th k e [_ Ht]%lookup_delete_Some. by eapply ti_fits.
  - apply tier_inv_quiet; [done|apply loading_promote|]. unfold promote.
    destruct (bypasses capacity (blob_len blob)) eqn:Hby; [eauto|].
    eexists. apply tier_insert_represents; [done..|]. by apply bypasses_false.
  - apply tier_inv_quiet; [done|apply loading_drop_entry|]. eexists. by apply drop_entry_represents.
Qed.

Lemma tier_reachable_inv capacity t :
  0 ≤ capacity < u64_max → rtc (tier_step capacity) tier_new t → tier_inv capacity t.
Proof.
  intros Hcap. assert (Hgen : ∀ a b, rtc (tier_step capacity) a b → tier_inv capacity a → tier_inv capacity b).
  { intros a b. induction 1 as [|a a' b Hstep _ IH]; [done|]. intros Ha. apply IH. by eapply tier_step_inv. }
  intros Ht. eapply Hgen; [done|]. apply tier_new_inv. lia.
Qed.

Lemma map_sum_list_to_map (c : cache) :
  NoDup c.*1 → map_fold (λ _ b n, blob_len b + n) 0 (list_to_map c : gmap path RecordBlob) = cache_bytes c.
Proof.
  induction c as [|[k b] c IH]; [intros _; apply map_fold_empty|]. rewrite fmap_cons.
  intros [Hk Hn]%NoDup_cons. rewrite list_to_map_cons.
  rewrite (map_fold_insert_L (λ (_ : path) b n, blob_len b + n) 0 k b).
  - by rewrite IH.
  - intros. lia.
  - by apply not_elem_of_list_to_map_1.
Qed.

(** Whatever the interleaving of loads, promotions and invalidations by any number of threads, the byte count is the exact sum of the resident blobs and within the budget, the queue lists every resident path once, and a path being read from disk has exactly one reader. *)
Theorem tier_exact_and_single_flight capacity t :
  0 ≤ capacity < u64_max → rtc (tier_step capacity) tier_new t →
  ts_used_bytes (tier_state t) = map_fold (λ _ b n, blob_len b + n) 0 (ts_entries (tier_state t)) ∧
  ts_used_bytes (tier_state t) ≤ capacity ∧
  NoDup (ts_lru (tier_state t)) ∧
  (∀ key, key ∈ ts_lru (tier_state t) ↔ is_Some (ts_entries (tier_state t) !! key)) ∧
  (∀ key, key ∈ ts_loading (tier_state t) →
    ∃ thread, (∃ e, tier_readers t !! thread = Some (key, e)) ∧
      ∀ thread' e', tier_readers t !! thread' = Some (key, e') → thread' = thread).
Proof.
  intros Hcap Ht. pose proof (tier_reachable_inv capacity t Hcap Ht) as Hinv.
  destruct (ti_cache _ _ Hinv) as [c [Hl Hn He Hu Hb]]. split_and!.
  - by rewrite Hu, He, map_sum_list_to_map.
  - by rewrite Hu.
  - by rewrite Hl.
  - intros key. rewrite Hl, He, list_elem_of_fmap. split.
    + intros ([k b] & -> & Hin). exists b. by apply elem_of_list_to_map.
    + intros [b Hb']. exists (key, b). split; [done|]. by apply elem_of_list_to_map.
  - intros key Hk. apply (ti_loading _ _ Hinv) in Hk as (th & e & Hth). exists th. split; [eauto|].
    intros th' e' Hth'. by eapply ti_single.
Qed.

Lemma tier_exact_and_single_flight_witness :
  ∃ t, rtc (tier_step 10) tier_new t ∧ tier_readers t !! 7%nat = Some ("a"%string, 4) ∧
    ts_used_bytes (tier_state t) ≤ 10.
Proof.
  set (t1 := {| tier_state := promote 10 "b" [1; 2; 3] tier_default; tier_readers := ∅ |}).
  set (t2 := {| tier_state := with_loading ({["a"%string]} ∪.) (tier_state t1);
                tier_readers := {[7%nat := ("a"%string, 4)]} |}).
  assert (Hr : rtc (tier_step 10) tier_new t2).
  { apply (rtc_l _ _ t1); [exact (step_promote 10 tier_new "b" [1; 2; 3])|].
    apply (rtc_l _ _ t2); [|apply rtc_refl].
    apply (step_elected 10 t1 7%nat "a" 4); reflexivity. }
  exists t2. split; [exact Hr|]. split; [reflexivity|].
  apply (tier_exact_and_single_flight 10 t2); [vm_compute; split; congruence|exact Hr].
Defined.
