(* ===== verification/PrefixIo.v ===== *)
(** * Checked record reads

    [cache/letsinfer_prefix_store/src/io.rs]: a record is read in disjoint bands
    by parallel workers, each band in blocks through [pread], and the checksum of
    every region is put together from the pieces the bands saw.  A file is its
    bytes, a [crc32fast::Hasher] is the bytes it has consumed, [combine] is their
    concatenation, [pread] is a class, and so is the platform the crate is built
    for.  Buffers and mappings are their contents: the allocation and the mapping
    are not modelled. *)

From Stdlib Require Import String.
From S2P Require Import Prelude Values Text PrefixFormat PrefixResident.

Definition DIRECT_IO_BLOCK : Z := 4 * 1024 * 1024.
Definition DIRECT_READ_WORKERS : Z := 4.
Definition FILE_BACKED_RECORD_MIN_BYTES : Z := 64 * 1024 * 1024.
Definition MAX_PLAUSIBLE_TOKENS : Z := 16 * 1024 * 1024.

Abbreviation range := (Z * Z)%type.
(** [bytes[start..end]] *)
Definition slice (l : list Z) (start stop : Z) : list Z :=
  take (Z.to_nat (stop - start)) (drop (Z.to_nat start) l).

Definition div_ceil (a b : Z) : Z := (a + b - 1) / b.
(** [(start..stop).step_by(step)] *)
Definition step_by (start stop step : Z) : list Z :=
  map (λ i, start + Z.of_nat i * step) (seq 0 (Z.to_nat (div_ceil (stop - start) step))).

Definition read_bands (total workers io_block : Z) : list range :=
  let target := div_ceil (div_ceil total workers) io_block * io_block in
  map (λ start, (start, Z.min (start + target) total)) (step_by 0 total target).

(** ** Hashers *)

Definition Hasher : Type := list Z.
Definition hasher_new : Hasher := [].
Definition hasher_update (h : Hasher) (b : list Z) : Hasher := h ++ b.
Definition hasher_combine (h other : Hasher) : Hasher := h ++ other.

Definition update_region (initialized : list Z) (offset chunk_end : Z) (region : range)
    (checksum : option Hasher) : option Hasher :=
  let start := Z.max offset (fst region) in
  let stop := Z.min chunk_end (snd region) in
  if start <? stop
  then Some (hasher_update (default hasher_new checksum) (slice initialized (start - offset) (stop - offset)))
  else checksum.

Definition update_regions (initialized : list Z) (offset chunk_end : Z) (regions : list range)
    (checksums : list (option Hasher)) : list (option Hasher) :=
  zip_with (update_region initialized offset chunk_end) regions checksums.

Definition combine_part (target part : option Hasher) : option Hasher :=
  match part with
  | None => target
  | Some part => Some (match target with Some target => hasher_combine target part | None => part end)
  end.
Definition combine_parts (combined parts : list (option Hasher)) : list (option Hasher) :=
  zip_with combine_part combined parts.

(** ** Reads *)

(** [pread(fd, buffer, count, offset)]: the bytes it delivered, or the error. *)
Class Pread := pread : list Z → Z → Z → result message (list Z).
(** A [pread] delivers a prefix of what was asked for. *)
Class PreadLaws `{!Pread} :=
  pread_prefix file offset count b :
    pread file offset count = Ok b → b `prefix_of` slice file offset (offset + count).

(** [cfg(target_os = "linux")] *)
Class TargetOs := target_os_linux : bool.

Section reads.
Context `{!Pread}.

(** The loop of [read_chunk]; [done] bytes have been read into the destination.
    A turn delivers a byte or leaves, so [len] turns are enough. *)
Fixpoint read_chunk_loop (fuel : nat) (file : list Z) (len offset : Z) (direct : bool)
    (buffer : list Z) : option (result message (list Z)) :=
  let done := Z.of_nat (length buffer) in
  if done <? len then
    match fuel with
    | O => None
    | S fuel =>
      match pread file (offset + done) (len - done) with
      | Err e => Some (Err ("pread prefix record: " +:+ e))
      | Ok b =>
        if bool_decide (b = [])
        then Some (Err ("short prefix-record read at " +:+ to_decimal (offset + done) +:+ "/"
                        +:+ to_decimal (offset + len)))
        else
          let buffer := buffer ++ b in
          let done := Z.of_nat (length buffer) in
          if direct && (done <? len) && negb (is_multiple_of done ALIGNMENT)
          then Some (Err ("unaligned short O_DIRECT read at " +:+ to_decimal (offset + done)))
          else read_chunk_loop fuel file len offset direct buffer
      end
    end
  else Some (Ok buffer).
Definition read_chunk (file : list Z) (len offset : Z) (direct : bool) : result message (list Z) :=
  default (Err ""%string) (read_chunk_loop (Z.to_nat len) file len offset direct []).

(** The chunks of a band; the bytes read so far and the checksums of the regions. *)
Fixpoint read_chunks (chunks : list range) (file : list Z) (regions : list range) (direct : bool)
    (buffer : list Z) (checksums : list (option Hasher)) :
    result message (list Z * list (option Hasher)) :=
  match chunks with
  | [] => Ok (buffer, checksums)
  | (offset, chunk_end) :: chunks =>
    let? initialized := read_chunk file (chunk_end - offset) offset direct in
    read_chunks chunks file regions direct (buffer ++ initialized)
      (update_regions initialized offset chunk_end regions checksums)
  end.

(** [destination.chunks_mut(DIRECT_IO_BLOCK)], and the offsets of [checksum_band]. *)
Definition band_chunks (band : range) : list range :=
  map (λ offset, (offset, offset + Z.min (snd band - offset) DIRECT_IO_BLOCK))
    (step_by (fst band) (snd band) DIRECT_IO_BLOCK).

Definition read_band (file : list Z) (band : range) (regions : list range) (direct : bool) :
    result message (list Z * list (option Hasher)) :=
  read_chunks (band_chunks band) file regions direct [] (replicate (length regions) None).
Definition checksum_band (file : list Z) (band : range) (regions : list range) (direct : bool) :
    result message (list (option Hasher)) :=
  result_map snd (read_band file band regions direct).

(** The workers joined in band order. *)
Fixpoint join_bands (bands : list range) (file : list Z) (regions : list range) (direct : bool)
    (buffer : list Z) (combined : list (option Hasher)) :
    result message (list Z * list (option Hasher)) :=
  match bands with
  | [] => Ok (buffer, combined)
  | band :: bands =>
    let? read := read_band file band regions direct in
    join_bands bands file regions direct (buffer ++ fst read) (combine_parts combined (snd read))
  end.

Context `{!Crc32}.

Fixpoint finalize_all (combined : list (option Hasher)) : result message (list Z) :=
  match combined with
  | [] => Ok []
  | value :: combined =>
    let? value := ok_or "record region was not read"%string value in
    let? rest := finalize_all combined in
    Ok (crc32 value :: rest)
  end.

(** The contents read and the checksum of each region. *)
Definition checksum_file_regions (file : list Z) (file_bytes : Z) (regions : list range)
    (direct : bool) : result message (list Z * list Z) :=
  let bands := read_bands file_bytes DIRECT_READ_WORKERS DIRECT_IO_BLOCK in
  let? read := join_bands bands file regions direct [] (replicate (length regions) None) in
  let? checksums := finalize_all (snd read) in
  Ok (fst read, checksums).

(** [chunks_exact(4)] and [u32::from_le_bytes] *)
Fixpoint decode_tokens (raw : list Z) : list Z :=
  match raw with
  | a :: b :: c :: d :: raw => le_val [a; b; c; d] :: decode_tokens raw
  | _ => []
  end.

(** [read_exact] of [count] bytes at [offset]. *)
Definition read_exact (file : list Z) (offset count : Z) : result message (list Z) :=
  if Z.of_nat (length file) <? offset + count then Err "failed to fill whole buffer"%string
  else Ok (slice file offset (offset + count)).

Definition read_header_and_tokens (file : list Z) : result message (RecordHeader * list Z) :=
  let? raw_header := read_exact file 0 HEADER_BYTES in
  let? header := decode raw_header in
  if negb (rh_file_bytes header =? Z.of_nat (length file))
  then Err "prefix-record index file size mismatch"%string
  else if MAX_PLAUSIBLE_TOKENS <? rh_token_count header
  then Err "prefix-record token count is implausibly large"%string
  else
    let? token_bytes := ok_or "prefix-record token size overflow"%string
      (checked_mul_u64 (rh_token_count header) 4) in
    let? raw_tokens := read_exact file (rh_tokens_offset header) token_bytes in
    if negb (crc32 raw_tokens =? rh_tokens_crc32 header)
    then Err "prefix-record token CRC mismatch"%string
    else Ok (header, decode_tokens raw_tokens).

Fixpoint region_ranges (h : RecordHeader) (indices : list nat) : result message (list range) :=
  match indices with
  | [] => Ok []
  | index :: indices =>
    let? range := ok_or "invalid region range"%string (region_range h index) in
    let? ranges := region_ranges h indices in Ok (range :: ranges)
  end.

Context `{!TargetOs}.

(** On Linux a large record is checked block by block and then mapped; elsewhere, and
    for a small record, the checked buffer is the answer. *)
Definition read_record_checked (file : list Z) (expected : RecordHeader) (direct : bool) :
    result message RecordBlob :=
  let file_bytes := Z.of_nat (length file) in
  if negb (file_bytes =? rh_file_bytes expected) || negb (is_multiple_of file_bytes ALIGNMENT)
  then Err ("prefix-record file size mismatch: got " +:+ to_decimal file_bytes +:+ ", expected "
            +:+ to_decimal (rh_file_bytes expected))
  else
    let? ranges := region_ranges expected (seq 0 (length (rh_regions expected))) in
    let? read := checksum_file_regions file file_bytes ranges direct in
    if negb (bool_decide (snd read = rh_region_crc32 expected))
    then Err "prefix-record region CRC mismatch"%string
    else if target_os_linux && (FILE_BACKED_RECORD_MIN_BYTES <=? file_bytes) then
      let? loaded := read_header_and_tokens file in
      if negb (bool_decide (fst loaded = expected))
      then Err "prefix-record header changed after indexing"%string
      else Ok file
    else
      let buffer := fst read in
      let? loaded_header := decode (slice buffer 0 HEADER_BYTES) in
      if negb (bool_decide (loaded_header = expected))
      then Err "prefix-record header changed after indexing"%string
      else if negb (crc32 (slice buffer (fst (tokens_range expected)) (snd (tokens_range expected)))
                    =? rh_tokens_crc32 expected)
      then Err "prefix-record token CRC mismatch"%string
      else Ok buffer.
End reads.

(** ** Slices *)

Lemma slice_nil l a b : b ≤ a → slice l a b = [].
Proof. intros. unfold slice. by replace (Z.to_nat (b - a)) with 0%nat by lia. Qed.
Lemma region_slice_length l a b : 0 ≤ a → a ≤ b → b ≤ Z.of_nat (length l) → Z.of_nat (length (slice l a b)) = b - a.
Proof. intros. unfold slice. rewrite length_take, length_drop. lia. Qed.
Lemma slice_length_le l a b : a ≤ b → Z.of_nat (length (slice l a b)) ≤ b - a.
Proof. intros. unfold slice. rewrite length_take. lia. Qed.
Lemma slice_app l a b c : 0 ≤ a → a ≤ b → b ≤ c → slice l a b ++ slice l b c = slice l a c.
Proof.
  intros. unfold slice. replace (Z.to_nat b) with (Z.to_nat a + Z.to_nat (b - a))%nat by lia.
  rewrite <- drop_drop. replace (Z.to_nat (c - a)) with (Z.to_nat (b - a) + Z.to_nat (c - b))%nat by lia.
  by rewrite take_take_drop.
Qed.
Lemma slice_full l : slice l 0 (Z.of_nat (length l)) = l.
Proof. unfold slice. rewrite Z.sub_0_r, Nat2Z.id. simpl. by rewrite firstn_all. Qed.
Lemma slice_slice l o e s t :
  0 ≤ o → o ≤ s → s ≤ t → t ≤ e → slice (slice l o e) (s - o) (t - o) = slice l s t.
Proof.
  intros. unfold slice. rewrite skipn_firstn_comm, drop_drop, take_take.
  f_equal; [lia|]. f_equal. lia.
Qed.

(** ** Bands and blocks *)

(** Ranges that follow each other from [a] to [b]. *)
Inductive consecutive : Z → Z → list range → Prop :=
  | consecutive_nil a : consecutive a a []
  | consecutive_cons a m b l : a < m → consecutive m b l → consecutive a b ((a, m) :: l).

Lemma consecutive_le a b l : consecutive a b l → a ≤ b.
Proof. induction 1; lia. Qed.

Lemma div_ceil_spec a b : 0 < b → (div_ceil a b - 1) * b < a ≤ div_ceil a b * b.
Proof.
  intros Hb. unfold div_ceil. pose proof (Z.div_mod (a + b - 1) b ltac:(lia)).
  pose proof (Z.mod_pos_bound (a + b - 1) b Hb). nia.
Qed.

Lemma blocks_consecutive n start stop step :
  0 < step → start ≤ stop → (Z.of_nat n - 1) * step < stop - start ≤ Z.of_nat n * step →
  consecutive start stop
    (map (λ i, (start + Z.of_nat i * step, Z.min (start + Z.of_nat i * step + step) stop)) (seq 0 n)).
Proof.
  intros Hs. revert start. induction n as [|n IH]; intros start Hle Hn.
  { replace stop with start by lia. constructor. }
  cbn [seq map]. rewrite <- seq_shift, map_map, Z.mul_0_l, Z.add_0_r.
  apply consecutive_cons; [lia|]. destruct (decide (stop ≤ start + step)).
  - assert (n = 0%nat) as -> by nia. rewrite Z.min_r by lia. constructor.
  - rewrite Z.min_l by lia.
    erewrite map_ext; [apply (IH (start + step)); lia|].
    intros i. simpl. f_equal; [lia|]. f_equal. lia.
Qed.

Lemma step_by_consecutive start stop step :
  0 < step → start ≤ stop →
  consecutive start stop (map (λ o, (o, Z.min (o + step) stop)) (step_by start stop step)).
Proof.
  intros Hs Hle. unfold step_by. rewrite map_map. pose proof (div_ceil_spec (stop - start) step Hs).
  apply blocks_consecutive; [done..|]. rewrite Z2Nat.id; [lia|]. nia.
Qed.

Lemma band_chunks_consecutive start stop :
  start ≤ stop → consecutive start stop (band_chunks (start, stop)).
Proof.
  intros Hle. unfold band_chunks. cbn [fst snd].
  erewrite map_ext_in; [apply (step_by_consecutive start stop DIRECT_IO_BLOCK); [done|lia]|].
  intros o Ho. simpl. f_equal. lia.
Qed.

Lemma target_pos total workers io_block :
  0 < total → 0 < workers → 0 < io_block →
  0 < div_ceil (div_ceil total workers) io_block * io_block.
Proof.
  intros. pose proof (div_ceil_spec total workers ltac:(lia)).
  assert (0 < div_ceil total workers) by nia.
  pose proof (div_ceil_spec (div_ceil total workers) io_block ltac:(lia)). nia.
Qed.

Lemma read_bands_consecutive total workers io_block :
  0 < total → 0 < workers → 0 < io_block → consecutive 0 total (read_bands total workers io_block).
Proof.
  intros. unfold read_bands. apply step_by_consecutive; [by apply target_pos|lia].
Qed.

Lemma read_bands_length total workers io_block :
  0 < total → 0 < workers → 0 < io_block →
  Z.of_nat (length (read_bands total workers io_block)) ≤ workers.
Proof.
  intros. unfold read_bands, step_by. rewrite !length_map, length_seq.
  set (target := div_ceil (div_ceil total workers) io_block * io_block).
  pose proof (target_pos total workers io_block ltac:(lia) ltac:(lia) ltac:(lia)) as Ht. fold target in Ht.
  pose proof (div_ceil_spec (total - 0) target ltac:(lia)).
  pose proof (div_ceil_spec total workers ltac:(lia)).
  pose proof (div_ceil_spec (div_ceil total workers) io_block ltac:(lia)) as [_ Hb]. fold target in Hb.
  assert (total ≤ workers * target) by nia. nia.
Qed.

(** ** What a read delivers *)

Section read_laws.
Context `{!Pread} `{!PreadLaws}.

Lemma read_chunk_loop_Ok fuel file len offset direct buffer b :
  0 ≤ offset → buffer `prefix_of` slice file offset (offset + len) →
  read_chunk_loop fuel file len offset direct buffer = Some (Ok b) →
  b `prefix_of` slice file offset (offset + len) ∧ len ≤ Z.of_nat (length b).
Proof.
  intros Ho. revert buffer. induction fuel as [|fuel IH]; intros buffer Hp; cbn [read_chunk_loop];
    destruct (Z.ltb_spec (Z.of_nat (length buffer)) len) as [Hlt|Hge]; try done; try by intros [= <-].
  destruct (pread file _ _) as [b'|e] eqn:Hr; [|done]. case_bool_decide; [done|].
  destruct (_ && _); [done|]. apply IH. apply pread_prefix in Hr.
  replace (offset + Z.of_nat (length buffer) + (len - Z.of_nat (length buffer))) with (offset + len) in Hr by lia.
  destruct Hp as [k Hk]. pose proof (slice_length_le file offset (offset + len) ltac:(lia)) as Hl.
  assert (Hb : buffer = slice file offset (offset + Z.of_nat (length buffer))).
  { assert (Htk : take (length buffer) (slice file offset (offset + len)) = buffer)
      by by rewrite Hk, take_app_length.
    rewrite <- Htk at 1. unfold slice. rewrite take_take. f_equal. lia. }
  rewrite <- (slice_app file offset (offset + Z.of_nat (length buffer)) (offset + len)) by lia.
  rewrite <- Hb. by apply prefix_app.
Qed.

Lemma read_chunk_Ok file len offset direct b :
  0 ≤ offset → 0 ≤ len → read_chunk file len offset direct = Ok b →
  b = slice file offset (offset + len) ∧ Z.of_nat (length b) = len.
Proof.
  intros Ho Hl. unfold read_chunk.
  destruct (read_chunk_loop _ _ _ _ _ _) as [r|] eqn:Hr; simpl; [|done]. intros ->.
  apply read_chunk_loop_Ok in Hr as [Hp Hlen]; [|done|apply prefix_nil].
  pose proof (slice_length_le file offset (offset + len) ltac:(lia)) as Hs.
  pose proof (prefix_length _ _ Hp).
  assert (b = slice file offset (offset + len)) as Hb by (apply prefix_length_eq; [done|lia]).
  split; [done|]. rewrite Hb in *. lia.
Qed.

(** The bytes of a region that lie in [a, b). *)
Definition piece (file : list Z) (a b : Z) (region : range) : option Hasher :=
  if Z.max a (fst region) <? Z.min b (snd region)
  then Some (slice file (Z.max a (fst region)) (Z.min b (snd region))) else None.

Lemma piece_update file a b c region :
  0 ≤ a → a ≤ b → b < c →
  update_region (slice file b c) b c region (piece file a b region) = piece file a c region.
Proof.
  intros Ha Hab Hbc. unfold update_region, piece, hasher_update, hasher_new. destruct region as [s e]. simpl.
  destruct (Z.ltb_spec (Z.max b s) (Z.min c e)) as [H1|H1].
  - rewrite slice_slice by lia.
    destruct (Z.ltb_spec (Z.max a s) (Z.min b e)) as [H2|H2];
      destruct (Z.ltb_spec (Z.max a s) (Z.min c e)) as [H3|H3]; try lia; f_equal; simpl.
    + replace (Z.min b e) with (Z.max b s) by lia. apply slice_app; lia.
    + f_equal; lia.
  - destruct (Z.ltb_spec (Z.max a s) (Z.min b e)) as [H2|H2];
      destruct (Z.ltb_spec (Z.max a s) (Z.min c e)) as [H3|H3]; try lia; [|done].
    do 2 f_equal. lia.
Qed.

Lemma piece_combine file a b c region :
  0 ≤ a → a ≤ b → b ≤ c →
  combine_part (piece file a b region) (piece file b c region) = piece file a c region.
Proof.
  intros Ha Hab Hbc. unfold combine_part, piece, hasher_combine. destruct region as [s e]. simpl.
  destruct (Z.ltb_spec (Z.max b s) (Z.min c e)) as [H1|H1];
    destruct (Z.ltb_spec (Z.max a s) (Z.min b e)) as [H2|H2];
    destruct (Z.ltb_spec (Z.max a s) (Z.min c e)) as [H3|H3]; try lia; try done; f_equal; simpl.
  - replace (Z.min b e) with (Z.max b s) by lia. apply slice_app; lia.
  - f_equal; lia.
  - f_equal; lia.
Qed.

Definition pieces (file : list Z) (a b : Z) (regions : list range) : list (option Hasher) :=
  piece file a b <$> regions.

Lemma pieces_update file a b c regions :
  0 ≤ a → a ≤ b → b < c →
  update_regions (slice file b c) b c regions (pieces file a b regions) = pieces file a c regions.
Proof.
  intros. unfold update_regions, pieces. rewrite zip_with_fmap_r.
  induction regions as [|r regions IH]; csimpl; [done|]. rewrite IH. f_equal. by apply piece_update.
Qed.
Lemma pieces_combine file a b c regions :
  0 ≤ a → a ≤ b → b ≤ c →
  combine_parts (pieces file a b regions) (pieces file b c regions) = pieces file a c regions.
Proof.
  intros. unfold combine_parts, pieces.
  induction regions as [|r regions IH]; csimpl; [done|]. rewrite IH. f_equal. by apply piece_combine.
Qed.
Lemma pieces_empty file a regions : replicate (length regions) None = pieces file a a regions.
Proof.
  unfold pieces. induction regions as [|[s e] regions IH]; csimpl; [done|]. rewrite <- IH. f_equal.
  unfold piece. simpl. destruct (Z.ltb_spec (Z.max a s) (Z.min a e)); [lia|done].
Qed.

Lemma read_chunks_Ok chunks file regions direct start a b out :
  consecutive a b chunks → 0 ≤ start → start ≤ a →
  read_chunks chunks file regions direct (slice file start a) (pieces file start a regions) = Ok out →
  out = (slice file start b, pieces file start b regions).
Proof.
  intros Hc. revert start. induction Hc as [a|a m b l Ham Hc IH]; intros start Hs Hsa; cbn [read_chunks].
  { by intros [= <-]. }
  rewrite result_bind_Ok. intros (init & Hr & Hrest).
  apply read_chunk_Ok in Hr as [-> _]; [|lia..].
  replace (a + (m - a)) with m in Hrest by lia. rewrite slice_app, pieces_update in Hrest by lia.
  apply IH; [lia..|done].
Qed.

Lemma read_band_Ok file start stop regions direct out :
  0 ≤ start → start ≤ stop → read_band file (start, stop) regions direct = Ok out →
  out = (slice file start stop, pieces file start stop regions).
Proof.
  intros Hs Hle. unfold read_band. rewrite (pieces_empty file start), <- (slice_nil file start start) by lia.
  apply read_chunks_Ok; [by apply band_chunks_consecutive|lia..].
Qed.

Lemma join_bands_Ok bands file regions direct a b out :
  consecutive a b bands → 0 ≤ a →
  join_bands bands file regions direct (slice file 0 a) (pieces file 0 a regions) = Ok out →
  out = (slice file 0 b, pieces file 0 b regions).
Proof.
  intros Hc. induction Hc as [a|a m b l Ham Hc IH]; intros Ha; cbn [join_bands].
  { by intros [= <-]. }
  rewrite result_bind_Ok. intros (read & Hr & Hrest).
  apply read_band_Ok in Hr as ->; [|lia..]. cbn [fst snd] in Hrest.
  rewrite slice_app, pieces_combine in Hrest by lia. apply IH; [lia|done].
Qed.

Context `{!Crc32}.

Lemma finalize_pieces file total regions :
  Forall (λ r, 0 ≤ fst r ∧ fst r < snd r ∧ snd r ≤ total) regions →
  finalize_all (pieces file 0 total regions)
  = Ok ((λ r, crc32 (slice file (fst r) (snd r))) <$> regions).
Proof.
  induction 1 as [|[s e] regions (Hs1 & Hs2 & Hs3) _ IH]; [done|]. unfold pieces in *. cbn [fmap list_fmap finalize_all].
  simpl in *. unfold piece at 1. simpl. rewrite Z.max_r, Z.min_r by lia.
  destruct (Z.ltb_spec s e); [|lia]. simpl. by rewrite IH.
Qed.

Lemma checksum_file_regions_Ok file regions direct out :
  file ≠ [] → Forall (λ r, 0 ≤ fst r ∧ fst r < snd r ∧ snd r ≤ Z.of_nat (length file)) regions →
  checksum_file_regions file (Z.of_nat (length file)) regions direct = Ok out →
  out = (file, (λ r, crc32 (slice file (fst r) (snd r))) <$> regions).
Proof.
  intros Hne Hr. unfold checksum_file_regions. rewrite result_bind_Ok. intros (read & Hj & Hfin).
  rewrite (pieces_empty file 0), <- (slice_nil file 0 0) in Hj by lia.
  assert (Hlen : 0 < Z.of_nat (length file)) by (destruct file; [done|simpl; lia]).
  apply (join_bands_Ok _ _ _ _ _ (Z.of_nat (length file))) in Hj; [|by apply read_bands_consecutive|lia].
  subst read.
  cbn [fst snd] in Hfin. rewrite finalize_pieces in Hfin by done. rewrite slice_full in Hfin. by injection Hfin as <-.
Qed.
End read_laws.

(** ** Completeness *)

(** A call of [pread] inside the file that keeps a read from ending: it fails, it
    delivers nothing, or, when the file is read directly, it is short by a part of a
    page. *)
Definition read_fault `{!Pread} (file : list Z) (direct : bool) : Prop :=
  ∃ offset count, 0 ≤ offset ∧ 0 < count ∧ offset + count ≤ Z.of_nat (length file) ∧
    match pread file offset count with
    | Err _ => True
    | Ok b => b = [] ∨ direct = true ∧ Z.of_nat (length b) < count ∧ ¬ aligned (Z.of_nat (length b))
    end.

(** The outcome of a read of the file: [x], or an error after a fault. *)
Definition unless_fault `{!Pread} {A} (file : list Z) (direct : bool) (r : result message A) (x : A) : Prop :=
  r = Ok x ∨ (is_ok r = false ∧ read_fault file direct).

Section served.
Context `{!Pread} `{!PreadLaws}.

Lemma read_chunk_loop_ends fuel file len offset direct buffer :
  0 ≤ offset → offset + len ≤ Z.of_nat (length file) →
  (direct = true → aligned (Z.of_nat (length buffer))) →
  (Z.to_nat (len - Z.of_nat (length buffer)) ≤ fuel)%nat →
  (∃ b, read_chunk_loop fuel file len offset direct buffer = Some (Ok b)) ∨
  (∃ e, read_chunk_loop fuel file len offset direct buffer = Some (Err e)) ∧ read_fault file direct.
Proof.
  intros Ho Hl. revert buffer. induction fuel as [|fuel IH]; intros buffer Ha Hf; cbn [read_chunk_loop];
    destruct (Z.ltb_spec (Z.of_nat (length buffer)) len) as [Hlt|Hge]; eauto; [lia|].
  assert (Hfault : match pread file (offset + Z.of_nat (length buffer)) (len - Z.of_nat (length buffer)) with
    | Err _ => True
    | Ok b => b = [] ∨ direct = true ∧ Z.of_nat (length b) < len - Z.of_nat (length buffer) ∧
        ¬ aligned (Z.of_nat (length b))
    end → read_fault file direct) by (intros; eexists _, _; split_and!; [| | |done]; lia).
  destruct (pread file _ _) as [b|e]; [|right; eauto].
  case_bool_decide as Hne; [right; eauto|]. rewrite length_app, Nat2Z.inj_add.
  assert (0 < Z.of_nat (length b)) by (destruct b; [done|simpl; lia]).
  destruct (direct && _ && _) eqn:Hu.
  - right. split; [eauto|]. apply Hfault. right.
    apply andb_prop in Hu as [[-> Hs%Z.ltb_lt]%andb_prop Hm]. split_and!; [done|lia|].
    intros Hal. unfold is_multiple_of, aligned in *. rewrite Z.add_mod, (Ha eq_refl), Hal in Hm by done. done.
  - destruct (Z.ltb_spec (Z.of_nat (length buffer) + Z.of_nat (length b)) len) as [Hs|Hs].
    + apply IH; [|rewrite length_app; lia]. intros ->. rewrite length_app, Nat2Z.inj_add.
      cbn [andb] in Hu. apply negb_false_iff, Z.eqb_eq in Hu. done.
    + left. exists (buffer ++ b). destruct fuel; cbn [read_chunk_loop]; rewrite length_app, Nat2Z.inj_add;
        (destruct (Z.ltb_spec (Z.of_nat (length buffer) + Z.of_nat (length b)) len); [lia|done]).
Qed.

Lemma read_chunk_ends file len offset direct :
  0 ≤ offset → 0 ≤ len → offset + len ≤ Z.of_nat (length file) →
  unless_fault file direct (read_chunk file len offset direct) (slice file offset (offset + len)).
Proof.
  intros Ho Hn Hl. destruct (read_chunk_loop_ends (Z.to_nat len) file len offset direct [])
    as [[b Hb]|[[e Hb] Hfault]]; [done..|simpl; lia| |].
  - assert (Hr : read_chunk file len offset direct = Ok b) by (unfold read_chunk; by rewrite Hb).
    left. rewrite Hr. f_equal. by apply read_chunk_Ok in Hr as [-> _].
  - right. split; [|done]. unfold read_chunk. by rewrite Hb.
Qed.

Lemma read_chunks_end chunks file regions direct a b buffer checksums :
  consecutive a b chunks → 0 ≤ a → b ≤ Z.of_nat (length file) →
  is_ok (read_chunks chunks file regions direct buffer checksums) = true ∨ read_fault file direct.
Proof.
  intros Hc. revert buffer checksums. induction Hc as [a|a m b l Ham Hc IH]; intros buffer checksums Ha Hb; [by left|].
  cbn [read_chunks]. apply consecutive_le in Hc as Hle.
  destruct (read_chunk_ends file (m - a) a direct) as [->|[_ ?]]; [lia..| |by right].
  cbn [result_bind]. apply IH; lia.
Qed.

Lemma join_bands_end bands file regions direct a b buffer combined :
  consecutive a b bands → 0 ≤ a → b ≤ Z.of_nat (length file) →
  is_ok (join_bands bands file regions direct buffer combined) = true ∨ read_fault file direct.
Proof.
  intros Hc. revert buffer combined. induction Hc as [a|a m b l Ham Hc IH]; intros buffer combined Ha Hb; [by left|].
  cbn [join_bands]. apply consecutive_le in Hc as Hle. unfold read_band.
  destruct (read_chunks_end (band_chunks (a, m)) file regions direct a m []
    (replicate (length regions) None)) as [Hs|?]; [apply band_chunks_consecutive; lia|lia..| |by right].
  destruct (read_chunks _ _ _ _ _ _); [|done]. cbn [result_bind]. apply IH; lia.
Qed.
End served.

(** ** Intact records *)

Section intact.
Context `{!Crc32}.

(** A file that holds exactly the record a header describes. *)
Record intact (file : list Z) (h : RecordHeader) : Prop := {
  in_size : Z.of_nat (length file) = rh_file_bytes h;
  in_header : decode (slice file 0 HEADER_BYTES) = Ok h;
  in_tokens : crc32 (slice file (fst (tokens_range h)) (snd (tokens_range h))) = rh_tokens_crc32 h;
  in_regions i r : region_range h i = Some r →
    rh_region_crc32 h !! i = Some (crc32 (slice file (fst r) (snd r)));
}.

Lemma region_ranges_Forall2 h indices rs :
  region_ranges h indices = Ok rs ↔ Forall2 (λ i r, region_range h i = Some r) indices rs.
Proof.
  revert rs. induction indices as [|i indices IH]; intros rs; cbn [region_ranges].
  { split; [by intros [= <-]|]. by intros ->%Forall2_nil_inv_l. }
  rewrite result_bind_Ok. setoid_rewrite result_bind_Ok. setoid_rewrite IH. split.
  - intros (r & Hr & rs' & Hrs & [= <-]). constructor; [|done]. by destruct (region_range h i); simplify_eq/=.
  - intros (r & rs' & Hr & Hrs & ->)%Forall2_cons_inv_l. exists r. rewrite Hr. split; [done|]. eauto.
Qed.

Lemma region_ranges_canonical h :
  canonical h → ∃ rs, region_ranges h (seq 0 (length (rh_regions h))) = Ok rs ∧
    (∀ i, rs !! i = region_range h i).
Proof.
  intros Hc. destruct (cn_placed h Hc) as [Hl _].
  assert (Hex : ∃ rs, Forall2 (λ i r, region_range h i = Some r) (seq 0 (length (rh_regions h))) rs).
  { apply Forall_exists_Forall2_l, Forall_forall. intros i Hi%elem_of_seq.
    destruct (lookup_lt_is_Some_2 (rh_region_offsets h) i) as [o Ho]; [lia|].
    destruct (lookup_lt_is_Some_2 (rh_regions h) i) as [r Hr]; [lia|].
    unfold region_range. rewrite Ho, Hr. by eexists. }
  destruct Hex as [rs Hrs]. exists rs. split; [by apply region_ranges_Forall2|].
  intros i. destruct (rs !! i) as [r|] eqn:Hr.
  - destruct (Forall2_lookup_r _ _ _ _ _ Hrs Hr) as (j & Hj & Hjr).
    apply lookup_seq in Hj as [-> _]. simpl in Hjr. by rewrite Hjr.
  - apply lookup_ge_None in Hr. rewrite <- (Forall2_length _ _ _ Hrs), length_seq in Hr.
    unfold region_range. by rewrite (lookup_ge_None_2 (rh_region_offsets h) i) by lia.
Qed.

Lemma canonical_ranges_bounds h rs :
  typed_header h → canonical h → (∀ i, rs !! i = region_range h i) →
  Forall (λ r, 0 ≤ fst r ∧ fst r < snd r ∧ snd r ≤ rh_file_bytes h) rs.
Proof.
  intros Hty Hc Hrs. apply Forall_lookup. intros i [s e] Hi. rewrite Hrs in Hi. unfold region_range in Hi.
  apply bind_Some in Hi as (o & Ho & Hi). apply bind_Some in Hi as (r & Hr & [= <- <-]). simpl.
  destruct (cn_placed h Hc) as [_ HP]. destruct (HP i o r Ho Hr) as (Hlo & _ & _ & _).
  destruct (Forall_lookup_1 _ _ _ _ (cn_names h Hc) Hr) as [_ Hne].
  pose proof (Forall_lookup_1 _ _ _ _ (th_regions h Hty) Hr) as Hrc. simpl in Hrc.
  pose proof (region_end_logical h i o r (th_regions h Hty) Hc Ho Hr). pose proof (cn_file h Hc) as (Hf & _).
  pose proof (th_token_count h Hty). unfold tokens_range in Hlo. rewrite (cn_tokens h Hc) in Hlo.
  unfold HEADER_BYTES, ALIGNMENT in Hlo. simpl in Hlo. lia.
Qed.

Lemma canonical_tokens_inside h :
  Forall (λ r, 0 ≤ rg_byte_count r ≤ u64_max) (rh_regions h) → canonical h →
  snd (tokens_range h) ≤ rh_file_bytes h.
Proof.
  intros Hty Hc. pose proof (cn_count h Hc) as [Hn _]. destruct (cn_placed h Hc) as [Hl HP].
  destruct (lookup_lt_is_Some_2 (rh_region_offsets h) 0) as [o Ho]; [lia|].
  destruct (lookup_lt_is_Some_2 (rh_regions h) 0) as [r Hr]; [lia|].
  destruct (HP 0%nat o r Ho Hr) as (Hlo & _). pose proof (region_end_logical h 0 o r Hty Hc Ho Hr).
  pose proof (Forall_lookup_1 _ _ _ _ Hty Hr) as Hrc. simpl in Hrc.
  pose proof (cn_file h Hc) as (Hf & _). lia.
Qed.

Lemma layout_fields fp key n regions h :
  layout fp key n regions = Ok h →
  rh_fingerprint h = fp ∧ rh_key_hash h = key ∧ rh_token_count h = n ∧ rh_regions h = regions.
Proof. unfold layout. intros Hl. repeat (inv_result Hl || case_match); try done; by simplify_eq/=. Qed.

Lemma layout_tokens_inside fp key n regions h :
  0 ≤ n → Forall (λ r, 0 ≤ rg_byte_count r ≤ u64_max) regions → layout fp key n regions = Ok h →
  HEADER_BYTES + 4 * n ≤ rh_file_bytes h.
Proof.
  intros Hn Hty Hl. destruct (layout_fields _ _ _ _ _ Hl) as (_ & _ & Hc & Hr).
  pose proof (layout_canonical _ _ _ _ _ 0 [] Hn Hty Hl) as Hcan. rewrite <- Hr in Hty.
  pose proof (λ Hty', canonical_tokens_inside _ Hty' Hcan) as Hin. specialize (Hin Hty).
  pose proof (cn_tokens _ Hcan) as Ht. cbn in Hin, Ht. lia.
Qed.

Lemma region_crcs_match file h rs :
  length (rh_region_crc32 h) = length rs → (∀ i, rs !! i = region_range h i) →
  ((λ r, crc32 (slice file (fst r) (snd r))) <$> rs = rh_region_crc32 h) ↔
  ∀ i r, region_range h i = Some r → rh_region_crc32 h !! i = Some (crc32 (slice file (fst r) (snd r))).
Proof.
  intros Hl Hrs. split.
  - intros <- i r Hi. by rewrite list_lookup_fmap, Hrs, Hi.
  - intros HR. apply list_eq_same_length with (n := length rs); [done|by rewrite length_fmap|].
    intros i x y _ Hx Hy. rewrite list_lookup_fmap, Hrs in Hx.
    destruct (region_range h i) as [r|] eqn:Hi; [|done]. rewrite (HR i r Hi) in Hy. simpl in Hx. congruence.
Qed.

Lemma canonical_size h : typed_header h → canonical h → HEADER_BYTES < rh_file_bytes h.
Proof.
  intros Hty Hc. pose proof (canonical_tokens_inside h (th_regions h Hty) Hc) as Ht. unfold tokens_range in Ht.
  rewrite (cn_tokens h Hc) in Ht. pose proof (th_token_count h Hty). pose proof (cn_token_count h Hc).
  simpl in Ht. lia.
Qed.

Lemma region_slice_bytes file a b : Forall byte file → Forall byte (slice file a b).
Proof. intros. unfold slice. by apply Forall_take, Forall_drop. Qed.

(** The header and the tokens of an intact record, and of no other file. *)
Lemma read_header_and_tokens_Ok file h tokens :
  Forall byte file →
  read_header_and_tokens file = Ok (h, tokens) ↔
  decode (slice file 0 HEADER_BYTES) = Ok h ∧ Z.of_nat (length file) = rh_file_bytes h ∧
  rh_token_count h ≤ MAX_PLAUSIBLE_TOKENS ∧
  crc32 (slice file (fst (tokens_range h)) (snd (tokens_range h))) = rh_tokens_crc32 h ∧
  tokens = decode_tokens (slice file (fst (tokens_range h)) (snd (tokens_range h))).
Proof.
  intros Hb. unfold read_header_and_tokens, read_exact. rewrite Z.add_0_l.
  destruct (Z.ltb_spec (Z.of_nat (length file)) HEADER_BYTES) as [Hs|Hs].
  { split; [done|]. intros (Hd & Hsz & _). apply decode_Ok in Hd as [Hty Hv]; [|by apply region_slice_bytes].
    destruct (validate_layout_canonical _ Hty Hv) as [Hc _]. pose proof (canonical_size h Hty Hc). lia. }
  cbn [result_bind].
  destruct (decode (slice file 0 HEADER_BYTES)) as [h'|e] eqn:Hd; cbn [result_bind]; [|naive_solver].
  pose proof Hd as Hd'. apply decode_Ok in Hd' as [Hty Hv]; [|by apply region_slice_bytes].
  destruct (validate_layout_canonical _ Hty Hv) as [Hc _]. pose proof (canonical_tokens_inside h' (th_regions h' Hty) Hc).
  pose proof (th_token_count h' Hty).
  destruct (Z.eqb_spec (rh_file_bytes h') (Z.of_nat (length file))) as [Hf|Hf]; cbn [negb]; [|naive_solver].
  destruct (Z.ltb_spec MAX_PLAUSIBLE_TOKENS (rh_token_count h')) as [Hm|Hm]; [naive_solver lia|].
  unfold checked_mul_u64, MAX_PLAUSIBLE_TOKENS in *.
  destruct (Z.leb_spec (rh_token_count h' * 4) u64_max); [|ulia]. cbn [ok_or result_bind].
  unfold tokens_range in *. cbn [fst snd] in *.
  destruct (Z.ltb_spec (Z.of_nat (length file)) (rh_tokens_offset h' + rh_token_count h' * 4)); [lia|].
  cbn [result_bind].
  destruct (Z.eqb_spec (crc32 (slice file (rh_tokens_offset h') (rh_tokens_offset h' + rh_token_count h' * 4)))
    (rh_tokens_crc32 h')) as [He|He]; cbn [negb]; naive_solver.
Qed.
End intact.

Lemma read_large_iff `{!Crc32} file expected blob :
  Forall byte file → Z.of_nat (length file) = rh_file_bytes expected →
  FILE_BACKED_RECORD_MIN_BYTES ≤ Z.of_nat (length file) →
  (∀ i r, region_range expected i = Some r →
    rh_region_crc32 expected !! i = Some (crc32 (slice file (fst r) (snd r)))) →
  (let? loaded := read_header_and_tokens file in
   if negb (bool_decide (fst loaded = expected))
   then Err "prefix-record header changed after indexing"%string else Ok file) = Ok blob ↔
  blob = file ∧ intact file expected ∧
  (FILE_BACKED_RECORD_MIN_BYTES ≤ Z.of_nat (length file) → rh_token_count expected ≤ MAX_PLAUSIBLE_TOKENS).
Proof.
  intros Hb Hsz Hbig HR. rewrite result_bind_Ok. split.
  - intros ([h tokens] & Hr & Hk). apply read_header_and_tokens_Ok in Hr as (Hd & _ & Hm & Ht & _); [|done].
    case_bool_decide as He; [|done]. simpl in He. subst h. injection Hk as <-. split_and!; [done| |done]. by split.
  - intros (-> & [_ Hh Ht _] & Hm). specialize (Hm Hbig).
    eexists (expected, _). split; [by apply read_header_and_tokens_Ok|]. by rewrite bool_decide_true.
Qed.

Lemma checksum_file_regions_ends `{!Pread, !PreadLaws, !Crc32} file regions direct :
  file ≠ [] → Forall (λ r, 0 ≤ fst r ∧ fst r < snd r ∧ snd r ≤ Z.of_nat (length file)) regions →
  unless_fault file direct (checksum_file_regions file (Z.of_nat (length file)) regions direct)
    (file, (λ r, crc32 (slice file (fst r) (snd r))) <$> regions).
Proof.
  intros Hne Hr. destruct (checksum_file_regions file _ regions direct) as [out|e] eqn:Hc.
  { left. f_equal. by eapply checksum_file_regions_Ok. }
  assert (0 < Z.of_nat (length file)) by (destruct file; [done|simpl; lia]).
  assert (Hcons : consecutive 0 (Z.of_nat (length file))
    (read_bands (Z.of_nat (length file)) DIRECT_READ_WORKERS DIRECT_IO_BLOCK)) by by apply read_bands_consecutive.
  right. split; [done|]. unfold checksum_file_regions in Hc.
  rewrite (pieces_empty file 0), <- (slice_nil file 0 0) in Hc by lia.
  destruct (join_bands_end _ file regions direct _ _ (slice file 0 0) (pieces file 0 0 regions)
    Hcons ltac:(lia) ltac:(lia)) as [Hs|?]; [|done].
  destruct (join_bands _ _ _ _ _ _) as [read|e'] eqn:Hj; [|done].
  apply (join_bands_Ok _ _ _ _ _ _ _ Hcons) in Hj; [|lia]. subst read. cbn [result_bind fst snd] in Hc.
  by rewrite finalize_pieces in Hc.
Qed.

(** What a checked read insists on. *)
Definition readable `{!TargetOs, !Crc32} (file : list Z) (expected : RecordHeader) : Prop :=
  intact file expected ∧
  (target_os_linux = true → FILE_BACKED_RECORD_MIN_BYTES ≤ Z.of_nat (length file) →
   rh_token_count expected ≤ MAX_PLAUSIBLE_TOKENS).

Lemma read_record_checked_spec `{!Pread, !PreadLaws, !TargetOs, !Crc32} file expected direct :
  Forall byte file → typed_header expected → validate_layout expected = Ok () →
  match read_record_checked file expected direct with
  | Ok blob => blob = file ∧ readable file expected
  | Err _ => readable file expected → read_fault file direct
  end.
Proof.
  intros Hbytes Hty Hv. destruct (validate_layout_canonical _ Hty Hv) as [Hc Hcrc].
  destruct (region_ranges_canonical expected Hc) as (rs & Hrs & Hlook).
  pose proof (canonical_ranges_bounds expected rs Hty Hc Hlook) as Hbounds.
  unfold read_record_checked.
  destruct (Z.eqb_spec (Z.of_nat (length file)) (rh_file_bytes expected)) as [Hsz|Hsz].
  2:{ by intros [[? _ _ _] _]. }
  destruct (cn_file expected Hc) as (_ & Hal & _). unfold is_multiple_of. rewrite Hsz, Hal. cbn [Z.eqb negb orb].
  rewrite Hrs. cbn [result_bind]. rewrite <- Hsz in Hbounds |- *. pose proof (canonical_size expected Hty Hc).
  destruct (checksum_file_regions_ends file rs direct) as [->|[He Hfault]];
    [intros ->; simpl in Hsz; unfold HEADER_BYTES, ALIGNMENT in *; lia|done| |].
  2:{ destruct (checksum_file_regions _ _ _ _); [done|]. cbn [result_bind]. by intros _. }
  cbn [result_bind fst snd].
  assert (Hlen : length (rh_region_crc32 expected) = length rs).
  { apply region_ranges_Forall2, Forall2_length in Hrs. rewrite length_seq in Hrs. lia. }
  pose proof (region_crcs_match file expected rs Hlen Hlook) as Hm.
  case_bool_decide as Hcs; cbn [negb].
  2:{ intros [[_ _ _ ?] _]. tauto. }
  destruct (target_os_linux && _) eqn:Hbig.
  - apply andb_prop in Hbig as [Hos Hbig%Z.leb_le].
    match goal with |- match ?r with Ok _ => _ | Err _ => _ end => destruct r as [blob|e] eqn:Hr end.
    + apply read_large_iff in Hr as (-> & Hi & Hmax); [|done..|by apply Hm]. done.
    + intros [Hi Hmax]. specialize (Hmax Hos Hbig). exfalso. rewrite (proj2 (read_large_iff file expected file
        Hbytes Hsz Hbig (proj1 Hm Hcs))) in Hr; done.
  - assert (Hsmall : target_os_linux = true → FILE_BACKED_RECORD_MIN_BYTES ≤ Z.of_nat (length file) →
      rh_token_count expected ≤ MAX_PLAUSIBLE_TOKENS).
    { intros Hos Hge. rewrite Hos in Hbig. cbn [andb] in Hbig. lia. }
    destruct (decode (slice file 0 HEADER_BYTES)) as [h|e] eqn:Hd; cbn [result_bind];
      [|intros [[_ Hh _ _] _]; congruence].
    case_bool_decide as Hh; cbn [negb]; [subst h|intros [[_ Hh' _ _] _]; congruence].
    destruct (Z.eqb_spec (crc32 (slice file (fst (tokens_range expected)) (snd (tokens_range expected))))
      (rh_tokens_crc32 expected)); cbn [negb]; [|by intros [[_ _ ? _] _]].
    split; [done|]. split; [split; tauto|done].
Qed.

(** ** Claims *)

(** The bands the workers read cover the file exactly once and in order, there are at most as many as workers, and every band but its end at the end of the file starts and ends on a multiple of the block. *)
Theorem read_bands_partition total workers io_block :
  0 < total → 0 < workers → 0 < io_block →
  consecutive 0 total (read_bands total workers io_block) ∧
  Z.of_nat (length (read_bands total workers io_block)) ≤ workers ∧
  ∀ start stop, (start, stop) ∈ read_bands total workers io_block →
    start mod io_block = 0 ∧ (stop mod io_block = 0 ∨ stop = total).
Proof.
  intros Ht Hw Hb. split_and!; [by apply read_bands_consecutive|by apply read_bands_length|].
  intros start stop Hin. apply list_elem_of_In in Hin. unfold read_bands in Hin.
  apply in_map_iff in Hin as (o & [= <- <-] & Ho). unfold step_by in Ho.
  apply in_map_iff in Ho as (i & <- & _).
  set (n := div_ceil (div_ceil total workers) io_block). split.
  - rewrite Z.add_0_l, Z.mul_assoc. apply Z.mod_mul. lia.
  - destruct (Z.min_spec (0 + Z.of_nat i * (n * io_block) + n * io_block) total) as [[_ ->]|[_ ->]]; [left|by right].
    replace (0 + Z.of_nat i * (n * io_block) + n * io_block) with ((Z.of_nat i * n + n) * io_block) by lia.
    apply Z.mod_mul. lia.
Qed.

Lemma read_bands_partition_witness :
  consecutive 0 77824 (read_bands 77824 4 16384) ∧
  read_bands 77824 4 16384 = [(0, 32768); (32768, 65536); (65536, 77824)].
Proof.
  split; [|reflexivity]. apply (read_bands_partition 77824 4 16384); reflexivity.
Defined.

(** A chunk read ends after at most as many calls of [pread] as the chunk has bytes, whatever the calls deliver. *)
Theorem read_chunk_terminates `{!Pread} file len offset direct :
  ∃ r, read_chunk_loop (Z.to_nat len) file len offset direct [] = Some r ∧
    read_chunk file len offset direct = r.
Proof.
  assert (Hgen : ∀ fuel buffer, (Z.to_nat (len - Z.of_nat (length buffer)) ≤ fuel)%nat →
    ∃ r, read_chunk_loop fuel file len offset direct buffer = Some r).
  { induction fuel as [|fuel IH]; intros buffer Hf; cbn [read_chunk_loop];
      destruct (Z.ltb_spec (Z.of_nat (length buffer)) len); eauto; [lia|].
    destruct (pread file _ _) as [b|e]; [|eauto]. case_bool_decide as Hb; [eauto|].
    destruct (_ && _); [eauto|]. apply IH. rewrite length_app. destruct b; [done|]. simpl. lia. }
  destruct (Hgen (Z.to_nat len) []) as [r Hr]; [simpl; lia|]. exists r. split; [done|].
  unfold read_chunk. by rewrite Hr.
Qed.

(** The checksums that the parallel band workers put together are the checksums of the whole regions, for every region layout inside the file, and the bytes they deliver are the file; the only other outcome is an error after a call of [pread] that failed, delivered nothing, or was short by a part of a page under direct reads. *)
Theorem band_checksums_are_region_checksums `{!Pread, !PreadLaws, !Crc32} file regions direct :
  file ≠ [] → Forall (λ r, 0 ≤ fst r ∧ fst r < snd r ∧ snd r ≤ Z.of_nat (length file)) regions →
  unless_fault file direct (checksum_file_regions file (Z.of_nat (length file)) regions direct)
    (file, (λ r, crc32 (slice file (fst r) (snd r))) <$> regions).
Proof.
  intros. by apply checksum_file_regions_ends.
Qed.

(** A checked read returns bytes only when they are the whole record its index entry describes, with the size, the header, the token checksum and every region checksum right (and, for a record of 64 MiB or more on Linux, no more tokens than are plausible); and it returns every such record, unless a call of [pread] fails, delivers nothing inside the file, or is short by a part of a page under direct reads. *)
Theorem read_record_checked_iff `{!Pread, !PreadLaws, !TargetOs, !Crc32} file expected direct :
  Forall byte file → typed_header expected → validate_layout expected = Ok () →
  (∀ blob, read_record_checked file expected direct = Ok blob → blob = file ∧ readable file expected) ∧
  (readable file expected → unless_fault file direct (read_record_checked file expected direct) file).
Proof.
  intros Hb Hty Hv. pose proof (read_record_checked_spec file expected direct Hb Hty Hv) as Hs. split.
  - intros blob Hr. by rewrite Hr in Hs.
  - intros Hok. unfold unless_fault. destruct (read_record_checked _ _ _); [left; by destruct Hs as [-> _]|right; auto].
Qed.

(** ** A concrete record *)

Module SampleRecord.

(** A device that delivers at most one page per call. *)
Definition device : Pread := λ file offset count, Ok (slice file offset (offset + Z.min count ALIGNMENT)).
Lemma device_laws : @PreadLaws device.
Proof.
  intros file offset count b [= <-]. unfold slice. destruct (decide (0 ≤ count)).
  - exists (drop (Z.to_nat (offset + Z.min count ALIGNMENT - offset))
      (take (Z.to_nat (offset + count - offset)) (drop (Z.to_nat offset) file))).
    rewrite <- (take_drop (Z.to_nat (offset + Z.min count ALIGNMENT - offset))
      (take (Z.to_nat (offset + count - offset)) _)) at 1.
    rewrite take_take. do 2 f_equal. lia.
  - replace (Z.to_nat _) with 0%nat by lia. apply prefix_nil.
Qed.
Lemma device_sound file direct : ¬ @read_fault device file direct.
Proof.
  intros (offset & count & Ho & Hc & Hl & Hf). unfold pread, device in Hf.
  pose proof (region_slice_length file offset (offset + Z.min count ALIGNMENT)) as Hs.
  unfold ALIGNMENT in *. specialize (Hs Ho ltac:(lia) ltac:(lia)). destruct Hf as [Hf|(_ & Hlt & Hal)].
  - rewrite Hf in Hs. simpl in Hs. lia.
  - rewrite Hs in *. apply Hal. by replace (offset + Z.min count 4096 - offset) with 4096 by lia.
Qed.

Definition checksum : Crc32 := PrefixFormat.Sample.checksum.

Definition body : list Z :=
  replicate 4096 0 ++ [1; 0; 0; 0; 2; 0; 0; 0] ++ replicate 4088 0 ++ replicate 10 90 ++ replicate 4086 0.
Definition header : RecordHeader :=
  {| rh_fingerprint := replicate 32 9; rh_key_hash := 17; rh_token_count := 2;
     rh_regions := [ {| rg_name := "state"; rg_byte_count := 10 |} ];
     rh_tokens_offset := 4096; rh_region_offsets := [8192]; rh_logical_bytes := 8202;
     rh_file_bytes := 12288;
     rh_tokens_crc32 := @crc32 checksum (slice body 4096 4104);
     rh_region_crc32 := [@crc32 checksum (slice body 8192 8202)] |}.
Definition file : list Z := match @encode checksum header body with Ok p => p | Err _ => [] end.

Lemma record_header_typed : typed_header header.
Proof.
  constructor; [|vm_compute; split; congruence..| |vm_compute; split; congruence|].
  - split; [reflexivity|]. apply Forall_replicate. split; [discriminate|reflexivity].
  - repeat constructor; vm_compute; congruence.
  - repeat constructor; vm_compute; congruence.
Qed.

Lemma file_bytes : Forall byte file.
Proof. apply PrefixFormat.Sample.forallb_byte. vm_compute. reflexivity. Qed.

Definition linux : TargetOs := true.

Lemma read_record_checked_iff_witness :
  @read_record_checked device checksum linux file header true = Ok file ∧ @readable linux checksum file header.
Proof.
  assert (Hr : @read_record_checked device checksum linux file header true = Ok file) by (vm_compute; reflexivity).
  split; [exact Hr|].
  assert (Hv : validate_layout header = Ok ()) by (vm_compute; reflexivity).
  exact (proj2 (proj1 (@read_record_checked_iff device device_laws linux checksum
    file header true file_bytes record_header_typed Hv) file Hr)).
Defined.

Lemma band_checksums_are_region_checksums_witness :
  @checksum_file_regions device checksum file 12288 [(8192, 8202)] true
  = Ok (file, [@crc32 checksum (slice body 8192 8202)]).
Proof.
  assert (Hne : file ≠ []) by (vm_compute; congruence).
  assert (Hl : Z.of_nat (length file) = 12288) by (vm_compute; reflexivity).
  assert (Hf : Forall (λ r : Z * Z, 0 ≤ fst r ∧ fst r < snd r ∧ snd r ≤ Z.of_nat (length file)) [(8192, 8202)]).
  { rewrite Hl. repeat constructor; vm_compute; congruence. }
  destruct (@band_checksums_are_region_checksums device device_laws checksum
    file [(8192, 8202)] true Hne Hf) as [He|[_ Hfault]]; [|destruct (device_sound file true Hfault)].
  rewrite Hl in He. rewrite He.
  assert (Hs : slice file 8192 8202 = slice body 8192 8202) by (vm_compute; reflexivity).
  cbn [fmap list_fmap fst snd]. rewrite Hs. reflexivity.
Defined.
End SampleRecord.
