(* ===== verification/PrefixStore.v ===== *)
(** * The prefix store

    [cache/letsinfer_prefix_store/src/store.rs]: captured prefixes under a byte
    budget, found again by longest exact prefix.  Each region of the code that
    holds the index mutex is one function on [IndexState]; the public operations
    compose them with the resident tier, the writer permits and the files.  The
    order in which a [HashMap] is iterated is the class [MapOrder]; the clock and
    the outcome of an allocation or of a write are arguments.  Byte and reader
    counts wrap as a release build's do. *)

From Stdlib Require Import String.
From S2P Require Import Prelude Values Text Ordering PrefixFormat PrefixResident PrefixIo.

Definition RECORD_EXTENSION : string := "letsinfer_prefix".
Definition MAX_OUTSTANDING_COMMITS : Z := 2.
Definition COMMIT_QUEUE_CAPACITY : Z := MAX_OUTSTANDING_COMMITS - 1.
Definition FNV_OFFSET : Z := 14695981039346656037.
Definition FNV_PRIME : Z := 1099511628211.

Definition fnv1a (seed : Z) (l : list Z) : Z :=
  foldl (λ hash byte, wrapping_mul_u64 (Z.lxor hash byte) FNV_PRIME) seed l.
Definition key_hash (fingerprint tokens : list Z) : Z :=
  foldl (λ hash token, fnv1a hash (le_bytes 4 token)) (fnv1a FNV_OFFSET fingerprint) tokens.

Inductive CaptureRejection :=
  Disabled | WriterBusy | AlreadyStored | BelowMinimumTokenCount | RecordTooLarge
  | InsufficientCapacity | AllocationFailure | InvalidPlan.

(** The counters the index keeps; the other fields of [StoreStatistics] are
    computed by [statistics]. *)
Record Counters := {
  ct_active_reader_count : Z;
  ct_admitted_capture_count : Z;
  ct_committed_capture_count : Z;
  ct_failed_capture_count : Z;
  ct_writer_busy_rejection_count : Z;
  ct_lookup_count : Z;
  ct_hit_count : Z;
  ct_capacity_eviction_count : Z;
  ct_expiry_eviction_count : Z;
  ct_integrity_eviction_count : Z;
}.
Record StoreStatistics := {
  ss_counters : Counters;
  ss_committed_byte_count : Z;
  ss_reserved_byte_count : Z;
  ss_record_count : Z;
  ss_outstanding_writer_count : Z;
  ss_resident_capacity_bytes : Z;
  ss_resident_used_bytes : Z;
  ss_resident_record_count : Z;
  ss_resident_hit_count : Z;
  ss_nvme_load_count : Z;
}.

Record StoreConfig := {
  cf_root : path;
  cf_capacity_bytes : Z;
  cf_ttl_seconds : Z;
  cf_minimum_token_count : Z;
  cf_resident_capacity_bytes : Z;
  cf_direct_reads : bool;
}.

Record RecordMeta := {
  mt_header : RecordHeader;
  mt_tokens : list Z;
  mt_path : path;
  mt_file_bytes : Z;
  mt_last_used_unix : Z;
  mt_active_readers : Z;
}.

Record IndexState := {
  ix_records : gmap Z RecordMeta;
  ix_reserved_hashes : gset Z;
  ix_committed_bytes : Z;
  ix_reserved_bytes : Z;
  ix_statistics : Counters;
}.

Definition no_counts : Counters :=
  {| ct_active_reader_count := 0; ct_admitted_capture_count := 0; ct_committed_capture_count := 0;
     ct_failed_capture_count := 0; ct_writer_busy_rejection_count := 0; ct_lookup_count := 0;
     ct_hit_count := 0; ct_capacity_eviction_count := 0; ct_expiry_eviction_count := 0;
     ct_integrity_eviction_count := 0 |}.
Definition index_empty : IndexState :=
  {| ix_records := ∅; ix_reserved_hashes := ∅; ix_committed_bytes := 0; ix_reserved_bytes := 0;
     ix_statistics := no_counts |}.

(** ** Field updates *)

Definition incr (n : Z) : Z := wrapping_add_u64 n 1.

Definition count_admitted (c : Counters) : Counters :=
  let 'Build_Counters ar ad co fa wb lo hi ca ex it := c in Build_Counters ar (incr ad) co fa wb lo hi ca ex it.
Definition count_committed (c : Counters) : Counters :=
  let 'Build_Counters ar ad co fa wb lo hi ca ex it := c in Build_Counters ar ad (incr co) fa wb lo hi ca ex it.
Definition count_failed (c : Counters) : Counters :=
  let 'Build_Counters ar ad co fa wb lo hi ca ex it := c in Build_Counters ar ad co (incr fa) wb lo hi ca ex it.
Definition count_busy (c : Counters) : Counters :=
  let 'Build_Counters ar ad co fa wb lo hi ca ex it := c in Build_Counters ar ad co fa (incr wb) lo hi ca ex it.
Definition count_lookup (c : Counters) : Counters :=
  let 'Build_Counters ar ad co fa wb lo hi ca ex it := c in Build_Counters ar ad co fa wb (incr lo) hi ca ex it.
Definition count_hit (c : Counters) : Counters :=
  let 'Build_Counters ar ad co fa wb lo hi ca ex it := c in
  Build_Counters (incr ar) ad co fa wb lo (incr hi) ca ex it.
Definition count_reader_dropped (c : Counters) : Counters :=
  let 'Build_Counters ar ad co fa wb lo hi ca ex it := c in
  Build_Counters (saturating_sub ar 1) ad co fa wb lo hi ca ex it.
Definition count_capacity_eviction (c : Counters) : Counters :=
  let 'Build_Counters ar ad co fa wb lo hi ca ex it := c in Build_Counters ar ad co fa wb lo hi (incr ca) ex it.
Definition count_expiry (c : Counters) : Counters :=
  let 'Build_Counters ar ad co fa wb lo hi ca ex it := c in Build_Counters ar ad co fa wb lo hi ca (incr ex) it.
Definition count_integrity (c : Counters) : Counters :=
  let 'Build_Counters ar ad co fa wb lo hi ca ex it := c in Build_Counters ar ad co fa wb lo hi ca ex (incr it).

Definition with_statistics (f : Counters → Counters) (s : IndexState) : IndexState :=
  {| ix_records := ix_records s; ix_reserved_hashes := ix_reserved_hashes s;
     ix_committed_bytes := ix_committed_bytes s; ix_reserved_bytes := ix_reserved_bytes s;
     ix_statistics := f (ix_statistics s) |}.

(** [state.records.remove(&hash)] with [committed_bytes -= meta.file_bytes]. *)
Definition remove_record (hash : Z) (meta : RecordMeta) (s : IndexState) : IndexState :=
  {| ix_records := delete hash (ix_records s); ix_reserved_hashes := ix_reserved_hashes s;
     ix_committed_bytes := wrapping_sub_u64 (ix_committed_bytes s) (mt_file_bytes meta);
     ix_reserved_bytes := ix_reserved_bytes s; ix_statistics := ix_statistics s |}.
(** [reserved_bytes -= file_bytes; reserved_hashes.remove(&hash)] *)
Definition release_reservation (hash file_bytes : Z) (s : IndexState) : IndexState :=
  {| ix_records := ix_records s; ix_reserved_hashes := ix_reserved_hashes s ∖ {[hash]};
     ix_committed_bytes := ix_committed_bytes s;
     ix_reserved_bytes := wrapping_sub_u64 (ix_reserved_bytes s) file_bytes;
     ix_statistics := ix_statistics s |}.
Definition with_active_readers (n : Z) (m : RecordMeta) : RecordMeta :=
  {| mt_header := mt_header m; mt_tokens := mt_tokens m; mt_path := mt_path m;
     mt_file_bytes := mt_file_bytes m; mt_last_used_unix := mt_last_used_unix m; mt_active_readers := n |}.
Definition with_last_used (now : Z) (m : RecordMeta) : RecordMeta :=
  {| mt_header := mt_header m; mt_tokens := mt_tokens m; mt_path := mt_path m;
     mt_file_bytes := mt_file_bytes m; mt_last_used_unix := now; mt_active_readers := mt_active_readers m |}.
Definition with_record (hash : Z) (m : RecordMeta) (s : IndexState) : IndexState :=
  {| ix_records := <[hash := m]> (ix_records s); ix_reserved_hashes := ix_reserved_hashes s;
     ix_committed_bytes := ix_committed_bytes s; ix_reserved_bytes := ix_reserved_bytes s;
     ix_statistics := ix_statistics s |}.

(** ** Map iteration *)

Class MapOrder := values : gmap Z RecordMeta → list RecordMeta.
Class MapOrderLaws `{!MapOrder} := values_perm m : values m ≡ₚ (map_to_list m).*2.

Section regions.
Context `{!MapOrder}.

(** ** The regions under the index mutex *)

(** The reservation of [begin_capture]; [None] is [AlreadyStored]. *)
Definition reserve (hash : Z) (tokens : list Z) (file_bytes : Z) (s : IndexState) : option IndexState :=
  if bool_decide (hash ∈ ix_reserved_hashes s)
     || match ix_records s !! hash with
        | Some existing => bool_decide (mt_tokens existing = tokens)
        | None => false
        end
  then None
  else Some {| ix_records := ix_records s; ix_reserved_hashes := {[hash]} ∪ ix_reserved_hashes s;
               ix_committed_bytes := ix_committed_bytes s;
               ix_reserved_bytes := wrapping_add_u64 (ix_reserved_bytes s) file_bytes;
               ix_statistics := count_admitted (ix_statistics s) |}.

(** The two failure paths of [begin_capture] after the reservation. *)
Definition reject_reserved (hash file_bytes : Z) (s : IndexState) : IndexState :=
  with_statistics count_failed (release_reservation hash file_bytes s).

Definition eviction_cmp (a b : RecordMeta) : comparison :=
  then_with (mt_last_used_unix a ?= mt_last_used_unix b)
    (rh_key_hash (mt_header a) ?= rh_key_hash (mt_header b)).
Definition evictable (m : RecordMeta) : bool := mt_active_readers m =? 0.

(** The loop of [enforce_capacity_for]: the state, the paths to remove, and
    whether nothing evictable was left.  [None] would be a loop out of fuel. *)
Fixpoint enforce_loop (fuel : nat) (capacity incoming : Z) (s : IndexState) (victims : list path) :
    option (IndexState * list path * bool) :=
  let used := wrapping_add_u64 (wrapping_add_u64 (ix_committed_bytes s) (ix_reserved_bytes s)) incoming in
  if (used <=? capacity) || (capacity =? 0) then Some (s, victims, false)
  else match fuel with
  | O => None
  | S fuel =>
    match min_by eviction_cmp (base.filter (λ m, evictable m = true) (values (ix_records s))) with
    | None => Some (s, victims, true)
    | Some victim =>
      let hash := rh_key_hash (mt_header victim) in
      match ix_records s !! hash with
      | Some meta =>
        enforce_loop fuel capacity incoming
          (with_statistics count_capacity_eviction (remove_record hash meta s))
          (victims ++ [mt_path meta])
      | None => enforce_loop fuel capacity incoming s victims
      end
    end
  end.
(** Each turn removes a record, so one turn more than there are records is enough. *)
Definition enforce_region (capacity incoming : Z) (s : IndexState) : option (IndexState * list path * bool) :=
  enforce_loop (S (size (ix_records s))) capacity incoming s [].

Record RecordReader := {
  rr_header : RecordHeader;
  rr_path : path;
  rr_tokens : list Z;
}.

Definition lookup_candidates (fingerprint tokens : list Z) (minimum_token_count : Z) (s : IndexState) :
    list (Z * Z) :=
  sort_by (λ a b, fst b ?= fst a)
    ((λ m, (rh_token_count (mt_header m), rh_key_hash (mt_header m))) <$>
      base.filter (λ m, rh_fingerprint (mt_header m) = fingerprint
        ∧ rh_token_count (mt_header m) ≤ Z.of_nat (length tokens)
        ∧ minimum_token_count ≤ rh_token_count (mt_header m)) (values (ix_records s))).

(** The loop over the candidates, longest first. *)
Fixpoint try_candidates (now : Z) (fingerprint tokens : list Z) (candidates : list (Z * Z))
    (s : IndexState) : option RecordReader * IndexState :=
  match candidates with
  | [] => (None, s)
  | (count, stored_hash) :: candidates =>
    let prefix := take (Z.to_nat count) tokens in
    if negb (key_hash fingerprint prefix =? stored_hash)
    then try_candidates now fingerprint tokens candidates s
    else match ix_records s !! stored_hash with
    | None => try_candidates now fingerprint tokens candidates s
    | Some meta =>
      if negb (bool_decide (mt_tokens meta = prefix))
      then try_candidates now fingerprint tokens candidates s
      else
        let pinned := with_last_used now (with_active_readers (incr (mt_active_readers meta)) meta) in
        (Some {| rr_header := mt_header meta; rr_path := mt_path meta; rr_tokens := mt_tokens meta |},
         with_statistics count_hit (with_record stored_hash pinned s))
    end
  end.

Definition longest_prefix (now : Z) (fingerprint tokens : list Z) (minimum_token_count : Z)
    (s : IndexState) : option RecordReader * IndexState :=
  let s := with_statistics count_lookup s in
  try_candidates now fingerprint tokens (lookup_candidates fingerprint tokens minimum_token_count s) s.

(** ** Prewarming *)

Definition has_hidden (m : RecordMeta) : bool :=
  existsb (λ region, bool_decide (rg_name region = "hidden"%string)) (rh_regions (mt_header m)).
Definition prewarm_cmp (left right : RecordMeta) : comparison :=
  then_with (mt_last_used_unix right ?= mt_last_used_unix left)
    (then_with (bool_compare (has_hidden right) (has_hidden left))
      (rh_token_count (mt_header right) ?= rh_token_count (mt_header left))).

Fixpoint prewarm_select (records : list RecordMeta) (remaining : Z) : list (list Z * bool * Z) :=
  match records with
  | [] => []
  | m :: records =>
    if remaining <? mt_file_bytes m then prewarm_select records remaining
    else (mt_tokens m, has_hidden m, mt_file_bytes m)
           :: prewarm_select records (remaining - mt_file_bytes m)
  end.
Definition prewarm_candidates (fingerprint : list Z) (capacity_bytes : Z) (s : IndexState) :
    list (list Z * bool * Z) :=
  if capacity_bytes =? 0 then []
  else prewarm_select
    (sort_by prewarm_cmp
      (base.filter (λ m, rh_fingerprint (mt_header m) = fingerprint) (values (ix_records s))))
    capacity_bytes.

(** ** Touching, expiry and dropping *)

Definition touch_record (now hash : Z) (s : IndexState) : IndexState :=
  match ix_records s !! hash with
  | Some meta => with_record hash (with_last_used now meta) s
  | None => s
  end.

Definition expired (ttl unix_time_seconds : Z) (m : RecordMeta) : bool :=
  (mt_active_readers m =? 0) && (saturating_add_u64 (mt_last_used_unix m) ttl <? unix_time_seconds).

Definition expire_hash (hash : Z) (acc : IndexState * list path) : IndexState * list path :=
  let '(s, victims) := acc in
  match ix_records s !! hash with
  | Some meta => (with_statistics count_expiry (remove_record hash meta s), victims ++ [mt_path meta])
  | None => (s, victims)
  end.
Definition expire_region (ttl unix_time_seconds : Z) (s : IndexState) : IndexState * list path :=
  foldl (λ acc hash, expire_hash hash acc) (s, [])
    ((λ m, rh_key_hash (mt_header m)) <$>
      base.filter (λ m, expired ttl unix_time_seconds m = true) (values (ix_records s))).

(** [cancel] and the drop of a writer. *)
Definition cancel_region (header : RecordHeader) (s : IndexState) : IndexState :=
  release_reservation (rh_key_hash header) (rh_file_bytes header) s.

Definition cancel_reservation (header : RecordHeader) (s : IndexState) : IndexState :=
  {| ix_records := ix_records s; ix_reserved_hashes := ix_reserved_hashes s ∖ {[rh_key_hash header]};
     ix_committed_bytes := ix_committed_bytes s;
     ix_reserved_bytes := saturating_sub (ix_reserved_bytes s) (rh_file_bytes header);
     ix_statistics := count_failed (ix_statistics s) |}.

(** The index region of [commit_prepared]; also the path of a replaced record. *)
Definition commit_region (now : Z) (header : RecordHeader) (tokens : list Z) (file : path)
    (s : IndexState) : option path * IndexState :=
  let hash := rh_key_hash header in
  let prior := ix_records s !! hash in
  let committed := match prior with
                   | Some prior => saturating_sub (ix_committed_bytes s) (mt_file_bytes prior)
                   | None => ix_committed_bytes s
                   end in
  (mt_path <$> prior,
   {| ix_records := <[hash := {| mt_header := header; mt_tokens := tokens; mt_path := file;
                                 mt_file_bytes := rh_file_bytes header; mt_last_used_unix := now;
                                 mt_active_readers := 0 |}]> (ix_records s);
      ix_reserved_hashes := ix_reserved_hashes s ∖ {[hash]};
      ix_committed_bytes := wrapping_add_u64 committed (rh_file_bytes header);
      ix_reserved_bytes := saturating_sub (ix_reserved_bytes s) (rh_file_bytes header);
      ix_statistics := count_committed (ix_statistics s) |}).

(** The drop of a reader. *)
Definition drop_reader (reader : RecordReader) (s : IndexState) : IndexState :=
  let s := with_statistics count_reader_dropped s in
  let hash := rh_key_hash (rr_header reader) in
  match ix_records s !! hash with
  | Some meta => with_record hash (with_active_readers (saturating_sub (mt_active_readers meta) 1) meta) s
  | None => s
  end.

Definition integrity_region (hash : Z) (s : IndexState) : option path * IndexState :=
  match ix_records s !! hash with
  | Some meta => (Some (mt_path meta), with_statistics count_integrity (remove_record hash meta s))
  | None => (None, s)
  end.
End regions.

(** ** The index invariant *)

Definition records_bytes (m : gmap Z RecordMeta) : Z := map_fold (λ _ r n, mt_file_bytes r + n) 0 m.

(** An index entry describes its record, and is filed under its key. *)
Record meta_wf (hash : Z) (m : RecordMeta) : Prop := {
  mw_key : rh_key_hash (mt_header m) = hash;
  mw_hash : hash = key_hash (rh_fingerprint (mt_header m)) (mt_tokens m);
  mw_count : rh_token_count (mt_header m) = Z.of_nat (length (mt_tokens m));
  mw_bytes : mt_file_bytes m = rh_file_bytes (mt_header m);
  mw_positive : 0 < mt_file_bytes m;
  mw_readers : 0 ≤ mt_active_readers m;
}.
(** The committed bytes are those of the indexed records and a constant [excess]:
    opening a directory counts every file, but indexes one file per key. *)
Record index_wf (excess : Z) (s : IndexState) : Prop := {
  iw_meta hash m : ix_records s !! hash = Some m → meta_wf hash m;
  iw_committed : ix_committed_bytes s = records_bytes (ix_records s) + excess;
  iw_excess : 0 ≤ excess;
  iw_reserved : 0 ≤ ix_reserved_bytes s;
}.
Arguments iw_meta {excess} s _ hash m _.
Arguments iw_committed {excess} s _.
Arguments iw_excess {excess} s _.
Arguments iw_reserved {excess} s _.

Lemma records_bytes_insert m hash r :
  m !! hash = None → records_bytes (<[hash := r]> m) = mt_file_bytes r + records_bytes m.
Proof.
  intros Hn. unfold records_bytes. rewrite (map_fold_insert_L (λ (_ : Z) r n, mt_file_bytes r + n)); [done| |done].
  intros. lia.
Qed.
Lemma records_bytes_delete m hash r :
  m !! hash = Some r → records_bytes (delete hash m) = records_bytes m - mt_file_bytes r.
Proof.
  intros Hs. rewrite <- (insert_delete_id m hash r Hs) at 2.
  rewrite records_bytes_insert by apply lookup_delete_eq. lia.
Qed.
Lemma records_bytes_replace m hash r r' :
  m !! hash = Some r → mt_file_bytes r' = mt_file_bytes r →
  records_bytes (<[hash := r']> m) = records_bytes m.
Proof.
  intros Hs He. rewrite <- insert_delete_eq.
  rewrite records_bytes_insert by apply lookup_delete_eq. rewrite (records_bytes_delete m hash r Hs). lia.
Qed.
Lemma records_bytes_nonneg {excess} s : index_wf excess s → 0 ≤ records_bytes (ix_records s).
Proof.
  intros Hw. pose proof (iw_meta s Hw) as Hm. revert Hm. generalize (ix_records s) as m.
  induction m as [|hash r m Hn IH] using map_ind; intros Hm.
  { unfold records_bytes. by rewrite map_fold_empty. }
  rewrite records_bytes_insert by done.
  pose proof (mw_positive _ _ (Hm hash r ltac:(by rewrite lookup_insert_eq))).
  assert (0 ≤ records_bytes m); [|lia]. apply IH. intros h' r' Hr'. apply Hm.
  rewrite lookup_insert_ne; [done|]. congruence.
Qed.
Lemma record_bytes_le {excess} s hash r :
  index_wf excess s → ix_records s !! hash = Some r → mt_file_bytes r ≤ ix_committed_bytes s.
Proof.
  intros Hw Hr. rewrite (iw_committed s Hw). pose proof (iw_excess s Hw).
  assert (Hw' : index_wf 0 {| ix_records := delete hash (ix_records s); ix_reserved_hashes := ∅;
    ix_committed_bytes := records_bytes (delete hash (ix_records s)); ix_reserved_bytes := 0;
    ix_statistics := no_counts |}).
  { split; simpl; [|lia..]. intros h' r' [_ Hr']%lookup_delete_Some. by apply (iw_meta s Hw). }
  apply records_bytes_nonneg in Hw'. simpl in Hw'. rewrite (records_bytes_delete _ _ r) in Hw' by done. lia.
Qed.

Lemma committed_nonneg {excess} s : index_wf excess s → 0 ≤ ix_committed_bytes s.
Proof.
  intros Hw. pose proof (records_bytes_nonneg s Hw). pose proof (iw_excess s Hw). rewrite (iw_committed s Hw). lia.
Qed.

Lemma remove_record_wf {excess} s hash m :
  index_wf excess s → ix_records s !! hash = Some m → ix_committed_bytes s ≤ u64_max →
  index_wf excess (remove_record hash m s) ∧
  ix_committed_bytes (remove_record hash m s) = ix_committed_bytes s - mt_file_bytes m.
Proof.
  intros Hw Hr Hb. pose proof (record_bytes_le s hash m Hw Hr).
  pose proof (mw_positive _ _ (iw_meta s Hw hash m Hr)).
  assert (He : ix_committed_bytes (remove_record hash m s) = ix_committed_bytes s - mt_file_bytes m).
  { simpl. apply wrapping_sub_u64_small. lia. }
  split; [|done]. split.
  - intros h' r' Hr'. cbn in Hr'. apply lookup_delete_Some in Hr' as [_ Hr']. by apply (iw_meta s Hw).
  - rewrite He. simpl. rewrite (records_bytes_delete _ _ m) by done. rewrite (iw_committed s Hw). lia.
  - apply (iw_excess s Hw).
  - apply (iw_reserved s Hw).
Qed.

Lemma with_statistics_wf {excess} f s : index_wf excess s → index_wf excess (with_statistics f s).
Proof. by intros []. Qed.

(** ** Eviction order *)

#[export] Instance eviction_cmp_preorder P : PreorderCmp P eviction_cmp.
Proof.
  apply (PreorderCmp_then_with P (λ a b, mt_last_used_unix a ?= mt_last_used_unix b)
    (λ a b, rh_key_hash (mt_header a) ?= rh_key_hash (mt_header b))); apply _.
Qed.

Section order.
Context `{!MapOrder} `{!MapOrderLaws}.

Lemma elem_of_values {excess} s m :
  index_wf excess s → m ∈ values (ix_records s) ↔ ix_records s !! rh_key_hash (mt_header m) = Some m.
Proof.
  intros Hw. rewrite values_perm, list_elem_of_fmap. split.
  - intros ([h r] & -> & Hin). apply elem_of_map_to_list in Hin. simpl.
    by rewrite (mw_key _ _ (iw_meta s Hw h r Hin)).
  - intros Hr. exists (rh_key_hash (mt_header m), m). split; [done|]. by apply elem_of_map_to_list.
Qed.

(** The unpinned records, oldest first. *)
Definition eviction_queue (s : IndexState) : list RecordMeta :=
  sort_by eviction_cmp (base.filter (λ m, evictable m = true) (map_to_list (ix_records s)).*2).

Lemma elem_of_eviction_queue {excess} s m :
  index_wf excess s →
  m ∈ eviction_queue s ↔ ix_records s !! rh_key_hash (mt_header m) = Some m ∧ evictable m = true.
Proof.
  intros Hw. unfold eviction_queue. rewrite elem_of_sort_by, list_elem_of_filter.
  rewrite <- values_perm, elem_of_values by done. tauto.
Qed.

Lemma eviction_cmp_eq a b : eviction_cmp a b ≠ Gt → eviction_cmp b a ≠ Gt →
  rh_key_hash (mt_header a) = rh_key_hash (mt_header b).
Proof.
  unfold eviction_cmp, then_with. intros H1 H2.
  destruct (Z.compare_spec (mt_last_used_unix a) (mt_last_used_unix b)),
    (Z.compare_spec (mt_last_used_unix b) (mt_last_used_unix a)); try lia; try done.
  destruct (Z.compare_spec (rh_key_hash (mt_header a)) (rh_key_hash (mt_header b))),
    (Z.compare_spec (rh_key_hash (mt_header b)) (rh_key_hash (mt_header a))); try lia; try done.
Qed.

Lemma eviction_queue_sorted s : StronglySorted (cmp_le eviction_cmp) (eviction_queue s).
Proof.
  apply (sort_by_Sorted eviction_cmp (λ _, True)). by apply Forall_true.
Qed.

(** The loop picks the head of the queue, in whatever order the map is iterated. *)
Lemma min_is_queue_head {excess} s :
  index_wf excess s →
  min_by eviction_cmp (base.filter (λ m, evictable m = true) (values (ix_records s))) = head (eviction_queue s).
Proof.
  intros Hw. set (l := base.filter _ _). assert (Hl : ∀ m, m ∈ l ↔ m ∈ eviction_queue s).
  { intros m. unfold l. rewrite list_elem_of_filter, elem_of_values, elem_of_eviction_queue by done. tauto. }
  pose proof (eviction_queue_sorted s) as Hs.
  destruct (min_by eviction_cmp l) as [x|] eqn:Hx.
  - pose proof (min_by_elem _ _ _ Hx) as Hin. apply Hl in Hin.
    destruct (eviction_queue s) as [|h t] eqn:Hq; [by apply not_elem_of_nil in Hin|]. simpl. f_equal.
    assert (eviction_cmp x h ≠ Gt) as H1.
    { apply (min_by_le (λ _, True) eviction_cmp l); [by apply Forall_true|done|]. apply Hl. set_solver. }
    assert (eviction_cmp h x ≠ Gt) as H2.
    { inversion Hs as [|?? _ Hall]; subst. apply elem_of_cons in Hin as [->|Hin].
      - by apply (cmp_le_refl (λ _, True) eviction_cmp).
      - rewrite Forall_forall in Hall. by apply Hall. }
    pose proof (eviction_cmp_eq x h H1 H2) as He.
    rewrite <- Hq in Hl, Hin. assert (h ∈ eviction_queue s) as Hh by (rewrite Hq; set_solver).
    apply (elem_of_eviction_queue (excess := excess)) in Hin as [Hi _]; [|done].
    apply (elem_of_eviction_queue (excess := excess)) in Hh as [Hh _]; [|done]. congruence.
  - destruct (eviction_queue s) as [|h t] eqn:Hq; [done|].
    destruct (min_by_is_Some eviction_cmp l) as [y Hy]; [|congruence].
    intros He. assert (h ∈ l) by (apply Hl; set_solver). rewrite He in *. set_solver.
Qed.

Lemma eviction_queue_perm s : eviction_queue s ≡ₚ base.filter (λ m, evictable m = true) (map_to_list (ix_records s)).*2.
Proof. apply sort_by_Permutation. Qed.

Lemma eviction_queue_tail {excess} s h t :
  index_wf excess s → ix_committed_bytes s ≤ u64_max → eviction_queue s = h :: t →
  eviction_queue (remove_record (rh_key_hash (mt_header h)) h s) = t.
Proof.
  intros Hw Hb Hq. assert (Hh : h ∈ eviction_queue s) by (rewrite Hq; set_solver).
  apply (elem_of_eviction_queue (excess := excess)) in Hh as [Hl He]; [|done].
  destruct (remove_record_wf s _ h Hw Hl Hb) as [Hw' _].
  apply (StronglySorted_unique_strong (cmp_le eviction_cmp)).
  - intros x1 x2 H1 H2 Hle1 Hle2. pose proof (eviction_cmp_eq x1 x2 Hle1 Hle2) as Hk.
    apply (elem_of_eviction_queue (excess := excess)) in H1 as [H1 _]; [|done]. cbn in H1. apply lookup_delete_Some in H1 as [_ H1].
    assert (Hin : x2 ∈ eviction_queue s) by (rewrite Hq; set_solver).
    apply (elem_of_eviction_queue (excess := excess)) in Hin as [Hin _]; [|done]. congruence.
  - apply eviction_queue_sorted.
  - pose proof (eviction_queue_sorted s) as Hs. rewrite Hq in Hs. by inversion Hs.
  - apply (Permutation_cons_inv (a := h)). rewrite <- Hq, !eviction_queue_perm. cbn.
    rewrite <- (map_to_list_delete (ix_records s) (rh_key_hash (mt_header h)) h Hl).
    rewrite fmap_cons, filter_cons_True by done. done.
Qed.

(** The victims of the reference: the shortest prefix of the queue to fit. *)
Fixpoint ref_victims (capacity used : Z) (queue : list RecordMeta) : list RecordMeta :=
  match queue with
  | [] => []
  | m :: queue => if used <=? capacity then [] else m :: ref_victims capacity (used - mt_file_bytes m) queue
  end.
Definition metas_bytes (l : list RecordMeta) : Z := foldr (λ m n, mt_file_bytes m + n) 0 l.
Definition evict_all (l : list RecordMeta) (s : IndexState) : IndexState :=
  foldl (λ s m, with_statistics count_capacity_eviction (remove_record (rh_key_hash (mt_header m)) m s)) s l.

(** The reference enforcement. *)
Definition enforce_reference (capacity incoming : Z) (s : IndexState) : IndexState * list path * bool :=
  let used := ix_committed_bytes s + ix_reserved_bytes s + incoming in
  let victims := if capacity =? 0 then [] else ref_victims capacity used (eviction_queue s) in
  (evict_all victims s, mt_path <$> victims, negb (capacity =? 0) && (capacity <? used - metas_bytes victims)).

Lemma enforce_loop_reference {excess} l fuel capacity incoming s victims :
  index_wf excess s → 0 ≤ incoming → ix_committed_bytes s + ix_reserved_bytes s + incoming ≤ u64_max →
  eviction_queue s = l → (length l < fuel)%nat →
  enforce_loop fuel capacity incoming s victims =
    let '(s', paths, exhausted) := enforce_reference capacity incoming s in
    Some (s', victims ++ paths, exhausted).
Proof.
  revert fuel s victims. induction l as [|h t IH]; intros fuel s victims Hw Hi Hb Hq Hf.
  all: pose proof (committed_nonneg s Hw) as Hn.
  all: pose proof (iw_reserved s Hw); destruct fuel as [|fuel]; [simpl in Hf; lia|].
  all: cbn [enforce_loop]; unfold enforce_reference; rewrite !wrapping_add_u64_exact by (rewrite ?wrapping_add_u64_exact; lia).
  all: destruct (Z.eqb_spec capacity 0) as [Hz|Hz]; [rewrite orb_true_r; by rewrite app_nil_r|]; rewrite orb_false_r.
  all: rewrite min_is_queue_head, Hq by done; cbn [head ref_victims].
  - destruct (Z.leb_spec (ix_committed_bytes s + ix_reserved_bytes s + incoming) capacity); cbn.
    + rewrite app_nil_r. do 2 f_equal. symmetry. apply Z.ltb_ge. lia.
    + rewrite app_nil_r. do 2 f_equal. symmetry. apply Z.ltb_lt. lia.
  - destruct (Z.leb_spec (ix_committed_bytes s + ix_reserved_bytes s + incoming) capacity) as [Hle|Hgt].
    { cbn. rewrite app_nil_r. do 2 f_equal. symmetry. apply Z.ltb_ge. lia. }
    assert (Hh : h ∈ eviction_queue s) by (rewrite Hq; set_solver).
    apply (elem_of_eviction_queue (excess := excess)) in Hh as [Hl He]; [|done]. rewrite Hl.
    destruct (remove_record_wf s _ h Hw Hl ltac:(lia)) as [Hw' Hc].
    pose proof (mw_positive _ _ (iw_meta s Hw _ h Hl)).
    set (s1 := with_statistics count_capacity_eviction (remove_record (rh_key_hash (mt_header h)) h s)).
    assert (Hs1 : ix_committed_bytes s1 = ix_committed_bytes s - mt_file_bytes h) by done.
    assert (Hq1 : eviction_queue s1 = t) by (by apply (eviction_queue_tail (excess := excess)); [..|lia|]).
    rewrite (IH fuel s1) by first [done|by apply with_statistics_wf|rewrite Hs1; simpl; lia|simpl in Hf; lia].
    unfold enforce_reference. destruct (Z.eqb_spec capacity 0); [done|]. rewrite Hq1, Hs1.
    replace (ix_committed_bytes s - mt_file_bytes h + ix_reserved_bytes s1 + incoming)
      with (ix_committed_bytes s + ix_reserved_bytes s + incoming - mt_file_bytes h) by (simpl; lia).
    cbn [evict_all foldl metas_bytes foldr]. rewrite fmap_cons, <- app_assoc. cbn [app].
    f_equal. f_equal. cbn [negb andb]. f_equal. unfold metas_bytes. lia.
Qed.
End order.

(** ** Lookup *)

(** A stored record is a prefix of the query it may answer. *)
Definition answers (fingerprint tokens : list Z) (minimum : Z) (m : RecordMeta) : Prop :=
  rh_fingerprint (mt_header m) = fingerprint ∧ mt_tokens m `prefix_of` tokens ∧
  minimum ≤ Z.of_nat (length (mt_tokens m)).

Definition reader_of (m : RecordMeta) : RecordReader :=
  {| rr_header := mt_header m; rr_path := mt_path m; rr_tokens := mt_tokens m |}.
Definition pinned (now : Z) (m : RecordMeta) : RecordMeta :=
  with_last_used now (with_active_readers (incr (mt_active_readers m)) m).

Lemma take_prefix_iff (l k : list Z) n :
  n = Z.of_nat (length l) → n ≤ Z.of_nat (length k) → l = take (Z.to_nat n) k ↔ l `prefix_of` k.
Proof.
  intros -> Hn. rewrite Nat2Z.id. split.
  - intros He. exists (drop (length l) k). rewrite He at 1. by rewrite take_drop.
  - intros [k' ->]. by rewrite take_app_length.
Qed.

Section lookup.
Context `{!MapOrder} `{!MapOrderLaws}.

(** What a lookup over the candidates has to return. *)
Definition lookup_ok (now : Z) (fingerprint tokens : list Z) (minimum : Z) (s : IndexState)
    (candidates : list (Z * Z)) (out : option RecordReader * IndexState) : Prop :=
  match out with
  | (Some reader, s') => ∃ h m, ix_records s !! h = Some m ∧ answers fingerprint tokens minimum m ∧
      reader = reader_of m ∧ s' = with_statistics count_hit (with_record h (pinned now m) s) ∧
      (∀ c h' m', (c, h') ∈ candidates → ix_records s !! h' = Some m' →
        answers fingerprint tokens minimum m' → (length (mt_tokens m') ≤ length (mt_tokens m))%nat)
  | (None, s') => s' = s ∧
      (∀ c h' m', (c, h') ∈ candidates → ix_records s !! h' = Some m' → ¬ answers fingerprint tokens minimum m')
  end.

Lemma lookup_ok_skip now fingerprint tokens minimum s c h candidates out :
  (∀ m, ix_records s !! h = Some m → ¬ answers fingerprint tokens minimum m) →
  lookup_ok now fingerprint tokens minimum s candidates out →
  lookup_ok now fingerprint tokens minimum s ((c, h) :: candidates) out.
Proof.
  intros Hno. destruct out as [[reader|] s']; cbn [lookup_ok].
  - intros (h0 & m & Hm & Ha & Hr & He & Hmax). exists h0, m. split_and!; [done..|].
    intros c' h' m' [[= -> ->]|Hin]%elem_of_cons Hm' Ha'; [by destruct (Hno m' Hm')|]. by eapply Hmax.
  - intros [-> Hmax]. split; [done|]. intros c' h' m' [[= -> ->]|Hin]%elem_of_cons Hm'; [by apply Hno|].
    by eapply Hmax.
Qed.

Lemma try_candidates_spec {excess} now fingerprint tokens minimum candidates s :
  index_wf excess s →
  StronglySorted (cmp_le (λ a b, fst b ?= fst a)) candidates →
  (∀ c h, (c, h) ∈ candidates → ∃ m, ix_records s !! h = Some m ∧
    rh_fingerprint (mt_header m) = fingerprint ∧ c = rh_token_count (mt_header m) ∧
    minimum ≤ c ≤ Z.of_nat (length tokens)) →
  lookup_ok now fingerprint tokens minimum s candidates (try_candidates now fingerprint tokens candidates s).
Proof.
  intros Hw. induction candidates as [|[c h] candidates IH]; intros Hs Hc; cbn [try_candidates].
  { split; [done|]. intros c h' m' []%not_elem_of_nil. }
  inversion Hs as [|?? Hs' Hall]; subst.
  specialize (IH Hs' ltac:(intros c' h' Hin; apply Hc; set_solver)).
  destruct (Hc c h ltac:(set_solver)) as (m & Hm & Hfp & Hcount & Hmin).
  pose proof (iw_meta s Hw h m Hm) as Hmw. rewrite (mw_count _ _ Hmw) in Hcount.
  assert (Hans : answers fingerprint tokens minimum m ↔ mt_tokens m = take (Z.to_nat c) tokens).
  { rewrite (take_prefix_iff (mt_tokens m) tokens c) by (done || lia). unfold answers.
    split; [tauto|]. intros. split_and!; [done..|lia]. }
  destruct (Z.eqb_spec (key_hash fingerprint (take (Z.to_nat c) tokens)) h) as [Hk|Hk]; cbn [negb].
  2:{ apply lookup_ok_skip; [|done]. intros m' Hm' Ha. replace m' with m in Ha by congruence.
      apply Hans in Ha. apply Hk. rewrite (mw_hash _ _ Hmw), Ha. congruence. }
  rewrite Hm. case_bool_decide as Ht; cbn [negb].
  2:{ apply lookup_ok_skip; [|done]. intros m' Hm' Ha. replace m' with m in Ha by congruence. by apply Ht, Hans. }
  exists h, m. split_and!; [done|by apply Hans|done..|].
  intros c' h' m' [[= -> ->]|Hin]%elem_of_cons Hm' _; [by replace m' with m by congruence|].
  rewrite Forall_forall in Hall. specialize (Hall (c', h') Hin). unfold cmp_le in Hall. simpl in Hall.
  destruct (Hc c' h' ltac:(set_solver)) as (m2 & Hm2 & _ & Hc2 & _).
  assert (m2 = m') as -> by congruence. rewrite (mw_count _ _ (iw_meta s Hw h' m' Hm')) in Hc2.
  rewrite Z.compare_gt_iff in Hall. lia.
Qed.

Lemma lookup_candidates_elem {excess} fingerprint tokens minimum s c h :
  index_wf excess s →
  (c, h) ∈ lookup_candidates fingerprint tokens minimum s ↔
  ∃ m, ix_records s !! h = Some m ∧ rh_fingerprint (mt_header m) = fingerprint ∧
    c = rh_token_count (mt_header m) ∧ minimum ≤ c ≤ Z.of_nat (length tokens).
Proof.
  intros Hw. unfold lookup_candidates. rewrite elem_of_sort_by, list_elem_of_fmap. split.
  - intros (m & Heq & [(Hfp & Hlen & Hmin) Hin]%list_elem_of_filter).
    apply (elem_of_values (excess := excess)) in Hin; [|done]. injection Heq as -> ->. exists m. auto.
  - intros (m & Hm & Hfp & -> & Hlen). exists m. pose proof (mw_key _ _ (iw_meta s Hw h m Hm)) as <-.
    split; [done|]. apply list_elem_of_filter. split; [split_and!; [done|lia..]|]. by apply (elem_of_values (excess := excess)).
Qed.

Lemma lookup_candidates_sorted fingerprint tokens minimum s :
  StronglySorted (cmp_le (λ a b, fst b ?= fst a)) (lookup_candidates fingerprint tokens minimum s).
Proof.
  pose proof (PreorderCmp_flip (λ _, True) _ (PreorderCmp_Z (λ _, True) (@fst Z Z))).
  apply (sort_by_Sorted (λ a b : Z * Z, fst b ?= fst a) (λ _, True)). by apply Forall_true.
Qed.
End lookup.

(** ** Prewarming and expiry *)

Definition selected_bytes (l : list (list Z * bool * Z)) : Z := foldr (λ e n, e.2 + n) 0 l.
Definition prewarm_entry (m : RecordMeta) : list Z * bool * Z := (mt_tokens m, has_hidden m, mt_file_bytes m).

Lemma selected_bytes_cons e l : selected_bytes (e :: l) = e.2 + selected_bytes l.
Proof. done. Qed.
Lemma prewarm_select_bytes l room :
  Forall (λ m, 0 < mt_file_bytes m) l → 0 ≤ room → 0 ≤ selected_bytes (prewarm_select l room) ≤ room.
Proof.
  intros Hl. revert room. induction Hl as [|m l Hm _ IH]; intros room Hr; cbn [prewarm_select]; [simpl; lia|].
  destruct (Z.ltb_spec room (mt_file_bytes m)); [by apply IH|]. rewrite selected_bytes_cons.
  specialize (IH (room - mt_file_bytes m) ltac:(lia)). cbn [snd]. lia.
Qed.
Lemma prewarm_select_elem l room e :
  e ∈ prewarm_select l room → ∃ m, m ∈ l ∧ e = prewarm_entry m.
Proof.
  revert room. induction l as [|m l IH]; intros room; cbn [prewarm_select]; [by intros ?%not_elem_of_nil|].
  destruct (Z.ltb_spec room (mt_file_bytes m)).
  - intros (m' & Hin & ->)%IH. set_solver.
  - intros [->|(m' & Hin & ->)%IH]%elem_of_cons; set_solver.
Qed.
Lemma prewarm_select_maximal l room m :
  Forall (λ m, 0 < mt_file_bytes m) l → 0 ≤ room → m ∈ l → prewarm_entry m ∉ prewarm_select l room →
  room - selected_bytes (prewarm_select l room) < mt_file_bytes m.
Proof.
  intros Hl. revert room. induction Hl as [|m' l Hm' Hl IH]; intros room Hr Hin; cbn [prewarm_select];
    [by apply not_elem_of_nil in Hin|].
  destruct (Z.ltb_spec room (mt_file_bytes m')).
  - apply elem_of_cons in Hin as [->|Hin]; [|by apply IH]. intros _.
    pose proof (prewarm_select_bytes l room Hl Hr). lia.
  - rewrite not_elem_of_cons. intros [Hne Hno]. apply elem_of_cons in Hin as [->|Hin]; [done|].
    rewrite selected_bytes_cons. specialize (IH (room - mt_file_bytes m') ltac:(lia) Hin Hno). cbn [snd]. lia.
Qed.

Lemma record_keys {excess} s :
  index_wf excess s → (λ m, rh_key_hash (mt_header m)) <$> (map_to_list (ix_records s)).*2 = (map_to_list (ix_records s)).*1.
Proof.
  intros Hw. rewrite <- list_fmap_compose. apply list_fmap_ext. intros i [h m] Hi. apply list_elem_of_lookup_2 in Hi.
  apply elem_of_map_to_list in Hi. apply (mw_key _ _ (iw_meta s Hw h m Hi)).
Qed.

Lemma NoDup_expired_hashes {excess} `{!MapOrder} `{!MapOrderLaws} ttl now s :
  index_wf excess s →
  NoDup ((λ m, rh_key_hash (mt_header m)) <$>
    base.filter (λ m, expired ttl now m = true) (values (ix_records s))).
Proof.
  intros Hw. rewrite values_perm.
  eapply sublist_NoDup; [|apply fmap_sublist, sublist_filter]. rewrite (record_keys (excess := excess)) by done. apply NoDup_fst_map_to_list.
Qed.

Lemma expire_fold_spec {excess} hashes s victims :
  index_wf excess s → ix_committed_bytes s ≤ u64_max → NoDup hashes →
  let '(s', victims') := foldl (λ acc hash, expire_hash hash acc) (s, victims) hashes in
  index_wf excess s' ∧ ix_committed_bytes s' ≤ u64_max ∧ ix_reserved_bytes s' = ix_reserved_bytes s ∧
  ix_reserved_hashes s' = ix_reserved_hashes s ∧
  (∀ h, ix_records s' !! h = if decide (h ∈ hashes) then None else ix_records s !! h) ∧
  (∀ p, p ∈ victims' ↔ p ∈ victims ∨ ∃ h m, h ∈ hashes ∧ ix_records s !! h = Some m ∧ mt_path m = p).
Proof.
  revert s victims. induction hashes as [|h hashes IH]; intros s victims Hw Hb Hn; cbn [foldl].
  { split_and!; [done..|]. intros p. set_solver. }
  apply NoDup_cons in Hn as [Hnin Hn]. unfold expire_hash at 2.
  destruct (ix_records s !! h) as [m|] eqn:Hm.
  - destruct (remove_record_wf s h m Hw Hm Hb) as [Hw' Hc']. pose proof (mw_positive _ _ (iw_meta s Hw h m Hm)).
    specialize (IH (with_statistics count_expiry (remove_record h m s)) (victims ++ [mt_path m])
      (with_statistics_wf _ _ Hw') ltac:(cbn [with_statistics ix_committed_bytes]; lia) Hn).
    destruct (foldl _ _ hashes) as [s' victims']. destruct IH as (? & ? & ? & ? & Hr & Hv).
    split_and!; [done..| |].
    + intros h'. rewrite Hr. simpl. destruct (decide (h' = h)) as [->|Hne].
      * rewrite (decide_True (P := h ∈ h :: hashes)) by set_solver. rewrite lookup_delete_eq. by case_decide.
      * rewrite lookup_delete_ne by done. by repeat case_decide; set_solver.
    + intros p. rewrite Hv. simpl. setoid_rewrite lookup_delete_Some. setoid_rewrite elem_of_cons. split.
      * intros [[?| ->%list_elem_of_singleton]%elem_of_app|(h' & m' & ? & [? ?] & ?)]; eauto 10.
      * intros [?|(h' & m' & [->|?] & ? & <-)]; [set_solver|..].
        -- simplify_eq. left. set_solver.
        -- right. exists h', m'. split_and!; try done. by intros ->.
  - specialize (IH s victims Hw Hb Hn). destruct (foldl _ _ hashes) as [s' victims'].
    destruct IH as (? & ? & ? & ? & Hr & Hv). split_and!; [done..| |].
    + intros h'. rewrite Hr. destruct (decide (h' = h)) as [->|Hne].
      * rewrite (decide_True (P := h ∈ h :: hashes)) by set_solver. by case_decide.
      * by repeat case_decide; set_solver.
    + intros p. rewrite Hv. set_solver.
Qed.

Section claims.
Context `{!MapOrder} `{!MapOrderLaws}.

Lemma eviction_queue_nodup {excess} s : index_wf excess s → NoDup (eviction_queue s).
Proof.
  intros Hw. rewrite eviction_queue_perm. apply NoDup_filter.
  apply (NoDup_fmap_1 (λ m, rh_key_hash (mt_header m))). rewrite (record_keys (excess := excess)) by done. apply NoDup_fst_map_to_list.
Qed.
Lemma eviction_queue_length s : (length (eviction_queue s) ≤ size (ix_records s))%nat.
Proof.
  rewrite eviction_queue_perm. etrans; [apply length_filter|]. by rewrite length_fmap, length_map_to_list.
Qed.

Lemma enforce_region_reference {excess} capacity incoming s :
  index_wf excess s → 0 ≤ incoming → ix_committed_bytes s + ix_reserved_bytes s + incoming ≤ u64_max →
  enforce_region capacity incoming s = Some (enforce_reference capacity incoming s).
Proof.
  intros Hw Hi Hb. unfold enforce_region.
  rewrite (enforce_loop_reference (eviction_queue s)) by (try done; pose proof (eviction_queue_length s); lia).
  by destruct (enforce_reference capacity incoming s) as [[? ?] ?].
Qed.

(** The order of eviction. *)
Definition older (a b : RecordMeta) : Prop :=
  mt_last_used_unix a < mt_last_used_unix b ∨
  mt_last_used_unix a = mt_last_used_unix b ∧ rh_key_hash (mt_header a) < rh_key_hash (mt_header b).

Lemma eviction_cmp_older a b : eviction_cmp a b = Lt ↔ older a b.
Proof.
  unfold eviction_cmp, older, then_with.
  destruct (Z.compare_spec (mt_last_used_unix a) (mt_last_used_unix b)); [|naive_solver lia..].
  rewrite Z.compare_lt_iff. lia.
Qed.

Lemma ref_victims_prefix capacity used queue : ref_victims capacity used queue `prefix_of` queue.
Proof.
  revert used. induction queue as [|m queue IH]; intros used; cbn [ref_victims]; [done|].
  case_match; [apply prefix_nil|]. by apply prefix_cons.
Qed.
Lemma ref_victims_minimal capacity used queue v m :
  v ++ [m] `prefix_of` ref_victims capacity used queue → capacity < used - metas_bytes v.
Proof.
  revert used v. induction queue as [|m' queue IH]; intros used v; cbn [ref_victims].
  { intros Hp%prefix_nil_inv. by destruct v. }
  destruct (Z.leb_spec used capacity); [intros Hp%prefix_nil_inv; by destruct v|].
  destruct v as [|m0 v]; [cbn; lia|]. cbn [app]. intros Hp. apply prefix_cons_inv_1 in Hp as Hm0. subst m0.
  apply prefix_cons_inv_2, IH in Hp. cbn [metas_bytes foldr]. unfold metas_bytes in Hp. lia.
Qed.
Lemma ref_victims_rest capacity used queue :
  capacity < used - metas_bytes (ref_victims capacity used queue) → ref_victims capacity used queue = queue.
Proof.
  revert used. induction queue as [|m queue IH]; intros used; cbn [ref_victims]; [done|].
  destruct (Z.leb_spec used capacity); [cbn; lia|]. cbn [metas_bytes foldr]. intros Hc. f_equal. apply IH.
  unfold metas_bytes. lia.
Qed.

Lemma evict_all_records {excess} v s :
  (∀ m, m ∈ v → ix_records s !! rh_key_hash (mt_header m) = Some m) → ∀ h m,
  index_wf excess s → ix_records (evict_all v s) !! h = Some m ↔ ix_records s !! h = Some m ∧ m ∉ v.
Proof.
  intros Hv h m Hw. unfold evict_all.
  assert (Hgen : ∀ l s0, ix_records (foldl (λ s m, with_statistics count_capacity_eviction
    (remove_record (rh_key_hash (mt_header m)) m s)) s0 l) !! h = Some m ↔
    ix_records s0 !! h = Some m ∧ h ∉ ((λ m, rh_key_hash (mt_header m)) <$> l)).
  { induction l as [|x l IH]; intros s0; cbn [foldl]; [set_solver|].
    rewrite IH, fmap_cons, not_elem_of_cons. cbn [with_statistics remove_record ix_records].
    rewrite lookup_delete_Some. naive_solver. }
  rewrite Hgen. split; intros [Hm Hn]; (split; [done|]); contradict Hn.
  - apply list_elem_of_fmap. exists m. split; [|done]. symmetry. apply (mw_key _ _ (iw_meta s Hw h m Hm)).
  - apply list_elem_of_fmap in Hn as (m' & -> & Hin). rewrite (Hv m' Hin) in Hm. by injection Hm as <-.
Qed.

Lemma queue_head_older {excess} s v m m' rest :
  index_wf excess s → eviction_queue s = v ++ rest → m ∈ v → m' ∈ rest → older m m'.
Proof.
  intros Hw Hq Hm Hm'. pose proof (eviction_queue_sorted s) as Hs. rewrite Hq in Hs.
  assert (Hle : cmp_le eviction_cmp m m').
  { revert Hs Hm. clear Hq. induction v as [|x v IH]; intros Hs Hm; [by apply not_elem_of_nil in Hm|].
    cbn [app] in Hs. inversion Hs as [|?? Hs' Hall]; subst. apply elem_of_cons in Hm as [->|Hm]; [|by apply IH].
    rewrite Forall_forall in Hall. apply Hall, elem_of_app. by right. }
  apply eviction_cmp_older. destruct (eviction_cmp m m') eqn:He; [|done|done]. exfalso.
  pose proof (cmp_opp (P := λ _, True) (cmp := eviction_cmp) m m' I I) as Ho. rewrite He in Ho.
  pose proof (eviction_cmp_eq m m' ltac:(by rewrite He) ltac:(by rewrite Ho)) as Hk.
  assert (Hnd : NoDup (eviction_queue s)) by by apply (eviction_queue_nodup (excess := excess)).
  assert (m ∈ eviction_queue s ∧ m' ∈ eviction_queue s) as [H1' H2'] by (rewrite Hq; set_solver).
  apply (elem_of_eviction_queue (excess := excess)) in H1' as [H1' _]; [|done]. apply (elem_of_eviction_queue (excess := excess)) in H2' as [H2' _]; [|done].
  assert (m = m') as -> by congruence. rewrite Hq in Hnd. apply NoDup_app in Hnd as (_ & Hd & _). by apply (Hd m').
Qed.

(** Capacity enforcement ends, whatever the iteration order of the hash map, and removes exactly a run of unpinned records, each older than every unpinned record it keeps, that is the shortest to make committed, reserved and incoming bytes fit; it reports exhaustion exactly when no unpinned record is left and they still do not fit. *)
Theorem enforce_evicts_oldest_until_it_fits {excess} capacity incoming s :
  index_wf excess s → 0 ≤ incoming → ix_committed_bytes s + ix_reserved_bytes s + incoming ≤ u64_max → capacity ≠ 0 →
  let used := ix_committed_bytes s + ix_reserved_bytes s + incoming in
  ∃ s' victims exhausted,
    enforce_region capacity incoming s = Some (s', mt_path <$> victims, exhausted) ∧
    (∀ h m, ix_records s' !! h = Some m ↔ ix_records s !! h = Some m ∧ m ∉ victims) ∧
    (∀ m, m ∈ victims → ix_records s !! rh_key_hash (mt_header m) = Some m ∧ mt_active_readers m = 0) ∧
    (∀ m h m', m ∈ victims → ix_records s' !! h = Some m' → mt_active_readers m' = 0 → older m m') ∧
    (∀ v m, v ++ [m] `prefix_of` victims → capacity < used - metas_bytes v) ∧
    (exhausted = false → used - metas_bytes victims ≤ capacity) ∧
    (exhausted = true → capacity < used - metas_bytes victims ∧
      ∀ h m, ix_records s' !! h = Some m → mt_active_readers m ≠ 0).
Proof.
  intros Hw Hi Hb Hz used. rewrite enforce_region_reference by done. unfold enforce_reference.
  destruct (Z.eqb_spec capacity 0); [done|]. fold used.
  set (v := ref_victims capacity used (eviction_queue s)).
  destruct (ref_victims_prefix capacity used (eviction_queue s)) as [rest Hrest]. fold v in Hrest.
  assert (Hv : ∀ m, m ∈ v → ix_records s !! rh_key_hash (mt_header m) = Some m ∧ evictable m = true).
  { intros m Hm. apply (elem_of_eviction_queue (excess := excess)); [done|]. rewrite Hrest. set_solver. }
  pose proof (λ h m, evict_all_records v s (λ m Hm, proj1 (Hv m Hm)) h m Hw) as Hrec.
  assert (Hkept : ∀ h m, ix_records (evict_all v s) !! h = Some m → mt_active_readers m = 0 → m ∈ rest).
  { intros h m [Hm Hn]%Hrec Ha. assert (Hin : m ∈ eviction_queue s).
    { apply (elem_of_eviction_queue (excess := excess)); [done|]. rewrite (mw_key _ _ (iw_meta s Hw h m Hm)).
      split; [done|]. unfold evictable. lia. }
    rewrite Hrest in Hin. set_solver. }
  exists (evict_all v s), v, (capacity <? used - metas_bytes v). split_and!; try done.
  - intros m [Hm He]%Hv. split; [done|]. unfold evictable in He. lia.
  - intros m h m' Hm Hm' Ha. eapply queue_head_older; [done|exact Hrest|done|]. by eapply Hkept.
  - intros v0 m. apply ref_victims_minimal.
  - intros Hf%Z.ltb_ge. lia.
  - intros Ht%Z.ltb_lt. split; [done|]. intros h m Hm Ha. pose proof (Hkept h m Hm Ha) as Hin.
    pose proof (ref_victims_rest _ _ _ Ht) as Hall. fold v in Hall. rewrite Hall in Hrest.
    rewrite <- (app_nil_r (eviction_queue s)) in Hrest at 1. apply app_inv_head in Hrest. rewrite <- Hrest in Hin.
    by apply not_elem_of_nil in Hin.
Qed.

(** C37: A lookup answers with the longest stored record that has the fingerprint and is an exact prefix of the query, pins it and marks it used; it misses only when no stored record of at least the minimum length is one, and then changes nothing but the lookup counter.  Hash collisions cannot change the answer.  The index is one that keeps the invariant of the store. *)
Theorem longest_prefix_is_longest_exact {excess} now fingerprint tokens minimum s :
  index_wf excess s →
  match longest_prefix now fingerprint tokens minimum s with
  | (Some reader, s') => ∃ hash m, ix_records s !! hash = Some m ∧ answers fingerprint tokens minimum m ∧
      reader = reader_of m ∧ ix_records s' = <[hash := pinned now m]> (ix_records s) ∧
      (∀ hash' m', ix_records s !! hash' = Some m' → answers fingerprint tokens minimum m' →
        (length (mt_tokens m') ≤ length (mt_tokens m))%nat)
  | (None, s') => s' = with_statistics count_lookup s ∧
      (∀ hash' m', ix_records s !! hash' = Some m' → ¬ answers fingerprint tokens minimum m')
  end.
Proof.
  intros Hw. unfold longest_prefix. set (s1 := with_statistics count_lookup s).
  assert (Hw1 : index_wf excess s1) by by apply with_statistics_wf.
  pose proof (try_candidates_spec now fingerprint tokens minimum
    (lookup_candidates fingerprint tokens minimum s1) s1 Hw1 (lookup_candidates_sorted _ _ _ _)
    (λ c h, proj1 (lookup_candidates_elem _ _ _ _ c h Hw1))) as Hs.
  assert (Hin : ∀ h m, ix_records s !! h = Some m → answers fingerprint tokens minimum m →
    (rh_token_count (mt_header m), h) ∈ lookup_candidates fingerprint tokens minimum s1).
  { intros h m Hm (Hfp & Hp & Hmin). apply (lookup_candidates_elem (excess := excess)); [done|]. exists m. split_and!; try done.
    - by rewrite (mw_count _ _ (iw_meta s Hw h m Hm)).
    - rewrite (mw_count _ _ (iw_meta s Hw h m Hm)). apply prefix_length in Hp. lia. }
  destruct (try_candidates _ _ _ _ _) as [[reader|] s']; cbn [lookup_ok] in Hs.
  - destruct Hs as (h & m & Hm & Ha & Hr & -> & Hmax). exists h, m. split_and!; [done..|].
    intros h' m' Hm' Ha'. by eapply Hmax; [apply Hin|..].
  - destruct Hs as [-> Hno]. split; [done|]. intros h' m' Hm' Ha'. by eapply Hno; [apply Hin|..].
Qed.

(** Prewarming selects only stored records of the fingerprint, never more bytes than the budget, and leaves out a record only when it does not fit in what the selection leaves free. *)
Theorem prewarm_within_budget {excess} fingerprint capacity s :
  index_wf excess s → 0 ≤ capacity →
  selected_bytes (prewarm_candidates fingerprint capacity s) ≤ capacity ∧
  (∀ e, e ∈ prewarm_candidates fingerprint capacity s →
    ∃ hash m, ix_records s !! hash = Some m ∧ rh_fingerprint (mt_header m) = fingerprint ∧ e = prewarm_entry m) ∧
  (∀ hash m, ix_records s !! hash = Some m → rh_fingerprint (mt_header m) = fingerprint →
    prewarm_entry m ∉ prewarm_candidates fingerprint capacity s →
    capacity - selected_bytes (prewarm_candidates fingerprint capacity s) < mt_file_bytes m).
Proof.
  intros Hw Hc. unfold prewarm_candidates.
  destruct (Z.eqb_spec capacity 0) as [->|Hz].
  { split_and!; [done|by intros e ?%not_elem_of_nil|]. intros h m Hm _ _. simpl.
    pose proof (mw_positive _ _ (iw_meta s Hw h m Hm)). lia. }
  set (l := sort_by prewarm_cmp _).
  assert (Hl : ∀ m, m ∈ l ↔ ix_records s !! rh_key_hash (mt_header m) = Some m ∧
    rh_fingerprint (mt_header m) = fingerprint).
  { intros m. unfold l. rewrite elem_of_sort_by, list_elem_of_filter, elem_of_values by done. tauto. }
  assert (Hpos : Forall (λ m, 0 < mt_file_bytes m) l).
  { apply Forall_forall. intros m [Hm _]%Hl. by apply (mw_positive _ _ (iw_meta s Hw _ m Hm)). }
  split_and!.
  - by apply prewarm_select_bytes.
  - intros e (m & [Hm Hf]%Hl & ->)%prewarm_select_elem. eauto.
  - intros h m Hm Hf Hno. apply prewarm_select_maximal; [done..| |done]. apply Hl.
    by rewrite (mw_key _ _ (iw_meta s Hw h m Hm)).
Qed.

(** Expiry removes exactly the unpinned records idle past the time to live, keeps the byte accounting exact, and leaves every pinned record and every reservation alone. *)
Theorem expire_removes_exactly_idle {excess} ttl now s :
  index_wf excess s → ix_committed_bytes s ≤ u64_max →
  let '(s', victims) := expire_region ttl now s in
  index_wf excess s' ∧ ix_reserved_bytes s' = ix_reserved_bytes s ∧ ix_reserved_hashes s' = ix_reserved_hashes s ∧
  (∀ hash m, ix_records s' !! hash = Some m ↔ ix_records s !! hash = Some m ∧ expired ttl now m = false) ∧
  (∀ p, p ∈ victims ↔ ∃ hash m, ix_records s !! hash = Some m ∧ expired ttl now m = true ∧ mt_path m = p).
Proof.
  intros Hw Hb. unfold expire_region. set (hashes := _ <$> _).
  assert (Hh : ∀ h, h ∈ hashes ↔ ∃ m, ix_records s !! h = Some m ∧ expired ttl now m = true).
  { intros h. unfold hashes. rewrite list_elem_of_fmap. setoid_rewrite list_elem_of_filter.
    setoid_rewrite (elem_of_values s _ Hw). split; [naive_solver|].
    intros (m & Hm & He). pose proof (mw_key _ _ (iw_meta s Hw h m Hm)) as Hk. exists m. rewrite Hk. eauto. }
  assert (Hn : NoDup hashes).
  { unfold hashes. apply (NoDup_expired_hashes (excess := excess)); done. }
  pose proof (expire_fold_spec hashes s [] Hw Hb Hn) as Hf.
  destruct (foldl _ _ hashes) as [s' victims]. destruct Hf as (Hw' & _ & Hrb & Hrh & Hr & Hv).
  split_and!; [done..| |].
  - intros h m. rewrite Hr. case_decide as Hd; [|split].
    + apply Hh in Hd as (m' & Hm' & He'). split; [done|]. intros [Hm He]. congruence.
    + intros Hm. split; [done|]. apply not_true_is_false. intros He. apply Hd, Hh. eauto.
    + tauto.
  - intros p. rewrite Hv. setoid_rewrite Hh. split.
    + intros [?%not_elem_of_nil|(h & m & (m' & Hm' & He') & Hm & Hp)]; [done|].
      exists h, m. replace m' with m in He' by congruence. eauto.
    + intros (h & m & Hm & He & Hp). right. eauto 10.
Qed.
End claims.
