(* ===== verification/PrefixThreads.v ===== *)
(** * The prefix store under concurrent use

    The regions of [PrefixStore] interleaved by any number of threads:
    [begin_capture] takes a writer permit, reserves its bytes, and enforces the
    capacity in three separate regions, and a capture ends in a commit, a
    cancellation or a failure before its permit is returned.  Readers pin the
    record they found until they are dropped. *)

From Stdlib Require Import String.
From S2P Require Import Prelude Values Text Ordering PrefixFormat PrefixResident PrefixIo PrefixStore.

(** ** Writer permits

    [WriterSlots]: [fetch_update] takes a permit only below the limit. *)
Definition try_acquire (outstanding : Z) : option Z :=
  if outstanding <? MAX_OUTSTANDING_COMMITS then Some (outstanding + 1) else None.
Definition release_permit (outstanding : Z) : Z := wrapping_sub_u64 outstanding 1.

(** Where a capture is between two regions. *)
Inductive Phase :=
  | Permitted   (* holds a permit, nothing reserved yet *)
  | Reserved    (* bytes reserved, capacity not yet enforced *)
  | Refused     (* capacity exhausted, reservation to be undone *)
  | Writing     (* admitted: a writer, a prepared or a queued commit *)
  | Finished.   (* reservation resolved, permit still held *)

Record Capture := { cp_header : RecordHeader; cp_tokens : list Z; cp_phase : Phase }.
Definition with_phase (p : Phase) (c : Capture) : Capture :=
  {| cp_header := cp_header c; cp_tokens := cp_tokens c; cp_phase := p |}.

Record World := {
  w_index : IndexState;
  w_outstanding : Z;
  w_captures : gmap nat Capture;
  w_readers : gmap nat RecordReader;
}.

Definition with_index (s : IndexState) (w : World) : World :=
  {| w_index := s; w_outstanding := w_outstanding w; w_captures := w_captures w; w_readers := w_readers w |}.
Definition with_capture (s : IndexState) (t : nat) (c : Capture) (w : World) : World :=
  {| w_index := s; w_outstanding := w_outstanding w; w_captures := <[t := c]> (w_captures w);
     w_readers := w_readers w |}.

(** The plan of a capture passed the checks of [begin_capture] before admission. *)
Definition planned (cfg : StoreConfig) (fingerprint tokens : list Z) (regions : list RegionDescription)
    (header : RecordHeader) : Prop :=
  cf_capacity_bytes cfg ≠ 0 ∧ cf_minimum_token_count cfg ≤ Z.of_nat (length tokens) ∧
  layout fingerprint (key_hash fingerprint tokens) (Z.of_nat (length tokens)) regions = Ok header ∧
  Forall (λ r, 0 ≤ rg_byte_count r ≤ u64_max) regions ∧
  rh_file_bytes header ≤ cf_capacity_bytes cfg.

Inductive Label := LPlain | LIntegrity (hash : Z) | LCommit (hash : Z).

Section world.
Context `{!MapOrder} (cfg : StoreConfig).

Inductive world_step : Label → World → World → Prop :=
  | ws_busy w :
      try_acquire (w_outstanding w) = None →
      world_step LPlain w (with_index (with_statistics count_busy (w_index w)) w)
  | ws_acquire w t fingerprint tokens regions header n :
      planned cfg fingerprint tokens regions header → w_captures w !! t = None →
      try_acquire (w_outstanding w) = Some n →
      world_step LPlain w
        {| w_index := w_index w; w_outstanding := n;
           w_captures := <[t := {| cp_header := header; cp_tokens := tokens; cp_phase := Permitted |}]> (w_captures w);
           w_readers := w_readers w |}
  | ws_already_stored w t c :
      w_captures w !! t = Some c → cp_phase c = Permitted →
      reserve (rh_key_hash (cp_header c)) (cp_tokens c) (rh_file_bytes (cp_header c)) (w_index w) = None →
      world_step LPlain w (with_capture (w_index w) t (with_phase Finished c) w)
  | ws_reserve w t c s :
      w_captures w !! t = Some c → cp_phase c = Permitted →
      reserve (rh_key_hash (cp_header c)) (cp_tokens c) (rh_file_bytes (cp_header c)) (w_index w) = Some s →
      world_step LPlain w (with_capture s t (with_phase Reserved c) w)
  | ws_enforce w t c s victims exhausted :
      w_captures w !! t = Some c → cp_phase c = Reserved →
      enforce_region (cf_capacity_bytes cfg) 0 (w_index w) = Some (s, victims, exhausted) →
      world_step LPlain w (with_capture s t (with_phase (if exhausted then Refused else Writing) c) w)
  | ws_reject w t c :
      w_captures w !! t = Some c → cp_phase c = Refused ∨ cp_phase c = Writing →
      world_step LPlain w
        (with_capture (reject_reserved (rh_key_hash (cp_header c)) (rh_file_bytes (cp_header c)) (w_index w))
           t (with_phase Finished c) w)
  | ws_cancel w t c :
      w_captures w !! t = Some c → cp_phase c = Writing →
      world_step LPlain w (with_capture (cancel_region (cp_header c) (w_index w)) t (with_phase Finished c) w)
  | ws_fail w t c :
      w_captures w !! t = Some c → cp_phase c = Writing →
      world_step LPlain w (with_capture (cancel_reservation (cp_header c) (w_index w)) t (with_phase Finished c) w)
  | ws_commit w t c now tokens_crc crcs file s prior header :
      w_captures w !! t = Some c → cp_phase c = Writing →
      (* [prepare] fills in the checksums *)
      header = {| rh_fingerprint := rh_fingerprint (cp_header c); rh_key_hash := rh_key_hash (cp_header c);
        rh_token_count := rh_token_count (cp_header c); rh_regions := rh_regions (cp_header c);
        rh_tokens_offset := rh_tokens_offset (cp_header c); rh_region_offsets := rh_region_offsets (cp_header c);
        rh_logical_bytes := rh_logical_bytes (cp_header c); rh_file_bytes := rh_file_bytes (cp_header c);
        rh_tokens_crc32 := tokens_crc; rh_region_crc32 := crcs |} →
      commit_region now header (cp_tokens c) file (w_index w) = (prior, s) →
      world_step (LCommit (rh_key_hash header)) w (with_capture s t (with_phase Finished c) w)
  | ws_release w t c :
      w_captures w !! t = Some c → cp_phase c = Finished →
      world_step LPlain w
        {| w_index := w_index w; w_outstanding := release_permit (w_outstanding w);
           w_captures := delete t (w_captures w); w_readers := w_readers w |}
  | ws_lookup_miss w now fingerprint tokens minimum s :
      longest_prefix now fingerprint tokens minimum (w_index w) = (None, s) →
      world_step LPlain w (with_index s w)
  | ws_lookup_hit w t now fingerprint tokens minimum reader s :
      w_readers w !! t = None → Z.of_nat (size (w_readers w)) < u64_max →
      longest_prefix now fingerprint tokens minimum (w_index w) = (Some reader, s) →
      world_step LPlain w
        {| w_index := s; w_outstanding := w_outstanding w; w_captures := w_captures w;
           w_readers := <[t := reader]> (w_readers w) |}
  | ws_touch w t reader now :
      w_readers w !! t = Some reader →
      world_step LPlain w (with_index (touch_record now (rh_key_hash (rr_header reader)) (w_index w)) w)
  | ws_drop w t reader :
      w_readers w !! t = Some reader →
      world_step LPlain w
        {| w_index := drop_reader reader (w_index w); w_outstanding := w_outstanding w;
           w_captures := w_captures w; w_readers := delete t (w_readers w) |}
  | ws_expire w now s victims :
      expire_region (cf_ttl_seconds cfg) now (w_index w) = (s, victims) →
      world_step LPlain w (with_index s w)
  | ws_integrity w t reader victim s :
      w_readers w !! t = Some reader →
      integrity_region (rh_key_hash (rr_header reader)) (w_index w) = (victim, s) →
      world_step (LIntegrity (rh_key_hash (rr_header reader))) w (with_index s w).

(** ** The accounting invariant *)

Definition reserves (c : Capture) : bool :=
  match cp_phase c with Reserved | Refused | Writing => true | _ => false end.
Definition pending (c : Capture) : bool :=
  match cp_phase c with Reserved | Refused => true | _ => false end.
Definition sum_captures (f : Capture → bool) (m : gmap nat Capture) : Z :=
  map_fold (λ _ c n, (if f c then rh_file_bytes (cp_header c) else 0) + n) 0 m.

(** A capture's header is the layout of its tokens. *)
Record capture_wf (c : Capture) : Prop := {
  cw_hash : rh_key_hash (cp_header c) = key_hash (rh_fingerprint (cp_header c)) (cp_tokens c);
  cw_count : rh_token_count (cp_header c) = Z.of_nat (length (cp_tokens c));
  cw_bytes : 0 < rh_file_bytes (cp_header c) ≤ cf_capacity_bytes cfg;
}.

(** The reserved hashes are those of the captures that hold a reservation, each
    held by one capture. *)
Record reservations (m : gmap nat Capture) (hashes : gset Z) : Prop := {
  rs_hashes hash : hash ∈ hashes ↔
    ∃ t c, m !! t = Some c ∧ reserves c = true ∧ rh_key_hash (cp_header c) = hash;
  rs_distinct t t' c c' : m !! t = Some c → m !! t' = Some c' → reserves c = true → reserves c' = true →
    rh_key_hash (cp_header c) = rh_key_hash (cp_header c') → t = t';
}.

Record world_inv (excess : Z) (w : World) : Prop := {
  wi_index : index_wf excess (w_index w);
  wi_captures t c : w_captures w !! t = Some c → capture_wf c;
  wi_reserved : ix_reserved_bytes (w_index w) = sum_captures reserves (w_captures w);
  wi_hashes : reservations (w_captures w) (ix_reserved_hashes (w_index w));
  wi_outstanding : w_outstanding w = Z.of_nat (size (w_captures w));
  wi_limit : w_outstanding w ≤ MAX_OUTSTANDING_COMMITS;
  wi_budget : ix_committed_bytes (w_index w) + ix_reserved_bytes (w_index w)
    - sum_captures pending (w_captures w) ≤ cf_capacity_bytes cfg;
}.
End world.
Arguments wi_index cfg {excess} w _.
Arguments wi_captures cfg {excess} w _ t c _.
Arguments wi_reserved cfg {excess} w _.
Arguments wi_hashes cfg {excess} w _.
Arguments wi_outstanding cfg {excess} w _.
Arguments wi_limit cfg {excess} w _.
Arguments wi_budget cfg {excess} w _.

(** ** What each region does to the index *)

(** Only unpinned records leave, the accounting follows, and nothing else changes. *)
Record shrinks (excess : Z) (s s' : IndexState) : Prop := {
  sh_wf : index_wf excess s';
  sh_committed : ix_committed_bytes s' ≤ ix_committed_bytes s;
  sh_reserved : ix_reserved_bytes s' = ix_reserved_bytes s;
  sh_hashes : ix_reserved_hashes s' = ix_reserved_hashes s;
  sh_sub hash m : ix_records s' !! hash = Some m → ix_records s !! hash = Some m;
  sh_pinned hash m : ix_records s !! hash = Some m → mt_active_readers m ≠ 0 → ix_records s' !! hash = Some m;
}.

Arguments sh_wf {excess} s s' _.
Arguments sh_committed {excess} s s' _.
Arguments sh_reserved {excess} s s' _.
Arguments sh_hashes {excess} s s' _.
Arguments sh_sub {excess} s s' _ hash m _.
Arguments sh_pinned {excess} s s' _ hash m _ _.

Lemma shrinks_refl {excess} s : index_wf excess s → shrinks excess s s.
Proof. by split. Qed.
Lemma shrinks_trans {excess} s1 s2 s3 : shrinks excess s1 s2 → shrinks excess s2 s3 → shrinks excess s1 s3.
Proof.
  intros [? ? ? ? S1 P1] [? ? ? ? S2 P2]. split; [done|lia|congruence|congruence|..].
  - intros hash m Hm. by apply S1, S2.
  - intros hash m Hm Ha. by apply P2; [apply P1|].
Qed.

Lemma remove_unpinned_shrinks {excess} f s hash m :
  index_wf excess s → ix_committed_bytes s ≤ u64_max → ix_records s !! hash = Some m → mt_active_readers m = 0 →
  shrinks excess s (with_statistics f (remove_record hash m s)).
Proof.
  intros Hw Hb Hm Ha. destruct (remove_record_wf s hash m Hw Hm Hb) as [Hw' Hc].
  pose proof (mw_positive _ _ (iw_meta s Hw hash m Hm)).
  split; try done.
  - by apply with_statistics_wf.
  - cbn [with_statistics ix_committed_bytes]. lia.
  - intros h' m' Hm'. cbn in Hm'. by apply lookup_delete_Some in Hm' as [_ ?].
  - intros h' m' Hm' Ha'. cbn. rewrite lookup_delete_ne; [done|]. intros <-. congruence.
Qed.

Section effects.
Context `{!MapOrder} `{!MapOrderLaws}.

Lemma enforce_loop_effect {excess} fuel capacity incoming s victims s' victims' exhausted :
  index_wf excess s → ix_committed_bytes s + ix_reserved_bytes s + incoming ≤ u64_max → 0 ≤ incoming →
  enforce_loop fuel capacity incoming s victims = Some (s', victims', exhausted) →
  shrinks excess s s' ∧
  (exhausted = false → capacity ≠ 0 → ix_committed_bytes s' + ix_reserved_bytes s' + incoming ≤ capacity).
Proof.
  revert s victims. induction fuel as [|fuel IH]; intros s victims Hw Hb Hi; cbn [enforce_loop].
  all: pose proof (committed_nonneg s Hw) as Hn.
  all: pose proof (iw_reserved s Hw).
  all: rewrite !wrapping_add_u64_exact by (rewrite ?wrapping_add_u64_exact; lia).
  all: destruct (Z.leb_spec (ix_committed_bytes s + ix_reserved_bytes s + incoming) capacity) as [Hle|Hgt];
    cbn [orb]; [intros [= <- <- <-]; split; [by apply shrinks_refl|done]|].
  all: destruct (Z.eqb_spec capacity 0) as [Hz|Hz]; [intros [= <- <- <-]; split; [by apply shrinks_refl|done]|].
  { done. }
  destruct (min_by _ _) as [victim|] eqn:Hv.
  2:{ intros [= <- <- <-]. split; [by apply shrinks_refl|done]. }
  apply min_by_elem, list_elem_of_filter in Hv as [He Hv]. apply (elem_of_values (excess := excess)) in Hv; [|done].
  rewrite Hv. intros Hrun.
  pose proof (remove_unpinned_shrinks count_capacity_eviction s _ victim Hw ltac:(lia) Hv
    ltac:(unfold evictable in He; lia)) as Hs.
  apply IH in Hrun as [Hs' Hfit]; [|apply Hs| |done].
  - split; [by eapply shrinks_trans|done].
  - pose proof (sh_committed _ _ Hs). rewrite (sh_reserved _ _ Hs). lia.
Qed.

Lemma expire_region_effect {excess} ttl now s s' victims :
  index_wf excess s → ix_committed_bytes s ≤ u64_max → expire_region ttl now s = (s', victims) → shrinks excess s s'.
Proof.
  intros Hw Hb. unfold expire_region.
  assert (Hgen : ∀ hashes s0 v0 s1 v1, index_wf excess s0 → ix_committed_bytes s0 ≤ u64_max →
    (∀ h m, h ∈ hashes → ix_records s0 !! h = Some m → mt_active_readers m = 0) →
    foldl (λ acc hash, expire_hash hash acc) (s0, v0) hashes = (s1, v1) → shrinks excess s0 s1).
  { induction hashes as [|h hashes IH]; intros s0 v0 s1 v1 Hw0 Hb0 Hz; cbn [foldl].
    { intros [= <- <-]. by apply shrinks_refl. }
    unfold expire_hash at 2. destruct (ix_records s0 !! h) as [m|] eqn:Hm.
    - intros Hf. pose proof (remove_unpinned_shrinks count_expiry s0 h m Hw0 Hb0 Hm 
        ltac:(apply (Hz h); [set_solver|done])) as Hs.
      eapply shrinks_trans; [done|]. eapply IH; [apply Hs| | |done].
      + pose proof (sh_committed _ _ Hs). lia.
      + intros h' m' Hin Hm'. apply (Hz h'); [set_solver|]. by eapply sh_sub.
    - intros Hf. eapply IH; [..|done]; [done..|]. intros h' m' Hin. apply Hz. set_solver. }
  apply Hgen; [done..|]. intros h m Hin Hm.
  apply list_elem_of_fmap in Hin as (m' & -> & [He Hm']%list_elem_of_filter).
  apply (elem_of_values (excess := excess)) in Hm'; [|done]. assert (m = m') as -> by congruence.
  unfold expired in He. lia.
Qed.
End effects.

(** Replacing an entry by one that describes the same record. *)
Lemma with_record_wf {excess} s hash m m' :
  index_wf excess s → ix_records s !! hash = Some m → meta_wf hash m' → mt_file_bytes m' = mt_file_bytes m →
  index_wf excess (with_record hash m' s).
Proof.
  intros Hw Hm Hm' Hb. split; simpl; [|by rewrite (records_bytes_replace _ _ m) by done; apply (iw_committed s Hw)|apply (iw_excess s Hw)|apply (iw_reserved s Hw)].
  intros h r. rewrite lookup_insert_Some. intros [[<- <-]|[_ Hr]]; [done|]. by apply (iw_meta s Hw).
Qed.
Lemma with_last_used_wf hash now m : meta_wf hash m → meta_wf hash (with_last_used now m).
Proof. by intros []. Qed.
Lemma with_active_readers_wf hash n m : 0 ≤ n → meta_wf hash m → meta_wf hash (with_active_readers n m).
Proof. by intros ? []. Qed.

(** ** Sums over the captures *)

Definition weight (f : Capture → bool) (c : Capture) : Z := if f c then rh_file_bytes (cp_header c) else 0.

Lemma sum_captures_insert f m t c :
  m !! t = None → sum_captures f (<[t := c]> m) = weight f c + sum_captures f m.
Proof.
  intros Hn. unfold sum_captures.
  rewrite (map_fold_insert_L (λ (_ : nat) c n, (if f c then rh_file_bytes (cp_header c) else 0) + n)); [done| |done].
  intros. lia.
Qed.
Lemma sum_captures_delete f m t c :
  m !! t = Some c → sum_captures f (delete t m) = sum_captures f m - weight f c.
Proof.
  intros Hs. rewrite <- (insert_delete_id m t c Hs) at 2.
  rewrite sum_captures_insert by apply lookup_delete_eq. lia.
Qed.
Lemma sum_captures_replace f m t c c' :
  m !! t = Some c → sum_captures f (<[t := c']> m) = sum_captures f m - weight f c + weight f c'.
Proof.
  intros Hs. rewrite <- insert_delete_eq, sum_captures_insert by apply lookup_delete_eq.
  rewrite (sum_captures_delete f m t c Hs). lia.
Qed.
Lemma sum_captures_bounds cfg f m :
  (∀ t c, m !! t = Some c → capture_wf cfg c) →
  0 ≤ sum_captures f m ≤ Z.of_nat (size m) * cf_capacity_bytes cfg.
Proof.
  induction m as [|t c m Hn IH] using map_ind; intros Hm.
  { unfold sum_captures. rewrite map_fold_empty, map_size_empty. lia. }
  rewrite sum_captures_insert, map_size_insert_None by done.
  pose proof (cw_bytes _ _ (Hm t c ltac:(by rewrite lookup_insert_eq))).
  specialize (IH ltac:(intros t' c' Hc'; apply (Hm t'); rewrite lookup_insert_ne; [done|congruence])).
  unfold weight. destruct (f c); lia.
Qed.
Lemma sum_captures_pending_le cfg m :
  (∀ t c, m !! t = Some c → capture_wf cfg c) → sum_captures pending m ≤ sum_captures reserves m.
Proof.
  induction m as [|t c m Hn IH] using map_ind; intros Hm; [done|].
  rewrite !sum_captures_insert by done.
  pose proof (cw_bytes _ _ (Hm t c ltac:(by rewrite lookup_insert_eq))).
  specialize (IH ltac:(intros t' c' Hc'; apply (Hm t'); rewrite lookup_insert_ne; [done|congruence])).
  assert (weight pending c ≤ weight reserves c); [|lia].
  unfold weight, pending, reserves. destruct (cp_phase c); cbn; lia.
Qed.

(** ** Reserved hashes *)

Lemma reservations_keep m hashes t c p :
  reservations m hashes → m !! t = Some c → reserves (with_phase p c) = reserves c →
  reservations (<[t := with_phase p c]> m) hashes.
Proof.
  intros [Hh Hd] Ht Hr. split.
  - intros hash. rewrite Hh. split.
    + intros (t' & c' & Ht' & Hr' & He). destruct (decide (t' = t)) as [->|Hne].
      * simplify_eq. exists t, (with_phase p c). rewrite lookup_insert_eq. split_and!; [done|by rewrite Hr|done].
      * exists t', c'. by rewrite lookup_insert_ne.
    + intros (t' & c' & [[<- <-]|[Hne Ht']]%lookup_insert_Some & Hr' & He); [|eauto].
      exists t, c. rewrite Hr in Hr'. done.
  - intros t1 t2 c1 c2. rewrite !lookup_insert_Some.
    intros [[<- <-]|[Hn1 H1]] [[<- <-]|[Hn2 H2]] R1 R2 He; rewrite ?Hr in *; [done|..]; eauto.
Qed.

Lemma reservations_add m hashes t c p :
  reservations m hashes → m !! t = Some c → reserves c = false → reserves (with_phase p c) = true →
  rh_key_hash (cp_header c) ∉ hashes →
  reservations (<[t := with_phase p c]> m) ({[rh_key_hash (cp_header c)]} ∪ hashes).
Proof.
  intros [Hh Hd] Ht Hr Hr' Hnin. split.
  - intros hash. rewrite elem_of_union, elem_of_singleton, Hh. split.
    + intros [->|(t' & c' & Ht' & Hrc & He)].
      * exists t, (with_phase p c). by rewrite lookup_insert_eq.
      * exists t', c'. rewrite lookup_insert_ne; [done|]. intros <-. congruence.
    + intros (t' & c' & [[<- <-]|[Hne Ht']]%lookup_insert_Some & Hrc & He); [by left|right; eauto].
  - assert (Hno : ∀ t' c', m !! t' = Some c' → reserves c' = true →
      rh_key_hash (cp_header c') ≠ rh_key_hash (cp_header c)).
    { intros t' c' Ht' Hrc He. apply Hnin, Hh. eauto. }
    intros t1 t2 c1 c2. rewrite !lookup_insert_Some.
    intros [[<- <-]|[Hn1 H1]] [[<- <-]|[Hn2 H2]] R1 R2 He; [done|..]; simpl in He.
    + by destruct (Hno t2 c2 H2 R2).
    + by destruct (Hno t1 c1 H1 R1).
    + eauto.
Qed.

Lemma reservations_remove m hashes t c p :
  reservations m hashes → m !! t = Some c → reserves c = true → reserves (with_phase p c) = false →
  reservations (<[t := with_phase p c]> m) (hashes ∖ {[rh_key_hash (cp_header c)]}).
Proof.
  intros [Hh Hd] Ht Hr Hr'. split.
  - intros hash. rewrite elem_of_difference, elem_of_singleton, Hh. split.
    + intros [(t' & c' & Ht' & Hrc & He) Hne]. exists t', c'. rewrite lookup_insert_ne; [done|].
      intros <-. congruence.
    + intros (t' & c' & [[<- <-]|[Hne Ht']]%lookup_insert_Some & Hrc & He); [congruence|].
      split; [eauto|]. intros ->. by eapply Hne, Hd.
  - intros t1 t2 c1 c2. rewrite !lookup_insert_Some.
    intros [[<- <-]|[Hn1 H1]] [[<- <-]|[Hn2 H2]] R1 R2 He; try congruence. eauto.
Qed.

Lemma reservations_fresh m hashes t c :
  reservations m hashes → m !! t = None → reserves c = false → reservations (<[t := c]> m) hashes.
Proof.
  intros [Hh Hd] Ht Hr. split.
  - intros hash. rewrite Hh. split.
    + intros (t' & c' & Ht' & Hrc & He). exists t', c'. rewrite lookup_insert_ne; [done|]. congruence.
    + intros (t' & c' & [[<- <-]|[Hne Ht']]%lookup_insert_Some & Hrc & He); [congruence|eauto].
  - intros t1 t2 c1 c2. rewrite !lookup_insert_Some.
    intros [[<- <-]|[Hn1 H1]] [[<- <-]|[Hn2 H2]] R1 R2 He; try congruence. eauto.
Qed.

Lemma reservations_delete m hashes t c :
  reservations m hashes → m !! t = Some c → reserves c = false → reservations (delete t m) hashes.
Proof.
  intros [Hh Hd] Ht Hr. split.
  - intros hash. rewrite Hh. split.
    + intros (t' & c' & Ht' & Hrc & He). exists t', c'. rewrite lookup_delete_ne; [done|]. congruence.
    + intros (t' & c' & [_ Ht']%lookup_delete_Some & Hrc & He). eauto.
  - intros t1 t2 c1 c2 [_ H1]%lookup_delete_Some [_ H2]%lookup_delete_Some. eauto.
Qed.

(** ** Preservation *)

Section preservation.
Context `{!MapOrder} `{!MapOrderLaws} (cfg : StoreConfig).
Context {excess : Z} (Hcap : 0 < cf_capacity_bytes cfg) (Hwide : 4 * cf_capacity_bytes cfg ≤ u64_max).

Lemma world_bounds w :
  world_inv cfg excess w →
  0 ≤ ix_committed_bytes (w_index w) ∧ 0 ≤ ix_reserved_bytes (w_index w) ∧
  ix_committed_bytes (w_index w) + ix_reserved_bytes (w_index w) ≤ 3 * cf_capacity_bytes cfg.
Proof.
  intros Hw. pose proof (committed_nonneg _ (wi_index _ _ Hw)) as Hn.
  pose proof (iw_reserved _ (wi_index _ _ Hw)). pose proof (wi_budget _ _ Hw).
  pose proof (sum_captures_bounds cfg pending _ (wi_captures _ _ Hw)).
  pose proof (wi_limit _ _ Hw) as Hl. rewrite (wi_outstanding _ _ Hw) in Hl. unfold MAX_OUTSTANDING_COMMITS in Hl.
  nia.
Qed.

(** A region that only touches the records, and does not add bytes. *)
Lemma world_inv_index w s outstanding readers :
  world_inv cfg excess w → index_wf excess s → ix_reserved_bytes s = ix_reserved_bytes (w_index w) →
  ix_reserved_hashes s = ix_reserved_hashes (w_index w) →
  ix_committed_bytes s ≤ ix_committed_bytes (w_index w) → outstanding = w_outstanding w →
  world_inv cfg excess {| w_index := s; w_outstanding := outstanding; w_captures := w_captures w; w_readers := readers |}.
Proof.
  intros [? ? Hr Hh ? ? Hb] Hs Er Eh Ec ->. split; simpl; try done.
  - by rewrite Er.
  - by rewrite Eh.
  - rewrite Er. lia.
Qed.

Lemma with_phase_wf p c : capture_wf cfg c → capture_wf cfg (with_phase p c).
Proof. by intros []. Qed.

(** A region that moves one capture to its next phase. *)
Lemma world_inv_capture w s t c p :
  world_inv cfg excess w → w_captures w !! t = Some c → index_wf excess s →
  reservations (<[t := with_phase p c]> (w_captures w)) (ix_reserved_hashes s) →
  ix_reserved_bytes s = ix_reserved_bytes (w_index w) - weight reserves c + weight reserves (with_phase p c) →
  ix_committed_bytes s + ix_reserved_bytes s
    - (sum_captures pending (w_captures w) - weight pending c + weight pending (with_phase p c))
    ≤ cf_capacity_bytes cfg →
  world_inv cfg excess (with_capture s t (with_phase p c) w).
Proof.
  intros Hw Ht Hs Hr Hb Hbud. split; simpl; try done.
  - intros t' c'. rewrite lookup_insert_Some. intros [[<- <-]|[_ Ht']]; [|by eapply wi_captures].
    eapply with_phase_wf, wi_captures; done.
  - rewrite (sum_captures_replace _ _ _ c) by done. rewrite Hb. by rewrite (wi_reserved _ _ Hw).
  - rewrite map_size_insert_Some by (by eexists). apply (wi_outstanding _ _ Hw).
  - apply (wi_limit _ _ Hw).
  - by rewrite (sum_captures_replace _ _ _ c).
Qed.

(** A reservation covers at least its own bytes. *)
Lemma weight_le_reserved w t c :
  world_inv cfg excess w → w_captures w !! t = Some c → weight reserves c ≤ ix_reserved_bytes (w_index w).
Proof.
  intros Hw Ht. rewrite (wi_reserved _ _ Hw).
  pose proof (sum_captures_bounds cfg reserves (delete t (w_captures w))) as Hd.
  rewrite (sum_captures_delete _ _ _ c) in Hd by done.
  assert (0 ≤ sum_captures reserves (w_captures w) - weight reserves c) by
    (apply Hd; intros t' c' [_ Ht']%lookup_delete_Some; by eapply wi_captures).
  lia.
Qed.

Lemma release_reservation_effect w t c :
  world_inv cfg excess w → w_captures w !! t = Some c → reserves c = true →
  let s := release_reservation (rh_key_hash (cp_header c)) (rh_file_bytes (cp_header c)) (w_index w) in
  index_wf excess s ∧ ix_reserved_bytes s = ix_reserved_bytes (w_index w) - rh_file_bytes (cp_header c).
Proof.
  intros Hw Ht Hr s. pose proof (weight_le_reserved w t c Hw Ht) as Hle. unfold weight in Hle. rewrite Hr in Hle.
  pose proof (cw_bytes _ _ (wi_captures _ _ Hw t c Ht)). pose proof (world_bounds w Hw).
  assert (He : ix_reserved_bytes s = ix_reserved_bytes (w_index w) - rh_file_bytes (cp_header c)).
  { unfold s. simpl. apply wrapping_sub_u64_small. lia. }
  split; [|done]. destruct (wi_index _ _ Hw) as [? ? ? ?]. split; [done..|]. rewrite He. lia.
Qed.

(** Every way a capture gives its reservation back without a commit. *)
Lemma release_inv w s t c :
  world_inv cfg excess w → w_captures w !! t = Some c → reserves c = true →
  ix_records s = ix_records (w_index w) → ix_committed_bytes s = ix_committed_bytes (w_index w) →
  ix_reserved_hashes s = ix_reserved_hashes (w_index w) ∖ {[rh_key_hash (cp_header c)]} →
  ix_reserved_bytes s = ix_reserved_bytes (w_index w) - rh_file_bytes (cp_header c) →
  world_inv cfg excess (with_capture s t (with_phase Finished c) w).
Proof.
  intros Hw Ht Hr Er Ec Eh Eb. pose proof (weight_le_reserved w t c Hw Ht) as Hle.
  pose proof (cw_bytes _ _ (wi_captures _ _ Hw t c Ht)). pose proof (wi_budget _ _ Hw).
  apply world_inv_capture; try done.
  - destruct (wi_index _ _ Hw) as [Hm Hc Hx _]. split; [by rewrite Er|by rewrite Ec, Er|done|].
    unfold weight in Hle. rewrite Hr in Hle. lia.
  - rewrite Eh. apply reservations_remove; try done. apply (wi_hashes _ _ Hw).
  - rewrite Eb. unfold weight at 1. rewrite Hr. unfold weight. simpl. lia.
  - assert (weight pending c ≤ rh_file_bytes (cp_header c)) by (unfold weight; case_match; lia).
    change (weight pending (with_phase Finished c)) with 0. rewrite Ec, Eb. lia.
Qed.

Lemma reserve_inv w t c s :
  world_inv cfg excess w → w_captures w !! t = Some c → cp_phase c = Permitted →
  reserve (rh_key_hash (cp_header c)) (cp_tokens c) (rh_file_bytes (cp_header c)) (w_index w) = Some s →
  world_inv cfg excess (with_capture s t (with_phase Reserved c) w).
Proof.
  intros Hw Ht Hp. unfold reserve. case_bool_decide as Hh; [done|]. destruct (match _ with Some _ => _ | None => _ end); [done|].
  intros [= <-]. pose proof (world_bounds w Hw) as (? & ? & ?). pose proof (wi_budget _ _ Hw).
  pose proof (cw_bytes _ _ (wi_captures _ _ Hw t c Ht)).
  assert (Hr0 : weight reserves c = 0) by (unfold weight, reserves; by rewrite Hp).
  assert (Hp0 : weight pending c = 0) by (unfold weight, pending; by rewrite Hp).
  apply world_inv_capture; try done.
  - destruct (wi_index _ _ Hw) as [Hm Hc Hx _]. split; simpl; [done..|]. rewrite wrapping_add_u64_exact; lia.
  - simpl. apply reservations_add; try done; [apply (wi_hashes _ _ Hw)|]. unfold reserves. by rewrite Hp.
  - simpl. rewrite Hr0, wrapping_add_u64_exact by lia. change (weight reserves (with_phase Reserved c)) with (rh_file_bytes (cp_header c)). lia.
  - simpl. rewrite Hp0, wrapping_add_u64_exact by lia. change (weight pending (with_phase Reserved c)) with (rh_file_bytes (cp_header c)). lia.
Qed.

Lemma enforce_inv w t c s victims exhausted :
  world_inv cfg excess w → w_captures w !! t = Some c → cp_phase c = Reserved →
  enforce_region (cf_capacity_bytes cfg) 0 (w_index w) = Some (s, victims, exhausted) →
  world_inv cfg excess (with_capture s t (with_phase (if exhausted then Refused else Writing) c) w).
Proof.
  intros Hw Ht Hp He. pose proof (world_bounds w Hw) as (? & ? & ?). pose proof (wi_budget _ _ Hw).
  apply (enforce_loop_effect (excess := excess)) in He as [Hs Hfit]; [|apply (wi_index _ _ Hw)|lia|lia].
  pose proof (sum_captures_bounds cfg pending _ (wi_captures _ _ Hw)).
  pose proof (cw_bytes _ _ (wi_captures _ _ Hw t c Ht)).
  assert (Hr0 : weight reserves c = rh_file_bytes (cp_header c)) by (unfold weight, reserves; by rewrite Hp).
  assert (Hp0 : weight pending c = rh_file_bytes (cp_header c)) by (unfold weight, pending; by rewrite Hp).
  assert (Hpend : rh_file_bytes (cp_header c) ≤ sum_captures pending (w_captures w)).
  { pose proof (sum_captures_bounds cfg pending (delete t (w_captures w))) as Hd.
    rewrite (sum_captures_delete _ _ _ c), Hp0 in Hd by done.
    assert (0 ≤ sum_captures pending (w_captures w) - rh_file_bytes (cp_header c)); [|lia].
    apply Hd. intros t' c' [_ Ht']%lookup_delete_Some. by eapply wi_captures. }
  pose proof (sh_committed _ _ Hs). apply world_inv_capture; try done; [apply Hs|..].
  - rewrite (sh_hashes _ _ Hs). apply reservations_keep; [apply (wi_hashes _ _ Hw)|done|].
    unfold reserves. rewrite Hp. by destruct exhausted.
  - rewrite (sh_reserved _ _ Hs), Hr0. destruct exhausted; unfold weight; simpl; lia.
  - rewrite Hp0. destruct exhausted.
    + change (weight pending (with_phase Refused c)) with (rh_file_bytes (cp_header c)).
      rewrite (sh_reserved _ _ Hs). lia.
    + change (weight pending (with_phase Writing c)) with 0. specialize (Hfit eq_refl ltac:(lia)). lia.
Qed.

Lemma commit_inv w t c now header file s prior :
  world_inv cfg excess w → w_captures w !! t = Some c → cp_phase c = Writing →
  rh_fingerprint header = rh_fingerprint (cp_header c) → rh_key_hash header = rh_key_hash (cp_header c) →
  rh_token_count header = rh_token_count (cp_header c) → rh_file_bytes header = rh_file_bytes (cp_header c) →
  commit_region now header (cp_tokens c) file (w_index w) = (prior, s) →
  world_inv cfg excess (with_capture s t (with_phase Finished c) w).
Proof.
  intros Hw Ht Hp Hf Hk Hc Hb [= <- <-]. pose proof (world_bounds w Hw) as (? & ? & ?).
  pose proof (wi_captures _ _ Hw t c Ht) as Hcw. pose proof (cw_bytes _ _ Hcw) as Hbytes.
  pose proof (wi_budget _ _ Hw). pose proof (wi_index _ _ Hw) as Hix.
  assert (Hr0 : weight reserves c = rh_file_bytes (cp_header c)) by (unfold weight, reserves; by rewrite Hp).
  pose proof (weight_le_reserved w t c Hw Ht) as Hle. rewrite Hr0 in Hle.
  assert (Hp0 : weight pending c = 0) by (unfold weight, pending; by rewrite Hp).
  set (committed := match ix_records (w_index w) !! rh_key_hash header with
    | Some prior => saturating_sub (ix_committed_bytes (w_index w)) (mt_file_bytes prior)
    | None => ix_committed_bytes (w_index w) end).
  assert (committed = records_bytes (delete (rh_key_hash header) (ix_records (w_index w))) + excess
    ∧ 0 ≤ committed ≤ ix_committed_bytes (w_index w)) as [Hcom Hcr].
  { unfold committed. destruct (ix_records (w_index w) !! rh_key_hash header) as [m|] eqn:Hm.
    - rewrite (records_bytes_delete _ _ m) by done. pose proof (iw_committed _ Hix).
      pose proof (record_bytes_le _ _ m Hix Hm). pose proof (mw_positive _ _ (iw_meta _ Hix _ m Hm)). ulia.
    - rewrite delete_id by done. split; [apply (iw_committed _ Hix)|lia]. }
  apply world_inv_capture; try done.
  - split; simpl; fold committed.
    + intros h m. rewrite lookup_insert_Some. intros [[<- <-]|[_ Hm]]; [|by apply (iw_meta _ Hix)].
      destruct Hcw as [? ? ?]. split; simpl; try congruence; try lia.
    + rewrite wrapping_add_u64_exact by lia. rewrite <- insert_delete_eq, records_bytes_insert by apply lookup_delete_eq.
      simpl. lia.
    + apply (iw_excess _ Hix).
    + ulia.
  - simpl. rewrite Hk. apply reservations_remove; try done; [apply (wi_hashes _ _ Hw)|]. unfold reserves. by rewrite Hp.
  - simpl. rewrite Hr0, Hb. change (weight reserves (with_phase Finished c)) with 0. ulia.
  - simpl. fold committed. rewrite Hp0. change (weight pending (with_phase Finished c)) with 0.
    rewrite wrapping_add_u64_exact by lia. unfold saturating_sub. lia.
Qed.

Lemma planned_wf fingerprint tokens regions header p :
  planned cfg fingerprint tokens regions header →
  capture_wf cfg {| cp_header := header; cp_tokens := tokens; cp_phase := p |}.
Proof.
  intros (_ & _ & Hl & Hty & Hb). destruct (layout_fields _ _ _ _ _ Hl) as (Hf & Hk & Hn & _).
  pose proof (layout_tokens_inside _ _ _ _ _ (Nat2Z.is_nonneg _) Hty Hl).
  split; simpl; [congruence|done|]. unfold HEADER_BYTES, ALIGNMENT in *. lia.
Qed.

Lemma longest_prefix_effect now fingerprint tokens minimum s reader s' :
  index_wf excess s → longest_prefix now fingerprint tokens minimum s = (reader, s') →
  index_wf excess s' ∧ ix_committed_bytes s' = ix_committed_bytes s ∧ ix_reserved_bytes s' = ix_reserved_bytes s ∧
  ix_reserved_hashes s' = ix_reserved_hashes s ∧
  match reader with
  | None => ix_records s' = ix_records s
  | Some reader => ∃ m, ix_records s !! rh_key_hash (rr_header reader) = Some m ∧ reader = reader_of m ∧
      ix_records s' = <[rh_key_hash (rr_header reader) := pinned now m]> (ix_records s)
  end.
Proof.
  intros Hw Hl. unfold longest_prefix in Hl. set (s1 := with_statistics count_lookup s) in Hl.
  assert (Hw1 : index_wf excess s1) by by apply with_statistics_wf.
  pose proof (try_candidates_spec now fingerprint tokens minimum
    (lookup_candidates fingerprint tokens minimum s1) s1 Hw1 (lookup_candidates_sorted _ _ _ _)
    (λ c h, proj1 (lookup_candidates_elem _ _ _ _ c h Hw1))) as Hs.
  rewrite Hl in Hs. destruct reader as [reader|]; cbn [lookup_ok] in Hs.
  - destruct Hs as (h & m & Hm & _ & -> & -> & _). pose proof (iw_meta _ Hw1 h m Hm) as Hmw.
    split_and!; try done.
    + apply with_statistics_wf, (with_record_wf s1 h m); try done.
      apply with_last_used_wf, with_active_readers_wf; [|done]. unfold incr, wrapping_add_u64. apply Z.mod_pos_bound. done.
    + exists m. cbn [reader_of rr_header]. by rewrite (mw_key _ _ Hmw).
  - destruct Hs as [-> _]. done.
Qed.

Lemma touch_record_effect now hash s :
  index_wf excess s → index_wf excess (touch_record now hash s) ∧
  ix_committed_bytes (touch_record now hash s) = ix_committed_bytes s ∧
  ix_reserved_bytes (touch_record now hash s) = ix_reserved_bytes s ∧
  ix_reserved_hashes (touch_record now hash s) = ix_reserved_hashes s.
Proof.
  intros Hw. unfold touch_record. destruct (ix_records s !! hash) as [m|] eqn:Hm; [|done].
  split_and!; try done. eapply with_record_wf; [done..| |done]. by apply with_last_used_wf, (iw_meta s Hw).
Qed.

Lemma drop_reader_effect reader s :
  index_wf excess s → index_wf excess (drop_reader reader s) ∧
  ix_committed_bytes (drop_reader reader s) = ix_committed_bytes s ∧
  ix_reserved_bytes (drop_reader reader s) = ix_reserved_bytes s ∧
  ix_reserved_hashes (drop_reader reader s) = ix_reserved_hashes s.
Proof.
  intros Hw. unfold drop_reader. cbn [with_statistics ix_records].
  destruct (ix_records s !! rh_key_hash (rr_header reader)) as [m|] eqn:Hm.
  - split_and!; try done. eapply with_record_wf; [by apply with_statistics_wf|done| |done].
    apply with_active_readers_wf; [ulia|]. by apply (iw_meta s Hw).
  - split_and!; try done. by apply with_statistics_wf.
Qed.

Lemma integrity_region_effect hash s victim s' :
  index_wf excess s → ix_committed_bytes s ≤ u64_max → integrity_region hash s = (victim, s') →
  index_wf excess s' ∧ ix_committed_bytes s' ≤ ix_committed_bytes s ∧ ix_reserved_bytes s' = ix_reserved_bytes s ∧
  ix_reserved_hashes s' = ix_reserved_hashes s.
Proof.
  intros Hw Hb. unfold integrity_region. destruct (ix_records s !! hash) as [m|] eqn:Hm; intros [= <- <-]; [|done].
  destruct (remove_record_wf s hash m Hw Hm Hb) as [Hw' Hc]. pose proof (mw_positive _ _ (iw_meta s Hw hash m Hm)).
  split_and!; try done; [by apply with_statistics_wf|]. cbn [with_statistics ix_committed_bytes]. lia.
Qed.

Lemma world_step_inv l w w' : world_inv cfg excess w → world_step cfg l w w' → world_inv cfg excess w'.
Proof.
  intros Hw Hstep. pose proof (world_bounds w Hw) as (? & ? & ?). pose proof (wi_index _ _ Hw) as Hix.
  destruct Hstep as [w _|w t fp tokens regions header n Hpl Ht Hn|w t c Ht Hp Hr|w t c s Ht Hp Hr
    |w t c s victims exhausted Ht Hp He|w t c Ht Hp|w t c Ht Hp|w t c Ht Hp
    |w t c now tcrc crcs file s prior header Ht Hp Hh Hc|w t c Ht Hp|w now fp tokens minimum s Hl
    |w t now fp tokens minimum reader s Ht Hsz Hl|w t reader now Ht|w t reader Ht|w now s victims He
    |w t reader victim s Ht Hi].
  - by apply world_inv_index; [|apply with_statistics_wf|..].
  - unfold try_acquire in Hn. destruct (Z.ltb_spec (w_outstanding w) MAX_OUTSTANDING_COMMITS); [|done].
    injection Hn as <-. destruct Hw as [? Hcs Hr Hh Ho Hlim Hb]. split; simpl; try done.
    + intros t' c'. rewrite lookup_insert_Some. intros [[<- <-]|[_ ?]]; [by eapply planned_wf|eauto].
    + rewrite sum_captures_insert by done. unfold weight. simpl. by rewrite Hr.
    + by apply reservations_fresh.
    + rewrite map_size_insert_None, Ho by done. lia.
    + unfold MAX_OUTSTANDING_COMMITS in *. lia.
    + rewrite sum_captures_insert by done. unfold weight. simpl. lia.
  - pose proof (wi_budget _ _ Hw).
    assert (Hr0 : weight reserves c = 0) by (unfold weight, reserves; by rewrite Hp).
    assert (Hp0 : weight pending c = 0) by (unfold weight, pending; by rewrite Hp).
    apply world_inv_capture; try done.
    + apply reservations_keep; [apply (wi_hashes _ _ Hw)|done|]. unfold reserves. by rewrite Hp.
    + rewrite Hr0. change (weight reserves (with_phase Finished c)) with 0. lia.
    + rewrite Hp0. change (weight pending (with_phase Finished c)) with 0. lia.
  - by eapply reserve_inv.
  - by eapply enforce_inv.
  - assert (Hr : reserves c = true) by (unfold reserves; by destruct Hp as [-> | ->]).
    destruct (release_reservation_effect w t c Hw Ht Hr) as [_ Hb]. by apply release_inv.
  - assert (Hr : reserves c = true) by (unfold reserves; by rewrite Hp).
    destruct (release_reservation_effect w t c Hw Ht Hr) as [_ Hb]. by apply release_inv.
  - assert (Hr : reserves c = true) by (unfold reserves; by rewrite Hp).
    pose proof (weight_le_reserved w t c Hw Ht) as Hle. unfold weight in Hle. rewrite Hr in Hle.
    apply release_inv; try done. simpl. ulia.
  - refine (commit_inv w t c now header file s prior Hw Ht Hp _ _ _ _ Hc); by rewrite Hh.
  - assert (Hr0 : weight reserves c = 0) by (unfold weight, reserves; by rewrite Hp).
    assert (Hp0 : weight pending c = 0) by (unfold weight, pending; by rewrite Hp).
    destruct Hw as [? Hcs Hr Hh Ho Hlim Hb].
    assert (Z.of_nat (size (delete t (w_captures w))) = w_outstanding w - 1 ∧ 0 < w_outstanding w) as [Hsize Hpos].
    { rewrite Ho. rewrite map_size_delete_Some by by eexists.
      assert (size (w_captures w) ≠ 0%nat); [|lia]. intros Hz%map_size_empty_inv. by rewrite Hz in Ht. }
    assert (Hrel : release_permit (w_outstanding w) = w_outstanding w - 1).
    { apply wrapping_sub_u64_small. unfold MAX_OUTSTANDING_COMMITS in Hlim. ulia. }
    split; simpl; try done.
    + intros t' c' [_ ?]%lookup_delete_Some. eauto.
    + rewrite (sum_captures_delete _ _ _ c) by done. lia.
    + eapply reservations_delete; [done..|]. unfold reserves. by rewrite Hp.
    + by rewrite Hrel, Hsize.
    + rewrite Hrel. lia.
    + rewrite (sum_captures_delete _ _ _ c) by done. lia.
  - apply longest_prefix_effect in Hl as (? & ? & ? & ? & _); [|done]. apply world_inv_index; try done. lia.
  - apply longest_prefix_effect in Hl as (? & ? & ? & ? & _); [|done]. apply world_inv_index; try done. lia.
  - destruct (touch_record_effect now (rh_key_hash (rr_header reader)) (w_index w) Hix) as (? & ? & ? & ?).
    apply world_inv_index; try done. lia.
  - destruct (drop_reader_effect reader (w_index w) Hix) as (? & ? & ? & ?). apply world_inv_index; try done. lia.
  - apply (expire_region_effect (excess := excess)) in He as [? ? ? ? _ _]; [|done|lia]. by apply world_inv_index.
  - apply integrity_region_effect in Hi as (? & ? & ? & ?); [|done|lia]. by apply world_inv_index.
Qed.

(** ** Reachable worlds *)

(** A freshly opened store. *)
Record opened (s : IndexState) : Prop := {
  op_wf : index_wf excess s;
  op_reserved : ix_reserved_bytes s = 0;
  op_hashes : ix_reserved_hashes s = ∅;
  op_budget : ix_committed_bytes s ≤ cf_capacity_bytes cfg;
  op_unpinned hash m : ix_records s !! hash = Some m → mt_active_readers m = 0;
}.
Definition world_new (s : IndexState) : World :=
  {| w_index := s; w_outstanding := 0; w_captures := ∅; w_readers := ∅ |}.

Lemma world_new_inv s : opened s → world_inv cfg excess (world_new s).
Proof.
  intros [? Hr Hh Hb _]. split; simpl; try done.
  - rewrite Hh. split; [|done]. intros hash. split; [set_solver|]. by intros (t & c & ? & _).
  - change (sum_captures pending ∅) with 0. lia.
Qed.

Lemma world_reachable_inv s w :
  opened s → rtc (λ w w', ∃ l, world_step cfg l w w') (world_new s) w → world_inv cfg excess w.
Proof.
  intros Hs. assert (Hgen : ∀ a b, rtc (λ w w', ∃ l, world_step cfg l w w') a b → world_inv cfg excess a → world_inv cfg excess b).
  { intros a b. induction 1 as [|a a' b [l Hstep] _ IH]; [done|]. intros Ha. apply IH. by eapply world_step_inv. }
  intros Hr. eapply Hgen; [done|]. by apply world_new_inv.
Qed.

Definition writing (c : Capture) : bool := match cp_phase c with Writing => true | _ => false end.
Lemma sum_captures_split m :
  sum_captures reserves m = sum_captures pending m + sum_captures writing m.
Proof.
  induction m as [|t c m Hn IH] using map_ind; [done|]. rewrite !sum_captures_insert by done.
  assert (weight reserves c = weight pending c + weight writing c); [|lia].
  unfold weight, reserves, pending, writing. destruct (cp_phase c); cbn; lia.
Qed.

(** ** Pins *)

Definition reader_key (r : RecordReader) : Z := rh_key_hash (rr_header r).
Definition reader_count (hash : Z) (m : gmap nat RecordReader) : Z :=
  map_fold (λ _ r n, (if decide (reader_key r = hash) then 1 else 0) + n) 0 m.

Lemma reader_count_insert hash m t r :
  m !! t = None → reader_count hash (<[t := r]> m) = (if decide (reader_key r = hash) then 1 else 0) + reader_count hash m.
Proof.
  intros Hn. unfold reader_count.
  rewrite (map_fold_insert_L (λ (_ : nat) r n, (if decide (reader_key r = hash) then 1 else 0) + n)); [done| |done].
  intros. lia.
Qed.
Lemma reader_count_delete hash m t r :
  m !! t = Some r → reader_count hash (delete t m) = reader_count hash m - (if decide (reader_key r = hash) then 1 else 0).
Proof.
  intros Hs. rewrite <- (insert_delete_id m t r Hs) at 2. rewrite reader_count_insert by apply lookup_delete_eq. lia.
Qed.
Lemma reader_count_bounds hash m : 0 ≤ reader_count hash m ≤ Z.of_nat (size m).
Proof.
  induction m as [|t r m Hn IH] using map_ind; [done|].
  rewrite reader_count_insert, map_size_insert_None by done. case_decide; lia.
Qed.
Lemma reader_count_pos hash m t r : m !! t = Some r → reader_key r = hash → 0 < reader_count hash m.
Proof.
  intros Ht Hk. pose proof (reader_count_delete hash m t r Ht) as Hd. rewrite decide_True in Hd by done.
  pose proof (reader_count_bounds hash (delete t m)). lia.
Qed.
Lemma reader_count_zero hash m : (∀ t r, m !! t = Some r → reader_key r ≠ hash) → reader_count hash m = 0.
Proof.
  induction m as [|t r m Hn IH] using map_ind; intros Hm; [done|]. rewrite reader_count_insert by done.
  rewrite decide_False by (apply (Hm t); by rewrite lookup_insert_eq).
  rewrite IH; [done|]. intros t' r' Ht'. apply (Hm t'). rewrite lookup_insert_ne; [done|congruence].
Qed.

(** Every reader's record is indexed, and an entry counts its readers. *)
Record pin_inv (w : World) : Prop := {
  pi_count hash m : ix_records (w_index w) !! hash = Some m → mt_active_readers m = reader_count hash (w_readers w);
  pi_reader t r : w_readers w !! t = Some r → ∃ m, ix_records (w_index w) !! reader_key r = Some m ∧ r = reader_of m;
}.

(** A step that neither finds a record corrupt nor replaces one. *)
Definition quiet (l : Label) (w : World) : Prop :=
  match l with
  | LPlain => True
  | LIntegrity _ => False
  | LCommit hash => ix_records (w_index w) !! hash = None
  end.

Lemma pin_inv_records w w' :
  pin_inv w → w_readers w' = w_readers w → ix_records (w_index w') = ix_records (w_index w) → pin_inv w'.
Proof. intros [Hc Hr] Er Ei. split; rewrite Er, Ei; done. Qed.

Lemma pin_inv_shrinks w w' :
  pin_inv w → w_readers w' = w_readers w → shrinks excess (w_index w) (w_index w') → pin_inv w'.
Proof.
  intros [Hc Hr] Er Hs. split; rewrite Er.
  - intros hash m Hm. by apply Hc, (sh_sub _ _ Hs).
  - intros t r Ht. destruct (Hr t r Ht) as (m & Hm & ->). exists m. split; [|done].
    apply (sh_pinned _ _ Hs); [done|]. rewrite (Hc _ m Hm). pose proof (reader_count_pos _ _ t _ Ht eq_refl). lia.
Qed.

(** Replacing an entry by one with the same description and the right count. *)
Lemma pin_inv_entry w w' hash m m' :
  pin_inv w → index_wf excess (w_index w) → ix_records (w_index w) !! hash = Some m → reader_of m' = reader_of m →
  ix_records (w_index w') = <[hash := m']> (ix_records (w_index w)) →
  mt_active_readers m' = reader_count hash (w_readers w') →
  (∀ h, h ≠ hash → reader_count h (w_readers w') = reader_count h (w_readers w)) →
  (∀ t r, w_readers w' !! t = Some r → w_readers w !! t = Some r ∨ r = reader_of m) →
  pin_inv w'.
Proof.
  intros [Hc Hr] Hw Hm He Ei Hcount Hother Hreaders. split; rewrite Ei.
  - intros h m1. rewrite lookup_insert_Some. intros [[<- <-]|[Hne Hm1]]; [done|].
    rewrite (Hc h m1 Hm1). symmetry. by apply Hother.
  - intros t r Ht. assert (Hex : ∃ m0, ix_records (w_index w) !! reader_key r = Some m0 ∧ r = reader_of m0).
    { destruct (Hreaders t r Ht) as [Ht0| ->]; [by eapply Hr|]. exists m. split; [|done].
      unfold reader_key. simpl. by rewrite (mw_key _ _ (iw_meta _ Hw _ m Hm)). }
    destruct Hex as (m0 & Hm0 & ->). destruct (decide (reader_key (reader_of m0) = hash)) as [Hk|Hk].
    + rewrite Hk in Hm0 |- *. exists m'. rewrite lookup_insert_eq. split; [done|].
      rewrite He. f_equal. congruence.
    + exists m0. by rewrite lookup_insert_ne.
Qed.

Lemma pin_step l w w' :
  world_inv cfg excess w → pin_inv w → quiet l w → world_step cfg l w w' → pin_inv w'.
Proof.
  intros Hw Hpin Hq Hstep. pose proof (world_bounds w Hw) as (? & ? & ?). pose proof (wi_index _ _ Hw) as Hix.
  destruct Hstep as [w _|w t fp tokens regions header n Hpl Ht Hn|w t c Ht Hp Hr|w t c s Ht Hp Hr
    |w t c s victims exhausted Ht Hp He|w t c Ht Hp|w t c Ht Hp|w t c Ht Hp
    |w t c now tcrc crcs file s prior header Ht Hp Hh Hc|w t c Ht Hp|w now fp tokens minimum s Hl
    |w t now fp tokens minimum reader s Ht Hsz Hl|w t reader now Ht|w t reader Ht|w now s victims He
    |w t reader victim s Ht Hi].
  all: try by apply (pin_inv_records w).
  - (* reserve *) apply (pin_inv_records w); try done. simpl. unfold reserve in Hr.
    destruct (_ || _); [done|]. by injection Hr as <-.
  - (* enforce *) apply (enforce_loop_effect (excess := excess)) in He as [Hs _]; [|done|lia|lia]. by apply (pin_inv_shrinks w).
  - (* commit of a new key *) simpl in Hq. injection Hc as _ <-. destruct Hpin as [Hcount Hreader].
    assert (Hnone : ∀ t r, w_readers w !! t = Some r → reader_key r ≠ rh_key_hash header).
    { intros t' r Ht' Hk. destruct (Hreader t' r Ht') as (m & Hm & _). congruence. }
    split; simpl.
    + intros hash m. rewrite lookup_insert_Some. intros [[<- <-]|[_ Hm]]; [|by apply Hcount].
      simpl. symmetry. by apply reader_count_zero.
    + intros t' r Ht'. destruct (Hreader t' r Ht') as (m & Hm & ->). exists m. rewrite lookup_insert_ne; [done|].
      intros Hk. by apply (Hnone t' _ Ht').
  - (* miss *) apply longest_prefix_effect in Hl as (_ & _ & _ & _ & Hl); [|done]. by apply (pin_inv_records w).
  - (* hit *) apply longest_prefix_effect in Hl as (_ & _ & _ & _ & m & Hm & -> & Hrec); [|done].
    set (hash := rh_key_hash (rr_header (reader_of m))) in *.
    apply (pin_inv_entry w _ hash m (pinned now m)); simpl; try done.
    + rewrite reader_count_insert, decide_True by done. unfold incr. rewrite (pi_count w Hpin hash m Hm).
      pose proof (reader_count_bounds hash (w_readers w)). rewrite wrapping_add_u64_exact by ulia. lia.
    + intros h Hne. rewrite reader_count_insert by done. rewrite decide_False; [done|]. intros Hk. by apply Hne.
    + intros t' r'. rewrite lookup_insert_Some. intros [[_ <-]|[_ Ht']]; [by right|by left].
  - (* touch *) unfold touch_record. destruct (ix_records (w_index w) !! rh_key_hash (rr_header reader)) as [m|] eqn:Hm.
    + apply (pin_inv_entry w _ (rh_key_hash (rr_header reader)) m (with_last_used now m)); simpl; try done; [|by left].
      by apply (pi_count w Hpin).
    + by apply (pin_inv_records w).
  - (* drop *) destruct (pi_reader w Hpin t reader Ht) as (m & Hm & ->). unfold drop_reader.
    cbn [with_statistics ix_records]. unfold reader_key in Hm. rewrite Hm.
    apply (pin_inv_entry w _ (rh_key_hash (rr_header (reader_of m))) m
      (with_active_readers (saturating_sub (mt_active_readers m) 1) m)); try done;
      cbn [w_readers with_active_readers mt_active_readers].
    + rewrite (pi_count w Hpin _ m Hm), (reader_count_delete _ _ t _ Ht), decide_True by done.
      pose proof (reader_count_pos _ _ t _ Ht eq_refl) as Hpos. unfold reader_key in Hpos. ulia.
    + intros h Hne. rewrite (reader_count_delete _ _ t _ Ht), decide_False; [lia|]. intros Hk. by apply Hne.
    + intros t' r' [_ Ht']%lookup_delete_Some. by left.
  - (* expiry *) apply (expire_region_effect (excess := excess)) in He; [|done|lia]. by apply (pin_inv_shrinks w).
Qed.

Lemma pin_reachable s w :
  opened s → rtc (λ w w', ∃ l, quiet l w ∧ world_step cfg l w w') (world_new s) w → pin_inv w.
Proof.
  intros Hs.
  assert (Hgen : ∀ a b, rtc (λ w w', ∃ l, quiet l w ∧ world_step cfg l w w') a b →
    world_inv cfg excess a → pin_inv a → pin_inv b).
  { intros a b. induction 1 as [|a a' b (l & Hq & Hstep) _ IH]; [done|]. intros Ha Hp.
    apply IH; [by eapply world_step_inv|by eapply pin_step]. }
  intros Hr. eapply Hgen; [done|by apply world_new_inv|]. split; simpl; [|done].
  intros hash m Hm. by apply (op_unpinned s Hs hash m).
Qed.

(** What the invariant says of the budget. *)
Lemma accounting_reachable s w :
  opened s → rtc (λ w w', ∃ l, world_step cfg l w w') (world_new s) w →
  ix_committed_bytes (w_index w) = records_bytes (ix_records (w_index w)) + excess ∧
  ix_reserved_bytes (w_index w) = sum_captures reserves (w_captures w) ∧
  ix_committed_bytes (w_index w) + sum_captures writing (w_captures w) ≤ cf_capacity_bytes cfg ∧
  Z.of_nat (size (w_captures w)) ≤ MAX_OUTSTANDING_COMMITS.
Proof.
  intros Hs Hr. pose proof (world_reachable_inv s w Hs Hr) as Hw. split_and!.
  - apply (iw_committed _ (wi_index _ _ Hw)).
  - apply (wi_reserved _ _ Hw).
  - pose proof (wi_budget _ _ Hw) as Hb. rewrite (wi_reserved _ _ Hw), sum_captures_split in Hb. lia.
  - rewrite <- (wi_outstanding _ _ Hw). apply (wi_limit _ _ Hw).
Qed.

(** C35: As long as no record is found corrupt and no commit replaces a record, a
    reader's record stays in the index, unchanged, until the reader is dropped: neither
    capacity enforcement nor expiry nor any other thread removes it.  The store starts
    as [open] leaves it, with a budget of at most a quarter of the 64-bit range. *)
Theorem readers_pin_their_records s w t r :
  opened s → rtc (λ w w', ∃ l, quiet l w ∧ world_step cfg l w w') (world_new s) w →
  w_readers w !! t = Some r →
  ∃ m, ix_records (w_index w) !! reader_key r = Some m ∧ r = reader_of m ∧ 0 < mt_active_readers m.
Proof.
  intros Hs Hr Ht. pose proof (pin_reachable s w Hs Hr) as Hp. destruct (pi_reader w Hp t r Ht) as (m & Hm & He).
  exists m. split_and!; [done..|]. rewrite (pi_count w Hp _ m Hm). by eapply reader_count_pos.
Qed.
End preservation.
Arguments opened cfg excess s : clear implicits.

(** ** Executable schedules *)

Module Schedule.

#[export] Instance map_order : MapOrder := λ m, (map_to_list m).*2.
#[export] Instance map_order_laws : MapOrderLaws.
Proof. by intros m. Qed.

(** Captures share one fingerprint and one region; a command names the thread. *)
Inductive Command :=
  | Acquire (t : nat) (tokens : list Z) | Reserve (t : nat) | Enforce (t : nat) | Commit (t : nat)
  | Cancel (t : nat) | Release (t : nat) | Lookup (t : nat) (tokens : list Z) | DropReader (t : nat)
  | Integrity (t : nat).

Definition fingerprint : list Z := replicate 32 9.
Definition regions : list RegionDescription := [ {| rg_name := "state"; rg_byte_count := 10 |} ].
Definition plan (tokens : list Z) : option RecordHeader :=
  match layout fingerprint (key_hash fingerprint tokens) (Z.of_nat (length tokens)) regions with
  | Ok h => Some h | Err _ => None
  end.

Definition config (capacity : Z) : StoreConfig :=
  {| cf_root := "root"; cf_capacity_bytes := capacity; cf_ttl_seconds := 60; cf_minimum_token_count := 1;
     cf_resident_capacity_bytes := 0; cf_direct_reads := false |}.

Section exec.
Context (capacity : Z).

Definition exec (c : Command) (w : World) : option (Label * World) :=
  match c with
  | Acquire t tokens =>
    header ← plan tokens;
    n ← try_acquire (w_outstanding w);
    if bool_decide (w_captures w !! t = None) && bool_decide (capacity ≠ 0)
       && (1 <=? Z.of_nat (length tokens)) && (rh_file_bytes header <=? capacity)
    then Some (LPlain,
      {| w_index := w_index w; w_outstanding := n;
         w_captures := <[t := {| cp_header := header; cp_tokens := tokens; cp_phase := Permitted |}]> (w_captures w);
         w_readers := w_readers w |})
    else None
  | Reserve t =>
    c ← w_captures w !! t;
    match cp_phase c with
    | Permitted =>
      s ← reserve (rh_key_hash (cp_header c)) (cp_tokens c) (rh_file_bytes (cp_header c)) (w_index w);
      Some (LPlain, with_capture s t (with_phase Reserved c) w)
    | _ => None
    end
  | Enforce t =>
    c ← w_captures w !! t;
    match cp_phase c with
    | Reserved =>
      '(s, _, exhausted) ← enforce_region capacity 0 (w_index w);
      Some (LPlain, with_capture s t (with_phase (if exhausted : bool then Refused else Writing) c) w)
    | _ => None
    end
  | Commit t =>
    c ← w_captures w !! t;
    match cp_phase c with
    | Writing =>
      Some (LCommit (rh_key_hash (cp_header c)),
        with_capture (snd (commit_region 7 (cp_header c) (cp_tokens c) "file" (w_index w))) t (with_phase Finished c) w)
    | _ => None
    end
  | Cancel t =>
    c ← w_captures w !! t;
    match cp_phase c with
    | Writing => Some (LPlain, with_capture (cancel_region (cp_header c) (w_index w)) t (with_phase Finished c) w)
    | _ => None
    end
  | Release t =>
    c ← w_captures w !! t;
    match cp_phase c with
    | Finished => Some (LPlain,
        {| w_index := w_index w; w_outstanding := release_permit (w_outstanding w);
           w_captures := delete t (w_captures w); w_readers := w_readers w |})
    | _ => None
    end
  | Lookup t tokens =>
    match w_readers w !! t, longest_prefix 9 fingerprint tokens 1 (w_index w) with
    | None, (Some reader, s) =>
      if Z.of_nat (size (w_readers w)) <? u64_max
      then Some (LPlain, {| w_index := s; w_outstanding := w_outstanding w; w_captures := w_captures w;
                            w_readers := <[t := reader]> (w_readers w) |})
      else None
    | _, _ => None
    end
  | DropReader t =>
    reader ← w_readers w !! t;
    Some (LPlain, {| w_index := drop_reader reader (w_index w); w_outstanding := w_outstanding w;
                     w_captures := w_captures w; w_readers := delete t (w_readers w) |})
  | Integrity t =>
    reader ← w_readers w !! t;
    Some (LIntegrity (rh_key_hash (rr_header reader)),
          with_index (snd (integrity_region (rh_key_hash (rr_header reader)) (w_index w))) w)
  end.

Lemma exec_step c w l w' : exec c w = Some (l, w') → world_step (config capacity) l w w'.
Proof.
  destruct c as [t tokens|t|t|t|t|t|t tokens|t|t]; cbn [exec]; intros He.
  - apply bind_Some in He as (header & Hp & He). apply bind_Some in He as (n & Hn & He).
    case_bool_decide as Hf; [|done]. case_bool_decide as Hz; [|done].
    destruct (Z.leb_spec 1 (Z.of_nat (length tokens))) as [Hl|]; [|done].
    destruct (Z.leb_spec (rh_file_bytes header) capacity) as [Hb|]; [|done]. injection He as <- <-.
    unfold plan in Hp. destruct (layout _ _ _ _) as [h|] eqn:Hlay; [|done]. injection Hp as ->.
    eapply (ws_acquire _ w t fingerprint tokens regions); [|done..]. split_and!; try done.
    repeat constructor; simpl; ulia.
  - apply bind_Some in He as (c & Hc & He). destruct (cp_phase c) eqn:Hp; try done.
    apply bind_Some in He as (s & Hs & [= <- <-]). by apply ws_reserve.
  - apply bind_Some in He as (c & Hc & He). destruct (cp_phase c) eqn:Hp; try done.
    apply bind_Some in He as ([[s v] ex] & Hs & [= <- <-]). by eapply (ws_enforce (config capacity)).
  - apply bind_Some in He as (c & Hc & He). destruct (cp_phase c) eqn:Hp; try done. injection He as <- <-.
    eapply (ws_commit (config capacity) w t c 7 (rh_tokens_crc32 (cp_header c)) (rh_region_crc32 (cp_header c)) "file"
      _ (fst (commit_region 7 (cp_header c) (cp_tokens c) "file" (w_index w))) (cp_header c)); [done|done| |done].
    by destruct (cp_header c).
  - apply bind_Some in He as (c & Hc & He). destruct (cp_phase c) eqn:Hp; try done. injection He as <- <-.
    by apply ws_cancel.
  - apply bind_Some in He as (c & Hc & He). destruct (cp_phase c) eqn:Hp; try done. injection He as <- <-.
    by eapply ws_release.
  - destruct (w_readers w !! t) eqn:Ht; [done|].
    destruct (longest_prefix _ _ _ _ _) as [[reader|] s] eqn:Hl; [|done].
    destruct (Z.ltb_spec (Z.of_nat (size (w_readers w))) u64_max); [|done]. injection He as <- <-.
    by eapply ws_lookup_hit.
  - apply bind_Some in He as (reader & Hr & [= <- <-]). by eapply ws_drop.
  - apply bind_Some in He as (reader & Hr & [= <- <-]).
    destruct (integrity_region (rh_key_hash (rr_header reader)) (w_index w)) as [v s] eqn:Hi. by eapply ws_integrity.
Qed.

Definition quietb (l : Label) (w : World) : bool :=
  match l with
  | LPlain => true
  | LIntegrity _ => false
  | LCommit hash => bool_decide (ix_records (w_index w) !! hash = None)
  end.

Fixpoint exec_all (only_quiet : bool) (cs : list Command) (w : World) : option World :=
  match cs with
  | [] => Some w
  | c :: cs =>
    '(l, w') ← exec c w;
    if only_quiet && negb (quietb l w) then None else exec_all only_quiet cs w'
  end.

Lemma exec_all_rtc b cs w w' :
  exec_all b cs w = Some w' → rtc (λ w w', ∃ l, world_step (config capacity) l w w') w w'.
Proof.
  revert w. induction cs as [|c cs IH]; intros w; cbn [exec_all].
  { intros [= <-]. apply rtc_refl. }
  intros ([l w1] & He & Hr)%bind_Some. destruct (_ && _); [done|].
  eapply rtc_l; [exists l; by apply (exec_step c)|by apply IH].
Qed.
Lemma exec_all_quiet cs w w' :
  exec_all true cs w = Some w' → rtc (λ w w', ∃ l, quiet l w ∧ world_step (config capacity) l w w') w w'.
Proof.
  revert w. induction cs as [|c cs IH]; intros w; cbn [exec_all].
  { intros [= <-]. apply rtc_refl. }
  intros ([l w1] & He & Hr)%bind_Some. destruct (quietb l w) eqn:Hq; [|done].
  cbn [andb negb] in Hr. eapply rtc_l; [|by apply IH]. exists l. split; [|by apply (exec_step c)].
  unfold quietb in Hq. destruct l; simpl; [done..|]. by apply bool_decide_eq_true in Hq.
Qed.

Lemma empty_opened : 0 ≤ capacity → opened (config capacity) 0 index_empty.
Proof. intros Hc. split; simpl; try done. Qed.
End exec.

Definition capture (t : nat) (tokens : list Z) : list Command :=
  [Acquire t tokens; Reserve t; Enforce t; Commit t; Release t].

Definition busy_world : World :=
  default (world_new index_empty)
    (exec_all 40000 true (capture 0 [1; 2] ++ [Acquire 1 [3; 4]; Reserve 1; Enforce 1; Lookup 5 [1; 2; 8]; Acquire 2 [5; 6]])
       (world_new index_empty)).

Lemma readers_pin_their_records_witness :
  ∃ r m, w_readers busy_world !! 5%nat = Some r ∧ rr_tokens r = [1; 2] ∧
    ix_records (w_index busy_world) !! reader_key r = Some m ∧ 0 < mt_active_readers m.
Proof.
  assert (Hr : exec_all 40000 true (capture 0 [1; 2] ++ [Acquire 1 [3; 4]; Reserve 1; Enforce 1; Lookup 5 [1; 2; 8];
    Acquire 2 [5; 6]]) (world_new index_empty) = Some busy_world) by (vm_compute; reflexivity).
  apply exec_all_quiet in Hr.
  assert (Hc : 0 < cf_capacity_bytes (config 40000)) by (vm_compute; reflexivity).
  assert (Hw : 4 * cf_capacity_bytes (config 40000) ≤ u64_max) by (vm_compute; congruence).
  assert (H0 : 0 ≤ 40000) by (vm_compute; congruence).
  assert (Hread : ∃ r, w_readers busy_world !! 5%nat = Some r ∧ rr_tokens r = [1; 2]).
  { eexists. split; vm_compute; reflexivity. }
  destruct Hread as (r & Hr5 & Htok).
  destruct (readers_pin_their_records (config 40000) Hc Hw index_empty busy_world 5%nat r
    (empty_opened 40000 H0) Hr Hr5) as (m & Hm & _ & Hpos).
  exists r, m. split; [exact Hr5|]. split; [exact Htok|]. split; [exact Hm|exact Hpos].
Defined.

(** The schedule that unpins a record: two readers, one finds the record corrupt,
    the prefix is captured again and read again, and the other old reader goes. *)
Definition before_unpin : World :=
  default (world_new index_empty)
    (exec_all 20000 false (capture 0 [1; 2] ++ [Lookup 0 [1; 2]; Lookup 1 [1; 2]; Integrity 0]
       ++ capture 0 [1; 2] ++ [Lookup 2 [1; 2]]) (world_new index_empty)).
Definition after_unpin : World :=
  default (world_new index_empty)
    (exec_all 20000 true [DropReader 1; Acquire 0 [3; 4]; Reserve 0; Enforce 0] before_unpin).

(** Dropping a reader of a record that was evicted for corruption takes the pin off the record that was captured again under the same key: from a reachable world, a run in which nothing is found corrupt and nothing is replaced evicts a record whose reader is still alive. *)
Theorem stale_reader_unpins_new_record :
  ∃ w w' r m, rtc (λ w w', ∃ l, world_step (config 20000) l w w') (world_new index_empty) w ∧
    w_readers w !! 2%nat = Some r ∧ ix_records (w_index w) !! reader_key r = Some m ∧ r = reader_of m ∧
    rtc (λ w w', ∃ l, quiet l w ∧ world_step (config 20000) l w w') w w' ∧
    w_readers w' !! 2%nat = Some r ∧ ix_records (w_index w') !! reader_key r = None.
Proof.
  assert (H1 : exec_all 20000 false (capture 0 [1; 2] ++ [Lookup 0 [1; 2]; Lookup 1 [1; 2]; Integrity 0]
    ++ capture 0 [1; 2] ++ [Lookup 2 [1; 2]]) (world_new index_empty) = Some before_unpin) by (vm_compute; reflexivity).
  assert (H2 : exec_all 20000 true [DropReader 1; Acquire 0 [3; 4]; Reserve 0; Enforce 0] before_unpin
    = Some after_unpin) by (vm_compute; reflexivity).
  apply exec_all_rtc in H1. apply exec_all_quiet in H2.
  exists before_unpin, after_unpin. eexists _, _. split; [exact H1|].
  split; [vm_compute; reflexivity|]. split; [vm_compute; reflexivity|]. split; [vm_compute; reflexivity|].
  split; [exact H2|]. split; vm_compute; reflexivity.
Qed.

(** ** The index operations on concrete stores *)

Definition stored_world : World :=
  default (world_new index_empty)
    (exec_all 40000 true (capture 0 [1; 2] ++ capture 0 [1; 2; 3] ++ capture 0 [4] ++ [Lookup 5 [1; 2; 8]])
       (world_new index_empty)).
Lemma stored_wf : index_wf 0 (w_index stored_world).
Proof.
  assert (Hr : exec_all 40000 true (capture 0 [1; 2] ++ capture 0 [1; 2; 3] ++ capture 0 [4] ++ [Lookup 5 [1; 2; 8]])
    (world_new index_empty) = Some stored_world) by (vm_compute; reflexivity).
  apply exec_all_rtc in Hr. apply (wi_index (config 40000)).
  apply (world_reachable_inv (config 40000)) with (s := index_empty); [done|vm_compute; congruence| |done].
  by apply empty_opened.
Qed.

Lemma enforce_evicts_oldest_until_it_fits_witness :
  ∃ s victims, enforce_region 20000 0 (w_index stored_world) = Some (s, mt_path <$> victims, false) ∧
    36864 - metas_bytes victims ≤ 20000 ∧ Z.of_nat (size (ix_records s)) = 1.
Proof.
  assert (Hb : ix_committed_bytes (w_index stored_world) + ix_reserved_bytes (w_index stored_world) + 0 ≤ u64_max)
    by (vm_compute; congruence).
  assert (Hz : 20000 ≠ 0) by (vm_compute; congruence).
  destruct (enforce_evicts_oldest_until_it_fits 20000 0 (w_index stored_world) stored_wf (Z.le_refl 0) Hb Hz)
    as (s & victims & exhausted & He & _ & _ & _ & _ & Hf & _).
  assert (Ht : match enforce_region 20000 0 (w_index stored_world) with
    | Some (s, _, e) => negb e && (Z.of_nat (size (ix_records s)) =? 1) | None => false end = true)
    by (vm_compute; reflexivity).
  rewrite He in Ht. destruct exhausted; [discriminate Ht|]. exists s, victims. split; [exact He|].
  split; [|apply Z.eqb_eq; exact Ht].
  assert (Hu : ix_committed_bytes (w_index stored_world) + ix_reserved_bytes (w_index stored_world) + 0 = 36864)
    by (vm_compute; reflexivity).
  rewrite Hu in Hf. exact (Hf eq_refl).
Defined.

Lemma longest_prefix_is_longest_exact_witness :
  ∃ reader s, longest_prefix 9 fingerprint [1; 2; 3; 4] 1 (w_index stored_world) = (Some reader, s) ∧
    rr_tokens reader = [1; 2; 3].
Proof.
  pose proof (longest_prefix_is_longest_exact 9 fingerprint [1; 2; 3; 4] 1 (w_index stored_world) stored_wf) as Hl.
  destruct (longest_prefix 9 fingerprint [1; 2; 3; 4] 1 (w_index stored_world)) as [[reader|] s] eqn:He.
  - exists reader, s. split; [reflexivity|].
    assert (Hc : rr_tokens <$> fst (longest_prefix 9 fingerprint [1; 2; 3; 4] 1 (w_index stored_world)) = Some [1; 2; 3])
      by (vm_compute; reflexivity).
    rewrite He in Hc. injection Hc as Hc. exact Hc.
  - assert (Hc : fst (longest_prefix 9 fingerprint [1; 2; 3; 4] 1 (w_index stored_world)) ≠ None)
      by (vm_compute; congruence).
    rewrite He in Hc. exfalso. apply Hc. reflexivity.
Defined.

Lemma prewarm_within_budget_witness :
  selected_bytes (prewarm_candidates fingerprint 30000 (w_index stored_world)) ≤ 30000 ∧
  selected_bytes (prewarm_candidates fingerprint 30000 (w_index stored_world)) = 24576.
Proof.
  split; [|vm_compute; reflexivity].
  assert (H0 : 0 ≤ 30000) by (vm_compute; congruence).
  exact (proj1 (prewarm_within_budget fingerprint 30000 (w_index stored_world) stored_wf H0)).
Defined.

Lemma expire_removes_exactly_idle_witness :
  ix_committed_bytes (fst (expire_region 60 1000 (w_index stored_world))) = 12288 ∧
  index_wf 0 (fst (expire_region 60 1000 (w_index stored_world))).
Proof.
  split; [vm_compute; reflexivity|].
  assert (Hb : ix_committed_bytes (w_index stored_world) ≤ u64_max) by (vm_compute; congruence).
  pose proof (expire_removes_exactly_idle 60 1000 (w_index stored_world) stored_wf Hb) as He.
  destruct (expire_region 60 1000 (w_index stored_world)) as [s v]. exact (proj1 He).
Defined.
End Schedule.
