(* ===== verification/PrefixLifecycle.v ===== *)
(** * The life of a prefix record

    The public operations of [cache/letsinfer_prefix_store/src/store.rs] whole: the
    index of [PrefixStore] with the resident tier, the writer permits and the files
    of the store's directory.  A call runs without another thread in between;
    [PrefixThreads] has the interleavings.  A capture is laid out, filled, sealed
    with its checksums and published by a rename; a later [open] reads it back. *)

From Stdlib Require Import String.
From Stdlib Require Ascii.
From S2P Require Import Prelude Values Text Ordering PrefixFormat PrefixResident PrefixIo PrefixStore PrefixThreads.

(** ** Names *)

Definition hex_digit (d : Z) : Ascii.ascii :=
  Ascii.ascii_of_N (Z.to_N (if d <? 10 then 48 + d else 87 + d)).
(** [{value:0n$x}] *)
Fixpoint hex_fixed (n : nat) (value : Z) : string :=
  match n with
  | O => EmptyString
  | S n => hex_fixed n (value / 16) +:+ String (hex_digit (value mod 16)) EmptyString
  end.

Definition record_name (hash : Z) : string := hex_fixed 16 hash +:+ "." +:+ RECORD_EXTENSION.
Definition record_path (cfg : StoreConfig) (hash : Z) : path := cf_root cfg +:+ "/" +:+ record_name hash.
(** [Path::extension]: after the last dot, unless the name starts with it. *)
Definition extension (name : string) : option string :=
  match rsplit_once "." name with
  | Some (EmptyString, _) | None => None
  | Some (_, e) => Some e
  end.

Lemma hex_digit_not_dot v : hex_digit (v mod 16) ≠ Ascii.ascii_of_nat 46.
Proof.
  pose proof (Z.mod_pos_bound v 16 ltac:(lia)) as Hb. set (d := v mod 16) in *.
  assert (d ∈ seqZ 0 16) as Hd by (apply elem_of_seqZ; lia).
  repeat (apply elem_of_cons in Hd as [->|Hd]; [vm_compute; congruence|]). by apply not_elem_of_nil in Hd.
Qed.
Lemma hex_fixed_no_temporary n v t : str_contains ".tmp-" (hex_fixed n v +:+ t) = str_contains ".tmp-" t.
Proof.
  revert v t. induction n as [|n IH]; intros v t; [done|]. cbn [hex_fixed].
  rewrite string_app_assoc, IH. change (String (hex_digit (v mod 16)) EmptyString +:+ t)
    with (String (hex_digit (v mod 16)) t). cbn [str_contains].
  enough (starts_with ".tmp-" (String (hex_digit (v mod 16)) t) = false) as -> by done.
  unfold starts_with. cbn [strip_prefix]. destruct (Ascii.eqb _ _) eqn:He; [|done].
  apply Ascii.eqb_eq in He. exfalso. apply (hex_digit_not_dot v). by rewrite <- He.
Qed.
Lemma rsplit_once_app x p t l r : rsplit_once p t = Some (l, r) → rsplit_once p (x +:+ t) = Some (x +:+ l, r).
Proof.
  intros Ht. induction x as [|a x IH]; [done|]. change (String a x +:+ t) with (String a (x +:+ t)).
  cbn [rsplit_once]. by rewrite IH.
Qed.

(** The scan takes a file that is named like a record for one. *)
Lemma record_name_scanned hash :
  str_contains ".tmp-" (record_name hash) = false ∧ extension (record_name hash) = Some RECORD_EXTENSION.
Proof.
  unfold record_name. split; [by rewrite hex_fixed_no_temporary|].
  unfold extension. rewrite (rsplit_once_app _ "." _ EmptyString RECORD_EXTENSION) by done.
  change (hex_fixed 16 hash) with (hex_fixed 15 (hash / 16) +:+ String (hex_digit (hash mod 16)) EmptyString).
  by destruct (hex_fixed 15 (hash / 16)).
Qed.

(** ** State *)

(** The bytes of a file and its modification time. *)
Record FileEntry := { fe_bytes : list Z; fe_modified : Z }.

Record Store := {
  ps_state : IndexState;
  ps_resident : TierState;
  ps_outstanding : Z;
  ps_files : gmap path FileEntry;
}.
Definition with_state (s : IndexState) (st : Store) : Store :=
  {| ps_state := s; ps_resident := ps_resident st; ps_outstanding := ps_outstanding st; ps_files := ps_files st |}.
Definition with_resident (r : TierState) (st : Store) : Store :=
  {| ps_state := ps_state st; ps_resident := r; ps_outstanding := ps_outstanding st; ps_files := ps_files st |}.
Definition with_outstanding (n : Z) (st : Store) : Store :=
  {| ps_state := ps_state st; ps_resident := ps_resident st; ps_outstanding := n; ps_files := ps_files st |}.
Definition with_files (f : gmap path FileEntry) (st : Store) : Store :=
  {| ps_state := ps_state st; ps_resident := ps_resident st; ps_outstanding := ps_outstanding st; ps_files := f |}.
Definition drop_permit (st : Store) : Store := with_outstanding (release_permit (ps_outstanding st)) st.

(** [resident.invalidate(&path); let _ = fs::remove_file(path)] for every victim. *)
Definition remove_victims (victims : list path) (st : Store) : Store :=
  foldl (λ st p, with_files (delete p (ps_files st)) (with_resident (invalidate p (ps_resident st)) st)) st victims.

Record RecordWriter := { wr_header : RecordHeader; wr_tokens : list Z; wr_buffer : list Z }.
Record PreparedCommit := {
  pc_header : RecordHeader; pc_tokens : list Z; pc_buffer : list Z; pc_promote_resident : bool;
}.

(** [buffer[offset..offset + data.len()].copy_from_slice(data)] *)
Definition splice (buffer : list Z) (offset : Z) (data : list Z) : list Z :=
  take (Z.to_nat offset) buffer ++ data ++ drop (Z.to_nat offset + length data) buffer.
Fixpoint place_tokens (buffer : list Z) (offset : Z) (tokens : list Z) : list Z :=
  match tokens with
  | [] => buffer
  | token :: tokens => place_tokens (splice buffer offset (le_bytes 4 token)) (offset + 4) tokens
  end.

Definition with_checksums (h : RecordHeader) (tokens_crc32 : Z) (region_crc32 : list Z) : RecordHeader :=
  {| rh_fingerprint := rh_fingerprint h; rh_key_hash := rh_key_hash h; rh_token_count := rh_token_count h;
     rh_regions := rh_regions h; rh_tokens_offset := rh_tokens_offset h;
     rh_region_offsets := rh_region_offsets h; rh_logical_bytes := rh_logical_bytes h;
     rh_file_bytes := rh_file_bytes h; rh_tokens_crc32 := tokens_crc32; rh_region_crc32 := region_crc32 |}.

Section operations.
Context `{!MapOrder} `{!Crc32} `{!Pread} `{!TargetOs} (cfg : StoreConfig).

(** ** Capacity *)

Definition enforce_capacity_for (incoming : Z) (st : Store) : result message () * Store :=
  match enforce_region (cf_capacity_bytes cfg) incoming (ps_state st) with
  | Some (s, victims, exhausted) =>
    let st := remove_victims victims (with_state s st) in
    if exhausted then (Err "prefix-store capacity exhausted by active records"%string, st) else (Ok (), st)
  | None => (Err ""%string, st)
  end.

(** ** Capture *)

(** [allocated] is whether [CaptureBuffer::new] succeeds. *)
Definition begin_capture (fingerprint tokens : list Z) (regions : list RegionDescription)
    (allocated : bool) (st : Store) : result CaptureRejection RecordWriter * Store :=
  if cf_capacity_bytes cfg =? 0 then (Err Disabled, st)
  else if Z.of_nat (length tokens) <? cf_minimum_token_count cfg then (Err BelowMinimumTokenCount, st)
  else
    let hash := key_hash fingerprint tokens in
    match layout fingerprint hash (Z.of_nat (length tokens)) regions with
    | Err _ => (Err InvalidPlan, st)
    | Ok header =>
      let file_bytes := rh_file_bytes header in
      if cf_capacity_bytes cfg <? file_bytes then (Err RecordTooLarge, st)
      else match try_acquire (ps_outstanding st) with
      | None => (Err WriterBusy, with_state (with_statistics count_busy (ps_state st)) st)
      | Some n =>
        let st := with_outstanding n st in
        match reserve hash tokens file_bytes (ps_state st) with
        | None => (Err AlreadyStored, drop_permit st)
        | Some s =>
          match enforce_capacity_for 0 (with_state s st) with
          | (Err _, st) =>
            (Err InsufficientCapacity, drop_permit (with_state (reject_reserved hash file_bytes (ps_state st)) st))
          | (Ok _, st) =>
            if negb allocated then
              (Err AllocationFailure, drop_permit (with_state (reject_reserved hash file_bytes (ps_state st)) st))
            else
              let buffer := place_tokens (replicate (Z.to_nat file_bytes) 0) (rh_tokens_offset header) tokens in
              (Ok {| wr_header := header; wr_tokens := tokens; wr_buffer := buffer |}, st)
          end
        end
      end
    end.

(** [writable_region] and a caller that fills the whole region. *)
Definition writable_region (w : RecordWriter) (index : nat) : option (list Z) :=
  r ← region_range (wr_header w) index; Some (slice (wr_buffer w) (fst r) (snd r)).
Definition fill_region (w : RecordWriter) (index : nat) (data : list Z) : option RecordWriter :=
  r ← region_range (wr_header w) index;
  if Z.of_nat (length data) =? snd r - fst r
  then Some {| wr_header := wr_header w; wr_tokens := wr_tokens w;
               wr_buffer := splice (wr_buffer w) (fst r) data |}
  else None.

(** [cancel] and the drop of a writer that was neither committed nor cancelled. *)
Definition cancel (w : RecordWriter) (st : Store) : Store :=
  drop_permit (with_state (cancel_region (wr_header w) (ps_state st)) st).

(** The checksums of [prepare]; a region without a range cannot happen. *)
Definition sealed_header (w : RecordWriter) : RecordHeader :=
  let h := wr_header w in
  let crc r := crc32 (slice (wr_buffer w) (fst r) (snd r)) in
  with_checksums h (crc (tokens_range h))
    ((λ index, default 0 (crc <$> region_range h index)) <$> seq 0 (length (rh_regions h))).
Definition prepare (w : RecordWriter) (promote_resident : bool) (st : Store) :
    result message PreparedCommit * Store :=
  let header := sealed_header w in
  match encode header (slice (wr_buffer w) 0 HEADER_BYTES) with
  | Err e => (Err e, drop_permit (with_state (cancel_reservation header (ps_state st)) st))
  | Ok page =>
    (Ok {| pc_header := header; pc_tokens := wr_tokens w;
           pc_buffer := page ++ drop (Z.to_nat HEADER_BYTES) (wr_buffer w);
           pc_promote_resident := promote_resident |}, st)
  end.

(** [written] is the outcome of the write, the syncs and the rename.  Only on Linux is
    a large capture a mapped file; a capture in memory is promoted as it is. *)
Definition commit_prepared (now : Z) (written : result message ()) (job : PreparedCommit) (st : Store) :
    result message () * Store :=
  let header := pc_header job in
  let file := record_path cfg (rh_key_hash header) in
  let failed e st := (Err e, drop_permit (with_state (cancel_reservation header (ps_state st)) st)) in
  match written with
  | Err e => failed e st
  | Ok _ =>
    let st := with_files (<[file := {| fe_bytes := pc_buffer job; fe_modified := now |}]> (ps_files st)) st in
    let in_memory := negb (target_os_linux && (FILE_BACKED_RECORD_MIN_BYTES <=? rh_file_bytes header)) in
    let blob :=
      if negb (pc_promote_resident job) then Ok None
      else if in_memory then Ok (Some (pc_buffer job))
      else if rh_file_bytes header <=? cf_resident_capacity_bytes cfg
      then result_map Some (read_record_checked (pc_buffer job) header (cf_direct_reads cfg))
      else Ok None in
    match blob with
    | Err e => failed e (with_files (delete file (ps_files st)) st)
    | Ok blob =>
      let '(prior, s) := commit_region now header (pc_tokens job) file (ps_state st) in
      let resident := match prior with Some p => invalidate p (ps_resident st) | None => ps_resident st end in
      let resident := match blob with
                      | Some blob => promote (cf_resident_capacity_bytes cfg) file blob resident
                      | None => resident
                      end in
      (Ok (), drop_permit (with_resident resident (with_state s st)))
    end
  end.

Definition commit (now : Z) (written : result message ()) (w : RecordWriter) (st : Store) :
    result message () * Store :=
  match prepare w true st with
  | (Err e, st) => (Err e, st)
  | (Ok job, st) => commit_prepared now written job st
  end.

(** The commits that wait in the channel, or nothing when the writer thread is gone;
    the thread takes them in order. *)
Definition commit_async (channel : option (list PreparedCommit)) (w : RecordWriter) (promote_resident : bool)
    (st : Store) : result message (option (list PreparedCommit)) * Store :=
  match prepare w promote_resident st with
  | (Err e, st) => (Err e, st)
  | (Ok job, st) =>
    let refused reason :=
      (Err ("prefix-record background " +:+ reason),
       drop_permit (with_state (cancel_reservation (pc_header job) (ps_state st)) st)) in
    match channel with
    | None => refused "writer disconnected"%string
    | Some queue =>
      if Z.of_nat (length queue) <? COMMIT_QUEUE_CAPACITY then (Ok (Some (queue ++ [job])), st)
      else refused "queue full"%string
    end
  end.

(** ** Readers *)

Definition evict_for_integrity (hash : Z) (st : Store) : Store :=
  let '(victim, s) := integrity_region hash (ps_state st) in
  let st := with_state s st in
  match victim with Some p => remove_victims [p] st | None => st end.

(** [load_blob] of a reader that has not loaded yet; [None] when another reader of
    the path is loading. *)
Definition load_blob (reader : RecordReader) (st : Store) : option (result message RecordBlob * Store) :=
  let loader := match ps_files st !! rr_path reader with
                | Some f => read_record_checked (fe_bytes f) (rr_header reader) (cf_direct_reads cfg)
                | None => Err "No such file or directory"%string
                end in
  '(r, resident) ← load (cf_resident_capacity_bytes cfg) (rr_path reader) (rh_file_bytes (rr_header reader)) loader
     (ps_resident st);
  Some (result_map fst r, with_resident resident st).

(** [load_region]: the bytes of the region, or an error that evicts the record. *)
Definition load_region (reader : RecordReader) (index : nat) (st : Store) :
    option (result message (list Z) * Store) :=
  match region_range (rr_header reader) index with
  | None => Some (Err ("region index " +:+ to_decimal (Z.of_nat index) +:+ " out of range"), st)
  | Some r =>
    '(loaded, st) ← load_blob reader st;
    match loaded with
    | Ok blob => Some (Ok (slice blob (fst r) (snd r)), st)
    | Err e => Some (Err e, evict_for_integrity (rh_key_hash (rr_header reader)) st)
    end
  end.

Definition read_region (reader : RecordReader) (index : nat) (destination_len : Z) (st : Store) :
    option (result message (list Z) * Store) :=
  match rh_regions (rr_header reader) !! index with
  | None => Some (Err ("region index " +:+ to_decimal (Z.of_nat index) +:+ " out of range"), st)
  | Some region =>
    if negb (destination_len =? rg_byte_count region)
    then Some (Err ("region '" +:+ rg_name region +:+ "' needs " +:+ to_decimal (rg_byte_count region)
                    +:+ " bytes, destination has " +:+ to_decimal destination_len), st)
    else match region_range (rr_header reader) index with
    | None => Some (Err "invalid region range"%string, st)
    | Some r =>
      '(loaded, st) ← load_blob reader st;
      match loaded with
      | Ok blob => Some (Ok (slice blob (fst r) (snd r)), st)
      | Err e => Some (Err e, evict_for_integrity (rh_key_hash (rr_header reader)) st)
      end
    end
  end.

Definition reclaim_expired (unix_time_seconds : Z) (st : Store) : Store :=
  let '(s, victims) := expire_region (cf_ttl_seconds cfg) unix_time_seconds (ps_state st) in
  remove_victims victims (with_state s st).

Definition release_resident (reader : RecordReader) (st : Store) : Store :=
  with_resident (invalidate (rr_path reader) (ps_resident st)) st.

Definition statistics (st : Store) : StoreStatistics :=
  let r := tier_stats (cf_resident_capacity_bytes cfg) (ps_resident st) in
  {| ss_counters := ix_statistics (ps_state st);
     ss_committed_byte_count := ix_committed_bytes (ps_state st);
     ss_reserved_byte_count := ix_reserved_bytes (ps_state st);
     ss_record_count := Z.of_nat (size (ix_records (ps_state st)));
     ss_outstanding_writer_count := ps_outstanding st;
     ss_resident_capacity_bytes := st_capacity_bytes r;
     ss_resident_used_bytes := st_used_bytes r;
     ss_resident_record_count := st_entries r;
     ss_resident_hit_count := st_hit_count r;
     ss_nvme_load_count := st_nvme_load_count r |}.

(** ** Opening *)

Definition load_record_meta (p : path) (f : FileEntry) : result message RecordMeta :=
  let? loaded := read_header_and_tokens (fe_bytes f) in
  let '(header, tokens) := loaded in
  if negb (key_hash (rh_fingerprint header) tokens =? rh_key_hash header)
  then Err ("record " +:+ p +:+ " key-hash mismatch")
  else Ok {| mt_header := header; mt_tokens := tokens; mt_path := p; mt_file_bytes := rh_file_bytes header;
             mt_last_used_unix := fe_modified f; mt_active_readers := 0 |}.

(** One directory entry: stale temporaries and unreadable records are removed. *)
Definition scan_entry (st : Store) (entry : string * FileEntry) : Store :=
  let '(name, f) := entry in
  let p := cf_root cfg +:+ "/" +:+ name in
  if str_contains ".tmp-" name then with_files (delete p (ps_files st)) st
  else if negb (bool_decide (extension name = Some RECORD_EXTENSION)) then st
  else match load_record_meta p f with
  | Ok meta =>
    let s := ps_state st in
    with_state
      {| ix_records := <[rh_key_hash (mt_header meta) := meta]> (ix_records s);
         ix_reserved_hashes := ix_reserved_hashes s;
         ix_committed_bytes := wrapping_add_u64 (ix_committed_bytes s) (mt_file_bytes meta);
         ix_reserved_bytes := ix_reserved_bytes s; ix_statistics := ix_statistics s |} st
  | Err _ =>
    with_files (delete p (ps_files st)) (with_state (with_statistics count_integrity (ps_state st)) st)
  end.

(** The loop over [read_dir], left at the first entry that cannot be read. *)
Fixpoint scan (listing : list (result message (string * FileEntry))) (st : Store) : result message () * Store :=
  match listing with
  | [] => (Ok (), st)
  | Err e :: _ => (Err e, st)
  | Ok entry :: listing => scan listing (scan_entry st entry)
  end.

(** [created] is the outcome of [create_dir_all], [listing] what [read_dir] lists, in
    its order, and [usize_max] the largest [usize] of the platform. *)
Definition open (usize_max : Z) (created : result message ()) (files : gmap path FileEntry)
    (listing : result message (list (result message (string * FileEntry)))) : result message () * Store :=
  let st := {| ps_state := index_empty; ps_resident := tier_default; ps_outstanding := 0; ps_files := files |} in
  match created, listing with
  | Err _, _ => (Err ("create prefix-store root " +:+ cf_root cfg), st)
  | Ok _, Err e => (Err e, st)
  | Ok _, Ok listing =>
    match scan listing st with
    | (Err e, st) => (Err e, st)
    | (Ok _, st) =>
      if usize_max <? cf_resident_capacity_bytes cfg then (Err "resident capacity exceeds usize"%string, st)
      else enforce_capacity_for 0 st
    end
  end.
End operations.

(** ** Buffers *)

Lemma splice_length buffer offset data :
  0 ≤ offset → offset + Z.of_nat (length data) ≤ Z.of_nat (length buffer) →
  length (splice buffer offset data) = length buffer.
Proof. intros. unfold splice. rewrite !length_app, length_take, length_drop. lia. Qed.
Lemma splice_bytes buffer offset data :
  Forall byte buffer → Forall byte data → Forall byte (splice buffer offset data).
Proof. intros. unfold splice. apply Forall_app_2; [by apply Forall_take|]. apply Forall_app_2; [done|by apply Forall_drop]. Qed.

(** A splice is read back, and leaves what ends before it or starts after it. *)
Lemma splice_slice buffer offset data :
  0 ≤ offset → offset + Z.of_nat (length data) ≤ Z.of_nat (length buffer) →
  slice (splice buffer offset data) offset (offset + Z.of_nat (length data)) = data.
Proof.
  intros. unfold slice, splice. rewrite drop_app_length' by (rewrite length_take; lia).
  rewrite take_app_length' by lia. done.
Qed.
Lemma slice_lookup l a b i :
  0 ≤ a → slice l a b !! i = if decide (Z.of_nat i < b - a) then l !! (Z.to_nat a + i)%nat else None.
Proof.
  intros Ha. unfold slice. case_decide.
  - rewrite lookup_take_lt by lia. apply lookup_drop.
  - apply lookup_take_ge. lia.
Qed.
Lemma splice_lookup_outside buffer offset data j :
  0 ≤ offset → offset + Z.of_nat (length data) ≤ Z.of_nat (length buffer) →
  Z.of_nat j < offset ∨ offset + Z.of_nat (length data) ≤ Z.of_nat j →
  splice buffer offset data !! j = buffer !! j.
Proof.
  intros Ho Hl Hj. unfold splice. destruct (decide (Z.of_nat j < offset)).
  - rewrite lookup_app_l by (rewrite length_take; lia). apply lookup_take_lt. lia.
  - rewrite lookup_app_r by (rewrite length_take; lia). rewrite length_take.
    rewrite lookup_app_r by lia. rewrite lookup_drop. f_equal. lia.
Qed.
Lemma splice_slice_outside buffer offset data a b :
  0 ≤ offset → offset + Z.of_nat (length data) ≤ Z.of_nat (length buffer) → 0 ≤ a →
  b ≤ offset ∨ offset + Z.of_nat (length data) ≤ a →
  slice (splice buffer offset data) a b = slice buffer a b.
Proof.
  intros Ho Hl Ha Hd. apply list_eq. intros i. rewrite !slice_lookup by done. case_decide; [|done].
  apply splice_lookup_outside; [done..|lia].
Qed.

Definition token_bytes (tokens : list Z) : list Z := concat (map (le_bytes 4) tokens).
Lemma token_bytes_length tokens : Z.of_nat (length (token_bytes tokens)) = 4 * Z.of_nat (length tokens).
Proof.
  unfold token_bytes. rewrite (concat_length_const _ _ 4%nat); [lia|]. apply Forall_true. intros. apply le_bytes_length.
Qed.
Lemma token_bytes_bytes tokens : Forall byte (token_bytes tokens).
Proof. unfold token_bytes. induction tokens; cbn [map concat]; [constructor|]. apply Forall_app_2; [apply le_bytes_bytes|done]. Qed.
Lemma decode_token_bytes tokens : Forall in_u32 tokens → decode_tokens (token_bytes tokens) = tokens.
Proof.
  induction 1 as [|token tokens Ht _ IH]; [done|].
  change (decode_tokens (token_bytes (token :: tokens)))
    with (le_val (le_bytes 4 token) :: decode_tokens (token_bytes tokens)).
  rewrite IH, le_val_le_bytes; [done|]. change (256 ^ Z.of_nat 4) with (u32_max + 1). unfold in_u32 in Ht. lia.
Qed.

Lemma place_tokens_spec tokens buffer offset :
  0 ≤ offset → offset + 4 * Z.of_nat (length tokens) ≤ Z.of_nat (length buffer) → Forall byte buffer →
  let buffer' := place_tokens buffer offset tokens in
  length buffer' = length buffer ∧ Forall byte buffer' ∧
  slice buffer' offset (offset + 4 * Z.of_nat (length tokens)) = token_bytes tokens ∧
  (∀ b, 0 ≤ b ≤ offset → slice buffer' 0 b = slice buffer 0 b).
Proof.
  revert buffer offset. induction tokens as [|token tokens IH]; intros buffer offset Ho Hl Hb; cbn [place_tokens].
  { split_and!; try done. unfold slice. by replace (Z.to_nat _) with 0%nat by (simpl; lia). }
  pose proof (le_bytes_length 4 token) as H4. cbn [length] in Hl.
  assert (Hsl : length (splice buffer offset (le_bytes 4 token)) = length buffer) by (apply splice_length; lia).
  destruct (IH (splice buffer offset (le_bytes 4 token)) (offset + 4)) as (Hlen & Hbytes & Hs & Hbefore);
    [lia|rewrite Hsl; lia|by apply splice_bytes, le_bytes_bytes|].
  split_and!; [by rewrite Hlen|done| |].
  - unfold token_bytes. cbn [map concat length]. fold (token_bytes tokens).
    rewrite <- (slice_app _ offset (offset + 4)) by lia. f_equal.
    + apply list_eq. intros i.
      pose proof (Hbefore (offset + 4) ltac:(lia)) as Hpre.
      rewrite <- (splice_slice buffer offset (le_bytes 4 token)) at 2 by lia. rewrite H4.
      rewrite !slice_lookup by lia.
      destruct (decide (Z.of_nat i < 4)); [|by rewrite !decide_False by lia]. rewrite !decide_True by lia.
      pose proof (f_equal (λ l : list Z, l !! (Z.to_nat offset + i)%nat) Hpre) as Hi. cbn beta in Hi.
      rewrite !slice_lookup in Hi by lia. rewrite !decide_True in Hi by lia.
      by replace (Z.to_nat 0 + (Z.to_nat offset + i))%nat with (Z.to_nat offset + i)%nat in Hi by lia.
    + rewrite <- Hs. f_equal; lia.
  - intros b Hbo. rewrite Hbefore by lia. apply splice_slice_outside; lia.
Qed.

(** ** Writers *)

(** The types of a capture request. *)
Record typed_request (fingerprint tokens : list Z) (regions : list RegionDescription) : Prop := {
  tr_fingerprint : length fingerprint = 32%nat ∧ Forall byte fingerprint;
  tr_tokens : Forall in_u32 tokens;
  tr_regions : Forall (λ r, 0 ≤ rg_byte_count r ≤ u64_max) regions;
}.

(** What a writer holds from its admission to its commit. *)
Record writer_ok (w : RecordWriter) : Prop := {
  wo_request : typed_request (rh_fingerprint (wr_header w)) (wr_tokens w) (rh_regions (wr_header w));
  wo_layout : layout (rh_fingerprint (wr_header w)) (rh_key_hash (wr_header w)) (rh_token_count (wr_header w))
    (rh_regions (wr_header w)) = Ok (wr_header w);
  wo_count : rh_token_count (wr_header w) = Z.of_nat (length (wr_tokens w));
  wo_key : rh_key_hash (wr_header w) = key_hash (rh_fingerprint (wr_header w)) (wr_tokens w);
  wo_length : Z.of_nat (length (wr_buffer w)) = rh_file_bytes (wr_header w);
  wo_bytes : Forall byte (wr_buffer w);
  wo_tokens : slice (wr_buffer w) (fst (tokens_range (wr_header w))) (snd (tokens_range (wr_header w)))
    = token_bytes (wr_tokens w);
}.

Lemma key_hash_range fingerprint tokens : in_u64 (key_hash fingerprint tokens).
Proof.
  assert (Hf : ∀ l seed, in_u64 seed → in_u64 (fnv1a seed l)).
  { induction l as [|b l IH]; intros seed Hs; [done|]. unfold fnv1a. cbn [foldl]. apply IH.
    unfold wrapping_mul_u64. pose proof (Z.mod_pos_bound (Z.lxor seed b * FNV_PRIME) (2 ^ 64)).
    unfold in_u64, u64_max. lia. }
  unfold key_hash. assert (H0 : in_u64 (fnv1a FNV_OFFSET fingerprint)) by (apply Hf; unfold FNV_OFFSET; ulia).
  revert H0. generalize (fnv1a FNV_OFFSET fingerprint). induction tokens as [|t tokens IH]; intros h Hh; [done|].
  cbn [foldl]. by apply IH, Hf.
Qed.

Lemma layout_count_bound fp key n regions h : layout fp key n regions = Ok h → n * 4 ≤ usize_max.
Proof.
  unfold layout. destruct (n =? 0); [done|]. destruct (_ || _); [done|]. rewrite result_bind_Ok.
  intros (? & _ & Hm). apply result_bind_Ok in Hm as (? & [_ ?]%checked_mul_Ok & _). done.
Qed.

(** The checksums a writer seals its header with. *)
Lemma layout_validates fp key n regions h crc crcs :
  0 ≤ n → Forall (λ r, 0 ≤ rg_byte_count r ≤ u64_max) regions →
  layout fp key n regions = Ok h → length crcs = length regions →
  validate_layout (with_checksums h crc crcs) = Ok ().
Proof.
  intros Hn Hty Hl Hc. destruct (layout_fields _ _ _ _ _ Hl) as (Hf & Hk & Hcount & Hreg).
  pose proof (layout_canonical _ _ _ _ _ crc crcs Hn Hty Hl) as Hcan.
  pose proof (cn_file _ Hcan) as (Hfile & Hal & _). pose proof (cn_tokens _ Hcan) as Ht.
  pose proof (cn_token_count _ Hcan) as Hz. destruct (cn_placed _ Hcan) as [Hlen _].
  unfold validate_layout, with_checksums, is_multiple_of. cbn in *.
  rewrite Hcount, Hreg, Hf, Hk in *.
  rewrite Ht, Hal, Hl, Hlen, Hc, !Nat.eqb_refl. rewrite Z.eqb_refl. cbn [negb].
  destruct (Z.eqb_spec n 0); [done|]. destruct (Z.ltb_spec (rh_file_bytes h) (rh_logical_bytes h)); [lia|].
  cbn [orb Z.eqb negb result_bind]. rewrite bool_decide_true by done. by rewrite !Z.eqb_refl.
Qed.

Section durable.
Context `{!MapOrder} `{!Crc32} `{!Crc32Laws} (cfg : StoreConfig).

Lemma sealed_typed w : writer_ok w → typed_header (sealed_header w) ∧ validate_layout (sealed_header w) = Ok ().
Proof.
  intros Hw. destruct (wo_request w Hw) as [Hf Ht Hr].
  pose proof (key_hash_range (rh_fingerprint (wr_header w)) (wr_tokens w)) as Hk. rewrite <- (wo_key w Hw) in Hk.
  pose proof (layout_count_bound _ _ _ _ _ (wo_layout w Hw)). pose proof (wo_count w Hw). split.
  - split; simpl; try done; [lia|].
    apply Forall_fmap, Forall_forall. intros i _. simpl.
    destruct (region_range (wr_header w) i); simpl; [apply crc32_u32|ulia].
  - eapply layout_validates; [|done|exact (wo_layout w Hw)|by rewrite length_fmap, length_seq]. lia.
Qed.

Lemma sealed_canonical w : writer_ok w → canonical (sealed_header w).
Proof. intros Hw. destruct (sealed_typed w Hw) as [Hty Hv]. by apply validate_layout_canonical in Hv as [? _]. Qed.

(** The prepared bytes are the header page over the captured payload. *)
Lemma prepare_Ok w promote st :
  writer_ok w →
  ∃ page, prepare w promote st =
    (Ok {| pc_header := sealed_header w; pc_tokens := wr_tokens w;
           pc_buffer := page ++ drop (Z.to_nat HEADER_BYTES) (wr_buffer w); pc_promote_resident := promote |}, st) ∧
    length page = Z.to_nat HEADER_BYTES ∧ decode page = Ok (sealed_header w) ∧ Forall byte page.
Proof.
  intros Hw. destruct (sealed_typed w Hw) as [Hty Hv]. pose proof (canonical_size _ Hty (sealed_canonical w Hw)) as Hsz.
  cbn in Hsz. pose proof (wo_length w Hw) as Hl.
  assert (Hd : Z.of_nat (length (slice (wr_buffer w) 0 HEADER_BYTES)) = HEADER_BYTES).
  { rewrite region_slice_length; unfold HEADER_BYTES, ALIGNMENT in *; lia. }
  destruct (encode_decodes (sealed_header w) (slice (wr_buffer w) 0 HEADER_BYTES) Hty Hv ltac:(lia))
    as (page & He & Hlen & Hdec).
  exists page. unfold prepare. rewrite He. split_and!; [done|lia|done|].
  eapply (encode_bytes (sealed_header w)); [done|done|..|exact He]; [lia|]. apply region_slice_bytes, (wo_bytes w Hw).
Qed.

(** The payload behind the header page is the writer's. *)
Lemma prepared_slice page buffer a b :
  length page = Z.to_nat HEADER_BYTES → HEADER_BYTES ≤ Z.of_nat (length buffer) → HEADER_BYTES ≤ a →
  slice (page ++ drop (Z.to_nat HEADER_BYTES) buffer) a b = slice buffer a b.
Proof.
  intros Hp Hl Ha. apply list_eq. intros i.
  rewrite !slice_lookup by (unfold HEADER_BYTES, ALIGNMENT in *; lia). case_decide; [|done].
  rewrite lookup_app_r by lia. rewrite lookup_drop, Hp. f_equal. lia.
Qed.

Lemma canonical_region_after_header h i r :
  typed_header h → canonical h → region_range h i = Some r → HEADER_BYTES ≤ fst r.
Proof.
  intros Hty Hc Hr. unfold region_range in Hr.
  apply bind_Some in Hr as (o & Ho & Hr). apply bind_Some in Hr as (rg & Hrg & [= <-]). simpl.
  destruct (cn_placed h Hc) as [_ HP]. destruct (HP i o rg Ho Hrg) as (Hlo & _).
  unfold tokens_range in Hlo. rewrite (cn_tokens h Hc) in Hlo. simpl in Hlo. pose proof (th_token_count h Hty). lia.
Qed.

Lemma canonical_regions_disjoint h i j r r' :
  canonical h → i ≠ j → region_range h i = Some r → region_range h j = Some r' →
  snd r ≤ fst r' ∨ snd r' ≤ fst r.
Proof.
  intros Hc Hne Hr Hr'. unfold region_range in *.
  apply bind_Some in Hr as (o & Ho & Hr). apply bind_Some in Hr as (rg & Hrg & [= <-]).
  apply bind_Some in Hr' as (o' & Ho' & Hr'). apply bind_Some in Hr' as (rg' & Hrg' & [= <-]). simpl.
  destruct (cn_placed h Hc) as [_ HP].
  destruct (HP i o rg Ho Hrg) as (_ & _ & _ & H1'). destruct (HP j o' rg' Ho' Hrg') as (_ & _ & _ & H2').
  destruct (decide (i < j)%nat); [left; by eapply H1'|right; eapply H2'; [|done]; lia].
Qed.

(** A prepared record is intact. *)
Lemma prepared_intact w page :
  writer_ok w → length page = Z.to_nat HEADER_BYTES → decode page = Ok (sealed_header w) →
  intact (page ++ drop (Z.to_nat HEADER_BYTES) (wr_buffer w)) (sealed_header w).
Proof.
  intros Hw Hp Hd. destruct (sealed_typed w Hw) as [Hty Hv]. pose proof (sealed_canonical w Hw) as Hc.
  pose proof (canonical_size _ Hty Hc) as Hsz. cbn in Hsz. pose proof (wo_length w Hw) as Hl.
  split.
  - rewrite length_app, length_drop, Hp. cbn. unfold HEADER_BYTES, ALIGNMENT in *. lia.
  - unfold slice. change (Z.to_nat 0) with 0%nat. by rewrite drop_0, Z.sub_0_r, take_app_length'.
  - rewrite prepared_slice; [done|done|lia|]. cbn. by rewrite (cn_tokens _ Hc : rh_tokens_offset (wr_header w) = _).
  - intros i r Hr. pose proof (canonical_region_after_header _ i r Hty Hc Hr).
    rewrite prepared_slice by (done || lia). cbn [sealed_header with_checksums rh_region_crc32].
    assert (Hi : (i < length (rh_regions (wr_header w)))%nat).
    { unfold region_range in Hr. apply bind_Some in Hr as (o & Ho & Hr). apply bind_Some in Hr as (rg & Hrg & _).
      by apply lookup_lt_Some in Hrg. }
    rewrite list_lookup_fmap, lookup_seq_lt by done. simpl.
    change (region_range (wr_header w) i) with (region_range (sealed_header w) i). by rewrite Hr.
Qed.

Lemma prepared_bytes w page : writer_ok w → Forall byte page → Forall byte (page ++ drop (Z.to_nat HEADER_BYTES) (wr_buffer w)).
Proof. intros Hw Hp. apply Forall_app_2; [done|]. apply Forall_drop, (wo_bytes w Hw). Qed.

(** The index entry an opened store makes of a record. *)
Definition reopened (w : RecordWriter) (p : path) (modified : Z) : RecordMeta :=
  {| mt_header := sealed_header w; mt_tokens := wr_tokens w; mt_path := p;
     mt_file_bytes := rh_file_bytes (wr_header w); mt_last_used_unix := modified; mt_active_readers := 0 |}.

Lemma load_prepared w page p modified :
  writer_ok w → length page = Z.to_nat HEADER_BYTES → decode page = Ok (sealed_header w) → Forall byte page →
  rh_token_count (wr_header w) ≤ MAX_PLAUSIBLE_TOKENS →
  load_record_meta p {| fe_bytes := page ++ drop (Z.to_nat HEADER_BYTES) (wr_buffer w); fe_modified := modified |}
  = Ok (reopened w p modified).
Proof.
  intros Hw Hp Hd Hb Hm. destruct (prepared_intact w page Hw Hp Hd) as [Hs Hh Ht _].
  unfold load_record_meta. cbn [fe_bytes fe_modified].
  assert (Hr : read_header_and_tokens (page ++ drop (Z.to_nat HEADER_BYTES) (wr_buffer w))
    = Ok (sealed_header w, wr_tokens w)).
  { apply read_header_and_tokens_Ok; [by apply prepared_bytes|]. split_and!; try done.
    destruct (sealed_typed w Hw) as [Hty _]. pose proof (sealed_canonical w Hw) as Hc.
    pose proof (canonical_size _ Hty Hc) as Hsz. cbn in Hsz. pose proof (wo_length w Hw) as Hl.
    rewrite prepared_slice; [|done|lia|cbn; by rewrite (cn_tokens _ Hc : rh_tokens_offset (wr_header w) = _)].
    change (tokens_range (sealed_header w)) with (tokens_range (wr_header w)). rewrite (wo_tokens w Hw).
    symmetry. apply decode_token_bytes, (tr_tokens _ _ _ (wo_request w Hw)). }
  rewrite Hr. cbn [result_bind].
  change (rh_fingerprint (sealed_header w)) with (rh_fingerprint (wr_header w)).
  change (rh_key_hash (sealed_header w)) with (rh_key_hash (wr_header w)).
  by rewrite (wo_key w Hw), Z.eqb_refl.
Qed.

(** Filling a region keeps the writer and is what the region holds. *)
Lemma fill_region_ok w i data w' :
  writer_ok w → Forall byte data → fill_region w i data = Some w' →
  writer_ok w' ∧ wr_header w' = wr_header w ∧ wr_tokens w' = wr_tokens w ∧ writable_region w' i = Some data ∧
  (∀ j, j ≠ i → writable_region w' j = writable_region w j).
Proof.
  intros Hw Hb Hf. unfold fill_region in Hf. apply bind_Some in Hf as ([s e] & Hr & Hf). cbn [fst snd] in Hf.
  destruct (Z.eqb_spec (Z.of_nat (length data)) (e - s)) as [Hl|]; [|done]. injection Hf as <-.
  destruct (sealed_typed w Hw) as [Hty Hv]. pose proof (sealed_canonical w Hw) as Hc.
  destruct (region_ranges_canonical _ Hc) as (rs & _ & Hlook).
  pose proof (canonical_ranges_bounds _ rs Hty Hc Hlook) as Hbounds.
  assert (Hin : ∀ j r, region_range (wr_header w) j = Some r →
    0 ≤ fst r ∧ fst r < snd r ∧ snd r ≤ Z.of_nat (length (wr_buffer w))).
  { intros j r Hj. rewrite (wo_length w Hw). eapply (Forall_lookup_1 _ _ j r Hbounds). rewrite Hlook. exact Hj. }
  destruct (Hin i (s, e) Hr) as (H1' & H2' & H3'). cbn [fst snd] in *.
  split_and!; try done.
  - destruct Hw as [? ? ? ? Hlen ? Htok]. split; simpl; try done.
    + by rewrite splice_length by lia.
    + by apply splice_bytes.
    + rewrite <- Htok. destruct (cn_placed _ Hc) as [_ HP]. unfold region_range in Hr.
      apply bind_Some in Hr as (o & Ho & Hr). apply bind_Some in Hr as (rg & Hrg & [= <- <-]).
      destruct (HP i o rg Ho Hrg) as (Hlo & _). pose proof (cn_tokens _ Hc) as Ht. cbn in Ht.
      unfold tokens_range in *. cbn in *. rewrite Ht in *. apply splice_slice_outside; [lia..| |lia].
      unfold HEADER_BYTES, ALIGNMENT. lia.
  - unfold writable_region. cbn [wr_header wr_buffer]. rewrite Hr. cbn. f_equal.
    replace e with (s + Z.of_nat (length data)) by lia. apply splice_slice; lia.
  - intros j Hne. unfold writable_region. cbn [wr_header wr_buffer].
    destruct (region_range (wr_header w) j) as [r|] eqn:Hj; [|done]. cbn. f_equal.
    destruct (Hin j r Hj) as (? & ? & ?). apply splice_slice_outside; [lia..|].
    destruct (canonical_regions_disjoint (sealed_header w) i j (s, e) r Hc ltac:(done) Hr Hj); simpl in *; lia.
Qed.

(** ** From admission to the prepared record *)

Lemma begin_capture_ok fingerprint tokens regions allocated st w st' :
  typed_request fingerprint tokens regions →
  begin_capture cfg fingerprint tokens regions allocated st = (Ok w, st') →
  writer_ok w ∧ wr_tokens w = tokens ∧ rh_fingerprint (wr_header w) = fingerprint ∧
  rh_regions (wr_header w) = regions.
Proof.
  intros Hreq. unfold begin_capture. destruct (_ =? 0); [done|]. destruct (_ <? _); [done|].
  destruct (layout _ _ _ _) as [h|] eqn:Hl; [|done]. destruct (_ <? _); [done|].
  destruct (try_acquire _); [|done]. destruct (reserve _ _ _ _); [|done].
  destruct (enforce_capacity_for _ _ _) as [[]]; [|done]. destruct (negb allocated); [done|].
  intros [= <- <-]. destruct (layout_fields _ _ _ _ _ Hl) as (Hf & Hk & Hn & Hr).
  pose proof (layout_canonical _ _ _ _ _ 0 [] (Nat2Z.is_nonneg _) (tr_regions _ _ _ Hreq) Hl) as Hc.
  assert (Hroom : rh_tokens_offset h + 4 * Z.of_nat (length tokens) ≤ rh_file_bytes h ∧ 0 ≤ rh_tokens_offset h).
  { pose proof (cn_tokens _ Hc) as Ht. cbn in Ht. split; [|rewrite Ht; done].
    pose proof (layout_tokens_inside _ _ _ _ _ (Nat2Z.is_nonneg _) (tr_regions _ _ _ Hreq) Hl). lia. }
  destruct (place_tokens_spec tokens (replicate (Z.to_nat (rh_file_bytes h)) 0) (rh_tokens_offset h))
    as (Hlen & Hbytes & Hs & _); [lia|rewrite length_replicate; lia|by apply Forall_replicate|].
  split_and!; try done. split; cbn [wr_header wr_tokens wr_buffer]; try done.
  - by rewrite Hf, Hr.
  - by rewrite Hf, Hk, Hn, Hr.
  - by rewrite Hk, Hf.
  - rewrite Hlen, length_replicate. lia.
  - unfold tokens_range. cbn [fst snd]. rewrite Hn, Z.mul_comm. exact Hs.
Qed.

Lemma begin_capture_capacity fingerprint tokens regions allocated st w st' :
  typed_request fingerprint tokens regions →
  begin_capture cfg fingerprint tokens regions allocated st = (Ok w, st') → 0 < cf_capacity_bytes cfg.
Proof.
  intros Hreq. unfold begin_capture. destruct (_ =? 0); [done|]. destruct (_ <? _); [done|].
  destruct (layout _ _ _ _) as [h|] eqn:Hl; [|done].
  destruct (Z.ltb_spec (cf_capacity_bytes cfg) (rh_file_bytes h)); [done|]. intros _.
  pose proof (layout_tokens_inside _ _ _ _ _ (Nat2Z.is_nonneg _) (tr_regions _ _ _ Hreq) Hl).
  unfold HEADER_BYTES, ALIGNMENT in *. lia.
Qed.

Definition fills (w : RecordWriter) (data : list (nat * list Z)) : option RecordWriter :=
  foldl (λ ow d, ow ≫= λ w, fill_region w d.1 d.2) (Some w) data.

Lemma fills_none data : foldl (λ ow d, ow ≫= λ w, fill_region w d.1 d.2) None data = None.
Proof. induction data as [|d data IH]; [done|]. exact IH. Qed.
Lemma fills_ok data w w' :
  writer_ok w → Forall (λ d, Forall byte d.2) data → fills w data = Some w' →
  writer_ok w' ∧ wr_header w' = wr_header w ∧ wr_tokens w' = wr_tokens w.
Proof.
  intros Hw Hd. revert w Hw. induction Hd as [|d data Hb _ IH]; intros w Hw; unfold fills; cbn [foldl].
  { intros [= <-]. done. }
  cbn [mbind option_bind]. destruct (fill_region w d.1 d.2) as [w1|] eqn:Hf; [|by rewrite fills_none].
  destruct (fill_region_ok w _ _ w1 Hw Hb Hf) as (Hw1 & Hh & Ht & _). intros Hrest.
  destruct (IH w1 Hw1 Hrest) as (? & ? & ?). split_and!; congruence || done.
Qed.

End durable.

(** ** Opening *)

Lemma decode_tokens_length n l : length l = (4 * n)%nat → length (decode_tokens l) = n.
Proof.
  revert l. induction n as [|n IH]; intros l Hl; [by destruct l|].
  do 4 (destruct l as [|? l]; [simpl in Hl; lia|]). cbn [decode_tokens length] in *. f_equal. apply IH. lia.
Qed.

Section opening.
Context `{!MapOrder} `{!MapOrderLaws} `{!Crc32} (cfg : StoreConfig).

Lemma load_record_meta_wf p f m :
  Forall byte (fe_bytes f) → load_record_meta p f = Ok m →
  meta_wf (rh_key_hash (mt_header m)) m ∧ mt_active_readers m = 0.
Proof.
  intros Hb. unfold load_record_meta. rewrite result_bind_Ok. intros ([h tokens] & Hr & Hm).
  destruct (Z.eqb_spec (key_hash (rh_fingerprint h) tokens) (rh_key_hash h)) as [Hk|]; [|done].
  injection Hm as <-. split; [|done]. apply read_header_and_tokens_Ok in Hr as (Hd & Hsz & Hmax & _ & ->); [|done].
  apply decode_Ok in Hd as [Hty Hv]; [|by apply region_slice_bytes].
  destruct (validate_layout_canonical _ Hty Hv) as [Hc _].
  pose proof (canonical_tokens_inside h (th_regions h Hty) Hc) as Hin. pose proof (canonical_size h Hty Hc).
  pose proof (th_token_count h Hty). pose proof (cn_tokens h Hc) as Ht.
  split; cbn; try done; [|unfold HEADER_BYTES, ALIGNMENT in *; lia].
  rewrite (decode_tokens_length (Z.to_nat (rh_token_count h))); [lia|].
  unfold tokens_range in *. cbn [fst snd] in *. apply Nat2Z.inj. rewrite region_slice_length; [lia|..]; [|lia..].
  rewrite Ht. unfold HEADER_BYTES, ALIGNMENT. lia.
Qed.

(** The record a directory entry carries, if any. *)
Definition scanned (entry : string * FileEntry) : option RecordMeta :=
  if str_contains ".tmp-" entry.1 then None
  else if negb (bool_decide (extension entry.1 = Some RECORD_EXTENSION)) then None
  else match load_record_meta (cf_root cfg +:+ "/" +:+ entry.1) entry.2 with Ok m => Some m | Err _ => None end.

Lemma scan_entry_state st entry :
  match scanned entry with
  | Some m => ps_state (scan_entry cfg st entry) =
      {| ix_records := <[rh_key_hash (mt_header m) := m]> (ix_records (ps_state st));
         ix_reserved_hashes := ix_reserved_hashes (ps_state st);
         ix_committed_bytes := wrapping_add_u64 (ix_committed_bytes (ps_state st)) (mt_file_bytes m);
         ix_reserved_bytes := ix_reserved_bytes (ps_state st); ix_statistics := ix_statistics (ps_state st) |}
  | None => ∃ f, ps_state (scan_entry cfg st entry) = with_statistics f (ps_state st)
  end.
Proof.
  destruct entry as [name f]. unfold scanned, scan_entry. cbn [fst snd].
  assert (Hid : ∃ f0, ps_state st = with_statistics f0 (ps_state st)).
  { exists id. by destruct (ps_state st). }
  destruct (str_contains ".tmp-" name); [done|]. destruct (negb _); [done|].
  destruct (load_record_meta _ f); [done|]. by eexists.
Qed.

Lemma metas_scanned_nonneg (entries : list (string * FileEntry)) :
  Forall (λ e, Forall byte (fe_bytes e.2)) entries → 0 ≤ metas_bytes (omap scanned entries).
Proof.
  induction 1 as [|e entries He _ IH]; [done|].
  change (omap scanned (e :: entries)) with
    (match scanned e with Some m => m :: omap scanned entries | None => omap scanned entries end).
  destruct (scanned e) as [m|] eqn:Hm; [|done]. cbn [metas_bytes foldr]. fold (metas_bytes (omap scanned entries)).
  unfold scanned in Hm. destruct (str_contains _ _); [done|]. destruct (negb _); [done|].
  destruct (load_record_meta _ _) eqn:Hl; [|done]. injection Hm as ->. apply load_record_meta_wf in Hl as [Hmw _]; [|done].
  pose proof (mw_positive _ _ Hmw). lia.
Qed.

(** The index the scan builds: a later file takes the place of an earlier one with
    the same key, and the bytes of both are counted. *)
Definition scan_records (l : list RecordMeta) (records : gmap Z RecordMeta) : gmap Z RecordMeta :=
  foldl (λ records m, <[rh_key_hash (mt_header m) := m]> records) records l.
Definition duplicate_bytes (entries : list (string * FileEntry)) : Z :=
  metas_bytes (omap scanned entries) - records_bytes (scan_records (omap scanned entries) ∅).

Lemma scanned_wf e m :
  Forall byte (fe_bytes e.2) → scanned e = Some m →
  meta_wf (rh_key_hash (mt_header m)) m ∧ mt_active_readers m = 0.
Proof.
  intros Hb Hm. unfold scanned in Hm. destruct (str_contains _ _); [done|]. destruct (negb _); [done|].
  destruct (load_record_meta _ _) eqn:Hl; [|done]. injection Hm as ->. by apply load_record_meta_wf in Hl.
Qed.
Lemma scanned_all_wf (entries : list (string * FileEntry)) :
  Forall (λ e, Forall byte (fe_bytes e.2)) entries →
  Forall (λ m, meta_wf (rh_key_hash (mt_header m)) m ∧ mt_active_readers m = 0) (omap scanned entries).
Proof.
  intros Hb. apply Forall_forall. intros m (e & He & Hm)%list_elem_of_omap.
  rewrite Forall_forall in Hb. by eapply scanned_wf; [apply Hb|].
Qed.

Lemma scan_records_Some l records h m :
  scan_records l records !! h = Some m → records !! h = Some m ∨ m ∈ l ∧ rh_key_hash (mt_header m) = h.
Proof.
  revert records. induction l as [|x l IH]; intros records; [by left|]. intros [Hm|[Hm Hk]]%IH; [|by right; set_solver].
  apply lookup_insert_Some in Hm as [[<- <-]|[_ Hm]]; [right; set_solver|by left].
Qed.
Lemma scan_records_other l records h :
  h ∉ ((λ m, rh_key_hash (mt_header m)) <$> l) → scan_records l records !! h = records !! h.
Proof.
  revert records. induction l as [|x l IH]; intros records; [done|]. rewrite fmap_cons, not_elem_of_cons.
  intros [Hne Hl]. cbn. unfold scan_records in IH. rewrite IH by done. by rewrite lookup_insert_ne.
Qed.
Lemma scan_records_distinct l records m :
  NoDup ((λ m, rh_key_hash (mt_header m)) <$> l) → m ∈ l →
  scan_records l records !! rh_key_hash (mt_header m) = Some m.
Proof.
  revert records. induction l as [|x l IH]; intros records; [intros _ ?%not_elem_of_nil; done|].
  rewrite fmap_cons. intros [Hx Hnd]%NoDup_cons [->|Hm]%elem_of_cons; [|by apply IH].
  cbn. pose proof (scan_records_other l (<[rh_key_hash (mt_header x) := x]> records) _ Hx) as He.
  unfold scan_records in He. by rewrite He, lookup_insert_eq.
Qed.
(** Bytes are counted at least once, and exactly once without duplicates. *)
Lemma scan_records_bytes l records :
  Forall (λ m, meta_wf (rh_key_hash (mt_header m)) m ∧ mt_active_readers m = 0) l →
  (∀ h m, records !! h = Some m → 0 < mt_file_bytes m) →
  records_bytes (scan_records l records) ≤ metas_bytes l + records_bytes records ∧
  (NoDup ((λ m, rh_key_hash (mt_header m)) <$> l) →
   (∀ m, m ∈ l → records !! rh_key_hash (mt_header m) = None) →
   records_bytes (scan_records l records) = metas_bytes l + records_bytes records).
Proof.
  intros Hl. revert records. induction Hl as [|x l [Hx _] _ IH]; intros records Hpos; [cbn; lia|].
  pose proof (mw_positive _ _ Hx). cbn [scan_records foldl metas_bytes foldr]. fold (metas_bytes l).
  fold (scan_records l (<[rh_key_hash (mt_header x) := x]> records)).
  destruct (IH (<[rh_key_hash (mt_header x) := x]> records)) as [Hle Heq].
  { intros h m. rewrite lookup_insert_Some. intros [[_ <-]|[_ Hm]]; [done|by eapply Hpos]. }
  assert (records_bytes (<[rh_key_hash (mt_header x) := x]> records) ≤ mt_file_bytes x + records_bytes records) as Hins.
  { rewrite <- insert_delete_eq, records_bytes_insert by apply lookup_delete_eq.
    destruct (records !! rh_key_hash (mt_header x)) as [old|] eqn:Ho; [|by rewrite delete_id].
    rewrite (records_bytes_delete _ _ old) by done. pose proof (Hpos _ _ Ho). lia. }
  split; [lia|]. rewrite fmap_cons. intros [Hnin Hnd]%NoDup_cons Hfresh. rewrite Heq; [|done|].
  - rewrite records_bytes_insert by (apply Hfresh; set_solver). lia.
  - intros m Hm. rewrite lookup_insert_ne; [apply Hfresh; set_solver|]. intros He. apply Hnin.
    apply list_elem_of_fmap. eauto.
Qed.

Lemma duplicate_bytes_spec (entries : list (string * FileEntry)) :
  Forall (λ e, Forall byte (fe_bytes e.2)) entries →
  0 ≤ duplicate_bytes entries ∧
  (NoDup ((λ m, rh_key_hash (mt_header m)) <$> omap scanned entries) → duplicate_bytes entries = 0).
Proof.
  intros Hb. destruct (scan_records_bytes (omap scanned entries) ∅ (scanned_all_wf entries Hb)) as [Hle Heq]; [done|].
  change (records_bytes ∅) with 0 in *. unfold duplicate_bytes. split; [lia|]. intros Hnd. rewrite Heq by done. lia.
Qed.

Lemma scan_spec (entries : list (string * FileEntry)) st :
  Forall (λ e, Forall byte (fe_bytes e.2)) entries → 0 ≤ ix_committed_bytes (ps_state st) →
  ix_committed_bytes (ps_state st) + metas_bytes (omap scanned entries) ≤ u64_max →
  let s := ps_state (foldl (scan_entry cfg) st entries) in
  ix_records s = scan_records (omap scanned entries) (ix_records (ps_state st)) ∧
  ix_committed_bytes s = ix_committed_bytes (ps_state st) + metas_bytes (omap scanned entries) ∧
  ix_reserved_bytes s = ix_reserved_bytes (ps_state st) ∧ ix_reserved_hashes s = ix_reserved_hashes (ps_state st).
Proof.
  intros Hb. revert st. induction Hb as [|e entries He Hb IH]; intros st Hn Hsum; cbn [foldl].
  { split_and!; try done. cbn. lia. }
  pose proof (scan_entry_state st e) as Hs. pose proof (metas_scanned_nonneg entries Hb).
  change (omap scanned (e :: entries)) with
    (match scanned e with Some m => m :: omap scanned entries | None => omap scanned entries end) in *.
  destruct (scanned e) as [m|] eqn:Hm.
  - pose proof (mw_positive _ _ (proj1 (scanned_wf e m He Hm))).
    cbn [metas_bytes foldr] in *. fold (metas_bytes (omap scanned entries)) in *.
    specialize (IH (scan_entry cfg st e)). rewrite Hs in IH. cbn in IH.
    rewrite wrapping_add_u64_exact in IH by lia. destruct IH as (-> & -> & -> & ->); [lia..|].
    split_and!; [done|lia|done..].
  - destruct Hs as [f Hs]. specialize (IH (scan_entry cfg st e)). rewrite Hs in IH. by apply IH.
Qed.

Lemma scan_Ok listing st st' :
  scan cfg listing st = (Ok (), st') ↔
  ∃ entries, listing = Ok <$> entries ∧ st' = foldl (scan_entry cfg) st entries.
Proof.
  revert st. induction listing as [|[entry|e] listing IH]; intros st; cbn [scan].
  - split; [intros [= <-]; by exists []|]. by intros ([] & ? & ->).
  - rewrite IH. split.
    + intros (entries & -> & ->). by exists (entry :: entries).
    + intros ([|x entries] & [=] & ->). subst. by exists entries.
  - split; [done|]. by intros ([] & ? & _).
Qed.

(** Exhaustion leaves only pinned records. *)
Lemma enforce_loop_exhausted {excess} fuel capacity incoming s victims s' victims' :
  index_wf excess s → ix_committed_bytes s + ix_reserved_bytes s + incoming ≤ u64_max → 0 ≤ incoming →
  enforce_loop fuel capacity incoming s victims = Some (s', victims', true) →
  capacity < ix_committed_bytes s' + ix_reserved_bytes s' + incoming ∧
  (∀ h m, ix_records s' !! h = Some m → mt_active_readers m ≠ 0).
Proof.
  revert s victims. induction fuel as [|fuel IH]; intros s victims Hw Hb Hi; cbn [enforce_loop].
  all: pose proof (committed_nonneg s Hw) as Hn; pose proof (iw_reserved s Hw).
  all: rewrite !wrapping_add_u64_exact by (rewrite ?wrapping_add_u64_exact; lia).
  all: destruct (Z.leb_spec (ix_committed_bytes s + ix_reserved_bytes s + incoming) capacity) as [|Hgt]; [done|];
    destruct (Z.eqb_spec capacity 0); [done|]; cbn [orb].
  { done. }
  destruct (min_by _ _) as [victim|] eqn:Hv.
  - apply min_by_elem, list_elem_of_filter in Hv as [He Hv]. apply (elem_of_values (excess := excess)) in Hv; [|done]. rewrite Hv. intros Hrun.
    pose proof (remove_unpinned_shrinks count_capacity_eviction s _ victim Hw ltac:(lia) Hv
      ltac:(unfold evictable in He; lia)) as Hs.
    eapply IH; [apply Hs| |done|exact Hrun]. pose proof (sh_committed _ _ Hs). rewrite (sh_reserved _ _ Hs). lia.
  - intros [= <- <-]. split; [done|]. intros h m Hm Ha.
    assert (Hin : m ∈ base.filter (λ m, evictable m = true) (values (ix_records s))).
    { apply list_elem_of_filter. split; [unfold evictable; lia|]. apply (elem_of_values (excess := excess)); [done|].
      by rewrite (mw_key _ _ (iw_meta s Hw h m Hm)). }
    destruct (min_by_is_Some eviction_cmp (base.filter (λ m, evictable m = true) (values (ix_records s))))
      as [y Hy]; [|congruence]. intros Hnil. rewrite Hnil in Hin. by apply not_elem_of_nil in Hin.
Qed.

Lemma remove_victims_state victims st : ps_state (remove_victims victims st) = ps_state st.
Proof. unfold remove_victims. revert st. induction victims as [|p victims IH]; intros st; [done|]. cbn [foldl]. by rewrite IH. Qed.

(** The state before the capacity is enforced. *)
Lemma scanned_store_wf files (entries : list (string * FileEntry)) :
  Forall (λ e, Forall byte (fe_bytes e.2)) entries → metas_bytes (omap scanned entries) ≤ u64_max →
  let s := ps_state (foldl (scan_entry cfg)
    {| ps_state := index_empty; ps_resident := tier_default; ps_outstanding := 0; ps_files := files |} entries) in
  index_wf (duplicate_bytes entries) s ∧ (∀ h m, ix_records s !! h = Some m → mt_active_readers m = 0) ∧
  ix_records s = scan_records (omap scanned entries) ∅ ∧
  ix_committed_bytes s = metas_bytes (omap scanned entries) ∧ ix_reserved_bytes s = 0 ∧ ix_reserved_hashes s = ∅.
Proof.
  intros Hb Hsum s. destruct (scan_spec entries
    {| ps_state := index_empty; ps_resident := tier_default; ps_outstanding := 0; ps_files := files |} Hb)
    as (Hr & Hc & Hrb & Hrh); [done..|]. fold s in Hr, Hc, Hrb, Hrh. cbn in Hr, Hc, Hrb, Hrh.
  pose proof (scanned_all_wf entries Hb) as Hall. rewrite Forall_forall in Hall.
  assert (Hin : ∀ h m, ix_records s !! h = Some m → m ∈ omap scanned entries ∧ rh_key_hash (mt_header m) = h).
  { intros h m. rewrite Hr. intros [Hm|?]%scan_records_Some; [by rewrite lookup_empty in Hm|done]. }
  split_and!; try done.
  - split; [|rewrite Hc, Hr; unfold duplicate_bytes; lia|by apply duplicate_bytes_spec|lia].
    intros h m [Hm <-]%Hin. by apply Hall.
  - intros h m [Hm _]%Hin. by apply Hall.
Qed.

(** What a successful [open] gives, for every directory whose entries can be read: at
    least the bytes of the indexed records are counted, within the budget. *)
Lemma open_opened usize_max created files entries st :
  0 < cf_capacity_bytes cfg → Forall (λ e, Forall byte (fe_bytes e.2)) entries →
  metas_bytes (omap scanned entries) ≤ u64_max →
  open cfg usize_max created files (Ok (Ok <$> entries)) = (Ok (), st) →
  opened cfg (duplicate_bytes entries) (ps_state st) ∧
  (∀ h m, ix_records (ps_state st) !! h = Some m → m ∈ omap scanned entries) ∧
  (metas_bytes (omap scanned entries) ≤ cf_capacity_bytes cfg →
   ix_records (ps_state st) = scan_records (omap scanned entries) ∅).
Proof.
  intros Hcap Hb Hsum. unfold open. destruct created as [[]|]; [|done].
  destruct (scan _ _ _) as [[[]|] st1] eqn:Hscan; [|done]. apply scan_Ok in Hscan as (entries' & He & ->).
  apply list_fmap_eq_inj in He as <-; [|by intros x y [= <-]]. destruct (_ <? _); [done|].
  destruct (scanned_store_wf files entries Hb Hsum) as (Hw & Hz & Hr & Hc & Hrb & Hrh).
  set (st1 := foldl (scan_entry cfg) _ entries) in *. unfold enforce_capacity_for.
  pose proof (metas_scanned_nonneg entries Hb).
  destruct (enforce_region _ _ _) as [[[s victims] exhausted]|] eqn:Hen; [|done].
  destruct exhausted; [done|]. intros [= <-]. rewrite remove_victims_state. cbn [ps_state with_state].
  pose proof Hen as Hen'. apply (enforce_loop_effect (excess := duplicate_bytes entries)) in Hen' as [Hs Hfit]; [|done|lia|lia].
  specialize (Hfit eq_refl ltac:(lia)). rewrite (sh_reserved _ _ Hs), Hrb in Hfit. split_and!.
  - split; [apply Hs|by rewrite (sh_reserved _ _ Hs)|by rewrite (sh_hashes _ _ Hs)|lia|].
    intros h m Hm. apply (Hz h). by apply (sh_sub _ _ Hs).
  - intros h m Hm. apply (sh_sub _ _ Hs) in Hm. rewrite Hr in Hm.
    apply scan_records_Some in Hm as [Hm|[Hm _]]; [by rewrite lookup_empty in Hm|done].
  - intros Hle. rewrite <- Hr. unfold enforce_region in Hen. cbn [enforce_loop] in Hen.
    rewrite !wrapping_add_u64_exact in Hen by (rewrite ?wrapping_add_u64_exact; lia).
    destruct (Z.leb_spec (ix_committed_bytes (ps_state st1) + ix_reserved_bytes (ps_state st1) + 0)
      (cf_capacity_bytes cfg)); [|lia]. cbn in Hen. by injection Hen as <-.
Qed.

(** Without two files of the same key, [open] always succeeds. *)
Lemma open_succeeds usize_max files entries :
  0 < cf_capacity_bytes cfg → cf_resident_capacity_bytes cfg ≤ usize_max →
  Forall (λ e, Forall byte (fe_bytes e.2)) entries →
  NoDup ((λ m, rh_key_hash (mt_header m)) <$> omap scanned entries) →
  metas_bytes (omap scanned entries) ≤ u64_max →
  ∃ st, open cfg usize_max (Ok ()) files (Ok (Ok <$> entries)) = (Ok (), st).
Proof.
  intros Hcap Hres Hb Hnd Hsum. unfold open. rewrite (proj2 (scan_Ok _ _ _)) by eauto.
  destruct (Z.ltb_spec usize_max (cf_resident_capacity_bytes cfg)); [lia|].
  destruct (scanned_store_wf files entries Hb Hsum) as (Hw & Hz & Hr & Hc & Hrb & Hrh).
  set (st1 := foldl (scan_entry cfg) _ entries) in *. unfold enforce_capacity_for.
  rewrite (proj2 (duplicate_bytes_spec entries Hb) Hnd) in Hw.
  pose proof (metas_scanned_nonneg entries Hb).
  destruct (enforce_region _ _ _) as [[[s victims] exhausted]|] eqn:He.
  2:{ rewrite (enforce_region_reference (excess := 0)) in He by (done || lia). done. }
  destruct exhausted; [exfalso|eauto].
  assert (Hbound : ix_committed_bytes (ps_state st1) + ix_reserved_bytes (ps_state st1) + 0 ≤ u64_max) by lia.
  pose proof (enforce_loop_effect _ _ _ _ _ _ _ _ Hw Hbound (Z.le_refl 0) He) as [Hs _].
  apply (enforce_loop_exhausted (excess := 0)) in He as [Hgt Hpin]; [|done|lia|lia].
  assert (Hemp : ix_records s = ∅).
  { apply map_eq. intros h. rewrite lookup_empty. apply eq_None_not_Some. intros [m Hm].
    apply (Hpin h m Hm), (Hz h). by apply (sh_sub _ _ Hs). }
  rewrite (iw_committed _ (sh_wf _ _ Hs)), Hemp, (sh_reserved _ _ Hs), Hrb in Hgt.
  change (records_bytes ∅) with 0 in Hgt. lia.
Qed.

(** C34: capacity accounting is exact.  A store with a budget (of at most a quarter of
    the 64-bit range) is opened on a directory of any files whose records together
    have less than 2^64 bytes.  From then on, whatever the interleaving of captures,
    commits, failures, lookups, evictions and expiry, the committed bytes are the sum
    of the indexed records and of one constant, the bytes of the files that [open]
    counted but whose key another file took over, which is zero when no two files
    carry the same key; the reserved bytes are the exact sum of the outstanding
    reservations; the admitted captures fit into the budget together with everything
    committed; and at most two writers are outstanding. *)
Theorem capacity_accounting_exact usize_max created files entries st w :
  0 < cf_capacity_bytes cfg → 4 * cf_capacity_bytes cfg ≤ u64_max →
  Forall (λ e, Forall byte (fe_bytes e.2)) entries → metas_bytes (omap scanned entries) ≤ u64_max →
  open cfg usize_max created files (Ok (Ok <$> entries)) = (Ok (), st) →
  rtc (λ w w', ∃ l, world_step cfg l w w') (world_new (ps_state st)) w →
  ix_committed_bytes (w_index w) = records_bytes (ix_records (w_index w)) + duplicate_bytes entries ∧
  0 ≤ duplicate_bytes entries ∧
  (NoDup ((λ m, rh_key_hash (mt_header m)) <$> omap scanned entries) → duplicate_bytes entries = 0) ∧
  ix_reserved_bytes (w_index w) = sum_captures reserves (w_captures w) ∧
  ix_committed_bytes (w_index w) + sum_captures writing (w_captures w) ≤ cf_capacity_bytes cfg ∧
  Z.of_nat (size (w_captures w)) ≤ MAX_OUTSTANDING_COMMITS.
Proof.
  intros Hcap Hwide Hb Hsum Ho Hr. destruct (open_opened _ _ _ _ _ Hcap Hb Hsum Ho) as [Hop _].
  destruct (accounting_reachable cfg Hcap Hwide _ _ Hop Hr) as (? & ? & ? & ?).
  destruct (duplicate_bytes_spec entries Hb). by split_and!.
Qed.
End opening.

(** ** Survival *)

Section survival.
Context `{!MapOrder} `{!MapOrderLaws} `{!Crc32} `{!Crc32Laws} `{!Pread} `{!PreadLaws} `{!TargetOs} (cfg : StoreConfig).

Lemma commit_prepared_publishes now job st st' :
  commit_prepared cfg now (Ok ()) job st = (Ok (), st') →
  ps_files st' !! record_path cfg (rh_key_hash (pc_header job))
    = Some {| fe_bytes := pc_buffer job; fe_modified := now |}.
Proof.
  unfold commit_prepared. cbv zeta.
  match goal with |- context [match ?b with Ok _ => _ | Err _ => _ end] => destruct b as [blob|e]; [|done] end.
  destruct (commit_region _ _ _ _ _) as [prior s]. intros [= <-]. apply lookup_insert_eq.
Qed.

(** A record that is the only one of its key in a directory that fits into the budget
    is indexed. *)
Lemma open_indexes usize_max files entries name f m :
  0 < cf_capacity_bytes cfg ≤ u64_max → cf_resident_capacity_bytes cfg ≤ usize_max →
  Forall (λ e, Forall byte (fe_bytes e.2)) entries →
  NoDup ((λ m, rh_key_hash (mt_header m)) <$> omap (scanned cfg) entries) →
  metas_bytes (omap (scanned cfg) entries) ≤ cf_capacity_bytes cfg →
  (name, f) ∈ entries → scanned cfg (name, f) = Some m →
  ∃ st, open cfg usize_max (Ok ()) files (Ok (Ok <$> entries)) = (Ok (), st) ∧
    ix_records (ps_state st) !! rh_key_hash (mt_header m) = Some m.
Proof.
  intros Hcap Hres Hb Hnd Hsum Hin Hm.
  destruct (open_succeeds cfg usize_max files entries) as [st Ho]; [lia|done|done|done|lia|].
  exists st. split; [done|]. apply open_opened in Ho as (_ & _ & Hr); [|lia|done|lia].
  rewrite (Hr Hsum). apply scan_records_distinct; [done|]. apply list_elem_of_omap. eauto.
Qed.

(** An unreadable record is removed by [open] and not indexed. *)
Lemma open_removes usize_max files hash f :
  0 < cf_capacity_bytes cfg → cf_resident_capacity_bytes cfg ≤ usize_max →
  is_ok (load_record_meta (record_path cfg hash) f) = false →
  ∃ st, open cfg usize_max (Ok ()) files (Ok [Ok (record_name hash, f)]) = (Ok (), st) ∧
    ix_records (ps_state st) = ∅ ∧ ps_files st = delete (record_path cfg hash) files.
Proof.
  intros Hcap Hres Hl. destruct (record_name_scanned hash) as [Ht He].
  unfold open. cbn [scan scan_entry]. rewrite Ht, He, bool_decide_true by done. cbn [negb].
  fold (record_path cfg hash). destruct (load_record_meta (record_path cfg hash) f); [done|].
  destruct (Z.ltb_spec usize_max (cf_resident_capacity_bytes cfg)); [lia|].
  unfold enforce_capacity_for, enforce_region. cbn -[Z.leb wrapping_add_u64].
  change (wrapping_add_u64 (wrapping_add_u64 0 0) 0) with 0.
  destruct (Z.leb_spec 0 (cf_capacity_bytes cfg)); [|lia]. cbn. by eexists.
Qed.

End survival.

(** ** Concrete lives of records *)

Module Life.

#[local] Instance map_order : MapOrder := PrefixThreads.Schedule.map_order.
#[local] Instance map_order_laws : MapOrderLaws := PrefixThreads.Schedule.map_order_laws.
#[local] Instance checksum : Crc32 := PrefixFormat.Sample.checksum.
#[local] Instance checksum_laws : Crc32Laws := PrefixFormat.Sample.checksum_laws.
#[local] Instance device : Pread := PrefixIo.SampleRecord.device.
#[local] Instance linux : TargetOs := PrefixIo.SampleRecord.linux.

Definition config : StoreConfig :=
  {| cf_root := "root"; cf_capacity_bytes := 20000; cf_ttl_seconds := 60; cf_minimum_token_count := 1;
     cf_resident_capacity_bytes := 0; cf_direct_reads := false |}.
Definition fingerprint : list Z := replicate 32 9.
Definition regions : list RegionDescription := [ {| rg_name := "state"; rg_byte_count := 10 |} ].
Definition payload : list Z := replicate 10 90.
Definition fresh : Store :=
  {| ps_state := index_empty; ps_resident := tier_default; ps_outstanding := 0; ps_files := ∅ |}.

Lemma request_typed tokens : Forall in_u32 tokens → typed_request fingerprint tokens regions.
Proof.
  intros Ht. split; [|done|].
  - split; [reflexivity|]. apply Forall_replicate. split; [discriminate|reflexivity].
  - repeat constructor; vm_compute; congruence.
Qed.

(** The writer of a capture, and the store with it; nothing when it is rejected. *)
Definition capture (tokens : list Z) (st : Store) : option (RecordWriter * Store) :=
  match begin_capture config fingerprint tokens regions true st with (Ok w, st) => Some (w, st) | _ => None end.
(** A capture that is filled and committed at time [now]. *)
Definition store_record (now : Z) (tokens : list Z) (st : Store) : option Store :=
  '(w, st) ← capture tokens st;
  w ← fill_region w 0 payload;
  match commit config now (Ok ()) w st with (Ok _, st) => Some st | _ => None end.

Definition started : RecordWriter * Store := default ({| wr_header := SampleRecord.header; wr_tokens := []; wr_buffer := [] |}, fresh) (capture [1; 2] fresh).
Definition filled : RecordWriter := default (fst started) (fills (fst started) [(0%nat, payload)]).

Definition prepared : PreparedCommit :=
  default {| pc_header := SampleRecord.header; pc_tokens := []; pc_buffer := []; pc_promote_resident := true |}
    (match prepare filled true (snd started) with (Ok job, _) => Some job | _ => None end).
Definition sealed_file : FileEntry := {| fe_bytes := pc_buffer prepared; fe_modified := 7 |}.


(** A record as the store leaves it on disk. *)
Definition record_bytes (tokens : list Z) : list Z :=
  match store_record 7 tokens fresh with
  | Some st => match ps_files st !! record_path config (key_hash fingerprint tokens) with
               | Some f => fe_bytes f | None => [] end
  | None => []
  end.
Definition entry (name : string) (tokens : list Z) : string * FileEntry :=
  (name, {| fe_bytes := record_bytes tokens; fe_modified := 7 |}).
Definition directory : list (string * FileEntry) :=
  [entry (record_name (key_hash fingerprint [1; 2])) [1; 2]; ("x.tmp-1-0"%string, {| fe_bytes := [1]; fe_modified := 1 |});
   ("bad.letsinfer_prefix"%string, {| fe_bytes := [1; 2; 3]; fe_modified := 1 |})].

Lemma directory_opens : is_ok (fst (open config u64_max (Ok ()) ∅ (Ok (Ok <$> directory)))) = true.
Proof. vm_compute. reflexivity. Qed.

(** A directory with a record and its copy, and a store on it that captures. *)
Definition roomy : StoreConfig := PrefixThreads.Schedule.config 40000.
Definition twice : list (string * FileEntry) := [entry "a.letsinfer_prefix" [1; 2]; entry "b.letsinfer_prefix" [1; 2]].
Definition copied : Store := snd (open roomy u64_max (Ok ()) ∅ (Ok (Ok <$> twice))).
Definition commands : list PrefixThreads.Schedule.Command :=
  [PrefixThreads.Schedule.Lookup 5 [1; 2; 8]; PrefixThreads.Schedule.Acquire 1 [3; 4];
   PrefixThreads.Schedule.Reserve 1; PrefixThreads.Schedule.Enforce 1; PrefixThreads.Schedule.Acquire 2 [5; 6]].
Definition busy : World :=
  default (world_new (ps_state copied)) (PrefixThreads.Schedule.exec_all 40000 true commands (world_new (ps_state copied))).

Lemma capacity_accounting_exact_witness :
  duplicate_bytes roomy twice = 12288 ∧ ix_committed_bytes (w_index busy) = 24576 ∧
  ix_committed_bytes (w_index busy) = records_bytes (ix_records (w_index busy)) + duplicate_bytes roomy twice ∧
  ix_reserved_bytes (w_index busy) = 12288 ∧
  ix_committed_bytes (w_index busy) + sum_captures writing (w_captures busy) ≤ 40000.
Proof.
  assert (Hr : PrefixThreads.Schedule.exec_all 40000 true commands (world_new (ps_state copied)) = Some busy)
    by (vm_compute; reflexivity).
  apply PrefixThreads.Schedule.exec_all_rtc in Hr.
  assert (Hcap : 0 < cf_capacity_bytes roomy) by (vm_compute; reflexivity).
  assert (Hwide : 4 * cf_capacity_bytes roomy ≤ u64_max) by (vm_compute; congruence).
  assert (Hb : Forall (λ e : string * FileEntry, Forall byte (fe_bytes e.2)) twice).
  { constructor; [|constructor; [|constructor]]; apply PrefixFormat.Sample.forallb_byte; vm_compute; reflexivity. }
  assert (Hsum : metas_bytes (omap (scanned roomy) twice) ≤ u64_max) by (vm_compute; congruence).
  assert (Ho : open roomy u64_max (Ok ()) ∅ (Ok (Ok <$> twice)) = (Ok (), copied)) by (vm_compute; reflexivity).
  destruct (capacity_accounting_exact roomy u64_max (Ok ()) ∅ twice copied busy Hcap Hwide Hb Hsum Ho Hr)
    as (Hc & _ & _ & _ & Hfit & _).
  split; [vm_compute; reflexivity|]. split; [vm_compute; reflexivity|]. split; [exact Hc|].
  split; [vm_compute; reflexivity|exact Hfit].
Defined.

(** Two files that carry the same key are counted twice but indexed once: opening a directory that holds a record and its copy, with a budget for one record, evicts the record and goes on counting the bytes of the other, with nothing indexed. *)
Theorem open_counts_duplicate_keys_twice :
  ∃ st, open config u64_max (Ok ()) ∅ (Ok (Ok <$> twice)) = (Ok (), st) ∧
    ix_committed_bytes (ps_state st) = 12288 ∧ ix_records (ps_state st) = ∅.
Proof.
  set (run := open config u64_max (Ok ()) ∅ (Ok (Ok <$> twice))).
  assert (Ht : is_ok (fst run) && (ix_committed_bytes (ps_state (snd run)) =? 12288)
    && (size (ix_records (ps_state (snd run))) =? 0)%nat = true) by (vm_compute; reflexivity).
  destruct run as [[[]|] st]; [|done]. cbn [fst snd is_ok andb] in Ht. exists st.
  apply andb_prop in Ht as [Hc%Z.eqb_eq Hs%Nat.eqb_eq]. split_and!; [done..|]. by apply map_size_empty_inv.
Qed.

(** [reclaim_expired] is interrupted between its region and the removal of its
    victims' files, while another thread captures the same prefix again. *)
Definition interrupted : option (Store * list path) :=
  st ← store_record 7 [1; 2] fresh;
  let '(s, victims) := expire_region (cf_ttl_seconds config) 1000 (ps_state st) in
  st ← store_record 1000 [1; 2] (with_state s st);
  Some (st, victims).

(** Files are removed after the index mutex is released, by a path the next record of the same key reuses: a prefix captured again and committed durably in between loses its file, and stays in the index. *)
Theorem delayed_removal_deletes_new_record :
  ∃ st victims m, interrupted = Some (st, victims) ∧
    ix_records (ps_state st) !! key_hash fingerprint [1; 2] = Some m ∧
    is_Some (ps_files st !! mt_path m) ∧
    ix_records (ps_state (remove_victims victims st)) !! key_hash fingerprint [1; 2] = Some m ∧
    ps_files (remove_victims victims st) !! mt_path m = None.
Proof.
  assert (Ht : match interrupted with
    | Some (st, victims) =>
      match ix_records (ps_state st) !! key_hash fingerprint [1; 2] with
      | Some m => match ps_files st !! mt_path m, ps_files (remove_victims victims st) !! mt_path m with
                  | Some _, None => true | _, _ => false end
      | None => false
      end
    | None => false
    end = true) by (vm_compute; reflexivity).
  destruct interrupted as [[st victims]|]; [|done].
  destruct (ix_records (ps_state st) !! _) as [m|] eqn:Hm; [|done]. exists st, victims, m.
  destruct (ps_files st !! mt_path m) eqn:Hf; [|done].
  destruct (ps_files (remove_victims victims st) !! mt_path m) eqn:Hg; [done|].
  rewrite remove_victims_state, Hm. split_and!; done.
Qed.
End Life.
