(* ===== verification/AuthKeys.v ===== *)
(** * API keys, their records and their tokens

    [core/authentication]: [li_api_key.rs], [li_authentication_error.rs],
    [li_authentication_event.rs], [li_authentication_store.rs],
    [li_authentication_cryptography.rs] and the functions of
    [li_authentication_manager.rs] that do not call a provider.  A token is
    [li_<identity>_<secret>]; the store keeps a salted verifier of the secret.

    The theorems: tokens round-trip and are parsed in exactly one form, and the
    name under which a rotation archives a key is always valid. *)

From Stdlib Require Import String.
From S2P Require Import Prelude Values Text GatewayContract.

From Stdlib Require Ascii.

Import (notations) Stdlib.Strings.Ascii.

(** ** Errors *)

Inductive AuthenticationStoreError := AuthConflict | AuthCorrupt | AuthUnavailable.
#[export] Instance AuthenticationStoreError_eq_dec : EqDecision AuthenticationStoreError.
Proof. solve_decision. Defined.

Inductive AuthenticationError :=
| AuthInterface (error : InterfaceError)
| AuthInvalidPolicy (reason : string)
| AuthNotFound
| AuthUnauthorized
| AuthEntropyUnavailable
| AuthStore (error : AuthenticationStoreError).

(** [?] on an interface or a store error. *)
Definition from_interface {A} (r : result InterfaceError A) : result AuthenticationError A :=
  match r with Ok a => Ok a | Err e => Err (AuthInterface e) end.
Definition from_store {A} (r : result AuthenticationStoreError A) : result AuthenticationError A :=
  match r with Ok a => Ok a | Err e => Err (AuthStore e) end.

(** ** Policies *)

Definition MAX_MODEL_SCOPES : nat := 128.

Inductive ApiKeyModelScope := ScopeAll | ScopeSelected (models : list string).

Definition scope_selected (models : list string) : result AuthenticationError ApiKeyModelScope :=
  if bool_decide (models = []) || (MAX_MODEL_SCOPES <? length models)%nat
     || negb (size (list_to_set models : gset string) =? length models)%nat
  then Err (AuthInvalidPolicy "selected model scopes must be non-empty, unique, and bounded")
  else Ok (ScopeSelected models).

Definition scope_permits (scope : ApiKeyModelScope) (model : string) : bool :=
  match scope with
  | ScopeAll => true
  | ScopeSelected models => bool_decide (model ∈ models)
  end.

Definition selected_models (scope : ApiKeyModelScope) : option (list string) :=
  match scope with ScopeAll => None | ScopeSelected models => Some models end.

Record ApiKeyPolicy := {
  ap_model_scope : ApiKeyModelScope;
  ap_expires_at : option Z;
  ap_limits : ApiKeyLimits;
  ap_tenant : option string;
  ap_application : option string;
}.

(** ** Keys *)

Record ApiKey := {
  ak_key_id : string;
  ak_name : string;
  ak_policy : ApiKeyPolicy;
  ak_created_at : Z;
  ak_revoked_at : option Z;
  ak_rotated_from : option string;
}.

Definition ApiKey_new (key_id name : string) (policy : ApiKeyPolicy) (created_at : Z)
    (revoked_at : option Z) (rotated_from : option string) : result AuthenticationError ApiKey :=
  if is_some_and (ap_expires_at policy) (λ expires_at, expires_at <=? created_at)
  then Err (AuthInvalidPolicy "expiration must follow API-key creation")
  else if is_some_and revoked_at (λ revoked_at, revoked_at <? created_at)
  then Err (AuthInvalidPolicy "revocation cannot precede API-key creation")
  else Ok {| ak_key_id := key_id; ak_name := name; ak_policy := policy; ak_created_at := created_at;
             ak_revoked_at := revoked_at; ak_rotated_from := rotated_from |}.

Record AuthenticationPrincipal := { pr_key_id : string; pr_policy : ApiKeyPolicy }.
Definition AuthenticationPrincipal_new (api_key : ApiKey) : AuthenticationPrincipal :=
  {| pr_key_id := ak_key_id api_key; pr_policy := ak_policy api_key |}.

(** ** Records *)

Record AuthenticationRecord := {
  ar_api_key : ApiKey;
  ar_salt : list Z;
  ar_verifier : list Z;
}.
Record VersionedAuthenticationRecord := { va_record : AuthenticationRecord; va_revision : Z }.
Record AuthenticationRotation := {
  ro_revoked : VersionedAuthenticationRecord;
  ro_replacement : VersionedAuthenticationRecord;
}.

#[export] Instance ApiKeyModelScope_eq_dec : EqDecision ApiKeyModelScope.
Proof. solve_decision. Defined.
#[export] Instance ApiKeyLimits_eq_dec : EqDecision ApiKeyLimits.
Proof. solve_decision. Defined.
#[export] Instance ApiKeyPolicy_eq_dec : EqDecision ApiKeyPolicy.
Proof. solve_decision. Defined.
#[export] Instance ApiKey_eq_dec : EqDecision ApiKey.
Proof. solve_decision. Defined.
#[export] Instance AuthenticationRecord_eq_dec : EqDecision AuthenticationRecord.
Proof. solve_decision. Defined.

(** ** Events *)

Inductive AuthenticationEvent :=
| ApiKeyCreated (key_id : string)
| ApiKeyRevoked (key_id : string)
| ApiKeyRotated (revoked_key_id replacement_key_id : string)
| ApiKeyPolicyUpdated (key_id : string)
| ControllerIssued (controller_id : string)
| ControllerImported (controller_id : string)
| ControllerActivated (controller_id : string)
| ControllerEnrolled (controller_id : string)
| ControllerReplaced (controller_id : string)
| ControllerRevoked (controller_id : string).

Record AuthenticationChange (V : Type) := { ch_value : V; ch_event : option AuthenticationEvent }.
Arguments Build_AuthenticationChange {V} _ _.
Arguments ch_value {V} _.
Arguments ch_event {V} _.

(** ** Hexadecimal text *)

(** [ALPHABET[..] as char] *)
Definition hex_char (nibble : Z) : Ascii.ascii :=
  Ascii.ascii_of_N (Z.to_N (if nibble <? 10 then 48 + nibble else 97 + (nibble - 10))).

Fixpoint hexadecimal (value : list Z) : string :=
  match value with
  | [] => EmptyString
  | byte :: value =>
    String (hex_char (Z.shiftr byte 4)) (String (hex_char (Z.land byte 15)) (hexadecimal value))
  end.

Definition hexadecimal_nibble (value : Z) : option Z :=
  if in_range 48 57 value then Some (value - 48)
  else if in_range 97 102 value then Some (value - 97 + 10)
  else None.

(** The loop over [chunks_exact(2)]. *)
Fixpoint decode_chunks (source : list Z) : option (list Z) :=
  match source with
  | high :: low :: source =>
    match hexadecimal_nibble high, hexadecimal_nibble low, decode_chunks source with
    | Some high, Some low, Some output => Some (Z.lor (Z.shiftl high 4) low :: output)
    | _, _, _ => None
    end
  | _ => Some []
  end.

Definition decode_hexadecimal (BYTES : Z) (value : string) : option (list Z) :=
  if negb (str_len value =? BYTES * 2) then None else decode_chunks (bytes value).

(** ** Tokens *)

Definition KEY_IDENTIFIER_BYTES : nat := 16.
Definition KEY_SALT_BYTES : nat := 16.
Definition KEY_SECRET_BYTES : nat := 32.

Record IssuedApiKey := { is_api_key : ApiKey; is_secret : option (list Z) }.
Definition IssuedApiKey_new (api_key : ApiKey) (secret : list Z) : IssuedApiKey :=
  {| is_api_key := api_key; is_secret := Some secret |}.

(** The token and the owner without its secret. *)
Definition take_token (issued : IssuedApiKey) : option string * IssuedApiKey :=
  match is_secret issued with
  | None => (None, issued)
  | Some secret =>
    (Some ("li_" +:+ ak_key_id (is_api_key issued) +:+ "_" +:+ hexadecimal secret),
     {| is_api_key := is_api_key issued; is_secret := None |})
  end.

Record ParsedApiKey := { pk_key_id : string; pk_secret : list Z }.

Definition ParsedApiKey_parse (token : string) : option ParsedApiKey :=
  match strip_prefix "li_" token with
  | None => None
  | Some value =>
    match split_once "_"%char value with
    | None => None
    | Some (identifier, secret) =>
      if has_char "_"%char secret then None
      else match ApiKeyId_parse identifier, decode_hexadecimal (Z.of_nat KEY_SECRET_BYTES) secret with
           | Ok key_id, Some secret => Some {| pk_key_id := key_id; pk_secret := secret |}
           | _, _ => None
           end
    end
  end.

(** ** Verifiers *)

(** [Sha256::digest] of the [sha2] crate, on bytes. *)
Class Sha256Digest := sha256 : list Z → list Z.

Definition VERIFIER_DOMAIN : list Z := bytes "letsinfer-api-key-v1" ++ [0].

Definition api_key_verifier `{!Sha256Digest} (salt secret : list Z) : list Z :=
  sha256 (VERIFIER_DOMAIN ++ salt ++ secret).

(** [ct_eq] *)
Definition verifiers_equal (left right : list Z) : bool := bool_decide (left = right).

(** ** Changed copies of a record *)

Definition revoked_record (record : AuthenticationRecord) (revoked_at : Z)
  : result AuthenticationError AuthenticationRecord :=
  let api_key := ar_api_key record in
  let? api_key := ApiKey_new (ak_key_id api_key) (ak_name api_key) (ak_policy api_key)
    (ak_created_at api_key) (Some revoked_at) (ak_rotated_from api_key) in
  Ok {| ar_api_key := api_key; ar_salt := ar_salt record; ar_verifier := ar_verifier record |}.

Definition revoked_record_with_name (record : AuthenticationRecord) (archived_name : option string)
    (revoked_at : Z) : result AuthenticationError AuthenticationRecord :=
  let api_key := ar_api_key record in
  let? api_key := ApiKey_new (ak_key_id api_key) (default (ak_name api_key) archived_name)
    (ak_policy api_key) (ak_created_at api_key) (Some revoked_at) (ak_rotated_from api_key) in
  Ok {| ar_api_key := api_key; ar_salt := ar_salt record; ar_verifier := ar_verifier record |}.

Definition policy_record (record : AuthenticationRecord) (policy : ApiKeyPolicy)
  : result AuthenticationError AuthenticationRecord :=
  let api_key := ar_api_key record in
  let? api_key := ApiKey_new (ak_key_id api_key) (ak_name api_key) policy (ak_created_at api_key)
    (ak_revoked_at api_key) (ak_rotated_from api_key) in
  Ok {| ar_api_key := api_key; ar_salt := ar_salt record; ar_verifier := ar_verifier record |}.

(** [str::is_char_boundary] for an index up to the length. *)
Definition is_char_boundary (value : string) (index : nat) : bool :=
  match bytes value !! index with
  | Some b => negb (is_continuation b)
  | None => (index =? String.length value)%nat
  end.

(** [while !is_char_boundary(end) { end = end.saturating_sub(1) }]; index 0 is a
    boundary. *)
Fixpoint floor_char_boundary (value : string) (index : nat) : nat :=
  match index with
  | O => O
  | S index' => if is_char_boundary value index then index else floor_char_boundary value index'
  end.

Definition archived_rotation_name (api_key : ApiKey) : result AuthenticationError string :=
  let suffix := "-revoked-" +:+ ak_key_id api_key in
  let maximum_prefix_bytes := (128 - String.length suffix)%nat in
  let prefix_end := floor_char_boundary (ak_name api_key)
    (Nat.min (String.length (ak_name api_key)) maximum_prefix_bytes) in
  from_interface (DisplayName_parse (String.substring 0 prefix_end (ak_name api_key) +:+ suffix)).

Definition require_read_record (stored : VersionedAuthenticationRecord) (expected_key_id : string)
  : result AuthenticationError () :=
  if (va_revision stored =? 0)
     || negb (bool_decide (ak_key_id (ar_api_key (va_record stored)) = expected_key_id))
  then Err (AuthStore AuthCorrupt) else Ok ().

Definition require_committed_record (stored : VersionedAuthenticationRecord)
    (expected : AuthenticationRecord) (prior_revision : Z) : result AuthenticationError () :=
  if negb (bool_decide (va_record stored = expected)) || (va_revision stored <=? prior_revision)
  then Err (AuthStore AuthCorrupt) else Ok ().

(** ** Hexadecimal text is a bijection *)

Lemma below_16 (P : Z → Prop) n : 0 ≤ n < 16 → Forall P (Z.of_nat <$> seq 0 16) → P n.
Proof.
  intros Hn HP. rewrite Forall_forall in HP. apply HP. apply list_elem_of_fmap.
  exists (Z.to_nat n). split; [lia|]. apply elem_of_seq. lia.
Qed.

Lemma nibble_of_hex_char n : 0 ≤ n < 16 → hexadecimal_nibble (byte_val (hex_char n)) = Some n.
Proof. intros Hn. pattern n. apply below_16; [done|]. apply (bool_decide_unpack _). vm_compute. exact I. Qed.

Lemma hex_char_lower n : 0 ≤ n < 16 → is_lower_hex_byte (byte_val (hex_char n)) = true.
Proof. intros Hn. pattern n. apply below_16; [done|]. apply (bool_decide_unpack _). vm_compute. exact I. Qed.

Lemma hexadecimal_nibble_Some b n :
  hexadecimal_nibble b = Some n → 0 ≤ n < 16 ∧ byte_val (hex_char n) = b.
Proof.
  unfold hexadecimal_nibble, in_range. intros Hn.
  assert (0 ≤ n < 16 ∧ b = if n <? 10 then 48 + n else 97 + (n - 10)) as [Hr ->].
  { destruct (n <? 10) eqn:E; repeat (case_match; [|try done]); simplify_eq; try lia. }
  split; [done|]. unfold hex_char. apply byte_val_ascii. unfold byte. destruct (Z.ltb_spec n 10); lia.
Qed.

Lemma join_nibbles h l : 0 ≤ h < 16 → 0 ≤ l < 16 → Z.lor (Z.shiftl h 4) l = 16 * h + l.
Proof.
  intros Hh Hl.
  assert (Forall (λ h, Forall (λ l, (Z.lor (Z.shiftl h 4) l =? 16 * h + l) = true) (Z.of_nat <$> seq 0 16))
    (Z.of_nat <$> seq 0 16)) as Hall.
  { apply (bool_decide_unpack _). vm_compute. exact I. }
  apply Z.eqb_eq. apply (below_16 (λ l, (Z.lor (Z.shiftl h 4) l =? 16 * h + l) = true) l Hl).
  apply (below_16 (λ h, Forall (λ l, (Z.lor (Z.shiftl h 4) l =? 16 * h + l) = true) _)); done.
Qed.

Lemma split_byte b : byte b → Z.shiftr b 4 = b / 16 ∧ Z.land b 15 = b mod 16.
Proof.
  intros _. split; [by rewrite Z.shiftr_div_pow2 by lia|].
  change 15 with (Z.ones 4). by rewrite Z.land_ones by lia.
Qed.

Lemma byte_nibbles b : byte b → 0 ≤ b / 16 < 16 ∧ 0 ≤ b mod 16 < 16.
Proof. unfold byte. intros. pose proof (Z.div_mod b 16). pose proof (Z.mod_pos_bound b 16). lia. Qed.

Lemma decode_chunks_hexadecimal l : Forall byte l → decode_chunks (bytes (hexadecimal l)) = Some l.
Proof.
  induction 1 as [|b l Hb _ IH]; [done|]. cbn [hexadecimal]. rewrite !bytes_cons. cbn [decode_chunks].
  destruct (split_byte b Hb) as [-> ->]. destruct (byte_nibbles b Hb).
  rewrite !nibble_of_hex_char, IH by done. rewrite join_nibbles by done.
  do 2 f_equal. pose proof (Z.div_mod b 16). lia.
Qed.

Lemma str_len_hexadecimal l : str_len (hexadecimal l) = 2 * Z.of_nat (length l).
Proof. unfold str_len. induction l as [|b l IH]; [done|]. cbn [hexadecimal String.length length]. lia. Qed.

Lemma hexadecimal_lower l : Forall byte l → forallb is_lower_hex_byte (bytes (hexadecimal l)) = true.
Proof.
  induction 1 as [|b l Hb _ IH]; [done|]. cbn [hexadecimal]. rewrite !bytes_cons. cbn [forallb].
  destruct (split_byte b Hb) as [-> ->]. destruct (byte_nibbles b Hb).
  by rewrite !hex_char_lower, IH by done.
Qed.

Lemma decode_hexadecimal_of n l :
  Forall byte l → Z.of_nat (length l) = n → decode_hexadecimal n (hexadecimal l) = Some l.
Proof.
  intros Hl <-. unfold decode_hexadecimal. rewrite str_len_hexadecimal.
  replace (_ =? _) with true by lia. by apply decode_chunks_hexadecimal.
Qed.

Lemma string_length_2 s n :
  String.length s = S (S n) → ∃ a b s', s = String a (String b s') ∧ String.length s' = n.
Proof. destruct s as [|a [|b s']]; [done..|]. intros [= <-]. eauto. Qed.

Lemma decode_chunks_Some n s l :
  String.length s = (n * 2)%nat → decode_chunks (bytes s) = Some l →
  s = hexadecimal l ∧ Forall byte l ∧ length l = n.
Proof.
  revert s l. induction n as [|n IH]; intros s l Hs Hd.
  { destruct s; [|done]. by simplify_eq/=. }
  apply string_length_2 in Hs as (a & b & s' & -> & Hs). rewrite !bytes_cons in Hd.
  cbn [decode_chunks] in Hd. destruct (hexadecimal_nibble (byte_val a)) as [h|] eqn:Ha; [|done].
  destruct (hexadecimal_nibble (byte_val b)) as [w|] eqn:Hb; [|done].
  destruct (decode_chunks (bytes s')) as [o|] eqn:Ho; [|done].
  destruct (IH s' o Hs Ho) as (-> & Hob & <-). simplify_eq.
  apply hexadecimal_nibble_Some in Ha as [Hh Ha], Hb as [Hw Hb].
  apply byte_val_inj in Ha as <-, Hb as <-. rewrite join_nibbles by done.
  assert (byte (16 * h + w)) as Hbyte by (unfold byte; lia).
  cbn [hexadecimal length]. destruct (split_byte _ Hbyte) as [-> ->].
  replace ((16 * h + w) / 16) with h by (apply Z.div_unique with w; lia).
  replace ((16 * h + w) mod 16) with w by (apply Z.mod_unique with h; lia).
  split_and!; [done|by constructor|done].
Qed.

Lemma decode_hexadecimal_Some (n : nat) s l :
  decode_hexadecimal (Z.of_nat n) s = Some l → s = hexadecimal l ∧ Forall byte l ∧ length l = n.
Proof.
  unfold decode_hexadecimal. destruct (str_len s =? Z.of_nat n * 2) eqn:E; [|done]. simpl.
  apply decode_chunks_Some. unfold str_len in E. lia.
Qed.

(** ** Tokens *)

Definition token_of (key_id : string) (secret : list Z) : string :=
  "li_" +:+ key_id +:+ "_" +:+ hexadecimal secret.

(** The values that the types of the code allow: a parsed identity, 32 bytes. *)
Definition key_id_valid (key_id : string) : Prop := is_lower_hex key_id IDENTITY_LENGTH = true.
Definition secret_valid (secret : list Z) : Prop :=
  Forall byte secret ∧ length secret = KEY_SECRET_BYTES.

Lemma ApiKeyId_parse_Ok value key_id :
  ApiKeyId_parse value = Ok key_id ↔ value = key_id ∧ key_id_valid key_id.
Proof.
  unfold ApiKeyId_parse, IdentityValue_parse, validate, key_id_valid.
  destruct (is_lower_hex value _) eqn:E; split; [by intros [= <-]|by intros [<- _]|done|].
  intros [<- E']. congruence.
Qed.

Lemma lower_hex_no_underscore s :
  forallb is_lower_hex_byte (bytes s) = true → has_char "_"%char s = false.
Proof. intros Hs. by apply (has_char_forallb is_lower_hex_byte). Qed.

Lemma strip_prefix_Some p s v : strip_prefix p s = Some v ↔ s = p +:+ v.
Proof.
  revert s. induction p as [|a p IH]; intros s; simpl.
  { split; [by intros [= ->]|by intros ->]. }
  destruct s as [|b s]; [done|]. destruct (Ascii.eqb_spec a b) as [<-|Hne].
  - rewrite IH. split; [by intros ->|by intros [= ->]].
  - split; [done|]. intros E. change (String b s = String a (p +:+ v)) in E. congruence.
Qed.

Lemma parse_token key_id secret :
  key_id_valid key_id → secret_valid secret →
  ParsedApiKey_parse (token_of key_id secret) = Some {| pk_key_id := key_id; pk_secret := secret |}.
Proof.
  intros Hid [Hs Hl]. unfold ParsedApiKey_parse, token_of.
  rewrite (proj2 (strip_prefix_Some "li_" _ _) eq_refl).
  change ("_" +:+ hexadecimal secret) with (String "_"%char (hexadecimal secret)).
  pose proof Hid as [_ Hlow]%andb_prop. rewrite split_once_app by by apply lower_hex_no_underscore.
  rewrite lower_hex_no_underscore by by apply hexadecimal_lower.
  rewrite (proj2 (ApiKeyId_parse_Ok key_id key_id)) by done.
  by rewrite decode_hexadecimal_of by (rewrite ?Hl; done).
Qed.

Lemma parse_token_inv token p :
  ParsedApiKey_parse token = Some p →
  key_id_valid (pk_key_id p) ∧ secret_valid (pk_secret p) ∧ token = token_of (pk_key_id p) (pk_secret p).
Proof.
  unfold ParsedApiKey_parse. destruct (strip_prefix _ _) as [v|] eqn:Hp; [|done].
  apply strip_prefix_Some in Hp as ->.
  destruct (split_once _ v) as [[i s]|] eqn:Hv; [|done]. apply split_once_Some in Hv as [-> _].
  destruct (has_char _ s); [done|]. destruct (ApiKeyId_parse i) as [k|] eqn:Hi; [|done].
  apply ApiKeyId_parse_Ok in Hi as [-> Hk].
  destruct (decode_hexadecimal _ s) as [o|] eqn:Ho; [|done]. intros [= <-].
  apply decode_hexadecimal_Some in Ho as (-> & Hb & Hn). simpl. by split_and!.
Qed.

(** the bearer-token contract.  Parsing accepts exactly the texts
    [li_<identity>_<secret>] with 32 and 64 lower-case hexadecimal digits and
    returns the identity and the secret bytes they were made of, so a text is the
    token of at most one key and secret. *)
Theorem token_parses_in_one_form token key_id secret :
  ParsedApiKey_parse token = Some {| pk_key_id := key_id; pk_secret := secret |} ↔
  key_id_valid key_id ∧ secret_valid secret ∧
  ∀ api_key, ak_key_id api_key = key_id →
    take_token (IssuedApiKey_new api_key secret) =
      (Some token, {| is_api_key := api_key; is_secret := None |}).
Proof.
  unfold take_token. cbn [is_secret is_api_key IssuedApiKey_new]. split.
  - intros (Hk & Hs & Ht)%parse_token_inv. simpl in *. split_and!; [done..|]. by intros api_key ->; subst.
  - intros (Hk & Hs & Ht).
    set (k := {| ak_key_id := key_id; ak_name := ""; ak_policy := {| ap_model_scope := ScopeAll;
      ap_expires_at := None; ap_limits := {| limit_requests_per_minute := None;
      limit_tokens_per_minute := None; limit_concurrency := None; limit_context_tokens := None |};
      ap_tenant := None; ap_application := None |}; ak_created_at := 0; ak_revoked_at := None;
      ak_rotated_from := None |}).
    specialize (Ht k eq_refl). injection Ht as <-. by apply parse_token.
Qed.

(** ** The archived name of a rotated key

    A rotation that keeps the public name gives the revoked key an archived one:
    as much of the old name as fits, cut at a character boundary, and the identity.
    The cut keeps the text well-formed UTF-8, so archiving never fails. *)

(** ** Cutting UTF-8 at a character boundary *)

Definition starts_character (l : list Z) : Prop := ∀ b l', l = b :: l' → is_continuation b = false.

Lemma second_is_continuation b0 b1 :
  (if b0 =? 224 then in_range 160 191 b1
   else if b0 =? 237 then in_range 128 159 b1 else is_continuation b1) = true → is_continuation b1 = true.
Proof. unfold is_continuation, in_range. repeat case_match; lia. Qed.
Lemma second_is_continuation_4 b0 b1 :
  (if b0 =? 240 then in_range 144 191 b1
   else if b0 =? 244 then in_range 128 143 b1 else is_continuation b1) = true → is_continuation b1 = true.
Proof. unfold is_continuation, in_range. repeat case_match; lia. Qed.

Lemma utf8_cut l1 l2 : utf8_bytes (l1 ++ l2) = true → starts_character l2 → utf8_bytes l1 = true.
Proof.
  intros Hu Hc. revert Hu. induction l1 as [l1 IH] using (induction_ltof1 _ (@length Z)). unfold ltof in IH.
  destruct l1 as [|b0 r0]; [done|]. cbn [utf8_bytes app].
  destruct (b0 <? 128); [apply IH; simpl; lia|].
  destruct r0 as [|b1 r1]; cbn [app].
  { destruct l2 as [|c1 l2]; [done|]. specialize (Hc c1 l2 eq_refl).
    destruct (in_range 194 223 b0); [intros [? _]%andb_prop; congruence|].
    destruct l2 as [|c2 l2]; [done|]. destruct (in_range 224 239 b0).
    { intros [[?%second_is_continuation _]%andb_prop _]%andb_prop. congruence. }
    destruct l2 as [|c3 l2]; [done|].
    intros [[[[_ ?%second_is_continuation_4]%andb_prop _]%andb_prop _]%andb_prop _]%andb_prop. congruence. }
  destruct (in_range 194 223 b0).
  { intros [-> Hr]%andb_prop. apply IH; [simpl; lia|done]. }
  destruct r1 as [|b2 r2]; cbn [app].
  { destruct l2 as [|c2 l2]; [done|]. specialize (Hc c2 l2 eq_refl). destruct (in_range 224 239 b0).
    { intros [[_ ?]%andb_prop _]%andb_prop. congruence. }
    destruct l2 as [|c3 l2]; [done|].
    intros [[[_ ?]%andb_prop _]%andb_prop _]%andb_prop. congruence. }
  destruct (in_range 224 239 b0).
  { intros [-> Hr]%andb_prop. apply IH; [simpl; lia|done]. }
  destruct r2 as [|b3 r3]; cbn [app].
  { destruct l2 as [|c3 l2]; [done|]. specialize (Hc c3 l2 eq_refl).
    intros [[_ ?]%andb_prop _]%andb_prop. congruence. }
  intros [-> Hr]%andb_prop. apply IH; [simpl; lia|done].
Qed.

Lemma decode_utf8_app l1 l2 :
  utf8_bytes l1 = true → decode_utf8 (l1 ++ l2) = decode_utf8 l1 ++ decode_utf8 l2.
Proof.
  induction l1 as [l1 IH] using (induction_ltof1 _ (@length Z)). unfold ltof in IH.
  destruct l1 as [|b0 r0]; [done|]. cbn [utf8_bytes app decode_utf8].
  destruct (b0 <? 128); [intros Hu; rewrite IH by (simpl; lia || done); done|].
  destruct r0 as [|b1 r1]; [done|]. cbn [app].
  destruct (in_range 194 223 b0) eqn:E1.
  { intros [_ Hr]%andb_prop. unfold in_range in E1. replace (b0 <? 224) with true by lia.
    by rewrite IH by (simpl; lia || done). }
  destruct r1 as [|b2 r2]; [done|]. cbn [app].
  destruct (in_range 224 239 b0) eqn:E2.
  { intros [_ Hr]%andb_prop. unfold in_range in E2. replace (b0 <? 224) with false by lia.
    replace (b0 <? 240) with true by lia. by rewrite IH by (simpl; lia || done). }
  destruct r2 as [|b3 r3]; [done|]. cbn [app].
  intros [[[[E3 _]%andb_prop _]%andb_prop _]%andb_prop Hr]%andb_prop. unfold in_range in E3.
  replace (b0 <? 224) with false by lia. replace (b0 <? 240) with false by lia.
  by rewrite IH by (simpl; lia || done).
Qed.

(** ** Prefixes of a text *)

Lemma bytes_substring n s : bytes (String.substring 0 n s) = take n (bytes s).
Proof.
  revert n. induction s as [|a s IH]; intros [|n]; simpl; [done..|].
  by rewrite !bytes_cons, IH.
Qed.

Lemma floor_char_boundary_spec s n :
  (floor_char_boundary s n ≤ n)%nat ∧ ((n ≤ String.length s)%nat →
    floor_char_boundary s n = 0%nat ∨ starts_character (drop (floor_char_boundary s n) (bytes s))).
Proof.
  induction n as [|n [IHle IH]]; [by split; [|left]|]. cbn [floor_char_boundary].
  destruct (is_char_boundary s (S n)) eqn:Hb; [|split; [lia|]; intros; apply IH; lia].
  split; [lia|]. intros Hn. right. intros b l' Hd. unfold is_char_boundary in Hb.
  assert (bytes s !! S n = Some b) as Hs.
  { pose proof (lookup_drop (bytes s) (S n) 0) as Hl. rewrite Hd in Hl. simpl in Hl. by rewrite Nat.add_0_r in Hl. }
  rewrite Hs in Hb. by apply negb_true_iff.
Qed.

(** ** Trimmed texts *)

Lemma drop_while_length {A} (f : A → bool) l : (length (drop_while f l) ≤ length l)%nat.
Proof. induction l as [|x l IH]; simpl; [lia|]. destruct (f x); simpl; lia. Qed.

Lemma trimmed_head x l : trim (x :: l) = x :: l → is_whitespace x = false.
Proof.
  intros Ht. destruct (is_whitespace x) eqn:E; [|done]. apply (f_equal length) in Ht.
  unfold trim in Ht. rewrite length_reverse in Ht. cbn [drop_while] in Ht. rewrite E in Ht.
  pose proof (drop_while_length is_whitespace (reverse (drop_while is_whitespace l))) as H1.
  rewrite length_reverse in H1. pose proof (drop_while_length is_whitespace l). simpl in Ht. lia.
Qed.

Lemma drop_while_id {A} (f : A → bool) l : (∀ x l', l = x :: l' → f x = false) → drop_while f l = l.
Proof. destruct l as [|x l]; [done|]. intros Hf. simpl. by rewrite (Hf x l eq_refl). Qed.

Lemma trim_id l x : (∀ y l', l ++ [x] = y :: l' → is_whitespace y = false) → is_whitespace x = false →
  trim (l ++ [x]) = l ++ [x].
Proof.
  intros Hh Hx. unfold trim. rewrite (drop_while_id _ (l ++ [x])) by done.
  rewrite drop_while_id; [by rewrite reverse_involutive|].
  rewrite reverse_app. intros y l' [= <- _]. done.
Qed.

(** ** The archived name *)

Definition plain_byte (b : Z) : Prop := b < 128 ∧ is_control b = false ∧ is_whitespace b = false.

Lemma lower_hex_plain b : is_lower_hex_byte b = true → plain_byte b.
Proof.
  unfold is_lower_hex_byte, is_ascii_digit, plain_byte, is_control, is_whitespace, in_range. intros Hb.
  split_and!; lia.
Qed.

Lemma suffix_plain key_id : key_id_valid key_id → Forall plain_byte (bytes ("-revoked-" +:+ key_id)).
Proof.
  intros [_ Hh]%andb_prop. rewrite bytes_app. apply Forall_app. split.
  - by repeat constructor.
  - apply Forall_forall. intros b Hb. rewrite forallb_forall in Hh. apply lower_hex_plain, Hh.
    by apply list_elem_of_In.
Qed.

Lemma suffix_length key_id : key_id_valid key_id → String.length ("-revoked-" +:+ key_id) = 41%nat.
Proof.
  intros [Hl%Z.eqb_eq _]%andb_prop. rewrite string_length_app. unfold str_len, IDENTITY_LENGTH in Hl. simpl. lia.
Qed.

(** A trimmed text followed by plain bytes is trimmed. *)
Lemma trim_prefix_plain l1 l2 s :
  trim (l1 ++ l2) = l1 ++ l2 → Forall plain_byte s → s ≠ [] → trim (l1 ++ s) = l1 ++ s.
Proof.
  intros Ht Hs Hne. destruct (exists_last Hne) as (s' & x & ->). rewrite app_assoc.
  apply Forall_app in Hs as [Hs' [(_ & _ & Hx) _]%Forall_cons]. apply trim_id; [|done]. intros y l' Hy.
  destruct l1 as [|z l1]; [|simpl in Hy; injection Hy as -> _; by eapply trimmed_head].
  destruct s' as [|z s']; simpl in Hy; injection Hy as -> _; [done|].
  by apply Forall_cons in Hs' as [(_ & _ & ?) _].
Qed.

Lemma existsb_prefix_plain l1 l2 s :
  existsb is_control (l1 ++ l2) = false → Forall plain_byte s → existsb is_control (l1 ++ s) = false.
Proof.
  rewrite !existsb_app, !orb_false_iff. intros [? _] Hs. split; [done|].
  induction Hs as [|b s (_ & Hb & _) _ IH]; [done|]. simpl. by rewrite Hb.
Qed.

(** A name cut at a character boundary and extended with plain bytes. *)
Lemma cut_name_valid name n suffix :
  is_utf8 name = true → is_bounded_text name MAX_DISPLAY_NAME_BYTES true = true →
  n = 0%nat ∨ starts_character (drop n (bytes name)) → (n ≤ String.length name)%nat →
  Forall plain_byte (bytes suffix) → bytes suffix ≠ [] → (n + String.length suffix ≤ 128)%nat →
  is_bounded_text (String.substring 0 n name +:+ suffix) MAX_DISPLAY_NAME_BYTES true = true.
Proof.
  intros Hu Hb Hn Hle Hs Hne Hlen. unfold is_bounded_text in Hb.
  apply andb_prop in Hb as [[[_ Ht%bool_decide_eq_true]%andb_prop Hc%negb_true_iff]%andb_prop _].
  assert (utf8_bytes (take n (bytes name)) = true) as Hp.
  { destruct Hn as [->|Hn]; [done|]. eapply utf8_cut; [|done]. by rewrite take_drop. }
  assert (chars name = decode_utf8 (take n (bytes name)) ++ decode_utf8 (drop n (bytes name))) as Hname.
  { unfold chars. by rewrite <- decode_utf8_app, take_drop. }
  assert (chars (String.substring 0 n name +:+ suffix) = decode_utf8 (take n (bytes name)) ++ bytes suffix) as Hnew.
  { unfold chars. rewrite bytes_app, bytes_substring, decode_utf8_app by done. f_equal.
    apply decode_utf8_ascii. eapply Forall_impl; [exact Hs|]. by intros b [? _]. }
  rewrite Hname in Ht, Hc. unfold is_bounded_text. rewrite Hnew.
  assert (0 < length (bytes suffix))%nat as Hpos by (destruct (bytes suffix); [done|simpl; lia]).
  assert (length (take n (bytes name)) = n) as Htake.
  { apply length_take_le. pose proof (length_bytes name) as Hlb. unfold str_len in Hlb. lia. }
  assert (str_len (String.substring 0 n name +:+ suffix) = Z.of_nat (n + String.length suffix)) as ->.
  { rewrite <- length_bytes, bytes_app, bytes_substring, length_app, Htake.
    pose proof (length_bytes suffix) as Hlb. unfold str_len in Hlb. lia. }
  rewrite bool_decide_true by by eapply trim_prefix_plain.
  erewrite existsb_prefix_plain by done.
  pose proof (length_bytes suffix) as Hlb. unfold str_len in Hlb. unfold MAX_DISPLAY_NAME_BYTES.
  set (z := Z.of_nat (n + String.length suffix)). replace (z =? 0) with false by lia.
  replace (z <=? 128) with true by lia. done.
Qed.

Lemma string_app_inj_l s1 s2 t1 t2 :
  String.length t1 = String.length t2 → s1 +:+ t1 = s2 +:+ t2 → t1 = t2.
Proof.
  intros Hl He. assert (String.length s1 = String.length s2) as Hs.
  { apply (f_equal String.length) in He. rewrite !string_length_app in He. lia. }
  by destruct (string_app_inj _ _ _ _ Hs He).
Qed.

Lemma archived_rotation_name_eq api_key :
  archived_rotation_name api_key = from_interface (DisplayName_parse
    (String.substring 0 (floor_char_boundary (ak_name api_key)
       (Nat.min (String.length (ak_name api_key)) (128 - String.length ("-revoked-" +:+ ak_key_id api_key))))
       (ak_name api_key) +:+ "-revoked-" +:+ ak_key_id api_key)).
Proof. done. Qed.

Lemma parsed_name_Ok v n : from_interface (DisplayName_parse v) = Ok n ↔ n = v ∧ DisplayName_parse v = Ok v.
Proof.
  unfold DisplayName_parse, validate. destruct (is_bounded_text v _ _); simpl; [|naive_solver].
  split; [by intros [= <-]|by intros [-> _]].
Qed.

(** archiving never fails.  For every valid name, which may be up to 128 bytes
    of UTF-8, and every key identity, the archived name of a rotation is a valid
    name: a prefix of the old one and the identity.  Two keys with the same archived
    name are the same key. *)
Theorem archived_name_is_valid_and_unique api_key :
  DisplayName_parse (ak_name api_key) = Ok (ak_name api_key) → is_utf8 (ak_name api_key) = true →
  key_id_valid (ak_key_id api_key) →
  ∃ n archived, archived_rotation_name api_key = Ok archived ∧ DisplayName_parse archived = Ok archived ∧
    archived = String.substring 0 n (ak_name api_key) +:+ "-revoked-" +:+ ak_key_id api_key ∧
    ∀ other, key_id_valid (ak_key_id other) → archived_rotation_name other = Ok archived →
      ak_key_id other = ak_key_id api_key.
Proof.
  intros Hn Hu Hid. pose proof (suffix_length _ Hid) as Hlen.
  set (m := Nat.min (String.length (ak_name api_key)) (128 - String.length ("-revoked-" +:+ ak_key_id api_key))).
  destruct (floor_char_boundary_spec (ak_name api_key) m) as [Hle Hb].
  exists (floor_char_boundary (ak_name api_key) m).
  set (v := String.substring 0 _ _ +:+ _).
  assert (DisplayName_parse v = Ok v) as Hv.
  { unfold DisplayName_parse, validate in Hn |- *. destruct (is_bounded_text (ak_name api_key) _ _) eqn:E; [|done].
    unfold v. rewrite cut_name_valid; [done|done|done|apply Hb; lia|lia|by apply suffix_plain| |lia].
    rewrite bytes_app. by destruct (bytes (ak_key_id api_key)). }
  exists v. split_and!; [by rewrite archived_rotation_name_eq; apply parsed_name_Ok|done..|].
  intros other Ho. rewrite archived_rotation_name_eq. intros [He _]%parsed_name_Ok. unfold v in He.
  apply string_app_inj_l in He; [|by rewrite !suffix_length].
  injection He as He. symmetry. exact He.
Qed.

Module NameSample.
(** A name of 96 bytes, three to a character. *)
Definition long_name : string := string_of_bytes (concat (replicate 32 [228; 184; 173])).
Definition sample_key : ApiKey :=
  {| ak_key_id := hexadecimal (replicate 16 17); ak_name := long_name;
     ak_policy := {| ap_model_scope := ScopeAll; ap_expires_at := None;
       ap_limits := {| limit_requests_per_minute := None;
         limit_tokens_per_minute := None; limit_concurrency := None;
         limit_context_tokens := None |}; ap_tenant := None; ap_application := None |};
     ak_created_at := 5; ak_revoked_at := None; ak_rotated_from := None |}.

Lemma archived_name_is_valid_and_unique_witness :
  ∃ n archived, archived_rotation_name sample_key = Ok archived ∧ DisplayName_parse archived = Ok archived ∧
    archived = String.substring 0 n long_name +:+ "-revoked-" +:+ ak_key_id sample_key ∧
    ∀ other, key_id_valid (ak_key_id other) → archived_rotation_name other = Ok archived →
      ak_key_id other = ak_key_id sample_key.
Proof.
  apply (archived_name_is_valid_and_unique sample_key); vm_compute; reflexivity.
Defined.
End NameSample.
