(* ===== verification/AuthControllers.v ===== *)
(** * Controllers, their certificates and peer credentials

    [core/authentication]: [li_controller.rs], [li_controller_certificate.rs],
    [li_controller_error.rs], [li_controller_store.rs], [li_peer_credential.rs] and
    the checks of [li_controller_lifecycle.rs] that do not call a provider. *)

From Stdlib Require Import String.
From S2P Require Import Prelude Values AuthKeys.

(** ** Controller errors *)

Inductive ControllerCertificateError := CertificateInvalid | CertificateUnavailable.

Inductive ControllerError :=
| ControllerInterface (error : InterfaceError)
| ControllerInvalidRecord (reason : string)
| InvalidCertificate
| CertificateNotYetValid
| CertificateExpired
| ControllerInvalidTransition
| ControllerNotFound
| ControllerUnauthorized
| ControllerClockUnavailable
| ProviderUnavailable
| ControllerStoreFailed (error : AuthenticationStoreError).

Definition certificate_error (error : ControllerCertificateError) : ControllerError :=
  match error with
  | CertificateInvalid => InvalidCertificate
  | CertificateUnavailable => ProviderUnavailable
  end.

(** ** Public keys and certificates *)

Definition MAXIMUM_CONTROLLER_CERTIFICATE_BYTES : nat := 16 * 1024.
Definition MAXIMUM_CONTROLLER_PUBLIC_KEY_BYTES : nat := 256.
Definition MINIMUM_CONTROLLER_PUBLIC_KEY_BYTES : nat := 64.

Record ControllerPublicKey := { cpk_bytes : list Z; cpk_sha256 : string }.
Definition ControllerCertificateMaterial_new (bytes : list Z)
  : result ControllerCertificateError (list Z) :=
  if bool_decide (bytes = []) || (MAXIMUM_CONTROLLER_CERTIFICATE_BYTES <? length bytes)%nat
  then Err CertificateInvalid else Ok bytes.

Record ControllerCertificate := {
  cc_controller_id : string;
  cc_certificate_sha256 : string;
  cc_public_key_sha256 : string;
  cc_public_material : list Z;
  cc_valid_from : Z;
  cc_expires_at : Z;
}.

Section digest.
Context `{!Sha256Digest}.

(** [Sha256Digest::parse(&format!("{:x}", ..))] *)
Definition certificate_digest (bytes : list Z) : result ControllerCertificateError string :=
  match Sha256Digest_parse (hexadecimal (sha256 bytes)) with
  | Ok digest => Ok digest
  | Err _ => Err CertificateInvalid
  end.

Definition ControllerPublicKey_new (bytes : list Z)
  : result ControllerCertificateError ControllerPublicKey :=
  if (length bytes <? MINIMUM_CONTROLLER_PUBLIC_KEY_BYTES)%nat
     || (MAXIMUM_CONTROLLER_PUBLIC_KEY_BYTES <? length bytes)%nat
  then Err CertificateInvalid
  else
    let? sha256 := certificate_digest bytes in
    Ok {| cpk_bytes := bytes; cpk_sha256 := sha256 |}.

Definition ControllerCertificate_new (controller_id certificate_sha256 public_key_sha256 : string)
    (public_material : list Z) (valid_from expires_at : Z)
  : result ControllerCertificateError ControllerCertificate :=
  if bool_decide (public_material = [])
     || (MAXIMUM_CONTROLLER_CERTIFICATE_BYTES <? length public_material)%nat
  then Err CertificateInvalid
  else
    let? digest := certificate_digest public_material in
    if negb (bool_decide (digest = certificate_sha256)) || (expires_at <=? valid_from)
    then Err CertificateInvalid
    else Ok {| cc_controller_id := controller_id; cc_certificate_sha256 := certificate_sha256;
               cc_public_key_sha256 := public_key_sha256; cc_public_material := public_material;
               cc_valid_from := valid_from; cc_expires_at := expires_at |}.
End digest.

Definition is_valid_at (certificate : ControllerCertificate) (now : Z) : bool :=
  (cc_valid_from certificate <=? now) && (now <? cc_expires_at certificate).

(** ** Roles and states *)

Inductive ControllerRole := Viewer | Operator | Administrator.
Definition role_rank (role : ControllerRole) : Z :=
  match role with Viewer => 0 | Operator => 1 | Administrator => 2 end.
Definition role_permits (role required : ControllerRole) : bool :=
  role_rank required <=? role_rank role.
Definition role_str (role : ControllerRole) : string :=
  match role with Viewer => "viewer" | Operator => "operator" | Administrator => "administrator" end.
Definition role_parse (value : string) : result ControllerError ControllerRole :=
  if bool_decide (value = "viewer"%string) then Ok Viewer
  else if bool_decide (value = "operator"%string) then Ok Operator
  else if bool_decide (value = "administrator"%string) then Ok Administrator
  else Err (ControllerInvalidRecord "controller role is invalid").

Inductive ControllerState := ControllerIssuedState | ControllerActive | ControllerRevokedState.
Definition state_str (state : ControllerState) : string :=
  match state with
  | ControllerIssuedState => "issued"
  | ControllerActive => "active"
  | ControllerRevokedState => "revoked"
  end.
Definition state_parse (value : string) : result ControllerError ControllerState :=
  if bool_decide (value = "issued"%string) then Ok ControllerIssuedState
  else if bool_decide (value = "active"%string) then Ok ControllerActive
  else if bool_decide (value = "revoked"%string) then Ok ControllerRevokedState
  else Err (ControllerInvalidRecord "controller state is invalid").

#[export] Instance ControllerRole_eq_dec : EqDecision ControllerRole.
Proof. solve_decision. Defined.
#[export] Instance ControllerState_eq_dec : EqDecision ControllerState.
Proof. solve_decision. Defined.
#[export] Instance ControllerCertificate_eq_dec : EqDecision ControllerCertificate.
Proof. solve_decision. Defined.

(** ** Controllers *)

Record Controller := {
  ct_controller_id : string;
  ct_name : string;
  ct_role : ControllerRole;
  ct_certificate : ControllerCertificate;
  ct_state : ControllerState;
  ct_issued_at : Z;
  ct_activated_at : option Z;
  ct_revoked_at : option Z;
}.
#[export] Instance Controller_eq_dec : EqDecision Controller.
Proof. solve_decision. Defined.

Definition Controller_restore (controller_id name : string) (role : ControllerRole)
    (certificate : ControllerCertificate) (state : ControllerState) (issued_at : Z)
    (activated_at revoked_at : option Z) : result ControllerError Controller :=
  let lifecycle_valid := match state with
    | ControllerIssuedState => negb (is_some activated_at) && negb (is_some revoked_at)
    | ControllerActive => is_some activated_at && negb (is_some revoked_at)
    | ControllerRevokedState => is_some revoked_at
    end in
  if negb (bool_decide (cc_controller_id certificate = controller_id))
     || negb (is_valid_at certificate issued_at)
     || negb lifecycle_valid
     || is_some_and activated_at (λ value, value <? issued_at)
     || is_some_and revoked_at (λ value,
          (value <? issued_at) || is_some_and activated_at (λ activated, value <? activated))
  then Err (ControllerInvalidRecord "controller lifecycle is inconsistent")
  else Ok {| ct_controller_id := controller_id; ct_name := name; ct_role := role;
             ct_certificate := certificate; ct_state := state; ct_issued_at := issued_at;
             ct_activated_at := activated_at; ct_revoked_at := revoked_at |}.

Definition Controller_issued (controller_id name : string) (role : ControllerRole)
    (certificate : ControllerCertificate) (issued_at : Z) : result ControllerError Controller :=
  Controller_restore controller_id name role certificate ControllerIssuedState issued_at None None.

Definition controller_activated (c : Controller) (now : Z) : result ControllerError Controller :=
  if bool_decide (ct_state c = ControllerRevokedState) || negb (is_valid_at (ct_certificate c) now)
  then Err ControllerInvalidTransition
  else if bool_decide (ct_state c = ControllerActive) then Ok c
  else Controller_restore (ct_controller_id c) (ct_name c) (ct_role c) (ct_certificate c)
         ControllerActive (ct_issued_at c) (Some now) None.

Definition controller_revoked (c : Controller) (now : Z) : result ControllerError Controller :=
  if bool_decide (ct_state c = ControllerRevokedState) then Ok c
  else Controller_restore (ct_controller_id c) (ct_name c) (ct_role c) (ct_certificate c)
         ControllerRevokedState (ct_issued_at c) (ct_activated_at c) (Some now).

Definition matches_registration (c : Controller) (name : string) (role : ControllerRole)
    (certificate : ControllerCertificate) : bool :=
  bool_decide (ct_name c = name) && bool_decide (ct_role c = role)
  && bool_decide (ct_certificate c = certificate).

Record ControllerPrincipal := {
  cp_controller_id : string;
  cp_role : ControllerRole;
  cp_certificate_sha256 : string;
}.
Definition ControllerPrincipal_new (c : Controller) : ControllerPrincipal :=
  {| cp_controller_id := ct_controller_id c; cp_role := ct_role c;
     cp_certificate_sha256 := cc_certificate_sha256 (ct_certificate c) |}.

Record VersionedController := { vc_controller : Controller; vc_revision : Z }.

Inductive ControllerCertificateSource :=
| SourceIssue (public_key : ControllerPublicKey)
| SourceImport (material : list Z).
Inductive ControllerRegistrationKind := RegistrationIssued | RegistrationImported.

(** ** Checks of the lifecycle *)

Definition require_certificate_lifetime (certificate : ControllerCertificate) (now : Z)
  : result ControllerError () :=
  if now <? cc_valid_from certificate then Err CertificateNotYetValid
  else if cc_expires_at certificate <=? now then Err CertificateExpired
  else Ok ().

Definition require_current_certificate (certificate : ControllerCertificate) (controller_id : string)
    (now : Z) : result ControllerError () :=
  if negb (bool_decide (cc_controller_id certificate = controller_id)) then Err InvalidCertificate
  else require_certificate_lifetime certificate now.

Definition require_controller_read (stored : VersionedController) (expected_controller_id : string)
  : result ControllerError () :=
  if (vc_revision stored =? 0)
     || negb (bool_decide (ct_controller_id (vc_controller stored) = expected_controller_id))
  then Err (ControllerStoreFailed AuthCorrupt) else Ok ().

Definition require_controller_commit (stored : VersionedController) (expected : Controller)
    (prior_revision : Z) : result ControllerError () :=
  if negb (bool_decide (vc_controller stored = expected)) || (vc_revision stored <=? prior_revision)
  then Err (ControllerStoreFailed AuthCorrupt) else Ok ().

Definition require_controller_records (records : list VersionedController)
  : result ControllerError () :=
  let controller_ids : gset string :=
    list_to_set ((λ v, ct_controller_id (vc_controller v)) <$> records) in
  let certificate_sha256 : gset string :=
    list_to_set ((λ v, cc_certificate_sha256 (ct_certificate (vc_controller v))) <$> records) in
  if negb (size controller_ids =? length records)%nat
     || negb (size certificate_sha256 =? length records)%nat
     || existsb (λ v, vc_revision v =? 0) records
  then Err (ControllerStoreFailed AuthCorrupt) else Ok ().

Definition require_unique_certificate (records : list VersionedController) (controller_id : string)
    (certificate_sha256 : string) : result ControllerError () :=
  let? _ := require_controller_records records in
  if existsb (λ record,
       negb (bool_decide (ct_controller_id (vc_controller record) = controller_id))
       && bool_decide (cc_certificate_sha256 (ct_certificate (vc_controller record))
                       = certificate_sha256)) records
  then Err (ControllerStoreFailed AuthConflict) else Ok ().

(** ** Peer credentials *)

Definition MAX_PEER_CREDENTIAL_LOOKUP_RESULTS : nat := 2.

Inductive PeerCredentialState := CredentialPending | CredentialActive.
Inductive PeerCredentialDirection := ChildToMain | MainToChild.
#[export] Instance PeerCredentialState_eq_dec : EqDecision PeerCredentialState.
Proof. solve_decision. Defined.

Inductive PeerCredentialError :=
| PeerInvalidRecord (reason : string)
| PeerUnrecognized
| PeerNotYetValid
| PeerPending
| PeerExpired
| PeerRevoked
| PeerRotated
| PeerAmbiguous
| PeerClockUnavailable
| PeerStore (error : AuthenticationStoreError).

Record PeerCredentialPrincipal := {
  pp_credential_id : string;
  pp_local_node_id : string;
  pp_peer_node_id : string;
  pp_direction : PeerCredentialDirection;
}.

Record PeerCredential := {
  pc_credential_id : string;
  pc_peer_leaf_sha256 : string;
  pc_local_node_id : string;
  pc_peer_node_id : string;
  pc_direction : PeerCredentialDirection;
  pc_state : PeerCredentialState;
  pc_issued_at : Z;
  pc_expires_at : Z;
  pc_revoked_at : option Z;
  pc_rotated_to : option string;
}.
Record VersionedPeerCredential := { vp_credential : PeerCredential; vp_revision : Z }.

Definition PeerCredential_new_with_state (credential_id peer_leaf_sha256 local_node_id
    peer_node_id : string) (direction : PeerCredentialDirection) (state : PeerCredentialState)
    (issued_at expires_at : Z) (revoked_at : option Z) (rotated_to : option string)
  : result PeerCredentialError PeerCredential :=
  if bool_decide (local_node_id = peer_node_id)
  then Err (PeerInvalidRecord "local and peer Nodes must differ")
  else if expires_at <=? issued_at
  then Err (PeerInvalidRecord "expiration must follow issuance")
  else if is_some_and revoked_at (λ revoked_at, revoked_at <? issued_at)
  then Err (PeerInvalidRecord "revocation cannot precede issuance")
  else if is_some rotated_to && negb (is_some revoked_at)
  then Err (PeerInvalidRecord "rotation requires revocation")
  else if bool_decide (rotated_to = Some credential_id)
  then Err (PeerInvalidRecord "rotation must identify a different credential")
  else Ok {| pc_credential_id := credential_id; pc_peer_leaf_sha256 := peer_leaf_sha256;
             pc_local_node_id := local_node_id; pc_peer_node_id := peer_node_id;
             pc_direction := direction; pc_state := state; pc_issued_at := issued_at;
             pc_expires_at := expires_at; pc_revoked_at := revoked_at;
             pc_rotated_to := rotated_to |}.

Definition PeerCredential_new (credential_id peer_leaf_sha256 local_node_id peer_node_id : string)
    (direction : PeerCredentialDirection) (issued_at expires_at : Z) (revoked_at : option Z)
    (rotated_to : option string) : result PeerCredentialError PeerCredential :=
  PeerCredential_new_with_state credential_id peer_leaf_sha256 local_node_id peer_node_id direction
    CredentialActive issued_at expires_at revoked_at rotated_to.

Definition credential_activated (c : PeerCredential) : PeerCredential :=
  {| pc_credential_id := pc_credential_id c; pc_peer_leaf_sha256 := pc_peer_leaf_sha256 c;
     pc_local_node_id := pc_local_node_id c; pc_peer_node_id := pc_peer_node_id c;
     pc_direction := pc_direction c; pc_state := CredentialActive; pc_issued_at := pc_issued_at c;
     pc_expires_at := pc_expires_at c; pc_revoked_at := pc_revoked_at c;
     pc_rotated_to := pc_rotated_to c |}.

Definition resolve_at (c : PeerCredential) (now : Z)
  : result PeerCredentialError PeerCredentialPrincipal :=
  if is_some (pc_rotated_to c) then Err PeerRotated
  else if is_some (pc_revoked_at c) then Err PeerRevoked
  else if bool_decide (pc_state c = CredentialPending) then Err PeerPending
  else if now <? pc_issued_at c then Err PeerNotYetValid
  else if pc_expires_at c <=? now then Err PeerExpired
  else Ok {| pp_credential_id := pc_credential_id c; pp_local_node_id := pc_local_node_id c;
             pp_peer_node_id := pc_peer_node_id c; pp_direction := pc_direction c |}.
