(* ===== verification/AuthManager.v ===== *)
(** * The authentication manager

    [AuthenticationManager] of [core/authentication]: the key operations and peer
    lookups of [li_authentication_manager.rs] and the controller operations of
    [li_controller_lifecycle.rs].  Stores, clock, entropy and certificate authority
    are classes over the world; other managers may use the same stores, so the
    world may change at every call. *)

From Stdlib Require Import String.
From S2P Require Import Prelude Values Ordering AuthKeys AuthControllers.

(** ** Providers *)

Class AuthenticationClock (W : Type) := auth_now : SE W AuthenticationError Z.
(** [fill] of a destination of that many bytes. *)
Class ApiKeyMaterialProvider (W : Type) := material_fill : nat → SE W AuthenticationError (list Z).

Class AuthenticationStore (W : Type) := {
  key_read : string → SE W AuthenticationStoreError (option VersionedAuthenticationRecord);
  key_all : SE W AuthenticationStoreError (list VersionedAuthenticationRecord);
  key_create : AuthenticationRecord → SE W AuthenticationStoreError VersionedAuthenticationRecord;
  key_replace : AuthenticationRecord → Z →
    SE W AuthenticationStoreError VersionedAuthenticationRecord;
  key_rotate : AuthenticationRecord → Z → AuthenticationRecord →
    SE W AuthenticationStoreError AuthenticationRotation;
}.

Class PeerCredentialStore (W : Type) := {
  matching_peer_credentials : string → nat →
    SE W AuthenticationStoreError (list VersionedPeerCredential);
  matching_peer_credential_ids : string → nat →
    SE W AuthenticationStoreError (list VersionedPeerCredential);
}.

Class ControllerStore (W : Type) := {
  controller_read : string → SE W AuthenticationStoreError (option VersionedController);
  controller_all : SE W AuthenticationStoreError (list VersionedController);
  controller_create : Controller → SE W AuthenticationStoreError VersionedController;
  controller_replace : Controller → Z → SE W AuthenticationStoreError VersionedController;
}.

Class ControllerCertificateProvider (W : Type) := {
  certificate_issue : string → ControllerPublicKey →
    SE W ControllerCertificateError ControllerCertificate;
  certificate_import : string → list Z → SE W ControllerCertificateError ControllerCertificate;
}.

(** ** API keys *)

Section keys.
Context {W : Type} `{!AuthenticationClock W, !ApiKeyMaterialProvider W, !AuthenticationStore W,
  !Sha256Digest}.
Abbreviation AM := (SE W AuthenticationError).

Record GeneratedApiKeyMaterial := {
  gm_key_id : string;
  gm_secret : list Z;
  gm_salt : list Z;
}.

Definition generate_material : AM GeneratedApiKeyMaterial :=
  do! identifier <- material_fill KEY_IDENTIFIER_BYTES in
  do! secret <- material_fill KEY_SECRET_BYTES in
  do! salt <- material_fill KEY_SALT_BYTES in
  do! key_id <- se_lift (from_interface (ApiKeyId_parse (hexadecimal identifier))) in
  se_ret {| gm_key_id := key_id; gm_secret := secret; gm_salt := salt |}.

Definition create (name : string) (policy : ApiKeyPolicy) : AM (AuthenticationChange IssuedApiKey) :=
  do! now <- auth_now in
  do! material <- generate_material in
  do! api_key <- se_lift (ApiKey_new (gm_key_id material) name policy now None None) in
  let record := {| ar_api_key := api_key; ar_salt := gm_salt material;
                   ar_verifier := api_key_verifier (gm_salt material) (gm_secret material) |} in
  do! stored <- se_map_err AuthStore (key_create record) in
  run! se_lift (require_committed_record stored record 0) in
  se_ret {| ch_value := IssuedApiKey_new api_key (gm_secret material);
            ch_event := Some (ApiKeyCreated (gm_key_id material)) |}.

(** [self.store.read(key_id)?.ok_or(missing)?] and [require_read_record]. *)
Definition read_key (missing : AuthenticationError) (key_id : string)
  : AM VersionedAuthenticationRecord :=
  do! found <- se_map_err AuthStore (key_read key_id) in
  do! stored <- se_lift (ok_or missing found) in
  run! se_lift (require_read_record stored key_id) in
  se_ret stored.

Definition api_key (key_id : string) : AM ApiKey :=
  do! stored <- read_key AuthNotFound key_id in
  se_ret (ar_api_key (va_record stored)).

Definition listing_is_corrupt (stored : list VersionedAuthenticationRecord) : bool :=
  let keys := (λ v, ar_api_key (va_record v)) <$> stored in
  negb (size (list_to_set (ak_key_id <$> keys) : gset string) =? length stored)%nat
  || negb (size (list_to_set (ak_name <$> keys) : gset string) =? length stored)%nat
  || existsb (λ v, va_revision v =? 0) stored.

Definition api_keys : AM (list ApiKey) :=
  do! stored <- se_map_err AuthStore key_all in
  if listing_is_corrupt stored then se_fail (AuthStore AuthCorrupt)
  else se_ret (sort_by (λ left right, String.compare (ak_key_id left) (ak_key_id right))
                 ((λ v, ar_api_key (va_record v)) <$> stored)).

Definition is_revoked (record : AuthenticationRecord) : bool :=
  is_some (ak_revoked_at (ar_api_key record)).

(** Commit a changed copy of [current]; after a conflict, [replayed] decides
    whether the key already is what was asked for. *)
Definition replace_key (key_id : string) (current : VersionedAuthenticationRecord)
    (changed : AuthenticationRecord) (event : AuthenticationEvent)
    (replayed : AuthenticationRecord → bool) : AM (AuthenticationChange ApiKey) := λ w,
  match key_replace changed (va_revision current) w with
  | (Ok stored, w) =>
    (run! se_lift (require_committed_record stored changed (va_revision current)) in
     se_ret {| ch_value := ar_api_key (va_record stored); ch_event := Some event |}) w
  | (Err AuthConflict, w) =>
    (do! observed <- read_key AuthNotFound key_id in
     if replayed (va_record observed)
     then se_ret {| ch_value := ar_api_key (va_record observed); ch_event := None |}
     else se_fail (AuthStore AuthConflict)) w
  | (Err error, w) => (Err (AuthStore error), w)
  end.

Definition update_policy (key_id : string) (policy : ApiKeyPolicy) : AM (AuthenticationChange ApiKey) :=
  do! current <- read_key AuthNotFound key_id in
  if is_revoked (va_record current) then se_fail AuthNotFound
  else if bool_decide (ak_policy (ar_api_key (va_record current)) = policy)
  then se_ret {| ch_value := ar_api_key (va_record current); ch_event := None |}
  else
    do! updated <- se_lift (policy_record (va_record current) policy) in
    replace_key key_id current updated (ApiKeyPolicyUpdated key_id)
      (λ observed, negb (is_revoked observed)
         && bool_decide (ak_policy (ar_api_key observed) = ak_policy (ar_api_key updated))).

Definition revoke (key_id : string) : AM (AuthenticationChange ApiKey) :=
  do! now <- auth_now in
  do! current <- read_key AuthNotFound key_id in
  if is_revoked (va_record current)
  then se_ret {| ch_value := ar_api_key (va_record current); ch_event := None |}
  else
    do! revoked <- se_lift (revoked_record (va_record current) now) in
    replace_key key_id current revoked (ApiKeyRevoked key_id) is_revoked.

Definition rotate_record (current : VersionedAuthenticationRecord) (replacement_name : string)
    (archived_name : option string) : AM (AuthenticationChange IssuedApiKey) :=
  do! now <- auth_now in
  let key_id := ak_key_id (ar_api_key (va_record current)) in
  do! material <- generate_material in
  do! replacement <- se_lift (ApiKey_new (gm_key_id material) replacement_name
    (ak_policy (ar_api_key (va_record current))) now None (Some key_id)) in
  let replacement_record :=
    {| ar_api_key := replacement; ar_salt := gm_salt material;
       ar_verifier := api_key_verifier (gm_salt material) (gm_secret material) |} in
  do! revoked <- se_lift (revoked_record_with_name (va_record current) archived_name now) in
  do! rotation <- se_map_err AuthStore (key_rotate revoked (va_revision current) replacement_record) in
  run! se_lift (require_committed_record (ro_revoked rotation) revoked (va_revision current)) in
  run! se_lift (require_committed_record (ro_replacement rotation) replacement_record 0) in
  se_ret {| ch_value := IssuedApiKey_new replacement (gm_secret material);
            ch_event := Some (ApiKeyRotated key_id (gm_key_id material)) |}.

Definition rotate (key_id replacement_name : string) : AM (AuthenticationChange IssuedApiKey) :=
  do! current <- read_key AuthNotFound key_id in
  if is_revoked (va_record current) then se_fail AuthNotFound
  else rotate_record current replacement_name None.

Definition rotate_preserving_name (key_id : string) : AM (AuthenticationChange IssuedApiKey) :=
  do! current <- read_key AuthNotFound key_id in
  if is_revoked (va_record current) then se_fail AuthNotFound
  else
    do! archived_name <- se_lift (archived_rotation_name (ar_api_key (va_record current))) in
    rotate_record current (ak_name (ar_api_key (va_record current))) (Some archived_name).

Definition authenticate_identity (token : string) : AM AuthenticationPrincipal :=
  do! parsed <- se_lift (ok_or AuthUnauthorized (ParsedApiKey_parse token)) in
  do! stored <- read_key AuthUnauthorized (pk_key_id parsed) in
  let key := ar_api_key (va_record stored) in
  do! now <- auth_now in
  if is_some (ak_revoked_at key)
     || is_some_and (ap_expires_at (ak_policy key)) (λ expiry, expiry <=? now)
  then se_fail AuthUnauthorized
  else
    let observed := api_key_verifier (ar_salt (va_record stored)) (pk_secret parsed) in
    if negb (verifiers_equal (ar_verifier (va_record stored)) observed)
    then se_fail AuthUnauthorized
    else se_ret (AuthenticationPrincipal_new key).

Definition authenticate (token model : string) : AM AuthenticationPrincipal :=
  do! principal <- authenticate_identity token in
  if negb (scope_permits (ap_model_scope (pr_policy principal)) model)
  then se_fail AuthUnauthorized else se_ret principal.
End keys.

(** ** Peer credentials *)

Section peers.
Context {W : Type} `{!AuthenticationClock W, !PeerCredentialStore W}.

(** Clock failures are redacted. *)
Definition peer_now : SE W PeerCredentialError Z := se_map_err (λ _, PeerClockUnavailable) auth_now.

Definition resolve_peer_credential (peer_leaf_sha256 : string)
  : SE W PeerCredentialError PeerCredentialPrincipal :=
  do! matches <- se_map_err PeerStore
    (matching_peer_credentials peer_leaf_sha256 MAX_PEER_CREDENTIAL_LOOKUP_RESULTS) in
  match matches with
  | _ :: _ :: _ => se_fail PeerAmbiguous
  | [] => se_fail PeerUnrecognized
  | [stored] =>
    if (vp_revision stored =? 0)
       || negb (bool_decide (pc_peer_leaf_sha256 (vp_credential stored) = peer_leaf_sha256))
    then se_fail (PeerStore AuthCorrupt)
    else
      do! now <- peer_now in
      se_lift (resolve_at (vp_credential stored) now)
  end.

Definition authorize_peer_credential (credential_id : string)
  : SE W PeerCredentialError PeerCredentialPrincipal :=
  do! matches <- se_map_err PeerStore
    (matching_peer_credential_ids credential_id MAX_PEER_CREDENTIAL_LOOKUP_RESULTS) in
  match matches with
  | [] => se_fail PeerUnrecognized
  | [stored] =>
    if negb (bool_decide (pc_credential_id (vp_credential stored) = credential_id))
    then se_fail PeerAmbiguous
    else
      do! now <- peer_now in
      se_lift (resolve_at (vp_credential stored) now)
  | _ => se_fail PeerAmbiguous
  end.
End peers.

(** ** Controllers *)

Section controllers.
Context {W : Type} `{!AuthenticationClock W, !ControllerStore W, !ControllerCertificateProvider W}.
Abbreviation CM := (SE W ControllerError).

Definition controller_now : CM Z := se_map_err (λ _, ControllerClockUnavailable) auth_now.

(** [self.controller_store.read(..)?], and [require_controller_read] when found. *)
Definition find_controller (controller_id : string) : CM (option VersionedController) :=
  do! found <- se_map_err ControllerStoreFailed (controller_read controller_id) in
  match found with
  | None => se_ret None
  | Some stored =>
    run! se_lift (require_controller_read stored controller_id) in
    se_ret (Some stored)
  end.

Definition read_controller (missing : ControllerError) (controller_id : string)
  : CM VersionedController :=
  do! found <- find_controller controller_id in
  se_lift (ok_or missing found).

(** The answer of a write: the committed controller with its event, or after a
    conflict the stored one when [replayed] accepts it. *)
Definition settle_controller (write : SE W AuthenticationStoreError VersionedController)
    (prior_revision : Z) (written : Controller) (event : AuthenticationEvent)
    (missing : ControllerError) (replayed : Controller → bool) : CM (AuthenticationChange Controller) :=
  λ w, match write w with
  | (Ok stored, w) =>
    (run! se_lift (require_controller_commit stored written prior_revision) in
     se_ret {| ch_value := vc_controller stored; ch_event := Some event |}) w
  | (Err AuthConflict, w) =>
    (do! observed <- read_controller missing (ct_controller_id written) in
     if replayed (vc_controller observed)
     then se_ret {| ch_value := vc_controller observed; ch_event := None |}
     else se_fail (ControllerStoreFailed AuthConflict)) w
  | (Err error, w) => (Err (ControllerStoreFailed error), w)
  end.

Definition resolve_certificate (controller_id : string) (source : ControllerCertificateSource)
  : CM ControllerCertificate :=
  match source with
  | SourceIssue public_key =>
    do! certificate <- se_map_err certificate_error (certificate_issue controller_id public_key) in
    if negb (bool_decide (cc_public_key_sha256 certificate = cpk_sha256 public_key))
    then se_fail InvalidCertificate else se_ret certificate
  | SourceImport material => se_map_err certificate_error (certificate_import controller_id material)
  end.

Definition exact_source (c : Controller) (source : ControllerCertificateSource) : bool :=
  match source with
  | SourceIssue public_key =>
    bool_decide (cc_public_key_sha256 (ct_certificate c) = cpk_sha256 public_key)
  | SourceImport material => bool_decide (cc_public_material (ct_certificate c) = material)
  end.

Definition replace_controller (controller_id name : string) (role : ControllerRole)
    (source : ControllerCertificateSource) : CM (AuthenticationChange Controller) :=
  do! current <- read_controller ControllerNotFound controller_id in
  let existing := vc_controller current in
  if bool_decide (ct_state existing = ControllerActive) && bool_decide (ct_name existing = name)
     && bool_decide (ct_role existing = role) && exact_source existing source
  then se_ret {| ch_value := existing; ch_event := None |}
  else
    do! certificate <- resolve_certificate controller_id source in
    do! now <- controller_now in
    run! se_lift (require_current_certificate certificate controller_id now) in
    if matches_registration existing name role certificate
       && bool_decide (ct_state existing = ControllerActive)
    then se_ret {| ch_value := existing; ch_event := None |}
    else
      do! records <- se_map_err ControllerStoreFailed controller_all in
      run! se_lift (require_unique_certificate records controller_id
                      (cc_certificate_sha256 certificate)) in
      do! replacement <- se_lift (
        let? issued := Controller_issued controller_id name role certificate now in
        controller_activated issued now) in
      settle_controller (controller_replace replacement (vc_revision current)) (vc_revision current)
        replacement (ControllerReplaced controller_id) ControllerNotFound
        (λ observed, bool_decide (observed = replacement)).

Definition enroll_controller (controller_id name : string) (role : ControllerRole)
    (public_key : ControllerPublicKey) : CM (AuthenticationChange Controller) :=
  do! found <- find_controller controller_id in
  match found with
  | Some _ => replace_controller controller_id name role (SourceIssue public_key)
  | None =>
    do! certificate <- resolve_certificate controller_id (SourceIssue public_key) in
    do! now <- controller_now in
    run! se_lift (require_current_certificate certificate controller_id now) in
    do! records <- se_map_err ControllerStoreFailed controller_all in
    run! se_lift (require_unique_certificate records controller_id
                    (cc_certificate_sha256 certificate)) in
    do! controller <- se_lift (
      let? issued := Controller_issued controller_id name role certificate now in
      controller_activated issued now) in
    settle_controller (controller_create controller) 0 controller (ControllerEnrolled controller_id)
      (ControllerStoreFailed AuthConflict) (λ observed, bool_decide (observed = controller))
  end.

Definition register_controller (controller_id name : string) (role : ControllerRole)
    (certificate : ControllerCertificate) (kind : ControllerRegistrationKind)
  : CM (AuthenticationChange Controller) :=
  do! now <- controller_now in
  run! se_lift (require_current_certificate certificate controller_id now) in
  do! found <- find_controller controller_id in
  match found with
  | Some existing =>
    if negb (bool_decide (ct_state (vc_controller existing) = ControllerRevokedState))
       && matches_registration (vc_controller existing) name role certificate
    then se_ret {| ch_value := vc_controller existing; ch_event := None |}
    else se_fail (ControllerStoreFailed AuthConflict)
  | None =>
    do! records <- se_map_err ControllerStoreFailed controller_all in
    run! se_lift (require_unique_certificate records controller_id
                    (cc_certificate_sha256 certificate)) in
    do! controller <- se_lift (Controller_issued controller_id name role certificate now) in
    let event := match kind with
      | RegistrationIssued => ControllerIssued controller_id
      | RegistrationImported => ControllerImported controller_id
      end in
    settle_controller (controller_create controller) 0 controller event
      (ControllerStoreFailed AuthConflict) (λ observed, bool_decide (observed = controller))
  end.

Definition replay_controller_registration (controller_id name : string) (role : ControllerRole)
    (material_matches : Controller → bool) : CM (option (AuthenticationChange Controller)) :=
  do! found <- find_controller controller_id in
  match found with
  | None => se_ret None
  | Some existing =>
    let c := vc_controller existing in
    if negb (bool_decide (ct_state c = ControllerRevokedState)) && bool_decide (ct_name c = name)
       && bool_decide (ct_role c = role) && material_matches c
    then se_ret (Some {| ch_value := c; ch_event := None |})
    else se_fail (ControllerStoreFailed AuthConflict)
  end.

Definition issue_controller (controller_id name : string) (role : ControllerRole)
    (public_key : ControllerPublicKey) : CM (AuthenticationChange Controller) :=
  do! replay <- replay_controller_registration controller_id name role
    (λ c, exact_source c (SourceIssue public_key)) in
  match replay with
  | Some replay => se_ret replay
  | None =>
    do! certificate <- resolve_certificate controller_id (SourceIssue public_key) in
    register_controller controller_id name role certificate RegistrationIssued
  end.

Definition import_controller (controller_id name : string) (role : ControllerRole)
    (material : list Z) : CM (AuthenticationChange Controller) :=
  do! replay <- replay_controller_registration controller_id name role
    (λ c, exact_source c (SourceImport material)) in
  match replay with
  | Some replay => se_ret replay
  | None =>
    do! certificate <- resolve_certificate controller_id (SourceImport material) in
    register_controller controller_id name role certificate RegistrationImported
  end.

Definition replace_controller_state (current : VersionedController) (updated : Controller)
    (event : AuthenticationEvent) : CM (AuthenticationChange Controller) :=
  settle_controller (controller_replace updated (vc_revision current)) (vc_revision current) updated
    event ControllerNotFound
    (λ observed, bool_decide (observed = updated)
       || bool_decide (ct_state observed = ct_state updated)
          && matches_registration observed (ct_name updated) (ct_role updated)
               (ct_certificate updated)).

Definition activate_controller (controller_id : string) : CM (AuthenticationChange Controller) :=
  do! current <- read_controller ControllerNotFound controller_id in
  let c := vc_controller current in
  if bool_decide (ct_state c = ControllerActive) then se_ret {| ch_value := c; ch_event := None |}
  else if bool_decide (ct_state c = ControllerRevokedState) then se_fail ControllerInvalidTransition
  else
    do! now <- controller_now in
    run! se_lift (require_certificate_lifetime (ct_certificate c) now) in
    do! active <- se_lift (controller_activated c now) in
    replace_controller_state current active (ControllerActivated controller_id).

Definition revoke_controller (controller_id : string) : CM (AuthenticationChange Controller) :=
  do! current <- read_controller ControllerNotFound controller_id in
  let c := vc_controller current in
  if bool_decide (ct_state c = ControllerRevokedState)
  then se_ret {| ch_value := c; ch_event := None |}
  else
    do! now <- controller_now in
    do! revoked <- se_lift (controller_revoked c now) in
    replace_controller_state current revoked (ControllerRevoked controller_id).

Definition controller (controller_id : string) : CM Controller :=
  do! stored <- read_controller ControllerNotFound controller_id in
  se_ret (vc_controller stored).

Definition controllers : CM (list Controller) :=
  do! stored <- se_map_err ControllerStoreFailed controller_all in
  run! se_lift (require_controller_records stored) in
  se_ret (sort_by (λ left right, String.compare (ct_controller_id left) (ct_controller_id right))
            (vc_controller <$> stored)).

Definition authorize_controller (controller_id certificate_sha256 : string)
    (minimum_role : ControllerRole) : CM ControllerPrincipal :=
  do! stored <- read_controller ControllerUnauthorized controller_id in
  let c := vc_controller stored in
  do! now <- controller_now in
  if negb (bool_decide (ct_state c = ControllerActive))
     || negb (bool_decide (cc_certificate_sha256 (ct_certificate c) = certificate_sha256))
     || negb (is_valid_at (ct_certificate c) now)
     || negb (role_permits (ct_role c) minimum_role)
  then se_fail ControllerUnauthorized
  else se_ret (ControllerPrincipal_new c).
End controllers.
