(* ===== verification/AuthLifecycle.v ===== *)
(** * The life cycle of API keys

    The abstract life cycle of the committed keys as a step relation, what a store
    promises to a manager when other managers use it at the same time, and the
    refinement: every operation of the manager takes effect in one step of the life
    cycle at some point of its call, or observes that it already happened.

    From it: a revoked key never authenticates again, only the token that was
    issued authenticates, and it does until the key is revoked or expires. *)

From Stdlib Require Import String.
From S2P Require Import Prelude Values Text GatewayContract Interference AuthKeys AuthControllers AuthManager.

(** ** The values the types of the code allow *)

Definition limit_valid (maximum : Z) (limit : option Z) : Prop :=
  ∀ z, limit = Some z → 0 < z ≤ maximum.
Definition limits_valid (l : ApiKeyLimits) : Prop :=
  limit_valid u32_max (limit_requests_per_minute l) ∧ limit_valid u64_max (limit_tokens_per_minute l) ∧
  limit_valid u32_max (limit_concurrency l) ∧ limit_valid u64_max (limit_context_tokens l).

Definition scope_valid (scope : ApiKeyModelScope) : Prop :=
  match scope with
  | ScopeAll => True
  | ScopeSelected models =>
    scope_selected models = Ok scope ∧ Forall (λ m, LogicalModelName_parse m = Ok m) models
  end.

Record policy_valid (p : ApiKeyPolicy) : Prop := {
  pv_scope : scope_valid (ap_model_scope p);
  pv_limits : limits_valid (ap_limits p);
  pv_tenant : ∀ t, ap_tenant p = Some t → TechnicalName_parse t = Ok t;
  pv_application : ∀ t, ap_application p = Some t → TechnicalName_parse t = Ok t;
}.

(** What [ApiKey::new] checks. *)
Definition key_coherent (k : ApiKey) : Prop :=
  ApiKey_new (ak_key_id k) (ak_name k) (ak_policy k) (ak_created_at k) (ak_revoked_at k)
    (ak_rotated_from k) = Ok k.

Record record_valid (r : AuthenticationRecord) : Prop := {
  rv_id : key_id_valid (ak_key_id (ar_api_key r));
  rv_name : DisplayName_parse (ak_name (ar_api_key r)) = Ok (ak_name (ar_api_key r));
  rv_policy : policy_valid (ak_policy (ar_api_key r));
  rv_rotated : ∀ k, ak_rotated_from (ar_api_key r) = Some k → key_id_valid k;
  rv_coherent : key_coherent (ar_api_key r);
  rv_salt : Forall byte (ar_salt r) ∧ length (ar_salt r) = KEY_SALT_BYTES;
}.

(** ** The life cycle *)

Abbreviation KeyTable := (gmap string (AuthenticationRecord * Z)).
Abbreviation id_of := (λ r : AuthenticationRecord, ak_key_id (ar_api_key r)).

Inductive key_step (t : KeyTable) : KeyTable → Prop :=
| step_issue record rev :
  t !! id_of record = None → is_revoked record = false → record_valid record → 0 < rev →
  ak_rotated_from (ar_api_key record) = None →
  key_step t (<[id_of record := (record, rev)]> t)
| step_policy k record rev policy record' rev' :
  t !! k = Some (record, rev) → is_revoked record = false → policy_valid policy →
  policy_record record policy = Ok record' → rev < rev' →
  key_step t (<[k := (record', rev')]> t)
| step_revoke k record rev now record' rev' :
  t !! k = Some (record, rev) → is_revoked record = false →
  revoked_record record now = Ok record' → rev < rev' →
  key_step t (<[k := (record', rev')]> t)
| step_rotate k record rev archived now record' rev' replacement rev2 :
  t !! k = Some (record, rev) → is_revoked record = false →
  (∀ n, archived = Some n → DisplayName_parse n = Ok n) →
  revoked_record_with_name record archived now = Ok record' → rev < rev' →
  t !! id_of replacement = None → is_revoked replacement = false → record_valid replacement → 0 < rev2 →
  ak_rotated_from (ar_api_key replacement) = Some k →
  ak_policy (ar_api_key replacement) = ak_policy (ar_api_key record) →
  key_step t (<[id_of replacement := (replacement, rev2)]> (<[k := (record', rev')]> t)).

Abbreviation evolves := (rtc key_step).

(** Every stored record is valid and kept under its identity. *)
Definition table_valid (t : KeyTable) : Prop :=
  ∀ k record rev, t !! k = Some (record, rev) → id_of record = k ∧ record_valid record ∧ 0 < rev.

(** ** What changing a record keeps *)

Lemma ApiKey_new_Ok i n p c r f k :
  ApiKey_new i n p c r f = Ok k →
  k = {| ak_key_id := i; ak_name := n; ak_policy := p; ak_created_at := c; ak_revoked_at := r;
         ak_rotated_from := f |} ∧ key_coherent k.
Proof. unfold key_coherent. intros Hn. assert (Hn' := Hn). unfold ApiKey_new in Hn. inv_result Hn. done. Qed.

(** [same_key r r']: identity, secret material, creation and origin are the same. *)
Record same_key (r r' : AuthenticationRecord) : Prop := {
  sk_id : id_of r' = id_of r;
  sk_salt : ar_salt r' = ar_salt r;
  sk_verifier : ar_verifier r' = ar_verifier r;
  sk_created : ak_created_at (ar_api_key r') = ak_created_at (ar_api_key r);
  sk_rotated : ak_rotated_from (ar_api_key r') = ak_rotated_from (ar_api_key r);
}.
#[export] Instance same_key_preorder : PreOrder same_key.
Proof. split; [by constructor|]. intros a b c [] []. split; congruence. Qed.

Lemma policy_record_Ok r p r' :
  policy_record r p = Ok r' →
  same_key r r' ∧ is_revoked r' = is_revoked r ∧ ak_policy (ar_api_key r') = p ∧
  (record_valid r → policy_valid p → record_valid r').
Proof.
  unfold policy_record. intros (k & Hk & [= <-])%result_bind_Ok. apply ApiKey_new_Ok in Hk as [-> Hc].
  split_and!; [by constructor|done|done|]. intros [] ?. by constructor.
Qed.

Lemma revoked_record_with_name_Ok r n at_ r' :
  revoked_record_with_name r n at_ = Ok r' →
  same_key r r' ∧ is_revoked r' = true ∧ ak_policy (ar_api_key r') = ak_policy (ar_api_key r) ∧
  ak_name (ar_api_key r') = default (ak_name (ar_api_key r)) n ∧
  (record_valid r → (∀ n', n = Some n' → DisplayName_parse n' = Ok n') → record_valid r').
Proof.
  unfold revoked_record_with_name. intros (k & Hk & [= <-])%result_bind_Ok.
  apply ApiKey_new_Ok in Hk as [-> Hc].
  split_and!; [by constructor|done..|]. intros [] Hn. constructor; try done.
  simpl. destruct n; [by apply Hn|done].
Qed.

Lemma revoked_record_eq r at_ : revoked_record r at_ = revoked_record_with_name r None at_.
Proof. done. Qed.

(** ** Steps of the life cycle *)

(** [follows e e']: the entry is unchanged, or is a newer entry of the same key,
    revoked if the old one was. *)
Definition follows (e e' : AuthenticationRecord * Z) : Prop :=
  e' = e ∨ (e.2 < e'.2 ∧ same_key e.1 e'.1 ∧ is_revoked e.1 = false).

Lemma insert_follows (t : KeyTable) k e e' k0 e0 :
  t !! k = Some e → follows e e' → t !! k0 = Some e0 → ∃ e1, <[k := e']> t !! k0 = Some e1 ∧ follows e0 e1.
Proof.
  intros Hk Hf H0. destruct (decide (k = k0)) as [<-|Hne].
  - rewrite lookup_insert_eq. naive_solver.
  - rewrite lookup_insert_ne by done. exists e0. split; [done|by left].
Qed.

Lemma insert_new_follows (t : KeyTable) k e k0 e0 :
  t !! k = None → t !! k0 = Some e0 → ∃ e1, <[k := e]> t !! k0 = Some e1 ∧ follows e0 e1.
Proof. intros Hk H0. rewrite lookup_insert_ne by congruence. exists e0. split; [done|by left]. Qed.

Lemma key_step_follows t t' k e :
  key_step t t' → t !! k = Some e → ∃ e', t' !! k = Some e' ∧ follows e e'.
Proof.
  intros Hs He. destruct Hs as [record rev Hnone|k0 record rev policy record' rev' Hk Hu _ Hp Hlt
    |k0 record rev now record' rev' Hk Hu Hr Hlt
    |k0 record rev archived now record' rev' replacement rev2 Hk Hu _ Hr Hlt Hnone].
  - by apply insert_new_follows.
  - eapply insert_follows; [done| |done]. right. apply policy_record_Ok in Hp. naive_solver.
  - eapply insert_follows; [done| |done]. right. rewrite revoked_record_eq in Hr.
    apply revoked_record_with_name_Ok in Hr. naive_solver.
  - assert (<[k0:=(record', rev')]> t !! id_of replacement = None) as Hnone'.
    { rewrite lookup_insert_ne; [done|]. intros ->. congruence. }
    apply revoked_record_with_name_Ok in Hr as (Hsame & _).
    assert (∃ e1, <[k0:=(record', rev')]> t !! k = Some e1 ∧ follows e e1) as (e1 & He1 & Hf).
    { eapply insert_follows; [done| |done]. by right. }
    exists e1. split; [|done]. rewrite lookup_insert_ne; [done|]. intros <-. congruence.
Qed.

Lemma follows_trans e1 e2 e3 : follows e1 e2 → follows e2 e3 → follows e1 e3.
Proof.
  intros [->|(? & Hs & ?)] [->|(? & Hs' & ?)]; unfold follows; try naive_solver.
  right. split; [lia|]. split; [by etrans|done].
Qed.

Lemma evolves_follows t t' k e :
  evolves t t' → t !! k = Some e → ∃ e', t' !! k = Some e' ∧ follows e e'.
Proof.
  intros Hs. revert e. induction Hs as [t|t1 t2 t3 H12 _ IH]; intros e He.
  { exists e. split; [done|by left]. }
  destruct (key_step_follows _ _ _ _ H12 He) as (e2 & He2 & Hf).
  destruct (IH e2 He2) as (e3 & He3 & Hf'). exists e3. split; [done|by eapply follows_trans].
Qed.

(** An entry read before is still there when its revision is. *)
Lemma evolves_same_revision t t' k e record rev :
  evolves t t' → t !! k = Some e → t' !! k = Some (record, rev) → rev = e.2 → e = (record, rev).
Proof.
  intros Hs He He' Hrev. destruct (evolves_follows _ _ _ _ Hs He) as (e1 & He1 & Hf). simplify_eq.
  destruct Hf as [Hf|(Hlt & _)]; [by destruct e|simpl in *; lia].
Qed.

Lemma insert_valid (t : KeyTable) k record rev :
  table_valid t → id_of record = k → record_valid record → 0 < rev → table_valid (<[k := (record, rev)]> t).
Proof.
  intros Ht Hid Hv Hr k' record' rev'. destruct (decide (k = k')) as [<-|Hne].
  - rewrite lookup_insert_eq. naive_solver.
  - rewrite lookup_insert_ne by done. apply Ht.
Qed.

Lemma key_step_valid t t' : key_step t t' → table_valid t → table_valid t'.
Proof.
  intros Hs Ht. destruct Hs as [record rev Hnone|k0 record rev policy record' rev' Hk Hu Hpv Hp Hlt
    |k0 record rev now record' rev' Hk Hu Hr Hlt
    |k0 record rev archived now record' rev' replacement rev2 Hk Hu Hn Hr Hlt Hnone].
  - by apply insert_valid.
  - destruct (Ht _ _ _ Hk) as (Hid & Hv & Hpos). apply policy_record_Ok in Hp as (Hs & _ & _ & Hv').
    apply insert_valid; [done| |by apply Hv'|lia]. by rewrite (sk_id _ _ Hs).
  - destruct (Ht _ _ _ Hk) as (Hid & Hv & Hpos). rewrite revoked_record_eq in Hr.
    apply revoked_record_with_name_Ok in Hr as (Hs & _ & _ & _ & Hv').
    apply insert_valid; [done| |by apply Hv'|lia]. by rewrite (sk_id _ _ Hs).
  - destruct (Ht _ _ _ Hk) as (Hid & Hv & Hpos).
    apply revoked_record_with_name_Ok in Hr as (Hs & _ & _ & _ & Hv').
    apply insert_valid; [|done..]. apply insert_valid; [done| |by apply Hv'|lia]. by rewrite (sk_id _ _ Hs).
Qed.

Lemma evolves_valid t t' : evolves t t' → table_valid t → table_valid t'.
Proof. induction 1; eauto using key_step_valid. Qed.

(** ** Rotations form chains *)

(** The predecessor of a replacement is revoked and has no other replacement. *)
Definition lineage (t : KeyTable) : Prop :=
  ∀ k record rev p, t !! k = Some (record, rev) → ak_rotated_from (ar_api_key record) = Some p →
    (∃ old rev0, t !! p = Some (old, rev0) ∧ is_revoked old = true) ∧
    ∀ k' record' rev', t !! k' = Some (record', rev') → ak_rotated_from (ar_api_key record') = Some p → k' = k.

(** Where the entries after a step come from. *)
Lemma key_step_origin t t' k record rev :
  key_step t t' → t' !! k = Some (record, rev) →
  (∃ record0 rev0, t !! k = Some (record0, rev0) ∧ same_key record0 record ∧
     (is_revoked record0 = true → is_revoked record = true)) ∨
  (t !! k = None ∧ ak_rotated_from (ar_api_key record) = None) ∨
  (t !! k = None ∧ ∃ p old rev0 new rev1, ak_rotated_from (ar_api_key record) = Some p ∧
     t !! p = Some (old, rev0) ∧ is_revoked old = false ∧ t' !! p = Some (new, rev1) ∧ is_revoked new = true ∧
     ∀ k', t' !! k' = None ∨ k' = k ∨ is_Some (t !! k')).
Proof.
  intros Hs Hl. destruct (t !! k) as [[record0 rev0]|] eqn:H0.
  { left. exists record0, rev0. split; [done|].
    destruct (key_step_follows _ _ _ _ Hs H0) as (e' & He' & Hf). rewrite Hl in He'. injection He' as <-.
    destruct Hf as [[= -> ->]|(_ & Hk & Hu)]; [done|]. simpl in Hk, Hu. by split; [|congruence]. }
  right. destruct Hs as [new rev' Hnone _ _ _ Hrot|k0 old rev' policy new rev1 Hk|k0 old rev' now new rev1 Hk
    |k0 old rev' archived now new rev1 replacement rev2 Hk Hu _ Hr Hlt Hnone _ _ _ Hrot].
  - left. split; [done|]. destruct (decide (id_of new = k)) as [<-|Hne].
    + rewrite lookup_insert_eq in Hl. by injection Hl as <- <-.
    + rewrite lookup_insert_ne in Hl by done. congruence.
  - rewrite lookup_insert_ne in Hl by congruence. congruence.
  - rewrite lookup_insert_ne in Hl by congruence. congruence.
  - right. split; [done|]. destruct (decide (id_of replacement = k)) as [<-|Hne].
    + rewrite lookup_insert_eq in Hl. injection Hl as <- <-.
      exists k0, old, rev', new, rev1. rewrite lookup_insert_ne, lookup_insert_eq by congruence.
      apply revoked_record_with_name_Ok in Hr as (_ & Hr & _). split_and!; [done..|]. intros k'.
      destruct (decide (k' = id_of replacement)) as [->|]; [by right; left|].
      rewrite lookup_insert_ne by done. destruct (decide (k' = k0)) as [->|]; [right; right; eauto|].
      rewrite lookup_insert_ne by done. destruct (t !! k'); [right; right; eauto|by left].
    + rewrite lookup_insert_ne, lookup_insert_ne in Hl by congruence. congruence.
Qed.

Lemma key_step_lineage t t' : key_step t t' → lineage t → lineage t'.
Proof.
  intros Hs Hlin k record rev p Hl Hp.
  destruct (key_step_origin _ _ _ _ _ Hs Hl) as [(r0 & v0 & H0 & Hk & _)|[[_ Hn]|(Hnone & q & old & v0 & new & v1 & Hq & Hold & Hu & Hnew & Hr & Hdom)]];
    [|congruence|].
  - rewrite (sk_rotated _ _ Hk) in Hp. destruct (Hlin _ _ _ _ H0 Hp) as [(old & v1 & Hold & Hr) Huniq].
    destruct (key_step_follows _ _ _ _ Hs Hold) as ([new v2] & Hnew & Hf).
    assert (new = old) as -> by (destruct Hf as [[= -> ->]|(_ & _ & ?)]; simpl in *; congruence).
    split; [eauto|]. intros k' r' v' Hl' Hp'.
    destruct (key_step_origin _ _ _ _ _ Hs Hl') as [(r1 & v3 & H1 & Hk1 & _)|[[_ Hn]|(_ & q & old' & v3 & new & v4 & Hq & Hold' & Hu & _)]].
    + rewrite (sk_rotated _ _ Hk1) in Hp'. by eapply Huniq.
    + congruence.
    + rewrite Hq in Hp'. injection Hp' as ->. rewrite Hold in Hold'. injection Hold' as -> ->. congruence.
  - rewrite Hq in Hp. injection Hp as ->. split; [eauto|]. intros k' r' v' Hl' Hp'.
    destruct (Hdom k') as [?|[?|[[r1 v3] H1]]]; [congruence|done|].
    destruct (key_step_origin _ _ _ _ _ Hs Hl') as [(r2 & v4 & H2 & Hk2 & _)|[[? _]|[? _]]]; [|congruence..].
    rewrite (sk_rotated _ _ Hk2) in Hp'. destruct (Hlin _ _ _ _ H2 Hp') as [(o & vo & Ho & Hor) _]. congruence.
Qed.

Lemma evolves_lineage t : evolves ∅ t → lineage t.
Proof.
  intros He. assert (lineage ∅) as H0 by by intros k record rev p Hl.
  induction He as [|t1 t2 t3 Hs _ IH]; [done|]. by apply IH, (key_step_lineage t1).
Qed.

(** ** What a manager may rely on

    Other managers change the table between and during the calls; each of their
    changes is a step of the life cycle.  A write takes effect at one point of the
    call, or not at all; a failed one may have taken effect. *)

Definition versioned (e : AuthenticationRecord * Z) : VersionedAuthenticationRecord :=
  {| va_record := e.1; va_revision := e.2 |}.

Abbreviation around := (around_point key_step).

Definition create_write (record : AuthenticationRecord) (v : VersionedAuthenticationRecord)
    (t t' : KeyTable) : Prop :=
  ∃ rev, v = versioned (record, rev) ∧ 0 < rev ∧ t !! id_of record = None ∧
    t' = <[id_of record := (record, rev)]> t.
Definition replace_write (record : AuthenticationRecord) (expected : Z)
    (v : VersionedAuthenticationRecord) (t t' : KeyTable) : Prop :=
  ∃ old rev, v = versioned (record, rev) ∧ expected < rev ∧
    t !! id_of record = Some (old, expected) ∧ t' = <[id_of record := (record, rev)]> t.
Definition rotate_write (revoked : AuthenticationRecord) (expected : Z)
    (replacement : AuthenticationRecord) (v : AuthenticationRotation) (t t' : KeyTable) : Prop :=
  ∃ old rev rev2, v = {| ro_revoked := versioned (revoked, rev);
                         ro_replacement := versioned (replacement, rev2) |} ∧
    expected < rev ∧ t !! id_of revoked = Some (old, expected) ∧
    0 < rev2 ∧ t !! id_of replacement = None ∧
    t' = <[id_of replacement := (replacement, rev2)]> (<[id_of revoked := (revoked, rev)]> t).

Class KeyStoreLaws (W : Type) `{!AuthenticationClock W, !ApiKeyMaterialProvider W,
    !AuthenticationStore W} := {
  key_table : W → KeyTable;
  key_ready : W → Prop;
  law_ready_valid w : key_ready w → table_valid (key_table w);
  law_auth_now w r w' : key_ready w → auth_now w = (r, w') →
    key_ready w' ∧ evolves (key_table w) (key_table w');
  law_material_fill n w r w' : key_ready w → material_fill n w = (r, w') →
    key_ready w' ∧ evolves (key_table w) (key_table w') ∧
    ∀ l, r = Ok l → Forall byte l ∧ length l = n;
  law_key_read k w r w' : key_ready w → key_read k w = (r, w') →
    key_ready w' ∧ around (key_table w) (λ t t', t' = t ∧
      ∀ found, r = Ok found → found = versioned <$> t !! k) (key_table w');
  law_key_create record w r w' : key_ready w → record_valid record → key_create record w = (r, w') →
    key_ready w' ∧ around (key_table w) (writes (create_write record) r) (key_table w');
  law_key_replace record expected w r w' :
    key_ready w → record_valid record → key_replace record expected w = (r, w') →
    key_ready w' ∧ around (key_table w) (writes (replace_write record expected) r) (key_table w');
  law_key_rotate revoked expected replacement w r w' :
    key_ready w → record_valid revoked → record_valid replacement →
    key_rotate revoked expected replacement w = (r, w') →
    key_ready w' ∧
    around (key_table w) (writes (rotate_write revoked expected replacement) r) (key_table w');
}.

(** ** The operations and what one step of the life cycle answers *)

Inductive KeyCall :=
| CallCreate (name : string) (policy : ApiKeyPolicy)
| CallUpdatePolicy (key_id : string) (policy : ApiKeyPolicy)
| CallRevoke (key_id : string)
| CallRotate (key_id replacement_name : string)
| CallRotatePreservingName (key_id : string).

Inductive KeyAnswer :=
| AnswerIssued (change : AuthenticationChange IssuedApiKey)
| AnswerKey (change : AuthenticationChange ApiKey).

Definition se_fmap {W E A B} (f : A → B) (c : SE W E A) : SE W E B := do! a <- c in se_ret (f a).

Definition call_valid (call : KeyCall) : Prop :=
  match call with
  | CallCreate name policy => DisplayName_parse name = Ok name ∧ policy_valid policy
  | CallUpdatePolicy _ policy => policy_valid policy
  | CallRotate _ name => DisplayName_parse name = Ok name
  | CallRevoke _ | CallRotatePreservingName _ => True
  end.

Section calls.
Context {W : Type} `{!AuthenticationClock W, !ApiKeyMaterialProvider W, !AuthenticationStore W,
  !Sha256Digest}.

Definition key_call (call : KeyCall) : SE W AuthenticationError KeyAnswer :=
  match call with
  | CallCreate name policy => se_fmap AnswerIssued (create name policy)
  | CallUpdatePolicy key_id policy => se_fmap AnswerKey (update_policy key_id policy)
  | CallRevoke key_id => se_fmap AnswerKey (revoke key_id)
  | CallRotate key_id name => se_fmap AnswerIssued (rotate key_id name)
  | CallRotatePreservingName key_id => se_fmap AnswerIssued (rotate_preserving_name key_id)
  end.
End calls.

(** The names a rotation gives to the revoked key and to its replacement. *)
Definition rotation_names (call : KeyCall) (record : AuthenticationRecord) (archived : option string)
    (name : string) : Prop :=
  match call with
  | CallRotate _ replacement_name => archived = None ∧ name = replacement_name
  | CallRotatePreservingName _ => name = ak_name (ar_api_key record) ∧
      ∃ n, archived = Some n ∧ archived_rotation_name (ar_api_key record) = Ok n
  | _ => False
  end.
Definition rotated_key (call : KeyCall) : option string :=
  match call with
  | CallRotate key_id _ | CallRotatePreservingName key_id => Some key_id
  | _ => None
  end.

(** One point of the life cycle and the answer that reports it.  Where the answer
    has no event, nothing changed and the key already was what was asked for. *)
Inductive key_effect `{!Sha256Digest} (t : KeyTable) : KeyCall → KeyAnswer → KeyTable → Prop :=
| effect_create name policy record rev secret now :
  t !! id_of record = None → 0 < rev → record_valid record → secret_valid secret →
  ApiKey_new (id_of record) name policy now None None = Ok (ar_api_key record) →
  ar_verifier record = api_key_verifier (ar_salt record) secret →
  key_effect t (CallCreate name policy)
    (AnswerIssued {| ch_value := IssuedApiKey_new (ar_api_key record) secret;
                     ch_event := Some (ApiKeyCreated (id_of record)) |})
    (<[id_of record := (record, rev)]> t)
| effect_update k policy record rev record' rev' :
  t !! k = Some (record, rev) → is_revoked record = false → policy_record record policy = Ok record' →
  rev < rev' →
  key_effect t (CallUpdatePolicy k policy)
    (AnswerKey {| ch_value := ar_api_key record'; ch_event := Some (ApiKeyPolicyUpdated k) |})
    (<[k := (record', rev')]> t)
| effect_update_replay k policy record rev :
  t !! k = Some (record, rev) → is_revoked record = false → ak_policy (ar_api_key record) = policy →
  key_effect t (CallUpdatePolicy k policy)
    (AnswerKey {| ch_value := ar_api_key record; ch_event := None |}) t
| effect_revoke k record rev now record' rev' :
  t !! k = Some (record, rev) → is_revoked record = false → revoked_record record now = Ok record' →
  rev < rev' →
  key_effect t (CallRevoke k)
    (AnswerKey {| ch_value := ar_api_key record'; ch_event := Some (ApiKeyRevoked k) |})
    (<[k := (record', rev')]> t)
| effect_revoke_replay k record rev :
  t !! k = Some (record, rev) → is_revoked record = true →
  key_effect t (CallRevoke k) (AnswerKey {| ch_value := ar_api_key record; ch_event := None |}) t
| effect_rotate call k record rev archived name now record' rev' replacement rev2 secret :
  rotated_key call = Some k → rotation_names call record archived name →
  t !! k = Some (record, rev) → is_revoked record = false →
  revoked_record_with_name record archived now = Ok record' → rev < rev' →
  t !! id_of replacement = None → 0 < rev2 → record_valid replacement → secret_valid secret →
  ApiKey_new (id_of replacement) name (ak_policy (ar_api_key record)) now None (Some k)
    = Ok (ar_api_key replacement) →
  ar_verifier replacement = api_key_verifier (ar_salt replacement) secret →
  key_effect t call
    (AnswerIssued {| ch_value := IssuedApiKey_new (ar_api_key replacement) secret;
                     ch_event := Some (ApiKeyRotated k (id_of replacement)) |})
    (<[id_of replacement := (replacement, rev2)]> (<[k := (record', rev')]> t)).
