(* ===== verification/AuthSafety.v ===== *)
(** * What the authentication manager guarantees for API keys

    The operations of [AuthManager] refine the life cycle of [AuthLifecycle] under
    interference from other managers, and the safety of tokens that follows. *)

From Stdlib Require Import String.
From S2P Require Import Prelude Values Text GatewayContract AuthKeys AuthControllers AuthManager.
From S2P Require Import Interference AuthLifecycle.

Section keys.
Context {W : Type} `{!AuthenticationClock W, !ApiKeyMaterialProvider W, !AuthenticationStore W,
  !Sha256Digest, !KeyStoreLaws W}.
Abbreviation AM := (SE W AuthenticationError).

Abbreviation triple := (Interference.triple key_step key_table key_ready).
Abbreviation stable := (Interference.stable key_step).

Lemma triple_now P : stable P → triple P auth_now (λ _, P).
Proof.
  intros HP w r w' Hw HPw Hc. destruct (law_auth_now _ _ _ Hw Hc) as [? ?]. split_and!; eauto.
Qed.

Lemma triple_fill P n :
  stable P → triple P (material_fill n) (λ l t, P t ∧ (Forall byte l ∧ length l = n)).
Proof.
  intros HP w r w' Hw HPw Hc. destruct (law_material_fill _ _ _ _ Hw Hc) as (? & ? & Hl).
  split_and!; [done..|]. intros l ->. eauto.
Qed.

Definition material_valid (m : GeneratedApiKeyMaterial) : Prop :=
  key_id_valid (gm_key_id m) ∧ secret_valid (gm_secret m) ∧
  Forall byte (gm_salt m) ∧ length (gm_salt m) = KEY_SALT_BYTES.

Lemma triple_material P :
  stable P → triple P generate_material (λ m t, P t ∧ material_valid m).
Proof.
  intros HP. unfold generate_material.
  eapply triple_bind; [by apply triple_fill|]. intros identifier. apply triple_assume. intros _.
  eapply triple_bind; [by apply triple_fill|]. intros secret. apply triple_assume. intros Hsecret.
  eapply triple_bind; [by apply triple_fill|]. intros salt. apply triple_assume. intros Hsalt.
  apply triple_lift. intros key_id Hk. apply triple_ret. intros t Ht. split; [done|].
  unfold from_interface in Hk. destruct (ApiKeyId_parse _) eqn:Hp; simplify_eq.
  apply ApiKeyId_parse_Ok in Hp as [_ Hid]. exact (conj Hid (conj Hsecret Hsalt)).
Qed.

(** ** Reading a key *)

(** The record was the current one at some point after [t0]. *)
Definition read_at (t0 : KeyTable) (k : string) (v : VersionedAuthenticationRecord) (t : KeyTable) : Prop :=
  ∃ t1, evolves t0 t1 ∧ evolves t1 t ∧ t1 !! k = Some (va_record v, va_revision v).

Lemma stable_read_at t0 k v : stable (read_at t0 k v).
Proof. intros t t' (t1 & ? & ? & ?) ?. exists t1. split_and!; [done|by etrans|done]. Qed.
Hint Resolve stable_evolves stable_read_at : core.

(** The answer of a read: what the table held, or a failure of the store. *)
Lemma read_key_inv missing k w r w' :
  key_ready w → read_key missing k w = (r, w') →
  key_ready w' ∧ ∃ t, evolves (key_table w) t ∧ evolves t (key_table w') ∧
    ((∃ e, r = Err (AuthStore e)) ∨ r = ok_or missing (versioned <$> t !! k)).
Proof.
  intros Hw Hr. unfold read_key in Hr. unfold se_bind at 1, se_map_err at 1 in Hr.
  destruct (key_read k w) as [rr w1] eqn:Hk.
  destruct (law_key_read _ _ _ _ Hw Hk) as (Hw1 & t & t' & He & [-> Hf] & He').
  destruct rr as [found|e]; [|injection Hr as <- <-; split; [done|]; exists t; split_and!; eauto].
  rewrite (Hf _ eq_refl) in Hr. unfold se_bind, se_lift, se_ret in Hr.
  destruct (t !! k) as [[record rev]|] eqn:Hl; simpl in Hr.
  - assert (table_valid t) as Hv by (eapply evolves_valid; [done|by apply law_ready_valid]).
    destruct (Hv _ _ _ Hl) as (Hid & _ & Hpos). unfold require_read_record in Hr. simpl in Hr.
    rewrite bool_decide_true in Hr by done. replace (rev =? 0) with false in Hr by lia.
    simpl in Hr. injection Hr as <- <-. split; [done|]. exists t. rewrite Hl. split_and!; eauto.
  - injection Hr as <- <-. split; [done|]. exists t. rewrite Hl. split_and!; eauto.
Qed.

Lemma triple_read t0 missing k : triple (evolves t0) (read_key missing k) (read_at t0 k).
Proof.
  intros w r w' Hw He Hr. destruct (read_key_inv _ _ _ _ _ Hw Hr) as (Hw' & t & H1 & H2 & Ho).
  split_and!; [done|by etrans|]. intros v ->. exists t. split_and!; [by etrans|done|].
  destruct Ho as [[e [=]]|Ho]. destruct (t !! k) as [[record rev]|]; [|done]. by injection Ho as ->.
Qed.

Lemma read_at_valid t0 k v t :
  table_valid t0 → read_at t0 k v t → id_of (va_record v) = k ∧ record_valid (va_record v).
Proof. intros Ht (t1 & He & _ & Hl). by destruct (evolves_valid _ _ He Ht _ _ _ Hl) as (? & ? & _). Qed.

(** ** Writing a key *)

Definition answered (t0 : KeyTable) (call : KeyCall) (answer : KeyAnswer) (t1 : KeyTable) : Prop :=
  around t0 (λ t t', key_effect t call answer t') t1.

Lemma evolves_once t t' : key_step t t' → evolves t t'.
Proof. apply rtc_once. Qed.

(** A point of the call and the table evolving around it. *)
Lemma around_evolves t0 P t1 : around t0 P t1 → (∀ t t', P t t' → evolves t t') → evolves t0 t1.
Proof. intros (t & t' & H1 & HP & H2) Hs. etrans; [done|]. etrans; [by apply Hs|done]. Qed.

Lemma triple_create t0 name policy :
  DisplayName_parse name = Ok name → policy_valid policy →
  triple (evolves t0) (create name policy) (λ a, answered t0 (CallCreate name policy) (AnswerIssued a)).
Proof.
  intros Hn Hp. unfold create.
  eapply triple_bind; [by apply triple_now|]. intros now.
  eapply triple_bind; [by apply triple_material|]. intros m. apply triple_assume.
  intros (Hid & Hsecret & Hsalt). apply triple_lift. intros k Hk.
  pose proof Hk as [Hkeq Hcoh]%ApiKey_new_Ok.
  set (record := {| ar_api_key := k; ar_salt := gm_salt m;
    ar_verifier := api_key_verifier (gm_salt m) (gm_secret m) |}).
  assert (id_of record = gm_key_id m) as Hrid by by subst.
  assert (is_revoked record = false ∧ ak_rotated_from (ar_api_key record) = None) as [Hrev Hrot] by by subst.
  assert (record_valid record) as Hrv by (subst; by constructor).
  eapply (triple_write _ _ _ AuthStore _ _ _ (create_write record) _
    (λ v, let? _ := require_committed_record v record 0 in
          Ok {| ch_value := IssuedApiKey_new k (gm_secret m); ch_event := Some (ApiKeyCreated (gm_key_id m)) |})).
  - auto.
  - done.
  - intros w r w' Hw. by apply law_key_create.
  - intros v w. unfold se_bind, se_lift. by destruct (require_committed_record _ _ _).
  - intros t t' v He (rev & -> & Hpos & Hnone & ->). split; [by apply step_issue|].
    intros b (_ & _ & [= <-])%result_bind_Ok. rewrite <- Hrid in Hk |- *.
    by apply (effect_create t name policy record rev (gm_secret m) now).
Qed.

(** A key found at the revision that was read is the record that was read. *)
Lemma read_at_current t0 k v t old :
  read_at t0 k v t → t !! k = Some (old, va_revision v) → old = va_record v.
Proof.
  intros (t1 & _ & He & Hl) Hk. by injection (evolves_same_revision _ _ _ _ _ _ He Hl Hk eq_refl) as ->.
Qed.

Lemma read_at_evolves t0 k v t : read_at t0 k v t → evolves t0 t.
Proof. intros (t1 & ? & ? & _). by etrans. Qed.

Lemma triple_rotate_record t0 call k current name archived :
  table_valid t0 → rotated_key call = Some k → rotation_names call (va_record current) archived name →
  is_revoked (va_record current) = false →
  DisplayName_parse name = Ok name → (∀ n, archived = Some n → DisplayName_parse n = Ok n) →
  triple (read_at t0 k current) (rotate_record current name archived)
    (λ a, answered t0 call (AnswerIssued a)).
Proof.
  intros Ht0 Hcall Hnames Hrev Hn Ha.
  assert (triple (λ t, read_at t0 k current t ∧ (id_of (va_record current) = k ∧ record_valid (va_record current)))
    (rotate_record current name archived) (λ a, answered t0 call (AnswerIssued a))) as Hgoal;
    [|by eapply triple_weaken; [|exact Hgoal]; intros t Hr; split; [|apply (read_at_valid t0 k current t)]].
  apply triple_assume. intros [Hid Hv]. unfold rotate_record.
  eapply triple_bind; [by apply triple_now|]. intros now.
  eapply triple_bind; [by apply triple_material|]. intros m. apply triple_assume.
  intros (Hmid & Hsecret & Hsalt). rewrite Hid. apply triple_lift. intros r Hr. apply triple_lift.
  intros revoked Hrevoked.
  pose proof Hr as [Hreq Hcoh]%ApiKey_new_Ok.
  pose proof Hrevoked as (Hsame & _ & _ & _ & Hrvv)%revoked_record_with_name_Ok.
  set (replacement := {| ar_api_key := r; ar_salt := gm_salt m;
    ar_verifier := api_key_verifier (gm_salt m) (gm_secret m) |}).
  assert (id_of replacement = gm_key_id m) as Hrid by by subst.
  assert (is_revoked replacement = false ∧ ak_rotated_from (ar_api_key replacement) = Some k ∧
    ak_policy (ar_api_key replacement) = ak_policy (ar_api_key (va_record current))) as (Hnew & Hrot & Hpol)
    by by rewrite <- Hid; subst.
  assert (record_valid replacement) as Hrv.
  { subst. constructor; try done; [apply Hv|]. simpl. intros k' [= <-]. apply Hv. }
  assert (id_of revoked = k) as Hkid by by rewrite (sk_id _ _ Hsame).
  eapply (triple_write _ _ _ AuthStore _ _ _ (rotate_write revoked (va_revision current) replacement) _
    (λ v, let? _ := require_committed_record (ro_revoked v) revoked (va_revision current) in
          let? _ := require_committed_record (ro_replacement v) replacement 0 in
          Ok {| ch_value := IssuedApiKey_new r (gm_secret m);
                ch_event := Some (ApiKeyRotated k (gm_key_id m)) |})).
  - auto.
  - apply read_at_evolves.
  - intros w o w' Hw. by apply law_key_rotate; [|apply Hrvv|].
  - intros v w. unfold se_bind, se_lift.
    destruct (require_committed_record _ revoked _); [|done]. by destruct (require_committed_record _ _ _).
  - intros t t' v Hread (old & rev & rev2 & -> & Hlt & Hold & Hpos & Hnone & ->).
    rewrite Hkid in Hold |- *. pose proof (read_at_current _ _ _ _ _ Hread Hold) as ->.
    split; [by eapply step_rotate|].
    intros b (_ & _ & (_ & _ & [= <-])%result_bind_Ok)%result_bind_Ok. rewrite <- Hrid in Hr |- *.
    by apply (effect_rotate t call k (va_record current) (va_revision current) archived name now revoked
      rev replacement rev2 (gm_secret m)).
Qed.

(** The answer of [replace_key]: its own write, or a key that is as asked for. *)
Definition replaced (k : string) (current : VersionedAuthenticationRecord) (changed : AuthenticationRecord)
    (event : AuthenticationEvent) (replayed : AuthenticationRecord → bool)
    (a : AuthenticationChange ApiKey) (t t' : KeyTable) : Prop :=
  (∃ rev, t !! k = Some (va_record current, va_revision current) ∧ va_revision current < rev ∧
     t' = <[k := (changed, rev)]> t ∧ a = {| ch_value := ar_api_key changed; ch_event := Some event |}) ∨
  (∃ record rev, t' = t ∧ t !! k = Some (record, rev) ∧ replayed record = true ∧
     a = {| ch_value := ar_api_key record; ch_event := None |}).

Lemma triple_replace_key t0 k current changed event replayed :
  id_of changed = k → record_valid changed →
  (∀ t rev, t !! k = Some (va_record current, va_revision current) → va_revision current < rev →
     key_step t (<[k := (changed, rev)]> t)) →
  triple (read_at t0 k current) (replace_key k current changed event replayed)
    (λ a, around t0 (replaced k current changed event replayed a)).
Proof.
  intros <- Hv Hstep w r w' Hw Hread Hr. unfold replace_key in Hr.
  destruct (key_replace changed (va_revision current) w) as [rr w1] eqn:Hc.
  destruct (law_key_replace _ _ _ _ _ Hw Hv Hc) as (Hw1 & t & t' & He & Hwr & He').
  pose proof (stable_read_at _ _ _ _ _ Hread He) as Hread'.
  assert (evolves t t') as Hs.
  { destruct Hwr as [[-> _]|(a & (old & rev & _ & Hlt & Hold & ->) & _)]; [done|].
    pose proof (read_at_current _ _ _ _ _ Hread' Hold) as ->. by apply evolves_once, Hstep. }
  assert (evolves (key_table w) (key_table w1)) as Hev by (by do 2 (etrans; [done|])).
  destruct rr as [v|[]]; [|clear Hwr|injection Hr as <- <-; split_and!; [done..|by intros ? [=]]..].
  - assert (w' = w1) as -> by (unfold se_bind, se_lift in Hr; destruct (require_committed_record _ _ _); by injection Hr).
    split_and!; [done..|]. intros a ->. apply se_bind_Ok in Hr as (_ & _ & _ & [= <- _]).
    destruct Hwr as [[_ [? [=]]]|(x & (old & rev & -> & Hlt & Hold & ->) & Hx)].
    pose proof (read_at_current _ _ _ _ _ Hread' Hold) as ->.
    exists t, (<[id_of changed := (changed, rev)]> t). split_and!; [by eapply read_at_evolves| |done].
    left. exists rev. by rewrite (Hx _ eq_refl).
  - assert (triple (evolves t0) (do! observed <- read_key AuthNotFound (id_of changed) in
      if replayed (va_record observed)
      then se_ret {| ch_value := ar_api_key (va_record observed); ch_event := None |}
      else se_fail (AuthStore AuthConflict)) (λ a, around t0 (replaced (id_of changed) current changed event replayed a))) as Hrest.
    { eapply triple_bind; [apply triple_read|]. intros v. apply triple_if; intros Hb; [|apply triple_fail].
      apply triple_ret. intros t2 (t3 & H1 & H2 & H3). exists t3, t3. split_and!; [done| |done]. right. eauto 10. }
    assert (evolves t0 (key_table w1)) as H01 by (etrans; [exact (read_at_evolves _ _ _ _ Hread)|done]).
    destruct (Hrest _ _ _ Hw1 H01 Hr) as (? & ? & ?).
    split_and!; [done|by etrans|done].
Qed.

(** Read the key and require it to be active. *)
Lemma triple_read_active {A} t0 k (c : VersionedAuthenticationRecord → AM A) Q :
  (∀ v, is_revoked (va_record v) = false → triple (read_at t0 k v) (c v) Q) →
  triple (evolves t0) (do! v <- read_key AuthNotFound k in
    if is_revoked (va_record v) then se_fail AuthNotFound else c v) Q.
Proof.
  intros Hc. eapply triple_bind; [apply triple_read|]. intros v.
  apply triple_if; [intros _; apply triple_fail|apply Hc].
Qed.

Lemma triple_read_valid {A} t0 k v (c : AM A) (Q : A → KeyTable → Prop) :
  table_valid t0 → (id_of (va_record v) = k → record_valid (va_record v) → triple (read_at t0 k v) c Q) →
  triple (read_at t0 k v) c Q.
Proof.
  intros Ht Hc w r w' Hw Hread. destruct (read_at_valid t0 k v _ Ht Hread). by apply Hc.
Qed.

Lemma archived_rotation_name_valid key n : archived_rotation_name key = Ok n → DisplayName_parse n = Ok n.
Proof.
  unfold archived_rotation_name, from_interface. set (v := _ +:+ _). clearbody v.
  unfold DisplayName_parse, validate. destruct (is_bounded_text v _ _) eqn:E; [|done].
  intros [= <-]. by rewrite E.
Qed.

Lemma triple_update_policy t0 k policy :
  table_valid t0 → policy_valid policy →
  triple (evolves t0) (update_policy k policy) (λ a, answered t0 (CallUpdatePolicy k policy) (AnswerKey a)).
Proof.
  intros Ht Hp. apply triple_read_active. intros v Hrev. apply triple_if; intros Hpol.
  { apply bool_decide_eq_true in Hpol. apply triple_ret. intros t (t1 & He1 & He2 & Hl).
    exists t1, t1. split_and!; [done| |done]. by eapply effect_update_replay. }
  apply triple_read_valid; [done|]. intros Hid Hv. apply triple_lift. intros updated Hu.
  pose proof Hu as (Hsame & _ & Hpol' & Huv)%policy_record_Ok.
  intros w r w' Hw Hread Hr.
  eapply triple_replace_key in Hr as (? & ? & Ha); [|by rewrite (sk_id _ _ Hsame)|by apply Huv| |done|done].
  - split_and!; [done..|]. intros a Hra. destruct (Ha a Hra) as (t & t' & He1 & Hp1 & He2).
    exists t, t'. split_and!; [done| |done].
    destruct Hp1 as [(rev & Hl & Hlt & -> & ->)|(record & rev & -> & Hl & [Hr1 Hr2]%andb_prop & ->)].
    + by eapply effect_update.
    + eapply effect_update_replay; [done|by apply negb_true_iff|]. apply bool_decide_eq_true in Hr2. congruence.
  - intros t rev Hl Hlt. by eapply step_policy.
Qed.

Lemma triple_revoke t0 k :
  table_valid t0 →
  triple (evolves t0) (revoke k) (λ a, answered t0 (CallRevoke k) (AnswerKey a)).
Proof.
  intros Ht. unfold revoke. eapply triple_bind; [by apply triple_now|]. intros now.
  eapply triple_bind; [apply triple_read|]. intros v. apply triple_if; intros Hrev.
  { apply triple_ret. intros t (t1 & He1 & He2 & Hl). exists t1, t1. split_and!; [done| |done].
    by eapply effect_revoke_replay. }
  apply triple_read_valid; [done|]. intros Hid Hv. apply triple_lift. intros revoked Hu.
  pose proof Hu as Hu'. rewrite revoked_record_eq in Hu'.
  apply revoked_record_with_name_Ok in Hu' as (Hsame & _ & _ & _ & Huv).
  intros w r w' Hw Hread Hr.
  eapply triple_replace_key in Hr as (? & ? & Ha); [|by rewrite (sk_id _ _ Hsame)|by apply Huv| |done|done].
  - split_and!; [done..|]. intros a Hra. destruct (Ha a Hra) as (t & t' & He1 & Hp1 & He2).
    exists t, t'. split_and!; [done| |done].
    destruct Hp1 as [(rev & Hl & Hlt & -> & ->)|(record & rev & -> & Hl & Hr1 & ->)].
    + by eapply effect_revoke.
    + by eapply effect_revoke_replay.
  - intros t rev Hl Hlt. by eapply step_revoke.
Qed.

Lemma triple_rotate t0 k name :
  table_valid t0 → DisplayName_parse name = Ok name →
  triple (evolves t0) (rotate k name) (λ a, answered t0 (CallRotate k name) (AnswerIssued a)).
Proof.
  intros Ht Hn. apply triple_read_active. intros v Hrev. by apply triple_rotate_record.
Qed.

Lemma triple_rotate_preserving_name t0 k :
  table_valid t0 →
  triple (evolves t0) (rotate_preserving_name k)
    (λ a, answered t0 (CallRotatePreservingName k) (AnswerIssued a)).
Proof.
  intros Ht. apply triple_read_active. intros v Hrev. apply triple_read_valid; [done|]. intros Hid Hv.
  apply triple_lift. intros archived Ha. apply triple_rotate_record; try done.
  - split; [done|]. eauto.
  - apply Hv.
  - intros n [= ->]. by eapply archived_rotation_name_valid.
Qed.

Lemma triple_fmap {A B} (f : A → B) P (c : AM A) (Q : B → KeyTable → Prop) :
  triple P c (λ a, Q (f a)) → triple P (se_fmap f c) Q.
Proof. intros Hc. eapply triple_bind; [done|]. intros a. by apply triple_ret. Qed.

Lemma key_call_refines call t0 :
  table_valid t0 → call_valid call → triple (evolves t0) (key_call call) (answered t0 call).
Proof.
  intros Ht Hc. destruct call; simpl in Hc |- *; apply triple_fmap.
  - destruct Hc. by apply triple_create.
  - by apply triple_update_policy.
  - by apply triple_revoke.
  - by apply triple_rotate.
  - by apply triple_rotate_preserving_name.
Qed.

(** C29: the key operations refine the life cycle.  With any other managers using
    the same store at the same time, an operation lets the table of keys only make
    steps of the life cycle, whatever it returns; and a successful answer reports
    the effect of one point of the call: the step it made, under its event, or
    without an event a key that already was what was asked for. *)
Theorem key_operations_refine_the_life_cycle call w r w' :
  key_ready w → call_valid call → key_call call w = (r, w') →
  key_ready w' ∧ evolves (key_table w) (key_table w') ∧
  ∀ answer, r = Ok answer →
    answered (key_table w) call answer (key_table w').
Proof.
  intros Hw Hc Hr. by apply (key_call_refines call (key_table w) (law_ready_valid _ Hw) Hc w r w' Hw).
Qed.

(** ** Authentication *)

Definition expired (record : AuthenticationRecord) (now : Z) : bool :=
  is_some_and (ap_expires_at (ak_policy (ar_api_key record))) (λ expiry, expiry <=? now).

(** The verdict on a parsed token from the record of its key. *)
Definition accepts (record : AuthenticationRecord) (secret : list Z) (model : string) (now : Z) : bool :=
  negb (is_revoked record) && negb (expired record now)
  && bool_decide (ar_verifier record = api_key_verifier (ar_salt record) secret)
  && scope_permits (ap_model_scope (ak_policy (ar_api_key record))) model.
Definition verdict (p : ParsedApiKey) (model : string) (record : AuthenticationRecord) (now : Z)
  : result AuthenticationError AuthenticationPrincipal :=
  if accepts record (pk_secret p) model now then Ok (AuthenticationPrincipal_new (ar_api_key record))
  else Err AuthUnauthorized.

(** The time of some call of the clock. *)
Definition clock_time (now : Z) : Prop := ∃ w w' : W, auth_now w = (Ok now, w').
(** A failure of the store or of the clock. *)
Definition provider_failure (e : AuthenticationError) : Prop :=
  (∃ e', e = AuthStore e') ∨ ∃ w w' : W, auth_now w = (Err e, w').

(** After the read: the clock and the comparisons. *)
Lemma judge_stored (stored : VersionedAuthenticationRecord) p model w r w' :
  (do! principal <-
     (do! now <- auth_now in
      if is_some (ak_revoked_at (ar_api_key (va_record stored)))
         || is_some_and (ap_expires_at (ak_policy (ar_api_key (va_record stored)))) (λ expiry, expiry <=? now)
      then se_fail AuthUnauthorized
      else if negb (verifiers_equal (ar_verifier (va_record stored))
                      (api_key_verifier (ar_salt (va_record stored)) (pk_secret p)))
           then se_fail AuthUnauthorized
           else se_ret (AuthenticationPrincipal_new (ar_api_key (va_record stored)))) in
   if negb (scope_permits (ap_model_scope (pr_policy principal)) model)
   then se_fail AuthUnauthorized else se_ret principal) w = (r, w') →
  ∃ rn, auth_now w = (rn, w') ∧
    match rn with
    | Ok now => r = verdict p model (va_record stored) now
    | Err e => r = Err e
    end.
Proof.
  unfold se_bind, se_fail, se_ret. destruct (auth_now w) as [[now|e] w1]; [|intros [= <- <-]; by exists (Err e)].
  unfold verdict, accepts, expired, is_revoked, verifiers_equal. intros Hr. exists (Ok now).
  assert (w1 = w') as -> by (repeat case_match; simplify_eq; done). split; [done|].
  set (b1 := is_some _) in *. set (b2 := is_some_and _ _) in *.
  destruct b1; [by injection Hr as <-|]. destruct b2; [by injection Hr as <-|]. cbn [orb negb andb] in *.
  destruct (bool_decide _); [|by injection Hr as <-]. cbn [negb andb pr_policy AuthenticationPrincipal_new] in *.
  by destruct (scope_permits _ _); injection Hr as <-.
Qed.

Lemma authenticate_inv token model w r w' :
  key_ready w → authenticate token model w = (r, w') →
  key_ready w' ∧ evolves (key_table w) (key_table w') ∧
  match ParsedApiKey_parse token with
  | None => r = Err AuthUnauthorized
  | Some p =>
    (∃ e, r = Err e ∧ provider_failure e) ∨
    ∃ t, evolves (key_table w) t ∧ evolves t (key_table w') ∧
      match t !! pk_key_id p with
      | None => r = Err AuthUnauthorized
      | Some (record, _) => ∃ now, clock_time now ∧ r = verdict p model record now
      end
  end.
Proof.
  intros Hw Hr. unfold authenticate, authenticate_identity in Hr.
  destruct (ParsedApiKey_parse token) as [p|]; [|by injection Hr as <- <-]. cbn [ok_or] in Hr.
  unfold se_bind at 2, se_lift at 1 in Hr. unfold se_bind at 1, se_bind at 1 in Hr.
  destruct (read_key AuthUnauthorized (pk_key_id p) w) as [rr w1] eqn:Hk.
  destruct (read_key_inv _ _ _ _ _ Hw Hk) as (Hw1 & t & He & He' & Ho).
  destruct rr as [stored|e].
  - change (((do! principal <-
     (do! now <- auth_now in
      if is_some (ak_revoked_at (ar_api_key (va_record stored)))
         || is_some_and (ap_expires_at (ak_policy (ar_api_key (va_record stored)))) (λ expiry, expiry <=? now)
      then se_fail AuthUnauthorized
      else if negb (verifiers_equal (ar_verifier (va_record stored))
                      (api_key_verifier (ar_salt (va_record stored)) (pk_secret p)))
           then se_fail AuthUnauthorized
           else se_ret (AuthenticationPrincipal_new (ar_api_key (va_record stored)))) in
     if negb (scope_permits (ap_model_scope (pr_policy principal)) model)
     then se_fail AuthUnauthorized else se_ret principal) : AM AuthenticationPrincipal) w1 = (r, w')) in Hr.
    apply judge_stored in Hr as (rn & Hn & Hr). destruct (law_auth_now _ _ _ Hw1 Hn) as [Hw' He2].
    split_and!; [done|by do 2 (etrans; [done|])|].
    destruct Ho as [[e [=]]|Ho]. destruct (t !! pk_key_id p) as [[record rev]|] eqn:Hl; [|done].
    injection Ho as ->. destruct rn as [now|e]; [right|left].
    + exists t. rewrite Hl. split_and!; [done|by etrans|]. exists now. split; [|done]. by eexists _, _.
    + exists e. split; [done|]. right. eauto.
  - injection Hr as <- <-. split_and!; [done|by etrans|]. destruct Ho as [[e' [= ->]]|Ho]; [left|right].
    + eexists. split; [done|]. left. eauto.
    + exists t. split_and!; [done..|]. by destruct (t !! pk_key_id p) as [[record rev]|]; simplify_eq/=.
Qed.

(** The point of the life cycle that a successful answer reports. *)
Lemma answered_point call w answer w' :
  key_ready w → call_valid call → key_call call w = (Ok answer, w') →
  ∃ t t', key_effect t call answer t' ∧ evolves t' (key_table w').
Proof.
  intros Hw Hc Hcall.
  destruct (key_call_refines call _ (law_ready_valid _ Hw) Hc _ _ _ Hw (rtc_refl _ _) Hcall) as (_ & _ & Hans).
  destruct (Hans _ eq_refl) as (t & t' & _ & Heff & Het). eauto.
Qed.

(** A world the system can be in later: the table has evolved from that of [w]. *)
Definition later (w w' : W) : Prop := key_ready w' ∧ evolves (key_table w) (key_table w').

Lemma revoked_entry_stays t t' k record rev :
  evolves t t' → t !! k = Some (record, rev) → is_revoked record = true → t' !! k = Some (record, rev).
Proof.
  intros He Hl Hr. destruct (evolves_follows _ _ _ _ He Hl) as (e' & Hl' & [->|(_ & _ & Hf)]); [done|].
  simpl in Hf. congruence.
Qed.

(** The key an operation takes out of service. *)
Definition retires (call : KeyCall) (k : string) : Prop := call = CallRevoke k ∨ rotated_key call = Some k.

Lemma effect_retires t call k answer t' :
  key_effect t call answer t' → retires call k → ∃ record rev, t' !! k = Some (record, rev) ∧ is_revoked record = true.
Proof.
  intros He Hc. destruct He as [| | |k0 record rev now record' rev' Hl Hu Hr Hlt|k0 record rev Hl Hu
    |call k0 record rev archived name now record' rev' replacement rev2 secret Hk Hn Hl Hu Hr Hlt Hnone];
    try (by destruct Hc).
  - destruct Hc as [[= ->]|[=]]. exists record', rev'. rewrite lookup_insert_eq. split; [done|].
    rewrite revoked_record_eq in Hr. by apply revoked_record_with_name_Ok in Hr as (_ & ? & _).
  - destruct Hc as [[= ->]|[=]]. eauto.
  - destruct Hc as [->|Hc]; [done|]. rewrite Hk in Hc. injection Hc as ->.
    exists record', rev'. apply revoked_record_with_name_Ok in Hr as (_ & ? & _). split; [|done].
    rewrite lookup_insert_ne by (intros E; congruence). apply lookup_insert_eq.
Qed.

(** C30: a retired key is dead.  Once a revocation or a rotation of a key has
    been answered, no token of the key is accepted in any later state, for any
    model and whatever managers do at the same time. *)
Theorem retired_key_never_authenticates call k w answer w' w2 secret model r w3 :
  key_ready w → call_valid call → retires call k → key_call call w = (Ok answer, w') →
  later w' w2 → key_id_valid k → secret_valid secret →
  authenticate (token_of k secret) model w2 = (r, w3) →
  ∃ e, r = Err e ∧ (e = AuthUnauthorized ∨ provider_failure e).
Proof.
  intros Hw Hc Hk Hcall [Hw2 He2] Hid Hs Ha.
  destruct (answered_point _ _ _ _ Hw Hc Hcall) as (t & t' & Heff & Het).
  destruct (effect_retires _ _ _ _ _ Heff Hk) as (record & rev & Hl & Hr).
  apply authenticate_inv in Ha as (_ & _ & Ha); [|done]. rewrite parse_token in Ha by done.
  destruct Ha as [(e & -> & Hf)|(t3 & He3 & _ & Ha)]; [by eauto|]. simpl in Ha.
  rewrite (revoked_entry_stays t' t3 k record rev) in Ha; [|by do 2 (etrans; [done|])|done..].
  destruct Ha as (now & _ & ->). unfold verdict, accepts. rewrite Hr. simpl. eauto.
Qed.

(** The record behind an issued key, with the verifier of its secret. *)
Lemma effect_issued t call change t' :
  key_effect t call (AnswerIssued change) t' →
  ∃ record rev secret, t' !! id_of record = Some (record, rev) ∧ key_id_valid (id_of record) ∧
    secret_valid secret ∧ ar_verifier record = api_key_verifier (ar_salt record) secret ∧
    ch_value change = IssuedApiKey_new (ar_api_key record) secret.
Proof.
  intros He. inversion He; subst; eexists _, _, _; rewrite lookup_insert_eq; split_and!; try done;
    by apply rv_id.
Qed.

(** Two messages with one digest. *)
Definition collision : Prop := ∃ m m' : list Z, m ≠ m' ∧ sha256 m = sha256 m'.

Lemma api_key_verifier_inj salt secret secret' :
  api_key_verifier salt secret = api_key_verifier salt secret' → secret = secret' ∨ collision.
Proof.
  intros He. destruct (decide (secret = secret')) as [->|Hne]; [by left|right].
  exists (VERIFIER_DOMAIN ++ salt ++ secret), (VERIFIER_DOMAIN ++ salt ++ secret').
  split; [|done]. by intros ?%(inj _)%(inj _).
Qed.

(** C31: only the issued token is accepted.  When a creation or a rotation
    answered with a new key, then in every later state a text that authenticates
    as that key is the token of the answer, unless SHA-256 collides. *)
Theorem only_the_issued_token_authenticates call w change w' w2 text model principal w3 :
  key_ready w → call_valid call → key_call call w = (Ok (AnswerIssued change), w') → later w' w2 →
  authenticate text model w2 = (Ok principal, w3) →
  pr_key_id principal = ak_key_id (is_api_key (ch_value change)) →
  (take_token (ch_value change)).1 = Some text ∨ collision.
Proof.
  intros Hw Hc Hcall [Hw2 He2] Ha Hpid.
  destruct (answered_point _ _ _ _ Hw Hc Hcall) as (t & t' & Heff & Het).
  destruct (effect_issued _ _ _ _ Heff) as (record & rev & secret & Hl & _ & Hs & Hv & Hval).
  rewrite Hval in *. simpl in Hpid.
  apply authenticate_inv in Ha as (_ & _ & Ha); [|done].
  destruct (ParsedApiKey_parse text) as [p|] eqn:Hp; [|done]. apply parse_token_inv in Hp as (Hpv & Hps & ->).
  destruct Ha as [(e & [=] & _)|(t3 & He3 & _ & Ha)].
  destruct (t3 !! pk_key_id p) as [[found rev3]|] eqn:H3; [|done]. destruct Ha as (now & _ & Ha).
  assert (evolves t' t3) as Ht3 by (by do 2 (etrans; [done|])).
  assert (table_valid t3) as Hv3.
  { eapply evolves_valid; [|apply (law_ready_valid w2 Hw2)]. done. }
  destruct (Hv3 _ _ _ H3) as (Hfid & _ & _). unfold verdict in Ha.
  destruct (accepts found (pk_secret p) model now) eqn:Hacc; [|done]. injection Ha as ->. simpl in Hpid.
  assert (id_of record = pk_key_id p) as Hsame by congruence. rewrite Hsame in Hl.
  destruct (evolves_follows _ _ _ _ Ht3 Hl) as (e' & He' & Hf). rewrite H3 in He'. injection He' as <-.
  assert (ar_salt found = ar_salt record ∧ ar_verifier found = ar_verifier record) as [Hsalt Hver].
  { destruct Hf as [[= ->]|(_ & [] & _)]; done. }
  unfold accepts in Hacc. apply andb_prop in Hacc as [[_ Hmatch%bool_decide_eq_true]%andb_prop _].
  rewrite Hsalt, Hver, Hv in Hmatch. destruct (api_key_verifier_inj _ _ _ Hmatch) as [->|]; [left|by right].
  simpl. by rewrite Hsame.
Qed.

(** C32: the issued token is accepted.  In every later state the token of a
    creation or a rotation authenticates as the key of the answer with its current
    policy; it is refused only because the store or the clock failed, or because of
    the current record: revoked, expired, or without the model in its scope. *)
Theorem issued_token_authenticates call w change w' w2 text model r w3 :
  key_ready w → call_valid call → key_call call w = (Ok (AnswerIssued change), w') → later w' w2 →
  (take_token (ch_value change)).1 = Some text → authenticate text model w2 = (r, w3) →
  (∃ e, r = Err e ∧ provider_failure e) ∨
  ∃ t record rev now, evolves (key_table w2) t ∧ evolves t (key_table w3) ∧ clock_time now ∧
    t !! ak_key_id (is_api_key (ch_value change)) = Some (record, rev) ∧
    r = if is_revoked record || expired record now
           || negb (scope_permits (ap_model_scope (ak_policy (ar_api_key record))) model)
        then Err AuthUnauthorized
        else Ok {| pr_key_id := ak_key_id (is_api_key (ch_value change));
                   pr_policy := ak_policy (ar_api_key record) |}.
Proof.
  intros Hw Hc Hcall [Hw2 He2] Htok Ha.
  destruct (answered_point _ _ _ _ Hw Hc Hcall) as (t & t' & Heff & Het).
  destruct (effect_issued _ _ _ _ Heff) as (record & rev & secret & Hl & Hid & Hs & Hv & Hval).
  rewrite Hval in *. assert (text = token_of (id_of record) secret) as -> by (by injection Htok).
  cbn [is_api_key IssuedApiKey_new].
  apply authenticate_inv in Ha as (_ & _ & Ha); [|done].
  rewrite (parse_token (id_of record) secret Hid Hs) in Ha.
  destruct Ha as [?|(t3 & He3 & He4 & Ha)]; [by left|right]. simpl in Ha.
  destruct (evolves_follows t' t3 _ _ ltac:(by do 2 (etrans; [done|])) Hl) as ([found rev3] & H3 & Hf).
  rewrite H3 in Ha. destruct Ha as (now & Hnow & ->). exists t3, found, rev3, now.
  split_and!; [done..|].
  assert (ar_salt found = ar_salt record ∧ ar_verifier found = ar_verifier record ∧ id_of found = id_of record)
    as (Hsalt & Hver & Hfid).
  { destruct Hf as [[= -> ->]|(_ & [] & _)]; done. }
  unfold verdict, accepts. simpl. rewrite Hsalt, Hver, bool_decide_true by done. rewrite andb_true_r.
  unfold AuthenticationPrincipal_new. rewrite Hfid.
  destruct (is_revoked found), (expired found now), (scope_permits _ _); done.
Qed.

(** ** Runs *)

Fixpoint run_calls (calls : list KeyCall) (w : W) : W :=
  match calls with [] => w | call :: calls => run_calls calls (key_call call w).2 end.

Lemma run_calls_later calls w : key_ready w → Forall call_valid calls → later w (run_calls calls w).
Proof.
  intros Hw Hc. revert w Hw. induction Hc as [|call calls Hc _ IH]; intros w Hw; [by split|]. simpl.
  destruct (key_call call w) as [r w1] eqn:E. simpl.
  destruct (key_call_refines call _ (law_ready_valid _ Hw) Hc _ _ _ Hw (rtc_refl _ _) E) as (Hw1 & He1 & _).
  destruct (IH _ Hw1). split; [done|by etrans].
Qed.

(** rotations form chains.  After any sequence of key operations on an empty
    store, whatever other managers do meanwhile, the predecessor of a replacement is
    in the store, is revoked, and has no other replacement. *)
Theorem rotations_form_chains calls w :
  key_ready w → key_table w = ∅ → Forall call_valid calls → lineage (key_table (run_calls calls w)).
Proof.
  intros Hw Hempty Hc. apply evolves_lineage. rewrite <- Hempty. by apply run_calls_later.
Qed.
End keys.
