(* ===== verification/AuthDatabase.v ===== *)
(** * The key store over the database

    [DatabaseAuthenticationStore] of [core/node/src/li_authentication_database.rs]:
    one record per key, with its policy and verifier.  A stored row is exactly the
    projection of a valid record, and the store keeps the promises of
    [AuthLifecycle.KeyStoreLaws]. *)

From Stdlib Require Import String.
From S2P Require Import Prelude Values Text GatewayContract AuthKeys AuthControllers AuthManager.
From S2P Require Import Interference AuthLifecycle AuthSafety Database DatabaseStorage DatabaseSafety.

(** ** Rows *)

Definition AUTHENTICATION_RECORD_SCHEMA_NAME : string := "li_authentication_record".
Definition AUTHENTICATION_RECORD_SCHEMA_VERSION : Z := 1.

Record AuthenticationDatabaseSchema := { as_name : string; as_version : Z }.
Record AuthenticationDatabaseRecord := {
  ad_schema : AuthenticationDatabaseSchema;
  ad_key_id : string;
  ad_name : string;
  ad_selected_models : option (list string);
  ad_expires_at : option Z;
  ad_requests_per_minute : option Z;
  ad_tokens_per_minute : option Z;
  ad_concurrency : option Z;
  ad_context_tokens : option Z;
  ad_tenant : option string;
  ad_application : option string;
  ad_created_at : Z;
  ad_revoked_at : option Z;
  ad_rotated_from : option string;
  ad_salt : list Z;
  ad_verifier : list Z;
}.

Definition authentication_database_record (record : AuthenticationRecord) : AuthenticationDatabaseRecord :=
  let key := ar_api_key record in
  let limits := ap_limits (ak_policy key) in
  {| ad_schema := {| as_name := AUTHENTICATION_RECORD_SCHEMA_NAME;
                     as_version := AUTHENTICATION_RECORD_SCHEMA_VERSION |};
     ad_key_id := ak_key_id key;
     ad_name := ak_name key;
     ad_selected_models := selected_models (ap_model_scope (ak_policy key));
     ad_expires_at := ap_expires_at (ak_policy key);
     ad_requests_per_minute := limit_requests_per_minute limits;
     ad_tokens_per_minute := limit_tokens_per_minute limits;
     ad_concurrency := limit_concurrency limits;
     ad_context_tokens := limit_context_tokens limits;
     ad_tenant := ap_tenant (ak_policy key);
     ad_application := ap_application (ak_policy key);
     ad_created_at := ak_created_at key;
     ad_revoked_at := ak_revoked_at key;
     ad_rotated_from := ak_rotated_from key;
     ad_salt := ar_salt record;
     ad_verifier := ar_verifier record |}.

(** [map_err(|_| AuthenticationStoreError::Corrupt)] *)
Definition or_corrupt {E A} (r : result E A) : result AuthenticationStoreError A :=
  match r with Ok a => Ok a | Err _ => Err AuthCorrupt end.

(** [NonZero::new] *)
Definition non_zero (value : Z) : option Z := if value =? 0 then None else Some value.

Definition authentication_record (record : AuthenticationDatabaseRecord)
  : result AuthenticationStoreError AuthenticationRecord :=
  if negb (bool_decide (as_name (ad_schema record) = AUTHENTICATION_RECORD_SCHEMA_NAME))
     || negb (as_version (ad_schema record) =? AUTHENTICATION_RECORD_SCHEMA_VERSION)
  then Err AuthCorrupt
  else
    let? model_scope := match ad_selected_models record with
      | None => Ok ScopeAll
      | Some models =>
        let? models := or_corrupt (parse_all LogicalModelName_parse models) in
        or_corrupt (scope_selected models)
      end in
    let limits := {| limit_requests_per_minute := ad_requests_per_minute record ≫= non_zero;
                     limit_tokens_per_minute := ad_tokens_per_minute record ≫= non_zero;
                     limit_concurrency := ad_concurrency record ≫= non_zero;
                     limit_context_tokens := ad_context_tokens record ≫= non_zero |} in
    if bool_decide (ad_requests_per_minute record = Some 0)
       || bool_decide (ad_tokens_per_minute record = Some 0)
       || bool_decide (ad_concurrency record = Some 0)
       || bool_decide (ad_context_tokens record = Some 0)
    then Err AuthCorrupt
    else
      let? tenant := or_corrupt (parse_option TechnicalName_parse (ad_tenant record)) in
      let? application := or_corrupt (parse_option TechnicalName_parse (ad_application record)) in
      let policy := {| ap_model_scope := model_scope; ap_expires_at := ad_expires_at record;
                       ap_limits := limits; ap_tenant := tenant; ap_application := application |} in
      let? key_id := or_corrupt (ApiKeyId_parse (ad_key_id record)) in
      let? name := or_corrupt (DisplayName_parse (ad_name record)) in
      let? rotated_from := or_corrupt (parse_option ApiKeyId_parse (ad_rotated_from record)) in
      let? key := or_corrupt (ApiKey_new key_id name policy (ad_created_at record)
                                (ad_revoked_at record) rotated_from) in
      Ok {| ar_api_key := key; ar_salt := ad_salt record; ar_verifier := ad_verifier record |}.

Definition versioned_authentication_record (record : AuthenticationDatabaseRecord) (revision : Z)
  : result AuthenticationStoreError VersionedAuthenticationRecord :=
  let? record := authentication_record record in
  Ok {| va_record := record; va_revision := revision |}.

Definition authentication_store_error (error : DatabaseError) : AuthenticationStoreError :=
  match error with
  | DbConflict _ _ _ _ | DbIdempotencyConflict _ => AuthConflict
  | DbCorrupt _ => AuthCorrupt
  | DbNotFound _ _ | DbInvalidInput _ _ | DbUnavailable _ | DbClosed => AuthUnavailable
  end.

Definition require_applied (disposition : DatabaseCommitDisposition)
  : result AuthenticationStoreError () :=
  match disposition with Applied => Ok () | Replayed => Err AuthConflict end.

(** ** The store *)

Section store.
Context {C : Type} `{!Sqlite C, !DatabaseClock C, !Sha256, !Json DatabaseCommit,
  !Json (list DatabaseCommit), !Json AuthenticationDatabaseRecord}.
Abbreviation AS := (SE (DatabaseManager C) AuthenticationStoreError).

#[export] Instance authentication_row : DatabaseRecord AuthenticationDatabaseRecord := {|
  record_collection := Authentication; record_version_of := 1; record_identifier := ad_key_id |}.

Definition database_key_read (key_id : string) : AS (option VersionedAuthenticationRecord) := λ m,
  match database_read_record (R := AuthenticationDatabaseRecord) key_id m with
  | (Ok stored, m) =>
    (let? v := versioned_authentication_record (sr_value stored) (sr_revision stored) in Ok (Some v), m)
  | (Err (DbNotFound _ _), m) => (Ok None, m)
  | (Err e, m) => (Err (authentication_store_error e), m)
  end.

Definition database_key_all : AS (list VersionedAuthenticationRecord) := λ m,
  match database_read_all (R := AuthenticationDatabaseRecord) m with
  | (Ok stored, m) =>
    (parse_all (λ s, versioned_authentication_record (sr_value s) (sr_revision s)) stored, m)
  | (Err e, m) => (Err (authentication_store_error e), m)
  end.

(** [self.database.write(save(key, record, expected))] and the applied revision. *)
Definition database_key_save (key : string) (record : AuthenticationRecord)
    (expected : DatabaseRevision) : AS VersionedAuthenticationRecord :=
  do! (commit, disposition) <- se_map_err authentication_store_error (database_write
    (CommandSave key (authentication_database_record record) expected)) in
  run! se_lift (require_applied disposition) in
  se_ret {| va_record := record; va_revision := dc_revision commit |}.

Definition database_key_create (record : AuthenticationRecord) : AS VersionedAuthenticationRecord :=
  database_key_save ("authentication:create:" +:+ ak_key_id (ar_api_key record)) record RevisionMissing.

Definition database_key_replace (record : AuthenticationRecord) (expected_revision : Z)
  : AS VersionedAuthenticationRecord :=
  database_key_save ("authentication:replace:" +:+ ak_key_id (ar_api_key record) +:+ ":"
    +:+ to_decimal expected_revision) record (RevisionExact expected_revision).

Definition database_key_rotate (revoked : AuthenticationRecord) (expected_revision : Z)
    (replacement : AuthenticationRecord) : AS AuthenticationRotation :=
  let revoked_id := ak_key_id (ar_api_key revoked) in
  let replacement_id := ak_key_id (ar_api_key replacement) in
  do! tx <- se_map_err authentication_store_error (se_lift (
    let? tx := DatabaseTransaction_new ("authentication:rotate:" +:+ revoked_id +:+ ":" +:+ replacement_id) in
    let? tx := tx_save (authentication_database_record revoked) (RevisionExact expected_revision) tx in
    tx_save (authentication_database_record replacement) RevisionMissing tx)) in
  do! (commits, disposition) <- se_map_err authentication_store_error (database_write_transaction tx) in
  run! se_lift (require_applied disposition) in
  match commits with
  | [first; second] =>
    if negb (bool_decide (dc_identifier first = revoked_id))
       || negb (bool_decide (dc_identifier second = replacement_id))
    then se_fail AuthCorrupt
    else se_ret {| ro_revoked := {| va_record := revoked; va_revision := dc_revision first |};
                   ro_replacement := {| va_record := replacement; va_revision := dc_revision second |} |}
  | _ => se_fail AuthCorrupt
  end.

#[export] Instance database_authentication_store : AuthenticationStore (DatabaseManager C) := {|
  key_read := database_key_read;
  key_all := database_key_all;
  key_create := database_key_create;
  key_replace := database_key_replace;
  key_rotate := database_key_rotate;
|}.
End store.

(** ** Rows are the projections of valid records *)

(** The values the field types of a row allow. *)
Definition row_typed (d : AuthenticationDatabaseRecord) : Prop :=
  (∀ z, ad_requests_per_minute d = Some z → in_u32 z) ∧ (∀ z, ad_tokens_per_minute d = Some z → in_u64 z) ∧
  (∀ z, ad_concurrency d = Some z → in_u32 z) ∧ (∀ z, ad_context_tokens d = Some z → in_u64 z) ∧
  Forall byte (ad_salt d) ∧ length (ad_salt d) = KEY_SALT_BYTES.

Lemma identical_technical : identical TechnicalName_parse.
Proof. by intros v w [_ ?]%validate_Ok. Qed.
Lemma identical_display : identical DisplayName_parse.
Proof. by intros v w [_ ?]%validate_Ok. Qed.
Lemma identical_key : identical ApiKeyId_parse.
Proof. by intros v w [_ ?]%validate_Ok. Qed.
Hint Resolve identical_technical identical_display identical_key : core.

Lemma or_corrupt_inv {E A} (r : result E A) a : or_corrupt r = Ok a → r = Ok a.
Proof. destruct r; naive_solver. Qed.
Lemma non_zero_id o : o ≠ Some 0 → (o ≫= non_zero) = o.
Proof. destruct o as [z|]; [|done]. simpl. unfold non_zero. destruct (Z.eqb_spec z 0) as [->|]; done. Qed.
Lemma limit_valid_ne m o : limit_valid m o → o ≠ Some 0.
Proof. intros Hl ->. destruct (Hl 0 eq_refl). lia. Qed.

Lemma scope_row_decode scope :
  scope_valid scope →
  match selected_models scope with
  | None => Ok ScopeAll
  | Some models =>
    let? models := or_corrupt (parse_all LogicalModelName_parse models) in
    or_corrupt (scope_selected models)
  end = Ok (E := AuthenticationStoreError) scope.
Proof.
  destruct scope as [|models]; [done|]. cbn [selected_models scope_valid]. intros [Hs Hm].
  rewrite parse_all_id by done. cbn [or_corrupt result_bind]. by rewrite Hs.
Qed.

Lemma row_decodes record :
  record_valid record → authentication_record (authentication_database_record record) = Ok record.
Proof.
  intros [Hid Hname [Hscope (Hl1 & Hl2 & Hl3 & Hl4) Ht Ha] Hrot Hc _].
  unfold authentication_record. cbn [ad_schema as_name as_version authentication_database_record].
  rewrite bool_decide_true by done. cbn [negb orb Z.eqb].
  change (negb (AUTHENTICATION_RECORD_SCHEMA_VERSION =? AUTHENTICATION_RECORD_SCHEMA_VERSION)) with false.
  cbv iota. cbn [authentication_database_record ad_selected_models ad_requests_per_minute ad_tokens_per_minute ad_concurrency
    ad_context_tokens ad_tenant ad_application ad_key_id ad_name ad_rotated_from ad_expires_at
    ad_created_at ad_revoked_at ad_salt ad_verifier].
  rewrite scope_row_decode by done. cbn [result_bind].
  rewrite !bool_decide_false by (by eapply limit_valid_ne). cbn [orb].
  rewrite !non_zero_id by (by eapply limit_valid_ne).
  rewrite !parse_option_id by (by (try done); intros k Hk; apply ApiKeyId_parse_Ok; auto).
  cbn [or_corrupt result_bind]. rewrite (proj2 (ApiKeyId_parse_Ok _ _) (conj eq_refl Hid)), Hname.
  cbn [or_corrupt result_bind]. unfold key_coherent in Hc. destruct record as [[] ? ?]; simpl in *.
  destruct ak_policy as [? ? [] ? ?]; simpl in *. by rewrite Hc.
Qed.

Lemma scope_row_inv models scope :
  match models with
  | None => Ok ScopeAll
  | Some models =>
    let? models := or_corrupt (parse_all LogicalModelName_parse models) in
    or_corrupt (scope_selected models)
  end = Ok (E := AuthenticationStoreError) scope →
  scope_valid scope ∧ selected_models scope = models.
Proof.
  destruct models as [models|]; [|by intros [= <-]].
  intros (l & Hl%or_corrupt_inv & Hs%or_corrupt_inv)%result_bind_Ok.
  apply parse_all_Ok in Hl as [-> Hall]; [|apply identical_technical].
  pose proof Hs as Hs'. unfold scope_selected in Hs'. destruct (_ || _); [done|]. by injection Hs' as <-.
Qed.

Lemma limit_row_valid maximum o : (∀ z, o = Some z → 0 ≤ z ≤ maximum) → o ≠ Some 0 → limit_valid maximum o.
Proof. intros Hz Hne z ->. specialize (Hz z eq_refl). assert (z ≠ 0) by congruence. lia. Qed.

Lemma row_encodes d record :
  row_typed d → authentication_record d = Ok record →
  record_valid record ∧ authentication_database_record record = d.
Proof.
  intros (H1 & H2 & H3 & H4 & Hsalt & Hlen) Hd. unfold authentication_record in Hd.
  destruct (_ || _) eqn:Hschema in Hd; [done|]. apply orb_false_iff in Hschema as [Hname%negb_false_iff Hver%negb_false_iff].
  apply bool_decide_eq_true in Hname. apply Z.eqb_eq in Hver.
  apply result_bind_Ok in Hd as (scope & [Hscope Hmodels]%scope_row_inv & Hd). cbv zeta in Hd.
  destruct (_ || _) eqn:Hzero in Hd; [done|].
  apply orb_false_iff in Hzero as [[[Hz1%bool_decide_eq_false Hz2%bool_decide_eq_false]%orb_false_iff
    Hz3%bool_decide_eq_false]%orb_false_iff Hz4%bool_decide_eq_false].
  rewrite !non_zero_id in Hd by done.
  apply result_bind_Ok in Hd as (tenant & Ht%or_corrupt_inv & Hd).
  apply result_bind_Ok in Hd as (application & Ha%or_corrupt_inv & Hd).
  apply result_bind_Ok in Hd as (key_id & Hk%or_corrupt_inv & Hd).
  apply result_bind_Ok in Hd as (name & Hn%or_corrupt_inv & Hd).
  apply result_bind_Ok in Hd as (rotated & Hr%or_corrupt_inv & Hd).
  apply result_bind_Ok in Hd as (key & Hkey%or_corrupt_inv & [= <-]).
  apply parse_option_Ok in Ht as [-> Ht], Ha as [-> Ha], Hr as [-> Hr]; [|done..].
  pose proof (identical_display _ _ Hn) as ->. apply ApiKeyId_parse_Ok in Hk as [<- Hk].
  apply ApiKey_new_Ok in Hkey as [-> Hc]. split.
  - constructor; simpl; try done.
    + constructor; try done. simpl. split_and!; by apply limit_row_valid.
    + intros k Hrk. by apply Hr, ApiKeyId_parse_Ok in Hrk as [_ ?].
  - destruct d as [[] ? ? ? ? ? ? ? ? ? ? ? ? ? ? ?]; simpl in *. by subst.
Qed.

(** stored keys are exact.  A row is reconstructed as a record exactly when
    it is the projection of that record and the record is valid, so nothing of a
    key is lost or changed by storing it, and no row stands for two records. *)
Theorem key_rows_are_exact d record :
  row_typed d →
  authentication_record d = Ok record ↔ record_valid record ∧ d = authentication_database_record record.
Proof.
  intros Ht. split.
  - intros [? <-]%row_encodes; done.
  - intros [Hv ->]. by apply row_decodes.
Qed.

(** ** The committed keys *)

Section laws.
Context {C : Type} `{!Sqlite C, !DatabaseClock C, !Sha256, !Json DatabaseCommit,
  !Json (list DatabaseCommit), !Json AuthenticationDatabaseRecord, !DatabaseLaws C,
  !JsonLaws AuthenticationDatabaseRecord}.

Definition key_of (k : string) : string * string := (storage_name Authentication, k).

Definition decode_row (row : RecordRow) : option (AuthenticationRecord * Z) :=
  d ← from_json (row_payload row);
  match authentication_record d with Ok r => Some (r, row_revision row) | Err _ => None end.

Definition table_of (t : Tables) : KeyTable :=
  omap decode_row (default (∅ : gmap string RecordRow)
    (map_curry (M1 := gmap string) (M2 := gmap string) (records t) !! storage_name Authentication)).

Lemma lookup_table_of t k : table_of t !! k = records t !! key_of k ≫= decode_row.
Proof.
  unfold table_of, key_of. rewrite lookup_omap.
  rewrite <- (lookup_map_curry (M1 := gmap string) (M2 := gmap string)).
  by destruct (map_curry (records t) !! _).
Qed.

(** Every stored key is valid and kept under its identity. *)
Definition rows_ready (t : Tables) : Prop :=
  ∀ k row, records t !! key_of k = Some row →
    ∃ record, decode_row row = Some (record, row_revision row) ∧ id_of record = k ∧
      record_valid record ∧ 0 < row_revision row.

Lemma rows_ready_table t k record rev :
  rows_ready t → table_of t !! k = Some (record, rev) →
  ∃ row, records t !! key_of k = Some row ∧ rev = row_revision row ∧ id_of record = k ∧
    record_valid record ∧ 0 < rev.
Proof.
  intros Ht. rewrite lookup_table_of. intros (row & Hr & Hd)%bind_Some.
  destruct (Ht _ _ Hr) as (record' & Hd' & ? & ? & ?). rewrite Hd in Hd'. injection Hd' as -> ->. eauto 10.
Qed.

Lemma records_table_of t t' : records t' = records t → table_of t' = table_of t.
Proof. intros Hr. apply map_eq. intros k. by rewrite !lookup_table_of, Hr. Qed.
Lemma records_rows_ready t t' : records t' = records t → rows_ready t → rows_ready t'.
Proof. unfold rows_ready. by intros ->. Qed.

(** A committed row of a valid record. *)
Lemma insert_row t t' record row :
  record_valid record → rows_ready t → records t' = <[key_of (id_of record) := row]> (records t) →
  to_json (authentication_database_record record) = Some (row_payload row) → 0 < row_revision row →
  rows_ready t' ∧ table_of t' = <[id_of record := (record, row_revision row)]> (table_of t).
Proof.
  intros Hv Ht Hr Hj Hpos.
  assert (decode_row row = Some (record, row_revision row)) as Hd.
  { unfold decode_row. rewrite (json_round_trip _ _ Hj). simpl. by rewrite row_decodes. }
  split.
  - intros k row'. rewrite Hr. destruct (decide (k = id_of record)) as [->|Hne].
    + rewrite lookup_insert_eq. intros [= <-]. eauto.
    + rewrite lookup_insert_ne by (unfold key_of; congruence). apply Ht.
  - apply map_eq. intros k. rewrite lookup_table_of, Hr. destruct (decide (k = id_of record)) as [->|Hne].
    + by rewrite !lookup_insert_eq.
    + rewrite !lookup_insert_ne by (unfold key_of; congruence). by rewrite lookup_table_of.
Qed.

(** The effect of one saved record. *)
Lemma save_effect now t version record payload key expected commit t1 :
  mutates now t (PreparedSave Authentication version (id_of record) payload key expected) commit t1 →
  to_json (authentication_database_record record) = Some payload → record_valid record → rows_ready t →
  rows_ready t1 ∧ dc_identifier commit = id_of record ∧
  table_of t1 = <[id_of record := (record, dc_revision commit)]> (table_of t) ∧
  ((permitted expected None ∧ table_of t !! id_of record = None ∧ 0 < dc_revision commit) ∨
   ∃ old rev, table_of t !! id_of record = Some (old, rev) ∧ permitted expected (Some rev) ∧
     rev < dc_revision commit).
Proof.
  intros Hm Hj Hv Ht.
  inversion Hm as [? ? ? ? ? ? cmd Hn Hp|? ? ? ? ? ? row cmd Hr Hp Hver Hw Hmax at_|]; subst.
  - destruct (insert_row t (on_records <[target cmd := {| row_version := version; row_revision := 1;
       row_payload := payload; row_created_at := now; row_updated_at := now |}]> t) record
       {| row_version := version; row_revision := 1; row_payload := payload; row_created_at := now;
          row_updated_at := now |}) as [? ?]; [done..|simpl; lia|].
    split_and!; [done..|]. left. split_and!; [done| |simpl; lia].
    rewrite lookup_table_of. by rewrite (Hn : records t !! key_of (id_of record) = None).
  - destruct (Ht _ _ Hr) as (old & Hd & _ & _ & Hpos).
    destruct (insert_row t (on_records <[target cmd := updated_row (row_revision row + 1) payload at_ row]> t)
       record (updated_row (row_revision row + 1) payload at_ row)) as [? ?]; [done..|simpl; lia|].
    split_and!; [done..|]. right. exists old, (row_revision row). split_and!; [|done|simpl; lia].
    rewrite lookup_table_of. by rewrite (Hr : records t !! key_of (id_of record) = Some row).
Qed.

(** ** The manager over the database

    The world is the database with the host's clock and entropy. *)

Context {E : Type} (host_now : SE E AuthenticationError Z)
  (host_fill : nat → SE E AuthenticationError (list Z)).
Abbreviation World := (DatabaseManager C * E)%type.

Definition host_clock : AuthenticationClock World := in_host host_now.
Definition host_entropy : ApiKeyMaterialProvider World := λ n, in_host (host_fill n).
Definition world_store : AuthenticationStore World := {|
  key_read k := in_database (database_key_read k);
  key_all := in_database database_key_all;
  key_create r := in_database (database_key_create r);
  key_replace r n := in_database (database_key_replace r n);
  key_rotate a n b := in_database (database_key_rotate a n b);
|}.

Definition world_table (w : World) : KeyTable := table_of (durable (dm_connection w.1)).
Definition world_ready (w : World) : Prop :=
  settled (dm_connection w.1) ∧ rows_ready (durable (dm_connection w.1)).

Lemma database_key_read_inv k (m : DatabaseManager C) r m' :
  settled (dm_connection m) → rows_ready (durable (dm_connection m)) → database_key_read k m = (r, m') →
  settled (dm_connection m') ∧ durable (dm_connection m') = durable (dm_connection m) ∧
  ∀ found, r = Ok found → found = versioned <$> table_of (durable (dm_connection m)) !! k.
Proof.
  intros Hs Ht Hr. unfold database_key_read in Hr.
  destruct (database_read_record k m) as [r0 m0] eqn:E0.
  apply database_read_record_inv in E0 as (Hs' & Hd & Hok & Hno); [|done].
  destruct r0 as [stored|e].
  - injection Hr as <- <-. split_and!; [done..|]. intros found Hf.
    destruct (Hok _ eq_refl) as (row & Hrow & Hj & Hrev).
    change (records (durable (dm_connection m)) !! key_of k = Some row) in Hrow.
    rewrite lookup_table_of, Hrow. simpl. unfold decode_row. cbn [record_json authentication_row] in Hj. rewrite Hj. simpl.
    unfold versioned_authentication_record in Hf.
    destruct (authentication_record (sr_value stored)) as [record|]; [|done]. injection Hf as <-.
    simpl. by rewrite Hrev.
  - assert (m' = m0) as -> by (destruct e; by injection Hr). split_and!; [done..|].
    intros found ->. destruct e; try done. injection Hr as <-.
    rewrite lookup_table_of. by rewrite (Hno _ _ eq_refl : records (durable (dm_connection m)) !! key_of k = None).
Qed.

Lemma database_key_save_inv key record expected (m : DatabaseManager C) r m' :
  settled (dm_connection m) → rows_ready (durable (dm_connection m)) → record_valid record →
  database_key_save key record expected m = (r, m') →
  settled (dm_connection m') ∧ rows_ready (durable (dm_connection m')) ∧
  let t := table_of (durable (dm_connection m)) in let t' := table_of (durable (dm_connection m')) in
  (t' = t ∧ ∃ e, r = Err e) ∨
  ∃ rev, t' = <[id_of record := (record, rev)]> t ∧ (∀ v, r = Ok v → v = versioned (record, rev)) ∧
    ((permitted expected None ∧ t !! id_of record = None ∧ 0 < rev) ∨
     ∃ old rev0, t !! id_of record = Some (old, rev0) ∧ permitted expected (Some rev0) ∧ rev0 < rev).
Proof.
  intros Hs Ht Hv Hr. unfold database_key_save in Hr. unfold se_bind at 1, se_map_err in Hr.
  destruct (database_write _ m) as [r0 m0] eqn:E0.
  apply database_write_inv in E0 as [Hs' Hd]; [|done].
  assert (m' = m0) as -> by (destruct r0 as [[? []]|]; by injection Hr).
  split; [done|]. destruct Hd as [[Hd Hno]|(prepared & now & commit & t1 & Hp & Hm & Hrec & Hc)].
  - rewrite Hd. split; [done|]. left. split; [done|].
    destruct r0 as [[commit []]|e]; [by destruct (Hno commit)|injection Hr as <-; eauto..].
  - apply prepare_save_Ok in Hp as (payload & Hj & ->).
    destruct (save_effect _ _ _ _ _ _ _ _ _ Hm Hj Hv Ht) as (Ht1 & _ & Htab & Hcase).
    rewrite (records_table_of _ _ Hrec). split; [by eapply records_rows_ready|]. right.
    exists (dc_revision commit). split_and!; [done| |done]. intros v ->.
    destruct r0 as [[commit' []]|e]; [|done..]. injection Hr as <-. by rewrite (Hc _ eq_refl).
Qed.

Lemma database_key_rotate_inv revoked expected replacement (m : DatabaseManager C) r m' :
  settled (dm_connection m) → rows_ready (durable (dm_connection m)) →
  record_valid revoked → record_valid replacement →
  database_key_rotate revoked expected replacement m = (r, m') →
  settled (dm_connection m') ∧ rows_ready (durable (dm_connection m')) ∧
  writes (rotate_write revoked expected replacement) r
    (table_of (durable (dm_connection m))) (table_of (durable (dm_connection m'))).
Proof.
  intros Hs Ht Hv Hv2 Hr. unfold database_key_rotate in Hr.
  set (build := let? tx := DatabaseTransaction_new _ in _) in Hr.
  destruct build as [tx|e] eqn:Hb; unfold build in Hb; clear build; unfold se_bind at 1, se_map_err at 1, se_lift at 1 in Hr.
  2: { injection Hr as <- <-. split_and!; [done..|]. left. eauto. }
  apply result_bind_Ok in Hb as (tx0 & (_ & _ & [= <-])%result_bind_Ok & Hb).
  apply result_bind_Ok in Hb as (tx1 & (c1 & Hc1 & Htx1)%result_bind_Ok & Hb).
  apply result_bind_Ok in Hb as (c2 & Hc2 & Htx).
  unfold add_command in Htx1, Htx. repeat (case_match; [done|]).
  injection Htx1 as <-. injection Htx as <-. simpl in *.
  apply prepare_save_Ok in Hc1 as (payload1 & Hj1 & ->), Hc2 as (payload2 & Hj2 & ->).
  unfold se_bind at 1, se_map_err at 1 in Hr.
  destruct (database_write_transaction _ m) as [r0 m0] eqn:E0.
  apply database_write_transaction_inv in E0 as [Hs' Hd]; [|done].
  assert (m' = m0) as ->.
  { cbv [se_bind se_lift require_applied se_fail se_ret] in Hr. repeat case_match; simplify_eq; done. }
  split; [done|]. destruct Hd as [[Hd Hno]|(now & commits & t2 & Hm & Hrec & Hc)].
  - rewrite Hd. split; [done|]. left. split; [done|].
    destruct r0 as [[commits []]|e]; [by destruct (Hno commits)|injection Hr as <-; eauto..].
  - simpl in Hm. inversion Hm as [|? ? k1 t1 ? ? ? Hm1 Hrest]; subst.
    inversion Hrest as [|? ? k2 t2' ? ? ? Hm2 Hnil]; subst. inversion Hnil; subst.
    destruct (save_effect _ _ _ _ _ _ _ _ _ Hm1 Hj1 Hv Ht) as (Ht1 & Hi1 & Htab1 & Hcase1).
    destruct (save_effect _ _ _ _ _ _ _ _ _ Hm2 Hj2 Hv2 Ht1) as (Ht2 & Hi2 & Htab2 & Hcase2).
    rewrite (records_table_of _ _ Hrec). split; [by eapply records_rows_ready|]. right.
    destruct Hcase1 as [[Hfalse _]|(old & rev0 & Hold & [= ->] & Hlt)]; [done|].
    destruct Hcase2 as [(_ & Hnone & Hpos)|(? & ? & _ & [=] & _)].
    exists {| ro_revoked := versioned (revoked, dc_revision k1); ro_replacement := versioned (replacement, dc_revision k2) |}.
    split.
    + exists old, (dc_revision k1), (dc_revision k2). split_and!; [done..| |by rewrite Htab2, Htab1].
      rewrite Htab1 in Hnone. apply lookup_insert_None in Hnone as [? _]. done.
    + intros v ->. destruct r0 as [[commits []]|e]; [|done..]. rewrite (Hc _ eq_refl) in Hr.
      unfold se_bind, se_lift, require_applied in Hr. rewrite Hi1, Hi2, !bool_decide_true in Hr by done.
      by injection Hr as <-.
Qed.

Definition database_key_store_laws
    (host_fill_bytes : ∀ n e l e', host_fill n e = (Ok l, e') → Forall byte l ∧ length l = n)
  : @KeyStoreLaws World host_clock host_entropy world_store.
Proof.
  refine {| key_table := world_table; key_ready := world_ready |}.
  - intros w [_ Ht] k record rev Hl. apply rows_ready_table in Hl as (row & _ & _ & ? & ? & ?); done.
  - intros w r w' Hw [_ Hm]%in_host_inv. unfold world_ready, world_table. by rewrite Hm.
  - intros n w r w' Hw [Hf Hm]%in_host_inv. unfold world_ready, world_table. rewrite Hm.
    split; [exact Hw|]. split; [done|]. intros l ->. by eapply host_fill_bytes.
  - intros k w r w' [Hs Ht] [Hc _]%in_database_inv.
    apply database_key_read_inv in Hc as (Hs' & Hd & Hf); [|done..]. unfold world_ready, world_table.
    rewrite Hd. split; [done|]. eexists _, _. by split_and!.
  - intros record w r w' [Hs Ht] Hv [Hc _]%in_database_inv.
    apply database_key_save_inv in Hc as (Hs' & Ht' & Heff); [|done..]. split; [done|].
    eexists _, _. split_and!; [done| |done].
    destruct Heff as [?|(rev & Htab & Hok & Hcase)]; [by left|right].
    exists (versioned (record, rev)). split; [|done]. destruct Hcase as [(_ & ? & ?)|(? & ? & _ & [=] & _)].
    exists rev. by split_and!.
  - intros record expected w r w' [Hs Ht] Hv [Hc _]%in_database_inv.
    apply database_key_save_inv in Hc as (Hs' & Ht' & Heff); [|done..]. split; [done|].
    eexists _, _. split_and!; [done| |done].
    destruct Heff as [?|(rev & Htab & Hok & Hcase)]; [by left|right].
    exists (versioned (record, rev)). split; [|done].
    destruct Hcase as [([=] & _)|(old & rev0 & ? & [= ->] & ?)]. exists old, rev. by split_and!.
  - intros revoked expected replacement w r w' [Hs Ht] Hv Hv2 [Hc _]%in_database_inv.
    apply database_key_rotate_inv in Hc as (Hs' & Ht' & Heff); [|done..]. split; [done|].
    eexists _, _. by split_and!.
Defined.
End laws.
