(* ===== verification/AuthScenario.v ===== *)
(** * A node with API keys

    The manager over the database in memory, with a clock that replays a list of
    times and deterministic key material: a client gets a key, uses it, and loses
    it.  The witnesses of [AuthSafety] and [AuthDatabase], and two runs in which the
    code does not do what it means to. *)

From Stdlib Require Import String.
From S2P Require Import Prelude Values Text GatewayContract AuthKeys AuthControllers AuthManager.
From S2P Require Import Interference AuthLifecycle AuthSafety AuthDatabase.
From S2P Require Import Database DatabaseStorage DatabaseSafety DatabaseMemory.

Module KeyScenario.
Import Memory.

(** ** The host *)

Record Host := { times : list Z; counter : Z }.
Definition host_now : SE Host AuthenticationError Z := λ h,
  match times h with
  | now :: times => (Ok now, {| times := times; counter := counter h |})
  | [] => (Err (AuthInvalidPolicy "system clock is before the Unix epoch"), h)
  end.
Definition host_fill (n : nat) : SE Host AuthenticationError (list Z) := λ h,
  if 256 <=? counter h then (Err AuthEntropyUnavailable, h)
  else if counter h <? 0 then (Err AuthEntropyUnavailable, h)
  else (Ok (replicate n (counter h)), {| times := times h; counter := counter h + 1 |}).

Lemma host_fill_bytes n h l h' : host_fill n h = (Ok l, h') → Forall byte l ∧ length l = n.
Proof.
  unfold host_fill. destruct (256 <=? counter h) eqn:E1; [done|]. destruct (counter h <? 0) eqn:E2; [done|].
  intros [= <- _]. split; [|apply length_replicate]. apply Forall_replicate. unfold byte. lia.
Qed.

(** A digest for the scenario: the message itself. *)
#[export] Instance plain_sha256 : Sha256Digest := λ m, m.

(** ** The rows that occur *)

Definition no_limits : ApiKeyLimits :=
  {| limit_requests_per_minute := None; limit_tokens_per_minute := None; limit_concurrency := None;
     limit_context_tokens := None |}.
Definition open_policy : ApiKeyPolicy :=
  {| ap_model_scope := ScopeAll; ap_expires_at := None; ap_limits := no_limits; ap_tenant := None;
     ap_application := None |}.
Definition key_record (identity : Z) (created_at : Z) (revoked_at : option Z) : AuthenticationRecord :=
  {| ar_api_key := {| ak_key_id := hexadecimal (replicate 16 identity); ak_name := "Client";
       ak_policy := open_policy; ak_created_at := created_at; ak_revoked_at := revoked_at;
       ak_rotated_from := None |};
     ar_salt := replicate 16 (identity + 2);
     ar_verifier := api_key_verifier (replicate 16 (identity + 2)) (replicate 32 (identity + 1)) |}.

#[export] Instance schema_eq_dec : EqDecision AuthenticationDatabaseSchema.
Proof. solve_decision. Defined.
#[export] Instance row_eq_dec : EqDecision AuthenticationDatabaseRecord.
Proof. solve_decision. Defined.
(** The same record under another name and origin. *)
Definition relabelled (name : string) (rotated_from : option string) (r : AuthenticationRecord) : AuthenticationRecord :=
  let k := ar_api_key r in
  {| ar_api_key := {| ak_key_id := ak_key_id k; ak_name := name; ak_policy := ak_policy k;
       ak_created_at := ak_created_at k; ak_revoked_at := ak_revoked_at k; ak_rotated_from := rotated_from |};
     ar_salt := ar_salt r; ar_verifier := ar_verifier r |}.
Definition rows : list AuthenticationDatabaseRecord := authentication_database_record <$>
  [key_record 1 100 None; key_record 1 100 (Some 101); key_record 4 101 None;
   relabelled ("Client-revoked-" +:+ hexadecimal (replicate 16 1)) None (key_record 1 100 (Some 101));
   relabelled "Client" (Some (hexadecimal (replicate 16 1))) (key_record 4 101 None)].
#[export] Instance row_json : Json AuthenticationDatabaseRecord := table_json rows.
#[export] Instance row_json_laws : JsonLaws AuthenticationDatabaseRecord := table_json_laws rows.

(** ** The node *)

Abbreviation Node := (DatabaseManager Connection * Host)%type.
#[export] Instance node_clock : AuthenticationClock Node := host_clock host_now.
#[export] Instance node_entropy : ApiKeyMaterialProvider Node := host_entropy host_fill.
#[export] Instance node_store : AuthenticationStore Node := world_store.
#[export] Instance node_laws : KeyStoreLaws Node := database_key_store_laws host_now host_fill host_fill_bytes.

Definition start (clock : list Z) : Node :=
  ({| dm_connection := connection [] 7 empty_tables; dm_is_closed := false; dm_events := [] |},
   {| times := clock; counter := 1 |}).

Lemma start_ready clock : key_ready (start clock).
Proof. split; [done|]. by intros k row Hl. Qed.

Definition client : KeyCall := CallCreate "Client" open_policy.
Lemma client_valid : call_valid client.
Proof. split; [by vm_compute|]. by constructor. Qed.

Definition created (clock : list Z) := key_call client (start clock).
Definition client_id : string := hexadecimal (replicate 16 1).
Definition client_token : string := token_of client_id (replicate 32 2).

(** the store does not keep names apart.  Creating two keys with one name
    succeeds twice, and from then on the list of keys is reported as corrupt. *)
Theorem duplicate_name_corrupts_listing :
  let w1 := (create "Client" open_policy (start [100; 101])).2 in
  let w2 := (create "Client" open_policy w1).2 in
  is_ok (create "Client" open_policy (start [100; 101])).1 = true ∧
  is_ok (create "Client" open_policy w1).1 = true ∧ (api_keys w2).1 = Err (AuthStore AuthCorrupt).
Proof. vm_compute. auto. Qed.

(** a clock that went back keeps a key alive.  A key created at time 100 is
    not revoked at time 50, the revocation fails as an invalid policy, and the key
    still authenticates at time 60. *)
Theorem early_clock_refuses_revocation :
  let w1 := (create "Client" open_policy (start [100; 50; 60])).2 in
  let w2 := (revoke client_id w1).2 in
  is_ok (create "Client" open_policy (start [100; 50; 60])).1 = true ∧
  (revoke client_id w1).1 = Err (AuthInvalidPolicy "revocation cannot precede API-key creation") ∧
  (authenticate client_token "model" w2).1 = Ok {| pr_key_id := client_id; pr_policy := open_policy |}.
Proof. vm_compute. auto. Qed.

(** ** The witnesses *)

Definition clock : list Z := [100; 101; 102].
Definition client_change : AuthenticationChange IssuedApiKey :=
  {| ch_value := IssuedApiKey_new (ar_api_key (key_record 1 100 None)) (replicate 32 2);
     ch_event := Some (ApiKeyCreated client_id) |}.
Definition revoked_change : AuthenticationChange ApiKey :=
  {| ch_value := ar_api_key (key_record 1 100 (Some 101)); ch_event := Some (ApiKeyRevoked client_id) |}.

Lemma run_eq {A B} (p : A * B) a : p.1 = a → p = (a, p.2).
Proof. destruct p. by intros <-. Qed.

Lemma client_created : key_call client (start clock) = (Ok (AnswerIssued client_change), (created clock).2).
Proof. apply (run_eq (created clock)). by vm_compute. Qed.

Definition with_client : Node := (created clock).2.
Lemma with_client_ready : key_ready with_client.
Proof.
  exact (proj1 (key_call_refines client _ (law_ready_valid _ (start_ready clock)) client_valid _ _ _
    (start_ready clock) (rtc_refl _ _) client_created)).
Qed.

Definition revocation := key_call (CallRevoke client_id) with_client.
Lemma client_revoked : key_call (CallRevoke client_id) with_client = (Ok (AnswerKey revoked_change), revocation.2).
Proof. apply (run_eq revocation). by vm_compute. Qed.
Lemma revocation_later : later revocation.2 revocation.2.
Proof.
  split; [|done]. exact (proj1 (key_call_refines (CallRevoke client_id) _ (law_ready_valid _ with_client_ready) I
    _ _ _ with_client_ready (rtc_refl _ _) client_revoked)).
Qed.

Lemma client_id_valid : key_id_valid client_id.
Proof. by vm_compute. Qed.
Lemma client_secret_valid : secret_valid (replicate 32 2).
Proof. split; [|done]. by apply Forall_replicate. Qed.

Definition admission := authenticate client_token "model" with_client.
Definition client_principal : AuthenticationPrincipal := {| pr_key_id := client_id; pr_policy := open_policy |}.
Lemma client_admitted : authenticate client_token "model" with_client = (Ok client_principal, admission.2).
Proof. apply (run_eq admission). by vm_compute. Qed.

Lemma key_operations_refine_the_life_cycle_witness :
  around (key_table (start clock)) (λ t t', key_effect t client (AnswerIssued client_change) t')
    (key_table with_client).
Proof.
  exact (proj2 (proj2 (key_operations_refine_the_life_cycle client (start clock) _ with_client
    (start_ready clock) client_valid client_created)) _ eq_refl).
Defined.

Lemma retired_key_never_authenticates_witness :
  ∃ e, (authenticate client_token "model" revocation.2).1 = Err e ∧
    (e = AuthUnauthorized ∨ provider_failure (W := Node) e).
Proof.
  exact (retired_key_never_authenticates (CallRevoke client_id) client_id with_client
    (AnswerKey revoked_change) revocation.2 revocation.2 (replicate 32 2) "model" _
    (authenticate client_token "model" revocation.2).2 with_client_ready I (or_introl eq_refl)
    client_revoked revocation_later client_id_valid client_secret_valid (surjective_pairing _)).
Defined.

Lemma only_the_issued_token_authenticates_witness :
  (take_token (ch_value client_change)).1 = Some client_token ∨ collision.
Proof.
  exact (only_the_issued_token_authenticates client (start clock) client_change with_client with_client
    client_token "model" client_principal admission.2 (start_ready clock) client_valid client_created
    (conj with_client_ready (rtc_refl _ _)) client_admitted eq_refl).
Defined.

Lemma issued_token_authenticates_witness :
  (∃ e, admission.1 = Err e ∧ provider_failure (W := Node) e) ∨
  ∃ t record rev now, evolves (key_table with_client) t ∧ evolves t (key_table admission.2) ∧
    clock_time (W := Node) now ∧ t !! client_id = Some (record, rev) ∧
    admission.1 = if is_revoked record || expired record now
           || negb (scope_permits (ap_model_scope (ak_policy (ar_api_key record))) "model")
        then Err AuthUnauthorized
        else Ok {| pr_key_id := client_id; pr_policy := ak_policy (ar_api_key record) |}.
Proof.
  exact (issued_token_authenticates client (start clock) client_change with_client with_client client_token
    "model" admission.1 admission.2 (start_ready clock) client_valid client_created
    (conj with_client_ready (rtc_refl _ _)) eq_refl (surjective_pairing _)).
Defined.

(** The rotation of the client's key takes effect. *)
Lemma client_rotated :
  match (key_call (CallRotatePreservingName client_id) with_client).1 with
  | Ok (AnswerIssued change) => ch_event change = Some (ApiKeyRotated client_id (hexadecimal (replicate 16 4)))
  | _ => False
  end.
Proof. vm_compute. reflexivity. Qed.

Lemma rotations_form_chains_witness :
  lineage (key_table (run_calls [client; CallRotatePreservingName client_id] (start clock))).
Proof.
  apply (rotations_form_chains [client; CallRotatePreservingName client_id] (start clock)).
  - apply start_ready.
  - apply map_eq. intros k. change (key_table (start clock)) with (world_table (start clock)).
    unfold world_table. rewrite lookup_table_of. done.
  - constructor; [apply client_valid|]. constructor; [exact I|constructor].
Defined.

Lemma key_rows_are_exact_witness :
  let d := authentication_database_record (key_record 1 100 None) in
  authentication_record d = Ok (key_record 1 100 None) ↔
  record_valid (key_record 1 100 None) ∧ d = authentication_database_record (key_record 1 100 None).
Proof.
  apply key_rows_are_exact. split_and!; try done. simpl. by repeat constructor.
Defined.
End KeyScenario.
