(* ===== verification/AuthControl.v ===== *)
(** * The life cycle of controllers

    The controller operations of [AuthManager] refine a life cycle of the committed
    controllers, with other managers using the same store; an authorization reports
    a controller that was active, current and of the required role at some point of
    the call. *)

From Stdlib Require Import String.
From S2P Require Import Prelude Values Interference AuthKeys AuthControllers AuthManager.

(** ** The life cycle *)

Abbreviation ControllerTable := (gmap string (Controller * Z)).

(** What [Controller::restore] checks, for a certificate of the authority. *)
Definition controller_coherent (c : Controller) : Prop :=
  Controller_restore (ct_controller_id c) (ct_name c) (ct_role c) (ct_certificate c) (ct_state c)
    (ct_issued_at c) (ct_activated_at c) (ct_revoked_at c) = Ok c.

Definition put (t : ControllerTable) (c : Controller) (rev : Z) : ControllerTable :=
  <[ct_controller_id c := (c, rev)]> t.

Inductive controller_step (t : ControllerTable) : ControllerTable → Prop :=
| step_register c rev :
  t !! ct_controller_id c = None → 0 < rev → controller_coherent c →
  ct_state c ≠ ControllerRevokedState →
  controller_step t (put t c rev)
| step_activate c rev now c' rev' :
  t !! ct_controller_id c = Some (c, rev) → ct_state c = ControllerIssuedState →
  controller_activated c now = Ok c' → rev < rev' →
  controller_step t (put t c' rev')
| step_controller_revoke c rev now c' rev' :
  t !! ct_controller_id c = Some (c, rev) → ct_state c ≠ ControllerRevokedState →
  controller_revoked c now = Ok c' → rev < rev' →
  controller_step t (put t c' rev')
| step_replace c rev c' rev' :
  t !! ct_controller_id c' = Some (c, rev) → controller_coherent c' → ct_state c' = ControllerActive →
  rev < rev' →
  controller_step t (put t c' rev').

Abbreviation evolves := (rtc controller_step).
Abbreviation around := (around_point controller_step).

Definition controllers_valid (t : ControllerTable) : Prop :=
  ∀ k c rev, t !! k = Some (c, rev) → ct_controller_id c = k ∧ controller_coherent c ∧ 0 < rev.

Lemma restore_Ok i n r cert s a b d c :
  Controller_restore i n r cert s a b d = Ok c →
  c = {| ct_controller_id := i; ct_name := n; ct_role := r; ct_certificate := cert; ct_state := s;
         ct_issued_at := a; ct_activated_at := b; ct_revoked_at := d |} ∧ controller_coherent c.
Proof.
  intros Hr. assert (Hr' := Hr). unfold Controller_restore in Hr.
  destruct (_ || _) in Hr; [done|]. injection Hr as <-. by split.
Qed.

Lemma activated_Ok c now c' :
  controller_activated c now = Ok c' → ct_state c = ControllerIssuedState →
  ct_controller_id c' = ct_controller_id c ∧ ct_name c' = ct_name c ∧ ct_role c' = ct_role c ∧
  ct_certificate c' = ct_certificate c ∧ ct_state c' = ControllerActive ∧ controller_coherent c'.
Proof.
  unfold controller_activated. intros Ha Hs. rewrite Hs in Ha. destruct (_ || _) in Ha; [done|].
  rewrite bool_decide_false in Ha by done. by apply restore_Ok in Ha as [-> ?].
Qed.

Lemma revoked_Ok c now c' :
  controller_revoked c now = Ok c' → ct_state c ≠ ControllerRevokedState →
  ct_controller_id c' = ct_controller_id c ∧ ct_name c' = ct_name c ∧ ct_role c' = ct_role c ∧
  ct_certificate c' = ct_certificate c ∧ ct_state c' = ControllerRevokedState ∧ controller_coherent c'.
Proof.
  unfold controller_revoked. intros Ha Hs. rewrite bool_decide_false in Ha by done.
  by apply restore_Ok in Ha as [-> ?].
Qed.

Lemma put_follows (t : ControllerTable) c rev k e c0 rev0 :
  t !! ct_controller_id c = Some (c0, rev0) → rev0 < rev → t !! k = Some e →
  ∃ e', put t c rev !! k = Some e' ∧ (e' = e ∨ e.2 < e'.2).
Proof.
  intros Hc Hlt Hk. unfold put. destruct (decide (ct_controller_id c = k)) as [<-|Hne].
  - rewrite lookup_insert_eq. rewrite Hc in Hk. injection Hk as <-. eauto.
  - rewrite lookup_insert_ne by done. eauto.
Qed.

Lemma controller_step_follows t t' k e :
  controller_step t t' → t !! k = Some e → ∃ e', t' !! k = Some e' ∧ (e' = e ∨ e.2 < e'.2).
Proof.
  intros Hs Hk. destruct Hs as [c rev Hn|c rev now c' rev' Hl Hst Ha Hlt|c rev now c' rev' Hl Hst Ha Hlt
    |c rev c' rev' Hl _ _ Hlt].
  - unfold put. rewrite lookup_insert_ne by congruence. eauto.
  - apply activated_Ok in Ha as (Hid & _); [|done]. eapply put_follows; [by rewrite Hid|done..].
  - apply revoked_Ok in Ha as (Hid & _); [|done]. eapply put_follows; [by rewrite Hid|done..].
  - by eapply put_follows.
Qed.

Lemma evolves_same_controller t t' k e c rev :
  evolves t t' → t !! k = Some e → t' !! k = Some (c, rev) → rev = e.2 → e = (c, rev).
Proof.
  intros Hs He He' Hrev.
  assert (∃ e', t' !! k = Some e' ∧ (e' = e ∨ e.2 < e'.2)) as (e1 & He1 & Hf).
  { clear He' Hrev. revert e He. induction Hs as [t|t1 t2 t3 H12 _ IH]; intros e He; [eauto|].
    destruct (controller_step_follows _ _ _ _ H12 He) as (e2 & He2 & Hf2).
    destruct (IH e2 He2) as (e3 & He3 & Hf3). exists e3. split; [done|].
    destruct Hf2 as [->|], Hf3 as [->|]; auto; right; lia. }
  simplify_eq. destruct Hf as [<-|Hlt]; [done|simpl in *; lia].
Qed.

Lemma put_valid t c rev : controllers_valid t → controller_coherent c → 0 < rev → controllers_valid (put t c rev).
Proof.
  intros Ht Hc Hr k c' rev'. unfold put. destruct (decide (ct_controller_id c = k)) as [<-|Hne].
  - rewrite lookup_insert_eq. by intros [= <- <-].
  - rewrite lookup_insert_ne by done. apply Ht.
Qed.

Lemma controller_step_valid t t' : controller_step t t' → controllers_valid t → controllers_valid t'.
Proof.
  intros Hs Ht. destruct Hs as [c rev Hn|c rev now c' rev' Hl Hst Ha Hlt|c rev now c' rev' Hl Hst Ha Hlt
    |c rev c' rev' Hl Hc _ Hlt].
  - by apply put_valid.
  - apply activated_Ok in Ha as (_ & _ & _ & _ & _ & ?); [|done]. destruct (Ht _ _ _ Hl) as (_ & _ & ?).
    apply put_valid; [done..|lia].
  - apply revoked_Ok in Ha as (_ & _ & _ & _ & _ & ?); [|done]. destruct (Ht _ _ _ Hl) as (_ & _ & ?).
    apply put_valid; [done..|lia].
  - destruct (Ht _ _ _ Hl) as (_ & _ & ?). apply put_valid; [done..|lia].
Qed.

Lemma evolves_controllers_valid t t' : evolves t t' → controllers_valid t → controllers_valid t'.
Proof. induction 1; eauto using controller_step_valid. Qed.

(** ** What a manager may rely on *)

Definition controller_versioned (e : Controller * Z) : VersionedController :=
  {| vc_controller := e.1; vc_revision := e.2 |}.

Definition controller_create_write (c : Controller) (v : VersionedController) (t t' : ControllerTable) : Prop :=
  ∃ rev, v = controller_versioned (c, rev) ∧ 0 < rev ∧ t !! ct_controller_id c = None ∧ t' = put t c rev.
Definition controller_replace_write (c : Controller) (expected : Z) (v : VersionedController)
    (t t' : ControllerTable) : Prop :=
  ∃ old rev, v = controller_versioned (c, rev) ∧ expected < rev ∧
    t !! ct_controller_id c = Some (old, expected) ∧ t' = put t c rev.

Class ControllerStoreLaws (W : Type) `{!AuthenticationClock W, !ControllerStore W,
    !ControllerCertificateProvider W} := {
  controller_table : W → ControllerTable;
  controller_ready : W → Prop;
  law_controllers_valid w : controller_ready w → controllers_valid (controller_table w);
  law_controller_clock w r w' : controller_ready w → auth_now w = (r, w') →
    controller_ready w' ∧ evolves (controller_table w) (controller_table w');
  law_issue k p w r w' : controller_ready w → certificate_issue k p w = (r, w') →
    controller_ready w' ∧ evolves (controller_table w) (controller_table w');
  law_import k m w r w' : controller_ready w → certificate_import k m w = (r, w') →
    controller_ready w' ∧ evolves (controller_table w) (controller_table w');
  law_controller_read k w r w' : controller_ready w → controller_read k w = (r, w') →
    controller_ready w' ∧ around (controller_table w) (λ t t', t' = t ∧
      ∀ found, r = Ok found → found = controller_versioned <$> t !! k) (controller_table w');
  law_controller_all w r w' : controller_ready w → controller_all w = (r, w') →
    controller_ready w' ∧ around (controller_table w) (λ t t', t' = t ∧
      ∀ found, r = Ok found → ∀ v, v ∈ found ↔ ∃ k, controller_versioned <$> t !! k = Some v)
      (controller_table w');
  law_controller_create c w r w' : controller_ready w → controller_coherent c →
    controller_create c w = (r, w') →
    controller_ready w' ∧
    around (controller_table w) (writes (controller_create_write c) r) (controller_table w');
  law_controller_replace c expected w r w' : controller_ready w → controller_coherent c →
    controller_replace c expected w = (r, w') →
    controller_ready w' ∧
    around (controller_table w) (writes (controller_replace_write c expected) r) (controller_table w');
}.

(** ** The operations and what one point of the life cycle answers *)

Inductive ControllerCall :=
| CallEnroll (controller_id name : string) (role : ControllerRole) (public_key : ControllerPublicKey)
| CallIssue (controller_id name : string) (role : ControllerRole) (public_key : ControllerPublicKey)
| CallImport (controller_id name : string) (role : ControllerRole) (material : list Z)
| CallReplace (controller_id name : string) (role : ControllerRole) (source : ControllerCertificateSource)
| CallActivate (controller_id : string)
| CallRevokeController (controller_id : string).

Definition controller_call {W : Type} `{!AuthenticationClock W, !ControllerStore W,
    !ControllerCertificateProvider W} (call : ControllerCall)
  : SE W ControllerError (AuthenticationChange Controller) :=
  match call with
  | CallEnroll k n r p => enroll_controller k n r p
  | CallIssue k n r p => issue_controller k n r p
  | CallImport k n r m => import_controller k n r m
  | CallReplace k n r s => replace_controller k n r s
  | CallActivate k => activate_controller k
  | CallRevokeController k => revoke_controller k
  end.

Definition call_controller (call : ControllerCall) : string :=
  match call with
  | CallEnroll k _ _ _ | CallIssue k _ _ _ | CallImport k _ _ _ | CallReplace k _ _ _
  | CallActivate k | CallRevokeController k => k
  end.

Section controllers.
Context {W : Type} `{!AuthenticationClock W, !ControllerStore W, !ControllerCertificateProvider W,
  !ControllerStoreLaws W}.
Abbreviation CM := (SE W ControllerError).
Abbreviation triple := (Interference.triple controller_step controller_table controller_ready).
Abbreviation stable := (Interference.stable controller_step).

(** The certificate is what the authority answered for the source, with the public
    key that was asked for. *)
Definition resolved (k : string) (source : ControllerCertificateSource) (certificate : ControllerCertificate) : Prop :=
  match source with
  | SourceIssue public_key =>
    (∃ w w' : W, certificate_issue k public_key w = (Ok certificate, w')) ∧
    cc_public_key_sha256 certificate = cpk_sha256 public_key
  | SourceImport material => ∃ w w' : W, certificate_import k material w = (Ok certificate, w')
  end.

(** The controller carries what the source names: the public key, or the imported
    certificate itself or what the authority makes of it. *)
Definition carries (k : string) (source : ControllerCertificateSource) (c : Controller) : Prop :=
  match source with
  | SourceIssue public_key => cc_public_key_sha256 (ct_certificate c) = cpk_sha256 public_key
  | SourceImport material =>
    cc_public_material (ct_certificate c) = material ∨ resolved k source (ct_certificate c)
  end.

(** What was asked for, as a property of the stored controller. *)
Definition asked_for (call : ControllerCall) (c : Controller) : Prop :=
  match call with
  | CallEnroll k n r p =>
    ct_state c = ControllerActive ∧ ct_name c = n ∧ ct_role c = r ∧ carries k (SourceIssue p) c
  | CallReplace k n r source =>
    ct_state c = ControllerActive ∧ ct_name c = n ∧ ct_role c = r ∧ carries k source c
  | CallIssue k n r p =>
    ct_state c ≠ ControllerRevokedState ∧ ct_name c = n ∧ ct_role c = r ∧ carries k (SourceIssue p) c
  | CallImport k n r m =>
    ct_state c ≠ ControllerRevokedState ∧ ct_name c = n ∧ ct_role c = r ∧ carries k (SourceImport m) c
  | CallActivate _ => ct_state c = ControllerActive
  | CallRevokeController _ => ct_state c = ControllerRevokedState
  end.

(** The life-cycle change an event stands for; a registered or replaced controller
    has the certificate that the authority answered. *)
Definition event_of (call : ControllerCall) (event : AuthenticationEvent) (old : option Controller)
    (c : Controller) : Prop :=
  match call, old with
  | CallEnroll k _ _ p, None => event = ControllerEnrolled k ∧ resolved k (SourceIssue p) (ct_certificate c)
  | CallEnroll k _ _ p, Some _ => event = ControllerReplaced k ∧ resolved k (SourceIssue p) (ct_certificate c)
  | CallIssue k _ _ p, None => event = ControllerIssued k ∧ ct_state c = ControllerIssuedState ∧
      resolved k (SourceIssue p) (ct_certificate c)
  | CallImport k _ _ m, None => event = ControllerImported k ∧ ct_state c = ControllerIssuedState ∧
      resolved k (SourceImport m) (ct_certificate c)
  | CallReplace k _ _ source, Some _ => event = ControllerReplaced k ∧ resolved k source (ct_certificate c)
  | CallActivate k, Some old => event = ControllerActivated k ∧ ct_state old = ControllerIssuedState ∧
      ct_certificate c = ct_certificate old ∧ ct_role c = ct_role old
  | CallRevokeController k, Some old => event = ControllerRevoked k ∧
      ct_state old ≠ ControllerRevokedState ∧ ct_certificate c = ct_certificate old
  | _, _ => False
  end.

(** One point of the life cycle and the answer that reports it. *)
Inductive controller_effect (t : ControllerTable) (call : ControllerCall)
  : AuthenticationChange Controller → ControllerTable → Prop :=
| effect_changed c rev event :
  ct_controller_id c = call_controller call → asked_for call c →
  event_of call event (fst <$> t !! call_controller call) c →
  controller_effect t call {| ch_value := c; ch_event := Some event |} (put t c rev)
| effect_observed c rev :
  t !! call_controller call = Some (c, rev) → asked_for call c →
  controller_effect t call {| ch_value := c; ch_event := None |} t.

(** An activation or a revocation answers for the registration that it read first,
    not for one that replaced it in the meantime. *)
Definition same_registration (call : ControllerCall) (w : W) (c : Controller) : Prop :=
  match call with
  | CallActivate k | CallRevokeController k =>
    ∃ v, (controller_read k w).1 = Ok (Some v) ∧ ct_name c = ct_name (vc_controller v) ∧
      ct_role c = ct_role (vc_controller v) ∧ ct_certificate c = ct_certificate (vc_controller v)
  | _ => True
  end.

(** ** Reading *)

Lemma triple_call {E E' A} (f : E → E') (P : ControllerTable → Prop) (c : SE W E A) :
  stable P →
  (∀ w r w', controller_ready w → c w = (r, w') →
     controller_ready w' ∧ evolves (controller_table w) (controller_table w')) →
  triple P (se_map_err f c) (λ _, P).
Proof.
  intros HP Hc w r w' Hw HPw. unfold se_map_err. destruct (c w) as [rr w1] eqn:E1.
  destruct (Hc _ _ _ Hw E1) as [? ?]. intros Hr. assert (w' = w1) as -> by (destruct rr; by injection Hr).
  split_and!; eauto.
Qed.

Lemma triple_controller_now P : stable P → triple P controller_now (λ _, P).
Proof. intros HP. apply triple_call; [done|]. apply law_controller_clock. Qed.

Lemma triple_all P : stable P → triple P (se_map_err ControllerStoreFailed controller_all) (λ _, P).
Proof.
  intros HP. apply triple_call; [done|]. intros w r w' Hw Hr.
  destruct (law_controller_all _ _ _ Hw Hr) as (? & t & t' & ? & [-> _] & ?). split; [done|by etrans].
Qed.

Lemma resolve_certificate_Ok k source w cert w' :
  resolve_certificate k source w = (Ok cert, w') → resolved k source cert.
Proof.
  destruct source as [p|m]; simpl.
  - intros (c & w1 & Hi & Hr)%se_bind_Ok. apply se_map_err_Ok in Hi. destruct (negb _) eqn:E; [done|].
    injection Hr as <- <-. apply negb_false_iff, bool_decide_eq_true in E. eauto.
  - intros ?%se_map_err_Ok. eauto.
Qed.

Lemma triple_resolve P k source :
  stable P → triple P (resolve_certificate k source) (λ cert t, P t ∧ resolved k source cert).
Proof.
  intros HP w r w' Hw HPw Hr.
  assert (triple P (resolve_certificate k source) (λ _, P)) as Ht.
  { destruct source as [p|m]; simpl.
    - eapply triple_bind; [apply triple_call; [done|apply law_issue]|]. intros c.
      apply triple_if; intros _; [apply triple_fail|by apply triple_ret].
    - apply triple_call; [done|apply law_import]. }
  destruct (Ht _ _ _ Hw HPw Hr) as (? & ? & Hpost). split_and!; [done..|]. intros cert ->.
  split; [by eapply Hpost|by eapply resolve_certificate_Ok].
Qed.

Lemma resolved_carries k source c : resolved k source (ct_certificate c) → carries k source c.
Proof. destruct source as [p|m]; [by intros [_ ?]|by right]. Qed.
Lemma exact_source_carries k source c : exact_source c source = true → carries k source c.
Proof. destruct source as [p|m]; intros ?%bool_decide_eq_true; [done|by left]. Qed.

(** The controller was the current one at some point after [t0]. *)
Definition controller_at (t0 : ControllerTable) (k : string) (v : VersionedController) (t : ControllerTable) : Prop :=
  ∃ t1, evolves t0 t1 ∧ evolves t1 t ∧ t1 !! k = Some (vc_controller v, vc_revision v).

Lemma stable_controller_at t0 k v : stable (controller_at t0 k v).
Proof. intros t t' (t1 & ? & ? & ?) ?. exists t1. split_and!; [done|by etrans|done]. Qed.
Lemma controller_at_evolves t0 k v t : controller_at t0 k v t → evolves t0 t.
Proof. intros (t1 & ? & ? & _). by etrans. Qed.
Lemma stable_controller_table t0 : stable (evolves t0).
Proof. apply stable_evolves. Qed.
Hint Resolve stable_controller_table stable_controller_at : core.

Lemma controller_at_current t0 k v t old :
  controller_at t0 k v t → t !! k = Some (old, vc_revision v) → old = vc_controller v.
Proof.
  intros (t1 & _ & He & Hl) Hk. by injection (evolves_same_controller _ _ _ _ _ _ He Hl Hk eq_refl) as ->.
Qed.

Lemma controller_at_valid t0 k v t :
  controllers_valid t0 → controller_at t0 k v t → ct_controller_id (vc_controller v) = k.
Proof. intros Ht (t1 & He & _ & Hl). by destruct (evolves_controllers_valid _ _ He Ht _ _ _ Hl). Qed.

Lemma find_controller_inv k w r w' :
  controller_ready w → find_controller k w = (r, w') →
  controller_ready w' ∧ ∃ t, evolves (controller_table w) t ∧ evolves t (controller_table w') ∧
    ((∃ e, r = Err (ControllerStoreFailed e)) ∨ r = Ok (controller_versioned <$> t !! k)).
Proof.
  intros Hw Hr. unfold find_controller in Hr. unfold se_bind at 1, se_map_err in Hr.
  destruct (controller_read k w) as [rr w1] eqn:Hk.
  destruct (law_controller_read _ _ _ _ Hw Hk) as (Hw1 & t & t' & He & [-> Hf] & He').
  destruct rr as [found|e]; [|injection Hr as <- <-; split; [done|]; exists t; split_and!; eauto].
  rewrite (Hf _ eq_refl) in Hr. destruct (t !! k) as [[c rev]|] eqn:Hl; simpl in Hr.
  - assert (controllers_valid t) as Hv.
    { eapply evolves_controllers_valid; [done|by apply law_controllers_valid]. }
    destruct (Hv _ _ _ Hl) as (Hid & _ & Hpos). unfold se_bind, se_lift, se_ret, require_controller_read in Hr.
    simpl in Hr. rewrite bool_decide_true in Hr by done. replace (rev =? 0) with false in Hr by lia.
    injection Hr as <- <-. split; [done|]. exists t. rewrite Hl. split_and!; eauto.
  - injection Hr as <- <-. split; [done|]. exists t. rewrite Hl. split_and!; eauto.
Qed.

Lemma triple_find t0 k :
  triple (evolves t0) (find_controller k)
    (λ found t, match found with Some v => controller_at t0 k v t | None => evolves t0 t end).
Proof.
  intros w r w' Hw He Hr. destruct (find_controller_inv _ _ _ _ Hw Hr) as (Hw' & t & H1 & H2 & Ho).
  split_and!; [done|by etrans|]. intros v ->. destruct Ho as [[e [=]]|[= ->]].
  destruct (t !! k) as [[c rev]|] eqn:Hl; simpl; [|by do 2 (etrans; [done|])].
  exists t. split_and!; [by etrans|done..].
Qed.

Lemma triple_read_controller t0 missing k :
  triple (evolves t0) (read_controller missing k) (controller_at t0 k).
Proof.
  eapply triple_bind; [apply triple_find|]. intros [v|]; simpl.
  - by apply (triple_ret controller_step controller_table controller_ready _ v).
  - apply (triple_fail controller_step controller_table controller_ready _ missing).
Qed.

(** ** Writing *)

Definition settled_effect (P : ControllerTable → Prop) (X : VersionedController → ControllerTable → ControllerTable → Prop)
    (written : Controller) (event : AuthenticationEvent) (replayed : Controller → bool)
    (a : AuthenticationChange Controller) (t t' : ControllerTable) : Prop :=
  (∃ v, P t ∧ X v t t' ∧ a = {| ch_value := written; ch_event := Some event |}) ∨
  (∃ c rev, t' = t ∧ t !! ct_controller_id written = Some (c, rev) ∧ replayed c = true ∧
     a = {| ch_value := c; ch_event := None |}).

Lemma triple_settle t0 P write X prior written event missing replayed :
  stable P → (∀ t, P t → evolves t0 t) →
  (∀ w r w', controller_ready w → write w = (r, w') →
     controller_ready w' ∧ around (controller_table w) (writes X r) (controller_table w')) →
  (∀ t t' v, P t → X v t t' → controller_step t t' ∧ vc_controller v = written) →
  triple P (settle_controller write prior written event missing replayed)
    (λ a, around t0 (settled_effect P X written event replayed a)).
Proof.
  intros HP H0 Hlaw HX w r w' Hw HPw Hr. unfold settle_controller in Hr.
  destruct (write w) as [rr w1] eqn:Hc. destruct (Hlaw _ _ _ Hw Hc) as (Hw1 & t & t' & He & Hwr & He').
  assert (P t) as HPt by eauto.
  assert (evolves t t') as Hs.
  { destruct Hwr as [[-> _]|(a & Ha & _)]; [done|]. by apply rtc_once, (HX _ _ a). }
  assert (evolves (controller_table w) (controller_table w1)) as Hev by (by do 2 (etrans; [done|])).
  destruct rr as [v|[]]; [|clear Hwr|injection Hr as <- <-; split_and!; [done..|by intros ? [=]]..].
  - assert (w' = w1) as -> by (unfold se_bind, se_lift in Hr; destruct (require_controller_commit _ _ _); by injection Hr).
    split_and!; [done..|]. intros a ->. apply se_bind_Ok in Hr as (_ & _ & _ & [= <- _]).
    destruct Hwr as [[_ [? [=]]]|(x & Hx & Hv)]. destruct (HX _ _ _ HPt Hx) as [_ Hwritten].
    exists t, t'. split_and!; [by apply H0| |done]. left. exists x. split_and!; [done..|]. by rewrite (Hv _ eq_refl), Hwritten.
  - assert (triple (evolves t0) (do! observed <- read_controller missing (ct_controller_id written) in
      if replayed (vc_controller observed)
      then se_ret {| ch_value := vc_controller observed; ch_event := None |}
      else se_fail (ControllerStoreFailed AuthConflict))
      (λ a, around t0 (settled_effect P X written event replayed a))) as Hrest.
    { eapply triple_bind; [apply triple_read_controller|]. intros v. apply triple_if; intros Hb; [|apply triple_fail].
      apply triple_ret. intros t2 (t3 & H1 & H2 & H3). exists t3, t3. split_and!; [done| |done]. right. eauto 10. }
    assert (evolves t0 (controller_table w1)) as H01 by (etrans; [exact (H0 _ HPw)|done]).
    destruct (Hrest _ _ _ Hw1 H01 Hr) as (? & ? & ?). split_and!; [done|by etrans|done].
Qed.

(** An answer without an event reports a controller that was read. *)
Lemma answer_observed t0 call v t :
  controller_at t0 (call_controller call) v t → asked_for call (vc_controller v) →
  around t0 (λ t t', controller_effect t call {| ch_value := vc_controller v; ch_event := None |} t') t.
Proof.
  intros (t1 & H1 & H2 & Hl) Ha. exists t1, t1. split_and!; [done| |done]. by eapply effect_observed.
Qed.

(** The write of a controller as the effect of a call. *)
Lemma triple_settle_call t0 P write X prior written event missing replayed call :
  stable P → (∀ t, P t → evolves t0 t) →
  (∀ w r w', controller_ready w → write w = (r, w') →
     controller_ready w' ∧ around (controller_table w) (writes X r) (controller_table w')) →
  ct_controller_id written = call_controller call → asked_for call written →
  (∀ c, replayed c = true → asked_for call c) →
  (∀ t t' v, P t → X v t t' → controller_step t t' ∧ vc_controller v = written ∧
     (∃ rev, t' = put t written rev) ∧ event_of call event (fst <$> t !! call_controller call) written) →
  triple P (settle_controller write prior written event missing replayed)
    (λ a, around t0 (λ t t', controller_effect t call a t')).
Proof.
  intros HP H0 Hlaw Hid Hasked Hrep HX.
  eapply triple_post; [|eapply triple_settle; [done..|by intros t t' v ? ?%HX; naive_solver]].
  intros a t1 (t & t' & H1 & H2 & H3). exists t, t'. split_and!; [done| |done].
  destruct H2 as [(v & HPt & Hx & ->)|(c & rev & -> & Hl & Hr & ->)].
  - destruct (HX _ _ _ HPt Hx) as (_ & _ & [rev ->] & He). by apply effect_changed.
  - rewrite Hid in Hl. eapply effect_observed; eauto.
Qed.

(** ** The operations *)

Abbreviation answers t0 call := (λ a, around t0 (λ t t', controller_effect t call a t')).

Lemma issued_Ok k n r cert now c :
  Controller_issued k n r cert now = Ok c →
  ct_controller_id c = k ∧ ct_name c = n ∧ ct_role c = r ∧ ct_certificate c = cert ∧
  ct_state c = ControllerIssuedState ∧ controller_coherent c.
Proof. by intros [-> ?]%restore_Ok. Qed.

Lemma enrolled_Ok k n r cert now c :
  (let? issued := Controller_issued k n r cert now in controller_activated issued now) = Ok c →
  ct_controller_id c = k ∧ ct_name c = n ∧ ct_role c = r ∧ ct_certificate c = cert ∧
  ct_state c = ControllerActive ∧ controller_coherent c.
Proof.
  intros (i & (<- & <- & <- & <- & Hs & _)%issued_Ok & Ha)%result_bind_Ok.
  by apply activated_Ok in Ha as (? & ? & ? & ? & ? & ?).
Qed.

(** A replaced controller, for the calls that may replace one. *)
Lemma triple_replace t0 call k n r source :
  call_controller call = k →
  (∀ c, asked_for call c ↔
     ct_state c = ControllerActive ∧ ct_name c = n ∧ ct_role c = r ∧ carries k source c) →
  (∀ old c, resolved k source (ct_certificate c) → event_of call (ControllerReplaced k) (Some old) c) →
  triple (evolves t0) (replace_controller k n r source) (answers t0 call).
Proof.
  intros <- Hasked Hev. unfold replace_controller.
  eapply triple_bind; [apply triple_read_controller|]. intros v.
  apply triple_if; intros Hb.
  { apply triple_ret. intros t Hat. apply answer_observed; [done|]. apply Hasked.
    apply andb_prop in Hb as [[[?%bool_decide_eq_true ?%bool_decide_eq_true]%andb_prop ?%bool_decide_eq_true]%andb_prop Hb].
    by eapply exact_source_carries in Hb. }
  eapply triple_bind; [by apply triple_resolve|]. intros cert. apply triple_assume. intros Hcert.
  eapply triple_bind; [by apply triple_controller_now|]. intros now. apply triple_lift. intros [] _.
  apply triple_if; intros Hb2.
  { apply triple_ret. intros t Hat. apply answer_observed; [done|]. apply Hasked.
    apply andb_prop in Hb2 as [[[?%bool_decide_eq_true ?%bool_decide_eq_true]%andb_prop <-%bool_decide_eq_true]%andb_prop
      ?%bool_decide_eq_true]. by apply resolved_carries in Hcert. }
  eapply triple_bind; [by apply triple_all|]. intros records. apply triple_lift. intros [] _.
  apply triple_lift. intros c (Hid & Hn & Hr & <- & Hs & Hc)%enrolled_Ok.
  pose proof (resolved_carries _ _ _ Hcert).
  eapply triple_settle_call; [done|apply controller_at_evolves|
    intros w o w' Hw; by apply law_controller_replace|done|by apply Hasked|..].
  - intros c' ->%bool_decide_eq_true. by apply Hasked.
  - intros t t' x Hat (old & rev & -> & Hlt & Hold & ->).
    split_and!; [by eapply step_replace|done|eauto|]. rewrite Hid in Hold. rewrite Hold. by apply Hev.
Qed.

Lemma triple_enroll t0 k n r p :
  triple (evolves t0) (enroll_controller k n r p) (answers t0 (CallEnroll k n r p)).
Proof.
  unfold enroll_controller. eapply triple_bind; [apply triple_find|]. intros [v|].
  { eapply triple_weaken; [apply controller_at_evolves|]. by apply triple_replace. }
  eapply triple_bind; [by apply triple_resolve|]. intros cert. apply triple_assume. intros Hcert.
  eapply triple_bind; [by apply triple_controller_now|]. intros now. apply triple_lift. intros [] _.
  eapply triple_bind; [by apply triple_all|]. intros records. apply triple_lift. intros [] _.
  apply triple_lift. intros c (Hid & Hn & Hr & <- & Hs & Hc)%enrolled_Ok.
  pose proof (resolved_carries _ _ _ Hcert).
  eapply triple_settle_call; [done|done|intros w o w' Hw; by apply law_controller_create|done|by split_and!|..].
  - intros c' ->%bool_decide_eq_true. by split_and!.
  - intros t t' x Hat (rev & -> & Hpos & Hnone & ->).
    split_and!; [by apply step_register; [..|congruence]|done|eauto|]. simpl. rewrite Hid in Hnone. by rewrite Hnone.
Qed.

Lemma triple_register t0 call k n r source cert kind event :
  call_controller call = k → resolved k source cert →
  (∀ c, asked_for call c ↔
     ct_state c ≠ ControllerRevokedState ∧ ct_name c = n ∧ ct_role c = r ∧ carries k source c) →
  (∀ c, ct_state c = ControllerIssuedState → resolved k source (ct_certificate c) → event_of call event None c) →
  event = match kind with RegistrationIssued => ControllerIssued k | RegistrationImported => ControllerImported k end →
  triple (evolves t0) (register_controller k n r cert kind) (answers t0 call).
Proof.
  intros Hk Hcert Hasked Hev ->. unfold register_controller.
  eapply triple_bind; [by apply triple_controller_now|]. intros now. apply triple_lift. intros [] _.
  eapply triple_bind; [apply triple_find|]. intros [v|].
  { apply triple_if; intros Hb; [|apply triple_fail]. apply triple_ret. intros t Hat.
    apply answer_observed; [by rewrite Hk|]. apply Hasked.
    apply andb_prop in Hb as [Hb [[?%bool_decide_eq_true ?%bool_decide_eq_true]%andb_prop <-%bool_decide_eq_true]%andb_prop].
    apply negb_true_iff, bool_decide_eq_false in Hb. by apply resolved_carries in Hcert. }
  eapply triple_bind; [by apply triple_all|]. intros records. apply triple_lift. intros [] _.
  apply triple_lift. intros c (Hid & Hn & Hr & <- & Hs & Hc)%issued_Ok.
  assert (ct_state c ≠ ControllerRevokedState) as Hne by congruence. pose proof (resolved_carries _ _ _ Hcert).
  eapply triple_settle_call; [done|done|intros w o w' Hw; by apply law_controller_create|by rewrite Hk|by apply Hasked|..].
  - intros c' ->%bool_decide_eq_true. by apply Hasked.
  - intros t t' x Hat (rev & -> & Hpos & Hnone & ->).
    split_and!; [by apply step_register|done|eauto|]. rewrite Hid, <- Hk in Hnone. rewrite Hnone. by apply Hev.
Qed.

Lemma triple_replay t0 k n r source :
  triple (evolves t0) (replay_controller_registration k n r (λ c, exact_source c source))
    (λ found t, match found with
     | None => evolves t0 t
     | Some a => ∃ v, controller_at t0 k v t ∧ a = {| ch_value := vc_controller v; ch_event := None |} ∧
         ct_state (vc_controller v) ≠ ControllerRevokedState ∧ ct_name (vc_controller v) = n ∧
         ct_role (vc_controller v) = r ∧ carries k source (vc_controller v)
     end).
Proof.
  eapply triple_bind; [apply triple_find|]. intros [v|]; [|by apply triple_ret].
  apply triple_if; intros Hb; [|apply triple_fail]. apply triple_ret. intros t Hat. exists v.
  apply andb_prop in Hb as [[[Hb ?%bool_decide_eq_true]%andb_prop ?%bool_decide_eq_true]%andb_prop Hs].
  apply negb_true_iff, bool_decide_eq_false in Hb. split_and!; try done. by apply exact_source_carries.
Qed.

Lemma triple_issue t0 k n r p :
  triple (evolves t0) (issue_controller k n r p) (answers t0 (CallIssue k n r p)).
Proof.
  eapply triple_bind; [apply (triple_replay t0 k n r (SourceIssue p))|]. intros [a|].
  { apply triple_ret. intros t (v & Hat & -> & Ha). by apply answer_observed. }
  eapply triple_bind; [by apply triple_resolve|]. intros cert. apply triple_assume. intros Hcert.
  by eapply triple_register.
Qed.

Lemma triple_import t0 k n r m :
  triple (evolves t0) (import_controller k n r m) (answers t0 (CallImport k n r m)).
Proof.
  eapply triple_bind; [apply (triple_replay t0 k n r (SourceImport m))|]. intros [a|].
  { apply triple_ret. intros t (v & Hat & -> & Ha). by apply answer_observed. }
  eapply triple_bind; [by apply triple_resolve|]. intros cert. apply triple_assume. intros Hcert.
  by eapply triple_register.
Qed.

(** A changed state of the controller that was read. *)
Lemma triple_state t0 call v c event :
  call_controller call = ct_controller_id (vc_controller v) → ct_controller_id c = ct_controller_id (vc_controller v) →
  controller_coherent c → asked_for call c → (∀ c', ct_state c' = ct_state c → asked_for call c') →
  (∀ t rev, t !! ct_controller_id (vc_controller v) = Some (vc_controller v, vc_revision v) →
     vc_revision v < rev → controller_step t (put t c rev)) →
  event_of call event (Some (vc_controller v)) c →
  triple (controller_at t0 (ct_controller_id (vc_controller v)) v) (replace_controller_state v c event) (answers t0 call).
Proof.
  intros Hk Hid Hc Ha Hst Hstep Hev.
  eapply triple_settle_call; [done|apply controller_at_evolves|
    intros w o w' Hw; by apply law_controller_replace|congruence|done|..].
  - intros c' [->%bool_decide_eq_true|[Hs%bool_decide_eq_true _]%andb_prop]%orb_prop; auto.
  - intros t t' x Hat (old & rev & -> & Hlt & Hold & ->). rewrite Hid in Hold.
    pose proof (controller_at_current _ _ _ _ _ Hat Hold) as ->. split_and!; [auto|done|eauto|].
    by rewrite Hk, Hold.
Qed.

Lemma triple_activate t0 k :
  controllers_valid t0 →
  triple (evolves t0) (activate_controller k) (answers t0 (CallActivate k)).
Proof.
  intros Ht. unfold activate_controller. eapply triple_bind; [apply triple_read_controller|]. intros v.
  eapply (triple_know _ _ _ _ (ct_controller_id (vc_controller v) = k));
    [intros t; by apply controller_at_valid|intros <-].
  apply triple_if; intros Hs.
  { apply triple_ret. intros t Hat. apply answer_observed; [done|]. by apply bool_decide_eq_true in Hs. }
  apply triple_if; intros Hr; [apply triple_fail|].
  apply bool_decide_eq_false in Hs, Hr.
  assert (ct_state (vc_controller v) = ControllerIssuedState) as Hi by (destruct (ct_state _); done).
  eapply triple_bind; [by apply triple_controller_now|]. intros now. apply triple_lift. intros [] _.
  apply triple_lift. intros c Hc. pose proof Hc as (Hid & Hn & Hro & Hce & Hst & Hcoh)%activated_Ok; [|done].
  apply triple_state; try done; simpl; [congruence|].
  intros t rev Hl Hlt. by eapply step_activate.
Qed.

Lemma triple_revoke_controller t0 k :
  controllers_valid t0 →
  triple (evolves t0) (revoke_controller k) (answers t0 (CallRevokeController k)).
Proof.
  intros Ht. unfold revoke_controller. eapply triple_bind; [apply triple_read_controller|]. intros v.
  eapply (triple_know _ _ _ _ (ct_controller_id (vc_controller v) = k));
    [intros t; by apply controller_at_valid|intros <-].
  apply triple_if; intros Hs.
  { apply triple_ret. intros t Hat. apply answer_observed; [done|]. by apply bool_decide_eq_true in Hs. }
  apply bool_decide_eq_false in Hs. eapply triple_bind; [by apply triple_controller_now|]. intros now.
  apply triple_lift. intros c Hc. pose proof Hc as (Hid & Hn & Hro & Hce & Hst & Hcoh)%revoked_Ok; [|done].
  apply triple_state; try done; simpl; [congruence|].
  intros t rev Hl Hlt. by eapply step_controller_revoke.
Qed.

Lemma controller_call_refines call t0 :
  controllers_valid t0 → triple (evolves t0) (controller_call call) (answers t0 call).
Proof.
  intros Ht. destruct call as [k n r p|k n r p|k n r m|k n r s|k|k]; simpl.
  - apply triple_enroll.
  - apply triple_issue.
  - apply triple_import.
  - by apply triple_replace.
  - by apply triple_activate.
  - by apply triple_revoke_controller.
Qed.

(** ** The registration that was read *)

Lemma settle_controller_Ok (write : SE W AuthenticationStoreError VersionedController) prior written event missing
    replayed (w : W) a w' :
  settle_controller write prior written event missing replayed w = (Ok a, w') →
  ch_value a = written ∨ replayed (ch_value a) = true.
Proof.
  unfold settle_controller. destruct (write w) as [[stored|[]] w1]; try done.
  - intros (u & w2 & [Hc _]%se_lift_Ok & [= <- _])%se_bind_Ok. left. unfold require_controller_commit in Hc.
    destruct (_ || _) eqn:E; [done|]. by apply orb_false_iff in E as [->%negb_false_iff%bool_decide_eq_true _].
  - intros (observed & w2 & _ & Hr)%se_bind_Ok. destruct (replayed _) eqn:E; [|done].
    injection Hr as <- _. by right.
Qed.

Lemma replace_controller_state_Ok current updated event (w : W) a w' :
  replace_controller_state current updated event w = (Ok a, w') →
  ct_name (ch_value a) = ct_name updated ∧ ct_role (ch_value a) = ct_role updated ∧
  ct_certificate (ch_value a) = ct_certificate updated.
Proof.
  intros [->|[->%bool_decide_eq_true|[_ Hm]%andb_prop]%orb_prop]%settle_controller_Ok; [done..|].
  apply andb_prop in Hm as [[?%bool_decide_eq_true ?%bool_decide_eq_true]%andb_prop ?%bool_decide_eq_true].
  done.
Qed.

Lemma read_controller_Ok missing k (w : W) v w' :
  read_controller missing k w = (Ok v, w') → (controller_read k w).1 = Ok (Some v).
Proof.
  unfold read_controller, find_controller. intros (found & w1 & Hf & Hr)%se_bind_Ok.
  apply se_bind_Ok in Hf as (found' & w2 & Hread%se_map_err_Ok & Hf). rewrite Hread.
  destruct found' as [v'|]; [|by injection Hf as <- <-].
  apply se_bind_Ok in Hf as (u & w3 & _ & [= <- <-]). by injection Hr as <- <-.
Qed.

Lemma same_registration_kept call (w : W) a w' :
  controller_call call w = (Ok a, w') → same_registration call w (ch_value a).
Proof.
  destruct call as [| | | |k|k]; try done; simpl;
    intros (v & w1 & Hread%read_controller_Ok & Hr)%se_bind_Ok; exists v; (split; [done|]); cbv zeta in Hr.
  - destruct (bool_decide (_ = ControllerActive)) eqn:Ea in Hr; [by injection Hr as <- _|].
    destruct (bool_decide (_ = ControllerRevokedState)) eqn:Er in Hr; [done|].
    apply bool_decide_eq_false in Ea, Er. apply se_bind_Ok in Hr as (now & w2 & _ & Hr).
    apply se_bind_Ok in Hr as (u & w3 & _ & Hr). apply se_bind_Ok in Hr as (c & w4 & [Hc _]%se_lift_Ok & Hr).
    apply replace_controller_state_Ok in Hr as (-> & -> & ->).
    apply activated_Ok in Hc as (_ & ? & ? & ? & _); [done|]. by destruct (ct_state _).
  - destruct (bool_decide (_ = ControllerRevokedState)) eqn:Er in Hr; [by injection Hr as <- _|].
    apply bool_decide_eq_false in Er. apply se_bind_Ok in Hr as (now & w2 & _ & Hr).
    apply se_bind_Ok in Hr as (c & w4 & [Hc _]%se_lift_Ok & Hr).
    apply replace_controller_state_Ok in Hr as (-> & -> & ->).
    by apply revoked_Ok in Hc as (_ & ? & ? & ? & _).
Qed.

(** C33: the controller operations refine the life cycle.  With any other managers
    using the same store, an operation lets the controllers only be registered,
    activated, revoked or explicitly replaced, whatever it returns.  A successful
    answer reports one point of the call: the change its event stands for, with the
    certificate that the authority answered for the presented key or material; or
    without an event a stored controller that already was what was asked for, in its
    state, name and role and in the public key or certificate it carries.  An
    activation or revocation answers for the registration (name, role and
    certificate) that its first read gave. *)
Theorem controller_operations_refine_the_life_cycle call w r w' :
  controller_ready w → controller_call call w = (r, w') →
  controller_ready w' ∧ evolves (controller_table w) (controller_table w') ∧
  ∀ answer, r = Ok answer →
    around (controller_table w) (λ t t', controller_effect t call answer t') (controller_table w') ∧
    same_registration call w (ch_value answer).
Proof.
  intros Hw Hr. destruct (controller_call_refines call _ (law_controllers_valid _ Hw) w r w' Hw) as (? & ? & Ha);
    [done..|]. split_and!; [done..|]. intros answer ->. split; [auto|by eapply same_registration_kept].
Qed.

(** ** Authorization *)

Definition authorized (c : Controller) (sha : string) (role : ControllerRole) (now : Z) : Prop :=
  ct_state c = ControllerActive ∧ cc_certificate_sha256 (ct_certificate c) = sha ∧
  cc_valid_from (ct_certificate c) ≤ now < cc_expires_at (ct_certificate c) ∧
  role_rank role ≤ role_rank (ct_role c).

Lemma authorized_spec c sha role now :
  (negb (bool_decide (ct_state c = ControllerActive))
   || negb (bool_decide (cc_certificate_sha256 (ct_certificate c) = sha))
   || negb (is_valid_at (ct_certificate c) now)
   || negb (role_permits (ct_role c) role)) = false ↔ authorized c sha role now.
Proof.
  unfold authorized, is_valid_at, role_permits. rewrite !orb_false_iff, !negb_false_iff, !bool_decide_eq_true, andb_true_iff.
  rewrite !Z.leb_le, Z.ltb_lt. naive_solver.
Qed.

(** an authorization is exact.  Unless the store or the clock fails, an action
    is authorized exactly when, at one point of the call, the controller is stored as
    active with the presented certificate, the certificate is valid at the time the
    clock gave, and the role suffices; the answer carries the stored role. *)
Theorem authorization_is_exact k sha role w r w' :
  controller_ready w → authorize_controller k sha role w = (r, w') →
  (∃ e, r = Err (ControllerStoreFailed e)) ∨ r = Err ControllerClockUnavailable ∨
  ∃ t, evolves (controller_table w) t ∧ evolves t (controller_table w') ∧
    match t !! k with
    | None => r = Err ControllerUnauthorized
    | Some (c, _) => ∃ now (w1 w2 : W), auth_now w1 = (Ok now, w2) ∧
        (r = Ok (ControllerPrincipal_new c) ↔ authorized c sha role now) ∧
        (r = Err ControllerUnauthorized ↔ ¬ authorized c sha role now)
    end.
Proof.
  intros Hw Hr. unfold authorize_controller, read_controller in Hr.
  unfold se_bind at 1, se_bind at 1 in Hr.
  destruct (find_controller k w) as [rf w1] eqn:Hf.
  destruct (find_controller_inv _ _ _ _ Hw Hf) as (Hw1 & t & He & He' & Ho).
  destruct Ho as [[e ->]| ->]; [injection Hr as <- _; eauto|].
  destruct (t !! k) as [[c rev]|] eqn:Hl; simpl in Hr.
  2: { injection Hr as <- <-. right; right. exists t. by rewrite Hl. }
  unfold se_bind, controller_now, se_map_err in Hr. destruct (auth_now w1) as [[now|e] w2] eqn:Hn;
    [|injection Hr as <- _; auto].
  destruct (law_controller_clock _ _ _ Hw1 Hn) as [_ He2]. right; right. exists t. rewrite Hl.
  pose proof (authorized_spec c sha role now) as Hspec.
  destruct (_ || _); injection Hr as <- <-; (split_and!; [done|by etrans|]); exists now, w1, w2;
    naive_solver.
Qed.
End controllers.

(** ** A store in memory

    Controllers in a table, a clock that stands still, and an authority that issues
    one hour of validity.  A laptop is enrolled, authorized and revoked. *)

Module ControllerScenario.

#[export] Instance clock : AuthenticationClock ControllerTable := λ t, (Ok 1000, t).
#[export] Instance store : ControllerStore ControllerTable := {|
  controller_read k t := (Ok (controller_versioned <$> t !! k), t);
  controller_all t := (Ok (controller_versioned ∘ snd <$> map_to_list t), t);
  controller_create c t :=
    match t !! ct_controller_id c with
    | Some _ => (Err AuthConflict, t)
    | None => (Ok (controller_versioned (c, 1)), put t c 1)
    end;
  controller_replace c expected t :=
    match t !! ct_controller_id c with
    | Some (_, rev) =>
      if rev =? expected then (Ok (controller_versioned (c, rev + 1)), put t c (rev + 1))
      else (Err AuthConflict, t)
    | None => (Err AuthConflict, t)
    end;
|}.
Definition certificate (k : string) (key : string) : ControllerCertificate :=
  {| cc_controller_id := k; cc_certificate_sha256 := key; cc_public_key_sha256 := key;
     cc_public_material := [1]; cc_valid_from := 500; cc_expires_at := 3600500 |}.
#[export] Instance authority : ControllerCertificateProvider ControllerTable := {|
  certificate_issue k p t := (Ok (certificate k (cpk_sha256 p)), t);
  certificate_import k m t := (Err CertificateInvalid, t);
|}.

Lemma point_here {A} (X : A → ControllerTable → ControllerTable → Prop) (r : result AuthenticationStoreError A) t t' :
  writes X r t t' → around t (writes X r) t'.
Proof. intros Hw. exists t, t'. by split_and!. Qed.

#[export] Instance laws : ControllerStoreLaws ControllerTable.
Proof.
  refine {| controller_table := λ t, t; controller_ready := controllers_valid |}.
  - done.
  - by intros t r t' Ht [= <- <-].
  - by intros k p t r t' Ht [= <- <-].
  - by intros k m t r t' Ht [= <- <-].
  - intros k t r t' Ht [= <- <-]. split; [done|]. exists t, t. split_and!; [done..| |done]. by intros ? [= <-].
  - intros t r t' Ht [= <- <-]. split; [done|]. exists t, t. split_and!; [done..| |done].
    intros found [= <-] v. rewrite list_elem_of_fmap. split.
    + intros ([k e] & -> & Hl%elem_of_map_to_list). exists k. by rewrite Hl.
    + intros (k & (e & Hl & ->)%fmap_Some). exists (k, e). split; [done|]. by apply elem_of_map_to_list.
  - intros c t r t' Ht Hc. simpl. destruct (t !! ct_controller_id c) eqn:Hl; intros [= <- <-].
    + split; [done|]. apply point_here. left. eauto.
    + split; [by apply put_valid|]. apply point_here. right. eexists. split; [|by intros ? [= <-]].
      exists 1. by split_and!.
  - intros c expected t r t' Ht Hc. simpl. destruct (t !! ct_controller_id c) as [[old rev]|] eqn:Hl.
    + destruct (Z.eqb_spec rev expected) as [->|]; intros [= <- <-].
      * destruct (Ht _ _ _ Hl) as (_ & _ & ?). split; [apply put_valid; [done..|lia]|]. apply point_here. right.
        eexists. split; [|by intros ? [= <-]]. exists old, (expected + 1). split_and!; [done|lia|done..].
      * split; [done|]. apply point_here. left. eauto.
    + intros [= <- <-]. split; [done|]. apply point_here. left. eauto.
Defined.

Definition laptop : string := "0123456789abcdef0123456789abcdef".
Definition laptop_key : ControllerPublicKey := {| cpk_bytes := []; cpk_sha256 := "key" |}.
Definition enroll : ControllerCall := CallEnroll laptop "Laptop" Operator laptop_key.
Definition enrollment := controller_call enroll (∅ : ControllerTable).
Definition enrolled : Controller :=
  {| ct_controller_id := laptop; ct_name := "Laptop"; ct_role := Operator;
     ct_certificate := certificate laptop "key"; ct_state := ControllerActive; ct_issued_at := 1000;
     ct_activated_at := Some 1000; ct_revoked_at := None |}.
Definition enrolled_answer : AuthenticationChange Controller :=
  {| ch_value := enrolled; ch_event := Some (ControllerEnrolled laptop) |}.

Lemma nobody_ready : controller_ready (∅ : ControllerTable).
Proof. by intros k c rev Hl. Qed.
Lemma laptop_enrolled : controller_call enroll (∅ : ControllerTable) = (Ok enrolled_answer, enrollment.2).
Proof. vm_compute. reflexivity. Qed.
Lemma enrollment_ready : controller_ready enrollment.2.
Proof.
  exact (proj1 (controller_call_refines enroll _ nobody_ready _ _ _ nobody_ready (rtc_refl _ _) laptop_enrolled)).
Qed.

Definition revoked : Controller :=
  {| ct_controller_id := laptop; ct_name := "Laptop"; ct_role := Operator;
     ct_certificate := certificate laptop "key"; ct_state := ControllerRevokedState; ct_issued_at := 1000;
     ct_activated_at := Some 1000; ct_revoked_at := Some 1000 |}.
Definition revocation := controller_call (CallRevokeController laptop) enrollment.2.
Lemma laptop_revoked :
  controller_call (CallRevokeController laptop) enrollment.2
  = (Ok {| ch_value := revoked; ch_event := Some (ControllerRevoked laptop) |}, revocation.2).
Proof. vm_compute. reflexivity. Qed.

Lemma controller_operations_refine_the_life_cycle_witness :
  around (controller_table (∅ : ControllerTable))
    (λ t t', controller_effect (W := ControllerTable) t enroll enrolled_answer t') (controller_table enrollment.2) ∧
  ∃ v, (controller_read laptop enrollment.2).1 = Ok (Some v) ∧ ct_name revoked = ct_name (vc_controller v) ∧
    ct_role revoked = ct_role (vc_controller v) ∧ ct_certificate revoked = ct_certificate (vc_controller v).
Proof.
  split.
  - exact (proj1 (proj2 (proj2 (controller_operations_refine_the_life_cycle enroll (∅ : ControllerTable)
      _ _ nobody_ready laptop_enrolled)) _ eq_refl)).
  - exact (proj2 (proj2 (proj2 (controller_operations_refine_the_life_cycle (CallRevokeController laptop)
      enrollment.2 _ _ enrollment_ready laptop_revoked)) _ eq_refl)).
Defined.

Definition authorization := authorize_controller laptop "key" Viewer enrollment.2.
Lemma laptop_authorized : authorization.1 = Ok (ControllerPrincipal_new enrolled).
Proof. vm_compute. reflexivity. Qed.

Lemma authorization_is_exact_witness :
  (∃ e, authorization.1 = Err (ControllerStoreFailed e)) ∨ authorization.1 = Err ControllerClockUnavailable ∨
  ∃ t, evolves (controller_table enrollment.2) t ∧ evolves t (controller_table authorization.2) ∧
    match t !! laptop with
    | None => authorization.1 = Err ControllerUnauthorized
    | Some (c, _) => ∃ now (w1 w2 : ControllerTable), auth_now w1 = (Ok now, w2) ∧
        (authorization.1 = Ok (ControllerPrincipal_new c) ↔ authorized c "key" Viewer now) ∧
        (authorization.1 = Err ControllerUnauthorized ↔ ¬ authorized c "key" Viewer now)
    end.
Proof.
  exact (authorization_is_exact laptop "key" Viewer enrollment.2 authorization.1 authorization.2
    enrollment_ready (surjective_pairing _)).
Defined.
End ControllerScenario.
