(* ===== verification/UpdateContract.v ===== *)
(** * The Core update contract

    The data of [core/update/src/li_core_update_contract.rs], the errors, identities
    and failure descriptions of [li_core_update_manager.rs], and the service facts and
    receipts of [li_core_update_service_provider.rs].  A version is accepted exactly
    when it is the text of a semantic version; a service receipt covers every fact
    that a restoration needs. *)

From Stdlib Require Import String Ascii.
From S2P Require Import Prelude Values Text Database.

(** ** Errors *)

Inductive CoreUpdateStoreError := UpConflict | UpUnavailable | UpCorrupt.
#[export] Instance CoreUpdateStoreError_eq_dec : EqDecision CoreUpdateStoreError.
Proof. solve_decision. Defined.

Inductive CoreUpdateError :=
| UpInvalidContract (reason : string)
| UpBusy
| UpIdempotencyConflict
| UpStore (error : CoreUpdateStoreError)
| UpProvider (capability reason : string)
| UpRolledBack (failure : FailureDescription)
| UpRecoveryRequired (failure : FailureDescription).
#[export] Instance CoreUpdateError_eq_dec : EqDecision CoreUpdateError.
Proof. solve_decision. Defined.

(** ** Versions *)

Definition MAX_IDEMPOTENCY_KEY_BYTES : Z := 255.
Definition MAX_CORE_VERSION_BYTES : Z := 128.

(** [u8::is_ascii_whitespace]: space, tab, line feed, form feed, carriage return. *)
Definition is_ascii_whitespace (b : Z) : bool :=
  (b =? 32) || (b =? 9) || (b =? 10) || (b =? 12) || (b =? 13).

Definition split_build (value : string) : result CoreUpdateError (string * option string) :=
  match split_once "+"%char value with
  | None => Ok (value, None)
  | Some (base, build) =>
    if bool_decide (base = EmptyString) || bool_decide (build = EmptyString) || has_char "+"%char build
    then Err (UpInvalidContract "Core version contains an invalid optional section")
    else Ok (base, Some build)
  end.

Definition split_prerelease (value : string) : result CoreUpdateError (string * option string) :=
  match split_once "-"%char value with
  | None => Ok (value, None)
  | Some (base, prerelease) =>
    if bool_decide (base = EmptyString) || bool_decide (prerelease = EmptyString)
    then Err (UpInvalidContract "Core version contains an invalid optional section")
    else Ok (base, Some prerelease)
  end.

Definition is_identifier_byte (b : Z) : bool := is_ascii_alphanumeric b || (b =? 45).

Definition validate_identifiers (value : string) (reject_numeric_leading_zero : bool)
  : result CoreUpdateError () :=
  if existsb (λ identifier,
       bool_decide (identifier = EmptyString)
       || negb (forallb is_identifier_byte (bytes identifier))
       || (reject_numeric_leading_zero && (1 <? str_len identifier)
           && forallb is_ascii_digit (bytes identifier) && starts_with "0" identifier))
     (split_char "."%char value)
  then Err (UpInvalidContract "Core version contains an invalid identifier")
  else Ok ().

Definition is_canonical_number (value : string) : bool :=
  negb (bool_decide (value = EmptyString)) && forallb is_ascii_digit (bytes value)
  && (bool_decide (value = "0"%string) || negb (starts_with "0" value)).

Definition validate_section (section : option string) (reject_numeric_leading_zero : bool)
  : result CoreUpdateError () :=
  match section with Some s => validate_identifiers s reject_numeric_leading_zero | None => Ok () end.

Definition validate_semantic_version (value : string) : result CoreUpdateError () :=
  if bool_decide (value = EmptyString) || (MAX_CORE_VERSION_BYTES <? str_len value)
     || starts_with "v" value || existsb is_ascii_whitespace (bytes value)
  then Err (UpInvalidContract "Core version is not canonical semantic version text")
  else
    let? sections := split_build value in
    let '(without_build, build) := sections in
    let? _ := validate_section build false in
    let? sections := split_prerelease without_build in
    let '(base, prerelease) := sections in
    let? _ := validate_section prerelease true in
    let components := split_char "."%char base in
    if negb (length components =? 3)%nat || existsb (λ c, negb (is_canonical_number c)) components
    then Err (UpInvalidContract "Core version requires three canonical numeric components")
    else Ok ().

Definition CoreVersion_parse (value : string) : result CoreUpdateError string :=
  let? _ := validate_semantic_version value in Ok value.

(** ** Installations and receipts *)

Record CoreInstallation := { ci_version : string; ci_source_identity : string }.
#[export] Instance CoreInstallation_eq_dec : EqDecision CoreInstallation.
Proof. solve_decision. Defined.

Record PreparedCoreUpdate := { pu_receipt_id : string; pu_installation : CoreInstallation }.
#[export] Instance PreparedCoreUpdate_eq_dec : EqDecision PreparedCoreUpdate.
Proof. solve_decision. Defined.

Record CoreServiceSnapshot := { ss_receipt_id : string }.
#[export] Instance CoreServiceSnapshot_eq_dec : EqDecision CoreServiceSnapshot.
Proof. solve_decision. Defined.

Record ActivatedCoreUpdate := {
  au_receipt_id : string;
  au_previous : CoreInstallation;
  au_installation : CoreInstallation;
}.
#[export] Instance ActivatedCoreUpdate_eq_dec : EqDecision ActivatedCoreUpdate.
Proof. solve_decision. Defined.

Definition ActivatedCoreUpdate_new (receipt_id : string) (previous installation : CoreInstallation)
  : result CoreUpdateError ActivatedCoreUpdate :=
  if bool_decide (previous = installation)
  then Err (UpInvalidContract "activation cannot replace an installation with itself")
  else Ok {| au_receipt_id := receipt_id; au_previous := previous; au_installation := installation |}.

(** ** The journal *)

Inductive CoreUpdatePhase :=
| PhRequested | PhPrepared | PhServicesSnapshotted | PhActivated | PhServicesRebound
| PhVerified | PhCommitted | PhRollingBack | PhCurrent | PhCleanupPending | PhSucceeded
| PhRolledBack | PhRecoveryRequired.
#[export] Instance CoreUpdatePhase_eq_dec : EqDecision CoreUpdatePhase.
Proof. solve_decision. Defined.

Definition is_terminal (phase : CoreUpdatePhase) : bool :=
  match phase with
  | PhCurrent | PhCleanupPending | PhSucceeded | PhRolledBack | PhRecoveryRequired => true
  | _ => false
  end.

Record CoreUpdateRecord := {
  ur_update_id : string;
  ur_idempotency_key : string;
  ur_requested_version : option string;
  ur_phase : CoreUpdatePhase;
  ur_current : option CoreInstallation;
  ur_prepared : option PreparedCoreUpdate;
  ur_service_snapshot : option CoreServiceSnapshot;
  ur_activation : option ActivatedCoreUpdate;
  ur_failure : option FailureDescription;
}.
#[export] Instance CoreUpdateRecord_eq_dec : EqDecision CoreUpdateRecord.
Proof. solve_decision. Defined.

Definition structure_is_valid (record : CoreUpdateRecord) : bool :=
  let current := is_some (ur_current record) in
  let prepared := is_some (ur_prepared record) in
  let snapshot := is_some (ur_service_snapshot record) in
  let activation := is_some (ur_activation record) in
  let failure := is_some (ur_failure record) in
  match ur_phase record with
  | PhRequested => negb current && negb prepared && negb snapshot && negb activation && negb failure
  | PhPrepared => current && prepared && negb snapshot && negb activation && negb failure
  | PhServicesSnapshotted => current && prepared && snapshot && negb activation && negb failure
  | PhActivated | PhServicesRebound | PhVerified | PhCommitted | PhSucceeded =>
    current && prepared && snapshot && activation && negb failure
  | PhRollingBack => failure
  | PhCurrent => current && negb prepared && negb snapshot && negb activation && negb failure
  | PhCleanupPending => current && prepared && snapshot && activation && failure
  | PhRolledBack | PhRecoveryRequired => failure
  end.

Definition validate_update_record (record : CoreUpdateRecord) : result CoreUpdateError () :=
  if negb (structure_is_valid record)
  then Err (UpInvalidContract "Core update journal receipts do not match its phase")
  else if is_some (ur_service_snapshot record)
          && (negb (is_some (ur_current record)) || negb (is_some (ur_prepared record)))
  then Err (UpInvalidContract "Core service snapshot has no prepared handoff")
  else match ur_activation record with
  | None => Ok ()
  | Some activation =>
    let? current := ok_or (UpInvalidContract "Core activation has no previous installation")
                      (ur_current record) in
    let? prepared := ok_or (UpInvalidContract "Core activation has no prepared installation")
                       (ur_prepared record) in
    if negb (bool_decide (au_previous activation = current))
       || negb (bool_decide (au_installation activation = pu_installation prepared))
    then Err (UpInvalidContract "Core activation does not match persisted handoff identities")
    else Ok ()
  end.

(** ** Identities *)

Section identity.
Context `{!Sha256}.

Definition update_identity (idempotency_key : string) : result CoreUpdateError string :=
  match Sha256Digest_parse (sha256_hex (digest_fields ["li_core_update_v1"%string; idempotency_key])) with
  | Ok digest => Ok digest
  | Err _ => Err (UpInvalidContract "Core update identity could not be derived")
  end.

Definition CoreUpdateRecord_restore (record : CoreUpdateRecord) : result CoreUpdateError CoreUpdateRecord :=
  if bool_decide (ur_idempotency_key record = EmptyString)
     || (MAX_IDEMPOTENCY_KEY_BYTES <? str_len (ur_idempotency_key record))
  then Err (UpInvalidContract "Core update idempotency key is empty or exceeds its bound")
  else
    let? identity := update_identity (ur_idempotency_key record) in
    if negb (bool_decide (identity = ur_update_id record))
    then Err (UpInvalidContract "Core update identity does not match its replay key")
    else let? _ := validate_update_record record in Ok record.

Definition CoreUpdateRecord_requested (update_id idempotency_key : string)
    (requested_version : option string) : result CoreUpdateError CoreUpdateRecord :=
  if bool_decide (idempotency_key = EmptyString) || (MAX_IDEMPOTENCY_KEY_BYTES <? str_len idempotency_key)
  then Err (UpInvalidContract "Core update idempotency key is empty or exceeds its bound")
  else CoreUpdateRecord_restore
    {| ur_update_id := update_id; ur_idempotency_key := idempotency_key;
       ur_requested_version := requested_version; ur_phase := PhRequested; ur_current := None;
       ur_prepared := None; ur_service_snapshot := None; ur_activation := None; ur_failure := None |}.
End identity.

Definition failure_text (error : CoreUpdateError) : string :=
  match error with
  | UpInvalidContract reason => reason
  | UpBusy => "another Core update is active"
  | UpIdempotencyConflict => "Core update request conflicts with its replay identity"
  | UpStore _ => "Core update persistence failed"
  | UpProvider _ reason => reason
  | UpRolledBack _ => "Core update rolled back"
  | UpRecoveryRequired _ => "Core update requires recovery"
  end.

Definition failure_description (stage : string) (error : CoreUpdateError)
  : result CoreUpdateError FailureDescription :=
  match TechnicalName_parse stage with
  | Err _ => Err (UpInvalidContract "Core update failure code is invalid")
  | Ok code =>
    match FailureDescription_new code (failure_text error) with
    | Ok failure => Ok failure
    | Err _ => Err (UpInvalidContract "Core update failure could not be recorded")
    end
  end.

Record VersionedCoreUpdateRecord := { vu_record : CoreUpdateRecord; vu_revision : Z }.
#[export] Instance VersionedCoreUpdateRecord_eq_dec : EqDecision VersionedCoreUpdateRecord.
Proof. solve_decision. Defined.

(** ** Results *)

Inductive CoreUpdateDisposition := DispCurrent | DispUpdated | DispCleanupPending.
Inductive CoreUpdateEvent :=
| CoreCurrent (source_identity : string)
| CoreUpdated (source_identity : string)
| CoreCleanupPending (source_identity : string).
Record CoreUpdateChange := {
  uc_installation : CoreInstallation;
  uc_disposition : CoreUpdateDisposition;
  uc_event : option CoreUpdateEvent;
}.

(** ** Resident services *)

Inductive CoreUpdateServicePlatform := PlLinux | PlMacos.
Inductive CoreUpdateNodeRole := RoleMain | RoleChild.
Inductive CoreUpdateResidentService := SvcNode | SvcGateway | SvcWatchdog.
Inductive CoreUpdateServiceMode := ModeNode | ModePublicGateway | ModePrivateGateway | ModeWatchdog.
#[export] Instance CoreUpdateServicePlatform_eq_dec : EqDecision CoreUpdateServicePlatform.
Proof. solve_decision. Defined.
#[export] Instance CoreUpdateNodeRole_eq_dec : EqDecision CoreUpdateNodeRole.
Proof. solve_decision. Defined.
#[export] Instance CoreUpdateResidentService_eq_dec : EqDecision CoreUpdateResidentService.
Proof. solve_decision. Defined.

Record CoreUpdateServiceContext := { sc_platform : CoreUpdateServicePlatform; sc_role : CoreUpdateNodeRole }.
#[export] Instance CoreUpdateServiceContext_eq_dec : EqDecision CoreUpdateServiceContext.
Proof. solve_decision. Defined.

Record CoreUpdateServiceState := {
  st_service : CoreUpdateResidentService;
  st_loaded_identity : option string;
  st_active_identity : option string;
}.
#[export] Instance CoreUpdateServiceState_eq_dec : EqDecision CoreUpdateServiceState.
Proof. solve_decision. Defined.

Definition CoreUpdateServiceState_new (service : CoreUpdateResidentService)
    (loaded_identity active_identity : option string) : result CoreUpdateError CoreUpdateServiceState :=
  if is_some active_identity && negb (bool_decide (active_identity = loaded_identity))
  then Err (UpInvalidContract "an active service identity must match its loaded identity")
  else Ok {| st_service := service; st_loaded_identity := loaded_identity;
             st_active_identity := active_identity |}.

Definition was_loaded (state : CoreUpdateServiceState) : bool := is_some (st_loaded_identity state).
Definition was_active (state : CoreUpdateServiceState) : bool := is_some (st_active_identity state).

Record CoreUpdateServiceSnapshotRecord := {
  sn_update_id : string;
  sn_receipt_id : string;
  sn_current : CoreInstallation;
  sn_context : CoreUpdateServiceContext;
  sn_services : list CoreUpdateServiceState;
}.
#[export] Instance CoreUpdateServiceSnapshotRecord_eq_dec : EqDecision CoreUpdateServiceSnapshotRecord.
Proof. solve_decision. Defined.

Definition platform_identity (platform : CoreUpdateServicePlatform) : string :=
  match platform with PlLinux => "linux" | PlMacos => "macos" end.
Definition role_identity (role : CoreUpdateNodeRole) : string :=
  match role with RoleMain => "main" | RoleChild => "child" end.
Definition service_identity (service : CoreUpdateResidentService) : string :=
  match service with SvcNode => "li_node" | SvcGateway => "li_gateway" | SvcWatchdog => "li_watchdog" end.

(** The fields of [append_optional_digest]. *)
Definition optional_digest_fields (value : option string) : list string :=
  match value with Some value => ["some"%string; value] | None => ["none"%string] end.

Definition service_fields (state : CoreUpdateServiceState) : list string :=
  service_identity (st_service state) :: optional_digest_fields (st_loaded_identity state)
    ++ optional_digest_fields (st_active_identity state).

(** The length-delimited fields that [snapshot_identity] hashes, in order. *)
Definition snapshot_fields (update_id : string) (current : CoreInstallation)
    (context : CoreUpdateServiceContext) (services : list CoreUpdateServiceState) : list string :=
  ["li_core_service_snapshot_v2"%string; update_id; ci_version current; ci_source_identity current;
   platform_identity (sc_platform context); role_identity (sc_role context)]
  ++ (services ≫= service_fields).

Section receipt.
Context `{!Sha256}.

Definition snapshot_identity (update_id : string) (current : CoreInstallation)
    (context : CoreUpdateServiceContext) (services : list CoreUpdateServiceState)
  : result CoreUpdateError string :=
  match Sha256Digest_parse (sha256_hex (digest_fields (snapshot_fields update_id current context services))) with
  | Ok digest => Ok digest
  | Err _ => Err (UpInvalidContract "Core service snapshot identity could not be derived")
  end.

Definition CoreUpdateServiceSnapshotRecord_new (update_id : string) (current : CoreInstallation)
    (context : CoreUpdateServiceContext) (services : list CoreUpdateServiceState)
  : result CoreUpdateError CoreUpdateServiceSnapshotRecord :=
  let? receipt_id := snapshot_identity update_id current context services in
  Ok {| sn_update_id := update_id; sn_receipt_id := receipt_id; sn_current := current;
        sn_context := context; sn_services := services |}.

Definition validate_snapshot_receipt (record : CoreUpdateServiceSnapshotRecord)
  : result CoreUpdateError () :=
  let? expected := snapshot_identity (sn_update_id record) (sn_current record) (sn_context record)
                     (sn_services record) in
  if negb (bool_decide (expected = sn_receipt_id record))
  then Err (UpInvalidContract "Core service snapshot content does not match its receipt")
  else Ok ().
End receipt.
