(* ===== verification/UpdateVersion.v ===== *)
(** * Core versions are semantic versions

    [CoreVersion::parse] accepts a text exactly when it prints a semantic version:
    three numbers, then optional pre-release and build identifiers. *)

From Stdlib Require Import String Ascii.
From S2P Require Import Prelude Values Text Database UpdateContract.

(** ** Decimal texts without leading zeros *)

(** Digits that do not start with a zero. *)
Definition strict_digits (l : list Z) : Prop :=
  Forall (λ b, 48 ≤ b ≤ 57) l ∧ match l with b :: _ => b ≠ 48 | [] => True end.

Lemma decimal_value_snoc l b : decimal_value (l ++ [b]) = 10 * decimal_value l + (b - 48).
Proof. unfold decimal_value. by rewrite foldl_snoc. Qed.

Lemma strict_digits_snoc l b : strict_digits (l ++ [b]) → strict_digits l ∧ 48 ≤ b ≤ 57.
Proof.
  intros [[Hl Hb]%Forall_app Hh]. apply Forall_cons in Hb as [Hb _]. split; [split; [done|]|exact Hb]. destruct l; [done|exact Hh].
Qed.

Lemma decimal_value_pos b l : strict_digits (b :: l) → 0 < decimal_value (b :: l).
Proof.
  intros [Hd Hb]. apply Forall_cons in Hd as [Hb' Hl]. revert Hl. induction l as [|c l IH] using rev_ind.
  - intros _. unfold decimal_value. simpl. lia.
  - intros [Hl Hc]%Forall_app. apply Forall_cons in Hc as [Hc _]. specialize (IH Hl).
    change (b :: l ++ [c]) with ((b :: l) ++ [c]). rewrite decimal_value_snoc. lia.
Qed.

Lemma strict_digits_zero l : strict_digits l → decimal_value l = 0 → l = [].
Proof. destruct l as [|b l]; [done|]. intros H%decimal_value_pos. lia. Qed.

Lemma strict_digits_inj l l' :
  strict_digits l → strict_digits l' → decimal_value l = decimal_value l' → l = l'.
Proof.
  revert l'. induction l as [|b l IH] using rev_ind; intros l' Hl Hl' Hv.
  - symmetry. by apply strict_digits_zero.
  - destruct l' as [|c l' _] using rev_ind; [by apply strict_digits_zero|].
    rewrite !decimal_value_snoc in Hv. apply strict_digits_snoc in Hl as [Hl Hb], Hl' as [Hl' Hc].
    rewrite (IH l') by (done || lia). do 2 f_equal. lia.
Qed.

Lemma decimal_digits_strict fuel n acc :
  0 < n → n < 10 ^ Z.of_nat fuel →
  match bytes (decimal_digits fuel n acc) with b :: _ => b ≠ 48 | [] => False end.
Proof.
  revert n acc. induction fuel as [|fuel IH]; intros n acc Hn Hf; [simpl in Hf; lia|].
  cbn [decimal_digits]. destruct (Z.ltb_spec n 10).
  - rewrite bytes_cons, Z.mod_small by lia.
    assert (n = 1 ∨ n = 2 ∨ n = 3 ∨ n = 4 ∨ n = 5 ∨ n = 6 ∨ n = 7 ∨ n = 8 ∨ n = 9) by lia.
    by destruct_or!; subst.
  - rewrite Nat2Z.inj_succ, Z.pow_succ_r in Hf by lia.
    apply IH; [apply Z.div_str_pos; lia|apply Z.div_lt_upper_bound; lia].
Qed.

Lemma to_decimal_strict n : 0 < n → strict_digits (bytes (to_decimal n)).
Proof.
  intros Hn. destruct (to_decimal_bytes n) as (_ & Hd & _); [lia|]. split; [done|].
  pose proof (decimal_digits_strict (S (Z.to_nat (Z.log2 n))) n EmptyString Hn) as Hh.
  unfold to_decimal. destruct (bytes (decimal_digits _ _ _)); [done|]. apply Hh.
  pose proof (Z.log2_spec n Hn) as [_ Hlt]. pose proof (Z.log2_nonneg n).
  rewrite Nat2Z.inj_succ, Z2Nat.id by lia. etrans; [done|]. apply Z.pow_lt_mono_l; lia.
Qed.

Lemma bytes_inj s t : bytes s = bytes t → s = t.
Proof.
  revert t. induction s as [|a s IH]; intros [|b t]; rewrite ?bytes_cons; try done.
  intros [= Hab Hst]. f_equal; [by apply byte_val_inj|by apply IH].
Qed.

Lemma starts_with_zero s : starts_with "0" s = true ↔ ∃ l, bytes s = 48 :: l.
Proof.
  unfold starts_with. destruct s as [|a s]; cbn [strip_prefix]; [split; [done|by intros [l [=]]]|].
  rewrite bytes_cons. destruct (Ascii.eqb_spec "0" a) as [<-|Hne]; cbn [strip_prefix].
  - split; [by eexists|done].
  - split; [done|]. intros [l [= H _]]. exfalso. apply Hne. by apply byte_val_inj.
Qed.

(** A canonical number is the decimal text of one. *)
Lemma is_canonical_number_iff s : is_canonical_number s = true ↔ ∃ n, 0 ≤ n ∧ s = to_decimal n.
Proof.
  unfold is_canonical_number. rewrite !andb_true_iff, negb_true_iff, bool_decide_eq_false, orb_true_iff,
    bool_decide_eq_true, negb_true_iff. split.
  - intros [[Hne Hd] Hz]. exists (decimal_value (bytes s)). split; [by apply decimal_value_nonneg|].
    destruct Hz as [->|Hz]; [done|]. destruct (bytes s) as [|b l] eqn:Hs; [by apply (bytes_inj s "") in Hs|].
    assert (strict_digits (b :: l)) as Hst.
    { split; [|intros ->; assert (starts_with "0" s = true) by (apply starts_with_zero; eauto); congruence].
      apply Forall_forall. intros c Hc%list_elem_of_In. rewrite forallb_forall in Hd. apply Hd in Hc.
      unfold is_ascii_digit, in_range in Hc. lia. }
    pose proof (decimal_value_pos _ _ Hst) as Hpos. apply bytes_inj. rewrite Hs.
    apply strict_digits_inj; [done|by apply to_decimal_strict|].
    by destruct (to_decimal_bytes (decimal_value (b :: l))) as (_ & _ & ->); [lia|].
  - intros (n & Hn & ->). split_and!; [by apply to_decimal_ne|by apply to_decimal_digits|].
    destruct (decide (n = 0)) as [->|Hnz]; [by left|right]. apply not_true_iff_false.
    intros [l Hl]%starts_with_zero. destruct (to_decimal_strict n) as [_ Hh]; [lia|]. by rewrite Hl in Hh.
Qed.

(** ** Semantic versions *)

Record SemanticVersion := {
  sv_major : Z;
  sv_minor : Z;
  sv_patch : Z;
  sv_prerelease : list string;
  sv_build : list string;
}.

Definition identifier (s : string) : Prop := s ≠ EmptyString ∧ forallb is_identifier_byte (bytes s) = true.

(** A numeric pre-release identifier has no leading zeros. *)
Definition prerelease_identifier (s : string) : Prop :=
  identifier s ∧ (forallb is_ascii_digit (bytes s) = true → ∃ n, 0 ≤ n ∧ s = to_decimal n).

Definition semantic_version (v : SemanticVersion) : Prop :=
  0 ≤ sv_major v ∧ 0 ≤ sv_minor v ∧ 0 ≤ sv_patch v ∧
  Forall prerelease_identifier (sv_prerelease v) ∧ Forall identifier (sv_build v).

Definition section_text (c : ascii) (identifiers : list string) : string :=
  match identifiers with [] => EmptyString | _ => String c (join "." identifiers) end.

Definition core_text (v : SemanticVersion) : string :=
  join "." [to_decimal (sv_major v); to_decimal (sv_minor v); to_decimal (sv_patch v)].

Definition version_text (v : SemanticVersion) : string :=
  (core_text v +:+ section_text "-" (sv_prerelease v)) +:+ section_text "+" (sv_build v).

(** *** Identifiers *)

Lemma leading_zero_iff s :
  identifier s → forallb is_ascii_digit (bytes s) = true →
  (1 <? str_len s) && starts_with "0" s = negb (is_canonical_number s).
Proof.
  intros [Hne _] Hd. unfold is_canonical_number. rewrite Hd, (bool_decide_false (s = "")) by done. simpl.
  destruct s as [|a s]; [done|]. destruct (Ascii.eqb_spec "0" a) as [<-|Ha].
  - replace (starts_with "0" (String "0" s)) with true by done. rewrite andb_true_r.
    destruct s as [|b s]; [done|]. rewrite bool_decide_false by done.
    apply Z.ltb_lt. unfold str_len. cbn [String.length]. lia.
  - replace (starts_with "0" (String a s)) with false.
    2:{ unfold starts_with. cbn [strip_prefix]. by apply Ascii.eqb_neq in Ha as ->. }
    by rewrite andb_false_r, orb_true_r.
Qed.

Lemma validate_identifiers_iff value reject :
  validate_identifiers value reject = Ok () ↔
  Forall (λ s, identifier s ∧ (reject = true → prerelease_identifier s)) (split_char "." value).
Proof.
  unfold validate_identifiers. rewrite Forall_forall.
  destruct (existsb _ _) eqn:E; [split; [done|]|split; [intros _|done]].
  - apply existsb_exists in E as (s & Hin%list_elem_of_In & Hs). intros Hall. exfalso.
    destruct (Hall s Hin) as [[Hne Hb] Hr]. rewrite (bool_decide_false (s = "")), Hb in Hs by done.
    simpl in Hs. destruct reject; [|done]. apply andb_true_iff in Hs as [[Hl Hd]%andb_true_iff Hz].
    destruct (Hr eq_refl) as [Hi Hn]. pose proof (leading_zero_iff s Hi Hd) as Heq.
    simpl in Hl. rewrite Hl, Hz, (proj2 (is_canonical_number_iff s) (Hn Hd)) in Heq. done.
  - intros s Hin. pose proof (existsb_false _ _ _ E Hin) as Hs.
    apply orb_false_iff in Hs as [[Hne Hb]%orb_false_iff Hz]. apply bool_decide_eq_false in Hne.
    apply negb_false_iff in Hb. split; [done|]. intros ->. split; [done|]. intros Hd.
    apply is_canonical_number_iff. rewrite Hd, andb_true_r in Hz. simpl in Hz.
    rewrite leading_zero_iff in Hz by done. by apply negb_false_iff in Hz.
Qed.

(** *** Characters of a version *)

Definition is_version_byte (b : Z) : bool := is_identifier_byte b || (b =? 46) || (b =? 43).

Lemma forallb_join f ws :
  forallb f (bytes (join "." ws)) = true ↔
  Forall (λ w, forallb f (bytes w) = true) ws ∧ ((1 < length ws)%nat → f 46 = true).
Proof.
  induction ws as [|w [|w' ws] IH]; [split; [split; [done|simpl; lia]|done]| |].
  - cbn [join]. rewrite Forall_singleton. split; [split; [done|simpl; lia]|by intros []].
  - rewrite join_cons, bytes_app, bytes_cons, forallb_app, andb_true_iff by done. cbn [forallb].
    rewrite andb_true_iff, IH, (Forall_cons _ w). change (byte_val ".") with 46. simpl length.
    split; [intros (? & ? & ? & ?); split_and!; auto|intros [[? ?] ?]; split_and!; auto with lia].
Qed.

Lemma identifier_no_char c s :
  is_identifier_byte (byte_val c) = false → identifier s → has_char c s = false.
Proof. intros Hc [_ Hs]. by eapply has_char_forallb. Qed.

Lemma join_ne s ws : Forall (λ w, w ≠ EmptyString) (s :: ws) → join "." (s :: ws) ≠ EmptyString.
Proof. intros [Hs _]%Forall_cons. destruct s; [done|]. by rewrite join_cons_char. Qed.

(** A section parses back to its identifiers. *)
Lemma section_parse ids (reject : bool) :
  Forall (λ s, identifier s ∧ (reject = true → prerelease_identifier s)) ids →
  validate_section (match ids with [] => None | _ => Some (join "." ids) end) reject = Ok ().
Proof.
  intros Hall. destruct ids as [|s ids]; [done|]. apply validate_identifiers_iff.
  rewrite split_char_join; [done|done|]. eapply Forall_impl; [exact Hall|].
  intros w [Hw _]. by apply identifier_no_char.
Qed.

Lemma section_split c ids s :
  has_char c s = false →
  split_once c (s +:+ section_text c ids) =
    match ids with [] => None | _ => Some (s, join "." ids) end.
Proof.
  intros Hs. destruct ids as [|i ids]; simpl.
  - by rewrite string_app_nil; apply split_once_None.
  - by apply split_once_app.
Qed.

Lemma identifier_ne ids : Forall identifier ids → Forall (λ w, w ≠ EmptyString) ids.
Proof. intros H. eapply Forall_impl; [exact H|]. by intros w []. Qed.

Section printing.
Context (v : SemanticVersion) (Hv : semantic_version v).

Lemma numbers_canonical :
  Forall (λ c, is_canonical_number c = true)
    [to_decimal (sv_major v); to_decimal (sv_minor v); to_decimal (sv_patch v)].
Proof. destruct Hv as (? & ? & ? & _). repeat constructor; apply is_canonical_number_iff; eauto. Qed.

Lemma core_no_char c :
  is_ascii_digit (byte_val c) = false → c ≠ "."%char → has_char c (core_text v) = false.
Proof.
  intros Hc Hd. destruct Hv as (? & ? & ? & _). apply has_char_join; [done|].
  repeat constructor; by apply has_char_to_decimal.
Qed.

Lemma prerelease_identifiers : Forall identifier (sv_prerelease v).
Proof. destruct Hv as (_ & _ & _ & H & _). eapply Forall_impl; [exact H|]. by intros s []. Qed.

Lemma without_build_no_plus : has_char "+" (core_text v +:+ section_text "-" (sv_prerelease v)) = false.
Proof.
  rewrite has_char_app, core_no_char by done. pose proof prerelease_identifiers as H.
  destruct (sv_prerelease v) as [|s l]; [done|].
  apply (has_char_join "+" "." (s :: l)); [done|]. eapply Forall_impl; [exact H|]. intros w Hw. by apply identifier_no_char.
Qed.

Lemma split_build_text :
  split_build (version_text v) = Ok (core_text v +:+ section_text "-" (sv_prerelease v),
    match sv_build v with [] => None | _ => Some (join "." (sv_build v)) end).
Proof.
  unfold split_build, version_text. rewrite section_split by apply without_build_no_plus.
  destruct Hv as (_ & _ & _ & _ & Hb). destruct (sv_build v) as [|b l]; [by rewrite string_app_nil|].
  rewrite !bool_decide_false; [|by apply join_ne, identifier_ne|].
  - rewrite has_char_join; [done|done|]. eapply Forall_impl; [exact Hb|].
    intros w Hw. by apply identifier_no_char.
  - unfold core_text. rewrite join_cons by done. pose proof (to_decimal_ne (sv_major v)) as Hne.
    destruct (to_decimal (sv_major v)); [|done]. destruct Hv. naive_solver.
Qed.

Lemma split_prerelease_text :
  split_prerelease (core_text v +:+ section_text "-" (sv_prerelease v)) = Ok (core_text v,
    match sv_prerelease v with [] => None | _ => Some (join "." (sv_prerelease v)) end).
Proof.
  unfold split_prerelease. rewrite section_split by (by apply core_no_char).
  pose proof prerelease_identifiers as Hp. destruct (sv_prerelease v) as [|b l]; [by rewrite string_app_nil|].
  rewrite !bool_decide_false; [done|by apply join_ne, identifier_ne|].
  unfold core_text. rewrite join_cons by done. pose proof (to_decimal_ne (sv_major v)) as Hne.
  destruct (to_decimal (sv_major v)); [|done]. destruct Hv. naive_solver.
Qed.

Lemma core_components :
  split_char "." (core_text v) = [to_decimal (sv_major v); to_decimal (sv_minor v); to_decimal (sv_patch v)].
Proof.
  destruct Hv as (? & ? & ? & _). apply split_char_join; [done|].
  repeat constructor; by apply has_char_to_decimal.
Qed.

(** Every byte of a version is a letter, a digit or a separator, and the first is a digit. *)
Lemma version_bytes : forallb is_version_byte (bytes (version_text v)) = true.
Proof.
  destruct Hv as (? & ? & ? & _ & Hb). pose proof prerelease_identifiers as Hp.
  assert (∀ s, identifier s → forallb is_version_byte (bytes s) = true) as Hid.
  { intros s [_ Hs]. rewrite forallb_forall in *. intros b Hin. unfold is_version_byte. by rewrite Hs. }
  assert (∀ n, 0 ≤ n → forallb is_version_byte (bytes (to_decimal n)) = true) as Hn.
  { intros n Hn%to_decimal_digits. rewrite forallb_forall in *. intros b Hin.
    unfold is_version_byte, is_identifier_byte, is_ascii_alphanumeric. rewrite Hn by done.
    by rewrite ?orb_true_r. }
  assert (∀ c ids, is_version_byte (byte_val c) = true → Forall identifier ids →
    forallb is_version_byte (bytes (section_text c ids)) = true) as Hs.
  { intros c [|s ids] Hc Hids; [done|]. cbn [section_text]. rewrite bytes_cons. cbn [forallb]. rewrite Hc.
    apply forallb_join. split; [|done]. eapply Forall_impl; [exact Hids|apply Hid]. }
  unfold version_text. rewrite !bytes_app, !forallb_app, !andb_true_iff. split_and!; [|by apply Hs..].
  apply forallb_join. split; [|done]. repeat constructor; by apply Hn.
Qed.

Lemma version_first : ∃ b l, bytes (version_text v) = b :: l ∧ is_ascii_digit b = true.
Proof.
  destruct Hv as (Hm & _). pose proof (to_decimal_digits _ Hm) as Hd. pose proof (to_decimal_ne _ Hm) as Hne.
  unfold version_text, core_text. rewrite join_cons, !bytes_app by done.
  destruct (to_decimal (sv_major v)) as [|a s]; [done|]. rewrite bytes_cons in *. simpl in Hd.
  apply andb_true_iff in Hd as [Hd _]. by eexists _, _.
Qed.
End printing.

(** *** Reading a version *)

Definition section_identifiers (section : option string) : list string :=
  match section with Some s => split_char "." s | None => [] end.

Lemma section_identifiers_text c section :
  section_text c (section_identifiers section) =
    match section with Some s => String c s | None => EmptyString end.
Proof.
  destruct section as [s|]; [|done]. simpl. pose proof (split_char_ne "." s) as Hne.
  pose proof (join_split_char "." s) as Hs. destruct (split_char "." s); [done|].
  cbn [section_text]. by rewrite Hs.
Qed.

Lemma validate_section_Ok section reject :
  validate_section section reject = Ok () →
  Forall (λ s, identifier s ∧ (reject = true → prerelease_identifier s)) (section_identifiers section).
Proof. destruct section; [apply validate_identifiers_iff|by constructor]. Qed.

Lemma split_build_Ok value base build :
  split_build value = Ok (base, build) →
  value = base +:+ match build with Some s => String "+" s | None => EmptyString end.
Proof.
  unfold split_build. destruct (split_once _ _) as [[l r]|] eqn:E.
  - apply split_once_Some in E as [-> _]. destruct (_ || _); [done|]. by intros [= <- <-].
  - intros [= <- <-]. by rewrite string_app_nil.
Qed.

Lemma split_prerelease_Ok value base prerelease :
  split_prerelease value = Ok (base, prerelease) →
  value = base +:+ match prerelease with Some s => String "-" s | None => EmptyString end.
Proof.
  unfold split_prerelease. destruct (split_once _ _) as [[l r]|] eqn:E.
  - apply split_once_Some in E as [-> _]. destruct (_ || _); [done|]. by intros [= <- <-].
  - intros [= <- <-]. by rewrite string_app_nil.
Qed.

Lemma components_text l :
  negb (length l =? 3)%nat || existsb (λ c, negb (is_canonical_number c)) l = false →
  ∃ a b c, 0 ≤ a ∧ 0 ≤ b ∧ 0 ≤ c ∧ l = [to_decimal a; to_decimal b; to_decimal c].
Proof.
  intros [Hl%negb_false_iff%Nat.eqb_eq He]%orb_false_iff.
  assert (∀ s, s ∈ l → ∃ n, 0 ≤ n ∧ s = to_decimal n) as Hc.
  { intros s Hs. apply is_canonical_number_iff. apply negb_false_iff. by apply (existsb_false _ _ _ He). }
  destruct l as [|x [|y [|z [|? ?]]]]; try done.
  destruct (Hc x) as (a & ? & ->); [set_solver|]. destruct (Hc y) as (b & ? & ->); [set_solver|].
  destruct (Hc z) as (c & ? & ->); [set_solver|]. by exists a, b, c.
Qed.

Lemma validate_semantic_version_sound value :
  validate_semantic_version value = Ok () →
  str_len value ≤ MAX_CORE_VERSION_BYTES ∧ ∃ v, semantic_version v ∧ value = version_text v.
Proof.
  unfold validate_semantic_version. destruct (_ || _) eqn:E; [done|].
  apply orb_false_iff in E as [[[_ Hl%Z.ltb_ge]%orb_false_iff _]%orb_false_iff _].
  intros ([base0 build] & H1 & (u & H2 & ([base pre] & H3 & (u' & H4 & H5)%result_bind_Ok)%result_bind_Ok)
    %result_bind_Ok)%result_bind_Ok. destruct u, u'.
  destruct (_ || _) eqn:E in H5; [done|]. apply components_text in E as (a & b & c & Ha & Hb & Hc & Hs).
  split; [done|].
  exists {| sv_major := a; sv_minor := b; sv_patch := c;
            sv_prerelease := section_identifiers pre; sv_build := section_identifiers build |}.
  apply validate_section_Ok in H2, H4. split.
  - split_and!; [done..| |]; simpl; (eapply Forall_impl; [done|]); simpl; naive_solver.
  - unfold version_text, core_text. simpl sv_major; simpl sv_minor; simpl sv_patch; simpl sv_prerelease;
      simpl sv_build. rewrite <- Hs, join_split_char, !section_identifiers_text.
    apply split_build_Ok in H1 as ->. by apply split_prerelease_Ok in H3 as ->.
Qed.

Lemma validate_semantic_version_complete v :
  semantic_version v → str_len (version_text v) ≤ MAX_CORE_VERSION_BYTES →
  validate_semantic_version (version_text v) = Ok ().
Proof.
  intros Hv Hl. unfold validate_semantic_version.
  destruct (version_first v Hv) as (b & l & Hb & Hd). pose proof (version_bytes v Hv) as Hall.
  assert (bool_decide (version_text v = EmptyString) = false) as ->.
  { apply bool_decide_eq_false. intros E. by rewrite E in Hb. }
  assert ((MAX_CORE_VERSION_BYTES <? str_len (version_text v)) = false) as -> by lia.
  assert (starts_with "v" (version_text v) = false) as ->.
  { destruct (version_text v) as [|a s]; [done|]. rewrite bytes_cons in Hb. unfold starts_with. cbn [strip_prefix].
    destruct (Ascii.eqb_spec "v" a) as [<-|]; [|done]. by simplify_eq. }
  assert (existsb is_ascii_whitespace (bytes (version_text v)) = false) as ->.
  { apply not_true_iff_false. intros (c & Hc & Hw)%existsb_exists. rewrite forallb_forall in Hall.
    apply Hall in Hc. unfold is_ascii_whitespace in Hw.
    assert (c = 32 ∨ c = 9 ∨ c = 10 ∨ c = 12 ∨ c = 13) by lia. by destruct_or!; subst. }
  simpl. rewrite split_build_text by done. cbn [result_bind]. pose proof Hv as (_ & _ & _ & Hp & Hbu).
  rewrite (section_parse (sv_build v) false) by (eapply Forall_impl; [exact Hbu|]; naive_solver). cbn [result_bind].
  rewrite split_prerelease_text by done. cbn [result_bind].
  rewrite (section_parse (sv_prerelease v) true).
  2:{ eapply Forall_impl; [exact Hp|]. intros s Hs. split; [apply Hs|done]. }
  cbn [result_bind]. rewrite core_components by done. pose proof (numbers_canonical v Hv) as Hn.
  cbn [length Nat.eqb negb orb existsb]. rewrite !Forall_cons in Hn. by destruct Hn as (-> & -> & -> & _).
Qed.

(** C27: a text is accepted as a Core version exactly when it has at most 128 bytes and
    prints a semantic version: three numbers, then pre-release identifiers without
    numeric leading zeros, then build identifiers. *)
Theorem core_version_is_semantic value w :
  CoreVersion_parse value = Ok w ↔
  w = value ∧ str_len value ≤ MAX_CORE_VERSION_BYTES ∧ ∃ v, semantic_version v ∧ value = version_text v.
Proof.
  unfold CoreVersion_parse. rewrite result_bind_Ok. split.
  - intros ([] & Hs%validate_semantic_version_sound & [= <-]). done.
  - intros (-> & Hl & v & Hv & ->). exists (). split; [|done]. by apply validate_semantic_version_complete.
Qed.
