(* ===== verification/UpdateServices.v ===== *)
(** * Service handoff of a Core update

    [CoreUpdateServiceLifecycle] of [core/update/src/li_core_update_lifecycle.rs] with
    its readiness policy and clock, and [PlatformCoreUpdateServiceProvider] of
    [li_core_update_service_provider.rs], which composes the snapshot store with the
    native service control.  Store, control and clock are classes over the world. *)

From Stdlib Require Import String.
From S2P Require Import Prelude Values Text Database UpdateContract.

(** ** Capabilities *)

Class CoreUpdateServiceSnapshotStore (W : Type) := {
  snapshots_read : string → SE W CoreUpdateError (option CoreUpdateServiceSnapshotRecord);
  snapshots_store : CoreUpdateServiceSnapshotRecord → SE W CoreUpdateError CoreUpdateServiceSnapshotRecord;
}.

Class CoreUpdateServiceControl (W : Type) := {
  control_context : SE W CoreUpdateError CoreUpdateServiceContext;
  control_observe_service : CoreUpdateResidentService → SE W CoreUpdateError CoreUpdateServiceState;
  control_rebind_service : CoreUpdateResidentService → CoreUpdateServiceMode → CoreInstallation → bool →
    SE W CoreUpdateError ();
  control_service_is_ready_with_timeout : CoreUpdateResidentService → CoreUpdateServiceMode →
    option CoreInstallation → bool → Z → SE W CoreUpdateError bool;
  control_restore_service : CoreUpdateServiceState → CoreInstallation → SE W CoreUpdateError ();
}.

(** The trait's default [service_is_ready_with_timeout], over [service_is_ready]. *)
Definition default_service_is_ready_with_timeout {W}
    (service_is_ready : CoreUpdateResidentService → CoreUpdateServiceMode → option CoreInstallation →
       bool → SE W CoreUpdateError bool)
    (service : CoreUpdateResidentService) (mode : CoreUpdateServiceMode)
    (installation : option CoreInstallation) (active : bool) (timeout : Z) : SE W CoreUpdateError bool :=
  if timeout =? 0
  then se_fail (UpProvider "service readiness" "resident service readiness deadline expired")
  else service_is_ready service mode installation active.

Class CoreUpdateServiceProvider (W : Type) := {
  provider_context : SE W CoreUpdateError CoreUpdateServiceContext;
  snapshot_record : string → SE W CoreUpdateError (option CoreUpdateServiceSnapshotRecord);
  store_snapshot_record : CoreUpdateServiceSnapshotRecord →
    SE W CoreUpdateError CoreUpdateServiceSnapshotRecord;
  observe_service : CoreUpdateResidentService → SE W CoreUpdateError CoreUpdateServiceState;
  rebind_service : CoreUpdateResidentService → CoreUpdateServiceMode → CoreInstallation → bool →
    SE W CoreUpdateError ();
  service_is_ready_with_timeout : CoreUpdateResidentService → CoreUpdateServiceMode →
    option CoreInstallation → bool → Z → SE W CoreUpdateError bool;
  restore_service : CoreUpdateServiceState → CoreInstallation → SE W CoreUpdateError ();
}.

Section platform.
Context {W : Type} `{!CoreUpdateServiceSnapshotStore W, !CoreUpdateServiceControl W, !Sha256}.

Definition platform_snapshot_record (update_id : string)
  : SE W CoreUpdateError (option CoreUpdateServiceSnapshotRecord) :=
  do! record <- snapshots_read update_id in
  run! match record with
       | Some record => se_lift (validate_snapshot_receipt record)
       | None => se_ret ()
       end in
  se_ret record.

Definition platform_store_snapshot_record (snapshot : CoreUpdateServiceSnapshotRecord)
  : SE W CoreUpdateError CoreUpdateServiceSnapshotRecord :=
  run! se_lift (validate_snapshot_receipt snapshot) in
  do! stored <- snapshots_store snapshot in
  run! se_lift (validate_snapshot_receipt stored) in
  se_ret stored.

Definition PlatformCoreUpdateServiceProvider : CoreUpdateServiceProvider W := {|
  provider_context := control_context;
  snapshot_record := platform_snapshot_record;
  store_snapshot_record := platform_store_snapshot_record;
  observe_service := control_observe_service;
  rebind_service := control_rebind_service;
  service_is_ready_with_timeout := control_service_is_ready_with_timeout;
  restore_service := control_restore_service;
|}.
End platform.

(** ** Clock and readiness policy *)

Class CoreUpdateReadinessClock (W : Type) := {
  monotonic_milliseconds : SE W CoreUpdateError Z;
  readiness_wait : Z → SE W CoreUpdateError ();
}.

Definition MAXIMUM_READINESS_TIMEOUT_MILLISECONDS : Z := 300000.
Definition MAXIMUM_STABLE_READINESS_OBSERVATIONS : Z := 100.

(** [Instant::elapsed] in milliseconds and [thread::sleep]. *)
Class ProcessTime (W : Type) := { elapsed_millis : W → Z * W; sleep_millis : Z → W → W }.

Definition SystemCoreUpdateReadinessClock {W} `{!ProcessTime W} : CoreUpdateReadinessClock W := {|
  monotonic_milliseconds := λ w,
    let '(elapsed, w) := elapsed_millis w in
    (if elapsed <=? u64_max then Ok elapsed
     else Err (UpProvider "readiness clock" "monotonic time exceeded its range"), w);
  readiness_wait := λ milliseconds w,
    if (milliseconds =? 0) || (MAXIMUM_READINESS_TIMEOUT_MILLISECONDS <? milliseconds)
    then (Err (UpProvider "readiness clock" "wait interval is outside the readiness bound"), w)
    else (Ok (), sleep_millis milliseconds w);
|}.

Record CoreUpdateReadinessPolicy := {
  rp_timeout_milliseconds : Z;
  rp_poll_milliseconds : Z;
  rp_stable_observations : Z;
}.

Definition CoreUpdateReadinessPolicy_new (timeout_milliseconds poll_milliseconds stable_observations : Z)
  : result CoreUpdateError CoreUpdateReadinessPolicy :=
  if (timeout_milliseconds =? 0)
     || (MAXIMUM_READINESS_TIMEOUT_MILLISECONDS <? timeout_milliseconds)
     || (poll_milliseconds =? 0) || (timeout_milliseconds <? poll_milliseconds)
     || (stable_observations =? 0)
     || (MAXIMUM_STABLE_READINESS_OBSERVATIONS <? stable_observations)
  then Err (UpInvalidContract "Core service readiness bounds are invalid")
  else Ok {| rp_timeout_milliseconds := timeout_milliseconds;
             rp_poll_milliseconds := poll_milliseconds;
             rp_stable_observations := stable_observations |}.

(** ** The service set *)

Definition expected_services (context : CoreUpdateServiceContext) : list CoreUpdateResidentService :=
  SvcNode :: (if decide (sc_platform context = PlLinux) then [SvcWatchdog] else []) ++ [SvcGateway].

Definition service_mode (context : CoreUpdateServiceContext) (service : CoreUpdateResidentService)
  : result CoreUpdateError CoreUpdateServiceMode :=
  match service with
  | SvcNode => Ok ModeNode
  | SvcGateway => match sc_role context with
                  | RoleMain => Ok ModePublicGateway
                  | RoleChild => Ok ModePrivateGateway
                  end
  | SvcWatchdog =>
    if decide (sc_platform context = PlLinux) then Ok ModeWatchdog
    else Err (UpInvalidContract "macOS Core service state cannot contain a separate Watchdog")
  end.

Definition require_active_service_state (state : CoreUpdateServiceState) : result CoreUpdateError () :=
  if negb (was_loaded state) || negb (was_active state)
  then Err (UpInvalidContract "Core update requires every resident service to be loaded and active")
  else Ok ().

Fixpoint require_active_services (states : list CoreUpdateServiceState) : result CoreUpdateError () :=
  match states with
  | [] => Ok ()
  | state :: states => let? _ := require_active_service_state state in require_active_services states
  end.

Definition validate_service_snapshot (record : CoreUpdateServiceSnapshotRecord)
  : result CoreUpdateError () :=
  let expected := expected_services (sn_context record) in
  if negb (length (sn_services record) =? length expected)%nat
     || existsb (λ '(state, service), negb (bool_decide (st_service state = service)))
          (zip (sn_services record) expected)
  then Err (UpInvalidContract "Core service snapshot is not the exact role-appropriate service set")
  else require_active_services (sn_services record).

Definition service_readiness_deadline_error : CoreUpdateError :=
  UpProvider "service readiness" "role-appropriate services did not become stably ready".

(** ** The service lifecycle *)

Section services.
Context {W : Type} `{!CoreUpdateServiceProvider W, !CoreUpdateReadinessClock W, !Sha256}.
Abbreviation UM := (SE W CoreUpdateError).

Fixpoint observe_services (services : list CoreUpdateResidentService) : UM (list CoreUpdateServiceState) :=
  match services with
  | [] => se_ret []
  | service :: services =>
    do! state <- observe_service service in
    if negb (bool_decide (st_service state = service))
    then se_fail (UpInvalidContract "native service observation returned the wrong identity")
    else
      run! se_lift (require_active_service_state state) in
      do! states <- observe_services services in
      se_ret (state :: states)
  end.

Definition services_snapshot (update_id : string) (current : CoreInstallation) : UM CoreServiceSnapshot :=
  do! context <- provider_context in
  do! existing <- snapshot_record update_id in
  match existing with
  | Some existing =>
    run! se_lift (validate_service_snapshot existing) in
    if negb (bool_decide (sn_update_id existing = update_id))
       || negb (bool_decide (sn_current existing = current))
       || negb (bool_decide (sn_context existing = context))
    then se_fail (UpInvalidContract "Core service snapshot conflicts with its replay identity")
    else se_ret {| ss_receipt_id := sn_receipt_id existing |}
  | None =>
    do! services <- observe_services (expected_services context) in
    do! proposed <- se_lift (CoreUpdateServiceSnapshotRecord_new update_id current context services) in
    do! stored <- store_snapshot_record proposed in
    run! se_lift (validate_service_snapshot stored) in
    if negb (bool_decide (stored = proposed))
    then se_fail (UpInvalidContract "Core service snapshot store returned conflicting state")
    else se_ret {| ss_receipt_id := sn_receipt_id stored |}
  end.

Definition services_required_snapshot (update_id : string) (snapshot : CoreServiceSnapshot)
  : UM CoreUpdateServiceSnapshotRecord :=
  do! found <- snapshot_record update_id in
  do! record <- se_lift (ok_or (UpInvalidContract "Core service snapshot state is unavailable") found) in
  run! se_lift (validate_service_snapshot record) in
  if negb (bool_decide (sn_update_id record = update_id))
     || negb (bool_decide (sn_receipt_id record = ss_receipt_id snapshot))
  then se_fail (UpInvalidContract "Core service snapshot receipt does not match durable state")
  else
    do! context <- provider_context in
    if negb (bool_decide (context = sn_context record))
    then se_fail (UpInvalidContract "Core service platform or node role changed during update")
    else se_ret record.

Fixpoint rebind_all (context : CoreUpdateServiceContext) (installation : CoreInstallation)
    (states : list CoreUpdateServiceState) : UM () :=
  match states with
  | [] => se_ret ()
  | state :: states =>
    do! mode <- se_lift (service_mode context (st_service state)) in
    run! rebind_service (st_service state) mode installation (was_active state) in
    rebind_all context installation states
  end.

Definition services_rebind (update_id : string) (installation : CoreInstallation)
    (snapshot : CoreServiceSnapshot) : UM () :=
  do! record <- services_required_snapshot update_id snapshot in
  if bool_decide (installation = sn_current record)
  then se_fail (UpInvalidContract "Core service rebind candidate matches the previous installation")
  else rebind_all (sn_context record) installation (sn_services record).

(** The loop of [readiness_observation] over the services. *)
Fixpoint observe_readiness (context : CoreUpdateServiceContext) (installation : CoreInstallation)
    (deadline : Z) (states : list CoreUpdateServiceState) (last_observed : Z) : UM (bool * Z) :=
  match states with
  | [] => se_ret (true, last_observed)
  | state :: states =>
    if deadline <=? last_observed then se_fail service_readiness_deadline_error
    else
      do! mode <- se_lift (service_mode context (st_service state)) in
      do! ready <- service_is_ready_with_timeout (st_service state) mode (Some installation)
                     (was_active state) (saturating_sub deadline last_observed) in
      do! observed <- monotonic_milliseconds in
      if observed <? last_observed
      then se_fail (UpProvider "readiness clock" "monotonic time regressed during service observation")
      else if deadline <=? observed then se_fail service_readiness_deadline_error
      else if negb ready then se_ret (false, observed)
      else observe_readiness context installation deadline states observed
  end.

Definition readiness_observation (installation : CoreInstallation)
    (record : CoreUpdateServiceSnapshotRecord) (minimum_observed deadline : Z) : UM (bool * Z) :=
  do! last_observed <- monotonic_milliseconds in
  if last_observed <? minimum_observed
  then se_fail (UpProvider "readiness clock" "monotonic time regressed before service observation")
  else observe_readiness (sn_context record) installation deadline (sn_services record) last_observed.

(** One round of the loop of [verify]: the next consecutive count and time, or stable. *)
Definition verify_round (readiness : CoreUpdateReadinessPolicy) (installation : CoreInstallation)
    (record : CoreUpdateServiceSnapshotRecord) (deadline : Z) (progress : Z * Z) : UM (Z * Z + ()) :=
  do! observation <- readiness_observation installation record progress.2 deadline in
  let last_observed := observation.2 in
  let consecutive := if observation.1 then (progress.1 + 1) mod 2 ^ 32 else 0 in
  if observation.1 && (rp_stable_observations readiness <=? consecutive) then se_ret (inr ())
  else
    do! observed <- monotonic_milliseconds in
    if observed <? last_observed
    then se_fail (UpProvider "readiness clock" "monotonic time regressed after service observation")
    else if deadline <=? observed then se_fail service_readiness_deadline_error
    else
      run! readiness_wait (Z.min (rp_poll_milliseconds readiness) (saturating_sub deadline observed)) in
      do! advanced <- monotonic_milliseconds in
      if advanced <=? observed
      then se_fail (UpProvider "readiness clock" "monotonic time did not advance after a bounded wait")
      else se_ret (inl (consecutive, advanced)).

(** Every round that goes on advances the clock below the deadline, so one round per
    millisecond of the timeout, and one more, are enough. *)
Definition verify_fuel (readiness : CoreUpdateReadinessPolicy) : nat :=
  S (Z.to_nat (rp_timeout_milliseconds readiness)).

Definition services_verify (readiness : CoreUpdateReadinessPolicy) (update_id : string)
    (installation : CoreInstallation) (snapshot : CoreServiceSnapshot) : UM () :=
  do! record <- services_required_snapshot update_id snapshot in
  do! started <- monotonic_milliseconds in
  do! deadline <- se_lift (ok_or (UpInvalidContract "Core service readiness deadline overflowed")
                     (checked_add_u64 started (rp_timeout_milliseconds readiness))) in
  do! outcome <- iterate (verify_fuel readiness)
                   (verify_round readiness installation record deadline) (0, started) in
  match outcome with
  | inr () => se_ret ()
  | inl _ => se_fail service_readiness_deadline_error
  end.

(** The loop of [restore]: every service is attempted. *)
Fixpoint restore_all (previous : CoreInstallation) (states : list CoreUpdateServiceState)
    (failed : bool) : UM bool :=
  match states with
  | [] => se_ret failed
  | state :: states => λ w,
    let '(r, w) := restore_service state previous w in
    restore_all previous states (failed || negb (is_ok r)) w
  end.

Definition services_restore (update_id : string) (previous : CoreInstallation)
    (snapshot : CoreServiceSnapshot) : UM () :=
  do! record <- services_required_snapshot update_id snapshot in
  if negb (bool_decide (sn_current record = previous))
  then se_fail (UpInvalidContract "Core service restoration installation does not match its snapshot")
  else
    do! failed <- restore_all previous (sn_services record) false in
    if failed
    then se_fail (UpProvider "service restoration"
                    "one or more exact prior service states could not be restored")
    else se_ret ().
End services.

(** ** What a service receipt covers

    The message that [snapshot_identity] hashes determines the update, the installation,
    the platform and role, and every service state that a restoration needs. *)

Lemma platform_identity_inj a b : platform_identity a = platform_identity b → a = b.
Proof. by destruct a, b. Qed.
Lemma role_identity_inj a b : role_identity a = role_identity b → a = b.
Proof. by destruct a, b. Qed.
Lemma service_identity_inj a b : service_identity a = service_identity b → a = b.
Proof. by destruct a, b. Qed.

Lemma optional_digest_fields_inj o o' l l' :
  optional_digest_fields o ++ l = optional_digest_fields o' ++ l' → o = o' ∧ l = l'.
Proof. destruct o, o'; simpl; intros; simplify_eq; done. Qed.

(** The states are read back one by one. *)
Lemma service_fields_inj s s' l l' : service_fields s ++ l = service_fields s' ++ l' → s = s' ∧ l = l'.
Proof.
  unfold service_fields. rewrite <- !app_comm_cons, <- !app_assoc. intros [= Hs Hl].
  apply service_identity_inj in Hs. apply optional_digest_fields_inj in Hl as [H1 Hl].
  apply optional_digest_fields_inj in Hl as [H2 ->]. destruct s, s'; simpl in *; by subst.
Qed.
Lemma services_fields_inj (l l' : list CoreUpdateServiceState) :
  l ≫= service_fields = l' ≫= service_fields → l = l'.
Proof.
  revert l'. induction l as [|s l IH]; intros [|s' l']; [done|..]; rewrite ?bind_nil, ?bind_cons; try done.
  intros [-> ->%IH]%service_fields_inj. done.
Qed.

(** Texts short enough for their length prefix. *)
Definition optional_addressable (o : option string) : Prop := ∀ d, o = Some d → addressable d.
Record snapshot_addressable (sn : CoreUpdateServiceSnapshotRecord) : Prop := {
  sa_id : addressable (sn_update_id sn);
  sa_version : addressable (ci_version (sn_current sn));
  sa_identity : addressable (ci_source_identity (sn_current sn));
  sa_services : Forall (λ s, optional_addressable (st_loaded_identity s) ∧
                             optional_addressable (st_active_identity s)) (sn_services sn);
}.

Definition snapshot_message (sn : CoreUpdateServiceSnapshotRecord) : string :=
  digest_fields (snapshot_fields (sn_update_id sn) (sn_current sn) (sn_context sn) (sn_services sn)).

Lemma snapshot_fields_addressable sn :
  snapshot_addressable sn →
  Forall addressable (snapshot_fields (sn_update_id sn) (sn_current sn) (sn_context sn) (sn_services sn)).
Proof.
  intros [Hid Hv Hi Hs]. unfold snapshot_fields. apply Forall_app. split.
  - repeat constructor; try done; [by destruct (sc_platform _)|by destruct (sc_role _)].
  - apply Forall_bind. eapply Forall_impl; [exact Hs|]. intros s [Hl Ha]. unfold service_fields.
    assert (∀ o, optional_addressable o → Forall addressable (optional_digest_fields o)) as Ho
      by (intros [d|] Hd; repeat constructor; by apply Hd).
    constructor; [by destruct (st_service s)|]. apply Forall_app. auto.
Qed.

(** two service snapshots whose receipts are taken of the same message are of the
    same update, installation, platform, role and service states. *)
Theorem snapshot_receipt_covers_state a b :
  snapshot_addressable a → snapshot_addressable b → snapshot_message a = snapshot_message b →
  sn_update_id a = sn_update_id b ∧ sn_current a = sn_current b ∧ sn_context a = sn_context b ∧
  sn_services a = sn_services b.
Proof.
  intros Ha%snapshot_fields_addressable Hb%snapshot_fields_addressable Hm.
  apply digest_fields_inj in Hm; [|done..]. unfold snapshot_fields in Hm. simpl in Hm.
  injection Hm as Hid Hv Hi Hp Hr Hs. apply platform_identity_inj in Hp. apply role_identity_inj in Hr.
  apply services_fields_inj in Hs. destruct (sn_current a), (sn_current b), (sn_context a), (sn_context b).
  simpl in *. by subst.
Qed.

Lemma snapshot_receipt_covers_state_witness :
  let state := {| st_service := SvcNode; st_loaded_identity := Some "none"%string; st_active_identity := None |} in
  let sn := {| sn_update_id := "u"; sn_receipt_id := "r"; sn_current := {| ci_version := "1.0.0"; ci_source_identity := "s" |};
               sn_context := {| sc_platform := PlMacos; sc_role := RoleMain |}; sn_services := [state] |} in
  sn_services sn = [state].
Proof.
  intros state sn. assert (snapshot_addressable sn) as Ha.
  { constructor; [done..|]. repeat constructor; intros d Hd; simplify_eq/=; done. }
  destruct (snapshot_receipt_covers_state sn sn Ha Ha eq_refl) as (_ & _ & _ & Hs). exact Hs.
Defined.
