(* ===== verification/UpdateLifecycle.v ===== *)
(** * The Core update lifecycle

    [CoreUpdateLifecycle] of [core/update/src/li_core_update_lifecycle.rs] and the
    entry points of [CoreUpdateManager]: the journal is opened or created, each phase
    acts through a provider and is journalled before the next one starts, a failure
    is compensated from a durable intent. *)

From Stdlib Require Import String.
From S2P Require Import Prelude Values Database UpdateContract UpdateServices.

(** ** Capabilities *)

Class CoreUpdateStore (W : Type) := {
  update_read : string → SE W CoreUpdateStoreError (option VersionedCoreUpdateRecord);
  update_create : CoreUpdateRecord → SE W CoreUpdateStoreError VersionedCoreUpdateRecord;
  update_replace : CoreUpdateRecord → Z → SE W CoreUpdateStoreError VersionedCoreUpdateRecord;
}.

(** A lease is held until it is dropped. *)
Class CoreUpdateAdmissionProvider (W L : Type) := {
  admission_acquire : string → SE W CoreUpdateError L;
  admission_drop : L → W → W;
}.

Class CoreUpdateArtifactProvider (W : Type) := {
  artifacts_current : string → SE W CoreUpdateError CoreInstallation;
  artifacts_prepare : string → option string → CoreInstallation → SE W CoreUpdateError PreparedCoreUpdate;
  artifacts_discard : string → PreparedCoreUpdate → SE W CoreUpdateError ();
  artifacts_activate : string → PreparedCoreUpdate → CoreInstallation →
    SE W CoreUpdateError ActivatedCoreUpdate;
  artifacts_rollback : string → ActivatedCoreUpdate → SE W CoreUpdateError ();
  artifacts_commit : string → ActivatedCoreUpdate → SE W CoreUpdateError ();
}.

Class CoreUpdatePruneProvider (W : Type) :=
  prune_provider : string → CoreInstallation → SE W CoreUpdateError ().

(** ** Requirements *)

Definition require_store_result (stored : VersionedCoreUpdateRecord) (idempotency_key : string)
    (expected : option CoreUpdateRecord) (prior_revision : Z) : result CoreUpdateError () :=
  if (vu_revision stored <=? prior_revision)
     || negb (bool_decide (ur_idempotency_key (vu_record stored) = idempotency_key))
     || is_some_and expected (λ expected, negb (bool_decide (vu_record stored = expected)))
  then Err (UpStore UpCorrupt) else Ok ().

Definition require_same_request (record : CoreUpdateRecord) (requested_version : option string)
  : result CoreUpdateError () :=
  if negb (bool_decide (ur_requested_version record = requested_version))
  then Err UpIdempotencyConflict else Ok ().

Definition required_current (record : CoreUpdateRecord) : result CoreUpdateError CoreInstallation :=
  ok_or (UpInvalidContract "Core update journal has no current installation") (ur_current record).
Definition required_prepared (record : CoreUpdateRecord) : result CoreUpdateError PreparedCoreUpdate :=
  ok_or (UpInvalidContract "Core update journal has no prepared candidate") (ur_prepared record).
Definition required_snapshot (record : CoreUpdateRecord) : result CoreUpdateError CoreServiceSnapshot :=
  ok_or (UpInvalidContract "Core update journal has no service snapshot") (ur_service_snapshot record).
Definition required_activation (record : CoreUpdateRecord) : result CoreUpdateError ActivatedCoreUpdate :=
  ok_or (UpInvalidContract "Core update journal has no activation receipt") (ur_activation record).
Definition required_failure (record : CoreUpdateRecord) : result CoreUpdateError FailureDescription :=
  ok_or (UpInvalidContract "terminal Core update failure has no description") (ur_failure record).

Definition installations_are_equal (record : CoreUpdateRecord) : result CoreUpdateError bool :=
  let? current := required_current record in
  let? prepared := required_prepared record in
  Ok (bool_decide (current = pu_installation prepared)).

Definition require_activation (activation : ActivatedCoreUpdate) (current prepared : CoreInstallation)
  : result CoreUpdateError () :=
  if negb (bool_decide (au_previous activation = current))
     || negb (bool_decide (au_installation activation = prepared))
  then Err (UpInvalidContract "Core activation receipt does not match the prepared handoff")
  else Ok ().

Definition terminal_change (record : CoreUpdateRecord) (disposition : CoreUpdateDisposition)
    (event : option CoreUpdateEvent) : result CoreUpdateError CoreUpdateChange :=
  let? installation := match disposition with
    | DispCurrent => required_current record
    | DispUpdated | DispCleanupPending =>
      let? activation := required_activation record in Ok (au_installation activation)
    end in
  Ok {| uc_installation := installation; uc_disposition := disposition; uc_event := event |}.

(** ** Updates of a record *)

Definition with_phase (phase : CoreUpdatePhase) (record : CoreUpdateRecord) : CoreUpdateRecord :=
  {| ur_update_id := ur_update_id record; ur_idempotency_key := ur_idempotency_key record;
     ur_requested_version := ur_requested_version record; ur_phase := phase;
     ur_current := ur_current record; ur_prepared := ur_prepared record;
     ur_service_snapshot := ur_service_snapshot record; ur_activation := ur_activation record;
     ur_failure := ur_failure record |}.
Definition with_failure (failure : option FailureDescription) (record : CoreUpdateRecord)
  : CoreUpdateRecord :=
  {| ur_update_id := ur_update_id record; ur_idempotency_key := ur_idempotency_key record;
     ur_requested_version := ur_requested_version record; ur_phase := ur_phase record;
     ur_current := ur_current record; ur_prepared := ur_prepared record;
     ur_service_snapshot := ur_service_snapshot record; ur_activation := ur_activation record;
     ur_failure := failure |}.
Definition with_candidate (current : CoreInstallation) (prepared : option PreparedCoreUpdate)
    (record : CoreUpdateRecord) : CoreUpdateRecord :=
  {| ur_update_id := ur_update_id record; ur_idempotency_key := ur_idempotency_key record;
     ur_requested_version := ur_requested_version record; ur_phase := ur_phase record;
     ur_current := Some current; ur_prepared := prepared;
     ur_service_snapshot := ur_service_snapshot record; ur_activation := ur_activation record;
     ur_failure := ur_failure record |}.
Definition without_prepared (record : CoreUpdateRecord) : CoreUpdateRecord :=
  {| ur_update_id := ur_update_id record; ur_idempotency_key := ur_idempotency_key record;
     ur_requested_version := ur_requested_version record; ur_phase := ur_phase record;
     ur_current := ur_current record; ur_prepared := None;
     ur_service_snapshot := ur_service_snapshot record; ur_activation := ur_activation record;
     ur_failure := ur_failure record |}.
Definition with_snapshot (snapshot : CoreServiceSnapshot) (record : CoreUpdateRecord) : CoreUpdateRecord :=
  {| ur_update_id := ur_update_id record; ur_idempotency_key := ur_idempotency_key record;
     ur_requested_version := ur_requested_version record; ur_phase := ur_phase record;
     ur_current := ur_current record; ur_prepared := ur_prepared record;
     ur_service_snapshot := Some snapshot; ur_activation := ur_activation record;
     ur_failure := ur_failure record |}.
Definition with_activation (activation : ActivatedCoreUpdate) (record : CoreUpdateRecord)
  : CoreUpdateRecord :=
  {| ur_update_id := ur_update_id record; ur_idempotency_key := ur_idempotency_key record;
     ur_requested_version := ur_requested_version record; ur_phase := ur_phase record;
     ur_current := ur_current record; ur_prepared := ur_prepared record;
     ur_service_snapshot := ur_service_snapshot record; ur_activation := Some activation;
     ur_failure := ur_failure record |}.

Section lifecycle.
Context {W L : Type} `{!CoreUpdateStore W, !CoreUpdateAdmissionProvider W L,
  !CoreUpdateArtifactProvider W, !CoreUpdateServiceProvider W, !CoreUpdatePruneProvider W,
  !CoreUpdateReadinessClock W, !Sha256} (readiness : CoreUpdateReadinessPolicy).
Abbreviation UM := (SE W CoreUpdateError).

(** ** The journal *)

Definition read_record (idempotency_key : string) : UM (option VersionedCoreUpdateRecord) :=
  do! stored <- se_map_err UpStore (update_read idempotency_key) in
  run! match stored with
       | Some stored => se_lift (require_store_result stored idempotency_key None 0)
       | None => se_ret ()
       end in
  se_ret stored.

Definition replace_record (record : CoreUpdateRecord) (expected_revision : Z)
  : UM VersionedCoreUpdateRecord := λ w,
  let idempotency_key := ur_idempotency_key record in
  match update_replace record expected_revision w with
  | (Ok stored, w) =>
    (run! se_lift (require_store_result stored idempotency_key (Some record) expected_revision) in
     se_ret stored) w
  | (Err original, w) =>
    (do! observed <- read_record idempotency_key in
     match observed with
     | Some observed =>
       if bool_decide (original = UpUnavailable) && bool_decide (vu_record observed = record)
          && (expected_revision <? vu_revision observed)
       then se_ret observed
       else if (vu_revision observed =? expected_revision) && bool_decide (original = UpConflict)
       then
         do! retried <- se_map_err UpStore (update_replace record expected_revision) in
         run! se_lift (require_store_result retried idempotency_key (Some record) expected_revision) in
         se_ret retried
       else se_fail (UpStore original)
     | None => se_fail (UpStore original)
     end) w
  end.

Definition open_record (idempotency_key : string) (requested_version : option string)
  : UM VersionedCoreUpdateRecord :=
  do! existing <- read_record idempotency_key in
  match existing with
  | Some versioned =>
    run! se_lift (require_same_request (vu_record versioned) requested_version) in
    se_ret versioned
  | None =>
    do! identity <- se_lift (update_identity idempotency_key) in
    do! requested <- se_lift (CoreUpdateRecord_requested identity idempotency_key requested_version) in
    λ w, match update_create requested w with
    | (Ok versioned, w) =>
      (run! se_lift (require_store_result versioned idempotency_key (Some requested) 0) in
       se_ret versioned) w
    | (Err error, w) =>
      (if bool_decide (error = UpConflict)
       then
         do! found <- read_record idempotency_key in
         do! versioned <- se_lift (ok_or (UpStore UpConflict) found) in
         run! se_lift (require_same_request (vu_record versioned) requested_version) in
         se_ret versioned
       else se_fail (UpStore error)) w
    end
  end.

(** ** Compensation *)

(** Which of the acquired boundaries could not be undone. *)
Definition compensate (record : CoreUpdateRecord) : W → bool * W := λ w,
  match ur_activation record with
  | Some activation =>
    let '(restored, w) := match ur_current record, ur_service_snapshot record with
      | Some previous, Some snapshot =>
        let '(r, w) := services_restore (ur_update_id record) previous snapshot w in (is_ok r, w)
      | _, _ => (false, w)
      end in
    let '(r, w) := artifacts_rollback (ur_update_id record) activation w in
    (negb restored || negb (is_ok r), w)
  | None =>
    match ur_prepared record with
    | Some prepared =>
      let '(r, w) := artifacts_discard (ur_update_id record) prepared w in (negb (is_ok r), w)
    | None => (false, w)
    end
  end.

Definition complete_rollback {A} (versioned : VersionedCoreUpdateRecord) : UM A :=
  let record := vu_record versioned in
  do! failure <- se_lift (required_failure record) in
  λ w, let '(recovery_failed, w) := compensate record w in
  (run! replace_record (with_phase (if recovery_failed then PhRecoveryRequired else PhRolledBack) record)
          (vu_revision versioned) in
   se_fail (if recovery_failed then UpRecoveryRequired failure else UpRolledBack failure)) w.

Definition rollback_failure {A} (record : CoreUpdateRecord) (expected_revision : Z)
    (error : CoreUpdateError) : UM A :=
  do! failure <- se_lift (failure_description "core_update_failed" error) in
  do! stored <- replace_record (with_phase PhRollingBack (with_failure (Some failure) record))
                  expected_revision in
  complete_rollback stored.

(** [match call { Ok(value) => .., Err(error) => return self.rollback_failure(..) }] *)
Definition or_rollback {X A} (call : UM X) (record : CoreUpdateRecord) (expected_revision : Z)
    (k : X → UM A) : UM A := λ w,
  match call w with
  | (Ok x, w) => k x w
  | (Err error, w) => rollback_failure record expected_revision error w
  end.

(** ** Phases *)

Definition prepare (versioned : VersionedCoreUpdateRecord) : UM VersionedCoreUpdateRecord :=
  let record := vu_record versioned in
  or_rollback (artifacts_current (ur_update_id record)) record (vu_revision versioned) (λ current,
  or_rollback (artifacts_prepare (ur_update_id record) (ur_requested_version record) current)
    record (vu_revision versioned) (λ prepared,
  let record := with_candidate current (Some prepared) record in
  if is_some_and (ur_requested_version record)
       (λ requested, negb (bool_decide (requested = ci_version (pu_installation prepared))))
  then rollback_failure record (vu_revision versioned)
         (UpInvalidContract "prepared Core version does not match the pinned request")
  else replace_record (with_failure None (with_phase PhPrepared record)) (vu_revision versioned))).

Definition snapshot_services (versioned : VersionedCoreUpdateRecord) : UM VersionedCoreUpdateRecord :=
  let record := vu_record versioned in
  do! current <- se_lift (required_current record) in
  or_rollback (services_snapshot (ur_update_id record) current) record (vu_revision versioned) (λ snapshot,
  replace_record (with_phase PhServicesSnapshotted (with_snapshot snapshot record)) (vu_revision versioned)).

Definition activate (versioned : VersionedCoreUpdateRecord) : UM VersionedCoreUpdateRecord :=
  let record := vu_record versioned in
  do! current <- se_lift (required_current record) in
  do! prepared <- se_lift (required_prepared record) in
  or_rollback (artifacts_activate (ur_update_id record) prepared current) record (vu_revision versioned)
  (λ activation,
  let record := with_activation activation record in
  match require_activation activation current (pu_installation prepared) with
  | Err error => rollback_failure record (vu_revision versioned) error
  | Ok () => replace_record (with_phase PhActivated record) (vu_revision versioned)
  end).

Definition rebind_services (versioned : VersionedCoreUpdateRecord) : UM VersionedCoreUpdateRecord :=
  let record := vu_record versioned in
  do! activation <- se_lift (required_activation record) in
  do! snapshot <- se_lift (required_snapshot record) in
  or_rollback (services_rebind (ur_update_id record) (au_installation activation) snapshot)
    record (vu_revision versioned) (λ _,
  replace_record (with_phase PhServicesRebound record) (vu_revision versioned)).

Definition verify_services (versioned : VersionedCoreUpdateRecord) : UM VersionedCoreUpdateRecord :=
  let record := vu_record versioned in
  do! activation <- se_lift (required_activation record) in
  do! snapshot <- se_lift (required_snapshot record) in
  or_rollback (services_verify readiness (ur_update_id record) (au_installation activation) snapshot)
    record (vu_revision versioned) (λ _,
  replace_record (with_phase PhVerified record) (vu_revision versioned)).

Definition commit (versioned : VersionedCoreUpdateRecord) : UM VersionedCoreUpdateRecord :=
  let record := vu_record versioned in
  do! activation <- se_lift (required_activation record) in
  or_rollback (artifacts_commit (ur_update_id record) activation) record (vu_revision versioned) (λ _,
  replace_record (with_phase PhCommitted record) (vu_revision versioned)).

Definition prune (versioned : VersionedCoreUpdateRecord) (first_attempt : bool) : UM CoreUpdateChange :=
  let record := vu_record versioned in
  do! activation <- se_lift (required_activation record) in
  let installation := au_installation activation in
  λ w, match prune_provider (ur_update_id record) installation w with
  | (Ok _, w) =>
    (do! stored <- replace_record (with_failure None (with_phase PhSucceeded record))
                     (vu_revision versioned) in
     se_lift (terminal_change (vu_record stored) DispUpdated
                (Some (CoreUpdated (ci_source_identity installation))))) w
  | (Err error, w) =>
    (if first_attempt
     then
       do! failure <- se_lift (failure_description "core_cleanup_pending" error) in
       do! stored <- replace_record (with_failure (Some failure) (with_phase PhCleanupPending record))
                       (vu_revision versioned) in
       se_lift (terminal_change (vu_record stored) DispCleanupPending
                  (Some (CoreCleanupPending (ci_source_identity installation))))
     else se_lift (terminal_change record DispCleanupPending None)) w
  end.

Definition complete_current (versioned : VersionedCoreUpdateRecord) : UM CoreUpdateChange :=
  let record := vu_record versioned in
  do! prepared <- se_lift (required_prepared record) in
  or_rollback (artifacts_discard (ur_update_id record) prepared) record (vu_revision versioned) (λ _,
  do! current <- se_lift (required_current record) in
  do! stored <- replace_record (with_failure None (with_phase PhCurrent (without_prepared record)))
                  (vu_revision versioned) in
  se_lift (terminal_change (vu_record stored) DispCurrent
             (Some (CoreCurrent (ci_source_identity current))))).

(** ** The loop *)

(** [versioned = phase(versioned)?] and [return]. *)
Definition go_on (c : UM VersionedCoreUpdateRecord) : UM (VersionedCoreUpdateRecord + CoreUpdateChange) :=
  do! versioned <- c in se_ret (inl versioned).
Definition return_with (c : UM CoreUpdateChange) : UM (VersionedCoreUpdateRecord + CoreUpdateChange) :=
  do! change <- c in se_ret (inr change).

Definition update_step (versioned : VersionedCoreUpdateRecord)
  : UM (VersionedCoreUpdateRecord + CoreUpdateChange) :=
  let record := vu_record versioned in
  match ur_phase record with
  | PhRequested => go_on (prepare versioned)
  | PhPrepared =>
    do! equal <- se_lift (installations_are_equal record) in
    if equal then return_with (complete_current versioned) else go_on (snapshot_services versioned)
  | PhServicesSnapshotted => go_on (activate versioned)
  | PhActivated => go_on (rebind_services versioned)
  | PhServicesRebound => go_on (verify_services versioned)
  | PhVerified => go_on (commit versioned)
  | PhCommitted => return_with (prune versioned true)
  | PhRollingBack => return_with (complete_rollback versioned)
  | PhCleanupPending => return_with (prune versioned false)
  | PhCurrent => return_with (se_lift (terminal_change record DispCurrent None))
  | PhSucceeded => return_with (se_lift (terminal_change record DispUpdated None))
  | PhRolledBack => do! failure <- se_lift (required_failure record) in se_fail (UpRolledBack failure)
  | PhRecoveryRequired =>
    do! failure <- se_lift (required_failure record) in se_fail (UpRecoveryRequired failure)
  end.

(** The phases before [Committed] that a run can pass through, and the last round. *)
Definition update_fuel : nat := 7.

Definition run_update (versioned : VersionedCoreUpdateRecord) : UM CoreUpdateChange :=
  do! outcome <- iterate update_fuel update_step versioned in
  match outcome with
  | inr change => se_ret change
  | inl versioned => se_fail (UpInvalidContract "Core update did not finish")
  end.

(** The lease is dropped when [update] returns. *)
Definition holding {A} (lease : L) (c : UM A) : UM A := λ w,
  let '(r, w) := c w in (r, admission_drop lease w).

Definition needs_no_admission (phase : CoreUpdatePhase) : bool :=
  match phase with PhCurrent | PhSucceeded | PhRolledBack | PhRecoveryRequired => true | _ => false end.

Definition lifecycle_update (idempotency_key : string) (requested_version : option string)
  : UM CoreUpdateChange :=
  do! versioned <- open_record idempotency_key requested_version in
  let record := vu_record versioned in
  if needs_no_admission (ur_phase record) then run_update versioned
  else λ w, match admission_acquire (ur_update_id record) w with
  | (Ok lease, w) => holding lease (run_update versioned) w
  | (Err error, w) =>
    if bool_decide (ur_phase record = PhRequested)
    then rollback_failure record (vu_revision versioned) error w
    else (Err error, w)
  end.

(** ** The manager *)

(** What [Mutex::try_lock] finds. *)
Inductive UpdateOwnership := OwnershipFree | OwnershipHeld | OwnershipPoisoned.

Definition manager_update (ownership : UpdateOwnership) (idempotency_key : string)
    (requested_version : option string) : UM CoreUpdateChange :=
  match ownership with
  | OwnershipFree => lifecycle_update idempotency_key requested_version
  | OwnershipHeld => se_fail UpBusy
  | OwnershipPoisoned => se_fail (UpProvider "state" "update ownership is unavailable")
  end.

Definition manager_record (idempotency_key : string) : UM (option VersionedCoreUpdateRecord) :=
  read_record idempotency_key.
End lifecycle.

(** ** A Core update ends

    The readiness loop stops within its deadline whatever the clock and the services
    answer, and the phase loop stops because every round moves the journal forward. *)

(** ** The readiness loop *)

Section readiness.
Context {W : Type} `{!CoreUpdateServiceProvider W, !CoreUpdateReadinessClock W, !Sha256}
  (readiness : CoreUpdateReadinessPolicy).

(** The bounds that [CoreUpdateReadinessPolicy::new] checks. *)
Definition policy_bounds : Prop :=
  0 < rp_timeout_milliseconds readiness ≤ MAXIMUM_READINESS_TIMEOUT_MILLISECONDS ∧
  0 < rp_poll_milliseconds readiness ≤ rp_timeout_milliseconds readiness ∧
  0 < rp_stable_observations readiness ≤ MAXIMUM_STABLE_READINESS_OBSERVATIONS.

Lemma policy_new_bounds timeout poll stable :
  in_u64 timeout → in_u64 poll → in_u32 stable →
  CoreUpdateReadinessPolicy_new timeout poll stable = Ok readiness → policy_bounds.
Proof.
  unfold CoreUpdateReadinessPolicy_new, policy_bounds. intros ? ? ?.
  destruct (_ || _) eqn:E; [done|]. intros [= <-]. simpl. ulia.
Qed.

Lemma observe_readiness_time context installation deadline states last w ready observed w' :
  observe_readiness context installation deadline states last w = (Ok (ready, observed), w') →
  last ≤ observed.
Proof.
  revert last w. induction states as [|state states IH]; intros last w; cbn [observe_readiness].
  - intros [= _ <- _]. lia.
  - destruct (deadline <=? last); [done|]. intros Hx. inv_se Hx.
    destruct (_ <? last) eqn:Hl; [done|]. destruct (deadline <=? _); [done|].
    destruct a0; simpl in Hx; [apply IH in Hx; lia|]. injection Hx as <- <- <-. lia.
Qed.

Section rounds.
Context (installation : CoreInstallation) (record : CoreUpdateServiceSnapshotRecord) (deadline : Z).
Abbreviation round := (verify_round readiness installation record deadline).

Lemma readiness_observation_time minimum w ready observed w' :
  readiness_observation installation record minimum deadline w = (Ok (ready, observed), w') →
  minimum ≤ observed.
Proof.
  unfold readiness_observation. intros Hx. inv_se Hx. destruct (a <? minimum) eqn:E; [done|].
  apply observe_readiness_time in Hx. lia.
Qed.

(** A round that goes on has seen the clock advance below the deadline, and has
    counted at most one more observation without reaching the required number. *)
Lemma verify_round_goes_on consecutive last w next w' :
  round (consecutive, last) w = (Ok (inl next), w') →
  last < next.2 ∧ last < deadline ∧
  (next.1 = 0 ∨ next.1 = (consecutive + 1) mod 2 ^ 32 ∧ next.1 < rp_stable_observations readiness).
Proof.
  unfold verify_round. intros Hx. apply se_bind_Ok in Hx as ([ready at_] & w1 & Ho & Hx). simpl in *.
  apply readiness_observation_time in Ho.
  destruct (ready && _) eqn:Hs; [done|]. inv_se Hx.
  destruct (_ <? at_) eqn:H1 in Hx; [done|]. destruct (deadline <=? _) eqn:H2 in Hx; [done|].
  apply se_bind_Ok in Hx as ([] & w3 & _ & Hx). inv_se Hx.
  destruct (_ <=? _) eqn:H3 in Hx; [done|]. injection Hx as <- <-. simpl.
  split_and!; [lia..|]. destruct ready; [|by left]. right. simpl in Hs. lia.
Qed.

Definition round_measure (progress : Z * Z) : nat := Z.to_nat (deadline - progress.2).
Definition counted (progress : Z * Z) : Prop := 0 ≤ progress.1 < rp_stable_observations readiness.

Lemma verify_round_decreases progress w next w' :
  policy_bounds → counted progress → round progress w = (Ok (inl next), w') →
  counted next ∧ (round_measure next < round_measure progress)%nat.
Proof.
  destruct progress as [consecutive last]. unfold counted, round_measure. simpl.
  intros (_ & _ & Hb & Hm) Hc Hx. unfold MAXIMUM_STABLE_READINESS_OBSERVATIONS in *.
  apply verify_round_goes_on in Hx as (Hl & Hd & Hn).
  split; [|lia]. destruct Hn as [->|[-> Hlt]]; [lia|]. split; [apply Z.mod_pos_bound; lia|done].
Qed.
End rounds.

(** C25: with any services and any clock, whatever it shows, the readiness loop is over
    within one round per millisecond of the timeout and one more, and more rounds
    change nothing: it ends with an answer of its own. *)
Theorem readiness_loop_ends timeout poll stable installation record started deadline fuel (w : W) :
  in_u64 timeout → in_u64 poll → in_u32 stable →
  CoreUpdateReadinessPolicy_new timeout poll stable = Ok readiness →
  checked_add_u64 started (rp_timeout_milliseconds readiness) = Some deadline →
  (verify_fuel readiness ≤ fuel)%nat →
  let loop fuel := iterate fuel (verify_round readiness installation record deadline) (0, started) w in
  loop fuel = loop (verify_fuel readiness) ∧ ∀ progress, (loop fuel).1 ≠ Ok (inl progress).
Proof.
  intros Ht Hp Hs Hnew Hd Hf loop. pose proof (policy_new_bounds _ _ _ Ht Hp Hs Hnew) as Hb.
  pose proof (verify_round_decreases installation record deadline) as Hdec.
  assert (counted (0, started)) as Hc by (unfold counted; simpl; destruct Hb; lia).
  assert (round_measure deadline (0%Z, started) < verify_fuel readiness)%nat as Hm.
  { apply checked_add_u64_Some in Hd as [-> _]. unfold round_measure, verify_fuel. simpl. lia. }
  split.
  - apply (iterate_more _ (round_measure deadline) counted); eauto.
  - intros progress. destruct (loop fuel) as [r w'] eqn:E. simpl.
    eapply (iterate_stops _ (round_measure deadline) counted); [eauto|done| |exact E]. lia.
Qed.
End readiness.

(** ** The phase loop *)

Section phases.
Context {W L : Type} `{!CoreUpdateStore W, !CoreUpdateAdmissionProvider W L,
  !CoreUpdateArtifactProvider W, !CoreUpdateServiceProvider W, !CoreUpdatePruneProvider W,
  !CoreUpdateReadinessClock W, !Sha256} (readiness : CoreUpdateReadinessPolicy).

Lemma require_store_result_Ok stored key expected prior u :
  require_store_result stored key expected prior = Ok u ↔
  prior < vu_revision stored ∧ ur_idempotency_key (vu_record stored) = key ∧
  ∀ e, expected = Some e → vu_record stored = e.
Proof.
  destruct u. unfold require_store_result. destruct (_ || _) eqn:E.
  - split; [done|]. intros (Hr & Hk & He). exfalso. rewrite <- not_false_iff_true in E. apply E.
    rewrite !orb_false_iff, negb_false_iff, bool_decide_eq_true. split_and!; [lia|done|].
    destruct expected as [e|]; [|done]. simpl. by rewrite negb_false_iff, bool_decide_eq_true, (He e).
  - rewrite !orb_false_iff, negb_false_iff, bool_decide_eq_true in E. destruct E as ((Hr & Hk) & He).
    split; [intros _|done]. split_and!; [lia|done|]. intros e ->. simpl in He.
    by rewrite negb_false_iff, bool_decide_eq_true in He.
Qed.

(** A journal that was replaced is the one that was asked for, at a later revision. *)
Lemma replace_record_Ok record expected w v w' :
  replace_record record expected w = (Ok v, w') → vu_record v = record ∧ expected < vu_revision v.
Proof.
  unfold replace_record. destruct (update_replace record expected w) as [[stored|original] w1]; intros Hx.
  - inv_se Hx. subst. apply require_store_result_Ok in Hr as (? & _ & He). split; [by apply He|done].
  - inv_se Hx. destruct a as [observed|]; [|done]. destruct (_ && _ && _) eqn:E.
    + injection Hx as <- <-. rewrite !andb_true_iff, !bool_decide_eq_true in E. split; [tauto|lia].
    + destruct (_ && _) in Hx; [|done]. inv_se Hx. subst.
      apply require_store_result_Ok in Hr1 as (? & _ & He). split; [by apply He|done].
Qed.

Lemma complete_rollback_fails {A} v w (a : A) w' : complete_rollback v w ≠ (Ok a, w').
Proof.
  unfold complete_rollback. intros Hx. inv_se Hx. destruct (compensate _ _) as [failed w1].
  apply se_bind_Ok in Hx as (? & ? & _ & [=]).
Qed.

Lemma rollback_failure_fails {A} record expected error w (a : A) w' :
  rollback_failure record expected error w ≠ (Ok a, w').
Proof. unfold rollback_failure. intros Hx. inv_se Hx. by apply complete_rollback_fails in Hx. Qed.

Lemma or_rollback_Ok {X A} (call : SE W CoreUpdateError X) record expected (k : X → SE W CoreUpdateError A) w a w' :
  or_rollback call record expected k w = (Ok a, w') ↔ ∃ x w1, call w = (Ok x, w1) ∧ k x w1 = (Ok a, w').
Proof.
  unfold or_rollback. destruct (call w) as [[x|e] w1]; [naive_solver|].
  split; [by intros ?%rollback_failure_fails|naive_solver].
Qed.

(** The phase that follows in a handoff that goes on. *)
Definition next_phase (phase : CoreUpdatePhase) : option CoreUpdatePhase :=
  match phase with
  | PhRequested => Some PhPrepared
  | PhPrepared => Some PhServicesSnapshotted
  | PhServicesSnapshotted => Some PhActivated
  | PhActivated => Some PhServicesRebound
  | PhServicesRebound => Some PhVerified
  | PhVerified => Some PhCommitted
  | _ => None
  end.

Ltac inv_phase Hx :=
  inv_se Hx; rewrite ?or_rollback_Ok in Hx;
  repeat match type of Hx with ∃ _ _, _ ∧ _ => destruct Hx as (? & ? & ? & Hx); rewrite ?or_rollback_Ok in Hx end.

Lemma go_on_Ok (c : SE W CoreUpdateError VersionedCoreUpdateRecord) w r w' :
  go_on c w = (Ok r, w') ↔ ∃ v, c w = (Ok v, w') ∧ r = inl v.
Proof. unfold go_on. rewrite se_bind_Ok. unfold se_ret. naive_solver. Qed.
Lemma return_with_Ok (c : SE W CoreUpdateError CoreUpdateChange) w r w' :
  return_with c w = (Ok r, w') ↔ ∃ change, c w = (Ok change, w') ∧ r = inr change.
Proof. unfold return_with. rewrite se_bind_Ok. unfold se_ret. naive_solver. Qed.

(** A round goes on only with the next phase journalled, at a later revision. *)
Lemma update_step_goes_on v w next w' :
  update_step readiness v w = (Ok (inl next), w') →
  next_phase (ur_phase (vu_record v)) = Some (ur_phase (vu_record next)) ∧ vu_revision v < vu_revision next.
Proof.
  unfold update_step. intros Hx.
  destruct (ur_phase (vu_record v)) eqn:Hp; try (by apply return_with_Ok in Hx as (? & _ & [=]));
    try (by inv_se Hx).
  - apply go_on_Ok in Hx as (? & Hx & [= <-]). unfold prepare in Hx. inv_phase Hx.
    destruct (is_some_and _ _); [by apply rollback_failure_fails in Hx|].
    apply replace_record_Ok in Hx as [-> ?]. done.
  - apply se_bind_Ok in Hx as ([] & ? & _ & Hx); [by apply return_with_Ok in Hx as (? & _ & [=])|].
    apply go_on_Ok in Hx as (? & Hx & [= <-]). unfold snapshot_services in Hx. inv_phase Hx.
    apply replace_record_Ok in Hx as [-> ?]. done.
  - apply go_on_Ok in Hx as (? & Hx & [= <-]). unfold activate in Hx. inv_phase Hx.
    destruct (require_activation _ _ _) as [[]|]; [|by apply rollback_failure_fails in Hx].
    apply replace_record_Ok in Hx as [-> ?]. done.
  - apply go_on_Ok in Hx as (? & Hx & [= <-]). unfold rebind_services in Hx. inv_phase Hx.
    apply replace_record_Ok in Hx as [-> ?]. done.
  - apply go_on_Ok in Hx as (? & Hx & [= <-]). unfold verify_services in Hx. inv_phase Hx.
    apply replace_record_Ok in Hx as [-> ?]. done.
  - apply go_on_Ok in Hx as (? & Hx & [= <-]). unfold commit in Hx. inv_phase Hx.
    apply replace_record_Ok in Hx as [-> ?]. done.
Qed.

(** The rounds left before [Committed]. *)
Definition phase_measure (v : VersionedCoreUpdateRecord) : nat :=
  match ur_phase (vu_record v) with
  | PhRequested => 6 | PhPrepared => 5 | PhServicesSnapshotted => 4 | PhActivated => 3
  | PhServicesRebound => 2 | PhVerified => 1 | _ => 0
  end.

Lemma update_step_decreases v w next w' :
  True → update_step readiness v w = (Ok (inl next), w') → True ∧ (phase_measure next < phase_measure v)%nat.
Proof.
  intros _ [Hn _]%update_step_goes_on. split; [done|]. unfold phase_measure.
  destruct (ur_phase (vu_record v)); simpl in Hn; try done; injection Hn as <-; lia.
Qed.

(** C24: whatever the store and the providers do, the phase loop of an update is over
    within seven rounds, and more rounds change nothing. *)
Theorem update_loop_ends v fuel (w : W) :
  (update_fuel ≤ fuel)%nat →
  let loop fuel := iterate fuel (update_step readiness) v w in
  loop fuel = loop update_fuel ∧ ∀ next, (loop fuel).1 ≠ Ok (inl next).
Proof.
  intros Hf loop. assert (phase_measure v < update_fuel)%nat as Hm.
  { unfold phase_measure, update_fuel. destruct (ur_phase _); lia. }
  split.
  - by apply (iterate_more _ phase_measure (λ _, True)); [apply update_step_decreases|..].
  - intros next. destruct (loop fuel) as [r w'] eqn:E. simpl.
    eapply (iterate_stops _ phase_measure (λ _, True)); [apply update_step_decreases|done| |exact E]. lia.
Qed.
End phases.
