(* ===== verification/UpdateOrder.v ===== *)
(** * An update writes ahead and answers its journal

    The effects of an update in the order they happen, for every phase, and the
    two claims about whole updates. *)

From Stdlib Require Import String.
From S2P Require Import Prelude Values Database UpdateContract UpdateServices UpdateLifecycle.

(** ** What an update does, and when

    Every capability of an update is wrapped so that the world also carries the list
    of the effects that happened.  Whatever the wrapped capabilities do, an effect
    happens only while the journal last seen in the store accounts for it, and the
    answer of an update is the journal it left there. *)

(** ** Effects *)

Inductive Effect :=
| EfJournal (stored : VersionedCoreUpdateRecord)
| EfPrepare (update_id : string) (requested_version : option string) (current : CoreInstallation)
| EfDiscard (update_id : string) (prepared : PreparedCoreUpdate)
| EfStoreSnapshot (snapshot : CoreUpdateServiceSnapshotRecord)
| EfActivate (update_id : string) (prepared : PreparedCoreUpdate) (current : CoreInstallation)
| EfRebind (service : CoreUpdateResidentService) (mode : CoreUpdateServiceMode) (installation : CoreInstallation)
| EfReady (service : CoreUpdateResidentService) (installation : option CoreInstallation)
| EfCommit (update_id : string) (activation : ActivatedCoreUpdate)
| EfPrune (update_id : string) (active : CoreInstallation)
| EfRestore (state : CoreUpdateServiceState) (installation : CoreInstallation)
| EfRollback (update_id : string) (activation : ActivatedCoreUpdate).

(** The installation that a journal hands over to. *)
Definition hands_over (record : CoreUpdateRecord) (installation : CoreInstallation) : Prop :=
  ∃ activation, ur_activation record = Some activation ∧ au_installation activation = installation.

(** The effects that a journal accounts for. *)
Definition accounts_for (record : CoreUpdateRecord) (effect : Effect) : Prop :=
  match effect with
  | EfJournal _ => True
  | EfPrepare id version current =>
    ur_phase record = PhRequested ∧ ur_update_id record = id ∧ ur_requested_version record = version
  | EfDiscard id prepared =>
    ur_update_id record = id ∧ ur_prepared record = Some prepared ∧
    (ur_phase record = PhPrepared ∧ ur_current record = Some (pu_installation prepared) ∨
     ur_phase record = PhRollingBack ∧ ur_activation record = None)
  | EfStoreSnapshot snapshot =>
    ur_phase record = PhPrepared ∧ ur_update_id record = sn_update_id snapshot ∧
    ur_current record = Some (sn_current snapshot)
  | EfActivate id prepared current =>
    ur_phase record = PhServicesSnapshotted ∧ ur_update_id record = id ∧
    ur_prepared record = Some prepared ∧ ur_current record = Some current
  | EfRebind _ _ installation => ur_phase record = PhActivated ∧ hands_over record installation
  | EfReady _ installation =>
    ur_phase record = PhServicesRebound ∧ ∃ i, installation = Some i ∧ hands_over record i
  | EfCommit id activation =>
    ur_phase record = PhVerified ∧ ur_update_id record = id ∧ ur_activation record = Some activation
  | EfPrune id active =>
    (ur_phase record = PhCommitted ∨ ur_phase record = PhCleanupPending) ∧
    ur_update_id record = id ∧ hands_over record active
  | EfRestore _ installation =>
    ur_phase record = PhRollingBack ∧ ur_current record = Some installation ∧ is_Some (ur_activation record)
  | EfRollback id activation =>
    ur_phase record = PhRollingBack ∧ ur_update_id record = id ∧ ur_activation record = Some activation
  end.

(** The journal last seen in the store, after some more effects. *)
Definition last_journal (journal : option CoreUpdateRecord) (effects : list Effect)
  : option CoreUpdateRecord :=
  foldl (λ j effect, match effect with EfJournal v => Some (vu_record v) | _ => j end) journal effects.

Definition permitted (journal : option CoreUpdateRecord) (effect : Effect) : Prop :=
  match effect with
  | EfJournal _ => True
  | _ => ∃ record, journal = Some record ∧ accounts_for record effect
  end.

Fixpoint obeys (journal : option CoreUpdateRecord) (effects : list Effect) : Prop :=
  match effects with
  | [] => True
  | effect :: effects => permitted journal effect ∧ obeys (last_journal journal [effect]) effects
  end.

Lemma last_journal_app j t1 t2 : last_journal j (t1 ++ t2) = last_journal (last_journal j t1) t2.
Proof. apply foldl_app. Qed.
Lemma obeys_app j t1 t2 : obeys j (t1 ++ t2) ↔ obeys j t1 ∧ obeys (last_journal j t1) t2.
Proof.
  revert j. induction t1 as [|e t1 IH]; intros j; simpl; [tauto|]. rewrite IH. tauto.
Qed.

(** The same, effect by effect. *)
Lemma obeys_split j t t1 effect t2 :
  obeys j t → t = t1 ++ effect :: t2 → permitted (last_journal j t1) effect.
Proof. intros Ho ->. apply obeys_app in Ho as [_ [Hp _]]. done. Qed.

(** ** Recording the effects *)

Definition Traced (W : Type) : Type := W * list Effect.

Section recording.
Context {W L : Type}.

Definition recording {E A} (c : SE W E A) (effects : result E A → list Effect) : SE (Traced W) E A :=
  λ wt, let '(r, w) := c wt.1 in (r, (w, wt.2 ++ effects r)).

Definition seen (r : result CoreUpdateStoreError VersionedCoreUpdateRecord) : list Effect :=
  match r with Ok v => [EfJournal v] | Err _ => [] end.
Definition seen_option (r : result CoreUpdateStoreError (option VersionedCoreUpdateRecord)) : list Effect :=
  match r with Ok (Some v) => [EfJournal v] | _ => [] end.

#[export] Instance traced_store `{!CoreUpdateStore W} : CoreUpdateStore (Traced W) := {|
  update_read key := recording (update_read key) seen_option;
  update_create record := recording (update_create record) seen;
  update_replace record revision := recording (update_replace record revision) seen;
|}.

#[export] Instance traced_admission `{!CoreUpdateAdmissionProvider W L}
  : CoreUpdateAdmissionProvider (Traced W) L := {|
  admission_acquire id := recording (admission_acquire id) (λ _, []);
  admission_drop lease wt := (admission_drop lease wt.1, wt.2);
|}.

#[export] Instance traced_artifacts `{!CoreUpdateArtifactProvider W} : CoreUpdateArtifactProvider (Traced W) := {|
  artifacts_current id := recording (artifacts_current id) (λ _, []);
  artifacts_prepare id version current :=
    recording (artifacts_prepare id version current) (λ _, [EfPrepare id version current]);
  artifacts_discard id prepared := recording (artifacts_discard id prepared) (λ _, [EfDiscard id prepared]);
  artifacts_activate id prepared current :=
    recording (artifacts_activate id prepared current) (λ _, [EfActivate id prepared current]);
  artifacts_rollback id activation := recording (artifacts_rollback id activation) (λ _, [EfRollback id activation]);
  artifacts_commit id activation := recording (artifacts_commit id activation) (λ _, [EfCommit id activation]);
|}.

#[export] Instance traced_services `{!CoreUpdateServiceProvider W} : CoreUpdateServiceProvider (Traced W) := {|
  provider_context := recording provider_context (λ _, []);
  snapshot_record id := recording (snapshot_record id) (λ _, []);
  store_snapshot_record snapshot := recording (store_snapshot_record snapshot) (λ _, [EfStoreSnapshot snapshot]);
  observe_service service := recording (observe_service service) (λ _, []);
  rebind_service service mode installation active :=
    recording (rebind_service service mode installation active) (λ _, [EfRebind service mode installation]);
  service_is_ready_with_timeout service mode installation active timeout :=
    recording (service_is_ready_with_timeout service mode installation active timeout)
      (λ _, [EfReady service installation]);
  restore_service state installation := recording (restore_service state installation) (λ _, [EfRestore state installation]);
|}.

#[export] Instance traced_pruner `{!CoreUpdatePruneProvider W} : CoreUpdatePruneProvider (Traced W) :=
  λ id active, recording (prune_provider id active) (λ _, [EfPrune id active]).

#[export] Instance traced_clock `{!CoreUpdateReadinessClock W} : CoreUpdateReadinessClock (Traced W) := {|
  monotonic_milliseconds := recording monotonic_milliseconds (λ _, []);
  readiness_wait interval := recording (readiness_wait interval) (λ _, []);
|}.
End recording.

(** ** Runs that obey the journal *)

Section obedience.
Context {W : Type}.

(** From the journal [j], a run obeys it; its answer and the journal then satisfy [Q]. *)
Definition obedient {E A} (j : option CoreUpdateRecord) (c : SE (Traced W) E A)
    (Q : result E A → option CoreUpdateRecord → Prop) : Prop :=
  ∀ w t r w' t', c (w, t) = (r, (w', t')) →
    ∃ s, t' = t ++ s ∧ obeys j s ∧ Q r (last_journal j s).

(** A run that leaves the journal. *)
Abbreviation keeps j c := (obedient j c (λ _ j', j' = j)).

Lemma obedient_weaken {E A} j (c : SE (Traced W) E A) (Q Q' : result E A → option CoreUpdateRecord → Prop) :
  obedient j c Q → (∀ r j', Q r j' → Q' r j') → obedient j c Q'.
Proof. intros Hc HQ w t r w' t' H. destruct (Hc _ _ _ _ _ H) as (s & ? & ? & ?). exists s. auto. Qed.

(** [match c { Ok(a) => k(a), Err(e) => h(e) }] *)
Lemma obedient_catch {E E' A B} j (c : SE (Traced W) E A) R (k : A → SE (Traced W) E' B)
    (h : E → SE (Traced W) E' B) Q :
  obedient j c R → (∀ a j', R (Ok a) j' → obedient j' (k a) Q) →
  (∀ e j', R (Err e) j' → obedient j' (h e) Q) →
  obedient j (λ wt, match c wt with (Ok a, wt) => k a wt | (Err e, wt) => h e wt end) Q.
Proof.
  intros Hc Hk Hh w t r w' t' H. destruct (c (w, t)) as [[a|e] [w1 t1]] eqn:H1;
    destruct (Hc _ _ _ _ _ H1) as (s1 & -> & Ho1 & HR);
    [destruct (Hk _ _ HR _ _ _ _ _ H) as (s2 & -> & Ho2 & HQ)
    |destruct (Hh _ _ HR _ _ _ _ _ H) as (s2 & -> & Ho2 & HQ)];
    exists (s1 ++ s2); by rewrite app_assoc, obeys_app, last_journal_app.
Qed.

Lemma obedient_pure {E A} j (r : result E A) (Q : result E A → option CoreUpdateRecord → Prop) :
  Q r j → obedient j (se_lift r) Q.
Proof. intros HQ w t r' w' t' [= <- <- <-]. exists []. by rewrite app_nil_r. Qed.

Lemma obedient_bind {E A B} j (c : SE (Traced W) E A) R (k : A → SE (Traced W) E B) Q :
  obedient j c R → (∀ a j', R (Ok a) j' → obedient j' (k a) Q) →
  (∀ e j', R (Err e) j' → Q (Err e) j') → obedient j (se_bind c k) Q.
Proof.
  intros Hc Hk He. eapply (obedient_catch j c R k (λ e, se_lift (Err e))); [done..|].
  intros e j' HR. by apply obedient_pure, He.
Qed.

Lemma keeps_pure {E A} j (r : result E A) : keeps j (se_lift r).
Proof. by apply obedient_pure. Qed.

Lemma keeps_bind {E A B} j (c : SE (Traced W) E A) (k : A → SE (Traced W) E B) :
  keeps j c → (∀ a, keeps j (k a)) → keeps j (se_bind c k).
Proof. intros Hc Hk. eapply obedient_bind; [exact Hc|intros a ? ->; apply Hk|done]. Qed.

(** A computed result, with what it is. *)
Lemma obedient_lift {E A B} j (x : result E A) (k : A → SE (Traced W) E B) Q :
  (∀ a, x = Ok a → obedient j (k a) Q) → (∀ e, x = Err e → Q (Err e) j) →
  obedient j (se_bind (se_lift x) k) Q.
Proof.
  intros Hk He. destruct x as [a|e]; [exact (Hk a eq_refl)|]. apply (obedient_pure j (Err e)). auto.
Qed.

Lemma keeps_bind_then {E A B} j (c : SE (Traced W) E A) (k : A → SE (Traced W) E B) Q :
  keeps j c → (∀ a, obedient j (k a) Q) → (∀ e, Q (Err e) j) → obedient j (se_bind c k) Q.
Proof. intros Hc Hk He. eapply obedient_bind; [exact Hc|intros a ? ->; apply Hk|intros e ? ->; apply He]. Qed.

Lemma keeps_recording {E A} j (c : SE W E A) effects :
  (∀ r, Forall (λ e, match e with EfJournal _ => False | _ => permitted j e end) (effects r)) →
  keeps j (recording c effects).
Proof.
  intros He w t r w' t' H. unfold recording in H. simpl in H. destruct (c w) as [r1 w1].
  injection H as <- <- <-. exists (effects r1). split; [done|]. specialize (He r1).
  induction He as [|e l Hp _ IH]; [done|]. destruct e; try done; destruct IH; done.
Qed.

Lemma keeps_silent {E A} j (c : SE W E A) : keeps j (recording c (λ _, [])).
Proof. by apply keeps_recording. Qed.

Lemma keeps_effect {E A} record (c : SE W E A) effect :
  (∀ v, effect ≠ EfJournal v) → accounts_for record effect →
  keeps (Some record) (recording c (λ _, [effect])).
Proof.
  intros Hj Ha. apply keeps_recording. intros _. constructor; [|done].
  destruct effect; first [by destruct (Hj stored)|by exists record].
Qed.

Lemma obedient_map_err {E E' A} (f : E → E') j (c : SE (Traced W) E A) Q :
  obedient j c (λ r, Q (match r with Ok a => Ok a | Err e => Err (f e) end)) →
  obedient j (se_map_err f c) Q.
Proof.
  intros Hc w t r w' t' H. unfold se_map_err in H. destruct (c (w, t)) as [[a|e] [w1 t1]] eqn:H1;
    injection H as <- <- <-; by apply (Hc _ _ _ _ _ H1).
Qed.
End obedience.

Section order.
Context {W L : Type} `{Hstore : !CoreUpdateStore W, Hadm : !CoreUpdateAdmissionProvider W L,
  Hart : !CoreUpdateArtifactProvider W, Hsvc : !CoreUpdateServiceProvider W,
  Hprune : !CoreUpdatePruneProvider W, Hclock : !CoreUpdateReadinessClock W, Hsha : !Sha256}
  (readiness : CoreUpdateReadinessPolicy).
Abbreviation UM := (SE (Traced W) CoreUpdateError).
Abbreviation keeps j c := (obedient (W := W) j c (λ _ j', j' = j)).

(** ** Services *)

Lemma keeps_if {E A} j (b : bool) (c1 c2 : SE (Traced W) E A) :
  keeps j c1 → keeps j c2 → keeps j (if b then c1 else c2).
Proof. by destruct b. Qed.
Lemma keeps_fail {E A} j (e : E) : keeps j (@se_fail (Traced W) E A e).
Proof. apply (keeps_pure j (Err e)). Qed.
Lemma keeps_ret {E A} j (a : A) : keeps j (@se_ret (Traced W) E A a).
Proof. apply (keeps_pure j (Ok a)). Qed.
Lemma keeps_lift {E A B} j (x : result E A) (k : A → SE (Traced W) E B) :
  (∀ a, x = Ok a → keeps j (k a)) → keeps j (se_bind (se_lift x) k).
Proof. intros Hk. by apply obedient_lift. Qed.

Ltac keep := repeat first
  [ progress cbv zeta | apply keeps_fail | apply keeps_ret | apply keeps_silent | apply keeps_pure
  | apply keeps_if | (apply keeps_lift; intros ? ?) | (apply keeps_bind; [|intros ?]) ].

Lemma required_snapshot_keeps j id snapshot : keeps j (services_required_snapshot id snapshot).
Proof. unfold services_required_snapshot. keep. Qed.

Lemma observe_services_keeps j services : keeps j (observe_services services).
Proof. induction services as [|s l IH]; cbn [observe_services]; keep. apply IH. Qed.

Lemma services_snapshot_keeps record current :
  ur_phase record = PhPrepared → ur_current record = Some current →
  keeps (Some record) (services_snapshot (ur_update_id record) current).
Proof.
  intros Hp Hc. unfold services_snapshot. do 2 (apply keeps_bind; [apply keeps_silent|intros ?]).
  destruct a0 as [existing|]; [keep|]. apply keeps_bind; [apply observe_services_keeps|intros services].
  apply keeps_lift. intros proposed Hn. unfold CoreUpdateServiceSnapshotRecord_new in Hn.
  apply result_bind_Ok in Hn as (receipt & _ & [= <-]).
  apply keeps_bind; [|intros stored; keep]. by apply keeps_effect.
Qed.

Lemma services_rebind_keeps record installation snapshot :
  ur_phase record = PhActivated → hands_over record installation →
  keeps (Some record) (services_rebind (ur_update_id record) installation snapshot).
Proof.
  intros Hp Hh. apply keeps_bind; [apply required_snapshot_keeps|intros sn]. keep.
  induction (sn_services sn) as [|s l IH]; cbn [rebind_all]; keep; [|apply IH]. by apply keeps_effect.
Qed.

Section readiness_rounds.
Context (record : CoreUpdateRecord) (installation : CoreInstallation).
Context (Hp : ur_phase record = PhServicesRebound) (Hh : hands_over record installation).

Lemma readiness_observation_keeps sn minimum deadline :
  keeps (Some record) (readiness_observation installation sn minimum deadline).
Proof.
  unfold readiness_observation. keep. revert a.
  induction (sn_services sn) as [|s l IH]; intros a; cbn [observe_readiness]; keep; [|apply IH].
  apply keeps_effect; [done|]. split; [done|]. by exists installation.
Qed.

Lemma verify_round_keeps sn deadline progress :
  keeps (Some record) (verify_round readiness installation sn deadline progress).
Proof. apply keeps_bind; [apply readiness_observation_keeps|intros observation; keep]. Qed.

Lemma iterate_keeps {E I B} j (body : I → SE (Traced W) E (I + B)) fuel i :
  (∀ i, keeps j (body i)) → keeps j (iterate fuel body i).
Proof.
  intros Hb. revert i. induction fuel as [|fuel IH]; intros i; cbn [iterate]; [apply keeps_ret|].
  apply keeps_bind; [apply Hb|]. intros [i'|b]; [apply IH|apply keeps_ret].
Qed.

Lemma services_verify_keeps snapshot :
  keeps (Some record) (services_verify readiness (ur_update_id record) installation snapshot).
Proof.
  unfold services_verify. apply keeps_bind; [apply required_snapshot_keeps|intros sn].
  apply keeps_bind; [apply keeps_silent|intros started]. apply keeps_lift. intros deadline _.
  apply keeps_bind; [apply iterate_keeps; intros; apply verify_round_keeps|].
  intros [?|[]]; [apply keeps_fail|apply keeps_ret].
Qed.
End readiness_rounds.

Lemma services_restore_keeps record previous snapshot :
  ur_phase record = PhRollingBack → ur_current record = Some previous → is_Some (ur_activation record) →
  keeps (Some record) (services_restore (ur_update_id record) previous snapshot).
Proof.
  intros Hp Hc Ha. apply keeps_bind; [apply required_snapshot_keeps|intros sn]. keep.
  generalize false. induction (sn_services sn) as [|s l IH]; intros failed; cbn [restore_all]; [apply keeps_ret|].
  intros w t r w' t'. cbv beta. destruct (restore_service (W := Traced W) s previous (w, t)) as [r1 [w1 t1]] eqn:H1. intros Hr.
  apply (keeps_effect record) in H1 as (s1 & -> & Ho1 & Hj1); [|done|done].
  apply IH in Hr as (s2 & -> & Ho2 & Hj2). exists (s1 ++ s2).
  rewrite app_assoc, obeys_app, last_journal_app, Hj1. done.
Qed.

(** ** The journal *)

(** A store failure is not the outcome of an update. *)
Definition is_outcome (e : CoreUpdateError) : Prop :=
  (∃ f, e = UpRolledBack f) ∨ ∃ f, e = UpRecoveryRequired f.

Lemma read_record_obedient j key :
  obedient j (read_record (W := Traced W) key) (λ r j',
    match r with
    | Ok (Some v) => j' = Some (vu_record v)
    | Ok None => j' = j
    | Err e => ¬ is_outcome e
    end).
Proof.
  unfold read_record. eapply (obedient_bind _ _ (λ r j',
    match r with Ok (Some v) => j' = Some (vu_record v) | Ok None => j' = j | Err e => ¬ is_outcome e end)).
  - apply obedient_map_err. intros w t r w' t' Hr. unfold update_read, traced_store, recording in Hr. simpl in Hr.
    destruct (update_read key w) as [r1 w1]. injection Hr as <- <- <-. exists (seen_option r1).
    destruct r1 as [[v|]|e]; (split; [done|]); (split; [done|]); simpl; try done.
    unfold is_outcome. naive_solver.
  - intros [v|] j' Hj; [|by apply (obedient_pure j' (Ok None))].
    apply obedient_lift; [intros u _; by apply (obedient_pure j' (Ok (Some v)))|].
    unfold require_store_result. intros e. destruct (_ || _); [|done]. intros [= <-].
    unfold is_outcome. naive_solver.
  - done.
Qed.

Lemma replace_obedient j record revision :
  obedient j (update_replace (W := Traced W) record revision) (λ r j',
    match r with Ok v => j' = Some (vu_record v) | Err _ => j' = j end).
Proof.
  intros w t r w' t' Hr. unfold update_replace, traced_store, recording in Hr. simpl in Hr.
  destruct (update_replace record revision w) as [r1 w1]. injection Hr as <- <- <-. exists (seen r1).
  by destruct r1.
Qed.

Lemma require_store_result_obedient {A} j v key expected prior (Q : result CoreUpdateError A → _ → Prop) (a : A) :
  Q (Ok a) j → (∀ e, ¬ is_outcome e → Q (Err e) j) →
  obedient (W := W) j (run! se_lift (require_store_result v key expected prior) in se_ret a) Q.
Proof.
  intros Ha He. apply obedient_lift; [intros u _; by apply (obedient_pure j (Ok a))|].
  unfold require_store_result. intros e. destruct (_ || _); [|done]. intros [= <-]. apply He.
  unfold is_outcome. naive_solver.
Qed.

Lemma store_fails {A} j error (Q : result CoreUpdateError A → _ → Prop) :
  (∀ e, ¬ is_outcome e → Q (Err e) j) → obedient (W := W) j (se_fail (UpStore error)) Q.
Proof.
  intros He. apply (obedient_pure j (Err (UpStore error))), He. unfold is_outcome. naive_solver.
Qed.

Definition journalled (record : CoreUpdateRecord) (r : result CoreUpdateError VersionedCoreUpdateRecord)
    (j : option CoreUpdateRecord) : Prop :=
  match r with
  | Ok v => vu_record v = record ∧ j = Some record
  | Err e => ¬ is_outcome e
  end.

Lemma replace_record_obedient j record revision :
  obedient j (replace_record (W := Traced W) record revision) (journalled record).
Proof.
  assert (obedient j (replace_record (W := Traced W) record revision)
    (λ r j', match r with Ok v => j' = Some (vu_record v) | Err e => ¬ is_outcome e end)) as Ho.
  2:{ intros w t r w' t' Hr. destruct (Ho _ _ _ _ _ Hr) as (s & ? & ? & HQ). exists s.
      split_and!; [done..|]. destruct r as [v|e]; simpl; [|done].
      apply replace_record_Ok in Hr as [<- _]. by rewrite HQ. }
  unfold replace_record. cbv zeta. eapply obedient_catch; [apply replace_obedient|..].
  - intros v j' Hj. by apply require_store_result_obedient.
  - intros original j' _. eapply obedient_bind; [apply read_record_obedient| |done].
    intros [observed|] j1 Hj1; [|by apply store_fails].
    destruct (_ && _ && _); [by apply (obedient_pure j1 (Ok observed))|].
    destruct (_ && _); [|by apply store_fails].
    eapply (obedient_bind _ _ (λ r j',
      match r with Ok v => j' = Some (vu_record v) | Err e => ¬ is_outcome e end)).
    + apply obedient_map_err. eapply obedient_weaken; [apply replace_obedient|].
      intros [v|e] j2 Hj2; [done|]. unfold is_outcome. naive_solver.
    + intros v j2 Hj2. by apply require_store_result_obedient.
    + done.
Qed.
(** ** Compensation *)

Lemma compensate_keeps record w t b w' t' :
  ur_phase record = PhRollingBack → compensate (W := Traced W) record (w, t) = (b, (w', t')) →
  ∃ s, t' = t ++ s ∧ obeys (Some record) s ∧ last_journal (Some record) s = Some record.
Proof.
  intros Hp. unfold compensate. destruct (ur_activation record) as [activation|] eqn:Ha.
  - assert (∀ w t r w' t', artifacts_rollback (W := Traced W) (ur_update_id record) activation (w, t) = (r, (w', t')) →
      ∃ s, t' = t ++ s ∧ obeys (Some record) s ∧ last_journal (Some record) s = Some record) as Hroll
      by (intros ? ? ? ? ?; by apply keeps_effect).
    destruct (ur_current record) as [previous|] eqn:Hc, (ur_service_snapshot record) as [snapshot|].
    2-4: destruct (artifacts_rollback (W := Traced W) (ur_update_id record) activation (w, t)) as [r [w1 t1]] eqn:H1; intros [= <- <- <-]; by apply Hroll in H1.
    destruct (services_restore (W := Traced W) (ur_update_id record) previous snapshot (w, t)) as [r [w1 t1]] eqn:H1.
    destruct (artifacts_rollback (W := Traced W) (ur_update_id record) activation (w1, t1)) as [r2 [w2 t2]] eqn:H2. intros [= <- <- <-].
    apply services_restore_keeps in H1 as (s1 & -> & Ho1 & Hj1); [|done|done|by eexists].
    apply Hroll in H2 as (s2 & -> & Ho2 & Hj2). exists (s1 ++ s2).
    by rewrite app_assoc, obeys_app, last_journal_app, Hj1.
  - destruct (ur_prepared record) as [prepared|] eqn:Hpr; [|by intros [= <- <- <-]; exists []; rewrite app_nil_r].
    destruct (artifacts_discard (W := Traced W) (ur_update_id record) prepared (w, t)) as [r [w1 t1]] eqn:H1. intros [= <- <- <-].
    apply (keeps_effect record) in H1; [done..|]. simpl. auto.
Qed.

(** The outcomes of a failed update are in its journal. *)
Definition failed (e : CoreUpdateError) (j : option CoreUpdateRecord) : Prop :=
  (∀ f, e = UpRolledBack f → ∃ record, j = Some record ∧ ur_phase record = PhRolledBack ∧ ur_failure record = Some f) ∧
  (∀ f, e = UpRecoveryRequired f →
    ∃ record, j = Some record ∧ ur_phase record = PhRecoveryRequired ∧ ur_failure record = Some f).

Lemma not_outcome_failed e j : ¬ is_outcome e → failed e j.
Proof. unfold failed, is_outcome. naive_solver. Qed.
Lemma invalid_failed reason j : failed (UpInvalidContract reason) j.
Proof. unfold failed. naive_solver. Qed.
Hint Resolve not_outcome_failed invalid_failed : core.

Definition fails {A} (r : result CoreUpdateError A) (j : option CoreUpdateRecord) : Prop :=
  match r with Ok _ => False | Err e => failed e j end.

Lemma complete_rollback_obedient {A} v :
  ur_phase (vu_record v) = PhRollingBack →
  obedient (Some (vu_record v)) (complete_rollback (W := Traced W) (A := A) v) fails.
Proof.
  intros Hp. unfold complete_rollback. cbv zeta. apply obedient_lift.
  2:{ unfold required_failure. intros e. destruct (ur_failure _); [done|]. by intros [= <-]. }
  intros failure Hf w t r w' t'. cbv beta.
  destruct (compensate (W := Traced W) (vu_record v) (w, t)) as [b [w1 t1]] eqn:H1.
  apply compensate_keeps in H1 as (s1 & -> & Ho1 & Hj1); [|done]. intros Hr.
  match type of Hr with ?c _ = _ => assert (obedient (Some (vu_record v)) c fails) as Hc end.
  { eapply obedient_bind; [apply replace_record_obedient| |simpl; auto].
    intros stored j' [Hs ->]. apply (obedient_pure _ (Err _)). unfold required_failure in Hf.
    apply ok_or_Ok in Hf. unfold fails, failed. destruct b; naive_solver. }
  apply Hc in Hr as (s2 & -> & Ho2 & HQ). exists (s1 ++ s2).
  by rewrite app_assoc, obeys_app, last_journal_app, Hj1.
Qed.

Lemma rollback_failure_obedient {A} j record revision error :
  obedient j (rollback_failure (W := Traced W) (A := A) record revision error) fails.
Proof.
  unfold rollback_failure. apply obedient_lift.
  2:{ unfold failure_description. intros e. repeat case_match; try done; by intros [= <-]. }
  intros failure _. eapply obedient_bind; [apply replace_record_obedient| |simpl; auto].
  intros stored j' [Hs ->]. rewrite <- Hs. apply complete_rollback_obedient. by rewrite Hs.
Qed.

Lemma or_rollback_obedient {X A} record revision (call : UM X) (k : X → UM A) Q :
  keeps (Some record) call → (∀ x, obedient (Some record) (k x) Q) →
  (∀ e j, failed e j → Q (Err e) j) →
  obedient (Some record) (or_rollback call record revision k) Q.
Proof.
  intros Hc Hk He. unfold or_rollback. eapply obedient_catch; [exact Hc|intros x ? ->; apply Hk|].
  intros error ? ->. eapply obedient_weaken; [apply rollback_failure_obedient|].
  intros [a|e] j'; simpl; [done|apply He].
Qed.
(** ** Phases *)

(** A phase that succeeds leaves the journal it returns. *)
Definition stored (r : result CoreUpdateError VersionedCoreUpdateRecord) (j : option CoreUpdateRecord) : Prop :=
  match r with Ok v => j = Some (vu_record v) | Err e => failed e j end.

(** What a journal says of a finished update. *)
Definition answers (record : CoreUpdateRecord) (change : CoreUpdateChange) : Prop :=
  match uc_disposition change with
  | DispCurrent => ur_phase record = PhCurrent ∧ ur_current record = Some (uc_installation change)
  | DispUpdated => ur_phase record = PhSucceeded ∧ hands_over record (uc_installation change)
  | DispCleanupPending => ur_phase record = PhCleanupPending ∧ hands_over record (uc_installation change)
  end.
Definition answered (r : result CoreUpdateError CoreUpdateChange) (j : option CoreUpdateRecord) : Prop :=
  match r with Ok change => ∃ record, j = Some record ∧ answers record change | Err e => failed e j end.

Lemma replace_stored j record revision :
  obedient j (replace_record (W := Traced W) record revision) stored.
Proof.
  eapply obedient_weaken; [apply replace_record_obedient|]. intros [v|e] j'; simpl; [|auto].
  by intros [-> ->].
Qed.
Lemma rollback_stored j record revision error :
  obedient j (rollback_failure (W := Traced W) record revision error) stored.
Proof. eapply obedient_weaken; [apply rollback_failure_obedient|]. by intros [|]. Qed.

(** Values a journal lacks are contract errors. *)
Lemma obedient_required {A B} record reason (o : option A) (k : A → UM B) Q :
  (∀ a, o = Some a → obedient (Some record) (k a) Q) →
  (∀ e j, failed e j → Q (Err e) j) →
  obedient (Some record) (se_bind (se_lift (ok_or (UpInvalidContract reason) o)) k) Q.
Proof.
  intros Hk He. apply obedient_lift; [intros a Ha%ok_or_Ok; auto|]. intros e. destruct o; [done|].
  intros [= <-]. auto.
Qed.

Lemma prepare_obedient v :
  ur_phase (vu_record v) = PhRequested → obedient (Some (vu_record v)) (prepare (W := Traced W) v) stored.
Proof.
  intros Hp. apply or_rollback_obedient; [apply keeps_silent|intros current|done].
  apply or_rollback_obedient; [by apply keeps_effect|intros prepared|done]. cbv zeta.
  destruct (is_some_and _ _); [apply rollback_stored|apply replace_stored].
Qed.

Lemma snapshot_services_obedient v :
  ur_phase (vu_record v) = PhPrepared →
  obedient (Some (vu_record v)) (snapshot_services (W := Traced W) v) stored.
Proof.
  intros Hp. apply obedient_required; [intros current Hc|done].
  apply or_rollback_obedient; [by apply services_snapshot_keeps|intros snapshot|done]. apply replace_stored.
Qed.

Lemma activate_obedient v :
  ur_phase (vu_record v) = PhServicesSnapshotted →
  obedient (Some (vu_record v)) (activate (W := Traced W) v) stored.
Proof.
  intros Hp. apply obedient_required; [intros current Hc|done].
  apply obedient_required; [intros prepared Hpr|done].
  apply or_rollback_obedient; [by apply keeps_effect|intros activation|done]. cbv zeta.
  destruct (require_activation _ _ _) as [[]|]; [apply replace_stored|apply rollback_stored].
Qed.

Lemma rebind_services_obedient v :
  ur_phase (vu_record v) = PhActivated →
  obedient (Some (vu_record v)) (rebind_services (W := Traced W) v) stored.
Proof.
  intros Hp. apply obedient_required; [intros activation Ha|done].
  apply obedient_required; [intros snapshot Hs|done].
  apply or_rollback_obedient; [|intros _; apply replace_stored|done].
  apply services_rebind_keeps; [done|]. by exists activation.
Qed.

Lemma verify_services_obedient v :
  ur_phase (vu_record v) = PhServicesRebound →
  obedient (Some (vu_record v)) (verify_services (W := Traced W) readiness v) stored.
Proof.
  intros Hp. apply obedient_required; [intros activation Ha|done].
  apply obedient_required; [intros snapshot Hs|done].
  apply or_rollback_obedient; [|intros _; apply replace_stored|done].
  apply services_verify_keeps; [done|]. by exists activation.
Qed.

Lemma commit_obedient v :
  ur_phase (vu_record v) = PhVerified → obedient (Some (vu_record v)) (commit (W := Traced W) v) stored.
Proof.
  intros Hp. apply obedient_required; [intros activation Ha|done].
  apply or_rollback_obedient; [by apply keeps_effect|intros _; apply replace_stored|done].
Qed.

(** A terminal change of the journal last seen. *)
Lemma terminal_change_answered record disposition event :
  ur_phase record = match disposition with
                    | DispCurrent => PhCurrent | DispUpdated => PhSucceeded | DispCleanupPending => PhCleanupPending
                    end →
  answered (terminal_change record disposition event) (Some record).
Proof.
  intros Hp. unfold terminal_change, required_current, required_activation, answered, answers, hands_over.
  destruct disposition; [destruct (ur_current record) eqn:E|destruct (ur_activation record) eqn:E..]; simpl; eauto 10.
Qed.

Lemma replace_then_change j record revision disposition event :
  ur_phase record = match disposition with
                    | DispCurrent => PhCurrent | DispUpdated => PhSucceeded | DispCleanupPending => PhCleanupPending
                    end →
  obedient j (do! stored <- replace_record (W := Traced W) record revision in
              se_lift (terminal_change (vu_record stored) disposition event)) answered.
Proof.
  intros Hp. eapply obedient_bind; [apply replace_record_obedient| |simpl; auto].
  intros v j' [-> ->]. apply obedient_pure. by apply terminal_change_answered.
Qed.

Lemma prune_obedient v (first_attempt : bool) :
  ur_phase (vu_record v) = (if first_attempt then PhCommitted else PhCleanupPending) →
  obedient (Some (vu_record v)) (prune (W := Traced W) v first_attempt) answered.
Proof.
  intros Hp. apply obedient_required; [intros activation Ha|done]. cbv zeta.
  eapply obedient_catch; [apply keeps_effect; [done|]|..].
  - simpl. split_and!; [destruct first_attempt; auto|done|by exists activation].
  - intros _ ? ->. by apply replace_then_change.
  - intros error ? ->. destruct first_attempt.
    + apply obedient_lift; [|unfold failure_description; intros e; repeat case_match; try done; by intros [= <-]].
      intros failure _. by apply replace_then_change.
    + apply obedient_pure. by apply terminal_change_answered.
Qed.

Lemma complete_current_obedient v :
  ur_phase (vu_record v) = PhPrepared → installations_are_equal (vu_record v) = Ok true →
  obedient (Some (vu_record v)) (complete_current (W := Traced W) v) answered.
Proof.
  intros Hp He. unfold installations_are_equal, required_current, required_prepared in He.
  apply result_bind_Ok in He as (c & Hc & He). apply result_bind_Ok in He as (p & Hpr & He).
  apply ok_or_Ok in Hc, Hpr. injection He as He. apply bool_decide_eq_true in He.
  apply obedient_required; [intros prepared Hq|done]. simplify_eq.
  apply or_rollback_obedient; [apply keeps_effect; [done|simpl; auto]|intros _|done].
  apply obedient_required; [intros current _|done]. by apply replace_then_change.
Qed.
(** ** Whole updates *)

Definition stepped (r : result CoreUpdateError (VersionedCoreUpdateRecord + CoreUpdateChange))
    (j : option CoreUpdateRecord) : Prop :=
  match r with
  | Ok (inl v) => j = Some (vu_record v)
  | Ok (inr change) => answered (Ok change) j
  | Err e => failed e j
  end.

Lemma go_on_obedient j (c : UM VersionedCoreUpdateRecord) : obedient j c stored → obedient j (go_on c) stepped.
Proof.
  intros Hc. eapply obedient_bind; [exact Hc| |done]. intros v j' ->. by apply (obedient_pure _ (Ok (inl v))).
Qed.
Lemma return_obedient j (c : UM CoreUpdateChange) : obedient j c answered → obedient j (return_with c) stepped.
Proof.
  intros Hc. eapply obedient_bind; [exact Hc| |done]. intros v j' Ha. by apply (obedient_pure _ (Ok (inr v))).
Qed.

Lemma update_step_obedient v : obedient (Some (vu_record v)) (update_step (W := Traced W) readiness v) stepped.
Proof.
  unfold update_step. destruct (ur_phase (vu_record v)) eqn:Hp.
  - by apply go_on_obedient, prepare_obedient.
  - apply obedient_lift.
    + intros [] He; [by apply return_obedient, complete_current_obedient|].
      by apply go_on_obedient, snapshot_services_obedient.
    + unfold installations_are_equal, required_current, required_prepared. intros e.
      destruct (ur_current _), (ur_prepared _); intros [= <-]; simpl; auto.
  - by apply go_on_obedient, activate_obedient.
  - by apply go_on_obedient, rebind_services_obedient.
  - by apply go_on_obedient, verify_services_obedient.
  - by apply go_on_obedient, commit_obedient.
  - by apply return_obedient, prune_obedient.
  - apply return_obedient. eapply obedient_weaken; [by apply complete_rollback_obedient|]. by intros [|].
  - apply return_obedient, obedient_pure. by apply terminal_change_answered.
  - by apply return_obedient, prune_obedient.
  - apply return_obedient, obedient_pure. by apply terminal_change_answered.
  - apply obedient_required; [intros f Hf|done]. apply (obedient_pure _ (Err (UpRolledBack f))).
    unfold stepped, failed. naive_solver.
  - apply obedient_required; [intros f Hf|done]. apply (obedient_pure _ (Err (UpRecoveryRequired f))).
    unfold stepped, failed. naive_solver.
Qed.

Lemma run_update_obedient v : obedient (Some (vu_record v)) (run_update (W := Traced W) readiness v) answered.
Proof.
  unfold run_update. eapply (obedient_bind _ _ stepped); [|intros [v'|change] j Hj|done].
  - generalize update_fuel. intros fuel. revert v. induction fuel as [|fuel IH]; intros v; cbn [iterate].
    + by apply (obedient_pure _ (Ok (inl v))).
    + eapply obedient_bind; [apply update_step_obedient| |done].
      intros [v'|change] j Hj; [simpl in Hj; subst j; apply IH|]. by apply (obedient_pure _ (Ok (inr change))).
  - apply (obedient_pure _ (Err _)). simpl. auto.
  - by apply (obedient_pure _ (Ok change)).
Qed.

(** Opening a journal leaves it as the one last seen. *)
Definition opened (r : result CoreUpdateError VersionedCoreUpdateRecord) (j : option CoreUpdateRecord) : Prop :=
  match r with Ok v => j = Some (vu_record v) | Err e => ¬ is_outcome e end.

Lemma same_request_obedient v version :
  obedient (Some (vu_record v))
    (run! se_lift (require_same_request (vu_record v) version) in se_ret (S := Traced W) v) opened.
Proof.
  apply obedient_lift; [intros [] _; by apply (obedient_pure _ (Ok v))|].
  unfold require_same_request. intros e. destruct (negb _); [|done]. intros [= <-].
  unfold opened, is_outcome. naive_solver.
Qed.

Lemma open_record_obedient key version :
  obedient None (open_record (W := Traced W) key version) opened.
Proof.
  unfold open_record. eapply obedient_bind; [apply read_record_obedient| |done].
  intros [v|] j Hj; simpl in Hj; subst j; [apply same_request_obedient|].
  apply obedient_lift.
  2:{ unfold update_identity. intros e. case_match; [done|]. intros [= <-]. unfold opened, is_outcome. naive_solver. }
  intros identity _. apply obedient_lift.
  2:{ intros e He. simpl. unfold CoreUpdateRecord_requested, CoreUpdateRecord_restore, update_identity in He.
      unfold is_outcome. repeat (case_match; simpl in He); naive_solver. }
  intros requested Hq.
  assert (obedient None (update_create (W := Traced W) requested) (λ r j',
    match r with Ok v => j' = Some (vu_record v) | Err _ => j' = None end)) as Hcreate.
  { intros w t r w' t' Hr. unfold update_create, traced_store, recording in Hr. simpl in Hr.
    destruct (update_create requested w) as [r1 w1]. injection Hr as <- <- <-. exists (seen r1). by destruct r1. }
  eapply obedient_catch; [exact Hcreate|..].
  - intros v j Hj. by apply require_store_result_obedient.
  - intros error j _. destruct (bool_decide _); [|by apply store_fails].
    eapply obedient_bind; [apply read_record_obedient| |done].
    intros [v|] j' Hj; simpl in Hj.
    + subst j'. apply obedient_lift; [intros v' [= <-]; apply same_request_obedient|done].
    + apply obedient_lift; [done|]. intros e [= <-]. unfold opened, is_outcome. naive_solver.
Qed.

(** An update ended as its journal says, or was refused admission. *)
Definition concluded (r : result CoreUpdateError CoreUpdateChange) (j : option CoreUpdateRecord) : Prop :=
  answered r j ∨ ∃ e id (w w' : W), r = Err e ∧ admission_acquire (L := L) id w = (Err e, w').

Lemma lifecycle_update_obedient key version :
  obedient None (lifecycle_update (W := Traced W) (L := L) readiness key version) concluded.
Proof.
  assert (∀ e j, failed e j → concluded (Err e) j) as Hf by (intros; by left).
  unfold lifecycle_update. eapply obedient_bind; [apply open_record_obedient| |simpl; auto].
  intros v j Hj. simpl in Hj. subst j. cbv zeta.
  destruct (needs_no_admission _).
  { eapply obedient_weaken; [apply run_update_obedient|]. intros; by left. }
  eapply (obedient_catch _ _ (λ r j, j = Some (vu_record v) ∧
    ∀ e, r = Err e → ∃ id (w w' : W), admission_acquire (L := L) id w = (Err e, w'))).
  - intros w t r w' t' Hr. unfold admission_acquire, traced_admission, recording in Hr. simpl in Hr.
    destruct (admission_acquire _ w) as [r1 w1] eqn:H1. injection Hr as <- <- <-. exists [].
    rewrite app_nil_r. split_and!; [done..|]. intros e ->. eauto.
  - intros lease j [-> _] w t r w' t' Hr. unfold holding in Hr.
    destruct (run_update (W := Traced W) readiness v (w, t)) as [r1 [w1 t1]] eqn:H1. injection Hr as <- <- <-.
    apply run_update_obedient in H1 as (s & -> & ? & ?). exists s. split_and!; [done..|by left].
  - intros e j [-> He]. destruct (bool_decide _).
    + eapply obedient_weaken; [apply rollback_failure_obedient|]. intros [|]; simpl; [done|auto].
    + apply (obedient_pure _ (Err e)). right. destruct (He e eq_refl) as (id & w & w' & ?). eauto 6.
Qed.

Lemma manager_update_obedient ownership key version :
  obedient None (manager_update (W := Traced W) (L := L) readiness ownership key version) concluded.
Proof.
  destruct ownership; simpl; [apply lifecycle_update_obedient|apply (obedient_pure _ (Err _))..];
    left; unfold answered, failed; naive_solver.
Qed.

(** C21: whatever the store, the providers, the services and the clock do, every effect
    of an update happens while the journal last seen in the store accounts for it: the
    active pointer moves only after the snapshot of the services is journalled, services
    are rebound only after the activation is, nothing is pruned before the commit is,
    and compensation starts only from a journalled rollback. *)
Theorem update_writes_ahead ownership key version (w : W) :
  obeys None (manager_update (W := Traced W) (L := L) readiness ownership key version (w, [])).2.2.
Proof.
  destruct (manager_update _ _ _ _ _) as [r [w' t]] eqn:Hr.
  apply manager_update_obedient in Hr as (s & -> & Ho & _). exact Ho.
Qed.

(** C23: when no admission is refused with the outcome of an update, the answer of an
    update is what the journal last seen in the store says: an installation that is
    current or handed over in the matching terminal phase, or the recorded failure of a
    rollback. *)
Theorem update_answers_its_journal ownership key version (w : W) r w' t :
  (∀ id (w1 : W) e w2, admission_acquire (L := L) id w1 = (Err e, w2) → ¬ is_outcome e) →
  manager_update (W := Traced W) (L := L) readiness ownership key version (w, []) = (r, (w', t)) →
  answered r (last_journal None t).
Proof.
  intros Hlaw Hr. apply manager_update_obedient in Hr as (s & -> & _ & [Ha|(e & id & w1 & w2 & -> & Hadm')]);
    [done|]. simpl. apply not_outcome_failed. by eapply Hlaw.
Qed.
End order.
