(* ===== verification/UpdateArtifacts.v ===== *)
(** * Immutable Core installations and the active pointer

    [FilesystemCoreUpdateArtifactProvider] of
    [core/update/src/li_core_update_artifact_provider.rs]: the managed paths, the
    release manifest and its inventory, receipts, and the operations that stage a
    candidate and move the [current] link.  File operations and the candidate
    installer are classes over the world; [serde_json] is a class of its own. *)

From Stdlib Require Import String Ascii.
From S2P Require Import Prelude Values Text Database UpdateContract UpdateLifecycle.

(** ** Paths

    A path is the list of its components, which is how [Path] compares. *)

Inductive Component := RootDir | CurDir | ParentDir | Normal (name : string).
#[export] Instance Component_eq_dec : EqDecision Component.
Proof. solve_decision. Defined.
#[export] Instance Component_countable : Countable Component.
Proof.
  refine (inj_countable'
    (λ c, match c with RootDir => inl 0 | CurDir => inl 1 | ParentDir => inl 2 | Normal s => inr s end)
    (λ c, match c with inl 0 => RootDir | inl 1 => CurDir | inl _ => ParentDir | inr s => Normal s end) _).
  by intros [].
Defined.

Definition Path : Type := list Component.

(** [PathBuf::from]: repeated separators and inner current directories are dropped. *)
Definition path_component (text : string) : list Component :=
  if bool_decide (text = EmptyString) || bool_decide (text = "."%string) then []
  else if bool_decide (text = ".."%string) then [ParentDir] else [Normal text].
Definition path_of (text : string) : Path :=
  let parts := split_char "/" text in
  let head := match parts with
              | EmptyString :: _ :: _ => [RootDir]
              | "."%string :: _ => [CurDir]
              | _ => []
              end in
  head ++ (parts ≫= path_component).

Definition is_absolute (path : Path) : bool :=
  match path with RootDir :: _ => true | _ => false end.

(** [Path::join]: an absolute path replaces, an inner current directory is dropped. *)
Definition path_join (path : Path) (text : string) : Path :=
  if is_absolute (path_of text) then path_of text
  else path ++ match path with
               | [] => path_of text
               | _ => filter (λ c, c ≠ CurDir) (path_of text)
               end.

Definition path_parent (path : Path) : option Path :=
  match last path with
  | None | Some RootDir => None
  | Some _ => Some (removelast path)
  end.

(** [Path::strip_prefix] and [Path::starts_with]. *)
Fixpoint path_strip_prefix (prefix path : Path) : option Path :=
  match prefix, path with
  | [], _ => Some path
  | p :: prefix, c :: path => if decide (p = c) then path_strip_prefix prefix path else None
  | _, [] => None
  end.
Definition path_starts_with (path prefix : Path) : bool := is_some (path_strip_prefix prefix path).

(** ** Files *)

Definition CORE_RELEASE_MANIFEST_NAME : string := "li_core_release_manifest_v1.json".
Definition CORE_RELEASE_MANIFEST_SCHEMA_NAME : string := "li_core_release_manifest".
Definition CORE_RELEASE_MANIFEST_SCHEMA_VERSION : Z := 1.
Definition MAXIMUM_CORE_RELEASE_MANIFEST_BYTES : Z := 16 * 1024 * 1024.
Definition MAXIMUM_CORE_RELEASE_FILES : Z := 6.
Definition MAXIMUM_CORE_RELEASE_BYTES : Z := 1024 * 1024 * 1024.

(** The modes [0o700], [0o755], [0o555], [0o444], [0o555] and the mask [0o111]. *)
Definition PRIVATE_DIRECTORY_MODE : Z := 7 * 64.
Definition VERSION_DIRECTORY_MODE : Z := 7 * 64 + 5 * 8 + 5.
Definition IMMUTABLE_DIRECTORY_MODE : Z := 5 * 64 + 5 * 8 + 5.
Definition IMMUTABLE_FILE_MODE : Z := 4 * 64 + 4 * 8 + 4.
Definition IMMUTABLE_EXECUTABLE_MODE : Z := 5 * 64 + 5 * 8 + 5.
Definition EXECUTABLE_BITS : Z := 64 + 8 + 1.

Inductive CoreUpdatePathKind := KindMissing | KindDirectory | KindRegularFile | KindSymlink | KindOther.
Inductive CoreUpdateArtifactEntryKind := EntryDirectory | EntryRegularFile.
#[export] Instance CoreUpdateArtifactEntryKind_eq_dec : EqDecision CoreUpdateArtifactEntryKind.
Proof. solve_decision. Defined.

Record CoreUpdateArtifactEntry := {
  ae_relative_path : Path;
  ae_kind : CoreUpdateArtifactEntryKind;
  ae_mode : Z;
  ae_bytes : Z;
  ae_sha256 : option string;
}.
#[export] Instance CoreUpdateArtifactEntry_eq_dec : EqDecision CoreUpdateArtifactEntry.
Proof. solve_decision. Defined.

Definition artifact_io_error (reason : string) : CoreUpdateError := UpProvider "artifacts" reason.
Definition unsafe_layout_error : CoreUpdateError := UpProvider "artifacts" "installed Core layout is unsafe".

Definition is_normal (c : Component) : bool := match c with Normal _ => true | _ => false end.

Definition require_relative_path (path : Path) : result CoreUpdateError () :=
  if bool_decide (path = []) || is_absolute path || existsb (λ c, negb (is_normal c)) path
  then Err unsafe_layout_error else Ok ().

Definition require_absolute_normal_path (path : Path) : result CoreUpdateError () :=
  if negb (is_absolute path)
     || existsb (λ c, match c with CurDir | ParentDir => true | _ => false end) path
  then Err unsafe_layout_error else Ok ().

Definition normal_component_text (component : Component) : result CoreUpdateError string :=
  match component with
  | Normal value => if is_utf8 value then Ok value else Err unsafe_layout_error
  | _ => Err unsafe_layout_error
  end.

Definition entry_directory (relative_path : Path) (mode : Z) : result CoreUpdateError CoreUpdateArtifactEntry :=
  let? _ := require_relative_path relative_path in
  Ok {| ae_relative_path := relative_path; ae_kind := EntryDirectory; ae_mode := mode;
        ae_bytes := 0; ae_sha256 := None |}.
Definition entry_regular_file (relative_path : Path) (mode bytes : Z) (sha256 : string)
  : result CoreUpdateError CoreUpdateArtifactEntry :=
  let? _ := require_relative_path relative_path in
  Ok {| ae_relative_path := relative_path; ae_kind := EntryRegularFile; ae_mode := mode;
        ae_bytes := bytes; ae_sha256 := Some sha256 |}.

(** ** Release manifests *)

Record CoreReleaseFileRecord := { rf_bytes : Z; rf_release_mode : Z; rf_sha256 : string }.

Inductive CoreReleasePlatformIdentity := LinuxArm64 | LinuxX86_64 | MacosArm64.

Definition CoreReleasePlatformIdentity_parse (operating_system architecture : string)
  : result CoreUpdateError CoreReleasePlatformIdentity :=
  if bool_decide ((operating_system, architecture) = ("linux", "arm64")%string) then Ok LinuxArm64
  else if bool_decide ((operating_system, architecture) = ("linux", "x86_64")%string) then Ok LinuxX86_64
  else if bool_decide ((operating_system, architecture) = ("macos", "arm64")%string) then Ok MacosArm64
  else Err unsafe_layout_error.

Definition file_paths (platform : CoreReleasePlatformIdentity) : list string :=
  match platform with
  | LinuxArm64 | LinuxX86_64 =>
    ["bin/li_benchmark_worker"; "bin/li_core_setup"; "bin/li_gateway"; "bin/li_letsinfer";
     "bin/li_node"; "bin/li_watchdog"]%string
  | MacosArm64 =>
    ["bin/li_benchmark_worker"; "bin/li_core_setup"; "bin/li_gateway"; "bin/li_hardware_macos_probe";
     "bin/li_letsinfer"; "bin/li_node"]%string
  end.

Record CoreReleaseManifest := {
  rm_version : string;
  rm_platform : CoreReleasePlatformIdentity;
  rm_files : gmap Path CoreReleaseFileRecord;
}.

Record CoreReleaseFileDocument := { fd_path : string; fd_bytes : Z; fd_mode : Z; fd_sha256 : string }.
Record CoreReleaseManifestDocument := {
  md_schema_name : string;
  md_schema_version : Z;
  md_release_version : string;
  md_os : string;
  md_architecture : string;
  md_files : list CoreReleaseFileDocument;
}.

(** [serde_json]: a value of a text, the canonical text of a value, and the value read
    as the closed document. *)
Class ReleaseJson := {
  JsonValue : Type;
  json_from_slice : string → option JsonValue;
  json_to_vec : JsonValue → option string;
  json_from_value : JsonValue → option CoreReleaseManifestDocument;
}.

(** The loop over the files and the paths that the platform requires. *)
Fixpoint manifest_files (files : list (CoreReleaseFileDocument * string)) (total_bytes : Z)
    (records : gmap Path CoreReleaseFileRecord) : result CoreUpdateError (gmap Path CoreReleaseFileRecord) :=
  match files with
  | [] => Ok records
  | (record, expected_path) :: files =>
    if negb (bool_decide (fd_path record = expected_path)) then Err unsafe_layout_error
    else
      let relative := path_of (fd_path record) in
      let? _ := require_relative_path relative in
      if bool_decide (relative = path_of CORE_RELEASE_MANIFEST_NAME)
         || is_some (records !! relative) || (fd_bytes record =? 0)
         || negb (fd_mode record =? 7 * 64 + 5 * 8 + 5)
      then Err unsafe_layout_error
      else
        let? total_bytes := ok_or unsafe_layout_error (checked_add_u64 total_bytes (fd_bytes record)) in
        if MAXIMUM_CORE_RELEASE_BYTES <? total_bytes then Err unsafe_layout_error
        else
          let? sha256 := match Sha256Digest_parse (fd_sha256 record) with
                         | Ok sha256 => Ok sha256 | Err _ => Err unsafe_layout_error end in
          manifest_files files total_bytes
            (<[relative := {| rf_bytes := fd_bytes record; rf_release_mode := fd_mode record;
                              rf_sha256 := sha256 |}]> records)
  end.

Section manifest.
Context `{!ReleaseJson}.

Definition manifest_document (bytes : string) : result CoreUpdateError CoreReleaseManifestDocument :=
  let? value := ok_or unsafe_layout_error (json_from_slice bytes) in
  let? canonical := ok_or unsafe_layout_error (json_to_vec value) in
  if negb (bool_decide (canonical +:+ nl = bytes)) then Err unsafe_layout_error
  else ok_or unsafe_layout_error (json_from_value value).

Definition parse_core_release_manifest (bytes : string) : result CoreUpdateError CoreReleaseManifest :=
  let? document := manifest_document bytes in
  if negb (bool_decide (md_schema_name document = CORE_RELEASE_MANIFEST_SCHEMA_NAME))
     || negb (md_schema_version document =? CORE_RELEASE_MANIFEST_SCHEMA_VERSION)
  then Err unsafe_layout_error
  else
    let? version := match CoreVersion_parse (md_release_version document) with
                    | Ok version => Ok version | Err _ => Err unsafe_layout_error end in
    let? platform := CoreReleasePlatformIdentity_parse (md_os document) (md_architecture document) in
    let expected_paths := file_paths platform in
    if negb (length (md_files document) =? length expected_paths)%nat
       || (MAXIMUM_CORE_RELEASE_FILES <? Z.of_nat (length (md_files document)))
    then Err unsafe_layout_error
    else
      let? records := manifest_files (zip (md_files document) expected_paths) 0 ∅ in
      Ok {| rm_version := version; rm_platform := platform; rm_files := records |}.
End manifest.

(** ** Inventories *)

(** The loop over the observed entries: the files by path, and all paths. *)
Fixpoint collect_entries (entries : list CoreUpdateArtifactEntry)
    (files : gmap Path CoreUpdateArtifactEntry) (paths : gset Path)
  : result CoreUpdateError (gmap Path CoreUpdateArtifactEntry * gset Path) :=
  match entries with
  | [] => Ok (files, paths)
  | entry :: entries =>
    let? _ := require_relative_path (ae_relative_path entry) in
    if decide (ae_relative_path entry ∈ paths) then Err unsafe_layout_error
    else
      let paths := {[ae_relative_path entry]} ∪ paths in
      match ae_kind entry with
      | EntryDirectory =>
        if negb (ae_mode entry =? IMMUTABLE_DIRECTORY_MODE) || negb (ae_bytes entry =? 0)
           || is_some (ae_sha256 entry)
        then Err unsafe_layout_error else collect_entries entries files paths
      | EntryRegularFile => collect_entries entries (<[ae_relative_path entry := entry]> files) paths
      end
  end.

Definition installed_mode (record : CoreReleaseFileRecord) : Z :=
  if Z.land (rf_release_mode record) EXECUTABLE_BITS =? 0
  then IMMUTABLE_FILE_MODE else IMMUTABLE_EXECUTABLE_MODE.

(** One iteration of the final loop. *)
Definition matches_record (observed : option CoreUpdateArtifactEntry) (record : CoreReleaseFileRecord) : bool :=
  match observed with
  | None => false
  | Some observed =>
    (ae_mode observed =? installed_mode record) && (ae_bytes observed =? rf_bytes record)
    && bool_decide (ae_sha256 observed = Some (rf_sha256 record))
  end.

Definition bin_directory : Path := path_of "bin".
Definition manifest_path : Path := path_of CORE_RELEASE_MANIFEST_NAME.

(** The paths of a complete tree: [bin] and the file for each key, and the manifest. *)
Definition expected_paths (expected : gmap Path CoreReleaseFileRecord) : gset Path :=
  list_to_set ((map_to_list expected ≫= λ '(path, _), [bin_directory; path]) ++ [manifest_path]).

Definition verify_core_release_inventory (expected : gmap Path CoreReleaseFileRecord)
    (observed : list CoreUpdateArtifactEntry) (manifest_bytes : Z) (manifest_sha256 : string)
  : result CoreUpdateError () :=
  let? collected := collect_entries observed ∅ ∅ in
  let '(observed_files, observed_paths) := collected in
  let? manifest := ok_or unsafe_layout_error (observed_files !! manifest_path) in
  let observed_files := delete manifest_path observed_files in
  if negb (ae_mode manifest =? IMMUTABLE_FILE_MODE) || negb (ae_bytes manifest =? manifest_bytes)
     || negb (bool_decide (ae_sha256 manifest = Some manifest_sha256))
  then Err unsafe_layout_error
  else if negb (size observed_files =? size expected)%nat
          || negb (bool_decide (observed_paths = expected_paths expected))
  then Err unsafe_layout_error
  else if existsb (λ '(path, record), negb (matches_record (observed_files !! path) record))
            (map_to_list expected)
  then Err unsafe_layout_error
  else Ok ().

(** ** Receipts *)

Section receipts.
Context `{!Sha256}.

Definition artifact_receipt_id (domain : string) (fields : list string) : result CoreUpdateError string :=
  match Sha256Digest_parse (sha256_hex (digest_fields (domain :: fields))) with
  | Ok digest => Ok digest
  | Err _ => Err (UpInvalidContract "Core artifact receipt identity could not be derived")
  end.

Definition prepared_receipt_id (update_id : string) (installation : CoreInstallation)
  : result CoreUpdateError string :=
  artifact_receipt_id "li_core_update_prepared_v1"
    [update_id; ci_version installation; ci_source_identity installation].

Definition activation_receipt_id (update_id : string) (previous installation : CoreInstallation)
  : result CoreUpdateError string :=
  artifact_receipt_id "li_core_update_activated_v1"
    [update_id; ci_version previous; ci_source_identity previous;
     ci_version installation; ci_source_identity installation].

Definition digest_bytes (bytes : string) : result CoreUpdateError string :=
  match Sha256Digest_parse (sha256_hex bytes) with
  | Ok digest => Ok digest
  | Err _ => Err (UpInvalidContract "Core release identity could not be derived")
  end.
End receipts.

(** ** The provider *)

Class CoreUpdateArtifactIo (W : Type) := {
  io_path_kind : Path → SE W CoreUpdateError CoreUpdatePathKind;
  io_require_directory : Path → Z → SE W CoreUpdateError ();
  io_read_symlink : Path → SE W CoreUpdateError Path;
  io_read_regular_file : Path → Z → SE W CoreUpdateError string;
  io_inventory : Path → SE W CoreUpdateError (list CoreUpdateArtifactEntry);
  io_prepare_workspace : Path → SE W CoreUpdateError ();
  io_prepare_version_directory : Path → SE W CoreUpdateError ();
  io_install_immutable_tree : Path → Path → SE W CoreUpdateError ();
  io_replace_symlink : Path → Path → Path → Path → SE W CoreUpdateError ();
  io_sync_directory : Path → SE W CoreUpdateError ();
  io_remove_workspace : Path → SE W CoreUpdateError ();
}.

Record CoreUpdateCandidateRequest := {
  cr_update_id : string;
  cr_requested_version : option string;
  cr_current : CoreInstallation;
  cr_workspace : Path;
  cr_release_root : Path;
}.
Class CoreUpdateCandidateInstaller (W : Type) :=
  installer_prepare : CoreUpdateCandidateRequest → SE W CoreUpdateError CoreInstallation.

Record FilesystemCoreUpdateArtifactProvider := {
  fp_letsinfer_home : Path;
  fp_core_root : Path;
  fp_versions_root : Path;
  fp_staging_root : Path;
  fp_current_link : Path;
}.

Definition FilesystemCoreUpdateArtifactProvider_new (letsinfer_home : Path)
  : result CoreUpdateError FilesystemCoreUpdateArtifactProvider :=
  let? _ := require_absolute_normal_path letsinfer_home in
  if negb (is_some (path_parent letsinfer_home)) then Err unsafe_layout_error
  else
    let core_root := path_join letsinfer_home "core" in
    Ok {| fp_letsinfer_home := letsinfer_home; fp_core_root := core_root;
          fp_versions_root := path_join core_root "versions";
          fp_staging_root := path_join core_root "staging";
          fp_current_link := path_join core_root "current" |}.

Section provider.
Context {W : Type} `{!CoreUpdateArtifactIo W, !CoreUpdateCandidateInstaller W, !ReleaseJson, !Sha256}
  (p : FilesystemCoreUpdateArtifactProvider).
Abbreviation UM := (SE W CoreUpdateError).

Definition verify_core_native_tree (root : Path) (root_mode : Z) (installation : CoreInstallation) : UM () :=
  run! io_require_directory root root_mode in
  do! manifest_bytes <- io_read_regular_file (path_join root CORE_RELEASE_MANIFEST_NAME)
                          MAXIMUM_CORE_RELEASE_MANIFEST_BYTES in
  do! manifest_identity <- se_lift (digest_bytes manifest_bytes) in
  if negb (bool_decide (manifest_identity = ci_source_identity installation)) then se_fail unsafe_layout_error
  else
    do! manifest <- se_lift (parse_core_release_manifest manifest_bytes) in
    if negb (bool_decide (rm_version manifest = ci_version installation)) then se_fail unsafe_layout_error
    else
      do! observed <- io_inventory root in
      se_lift (verify_core_release_inventory (rm_files manifest) observed (str_len manifest_bytes)
                 manifest_identity).

Definition require_layout_roots : UM () :=
  run! io_require_directory (fp_letsinfer_home p) PRIVATE_DIRECTORY_MODE in
  run! io_require_directory (fp_core_root p) PRIVATE_DIRECTORY_MODE in
  io_require_directory (fp_versions_root p) VERSION_DIRECTORY_MODE.

Definition installation_path (installation : CoreInstallation) : Path :=
  path_join (path_join (fp_versions_root p) (ci_version installation)) (ci_source_identity installation).
Definition workspace_path (update_id : string) : Path := path_join (fp_staging_root p) update_id.
Definition staged_release_path (update_id : string) : Path := path_join (workspace_path update_id) "release".
Definition pointer_temporary_path (update_id : string) : Path :=
  path_join (fp_core_root p) (".current.li_core_update_" +:+ update_id +:+ ".tmp").

Definition installation_from_path (path : Path) : result CoreUpdateError CoreInstallation :=
  let? _ := require_absolute_normal_path path in
  let? relative := ok_or unsafe_layout_error (path_strip_prefix (fp_versions_root p) path) in
  match relative with
  | [version_component; identity_component] =>
    let? version_text := normal_component_text version_component in
    let? identity_text := normal_component_text identity_component in
    let? version := CoreVersion_parse version_text in
    let? source_identity := match Sha256Digest_parse identity_text with
                            | Ok identity => Ok identity | Err _ => Err unsafe_layout_error end in
    let installation := {| ci_version := version; ci_source_identity := source_identity |} in
    if negb (bool_decide (installation_path installation = path)) then Err unsafe_layout_error
    else Ok installation
  | _ => Err unsafe_layout_error
  end.

Definition verify_installation (root : Path) (installation : CoreInstallation) : UM () :=
  let installed := bool_decide (root = installation_path installation) in
  run! (if installed
        then
          do! version_root <- se_lift (ok_or unsafe_layout_error (path_parent root)) in
          io_require_directory version_root VERSION_DIRECTORY_MODE
        else if negb (path_starts_with root (fp_staging_root p)) then se_fail unsafe_layout_error
        else se_ret ()) in
  verify_core_native_tree root (if installed then IMMUTABLE_DIRECTORY_MODE else PRIVATE_DIRECTORY_MODE)
    installation.

Definition active_installation : UM CoreInstallation :=
  run! require_layout_roots in
  do! target <- io_read_symlink (fp_current_link p) in
  do! installation <- se_lift (installation_from_path target) in
  run! verify_installation target installation in
  se_ret installation.

Definition require_prepared_receipt (update_id : string) (prepared : PreparedCoreUpdate)
  : result CoreUpdateError () :=
  let? expected := prepared_receipt_id update_id (pu_installation prepared) in
  if negb (bool_decide (pu_receipt_id prepared = expected))
  then Err (UpInvalidContract "prepared Core receipt does not match its update identity")
  else Ok ().

Definition require_activation_receipt (update_id : string) (activation : ActivatedCoreUpdate)
  : result CoreUpdateError () :=
  let? expected := activation_receipt_id update_id (au_previous activation) (au_installation activation) in
  if negb (bool_decide (au_receipt_id activation = expected))
  then Err (UpInvalidContract "activated Core receipt does not match its update identity")
  else Ok ().

Definition require_candidate_material (update_id : string) (installation : CoreInstallation) : UM () :=
  let staged := staged_release_path update_id in
  do! kind <- io_path_kind staged in
  match kind with
  | KindDirectory => verify_installation staged installation
  | KindMissing => verify_installation (installation_path installation) installation
  | _ => se_fail unsafe_layout_error
  end.

Definition discard_workspace (update_id : string) (installation : CoreInstallation) : UM () :=
  let workspace := workspace_path update_id in
  do! kind <- io_path_kind workspace in
  match kind with
  | KindMissing => io_remove_workspace workspace
  | KindDirectory =>
    let staged := staged_release_path update_id in
    do! kind <- io_path_kind staged in
    run! match kind with
         | KindMissing => se_ret ()
         | KindDirectory => verify_installation staged installation
         | _ => se_fail unsafe_layout_error
         end in
    io_remove_workspace workspace
  | _ => se_fail unsafe_layout_error
  end.

(** [self.cleanup_failed_preparation(..); return Err(error)] *)
Definition cleanup_failed_preparation {A} (update_id : string) (error : CoreUpdateError) : UM A := λ w,
  let '(_, w) := io_remove_workspace (workspace_path update_id) w in (Err error, w).
Definition or_cleanup {X A} (update_id : string) (call : UM X) (k : X → UM A) : UM A := λ w,
  match call w with
  | (Ok x, w) => k x w
  | (Err error, w) => cleanup_failed_preparation update_id error w
  end.

Definition provider_prepare (update_id : string) (requested_version : option string)
    (current : CoreInstallation) : UM PreparedCoreUpdate :=
  do! active <- active_installation in
  if negb (bool_decide (active = current)) then se_fail (artifact_io_error "active Core changed before preparation")
  else
    let workspace := workspace_path update_id in
    or_cleanup update_id (io_prepare_workspace workspace) (λ _,
    let request := {| cr_update_id := update_id; cr_requested_version := requested_version;
                      cr_current := current; cr_workspace := workspace;
                      cr_release_root := staged_release_path update_id |} in
    or_cleanup update_id (installer_prepare request) (λ installation,
    if is_some_and requested_version (λ version, negb (bool_decide (version = ci_version installation)))
    then cleanup_failed_preparation update_id
           (UpInvalidContract "native installer returned a different requested Core version")
    else
      or_cleanup update_id (verify_installation (cr_release_root request) installation) (λ _,
      do! receipt <- se_lift (prepared_receipt_id update_id installation) in
      se_ret {| pu_receipt_id := receipt; pu_installation := installation |}))).

Definition provider_discard (update_id : string) (prepared : PreparedCoreUpdate) : UM () :=
  run! se_lift (require_prepared_receipt update_id prepared) in
  discard_workspace update_id (pu_installation prepared).

Definition provider_activate (update_id : string) (prepared : PreparedCoreUpdate)
    (current : CoreInstallation) : UM ActivatedCoreUpdate :=
  run! require_layout_roots in
  run! se_lift (require_prepared_receipt update_id prepared) in
  if bool_decide (pu_installation prepared = current)
  then se_fail (UpInvalidContract "Core activation cannot replace an installation with itself")
  else
    run! verify_installation (installation_path current) current in
    run! require_candidate_material update_id (pu_installation prepared) in
    let source := staged_release_path update_id in
    let destination := installation_path (pu_installation prepared) in
    do! version_root <- se_lift (ok_or unsafe_layout_error (path_parent destination)) in
    run! io_prepare_version_directory version_root in
    do! kind <- io_path_kind destination in
    run! match kind with
         | KindMissing =>
           do! kind <- io_path_kind source in
           match kind with
           | KindDirectory => io_install_immutable_tree source destination
           | _ => se_fail unsafe_layout_error
           end
         | KindDirectory => se_ret ()
         | _ => se_fail unsafe_layout_error
         end in
    run! verify_installation destination (pu_installation prepared) in
    do! active <- active_installation in
    run! (if bool_decide (active = current)
          then io_replace_symlink (fp_current_link p) (installation_path current) destination
                 (pointer_temporary_path update_id)
          else if negb (bool_decide (active = pu_installation prepared))
          then se_fail (artifact_io_error "active Core changed concurrently")
          else se_ret ()) in
    do! receipt <- se_lift (activation_receipt_id update_id current (pu_installation prepared)) in
    se_lift (ActivatedCoreUpdate_new receipt current (pu_installation prepared)).

Definition provider_rollback (update_id : string) (activation : ActivatedCoreUpdate) : UM () :=
  run! require_layout_roots in
  run! se_lift (require_activation_receipt update_id activation) in
  let previous_path := installation_path (au_previous activation) in
  let candidate_path := installation_path (au_installation activation) in
  run! verify_installation previous_path (au_previous activation) in
  run! verify_installation candidate_path (au_installation activation) in
  do! active <- active_installation in
  run! (if bool_decide (active = au_installation activation)
        then io_replace_symlink (fp_current_link p) candidate_path previous_path
               (pointer_temporary_path update_id)
        else if negb (bool_decide (active = au_previous activation))
        then se_fail (artifact_io_error "active Core changed concurrently")
        else se_ret ()) in
  run! io_sync_directory (fp_core_root p) in
  discard_workspace update_id (au_installation activation).

Definition provider_commit (update_id : string) (activation : ActivatedCoreUpdate) : UM () :=
  run! require_layout_roots in
  run! se_lift (require_activation_receipt update_id activation) in
  do! active <- active_installation in
  if negb (bool_decide (active = au_installation activation))
  then se_fail (artifact_io_error "candidate Core is not active at commit")
  else
    run! io_sync_directory (fp_core_root p) in
    discard_workspace update_id (au_installation activation).

Definition filesystem_artifacts : CoreUpdateArtifactProvider W := {|
  artifacts_current _ := active_installation;
  artifacts_prepare := provider_prepare;
  artifacts_discard := provider_discard;
  artifacts_activate := provider_activate;
  artifacts_rollback := provider_rollback;
  artifacts_commit := provider_commit;
|}.
End provider.
