(* ===== verification/UpdateOutcome.v ===== *)
(** * A handoff happens or does not

    Over providers that keep their promises about the active installation, an update
    that answers with an installation left that one active, and an update that answers
    that it was rolled back left the previous one active, from every journal that
    agrees with the active installation. *)

From Stdlib Require Import String.
From S2P Require Import Prelude Values Text Database UpdateContract UpdateServices UpdateLifecycle.
From S2P Require Import UpdateOrder UpdateArtifacts.

(** ** The active pointer during a handoff

    What the artifact provider does to the [current] link, over file operations that
    leave it alone unless asked to replace it, and what a whole update does to the
    active installation over any provider that keeps those promises. *)

(** A lower-case SHA-256 digest, which update identities are. *)
Definition digest_text (id : string) : Prop := is_lower_hex id 64 = true.

(** ** Runs that leave a pointer alone *)

Section still.
Context {W : Type} (pointer : W → Path).

Definition still {E A} (c : SE W E A) : Prop := ∀ w r w', c w = (r, w') → pointer w' = pointer w.

Lemma still_lift {E A} (r : result E A) : still (se_lift r).
Proof. by intros w r' w' [= _ <-]. Qed.
Lemma still_fail {E A} (e : E) : still (@se_fail W E A e).
Proof. by intros w r' w' [= _ <-]. Qed.
Lemma still_ret {E A} (a : A) : still (@se_ret W E A a).
Proof. by intros w r' w' [= _ <-]. Qed.
Lemma still_bind {E A B} (c : SE W E A) (k : A → SE W E B) :
  still c → (∀ a, still (k a)) → still (se_bind c k).
Proof.
  intros Hc Hk w r w' [(a & w1 & H1 & H2)|(e & H1 & ->)]%se_bind_inv; [|by eapply Hc].
  rewrite (Hk _ _ _ _ H2). by eapply Hc.
Qed.
Lemma still_if {E A} (b : bool) (c1 c2 : SE W E A) : still c1 → still c2 → still (if b then c1 else c2).
Proof. by destruct b. Qed.
Lemma still_map_err {E E' A} (f : E → E') (c : SE W E A) : still c → still (se_map_err f c).
Proof.
  intros Hc w r w'. unfold se_map_err. destruct (c w) as [[a|e] w1] eqn:H1; intros [= _ <-]; by eapply Hc.
Qed.
Lemma still_iterate {E I B} (body : I → SE W E (I + B)) fuel i :
  (∀ i, still (body i)) → still (iterate fuel body i).
Proof.
  intros Hb. revert i. induction fuel as [|fuel IH]; intros i; cbn [iterate]; [apply still_ret|].
  apply still_bind; [apply Hb|]. intros [i'|b]; [apply IH|apply still_ret].
Qed.

(** The answer of a run and where the pointer was and is. *)
Definition moves {E A} (c : SE W E A) (Q : result E A → Path → Path → Prop) : Prop :=
  ∀ w r w', c w = (r, w') → Q r (pointer w) (pointer w').

Lemma moves_after {E A B} (c : SE W E A) (k : A → SE W E B) (Q : result E B → Path → Path → Prop) :
  still c → (∀ e x, Q (Err e) x x) → (∀ a, moves (k a) Q) → moves (se_bind c k) Q.
Proof.
  intros Hc He Hk w r w' [(a & w1 & H1 & H2)|(e & H1 & ->)]%se_bind_inv; apply Hc in H1.
  - rewrite <- H1. by apply (Hk a).
  - rewrite H1. apply He.
Qed.
Lemma moves_still {E A} (c : SE W E A) (Q : result E A → Path → Path → Prop) :
  still c → (∀ r x, Q r x x) → moves c Q.
Proof. intros Hc HQ w r w' ->%Hc. apply HQ. Qed.
Lemma moves_fail {E A} (e : E) (Q : result E A → Path → Path → Prop) :
  (∀ x, Q (Err e) x x) → moves (se_fail e) Q.
Proof. intros HQ w r w' [= <- <-]. apply HQ. Qed.
Lemma moves_if {E A} (b : bool) (c1 c2 : SE W E A) Q : moves c1 Q → moves c2 Q → moves (if b then c1 else c2) Q.
Proof. by destruct b. Qed.
Lemma moves_weaken {E A} (c : SE W E A) (Q Q' : result E A → Path → Path → Prop) :
  moves c Q → (∀ r x y, Q r x y → Q' r x y) → moves c Q'.
Proof. intros Hc HQ w r w' Hr. by apply HQ, Hc. Qed.
End still.

Create HintDb still.
#[export] Hint Resolve still_lift still_fail still_ret : still.
(** Split a run into its calls. *)
Ltac stills := repeat first
  [ lazymatch goal with |- still _ _ => fail | |- ∀ _, _ => intros ?; cbv beta end
  | progress cbv zeta | solve [eauto with still] | apply still_if | apply still_map_err
  | (apply still_bind; [|intros ?]) | case_match ].

(** ** The artifact provider *)

Section provider.
Context {W : Type} `{Hio : !CoreUpdateArtifactIo W, Hins : !CoreUpdateCandidateInstaller W,
  Hjson : !ReleaseJson, Hsha : !Sha256} (p : FilesystemCoreUpdateArtifactProvider) (pointer : W → Path).
Abbreviation still := (still pointer).

(** File operations leave the link alone, except that it can be read and replaced as a
    whole; the installer does not move it. *)
Class PointerLaws : Prop := {
  still_path_kind path : still (io_path_kind path);
  still_require_directory path mode : still (io_require_directory path mode);
  still_read_symlink path : still (io_read_symlink path);
  still_read_regular_file path maximum : still (io_read_regular_file path maximum);
  still_inventory path : still (io_inventory path);
  still_prepare_workspace path : still (io_prepare_workspace path);
  still_prepare_version_directory path : still (io_prepare_version_directory path);
  still_install id destination :
    digest_text id → still (io_install_immutable_tree (staged_release_path p id) destination);
  still_sync path : still (io_sync_directory path);
  still_remove_workspace id : digest_text id → still (io_remove_workspace (workspace_path p id));
  still_installer request : still (installer_prepare request);
  law_read_link w target w' : io_read_symlink (fp_current_link p) w = (Ok target, w') → target = pointer w;
  law_replace_link expected destination id w r w' : digest_text id →
    io_replace_symlink (fp_current_link p) expected destination (pointer_temporary_path p id) w = (r, w') →
    match r with Ok _ => pointer w' = destination | Err _ => pointer w' = pointer w end;
  law_digest message : digest_text (sha256_hex message);
}.
Context `{!PointerLaws}.

Hint Resolve still_path_kind still_require_directory still_read_symlink still_read_regular_file
  still_inventory still_prepare_workspace still_prepare_version_directory still_install still_sync
  still_remove_workspace still_installer : still.

Lemma still_verify root installation : still (verify_installation p root installation).
Proof. unfold verify_installation, verify_core_native_tree. stills. Qed.
Lemma still_roots : still (require_layout_roots p).
Proof. unfold require_layout_roots. stills. Qed.
Hint Resolve still_verify still_roots : still.
Lemma still_active : still (active_installation p).
Proof. unfold active_installation. stills. Qed.
Lemma still_material id installation : still (require_candidate_material p id installation).
Proof. unfold require_candidate_material. stills. Qed.
Lemma still_discard_workspace id installation : digest_text id → still (discard_workspace p id installation).
Proof. intros Hid. unfold discard_workspace. stills. Qed.
Hint Resolve still_active still_material still_discard_workspace : still.

Lemma still_cleanup {A} id e : digest_text id → still (cleanup_failed_preparation p (A := A) id e).
Proof.
  intros Hid w r w'. unfold cleanup_failed_preparation. destruct (io_remove_workspace _ _) as [r1 w1] eqn:H1.
  intros [= _ <-]. by eapply still_remove_workspace.
Qed.
Lemma still_or_cleanup {X A} id (c : SE W CoreUpdateError X) (k : X → SE W CoreUpdateError A) :
  digest_text id → still c → (∀ x, still (k x)) → still (or_cleanup p id c k).
Proof.
  intros Hid Hc Hk w r w'. unfold or_cleanup. destruct (c w) as [[x|e] w1] eqn:H1; intros H2;
    apply Hc in H1 as <-; [by eapply Hk|by eapply still_cleanup].
Qed.

Lemma active_installation_Ok w i w' :
  active_installation p w = (Ok i, w') → pointer w = installation_path p i ∧ pointer w' = pointer w.
Proof.
  intros Hx. split; [|by eapply still_active]. unfold active_installation in Hx.
  apply se_bind_Ok in Hx as ([] & w1 & H1 & Hx). apply se_bind_Ok in Hx as (target & w2 & H2 & Hx).
  apply still_roots in H1. rewrite <- H1. apply law_read_link in H2 as ->.
  apply se_bind_Ok in Hx as (i' & w3 & H3 & Hx). apply se_lift_Ok in H3 as [H3 <-].
  apply se_bind_Ok in Hx as ([] & w4 & _ & Hx). apply se_ret_Ok in Hx as [-> _].
  unfold installation_from_path in H3.
  apply result_bind_Ok in H3 as (? & _ & H3). apply result_bind_Ok in H3 as (relative & _ & H3).
  destruct relative as [|c1 [|c2 [|]]]; try done.
  do 4 apply result_bind_Ok in H3 as (? & _ & H3).
  destruct (bool_decide _) eqn:E in H3; [|done]. injection H3 as <-. by apply bool_decide_eq_true in E.
Qed.

Lemma prepare_still id version current : digest_text id → still (provider_prepare p id version current).
Proof.
  intros Hid. unfold provider_prepare. stills. apply still_or_cleanup; [done|stills|intros _].
  apply still_or_cleanup; [done|stills|intros installation]. apply still_if; [by apply still_cleanup|].
  apply still_or_cleanup; [done|stills|intros _]. stills.
Qed.

Lemma discard_still id prepared : digest_text id → still (provider_discard p id prepared).
Proof. intros Hid. unfold provider_discard. stills. Qed.

Lemma commit_still id activation : digest_text id → still (provider_commit p id activation).
Proof. intros Hid. unfold provider_commit. stills. Qed.

(** The link is moved from one installation to another unless it is there already. *)
Definition moved (from to : CoreInstallation) {A} (r : result CoreUpdateError A) (x y : Path) : Prop :=
  match r with
  | Ok _ => y = installation_path p to ∧ (x = installation_path p from ∨ x = installation_path p to)
  | Err _ => y = x
  end.

Lemma moves_active {A} (k : CoreInstallation → SE W CoreUpdateError A) Q :
  (∀ e x, Q (Err e) x x) →
  (∀ i w r w', pointer w = installation_path p i → k i w = (r, w') → Q r (pointer w) (pointer w')) →
  moves pointer (se_bind (active_installation p) k) Q.
Proof.
  intros He Hk w r w' [(i & w1 & Ha & Hr)|(e & Ha & ->)]%se_bind_inv.
  - apply active_installation_Ok in Ha as [Hi Hw]. rewrite <- Hw in Hi |- *. by eapply Hk.
  - apply still_active in Ha. rewrite Ha. apply He.
Qed.

Lemma moves_link id from to active w r w' :
  digest_text id → pointer w = installation_path p active →
  (if bool_decide (active = from)
   then io_replace_symlink (fp_current_link p) (installation_path p from) (installation_path p to)
          (pointer_temporary_path p id)
   else if negb (bool_decide (active = to))
   then se_fail (artifact_io_error "active Core changed concurrently")
   else se_ret ()) w = (r, w') →
  moved from to r (pointer w) (pointer w').
Proof.
  intros Hid Hw. case_bool_decide as Hf; [subst from|case_bool_decide as Ht; [subst to|]]; simpl.
  - intros Hr. apply law_replace_link in Hr; [|done]. destruct r; simpl; auto.
  - intros [= <- <-]. simpl. auto.
  - by intros [= <- <-].
Qed.

Lemma receipt_parses message : Sha256Digest_parse (sha256_hex message) = Ok (sha256_hex message).
Proof. unfold Sha256Digest_parse. apply validate_Ok. split; [apply law_digest|done]. Qed.

(** Activation moves the link to the candidate when it succeeds, and does not move it
    when it fails. *)
Lemma activate_moves id prepared current :
  digest_text id → moves pointer (provider_activate p id prepared current) (λ r x y,
    moved current (pu_installation prepared) r x y ∧
    ∀ a, r = Ok a → au_previous a = current ∧ au_installation a = pu_installation prepared).
Proof.
  intros Hid. unfold provider_activate.
  do 2 (apply moves_after; [stills|done|intros ?]). case_bool_decide as Hne; [by apply moves_fail|].
  do 2 (apply moves_after; [stills|done|intros ?]). cbv zeta.
  do 5 (apply moves_after; [stills|done|intros ?]).
  apply moves_active; [done|]. intros active w r w' Hw Hr.
  apply se_bind_inv in Hr as [([] & w1 & Hm & Hr)|(e & Hm & ->)]; apply moves_link in Hm; [|done..].
  unfold activation_receipt_id, artifact_receipt_id in Hr. rewrite receipt_parses in Hr.
  cbn in Hr. unfold ActivatedCoreUpdate_new in Hr. rewrite bool_decide_false in Hr by congruence.
  injection Hr as <- <-. split; [exact Hm|]. by intros ? [= <-].
Qed.

(** A rollback moves the link back when it succeeds; a failed one has left it or moved it back. *)
Lemma rollback_moves id activation :
  digest_text id → moves pointer (provider_rollback p id activation) (λ r x y,
    match r with
    | Ok _ => moved (au_installation activation) (au_previous activation) r x y
    | Err _ => y = x ∨ y = installation_path p (au_previous activation)
    end).
Proof.
  intros Hid. unfold provider_rollback. do 2 (apply moves_after; [stills|auto|intros ?]). cbv zeta.
  do 2 (apply moves_after; [stills|auto|intros ?]).
  apply moves_active; [auto|]. intros active w r w' Hw Hr.
  apply se_bind_inv in Hr as [([] & w1 & Hm & Hr)|(e & Hm & ->)]; apply moves_link in Hm; [|done|done| |done|done].
  2:{ by left. }
  assert (still (run! io_sync_directory (fp_core_root p) in discard_workspace p id (au_installation activation)))
    as Hs by stills.
  apply Hs in Hr. simpl in Hm. destruct Hm as [Hm Hx]. rewrite Hr, Hm. destruct r; simpl; auto.
Qed.
End provider.

Section outcome.
Context {W L : Type} `{Hstore : !CoreUpdateStore W, Hadm : !CoreUpdateAdmissionProvider W L,
  Hart : !CoreUpdateArtifactProvider W, Hsvc : !CoreUpdateServiceProvider W,
  Hprune : !CoreUpdatePruneProvider W, Hclock : !CoreUpdateReadinessClock W, Hsha : !Sha256}
  (readiness : CoreUpdateReadinessPolicy) (active : W → Path) (location : CoreInstallation → Path).
Abbreviation still := (still active).
Abbreviation UM := (SE W CoreUpdateError).

(** Capabilities other than the artifacts leave the active installation alone. *)
Class BystanderLaws : Prop := {
  still_read key : still (update_read key);
  still_create record : still (update_create record);
  still_replace record revision : still (update_replace record revision);
  still_acquire id : still (admission_acquire (L := L) id);
  law_refusal id w e w' : admission_acquire (L := L) id w = (Err e, w') → ¬ is_outcome e;
  still_drop (lease : L) w : active (admission_drop lease w) = active w;
  still_context : still provider_context;
  still_snapshot id : still (snapshot_record id);
  still_store_snapshot sn : still (store_snapshot_record sn);
  still_observe service : still (observe_service service);
  still_rebind service mode i b : still (rebind_service service mode i b);
  still_ready service mode i b timeout : still (service_is_ready_with_timeout service mode i b timeout);
  still_restore state i : still (restore_service state i);
  still_prune id i : still (prune_provider id i);
  still_now : still monotonic_milliseconds;
  still_wait n : still (readiness_wait n);
}.

(** What the artifacts promise: only activation and rollback move the active pointer,
    completely or not at all. *)
Class HandoffLaws : Prop := {
  still_current id : still (artifacts_current id);
  law_current id w c w' : artifacts_current id w = (Ok c, w') → active w = location c;
  still_prepare id version c : digest_text id → still (artifacts_prepare id version c);
  still_discard id prepared : digest_text id → still (artifacts_discard id prepared);
  still_commit id a : digest_text id → still (artifacts_commit id a);
  law_activate id prepared c w r w' : digest_text id → artifacts_activate id prepared c w = (r, w') →
    match r with
    | Ok a => au_previous a = c ∧ au_installation a = pu_installation prepared ∧
              active w' = location (pu_installation prepared)
    | Err _ => active w' = active w
    end;
  law_rollback id a w r w' : digest_text id → artifacts_rollback id a w = (r, w') →
    match r with
    | Ok _ => active w' = location (au_previous a)
    | Err _ => active w' = active w ∨ active w' = location (au_previous a)
    end;
}.
Context `{Hby : !BystanderLaws, Hhand : !HandoffLaws}.

Hint Resolve still_read still_create still_replace still_acquire still_context still_snapshot
  still_store_snapshot still_observe still_rebind still_ready still_restore still_prune still_now
  still_wait still_current still_prepare still_discard still_commit : still.

(** ** Bystanders *)

Lemma still_read_record key : still (read_record key).
Proof. unfold read_record. stills. Qed.
Hint Resolve still_read_record : still.
Lemma still_replace_record record revision : still (replace_record record revision).
Proof.
  intros w r w'. unfold replace_record. destruct (update_replace _ _ _) as [[stored|e] w1] eqn:E; intros Hr;
    apply still_replace in E as <-; (eapply (still_bind active); [..|exact Hr]); stills.
Qed.
Hint Resolve still_replace_record : still.
Lemma still_open_record key version : still (open_record key version).
Proof.
  unfold open_record. apply still_bind; [stills|]. intros [v|]; [stills|].
  do 2 (apply still_bind; [stills|intros ?]). intros w r w'.
  destruct (update_create _ _) as [[stored|e] w1] eqn:E; intros Hr; apply still_create in E as <-;
    revert Hr; [apply (still_bind active); stills|]. destruct (bool_decide _); [|by intros [= _ <-]].
  apply (still_bind active); stills.
Qed.

Lemma still_required id snapshot : still (services_required_snapshot id snapshot).
Proof. unfold services_required_snapshot. stills. Qed.
Hint Resolve still_required : still.
Lemma still_services_snapshot id c : still (services_snapshot id c).
Proof.
  assert (∀ l, still (observe_services l)) as Ho
    by (induction l; cbn [observe_services]; stills).
  unfold services_snapshot. stills.
Qed.
Lemma still_services_rebind id i snapshot : still (services_rebind id i snapshot).
Proof.
  assert (∀ c l, still (rebind_all c i l)) as Ho by (induction l; cbn [rebind_all]; stills).
  unfold services_rebind. stills.
Qed.
Lemma still_services_verify id i snapshot : still (services_verify readiness id i snapshot).
Proof.
  assert (∀ c d l last, still (observe_readiness c i d l last)) as Ho
    by (induction l; intros; cbn [observe_readiness]; stills).
  unfold services_verify. apply still_bind; [stills|intros record]. apply still_bind; [stills|intros started].
  apply still_bind; [stills|intros deadline]. apply still_bind; [|intros [?|[]]; stills].
  apply still_iterate. intros progress. unfold verify_round, readiness_observation. stills.
Qed.
Lemma still_services_restore id c snapshot : still (services_restore id c snapshot).
Proof.
  assert (∀ l b, still (restore_all c l b)) as Ho.
  { induction l as [|s l IH]; intros b; cbn [restore_all]; [stills|]. intros w r w'.
    destruct (restore_service s c w) as [r1 w1] eqn:E. apply still_restore in E as <-. apply IH. }
  unfold services_restore. stills.
Qed.
Hint Resolve still_services_snapshot still_services_rebind still_services_verify still_services_restore : still.

(** ** Journals that agree with the active installation *)

Definition agrees (record : CoreUpdateRecord) (a : Path) : Prop :=
  digest_text (ur_update_id record) ∧
  match ur_phase record with
  | PhRequested => ur_current record = None ∧ ur_prepared record = None ∧ ur_activation record = None
  | PhPrepared | PhServicesSnapshotted =>
    ur_activation record = None ∧ ∃ c, ur_current record = Some c ∧ a = location c
  | PhActivated | PhServicesRebound | PhVerified | PhCommitted | PhSucceeded | PhCleanupPending =>
    ∃ activation, ur_activation record = Some activation ∧ a = location (au_installation activation)
  | PhCurrent => ∃ c, ur_current record = Some c ∧ a = location c
  | PhRollingBack =>
    match ur_activation record with
    | Some activation => a = location (au_previous activation) ∨ a = location (au_installation activation)
    | None => True
    end
  | PhRolledBack =>
    match ur_activation record with Some activation => a = location (au_previous activation) | None => True end
  | PhRecoveryRequired => True
  end.

(** Where a rollback leaves the active pointer. *)
Definition restore_point (record : CoreUpdateRecord) (a : Path) : Path :=
  match ur_activation record with Some activation => location (au_previous activation) | None => a end.

(** *** Compensation *)

Lemma compensate_restores record w w' :
  digest_text (ur_update_id record) → compensate record w = (false, w') →
  active w' = restore_point record (active w).
Proof.
  intros Hid. unfold compensate, restore_point. destruct (ur_activation record) as [a|].
  - destruct (match ur_current record with Some _ => _ | None => _ end) as [restored w1] eqn:H1.
    destruct (artifacts_rollback _ _ w1) as [r w2] eqn:H2. intros [= Hb <-].
    apply law_rollback in H2; [|done]. destruct r; [done|]. by rewrite orb_true_r in Hb.
  - destruct (ur_prepared record) as [q|]; [|by intros [= <-]].
    destruct (artifacts_discard _ _ w) as [r w1] eqn:H1. intros [= _ <-]. by eapply still_discard.
Qed.

(** An answer that the update was rolled back comes with the pointer at [x]. *)
Definition rolled {A} (x : Path) (r : result CoreUpdateError A) (w' : W) : Prop :=
  match r with
  | Ok _ => False
  | Err (UpRolledBack _) => active w' = x
  | Err _ => True
  end.

Lemma read_record_inv key w r w' :
  read_record key w = (r, w') → active w' = active w ∧ ∀ e, r = Err e → ∃ error, e = UpStore error.
Proof.
  intros Hr. split; [by eapply still_read_record|]. intros e ->. unfold read_record in Hr.
  apply se_bind_inv in Hr as [(o & w1 & _ & Hr)|(e' & Hr & [= <-])].
  - apply se_bind_inv in Hr as [([] & w2 & _ & [=])|(e' & Hr & [= <-])]. destruct o; [|done].
    unfold require_store_result in Hr. destruct (_ || _) in Hr; [|done]. injection Hr as <- _. eauto.
  - unfold se_map_err in Hr. destruct (update_read key w) as [[]]; [done|]. injection Hr as <- _. eauto.
Qed.

Lemma replace_record_inv record revision w r w' :
  replace_record record revision w = (r, w') →
  active w' = active w ∧ match r with Ok v => vu_record v = record | Err e => ∃ error, e = UpStore error end.
Proof.
  intros Hr. split; [by eapply still_replace_record|]. destruct r as [v|e]; [by apply replace_record_Ok in Hr as []|].
  assert (∀ v rev w1, (run! se_lift (require_store_result v (ur_idempotency_key record) (Some record) rev) in
    se_ret v) w1 = (Err e, w') → ∃ error, e = UpStore error) as Hreq.
  { intros v rev w1 Hq. apply se_bind_inv in Hq as [([] & ? & _ & [=])|(e' & Hq & [= <-])].
    unfold require_store_result in Hq. destruct (_ || _) in Hq; [|done]. injection Hq as <- _. eauto. }
  unfold replace_record in Hr. destruct (update_replace _ _ _) as [[v|original] w1]; [by eapply Hreq|].
  apply se_bind_inv in Hr as [(o & w2 & _ & Hr)|(e' & Hr & [= <-])]; [|by eapply read_record_inv].
  destruct o as [observed|]; [|injection Hr as <- _; eauto]. destruct (_ && _ && _) in Hr; [done|].
  destruct (_ && _) in Hr; [|injection Hr as <- _; eauto].
  apply se_bind_inv in Hr as [(v & w3 & _ & Hr)|(e' & Hr & [= <-])]; [by eapply Hreq|].
  unfold se_map_err in Hr. destruct (update_replace _ _ _) as [[]]; [done|]. injection Hr as <- _. eauto.
Qed.

Lemma complete_rollback_restores {A} v w (r : result CoreUpdateError A) w' :
  digest_text (ur_update_id (vu_record v)) → complete_rollback v w = (r, w') →
  rolled (restore_point (vu_record v) (active w)) r w'.
Proof.
  intros Hid Hr. unfold complete_rollback in Hr. cbv zeta in Hr.
  apply se_bind_inv in Hr as [(f & w1 & Hf & Hr)|(e & Hf & ->)].
  2:{ unfold required_failure in Hf. destruct (ur_failure _) in Hf; [done|]. by injection Hf as <- _. }
  apply se_lift_Ok in Hf as [_ <-]. destruct (compensate _ _) as [b w2] eqn:Hc.
  apply se_bind_inv in Hr as [(v' & w3 & H3 & Hr)|(e & H3 & ->)].
  - apply replace_record_inv in H3 as [H3 _]. injection Hr as <- <-. destruct b; [done|]. simpl. rewrite H3.
    by apply compensate_restores.
  - by apply replace_record_inv in H3 as [_ [error ->]].
Qed.

Lemma rollback_failure_restores {A} record revision error w (r : result CoreUpdateError A) w' :
  digest_text (ur_update_id record) → rollback_failure record revision error w = (r, w') →
  rolled (restore_point record (active w)) r w'.
Proof.
  intros Hid Hr. unfold rollback_failure in Hr.
  apply se_bind_inv in Hr as [(f & w1 & Hf & Hr)|(e & Hf & ->)].
  2:{ unfold failure_description in Hf. injection Hf as Hf _. repeat case_match; simplify_eq; done. }
  apply se_lift_Ok in Hf as [_ <-]. apply se_bind_inv in Hr as [(v & w2 & H2 & Hr)|(e & H2 & ->)].
  - apply replace_record_inv in H2 as [H2 Hv]. rewrite <- H2.
    apply complete_rollback_restores in Hr; rewrite Hv in *; done.
  - by apply replace_record_inv in H2 as [_ [error' ->]].
Qed.

Lemma or_rollback_inv {X A} record revision (call : UM X) (k : X → UM A) w r w' :
  or_rollback call record revision k w = (r, w') → still call → digest_text (ur_update_id record) →
  (∃ x w1, call w = (Ok x, w1) ∧ active w1 = active w ∧ k x w1 = (r, w')) ∨
  rolled (restore_point record (active w)) r w'.
Proof.
  unfold or_rollback. intros Hr Hc Hid. destruct (call w) as [[x|e] w1] eqn:E; apply Hc in E as Hw.
  - left. eauto.
  - right. rewrite <- Hw. by eapply rollback_failure_restores.
Qed.

(** *** Rounds *)

(** What a round leaves behind: a journal that agrees and has the same restore point,
    or the active installation that it answers with, or the restored one. *)
Definition handed (x : Path) (r : result CoreUpdateError (VersionedCoreUpdateRecord + CoreUpdateChange)) (w' : W) : Prop :=
  match r with
  | Ok (inl v) => agrees (vu_record v) (active w') ∧ restore_point (vu_record v) (active w') = x
  | Ok (inr change) => active w' = location (uc_installation change)
  | Err (UpRolledBack _) => active w' = x
  | Err _ => True
  end.

(** The same of a phase and of a terminal call. *)
Definition kept (x : Path) (r : result CoreUpdateError VersionedCoreUpdateRecord) (w' : W) : Prop :=
  match r with Ok v => handed x (Ok (inl v)) w' | Err e => handed x (Err e) w' end.
Definition ended (x : Path) (r : result CoreUpdateError CoreUpdateChange) (w' : W) : Prop :=
  match r with Ok change => handed x (Ok (inr change)) w' | Err e => handed x (Err e) w' end.

Lemma rolled_kept x r w' : rolled x r w' → kept x r w'.
Proof. by destruct r as [|[]]. Qed.
Lemma rolled_ended x r w' : rolled x r w' → ended x r w'.
Proof. by destruct r as [|[]]. Qed.
Lemma go_on_handed x c w r w' : (∀ r1, c w = (r1, w') → kept x r1 w') → go_on c w = (r, w') → handed x r w'.
Proof. intros Hc [(v & w1 & H1 & [= <- <-])|(e & H1 & ->)]%se_bind_inv; by apply (Hc _ H1). Qed.
Lemma return_handed x c w r w' : (∀ r1, c w = (r1, w') → ended x r1 w') → return_with c w = (r, w') → handed x r w'.
Proof. intros Hc [(v & w1 & H1 & [= <- <-])|(e & H1 & ->)]%se_bind_inv; by apply (Hc _ H1). Qed.

(** A journal written at the end of a phase. *)
Lemma replace_kept record revision x w r w' :
  replace_record record revision w = (r, w') →
  agrees record (active w) → restore_point record (active w) = x → kept x r w'.
Proof.
  intros [Hw Hv]%replace_record_inv Ha Hx. destruct r as [v|e]; simpl; [|by destruct Hv as [error ->]].
  by rewrite Hv, Hw.
Qed.

(** A journal written at the end, and the change read from it. *)
Lemma replace_ended record revision x disposition event w r w' :
  (do! stored <- replace_record record revision in
   se_lift (terminal_change (vu_record stored) disposition event)) w = (r, w') →
  (∀ change, terminal_change record disposition event = Ok change → active w = location (uc_installation change)) →
  ended x r w'.
Proof.
  intros [(v & w1 & H1 & H2)|(e & H1 & ->)]%se_bind_inv Ht; apply replace_record_inv in H1 as [Hw Hv].
  - injection H2 as <- <-. rewrite Hv. destruct (terminal_change _ _ _) as [change|e] eqn:E; simpl.
    + rewrite Hw. auto.
    + unfold terminal_change, required_current, required_activation in E.
      destruct disposition, (ur_current record), (ur_activation record); simplify_eq/=; done.
  - by destruct Hv as [error ->].
Qed.

Lemma lift_required {A B} reason (o : option A) (k : A → UM B) w r w' :
  se_bind (se_lift (ok_or (UpInvalidContract reason) o)) k w = (r, w') →
  (∃ a, o = Some a ∧ k a w = (r, w')) ∨ r = Err (UpInvalidContract reason).
Proof. destruct o; unfold se_bind, se_lift; simpl; [eauto|]. intros [= <- _]. auto. Qed.

Section rounds.
Context (v : VersionedCoreUpdateRecord) (w : W).
Context (Ha : agrees (vu_record v) (active w)).
Abbreviation record := (vu_record v).
Abbreviation x := (restore_point record (active w)).

Lemma prepare_kept r w' : ur_phase record = PhRequested → prepare v w = (r, w') → kept x r w'.
Proof.
  intros Hp Hr. destruct Ha as [Hid Hph]. rewrite Hp in Hph. destruct Hph as (Hc & Hpr & Hact).
  assert (x = active w) as Hx by (unfold restore_point; by rewrite Hact). rewrite Hx.
  apply or_rollback_inv in Hr as [(c & w1 & H1 & Hw1 & Hr)|Hr]; [|by apply rolled_kept; rewrite <- Hx|apply still_current|done].
  apply law_current in H1. rewrite <- Hw1.
  apply or_rollback_inv in Hr as [(q & w2 & H2 & Hw2 & Hr)|Hr]; [| |by apply still_prepare|done].
  2:{ apply rolled_kept. unfold restore_point in Hr. by rewrite Hact in Hr. }
  rewrite <- Hw2. cbv zeta in Hr. destruct (is_some_and _ _).
  - apply rollback_failure_restores in Hr; [|done]. apply rolled_kept. unfold restore_point in Hr. simpl in Hr.
    by rewrite Hact in Hr.
  - eapply replace_kept; [exact Hr| |unfold restore_point; simpl; by rewrite Hact].
    split; [done|]. simpl. split; [done|]. exists c. split; [done|congruence].
Qed.

Lemma snapshot_kept r w' : ur_phase record = PhPrepared → snapshot_services v w = (r, w') → kept x r w'.
Proof.
  intros Hp Hr. pose proof Ha as [Hid Hph]. rewrite Hp in Hph. destruct Hph as (Hact & c & Hc & Hl).
  apply lift_required in Hr as [(c' & _ & Hr)| ->]; [|done].
  apply or_rollback_inv in Hr as [(sn & w1 & H1 & Hw1 & Hr)|Hr]; [|by apply rolled_kept|apply still_services_snapshot|done].
  eapply replace_kept; [exact Hr| |]; rewrite Hw1; [|done]. split; [done|]. simpl. eauto.
Qed.

Lemma activate_kept r w' : ur_phase record = PhServicesSnapshotted → activate v w = (r, w') → kept x r w'.
Proof.
  intros Hp Hr. pose proof Ha as [Hid Hph]. rewrite Hp in Hph. destruct Hph as (Hact & c & Hc & Hl).
  assert (x = active w) as Hx by (unfold restore_point; by rewrite Hact). rewrite Hx.
  apply lift_required in Hr as [(c' & Hc' & Hr)| ->]; [|done]. simplify_eq.
  apply lift_required in Hr as [(q & Hq & Hr)| ->]; [|done].
  unfold or_rollback in Hr. destruct (artifacts_activate _ _ _ w) as [[a|e] w1] eqn:H1;
    apply law_activate in H1; [|done| |done].
  - destruct H1 as (Hprev & Hinst & Hw1). unfold require_activation in Hr.
    rewrite !bool_decide_true in Hr by done. cbn in Hr.
    eapply replace_kept; [exact Hr| |unfold restore_point; simpl; congruence].
    split; [done|]. simpl. exists a. split; [done|congruence].
  - apply rollback_failure_restores in Hr; [|done]. apply rolled_kept. rewrite H1, Hx in Hr. done.
Qed.

(** The phases that only move the journal. *)
Lemma same_activation_kept phase revision w1 r w' :
  active w1 = active w →
  (∃ activation, ur_activation record = Some activation ∧ active w = location (au_installation activation)) →
  match phase with PhServicesRebound | PhVerified | PhCommitted => True | _ => False end →
  replace_record (with_phase phase record) revision w1 = (r, w') → kept x r w'.
Proof.
  intros Hw1 Hph Hphase Hr. destruct Ha as [Hid _].
  eapply replace_kept; [exact Hr| |]; rewrite Hw1; [|done]. split; [done|]. simpl. by destruct phase.
Qed.

Lemma rebind_kept r w' : ur_phase record = PhActivated → rebind_services v w = (r, w') → kept x r w'.
Proof.
  intros Hp Hr. pose proof Ha as [Hid Hph]. rewrite Hp in Hph.
  do 2 (apply lift_required in Hr as [(? & _ & Hr)| ->]; [|done]).
  apply or_rollback_inv in Hr as [(? & w1 & _ & Hw1 & Hr)|Hr]; [|by apply rolled_kept|apply still_services_rebind|done].
  eapply same_activation_kept; [exact Hw1|exact Hph| |exact Hr]. done.
Qed.
Lemma verify_kept r w' : ur_phase record = PhServicesRebound → verify_services readiness v w = (r, w') → kept x r w'.
Proof.
  intros Hp Hr. pose proof Ha as [Hid Hph]. rewrite Hp in Hph.
  do 2 (apply lift_required in Hr as [(? & _ & Hr)| ->]; [|done]).
  apply or_rollback_inv in Hr as [(? & w1 & _ & Hw1 & Hr)|Hr]; [|by apply rolled_kept|apply still_services_verify|done].
  eapply same_activation_kept; [exact Hw1|exact Hph| |exact Hr]. done.
Qed.
Lemma commit_kept r w' : ur_phase record = PhVerified → commit v w = (r, w') → kept x r w'.
Proof.
  intros Hp Hr. pose proof Ha as [Hid Hph]. rewrite Hp in Hph.
  apply lift_required in Hr as [(? & _ & Hr)| ->]; [|done].
  apply or_rollback_inv in Hr as [(? & w1 & _ & Hw1 & Hr)|Hr]; [|by apply rolled_kept|by apply still_commit|done].
  eapply same_activation_kept; [exact Hw1|exact Hph| |exact Hr]. done.
Qed.

Lemma prune_ended first_attempt r w' :
  (∃ activation, ur_activation record = Some activation ∧ active w = location (au_installation activation)) →
  prune v first_attempt w = (r, w') → ended x r w'.
Proof.
  intros (a & Hact & Hl) Hr. apply lift_required in Hr as [(a' & Ha' & Hr)| ->]; [|done]. simplify_eq. cbv beta zeta in Hr.
  destruct (prune_provider _ _ w) as [r1 w1] eqn:H1. apply still_prune in H1.
  assert (∀ record' d e, ur_activation record' = Some a → d ≠ DispCurrent → ∀ change,
    terminal_change record' d e = Ok change → active w1 = location (uc_installation change)) as Ht.
  { intros record' d e Hq Hd change. unfold terminal_change, required_activation. rewrite Hq.
    destruct d; [done|..]; intros [= <-]; simpl; congruence. }
  destruct r1 as [[]|error].
  - eapply replace_ended; [exact Hr|by apply Ht].
  - destruct first_attempt.
    + apply se_bind_inv in Hr as [(f & w2 & H2 & Hr)|(e & H2 & ->)].
      * apply se_lift_Ok in H2 as [_ <-]. eapply replace_ended; [exact Hr|by apply Ht].
      * unfold failure_description in H2. injection H2 as H2 _. repeat case_match; simplify_eq; done.
    + injection Hr as <- <-. specialize (Ht record DispCleanupPending None Hact).
      unfold terminal_change, required_activation in *. rewrite Hact in *. simpl. by apply (Ht ltac:(done) _ eq_refl).
Qed.

Lemma complete_current_ended r w' :
  ur_phase record = PhPrepared → complete_current v w = (r, w') → ended x r w'.
Proof.
  intros Hp Hr. pose proof Ha as [Hid Hph]. rewrite Hp in Hph. destruct Hph as (Hact & c & Hc & Hl).
  apply lift_required in Hr as [(q & _ & Hr)| ->]; [|done].
  apply or_rollback_inv in Hr as [([] & w1 & _ & Hw1 & Hr)|Hr]; [|by apply rolled_ended|by apply still_discard|done].
  apply lift_required in Hr as [(c' & Hc' & Hr)| ->]; [|done]. simplify_eq.
  eapply replace_ended; [exact Hr|]. unfold terminal_change, required_current. simpl. rewrite Hc'.
  intros change [= <-]. simpl. congruence.
Qed.
End rounds.
Lemma update_step_handed v w r w' :
  agrees (vu_record v) (active w) → update_step readiness v w = (r, w') →
  handed (restore_point (vu_record v) (active w)) r w'.
Proof.
  intros Ha Hr. pose proof Ha as [Hid Hph]. unfold update_step in Hr.
  assert (∀ disposition change, terminal_change (vu_record v) disposition None = Ok change →
    match disposition with
    | DispCurrent => ∃ c, ur_current (vu_record v) = Some c ∧ active w = location c
    | _ => ∃ a, ur_activation (vu_record v) = Some a ∧ active w = location (au_installation a)
    end → active w = location (uc_installation change)) as Ht.
  { unfold terminal_change, required_current, required_activation.
    intros [] change; intros Hx (? & Hy & ?); rewrite Hy in Hx; by injection Hx as <-. }
  assert (∀ disposition, match disposition with
    | DispCurrent => ∃ c, ur_current (vu_record v) = Some c ∧ active w = location c
    | _ => ∃ a, ur_activation (vu_record v) = Some a ∧ active w = location (au_installation a)
    end → ∀ r1, se_lift (terminal_change (vu_record v) disposition None) w = (r1, w') →
    ended (restore_point (vu_record v) (active w)) r1 w') as Hend.
  { intros d Hd r1 [= <- <-].
    destruct (terminal_change (vu_record v) d None) as [change|e] eqn:E; simpl; [by eapply Ht|].
    unfold terminal_change, required_current, required_activation in E.
    destruct d, (ur_current (vu_record v)), (ur_activation (vu_record v)); simplify_eq/=; done. }
  destruct (ur_phase (vu_record v)) eqn:Hp.
  - eapply go_on_handed; [|exact Hr]. intros r1. by apply prepare_kept.
  - apply se_bind_inv in Hr as [(b & w1 & H1 & Hr)|(e & H1 & ->)].
    + apply se_lift_Ok in H1 as [_ <-]. destruct b.
      * eapply return_handed; [|exact Hr]. intros r1. by apply complete_current_ended.
      * eapply go_on_handed; [|exact Hr]. intros r1. by apply snapshot_kept.
    + unfold installations_are_equal, required_current, required_prepared in H1.
      destruct (ur_current _), (ur_prepared _); simplify_eq/=; injection H1 as <- _; done.
  - eapply go_on_handed; [|exact Hr]. intros r1. by apply activate_kept.
  - eapply go_on_handed; [|exact Hr]. intros r1. by apply rebind_kept.
  - eapply go_on_handed; [|exact Hr]. intros r1. by apply verify_kept.
  - eapply go_on_handed; [|exact Hr]. intros r1. by apply commit_kept.
  - eapply return_handed; [|exact Hr]. intros r1. by apply prune_ended.
  - eapply return_handed; [|exact Hr]. intros r1 H1. by apply rolled_ended, complete_rollback_restores.
  - eapply return_handed; [|exact Hr]. by apply (Hend DispCurrent).
  - eapply return_handed; [|exact Hr]. intros r1. by apply prune_ended.
  - eapply return_handed; [|exact Hr]. by apply (Hend DispUpdated).
  - apply lift_required in Hr as [(f & _ & [= <- <-])| ->]; [|done]. simpl. unfold restore_point.
    by destruct (ur_activation _).
  - by apply lift_required in Hr as [(f & _ & [= <- <-])| ->].
Qed.

Lemma run_update_ended v w r w' :
  agrees (vu_record v) (active w) → run_update readiness v w = (r, w') →
  ended (restore_point (vu_record v) (active w)) r w'.
Proof.
  intros Ha Hr. unfold run_update in Hr.
  assert (∀ fuel v w r w', agrees (vu_record v) (active w) → iterate fuel (update_step readiness) v w = (r, w') →
    handed (restore_point (vu_record v) (active w)) r w') as Hit.
  { clear v w r w' Ha Hr. induction fuel as [|fuel IH]; intros v w r w' Ha Hr; cbn [iterate] in Hr; [by injection Hr as <- <-|].
    apply se_bind_inv in Hr as [([v1|change] & w1 & H1 & Hr)|(e & H1 & ->)];
      apply update_step_handed in H1; [|done| |done| |done].
    - destruct H1 as [Ha1 <-]. by apply IH.
    - by injection Hr as <- <-.
    - done. }
  apply se_bind_inv in Hr as [([v1|change] & w1 & H1 & Hr)|(e & H1 & ->)]; apply Hit in H1; [|done| |done| |done].
  - by injection Hr as <- <-.
  - by injection Hr as <- <-.
  - done.
Qed.

(** C22: from a journal that agrees with the active installation, an update that answers
    with an installation left it active, and one that answers that it was rolled back
    left the previous installation active, with every store and service failing at
    will. *)
Theorem handoff_completes_or_restores key version v w w1 r w' :
  open_record key version w = (Ok v, w1) → agrees (vu_record v) (active w) →
  lifecycle_update (L := L) readiness key version w = (r, w') →
  (∀ change, r = Ok change → active w' = location (uc_installation change)) ∧
  (∀ f, r = Err (UpRolledBack f) → active w' = restore_point (vu_record v) (active w)).
Proof.
  intros Ho Ha Hr. unfold lifecycle_update, se_bind in Hr. rewrite Ho in Hr.
  apply still_open_record in Ho. rewrite <- Ho in Ha |- *. cbv zeta in Hr.
  assert (ended (restore_point (vu_record v) (active w1)) r w') as He.
  2:{ split; [intros change ->|intros f ->]; exact He. }
  destruct (needs_no_admission _); [by eapply run_update_ended|].
  destruct (admission_acquire _ w1) as [[lease|e] w2] eqn:H2.
  - apply still_acquire in H2. rewrite <- H2 in Ha |- *. unfold holding in Hr.
    destruct (run_update readiness v w2) as [r1 w3] eqn:H3. injection Hr as <- <-.
    apply run_update_ended in H3; [|done]. unfold ended, handed in *.
    destruct r1 as [change|[]]; simpl in *; rewrite ?still_drop; done.
  - destruct (bool_decide _).
    + pose proof H2 as Hs. apply still_acquire in Hs. rewrite <- Hs.
      apply rolled_ended. destruct Ha. by eapply rollback_failure_restores.
    + injection Hr as <- <-. apply law_refusal in H2. destruct e; simpl; try done.
      exfalso. apply H2. left. eauto.
Qed.
End outcome.

(** The filesystem provider keeps the promises about the active pointer. *)
Lemma filesystem_handoff {W} `{Hio : !CoreUpdateArtifactIo W, Hins : !CoreUpdateCandidateInstaller W,
    Hjson : !ReleaseJson, Hsha : !Sha256} (p : FilesystemCoreUpdateArtifactProvider) (pointer : W → Path) :
  PointerLaws p pointer → HandoffLaws (Hart := filesystem_artifacts p) pointer (installation_path p).
Proof.
  intros Hl. split; simpl.
  - intros _. by apply still_active.
  - intros _ w c w' Hr. by eapply active_installation_Ok.
  - intros; by apply prepare_still.
  - intros; by apply discard_still.
  - intros; by apply commit_still.
  - intros id prepared c w r w' Hid Hr. apply (activate_moves p pointer) in Hr as [Hm He]; [|done].
    destruct r as [a|e]; simpl in Hm; [|done]. destruct (He a eq_refl), Hm. done.
  - intros id a w r w' Hid Hr. apply (rollback_moves p pointer) in Hr; [|done].
    destruct r; [|done]. by destruct Hr.
Qed.
