(* ===== verification/UpdateScenario.v ===== *)
(** * Updates on concrete inputs

    A small world for the capabilities of an update: a journal with revisions that can
    fail, an active installation, services and a clock.  The claims about updates hold
    of runs in it, and one run shows what they leave out: when the journal write that
    follows an activation is lost and the activation then fails on replay, the update
    is answered and journalled as rolled back with the candidate active. *)

From Stdlib Require Import String.
From S2P Require Import Prelude Values Text Database UpdateContract UpdateServices UpdateLifecycle.
From S2P Require Import UpdateOrder UpdateArtifacts UpdateOutcome.

Module UpdateLab.

Definition zeros : string := "0000000000000000000000000000000000000000000000000000000000000000".
#[local] Instance lab_sha : Sha256 := λ _, zeros.

Record Lab := {
  lab_journal : gmap string VersionedCoreUpdateRecord;
  lab_store_faults : list bool;
  lab_active : CoreInstallation;
  lab_activate_faults : list bool;
  lab_snapshots : gmap string CoreUpdateServiceSnapshotRecord;
  lab_ready : bool;
  lab_time : Z;
}.

Definition old_core : CoreInstallation := {| ci_version := "1.0.0"; ci_source_identity := zeros |}.
Definition new_core : CoreInstallation := {| ci_version := "1.1.0"; ci_source_identity := zeros |}.
Definition lab_location (i : CoreInstallation) : Path := [Normal (ci_version i); Normal (ci_source_identity i)].
Definition lab_pointer (w : Lab) : Path := lab_location (lab_active w).

Definition lab_with (journal : gmap string VersionedCoreUpdateRecord) (faults : list bool) (w : Lab) : Lab :=
  {| lab_journal := journal; lab_store_faults := faults; lab_active := lab_active w;
     lab_activate_faults := lab_activate_faults w; lab_snapshots := lab_snapshots w;
     lab_ready := lab_ready w; lab_time := lab_time w |}.
Definition lab_activated (active : CoreInstallation) (faults : list bool) (w : Lab) : Lab :=
  {| lab_journal := lab_journal w; lab_store_faults := lab_store_faults w; lab_active := active;
     lab_activate_faults := faults; lab_snapshots := lab_snapshots w;
     lab_ready := lab_ready w; lab_time := lab_time w |}.
Definition lab_snapshot (snapshots : gmap string CoreUpdateServiceSnapshotRecord) (w : Lab) : Lab :=
  {| lab_journal := lab_journal w; lab_store_faults := lab_store_faults w; lab_active := lab_active w;
     lab_activate_faults := lab_activate_faults w; lab_snapshots := snapshots;
     lab_ready := lab_ready w; lab_time := lab_time w |}.
Definition lab_later (n : Z) (w : Lab) : Lab :=
  {| lab_journal := lab_journal w; lab_store_faults := lab_store_faults w; lab_active := lab_active w;
     lab_activate_faults := lab_activate_faults w; lab_snapshots := lab_snapshots w;
     lab_ready := lab_ready w; lab_time := lab_time w + n |}.

(** The next fault of a schedule. *)
Definition fault (faults : list bool) : bool := match faults with b :: _ => b | [] => false end.

#[local] Instance lab_store : CoreUpdateStore Lab := {|
  update_read key w := (Ok (lab_journal w !! key), w);
  update_create record w :=
    match lab_journal w !! ur_idempotency_key record with
    | Some _ => (Err UpConflict, w)
    | None =>
      let v := {| vu_record := record; vu_revision := 1 |} in
      (Ok v, lab_with (<[ur_idempotency_key record := v]> (lab_journal w)) (lab_store_faults w) w)
    end;
  update_replace record revision w :=
    if fault (lab_store_faults w)
    then (Err UpUnavailable, lab_with (lab_journal w) (tail (lab_store_faults w)) w)
    else match lab_journal w !! ur_idempotency_key record with
    | Some v =>
      if vu_revision v =? revision
      then
        let v := {| vu_record := record; vu_revision := revision + 1 |} in
        (Ok v, lab_with (<[ur_idempotency_key record := v]> (lab_journal w)) (tail (lab_store_faults w)) w)
      else (Err UpConflict, w)
    | None => (Err UpConflict, w)
    end;
|}.

#[local] Instance lab_admission : CoreUpdateAdmissionProvider Lab () := {|
  admission_acquire _ w := (Ok (), w);
  admission_drop _ w := w;
|}.

#[local] Instance lab_artifacts : CoreUpdateArtifactProvider Lab := {|
  artifacts_current _ w := (Ok (lab_active w), w);
  artifacts_prepare _ _ _ w := (Ok {| pu_receipt_id := zeros; pu_installation := new_core |}, w);
  artifacts_discard _ _ w := (Ok (), w);
  artifacts_activate _ prepared current w :=
    if fault (lab_activate_faults w)
    then (Err (UpProvider "artifacts" "directory inspection is unavailable"),
          lab_activated (lab_active w) (tail (lab_activate_faults w)) w)
    else (Ok {| au_receipt_id := zeros; au_previous := current; au_installation := pu_installation prepared |},
          lab_activated (pu_installation prepared) (tail (lab_activate_faults w)) w);
  artifacts_rollback _ activation w := (Ok (), lab_activated (au_previous activation) (lab_activate_faults w) w);
  artifacts_commit _ _ w := (Ok (), w);
|}.

#[local] Instance lab_services : CoreUpdateServiceProvider Lab := {|
  provider_context w := (Ok {| sc_platform := PlLinux; sc_role := RoleMain |}, w);
  snapshot_record id w := (Ok (lab_snapshots w !! id), w);
  store_snapshot_record sn w := (Ok sn, lab_snapshot (<[sn_update_id sn := sn]> (lab_snapshots w)) w);
  observe_service service w :=
    (Ok {| st_service := service; st_loaded_identity := Some zeros; st_active_identity := Some zeros |}, w);
  rebind_service _ _ _ _ w := (Ok (), w);
  service_is_ready_with_timeout _ _ _ _ _ w := (Ok (lab_ready w), w);
  restore_service _ _ w := (Ok (), w);
|}.

#[local] Instance lab_pruner : CoreUpdatePruneProvider Lab := λ _ _ w, (Ok (), w).

#[local] Instance lab_clock : CoreUpdateReadinessClock Lab := {|
  monotonic_milliseconds w := (Ok (lab_time w), w);
  readiness_wait n w := (Ok (), lab_later n w);
|}.

Definition lab (store_faults activate_faults : list bool) (ready : bool) : Lab :=
  {| lab_journal := ∅; lab_store_faults := store_faults; lab_active := old_core;
     lab_activate_faults := activate_faults; lab_snapshots := ∅; lab_ready := ready; lab_time := 5 |}.

Definition lab_policy : CoreUpdateReadinessPolicy :=
  {| rp_timeout_milliseconds := 10; rp_poll_milliseconds := 4; rp_stable_observations := 2 |}.

Definition lab_update (w : Lab) : result CoreUpdateError CoreUpdateChange * Lab :=
  lifecycle_update (L := ()) lab_policy "release" None w.

(** ** The laws hold *)

Lemma lab_bystanders : BystanderLaws (L := ()) lab_pointer.
Proof.
  split; unfold UpdateOutcome.still, prune_provider, lab_pruner; simpl; intros; repeat case_match; simplify_eq; done.
Qed.

Lemma lab_handoff : HandoffLaws lab_pointer lab_location.
Proof.
  split; unfold UpdateOutcome.still; simpl; intros; repeat case_match; simplify_eq; try done.
Qed.

(** ** Runs *)

(** A whole handoff. *)
Example lab_succeeds :
  (lab_update (lab [] [] true)).1 =
    Ok {| uc_installation := new_core; uc_disposition := DispUpdated; uc_event := Some (CoreUpdated zeros) |}.
Proof. vm_compute. reflexivity. Qed.

(** The loop over services that are never ready ends at its deadline. *)
Lemma readiness_loop_ends_witness :
  let record := {| sn_update_id := zeros; sn_receipt_id := zeros; sn_current := old_core;
                   sn_context := {| sc_platform := PlMacos; sc_role := RoleChild |}; sn_services := [] |} in
  let loop fuel := iterate fuel (verify_round lab_policy new_core record 15) (0, 5) (lab [] [] false) in
  loop 100%nat = loop 11%nat ∧ ∀ progress, (loop 100%nat).1 ≠ Ok (inl progress).
Proof.
  intros record. apply (readiness_loop_ends lab_policy 10 4 2 new_core record 5 15 100 (lab [] [] false));
    first [reflexivity|ulia|unfold verify_fuel; simpl; lia].
Defined.

Lemma update_loop_ends_witness :
  let v := {| vu_record := {| ur_update_id := zeros; ur_idempotency_key := "release"; ur_requested_version := None;
                ur_phase := PhRequested; ur_current := None; ur_prepared := None; ur_service_snapshot := None;
                ur_activation := None; ur_failure := None |}; vu_revision := 1 |} in
  let loop fuel := iterate fuel (update_step lab_policy) v (lab [] [] true) in
  loop 9%nat = loop 7%nat ∧ ∀ next, (loop 9%nat).1 ≠ Ok (inl next).
Proof. intros v. apply (update_loop_ends lab_policy v 9 (lab [] [] true)). unfold update_fuel. lia. Defined.

(** A handoff whose services do not become ready is rolled back, and says so. *)
Lemma update_answers_its_journal_witness :
  let '(r, (_, t)) := manager_update (W := Traced Lab) (L := ()) lab_policy OwnershipFree "release" None
                        (lab [] [] false, []) in
  answered r (last_journal None t).
Proof.
  destruct (manager_update _ _ _ _ _) as [r [w' t]] eqn:Hr.
  apply (update_answers_its_journal (L := ()) lab_policy OwnershipFree "release" None (lab [] [] false) r w' t).
  - by intros id w1 e w2 [=].
  - exact Hr.
Defined.

Definition failure_of (message : string) : FailureDescription :=
  {| failure_code := "core_update_failed"; failure_message := message |}.

Lemma handoff_completes_or_restores_witness :
  lab_pointer (lab_update (lab [] [] false)).2 = lab_location old_core.
Proof.
  destruct (open_record "release" None (lab [] [] false)) as [[v|] w1] eqn:Ho; [|vm_compute in Ho; discriminate Ho].
  assert (agrees lab_location (vu_record v) (lab_pointer (lab [] [] false))) as Ha.
  { vm_compute in Ho. injection Ho as <- _. vm_compute. auto. }
  assert (lab_update (lab [] [] false) = (Err (UpRolledBack (failure_of
    "role-appropriate services did not become stably ready")), (lab_update (lab [] [] false)).2)) as Hr
    by (vm_compute; reflexivity).
  destruct (handoff_completes_or_restores (Hart := lab_artifacts) lab_policy lab_pointer lab_location
    (Hby := lab_bystanders) (Hhand := lab_handoff) _ _ _ _ _ _ _ Ho Ha Hr) as [_ Hf].
  rewrite (Hf _ eq_refl). vm_compute in Ho. injection Ho as <- _. reflexivity.
Defined.

(** ** What a lost journal write leaves out *)

(** The third journal write, which follows the activation, is lost; the second
    activation, on replay, fails. *)
Definition interrupted : Lab := lab [false; false; true] [false; true] true.

(** The first update fails with the candidate active; its replay is answered and
    journalled as rolled back, and the candidate is still active. *)
Theorem rolled_back_with_candidate_active :
  let first := lab_update interrupted in
  let second := lab_update first.2 in
  first.1 = Err (UpStore UpUnavailable) ∧
  second.1 = Err (UpRolledBack (failure_of "directory inspection is unavailable")) ∧
  (ur_phase ∘ vu_record <$> lab_journal second.2 !! "release"%string) = Some PhRolledBack ∧
  lab_active interrupted = old_core ∧ lab_active second.2 = new_core.
Proof. vm_compute. repeat split. Qed.
End UpdateLab.
