(* ===== verification/UpdateDatabase.v ===== *)
(** * The update journal in the database

    [DatabaseCoreUpdateStore] of [core/node/src/li_core_update_database.rs]: one row per
    replay key.  A row reads as a journal exactly when it is the projection of a valid
    one; the store does not validate what it writes. *)

From Stdlib Require Import String.
From S2P Require Import Prelude Values Text Database DatabaseStorage UpdateContract UpdateLifecycle.

(** ** Rows *)

Definition CORE_UPDATE_RECORD_SCHEMA_NAME : string := "li_core_update_record".
Definition CORE_UPDATE_RECORD_SCHEMA_VERSION : Z := 1.

Record CoreUpdateDatabaseSchema := { us_name : string; us_version : Z }.
Record CoreUpdateDatabaseRecord := {
  ud_schema : CoreUpdateDatabaseSchema;
  ud_update_id : string;
  ud_idempotency_key : string;
  ud_requested_version : option string;
  ud_phase : string;
  ud_current_version : option string;
  ud_current_source_identity : option string;
  ud_prepared_receipt_id : option string;
  ud_prepared_version : option string;
  ud_prepared_source_identity : option string;
  ud_service_snapshot_receipt_id : option string;
  ud_activation_receipt_id : option string;
  ud_activation_previous_version : option string;
  ud_activation_previous_source_identity : option string;
  ud_activation_version : option string;
  ud_activation_source_identity : option string;
  ud_failure_code : option string;
  ud_failure_message : option string;
}.

Definition phase_name (phase : CoreUpdatePhase) : string :=
  match phase with
  | PhRequested => "requested"
  | PhPrepared => "prepared"
  | PhServicesSnapshotted => "services_snapshotted"
  | PhActivated => "activated"
  | PhServicesRebound => "services_rebound"
  | PhVerified => "verified"
  | PhCommitted => "committed"
  | PhRollingBack => "rolling_back"
  | PhCurrent => "current"
  | PhCleanupPending => "cleanup_pending"
  | PhSucceeded => "succeeded"
  | PhRolledBack => "rolled_back"
  | PhRecoveryRequired => "recovery_required"
  end.

(** The string patterns of [update_phase], in its order. *)
Definition update_phase_names : list (string * CoreUpdatePhase) :=
  [("requested", PhRequested); ("prepared", PhPrepared); ("services_snapshotted", PhServicesSnapshotted);
   ("activated", PhActivated); ("services_rebound", PhServicesRebound); ("verified", PhVerified);
   ("committed", PhCommitted); ("rolling_back", PhRollingBack); ("current", PhCurrent);
   ("cleanup_pending", PhCleanupPending); ("succeeded", PhSucceeded); ("rolled_back", PhRolledBack);
   ("recovery_required", PhRecoveryRequired)]%string.
Fixpoint lookup_name {A} (value : string) (names : list (string * A)) : option A :=
  match names with
  | [] => None
  | (name, a) :: names => if bool_decide (value = name) then Some a else lookup_name value names
  end.
Definition update_phase (value : string) : result CoreUpdateStoreError CoreUpdatePhase :=
  ok_or UpCorrupt (lookup_name value update_phase_names).

(** [map_err(|_| CoreUpdateStoreError::Corrupt)] *)
Definition corrupt {E A} (r : result E A) : result CoreUpdateStoreError A :=
  match r with Ok a => Ok a | Err _ => Err UpCorrupt end.

Definition parse_digest (value : string) : result CoreUpdateStoreError string :=
  corrupt (Sha256Digest_parse value).

Definition installation_fields (installation : option CoreInstallation) : option string * option string :=
  match installation with
  | Some i => (Some (ci_version i), Some (ci_source_identity i))
  | None => (None, None)
  end.

Definition installation (version source_identity : option string)
  : result CoreUpdateStoreError (option CoreInstallation) :=
  match version, source_identity with
  | Some version, Some identity =>
    let? version := corrupt (CoreVersion_parse version) in
    let? identity := parse_digest identity in
    Ok (Some {| ci_version := version; ci_source_identity := identity |})
  | None, None => Ok None
  | _, _ => Err UpCorrupt
  end.

Definition optional_receipt {V R} (receipt : option string) (value : option V) (constructor : string → V → R)
  : result CoreUpdateStoreError (option R) :=
  match receipt, value with
  | Some receipt, Some value => let? receipt := parse_digest receipt in Ok (Some (constructor receipt value))
  | None, None => Ok None
  | _, _ => Err UpCorrupt
  end.

(** The [match] that rebuilds the activation, and the one that rebuilds the failure. *)
Definition stored_activation (receipt : option string) (previous activated : option CoreInstallation)
  : result CoreUpdateStoreError (option ActivatedCoreUpdate) :=
  match receipt, previous, activated with
  | Some receipt, Some previous, Some activated =>
    let? receipt := parse_digest receipt in
    let? activation := corrupt (ActivatedCoreUpdate_new receipt previous activated) in
    Ok (Some activation)
  | None, None, None => Ok None
  | _, _, _ => Err UpCorrupt
  end.
Definition stored_failure (code message : option string)
  : result CoreUpdateStoreError (option FailureDescription) :=
  match code, message with
  | Some code, Some message =>
    let? code := corrupt (TechnicalName_parse code) in
    let? failure := corrupt (FailureDescription_new code message) in
    Ok (Some failure)
  | None, None => Ok None
  | _, _ => Err UpCorrupt
  end.

Definition update_record (record : CoreUpdateRecord) : CoreUpdateDatabaseRecord :=
  let current := installation_fields (ur_current record) in
  let prepared := installation_fields (pu_installation <$> ur_prepared record) in
  let previous := installation_fields (au_previous <$> ur_activation record) in
  let activated := installation_fields (au_installation <$> ur_activation record) in
  {| ud_schema := {| us_name := CORE_UPDATE_RECORD_SCHEMA_NAME; us_version := CORE_UPDATE_RECORD_SCHEMA_VERSION |};
     ud_update_id := ur_update_id record;
     ud_idempotency_key := ur_idempotency_key record;
     ud_requested_version := ur_requested_version record;
     ud_phase := phase_name (ur_phase record);
     ud_current_version := current.1;
     ud_current_source_identity := current.2;
     ud_prepared_receipt_id := pu_receipt_id <$> ur_prepared record;
     ud_prepared_version := prepared.1;
     ud_prepared_source_identity := prepared.2;
     ud_service_snapshot_receipt_id := ss_receipt_id <$> ur_service_snapshot record;
     ud_activation_receipt_id := au_receipt_id <$> ur_activation record;
     ud_activation_previous_version := previous.1;
     ud_activation_previous_source_identity := previous.2;
     ud_activation_version := activated.1;
     ud_activation_source_identity := activated.2;
     ud_failure_code := failure_code <$> ur_failure record;
     ud_failure_message := failure_message <$> ur_failure record |}.

Section rows.
Context `{Hsha : !Sha256}.

Definition update_from_record (record : CoreUpdateDatabaseRecord)
  : result CoreUpdateStoreError CoreUpdateRecord :=
  if negb (bool_decide (us_name (ud_schema record) = CORE_UPDATE_RECORD_SCHEMA_NAME))
     || negb (us_version (ud_schema record) =? CORE_UPDATE_RECORD_SCHEMA_VERSION)
  then Err UpCorrupt
  else
    let? current := installation (ud_current_version record) (ud_current_source_identity record) in
    let? prepared_installation := installation (ud_prepared_version record) (ud_prepared_source_identity record) in
    let? prepared := optional_receipt (ud_prepared_receipt_id record) prepared_installation
                       (λ receipt i, {| pu_receipt_id := receipt; pu_installation := i |}) in
    let? previous := installation (ud_activation_previous_version record)
                       (ud_activation_previous_source_identity record) in
    let? activated := installation (ud_activation_version record) (ud_activation_source_identity record) in
    let? activation := stored_activation (ud_activation_receipt_id record) previous activated in
    let? failure := stored_failure (ud_failure_code record) (ud_failure_message record) in
    let? update_id := parse_digest (ud_update_id record) in
    let? requested_version := corrupt (parse_option CoreVersion_parse (ud_requested_version record)) in
    let? phase := update_phase (ud_phase record) in
    let? snapshot := parse_option parse_digest (ud_service_snapshot_receipt_id record) in
    corrupt (CoreUpdateRecord_restore
      {| ur_update_id := update_id; ur_idempotency_key := ud_idempotency_key record;
         ur_requested_version := requested_version; ur_phase := phase; ur_current := current;
         ur_prepared := prepared; ur_service_snapshot := Build_CoreServiceSnapshot <$> snapshot;
         ur_activation := activation; ur_failure := failure |}).

(** ** Rows are the projections of valid journals *)

(** The values that the types of a journal's fields allow. *)
Definition version_text_ok (v : string) : Prop := CoreVersion_parse v = Ok v.
Definition digest_ok (d : string) : Prop := Sha256Digest_parse d = Ok d.
Definition installation_ok (i : CoreInstallation) : Prop :=
  version_text_ok (ci_version i) ∧ digest_ok (ci_source_identity i).
Definition failure_ok (f : FailureDescription) : Prop :=
  TechnicalName_parse (failure_code f) = Ok (failure_code f) ∧
  FailureDescription_new (failure_code f) (failure_message f) = Ok f.

Record journal_typed (r : CoreUpdateRecord) : Prop := {
  jt_id : digest_ok (ur_update_id r);
  jt_version v : ur_requested_version r = Some v → version_text_ok v;
  jt_current i : ur_current r = Some i → installation_ok i;
  jt_prepared q : ur_prepared r = Some q → digest_ok (pu_receipt_id q) ∧ installation_ok (pu_installation q);
  jt_snapshot sn : ur_service_snapshot r = Some sn → digest_ok (ss_receipt_id sn);
  jt_activation a : ur_activation r = Some a → digest_ok (au_receipt_id a) ∧
    installation_ok (au_previous a) ∧ installation_ok (au_installation a) ∧ au_previous a ≠ au_installation a;
  jt_failure f : ur_failure r = Some f → failure_ok f;
}.

Lemma corrupt_Ok {E A} (r : result E A) a : corrupt r = Ok a ↔ r = Ok a.
Proof. destruct r; naive_solver. Qed.

Lemma corrupt_inv {E A} (r : result E A) a : corrupt r = Ok a → r = Ok a.
Proof. apply corrupt_Ok. Qed.

Lemma identical_version : identical CoreVersion_parse.
Proof. intros v w (u & _ & [= <-])%result_bind_Ok. done. Qed.
Lemma identical_sha : identical Sha256Digest_parse.
Proof. by intros v w [_ ?]%validate_Ok. Qed.
Lemma identical_digest : identical parse_digest.
Proof. unfold parse_digest. intros v w Hw%corrupt_inv. by apply identical_sha. Qed.

Lemma parse_digest_Ok v w : parse_digest v = Ok w ↔ w = v ∧ digest_ok v.
Proof.
  unfold parse_digest, digest_ok. rewrite corrupt_Ok. split; [|by intros [-> ?]].
  intros Hw. pose proof (identical_sha _ _ Hw) as ->. done.
Qed.
Lemma version_Ok v w : CoreVersion_parse v = Ok w ↔ w = v ∧ version_text_ok v.
Proof.
  unfold version_text_ok. split; [|by intros [-> ?]]. intros Hw. pose proof (identical_version _ _ Hw) as ->. done.
Qed.

Lemma installation_Ok version identity o :
  installation version identity = Ok o ↔
  (version, identity) = installation_fields o ∧ (∀ i, o = Some i → installation_ok i).
Proof.
  unfold installation, installation_ok. destruct version as [v|], identity as [d|].
  - rewrite result_bind_Ok. setoid_rewrite corrupt_Ok. setoid_rewrite version_Ok.
    setoid_rewrite result_bind_Ok. setoid_rewrite parse_digest_Ok. split.
    + intros (? & [-> Hv] & ? & [-> Hd] & [= <-]). split; [done|]. by intros i [= <-].
    + destruct o as [[v' d']|]; [|by intros []]. intros [[= -> ->] Hi]. destruct (Hi _ eq_refl). simpl in *.
      eauto 10.
  - destruct o; naive_solver.
  - destruct o; naive_solver.
  - destruct o; naive_solver.
Qed.

Lemma optional_receipt_Ok receipt o q :
  optional_receipt receipt o (λ receipt i, {| pu_receipt_id := receipt; pu_installation := i |}) = Ok q ↔
  receipt = pu_receipt_id <$> q ∧ o = pu_installation <$> q ∧ (∀ p, q = Some p → digest_ok (pu_receipt_id p)).
Proof.
  unfold optional_receipt. destruct receipt as [d|], o as [i|].
  - rewrite result_bind_Ok. setoid_rewrite parse_digest_Ok. split.
    + intros (? & [-> Hd] & [= <-]). simpl. split_and!; [done..|]. by intros p [= <-].
    + destruct q as [[d' i']|]; [|by intros (? & ? & ?)]. simpl. intros ([= ->] & [= ->] & Hd).
      exists d'. specialize (Hd _ eq_refl). done.
  - destruct q; naive_solver.
  - destruct q; naive_solver.
  - destruct q; naive_solver.
Qed.

Lemma stored_activation_Ok receipt previous activated a :
  stored_activation receipt previous activated = Ok a ↔
  receipt = au_receipt_id <$> a ∧ previous = au_previous <$> a ∧ activated = au_installation <$> a ∧
  (∀ x, a = Some x → digest_ok (au_receipt_id x) ∧ au_previous x ≠ au_installation x).
Proof.
  unfold stored_activation, ActivatedCoreUpdate_new. destruct receipt as [d|], previous as [i|], activated as [j|].
  2-8: destruct a; naive_solver.
  rewrite result_bind_Ok. setoid_rewrite parse_digest_Ok. split.
  - intros (? & [-> Hd] & (x & Hx & [= <-])%result_bind_Ok). apply corrupt_inv in Hx.
    case_bool_decide; [done|]. injection Hx as <-. simpl. split_and!; [done..|]. by intros ? [= <-].
  - destruct a as [[d' i' j']|]; [|by intros (? & ?)]. simpl. intros ([= ->] & [= ->] & [= ->] & Hx).
    destruct (Hx _ eq_refl). simpl in *. exists d'. split; [done|]. by rewrite bool_decide_false.
Qed.

Lemma stored_failure_Ok code message f :
  stored_failure code message = Ok f ↔
  code = failure_code <$> f ∧ message = failure_message <$> f ∧ (∀ x, f = Some x → failure_ok x).
Proof.
  unfold stored_failure, failure_ok. destruct code as [c|], message as [m|].
  2-4: destruct f; naive_solver.
  rewrite result_bind_Ok. setoid_rewrite corrupt_Ok. split.
  - intros (c' & Hc & (x & Hx & [= <-])%result_bind_Ok). apply corrupt_inv in Hx.
    assert (c' = c) as -> by (by apply validate_Ok in Hc as [_ ?]).
    assert (x = {| failure_code := c; failure_message := m |}) as ->.
    { unfold FailureDescription_new in Hx. destruct (negb _); [done|]. by injection Hx as <-. }
    simpl. split_and!; [done..|]. by intros ? [= <-].
  - destruct f as [[c' m']|]; [|by intros (? & ?)]. simpl. intros ([= ->] & [= ->] & Hx).
    destruct (Hx _ eq_refl) as [Hc Hm]. simpl in *. exists c'. split; [done|]. by rewrite Hm.
Qed.

Lemma update_phase_Ok s ph : update_phase s = Ok ph ↔ s = phase_name ph.
Proof.
  unfold update_phase. rewrite ok_or_Ok. split; [|intros ->; destruct ph; reflexivity].
  unfold update_phase_names, lookup_name. repeat case_bool_decide; intros [= <-]; done.
Qed.

Lemma journal_restore_Ok r r' : CoreUpdateRecord_restore r = Ok r' ↔ r' = r ∧ CoreUpdateRecord_restore r = Ok r.
Proof.
  split; [|by intros [-> ?]]. intros Hr. assert (r' = r) as ->; [|done].
  unfold CoreUpdateRecord_restore in Hr. destruct (_ || _); [done|].
  apply result_bind_Ok in Hr as (i & _ & Hr). destruct (negb _); [done|].
  by apply result_bind_Ok in Hr as ([] & _ & [= <-]).
Qed.

Lemma update_from_record_sound d r :
  update_from_record d = Ok r → CoreUpdateRecord_restore r = Ok r ∧ journal_typed r ∧ d = update_record r.
Proof.
  unfold update_from_record. destruct (_ || _) eqn:E; [done|].
  apply orb_false_iff in E as [Hn%negb_false_iff%bool_decide_eq_true Hv%negb_false_iff%Z.eqb_eq].
  intros Hd. apply result_bind_Ok in Hd as (current & [Hc Hc']%installation_Ok & Hd).
  apply result_bind_Ok in Hd as (pi & [Hpi Hpi']%installation_Ok & Hd).
  apply result_bind_Ok in Hd as (prepared & (Hq1 & Hq2 & Hq3)%optional_receipt_Ok & Hd).
  apply result_bind_Ok in Hd as (previous & [Hpr Hpr']%installation_Ok & Hd).
  apply result_bind_Ok in Hd as (activated & [Hav Hav']%installation_Ok & Hd).
  apply result_bind_Ok in Hd as (activation & (Ha1 & Ha2 & Ha3 & Ha4)%stored_activation_Ok & Hd).
  apply result_bind_Ok in Hd as (failure & (Hf1 & Hf2 & Hf3)%stored_failure_Ok & Hd).
  apply result_bind_Ok in Hd as (id & [-> Hid]%parse_digest_Ok & Hd).
  apply result_bind_Ok in Hd as (version & Hver & Hd). apply corrupt_inv in Hver.
  apply parse_option_Ok in Hver as [-> Hver]; [|apply identical_version].
  apply result_bind_Ok in Hd as (phase & Hph%update_phase_Ok & Hd).
  apply result_bind_Ok in Hd as (snapshot & Hsn & Hd).
  apply parse_option_Ok in Hsn as [-> Hsn]; [|apply identical_digest].
  apply corrupt_inv in Hd. apply journal_restore_Ok in Hd as [-> Hr]. split; [done|]. split.
  - constructor; simpl; try done.
    + intros q ->. split; [by apply Hq3|]. by apply Hpi'; rewrite Hq2.
    + intros sn Hsome. destruct (ud_service_snapshot_receipt_id d) as [x|]; [|done]. simplify_eq/=.
      by pose proof (Hsn x eq_refl) as [_ ?]%parse_digest_Ok.
    + intros a ->. simpl in *. destruct (Ha4 a eq_refl). split_and!; [done|apply Hpr'|apply Hav'|done]; congruence.
  - unfold update_record. simpl. rewrite <- Hq1, <- Hq2, <- Ha1, <- Ha2, <- Ha3, <- Hf1, <- Hf2, <- Hph,
      <- Hc, <- Hpi, <- Hpr, <- Hav. destruct d as [[] ? ? ? ? ? ? ? ? ? [] ? ? ? ? ? ? ?]; simpl in *; by subst.
Qed.

Lemma update_from_record_complete r :
  CoreUpdateRecord_restore r = Ok r → journal_typed r → update_from_record (update_record r) = Ok r.
Proof.
  intros Hr [Hid Hver Hc Hp Hsn Ha Hf]. unfold update_from_record. simpl.
  rewrite (proj2 (installation_Ok _ _ (ur_current r))) by (split; [by destruct (installation_fields _)|done]).
  cbn [result_bind].
  rewrite (proj2 (installation_Ok _ _ (pu_installation <$> ur_prepared r))).
  2:{ split; [by destruct (installation_fields _)|]. intros i Hi. destruct (ur_prepared r); [|done]. simplify_eq/=.
      by apply Hp. }
  cbn [result_bind]. rewrite (proj2 (optional_receipt_Ok _ _ (ur_prepared r))).
  2:{ split_and!; [done..|]. intros q Hq. by apply Hp. }
  cbn [result_bind].
  rewrite (proj2 (installation_Ok _ _ (au_previous <$> ur_activation r))).
  2:{ split; [by destruct (installation_fields _)|]. intros i Hi. destruct (ur_activation r); [|done]. simplify_eq/=.
      by apply Ha. }
  cbn [result_bind]. rewrite (proj2 (installation_Ok _ _ (au_installation <$> ur_activation r))).
  2:{ split; [by destruct (installation_fields _)|]. intros i Hi. destruct (ur_activation r); [|done]. simplify_eq/=.
      by apply Ha. }
  cbn [result_bind]. rewrite (proj2 (stored_activation_Ok _ _ _ (ur_activation r))).
  2:{ split_and!; [done..|]. intros a Hx. destruct (Ha a Hx) as (? & ? & ? & ?). done. }
  cbn [result_bind]. rewrite (proj2 (stored_failure_Ok _ _ (ur_failure r))) by done. cbn [result_bind].
  rewrite (proj2 (parse_digest_Ok _ _) (conj eq_refl Hid)). cbn [result_bind].
  rewrite (parse_option_id CoreVersion_parse) by done. cbn [result_bind corrupt].
  rewrite (proj2 (update_phase_Ok _ (ur_phase r)) eq_refl). cbn [result_bind].
  rewrite (parse_option_id parse_digest).
  2:{ intros x Hx. apply parse_digest_Ok. split; [done|]. destruct (ur_service_snapshot r); [|done].
      simplify_eq/=. by apply Hsn. }
  cbn [result_bind]. apply corrupt_Ok. rewrite <- Hr. f_equal. destruct r as [? ? ? ? ? ? [[]|] ? ?]; done.
Qed.

(** C28: a row of the update journal reads as a record exactly when it is the projection
    of that record, and the record has valid fields, an identity derived from its key
    and receipts that fit its phase: nothing of a handoff is lost by storing it. *)
Theorem journal_rows_are_exact d r :
  update_from_record d = Ok r ↔ CoreUpdateRecord_restore r = Ok r ∧ journal_typed r ∧ d = update_record r.
Proof.
  split; [apply update_from_record_sound|]. intros (? & ? & ->). by apply update_from_record_complete.
Qed.

(** ** Journals that cannot be read back *)

(** Reading a row fails only as corrupt. *)
Definition only_corrupt {A} (r : result CoreUpdateStoreError A) : Prop := ∀ e, r = Err e → e = UpCorrupt.
Lemma only_corrupt_bind {A B} (r : result CoreUpdateStoreError A) (k : A → result CoreUpdateStoreError B) :
  only_corrupt r → (∀ a, only_corrupt (k a)) → only_corrupt (result_bind r k).
Proof. destruct r as [a|e]; simpl; [intros _ Hk; apply Hk|]. intros He _ e' [= <-]. by apply He. Qed.
Lemma only_corrupt_corrupt {E A} (r : result E A) : only_corrupt (corrupt r).
Proof. destruct r; intros ?; simpl; congruence. Qed.
Lemma only_corrupt_Ok {A} (a : A) : only_corrupt (Ok a).
Proof. done. Qed.
Lemma only_corrupt_Err {A} : only_corrupt (@Err _ A UpCorrupt).
Proof. intros e. congruence. Qed.

Lemma update_from_record_error d : only_corrupt (update_from_record d).
Proof.
  unfold update_from_record, installation, optional_receipt, stored_activation, stored_failure, parse_digest,
    update_phase, parse_option, ok_or.
  repeat first [apply only_corrupt_corrupt | apply only_corrupt_Ok | apply only_corrupt_Err
    | (apply only_corrupt_bind; [|intros ?]) | case_match].
Qed.

Lemma installation_fields_inj o o' : installation_fields o = installation_fields o' → o = o'.
Proof. destruct o as [[]|], o' as [[]|]; simpl; congruence. Qed.

(** A row determines the current installation and the previous one of the activation. *)
Lemma update_record_handoff r r' :
  update_record r = update_record r' →
  ur_current r = ur_current r' ∧ au_previous <$> ur_activation r = au_previous <$> ur_activation r'.
Proof.
  intros Hd. split; apply installation_fields_inj, injective_projections.
  - exact (f_equal ud_current_version Hd).
  - exact (f_equal ud_current_source_identity Hd).
  - exact (f_equal ud_activation_previous_version Hd).
  - exact (f_equal ud_activation_previous_source_identity Hd).
Qed.

(** A journal whose activation replaces another installation than the recorded one is
    written by a rollback and can never be read back. *)
Theorem mismatched_activation_is_unreadable r a c :
  ur_activation r = Some a → ur_current r = Some c → au_previous a ≠ c →
  update_from_record (update_record r) = Err UpCorrupt.
Proof.
  intros Ha Hc Hne. destruct (update_from_record (update_record r)) as [r'|e] eqn:E.
  - apply update_from_record_sound in E as (Hr & _ & Hd). exfalso.
    apply update_record_handoff in Hd as [Hc' Ha']. rewrite Hc in Hc'. rewrite Ha in Ha'.
    destruct (ur_activation r') as [a'|] eqn:E'; [|done]. injection Ha' as Ha'.
    unfold CoreUpdateRecord_restore in Hr. destruct (_ || _); [done|].
    apply result_bind_Ok in Hr as (i & _ & Hr). destruct (negb _); [done|].
    apply result_bind_Ok in Hr as ([] & Hr & _). unfold validate_update_record in Hr.
    destruct (negb _); [done|]. destruct (_ && _); [done|]. rewrite E', <- Hc' in Hr. simpl in Hr.
    apply result_bind_Ok in Hr as (q & _ & Hr). rewrite bool_decide_false in Hr; [done|congruence].
  - by rewrite (update_from_record_error _ _ E).
Qed.
End rows.

(** ** The store *)

Definition update_store_error (error : DatabaseError) : CoreUpdateStoreError :=
  match error with
  | DbConflict _ _ _ _ | DbIdempotencyConflict _ => UpConflict
  | DbCorrupt _ => UpCorrupt
  | DbNotFound _ _ | DbInvalidInput _ _ | DbUnavailable _ | DbClosed => UpUnavailable
  end.

Definition database_idempotency_key (record : CoreUpdateRecord) (phase : string) (expected_revision : Z) : string :=
  "core-update:" +:+ ur_update_id record +:+ ":" +:+ phase +:+ ":" +:+ to_decimal expected_revision.

Section store.
Context {C : Type} `{!Sqlite C, !DatabaseClock C, !Sha256, !Json DatabaseCommit,
  !Json (list DatabaseCommit), !Json CoreUpdateDatabaseRecord}.
Abbreviation US := (SE (DatabaseManager C) CoreUpdateStoreError).

#[export] Instance core_update_row : DatabaseRecord CoreUpdateDatabaseRecord := {|
  record_collection := CoreUpdates; record_version_of := 1; record_identifier := ud_idempotency_key |}.

Definition versioned_update (stored : DatabaseStoredRecord CoreUpdateDatabaseRecord)
  : result CoreUpdateStoreError VersionedCoreUpdateRecord :=
  let? record := update_from_record (sr_value stored) in
  Ok {| vu_record := record; vu_revision := sr_revision stored |}.

Definition database_update_records : US (list VersionedCoreUpdateRecord) := λ m,
  match database_read_all (R := CoreUpdateDatabaseRecord) m with
  | (Ok stored, m) => (parse_all versioned_update stored, m)
  | (Err e, m) => (Err (update_store_error e), m)
  end.

Definition database_update_read (idempotency_key : string) : US (option VersionedCoreUpdateRecord) := λ m,
  match database_read_record (R := CoreUpdateDatabaseRecord) idempotency_key m with
  | (Ok stored, m) => (let? v := versioned_update stored in Ok (Some v), m)
  | (Err (DbNotFound _ _), m) => (Ok None, m)
  | (Err e, m) => (Err (update_store_error e), m)
  end.

(** [self.database.write(save(key, update_record(&record), expected))] *)
Definition database_update_save (key : string) (record : CoreUpdateRecord) (expected : DatabaseRevision)
  : US VersionedCoreUpdateRecord :=
  do! (commit, _) <- se_map_err update_store_error (database_write
    (CommandSave key (update_record record) expected)) in
  se_ret {| vu_record := record; vu_revision := dc_revision commit |}.

Definition database_update_create (record : CoreUpdateRecord) : US VersionedCoreUpdateRecord :=
  database_update_save (database_idempotency_key record "create" 0) record RevisionMissing.

Definition database_update_replace (record : CoreUpdateRecord) (expected_revision : Z)
  : US VersionedCoreUpdateRecord :=
  database_update_save (database_idempotency_key record (phase_name (ur_phase record)) expected_revision)
    record (RevisionExact expected_revision).

#[export] Instance database_update_store : CoreUpdateStore (DatabaseManager C) := {|
  update_read := database_update_read;
  update_create := database_update_create;
  update_replace := database_update_replace;
|}.
End store.
