(* ===== verification/UpdateInventory.v ===== *)
(** * A verified tree is its release

    The inventory check of [li_core_update_artifact_provider.rs] against the plain
    description of a complete native tree: the manifest, the [bin] directory and one
    protected file for every file of the release, nothing else and nothing twice. *)

From Stdlib Require Import String.
From S2P Require Import Prelude Values Text Database UpdateContract UpdateArtifacts.

(** ** Collected entries *)

Definition directory_ok (e : CoreUpdateArtifactEntry) : Prop :=
  ae_mode e = IMMUTABLE_DIRECTORY_MODE ∧ ae_bytes e = 0 ∧ ae_sha256 e = None.
Definition entry_ok (e : CoreUpdateArtifactEntry) : Prop :=
  require_relative_path (ae_relative_path e) = Ok () ∧ (ae_kind e = EntryDirectory → directory_ok e).

Lemma directory_check e :
  (negb (ae_mode e =? IMMUTABLE_DIRECTORY_MODE) || negb (ae_bytes e =? 0) || is_some (ae_sha256 e)) = false
  ↔ directory_ok e.
Proof.
  unfold directory_ok. rewrite !orb_false_iff, !negb_false_iff, !Z.eqb_eq.
  destruct (ae_sha256 e); simpl; naive_solver.
Qed.

(** Entries listed once, all of them fresh. *)
Definition fresh_entries (l : list CoreUpdateArtifactEntry) (s : gset Path) : Prop :=
  NoDup (ae_relative_path <$> l) ∧ ∀ e, e ∈ l → ae_relative_path e ∉ s ∧ entry_ok e.

Lemma fresh_entries_cons x l s :
  fresh_entries (x :: l) s ↔
  ae_relative_path x ∉ s ∧ entry_ok x ∧ fresh_entries l ({[ae_relative_path x]} ∪ s).
Proof.
  unfold fresh_entries. rewrite fmap_cons, NoDup_cons, list_elem_of_fmap. setoid_rewrite not_elem_of_union.
  setoid_rewrite elem_of_cons. setoid_rewrite not_elem_of_singleton. split; [|naive_solver].
  intros [[Hx Hnd] Hall]. split; [by apply Hall; left|]. split; [by apply Hall; left|]. split; [done|].
  intros e He. destruct (Hall e) as [? ?]; [by right|]. split_and!; [|done|done]. intros Hp. apply Hx. eauto.
Qed.

Lemma paths_cons (x : CoreUpdateArtifactEntry) (l : list CoreUpdateArtifactEntry) (s : gset Path) :
  list_to_set (ae_relative_path <$> l) ∪ ({[ae_relative_path x]} ∪ s) =
  list_to_set (ae_relative_path <$> (x :: l)) ∪ s.
Proof. rewrite fmap_cons, list_to_set_cons, !(assoc_L (∪)). f_equal. apply (comm_L (∪)). Qed.

Lemma collect_entries_sound l f s f' s' :
  dom f ⊆ s → collect_entries l f s = Ok (f', s') →
  fresh_entries l s ∧ s' = list_to_set (ae_relative_path <$> l) ∪ s ∧
  (∀ k e, f' !! k = Some e ↔ f !! k = Some e ∨ e ∈ l ∧ ae_kind e = EntryRegularFile ∧ ae_relative_path e = k).
Proof.
  revert f s. induction l as [|x l IH]; intros f s Hf; cbn [collect_entries].
  - intros [= <- <-]. split_and!; [split; [apply NoDup_nil_2|by intros e He%elem_of_nil]|symmetry; apply union_empty_l_L|].
    intros k e. rewrite elem_of_nil. naive_solver.
  - intros ([] & Hrel & Hc)%result_bind_Ok. destruct (decide _) as [|Hx]; [done|].
    cbv zeta in Hc. rewrite fresh_entries_cons, <- paths_cons. setoid_rewrite elem_of_cons.
    destruct (ae_kind x) eqn:Hk.
    + destruct (_ || _) eqn:Hd in Hc; [done|]. apply directory_check in Hd.
      apply IH in Hc as (Hfresh & -> & Hl); [|by apply union_subseteq_r'].
      split_and!; [done|by split|done|done|]. intros k e. rewrite Hl.
      split; [intros [?|(? & ? & ?)]; auto|]. intros [?|([->|?] & ? & ?)]; [auto|congruence|auto].
    + apply IH in Hc as (Hfresh & -> & Hl); [|rewrite dom_insert; by apply union_mono_l].
      split_and!; [done|split; [done|congruence]|done|done|]. intros k e. rewrite Hl, lookup_insert_Some. split.
      * intros [[[<- <-]|[_ ?]]|(? & ? & ?)]; auto.
      * intros [Hfk|([->|?] & ? & Hp)]; [|subst k; auto|auto]. left. right. split; [|done].
        intros <-. apply Hx, Hf, elem_of_dom. eauto.
Qed.

Lemma collect_entries_complete l f s : fresh_entries l s → ∃ f' s', collect_entries l f s = Ok (f', s').
Proof.
  revert f s. induction l as [|x l IH]; intros f s; cbn [collect_entries]; [eauto|].
  intros (Hs & [Hrel Hdir] & Hfresh)%fresh_entries_cons.
  rewrite Hrel. cbn [result_bind]. rewrite decide_False by done. cbv zeta.
  destruct (ae_kind x); [|by apply IH]. rewrite (proj2 (directory_check x)) by auto. by apply IH.
Qed.

(** ** Complete trees *)

Section tree.
Context (expected : gmap Path CoreReleaseFileRecord) (manifest_bytes : Z) (manifest_sha256 : string).

(** The files of a release are below their root, apart from the manifest and [bin]. *)
Definition closed_release : Prop :=
  expected ≠ ∅ ∧ ∀ path record, expected !! path = Some record →
    require_relative_path path = Ok () ∧ path ≠ bin_directory ∧ path ≠ manifest_path.

Definition manifest_entry : CoreUpdateArtifactEntry :=
  {| ae_relative_path := manifest_path; ae_kind := EntryRegularFile; ae_mode := IMMUTABLE_FILE_MODE;
     ae_bytes := manifest_bytes; ae_sha256 := Some manifest_sha256 |}.
Definition bin_entry : CoreUpdateArtifactEntry :=
  {| ae_relative_path := bin_directory; ae_kind := EntryDirectory; ae_mode := IMMUTABLE_DIRECTORY_MODE;
     ae_bytes := 0; ae_sha256 := None |}.
Definition file_entry (path : Path) (record : CoreReleaseFileRecord) : CoreUpdateArtifactEntry :=
  {| ae_relative_path := path; ae_kind := EntryRegularFile; ae_mode := installed_mode record;
     ae_bytes := rf_bytes record; ae_sha256 := Some (rf_sha256 record) |}.

(** The entries of a complete tree. *)
Definition release_entry (e : CoreUpdateArtifactEntry) : Prop :=
  e = manifest_entry ∨ e = bin_entry ∨ ∃ path record, expected !! path = Some record ∧ e = file_entry path record.

Lemma expected_paths_spec k :
  expected ≠ ∅ → k ∈ expected_paths expected ↔ k = manifest_path ∨ k = bin_directory ∨ k ∈ dom expected.
Proof.
  intros Hne. unfold expected_paths. rewrite elem_of_list_to_set, elem_of_app, list_elem_of_bind.
  destruct (map_choose expected Hne) as (k0 & r0 & H0). split.
  - intros [([k1 r1] & Hk & Hin%elem_of_map_to_list)|Hk]; [|set_solver].
    assert (k1 ∈ dom expected) by (apply elem_of_dom; eauto). set_solver.
  - intros [->|[->|[r Hr]%elem_of_dom]]; [set_solver|left..].
    + exists (k0, r0). split; [set_solver|by apply elem_of_map_to_list].
    + exists (k, r). split; [set_solver|by apply elem_of_map_to_list].
Qed.

Lemma matches_record_spec f path record :
  matches_record f record = true ↔
  ∃ e, f = Some e ∧ (ae_kind e = EntryRegularFile → ae_relative_path e = path → e = file_entry path record) ∧
       ae_mode e = installed_mode record ∧ ae_bytes e = rf_bytes record ∧ ae_sha256 e = Some (rf_sha256 record).
Proof.
  unfold matches_record. destruct f as [e|]; [|naive_solver].
  rewrite !andb_true_iff, !Z.eqb_eq, bool_decide_eq_true. split; [|naive_solver].
  intros [[Hm Hb] Hs]. exists e. split_and!; [done| |done..]. intros Hk Hp. destruct e; simpl in *; by subst.
Qed.

Lemma same_path (l : list CoreUpdateArtifactEntry) e e' :
  NoDup (ae_relative_path <$> l) → e ∈ l → e' ∈ l → ae_relative_path e = ae_relative_path e' → e = e'.
Proof.
  intros Hnd [i Hi]%list_elem_of_lookup [j Hj]%list_elem_of_lookup Hp.
  assert (i = j) as <-; [|congruence].
  eapply (NoDup_lookup _ i j (ae_relative_path e) Hnd); rewrite list_lookup_fmap; [by rewrite Hi|].
  by rewrite Hj, Hp.
Qed.

Lemma inventory_sound observed :
  closed_release → verify_core_release_inventory expected observed manifest_bytes manifest_sha256 = Ok () →
  NoDup (ae_relative_path <$> observed) ∧ ∀ e, e ∈ observed ↔ release_entry e.
Proof.
  intros [Hne Hclosed] Hv. unfold verify_core_release_inventory in Hv.
  apply result_bind_Ok in Hv as ([f s] & Hc & Hv). apply collect_entries_sound in Hc as ([Hnd Hok] & Hs & Hf); [|done].
  setoid_rewrite lookup_empty in Hf.
  apply result_bind_Ok in Hv as (m & Hm%ok_or_Ok & Hv). cbv zeta in Hv.
  destruct (_ || _) eqn:E1 in Hv; [done|]. destruct (_ || _) eqn:E2 in Hv; [done|].
  destruct (existsb _ _) eqn:E3 in Hv; [done|]. clear Hv.
  rewrite !orb_false_iff, !negb_false_iff, !Z.eqb_eq, bool_decide_eq_true in E1.
  rewrite orb_false_iff, !negb_false_iff, Nat.eqb_eq, bool_decide_eq_true in E2.
  destruct E1 as [[Hm1 Hm2] Hm3], E2 as [Hsize Hpaths].
  apply Hf in Hm as [|(Hin & Hmk & Hmp)]; [done|].
  assert (m = manifest_entry) as -> by (destruct m; simpl in *; by subst). clear Hm1 Hm2 Hm3 Hmk Hmp.
  assert (∀ path record, expected !! path = Some record → file_entry path record ∈ observed) as Hfiles.
  { intros path record Hr. destruct (Hclosed _ _ Hr) as (_ & _ & Hnm).
    assert (matches_record (delete manifest_path f !! path) record = true) as Hmr.
    { apply negb_false_iff. apply (existsb_false _ _ (path, record) E3). by apply elem_of_map_to_list. }
    apply (matches_record_spec _ path) in Hmr as (e & He & Heq & _). rewrite lookup_delete_ne in He by done.
    apply Hf in He as [|(He & Hk & Hp)]; [done|]. by rewrite <- (Heq Hk Hp). }
  assert (dom (delete manifest_path f) = dom expected) as Hdom.
  { symmetry. apply set_subseteq_size_eq; [|by rewrite !size_dom, Hsize].
    intros path [record Hr]%elem_of_dom. destruct (Hclosed _ _ Hr) as (_ & _ & Hnm). apply elem_of_dom.
    exists (file_entry path record). rewrite lookup_delete_ne by done. apply Hf. right. auto. }
  split; [done|]. intros e. split.
  - intros He. destruct (decide (ae_relative_path e = manifest_path)) as [Hp|Hp].
    { left. by eapply same_path. }
    right. destruct (ae_kind e) eqn:Hk.
    + left. destruct (Hok e He) as [_ [_ Hd]]. destruct (Hd Hk) as (Hmode & Hbytes & Hsha).
      assert (ae_relative_path e ∈ expected_paths expected) as Hin'.
      { rewrite <- Hpaths, Hs. apply elem_of_union_l, elem_of_list_to_set, list_elem_of_fmap. eauto. }
      apply expected_paths_spec in Hin' as [?|[Hb|[record Hr]%elem_of_dom]]; [done| | |done].
      * destruct e; simpl in *; by subst.
      * assert (e = file_entry (ae_relative_path e) record) as Heq
          by (eapply same_path; [done|done|by apply Hfiles|done]).
        rewrite Heq in Hk. done.
    + right. assert (ae_relative_path e ∈ dom expected) as [record Hr]%elem_of_dom.
      { rewrite <- Hdom. apply elem_of_dom. exists e. rewrite lookup_delete_ne by done. apply Hf. auto. }
      exists (ae_relative_path e), record. split; [done|]. eapply same_path; [done|done|by apply Hfiles|done].
  - intros [->|[->|(path & record & Hr & ->)]]; [done| |by apply Hfiles].
    assert (bin_directory ∈ list_to_set (ae_relative_path <$> observed) ∪ (∅ : gset Path)) as Hb.
    { rewrite <- Hs, Hpaths. apply expected_paths_spec; auto. }
    rewrite union_empty_r_L, elem_of_list_to_set, list_elem_of_fmap in Hb. destruct Hb as (e & Hp & He).
    destruct (ae_kind e) eqn:Hk.
    + destruct (Hok e He) as [_ [_ Hd]]. destruct (Hd Hk) as (Hmode & Hbytes & Hsha).
      assert (e = bin_entry) as <-; [|done]. destruct e; simpl in *; by subst.
    + exfalso. assert (bin_directory ∈ dom expected) as [record Hr]%elem_of_dom.
      { rewrite <- Hdom. apply elem_of_dom. exists e. rewrite lookup_delete_ne by done. apply Hf. auto. }
      by apply Hclosed in Hr as (_ & ? & _).
Qed.

Lemma inventory_complete observed :
  closed_release → NoDup (ae_relative_path <$> observed) → (∀ e, e ∈ observed ↔ release_entry e) →
  verify_core_release_inventory expected observed manifest_bytes manifest_sha256 = Ok ().
Proof.
  intros [Hne Hclosed] Hnd Hall.
  assert (∀ e, e ∈ observed → entry_ok e) as Hok.
  { intros e [->|[->|(path & record & Hr & ->)]]%Hall; [by split|by split; [|intros _; split]|].
    destruct (Hclosed _ _ Hr). by split. }
  destruct (collect_entries_complete observed ∅ ∅) as (f & s & Hc).
  { split; [done|]. intros e He. split; [apply not_elem_of_empty|by apply Hok]. }
  unfold verify_core_release_inventory. rewrite Hc. cbn [result_bind].
  apply collect_entries_sound in Hc as (_ & Hs & Hf); [|done]. setoid_rewrite lookup_empty in Hf.
  assert (f !! manifest_path = Some manifest_entry) as Hm.
  { apply Hf. right. split_and!; [apply Hall; by left|done..]. }
  rewrite Hm. cbn [ok_or result_bind ae_mode ae_bytes ae_sha256 manifest_entry]. cbv zeta.
  rewrite !Z.eqb_refl, (bool_decide_true (Some _ = _)) by done. cbn [negb orb].
  assert (∀ path record, expected !! path = Some record →
    delete manifest_path f !! path = Some (file_entry path record)) as Hfiles.
  { intros path record Hr. destruct (Hclosed _ _ Hr) as (_ & _ & ?). rewrite lookup_delete_ne by done.
    apply Hf. right. split_and!; [apply Hall|done..]. right. right. eauto. }
  assert (dom (delete manifest_path f) = dom expected) as Hdom.
  { apply set_eq. intros k. rewrite !elem_of_dom. split.
    - intros [e He]. apply lookup_delete_Some in He as [Hk He]. apply Hf in He as [|(Hin & Hkind & Hp)]; [done|].
      apply Hall in Hin as [->|[->|(path & record & Hr & ->)]]; [done|done|]. simpl in Hp. subst. eauto.
    - intros [record Hr]. eauto. }
  assert (size (delete manifest_path f) = size expected) as -> by (by rewrite <- !size_dom, Hdom).
  rewrite Nat.eqb_refl. cbn [negb orb].
  assert (s = expected_paths expected) as ->.
  { rewrite Hs. apply set_eq. intros k. rewrite expected_paths_spec by done.
    rewrite union_empty_r_L, elem_of_list_to_set, list_elem_of_fmap. split.
    - intros (e & -> & [->|[->|(path & record & Hr & ->)]]%Hall); [auto|auto|]. right. right. apply elem_of_dom. eauto.
    - intros [->|[->|[record Hr]%elem_of_dom]].
      + exists manifest_entry. split; [done|]. apply Hall. by left.
      + exists bin_entry. split; [done|]. apply Hall. right. by left.
      + exists (file_entry k record). split; [done|]. apply Hall. right. right. eauto. }
  rewrite bool_decide_true by done. cbn [negb].
  destruct (existsb _ _) eqn:E; [|done]. apply existsb_exists in E as ([path record] & Hin & Hb).
  apply list_elem_of_In, elem_of_map_to_list in Hin. rewrite (Hfiles _ _ Hin) in Hb.
  unfold matches_record in Hb. simpl in Hb. by rewrite !Z.eqb_refl, bool_decide_true in Hb.
Qed.

End tree.

(** ** Manifests *)

(** Every key of an accepted manifest is a required path below the root. *)
Lemma manifest_files_keys files total records records' :
  manifest_files files total records = Ok records' →
  (∀ k r, records' !! k = Some r → is_Some (records !! k) ∨
     require_relative_path k = Ok () ∧ k ≠ manifest_path ∧ ∃ text, text ∈ files.*2 ∧ k = path_of text) ∧
  dom records ⊆ dom records' ∧ (files ≠ [] → records' ≠ ∅).
Proof.
  revert total records. induction files as [|[record text] files IH]; intros total records; cbn [manifest_files].
  - intros [= <-]. split_and!; eauto.
  - destruct (bool_decide _) eqn:Ht; [|done]. apply bool_decide_eq_true in Ht as <-. cbn [negb]. cbv zeta.
    intros ([] & Hrel & Hm)%result_bind_Ok. destruct (_ || _) eqn:Hg in Hm; [done|].
    rewrite !orb_false_iff, bool_decide_eq_false in Hg. destruct Hg as [[[Hg _] _] _].
    apply result_bind_Ok in Hm as (total' & _ & Hm). destruct (_ <? _); [done|].
    apply result_bind_Ok in Hm as (digest & _ & Hm). apply IH in Hm as (Hk & Hdom & _).
    rewrite dom_insert in Hdom. split_and!.
    + intros k r [Hr|(? & ? & t & ? & ->)]%Hk; [|by right; split_and!; [..|exists t; set_solver]].
      destruct (decide (k = path_of (fd_path record))) as [->|Hne].
      * right. split_and!; [done|done|]. exists (fd_path record). set_solver.
      * rewrite lookup_insert_ne in Hr by done. by left.
    + set_solver.
    + intros _ ->. rewrite dom_empty in Hdom. set_solver.
Qed.

(** No required path is the directory of the others. *)
Lemma file_paths_below platform text : text ∈ file_paths platform → path_of text ≠ bin_directory.
Proof.
  assert (Forall (λ text, path_of text ≠ bin_directory) (file_paths platform)) as Hall
    by (destruct platform; repeat constructor; by vm_compute).
  rewrite Forall_forall in Hall. auto.
Qed.

Lemma parsed_manifest_closed `{!ReleaseJson} bytes manifest :
  parse_core_release_manifest bytes = Ok manifest → closed_release (rm_files manifest).
Proof.
  unfold parse_core_release_manifest. intros (document & _ & Hm)%result_bind_Ok.
  destruct (_ || _); [done|]. apply result_bind_Ok in Hm as (version & _ & Hm).
  apply result_bind_Ok in Hm as (platform & _ & Hm). cbv zeta in Hm.
  destruct (_ || _) eqn:Hl in Hm; [done|]. apply orb_false_iff in Hl as [Hl%negb_false_iff%Nat.eqb_eq _].
  apply result_bind_Ok in Hm as (records & Hr & [= <-]). simpl.
  apply manifest_files_keys in Hr as (Hk & _ & Hne). split.
  - apply Hne. intros Hz. apply (f_equal length) in Hz. rewrite length_zip, Hl in Hz. by destruct platform.
  - intros path record [[? ?]|(Hrel & Hmp & text & Hin & ->)]%Hk; [done|].
    split_and!; [done| |done]. apply (file_paths_below platform).
    by rewrite snd_zip in Hin by lia.
Qed.

(** C26: against the files of an accepted release manifest, the inventory of an installed
    tree is accepted exactly when its entries are the manifest, the [bin] directory and
    one protected file of the recorded size and digest for every file of the release,
    no path twice and nothing else. *)
Theorem inventory_is_the_release `{!ReleaseJson} bytes manifest observed manifest_bytes manifest_sha256 :
  parse_core_release_manifest bytes = Ok manifest →
  verify_core_release_inventory (rm_files manifest) observed manifest_bytes manifest_sha256 = Ok () ↔
  NoDup (ae_relative_path <$> observed) ∧
  ∀ e, e ∈ observed ↔ release_entry (rm_files manifest) manifest_bytes manifest_sha256 e.
Proof.
  intros Hc%parsed_manifest_closed. split; [by apply inventory_sound|]. intros [? ?]. by apply inventory_complete.
Qed.

(** ** An accepted tree *)

Module InventoryLab.
Definition digest : string := "0000000000000000000000000000000000000000000000000000000000000000".
Definition document : CoreReleaseManifestDocument :=
  {| md_schema_name := CORE_RELEASE_MANIFEST_SCHEMA_NAME; md_schema_version := 1; md_release_version := "1.0.0";
     md_os := "linux"; md_architecture := "arm64";
     md_files := (λ path, {| fd_path := path; fd_bytes := 7; fd_mode := 7 * 64 + 5 * 8 + 5; fd_sha256 := digest |})
                   <$> file_paths LinuxArm64 |}.

(** A reader of one text. *)
#[local] Instance lab_json : ReleaseJson := {|
  JsonValue := CoreReleaseManifestDocument;
  json_from_slice text := if bool_decide (text = "{}" +:+ nl) then Some document else None;
  json_to_vec _ := Some "{}"%string;
  json_from_value := Some;
|}.
Definition files : gmap Path CoreReleaseFileRecord :=
  match parse_core_release_manifest ("{}" +:+ nl) with Ok manifest => rm_files manifest | Err _ => ∅ end.
Definition tree : list CoreUpdateArtifactEntry :=
  manifest_entry 3 digest :: bin_entry :: ((λ '(path, record), file_entry path record) <$> map_to_list files).

Lemma inventory_is_the_release_witness :
  release_entry files 3 digest bin_entry ∧
  verify_core_release_inventory files (bin_entry :: tree) 3 digest ≠ Ok ().
Proof.
  assert (parse_core_release_manifest ("{}" +:+ nl) =
    Ok {| rm_version := "1.0.0"; rm_platform := LinuxArm64; rm_files := files |}) as Hm by (by vm_compute).
  split.
  - apply (inventory_is_the_release _ _ tree 3 digest Hm); [by vm_compute|]. right. left.
  - intros [Hnd _]%(inventory_is_the_release _ _ _ 3 digest Hm). unfold tree in Hnd. rewrite !fmap_cons in Hnd.
    apply NoDup_cons in Hnd as [Hnd _]. apply Hnd. right. left.
Defined.
End InventoryLab.
