(* ===== verification/NodeProtection.v ===== *)
(** * Protection leases of a node

    [core/node/src/li_node_protection_lease.rs]: the Watchdog sessions of a node and the
    leases that completed cycles grant, the resolution of a cycle's targets to placements,
    and the snapshot that the Gateway judges; the durable session generations of
    [li_node_protection_session_database.rs] over the database, and the dispatcher of
    [li_node_protection_api.rs].  The mutex of the lease store covers one region per call,
    a function on [NodeProtectionLeaseState]; placements, nodes, live targets, the clock
    and authorization are classes over the world. *)

From Stdlib Require Import String.
From S2P Require Import Prelude Ordering Values Text GatewayContract GatewayProtection.
From S2P Require Import WatchdogRecord WatchdogContract WatchdogManager.
From S2P Require Import Placement PlacementContract PlacementProtection.

(** ** Leases, bindings and sessions *)

Definition MAXIMUM_LEASE_MILLISECONDS : Z := 60000.

Inductive NodeProtectionLeaseError :=
| LeaseInvalidContract | LeaseSessionUnavailable | LeaseRegressedCycle | LeaseStateUnavailable.
#[export] Instance NodeProtectionLeaseError_eq_dec : EqDecision NodeProtectionLeaseError.
Proof. solve_decision. Defined.

Record NodeProtectionLeaseBinding := {
  nb_node_id : string;
  nb_placement_group_id : string;
  nb_placement_id : string;
  nb_target : PlacementProtectedTarget;
}.

Inductive NodeState := NodePending | NodeActive | NodeDraining | NodeOffline | NodeRemoved.
#[export] Instance NodeState_eq_dec : EqDecision NodeState.
Proof. solve_decision. Defined.
#[export] Instance GatewayProtectionAuthority_eq_dec : EqDecision GatewayProtectionAuthority.
Proof. solve_decision. Defined.

Record NodeProtectionNodeStatus := {
  nn_node_id : string;
  nn_core_installation_id : string;
  nn_state : NodeState;
}.

Record NodeProtectionSession := {
  ns_authority : GatewayProtectionAuthority;
  ns_connected_at : Z;
  ns_minimum_sample_sequence : Z;
  ns_last_sequence : option Z;
  ns_last_observed_at : option Z;
  ns_last_monotonic_milliseconds : option Z;
}.

Record NodeProtectionLeaseState := {
  np_sessions : gmap string NodeProtectionSession;
  np_leases : gmap (string * string) GatewayPlacementProtectionLease;
}.

Definition NodeProtectionLeaseState_new : NodeProtectionLeaseState :=
  {| np_sessions := ∅; np_leases := ∅ |}.

(** [watchdog.phase() == Armed && ..]: the Watchdog and Placement name one process. *)
Definition target_matches (watchdog : WatchdogProtectedEngine) (placement : PlacementProtectedTarget) : bool :=
  let process := pt_process placement in
  bool_decide (phase watchdog = Armed)
  && bool_decide (generation watchdog = pt_generation placement)
  && bool_decide (container_name watchdog = lp_container_name process)
  && bool_decide (container_id watchdog = Some (lp_container_id process))
  && bool_decide (process_id watchdog = Some (lp_process_id process))
  && bool_decide (process_start_ticks watchdog = Some (lp_process_start_ticks process))
  && bool_decide (boot_id watchdog = Some (lp_boot_id process))
  && bool_decide (cgroup watchdog = Some (lp_cgroup process)).

Definition lease_matches_target (lease : GatewayPlacementProtectionLease) (target : PlacementProtectedTarget)
  : bool :=
  let process := pt_process target in
  bool_decide (lease_protection_generation lease = pt_generation target)
  && bool_decide (lease_container_name lease = lp_container_name process)
  && bool_decide (lease_container_id lease = lp_container_id process)
  && (lease_process_id lease =? lp_process_id process)
  && (lease_process_start_ticks lease =? lp_process_start_ticks process)
  && bool_decide (lease_boot_id lease = lp_boot_id process)
  && bool_decide (lease_cgroup lease = lp_cgroup process).

(** ** Leases of a cycle *)

(** The lease that a seed grants to its binding. *)
Definition lease_for (session : NodeProtectionSession) (cycle : WatchdogProtectionCycle)
    (binding : NodeProtectionLeaseBinding) (expires_at : Z)
  : result NodeProtectionLeaseError GatewayPlacementProtectionLease :=
  let authority := ns_authority session in
  let process := pt_process (nb_target binding) in
  if cycle_sample_sequence cycle =? 0 then Err LeaseInvalidContract
  else match lease_new {|
    lease_node_id := nb_node_id binding;
    lease_group_id := nb_placement_group_id binding;
    lease_placement_id := nb_placement_id binding;
    lease_core_installation_id := auth_core_installation_id authority;
    lease_watchdog_source_identity := auth_watchdog_source_identity authority;
    lease_session_id := auth_session_id authority;
    lease_session_generation := auth_session_generation authority;
    lease_protection_generation := pt_generation (nb_target binding);
    lease_container_name := lp_container_name process;
    lease_container_id := lp_container_id process;
    lease_process_id := lp_process_id process;
    lease_process_start_ticks := lp_process_start_ticks process;
    lease_boot_id := lp_boot_id process;
    lease_cgroup := lp_cgroup process;
    lease_sample_sequence := cycle_sample_sequence cycle;
    lease_observed_at := cycle_observed_at_unix_milliseconds cycle;
    lease_observed_at_monotonic := cycle_observed_at_monotonic_milliseconds cycle;
    lease_expires_at := expires_at;
    lease_armed := true;
    lease_trip_latched := false |} with
  | Ok lease => Ok lease
  | Err _ => Err LeaseInvalidContract
  end.

(** The loop over the targets of the cycle; [used] are the indices of taken bindings. *)
Fixpoint seed_leases (session : NodeProtectionSession) (cycle : WatchdogProtectionCycle)
    (bindings : list NodeProtectionLeaseBinding) (expires_at : Z)
    (targets : list WatchdogProtectedEngine) (used : gset nat)
  : result NodeProtectionLeaseError (list GatewayPlacementProtectionLease * gset nat) :=
  match targets with
  | [] => Ok ([], used)
  | seed :: targets =>
    match List.filter (λ '(_, binding), target_matches seed (nb_target binding)) (imap pair bindings) with
    | [(index, binding)] =>
      if decide (index ∈ used) then Err LeaseInvalidContract
      else
        let? lease := lease_for session cycle binding expires_at in
        let? seeded := seed_leases session cycle bindings expires_at targets ({[index]} ∪ used) in
        let '(leases, used) := seeded in
        Ok (lease :: leases, used)
    | _ => Err LeaseInvalidContract
    end
  end.

Definition leases_for_cycle (session : NodeProtectionSession) (cycle : WatchdogProtectionCycle)
    (bindings : list NodeProtectionLeaseBinding) (expires_at : Z)
  : result NodeProtectionLeaseError (list GatewayPlacementProtectionLease) :=
  let? seeded := seed_leases session cycle bindings expires_at (cycle_targets cycle) ∅ in
  let '(leases, used) := seeded in
  if negb (size used =? length bindings)%nat then Err LeaseInvalidContract
  else Ok (sort_by (λ left right, String.compare (lease_placement_id left) (lease_placement_id right)) leases).

(** ** The lease store *)

Abbreviation LS := (SE NodeProtectionLeaseState NodeProtectionLeaseError).

(** [leases.retain(|_, lease| lease.node_id() != node_id)] *)
Definition without_node (node_id : string) (leases : gmap (string * string) GatewayPlacementProtectionLease)
  : gmap (string * string) GatewayPlacementProtectionLease :=
  filter (λ kl, lease_node_id kl.2 ≠ node_id) leases.

Definition begin_watchdog_session (authority : GatewayProtectionAuthority) (connected_at : Z)
    (minimum_sample_sequence : Z) : LS () := λ st,
  let node_id := auth_node_id authority in
  match np_sessions st !! node_id with
  | Some session =>
    if bool_decide (ns_authority session = authority)
       && (ns_minimum_sample_sequence session =? minimum_sample_sequence)
    then (Ok (), st) else (Err LeaseRegressedCycle, st)
  | None =>
    (Ok (), {| np_sessions :=
                 <[node_id := {| ns_authority := authority; ns_connected_at := connected_at;
                    ns_minimum_sample_sequence := minimum_sample_sequence; ns_last_sequence := None;
                    ns_last_observed_at := None; ns_last_monotonic_milliseconds := None |}]> (np_sessions st);
               np_leases := without_node node_id (np_leases st) |})
  end.

(** [session.authority] has the identity and the generation. *)
Definition is_session (session : NodeProtectionSession) (session_id : string) (session_generation : Z) : bool :=
  bool_decide (auth_session_id (ns_authority session) = session_id)
  && (auth_session_generation (ns_authority session) =? session_generation).

Definition end_watchdog_session (node_id watchdog_session_id : string) (watchdog_session_generation : Z)
  : LS () := λ st,
  if is_some_and (np_sessions st !! node_id)
       (λ session, is_session session watchdog_session_id watchdog_session_generation)
  then (Ok (), {| np_sessions := delete node_id (np_sessions st);
                  np_leases := without_node node_id (np_leases st) |})
  else (Ok (), st).

Definition cycle_regresses (session : NodeProtectionSession) (cycle : WatchdogProtectionCycle) : bool :=
  (cycle_sample_sequence cycle <? ns_minimum_sample_sequence session)
  || (cycle_observed_at_unix_milliseconds cycle <? ns_connected_at session)
  || is_some_and (ns_last_sequence session) (λ sequence, cycle_sample_sequence cycle <? sequence)
  || is_some_and (ns_last_observed_at session)
       (λ observed, cycle_observed_at_unix_milliseconds cycle <? observed)
  || is_some_and (ns_last_monotonic_milliseconds session)
       (λ observed, cycle_observed_at_monotonic_milliseconds cycle <? observed).

(** The leases of a node in the order of the map's keys. *)
Definition compare_lease_keys (left right : string * string) : comparison :=
  then_with (String.compare left.1 right.1) (String.compare left.2 right.2).
Definition leases_of (node_id : string) (st : NodeProtectionLeaseState) : list GatewayPlacementProtectionLease :=
  List.filter (λ lease, bool_decide (lease_node_id lease = node_id))
    (sort_by (λ left right, compare_lease_keys left.1 right.1) (map_to_list (np_leases st))).*2.

Definition insert_leases (next : list GatewayPlacementProtectionLease)
    (leases : gmap (string * string) GatewayPlacementProtectionLease)
  : gmap (string * string) GatewayPlacementProtectionLease :=
  foldl (λ m lease, <[(lease_group_id lease, lease_placement_id lease) := lease]> m) leases next.

Definition advanced_session (cycle : WatchdogProtectionCycle) (session : NodeProtectionSession)
  : NodeProtectionSession :=
  {| ns_authority := ns_authority session; ns_connected_at := ns_connected_at session;
     ns_minimum_sample_sequence := ns_minimum_sample_sequence session;
     ns_last_sequence := Some (cycle_sample_sequence cycle);
     ns_last_observed_at := Some (cycle_observed_at_unix_milliseconds cycle);
     ns_last_monotonic_milliseconds := Some (cycle_observed_at_monotonic_milliseconds cycle) |}.

Definition commit_protection_cycle (node_id watchdog_session_id : string) (watchdog_session_generation : Z)
    (cycle : WatchdogProtectionCycle) (bindings : list NodeProtectionLeaseBinding) (lease_milliseconds : Z)
  : LS (list GatewayPlacementProtectionLease) := λ st,
  if (cycle_sample_sequence cycle =? 0) || (lease_milliseconds =? 0)
     || (MAXIMUM_LEASE_MILLISECONDS <? lease_milliseconds)
     || existsb (λ binding, negb (bool_decide (nb_node_id binding = node_id))) bindings
  then (Err LeaseInvalidContract, st)
  else match np_sessions st !! node_id with
  | None => (Err LeaseSessionUnavailable, st)
  | Some session =>
    if negb (is_session session watchdog_session_id watchdog_session_generation)
    then (Err LeaseSessionUnavailable, st)
    else if cycle_regresses session cycle then (Err LeaseRegressedCycle, st)
    else match checked_add_u64 (cycle_observed_at_unix_milliseconds cycle) lease_milliseconds with
    | None => (Err LeaseInvalidContract, st)
    | Some expires_at =>
      match leases_for_cycle session cycle bindings expires_at with
      | Err e => (Err e, st)
      | Ok next =>
        if bool_decide (ns_last_sequence session = Some (cycle_sample_sequence cycle))
        then if bool_decide (leases_of node_id st = next) then (Ok next, st)
             else (Err LeaseRegressedCycle, st)
        else (Ok next, {| np_sessions := <[node_id := advanced_session cycle session]> (np_sessions st);
                          np_leases := insert_leases next (without_node node_id (np_leases st)) |})
      end
    end
  end.

(** ** Snapshots *)

(** The nodes of the expected placements, in order. *)
Definition expected_nodes (expected : list (string * string)) : list string :=
  sort_by String.compare (elements (list_to_set expected.*2 : gset string)).

(** [authorities.push(session.authority.clone())] for each node, [None] without a session. *)
Fixpoint session_authorities (st : NodeProtectionLeaseState) (node_ids : list string)
  : option (list GatewayProtectionAuthority) :=
  match node_ids with
  | [] => Some []
  | node_id :: node_ids =>
    match np_sessions st !! node_id with
    | None => None
    | Some session =>
      match session_authorities st node_ids with
      | None => None
      | Some authorities => Some (ns_authority session :: authorities)
      end
    end
  end.

Definition snapshot_from_state (st : NodeProtectionLeaseState) (placement_group_id : string)
    (expected : list (string * string))
  : result NodeProtectionLeaseError (option GatewayPlacementProtectionSnapshot) :=
  match session_authorities st (expected_nodes expected) with
  | None => Ok None
  | Some authorities =>
    let leases := omap (λ '(placement_id, _), np_leases st !! (placement_group_id, placement_id)) expected in
    match snapshot_new {| snap_group_id := placement_group_id; snap_expected_placements := expected;
                          snap_authorities := authorities; snap_leases := leases |} with
    | Ok snapshot => Ok (Some snapshot)
    | Err _ => Err LeaseInvalidContract
    end
  end.

Definition placement_group_snapshot (placement_group_id : string) (expected : list (string * string))
  : LS (option GatewayPlacementProtectionSnapshot) := λ st,
  (snapshot_from_state st placement_group_id expected, st).

(** The loop over the nodes: [Ok false] is [return Ok(None)]. *)
Fixpoint nodes_are_active (st : NodeProtectionLeaseState) (statuses : gmap string NodeProtectionNodeStatus)
    (node_ids : list string) : result NodeProtectionLeaseError bool :=
  match node_ids with
  | [] => Ok true
  | node_id :: node_ids =>
    match np_sessions st !! node_id with
    | None => Ok false
    | Some session =>
      let? status := ok_or LeaseInvalidContract (statuses !! node_id) in
      if negb (bool_decide (nn_state status = NodeActive))
         || negb (bool_decide (nn_core_installation_id status = auth_core_installation_id (ns_authority session)))
      then Ok false else nodes_are_active st statuses node_ids
    end
  end.

Definition placement_group_snapshot_for_nodes (placement_group_id : string) (expected : list (string * string))
    (node_statuses : list NodeProtectionNodeStatus)
  : LS (option GatewayPlacementProtectionSnapshot) := λ st,
  let statuses : gmap string NodeProtectionNodeStatus :=
    foldl (λ m status, <[nn_node_id status := status]> m) ∅ node_statuses in
  if negb (size statuses =? length node_statuses)%nat
     || negb (bool_decide (dom statuses = list_to_set expected.*2))
  then (Ok None, st)
  else match nodes_are_active st statuses (expected_nodes expected) with
  | Err e => (Err e, st)
  | Ok false => (Ok None, st)
  | Ok true => (snapshot_from_state st placement_group_id expected, st)
  end.

(** ** Providers of a node *)

(** [DatabasePlacementStore::read] and [records], as the projections use them. *)
Class NodePlacements (W : Type) := {
  placements_read : string → W → result PlacementError (option VersionedPlacementRecord) * W;
  placements_records : W → result PlacementError (list PlacementRecord) * W;
}.
(** [NodeManager::node]: the installation and the state of a node; its error is dropped. *)
Class NodeDirectory (W : Type) := {
  directory_node : string → W → result () (string * NodeState) * W;
}.
Class NodeProtectionTargetProvider (W : Type) := {
  current_target : Placement → W → result NodeProtectionLeaseError (option PlacementProtectedTarget) * W;
}.

(** [CoreNodeProtectionTargetProvider]: the acknowledged descriptor of the placement. *)
Definition slot_targets {W} `{!LinuxProtectionIo W} : NodeProtectionTargetProvider W := {|
  current_target placement := se_map_err (λ _, LeaseStateUnavailable) (active_target placement) |}.

Definition gateway_protection_error : GatewayError :=
  Provider "placement protection" "Node protection state is unavailable".

Section providers.
Context {W : Type} `{!NodePlacements W, !NodeDirectory W, !NodeProtectionTargetProvider W}.

(** ** Bindings of a cycle *)

Definition is_seeded (cycle : WatchdogProtectionCycle) (target : PlacementProtectedTarget) : bool :=
  existsb (λ seed, target_matches seed target) (cycle_targets cycle).

(** The loop over the placements of one record. *)
Fixpoint placement_bindings (node_id : string) (cycle : WatchdogProtectionCycle) (placements : list Placement)
    (bindings : list NodeProtectionLeaseBinding)
  : SE W NodeProtectionLeaseError (list NodeProtectionLeaseBinding) :=
  match placements with
  | [] => se_ret bindings
  | placement :: placements =>
    if negb (bool_decide (pa_node_id (pl_assignment placement) = node_id))
    then placement_bindings node_id cycle placements bindings
    else
      do! target <- current_target placement in
      match target with
      | None => placement_bindings node_id cycle placements bindings
      | Some target =>
        placement_bindings node_id cycle placements
          (if is_seeded cycle target
           then bindings ++ [{| nb_node_id := node_id; nb_placement_group_id := pl_placement_group_id placement;
                                nb_placement_id := pl_placement_id placement; nb_target := target |}]
           else bindings)
      end
  end.

Fixpoint record_bindings (node_id : string) (cycle : WatchdogProtectionCycle) (records : list PlacementRecord)
    (bindings : list NodeProtectionLeaseBinding)
  : SE W NodeProtectionLeaseError (list NodeProtectionLeaseBinding) :=
  match records with
  | [] => se_ret bindings
  | record :: records =>
    do! bindings <- placement_bindings node_id cycle (rec_placements record) bindings in
    record_bindings node_id cycle records bindings
  end.

Definition bindings_for_cycle (node_id : string) (cycle : WatchdogProtectionCycle)
  : SE W NodeProtectionLeaseError (list NodeProtectionLeaseBinding) :=
  do! records <- se_map_err (λ _, LeaseStateUnavailable) placements_records in
  record_bindings node_id cycle records [].

(** ** The Gateway's snapshot *)

Record GroupResolution := {
  gr_expected : list (string * string);
  gr_node_statuses : gmap string NodeProtectionNodeStatus;
  gr_current_targets : gmap string PlacementProtectedTarget;
}.

(** The loop over the placements of the group; [None] is [return Ok(None)]. *)
Fixpoint resolve_placements (placements : list Placement) (resolved : GroupResolution)
  : SE W GatewayError (option GroupResolution) :=
  match placements with
  | [] => se_ret (Some resolved)
  | placement :: placements =>
    let node_id := pa_node_id (pl_assignment placement) in
    do! node <- se_map_err (λ _, gateway_protection_error) (directory_node node_id) in
    let status := {| nn_node_id := node_id; nn_core_installation_id := node.1; nn_state := node.2 |} in
    do! target <- se_map_err (λ _, gateway_protection_error) (current_target placement) in
    match target with
    | None => se_ret None
    | Some target =>
      if negb (bool_decide (pt_phase target = ProtectionArmed)) then se_ret None
      else resolve_placements placements
        {| gr_expected := gr_expected resolved ++ [(pl_placement_id placement, node_id)];
           gr_node_statuses := <[node_id := status]> (gr_node_statuses resolved);
           gr_current_targets := <[pl_placement_id placement := target]> (gr_current_targets resolved) |}
    end
  end.

(** One iteration of the closing loop. *)
Definition has_current_lease (snapshot : GatewayPlacementProtectionSnapshot) (placement : Placement)
    (target : PlacementProtectedTarget) : bool :=
  (length (List.filter (λ lease, bool_decide (lease_placement_id lease = pl_placement_id placement)
                                 && lease_matches_target lease target) (snap_leases snapshot)) =? 1)%nat.

Fixpoint leases_are_current (snapshot : GatewayPlacementProtectionSnapshot)
    (targets : gmap string PlacementProtectedTarget) (placements : list Placement) : result GatewayError bool :=
  match placements with
  | [] => Ok true
  | placement :: placements =>
    let? target := ok_or gateway_protection_error (targets !! pl_placement_id placement) in
    if has_current_lease snapshot placement target then leases_are_current snapshot targets placements
    else Ok false
  end.

(** [leases] is the state of the lease store when its mutex is taken. *)
Definition snapshot_for_identity (leases : NodeProtectionLeaseState) (placement_group_id endpoint_node_id : string)
  : SE W GatewayError (option GatewayPlacementProtectionSnapshot) :=
  do! stored <- se_map_err (λ _, gateway_protection_error) (placements_read placement_group_id) in
  do! stored <- se_lift (ok_or gateway_protection_error stored) in
  let placements := rec_placements (vr_record stored) in
  if negb (existsb (λ placement, bool_decide (pa_node_id (pl_assignment placement) = endpoint_node_id)) placements)
  then se_ret None
  else
    do! resolved <- resolve_placements placements
                      {| gr_expected := []; gr_node_statuses := ∅; gr_current_targets := ∅ |} in
    match resolved with
    | None => se_ret None
    | Some resolved =>
      match (placement_group_snapshot_for_nodes placement_group_id (gr_expected resolved)
               (map_to_list (gr_node_statuses resolved)).*2 leases).1 with
      | Err _ => se_fail gateway_protection_error
      | Ok None => se_ret None
      | Ok (Some snapshot) =>
        do! current <- se_lift (leases_are_current snapshot (gr_current_targets resolved) placements) in
        se_ret (if current then Some snapshot else None)
      end
    end.
End providers.
