(* ===== verification/NodeSafety.v ===== *)
(** * A routed placement was observed safe

    The lease store as a state machine of its locked regions, its invariant, and the
    chain from a Watchdog tick over the node's leases to the route that the Gateway
    accepts. *)

From Stdlib Require Import String.
From S2P Require Import Prelude Ordering Values Text GatewayContract GatewayProtection.
From S2P Require Import WatchdogRecord WatchdogContract WatchdogManager WatchdogSafety.
From S2P Require Import Placement PlacementContract PlacementProtection PlacementScenario NodeProtection.

(** ** Reachable lease states *)

(** A committed cycle, with its node and session. *)
Record Committed := {
  cm_node_id : string;
  cm_session_id : string;
  cm_session_generation : Z;
  cm_cycle : WatchdogProtectionCycle;
}.

(** The states that any calls reach, each atomic under the mutex, with the cycles that
    were answered as committed. *)
Inductive reached : NodeProtectionLeaseState → list Committed → Prop :=
| reached_new : reached NodeProtectionLeaseState_new []
| reached_begin st h authority at_ minimum r st' :
  reached st h → begin_watchdog_session authority at_ minimum st = (r, st') → reached st' h
| reached_end st h node_id session_id session_generation r st' :
  reached st h → end_watchdog_session node_id session_id session_generation st = (r, st') → reached st' h
| reached_commit st h node_id session_id session_generation cycle bindings milliseconds next st' :
  reached st h →
  commit_protection_cycle node_id session_id session_generation cycle bindings milliseconds st = (Ok next, st') →
  reached st' ({| cm_node_id := node_id; cm_session_id := session_id;
                  cm_session_generation := session_generation; cm_cycle := cycle |} :: h)
| reached_refused st h node_id session_id session_generation cycle bindings milliseconds e st' :
  reached st h →
  commit_protection_cycle node_id session_id session_generation cycle bindings milliseconds st = (Err e, st') →
  reached st' h.

(** ** What a lease stands for *)

(** The lease names the process of a target of the cycle. *)
Definition granted_by (cycle : WatchdogProtectionCycle) (lease : GatewayPlacementProtectionLease) : Prop :=
  lease_sample_sequence lease = cycle_sample_sequence cycle ∧
  lease_observed_at lease = cycle_observed_at_unix_milliseconds cycle ∧
  lease_expires_at lease ≤ cycle_observed_at_unix_milliseconds cycle + MAXIMUM_LEASE_MILLISECONDS ∧
  ∃ seed target, seed ∈ cycle_targets cycle ∧ target_matches seed target = true ∧
    lease_matches_target lease target = true.

Definition of_session (lease : GatewayPlacementProtectionLease) (authority : GatewayProtectionAuthority) : Prop :=
  lease_core_installation_id lease = auth_core_installation_id authority ∧
  lease_watchdog_source_identity lease = auth_watchdog_source_identity authority ∧
  lease_session_id lease = auth_session_id authority ∧
  lease_session_generation lease = auth_session_generation authority.

(** A lease in the store was granted by the last cycle of the current session of its
    node. *)
Definition justified (st : NodeProtectionLeaseState) (h : list Committed)
    (lease : GatewayPlacementProtectionLease) : Prop :=
  ∃ session cycle, np_sessions st !! lease_node_id lease = Some session ∧
    of_session lease (ns_authority session) ∧
    {| cm_node_id := lease_node_id lease; cm_session_id := lease_session_id lease;
       cm_session_generation := lease_session_generation lease; cm_cycle := cycle |} ∈ h ∧
    ns_last_sequence session = Some (cycle_sample_sequence cycle) ∧ granted_by cycle lease.

Record lease_invariant (st : NodeProtectionLeaseState) (h : list Committed) : Prop := {
  li_sessions node_id session : np_sessions st !! node_id = Some session →
    auth_node_id (ns_authority session) = node_id;
  li_leases key lease : np_leases st !! key = Some lease →
    key = (lease_group_id lease, lease_placement_id lease) ∧ justified st h lease;
}.

(** ** Leases of a cycle *)

Lemma lease_for_Ok session cycle binding expires_at lease :
  lease_for session cycle binding expires_at = Ok lease →
  lease_node_id lease = nb_node_id binding ∧ lease_group_id lease = nb_placement_group_id binding ∧
  lease_placement_id lease = nb_placement_id binding ∧ of_session lease (ns_authority session) ∧
  lease_sample_sequence lease = cycle_sample_sequence cycle ∧
  lease_observed_at lease = cycle_observed_at_unix_milliseconds cycle ∧ lease_expires_at lease = expires_at ∧
  lease_matches_target lease (nb_target binding) = true.
Proof.
  unfold lease_for. destruct (_ =? 0); [done|]. unfold lease_new. destruct (_ || _); [done|]. intros [= <-].
  unfold of_session, lease_matches_target. simpl. rewrite !Z.eqb_refl, !bool_decide_true by done. by split_and!.
Qed.

(** Every lease is granted to a binding that the seed names. *)
Lemma seed_leases_granted session cycle bindings expires_at targets used leases used' :
  seed_leases session cycle bindings expires_at targets used = Ok (leases, used') →
  ∀ lease, lease ∈ leases → ∃ seed binding, seed ∈ targets ∧ binding ∈ bindings ∧
    target_matches seed (nb_target binding) = true ∧ lease_for session cycle binding expires_at = Ok lease.
Proof.
  revert used leases used'. induction targets as [|seed targets IH]; intros used leases used'; cbn [seed_leases].
  { intros [= <- <-] lease ?%elem_of_nil. done. }
  destruct (List.filter _ _) as [|[index binding] [|]] eqn:Hf; [done| |done].
  assert ((index, binding) ∈ imap pair bindings ∧ target_matches seed (nb_target binding) = true) as [Hb Hm].
  { rewrite list_elem_of_In, <- (filter_In (λ '(_, b), target_matches seed (nb_target b))), Hf. by left. }
  apply elem_of_lookup_imap in Hb as (i & b & [= -> ->] & Hb%list_elem_of_lookup_2).
  case_decide; [done|]. intros (lease & Hl & Hr)%result_bind_Ok.
  apply result_bind_Ok in Hr as ([rest used1] & Hr & [= <- <-]).
  intros lease' [->|Hin]%elem_of_cons; [exists seed, b; set_solver|].
  destruct (IH _ _ _ Hr _ Hin) as (seed' & b' & ? & ?). exists seed', b'. set_solver.
Qed.

Lemma leases_for_cycle_granted session cycle bindings expires_at leases :
  leases_for_cycle session cycle bindings expires_at = Ok leases →
  ∀ lease, lease ∈ leases → ∃ seed binding, seed ∈ cycle_targets cycle ∧ binding ∈ bindings ∧
    target_matches seed (nb_target binding) = true ∧ lease_for session cycle binding expires_at = Ok lease.
Proof.
  unfold leases_for_cycle. intros ([l used] & Hs & Hr)%result_bind_Ok lease Hin.
  destruct (negb _); [done|]. injection Hr as <-. apply elem_of_sort_by in Hin. by eapply seed_leases_granted.
Qed.

(** ** The invariant *)

Lemma without_node_lookup node_id leases key lease :
  without_node node_id leases !! key = Some lease ↔ leases !! key = Some lease ∧ lease_node_id lease ≠ node_id.
Proof. unfold without_node. by rewrite map_lookup_filter_Some. Qed.

(** A lease of another node keeps what it stands for. *)
Lemma justified_elsewhere st h lease node_id sessions leases h' :
  justified st h lease → lease_node_id lease ≠ node_id → h ⊆ h' →
  (∀ n, n ≠ node_id → sessions !! n = np_sessions st !! n) →
  justified {| np_sessions := sessions; np_leases := leases |} h' lease.
Proof.
  intros (session & cycle & Hs & Hof & Hh & Hl & Hg) Hn Hsub Heq. exists session, cycle. simpl.
  rewrite Heq by done. split_and!; [done..|by apply Hsub|done|done].
Qed.

Lemma begin_invariant st h authority at_ minimum r st' :
  lease_invariant st h → begin_watchdog_session authority at_ minimum st = (r, st') → lease_invariant st' h.
Proof.
  intros [Hs Hl]. unfold begin_watchdog_session. cbv zeta.
  destruct (np_sessions st !! _) as [session|] eqn:E.
  { destruct (_ && _); intros [= <- <-]; done. }
  intros [= <- <-]. split; simpl.
  - intros node_id session [[<- <-]|[_ ?]]%lookup_insert_Some; eauto.
  - intros key lease [[Hk Hj]%Hl Hn]%without_node_lookup. split; [done|].
    eapply justified_elsewhere; [done..|]. intros n ?. by rewrite lookup_insert_ne.
Qed.

Lemma end_invariant st h node_id session_id session_generation r st' :
  lease_invariant st h → end_watchdog_session node_id session_id session_generation st = (r, st') →
  lease_invariant st' h.
Proof.
  intros [Hs Hl]. unfold end_watchdog_session. destruct (is_some_and _ _); intros [= <- <-]; [|done].
  split; simpl.
  - intros n session [_ ?]%lookup_delete_Some. eauto.
  - intros key lease [[Hk Hj]%Hl Hn]%without_node_lookup. split; [done|].
    eapply justified_elsewhere; [done..|]. intros n ?. by rewrite lookup_delete_ne.
Qed.

(** What a commit that is answered found and did. *)
Lemma commit_Ok node_id session_id session_generation cycle bindings milliseconds st next st' :
  commit_protection_cycle node_id session_id session_generation cycle bindings milliseconds st = (Ok next, st') →
  ∃ session expires_at, np_sessions st !! node_id = Some session ∧
    auth_session_id (ns_authority session) = session_id ∧
    auth_session_generation (ns_authority session) = session_generation ∧
    milliseconds ≤ MAXIMUM_LEASE_MILLISECONDS ∧
    expires_at = cycle_observed_at_unix_milliseconds cycle + milliseconds ∧
    Forall (λ binding, nb_node_id binding = node_id) bindings ∧ cycle_regresses session cycle = false ∧
    leases_for_cycle session cycle bindings expires_at = Ok next ∧
    (st' = st ∧ ns_last_sequence session = Some (cycle_sample_sequence cycle) ∧ leases_of node_id st = next ∨
     ns_last_sequence session ≠ Some (cycle_sample_sequence cycle) ∧
     st' = {| np_sessions := <[node_id := advanced_session cycle session]> (np_sessions st);
              np_leases := insert_leases next (without_node node_id (np_leases st)) |}).
Proof.
  unfold commit_protection_cycle. destruct (_ || _) eqn:Hg; [done|].
  apply orb_false_iff in Hg as [[_ Hms%Z.ltb_ge]%orb_false_iff Hb].
  destruct (np_sessions st !! node_id) as [session|] eqn:Hs; [|done].
  destruct (is_session _ _ _) eqn:Hi; [|done]. cbn [negb].
  apply andb_true_iff in Hi as [Hid%bool_decide_eq_true Hgen%Z.eqb_eq].
  destruct (cycle_regresses _ _) eqn:Hr; [done|].
  destruct (checked_add_u64 _ _) as [expires_at|] eqn:Ha; [|done]. apply checked_add_u64_Some in Ha as [-> _].
  destruct (leases_for_cycle _ _ _ _) as [next'|] eqn:Hl; [|done].
  assert (Forall (λ binding, nb_node_id binding = node_id) bindings) as Hall.
  { apply Forall_forall. intros b Hin. apply (existsb_false _ _ _ Hb) in Hin.
    by apply negb_false_iff, bool_decide_eq_true in Hin. }
  intros Hc. exists session. eexists. case_bool_decide.
  - case_bool_decide; [|done]. injection Hc as <- <-. split_and!; eauto.
  - injection Hc as <- <-. split_and!; eauto.
Qed.

Lemma commit_invariant st h node_id session_id session_generation cycle bindings milliseconds next st' :
  lease_invariant st h →
  commit_protection_cycle node_id session_id session_generation cycle bindings milliseconds st = (Ok next, st') →
  lease_invariant st' ({| cm_node_id := node_id; cm_session_id := session_id;
                          cm_session_generation := session_generation; cm_cycle := cycle |} :: h).
Proof.
  intros [Hs Hl] (session & expires_at & Hn & Hid & Hgen & Hms & Hexp & Hb & _ & Hnext & Hst)%commit_Ok.
  destruct Hst as [(-> & _ & _)|[_ ->]].
  { split; [done|]. intros key lease [Hk (s & c & ? & ? & ? & ?)]%Hl. split; [done|].
    exists s, c. split_and!; [done..|by right|naive_solver|naive_solver]. }
  split; simpl.
  - intros n s [[<- <-]|[_ ?]]%lookup_insert_Some; [|by apply Hs]. simpl. by apply Hs.
  - intros key lease Hk. unfold insert_leases in Hk.
    apply (foldl_insert_elem (λ l, (lease_group_id l, lease_placement_id l)) id) in Hk as [(x & Hx & <- & <-)|Hk].
    + split; [done|]. eapply leases_for_cycle_granted in Hx as (seed & binding & Hseed & Hbin & Hm & Hf); [|done].
      apply lease_for_Ok in Hf as (Hnode & _ & _ & Hof & Hseq & Hobs & Hexp' & Hmt).
      rewrite Forall_forall in Hb. rewrite (Hb _ Hbin) in Hnode. unfold id.
      exists (advanced_session cycle session), cycle. simpl. rewrite Hnode, lookup_insert_eq.
      split_and!; [done..| |done|].
      * destruct Hof as (_ & _ & -> & ->). rewrite Hid, Hgen. left.
      * split_and!; [done..|lia|]. eauto.
    + apply without_node_lookup in Hk as [[? ?]%Hl ?]. split; [done|].
      eapply justified_elsewhere; [done..| |]; [intros x ?; by right|].
      intros n ?. by rewrite lookup_insert_ne.
Qed.

Lemma commit_Err node_id session_id session_generation cycle bindings milliseconds st e st' :
  commit_protection_cycle node_id session_id session_generation cycle bindings milliseconds st = (Err e, st') →
  st' = st.
Proof.
  unfold commit_protection_cycle. intros Hc.
  repeat match goal with
  | H : (if ?b then _ else _) = _ |- _ => destruct b
  | H : match ?x with _ => _ end = _ |- _ => destruct x
  end; by simplify_eq.
Qed.

Lemma reached_invariant st h : reached st h → lease_invariant st h.
Proof.
  induction 1 as [| | | |? ? ? ? ? ? ? ? ? ? _ IH Hc]; eauto using begin_invariant, end_invariant, commit_invariant.
  - by split.
  - by apply commit_Err in Hc as ->.
Qed.

(** A seed names every target that its lease matches. *)
Lemma target_matches_lease seed target lease target' :
  target_matches seed target = true → lease_matches_target lease target = true →
  lease_matches_target lease target' = true → target_matches seed target' = true.
Proof.
  unfold target_matches, lease_matches_target. rewrite !andb_true_iff, !bool_decide_eq_true, !Z.eqb_eq.
  intros (((((((Hp & Hg) & Hn) & Hc) & Hi) & Ht) & Hb) & Hcg) ((((((? & ?) & ?) & ?) & ?) & ?) & ?)
    ((((((? & ?) & ?) & ?) & ?) & ?) & ?).
  rewrite Hg, Hn, Hc, Hi, Ht, Hb, Hcg. split_and!; congruence.
Qed.

(** ** Snapshots *)

(** The order and the multiplicity of the leases in a snapshot are the store's. *)
Lemma snapshot_from_state_Some st group expected snapshot :
  snapshot_from_state st group expected = Ok (Some snapshot) →
  snap_group_id snapshot = group ∧ snap_expected_placements snapshot = expected ∧
  ∀ lease, lease ∈ snap_leases snapshot →
    ∃ placement_id, np_leases st !! (group, placement_id) = Some lease.
Proof.
  unfold snapshot_from_state. destruct (session_authorities _ _) as [authorities|]; [|done].
  unfold snapshot_new. destruct (_ || _); [done|]. intros [= <-]. split_and!; [done..|]. simpl.
  intros lease ([placement_id node_id] & _ & Hl)%list_elem_of_omap. eauto.
Qed.

(** A group is shown only while each of its nodes is active on the installation of its
    session. *)
Lemma nodes_are_active_true st statuses node_ids :
  nodes_are_active st statuses node_ids = Ok true →
  ∀ n, n ∈ node_ids → ∃ session status, np_sessions st !! n = Some session ∧ statuses !! n = Some status ∧
    nn_state status = NodeActive ∧ nn_core_installation_id status = auth_core_installation_id (ns_authority session).
Proof.
  induction node_ids as [|n node_ids IH]; cbn [nodes_are_active]; intros Ha m Hm; [by apply elem_of_nil in Hm|].
  destruct (np_sessions st !! n) as [session|] eqn:Hs; [|done].
  apply result_bind_Ok in Ha as (status & Hst%ok_or_Ok & Ha). destruct (_ || _) eqn:Hg; [done|].
  apply orb_false_iff in Hg as [H1%negb_false_iff%bool_decide_eq_true H2%negb_false_iff%bool_decide_eq_true].
  apply elem_of_cons in Hm as [->|Hm]; [eauto 6|by apply IH].
Qed.

Lemma expected_nodes_spec expected n : n ∈ expected_nodes expected ↔ n ∈ expected.*2.
Proof. unfold expected_nodes. by rewrite elem_of_sort_by, elem_of_elements, elem_of_list_to_set. Qed.

Lemma snapshot_for_nodes_Some st group expected node_statuses snapshot :
  (placement_group_snapshot_for_nodes group expected node_statuses st).1 = Ok (Some snapshot) →
  snapshot_from_state st group expected = Ok (Some snapshot) ∧
  ∀ n, n ∈ expected.*2 → ∃ session status, np_sessions st !! n = Some session ∧ status ∈ node_statuses ∧
    nn_node_id status = n ∧ nn_state status = NodeActive ∧
    nn_core_installation_id status = auth_core_installation_id (ns_authority session).
Proof.
  unfold placement_group_snapshot_for_nodes. cbv zeta. destruct (_ || _); [done|].
  destruct (nodes_are_active _ _ _) as [[]|] eqn:Ha; [|done..]. simpl. intros Hs. split; [done|].
  intros n Hn%expected_nodes_spec.
  destruct (nodes_are_active_true _ _ _ Ha n Hn) as (session & status & ? & Hst & ? & ?).
  apply (foldl_insert_elem nn_node_id id) in Hst as [(x & Hx & Hnx & Hid)|Hst]; [|by rewrite lookup_empty in Hst].
  unfold id in Hid. subst x. eauto 8.
Qed.

Lemma leases_are_current_true snapshot targets placements :
  leases_are_current snapshot targets placements = Ok true →
  ∀ placement, placement ∈ placements → ∃ target lease, targets !! pl_placement_id placement = Some target ∧
    lease ∈ snap_leases snapshot ∧ lease_placement_id lease = pl_placement_id placement ∧
    lease_matches_target lease target = true.
Proof.
  induction placements as [|p placements IH]; cbn [leases_are_current]; intros Hc q Hq; [by apply elem_of_nil in Hq|].
  apply result_bind_Ok in Hc as (target & Ht%ok_or_Ok & Hc).
  destruct (has_current_lease _ _ _) eqn:Hl; [|done]. apply elem_of_cons in Hq as [->|Hq]; [|by apply IH].
  unfold has_current_lease in Hl. destruct (List.filter _ _) as [|lease rest] eqn:Hf; [done|].
  assert (lease ∈ snap_leases snapshot ∧ bool_decide (lease_placement_id lease = pl_placement_id p)
    && lease_matches_target lease target = true) as [Hin Hm].
  { rewrite list_elem_of_In, <- (filter_In (λ l, bool_decide (lease_placement_id l = pl_placement_id p)
      && lease_matches_target l target)), Hf. by left. }
  apply andb_true_iff in Hm as [Hp%bool_decide_eq_true Hm]. eauto 6.
Qed.

Section snapshots.
Context {W : Type} `{!NodePlacements W, !NodeDirectory W, !NodeProtectionTargetProvider W}.

(** The provider named the live armed target of the placement. *)
Definition shown_armed (placement : Placement) (target : PlacementProtectedTarget) : Prop :=
  pt_phase target = ProtectionArmed ∧
  ∃ w1 w2 : W, current_target placement w1 = (Ok (Some target), w2).
(** The directory showed the node active on the installation. *)
Definition shown_active (node_id installation : string) : Prop :=
  ∃ w1 w2 : W, directory_node node_id w1 = (Ok (installation, NodeActive), w2).

Definition placement_key (placement : Placement) : string * string :=
  (pl_placement_id placement, pa_node_id (pl_assignment placement)).

Lemma resolve_placements_Some placements resolved (w : W) resolved' w' :
  resolve_placements placements resolved w = (Ok (Some resolved'), w') →
  gr_expected resolved' = gr_expected resolved ++ (placement_key <$> placements) ∧
  (∀ id target, gr_current_targets resolved' !! id = Some target → gr_current_targets resolved !! id = Some target ∨
     ∃ placement, placement ∈ placements ∧ pl_placement_id placement = id ∧ shown_armed placement target) ∧
  (∀ n status, gr_node_statuses resolved' !! n = Some status → gr_node_statuses resolved !! n = Some status ∨
     nn_node_id status = n ∧ ∃ w1 w2 : W,
       directory_node n w1 = (Ok (nn_core_installation_id status, nn_state status), w2)).
Proof.
  revert resolved w. induction placements as [|p placements IH]; intros resolved w; cbn [resolve_placements].
  { intros [= <- <-]. rewrite fmap_nil, app_nil_r. auto. }
  intros ([installation state] & w1 & Hn & Hr)%se_bind_Ok.
  apply se_bind_Ok in Hr as ([target|] & w2 & Ht & Hr); [|done].
  destruct (bool_decide _) eqn:Ha; [|done]. apply bool_decide_eq_true in Ha. cbn [negb] in Hr.
  apply se_map_err_Ok in Hn, Ht. apply IH in Hr as (He & Htg & Hst). simpl in *. split_and!.
  - by rewrite He, <- app_assoc.
  - intros id t [[[<- <-]|[_ ?]]%lookup_insert_Some|(q & ? & ? & ?)]%Htg; [|by left|].
    + right. exists p. split_and!; [left|done|by split; eauto].
    + right. exists q. split_and!; [by right|done..].
  - intros n status [[[<- <-]|[_ ?]]%lookup_insert_Some|?]%Hst; [|by left|by right]. right. split; [done|]. eauto.
Qed.

Lemma snapshot_for_identity_Some st group endpoint (w : W) snapshot w' :
  snapshot_for_identity st group endpoint w = (Ok (Some snapshot), w') →
  ∃ stored w1, placements_read group w = (Ok (Some stored), w1) ∧
    let placements := rec_placements (vr_record stored) in
    snapshot_from_state st group (placement_key <$> placements) = Ok (Some snapshot) ∧
    (∀ placement, placement ∈ placements → ∃ session, 
       np_sessions st !! pa_node_id (pl_assignment placement) = Some session ∧
       shown_active (pa_node_id (pl_assignment placement)) (auth_core_installation_id (ns_authority session))) ∧
    ∀ placement, placement ∈ placements → ∃ shown target lease,
      shown ∈ placements ∧ pl_placement_id shown = pl_placement_id placement ∧ shown_armed shown target ∧
      lease ∈ snap_leases snapshot ∧ lease_placement_id lease = pl_placement_id placement ∧
      lease_matches_target lease target = true.
Proof.
  unfold snapshot_for_identity. intros ([stored|] & w1 & Hread%se_map_err_Ok & Hr)%se_bind_Ok.
  2:{ apply se_bind_Ok in Hr as (? & ? & [= ] & _). }
  apply se_bind_Ok in Hr as (? & ? & [= <- <-] & Hr). cbv zeta in Hr. destruct (existsb _ _); [|done].
  cbn [negb] in Hr. apply se_bind_Ok in Hr as ([resolved|] & w2 & Hres & Hr); [|done].
  apply resolve_placements_Some in Hres as (He & Ht & Hst). simpl in He, Ht, Hst.
  destruct (placement_group_snapshot_for_nodes _ _ _ _).1 as [[snap|]|] eqn:Hs; [|done..].
  apply snapshot_for_nodes_Some in Hs as [Hs Hnodes]. rewrite He in Hs, Hnodes.
  apply se_bind_Ok in Hr as ([] & w3 & [Hc <-]%se_lift_Ok & [= -> _]).
  exists stored, w1. split; [done|]. cbv zeta. split_and!; [done| |].
  - intros p Hp. destruct (Hnodes (pa_node_id (pl_assignment p))) as (session & status & Hses & Hin & Hn & Hact & Hi).
    { rewrite <- list_fmap_compose. apply list_elem_of_fmap. by exists p. }
    exists session. split; [done|]. apply list_elem_of_fmap in Hin as ([n status'] & -> & Hin%elem_of_map_to_list).
    simpl in *. apply Hst in Hin as [Hin|(<- & w4 & w5 & Hd)]; [by rewrite lookup_empty in Hin|].
    rewrite Hact, Hn, Hi in Hd. by exists w4, w5.
  - intros p Hp. destruct (leases_are_current_true _ _ _ Hc p Hp) as (target & lease & Htg & ? & ? & ?).
    apply Ht in Htg as [Htg|(q & ? & ? & ?)]; [by rewrite lookup_empty in Htg|]. by exists q, target, lease.
Qed.
End snapshots.

(** ** From the tick to the route *)

Section route.
Context {W V : Type} `{!NodePlacements W, !NodeDirectory W, !NodeProtectionTargetProvider W, !WatchdogProviders V}.

(** The cycle is the receipt of a completed tick of a Watchdog. *)
Definition is_receipt (cycle : WatchdogProtectionCycle) : Prop :=
  ∃ (m m' : WatchdogManager (V * list Effect)) t,
    effects m = [] ∧ tick m = (Ok t, m') ∧ tick_protection_cycle t = cycle.

(** In the tick of the cycle the process of the target was observed armed and running,
    without a latched trip and without a new OOM kill. *)
Definition observed_safe (cycle : WatchdogProtectionCycle) (target : PlacementProtectedTarget) : Prop :=
  ∃ (m m' : WatchdogManager (V * list Effect)) t os o,
    tick m = (Ok t, m') ∧ tick_protection_cycle t = cycle ∧ EObserve (Ok os) ∈ effects m' ∧
    o ∈ os ∧ provably_safe o = true ∧ target_matches (obs_target o) target = true.

Lemma receipt_observed_safe cycle seed target :
  is_receipt cycle → seed ∈ cycle_targets cycle → target_matches seed target = true → observed_safe cycle target.
Proof.
  intros (m & m' & t & Hm & Ht & <-) Hseed Hmatch.
  destruct (cycle_targets_are_the_safe_processes m t m' Ht Hm) as (os & Hobs & Htargets & _).
  rewrite Htargets in Hseed. apply list_elem_of_fmap in Hseed as (o & -> & Ho).
  apply list_elem_of_In, filter_In in Ho as [Ho%list_elem_of_In Hsafe]. unfold sorted_observations in Ho.
  apply elem_of_sort_by in Ho. by exists m, m', t, os, o.
Qed.

(** What the Gateway may conclude for one placement of a route it accepts. *)
Definition protected_now (st : NodeProtectionLeaseState) (h : list Committed) (now : Z) (placement : Placement)
  : Prop :=
  let node_id := pa_node_id (pl_assignment placement) in
  ∃ session target committed, np_sessions st !! node_id = Some session ∧
    shown_active (W := W) node_id (auth_core_installation_id (ns_authority session)) ∧
    shown_armed (W := W) placement target ∧ committed ∈ h ∧ cm_node_id committed = node_id ∧
    cm_session_generation committed = auth_session_generation (ns_authority session) ∧
    let cycle := cm_cycle committed in
    ns_last_sequence session = Some (cycle_sample_sequence cycle) ∧
    cycle_observed_at_unix_milliseconds cycle ≤ now
      < cycle_observed_at_unix_milliseconds cycle + MAXIMUM_LEASE_MILLISECONDS ∧
    observed_safe cycle target.

(** C7: from the Watchdog to the Gateway: when the Gateway accepts a route with the
    snapshot of a node whose committed cycles are the receipts of completed ticks, then
    every placement of the group, on a node that is active on the installation of its
    session, has a live armed process that the latest tick of that session, less than a
    minute ago, observed armed and running, without a latched trip or a new OOM kill. *)
Theorem routed_placements_were_observed_safe st h route snapshot now gst gst' (w w' : W) :
  reached st h → (∀ committed, committed ∈ h → is_receipt (cm_cycle committed)) →
  snapshot_for_identity st (placement_group_id route) (endpoint_node_id route) w = (Ok (Some snapshot), w') →
  accepts route snapshot now gst = (true, gst') →
  ∃ stored w1, placements_read (placement_group_id route) w = (Ok (Some stored), w1) ∧
    ∀ placement, placement ∈ rec_placements (vr_record stored) → protected_now st h now placement.
Proof.
  intros [_ Hleases]%reached_invariant Hh Hsnap (leases & Hv & _)%accepts_true.
  apply snapshot_for_identity_Some in Hsnap as (stored & w1 & Hread & Hs & Hnodes & Hcur).
  apply snapshot_from_state_Some in Hs as (_ & Hexp & Hstore).
  apply valid_snapshot_spec in Hv as (_ & Hdom & _ & Hnd & Hvalid). rewrite Hexp in Hdom, Hnd.
  exists stored, w1. split; [done|]. intros placement Hp.
  (* the lease of a placement is the one the store has for its identity *)
  assert (∀ lease, lease ∈ snap_leases snapshot →
    np_leases st !! (placement_group_id route, lease_placement_id lease) = Some lease) as Hkey.
  { intros lease [id Hid]%Hstore. destruct (Hleases _ _ Hid) as [[= _ <-] _]. done. }
  assert (∀ q, q ∈ rec_placements (vr_record stored) → ∃ lease, lease ∈ snap_leases snapshot ∧
    lease_key lease = placement_key q ∧ lease_proves route snapshot now lease) as Hlease.
  { intros q Hq. assert (placement_key q ∈ dom leases) as [lease Hl]%elem_of_dom.
    { rewrite Hdom. apply elem_of_list_to_set, list_elem_of_fmap. by exists q. }
    destruct (Hvalid _ _ Hl) as (? & ? & ?). exists lease. done. }
  destruct (Hcur placement Hp) as (shown & target & lease & Hshown & Hid & Harmed & Hin & Hpl & Hmatch).
  destruct (Hlease placement Hp) as (l1 & Hin1 & Hk1 & Hproves), (Hlease shown Hshown) as (l2 & Hin2 & Hk2 & _).
  assert (l1 = lease) as ->.
  { apply Hkey in Hin, Hin1. injection Hk1 as Hid1 _. rewrite Hid1, <- Hpl, Hin in Hin1. by simplify_eq. }
  assert (l2 = lease) as ->.
  { apply Hkey in Hin, Hin2. injection Hk2 as Hid2 _. rewrite Hid2, Hid, <- Hpl, Hin in Hin2. by simplify_eq. }
  assert (shown = placement) as ->.
  { rewrite Hk1 in Hk2. apply list_elem_of_lookup in Hp as [i Hi], Hshown as [j Hj].
    assert (i = j) as <-; [|congruence].
    eapply (NoDup_lookup _ i j (placement_key placement) Hnd); rewrite list_lookup_fmap, ?Hi, ?Hj; [done|].
    cbn. by rewrite <- Hk2. }
  destruct (Hleases _ _ (Hkey _ Hin)) as [_ (session & cycle & Hses & Hof & Hc & Hseq & Hgr)].
  destruct Hgr as (_ & Hobs & Hexpires & seed & granted & Hseed & Hsm & Hgm).
  destruct (Hnodes placement Hp) as (session' & Hses' & Hactive). injection Hk1 as _ Hnode.
  rewrite Hnode, Hses' in Hses. injection Hses as ->. destruct Hproves as (_ & _ & _ & [Hle Hlt] & _).
  exists session, target. eexists. split; [done|]. split; [done|]. split; [done|]. split; [exact Hc|].
  simpl. split_and!; [done| |done|lia|lia|].
  - by destruct Hof as (_ & _ & _ & ->).
  - eapply receipt_observed_safe; [by apply (Hh _ Hc)|done|by eapply target_matches_lease].
Qed.
End route.

(** ** A group on two nodes *)

Module NodeLab.
Definition hex : string := "0123456789abcdef0123456789abcdef".
(** The process of the first and of the second placement. *)
Definition target (n : Z) : PlacementProtectedTarget :=
  {| pt_generation := hex; pt_phase := ProtectionArmed;
     pt_process := {| lp_container_name := "engine"; lp_container_id := "id"; lp_process_id := 40 + n;
                      lp_process_start_ticks := 7; lp_boot_id := "boot"; lp_cgroup := "/sys/fs/cgroup/engine" |} |}.
Definition engine (n : Z) : WatchdogProtectedEngine :=
  {| generation := hex; phase := Armed; container_name := "engine"; container_id := Some "id"%string;
     process_id := Some (40 + n); process_start_ticks := Some 7; boot_id := Some "boot"%string;
     cgroup := Some "/sys/fs/cgroup/engine"%string |}.

(** The Watchdog of a node observes its one engine. *)
#[local] Instance watchdog : WatchdogProviders Z := {|
  provide_sample n w := (sample_with_telemetry n (1000 * n) (10 * n) WatchdogSampleTelemetry_default, w);
  provide_observations _ w :=
    (Ok [{| obs_target := engine w; obs_process_state := Running; obs_safety := SafetyExample.input 900 0;
            obs_trip_latched := false |}], w);
  acknowledge_disarmed _ w := (Ok (), w);
  latch_trip _ _ _ _ w := (Ok (), w);
  contain _ _ _ w := (Ok true, w);
  storage_next_sequence w := (Ok 1, w);
  record_sample _ w := (Ok (), w);
  record_event _ w := (Ok (), w);
  storage_flush w := (Ok (), w);
|}.
Definition manager (n : Z) : WatchdogManager (Z * list Effect) :=
  {| wm_thresholds := SafetyExample.thresholds; wm_world := (n, []); wm_state := wm_state SafetyExample.m0 |}.
Definition cycle (n : Z) : WatchdogProtectionCycle :=
  match (tick (manager n)).1 with
  | Ok t => tick_protection_cycle t
  | Err _ => tick_protection_cycle SafetyExample.receipt
  end.

(** The record of [Scenario.staged_world]: placements [p-task-0] on [b] and [p-task-1] on [a]. *)
#[local] Instance placements : NodePlacements () := {|
  placements_read _ w := (Ok (Scenario.stored Scenario.staged_world), w);
  placements_records w :=
    (Ok match Scenario.stored Scenario.staged_world with Some v => [vr_record v] | None => [] end, w);
|}.
#[local] Instance directory : NodeDirectory () := {| directory_node _ w := (Ok ("core"%string, NodeActive), w) |}.
#[local] Instance targets : NodeProtectionTargetProvider () := {|
  current_target placement w :=
    (Ok (Some (target (if bool_decide (pl_placement_id placement = "p-task-0"%string) then 0 else 1))), w) |}.

Definition authority (node_id : string) : GatewayProtectionAuthority :=
  {| auth_node_id := node_id; auth_core_installation_id := "core"; auth_watchdog_source_identity := "source";
     auth_session_id := "session"; auth_session_generation := 1 |}.
Definition bindings (node_id : string) (n : Z) : list NodeProtectionLeaseBinding :=
  match (bindings_for_cycle node_id (cycle n) ()).1 with Ok l => l | Err _ => [] end.

Definition begun (node_id : string) (st : NodeProtectionLeaseState) : NodeProtectionLeaseState :=
  (begin_watchdog_session (authority node_id) 4000 1 st).2.
Definition committed (node_id : string) (n : Z) (st : NodeProtectionLeaseState) :=
  commit_protection_cycle node_id "session" 1 (cycle n) (bindings node_id n) 3000 st.
Definition s2 : NodeProtectionLeaseState := begun "b" (begun "a" NodeProtectionLeaseState_new).
Definition s3 : NodeProtectionLeaseState := (committed "b" 0 s2).2.
Definition s4 : NodeProtectionLeaseState := (committed "a" 1 s3).2.
Definition history : list Committed :=
  (λ '(node_id, n), {| cm_node_id := node_id; cm_session_id := "session"; cm_session_generation := 1;
                       cm_cycle := cycle n |}) <$> [("a"%string, 1); ("b"%string, 0)].

Lemma s4_reached : reached s4 history.
Proof.
  assert (reached s2 []) as H2.
  { eapply reached_begin; [eapply reached_begin; [apply reached_new|]|]; apply surjective_pairing. }
  assert (∀ node_id n st next, (committed node_id n st).1 = Ok next →
    committed node_id n st = (Ok next, (committed node_id n st).2)) as Hp.
  { intros ? ? ? ? <-. apply surjective_pairing. }
  destruct (committed "b" 0 s2).1 as [l|] eqn:E1; [|vm_compute in E1; done].
  destruct (committed "a" 1 s3).1 as [l'|] eqn:E2; [|vm_compute in E2; done].
  eapply (reached_commit s3); [eapply (reached_commit s2); [exact H2|]|]; by apply Hp.
Qed.

Lemma history_receipts c : c ∈ history → is_receipt (cm_cycle c).
Proof.
  assert (∀ n, (n = 0 ∨ n = 1) → is_receipt (cycle n)) as Hr.
  { intros n Hn. destruct (tick (manager n)) as [[t|] m'] eqn:Ht.
    - exists (manager n), m', t. split_and!; [done..|]. unfold cycle. by rewrite Ht.
    - exfalso. destruct Hn as [-> | ->]; vm_compute in Ht; discriminate Ht. }
  intros [<-|[<-|[]]]%list_elem_of_In; simpl; auto.
Qed.

Definition route : GatewayRoute :=
  {| placement_group_id := "g"; endpoint_node_id := "b"; route_model := "m";
     GatewayContract.target := ChildRelay "relay"; max_active_requests := 2; max_context_tokens := 1024;
     healthy := true; memory_pressure := false; temperature_millicelsius := None; prefix_keys := [] |}.

Lemma routed_placements_were_observed_safe_witness :
  ∃ stored, Scenario.stored Scenario.staged_world = Some stored ∧
    length (rec_placements (vr_record stored)) = 2%nat ∧
    ∀ placement, placement ∈ rec_placements (vr_record stored) →
      protected_now (W := ()) (V := Z) s4 history 5500 placement.
Proof.
  destruct (snapshot_for_identity s4 "g" "b" ()) as [[[snapshot|]|] w'] eqn:Hs;
    [|vm_compute in Hs; discriminate Hs..].
  destruct (accepts route snapshot 5500 GatewayProtectionLeaseState_default) as [[] gst] eqn:Ha.
  2:{ vm_compute in Hs. injection Hs as <- <-. vm_compute in Ha. discriminate Ha. }
  destruct (routed_placements_were_observed_safe (W := ()) (V := Z) s4 history route snapshot 5500 _ gst () w'
    s4_reached history_receipts Hs Ha) as (stored & w1 & Hr & Hall).
  apply (f_equal (λ p, match p.1 with Ok o => o | Err _ => None end)) in Hr.
  change (Scenario.stored Scenario.staged_world = Some stored) in Hr.
  exists stored. split; [exact Hr|]. split; [|exact Hall].
  vm_compute in Hr. injection Hr as <-. reflexivity.
Defined.

(** ** A retried cycle

    Two placements on one node, whose groups order them the other way round. *)
Definition crossed_cycle : WatchdogProtectionCycle :=
  {| cycle_sample_sequence := 5; cycle_observed_at_unix_milliseconds := 5000;
     cycle_observed_at_monotonic_milliseconds := 50; cycle_targets := [engine 0; engine 1] |}.
Definition crossed_bindings : list NodeProtectionLeaseBinding :=
  [{| nb_node_id := "a"; nb_placement_group_id := "h"; nb_placement_id := "p1"; nb_target := target 0 |};
   {| nb_node_id := "a"; nb_placement_group_id := "g"; nb_placement_id := "p2"; nb_target := target 1 |}].
Definition commit_crossed (st : NodeProtectionLeaseState) :=
  commit_protection_cycle "a" "session" 1 crossed_cycle crossed_bindings 3000 st.

(** a retry of a committed cycle is refused as a regression when the placements of
    the node are in one order by their identities and in another by their groups: the
    leases in the store are listed by group, those of the retry by placement. *)
Theorem retried_cycle_is_refused :
  let first := commit_crossed (begun "a" NodeProtectionLeaseState_new) in
  let retried := commit_crossed first.2 in
  (∃ l, first.1 = Ok l ∧ length l = 2%nat) ∧ retried = (Err LeaseRegressedCycle, first.2).
Proof. vm_compute. split; [eexists; split; reflexivity|reflexivity]. Qed.
End NodeLab.
