(* ===== verification/NodeSessions.v ===== *)
(** * Watchdog sessions of a node

    [DatabaseNodeProtectionSessionGenerationStore] of
    [core/node/src/li_node_protection_session_database.rs]: one durable record per node
    with the generation of its last Watchdog session; and [NodeProtectionApi] of
    [li_node_protection_api.rs], which opens and closes sessions, commits cycles and
    answers snapshots for an authorized peer. *)

From Stdlib Require Import String.
From S2P Require Import Prelude Values Text Database DatabaseStorage DatabaseSafety DatabaseMemory GatewayContract.
From S2P Require Import GatewayProtection WatchdogRecord WatchdogContract WatchdogManager.
From S2P Require Import Placement PlacementContract PlacementProtection NodeProtection WatchdogSafety NodeSafety.

(** ** Records *)

Definition RECORD_PREFIX : string := "li_node_protection_session_generation_".
Definition NODE_PROTECTION_SESSION_GENERATION_SCHEMA_NAME : string := "li_node_protection_session_generation".
Definition NODE_PROTECTION_SESSION_GENERATION_SCHEMA_VERSION : Z := 1.

Inductive NodeProtectionSessionGenerationError := GenerationConflict | GenerationCorrupt | GenerationStoreUnavailable.

Record NodeProtectionSessionGenerationSchema := { gs_name : string; gs_version : Z }.
Record NodeProtectionSessionGenerationRecord := {
  sg_record_id : string;
  sg_schema : NodeProtectionSessionGenerationSchema;
  sg_node_id : string;
  sg_core_installation_id : string;
  sg_watchdog_source_identity : string;
  sg_begin_idempotency_key : string;
  sg_watchdog_session_nonce : string;
  sg_watchdog_session_id : string;
  sg_session_generation : Z;
  sg_state : string;
}.

Definition session_record_id (node_id : string) : string := RECORD_PREFIX +:+ node_id.

Definition valid_idempotency_key (value : string) : bool :=
  negb (bool_decide (value = EmptyString)) && (str_len value <=? 255) && negb (existsb is_control (chars value)).

(** [map_err(|_| Corrupt)] *)
Definition generation_corrupt {E A} (r : result E A) : result NodeProtectionSessionGenerationError A :=
  match r with Ok a => Ok a | Err _ => Err GenerationCorrupt end.

Section identities.
Context `{!Sha256}.

Definition session_fields (node_id core_installation_id watchdog_source_identity watchdog_session_nonce : string)
    (session_generation : Z) : list string :=
  ["li_node_protection_session_v1"%string; node_id; core_installation_id; watchdog_source_identity;
   watchdog_session_nonce; be_bytes 8 session_generation].

Definition derived_session_id (node_id core_installation_id watchdog_source_identity watchdog_session_nonce : string)
    (session_generation : Z) : result NodeProtectionSessionGenerationError string :=
  generation_corrupt (Sha256Digest_parse (sha256_hex (digest_fields
    (session_fields node_id core_installation_id watchdog_source_identity watchdog_session_nonce
       session_generation)))).

Definition generation_record (node_id core_installation_id watchdog_source_identity begin_idempotency_key
    watchdog_session_nonce watchdog_session_id : string) (session_generation : Z)
  : NodeProtectionSessionGenerationRecord :=
  {| sg_record_id := session_record_id node_id;
     sg_schema := {| gs_name := NODE_PROTECTION_SESSION_GENERATION_SCHEMA_NAME;
                     gs_version := NODE_PROTECTION_SESSION_GENERATION_SCHEMA_VERSION |};
     sg_node_id := node_id;
     sg_core_installation_id := core_installation_id;
     sg_watchdog_source_identity := watchdog_source_identity;
     sg_begin_idempotency_key := begin_idempotency_key;
     sg_watchdog_session_nonce := watchdog_session_nonce;
     sg_watchdog_session_id := watchdog_session_id;
     sg_session_generation := session_generation;
     sg_state := "active" |}.

Definition is_state (record : NodeProtectionSessionGenerationRecord) (state : string) : bool :=
  bool_decide (sg_state record = state).

Definition authority_from_record (record : NodeProtectionSessionGenerationRecord) (expected_node_id : string)
  : result NodeProtectionSessionGenerationError GatewayProtectionAuthority :=
  if negb (bool_decide (sg_record_id record = session_record_id expected_node_id))
     || negb (bool_decide (gs_name (sg_schema record) = NODE_PROTECTION_SESSION_GENERATION_SCHEMA_NAME))
     || negb (gs_version (sg_schema record) =? NODE_PROTECTION_SESSION_GENERATION_SCHEMA_VERSION)
     || negb (bool_decide (sg_node_id record = expected_node_id))
     || negb (valid_idempotency_key (sg_begin_idempotency_key record))
     || negb (is_state record "active" || is_state record "ended")
  then Err GenerationCorrupt
  else
    let? core_installation_id := generation_corrupt (InstallationId_parse (sg_core_installation_id record)) in
    let? watchdog_source_identity := generation_corrupt (Sha256Digest_parse (sg_watchdog_source_identity record)) in
    let? watchdog_session_nonce := generation_corrupt (Sha256Digest_parse (sg_watchdog_session_nonce record)) in
    let? watchdog_session_id := generation_corrupt (Sha256Digest_parse (sg_watchdog_session_id record)) in
    if sg_session_generation record =? 0 then Err GenerationCorrupt
    else
      let? derived := derived_session_id expected_node_id core_installation_id watchdog_source_identity
                        watchdog_session_nonce (sg_session_generation record) in
      if negb (bool_decide (derived = watchdog_session_id)) then Err GenerationCorrupt
      else Ok {| auth_node_id := expected_node_id; auth_core_installation_id := core_installation_id;
                 auth_watchdog_source_identity := watchdog_source_identity;
                 auth_session_id := watchdog_session_id;
                 auth_session_generation := sg_session_generation record |}.
End identities.

Definition ended_record (record : NodeProtectionSessionGenerationRecord) : NodeProtectionSessionGenerationRecord :=
  {| sg_record_id := sg_record_id record; sg_schema := sg_schema record; sg_node_id := sg_node_id record;
     sg_core_installation_id := sg_core_installation_id record;
     sg_watchdog_source_identity := sg_watchdog_source_identity record;
     sg_begin_idempotency_key := sg_begin_idempotency_key record;
     sg_watchdog_session_nonce := sg_watchdog_session_nonce record;
     sg_watchdog_session_id := sg_watchdog_session_id record;
     sg_session_generation := sg_session_generation record; sg_state := "ended" |}.

Definition generation_database_error (error : DatabaseError) : NodeProtectionSessionGenerationError :=
  match error with
  | DbConflict _ _ _ _ | DbIdempotencyConflict _ => GenerationConflict
  | DbCorrupt _ => GenerationCorrupt
  | DbNotFound _ _ | DbInvalidInput _ _ | DbUnavailable _ | DbClosed => GenerationStoreUnavailable
  end.

(** ** The store *)

Section store.
Context {C : Type} `{!Sqlite C, !DatabaseClock C, !Sha256, !Json DatabaseCommit, !Json (list DatabaseCommit),
  !Json NodeProtectionSessionGenerationRecord}.
Abbreviation GS := (SE (DatabaseManager C) NodeProtectionSessionGenerationError).

#[export] Instance session_row : DatabaseRecord NodeProtectionSessionGenerationRecord := {|
  record_collection := Configuration; record_version_of := 1; record_identifier := sg_record_id |}.

Definition session_read (node_id : string) : GS (option (NodeProtectionSessionGenerationRecord * Z)) := λ m,
  match database_read_record (R := NodeProtectionSessionGenerationRecord) (session_record_id node_id) m with
  | (Ok stored, m) =>
    (let? _ := authority_from_record (sr_value stored) node_id in
     Ok (Some (sr_value stored, sr_revision stored)), m)
  | (Err (DbNotFound _ _), m) => (Ok None, m)
  | (Err e, m) => (Err (generation_database_error e), m)
  end.

(** [self.database.write(save(..))] and the check of its commit; both dispositions pass. *)
Definition write_session (idempotency_key : string) (record : NodeProtectionSessionGenerationRecord)
    (expected : DatabaseRevision) (expected_commit_revision : Z) : GS () :=
  do! (commit, disposition) <- se_map_err generation_database_error
        (database_write (CommandSave idempotency_key record expected)) in
  if negb (bool_decide (dc_collection commit = Configuration))
     || negb (bool_decide (dc_identifier commit = sg_record_id record))
     || negb (dc_revision commit =? expected_commit_revision)
  then se_fail GenerationCorrupt else se_ret ().

Definition write_record (idempotency_key : string) (record : NodeProtectionSessionGenerationRecord) (revision : Z)
  : GS () :=
  write_session idempotency_key record (RevisionExact revision) (saturating_add_u64 revision 1).

(** The active record of the very request. *)
Definition is_begin_retry (record : NodeProtectionSessionGenerationRecord) (authority : GatewayProtectionAuthority)
    (idempotency_key core_installation_id watchdog_source_identity watchdog_session_nonce : string) : bool :=
  is_state record "active"
  && bool_decide (auth_core_installation_id authority = core_installation_id)
  && bool_decide (auth_watchdog_source_identity authority = watchdog_source_identity)
  && bool_decide (sg_begin_idempotency_key record = idempotency_key)
  && bool_decide (sg_watchdog_session_nonce record = watchdog_session_nonce).

(** Allocation after the checks on the current record. *)
Definition allocate_next (current : option (NodeProtectionSessionGenerationRecord * Z))
    (idempotency_key node_id core_installation_id watchdog_source_identity watchdog_session_nonce : string)
  : GS GatewayProtectionAuthority :=
  let last := match current with Some (record, _) => sg_session_generation record | None => 0 end in
  do! generation <- se_lift (ok_or GenerationCorrupt
    (match checked_add_u64 last 1 with
     | Some generation => if generation =? 0 then None else Some generation
     | None => None
     end)) in
  do! session_id <- se_lift (derived_session_id node_id core_installation_id watchdog_source_identity
                               watchdog_session_nonce generation) in
  let record := generation_record node_id core_installation_id watchdog_source_identity idempotency_key
                  watchdog_session_nonce session_id generation in
  run! match current with
       | Some (_, revision) =>
         write_session idempotency_key record (RevisionExact revision) (saturating_add_u64 revision 1)
       | None => write_session idempotency_key record RevisionMissing 1
       end in
  se_ret {| auth_node_id := node_id; auth_core_installation_id := core_installation_id;
            auth_watchdog_source_identity := watchdog_source_identity; auth_session_id := session_id;
            auth_session_generation := generation |}.

Definition session_allocate
    (idempotency_key node_id core_installation_id watchdog_source_identity watchdog_session_nonce : string)
  : GS GatewayProtectionAuthority :=
  do! current <- session_read node_id in
  match current with
  | Some (record, _) =>
    do! authority <- se_lift (authority_from_record record node_id) in
    if is_begin_retry record authority idempotency_key core_installation_id watchdog_source_identity
         watchdog_session_nonce
    then se_ret authority
    else if is_state record "active" || bool_decide (sg_watchdog_session_nonce record = watchdog_session_nonce)
    then se_fail GenerationConflict
    else allocate_next current idempotency_key node_id core_installation_id watchdog_source_identity
           watchdog_session_nonce
  | None => allocate_next current idempotency_key node_id core_installation_id watchdog_source_identity
              watchdog_session_nonce
  end.

Definition session_retire (idempotency_key : string) (authority : GatewayProtectionAuthority) : GS () :=
  do! current <- session_read (auth_node_id authority) in
  match current with
  | None => se_fail GenerationConflict
  | Some (record, revision) =>
    do! stored <- se_lift (authority_from_record record (auth_node_id authority)) in
    if negb (bool_decide (stored = authority)) then se_fail GenerationConflict
    else if is_state record "ended" then se_ret ()
    else write_record idempotency_key (ended_record record) revision
  end.

Definition session_recover (node_id : string) : GS () :=
  do! current <- session_read node_id in
  match current with
  | None => se_ret ()
  | Some (record, revision) =>
    if is_state record "ended" then se_ret ()
    else write_record ("li_node_protection_recover_" +:+ node_id +:+ "_" +:+ to_decimal revision)
           (ended_record record) revision
  end.
End store.

(** ** The protection channel *)

Inductive NodeProtectionAction :=
| ActionBeginWatchdogSession | ActionCommitWatchdogCycle | ActionEndWatchdogSession
| ActionResolveControllerBinding | ActionReadSiteStatus | ActionReadGatewaySnapshot.

Inductive NodeProtectionApiError :=
| ApiAuthorizationDenied | ApiInvalidContract | ApiConflict | ApiCorrupt | ApiProviderUnavailable.

Class NodeProtectionAuthorizationProvider (W : Type) := {
  protection_authorize : string → NodeProtectionAction → string → W → result NodeProtectionApiError () * W;
}.
Class NodeProtectionClock (W : Type) := { protection_now : W → result NodeProtectionApiError Z * W }.
(** The controller sessions and the site identity of the Watchdog protocol. *)
Class WatchdogProtocolReads (W : Type) := {
  ControllerBinding : Type;
  SiteStatus : Type;
  resolve_binding : string → W → result NodeProtectionApiError ControllerBinding * W;
  site_status : ControllerBinding → W → result NodeProtectionApiError SiteStatus * W;
}.
Class SessionGenerations (W : Type) := {
  generations_allocate : string → string → string → string → string → W →
    result NodeProtectionSessionGenerationError GatewayProtectionAuthority * W;
  generations_retire : string → GatewayProtectionAuthority → W →
    result NodeProtectionSessionGenerationError () * W;
  generations_recover : string → W → result NodeProtectionSessionGenerationError () * W;
}.

#[export] Instance database_generations {C} `{!Sqlite C, !DatabaseClock C, !Sha256, !Json DatabaseCommit,
    !Json (list DatabaseCommit), !Json NodeProtectionSessionGenerationRecord}
  : SessionGenerations (DatabaseManager C) := {|
  generations_allocate := session_allocate;
  generations_retire := session_retire;
  generations_recover := session_recover;
|}.

(** [CoreNodeProtectionAuthorizationProvider]: the Gateway reads, the Watchdog writes. *)
Definition core_authorize (gateway_principal watchdog_principal principal_id : string)
    (action : NodeProtectionAction) : result NodeProtectionApiError () :=
  let accepted := match action with
    | ActionReadGatewaySnapshot => bool_decide (principal_id = gateway_principal)
    | _ => bool_decide (principal_id = watchdog_principal)
    end in
  if accepted then Ok () else Err ApiAuthorizationDenied.

Record NodeProtectionBeginRequest := {
  br_idempotency_key : string;
  br_node_id : string;
  br_core_installation_id : string;
  br_watchdog_source_identity : string;
  br_watchdog_session_nonce : string;
  br_minimum_sample_sequence : Z;
}.
Definition NodeProtectionBeginRequest_new (request : NodeProtectionBeginRequest)
  : result NodeProtectionApiError NodeProtectionBeginRequest :=
  if negb (valid_idempotency_key (br_idempotency_key request)) then Err ApiInvalidContract else Ok request.
Record NodeProtectionCommitRequest := {
  cr_node_id : string;
  cr_watchdog_session_id : string;
  cr_watchdog_session_generation : Z;
  cr_cycle : WatchdogProtectionCycle;
}.
Record NodeProtectionEndRequest := {
  er_node_id : string;
  er_watchdog_session_id : string;
  er_watchdog_session_generation : Z;
}.
Record NodeProtectionSnapshotRequest := {
  qr_node_id : string;
  qr_placement_group_id : string;
  qr_endpoint_node_id : string;
}.

Definition generation_error (error : NodeProtectionSessionGenerationError) : NodeProtectionApiError :=
  match error with
  | GenerationConflict => ApiConflict
  | GenerationCorrupt => ApiCorrupt
  | GenerationStoreUnavailable => ApiProviderUnavailable
  end.
Definition lease_error (error : NodeProtectionLeaseError) : NodeProtectionApiError :=
  match error with
  | LeaseInvalidContract => ApiInvalidContract
  | LeaseSessionUnavailable => ApiAuthorizationDenied
  | LeaseRegressedCycle => ApiConflict
  | LeaseStateUnavailable => ApiProviderUnavailable
  end.

Definition end_idempotency_key (authority : GatewayProtectionAuthority) : string :=
  "li_node_protection_end_" +:+ auth_node_id authority +:+ "_" +:+ to_decimal (auth_session_generation authority).

Record NodeProtectionApi := {
  na_local_node_id : string;
  na_core_installation_id : string;
  na_watchdog_source_identity : string;
  na_lease_milliseconds : Z;
  na_watchdog_protocol : bool;
}.

(** The leases under their mutex, the lifecycle under its own, and the world. *)
Record ApiState (W : Type) := { as_leases : NodeProtectionLeaseState; as_retirement_failed : bool; as_world : W }.
Arguments Build_ApiState {W} _ _ _.
Arguments as_leases {W} _.
Arguments as_retirement_failed {W} _.
Arguments as_world {W} _.

Section api.
Context {W : Type} `{!NodePlacements W, !NodeDirectory W, !NodeProtectionTargetProvider W,
  !NodeProtectionAuthorizationProvider W, !NodeProtectionClock W, Hproto : !WatchdogProtocolReads W,
  !SessionGenerations W}.
Abbreviation AM := (SE (ApiState W) NodeProtectionApiError).

Inductive NodeProtectionRequest :=
| BeginWatchdogSession (request : NodeProtectionBeginRequest)
| CommitWatchdogCycle (request : NodeProtectionCommitRequest)
| EndWatchdogSession (request : NodeProtectionEndRequest)
| ResolveControllerBinding (certificate_sha256 : string)
| ReadSiteStatus (binding : ControllerBinding)
| ReadGatewaySnapshot (request : NodeProtectionSnapshotRequest).

Inductive NodeProtectionResponse :=
| WatchdogSessionBegan (authority : GatewayProtectionAuthority)
| WatchdogCycleCommitted (lease_count : nat)
| WatchdogSessionEnded
| ControllerBindingResolved (binding : ControllerBinding)
| SiteStatusRead (status : SiteStatus)
| GatewaySnapshotRead (snapshot : option GatewayPlacementProtectionSnapshot).

(** A provider call, and a region of the lease store, with [map_err]. *)
Definition api_call {E A} (f : E → NodeProtectionApiError) (c : SE W E A) : AM A := λ s,
  let '(r, w) := c (as_world s) in
  (match r with Ok a => Ok a | Err e => Err (f e) end, Build_ApiState (as_leases s) (as_retirement_failed s) w).
Definition lease_region {A} (c : SE NodeProtectionLeaseState NodeProtectionLeaseError A) : AM A := λ s,
  let '(r, st) := c (as_leases s) in
  (match r with Ok a => Ok a | Err e => Err (lease_error e) end,
   Build_ApiState st (as_retirement_failed s) (as_world s)).
Definition NodeProtectionApi_new (api : NodeProtectionApi) : SE W NodeProtectionApiError NodeProtectionApi :=
  if (na_lease_milliseconds api =? 0) || (MAXIMUM_LEASE_MILLISECONDS <? na_lease_milliseconds api)
  then se_fail ApiInvalidContract
  else
    run! se_map_err generation_error (generations_recover (na_local_node_id api)) in
    se_ret {| na_local_node_id := na_local_node_id api; na_core_installation_id := na_core_installation_id api;
              na_watchdog_source_identity := na_watchdog_source_identity api;
              na_lease_milliseconds := na_lease_milliseconds api; na_watchdog_protocol := false |}.

Definition authorization (local_node_id : string) (request : NodeProtectionRequest) : NodeProtectionAction * string :=
  match request with
  | BeginWatchdogSession request => (ActionBeginWatchdogSession, br_node_id request)
  | CommitWatchdogCycle request => (ActionCommitWatchdogCycle, cr_node_id request)
  | EndWatchdogSession request => (ActionEndWatchdogSession, er_node_id request)
  | ResolveControllerBinding _ => (ActionResolveControllerBinding, local_node_id)
  | ReadSiteStatus _ => (ActionReadSiteStatus, local_node_id)
  | ReadGatewaySnapshot request => (ActionReadGatewaySnapshot, qr_node_id request)
  end.

Definition api_begin (api : NodeProtectionApi) (request : NodeProtectionBeginRequest) : AM NodeProtectionResponse :=
  λ s,
  if as_retirement_failed s then (Err ApiProviderUnavailable, s)
  else if negb (bool_decide (br_core_installation_id request = na_core_installation_id api))
          || negb (bool_decide (br_watchdog_source_identity request = na_watchdog_source_identity api))
  then (Err ApiAuthorizationDenied, s)
  else
    (do! authority <- api_call generation_error
       (generations_allocate (br_idempotency_key request) (br_node_id request) (br_core_installation_id request)
          (br_watchdog_source_identity request) (br_watchdog_session_nonce request)) in
     do! now <- api_call id protection_now in
     run! lease_region (begin_watchdog_session authority now (br_minimum_sample_sequence request)) in
     se_ret (WatchdogSessionBegan authority)) s.

Definition api_commit (api : NodeProtectionApi) (request : NodeProtectionCommitRequest) : AM NodeProtectionResponse :=
  do! bindings <- api_call lease_error (bindings_for_cycle (cr_node_id request) (cr_cycle request)) in
  do! leases <- lease_region (commit_protection_cycle (cr_node_id request) (cr_watchdog_session_id request)
      (cr_watchdog_session_generation request) (cr_cycle request) bindings (na_lease_milliseconds api)) in
  se_ret (WatchdogCycleCommitted (length leases)).

Definition api_end (api : NodeProtectionApi) (request : NodeProtectionEndRequest) : AM NodeProtectionResponse := λ s,
  let '(lease_result, st) := end_watchdog_session (er_node_id request) (er_watchdog_session_id request)
                               (er_watchdog_session_generation request) (as_leases s) in
  let authority := {| auth_node_id := er_node_id request;
                      auth_core_installation_id := na_core_installation_id api;
                      auth_watchdog_source_identity := na_watchdog_source_identity api;
                      auth_session_id := er_watchdog_session_id request;
                      auth_session_generation := er_watchdog_session_generation request |} in
  let '(retirement, w) := generations_retire (end_idempotency_key authority) authority (as_world s) in
  match retirement with
  | Err error => (Err (generation_error error), Build_ApiState st true w)
  | Ok _ =>
    let s := Build_ApiState st false w in
    match lease_result with
    | Err error =>
      if negb (bool_decide (error = LeaseSessionUnavailable)) then (Err (lease_error error), s)
      else (Ok WatchdogSessionEnded, s)
    | Ok _ => (Ok WatchdogSessionEnded, s)
    end
  end.

Definition api_snapshot (request : NodeProtectionSnapshotRequest) : AM NodeProtectionResponse := λ s,
  (do! snapshot <- api_call (λ _, ApiProviderUnavailable)
     (snapshot_for_identity (as_leases s) (qr_placement_group_id request) (qr_endpoint_node_id request)) in
   se_ret (GatewaySnapshotRead snapshot)) s.

Definition dispatch (api : NodeProtectionApi) (principal_id : string) (request : NodeProtectionRequest)
  : AM NodeProtectionResponse :=
  let '(action, node_id) := authorization (na_local_node_id api) request in
  run! api_call id (protection_authorize principal_id action node_id) in
  if negb (bool_decide (node_id = na_local_node_id api)) then se_fail ApiAuthorizationDenied
  else match request with
  | BeginWatchdogSession request => api_begin api request
  | CommitWatchdogCycle request => api_commit api request
  | EndWatchdogSession request => api_end api request
  | ResolveControllerBinding certificate_sha256 =>
    if na_watchdog_protocol api
    then do! binding <- api_call id (resolve_binding certificate_sha256) in
         se_ret (ControllerBindingResolved binding)
    else se_fail ApiProviderUnavailable
  | ReadSiteStatus binding =>
    if na_watchdog_protocol api
    then do! status <- api_call id (site_status binding) in se_ret (SiteStatusRead status)
    else se_fail ApiProviderUnavailable
  | ReadGatewaySnapshot request => api_snapshot request
  end.
End api.

(** ** The channel and the lease store *)

Section refinement.
Context {W : Type} `{!NodePlacements W, !NodeDirectory W, !NodeProtectionTargetProvider W,
  !NodeProtectionAuthorizationProvider W, !NodeProtectionClock W, Hproto : !WatchdogProtocolReads W,
  !SessionGenerations W}.

Lemma api_call_leases {E A} f (c : SE W E A) s r s' : api_call f c s = (r, s') → as_leases s' = as_leases s.
Proof. unfold api_call. destruct (c (as_world s)). by intros [= <- <-]. Qed.

(** The history grows only by a cycle that a request of the local node commits. *)
Definition extends (api : NodeProtectionApi) (request : NodeProtectionRequest) (h h' : list Committed) : Prop :=
  h' = h ∨ ∃ cr, request = CommitWatchdogCycle cr ∧ cr_node_id cr = na_local_node_id api ∧
    h' = {| cm_node_id := cr_node_id cr; cm_session_id := cr_watchdog_session_id cr;
            cm_session_generation := cr_watchdog_session_generation cr; cm_cycle := cr_cycle cr |} :: h.

Lemma dispatch_reached api principal_id request s r s' h :
  reached (as_leases s) h → dispatch api principal_id request s = (r, s') →
  ∃ h', reached (as_leases s') h' ∧ extends api request h h'.
Proof.
  intros Hreach. unfold dispatch. destruct (authorization _ _) as [action node_id] eqn:Hauth.
  intros [([] & s1 & H1%api_call_leases & Hr)|(e & H1%api_call_leases & _)]%se_bind_inv;
    [|exists h; rewrite H1; by split; [|left]].
  destruct (bool_decide _) eqn:Hn; cbn [negb] in Hr; [|injection Hr as <- <-; exists h; rewrite H1; by split; [|left]].
  apply bool_decide_eq_true in Hn. rewrite <- H1 in Hreach. clear H1. destruct request as [b|c|e|x|x|q].
  - exists h. split; [|by left]. unfold api_begin in Hr. destruct (as_retirement_failed s1); [by injection Hr as <- <-|].
    destruct (_ || _); [by injection Hr as <- <-|].
    apply se_bind_inv in Hr as [(a & s2 & H2%api_call_leases & Hr)|(e & H2%api_call_leases & _)]; [|by rewrite H2].
    apply se_bind_inv in Hr as [(now & s3 & H3%api_call_leases & Hr)|(e & H3%api_call_leases & _)]; [|by rewrite H3, H2].
    rewrite <- H2, <- H3 in Hreach. unfold se_bind, lease_region in Hr.
    destruct (begin_watchdog_session _ _ _ _) as [r4 st] eqn:H4.
    apply (reached_begin _ _ _ _ _ _ _ Hreach) in H4. destruct r4; injection Hr as <- <-; done.
  - unfold api_commit in Hr.
    apply se_bind_inv in Hr as [(a & s2 & H2%api_call_leases & Hr)|(e & H2%api_call_leases & _)];
      [|exists h; rewrite H2; by split; [|left]].
    rewrite <- H2 in Hreach. unfold se_bind, lease_region in Hr.
    destruct (commit_protection_cycle _ _ _ _ _ _ _) as [[next|e] st] eqn:H4; injection Hr as <- <-.
    + eexists. split; [exact (reached_commit _ _ _ _ _ _ _ _ _ _ Hreach H4)|]. right. exists c.
      split_and!; [done| |done]. by injection Hauth as _ <-.
    + exists h. split; [exact (reached_refused _ _ _ _ _ _ _ _ _ _ Hreach H4)|by left].
  - exists h. split; [|by left]. unfold api_end in Hr.
    destruct (end_watchdog_session _ _ _ _) as [lr st] eqn:H4. apply (reached_end _ _ _ _ _ _ _ Hreach) in H4.
    destruct (generations_retire _ _ _) as [[|] w]; [|injection Hr as <- <-; done].
    destruct lr as [|e']; [|destruct (negb _)]; injection Hr as <- <-; done.
  - exists h. split; [|by left]. destruct (na_watchdog_protocol api); [|by injection Hr as <- <-].
    apply se_bind_inv in Hr as [(a & s2 & H2%api_call_leases & [= _ <-])|(e & H2%api_call_leases & _)]; by rewrite H2.
  - exists h. split; [|by left]. destruct (na_watchdog_protocol api); [|by injection Hr as <- <-].
    apply se_bind_inv in Hr as [(a & s2 & H2%api_call_leases & [= _ <-])|(e & H2%api_call_leases & _)]; by rewrite H2.
  - exists h. split; [|by left]. unfold api_snapshot in Hr.
    apply se_bind_inv in Hr as [(a & s2 & H2%api_call_leases & [= _ <-])|(e & H2%api_call_leases & _)]; by rewrite H2.
Qed.
End refinement.

(** ** Durable generations *)

Section generations.
Context {C : Type} `{!Sqlite C, !DatabaseClock C, !Sha256, !Json DatabaseCommit, !Json (list DatabaseCommit),
  !Json NodeProtectionSessionGenerationRecord, !JsonLaws NodeProtectionSessionGenerationRecord, !DatabaseLaws C}
  (n : string).
Abbreviation DM := (DatabaseManager C).

(** The committed tables and the record of the node in them. *)
Definition tables_of (m : DM) : Tables := durable (dm_connection m).
Definition stored_row (m : DM) : option RecordRow :=
  records (tables_of m) !! (storage_name Configuration, session_record_id n).
Definition stored_session (m : DM) : option NodeProtectionSessionGenerationRecord :=
  stored_row m ≫= λ row, from_json (row_payload row).
Definition session_target : string * string := (storage_name Configuration, session_record_id n).

(** A write that expected this revision is in the past. *)
Definition passed (expected : DatabaseRevision) (row : option RecordRow) : Prop :=
  match expected with
  | RevisionAny => True
  | RevisionMissing => is_Some row
  | RevisionExact revision => ∃ row', row = Some row' ∧ revision < row_revision row'
  end.
(** Every remembered write of the record of the node is in the past. *)
Definition accounted (t : Tables) : Prop :=
  (∀ row, records t !! session_target = Some row → in_u64 (row_revision row)) ∧
  ∀ key row collection version identifier payload replay_key expected,
    let command := PreparedSave collection version identifier payload replay_key expected in
    idempotency t !! key = Some row → prepared command → DatabaseSafety.target command = session_target →
    row_digest row = command_digest command →
    passed expected (records t !! session_target) ∨ sha256_collision.

Lemma passed_later expected row row' :
  passed expected row → is_Some row' →
  (∀ r, row = Some r → ∃ r', row' = Some r' ∧ row_revision r ≤ row_revision r') → passed expected row'.
Proof.
  destruct expected as [| |revision]; simpl; [done..|]. intros (r & Hr & Hlt) _ Hl.
  destruct (Hl r Hr) as (r' & -> & ?). exists r'. split; [done|lia].
Qed.

(** One message for two commands is a collision, unless they are the same mutation. *)
Lemma command_digest_collision a b :
  prepared a → prepared b → command_digest a = command_digest b → same_mutation a b ∨ sha256_collision.
Proof.
  intros Ha Hb Hd. destruct (decide (digest_fields (command_fields a) = digest_fields (command_fields b))) as [He|Hne].
  - left. by apply digest_message_identifies_command.
  - right. by eexists _, _.
Qed.

Lemma session_read_inv (m : DM) r m' :
  settled (dm_connection m) → session_read n m = (r, m') →
  settled (dm_connection m') ∧ tables_of m' = tables_of m ∧
  (∀ record revision, r = Ok (Some (record, revision)) →
     stored_session m = Some record ∧ (∃ authority, authority_from_record record n = Ok authority) ∧
     ∃ row, stored_row m = Some row ∧ revision = row_revision row) ∧
  (r = Ok None → stored_row m = None).
Proof.
  intros Hs. unfold session_read. destruct (database_read_record _ m) as [r0 m1] eqn:E.
  apply database_read_record_inv in E as (Hs1 & Hd & Hok & Hnone); [|done].
  destruct r0 as [stored|e].
  - intros [= <- <-]. destruct (Hok _ eq_refl) as (row & Hrow & Hjson & Hrev).
    change (stored_row m = Some row) in Hrow. split_and!; [done..| |].
    + intros record revision (authority & Ha & [= <- <-])%result_bind_Ok. unfold stored_session.
      rewrite Hrow. simpl. split_and!; eauto.
    + by intros (authority & Ha & [=])%result_bind_Ok.
  - destruct e; intros [= <- <-]; split_and!; try done. intros _. by eapply Hnone.
Qed.

(** The revision that a write of the record expects is the current one. *)
Definition expects_current (expected : DatabaseRevision) (m : DM) : Prop :=
  expected = RevisionMissing ∧ stored_row m = None ∨
  ∃ row, stored_row m = Some row ∧ expected = RevisionExact (row_revision row).

(** An applied save of the record leaves every remembered write in the past. *)
Lemma session_save_accounted version payload key expected t commit now json at_ t1 :
  let command := PreparedSave Configuration version (session_record_id n) payload key expected in
  accounted t → prepared command → mutates now t command commit t1 →
  accounted (remember key {| row_digest := command_digest command; row_commit_json := json; row_committed_at := at_ |} t1).
Proof.
  intros command [Hrev Hacc] Hprep Hm.
  apply mutates_idempotency in Hm as Hid. apply mutates_save_inv in Hm as (row & Hrec & _ & Hcase).
  assert (records t1 !! session_target = Some row) as Hrow by (by rewrite Hrec, lookup_insert_eq).
  assert (∀ r, records t !! session_target = Some r → row_revision r < row_revision row) as Hlater.
  { intros r Hr. destruct Hcase as [(Hn & _)|(old & Ho & _ & -> & _)]; unfold session_target in Hr; simplify_eq; lia. }
  split; simpl; rewrite Hrow.
  { intros r [= <-]. destruct Hcase as [(_ & _ & ->)|(old & Ho & _ & -> & Hmax)]; [done|].
    specialize (Hrev _ Ho). unfold in_u64, i64_max, u64_max in *. lia. }
  intros key' row' c v i p k e Hl Hp' Ht Hd. rewrite Hid in Hl. apply lookup_insert_Some in Hl as [[<- <-]|[_ Hl]].
  - destruct (command_digest_collision _ _ Hprep Hp' Hd) as [Hsame|]; [left|by right]. simpl in Hsame.
    injection Hsame as <- <- <- <- <-.
    destruct expected as [| |revision]; simpl; [done|done|]. exists row. split; [done|].
    destruct Hcase as [(_ & [=] & _)|(old & Ho & [= <-] & -> & _)]. lia.
  - destruct (Hacc _ _ _ _ _ _ _ _ Hl Hp' Ht Hd) as [Hpast|]; [left|by right].
    apply (passed_later _ _ _ Hpast); [done|]. intros r Hr%Hlater. exists row. split; [done|lia].
Qed.

Lemma write_session_inv key record expected revision (m : DM) r m' :
  settled (dm_connection m) → accounted (tables_of m) → sg_record_id record = session_record_id n →
  expects_current expected m → write_session key record expected revision m = (r, m') →
  settled (dm_connection m') ∧ accounted (tables_of m') ∧
  (tables_of m' = tables_of m ∧ (r = Ok () → sha256_collision) ∨ stored_session m' = Some record).
Proof.
  intros Hs Hacc Hid Hcur. unfold write_session. intros Hw.
  assert (∃ r0, database_write (CommandSave key record expected) m = (r0, m') ∧
    (r = Ok () → ∃ commit disposition, r0 = Ok (commit, disposition))) as (r0 & Hr0 & Hok).
  { apply se_bind_inv in Hw as [([commit disposition] & m1 & H1 & H2)|(e & H1 & ->)]; unfold se_map_err in H1;
      destruct (database_write _ m) as [[x|e'] m2] eqn:E; try done.
    - injection H1 as -> <-. assert (m' = m2) as -> by (destruct (_ || _) in H2; by injection H2 as <- <-). eauto.
    - injection H1 as _ <-. eexists. split; [done|]. by intros [=]. }
  clear Hw. apply database_write_step in Hr0 as [Hs' Hstep]; [|done]. split; [done|]. unfold tables_of in *.
  destruct Hstep as [[Hd [e ->]]|(p & r1 & Hp & Hstep & ->)].
  { rewrite Hd. split; [done|]. left. split; [done|]. by intros (? & ? & [=])%Hok. }
  assert (revision_wf expected) as Hwf.
  { destruct Hcur as [[-> _]|(row & Hrow & ->)]; [done|]. by apply Hacc. }
  pose proof (prepare_save_prepared _ _ _ _ ltac:(done) Hwf Hp) as Hprep.
  apply prepare_save_Ok in Hp as (payload & Hj & Hp).
  assert (p = PreparedSave Configuration 1 (session_record_id n) payload key expected) as ->
    by (rewrite Hp; simpl; by rewrite Hid).
  clear Hp. cbn [pc_idempotency_key] in Hstep.
  assert (∀ commits t', applies (λ commits, head commits) key (command_digest (PreparedSave Configuration 1 (session_record_id n) payload key expected))
     [PreparedSave Configuration 1 (session_record_id n) payload key expected] (durable (dm_connection m)) commits t' →
    durable (dm_connection m') = t' → accounted t' ∧ stored_session m' = Some record) as Happ.
  { intros commits t' (now & t1 & a & json & at_ & _ & _ & Hm & _ & _ & ->) Ht'.
    inversion Hm as [|? ? commit t2 ? ? ? Hone Hnil]; subst. inversion Hnil; subst.
    split; [by eapply session_save_accounted|]. apply mutates_save_inv in Hone as (row & Hrec & Hpay & _).
    unfold stored_session, stored_row, tables_of. rewrite Ht'. simpl. rewrite Hrec, lookup_insert_eq. simpl.
    rewrite Hpay. by apply json_round_trip. }
  inversion Hstep as [commits a t' Ha Hh|row a Hrow Hdig Hjs| |commits t' e Ha]; subst.
  - destruct (Happ _ _ Ha eq_refl). auto.
  - split; [done|]. left. split; [done|]. intros _.
    destruct (proj2 Hacc _ _ _ _ _ _ _ _ Hrow Hprep eq_refl Hdig) as [Hpast|]; [exfalso|done].
    change (records (durable (dm_connection m)) !! session_target) with (stored_row m) in Hpast.
    destruct Hcur as [[-> Hn]|(row' & Hr' & ->)]; simpl in Hpast; rewrite ?Hn, ?Hr' in Hpast.
    + by destruct Hpast as [? [=]].
    + destruct Hpast as (? & [= <-] & ?). lia.
  - split; [done|]. left. split; [done|]. by intros (? & ? & [=])%Hok.
  - destruct (Happ _ _ Ha eq_refl). auto.
Qed.

Lemma authority_from_record_Ok record authority :
  authority_from_record record n = Ok authority →
  auth_session_generation authority = sg_session_generation record ∧ auth_node_id authority = n ∧
  sg_record_id record = session_record_id n ∧ is_lower_hex (sg_watchdog_session_nonce record) 64 = true ∧
  is_lower_hex (auth_core_installation_id authority) 64 = true ∧
  is_lower_hex (auth_watchdog_source_identity authority) 64 = true ∧
  auth_session_id authority = sha256_hex (digest_fields (session_fields n (auth_core_installation_id authority)
    (auth_watchdog_source_identity authority) (sg_watchdog_session_nonce record) (sg_session_generation record))).
Proof.
  unfold authority_from_record. destruct (_ || _) eqn:Hg; [done|].
  rewrite !orb_false_iff, !negb_false_iff, !bool_decide_eq_true in Hg. destruct Hg as [[[[[Hid _] _] _] _] _].
  assert (∀ E (r : result E string) x, generation_corrupt r = Ok x → r = Ok x) as Hc by (by intros E [] ? [= <-]).
  intros (inst & [Hi ->]%Hc%validate_Ok & Hr)%result_bind_Ok.
  apply result_bind_Ok in Hr as (src & [Hsrc ->]%Hc%validate_Ok & Hr).
  apply result_bind_Ok in Hr as (nonce & [Hn ->]%Hc%validate_Ok & Hr).
  apply result_bind_Ok in Hr as (sid & [_ ->]%Hc%validate_Ok & Hr). destruct (_ =? 0); [done|].
  apply result_bind_Ok in Hr as (derived & [_ ->]%Hc%validate_Ok & Hr).
  destruct (bool_decide _) eqn:Hd; [|done]. apply bool_decide_eq_true in Hd. injection Hr as <-. by split_and!.
Qed.

Lemma authority_ended record authority :
  authority_from_record record n = Ok authority → authority_from_record (ended_record record) n = Ok authority.
Proof.
  unfold authority_from_record. destruct (_ || negb (is_state record _ || _)) eqn:Hg; [done|].
  apply orb_false_iff in Hg as [Hg _]. intros Ha.
  match goal with |- (if ?b then _ else _) = _ => assert (b = false) as -> end; [|exact Ha].
  apply orb_false_iff. split; [exact Hg|reflexivity].
Qed.

(** *** Calls *)

(** Values of the argument types of a begin request. *)
Definition begin_typed (key inst src nonce : string) : Prop :=
  valid_idempotency_key key = true ∧ is_lower_hex inst 64 = true ∧ is_lower_hex src 64 = true ∧
  is_lower_hex nonce 64 = true.
Definition last_generation (m : DM) : Z := from_option sg_session_generation 0 (stored_session m).

Lemma allocate_next_inv current key inst src nonce (m : DM) r m' :
  settled (dm_connection m) → accounted (tables_of m) → begin_typed key inst src nonce → 0 ≤ last_generation m →
  match current with
  | Some (record, revision) => stored_session m = Some record ∧
    ∃ row, stored_row m = Some row ∧ revision = row_revision row
  | None => stored_row m = None
  end →
  allocate_next current key n inst src nonce m = (r, m') →
  settled (dm_connection m') ∧ accounted (tables_of m') ∧
  (stored_session m' = stored_session m ∧ (∀ a, r = Ok a → sha256_collision) ∨
   ∃ record authority, stored_session m' = Some record ∧ sg_state record = "active"%string ∧
     authority_from_record record n = Ok authority ∧ sg_session_generation record = last_generation m + 1 ∧
     in_u64 (sg_session_generation record) ∧ ∀ a, r = Ok a → a = authority).
Proof.
  intros Hs Hacc (Hkey & Hinst & Hsrc & Hnonce) Hpos Hcur Hr. unfold allocate_next in Hr. cbv zeta in Hr.
  assert (match current with Some (record, _) => sg_session_generation record | None => 0 end = last_generation m) as Hlast.
  { unfold last_generation. destruct current as [[record revision]|]; [by rewrite (proj1 Hcur)|].
    unfold stored_session. by rewrite Hcur. }
  rewrite Hlast in Hr. destruct (checked_add_u64 _ _) as [generation|] eqn:Hg.
  2:{ injection Hr as <- <-. split; [done|]. split; [done|]. left. by split. }
  apply checked_add_u64_Some in Hg as [-> Hu]. destruct (_ =? 0) eqn:Hz in Hr; [lia|].
  unfold se_bind at 1 in Hr. cbn [se_lift ok_or] in Hr.
  unfold derived_session_id, se_bind at 1, se_lift in Hr.
  destruct (Sha256Digest_parse _) as [sid|e] eqn:Hsid; cbn [generation_corrupt] in Hr.
  2:{ injection Hr as <- <-. split; [done|]. split; [done|]. left. by split. }
  set (record := generation_record _ _ _ _ _ _ _) in Hr.
  assert (∃ expected revision r0, expects_current expected m ∧ write_session key record expected revision m = (r0, m') ∧
    ((∃ a, r = Ok a) → r0 = Ok ()) ∧ ∀ a, r = Ok a → a = {| auth_node_id := n; auth_core_installation_id := inst;
       auth_watchdog_source_identity := src; auth_session_id := sid;
       auth_session_generation := last_generation m + 1 |}) as (expected & revision & r0 & Hexp & Hw & Hok & Ha).
  { destruct current as [[? revision]|]; apply se_bind_inv in Hr as [([] & m1 & H1 & [= <- <-])|(e & H1 & ->)];
      do 3 eexists; (split; [|split; [exact H1|]; split; [naive_solver..]]).
    1,2: right; destruct Hcur as [_ (row & Hrow & ->)]; by exists row.
    all: by left. }
  apply write_session_inv in Hw as (Hs' & Hacc' & Hst); [|done..]. split; [done|]. split; [done|].
  destruct Hst as [[Hsame Hre]|Hst]; [left; split|right].
  { unfold stored_session, stored_row. by rewrite Hsame. }
  { intros a ->. apply Hre, Hok. eauto. }
  exists record. eexists. split; [exact Hst|]. split; [done|]. split; [|split; [done|split; [unfold in_u64; simpl; lia|exact Ha]]].
  apply validate_Ok in Hsid as [Hhex ->]. unfold authority_from_record, derived_session_id.
  match goal with |- (if ?b then _ else _) = _ => assert (b = false) as -> end.
  { rewrite !orb_false_iff, !negb_false_iff, !bool_decide_eq_true. split_and!; [reflexivity..| |reflexivity].
    exact Hkey. }
  cbn [record generation_record sg_core_installation_id sg_watchdog_source_identity sg_watchdog_session_nonce
    sg_watchdog_session_id sg_session_generation].
  unfold InstallationId_parse, Sha256Digest_parse, validate. rewrite Hinst, Hsrc, Hnonce, Hhex.
  cbn [generation_corrupt result_bind]. rewrite Hz, Hhex. cbn [generation_corrupt result_bind].
  by rewrite bool_decide_true.
Qed.

(** What a call may do to the record of the node. *)
Inductive session_moves (m m' : DM) : Prop :=
| moves_same : stored_session m' = stored_session m → session_moves m m'
| moves_begun record authority :
  stored_session m' = Some record → authority_from_record record n = Ok authority →
  sg_session_generation record = last_generation m + 1 → in_u64 (sg_session_generation record) → session_moves m m'
| moves_ended record :
  stored_session m = Some record → stored_session m' = Some (ended_record record) → session_moves m m'.

Lemma tables_session m m' : tables_of m' = tables_of m →
  stored_session m' = stored_session m ∧ stored_row m' = stored_row m ∧ last_generation m' = last_generation m.
Proof. intros Hd. unfold last_generation, stored_session, stored_row. by rewrite Hd. Qed.

Lemma session_allocate_inv key inst src nonce (m : DM) r m' :
  settled (dm_connection m) → accounted (tables_of m) → begin_typed key inst src nonce →
  0 ≤ last_generation m → session_allocate key n inst src nonce m = (r, m') →
  settled (dm_connection m') ∧ accounted (tables_of m') ∧ session_moves m m' ∧
  ∀ a, r = Ok a → (∃ record, stored_session m' = Some record ∧ authority_from_record record n = Ok a ∧
    sg_state record = "active"%string) ∨ sha256_collision.
Proof.
  intros Hs Hacc Ht Hpos Hr. unfold session_allocate, se_bind at 1 in Hr.
  destruct (session_read n m) as [r1 m1] eqn:H1. apply session_read_inv in H1 as (Hs1 & Hd & Hsome & Hnone); [|done].
  destruct (tables_session _ _ Hd) as (Hst & Hrow & Hlast). rewrite <- Hd in Hacc.
  destruct r1 as [current|e].
  2:{ injection Hr as <- <-. split_and!; [done..|by constructor|]. by intros a [=]. }
  assert (∀ r', allocate_next current key n inst src nonce m1 = (r', m') →
    match current with
    | Some (record, revision) => stored_session m = Some record ∧ ∃ row, stored_row m = Some row ∧ revision = row_revision row
    | None => stored_row m = None
    end →
    settled (dm_connection m') ∧ accounted (tables_of m') ∧ session_moves m m' ∧
    ∀ a, r' = Ok a → (∃ record, stored_session m' = Some record ∧ authority_from_record record n = Ok a ∧
      sg_state record = "active"%string) ∨ sha256_collision) as Hnext.
  { intros r' Hn Hc. apply allocate_next_inv in Hn as (Hs' & Hacc' & Hn); [|done|done|done|by rewrite Hlast|].
    2:{ destruct current as [[]|]; by rewrite ?Hst, ?Hrow. }
    split; [done|]. split; [done|]. destruct Hn as [[Hsame Hno]|(record & authority & Hrec & Hact & Ha & Hg & Hin & Hr')].
    - split; [apply moves_same; congruence|]. intros a Ha. right. by eapply Hno.
    - rewrite Hlast in Hg. split; [by eapply moves_begun|]. intros a Hra. rewrite (Hr' a Hra). left. eauto. }
  destruct current as [[record revision]|].
  - destruct (Hsome _ _ eq_refl) as (Hrec & (authority & Ha) & Hrev). unfold se_bind at 1, se_lift in Hr. rewrite Ha in Hr.
    destruct (is_begin_retry _ _ _ _ _ _) eqn:Hretry.
    { injection Hr as <- <-. split_and!; [done..|by constructor|]. intros a [= <-]. left. exists record.
      rewrite Hst. split_and!; [done..|]. unfold is_begin_retry in Hretry.
      do 4 apply andb_true_iff in Hretry as [Hretry _]. by apply bool_decide_eq_true in Hretry. }
    destruct (_ || _); [injection Hr as <- <-; split_and!; [done..|by constructor|by intros a [=]]|].
    by apply (Hnext _ Hr).
  - apply (Hnext _ Hr). by apply Hnone.
Qed.

Lemma write_ended_inv key record revision (m m1 : DM) r m' :
  settled (dm_connection m1) → tables_of m1 = tables_of m → accounted (tables_of m) → stored_session m = Some record →
  (∃ row, stored_row m = Some row ∧ revision = row_revision row) →
  sg_record_id record = session_record_id n → write_record key (ended_record record) revision m1 = (r, m') →
  settled (dm_connection m') ∧ accounted (tables_of m') ∧ session_moves m m' ∧
  (r = Ok () → stored_session m' = Some (ended_record record) ∨ sha256_collision).
Proof.
  intros Hs Hd Hacc Hrec (row & Hrow & ->) Hid Hw. destruct (tables_session _ _ Hd) as (Hst & Hrow1 & _).
  apply write_session_inv in Hw as (Hs' & Hacc' & Hw); [|done|by rewrite Hd|done|right; exists row; by rewrite Hrow1].
  split; [done|]. split; [done|]. destruct Hw as [[Hsame Hno]|Hw].
  - split; [apply moves_same; destruct (tables_session _ _ Hsame); congruence|]. auto.
  - split; [by eapply moves_ended|by left].
Qed.

Lemma session_retire_inv key authority (m : DM) r m' :
  settled (dm_connection m) → accounted (tables_of m) → auth_node_id authority = n →
  session_retire key authority m = (r, m') →
  settled (dm_connection m') ∧ accounted (tables_of m') ∧ session_moves m m' ∧
  (r = Ok () → (∃ record, stored_session m' = Some record ∧ authority_from_record record n = Ok authority ∧
     sg_state record = "ended"%string) ∨ sha256_collision).
Proof.
  intros Hs Hacc Hn Hr. unfold session_retire, se_bind at 1 in Hr. rewrite Hn in Hr.
  destruct (session_read _ m) as [r1 m1] eqn:H1. apply session_read_inv in H1 as (Hs1 & Hd & Hsome & _); [|done].
  destruct (tables_session _ _ Hd) as (Hst & _ & _). pose proof Hacc as Hacc1. rewrite <- Hd in Hacc1.
  destruct r1 as [[[record revision]|]|e]; [|by injection Hr as <- <-; split_and!; [| |by constructor|]..].
  destruct (Hsome _ _ eq_refl) as (Hrec & (stored & Ha) & Hrev). unfold se_bind at 1, se_lift in Hr. rewrite Ha in Hr.
  destruct (bool_decide _) eqn:He; [|by injection Hr as <- <-; split_and!; [| |by constructor|]].
  apply bool_decide_eq_true in He as ->. cbn [negb] in Hr.
  destruct (is_state record "ended") eqn:Hend.
  { injection Hr as <- <-. split_and!; [done..|by constructor|]. intros _. left. exists record.
    apply bool_decide_eq_true in Hend. by rewrite Hst. }
  apply authority_from_record_Ok in Ha as Hok.
  eapply write_ended_inv in Hr as (Hs' & Hacc' & Hm & Hw); [|done..|apply Hok].
  split_and!; [done..|]. intros [Hst'|]%Hw; [left|by right].
  exists (ended_record record). split_and!; [done|by apply authority_ended|done].
Qed.

Lemma session_recover_inv (m : DM) r m' :
  settled (dm_connection m) → accounted (tables_of m) → session_recover n m = (r, m') →
  settled (dm_connection m') ∧ accounted (tables_of m') ∧ session_moves m m'.
Proof.
  intros Hs Hacc Hr. unfold session_recover, se_bind at 1 in Hr.
  destruct (session_read _ m) as [r1 m1] eqn:H1. apply session_read_inv in H1 as (Hs1 & Hd & Hsome & _); [|done].
  destruct (tables_session _ _ Hd) as (Hst & _ & _). pose proof Hacc as Hacc1. rewrite <- Hd in Hacc1.
  destruct r1 as [[[record revision]|]|e]; [|by injection Hr as <- <-; split_and!; [..|by constructor]..].
  destruct (Hsome _ _ eq_refl) as (Hrec & (stored & Ha) & Hrev).
  destruct (is_state record "ended"); [by injection Hr as <- <-; split_and!; [..|by constructor]|].
  apply authority_from_record_Ok in Ha as Hok.
  eapply write_ended_inv in Hr as (Hs' & Hacc' & Hm & _); [|done..|apply Hok]. done.
Qed.

(** *** Histories *)

Definition answered_authority (r : result NodeProtectionSessionGenerationError GatewayProtectionAuthority)
  : list GatewayProtectionAuthority := match r with Ok a => [a] | Err _ => [] end.
Definition retired_authority (r : result NodeProtectionSessionGenerationError ()) (a : GatewayProtectionAuthority)
  : list GatewayProtectionAuthority := match r with Ok _ => [a] | Err _ => [] end.

(** A write of other records: a command or a transaction, remembered by its digest. *)
Inductive foreign_write (t t' : Tables) : Prop :=
| foreign_command key command commit json at_ now t1 :
  mutates now t command commit t1 → prepared command → DatabaseSafety.target command ≠ session_target →
  t' = remember key {| row_digest := command_digest command; row_commit_json := json; row_committed_at := at_ |} t1 →
  foreign_write t t'
| foreign_transaction key commands commits json at_ now t1 :
  mutates_all now t commands commits t1 →
  Forall (λ command, DatabaseSafety.target command ≠ session_target) commands →
  t' = remember key {| row_digest := transaction_digest commands; row_commit_json := json; row_committed_at := at_ |} t1 →
  foreign_write t t'.

(** The databases that calls for the node reach from a new one, with the authorities that
    were answered and those that were retired; other writers write other records. *)
Inductive session_history : DM → list GatewayProtectionAuthority → list GatewayProtectionAuthority → Prop :=
| history_start m :
  settled (dm_connection m) → records (tables_of m) = ∅ → idempotency (tables_of m) = ∅ → session_history m [] []
| history_other m l d m' :
  session_history m l d → settled (dm_connection m') → rtc foreign_write (tables_of m) (tables_of m') →
  session_history m' l d
| history_allocate m l d key inst src nonce r m' :
  session_history m l d → begin_typed key inst src nonce →
  session_allocate key n inst src nonce m = (r, m') → session_history m' (answered_authority r ++ l) d
| history_retire m l d key authority r m' :
  session_history m l d → auth_node_id authority = n →
  session_retire key authority m = (r, m') → session_history m' l (retired_authority r authority ++ d)
| history_recover m l d r m' :
  session_history m l d → session_recover n m = (r, m') → session_history m' l d.

(** A transaction and a command are hashed from different messages. *)
Lemma transaction_digest_collision commands command :
  transaction_digest commands = command_digest command → sha256_collision.
Proof.
  intros Hd. eexists _, _. split; [|exact Hd]. intros Hm. unfold command_fields in Hm.
  assert (∀ s, (String.length s ≤ 64)%nat → addressable s) as Hs.
  { intros s Hs. apply short_addressable. unfold str_len, MAX_RECORD_BYTES. lia. }
  destruct command; apply digest_field_inj in Hm as [? _]; try done; apply Hs; simpl; lia.
Qed.

Lemma foreign_accounted t t' :
  foreign_write t t' → accounted t → accounted t' ∧ records t' !! session_target = records t !! session_target.
Proof.
  assert (∀ t1 key row, idempotency t1 = idempotency t → records t1 !! session_target = records t !! session_target →
    (∀ c v i p k e, let b := PreparedSave c v i p k e in prepared b → DatabaseSafety.target b = session_target →
       row_digest row = command_digest b → sha256_collision) →
    accounted t → accounted (remember key row t1) ∧
    records (remember key row t1) !! session_target = records t !! session_target) as Hadd.
  { intros t1 key row Hid Hrec Hnew [Hrev Hacc]. simpl. split; [|done]. split; simpl; rewrite Hrec; [done|].
    intros key' row' c v i p k e Hl Hp Ht Hd. rewrite Hid in Hl. apply lookup_insert_Some in Hl as [[<- <-]|[_ Hl]].
    - right. by eapply Hnew.
    - by eapply Hacc. }
  intros [key command commit json at_ now t1 Hm Hp Hne ->|key commands commits json at_ now t1 Hm Hne ->].
  - apply Hadd; [by eapply mutates_idempotency|by eapply mutates_elsewhere|]. simpl. intros c v i p k e Hb Ht Hd.
    destruct (command_digest_collision _ _ Hp Hb Hd) as [Hsame|]; [exfalso|done]. destruct command; [|done].
    simpl in Hsame. by simplify_eq.
  - apply Hadd; [by eapply mutates_all_idempotency|by eapply mutates_all_elsewhere|]. simpl. intros c v i p k e _ _ Hd.
    by eapply transaction_digest_collision.
Qed.
Lemma foreign_all_accounted t t' :
  rtc foreign_write t t' → accounted t → accounted t' ∧ records t' !! session_target = records t !! session_target.
Proof.
  induction 1 as [t|t t1 t2 H1 _ IH]; [done|]. intros Ha. destruct (foreign_accounted _ _ H1 Ha) as [Ha1 <-]. by apply IH.
Qed.

(** An answered session is the stored one or an older one; a retired one is not active. *)
Definition superseded (m : DM) (a : GatewayProtectionAuthority) (ended : bool) : Prop :=
  ∃ record stored, stored_session m = Some record ∧ authority_from_record record n = Ok stored ∧
    (stored = a ∧ (ended = true → sg_state record = "ended"%string) ∨
     auth_session_generation a < auth_session_generation stored).
(** The identity is the hash of a message that names the generation. *)
Definition derived_authority (a : GatewayProtectionAuthority) : Prop :=
  0 ≤ auth_session_generation a < 256 ^ 8 ∧ auth_node_id a = n ∧ ∃ fields,
    Forall addressable fields ∧ auth_session_id a = sha256_hex (digest_fields fields) ∧
    last fields = Some (be_bytes 8 (auth_session_generation a)).

Record history_invariant (m : DM) (l d : list GatewayProtectionAuthority) : Prop := {
  hi_settled : settled (dm_connection m);
  hi_accounted : accounted (tables_of m);
  hi_bound record : stored_session m = Some record → in_u64 (sg_session_generation record);
  hi_answered a : a ∈ l → superseded m a false ∧ derived_authority a ∨ sha256_collision;
  hi_retired a : a ∈ d → superseded m a true ∨ sha256_collision;
}.

Lemma superseded_moves m m' a ended :
  (∀ record, stored_session m = Some record → in_u64 (sg_session_generation record)) →
  session_moves m m' → superseded m a ended → superseded m' a ended.
Proof.
  intros Hb Hm (record & stored & Hrec & Ha & Hcase). apply authority_from_record_Ok in Ha as Hok.
  destruct Hok as (Hgen & _). destruct Hm as [Hsame|record' a' Hrec' Ha' Hg' _|record' Hrec' Hend].
  - exists record, stored. by rewrite Hsame.
  - exists record', a'. split_and!; [done..|]. right. apply authority_from_record_Ok in Ha' as (Hgen' & _).
    unfold last_generation in Hg'. rewrite Hrec in Hg'. simpl in Hg'. destruct Hcase as [[-> _]|]; lia.
  - rewrite Hrec in Hrec'. injection Hrec' as <-. exists (ended_record record), stored.
    split_and!; [done|by apply authority_ended|]. naive_solver.
Qed.

Lemma moves_bound m m' :
  (∀ record, stored_session m = Some record → in_u64 (sg_session_generation record)) → session_moves m m' →
  ∀ record, stored_session m' = Some record → in_u64 (sg_session_generation record).
Proof.
  intros Hb [Hsame|record' a' Hrec' _ _ Hu|record' Hrec' Hend] record Hrec; rewrite Hrec in *; simplify_eq; eauto.
  by apply (Hb record').
Qed.

Hypothesis node_typed : is_lower_hex n 32 = true.

Lemma authority_derived record a :
  authority_from_record record n = Ok a → in_u64 (sg_session_generation record) → derived_authority a.
Proof.
  intros (Hgen & Hn & _ & Hnonce & Hi & Hs & Hid)%authority_from_record_Ok Hb.
  assert (256 ^ 8 = u64_max + 1) as H8 by done.
  split_and!; [rewrite Hgen; unfold in_u64 in Hb; lia|rewrite Hgen, H8; unfold in_u64 in Hb; lia|done|].
  assert (∀ s len, is_lower_hex s len = true → len ≤ 64 → addressable s) as Hhex.
  { intros s len [Hl%Z.eqb_eq _]%andb_true_iff ?. unfold addressable. rewrite Hl, H8. unfold u64_max. lia. }
  eexists. split_and!; [|exact Hid|by rewrite Hgen]. unfold session_fields.
  repeat constructor; [by apply (Hhex _ 32)|by apply (Hhex _ 64)..].
Qed.

Lemma history_moves m m' l d :
  history_invariant m l d → settled (dm_connection m') → accounted (tables_of m') → session_moves m m' →
  history_invariant m' l d.
Proof.
  intros [_ _ Hb Hl Hd] Hs Ha Hm. split; [done..|by apply (moves_bound m)| |].
  - intros a [[? ?]|]%Hl; [left|by right]. split; [by apply (superseded_moves m)|done].
  - intros a [?|]%Hd; [left|by right]. by apply (superseded_moves m).
Qed.
Lemma history_generation m l d : history_invariant m l d → 0 ≤ last_generation m.
Proof.
  intros Hh. unfold last_generation. destruct (stored_session m) as [record|] eqn:E; simpl; [|lia].
  by apply (hi_bound _ _ _ Hh).
Qed.

Lemma history_holds m l d : session_history m l d → history_invariant m l d.
Proof.
  induction 1 as [m Hs Hrec Hid|m l d m' _ IH Hs Hst|m l d key inst src nonce r m' _ IH Ht Hr
    |m l d key authority r m' _ IH Hn Hr|m l d r m' _ IH Hr].
  - split; [done| | |by intros a ?%elem_of_nil|by intros a ?%elem_of_nil].
    + split; [|intros *]; rewrite ?Hrec, ?Hid, lookup_empty; by intros.
    + unfold stored_session, stored_row. by rewrite Hrec, lookup_empty.
  - destruct (foreign_all_accounted _ _ Hst (hi_accounted _ _ _ IH)) as [Ha Hrow].
    apply (history_moves m); [done..|]. apply moves_same. unfold stored_session, stored_row.
    change (storage_name Configuration, session_record_id n) with session_target. by rewrite Hrow.
  - pose proof (history_generation _ _ _ IH) as Hpos.
    apply session_allocate_inv in Hr as (Hs' & Hacc' & Hm & Ha); [|apply IH|apply IH|done..].
    pose proof (history_moves _ _ _ _ IH Hs' Hacc' Hm) as [_ _ Hb' Hl Hd]. split; [done..| |done].
    intros a [Hin|?]%elem_of_app; [|by apply Hl].
    destruct r as [a'|]; [|by apply elem_of_nil in Hin]. apply list_elem_of_singleton in Hin as ->.
    destruct (Ha _ eq_refl) as [(record & Hrec & Haut & Hact)|]; [left|by right]. split; [|by eapply authority_derived; eauto].
    exists record, a'. split_and!; [done..|]. left. done.
  - apply session_retire_inv in Hr as (Hs' & Hacc' & Hm & Ha); [|apply IH|apply IH|done].
    pose proof (history_moves _ _ _ _ IH Hs' Hacc' Hm) as [_ _ Hb' Hl Hd]. split; [done..|].
    intros a [Hin|?]%elem_of_app; [|by apply Hd].
    destruct r as [[]|]; [|by apply elem_of_nil in Hin]. apply list_elem_of_singleton in Hin as ->.
    destruct (Ha eq_refl) as [(record & Hrec & Haut & Hend)|]; [left|by right]. exists record, authority. auto 6.
  - apply session_recover_inv in Hr as (Hs' & Hacc' & Hm); [|apply IH|apply IH]. by apply (history_moves m).
Qed.

(** A list is finite, so one collision is enough. *)
Lemma all_or_collision {A} (l : list A) (P : A → Prop) :
  (∀ a, a ∈ l → P a ∨ sha256_collision) → (∀ a, a ∈ l → P a) ∨ sha256_collision.
Proof.
  induction l as [|a l IH]; intros Hl; [left; by intros a ?%elem_of_nil|].
  destruct (Hl a) as [Ha|]; [by left| |by right].
  destruct IH as [Hrest|]; [intros b Hb; apply Hl; by right| |by right].
  left. intros b [->|Hb]%elem_of_cons; auto.
Qed.

(** Two sessions of different generations have different identities, unless SHA-256
    collides. *)
Lemma generations_differ a b :
  derived_authority a → derived_authority b → auth_session_generation a ≠ auth_session_generation b →
  auth_session_id a = auth_session_id b → sha256_collision.
Proof.
  intros (Ha & _ & fa & Hfa & Hia & Hla) (Hb & _ & fb & Hfb & Hib & Hlb) Hne Heq.
  exists (digest_fields fa), (digest_fields fb). split; [|congruence]. intros Hd. apply digest_fields_inj in Hd as ->; [|done..].
  rewrite Hla in Hlb. apply Some_inj, be_bytes_inj in Hlb; [done|simpl; lia..].
Qed.

(** C8: a Watchdog session never comes back.  Take a node whose record only its own calls
    write, from a new database on: begins, replayed or not, retirements and recoveries
    under any idempotency keys, with any writes of other records in between and whatever
    the statements of the database answer.  Then of a session that a begin is
    given, each session given before is that same session or older, and every session
    whose retirement was answered is older; and a Gateway whose high-water mark is any of
    those earlier sessions does not reject it; unless SHA-256 collides. *)
Theorem sessions_never_come_back m l d key inst src nonce a m' :
  session_history m l d → begin_typed key inst src nonce →
  session_allocate key n inst src nonce m = (Ok a, m') →
  ((∀ b, b ∈ l → b = a ∨ auth_session_generation b < auth_session_generation a) ∨ sha256_collision) ∧
  ((∀ b, b ∈ d → auth_session_generation b < auth_session_generation a) ∨ sha256_collision) ∧
  ∀ gst b, b ∈ l → sessions gst !! n = Some (auth_session_generation b, auth_session_id b) →
    session_regresses gst a = false ∨ sha256_collision.
Proof.
  intros Hh Ht Hr. pose proof (history_holds _ _ _ (history_allocate _ _ _ _ _ _ _ _ _ Hh Ht Hr))
    as [_ _ _ Hl Hd]. apply history_holds in Hh. pose proof (history_generation _ _ _ Hh) as Hpos.
  apply session_allocate_inv in Hr as (_ & _ & _ & Ha); [|apply Hh|apply Hh|done..].
  destruct (Ha _ eq_refl) as [(record & Hrec & Haut & Hact)|Hcol]; [|by auto 6].
  assert (∀ b, b ∈ l → (b = a ∨ auth_session_generation b < auth_session_generation a) ∨ sha256_collision) as Hold.
  { intros b Hin. destruct (Hl b) as [[(record' & stored & Hrec' & Hst & Hc) _]|]; [by right| |by right].
    rewrite Hrec in Hrec'. injection Hrec' as <-. rewrite Haut in Hst. injection Hst as <-.
    left. destruct Hc as [[-> _]|?]; [by left|by right]. }
  split_and!.
  - by apply all_or_collision.
  - apply all_or_collision. intros b [(record' & stored & Hrec' & Hst & Hc)|]%Hd; [left|by right].
    rewrite Hrec in Hrec'. injection Hrec' as <-. rewrite Haut in Hst. injection Hst as <-.
    destruct Hc as [[_ Hend]|?]; [|done]. rewrite (Hend eq_refl) in Hact. done.
  - intros gst b Hin Hmark. destruct (Hl a) as [[_ Hda]|]; [by left| |by right].
    destruct (Hl b) as [[_ Hdb]|]; [by right| |by right].
    unfold session_regresses. pose proof Hda as (_ & Hna & _). rewrite Hna, Hmark.
    destruct (Hold b Hin) as [[->|Hlt]|]; [| |by right].
    + left. by rewrite !Z.ltb_irrefl, bool_decide_true, andb_false_r by done.
    + destruct (decide (auth_session_id a = auth_session_id b)) as [Heq|Hne].
      * right. eapply (generations_differ a b); [done..|lia|done].
      * left. rewrite (bool_decide_false (_ = _)) by done. rewrite andb_false_r, orb_false_r.
        rewrite (proj2 (Z.ltb_ge _ _)), (proj2 (Z.eqb_neq _ _)) by lia. done.
Qed.

End generations.

(** ** A node over the database in memory *)

Module SessionLab.
Import Memory.

Definition node : string := "00000000000000000000000000000001".
Definition digest (last : string) : string :=
  "000000000000000000000000000000000000000000000000000000000000000" +:+ last.
Definition core : string := digest "a".
Definition source : string := digest "b".

(** A digest that tells the last byte, the lowest one of a generation. *)
#[local] Instance lab_sha : Sha256 := λ s,
  match String.get (String.length s - 1) s with
  | Some last => digest (to_decimal (Z.of_N (Ascii.N_of_ascii last) mod 10))
  | None => digest "0"
  end.

Definition authority (generation : Z) : GatewayProtectionAuthority :=
  {| auth_node_id := node; auth_core_installation_id := core; auth_watchdog_source_identity := source;
     auth_session_id := digest (to_decimal generation); auth_session_generation := generation |}.
Definition active_row (generation : Z) (key : string) : NodeProtectionSessionGenerationRecord :=
  generation_record node core source key (digest (to_decimal generation)) (digest (to_decimal generation)) generation.
#[local] Instance schema_eq_dec : EqDecision NodeProtectionSessionGenerationSchema.
Proof. solve_decision. Defined.
#[local] Instance record_eq_dec : EqDecision NodeProtectionSessionGenerationRecord.
Proof. solve_decision. Defined.
Definition rows : list NodeProtectionSessionGenerationRecord :=
  [active_row 1 "first"; ended_record (active_row 1 "first"); active_row 2 "second"].
#[local] Instance row_json : Json NodeProtectionSessionGenerationRecord := table_json rows.
#[local] Instance row_json_laws : JsonLaws NodeProtectionSessionGenerationRecord := table_json_laws rows.

Definition m0 : DatabaseManager Connection :=
  {| dm_connection := connection [] 7 empty_tables; dm_is_closed := false; dm_events := [] |}.
Definition allocated (key : string) (nonce : Z) := session_allocate key node core source (digest (to_decimal nonce)).
Definition m1 : DatabaseManager Connection := (allocated "first" 1 m0).2.
Definition m2 : DatabaseManager Connection := (session_retire (end_idempotency_key (authority 1)) (authority 1) m1).2.

Lemma answered {A B} (p : A * B) a : p.1 = a → p = (a, p.2).
Proof. intros <-. apply surjective_pairing. Qed.

Lemma first_allocated : allocated "first" 1 m0 = (Ok (authority 1), m1).
Proof. unfold m1. apply answered. vm_compute. reflexivity. Qed.
Lemma first_retired : session_retire (end_idempotency_key (authority 1)) (authority 1) m1 = (Ok (), m2).
Proof. unfold m2. apply answered. vm_compute. reflexivity. Qed.
Lemma typed key : valid_idempotency_key key = true → ∀ nonce, (nonce = 1 ∨ nonce = 2) →
  begin_typed key core source (digest (to_decimal nonce)).
Proof. by intros Hk nonce [-> | ->]. Qed.

Lemma m2_history : session_history node m2 [authority 1] [authority 1].
Proof.
  assert (session_history node m0 [] []) as H0 by (by apply history_start).
  pose proof (history_allocate node _ _ _ _ _ _ _ _ _ H0 (typed "first" eq_refl 1 (or_introl eq_refl))
    first_allocated) as H1.
  exact (history_retire node _ _ _ _ (authority 1) _ _ H1 eq_refl first_retired).
Qed.

Lemma second_allocated : (allocated "second" 2 m2).1 = Ok (authority 2).
Proof. vm_compute. reflexivity. Qed.

Lemma sessions_never_come_back_witness :
  (allocated "second" 2 m2).1 = Ok (authority 2) ∧
  (auth_session_generation (authority 1) < 2 ∨ sha256_collision).
Proof.
  split; [exact second_allocated|].
  pose proof (answered _ _ second_allocated) as Hr.
  destruct (sessions_never_come_back node eq_refl m2 [authority 1] [authority 1] "second" core source
    (digest (to_decimal 2)) (authority 2) _ m2_history (typed "second" eq_refl 2 (or_intror eq_refl)) Hr)
    as (_ & [Hd|Hc] & _); [left|right; exact Hc].
  apply (Hd (authority 1)). left.
Defined.

(** *** A stray end *)

#[local] Instance no_placements : NodePlacements (DatabaseManager Connection) := {|
  placements_read _ m := (Ok None, m); placements_records m := (Ok [], m) |}.
#[local] Instance no_directory : NodeDirectory (DatabaseManager Connection) := {| directory_node _ m := (Err (), m) |}.
#[local] Instance no_targets : NodeProtectionTargetProvider (DatabaseManager Connection) := {|
  current_target _ m := (Ok None, m) |}.
#[local] Instance everyone : NodeProtectionAuthorizationProvider (DatabaseManager Connection) := {|
  protection_authorize principal action _ m := (core_authorize "gateway" "watchdog" principal action, m) |}.
#[local] Instance noon : NodeProtectionClock (DatabaseManager Connection) := {| protection_now m := (Ok 12, m) |}.
#[local] Instance no_protocol : WatchdogProtocolReads (DatabaseManager Connection) := {|
  ControllerBinding := (); SiteStatus := ();
  resolve_binding _ m := (Err ApiProviderUnavailable, m); site_status _ m := (Err ApiProviderUnavailable, m) |}.

Definition api : NodeProtectionApi :=
  {| na_local_node_id := node; na_core_installation_id := core; na_watchdog_source_identity := source;
     na_lease_milliseconds := 3000; na_watchdog_protocol := false |}.
Definition begin_first := dispatch api "watchdog" (BeginWatchdogSession
  {| br_idempotency_key := "first"; br_node_id := node; br_core_installation_id := core;
     br_watchdog_source_identity := source; br_watchdog_session_nonce := digest "1";
     br_minimum_sample_sequence := 1 |}).
Definition end_stray := dispatch api "watchdog" (EndWatchdogSession
  {| er_node_id := node; er_watchdog_session_id := digest "9"; er_watchdog_session_generation := 9 |}).
Definition fresh : ApiState (DatabaseManager Connection) := Build_ApiState NodeProtectionLeaseState_new false m0.

(** one end request for a session that the node does not know closes the protection
    channel: a begin that the fresh node accepts is refused afterwards, and another end
    does not open the channel again. *)
Theorem stray_end_closes_the_channel :
  (begin_first fresh).1 = Ok (WatchdogSessionBegan (authority 1)) ∧
  let s1 := (end_stray fresh).2 in
  (end_stray fresh).1 = Err ApiConflict ∧ (begin_first s1).1 = Err ApiProviderUnavailable ∧
  let s2 := (end_stray (begin_first s1).2).2 in
  (begin_first s2).1 = Err ApiProviderUnavailable.
Proof. vm_compute. auto. Qed.
End SessionLab.
